(* ===== verification/_CoqProject ===== *)
-Q . S2P
Prelude.v
Bits.v
APInt.v
Expr.v
ExprCreate.v
ExprSem.v
ExprCompare.v
ExprOrder.v
ExprCreateCorrect.v
ExprFactory.v
ExprVisitor.v
ExprReads.v
ExprEval.v
ExprClosed.v
ExprUtil.v
ExprWeight.v
Replace.v
FindReads.v
Solver.v
Constraints.v
SolverScope.v
StagedSolver.v
CachingSolver.v
MapOfSets.v
CexCachingSolver.v
Independence.v
IndependentSolver.v
ValidatingSolver.v
SolverChain.v
Rng.v
Double.v
RngDouble.v
DiscretePDF.v
SearcherSpec.v
WeightedSearcher.v
Searchers.v
FeatMaker.v
ImmutableTree.v
KTest.v
TreeStream.v
PTree.v
BitArray.v
ArrayCache.v
ObjectState.v
ObjectStateInv.v
ObjectStateCorrect.v
ObjectStateSpec.v
MemoryObject.v
TimingSolver.v
AddressSpace.v
AddressSpaceResolve.v
AddressSpaceCow.v
AddressSpaceExternal.v
ExecutionState.v
SeedInfo.v
Executor.v
ExecutorInv.v
ExecutorFork.v
ExecutorValues.v
ExecutorBranch.v
ExecutorMemory.v
ExecutorAccess.v
ConstantDivision.v
STP.v
STPBuilder.v
STPWords.v
STPBuilderInv.v
STPBuilderCorrect.v
STPModels.v
STPSolver.v
STPScope.v
