(* ===== verification/Prelude.v ===== *)
(** * A verified model of FeatMaker's symbolic execution engine

    FeatMaker is a fork of KLEE (C++, under src/klee) whose searcher picks the
    state to run next by scores of learned features.  This library models the
    engine's own logic, from machine words up to the searchers and the solver
    chain, as executable definitions, and proves what makes each part correct.

    ** The program and its parts

    The executor interprets LLVM bitcode.  It keeps an address
    space per state, whose objects hold concrete and symbolic bytes; it builds
    symbolic expressions through the canonicalizing constructors of [Expr]; it asks the
    solver chain whether a branch condition can hold, under the path
    constraints of a state; it reports every instruction to the searcher by
    [update(current, added, removed)] and asks it for the next state by
    [selectState]; and it writes each finished path as a test-case file.

    ** Files

    Foundations
    - [Prelude]: outcomes ([res]: return, failed assertion, exhausted fuel),
      programs over a state ([state], [sholds] for total correctness), words
      ([wrap], [signed]), orders, tactics and hint databases.
    - [Bits]: klee/include/klee/util/Bits.h and Internal/Support/IntEvaluation.h,
      every function, on 32- and 64-bit words.
    - [APInt]: the operations of llvm::APInt the sources use, as a class with
      its documented laws ([APIntLaws]) and a concrete instance ([bv_apint]).

    Expressions (klee/include/klee/Expr, klee/lib/Expr)
    - [Expr]: Expr.h, Updates.cpp: expressions, update lists, arrays, widths,
      hashes, [compare], constants.
    - [ExprCreate], [ExprFactory]: Expr.cpp: [X::create] for every class of
      expression, [createTempRead], [createFromKind].
    - [ExprSem]: the meaning ([denote]) and the typing ([wt]) of expressions,
      independent of the code, and [implements], the contract of a constructor.
    - [ExprCompare], [ExprOrder]: [compare] is structural equality and a total
      order.  [ExprCreateCorrect]: the constructors of the binary kinds.
    - [ExprVisitor]: ExprVisitor.cpp, [visit] with its table.  [ExprEval]:
      ExprEvaluator.cpp, Assignment.cpp: evaluation under an assignment.
    - [ExprReads]: which bytes an expression reads, and that its value depends
      on no other.  [ExprClosed]: classes of expressions the constructors
      preserve.
    - [ExprUtil], [FindReads]: ExprUtil.cpp, the searches for the symbolic
      arrays and for the reads of an expression.
    - [ExprWeight]: a measure of expressions the constructors do not increase.
      [Replace]: the visitors of Constraints.cpp that replace expressions.
      [Constraints]: Constraints.cpp, [ConstraintManager].

    Solvers (klee/include/klee/Solver, klee/lib/Solver)
    - [Solver]: Solver.cpp, SolverImpl.cpp: queries, the contract of a solver
      ([SolverContract]), the wrappers that call it, [getRange].
      [SolverScope]: the expressions the chain is proved for.
    - [StagedSolver]: IncompleteSolver.cpp.  [CachingSolver]: CachingSolver.cpp.
    - [MapOfSets]: Internal/ADT/MapOfSets.h, the index of the counterexample
      cache.  [CexCachingSolver]: CexCachingSolver.cpp.
    - [Independence], [IndependentSolver]: IndependentSolver.cpp, the
      partitions of the constraints and the solver over them.
    - [ValidatingSolver]: ValidatingSolver.cpp, AssignmentValidatingSolver.cpp,
      the layers that check answers.  [SolverChain]: ConstructSolverChain.cpp,
      the layers stacked by the options.
    - [ConstantDivision]: ConstantDivision.cpp, division by multiplication.
    - [STP]: the C interface of the solver STP, a parameter with its documented
      meaning.  [STPBuilder]: STPBuilder.cpp, the translation of expressions to
      its terms, with the tables; [STPWords], [STPBuilderInv],
      [STPBuilderCorrect], [STPModels]: the builder's invariant and the
      correctness of the translation.  [STPSolver]: STPSolver.cpp, the core
      solver over STP.  [STPScope]: its contract, and the whole solver stack.
    - [TimingSolver]: lib/Core/TimingSolver.cpp, the executor's questions.

    Memory (klee/lib/Core)
    - [BitArray]: include/klee/util/BitArray.h.  [ArrayCache]:
      lib/Expr/ArrayCache.cpp, the symbolic arrays, and how they are made.
    - [ObjectState]: Memory.cpp, the bytes of an object, concrete, symbolic or
      in the update list.  [ObjectStateInv] is its invariant, the caches
      included; [ObjectStateCorrect] the operations on bytes;
      [ObjectStateSpec] the accesses of words and the theorems.
    - [MemoryObject]: Memory.h, allocations and their bounds checks.
    - [AddressSpace]: AddressSpace.cpp, the map of a state from allocations to
      object states.  [AddressSpaceResolve]: the objects a pointer may point to.
      [AddressSpaceCow]: sharing between states.  [AddressSpaceExternal]: the
      memory shared with external calls.

    Executor (klee/lib/Core)
    - [ExecutionState]: ExecutionState.cpp, the states and how they branch.
      [SeedInfo]: SeedInfo.cpp, seeds.  [Executor]: the part of Executor.cpp
      that forks, constrains and ends states, over the whole executor.
      [ExecutorInv]: its invariant.  [ExecutorFork]: the theorem on forking.
      [ExecutorValues]: values of expressions and the bytes of test cases.
      [ExecutorBranch]: branching in many ways, and the values bound to
      registers.  [ExecutorMemory]: accesses to memory and the errors they end
      in.  [ExecutorAccess]: accesses that are in bounds.

    Searchers (klee/lib/Core/Searcher.cpp, Searcher.h)
    - [SearcherSpec]: the executor's view of a searcher, the contract and the
      sequences of updates.  [Searchers]: DFS, BFS, random, batching,
      iterative deepening, interleaved and branching searchers.
      [WeightedSearcher]: the weighted random searcher, with its weights.
      [FeatMaker]: the feature-driven searcher.  [PTree]: PTree.cpp and the
      random path searcher.
    - [Rng]: lib/Support/RNG.cpp, and [RngDouble] its floating-point draws.
      [Double]: arithmetic and comparisons of doubles.  [DiscretePDF]:
      Internal/ADT/DiscretePDF.inc, the red-black tree of weights.

    Data structures and files
    - [ImmutableTree]: Internal/ADT/ImmutableTree.h and ImmutableMap.h.
      [KTest]: lib/Basic/KTest.cpp.  [TreeStream]: lib/Support/TreeStream.cpp,
      the streams that record the branches of paths.

    ** What is shown

    - The constructors return, without a failed assertion and within their
      fuel, a well-typed expression of the right width that has the operator's
      value wherever the operands have one.  [create_fuel] (the size of both
      operands plus four) and [extract_fuel] (the size of the operand plus one)
      are enough; no theorem is conditional on fuel.
    - [compare] is a total order, zero exactly on structurally equal
      expressions, so it may order sets and maps.
    - The visitor's traversal is sound for every visitor whose overridden
      functions are; evaluation is exact, and total within [deep_size].
    - A solver built from a solver that keeps the contract keeps it: staging,
      the query cache, the counterexample cache, the independence solver and
      the wrappers are proved against [SolverContract] only, and so the chain
      of any of them keeps it.  The two caches of solutions and the partition
      need constraints with a value in every environment ([evaluable]).  The
      checking layers pass the answers of a right solver on, unless the oracle
      fails; for initial values this asks that the objects cover the query and
      that its negation does not fold to false
      ([validating_false_alarm] is a right answer that fails a check).
      [getRange] ends (64 halvings) and is tight.
    - The translation for STP returns on every well-typed expression of the
      kinds it handles, in every state of its tables, and its terms have the
      values of the expressions, under three conditions the code does not
      ensure: no negative number is shifted arithmetically by its width or more
      ([no_overshift]); the names made up for arrays are distinct, as they are
      if the arrays' names do not end in digits ([unique_names_ok],
      [names_collide]); and no update node is allocated where one that the
      table still keys by its address was ([one_node_per_address],
      [reused_node_mistranslated]).  Under these and when the process that runs
      STP does not fail unnoticed, the answers of [STPSolver], in-process and
      in a child process, are right, and so are those of the caching layers
      over it, through every sequence of queries.
    - [ConstraintManager]: adding a constraint to a satisfiable set ends,
      reaches no assertion and keeps the solutions; simplifying an expression
      by a set keeps its value in the solutions.  The rewriting adds its own
      results again; the reads the constraints contain, and then the weight of
      their nodes, decrease ([constraint_fuel] bounds the recursion).
    - An object state implements an array of symbolic bytes ([contents], one
      value per environment): reads and writes of words at constant and
      symbolic offsets, through every mixture of its caches, with the byte
      order of the target.  The bounds checks are exact.  [resolve] finds
      exactly the objects a pointer may point to, through any solver that keeps
      the contract and the simplification of [ConstraintManager].  States share object states by copy on write: in every
      reachable system of address spaces a step of one is invisible to the
      others.
    - [Executor::fork], without seeds, replay or static limits, splits the
      solutions of a state's path constraints over its successors
      ([fork_splits_solutions]): both branches are taken if both are possible
      and forking is not forbidden; where it is, the solutions of one branch
      are dropped;
      every state of the executor keeps satisfiable constraints, a leaf in the
      process tree and its path stream.  [Executor::branch] does the same for
      any number of conditions ([branch_splits_solutions]).  The bytes of a test
      case solve the path constraints ([test_case_follows_path]).  An access
      that is in bounds of one object in every solution is performed exactly,
      in view of no other state, and is never reported as an error
      ([safe_access_performed]).
    - The partitions of the constraints end (a round that changes a set leaves
      fewer) and their parts share no byte.
    - A searcher manages exactly the states the executor reports, through
      every legal sequence of updates; each has its own order of selection;
      FeatMaker's picks a state of maximal score; the weighted random searcher
      keeps a map from states to weights in a tree whose sums are right after
      every rotation, and picks the state whose interval holds the draw.
    - The trees stay balanced and sorted and implement finite maps, their
      iterators are cursors; the set trie answers subset queries exactly;
      saving and loading a test case is the identity and loading a malformed
      file overruns no buffer, but for one length.  A forking stream reads back
      what its ancestors held at the fork and what was written to it.

    ** Conventions

    A C++ reference or pointer to an object that is not changed is the object;
    a [const Array *] is an address, with the immutable objects in the store
    [arrayAt].  A state the source mutates is passed explicitly, or through
    [state].  An assertion, an out-of-bounds access or other undefined
    behaviour the model can see is [AssertFail].  Machine integers are [Z]
    with [wrap] where they may wrap.  Code outside src/ is a parameter:
    llvm::APInt through [APInt], STP through [STP] and [STPContext], the C
    library's streams through the monad of [KTest].  How a forked process ends
    is a parameter; what it computes is not.

    ** Not modelled

    - The decoding of LLVM instructions, the calls of external functions and the
      special functions (Core/Executor.cpp, SpecialFunctionHandler.cpp), the
      module passes, the
      printers and the back ends other than STP: they are calls into LLVM, into
      external solvers, or text output.
    - Statistics, timers, options, logs and status codes: pure output.
    - Core/MemoryManager.cpp: the addresses come from the host's allocator; the
      theorems on resolution ask that objects do not overlap ([laid_out]).
    - State merging and the set-up of the searchers from the options: they
      drive the interpreter's pause and merge of states, which is not modelled. *)
From Stdlib Require Import ZArith Lia.
From stdpp Require Import base list numbers option gmap sorting.

(** * Outcomes of C++ code that may fail

    [Ok v] is a normal return.  [AssertFail] is a failed [assert] or a
    violated precondition of the language (a shift by the width or more, a
    division by zero).  [OutOfFuel] is reached only by a definition that
    recurses on a bound; the components prove that it is not reached. *)
Inductive res (A : Type) : Type :=
| Ok (v : A)
| AssertFail
| OutOfFuel.
Arguments Ok {A} v.
Arguments AssertFail {A}.
Arguments OutOfFuel {A}.

Definition res_bind {A B : Type} (m : res A) (k : A -> res B) : res B :=
  match m with
  | Ok v => k v
  | AssertFail => AssertFail
  | OutOfFuel => OutOfFuel
  end.

(** [assert(b)] followed by the rest of the function. *)
Definition res_assert {A : Type} (b : bool) (k : res A) : res A :=
  if b then k else AssertFail.

Declare Scope klee_scope.
Delimit Scope klee_scope with klee.
Notation "'let*' x ':=' m 'in' k" := (res_bind m (fun x => k))
  (at level 10, x name, m at level 100, k at level 200) : klee_scope.
Notation "'assert*' b 'in' k" := (res_assert b k)
  (at level 10, b at level 100, k at level 200) : klee_scope.
Open Scope klee_scope.

(** * Programs over a state

    A program reads and updates the state of an object and may fail. *)
Section state.
Context {S : Type}.

Definition state (T : Type) : Type := S -> res (T * S).
Definition sret {T} (x : T) : state T := fun s => Ok (x, s).
Definition sbind {T U} (m : state T) (k : T -> state U) : state U :=
  fun s => let* p := m s in k (fst p) (snd p).
Definition slift {T} (m : res T) : state T := fun s => let* x := m in Ok (x, s).

(** Total correctness: from every state of the invariant, [m] returns, keeps
    the invariant, and its result satisfies [Q]. *)
Definition sholds (Inv : S -> Prop) {T} (m : state T) (Q : T -> Prop) : Prop :=
  forall s, Inv s -> exists x s', m s = Ok (x, s') /\ Inv s' /\ Q x.

Context {Inv : S -> Prop}.

Lemma sholds_ret {T} (x : T) (Q : T -> Prop) : Q x -> sholds Inv (sret x) Q.
Proof. intros HQ s Hs. by exists x, s. Qed.

Lemma sholds_lift {T} (m : res T) (Q : T -> Prop) :
  (exists x, m = Ok x /\ Q x) -> sholds Inv (slift m) Q.
Proof. intros (x & -> & HQ) s Hs. by exists x, s. Qed.

Lemma sholds_bind {T U} (m : state T) (k : T -> state U) Q Q' :
  sholds Inv m Q -> (forall x, Q x -> sholds Inv (k x) Q') -> sholds Inv (sbind m k) Q'.
Proof.
  intros Hm Hk s Hs. destruct (Hm s Hs) as (x & s' & E & Hs' & HQ).
  unfold sbind. rewrite E. cbn. by apply Hk.
Qed.

Lemma sholds_weaken {T} (m : state T) (Q Q' : T -> Prop) :
  sholds Inv m Q -> (forall x, Q x -> Q' x) -> sholds Inv m Q'.
Proof.
  intros Hm HQ s Hs. destruct (Hm s Hs) as (x & s' & ? & ? & ?). exists x, s'. auto.
Qed.
End state.
Arguments state S T : clear implicits.

Notation "'do*' x ':=' m 'in' k" := (sbind m (fun x => k))
  (at level 10, x name, m at level 100, k at level 200) : klee_scope.

(** Running a program on one component of a pair of objects. *)
Definition on_fst {S1 S2 T} (m : state S1 T) : state (S1 * S2) T :=
  fun s => let* p := m (fst s) in Ok (fst p, (snd p, snd s)).
Definition on_snd {S1 S2 T} (m : state S2 T) : state (S1 * S2) T :=
  fun s => let* p := m (snd s) in Ok (fst p, (fst s, snd p)).

Lemma sholds_on_fst {S1 S2 T} (I1 : S1 -> Prop) (I2 : S2 -> Prop) (m : state S1 T) Q :
  sholds I1 m Q -> sholds (fun s => I1 (fst s) /\ I2 (snd s)) (on_fst m) Q.
Proof.
  intros H [s1 s2] [H1 H2]. destruct (H s1 H1) as (x & s1' & E & ? & ?). unfold on_fst. cbn.
  rewrite E. cbn. by exists x, (s1', s2).
Qed.

Lemma sholds_on_snd {S1 S2 T} (I1 : S1 -> Prop) (I2 : S2 -> Prop) (m : state S2 T) Q :
  sholds I2 m Q -> sholds (fun s => I1 (fst s) /\ I2 (snd s)) (on_snd m) Q.
Proof.
  intros H [s1 s2] [H1 H2]. destruct (H s2 H2) as (x & s2' & E & ? & ?). unfold on_snd. cbn.
  rewrite E. cbn. by exists x, (s1, s2').
Qed.

(** Programs with pre- and postconditions: from every state of [P], [m] returns
    a result and a state of [Q]. *)
Section triple.
Context {S : Type}.

Definition triple {T} (P : S -> Prop) (m : state S T) (Q : T -> S -> Prop) : Prop :=
  forall s, P s -> exists x s', m s = Ok (x, s') /\ Q x s'.

Lemma triple_ret {T} P (x : T) (Q : T -> S -> Prop) : (forall s, P s -> Q x s) -> triple P (sret x) Q.
Proof. intros H s Hs. exists x, s. auto. Qed.

Lemma triple_lift {T} P (m : res T) x (Q : T -> S -> Prop) :
  m = Ok x -> (forall s, P s -> Q x s) -> triple P (slift m) Q.
Proof. intros -> H s Hs. exists x, s. auto. Qed.

Lemma triple_bind {T U} P (m : state S T) (k : T -> state S U) Q R :
  triple P m Q -> (forall x, triple (Q x) (k x) R) -> triple P (sbind m k) R.
Proof.
  intros Hm Hk s Hs. destruct (Hm s Hs) as (x & s' & E & HQ). unfold sbind. rewrite E. cbn. by apply Hk.
Qed.

Lemma triple_weaken {T} (P P' : S -> Prop) (m : state S T) (Q Q' : T -> S -> Prop) :
  triple P m Q -> (forall s, P' s -> P s) -> (forall x s, Q x s -> Q' x s) -> triple P' m Q'.
Proof. intros Hm HP HQ s Hs. destruct (Hm s (HP s Hs)) as (x & s' & ? & ?). exists x, s'. auto. Qed.

(** A step that does not touch the state. *)
Lemma triple_step {T U} P (m : res T) x (k : T -> state S U) Q :
  m = Ok x -> triple P (k x) Q -> triple P (sbind (slift m) k) Q.
Proof. intros E Hk s Hs. unfold sbind, slift. rewrite E. cbn. by apply Hk. Qed.

(** A fact that does not depend on the state moves in front. *)
Lemma triple_pure {T} (F : Prop) P (m : state S T) Q :
  (F -> triple P m Q) -> triple (fun s => F /\ P s) m Q.
Proof. intros H s [HF HP]. by apply H. Qed.
End triple.

(** Unsigned wrap-around of a [w]-bit register. *)
Definition wrap (w x : Z) : Z := (x mod 2 ^ w)%Z.

(** Two's complement reading of a [w]-bit pattern, the value of a signed
    variable that holds it. *)
Definition signed (w x : Z) : Z :=
  (if 2 * (x mod 2 ^ w) <? 2 ^ w then x mod 2 ^ w else x mod 2 ^ w - 2 ^ w)%Z.

(** * Automation *)

(** Lemmas about words and bit patterns used through [autorewrite]. *)
Create HintDb klee.
Create Rewrite HintDb kbits.

(** Splits the [if]s of the goal on integer and boolean tests and closes the
    arithmetic cases. *)
Ltac bool_case :=
  match goal with
  | |- context [if ?b then _ else _] => destruct b eqn:?
  end.
Ltac tidy_bools :=
  repeat match goal with
  | H : (_ && _)%bool = true |- _ => apply andb_prop in H as [? ?]
  | H : (_ || _)%bool = false |- _ => apply orb_false_iff in H as [? ?]
  | H : negb _ = true |- _ => apply negb_true_iff in H
  | H : negb _ = false |- _ => apply negb_false_iff in H
  | H : (_ =? _)%Z = true |- _ => apply Z.eqb_eq in H
  | H : (_ =? _)%Z = false |- _ => apply Z.eqb_neq in H
  | H : (_ <? _)%Z = true |- _ => apply Z.ltb_lt in H
  | H : (_ <? _)%Z = false |- _ => apply Z.ltb_ge in H
  | H : (_ <=? _)%Z = true |- _ => apply Z.leb_le in H
  | H : (_ <=? _)%Z = false |- _ => apply Z.leb_gt in H
  end.

(** Discharges the assertion at the head of a program. *)
Ltac step_assert :=
  match goal with
  | |- context [res_assert ?b _] =>
      replace b with true by (symmetry; rewrite ?andb_true_iff, ?negb_true_iff,
        ?Z.eqb_neq, ?Z.eqb_eq, ?Z.ltb_lt, ?Z.leb_le; repeat split; auto; lia);
      cbn [res_assert]
  end.

Lemma res_bind_ok {A B} (m : res A) (k : A -> res B) v :
  m = Ok v -> res_bind m k = k v.
Proof. by intros ->. Qed.

Lemma res_bind_inv {A B} (m : res A) (k : A -> res B) v :
  res_bind m k = Ok v -> exists a, m = Ok a /\ k a = Ok v.
Proof. destruct m; cbn; intros; try discriminate; eauto. Qed.

Lemma res_assert_inv {A} b (k : res A) v :
  res_assert b k = Ok v -> b = true /\ k = Ok v.
Proof. destruct b; cbn; intros; try discriminate; eauto. Qed.

(** Enumerates the integers of a bounded range: a boolean test that holds on
    each of [0, ..., n-1] holds on every [z] of the range. *)
Lemma Z_range_forall (P : Z -> bool) (n : nat) :
  forallb (fun k => P (Z.of_nat k)) (List.seq 0 n) = true ->
  forall z, (0 <= z < Z.of_nat n)%Z -> P z = true.
Proof.
  intros H z Hz. rewrite forallb_forall in H.
  rewrite <- (Z2Nat.id z) by lia. apply H, in_seq. lia.
Qed.

(** * Words *)
Section words.
Local Open Scope Z_scope.

Lemma wrap_range w x : 0 <= w -> 0 <= wrap w x < 2 ^ w.
Proof. intros. apply Z.mod_pos_bound. lia. Qed.

Lemma wrap_small w x : 0 <= x < 2 ^ w -> wrap w x = x.
Proof. intros. by apply Z.mod_small. Qed.

Lemma wrap_wrap w v x : 0 <= w <= v -> wrap w (wrap v x) = wrap w x.
Proof.
  intros. unfold wrap. rewrite <- !Z.land_ones by lia.
  rewrite <- Z.land_assoc. f_equal. rewrite Z.land_comm, Z.land_ones by lia.
  apply Z.mod_small. rewrite Z.ones_equiv.
  assert (2 ^ w <= 2 ^ v) by (apply Z.pow_le_mono_r; lia). lia.
Qed.

Lemma signed_range w x : 0 < w -> - 2 ^ (w - 1) <= signed w x < 2 ^ (w - 1).
Proof.
  intros. unfold signed. pose proof (Z.mod_pos_bound x (2 ^ w)).
  replace (2 ^ w) with (2 * 2 ^ (w - 1)) in * by
    (rewrite <- Z.pow_succ_r by lia; f_equal; lia).
  bool_case; tidy_bools; lia.
Qed.

Lemma signed_wrap w x : 0 <= w -> signed w (wrap w x) = signed w x.
Proof. intros. unfold signed, wrap. by rewrite Z.mod_mod by lia. Qed.

Lemma wrap_signed w x : 0 <= w -> wrap w (signed w x) = wrap w x.
Proof.
  intros. unfold signed, wrap. bool_case.
  - apply Z.mod_mod. lia.
  - rewrite <- (Z.mod_add _ 1) by lia. rewrite Z.mul_1_l, Z.sub_add.
    apply Z.mod_mod. lia.
Qed.

Lemma signed_small w x : 0 < w -> - 2 ^ (w - 1) <= x < 2 ^ (w - 1) -> signed w x = x.
Proof.
  intros. unfold signed.
  assert (2 ^ w = 2 * 2 ^ (w - 1)) as E by
    (rewrite <- Z.pow_succ_r by lia; f_equal; lia).
  destruct (Z_lt_le_dec x 0).
  - assert (x mod 2 ^ w = x + 2 ^ w) as ->.
    { symmetry. apply (Z.mod_unique_pos _ _ (-1)); lia. }
    bool_case; tidy_bools; lia.
  - rewrite Z.mod_small by lia. bool_case; tidy_bools; lia.
Qed.

(** The shifted all-ones constant of the source is the mask of [N] bits. *)
Lemma shiftr_all_ones w N : 0 <= N <= w -> Z.shiftr (2 ^ w - 1) (w - N) = Z.ones N.
Proof.
  intros. rewrite Z.shiftr_div_pow2 by lia. rewrite Z.ones_equiv.
  symmetry. apply (Z.div_unique_pos _ _ _ (2 ^ (w - N) - 1)); [lia|].
  replace w with ((w - N) + N) at 1 by lia. rewrite Z.pow_add_r by lia. lia.
Qed.

Lemma land_all_ones x w N :
  0 <= N <= w -> Z.land x (Z.shiftr (2 ^ w - 1) (w - N)) = wrap N x.
Proof. intros. rewrite shiftr_all_ones, Z.land_ones by lia. done. Qed.

(** Every non-zero integer is an odd number shifted by the index of its
    lowest set bit. *)
Lemma odd_decomposition x : x <> 0 -> exists i m, 0 <= i /\ x = 2 ^ i * (2 * m + 1).
Proof.
  intros Hx.
  assert (forall n : nat, forall x, x <> 0 -> Z.abs x < 2 ^ Z.of_nat n ->
    exists i m, 0 <= i /\ x = 2 ^ i * (2 * m + 1)) as H.
  { clear x Hx. induction n as [|n IH]; intros x Hx Hb.
    - change (2 ^ Z.of_nat 0) with 1 in Hb. lia.
    - rewrite Nat2Z.inj_succ, Z.pow_succ_r in Hb by lia.
      destruct (Z.Even_or_Odd x) as [[k ->]|[k ->]].
      + destruct (IH k) as (i & m & Hi & ->); [lia|lia|].
        exists (i + 1), m. split; [lia|]. rewrite Z.pow_add_r by lia. lia.
      + exists 0, k. split; [lia|]. change (2 ^ 0) with 1. lia. }
  apply (H (Z.to_nat (Z.abs x))); [done|].
  rewrite Z2Nat.id by lia. apply Z.pow_gt_lin_r; lia.
Qed.

Lemma land_mul_pow2 i a b : 0 <= i -> Z.land (2 ^ i * a) (2 ^ i * b) = 2 ^ i * Z.land a b.
Proof.
  intros. rewrite !(Z.mul_comm (2 ^ i)), <- !Z.shiftl_mul_pow2 by lia.
  symmetry. apply Z.shiftl_land.
Qed.

Lemma land_odd_opp m : Z.land (2 * m + 1) (- (2 * m + 1)) = 1.
Proof.
  replace (- (2 * m + 1)) with (2 * Z.lnot m + 1) by (unfold Z.lnot; lia).
  apply Z.bits_inj'. intros [|n|n] Hn; try lia.
  - by rewrite Z.land_spec, !Z.testbit_odd_0.
  - replace (Z.pos n) with (Z.succ (Z.pos n - 1)) by lia.
    rewrite Z.land_spec, !Z.testbit_odd_succ by lia.
    rewrite Z.lnot_spec by lia.
    change 1 with (2 * 0 + 1). rewrite Z.testbit_odd_succ, Z.testbit_0_l by lia.
    apply andb_negb_r.
Qed.

Lemma land_odd_pred m : Z.land (2 * m + 1) (2 * m) = 2 * m.
Proof.
  apply Z.bits_inj'. intros [|n|n] Hn; try lia.
  - by rewrite Z.land_spec, Z.testbit_odd_0, Z.testbit_even_0.
  - replace (Z.pos n) with (Z.succ (Z.pos n - 1)) by lia.
    rewrite Z.land_spec, Z.testbit_odd_succ, Z.testbit_even_succ by lia.
    apply andb_diag.
Qed.

Lemma land_pow2_pred i a b :
  0 <= i -> Z.land (2 ^ i * a) (2 ^ i * b + (2 ^ i - 1)) = 2 ^ i * Z.land a b.
Proof.
  intros Hi. assert (0 < 2 ^ i) by lia. apply Z.bits_inj'. intros n Hn.
  rewrite Z.land_spec, !(Z.mul_comm (2 ^ i)).
  destruct (Z_lt_le_dec n i).
  - rewrite !Z.mul_pow2_bits_low by lia. done.
  - rewrite !Z.mul_pow2_bits, Z.land_spec by lia. f_equal.
    rewrite <- (Z.sub_add i n) at 1. rewrite <- Z.div_pow2_bits by lia.
    f_equal. rewrite Z.div_add_l, (Z.div_small (2 ^ i - 1)) by lia. lia.
Qed.

(** The lowest set bit of [x], and [x] without it, in a [w]-bit register. *)
Lemma isolate_lowest w x i m :
  0 <= i -> 0 <= x < 2 ^ w -> x = 2 ^ i * (2 * m + 1) ->
  Z.land x (wrap w (- x)) = 2 ^ i.
Proof.
  intros Hi Hx Heq.
  assert (0 <= w). { destruct (Z_lt_le_dec w 0) as [Hw|]; [|lia].
    rewrite (Z.pow_neg_r 2 w Hw) in Hx. lia. }
  subst x. assert (0 < 2 ^ i) by lia.
  unfold wrap. rewrite <- Z.land_ones, Z.land_assoc, Z.land_ones by lia.
  replace (- (2 ^ i * (2 * m + 1))) with (2 ^ i * (- (2 * m + 1))) by lia.
  rewrite land_mul_pow2, land_odd_opp, Z.mul_1_r by lia.
  apply Z.mod_small. split; [lia|].
  assert (0 <= m) by nia. nia.
Qed.

Lemma clear_lowest w x i m :
  0 <= i -> 0 <= x < 2 ^ w -> x = 2 ^ i * (2 * m + 1) ->
  Z.land x (wrap w (x - 1)) = 2 ^ i * (2 * m).
Proof.
  intros Hi Hx ->. assert (0 < 2 ^ i) by lia. assert (0 <= m) by nia.
  rewrite wrap_small by nia.
  replace (2 ^ i * (2 * m + 1) - 1) with (2 ^ i * (2 * m) + (2 ^ i - 1)) by lia.
  rewrite land_pow2_pred, land_odd_pred by lia. done.
Qed.

(** Ranges of the bitwise operators. *)
Lemma land_range w x y : 0 < w -> 0 <= x < 2 ^ w -> 0 <= y -> 0 <= Z.land x y < 2 ^ w.
Proof.
  intros. split; [apply Z.land_nonneg; lia|].
  rewrite <- (Z.mod_small x (2 ^ w)), <- Z.land_ones by lia.
  rewrite <- Z.land_assoc, (Z.land_comm (Z.ones w)), Z.land_assoc, Z.land_ones by lia.
  apply Z.mod_pos_bound. lia.
Qed.

Lemma bits_range w x : 0 <= w -> 0 <= x -> (forall i, w <= i -> Z.testbit x i = false) -> x < 2 ^ w.
Proof.
  intros Hw Hx H. destruct (Z.eq_dec x 0) as [->|]; [lia|].
  apply Z.log2_lt_pow2; [lia|].
  destruct (Z_lt_le_dec (Z.log2 x) w) as [|Hle]; [done|].
  specialize (H _ Hle). by rewrite Z.bit_log2 in H by lia.
Qed.

Lemma testbit_high w x i : 0 <= x < 2 ^ w -> 0 <= w <= i -> Z.testbit x i = false.
Proof.
  intros Hx Hi. rewrite <- (Z.mod_small x (2 ^ w)) by done. apply Z.mod_pow2_bits_high. lia.
Qed.

Lemma lor_range w x y : 0 < w -> 0 <= x < 2 ^ w -> 0 <= y < 2 ^ w -> 0 <= Z.lor x y < 2 ^ w.
Proof.
  intros. assert (0 <= Z.lor x y) by (apply Z.lor_nonneg; lia). split; [done|].
  apply bits_range; [lia|done|]. intros. by rewrite Z.lor_spec, !(testbit_high w) by lia.
Qed.

Lemma lxor_range w x y : 0 < w -> 0 <= x < 2 ^ w -> 0 <= y < 2 ^ w -> 0 <= Z.lxor x y < 2 ^ w.
Proof.
  intros. assert (0 <= Z.lxor x y) by (apply Z.lxor_nonneg; lia). split; [done|].
  apply bits_range; [lia|done|]. intros. by rewrite Z.lxor_spec, !(testbit_high w) by lia.
Qed.

End words.

#[export] Hint Rewrite wrap_wrap signed_wrap wrap_signed using lia : kbits.

(** Modular arithmetic: [wrap] is absorbed by an outer [wrap]. *)
Create Rewrite HintDb kwrap.

Local Open Scope Z_scope.
Lemma wrap_add_l w a b : wrap w (wrap w a + b) = wrap w (a + b).
Proof. apply Zplus_mod_idemp_l. Qed.
Lemma wrap_add_r w a b : wrap w (a + wrap w b) = wrap w (a + b).
Proof. apply Zplus_mod_idemp_r. Qed.
Lemma wrap_sub_l w a b : wrap w (wrap w a - b) = wrap w (a - b).
Proof. apply Zminus_mod_idemp_l. Qed.
Lemma wrap_sub_r w a b : wrap w (a - wrap w b) = wrap w (a - b).
Proof. apply Zminus_mod_idemp_r. Qed.
Lemma wrap_mul_l w a b : wrap w (wrap w a * b) = wrap w (a * b).
Proof. apply Zmult_mod_idemp_l. Qed.
Lemma wrap_mul_r w a b : wrap w (a * wrap w b) = wrap w (a * b).
Proof. apply Zmult_mod_idemp_r. Qed.

#[export] Hint Rewrite wrap_add_l wrap_add_r wrap_sub_l wrap_sub_r wrap_mul_l wrap_mul_r : kwrap.

(** Proves equalities of wrapped ring expressions. *)
Ltac wrap_ring := autorewrite with kwrap; f_equal; ring.

(** * Orders *)

(** [CMP] is a strict weak order: the requirement of the C++ library on a
    comparison. *)
Class StrictWeakOrder {K : Type} (CMP : K -> K -> bool) : Prop := {
  cmp_irrefl x : CMP x x = false;
  cmp_trans x y z : CMP x y = true -> CMP y z = true -> CMP x z = true;
  cmp_split x y z : CMP x z = true -> CMP x y = true \/ CMP y z = true;
}.

(** One whose equivalent keys are equal. *)
Class StrictTotalOrder {K : Type} (CMP : K -> K -> bool) : Prop := {
  #[global] total_weak :: StrictWeakOrder CMP;
  cmp_total x y : CMP x y = false -> CMP y x = false -> x = y;
}.

#[export] Instance Zltb_order : StrictTotalOrder Z.ltb.
Proof. split; [split|]; intros; rewrite ?Z.ltb_lt, ?Z.ltb_ge in *; lia. Qed.

(** Addresses in increasing order: the iteration order of a [std::set] or
    [std::map] keyed by pointers. *)
Definition by_address (X : gset positive) : list positive := merge_sort Pos.le (elements X).

Lemma by_address_spec X : (forall x, x ∈ by_address X <-> x ∈ X) /\ NoDup (by_address X).
Proof.
  unfold by_address. pose proof (merge_sort_Permutation Pos.le (elements X)) as P. split.
  - intros x. by rewrite P, elem_of_elements.
  - rewrite P. apply NoDup_elements.
Qed.
