(* ===== verification/Bits.v ===== *)
(** Bit manipulation of machine words: klee/util/Bits.h (Modules [bits32] and
    [bits64]) and the 64-bit evaluation of narrow integers of
    klee/Internal/Support/IntEvaluation.h (Module [ints]).

    A [uint64_t] is a [Z] in [0, 2^64); every addition, subtraction, product,
    negation and left shift wraps explicitly.  A failed [assert], a shift by
    the width or more and a division by zero give [AssertFail]. *)
From Stdlib Require Import ZArith Lia Bool.
From stdpp Require Import base list numbers option.
From S2P Require Import Prelude.
Open Scope Z_scope.

Module bits32.

(* UINT32_C(-1) *)
Definition ones32 : Z := 2 ^ 32 - 1.

Definition maxValueOfNBits (N : Z) : res Z :=
  assert* N <=? 32 in
  if N =? 0 then Ok 0 else Ok (Z.shiftr ones32 (32 - N)).

Definition truncateToNBits (x N : Z) : res Z :=
  assert* (0 <? N) && (N <=? 32) in
  Ok (Z.land x (Z.shiftr ones32 (32 - N))).

Definition withoutRightmostBit (x : Z) : Z := Z.land x (wrap 32 (x - 1)).

Definition isolateRightmostBit (x : Z) : Z := Z.land x (wrap 32 (- x)).

Definition isPowerOfTwo (x : Z) : bool :=
  if x =? 0 then false else Z.land x (wrap 32 (x - 1)) =? 0.

Definition indexOfSingleBit (x : Z) : res Z :=
  assert* withoutRightmostBit x =? 0 in
  let nz m := negb (Z.land x m =? 0) in
  let res := 0 in
  let res := if nz 0xFFFF0000 then res + 16 else res in
  let res := if nz 0xFF00FF00 then res + 8 else res in
  let res := if nz 0xF0F0F0F0 then res + 4 else res in
  let res := if nz 0xCCCCCCCC then res + 2 else res in
  let res := if nz 0xAAAAAAAA then res + 1 else res in
  assert* res <? 32 in
  assert* wrap 32 (Z.shiftl 1 res) =? x in
  Ok res.

Definition indexOfRightmostBit (x : Z) : res Z :=
  indexOfSingleBit (isolateRightmostBit x).

End bits32.

Module bits64.

(* UINT64_C(-1) *)
Definition ones64 : Z := 2 ^ 64 - 1.

Definition maxValueOfNBits (N : Z) : res Z :=
  assert* N <=? 64 in
  if N =? 0 then Ok 0 else Ok (Z.shiftr ones64 (64 - N)).

Definition truncateToNBits (x N : Z) : res Z :=
  assert* (0 <? N) && (N <=? 64) in
  Ok (Z.land x (Z.shiftr ones64 (64 - N))).

Definition withoutRightmostBit (x : Z) : Z := Z.land x (wrap 64 (x - 1)).

Definition isolateRightmostBit (x : Z) : Z := Z.land x (wrap 64 (- x)).

Definition isPowerOfTwo (x : Z) : bool :=
  if x =? 0 then false else Z.land x (wrap 64 (x - 1)) =? 0.

Definition indexOfSingleBit (x : Z) : res Z :=
  assert* Z.land x (wrap 64 (x - 1)) =? 0 in
  let* res := bits32.indexOfSingleBit (wrap 32 (Z.lor x (Z.shiftr x 32))) in
  let res := if negb (Z.land x (wrap 64 (Z.shiftl 0xFFFFFFFF 32)) =? 0)
             then res + 32 else res in
  assert* res <? 64 in
  assert* wrap 64 (Z.shiftl 1 res) =? x in
  Ok res.

Definition indexOfRightmostBit (x : Z) : res Z :=
  indexOfSingleBit (isolateRightmostBit x).

End bits64.

Module ints.

Definition MAX_BITS : Z := 64.

Definition add (l r inWidth : Z) : res Z :=
  bits64.truncateToNBits (wrap 64 (l + r)) inWidth.

Definition sub (l r inWidth : Z) : res Z :=
  bits64.truncateToNBits (wrap 64 (l - r)) inWidth.

Definition mul (l r inWidth : Z) : res Z :=
  bits64.truncateToNBits (wrap 64 (l * r)) inWidth.

Definition trunc (l outWidth inWidth : Z) : res Z :=
  bits64.truncateToNBits l outWidth.

Definition zext (l outWidth inWidth : Z) : Z := l.

(* the shift amount is a uint32_t, the right shift is on int64_t *)
Definition sext (l outWidth inWidth : Z) : res Z :=
  let numInvalidBits := wrap 32 (MAX_BITS - inWidth) in
  assert* numInvalidBits <? 64 in
  bits64.truncateToNBits
    (wrap 64 (Z.shiftr (signed 64 (wrap 64 (Z.shiftl l numInvalidBits))) numInvalidBits))
    outWidth.

Definition udiv (l r inWidth : Z) : res Z :=
  assert* negb (r =? 0) in
  bits64.truncateToNBits (l / r) inWidth.

Definition urem (l r inWidth : Z) : res Z :=
  assert* negb (r =? 0) in
  bits64.truncateToNBits (l mod r) inWidth.

(* int64_t division: undefined by zero and for INT64_MIN / -1 *)
Definition int64_div_defined (sl sr : Z) : bool :=
  negb (sr =? 0) && negb ((sl =? - 2 ^ 63) && (sr =? -1)).

Definition sdiv (l r inWidth : Z) : res Z :=
  let* l64 := sext l MAX_BITS inWidth in
  let* r64 := sext r MAX_BITS inWidth in
  let sl := signed 64 l64 in
  let sr := signed 64 r64 in
  assert* int64_div_defined sl sr in
  bits64.truncateToNBits (wrap 64 (Z.quot sl sr)) inWidth.

Definition srem (l r inWidth : Z) : res Z :=
  let* l64 := sext l MAX_BITS inWidth in
  let* r64 := sext r MAX_BITS inWidth in
  let sl := signed 64 l64 in
  let sr := signed 64 r64 in
  assert* int64_div_defined sl sr in
  bits64.truncateToNBits (wrap 64 (Z.rem sl sr)) inWidth.

Definition ashr (l shift inWidth : Z) : res Z :=
  let* l64 := sext l MAX_BITS inWidth in
  let sl := signed 64 l64 in
  assert* shift <? 64 in
  bits64.truncateToNBits (wrap 64 (Z.shiftr sl shift)) inWidth.

Definition lshr (l shift inWidth : Z) : res Z :=
  assert* shift <? 64 in Ok (Z.shiftr l shift).

Definition shl (l shift inWidth : Z) : res Z :=
  assert* shift <? 64 in
  bits64.truncateToNBits (wrap 64 (Z.shiftl l shift)) inWidth.

Definition land (l r inWidth : Z) : Z := Z.land l r.

Definition lor (l r inWidth : Z) : Z := Z.lor l r.

Definition lxor (l r inWidth : Z) : Z := Z.lxor l r.

Definition eq (l r inWidth : Z) : Z := Z.b2z (l =? r).

Definition ne (l r inWidth : Z) : Z := Z.b2z (negb (l =? r)).

Definition ult (l r inWidth : Z) : Z := Z.b2z (l <? r).

Definition ule (l r inWidth : Z) : Z := Z.b2z (l <=? r).

Definition ugt (l r inWidth : Z) : Z := Z.b2z (r <? l).

Definition uge (l r inWidth : Z) : Z := Z.b2z (r <=? l).

(* the four signed comparisons extend both operands first *)
Definition signed_cmp (c : Z -> Z -> bool) (l r inWidth : Z) : res Z :=
  let* sl := sext l MAX_BITS inWidth in
  let* sr := sext r MAX_BITS inWidth in
  Ok (Z.b2z (c (signed 64 sl) (signed 64 sr))).

Definition slt (l r inWidth : Z) : res Z := signed_cmp Z.ltb l r inWidth.

Definition sle (l r inWidth : Z) : res Z := signed_cmp Z.leb l r inWidth.

Definition sgt (l r inWidth : Z) : res Z := signed_cmp Z.gtb l r inWidth.

Definition sge (l r inWidth : Z) : res Z := signed_cmp Z.geb l r inWidth.

End ints.

(** * Shared lemmas *)

Lemma truncate64_eq x N :
  0 < N <= 64 -> bits64.truncateToNBits x N = Ok (wrap N x).
Proof.
  intros. unfold bits64.truncateToNBits, bits64.ones64. step_assert.
  by rewrite land_all_ones by lia.
Qed.

Lemma truncate64_wrap x N :
  0 < N <= 64 -> bits64.truncateToNBits (wrap 64 x) N = Ok (wrap N x).
Proof. intros. rewrite truncate64_eq by lia. by autorewrite with kbits. Qed.

Lemma power_of_two_test w x i m :
  0 <= i -> 0 <= x < 2 ^ w -> x = 2 ^ i * (2 * m + 1) ->
  (Z.land x (wrap w (x - 1)) =? 0) = (m =? 0).
Proof.
  intros Hi Hx E. rewrite (clear_lowest w x i m) by done.
  assert (0 < 2 ^ i) by lia. apply eq_true_iff_eq. rewrite !Z.eqb_eq. nia.
Qed.

Lemma lowest_bit_range w x i m :
  0 <= i -> 0 <= x < 2 ^ w -> x = 2 ^ i * (2 * m + 1) -> 0 < 2 ^ i < 2 ^ w /\ i < w.
Proof.
  intros Hi Hx E. assert (0 < 2 ^ i) by lia. assert (0 <= m) by nia.
  assert (2 ^ i < 2 ^ w) by nia. split; [lia|].
  apply (Z.pow_lt_mono_r_iff 2); [lia| |lia].
  destruct (Z_lt_le_dec w 0) as [Hw|]; [|lia].
  rewrite (Z.pow_neg_r 2 w Hw) in Hx. lia.
Qed.

Definition res_eqb (a b : res Z) : bool :=
  match a, b with Ok x, Ok y => x =? y | _, _ => false end.

Lemma res_eqb_ok a y : res_eqb a (Ok y) = true -> a = Ok y.
Proof. destruct a; cbn; intros H; try discriminate. apply Z.eqb_eq in H. by subst. Qed.

Lemma indexOfSingleBit64_pow2 i :
  0 <= i < 64 -> bits64.indexOfSingleBit (2 ^ i) = Ok i.
Proof.
  intros Hi. apply res_eqb_ok.
  apply (Z_range_forall (fun i => res_eqb (bits64.indexOfSingleBit (2 ^ i)) (Ok i)) 64);
    [vm_compute; reflexivity | lia].
Qed.

Lemma indexOfRightmostBit64_spec x i m :
  0 <= i -> 0 <= x < 2 ^ 64 -> x = 2 ^ i * (2 * m + 1) ->
  bits64.isolateRightmostBit x = 2 ^ i /\ bits64.indexOfRightmostBit x = Ok i.
Proof.
  intros Hi Hx E. unfold bits64.indexOfRightmostBit.
  assert (bits64.isolateRightmostBit x = 2 ^ i) as -> by
    (unfold bits64.isolateRightmostBit; by apply (isolate_lowest 64 x i m)).
  split; [done|]. apply indexOfSingleBit64_pow2.
  pose proof (lowest_bit_range 64 x i m). lia.
Qed.

(** Sign extension inside the 64-bit register, the step all signed operations
    of [ints] start with. *)
Lemma sext_eq l out inw :
  0 < inw <= 64 -> 0 < out <= 64 -> ints.sext l out inw = Ok (wrap out (signed inw l)).
Proof.
  intros Hin Hout. unfold ints.sext, ints.MAX_BITS.
  rewrite (wrap_small 32) by (change (2 ^ 32) with 4294967296; lia). cbn zeta.
  step_assert. rewrite truncate64_wrap by lia. do 2 f_equal.
  set (n := 64 - inw). assert (0 < 2 ^ n) by (apply Z.pow_pos_nonneg; lia).
  rewrite Z.shiftl_mul_pow2, Z.shiftr_div_pow2 by lia.
  rewrite signed_wrap by lia.
  assert (2 ^ 64 = 2 ^ inw * 2 ^ n) as E by
    (rewrite <- Z.pow_add_r by lia; f_equal; lia).
  unfold signed. rewrite E, Z.mul_mod_distr_r by lia.
  assert (forall a, (2 * (a * 2 ^ n) <? 2 ^ inw * 2 ^ n) = (2 * a <? 2 ^ inw)) as ->.
  { intros a. apply eq_true_iff_eq. rewrite !Z.ltb_lt. nia. }
  destruct (2 * (l mod 2 ^ inw) <? 2 ^ inw).
  - by rewrite Z.div_mul by lia.
  - rewrite <- Z.mul_sub_distr_r. by rewrite Z.div_mul by lia.
Qed.

Lemma sext64_signed l inw :
  0 < inw <= 64 -> ints.sext l ints.MAX_BITS inw = Ok (wrap 64 (signed inw l)) /\
                   signed 64 (wrap 64 (signed inw l)) = signed inw l.
Proof.
  intros. split; [unfold ints.MAX_BITS; by rewrite sext_eq by lia|].
  rewrite signed_wrap by lia. apply signed_small; [lia|].
  pose proof (signed_range inw l).
  assert (2 ^ (inw - 1) <= 2 ^ (64 - 1)) by (apply Z.pow_le_mono_r; lia). lia.
Qed.

(** * Properties *)

(** The 64-bit evaluation of [w]-bit arithmetic is exact modulo 2^w for
    every width from 1 to 64: addition, subtraction, multiplication, unsigned
    division and remainder, truncation and left shift return, without a failed
    assertion, the mathematical result reduced to [w] bits. *)
Theorem ints_unsigned_exact (l r w : Z) :
  0 < w <= 64 -> 0 <= l < 2 ^ w -> 0 <= r < 2 ^ w ->
  ints.add l r w = Ok ((l + r) mod 2 ^ w) /\
  ints.sub l r w = Ok ((l - r) mod 2 ^ w) /\
  ints.mul l r w = Ok ((l * r) mod 2 ^ w) /\
  (r <> 0 -> ints.udiv l r w = Ok (l / r) /\ ints.urem l r w = Ok (l mod r)) /\
  (r = 0 -> ints.udiv l r w = AssertFail /\ ints.urem l r w = AssertFail) /\
  (forall out, 0 < out <= w -> ints.trunc l out w = Ok (l mod 2 ^ out)) /\
  (r < 64 -> ints.shl l r w = Ok ((l * 2 ^ r) mod 2 ^ w) /\ ints.lshr l r w = Ok (l / 2 ^ r)).
Proof.
  intros Hw Hl Hr. unfold ints.add, ints.sub, ints.mul, ints.udiv, ints.urem, ints.trunc,
    ints.shl, ints.lshr.
  rewrite !truncate64_wrap by lia. split_and!; try done.
  - intros Hr0. step_assert. rewrite !truncate64_eq by lia.
    rewrite !wrap_small; [done| |].
    + pose proof (Z.mod_pos_bound l r). lia.
    + split; [apply Z.div_pos; lia|]. apply Z.div_lt_upper_bound; [lia|]. nia.
  - by intros ->.
  - intros out Hout. by rewrite truncate64_eq by lia.
  - intros H64. step_assert. rewrite Z.shiftl_mul_pow2, Z.shiftr_div_pow2 by lia. done.
Qed.

(** The signed operations of [ints] read their [w]-bit operands in two's
    complement: sign extension, division truncated toward zero, its remainder,
    arithmetic right shift and the four comparisons.  Division is undefined
    exactly for a zero divisor and, at width 64 only, for INT64_MIN / -1. *)
Theorem ints_signed_exact (l r w : Z) :
  0 < w <= 64 ->
  let sl := signed w l in let sr := signed w r in
  (forall out, 0 < out <= 64 -> ints.sext l out w = Ok (sl mod 2 ^ out)) /\
  (ints.int64_div_defined sl sr = true ->
     ints.sdiv l r w = Ok (Z.quot sl sr mod 2 ^ w) /\
     ints.srem l r w = Ok (Z.rem sl sr mod 2 ^ w)) /\
  (ints.int64_div_defined sl sr = false ->
     ints.sdiv l r w = AssertFail /\ ints.srem l r w = AssertFail) /\
  (forall s, 0 <= s < 64 -> ints.ashr l s w = Ok ((sl / 2 ^ s) mod 2 ^ w)) /\
  ints.slt l r w = Ok (Z.b2z (sl <? sr)) /\ ints.sle l r w = Ok (Z.b2z (sl <=? sr)) /\
  ints.sgt l r w = Ok (Z.b2z (sr <? sl)) /\ ints.sge l r w = Ok (Z.b2z (sr <=? sl)).
Proof.
  intros Hw sl sr.
  destruct (sext64_signed l w Hw) as [El Sl], (sext64_signed r w Hw) as [Er Sr].
  fold sl in El, Sl. fold sr in Er, Sr.
  unfold ints.sdiv, ints.srem, ints.ashr, ints.slt, ints.sle, ints.sgt, ints.sge,
    ints.signed_cmp. rewrite El, Er. cbn [res_bind]. rewrite Sl, Sr.
  split_and!.
  - intros out Ho. by rewrite sext_eq.
  - intros ->. cbn [res_assert]. by rewrite !truncate64_wrap.
  - by intros ->.
  - intros s Hs. step_assert. rewrite truncate64_wrap, Z.shiftr_div_pow2 by lia. done.
  - done.
  - done.
  - by rewrite Z.gtb_ltb.
  - by rewrite Z.geb_leb.
Qed.

(** [isPowerOfTwo] holds exactly of the powers of two, and the index that
    [indexOfRightmostBit] returns for a non-zero word is that of its lowest
    set bit (the assertions of [indexOfSingleBit] never fail there). *)
Theorem rightmost_bit_correct (x : Z) :
  0 < x < 2 ^ 64 ->
  (bits64.isPowerOfTwo x = true <-> exists i, 0 <= i < 64 /\ x = 2 ^ i) /\
  exists i, bits64.indexOfRightmostBit x = Ok i /\ 0 <= i < 64 /\
    Z.testbit x i = true /\ (forall j, 0 <= j < i -> Z.testbit x j = false).
Proof.
  intros Hx. destruct (odd_decomposition x) as (i & m & Hi & E); [lia|].
  assert (0 <= x < 2 ^ 64) as Hx' by lia.
  pose proof (lowest_bit_range 64 x i m Hi Hx' E) as [Hp Hi64]. split.
  - unfold bits64.isPowerOfTwo. replace (x =? 0) with false by lia.
    rewrite (power_of_two_test 64 x i m) by done. rewrite Z.eqb_eq. split.
    + intros ->. exists i. rewrite E. lia.
    + intros (j & Hj & Ej). rewrite Ej in E.
      destruct (Z.eq_dec m 0) as [|Hm]; [done|]. exfalso.
      assert (i < j). { apply (Z.pow_lt_mono_r_iff 2); [lia|lia|]. nia. }
      replace j with (i + 1 + (j - i - 1)) in E by lia.
      rewrite !Z.pow_add_r in E by lia. change (2 ^ 1) with 2 in E.
      rewrite <- !Z.mul_assoc in E. apply Z.mul_reg_l in E; lia.
  - exists i. destruct (indexOfRightmostBit64_spec x i m Hi Hx' E) as [_ ->].
    rewrite E, Z.mul_comm. split_and!; [done|lia|lia| |].
    + rewrite Z.mul_pow2_bits, Z.sub_diag by lia. apply Z.testbit_odd_0.
    + intros j Hj. apply Z.mul_pow2_bits_low. lia.
Qed.

Lemma ints_unsigned_exact_witness :
  ints.add 200 100 8 = Ok 44 /\ ints.udiv 200 100 8 = Ok 2.
Proof.
  destruct (ints_unsigned_exact 200 100 8) as (Ha & _ & _ & Hd & _); [lia|lia|lia|].
  split; [exact Ha|]. apply Hd. lia.
Defined.

Lemma ints_signed_exact_witness :
  ints.sdiv 0xF8 3 8 = Ok 0xFE /\ ints.slt 0xF8 3 8 = Ok 1.
Proof.
  destruct (ints_signed_exact 0xF8 3 8) as (_ & Hd & _ & _ & Hs & _); [lia|].
  split; [|exact Hs]. apply Hd. vm_compute. reflexivity.
Defined.

Lemma rightmost_bit_correct_witness :
  exists i, bits64.indexOfRightmostBit 40 = Ok i /\ Z.testbit 40 i = true.
Proof.
  destruct (rightmost_bit_correct 40) as [_ (i & H1 & _ & H2 & _)]; [lia|].
  exists i. split; assumption.
Defined.
