(* ===== verification/APInt.v ===== *)
(** The interface to LLVM's [APInt], the arbitrary-precision fixed-width
    integer a [ConstantExpr] holds.  [APInt] is not part of the repository:
    it is a parameter of the expression library.  [Class APInt] lists the
    operations the sources call, [Class APIntLaws] their documented behaviour
    in terms of the unsigned value of the bit pattern, and [bv_apint] is a
    concrete instance that satisfies the laws, used to evaluate examples.

    The file also holds the reference semantics of the binary operators on
    unsigned bit patterns ([bin_sem]), independent of [APInt]. *)
From Stdlib Require Import ZArith Lia Bool.
From stdpp Require Import base list numbers option.
From S2P Require Import Prelude.
Open Scope Z_scope.

(** The binary members of [enum Expr::Kind], in the source's order. *)
Inductive BinKind : Type :=
| Add | Sub | Mul | UDiv | SDiv | URem | SRem
| And | Or | Xor | Shl | LShr | AShr
| Eq | Ne | Ult | Ule | Ugt | Uge | Slt | Sle | Sgt | Sge.

#[export] Instance BinKind_eq_dec : EqDecision BinKind.
Proof. solve_decision. Defined.

(* CmpKindFirst <= k <= CmpKindLast *)
Definition is_cmp (k : BinKind) : bool :=
  match k with
  | Eq | Ne | Ult | Ule | Ugt | Uge | Slt | Sle | Sgt | Sge => true
  | _ => false
  end.

Definition is_div (k : BinKind) : bool :=
  match k with UDiv | SDiv | URem | SRem => true | _ => false end.

(** * Reference semantics on [w]-bit patterns *)

(** The value of [l k r] on unsigned [w]-bit patterns; a division by zero has
    none. *)
Definition bin_sem (k : BinKind) (w x y : Z) : option Z :=
  match k with
  | Add => Some (wrap w (x + y))
  | Sub => Some (wrap w (x - y))
  | Mul => Some (wrap w (x * y))
  | UDiv => if y =? 0 then None else Some (x / y)
  | SDiv => if y =? 0 then None else Some (wrap w (Z.quot (signed w x) (signed w y)))
  | URem => if y =? 0 then None else Some (x mod y)
  | SRem => if y =? 0 then None else Some (wrap w (Z.rem (signed w x) (signed w y)))
  | And => Some (Z.land x y)
  | Or => Some (Z.lor x y)
  | Xor => Some (Z.lxor x y)
  | Shl => Some (if y <? w then wrap w (x * 2 ^ y) else 0)
  | LShr => Some (if y <? w then x / 2 ^ y else 0)
  | AShr => Some (wrap w (signed w x / 2 ^ Z.min y w))
  | Eq => Some (Z.b2z (x =? y))
  | Ne => Some (Z.b2z (negb (x =? y)))
  | Ult => Some (Z.b2z (x <? y))
  | Ule => Some (Z.b2z (x <=? y))
  | Ugt => Some (Z.b2z (y <? x))
  | Uge => Some (Z.b2z (y <=? x))
  | Slt => Some (Z.b2z (signed w x <? signed w y))
  | Sle => Some (Z.b2z (signed w x <=? signed w y))
  | Sgt => Some (Z.b2z (signed w y <? signed w x))
  | Sge => Some (Z.b2z (signed w y <=? signed w x))
  end.

Definition bin_width (k : BinKind) (w : Z) : Z := if is_cmp k then 1 else w.

(** * The operations of [llvm::APInt] the sources use *)
Class APInt := {
  ap : Type;
  getBitWidth : ap -> Z;
  (* the unsigned value of the bit pattern *)
  uval : ap -> Z;
  (* APInt(width, uint64_t value) *)
  ap_make : Z -> Z -> ap;
  ap_zextOrTrunc : ap -> Z -> ap;
  ap_sextOrTrunc : ap -> Z -> ap;
  (* binary operators on two values of the same width; the comparisons return
     bool and are [ap_cmp] *)
  ap_bin : BinKind -> ap -> ap -> ap;
  ap_cmp : BinKind -> ap -> ap -> bool;
  ap_neg : ap -> ap;
  ap_not : ap -> ap;
  (* shifts by an unsigned amount: operator<<= and ashr(unsigned) *)
  ap_shl_u : ap -> Z -> ap;
  ap_ashr_u : ap -> Z -> ap;
  (* llvm::hash_value *)
  ap_hash : ap -> Z;
  (* getActiveBits *)
  ap_activeBits : ap -> Z;
}.

(** * Their documented behaviour *)
Class APIntLaws (A : APInt) : Prop := {
  uval_range x : 0 < getBitWidth x -> 0 <= uval x < 2 ^ getBitWidth x;
  make_width w v : 0 < w -> getBitWidth (ap_make w v) = w;
  make_val w v : 0 < w -> 0 <= v < 2 ^ 64 -> uval (ap_make w v) = wrap w v;
  zext_width x w : 0 < w -> getBitWidth (ap_zextOrTrunc x w) = w;
  zext_val x w : 0 < w -> 0 < getBitWidth x -> uval (ap_zextOrTrunc x w) = wrap w (uval x);
  sext_width x w : 0 < w -> getBitWidth (ap_sextOrTrunc x w) = w;
  sext_val x w : 0 < w -> 0 < getBitWidth x ->
    uval (ap_sextOrTrunc x w) = wrap w (signed (getBitWidth x) (uval x));
  bin_op_width k x y : getBitWidth x = getBitWidth y -> 0 < getBitWidth x ->
    getBitWidth (ap_bin k x y) = getBitWidth x;
  bin_op_val k x y v : is_cmp k = false -> getBitWidth x = getBitWidth y ->
    0 < getBitWidth x -> bin_sem k (getBitWidth x) (uval x) (uval y) = Some v ->
    uval (ap_bin k x y) = v;
  cmp_op_val k x y : is_cmp k = true -> getBitWidth x = getBitWidth y ->
    0 < getBitWidth x ->
    bin_sem k (getBitWidth x) (uval x) (uval y) = Some (Z.b2z (ap_cmp k x y));
  neg_width x : 0 < getBitWidth x -> getBitWidth (ap_neg x) = getBitWidth x;
  neg_val x : 0 < getBitWidth x -> uval (ap_neg x) = wrap (getBitWidth x) (- uval x);
  not_width x : 0 < getBitWidth x -> getBitWidth (ap_not x) = getBitWidth x;
  not_val x : 0 < getBitWidth x -> uval (ap_not x) = wrap (getBitWidth x) (Z.lnot (uval x));
  shl_u_width x n : 0 < getBitWidth x -> getBitWidth (ap_shl_u x n) = getBitWidth x;
  shl_u_val x n : 0 < getBitWidth x -> 0 <= n < getBitWidth x ->
    uval (ap_shl_u x n) = wrap (getBitWidth x) (uval x * 2 ^ n);
  ashr_u_width x n : 0 < getBitWidth x -> getBitWidth (ap_ashr_u x n) = getBitWidth x;
  ashr_u_val x n : 0 < getBitWidth x -> 0 <= n < getBitWidth x ->
    uval (ap_ashr_u x n) = wrap (getBitWidth x) (signed (getBitWidth x) (uval x) / 2 ^ n);
  hash_val x y : getBitWidth x = getBitWidth y -> uval x = uval y -> ap_hash x = ap_hash y;
  activeBits_val x : 0 < getBitWidth x ->
    ap_activeBits x = if uval x =? 0 then 0 else Z.log2 (uval x) + 1;
}.

(** * A concrete instance: a width and a bit pattern *)
Record bv : Type := BV { bv_width : Z; bv_bits : Z }.

Definition bv_uval (x : bv) : Z := wrap (bv_width x) (bv_bits x).

Definition bv_make (w v : Z) : bv := BV w (wrap w v).

#[export] Instance bv_apint : APInt := {|
  ap := bv;
  getBitWidth := bv_width;
  uval := bv_uval;
  ap_make := bv_make;
  ap_zextOrTrunc x w := bv_make w (bv_uval x);
  ap_sextOrTrunc x w := bv_make w (signed (bv_width x) (bv_uval x));
  ap_bin k x y :=
    bv_make (bv_width x) (default 0 (bin_sem k (bv_width x) (bv_uval x) (bv_uval y)));
  ap_cmp k x y :=
    match bin_sem k (bv_width x) (bv_uval x) (bv_uval y) with
    | Some 1 => true
    | _ => false
    end;
  ap_neg x := bv_make (bv_width x) (- bv_uval x);
  ap_not x := bv_make (bv_width x) (Z.lnot (bv_uval x));
  ap_shl_u x n := bv_make (bv_width x) (bv_uval x * 2 ^ n);
  ap_ashr_u x n := bv_make (bv_width x) (signed (bv_width x) (bv_uval x) / 2 ^ n);
  ap_hash x := wrap 64 (bv_uval x);
  ap_activeBits x := if bv_uval x =? 0 then 0 else Z.log2 (bv_uval x) + 1;
|}.

(** * Ranges of the reference semantics *)

Lemma b2z_range b : 0 <= Z.b2z b < 2 ^ 1.
Proof. destruct b; cbn; lia. Qed.

Lemma bin_sem_range k w x y v :
  0 < w -> 0 <= x < 2 ^ w -> 0 <= y < 2 ^ w ->
  bin_sem k w x y = Some v -> 0 <= v < 2 ^ bin_width k w.
Proof.
  intros Hw Hx Hy. unfold bin_width.
  destruct k; cbn [bin_sem is_cmp];
    try (intros [= <-]; first [apply b2z_range | apply wrap_range; lia]);
    try (destruct (y =? 0) eqn:E; [discriminate|]; tidy_bools; intros [= <-]).
  - split; [apply Z.div_pos; lia|]. apply Z.div_lt_upper_bound; [lia|]. nia.
  - apply wrap_range; lia.
  - pose proof (Z.mod_pos_bound x y). lia.
  - apply wrap_range; lia.
  - intros [= <-]. apply land_range; lia.
  - intros [= <-]. apply lor_range; lia.
  - intros [= <-]. apply lxor_range; lia.
  - intros [= <-]. destruct (y <? w); [apply wrap_range|]; lia.
  - intros [= <-]. destruct (y <? w); [|lia]. assert (0 < 2 ^ y) by lia.
    split; [apply Z.div_pos; lia|]. apply Z.div_lt_upper_bound; nia.
Qed.

Lemma bin_sem_defined k w x y :
  (is_div k = true -> y <> 0) -> exists v, bin_sem k w x y = Some v.
Proof.
  destruct k; cbn; intros H; eauto; (destruct (y =? 0) eqn:E; [|eauto]; tidy_bools;
    exfalso; by apply H).
Qed.

Lemma cmp_sem_b2z k w x y :
  is_cmp k = true -> exists b, bin_sem k w x y = Some (Z.b2z b).
Proof. destruct k; cbn; intros; try discriminate; eauto. Qed.

(** The instance satisfies the laws. *)
#[export] Instance bv_apint_laws : APIntLaws bv_apint.
Proof.
  assert (forall w v, 0 <= w -> bv_uval (bv_make w v) = wrap w v) as E.
  { intros. unfold bv_uval, bv_make; cbn. by rewrite wrap_wrap by lia. }
  assert (forall x, 0 < bv_width x -> 0 <= bv_uval x < 2 ^ bv_width x) as R.
  { intros. apply wrap_range; lia. }
  constructor; cbn; intros; try (rewrite E by lia); auto.
  - (* bin_op_val *)
    rewrite H2. cbn. apply bin_sem_range in H2; [|done|apply R; lia|rewrite H0; apply R; lia].
    unfold bin_width in H2. rewrite H in H2. by apply wrap_small.
  - (* cmp_op_val *)
    destruct (cmp_sem_b2z k (bv_width x) (bv_uval x) (bv_uval y) H) as [[] ->]; done.
  - by rewrite H0.
Qed.
