(* ===== verification/Expr.v ===== *)
(** The expression language of klee/include/klee/Expr/Expr.h and its
    structural operations of klee/lib/Expr/Expr.cpp and Updates.cpp: data,
    kinds, widths, children, hashes, the three-way comparison behind
    [operator==], and the operations of [ConstantExpr].

    - A [ref<Expr>] is a value of [expr]; an [UpdateNode] chain is a value of
      [updates], mutually inductive with [expr].  [BinaryExpr] and [CastExpr],
      which the source instantiates by macro for every kind, are one
      constructor each, indexed by the kind.
    - A [const Array *] is an address ([positive]); the immutable [Array]
      objects live in the store [arrayAt].  Pointer comparisons of arrays
      compare addresses.
    - [hashValue] is computed once, by [alloc]; the model recomputes it.
    - Widths and offsets ([unsigned] in the source) are [Z]; a well-typed
      expression keeps them positive, and sums of widths are not wrapped at
      2^32. *)
From Stdlib Require Import ZArith Lia Bool Ascii String.
From stdpp Require Import base list numbers option.
From S2P Require Import Prelude APInt.
Open Scope Z_scope.

(** The two casts. *)
Inductive CastKind : Type := ZExt | SExt.

Definition Bool_w : Z := 1.
Definition Int8 : Z := 8.
Definition Int16 : Z := 16.
Definition Int32 : Z := 32.
Definition Int64 : Z := 64.
Definition MAGIC_HASH_CONSTANT : Z := 39.

Section expr.
Context {A : APInt}.

Inductive expr : Type :=
| Constant (value : ap)
| NotOptimized (src : expr)
| Read (root : positive) (head : updates) (index : expr)
| Select (cond trueExpr falseExpr : expr)
| Concat (left right : expr)
| Extract (e : expr) (offset width : Z)
| Cast (k : CastKind) (src : expr) (width : Z)
| Not (e : expr)
| Binary (k : BinKind) (left right : expr)
with updates : Type :=
| UNil
| UNode (index value : expr) (next : updates).

(** [class Array]; [constantValues] is empty for a symbolic array. *)
Record array : Type := Array {
  name : string;
  size : Z;
  domain : Z;
  range : Z;
  constantValues : list ap;
}.

(** The store of [Array] objects. *)
Class Arrays := arrayAt : positive -> array.

Definition isSymbolicArray (a : array) : bool :=
  match constantValues a with [] => true | _ => false end.

Definition isConstantArray (a : array) : bool := negb (isSymbolicArray a).

Definition bin_kind_code (k : BinKind) : Z :=
  match k with
  | Add => 10 | Sub => 11 | Mul => 12 | UDiv => 13 | SDiv => 14 | URem => 15 | SRem => 16
  | And => 17 | Or => 18 | Xor => 19 | Shl => 20 | LShr => 21 | AShr => 22
  | Eq => 23 | Ne => 24 | Ult => 25 | Ule => 26 | Ugt => 27 | Uge => 28
  | Slt => 29 | Sle => 30 | Sgt => 31 | Sge => 32
  end.

(** [getKind], as the integer the enumerator stands for. *)
Definition getKind (e : expr) : Z :=
  match e with
  | Constant _ => 0
  | NotOptimized _ => 1
  | Read _ _ _ => 3
  | Select _ _ _ => 4
  | Concat _ _ => 5
  | Extract _ _ _ => 6
  | Cast ZExt _ _ => 7
  | Cast SExt _ _ => 8
  | Not _ => 9
  | Binary k _ _ => bin_kind_code k
  end.

Context {AR : Arrays}.

Fixpoint getWidth (e : expr) : Z :=
  match e with
  | Constant v => getBitWidth v
  | NotOptimized src => getWidth src
  | Read root _ _ => range (arrayAt root)
  | Select _ t _ => getWidth t
  | Concat l r => getWidth l + getWidth r
  | Extract _ _ w => w
  | Cast _ _ w => w
  | Not e => getWidth e
  | Binary k l _ => if is_cmp k then Bool_w else getWidth l
  end.

(** The children, in the order of [getKid]. *)
Definition kids (e : expr) : list expr :=
  match e with
  | Constant _ => []
  | NotOptimized src => [src]
  | Read _ _ index => [index]
  | Select c t f => [c; t; f]
  | Concat l r => [l; r]
  | Extract e _ _ => [e]
  | Cast _ src _ => [src]
  | Not e => [e]
  | Binary _ l r => [l; r]
  end.

Definition getNumKids (e : expr) : nat := length (kids e).

(* UpdateList::getSize: the cached size of the head node *)
Fixpoint updates_size (u : updates) : Z :=
  match u with UNil => 0 | UNode _ _ next => 1 + updates_size next end.

(** ** Hashes: 32-bit unsigned arithmetic *)

Definition u32_mul (a b : Z) : Z := wrap 32 (a * b).
Definition u32_add (a b : Z) : Z := wrap 32 (a + b).
Definition u32_shl1 (a : Z) : Z := wrap 32 (Z.shiftl a 1).

(* the value of a (signed) char *)
Definition char_val (c : ascii) : Z := signed 8 (Z.of_N (N_of_ascii c)).

(* the loop over the characters of the array's name *)
Fixpoint name_hash (res : Z) (s : string) : Z :=
  match s with
  | EmptyString => res
  | String c s' => name_hash (u32_add (u32_mul res MAGIC_HASH_CONSTANT) (char_val c)) s'
  end.

(* Expr::computeHash: fold over the children *)
Definition hash_kids (k : Z) (hs : list Z) : Z :=
  fold_left (fun res h => Z.lxor (u32_shl1 res) (u32_mul h MAGIC_HASH_CONSTANT)) hs
    (u32_mul k MAGIC_HASH_CONSTANT).

Definition getLimitedValue (v : ap) (limit : Z) : Z := Z.min (uval v) limit.

Definition constant_hash (v : ap) : Z :=
  let w := getBitWidth v in
  if w <=? 64 then wrap 32 (Z.lxor (getLimitedValue v (2 ^ 64 - 1)) (u32_mul w MAGIC_HASH_CONSTANT))
  else wrap 32 (Z.lxor (ap_hash v) (u32_mul w MAGIC_HASH_CONSTANT)).

Fixpoint hash (e : expr) : Z :=
  match e with
  | Constant v => constant_hash v
  | NotOptimized src => hash_kids (getKind e) [hash src]
  | Read root head index =>
      let ul := Z.lxor (name_hash 0 (name (arrayAt root))) (hash_updates head) in
      Z.lxor (u32_mul (hash index) MAGIC_HASH_CONSTANT) ul
  | Select c t f => hash_kids (getKind e) [hash c; hash t; hash f]
  | Concat l r => hash_kids (getKind e) [hash l; hash r]
  | Extract e' off w =>
      Z.lxor (Z.lxor (u32_mul off MAGIC_HASH_CONSTANT) (u32_mul w MAGIC_HASH_CONSTANT))
             (u32_mul (hash e') MAGIC_HASH_CONSTANT)
  | Cast _ src w =>
      Z.lxor (u32_mul w MAGIC_HASH_CONSTANT) (u32_mul (hash src) MAGIC_HASH_CONSTANT)
  | Not e' => u32_mul (u32_mul (hash e') MAGIC_HASH_CONSTANT) 9
  | Binary _ l r => hash_kids (getKind e) [hash l; hash r]
  end
with hash_updates (u : updates) : Z :=
  match u with
  | UNil => 0
  | UNode i v UNil => Z.lxor (hash i) (hash v)
  | UNode i v next => Z.lxor (Z.lxor (hash i) (hash v)) (hash_updates next)
  end.

(** ** Comparison *)

(* a != b ? (a < b ? -1 : 1) : k *)
Definition cmp_then (a b : Z) (k : Z) : Z :=
  if a =? b then k else if a <? b then -1 else 1.

(* if (int res = r) return res; k *)
Definition ret_nonzero (r k : Z) : Z := if r =? 0 then k else r.

Definition cmp_string (s t : string) (k : Z) : Z :=
  match String.compare s t with
  | Datatypes.Eq => k
  | Datatypes.Lt => -1
  | Datatypes.Gt => 1
  end.

(** [Expr::compare].  The shortcuts on equal pointers and on pairs already
    found equal return the value the comparison computes ([compare_refl]). *)
Fixpoint compare (a b : expr) {struct a} : Z :=
  cmp_then (getKind a) (getKind b) (cmp_then (hash a) (hash b)
    match a, b with
    | Constant v, Constant v' =>
        cmp_then (getBitWidth v) (getBitWidth v')
          (if ap_cmp Eq v v' then 0 else if ap_cmp Ult v v' then -1 else 1)
    | NotOptimized s, NotOptimized s' => compare s s'
    | Read root head index, Read root' head' index' =>
        ret_nonzero
          (cmp_string (name (arrayAt root)) (name (arrayAt root'))
             (cmp_then (Z.pos root) (Z.pos root')
                (cmp_then (updates_size head) (updates_size head') (compare_updates head head'))))
          (compare index index')
    | Select c t f, Select c' t' f' =>
        ret_nonzero (compare c c') (ret_nonzero (compare t t') (compare f f'))
    | Concat l r, Concat l' r' =>
        cmp_then (getWidth a) (getWidth b) (ret_nonzero (compare l l') (compare r r'))
    | Extract e off w, Extract e' off' w' =>
        cmp_then off off' (cmp_then w w' (compare e e'))
    | Cast _ s w, Cast _ s' w' => cmp_then w w' (compare s s')
    | Not e, Not e' => compare e e'
    | Binary _ l r, Binary _ l' r' => ret_nonzero (compare l l') (compare r r')
    | _, _ => 0
    end)
with compare_updates (u u' : updates) {struct u} : Z :=
  match u, u' with
  | UNode i v n, UNode i' v' n' =>
      ret_nonzero (ret_nonzero (compare i i') (compare v v')) (compare_updates n n')
  | _, _ => 0
  end.

(** [operator==] on [Expr] and on [ref<Expr>]. *)
Definition expr_eqb (a b : expr) : bool := compare a b =? 0.

(** ** ConstantExpr *)

(* ConstantExpr::alloc(uint64_t, Width) *)
Definition const_alloc (v w : Z) : expr := Constant (ap_make w v).

(* ConstantExpr::create: asserts that the value fits *)
Definition const_create (v w : Z) : res expr :=
  assert* (64 <? w) || (v =? wrap w v) in Ok (const_alloc v w).

Definition getZExtValue (v : ap) (bits : Z) : res Z :=
  assert* getBitWidth v <=? bits in Ok (uval v).

Definition const_isZero (v : ap) : bool := uval v =? 0.
Definition const_isOne (v : ap) : bool := getLimitedValue v (2 ^ 64 - 1) =? 1.
Definition const_isTrue (v : ap) : bool := (getBitWidth v =? Bool_w) && negb (uval v =? 0).
Definition const_isFalse (v : ap) : bool := (getBitWidth v =? Bool_w) && (uval v =? 0).
Definition const_isAllOnes (v : ap) : bool := uval v =? 2 ^ getBitWidth v - 1.

Definition bool_const (b : bool) : ap := ap_make Bool_w (Z.b2z b).

(* the operations cl->_op(cr); APInt's divisions assert a non-zero divisor *)
Definition const_op (k : BinKind) (a b : ap) : res ap :=
  assert* negb (is_div k && (uval b =? 0)) in
  Ok (if is_cmp k then bool_const (ap_cmp k a b) else ap_bin k a b).

Definition const_Concat (a b : ap) : ap :=
  let W := getBitWidth a + getBitWidth b in
  let Tmp := ap_zextOrTrunc a W in
  let Tmp := ap_shl_u Tmp (getBitWidth b) in
  ap_bin Or Tmp (ap_zextOrTrunc b W).

Definition const_Extract (a : ap) (Offset W : Z) : ap :=
  ap_zextOrTrunc (ap_ashr_u a Offset) W.

Definition const_ZExt (a : ap) (W : Z) : ap := ap_zextOrTrunc a W.
Definition const_SExt (a : ap) (W : Z) : ap := ap_sextOrTrunc a W.
Definition const_Neg (a : ap) : ap := ap_neg a.
Definition const_Not (a : ap) : ap := ap_not a.

Definition isConstant (e : expr) : bool :=
  match e with Constant _ => true | _ => false end.

(* Expr::isZero *)
Definition isZero (e : expr) : bool :=
  match e with Constant v => const_isZero v | _ => false end.

(* Expr::isTrue *)
Definition isTrue (e : expr) : res bool :=
  assert* getWidth e =? Bool_w in
  Ok (match e with Constant v => const_isTrue v | _ => false end).

(* Expr::isFalse *)
Definition isFalse (e : expr) : res bool :=
  assert* getWidth e =? Bool_w in
  Ok (match e with Constant v => const_isFalse v | _ => false end).

(** ** Updates *)

(* UpdateList::extend on a list with a root *)
Definition extend (root : positive) (head : updates) (index value : expr) : res updates :=
  assert* domain (arrayAt root) =? getWidth index in
  assert* range (arrayAt root) =? getWidth value in
  Ok (UNode index value head).

End expr.

Scheme expr_mut := Induction for expr Sort Prop
  with updates_mut := Induction for updates Sort Prop.
Combined Scheme expr_updates_ind from expr_mut, updates_mut.
