(* ===== verification/ExprCreate.v ===== *)
(** The canonicalizing constructors of klee/lib/Expr/Expr.cpp: [X::create]
    for every class of expression.

    [BinaryExpr_create] ties the mutually recursive [create] functions of the
    binary kinds.  Each [_createPartial]/[_createPartialR]/[_create] helper is
    one definition that takes the recursive [create] as its argument [rec];
    the macros BCREATE_R, BCREATE, CMPCREATE and CMPCREATE_T are
    [create_step].  The recursion is bounded by fuel; [create_fuel] is enough
    ([ExprCreateCorrect.v] proves that [OutOfFuel] is not returned).  [assert]s give
    [AssertFail]. *)
From Stdlib Require Import ZArith Lia Bool Ascii String.
From stdpp Require Import base list numbers option.
From S2P Require Import Prelude APInt Expr.
Open Scope Z_scope.

(** The number of constructors outside update lists. *)
Fixpoint expr_size `{A : APInt} (e : expr) : nat :=
  match e with
  | Constant _ => 1
  | NotOptimized s => S (expr_size s)
  | Read _ _ i => S (expr_size i)
  | Select c t f => S (expr_size c + expr_size t + expr_size f)
  | Concat l r => S (expr_size l + expr_size r)
  | Extract e _ _ => S (expr_size e)
  | Cast _ s _ => S (expr_size s)
  | Not e => S (expr_size e)
  | Binary _ l r => S (expr_size l + expr_size r)
  end.

Section binary.
Context {A : APInt} {AR : Arrays}.
(** The command-line option [-const-array-opt]. *)
Context (ConstArrayOpt : bool).

Section helpers.
(** [X::create] for the kind X. *)
Variable rec : BinKind -> expr -> expr -> res expr.

(* Expr::createIsZero *)
Definition createIsZero_with (e : expr) : res expr :=
  let* z := const_create 0 (getWidth e) in rec Eq e z.

Definition AndExpr_createPartial (l : expr) (cr : ap) : res expr :=
  if const_isAllOnes cr then Ok l
  else if const_isZero cr then Ok (Constant cr)
  else Ok (Binary And l (Constant cr)).

Definition AndExpr_createPartialR (cl : ap) (r : expr) : res expr :=
  AndExpr_createPartial r cl.

Definition AndExpr_create (l r : expr) : res expr := Ok (Binary And l r).

Definition OrExpr_createPartial (l : expr) (cr : ap) : res expr :=
  if const_isAllOnes cr then Ok (Constant cr)
  else if const_isZero cr then Ok l
  else Ok (Binary Or l (Constant cr)).

Definition OrExpr_createPartialR (cl : ap) (r : expr) : res expr :=
  OrExpr_createPartial r cl.

Definition OrExpr_create (l r : expr) : res expr := Ok (Binary Or l r).

Definition EqExpr_create (l r : expr) : res expr :=
  if expr_eqb l r then Ok (const_alloc 1 Bool_w) else Ok (Binary Eq l r).

(* the loop of TryConstArrayOpt from index [i] on the remaining values *)
Fixpoint TryConstArrayOpt_loop (cl : ap) (rd index : expr) (vals : list ap)
    (i numMatches : Z) (acc : expr) : res expr :=
  match vals with
  | [] => Ok acc
  | v :: vals' =>
      if expr_eqb (Constant cl) (Constant v) then
        if 100 <? numMatches + 1 then EqExpr_create (Constant cl) rd
        else
          let* mayBe := rec Eq index (const_alloc i (getWidth index)) in
          let* acc' := rec Or acc mayBe in
          TryConstArrayOpt_loop cl rd index vals' (i + 1) (numMatches + 1) acc'
      else TryConstArrayOpt_loop cl rd index vals' (i + 1) numMatches acc
  end.

Definition TryConstArrayOpt (cl : ap) (root : positive) (head : updates) (index : expr) : res expr :=
  let rd := Read root head index in
  if isSymbolicArray (arrayAt root) || negb (updates_size head =? 0) then EqExpr_create (Constant cl) rd
  else TryConstArrayOpt_loop cl rd index (constantValues (arrayAt root)) 0 0 (const_alloc 0 Bool_w).

Fixpoint EqExpr_createPartialR (cl : ap) (r : expr) {struct r} : res expr :=
  let width := getBitWidth cl in
  if width =? Bool_w then
    if const_isTrue cl then Ok r
    else
      match r with
      | Binary Eq (Constant CE) rgt =>
          (* 0 == (0 == A) => A *)
          if (getBitWidth CE =? Bool_w) && const_isFalse CE then Ok rgt
          else EqExpr_create (Constant cl) r
      | Binary Or a b =>
          (* not(or(a,b)) => and(not a, not b) *)
          let* na := createIsZero_with a in
          let* nb := createIsZero_with b in
          rec And na nb
      | _ => EqExpr_create (Constant cl) r
      end
  else
    match r with
    | Cast SExt src _ =>
        let trunc := const_ZExt cl (getWidth src) in
        if expr_eqb (Constant cl) (Constant (const_SExt trunc width))
        then rec Eq src (Constant trunc)
        else const_create 0 Bool_w
    | Cast ZExt src _ =>
        let trunc := const_ZExt cl (getWidth src) in
        if expr_eqb (Constant cl) (Constant (const_ZExt trunc width))
        then rec Eq src (Constant trunc)
        else const_create 0 Bool_w
    | Binary Add (Constant c) rgt =>
        let* d := rec Sub (Constant cl) (Constant c) in
        match d with Constant d' => EqExpr_createPartialR d' rgt | _ => AssertFail end
    | Binary Sub (Constant c) rgt =>
        let* d := rec Sub (Constant c) (Constant cl) in
        match d with Constant d' => EqExpr_createPartialR d' rgt | _ => AssertFail end
    | Read root head index =>
        if ConstArrayOpt then TryConstArrayOpt cl root head index
        else EqExpr_create (Constant cl) r
    | _ => EqExpr_create (Constant cl) r
    end.

Definition EqExpr_createPartial (l : expr) (cr : ap) : res expr :=
  EqExpr_createPartialR cr l.

Definition XorExpr_createPartialR (cl : ap) (r : expr) : res expr :=
  if const_isZero cl then Ok r
  else if getBitWidth cl =? Bool_w then
    let* z := const_create 0 Bool_w in
    match z with Constant z' => EqExpr_createPartial r z' | _ => AssertFail end
  else Ok (Binary Xor (Constant cl) r).

Definition XorExpr_createPartial (l : expr) (cr : ap) : res expr :=
  XorExpr_createPartialR cr l.

Definition XorExpr_create (l r : expr) : res expr := Ok (Binary Xor l r).

Definition AddExpr_createPartialR (cl : ap) (r : expr) : res expr :=
  if getBitWidth cl =? Bool_w then XorExpr_createPartialR cl r
  else if const_isZero cl then Ok r
  else
    match r with
    | Binary Add (Constant k as b) c => (* A + (B+c) == (A+B) + c *)
        let* s := rec Add (Constant cl) b in rec Add s c
    | Binary Sub (Constant k as b) c => (* A + (B-c) == (A+B) - c *)
        let* s := rec Add (Constant cl) b in rec Sub s c
    | _ => Ok (Binary Add (Constant cl) r)
    end.

Definition AddExpr_createPartial (l : expr) (cr : ap) : res expr :=
  AddExpr_createPartialR cr l.

Definition AddExpr_create (l r : expr) : res expr :=
  if getWidth l =? Bool_w then XorExpr_create l r
  else
    match l, r with
    | Binary Add (Constant _ as k) a, _ => (* (k+a)+b = k+(a+b) *)
        let* s := rec Add a r in rec Add k s
    | Binary Sub (Constant _ as k) a, _ => (* (k-a)+b = k+(b-a) *)
        let* s := rec Sub r a in rec Add k s
    | _, Binary Add (Constant _ as k) b => (* a + (k+b) = k+(a+b) *)
        let* s := rec Add l b in rec Add k s
    | _, Binary Sub (Constant _ as k) b => (* a + (k-b) = k+(a-b) *)
        let* s := rec Sub l b in rec Add k s
    | _, _ => Ok (Binary Add l r)
    end.

Definition SubExpr_createPartialR (cl : ap) (r : expr) : res expr :=
  if getBitWidth cl =? Bool_w then XorExpr_createPartialR cl r
  else
    match r with
    | Binary Add (Constant k as b) c => (* A - (B+c) == (A-B) - c *)
        let* s := rec Sub (Constant cl) b in rec Sub s c
    | Binary Sub (Constant k as b) c => (* A - (B-c) == (A-B) + c *)
        let* s := rec Sub (Constant cl) b in rec Add s c
    | _ => Ok (Binary Sub (Constant cl) r)
    end.

(* l - c => l + (-c) *)
Definition SubExpr_createPartial (l : expr) (cr : ap) : res expr :=
  let* m := const_op Sub (ap_make (getBitWidth cr) 0) cr in
  AddExpr_createPartial l m.

Definition SubExpr_create (l r : expr) : res expr :=
  if getWidth l =? Bool_w then XorExpr_create l r
  else if expr_eqb l r then Ok (const_alloc 0 (getWidth l))
  else
    match l, r with
    | Binary Add (Constant _ as k) a, _ => (* (k+a)-b = k+(a-b) *)
        let* s := rec Sub a r in rec Add k s
    | Binary Sub (Constant _ as k) a, _ => (* (k-a)-b = k-(a+b) *)
        let* s := rec Add a r in rec Sub k s
    | _, Binary Add (Constant _ as k) b => (* a - (k+b) = (a-b) - k *)
        let* s := rec Sub l b in rec Sub s k
    | _, Binary Sub (Constant _ as k) b => (* a - (k-b) = (a+b) - k *)
        let* s := rec Add l b in rec Sub s k
    | _, _ => Ok (Binary Sub l r)
    end.

Definition MulExpr_createPartialR (cl : ap) (r : expr) : res expr :=
  if getBitWidth cl =? Bool_w then AndExpr_createPartialR cl r
  else if const_isOne cl then Ok r
  else if const_isZero cl then Ok (Constant cl)
  else Ok (Binary Mul (Constant cl) r).

Definition MulExpr_createPartial (l : expr) (cr : ap) : res expr :=
  MulExpr_createPartialR cr l.

Definition MulExpr_create (l r : expr) : res expr :=
  if getWidth l =? Bool_w then Ok (Binary And l r) else Ok (Binary Mul l r).

Definition UDivExpr_create (l r : expr) : res expr :=
  if getWidth l =? Bool_w then Ok l (* r must be 1 *) else Ok (Binary UDiv l r).

Definition SDivExpr_create (l r : expr) : res expr :=
  if getWidth l =? Bool_w then Ok l (* r must be 1 *) else Ok (Binary SDiv l r).

Definition URemExpr_create (l r : expr) : res expr :=
  if getWidth l =? Bool_w then const_create 0 Bool_w else Ok (Binary URem l r).

Definition SRemExpr_create (l r : expr) : res expr :=
  if getWidth l =? Bool_w then const_create 0 Bool_w else Ok (Binary SRem l r).

Definition ShlExpr_create (l r : expr) : res expr :=
  if getWidth l =? Bool_w (* l & !r *)
  then let* nr := createIsZero_with r in rec And l nr
  else Ok (Binary Shl l r).

Definition LShrExpr_create (l r : expr) : res expr :=
  if getWidth l =? Bool_w (* l & !r *)
  then let* nr := createIsZero_with r in rec And l nr
  else Ok (Binary LShr l r).

Definition AShrExpr_create (l r : expr) : res expr :=
  if getWidth l =? Bool_w then Ok l else Ok (Binary AShr l r).

Definition UltExpr_create (l r : expr) : res expr :=
  if getWidth l =? Bool_w (* !l && r *)
  then let* nl := createIsZero_with l in rec And nl r
  else Ok (Binary Ult l r).

Definition UleExpr_create (l r : expr) : res expr :=
  if getWidth l =? Bool_w (* !(l && !r) *)
  then let* nl := createIsZero_with l in rec Or nl r
  else Ok (Binary Ule l r).

Definition SltExpr_create (l r : expr) : res expr :=
  if getWidth l =? Bool_w (* l && !r *)
  then let* nr := createIsZero_with r in rec And l nr
  else Ok (Binary Slt l r).

Definition SleExpr_create (l r : expr) : res expr :=
  if getWidth l =? Bool_w (* !(!l && r) *)
  then let* nr := createIsZero_with r in rec Or l nr
  else Ok (Binary Sle l r).

(* BCREATE_R and CMPCREATE_T: fold two constants, else the partial for a
   constant side, else the general case *)
Definition BCREATE_R (k : BinKind) (partialL : expr -> ap -> res expr)
    (partialR : ap -> expr -> res expr) (general : expr -> expr -> res expr)
    (l r : expr) : res expr :=
  assert* getWidth l =? getWidth r in
  match l, r with
  | Constant cl, Constant cr => let* c := const_op k cl cr in Ok (Constant c)
  | Constant cl, _ => partialR cl r
  | _, Constant cr => partialL l cr
  | _, _ => general l r
  end.

(* BCREATE and CMPCREATE: fold two constants, else the general case *)
Definition BCREATE (k : BinKind) (general : expr -> expr -> res expr) (l r : expr) : res expr :=
  assert* getWidth l =? getWidth r in
  match l, r with
  | Constant cl, Constant cr => let* c := const_op k cl cr in Ok (Constant c)
  | _, _ => general l r
  end.

(* X::create for each binary kind X of the canonical form *)
Definition create_step (k : BinKind) (l r : expr) : res expr :=
  match k with
  | Add => BCREATE_R Add AddExpr_createPartial AddExpr_createPartialR AddExpr_create l r
  | Sub => BCREATE_R Sub SubExpr_createPartial SubExpr_createPartialR SubExpr_create l r
  | Mul => BCREATE_R Mul MulExpr_createPartial MulExpr_createPartialR MulExpr_create l r
  | And => BCREATE_R And AndExpr_createPartial AndExpr_createPartialR AndExpr_create l r
  | Or => BCREATE_R Or OrExpr_createPartial OrExpr_createPartialR OrExpr_create l r
  | Xor => BCREATE_R Xor XorExpr_createPartial XorExpr_createPartialR XorExpr_create l r
  | UDiv => BCREATE UDiv UDivExpr_create l r
  | SDiv => BCREATE SDiv SDivExpr_create l r
  | URem => BCREATE URem URemExpr_create l r
  | SRem => BCREATE SRem SRemExpr_create l r
  | Shl => BCREATE Shl ShlExpr_create l r
  | LShr => BCREATE LShr LShrExpr_create l r
  | AShr => BCREATE AShr AShrExpr_create l r
  | Eq => BCREATE_R Eq EqExpr_createPartial EqExpr_createPartialR EqExpr_create l r
  | Ult => BCREATE Ult UltExpr_create l r
  | Ule => BCREATE Ule UleExpr_create l r
  | Slt => BCREATE Slt SltExpr_create l r
  | Sle => BCREATE Sle SleExpr_create l r
  | Ne | Ugt | Uge | Sgt | Sge => AssertFail (* no create function calls these: see BinaryExpr_create *)
  end.
End helpers.

Fixpoint create (fuel : nat) (k : BinKind) (l r : expr) : res expr :=
  match fuel with
  | O => OutOfFuel
  | S fuel' => create_step (create fuel') k l r
  end.

Definition create_fuel (l r : expr) : nat := expr_size l + expr_size r + 4.

(** [X::create(l, r)] for a binary kind X of the canonical form. *)
Definition canonical_create (k : BinKind) (l r : expr) : res expr :=
  create (create_fuel l r) k l r.

Definition NeExpr_create (l r : expr) : res expr :=
  let* z := const_create 0 Bool_w in
  let* e := canonical_create Eq l r in
  canonical_create Eq z e.

(** [X::create(l, r)] for every binary kind X. *)
Definition BinaryExpr_create (k : BinKind) (l r : expr) : res expr :=
  match k with
  | Ne => NeExpr_create l r
  | Ugt => canonical_create Ult r l
  | Uge => canonical_create Ule r l
  | Sgt => canonical_create Slt r l
  | Sge => canonical_create Sle r l
  | _ => canonical_create k l r
  end.

Definition createIsZero (e : expr) : res expr := createIsZero_with BinaryExpr_create e.

Definition createImplies (hyp conc : expr) : res expr :=
  let* n := createIsZero hyp in BinaryExpr_create Or n conc.

End binary.
