(* ===== verification/ExprSem.v ===== *)
(** The meaning of expressions, independent of the code that builds them:
    well-typedness ([wt]), and the value of an expression under an
    environment of array contents ([denote]).

    [denote] is partial: an expression that divides by zero has no value, and,
    when [checked] is set, neither has a read of a constant array out of its
    bounds ([-const-array-opt] relies on the bounds check that precedes every
    read; without the option, such a read has the value of the environment).  The
    correctness of a constructor is [implements]: it returns (no failed
    assertion, no exhausted fuel) a well-typed expression of the right width
    whose value is the intended one whenever that is defined. *)
From Stdlib Require Import ZArith Lia Bool Ascii String.
From stdpp Require Import base list numbers option.
From S2P Require Import Prelude APInt Expr ExprCreate.
Open Scope Z_scope.

Section sem.
Context {A : APInt} {L : APIntLaws A} {AR : Arrays}.
Context (checked : bool).

(** The bytes an array starts with, by address and index. *)
Definition env : Type := positive -> Z -> Z.

(** The initial element of an array: the constant value where it has one, else
    what the environment assigns. *)
Definition array_init (ρ : env) (root : positive) (i : Z) : option Z :=
  let a := arrayAt root in
  match (if 0 <=? i then constantValues a !! Z.to_nat i else None) with
  | Some c => Some (uval c)
  | None =>
      if checked && isConstantArray a then None
      else Some (wrap (range a) (ρ root i))
  end.

Fixpoint denote (ρ : env) (e : expr) : option Z :=
  match e with
  | Constant v => Some (uval v)
  | NotOptimized s => denote ρ s
  | Read root head index => i ← denote ρ index; denote_updates ρ root head i
  | Select c t f =>
      vc ← denote ρ c; vt ← denote ρ t; vf ← denote ρ f;
      Some (if vc =? 1 then vt else vf)
  | Concat l r => vl ← denote ρ l; vr ← denote ρ r; Some (vl * 2 ^ getWidth r + vr)
  | Extract e off w => v ← denote ρ e; Some (wrap w (v / 2 ^ off))
  | Cast ZExt s w => denote ρ s
  | Cast SExt s w => v ← denote ρ s; Some (wrap w (signed (getWidth s) v))
  | Not e => v ← denote ρ e; Some (wrap (getWidth e) (Z.lnot v))
  | Binary k l r => x ← denote ρ l; y ← denote ρ r; bin_sem k (getWidth l) x y
  end
with denote_updates (ρ : env) (root : positive) (u : updates) (i : Z) : option Z :=
  match u with
  | UNil => array_init ρ root i
  | UNode idx v next =>
      j ← denote ρ idx;
      if j =? i then denote ρ v else denote_updates ρ root next i
  end.

Lemma denote_updates_node ρ root idx v next i :
  denote_updates ρ root (UNode idx v next) i =
  (j ← denote ρ idx; if j =? i then denote ρ v else denote_updates ρ root next i).
Proof. reflexivity. Qed.

(** ** Well-typed expressions *)

Definition wt_array (a : array) : Prop :=
  0 < range a /\ 0 < domain a <= 64 /\
  0 <= size a < 2 ^ 32 /\ size a <= 2 ^ domain a /\
  Forall (fun c => getBitWidth c = range a) (constantValues a) /\
  (constantValues a <> [] -> Z.of_nat (length (constantValues a)) = size a).

Fixpoint wt (e : expr) : Prop :=
  match e with
  | Constant v => 0 < getBitWidth v
  | NotOptimized s => wt s
  | Read root head index =>
      wt_array (arrayAt root) /\ wt_updates root head /\ wt index /\
      getWidth index = domain (arrayAt root)
  | Select c t f => wt c /\ wt t /\ wt f /\ getWidth c = 1 /\ getWidth t = getWidth f
  | Concat l r => wt l /\ wt r
  | Extract e off w => wt e /\ 0 < w /\ 0 <= off /\ off + w <= getWidth e
  | Cast _ s w => wt s /\ getWidth s < w
  | Not e => wt e
  | Binary k l r => wt l /\ wt r /\ getWidth l = getWidth r
  end
with wt_updates (root : positive) (u : updates) : Prop :=
  match u with
  | UNil => True
  | UNode i v next =>
      wt i /\ wt v /\ getWidth i = domain (arrayAt root) /\
      getWidth v = range (arrayAt root) /\ wt_updates root next
  end.

(** ** What a constructor must do *)

Definition implements (m : res expr) (w : Z) (d : env -> option Z) : Prop :=
  exists e, m = Ok e /\ wt e /\ getWidth e = w /\
    forall ρ v, d ρ = Some v -> denote ρ e = Some v.

(** The value of [l k r], from those of [l] and [r]. *)
Definition bin_den (k : BinKind) (l r : expr) (ρ : env) : option Z :=
  x ← denote ρ l; y ← denote ρ r; bin_sem k (getWidth l) x y.

(** A division by a constant zero of a constant is the one combination the
    source's assertions exclude. *)
Definition div_ok (k : BinKind) (l r : expr) : Prop :=
  match l, r with
  | Constant _, Constant c => is_div k = true -> uval c <> 0
  | _, _ => True
  end.

(** ** Basic facts *)

Lemma wt_width_pos e : wt e -> 0 < getWidth e.
Proof.
  induction e; cbn; intros H; auto; try (destruct H as (H1 & H2); auto; lia).
  - by destruct H as ((? & _) & _).
  - apply IHe2. tauto.
  - destruct H as [H1 H2]. specialize (IHe1 H1). specialize (IHe2 H2). lia.
  - destruct H as (H1 & H2). specialize (IHe H1). lia.
  - destruct (is_cmp k); [done|]. apply IHe1. tauto.
Qed.

Lemma array_init_range ρ root i v :
  wt_array (arrayAt root) -> array_init ρ root i = Some v -> 0 <= v < 2 ^ range (arrayAt root).
Proof.
  intros (Hr & _ & _ & _ & Hc & _). unfold array_init. cbn zeta.
  destruct (if 0 <=? i then _ else _) as [c|] eqn:E.
  - intros [= <-]. destruct (0 <=? i); [|discriminate].
    pose proof (Forall_lookup_1 _ _ _ _ Hc E) as Hw. cbn in Hw.
    rewrite <- Hw. apply uval_range. lia.
  - destruct (checked && _); [discriminate|]. intros [= <-]. apply wrap_range. lia.
Qed.

Lemma array_init_symbolic ρ os i :
  isSymbolicArray (arrayAt os) = true ->
  array_init ρ os i = Some (wrap (range (arrayAt os)) (ρ os i)).
Proof.
  intros H. unfold array_init, isConstantArray. rewrite H, andb_false_r.
  unfold isSymbolicArray in H. destruct (constantValues (arrayAt os)); [|done].
  rewrite lookup_nil. by destruct (0 <=? i).
Qed.

(** In bounds, a constant array has its constants. *)
Lemma array_init_constant ρ ρ' os i :
  wt_array (arrayAt os) -> isSymbolicArray (arrayAt os) = false -> 0 <= i < size (arrayAt os) ->
  array_init ρ os i = array_init ρ' os i.
Proof.
  intros (_ & _ & _ & _ & _ & Hl) Hs Hi. unfold array_init.
  assert (0 <=? i = true) as -> by (apply Z.leb_le; lia).
  destruct (constantValues (arrayAt os) !! Z.to_nat i) eqn:E; [done|]. exfalso.
  apply lookup_ge_None in E. assert (constantValues (arrayAt os) <> []) as Hne.
  { intros H. unfold isSymbolicArray in Hs. by rewrite H in Hs. }
  specialize (Hl Hne). lia.
Qed.

Lemma denote_range_both :
  (forall e ρ v, wt e -> denote ρ e = Some v -> 0 <= v < 2 ^ getWidth e) /\
  (forall u ρ root i v, wt_array (arrayAt root) -> wt_updates root u ->
     denote_updates ρ root u i = Some v -> 0 <= v < 2 ^ range (arrayAt root)).
Proof.
  apply expr_updates_ind; cbn; intros.
  - simplify_eq. by apply uval_range.
  - eauto.
  - destruct_and!. apply bind_Some in H2 as (i & ? & ?). eauto.
  - destruct_and!. apply bind_Some in H3 as (vc & ? & H3).
    apply bind_Some in H3 as (vt & ? & H3). apply bind_Some in H3 as (vf & ? & H3).
    simplify_eq. destruct (vc =? 1); [eauto|].
    match goal with E : getWidth trueExpr = _ |- _ => rewrite E end. eauto.
  - destruct_and!. apply bind_Some in H2 as (vl & Hl & H2). apply bind_Some in H2 as (vr & Hr & H2).
    simplify_eq. apply H in Hl; [|done]. apply H0 in Hr; [|done].
    apply wt_width_pos in H3, H4. rewrite Z.pow_add_r by lia. nia.
  - destruct_and!. apply bind_Some in H1 as (x & ? & ?). simplify_eq. apply wrap_range. lia.
  - destruct H0 as [Hs Hlt]. pose proof (wt_width_pos _ Hs). destruct k.
    + apply H in H1; [|done]. assert (2 ^ getWidth src <= 2 ^ width) by (apply Z.pow_le_mono_r; lia). lia.
    + apply bind_Some in H1 as (x & ? & ?). simplify_eq. apply wrap_range. lia.
  - apply bind_Some in H1 as (x & ? & ?). simplify_eq. apply wt_width_pos in H0. apply wrap_range. lia.
  - destruct_and!. apply bind_Some in H2 as (x & Hx & H2). apply bind_Some in H2 as (y & Hy & H2).
    apply H in Hx; [|done]. apply H0 in Hy; [|done].
    apply bin_sem_range in H2; [|by apply wt_width_pos|done|by rewrite H5].
    unfold bin_width in H2. by destruct (is_cmp k).
  - by eapply array_init_range.
  - destruct_and!. apply bind_Some in H4 as (j & ? & H4). destruct (j =? i).
    + match goal with E : getWidth value = _ |- _ => rewrite <- E end. eauto.
    + eauto.
Qed.

Lemma denote_range e ρ v : wt e -> denote ρ e = Some v -> 0 <= v < 2 ^ getWidth e.
Proof. apply denote_range_both. Qed.

Lemma bin_den_range k l r ρ v :
  wt l -> wt r -> getWidth l = getWidth r -> bin_den k l r ρ = Some v ->
  0 <= v < 2 ^ bin_width k (getWidth l).
Proof.
  intros Hl Hr Hw H. unfold bin_den in H.
  apply bind_Some in H as (x & Hx & H). apply bind_Some in H as (y & Hy & H).
  apply denote_range in Hx; [|done]. apply denote_range in Hy; [|done].
  apply bin_sem_range in H; [done|by apply wt_width_pos|done|by rewrite Hw].
Qed.

(** ** Composing constructors *)

Lemma implements_ok e w d :
  wt e -> getWidth e = w -> (forall ρ v, d ρ = Some v -> denote ρ e = Some v) ->
  implements (Ok e) w d.
Proof. intros. exists e. by split_and!. Qed.

Lemma implements_bind m k w1 d1 w d :
  implements m w1 d1 ->
  (forall e, wt e -> getWidth e = w1 -> (forall ρ v, d1 ρ = Some v -> denote ρ e = Some v) ->
     implements (k e) w d) ->
  implements (res_bind m k) w d.
Proof. intros (e & -> & ? & ? & ?) HK. cbn. by apply HK. Qed.

Lemma implements_weaken m w d d' :
  implements m w d -> (forall ρ v, d' ρ = Some v -> d ρ = Some v) -> implements m w d'.
Proof. intros (e & ? & ? & ? & ?) HK. exists e. split_and!; auto. Qed.

Lemma implements_assert b m w d : b = true -> implements m w d -> implements (res_assert b m) w d.
Proof. by intros ->. Qed.

(** ** Constants *)

Lemma wt_const_alloc v w : 0 < w -> wt (const_alloc v w).
Proof. intros. cbn. by rewrite make_width. Qed.

Lemma width_const_alloc v w : 0 < w -> getWidth (const_alloc v w) = w.
Proof. intros. cbn. by rewrite make_width. Qed.

Lemma denote_const_alloc ρ v w :
  0 < w -> 0 <= v < 2 ^ 64 -> denote ρ (const_alloc v w) = Some (wrap w v).
Proof. intros. cbn. by rewrite make_val. Qed.

Lemma const_create_ok v w :
  0 <= v < 2 ^ w -> const_create v w = Ok (const_alloc v w).
Proof.
  intros. unfold const_create. rewrite wrap_small by done. by rewrite Z.eqb_refl, orb_true_r.
Qed.

Lemma implements_const_create v w d :
  0 < w -> 0 <= v < 2 ^ w -> v < 2 ^ 64 -> (forall ρ x, d ρ = Some x -> x = v) ->
  implements (const_create v w) w d.
Proof.
  intros Hw Hv H64 Hd. rewrite const_create_ok by done. apply implements_ok.
  - by apply wt_const_alloc.
  - by apply width_const_alloc.
  - intros ρ x Hx. apply Hd in Hx as ->. rewrite denote_const_alloc, wrap_small by lia. done.
Qed.

(** The constant operations compute the reference semantics. *)
Lemma const_op_ok k a b :
  0 < getBitWidth a -> getBitWidth a = getBitWidth b ->
  (is_div k = true -> uval b <> 0) ->
  exists c, const_op k a b = Ok c /\ getBitWidth c = bin_width k (getBitWidth a) /\
    bin_sem k (getBitWidth a) (uval a) (uval b) = Some (uval c).
Proof.
  intros Ha Hw Hd. unfold const_op.
  assert (negb (is_div k && (uval b =? 0)) = true) as ->.
  { destruct (is_div k); [|done]. apply negb_true_iff, andb_false_iff. right.
    apply Z.eqb_neq. auto. }
  cbn [res_assert]. unfold bin_width. destruct (is_cmp k) eqn:Hc.
  - exists (bool_const (ap_cmp k a b)). unfold bool_const. split_and!; [done| |].
    + by rewrite make_width.
    + rewrite make_val by (unfold Bool_w; destruct (ap_cmp k a b); cbn; lia).
      rewrite (cmp_op_val k a b Hc Hw Ha). f_equal. by destruct (ap_cmp k a b).
  - exists (ap_bin k a b). split_and!; [done|by apply bin_op_width|].
    destruct (bin_sem_defined k (getBitWidth a) (uval a) (uval b) Hd) as [v Hv].
    rewrite Hv. f_equal. symmetry. by apply (bin_op_val k a b v Hc Hw Ha).
Qed.

End sem.

#[export] Hint Resolve wt_width_pos wt_const_alloc : klee.

(** ** A concrete setting: a symbolic and a constant array *)
Module Examples.
Definition byte (v : Z) : @ap bv_apint := BV 8 v.
Definition word (v : Z) : @ap bv_apint := BV 32 v.

Definition arrays : @Arrays bv_apint := fun p =>
  match p with
  | 1%positive => Array "a" 16 32 8 []
  | _ => Array "k" 2 32 8 [byte 7; byte 9]
  end.
#[local] Existing Instance arrays.

(* a[i] and k[i] *)
Definition a_at (i : Z) : expr := Read 1 UNil (Constant (word i)).
Definition k_at (i : expr) : expr := Read 2 UNil i.
(* every byte of [a] is 5 *)
Definition fives : env := fun _ _ => 5.

Lemma wt_a : wt_array (arrayAt 1).
Proof. unfold wt_array; cbn. split_and!; try lia; try done; by constructor. Qed.

Lemma wt_k : wt_array (arrayAt 2).
Proof. unfold wt_array; cbn. split_and!; try lia; try done; by repeat constructor. Qed.

Lemma wt_a_at i : wt (a_at i).
Proof. cbn [wt a_at]. split_and!; try done. Qed.
End Examples.
