(* ===== verification/ExprCompare.v ===== *)
(** [Expr::compare] is zero exactly on structurally equal expressions, which
    have the same width, hash and value.  (That it is antisymmetric and
    transitive, hence an order, is in [ExprOrder.v].) *)
From Stdlib Require Import ZArith Lia Bool Ascii String.
From stdpp Require Import base list numbers option.
From S2P Require Import Prelude APInt Expr ExprCreate ExprSem.
Open Scope Z_scope.

(** ** The combinators of the comparison *)

Lemma cmp_then_zero a b k : cmp_then a b k = 0 <-> a = b /\ k = 0.
Proof.
  unfold cmp_then. destruct (a =? b) eqn:E; tidy_bools; [tauto|].
  destruct (a <? b); split; lia.
Qed.

Lemma ret_nonzero_zero r k : ret_nonzero r k = 0 <-> r = 0 /\ k = 0.
Proof. unfold ret_nonzero. destruct (r =? 0) eqn:E; tidy_bools; lia. Qed.

Lemma string_compare_eq s t : String.compare s t = Datatypes.Eq <-> s = t.
Proof.
  split; [apply String.compare_eq_iff|]. intros ->.
  induction t as [|c t IH]; cbn; [done|].
  unfold Ascii.compare. by rewrite N.compare_refl.
Qed.

Lemma cmp_string_zero s t k : cmp_string s t k = 0 <-> s = t /\ k = 0.
Proof.
  unfold cmp_string. rewrite <- string_compare_eq.
  destruct (String.compare s t); split; intros; intuition (try congruence; try lia).
Qed.

Section compare.
Context {A : APInt} {L : APIntLaws A} {AR : Arrays}.

(** Structural equality; two [APInt]s are the same when they have the same
    width and value. *)
Inductive same : expr -> expr -> Prop :=
| same_Constant v v' : getBitWidth v = getBitWidth v' -> uval v = uval v' ->
    same (Constant v) (Constant v')
| same_NotOptimized s s' : same s s' -> same (NotOptimized s) (NotOptimized s')
| same_Read root u u' i i' : same_updates u u' -> same i i' ->
    same (Read root u i) (Read root u' i')
| same_Select c c' t t' f f' : same c c' -> same t t' -> same f f' ->
    same (Select c t f) (Select c' t' f')
| same_Concat l l' r r' : same l l' -> same r r' -> same (Concat l r) (Concat l' r')
| same_Extract e e' off w : same e e' -> same (Extract e off w) (Extract e' off w)
| same_Cast k s s' w : same s s' -> same (Cast k s w) (Cast k s' w)
| same_Not e e' : same e e' -> same (Not e) (Not e')
| same_Binary k l l' r r' : same l l' -> same r r' -> same (Binary k l r) (Binary k l' r')
with same_updates : updates -> updates -> Prop :=
| same_UNil : same_updates UNil UNil
| same_UNode i i' v v' n n' : same i i' -> same v v' -> same_updates n n' ->
    same_updates (UNode i v n) (UNode i' v' n').

Lemma same_width a b : same a b -> getWidth a = getWidth b.
Proof. induction 1; cbn; try congruence. by rewrite IHsame1. Qed.

Lemma bin_kind_code_inj k k' : bin_kind_code k = bin_kind_code k' -> k = k'.
Proof. destruct k, k'; cbn; intros; congruence. Qed.

Lemma updates_size_nonneg (u : updates) : 0 <= updates_size u.
Proof. induction u; cbn; lia. Qed.

(** The kinds agree when the comparison is zero, so both sides have the same
    constructor. *)
Lemma compare_zero_kind a b : compare a b = 0 -> getKind a = getKind b.
Proof. destruct a; cbn [compare]; intros H; apply cmp_then_zero in H; tauto. Qed.

(** Inverts [compare a b = 0] for a constructor-headed [a]. *)
Ltac invert_compare H :=
  pose proof (compare_zero_kind _ _ H) as HK;
  cbn [compare] in H; apply cmp_then_zero in H as [_ H]; apply cmp_then_zero in H as [_ H];
  match type of HK with
  | _ = getKind ?b => destruct b; cbn [getKind] in HK;
      repeat match type of HK with context [match ?k with _ => _ end] =>
               is_var k; destruct k; cbn [getKind] in HK end;
      try (cbn in HK; discriminate HK);
      try (exfalso; match goal with k : BinKind |- _ => destruct k; discriminate HK end)
  end;
  repeat match goal with
  | H : ret_nonzero _ _ = 0 |- _ => apply ret_nonzero_zero in H as [? ?]
  | H : cmp_then _ _ _ = 0 |- _ => apply cmp_then_zero in H as [? ?]
  | H : cmp_string _ _ _ = 0 |- _ => apply cmp_string_zero in H as [? ?]
  end.

Lemma compare_zero_both :
  (forall a b, wt a -> wt b -> compare a b = 0 -> same a b) /\
  (forall u u' root, wt_updates root u -> wt_updates root u' ->
     updates_size u = updates_size u' -> compare_updates u u' = 0 -> same_updates u u').
Proof.
  apply expr_updates_ind.
  - intros v b Ha Hb H. invert_compare H. constructor; [done|].
    cbn in Ha, Hb. pose proof (cmp_op_val Eq v value eq_refl H Ha) as E. cbn in E.
    destruct (ap_cmp Eq v value); [|destruct (ap_cmp Ult v value); discriminate].
    destruct (uval v =? uval value) eqn:E2; [by tidy_bools|discriminate].
  - intros s IH b Ha Hb H. invert_compare H. constructor. by apply IH.
  - intros root u IHu i IHi b Ha Hb H. invert_compare H. cbn in Ha, Hb.
    simplify_eq. constructor; [apply (IHu _ root0)|apply IHi]; tauto.
  - intros c IHc t IHt f IHf b Ha Hb H. invert_compare H. cbn in Ha, Hb.
    constructor; [apply IHc|apply IHt|apply IHf]; tauto.
  - intros l IHl r IHr b Ha Hb H. invert_compare H. cbn in Ha, Hb.
    constructor; [apply IHl|apply IHr]; tauto.
  - intros e IH off w b Ha Hb H. invert_compare H. cbn in Ha, Hb.
    subst. constructor. apply IH; tauto.
  - intros k s IH w b Ha Hb H. destruct k; invert_compare H; cbn in Ha, Hb; subst;
      constructor; apply IH; tauto.
  - intros e IH b Ha Hb H. invert_compare H. constructor. by apply IH.
  - intros k l IHl r IHr b Ha Hb H. invert_compare H. cbn in Ha, Hb.
    apply bin_kind_code_inj in HK. subst. constructor; [apply IHl|apply IHr]; tauto.
  - intros u' root _ _ Hs _. destruct u'; [constructor|]. cbn in Hs.
    pose proof (updates_size_nonneg u'). lia.
  - intros i IHi v IHv n IHn u' root Hu Hu' Hs H.
    destruct u'; cbn in Hs; [pose proof (updates_size_nonneg n); lia|].
    cbn in H, Hu, Hu'. apply ret_nonzero_zero in H as [H Hn].
    apply ret_nonzero_zero in H as [Hi Hv].
    constructor; [apply IHi|apply IHv|apply (IHn _ root)]; try tauto. lia.
Qed.

Lemma compare_zero_same a b : wt a -> wt b -> compare a b = 0 -> same a b.
Proof. apply compare_zero_both. Qed.

Scheme same_mut := Induction for same Sort Prop
  with same_updates_mut := Induction for same_updates Sort Prop.
Combined Scheme same_both from same_mut, same_updates_mut.

Lemma same_denote_both :
  (forall a b, same a b -> forall ck ρ, denote ck ρ a = denote ck ρ b) /\
  (forall u u', same_updates u u' -> forall ck ρ root i,
     denote_updates ck ρ root u i = denote_updates ck ρ root u' i).
Proof.
  apply same_both; cbn; intros; try congruence.
  - rewrite H0. apply option_bind_ext_fun. intros. apply H.
  - by rewrite H, H0, H1.
  - rewrite H, H0. by rewrite (same_width r r').
  - rewrite H. by rewrite (same_width s s').
  - rewrite H. by rewrite (same_width e e').
  - rewrite H, H0. by rewrite (same_width l l').
  - change (denote_updates ck ρ root (UNode i v n) i0 = denote_updates ck ρ root (UNode i' v' n') i0).
    rewrite !denote_updates_node, (H ck ρ). apply option_bind_ext_fun. intros j. destruct (j =? i0); [apply H0|apply H1].
Qed.

(** Expressions the source finds equal have the same width and value. *)
Lemma expr_eqb_sound a b :
  wt a -> wt b -> expr_eqb a b = true ->
  getWidth a = getWidth b /\ forall ck ρ, denote ck ρ a = denote ck ρ b.
Proof.
  intros Ha Hb H. apply Z.eqb_eq, compare_zero_same in H; [|done..].
  split; [by apply same_width|]. by apply same_denote_both.
Qed.

Lemma constant_hash_same v v' :
  getBitWidth v = getBitWidth v' -> uval v = uval v' -> constant_hash v = constant_hash v'.
Proof.
  intros Ew Ev. unfold constant_hash, getLimitedValue. rewrite <- Ew, Ev.
  by rewrite (hash_val v v').
Qed.

Lemma hash_updates_node i v n :
  hash_updates (UNode i v n) =
  match n with
  | UNil => Z.lxor (hash i) (hash v)
  | _ => Z.lxor (Z.lxor (hash i) (hash v)) (hash_updates n)
  end.
Proof. by destruct n. Qed.

Lemma same_hash_both :
  (forall a b, same a b -> hash a = hash b) /\
  (forall u u', same_updates u u' -> hash_updates u = hash_updates u').
Proof.
  apply same_both; intros.
  all: try (cbn [hash getKind]; congruence).
  - by apply constant_hash_same.
  - change (Z.lxor (u32_mul (hash i) MAGIC_HASH_CONSTANT)
      (Z.lxor (name_hash 0 (name (arrayAt root))) (hash_updates u)) = hash (Read root u' i')).
    rewrite H, H0. reflexivity.
  - rewrite !hash_updates_node, H, H0. destruct s1; congruence.
Qed.

Lemma same_kind a b : same a b -> getKind a = getKind b.
Proof. by destruct 1. Qed.

Lemma same_size u u' : same_updates u u' -> updates_size u = updates_size u'.
Proof. induction 1; cbn; congruence. Qed.

Lemma compare_same_both :
  (forall a b, same a b -> wt a -> compare a b = 0) /\
  (forall u u', same_updates u u' -> forall root, wt_updates root u -> compare_updates u u' = 0).
Proof.
  pose proof (proj1 same_hash_both) as SH.
  assert (forall a b k, same a b -> k = 0 ->
    cmp_then (getKind a) (getKind b) (cmp_then (hash a) (hash b) k) = 0) as Head.
  { intros a b k Hs Hk. by rewrite !cmp_then_zero, (same_kind a b), (SH a b). }
  apply same_both; intros; try (apply Head; [by constructor|]); try (cbn in *);
    repeat match goal with
    | H : _ /\ _ |- _ => destruct H
    | |- cmp_then _ _ _ = 0 => apply cmp_then_zero; split; [done|]
    | |- ret_nonzero _ _ = 0 => apply ret_nonzero_zero; split
    | |- cmp_string _ _ _ = 0 => apply cmp_string_zero; split; [done|]
    end; eauto.
  - pose proof (cmp_op_val Eq v v' eq_refl e H) as C. cbn in C.
    rewrite e0, Z.eqb_refl in C. by destruct (ap_cmp Eq v v').
  - apply cmp_then_zero. split; [by apply same_size|eauto].
  - apply cmp_then_zero. split; [|apply ret_nonzero_zero; eauto].
    cbn. by rewrite (same_width l l'), (same_width r r').
Qed.

Lemma compare_same a b : same a b -> wt a -> compare a b = 0.
Proof. apply compare_same_both. Qed.

Lemma expr_eqb_const a b :
  0 < getBitWidth a -> 0 < getBitWidth b -> getBitWidth a = getBitWidth b ->
  expr_eqb (Constant a) (Constant b) = (uval a =? uval b).
Proof.
  intros Ha Hb E. apply eq_true_iff_eq. unfold expr_eqb. rewrite !Z.eqb_eq. split; intros H.
  - apply compare_zero_same in H; [|done..]. by inversion H.
  - apply compare_same; [by constructor|done].
Qed.

End compare.
