(* ===== verification/ExprOrder.v ===== *)
(** [Expr::compare] is a total order on well-typed expressions, zero exactly
    on structurally equal ones: what the [std::map]s and [std::set]s keyed by
    expressions rely on. *)
From Stdlib Require Import ZArith Lia Bool Ascii String.
From stdpp Require Import base list numbers option.
From S2P Require Import Prelude APInt Expr ExprCreate ExprSem ExprCompare.
Open Scope Z_scope.

(** ** Three-way results *)

(** The results [x] of comparing a with b, [y] of b with c and [z] of a with c
    are those of a transitive comparison. *)
Definition tri (x y z : Z) : Prop :=
  (x <= 0 -> y <= 0 -> z <= 0 /\ (z = 0 -> x = 0 /\ y = 0)) /\
  (0 <= x -> 0 <= y -> 0 <= z /\ (z = 0 -> x = 0 /\ y = 0)).

Lemma tri_zero : tri 0 0 0.
Proof. unfold tri. lia. Qed.

Lemma cmp_then_tri a b c x y z :
  (a = b -> b = c -> tri x y z) -> tri (cmp_then a b x) (cmp_then b c y) (cmp_then a c z).
Proof.
  unfold tri, cmp_then. intros H.
  destruct (a =? b) eqn:E1; destruct (b =? c) eqn:E2; destruct (a =? c) eqn:E3; tidy_bools; try lia.
  all: try (by apply H); destruct (a <? b) eqn:?; destruct (b <? c) eqn:?; destruct (a <? c) eqn:?; tidy_bools; lia.
Qed.

Lemma ret_nonzero_tri x y z x' y' z' :
  tri x y z -> tri x' y' z' -> tri (ret_nonzero x x') (ret_nonzero y y') (ret_nonzero z z').
Proof.
  unfold tri, ret_nonzero. intros H1 H2.
  destruct (x =? 0) eqn:?; destruct (y =? 0) eqn:?; destruct (z =? 0) eqn:?; tidy_bools; lia.
Qed.

Definition cmp_string_val (s t : string) : Z := cmp_string s t 0.

Lemma cmp_string_ret s t k : cmp_string s t k = ret_nonzero (cmp_string_val s t) k.
Proof. unfold cmp_string_val, cmp_string. by destruct (String.compare s t). Qed.

Lemma cmp_string_val_cons c s d t :
  cmp_string_val (String c s) (String d t) =
  cmp_then (Z.of_N (N_of_ascii c)) (Z.of_N (N_of_ascii d)) (cmp_string_val s t).
Proof.
  unfold cmp_string_val, cmp_string, cmp_then. cbn [String.compare]. unfold Ascii.compare.
  destruct (N.compare_spec (N_of_ascii c) (N_of_ascii d)) as [E|E|E].
  - by rewrite E, Z.eqb_refl.
  - replace (_ =? _) with false by lia. by replace (_ <? _) with true by lia.
  - replace (_ =? _) with false by lia. by replace (_ <? _) with false by lia.
Qed.

Lemma cmp_string_tri s : forall t u,
  tri (cmp_string_val s t) (cmp_string_val t u) (cmp_string_val s u).
Proof.
  induction s as [|c s IH]; intros [|d t] [|e u]; rewrite ?cmp_string_val_cons;
    try (by apply cmp_then_tri);
    match goal with
    | |- context [cmp_then ?a ?b ?k] => generalize (cmp_then a b k)
    | _ => idtac
    end; unfold tri; cbn; lia.
Qed.

Lemma cmp_then_anti a b x y : (a = b -> y = - x) -> cmp_then b a y = - cmp_then a b x.
Proof.
  unfold cmp_then. intros H. destruct (a =? b) eqn:E1; destruct (b =? a) eqn:E2; tidy_bools; try lia.
  destruct (a <? b) eqn:?; destruct (b <? a) eqn:?; tidy_bools; lia.
Qed.

Lemma ret_nonzero_anti x y x' y' :
  y = - x -> y' = - x' -> ret_nonzero y y' = - ret_nonzero x x'.
Proof. unfold ret_nonzero. intros. destruct (x =? 0) eqn:?; destruct (y =? 0) eqn:?; tidy_bools; lia. Qed.

Lemma cmp_string_anti s t : cmp_string_val t s = - cmp_string_val s t.
Proof.
  unfold cmp_string_val, cmp_string. rewrite String.compare_antisym.
  by destruct (String.compare s t).
Qed.

Section order.
Context {A : APInt} {L : APIntLaws A} {AR : Arrays}.

(** The part of [compare] after the kinds and the hashes. *)
Definition compare_rest (a b : expr) : Z :=
  match a, b with
  | Constant v, Constant v' =>
      cmp_then (getBitWidth v) (getBitWidth v')
        (if ap_cmp Eq v v' then 0 else if ap_cmp Ult v v' then -1 else 1)
  | NotOptimized s, NotOptimized s' => compare s s'
  | Read root head index, Read root' head' index' =>
      ret_nonzero
        (cmp_string (name (arrayAt root)) (name (arrayAt root'))
           (cmp_then (Z.pos root) (Z.pos root')
              (cmp_then (updates_size head) (updates_size head') (compare_updates head head'))))
        (compare index index')
  | Select c t f, Select c' t' f' =>
      ret_nonzero (compare c c') (ret_nonzero (compare t t') (compare f f'))
  | Concat l r, Concat l' r' =>
      cmp_then (getWidth a) (getWidth b) (ret_nonzero (compare l l') (compare r r'))
  | Extract e off w, Extract e' off' w' => cmp_then off off' (cmp_then w w' (compare e e'))
  | Cast _ s w, Cast _ s' w' => cmp_then w w' (compare s s')
  | Not e, Not e' => compare e e'
  | Binary _ l r, Binary _ l' r' => ret_nonzero (compare l l') (compare r r')
  | _, _ => 0
  end.

Lemma compare_eq a b :
  compare a b = cmp_then (getKind a) (getKind b) (cmp_then (hash a) (hash b) (compare_rest a b)).
Proof. by destruct a. Qed.

(** Kinds: a case analysis that keeps the pairs of one constructor. *)
Inductive same_head : expr -> expr -> Prop :=
| sh_Constant v v' : same_head (Constant v) (Constant v')
| sh_NotOptimized s s' : same_head (NotOptimized s) (NotOptimized s')
| sh_Read root u i root' u' i' : same_head (Read root u i) (Read root' u' i')
| sh_Select c t f c' t' f' : same_head (Select c t f) (Select c' t' f')
| sh_Concat l r l' r' : same_head (Concat l r) (Concat l' r')
| sh_Extract e o w e' o' w' : same_head (Extract e o w) (Extract e' o' w')
| sh_Cast k s w s' w' : same_head (Cast k s w) (Cast k s' w')
| sh_Not e e' : same_head (Not e) (Not e')
| sh_Binary k l r l' r' : same_head (Binary k l r) (Binary k l' r').

Lemma kind_head a b : getKind a = getKind b -> same_head a b.
Proof.
  destruct a as [| | | | | |k1 ? ?| |k1 ? ?]; destruct b as [| | | | | |k2 ? ?| |k2 ? ?];
    cbn [getKind]; intros H; try discriminate H; try constructor.
  all: try (destruct k1; discriminate H); try (destruct k2; discriminate H).
  - destruct k1, k2; try discriminate H; constructor.
  - destruct k1, k2; discriminate H.
  - destruct k1, k2; discriminate H.
  - apply bin_kind_code_inj in H as <-. constructor.
Qed.

(** The value comparison of constants of one width. *)
Lemma const_cmp a b :
  0 < getBitWidth a -> getBitWidth a = getBitWidth b ->
  (if ap_cmp Eq a b then 0 else if ap_cmp Ult a b then -1 else 1) = cmp_then (uval a) (uval b) 0.
Proof.
  intros Ha Hw. pose proof (cmp_op_val Eq a b eq_refl Hw Ha) as E1.
  pose proof (cmp_op_val Ult a b eq_refl Hw Ha) as E2. cbn in E1, E2. unfold cmp_then.
  destruct (ap_cmp Eq a b), (ap_cmp Ult a b), (uval a =? uval b), (uval a <? uval b); done.
Qed.

Lemma compare_tri_both :
  (forall a b c, wt a -> wt b -> wt c -> tri (compare a b) (compare b c) (compare a c)) /\
  (forall u v w root, wt_updates root u -> wt_updates root v -> wt_updates root w ->
     updates_size u = updates_size v -> updates_size v = updates_size w ->
     tri (compare_updates u v) (compare_updates v w) (compare_updates u w)).
Proof.
  assert (forall a b c, (same_head a b -> same_head b c ->
      tri (compare_rest a b) (compare_rest b c) (compare_rest a c)) ->
    tri (compare a b) (compare b c) (compare a c)) as Head.
  { intros a b c H. rewrite !compare_eq. apply cmp_then_tri. intros K1 K2.
    apply cmp_then_tri. intros _ _. apply H; by apply kind_head. }
  apply expr_updates_ind; intros;
    try (apply Head; intros H1' H2'; inversion H1'; subst; inversion H2'; subst;
         cbn [compare_rest]; cbn [wt] in *; destruct_and?).
  - apply cmp_then_tri. intros W1 W2.
    rewrite (const_cmp value v'), (const_cmp v' v'0), (const_cmp value v'0) by (auto; congruence).
    apply cmp_then_tri. intros; apply tri_zero.
  - auto.
  - rewrite !cmp_string_ret.
    apply ret_nonzero_tri; [apply ret_nonzero_tri; [apply cmp_string_tri|]|by auto].
    apply cmp_then_tri. intros [= <-] [= <-]. apply cmp_then_tri. intros S1 S2. by apply (H _ _ root).
  - repeat apply ret_nonzero_tri; auto.
  - apply cmp_then_tri. intros _ _. apply ret_nonzero_tri; auto.
  - apply cmp_then_tri. intros _ _. apply cmp_then_tri. intros _ _. auto.
  - apply cmp_then_tri. intros _ _. auto.
  - auto.
  - apply ret_nonzero_tri; auto.
  - destruct v as [|? ? nv], w as [|? ? nw]; cbn in *; try (pose proof (updates_size_nonneg nv)); try lia; apply tri_zero.
  - destruct v as [|iv vv nv], w as [|iw vw nw]; cbn [updates_size] in *;
      try (pose proof (updates_size_nonneg next)); try (pose proof (updates_size_nonneg nv)); try lia.
    cbn [compare_updates]. cbn [wt_updates] in *. destruct_and!.
    repeat apply ret_nonzero_tri; auto. apply (H1 _ _ root); auto; lia.
Qed.

Lemma compare_anti_both :
  (forall a b, wt a -> wt b -> compare b a = - compare a b) /\
  (forall u v root, wt_updates root u -> wt_updates root v -> updates_size u = updates_size v ->
     compare_updates v u = - compare_updates u v).
Proof.
  assert (forall a b, (same_head a b -> compare_rest b a = - compare_rest a b) ->
    compare b a = - compare a b) as Head.
  { intros a b H. rewrite !compare_eq. apply cmp_then_anti. intros K1.
    apply cmp_then_anti. intros _. apply H. by apply kind_head. }
  apply expr_updates_ind; intros;
    try (apply Head; intros H1'; inversion H1'; subst;
         cbn [compare_rest]; cbn [wt] in *; destruct_and?).
  - apply cmp_then_anti. intros W1. rewrite (const_cmp value v'), (const_cmp v' value) by (auto; congruence).
    by apply cmp_then_anti.
  - auto.
  - rewrite !cmp_string_ret.
    apply ret_nonzero_anti; [apply ret_nonzero_anti; [apply cmp_string_anti|]|by auto].
    apply cmp_then_anti. intros [= <-]. apply cmp_then_anti. intros S1. by apply (H _ root).
  - repeat apply ret_nonzero_anti; auto.
  - apply cmp_then_anti. intros _. apply ret_nonzero_anti; auto.
  - apply cmp_then_anti. intros _. apply cmp_then_anti. intros _. auto.
  - apply cmp_then_anti. intros _. auto.
  - auto.
  - apply ret_nonzero_anti; auto.
  - by destruct v.
  - destruct v as [|iv vv nv]; cbn [updates_size] in *;
      try (pose proof (updates_size_nonneg next)); try lia.
    cbn [compare_updates]. cbn [wt_updates] in *. destruct_and!.
    repeat apply ret_nonzero_anti; auto. apply (H1 _ root); auto; lia.
Qed.

(** C32. [Expr::compare] is a total order on well-typed expressions: it is
    antisymmetric and transitive, and returns zero exactly on structurally
    equal expressions, which have the same width, hash and value. *)
Theorem compare_total_order a b c :
  wt a -> wt b -> wt c ->
  compare b a = - compare a b /\
  (compare a b < 0 -> compare b c <= 0 -> compare a c < 0) /\
  (compare a b <= 0 -> compare b c < 0 -> compare a c < 0) /\
  (compare a b = 0 <-> same a b) /\
  (compare a b = 0 -> getWidth a = getWidth b /\ hash a = hash b /\
     forall ck ρ, denote ck ρ a = denote ck ρ b).
Proof.
  intros Ha Hb Hc. pose proof (proj1 compare_tri_both a b c Ha Hb Hc) as T. unfold tri in T.
  split_and!; try lia.
  - by apply compare_anti_both.
  - split; [by apply compare_zero_same|intros; by apply compare_same].
  - intros H. apply compare_zero_same in H; [|done..]. split_and!.
    + by apply same_width.
    + by apply same_hash_both.
    + by apply same_denote_both.
Qed.

End order.

Lemma compare_total_order_witness :
  @compare bv_apint Examples.arrays (Examples.a_at 0) (Constant (Examples.byte 3)) =
  - @compare bv_apint Examples.arrays (Constant (Examples.byte 3)) (Examples.a_at 0).
Proof.
  destruct (@compare_total_order bv_apint bv_apint_laws Examples.arrays
    (Constant (Examples.byte 3)) (Examples.a_at 0) (Examples.a_at 0)) as [H _].
  - cbn. lia.
  - exact (Examples.wt_a_at 0).
  - exact (Examples.wt_a_at 0).
  - exact H.
Defined.
