(* ===== verification/ExprCreateCorrect.v ===== *)
(** The canonicalizing constructors of [ExprCreate.v] implement the operators:
    [create] never fails an assertion or exhausts its fuel on well-typed
    operands of the same width, and the expression it returns is well typed,
    has the right width and has the value of the operator. *)
From Stdlib Require Import ZArith Lia Bool.
From stdpp Require Import base list numbers option sets.
From S2P Require Import Prelude APInt Expr ExprCreate ExprSem ExprCompare.
Open Scope Z_scope.

(** ** Bit-vector facts behind the rewrites *)

Lemma bit_cases x : 0 <= x < 2 ^ 1 -> x = 0 \/ x = 1.
Proof. change (2 ^ 1) with 2. lia. Qed.

(** Decides a statement about one-bit values by cases. *)
Ltac bits1 :=
  repeat match goal with
  | H : 0 <= ?x < 2 ^ 1 |- _ => is_var x; destruct (bit_cases x H) as [-> | ->]; clear H
  end; try reflexivity; try lia; try (cbn in *; congruence).

Lemma land_ones_id w x : 0 < w -> 0 <= x < 2 ^ w -> Z.land x (2 ^ w - 1) = x.
Proof.
  intros. replace (2 ^ w - 1) with (Z.ones w) by (rewrite Z.ones_equiv; lia).
  rewrite Z.land_ones by lia. by apply Z.mod_small.
Qed.

Lemma lor_ones_id w x : 0 < w -> 0 <= x < 2 ^ w -> Z.lor x (2 ^ w - 1) = 2 ^ w - 1.
Proof.
  intros. replace (2 ^ w - 1) with (Z.ones w) by (rewrite Z.ones_equiv; lia).
  apply Z.bits_inj'. intros n Hn.
  rewrite Z.lor_spec. destruct (Z_lt_le_dec n w).
  - rewrite Z.ones_spec_low by lia. apply orb_true_r.
  - rewrite Z.ones_spec_high by lia. rewrite (testbit_high w) by lia. done.
Qed.

Lemma eqb_add_const w c k x :
  0 < w -> 0 <= c < 2 ^ w -> 0 <= x < 2 ^ w ->
  (c =? wrap w (k + x)) = (wrap w (c - k) =? x).
Proof.
  intros Hw Hc Hx. apply eq_true_iff_eq. rewrite !Z.eqb_eq. split; intros E.
  - rewrite E. autorewrite with kwrap. replace (k + x - k) with x by lia. by apply wrap_small.
  - rewrite <- E. autorewrite with kwrap. replace (k + (c - k)) with c by lia.
    symmetry. by apply wrap_small.
Qed.

Lemma eqb_sub_const w c k x :
  0 < w -> 0 <= c < 2 ^ w -> 0 <= x < 2 ^ w ->
  (c =? wrap w (k - x)) = (wrap w (k - c) =? x).
Proof.
  intros Hw Hc Hx. apply eq_true_iff_eq. rewrite !Z.eqb_eq. split; intros E.
  - rewrite E. autorewrite with kwrap. replace (k - (k - x)) with x by lia. by apply wrap_small.
  - rewrite <- E. autorewrite with kwrap. replace (k - (k - c)) with c by lia.
    symmetry. by apply wrap_small.
Qed.

(** A constant equals an extended value iff it is the extension of its own
    truncation and the truncation equals the value. *)
Lemma eqb_zext v w c x :
  0 < v < w -> 0 <= c < 2 ^ w -> 0 <= x < 2 ^ v ->
  (c =? x) = (c =? wrap w (wrap v c)) && (x =? wrap v c).
Proof.
  intros Hv Hc Hx. assert (2 ^ v <= 2 ^ w) by (apply Z.pow_le_mono_r; lia).
  pose proof (wrap_range v c). rewrite (wrap_small w (wrap v c)) by lia.
  apply eq_true_iff_eq. rewrite andb_true_iff, !Z.eqb_eq. split.
  - intros ->. by rewrite !wrap_small by lia.
  - intros [E1 ->]. done.
Qed.

Lemma eqb_sext v w c x :
  0 < v < w -> 0 <= c < 2 ^ w -> 0 <= x < 2 ^ v ->
  (c =? wrap w (signed v x)) = (c =? wrap w (signed v (wrap v c))) && (x =? wrap v c).
Proof.
  intros Hv Hc Hx. rewrite signed_wrap by lia.
  apply eq_true_iff_eq. rewrite andb_true_iff, !Z.eqb_eq. split.
  - intros E. assert (wrap v c = x) as Hx'.
    { rewrite E, wrap_wrap, wrap_signed by lia. by apply wrap_small. }
    rewrite Hx'. split; [|done]. rewrite <- (signed_wrap v c), Hx' by lia. done.
  - intros [E ->]. rewrite signed_wrap by lia. done.
Qed.

(** The cases of a kind drawn from a list. *)
Ltac kind_cases H := rewrite !elem_of_cons, elem_of_nil in H; destruct_or? H; subst; try done.

(** A kind is in a list. *)
Ltac kind_mem := apply (bool_decide_unpack _); exact I.

(** The operators with a commuted semantics. *)
Lemma bin_sem_comm k w x y :
  k ∈ [Add; Mul; And; Or; Xor; Eq] -> bin_sem k w x y = bin_sem k w y x.
Proof.
  intros H. kind_cases H; cbn.
  - by rewrite Z.add_comm.
  - by rewrite Z.mul_comm.
  - by rewrite Z.land_comm.
  - by rewrite Z.lor_comm.
  - by rewrite Z.lxor_comm.
  - by rewrite Z.eqb_sym.
Qed.

Section correct.
Context {A : APInt} {L : APIntLaws A} {AR : Arrays}.
Context (opt checked : bool).
Context (Hopt : opt = true -> checked = true).

(** The value of [c k r] for a constant [c]. *)
Definition cden (k : BinKind) (c : ap) (r : expr) (ρ : env) : option Z :=
  y ← denote checked ρ r; bin_sem k (getBitWidth c) (uval c) y.

Definition canonical (k : BinKind) : bool :=
  match k with Ne | Ugt | Uge | Sgt | Sge => false | _ => true end.

(** The fuel a constructor needs: none for the kinds that do not recurse, else
    the size of the operands, one less when an operand is constant. *)
Definition measure (l r : expr) : nat :=
  expr_size l + expr_size r + (if isConstant l || isConstant r then 0 else 1).

Definition need (k : BinKind) (l r : expr) : nat :=
  match k with
  | Add | Sub | Xor | Eq => measure l r
  | Shl | LShr | Ult | Ule | Slt | Sle => S (measure l r)
  | _ => 0
  end.

Definition creates (rec : BinKind -> expr -> expr -> res expr) (k : BinKind) (l r : expr) : Prop :=
  exists e, rec k l r = Ok e /\ wt e /\ getWidth e = bin_width k (getWidth l) /\
    (forall ρ v, bin_den checked k l r ρ = Some v -> denote checked ρ e = Some v) /\
    (k = Add \/ k = Sub -> getWidth l <> 1 -> (expr_size e <= expr_size l + expr_size r + 1)%nat).

Definition rec_ok (rec : BinKind -> expr -> expr -> res expr) (f : nat) : Prop :=
  forall k l r, canonical k = true -> (need k l r < f)%nat -> wt l -> wt r ->
    getWidth l = getWidth r -> div_ok k l r -> creates rec k l r.

(** Two constants are folded. *)
Definition rec_folds (rec : BinKind -> expr -> expr -> res expr) (f : nat) : Prop :=
  forall k a b, canonical k = true -> (0 < f)%nat -> getBitWidth a = getBitWidth b ->
    rec k (Constant a) (Constant b) = (let* c := const_op k a b in Ok (Constant c)).

(** Like [implements], with a bound on the size of a result that is not
    Boolean: what the linear rewrites need to bound their recursion. *)
Definition implements_lin (B : nat) (m : res expr) (w : Z) (d : env -> option Z) : Prop :=
  exists e, m = Ok e /\ wt e /\ getWidth e = w /\
    (forall ρ v, d ρ = Some v -> denote checked ρ e = Some v) /\
    (w <> 1 -> (expr_size e <= B)%nat).

Lemma implements_lin_weaken B m w d d' :
  implements_lin B m w d -> (forall ρ v, d' ρ = Some v -> d ρ = Some v) ->
  implements_lin B m w d'.
Proof. intros (e & ? & ? & ? & ? & ?) HK. exists e. split_and!; auto. Qed.

Lemma implements_lin_grow B B' m w d :
  implements_lin B m w d -> (B <= B')%nat -> implements_lin B' m w d.
Proof. intros (e & ? & ? & ? & ? & HB) HK. exists e. split_and!; auto. intros. specialize (HB H3). lia. Qed.

Lemma implements_lin_bool B m w d : w = 1 -> implements checked m w d -> implements_lin B m w d.
Proof. intros Hw (e & ? & ? & ? & ?). exists e. by split_and!. Qed.

Lemma implements_lin_ok B e w d :
  wt e -> getWidth e = w -> (forall ρ v, d ρ = Some v -> denote checked ρ e = Some v) ->
  (expr_size e <= B)%nat -> implements_lin B (Ok e) w d.
Proof. intros. exists e. by split_and!. Qed.

Lemma expr_size_pos e : (1 <= expr_size e)%nat.
Proof. destruct e; cbn; lia. Qed.

Lemma denote_Binary ρ k l r : denote checked ρ (Binary k l r) = bin_den checked k l r ρ.
Proof. done. Qed.

Lemma wt_Binary k l r : wt l -> wt r -> getWidth l = getWidth r -> wt (Binary k l r).
Proof. by cbn. Qed.

Lemma getWidth_Binary k l r : getWidth (Binary k l r) = bin_width k (getWidth l).
Proof. done. Qed.

Lemma implements_alloc k l r d :
  wt l -> wt r -> getWidth l = getWidth r ->
  (forall ρ v, d ρ = Some v -> bin_den checked k l r ρ = Some v) ->
  implements checked (Ok (Binary k l r)) (bin_width k (getWidth l)) d.
Proof. intros. apply implements_ok; [by apply wt_Binary|done|]. intros. rewrite denote_Binary. auto. Qed.

(** Opens the binds of a denotation that has a value. *)
Ltac inv_den :=
  repeat match goal with
  | H : bin_den _ _ _ _ _ = Some _ |- _ => unfold bin_den in H
  | H : cden _ _ _ _ = Some _ |- _ => unfold cden in H
  | H : (_ ≫= _) = Some _ |- _ => apply bind_Some in H as (? & ? & H)
  | H : denote _ _ (Constant _) = Some _ |- _ => cbn [denote] in H
  | H : Some _ = Some _ |- _ => injection H as H; try subst
  end.

(** Adds the range of every value in sight. *)
Ltac ranges :=
  repeat match goal with
  | H : denote checked ?ρ ?e = Some ?v |- _ =>
      lazymatch goal with
      | R : 0 <= v < 2 ^ getWidth e |- _ => fail
      | _ => assert (0 <= v < 2 ^ getWidth e)
               by (apply (denote_range checked e ρ v); [solve [auto with klee]|exact H])
      end
  end.

Lemma const_width_range c : 0 < getBitWidth c -> 0 <= uval c < 2 ^ getBitWidth c.
Proof. apply uval_range. Qed.

(** *** And, Or *)

Lemma And_partial_ok l cr :
  wt l -> 0 < getBitWidth cr -> getWidth l = getBitWidth cr ->
  implements checked (AndExpr_createPartial l cr) (getWidth l) (bin_den checked And l (Constant cr)).
Proof.
  intros Hl Hc Hw. unfold AndExpr_createPartial, const_isAllOnes, const_isZero.
  destruct (uval cr =? _) eqn:E1; tidy_bools; [|destruct (uval cr =? 0) eqn:E0; tidy_bools].
  - apply implements_ok; [done..|]. intros ρ v H. inv_den. ranges. cbn in H. simplify_eq.
    rewrite E1, land_ones_id; [done|lia|by rewrite <- Hw].
  - apply implements_ok; [done|done|]. intros ρ v H. inv_den. cbn in H. simplify_eq.
    cbn. by rewrite E0, Z.land_0_r.
  - change (getWidth l) with (bin_width And (getWidth l)). by apply implements_alloc.
Qed.

Lemma Or_partial_ok l cr :
  wt l -> 0 < getBitWidth cr -> getWidth l = getBitWidth cr ->
  implements checked (OrExpr_createPartial l cr) (getWidth l) (bin_den checked Or l (Constant cr)).
Proof.
  intros Hl Hc Hw. unfold OrExpr_createPartial, const_isAllOnes, const_isZero.
  destruct (uval cr =? _) eqn:E1; tidy_bools; [|destruct (uval cr =? 0) eqn:E0; tidy_bools].
  - apply implements_ok; [done|done|]. intros ρ v H. inv_den. ranges. cbn in H. simplify_eq.
    cbn. rewrite E1, lor_ones_id; [done|lia|by rewrite <- Hw].
  - apply implements_ok; [done|done|]. intros ρ v H. inv_den. cbn in H. simplify_eq.
    by rewrite E0, Z.lor_0_r.
  - change (getWidth l) with (bin_width Or (getWidth l)). by apply implements_alloc.
Qed.

(** A commutative operator with its constant on the left. *)
Lemma implements_comm k m w l c :
  k ∈ [Add; Mul; And; Or; Xor; Eq] -> getWidth l = getBitWidth c ->
  implements checked m w (bin_den checked k l (Constant c)) <->
  implements checked m w (cden k c l).
Proof.
  intros Hk Hw. split; intros H; eapply implements_weaken; eauto; intros ρ v Hd; inv_den.
  - unfold bin_den. rewrite H0. cbn. by rewrite bin_sem_comm, Hw.
  - unfold cden. rewrite H0. cbn. by rewrite bin_sem_comm, <- Hw.
Qed.

(** *** Eq *)

Lemma Eq_create_ok l r :
  wt l -> wt r -> getWidth l = getWidth r ->
  implements checked (EqExpr_create l r) 1 (bin_den checked Eq l r).
Proof.
  intros Hl Hr Hw. unfold EqExpr_create. destruct (expr_eqb l r) eqn:E.
  - destruct (expr_eqb_sound l r Hl Hr E) as [_ Hd]. apply implements_ok.
    + by apply wt_const_alloc.
    + by apply width_const_alloc.
    + intros ρ v H. inv_den. rewrite Hd in H0. simplify_eq. cbn [bin_sem] in H.
      rewrite Z.eqb_refl in H. simplify_eq. by rewrite denote_const_alloc by done.
  - change 1 with (bin_width Eq (getWidth l)). by apply implements_alloc.
Qed.

Section with_rec.
Context (rec : BinKind -> expr -> expr -> res expr) (f : nat).
Context (Hrec : rec_ok rec f).
Context (Hfold : rec_folds rec f).

(** A recursive call on operands the fuel suffices for. *)
Lemma rec_implements k l r :
  canonical k = true -> (need k l r < f)%nat -> wt l -> wt r -> getWidth l = getWidth r ->
  div_ok k l r ->
  implements checked (rec k l r) (bin_width k (getWidth l)) (bin_den checked k l r).
Proof.
  intros. destruct (Hrec k l r) as (e & ? & ? & ? & ? & _); auto. exists e. by split_and!.
Qed.

Lemma rec_lin k l r :
  k = Add \/ k = Sub -> (measure l r < f)%nat -> wt l -> wt r -> getWidth l = getWidth r ->
  implements_lin (expr_size l + expr_size r + 1) (rec k l r) (getWidth l) (bin_den checked k l r).
Proof.
  intros Hk Hf Hl Hr Hw. destruct (Hrec k l r) as (e & He & Hwt & Hwd & Hd & Hs); auto.
  - by destruct Hk; subst.
  - by destruct Hk; subst.
  - unfold div_ok. destruct Hk; subst; cbn; repeat case_match; done.
  - exists e. split_and!; auto. rewrite Hwd. by destruct Hk; subst.
Qed.

Lemma isZero_ok e :
  wt e -> (expr_size e + 1 < f)%nat ->
  implements checked (createIsZero_with rec e) 1 (fun ρ => v ← denote checked ρ e; Some (Z.b2z (v =? 0))).
Proof.
  intros He Hf. pose proof (wt_width_pos e He). unfold createIsZero_with.
  rewrite const_create_ok by lia. cbn [res_bind].
  eapply implements_weaken.
  - change 1 with (bin_width Eq (getWidth e)). apply rec_implements; try done.
    + cbn [need]. unfold measure. cbn. rewrite orb_true_r. lia.
    + by apply wt_const_alloc.
    + by rewrite width_const_alloc.
    + unfold div_ok. cbn. by destruct e.
  - intros ρ v Hd. inv_den. unfold bin_den. rewrite H0. cbn [mbind option_bind].
    rewrite denote_const_alloc by lia. cbn. by rewrite wrap_small by lia.
Qed.

(** Values of the constant array at an index in range. *)
Lemma array_value root i ρ w :
  isSymbolicArray (arrayAt root) = false -> checked = true -> 0 <= i ->
  array_init checked ρ root i = Some w ->
  exists c, constantValues (arrayAt root) !! Z.to_nat i = Some c /\ w = uval c.
Proof.
  intros Hs Hc Hi. unfold array_init. replace (0 <=? i) with true by lia. cbn zeta.
  destruct (_ !! _) as [c|] eqn:E; [intros [= <-]; eauto|].
  unfold isConstantArray. by rewrite Hs, Hc.
Qed.

(** The disjunction built from the first [i] values of a constant array holds
    at the indices below [i] whose value is [cl]. *)
Definition acc_spec (cl : ap) (root : positive) (index : expr) (i : Z) (acc : expr) : Prop :=
  wt acc /\ getWidth acc = 1 /\
  forall ρ idx c, denote checked ρ index = Some idx -> 
    constantValues (arrayAt root) !! Z.to_nat idx = Some c ->
    denote checked ρ acc = Some (Z.b2z ((idx <? i) && (uval cl =? uval c))).

Lemma acc_step cl root index i acc v :
  wt (Read root UNil index) -> (expr_size index + 1 < f)%nat -> 0 <= i < 2 ^ domain (arrayAt root) ->
  constantValues (arrayAt root) !! Z.to_nat i = Some v -> uval cl = uval v ->
  acc_spec cl root index i acc ->
  exists mayBe acc', rec Eq index (const_alloc i (getWidth index)) = Ok mayBe /\
    rec Or acc mayBe = Ok acc' /\ acc_spec cl root index (i + 1) acc'.
Proof.
  intros Hrd Hf Hi Hv Hcl (Ha & Haw & Had). cbn in Hrd. destruct Hrd as (Harr & _ & Hidx & Hdom).
  assert (0 < getWidth index <= 64) as Hw by (destruct Harr as (_ & ? & _); lia).
  assert (2 ^ domain (arrayAt root) <= 2 ^ 64) by (apply Z.pow_le_mono_r; lia).
  destruct (rec_implements Eq index (const_alloc i (getWidth index))) as (m & Em & Hm & Hmw & Hmd);
    [done| |done|apply wt_const_alloc; lia|rewrite width_const_alloc; lia|by destruct index|].
  { cbn [need]. unfold measure. cbn. rewrite orb_true_r. lia. }
  change (bin_width Eq (getWidth index)) with 1 in Hmw.
  destruct (rec_implements Or acc m) as (o & Eo & Ho & How & Hod);
    [done|cbn; lia|done|done|lia|by destruct acc, m|].
  change (bin_width Or (getWidth acc)) with (getWidth acc) in How. rewrite Haw in How.
  exists m, o. split_and!; [done|done|]. split_and!; [done|done|].
  intros ρ idx c Hi' Hc. apply Hod. unfold bin_den.
  rewrite (Had ρ idx c Hi' Hc). cbn [mbind option_bind].
  assert (0 <= idx < 2 ^ getWidth index) as Hr by (by apply (denote_range checked index ρ)).
  rewrite (Hmd ρ (Z.b2z (idx =? i))).
  - cbn [mbind option_bind bin_sem]. destruct (idx =? i) eqn:E; tidy_bools.
    + subst idx. rewrite Hv in Hc. simplify_eq. rewrite Hcl, Z.eqb_refl, Z.ltb_irrefl.
      replace (i <? i + 1) with true by lia. done.
    + replace (idx <? i + 1) with (idx <? i) by (apply eq_true_iff_eq; rewrite !Z.ltb_lt; lia).
      change (Z.b2z false) with 0. by rewrite Z.lor_0_r.
  - unfold bin_den. rewrite Hi'. cbn [mbind option_bind]. rewrite denote_const_alloc by lia.
    cbn [mbind option_bind bin_sem]. rewrite Hdom, wrap_small by done. done.
Qed.

Lemma TryConstArrayOpt_loop_ok cl root index vals pre n acc :
  checked = true -> isSymbolicArray (arrayAt root) = false ->
  wt (Read root UNil index) -> getBitWidth cl = range (arrayAt root) ->
  (expr_size index + 1 < f)%nat ->
  constantValues (arrayAt root) = pre ++ vals -> acc_spec cl root index (Z.of_nat (length pre)) acc ->
  implements checked
    (TryConstArrayOpt_loop rec cl (Read root UNil index) index vals (Z.of_nat (length pre)) n acc) 1
    (cden Eq cl (Read root UNil index)).
Proof.
  intros Hck Hs Hrd Hcl Hf. pose proof Hrd as ((Hr & Hdm & Hsz & Hsd & Hws & Hlen) & _ & Hix & Hixw).
  revert pre n acc. induction vals as [|v vals IH]; intros pre n acc Hall (Ha & Haw & Had).
  - apply implements_ok; [done..|]. intros ρ w Hd.
    unfold cden in Hd. apply bind_Some in Hd as (y & Hy & Hd).
    change (denote checked ρ (Read root UNil index))
      with (i ← denote checked ρ index; array_init checked ρ root i) in Hy.
    apply bind_Some in Hy as (x0 & Hx0 & Hy).
    pose proof (denote_range checked index ρ _ Hix Hx0) as Hidx.
    destruct (array_value root x0 ρ y Hs Hck ltac:(lia) Hy) as (c & Hc & ->).
    rewrite (Had ρ x0 c Hx0 Hc). cbn [bin_sem] in Hd. simplify_eq. do 2 f_equal.
    rewrite app_nil_r in Hall. apply lookup_lt_Some in Hc. rewrite Hall in Hc.
    replace (x0 <? Z.of_nat (length pre)) with true by lia. done.
  - cbn [TryConstArrayOpt_loop].
    assert (constantValues (arrayAt root) !! length pre = Some v) as Hv.
    { by rewrite Hall, list_lookup_middle. }
    assert (getBitWidth v = range (arrayAt root)) as Hvw.
    { by apply (Forall_lookup_1 _ _ _ _ Hws Hv). }
    assert (Z.of_nat (length pre) < size (arrayAt root)) as Hlt.
    { rewrite <- Hlen by (rewrite Hall; by destruct pre). rewrite Hall, length_app. cbn. lia. }
    rewrite expr_eqb_const by lia.
    specialize (IH (pre ++ [v])). rewrite <- app_assoc, length_app in IH. cbn in IH.
    replace (Z.of_nat (length pre + 1)) with (Z.of_nat (length pre) + 1) in IH by lia.
    destruct (uval cl =? uval v) eqn:E; tidy_bools.
    + destruct (100 <? n + 1). { apply Eq_create_ok; [cbn; lia|done|done]. }
      destruct (acc_step cl root index (Z.of_nat (length pre)) acc v) as (m & acc' & Em & Eo & Hacc);
        [done|done|lia|by rewrite Nat2Z.id|done|done|].
      rewrite Em. cbn [res_bind]. rewrite Eo. cbn [res_bind]. by apply IH.
    + apply IH; [done|]. split_and!; [done|done|]. intros ρ idx c Hi Hc.
      rewrite (Had ρ idx c Hi Hc). do 2 f_equal.
      pose proof (denote_range checked index ρ _ Hix Hi) as Hidx.
      destruct (Z.eq_dec idx (Z.of_nat (length pre))) as [->|Hne].
      * rewrite Nat2Z.id, Hv in Hc. simplify_eq. replace (uval cl =? uval c) with false by lia.
        by rewrite !andb_false_r.
      * f_equal. apply eq_true_iff_eq. rewrite !Z.ltb_lt. lia.
Qed.

Lemma TryConstArrayOpt_ok cl root head index :
  checked = true -> wt (Read root head index) -> getBitWidth cl = range (arrayAt root) ->
  (expr_size index + 1 < f)%nat ->
  implements checked (TryConstArrayOpt rec cl root head index) 1 (cden Eq cl (Read root head index)).
Proof.
  intros Hck Hrd Hcl Hf. unfold TryConstArrayOpt.
  assert (0 < getBitWidth cl) by (rewrite Hcl; by destruct Hrd as ((? & _) & _)).
  destruct (isSymbolicArray (arrayAt root)) eqn:Hs; [by apply Eq_create_ok|].
  destruct (updates_size head =? 0) eqn:Hh; [|by apply Eq_create_ok]. cbn [orb negb].
  assert (head = UNil) as ->.
  { tidy_bools. destruct head as [|i v n]; [done|]. cbn in Hh. pose proof (updates_size_nonneg n). lia. }
  apply (TryConstArrayOpt_loop_ok cl root index _ []); try done.
  split_and!; [by apply wt_const_alloc|by apply width_const_alloc|].
  intros ρ idx c Hi _. rewrite denote_const_alloc by done.
  destruct Hrd as (_ & _ & Hix & _). pose proof (denote_range checked index ρ _ Hix Hi).
  change (Z.of_nat (length [])) with 0. by destruct (Z.ltb_spec idx 0); [lia|].
Qed.

Lemma bin_den_inv k l r ρ v :
  bin_den checked k l r ρ = Some v ->
  exists x y, denote checked ρ l = Some x /\ denote checked ρ r = Some y /\
    bin_sem k (getWidth l) x y = Some v.
Proof.
  intros H. unfold bin_den in H. apply bind_Some in H as (x & Hx & H).
  apply bind_Some in H as (y & Hy & H). eauto 6.
Qed.

Lemma cden_inv k c r ρ v :
  cden k c r ρ = Some v ->
  exists y, denote checked ρ r = Some y /\ bin_sem k (getBitWidth c) (uval c) y = Some v.
Proof. intros H. unfold cden in H. by apply bind_Some in H. Qed.

(** The value of a constant comparison, from that of the operand. *)
Lemma cden_intro k cl r ρ v (d : env -> option Z) :
  cden k cl r ρ = Some v ->
  (forall y, denote checked ρ r = Some y -> bin_sem k (getBitWidth cl) (uval cl) y = Some v ->
     d ρ = Some v) -> d ρ = Some v.
Proof. intros H K. unfold cden in H. apply bind_Some in H as (y & Hy & H). by apply (K y). Qed.

Lemma Eq_default_ok cl r :
  wt r -> 0 < getBitWidth cl -> getWidth r = getBitWidth cl ->
  implements checked (EqExpr_create (Constant cl) r) 1 (cden Eq cl r).
Proof. intros. by apply Eq_create_ok. Qed.

(** 1 == r is r *)
Lemma Eq_true_ok cl r :
  wt r -> getBitWidth cl = 1 -> getWidth r = 1 -> uval cl = 1 ->
  implements checked (Ok r) 1 (cden Eq cl r).
Proof.
  intros Hr Hc Hw H1. apply implements_ok; [done..|]. intros ρ v Hd.
  eapply (cden_intro _ _ _ _ _ (fun ρ => denote checked ρ r)); [done|]. intros y Hy Hv.
  pose proof (denote_range checked r ρ y Hr Hy) as R. rewrite Hw in R. cbn [bin_sem] in Hv.
  rewrite Hy, <- Hv, H1. bits1.
Qed.

(** 0 == (0 == a) is a *)
Lemma Eq_double_negation_ok cl CE a :
  wt (Binary Eq (Constant CE) a) -> getBitWidth cl = 1 -> uval cl = 0 ->
  getBitWidth CE = 1 -> uval CE = 0 ->
  implements checked (Ok a) 1 (cden Eq cl (Binary Eq (Constant CE) a)).
Proof.
  intros (Hce & Ha & Hw) Hc Hc0 He He0. cbn in Hw. rewrite He in Hw.
  apply implements_ok; [done..|]. intros ρ v Hd.
  eapply (cden_intro _ _ _ _ _ (fun ρ => denote checked ρ a)); [done|]. intros y Hy Hv.
  rewrite denote_Binary in Hy. inv_den. cbn [bin_sem] in *. simplify_eq.
  pose proof (denote_range checked a ρ _ Ha H0) as R. rewrite <- Hw in R.
  rewrite H0, Hc0, He0. f_equal. bits1.
Qed.

(** 0 == (a | b) is (0 == a) & (0 == b) *)
Lemma Eq_not_or_ok cl a b :
  wt (Binary Or a b) -> getBitWidth cl = 1 -> uval cl = 0 -> getWidth a = 1 ->
  (expr_size (Binary Or a b) < f)%nat ->
  implements checked
    (let* na := createIsZero_with rec a in
     let* nb := createIsZero_with rec b in rec And na nb) 1
    (cden Eq cl (Binary Or a b)).
Proof.
  intros (Ha & Hb & Hw) Hc Hc0 Hwa Hf. cbn in Hf.
  pose proof (expr_size_pos a). pose proof (expr_size_pos b).
  eapply implements_bind; [apply isZero_ok; [done|lia]|]. intros na Hna Hnaw Hnad.
  eapply implements_bind; [apply isZero_ok; [done|lia]|]. intros nb Hnb Hnbw Hnbd.
  eapply implements_weaken.
  - rewrite <- Hnaw at 1. change (getWidth na) with (bin_width And (getWidth na)).
    apply rec_implements; try done; [cbn; lia|lia|by destruct na, nb].
  - intros ρ v Hd. destruct (cden_inv _ _ _ _ _ Hd) as (o & Ho & Hv).
    rewrite denote_Binary in Ho.
    destruct (bin_den_inv _ _ _ _ _ Ho) as (x & y & Hx & Hy & Hov).
    pose proof (denote_range checked a ρ _ Ha Hx) as Ra.
    pose proof (denote_range checked b ρ _ Hb Hy) as Rb.
    rewrite <- Hw in Rb. rewrite Hwa in Ra, Rb. cbn [bin_sem] in *. simplify_eq.
    unfold bin_den. rewrite (Hnad ρ (Z.b2z (x =? 0))) by (by rewrite Hx).
    rewrite (Hnbd ρ (Z.b2z (y =? 0))) by (by rewrite Hy).
    cbn [mbind option_bind bin_sem]. rewrite Hc0. f_equal. clear Hx Hy. bits1.
Qed.

(** c == ext(a) is a == trunc(c) when c is an extension, else false. *)
Lemma Eq_cast_ok k cl s w :
  wt (Cast k s w) -> getBitWidth cl = w -> (expr_size (Cast k s w) < f)%nat ->
  let trunc := const_ZExt cl (getWidth s) in
  let ext := match k with ZExt => const_ZExt trunc (getBitWidth cl)
                        | SExt => const_SExt trunc (getBitWidth cl) end in
  implements checked
    (if expr_eqb (Constant cl) (Constant ext) then rec Eq s (Constant trunc)
     else const_create 0 Bool_w) 1 (cden Eq cl (Cast k s w)).
Proof.
  intros (Hs & Hlt) Hw Hf. cbn in Hf. pose proof (wt_width_pos s Hs) as Hp. cbn zeta. rewrite Hw.
  set (trunc := const_ZExt cl (getWidth s)).
  assert (getBitWidth trunc = getWidth s) as Htw by (by apply zext_width).
  assert (uval trunc = wrap (getWidth s) (uval cl)) as Htv by (apply zext_val; lia).
  set (ext := match k with ZExt => const_ZExt trunc w | SExt => const_SExt trunc w end).
  assert (getBitWidth ext = w) as Hew by (destruct k; [apply zext_width|apply sext_width]; lia).
  pose proof (const_width_range cl ltac:(lia)) as Rc. rewrite Hw in Rc.
  (* the comparison the source folds, on values *)
  assert (forall ρ y v, denote checked ρ (Cast k s w) = Some v -> denote checked ρ s = Some y ->
    (uval cl =? v) = (uval cl =? uval ext) && (y =? uval trunc)) as Hcmp.
  { intros ρ y v Hv Hy. pose proof (denote_range checked s ρ y Hs Hy). rewrite Htv.
    destruct k; cbn [denote] in Hv; rewrite Hy in Hv; cbn in Hv; simplify_eq; unfold ext.
    - unfold const_ZExt at 1. rewrite zext_val by lia. rewrite Htv. by apply eqb_zext.
    - unfold const_SExt. rewrite sext_val by lia. rewrite Htv, Htw. by apply eqb_sext. }
  assert (forall ρ v, cden Eq cl (Cast k s w) ρ = Some v ->
    exists y, denote checked ρ s = Some y /\
      v = Z.b2z ((uval cl =? uval ext) && (y =? uval trunc))) as Hden.
  { intros ρ v Hd. destruct (cden_inv _ _ _ _ _ Hd) as (x & Hx & Hv). cbn [bin_sem] in Hv.
    assert (exists y, denote checked ρ s = Some y) as (y & Hy).
    { destruct k; cbn [denote] in Hx; [eauto|]. by destruct (denote checked ρ s); [eauto|]. }
    exists y. split; [done|]. rewrite <- (Hcmp ρ y x Hx Hy). by simplify_eq. }
  rewrite expr_eqb_const by lia. destruct (uval cl =? uval ext) eqn:E.
  - eapply implements_weaken.
    + change 1 with (bin_width Eq (getWidth s)). apply rec_implements; try done.
      * cbn [need]. unfold measure. cbn. rewrite orb_true_r. lia.
      * cbn. lia.
      * by destruct s.
    + intros ρ v Hd. destruct (Hden ρ v Hd) as (y & Hy & ->). unfold bin_den. by rewrite Hy.
  - apply implements_const_create; [done..|]. intros ρ x Hd.
    by destruct (Hden ρ x Hd) as (y & Hy & ->).
Qed.

Lemma Eq_partialR_ok r : forall cl,
  wt r -> 0 < getBitWidth cl -> getWidth r = getBitWidth cl -> (expr_size r < f)%nat ->
  implements checked (EqExpr_createPartialR opt rec cl r) 1 (cden Eq cl r).
Proof.
  induction r as [c|s IH|root head i IH|c IHc t IHt fe IHf|l IHl r IHr|e IH off w|k s IH w|e IH|k l IHl r IHr];
    intros cl Hr Hc Hw Hf;
    cbn [EqExpr_createPartialR]; destruct (getBitWidth cl =? Bool_w) eqn:Eb; tidy_bools;
    change Bool_w with 1 in *;
    try (destruct (const_isTrue cl) eqn:Et;
      [apply Eq_true_ok; [done|done|congruence|];
       unfold const_isTrue in Et; tidy_bools;
       pose proof (const_width_range cl Hc) as R; rewrite Eb in R;
       destruct (bit_cases _ R); congruence|]);
    try (by apply Eq_default_ok).
  - destruct opt eqn:Eo; [|by apply Eq_default_ok].
    apply TryConstArrayOpt_ok; auto. cbn in Hf. lia.
  - (* casts *) destruct k; apply (Eq_cast_ok _ cl s w Hr); try done; cbn in Hw; congruence.
  - (* Boolean binary *)
    assert (uval cl = 0) as H0.
    { unfold const_isTrue in Et. rewrite Eb in Et. cbn in Et. by tidy_bools. }
    destruct k; try (by apply Eq_default_ok).
    + apply Eq_not_or_ok; try done. cbn in Hw. congruence.
    + destruct l as [CE| | | | | | | |]; try (by apply Eq_default_ok).
      destruct ((getBitWidth CE =? 1) && const_isFalse CE) eqn:Ef; [|by apply Eq_default_ok].
      unfold const_isFalse in Ef. tidy_bools. by apply Eq_double_negation_ok.
  - (* linear rewriting *)
    pose proof Hr as (Hl & Hr' & Hlr).
    destruct k; try (by apply Eq_default_ok);
      (destruct l as [c| | | | | | | |]; try (by apply Eq_default_ok)); cbn in Hl, Hlr, Hw, Hf.
    + (* c0 == c1 + b *)
      rewrite Hfold by (done || lia).
      destruct (const_op_ok Sub cl c) as (d & -> & Hdw & Hd); [done..|]. cbn [res_bind].
      change (bin_width Sub (getBitWidth cl)) with (getBitWidth cl) in Hdw. cbn in Hd. simplify_eq.
      eapply implements_weaken; [apply IHr; lia || done|]. intros ρ v Hden.
      destruct (cden_inv _ _ _ _ _ Hden) as (y & Hy & Hv). rewrite denote_Binary in Hy.
      destruct (bin_den_inv _ _ _ _ _ Hy) as (x & z & Hx & Hz & Hxz).
      pose proof (denote_range checked r ρ z Hr' Hz) as Rz.
      cbn in Hx, Hxz, Hv. simplify_eq. unfold cden. rewrite Hz. cbn [mbind option_bind bin_sem].
      rewrite <- Hd, Hw. do 2 f_equal. symmetry. apply eqb_add_const; [done| |congruence].
      by apply const_width_range.
    + (* c0 == c1 - b *)
      rewrite Hfold by (done || lia).
      destruct (const_op_ok Sub c cl) as (d & -> & Hdw & Hd); [done..|]. cbn [res_bind].
      change (bin_width Sub (getBitWidth c)) with (getBitWidth c) in Hdw. cbn in Hd. simplify_eq.
      eapply implements_weaken; [apply IHr; lia || done|]. intros ρ v Hden.
      destruct (cden_inv _ _ _ _ _ Hden) as (y & Hy & Hv). rewrite denote_Binary in Hy.
      destruct (bin_den_inv _ _ _ _ _ Hy) as (x & z & Hx & Hz & Hxz).
      pose proof (denote_range checked r ρ z Hr' Hz) as Rz.
      cbn in Hx, Hxz, Hv. simplify_eq. unfold cden. rewrite Hz. cbn [mbind option_bind bin_sem].
      rewrite <- Hd, Hw. do 2 f_equal. symmetry. apply eqb_sub_const; [done| |congruence].
      by apply const_width_range.
Qed.

(** *** Xor *)

Lemma Xor_partialR_ok cl r :
  wt r -> 0 < getBitWidth cl -> getWidth r = getBitWidth cl -> (expr_size r < f)%nat ->
  implements checked (XorExpr_createPartialR opt rec cl r) (getBitWidth cl) (cden Xor cl r).
Proof.
  intros Hr Hc Hw Hf. unfold XorExpr_createPartialR, const_isZero.
  destruct (uval cl =? 0) eqn:E0; [|destruct (getBitWidth cl =? Bool_w) eqn:Eb]; tidy_bools.
  - apply implements_ok; [done..|]. intros ρ v Hd.
    destruct (cden_inv _ _ _ _ _ Hd) as (y & Hy & Hv). cbn in Hv. rewrite E0 in Hv.
    rewrite Z.lxor_0_l in Hv. congruence.
  - change Bool_w with 1 in *. rewrite const_create_ok by done. cbn [res_bind].
    unfold EqExpr_createPartial. rewrite Eb.
    eapply implements_weaken; [apply Eq_partialR_ok; try done|].
    + by apply wt_const_alloc.
    + by rewrite make_width by done; congruence.
    + intros ρ v Hd. destruct (cden_inv _ _ _ _ _ Hd) as (y & Hy & Hv).
      pose proof (denote_range checked r ρ y Hr Hy) as Ry. rewrite Hw, Eb in Ry.
      pose proof (const_width_range cl Hc) as Rc. rewrite Eb in Rc.
      unfold cden. rewrite Hy. cbn [mbind option_bind bin_sem] in *.
      rewrite make_val by done. cbn in Hv. simplify_eq. f_equal.
      destruct (bit_cases _ Rc) as [E|E]; [congruence|]. rewrite E.
      destruct (bit_cases _ Ry) as [->| ->]; done.
  - change (getBitWidth cl) with (bin_width Xor (getWidth (Constant cl))).
    by apply implements_alloc.
Qed.

(** *** Add and Sub *)

(** Replaces the denotations in hypotheses by values. *)
Ltac den_inv :=
  repeat match goal with
  | H : cden _ _ _ _ = Some _ |- _ =>
      apply cden_inv in H as (? & ? & H)
  | H : bin_den checked _ _ _ _ = Some _ |- _ =>
      apply bin_den_inv in H as (? & ? & ? & ? & H)
  | H : denote checked _ (Binary _ _ _) = Some _ |- _ => rewrite denote_Binary in H
  | H : denote checked _ (Constant _) = Some _ |- _ => cbn [denote] in H; injection H as <-
  | H : bin_sem _ _ _ _ = Some _ |- _ => progress (cbn [bin_sem] in H); injection H as <-
  end.

(** Computes the value of an expression from those of its parts; [Hs] is the
    specification of a part built by a recursive call. *)
Ltac den_step :=
  match goal with
  | |- context [denote checked ?ρ (Constant ?c)] => change (denote checked ρ (Constant c)) with (Some (uval c))
  | H : denote checked ?ρ ?e = Some _ |- context [denote checked ?ρ ?e] => rewrite H
  end; cbn [mbind option_bind bin_sem].
Ltac den_compute := unfold bin_den, cden; repeat den_step.
Ltac den_part Hs :=
  unfold bin_den at 1; erewrite Hs by (den_compute; reflexivity); den_compute.

Lemma bits_add_xor x y : 0 <= x < 2 ^ 1 -> 0 <= y < 2 ^ 1 -> wrap 1 (x + y) = Z.lxor x y.
Proof. intros. bits1. Qed.

Lemma bits_sub_xor x y : 0 <= x < 2 ^ 1 -> 0 <= y < 2 ^ 1 -> wrap 1 (x - y) = Z.lxor x y.
Proof. intros. bits1. Qed.

(** On one bit, addition and subtraction are exclusive or. *)
Lemma bool_lin_den k l r ρ v :
  k = Add \/ k = Sub -> wt l -> wt r -> getWidth l = getWidth r -> getWidth l = 1 ->
  bin_den checked k l r ρ = Some v -> bin_den checked Xor l r ρ = Some v.
Proof.
  intros Hk Hl Hr Hw H1 H. apply bin_den_inv in H as (x & y & Hx & Hy & H).
  pose proof (denote_range checked l ρ x Hl Hx) as Rx.
  pose proof (denote_range checked r ρ y Hr Hy) as Ry. rewrite <- Hw in Ry. rewrite H1 in *.
  den_compute. destruct Hk; subst; cbn [bin_sem] in H; rewrite <- H; f_equal; symmetry;
    [by apply bits_add_xor|by apply bits_sub_xor].
Qed.

(** One rewrite of the linear rules: an operator of two parts, then an operator
    of its result and a constant, on either side. *)
Lemma lin_left k1 k2 c a b w :
  k1 = Add \/ k1 = Sub -> k2 = Add \/ k2 = Sub ->
  wt a -> wt b -> 0 < getBitWidth c -> getWidth a = w -> getWidth b = w -> getBitWidth c = w ->
  w <> 1 -> (expr_size a + expr_size b + 2 < f)%nat ->
  implements_lin (expr_size a + expr_size b + 3)
    (let* s := rec k1 a b in rec k2 (Constant c) s) w
    (fun ρ => s ← bin_den checked k1 a b ρ; bin_sem k2 w (uval c) s).
Proof.
  intros Hk1 Hk2 Ha Hb Hc Haw Hbw Hcw H1 Hf.
  destruct (rec_lin k1 a b) as (s & -> & Hs & Hsw & Hsd & Hsz); [done| |done|done|congruence|].
  { unfold measure. destruct (_ || _); lia. }
  rewrite Haw in *. specialize (Hsz H1). cbn [res_bind].
  eapply implements_lin_weaken.
  - eapply implements_lin_grow.
    + rewrite <- Hcw. apply (rec_lin k2 (Constant c) s); try done; [|cbn; congruence].
      unfold measure. cbn. lia.
    + cbn. lia.
  - intros ρ v Hd. apply bind_Some in Hd as (x & Hx & Hd). den_compute.
    rewrite (Hsd _ _ Hx). cbn. by rewrite Hcw.
Qed.

Lemma lin_right k1 k2 c a b w :
  k1 = Add \/ k1 = Sub -> k2 = Add \/ k2 = Sub ->
  wt a -> wt b -> 0 < getBitWidth c -> getWidth a = w -> getWidth b = w -> getBitWidth c = w ->
  w <> 1 -> (expr_size a + expr_size b + 2 < f)%nat ->
  implements_lin (expr_size a + expr_size b + 3)
    (let* s := rec k1 a b in rec k2 s (Constant c)) w
    (fun ρ => s ← bin_den checked k1 a b ρ; bin_sem k2 w s (uval c)).
Proof.
  intros Hk1 Hk2 Ha Hb Hc Haw Hbw Hcw H1 Hf.
  destruct (rec_lin k1 a b) as (s & -> & Hs & Hsw & Hsd & Hsz); [done| |done|done|congruence|].
  { unfold measure. destruct (_ || _); lia. }
  rewrite Haw in *. specialize (Hsz H1). cbn [res_bind].
  eapply implements_lin_weaken.
  - eapply implements_lin_grow.
    + rewrite <- Hsw. apply (rec_lin k2 s (Constant c)); try done; [|cbn; congruence].
      unfold measure. cbn. rewrite orb_true_r. lia.
    + cbn. lia.
  - intros ρ v Hd. apply bind_Some in Hd as (x & Hx & Hd). den_compute.
    rewrite (Hsd _ _ Hx). cbn. by rewrite Hsw.
Qed.

(** A constant folded into the constant of a linear term. *)
Lemma lin_fold k1 k2 cl c b w :
  k1 = Add \/ k1 = Sub -> k2 = Add \/ k2 = Sub ->
  wt b -> 0 < w -> getWidth b = w -> getBitWidth c = w -> getBitWidth cl = w ->
  (expr_size b + 1 < f)%nat ->
  implements_lin (expr_size b + 2)
    (let* s := rec k1 (Constant cl) (Constant c) in rec k2 s b) w
    (fun ρ => s ← bin_sem k1 w (uval cl) (uval c); y ← denote checked ρ b; bin_sem k2 w s y).
Proof.
  intros Hk1 Hk2 Hb Hw Hbw Hcw Hclw Hf.
  rewrite Hfold by (try lia; by destruct Hk1; subst).
  destruct (const_op_ok k1 cl c) as (s & -> & Hsw & Hs); [lia|congruence|by destruct Hk1; subst|].
  assert (bin_width k1 (getBitWidth cl) = w) as E by (destruct Hk1; subst; done).
  rewrite E in Hsw. rewrite Hclw in Hs. cbn [res_bind].
  eapply implements_lin_weaken.
  - eapply implements_lin_grow.
    + rewrite <- Hsw. apply (rec_lin k2 (Constant s) b); try done; [|cbn; lia|cbn; congruence].
      unfold measure. cbn. lia.
    + cbn. lia.
  - intros ρ v Hd. rewrite Hs in Hd. cbn in Hd. apply bind_Some in Hd as (y & Hy & Hd).
    den_compute. by rewrite <- Hsw in Hd.
Qed.

Lemma Add_partialR_ok cl r :
  wt r -> 0 < getBitWidth cl -> getWidth r = getBitWidth cl -> (expr_size r < f)%nat ->
  implements_lin (expr_size r + 2) (AddExpr_createPartialR opt rec cl r) (getBitWidth cl)
    (cden Add cl r).
Proof.
  intros Hr Hc Hw Hf. unfold AddExpr_createPartialR.
  destruct (getBitWidth cl =? Bool_w) eqn:Eb; tidy_bools.
  { apply implements_lin_bool; [done|].
    eapply implements_weaken; [by apply Xor_partialR_ok|]. intros ρ v Hd.
    by apply (bool_lin_den Add (Constant cl) r ρ v (or_introl eq_refl)). }
  change Bool_w with 1 in *. unfold const_isZero.
  destruct (uval cl =? 0) eqn:E0; tidy_bools.
  { apply implements_lin_ok; [done|done| |lia]. intros ρ v Hd. den_inv.
    pose proof (denote_range checked r ρ _ Hr H). rewrite Hw in H0.
    by rewrite E0, Z.add_0_l, wrap_small. }
  assert (implements_lin (expr_size r + 2) (Ok (Binary Add (Constant cl) r)) (getBitWidth cl)
    (cden Add cl r)) as Hdef by (apply implements_lin_ok; [done|done|done|cbn; lia]).
  destruct r as [| | | | | | | |k l b]; try exact Hdef.
  destruct k; try exact Hdef; (destruct l as [c| | | | | | | |]; try exact Hdef);
    destruct Hr as (Hcp & Hb & Hcw); cbn in Hw, Hcw, Hf, Hcp;
    (eapply implements_lin_weaken;
      [eapply implements_lin_grow; [apply lin_fold; auto; try lia; congruence|cbn; lia]|]);
    intros ρ v Hd; den_inv; cbn [mbind option_bind bin_sem]; den_compute;
    cbn [getWidth]; rewrite ?Hw; f_equal; wrap_ring.
Qed.

Lemma Add_partial_ok l cr :
  wt l -> 0 < getBitWidth cr -> getWidth l = getBitWidth cr -> (expr_size l < f)%nat ->
  implements_lin (expr_size l + 2) (AddExpr_createPartial opt rec l cr) (getWidth l)
    (bin_den checked Add l (Constant cr)).
Proof.
  intros Hl Hc Hw Hf. rewrite Hw. eapply implements_lin_weaken; [by apply Add_partialR_ok|].
  intros ρ v Hd. den_inv. den_compute. by rewrite Hw, Z.add_comm.
Qed.

Lemma Sub_partialR_ok cl r :
  wt r -> 0 < getBitWidth cl -> getWidth r = getBitWidth cl -> (expr_size r < f)%nat ->
  implements_lin (expr_size r + 2) (SubExpr_createPartialR opt rec cl r) (getBitWidth cl)
    (cden Sub cl r).
Proof.
  intros Hr Hc Hw Hf. unfold SubExpr_createPartialR.
  destruct (getBitWidth cl =? Bool_w) eqn:Eb; tidy_bools.
  { apply implements_lin_bool; [done|].
    eapply implements_weaken; [by apply Xor_partialR_ok|]. intros ρ v Hd.
    by apply (bool_lin_den Sub (Constant cl) r ρ v (or_intror eq_refl)). }
  change Bool_w with 1 in *.
  assert (implements_lin (expr_size r + 2) (Ok (Binary Sub (Constant cl) r)) (getBitWidth cl)
    (cden Sub cl r)) as Hdef by (apply implements_lin_ok; [done|done|done|cbn; lia]).
  destruct r as [| | | | | | | |k l b]; try exact Hdef.
  destruct k; try exact Hdef; (destruct l as [c| | | | | | | |]; try exact Hdef);
    destruct Hr as (Hcp & Hb & Hcw); cbn in Hw, Hcw, Hf, Hcp;
    (eapply implements_lin_weaken;
      [eapply implements_lin_grow; [apply lin_fold; auto; try lia; congruence|cbn; lia]|]);
    intros ρ v Hd; den_inv; cbn [mbind option_bind bin_sem]; den_compute;
    cbn [getWidth]; rewrite ?Hw; f_equal; wrap_ring.
Qed.

(** l - c is (0 - c) + l *)
Lemma Sub_partial_ok l cr :
  wt l -> 0 < getBitWidth cr -> getWidth l = getBitWidth cr -> (expr_size l < f)%nat ->
  implements_lin (expr_size l + 2) (SubExpr_createPartial opt rec l cr) (getWidth l)
    (bin_den checked Sub l (Constant cr)).
Proof.
  intros Hl Hc Hw Hf. unfold SubExpr_createPartial.
  destruct (const_op_ok Sub (ap_make (getBitWidth cr) 0) cr) as (m & -> & Hmw & Hm);
    [by rewrite make_width|by rewrite make_width|done|].
  unfold bin_width in Hmw. cbn [is_cmp] in Hmw. rewrite make_width in Hmw, Hm by done.
  rewrite make_val in Hm by done. cbn [bin_sem] in Hm. injection Hm as Hm. cbn [res_bind].
  eapply implements_lin_weaken; [apply Add_partial_ok; try done; lia|].
  intros ρ v Hd. den_inv. den_compute. rewrite <- Hm, Hw. f_equal. wrap_ring.
Qed.

(** The rewrites of the general case share their shape: [lin_left] and
    [lin_right] give the result, the value is ring arithmetic. *)
Ltac lin_case lem :=
  eapply implements_lin_weaken;
    [eapply implements_lin_grow; [apply lem; auto; try lia; try congruence|cbn; lia]|];
  intros ρ v Hd; den_inv; cbn [mbind option_bind bin_sem]; den_compute;
  cbn [bin_sem getWidth];
  repeat match goal with
  | E : getBitWidth _ = getWidth ?e |- context [wrap (getWidth ?e) _] => rewrite <- E
  | E : getWidth ?e = getBitWidth _ |- context [wrap (getWidth ?e) _] => rewrite E
  end; f_equal; wrap_ring.

(** Whether an expression is [k + a] or [k - a] for a constant [k]. *)
Definition lin_form (e : expr) : option (BinKind * ap * expr) :=
  match e with
  | Binary Add (Constant c) a => Some (Add, c, a)
  | Binary Sub (Constant c) a => Some (Sub, c, a)
  | _ => None
  end.

Lemma lin_form_spec e k c a :
  lin_form e = Some (k, c, a) -> e = Binary k (Constant c) a /\ (k = Add \/ k = Sub).
Proof.
  destruct e as [| | | | | | | |k' [] b]; try discriminate; destruct k'; try discriminate;
    cbn; intros; simplify_eq; auto.
  all: destruct k'; discriminate.
Qed.

(** The rules on the right operand, tried when those on the left do not apply. *)
Definition add_right (l r : expr) : res expr :=
  match lin_form r with
  | Some (Add, c, b) => let* s := rec Add l b in rec Add (Constant c) s
  | Some (_, c, b) => let* s := rec Sub l b in rec Add (Constant c) s
  | None => Ok (Binary Add l r)
  end.

Definition sub_right (l r : expr) : res expr :=
  match lin_form r with
  | Some (Add, c, b) => let* s := rec Sub l b in rec Sub s (Constant c)
  | Some (_, c, b) => let* s := rec Add l b in rec Sub s (Constant c)
  | None => Ok (Binary Sub l r)
  end.

(** Splits on the form of an operand of the linear rules. *)
Ltac destruct_lin e :=
  destruct e as [| | | | | | | |k_lin [] a_lin]; try reflexivity; destruct k_lin; reflexivity.

Lemma AddExpr_create_forms l r :
  getWidth l <> 1 ->
  AddExpr_create rec l r =
  match lin_form l with
  | Some (Add, c, a) => let* s := rec Add a r in rec Add (Constant c) s
  | Some (_, c, a) => let* s := rec Sub r a in rec Add (Constant c) s
  | None => add_right l r
  end.
Proof.
  intros Hw. unfold AddExpr_create. replace (getWidth l =? Bool_w) with false
    by (symmetry; by apply Z.eqb_neq).
  transitivity (match lin_form l with
    | Some (Add, c, a) => let* s := rec Add a r in rec Add (Constant c) s
    | Some (_, c, a) => let* s := rec Sub r a in rec Add (Constant c) s
    | None => match r with
        | Binary Add (Constant _ as k) b => let* s := rec Add l b in rec Add k s
        | Binary Sub (Constant _ as k) b => let* s := rec Sub l b in rec Add k s
        | _ => Ok (Binary Add l r)
        end
    end).
  - destruct_lin l.
  - destruct (lin_form l); [done|]. unfold add_right. destruct_lin r.
Qed.

Lemma SubExpr_create_forms l r :
  getWidth l <> 1 -> expr_eqb l r = false ->
  SubExpr_create rec l r =
  match lin_form l with
  | Some (Add, c, a) => let* s := rec Sub a r in rec Add (Constant c) s
  | Some (_, c, a) => let* s := rec Add a r in rec Sub (Constant c) s
  | None => sub_right l r
  end.
Proof.
  intros Hw He. unfold SubExpr_create. rewrite He. replace (getWidth l =? Bool_w) with false
    by (symmetry; by apply Z.eqb_neq).
  transitivity (match lin_form l with
    | Some (Add, c, a) => let* s := rec Sub a r in rec Add (Constant c) s
    | Some (_, c, a) => let* s := rec Add a r in rec Sub (Constant c) s
    | None => match r with
        | Binary Add (Constant _ as k) b => let* s := rec Sub l b in rec Sub s k
        | Binary Sub (Constant _ as k) b => let* s := rec Add l b in rec Sub s k
        | _ => Ok (Binary Sub l r)
        end
    end).
  - destruct_lin l.
  - destruct (lin_form l); [done|]. unfold sub_right. destruct_lin r.
Qed.

Lemma Add_create_ok l r :
  wt l -> wt r -> getWidth l = getWidth r -> (expr_size l + expr_size r < f)%nat ->
  implements_lin (expr_size l + expr_size r + 1) (AddExpr_create rec l r) (getWidth l)
    (bin_den checked Add l r).
Proof.
  intros Hl Hr Hw Hf. destruct (Z.eq_dec (getWidth l) 1) as [H1|H1].
  { apply implements_lin_bool; [done|]. unfold AddExpr_create. rewrite H1. cbn. rewrite <- H1.
    apply (implements_alloc Xor); [done..|]. intros ρ v. by apply (bool_lin_den Add); auto. }
  rewrite AddExpr_create_forms by done. unfold add_right.
  destruct (lin_form l) as [[[k c] a]|] eqn:El;
    [|destruct (lin_form r) as [[[k c] b]|] eqn:Er].
  3: { apply implements_lin_ok; [done|done|done|cbn; lia]. }
  - apply lin_form_spec in El as [-> Hk]. destruct Hl as (Hc & Ha & Hca). cbn in Hca, Hw, Hf, H1, Hc.
    destruct Hk; subst; cbn [is_cmp getWidth] in *; lin_case lin_left.
  - apply lin_form_spec in Er as [-> Hk]. destruct Hr as (Hc & Hb & Hcb). cbn in Hcb, Hw, Hf, Hc.
    assert (getWidth l = getBitWidth c) by (by destruct Hk; subst).
    destruct Hk; subst; cbn [is_cmp getWidth] in *; lin_case lin_left.
Qed.

Lemma Sub_create_ok l r :
  wt l -> wt r -> getWidth l = getWidth r -> (expr_size l + expr_size r < f)%nat ->
  implements_lin (expr_size l + expr_size r + 1) (SubExpr_create rec l r) (getWidth l)
    (bin_den checked Sub l r).
Proof.
  intros Hl Hr Hw Hf. pose proof (wt_width_pos l Hl) as Hp.
  destruct (Z.eq_dec (getWidth l) 1) as [H1|H1].
  { apply implements_lin_bool; [done|]. unfold SubExpr_create. rewrite H1. cbn. rewrite <- H1.
    apply (implements_alloc Xor); [done..|]. intros ρ v. by apply (bool_lin_den Sub); auto. }
  destruct (expr_eqb l r) eqn:Ee.
  { unfold SubExpr_create. rewrite Ee. replace (getWidth l =? Bool_w) with false
      by (symmetry; by apply Z.eqb_neq).
    destruct (expr_eqb_sound l r Hl Hr Ee) as [_ Hd].
    apply implements_lin_ok; [by apply wt_const_alloc|by apply width_const_alloc| |cbn; lia].
    intros ρ v Hv. apply bin_den_inv in Hv as (x & y & Hx & Hy & Hv). rewrite Hd in Hx.
    simplify_eq. cbn [bin_sem] in Hv. rewrite Z.sub_diag in Hv. rewrite <- Hv.
    by apply denote_const_alloc. }
  rewrite SubExpr_create_forms by done. unfold sub_right.
  destruct (lin_form l) as [[[k c] a]|] eqn:El;
    [|destruct (lin_form r) as [[[k c] b]|] eqn:Er].
  3: { apply implements_lin_ok; [done|done|done|cbn; lia]. }
  - apply lin_form_spec in El as [-> Hk]. destruct Hl as (Hc & Ha & Hca). cbn in Hca, Hw, Hf, H1, Hc.
    destruct Hk; subst; cbn [is_cmp getWidth] in *; lin_case lin_left.
  - apply lin_form_spec in Er as [-> Hk]. destruct Hr as (Hc & Hb & Hcb). cbn in Hcb, Hw, Hf, Hc.
    assert (getWidth l = getBitWidth c) by (by destruct Hk; subst).
    destruct Hk; subst; cbn [is_cmp getWidth] in *; lin_case lin_right.
Qed.

(** *** The other operators *)

Lemma Mul_partial_ok l cr :
  wt l -> 0 < getBitWidth cr -> getWidth l = getBitWidth cr ->
  implements checked (MulExpr_createPartial l cr) (getWidth l) (cden Mul cr l).
Proof.
  intros Hl Hc Hw. unfold MulExpr_createPartial, MulExpr_createPartialR, const_isOne, const_isZero.
  destruct (getBitWidth cr =? Bool_w) eqn:Eb; tidy_bools; change Bool_w with 1 in *.
  { eapply implements_weaken; [by apply And_partial_ok|]. intros ρ v Hd. den_inv.
    pose proof (denote_range checked l ρ _ Hl H) as R. rewrite Hw, Eb in R.
    pose proof (const_width_range cr Hc) as Rc. rewrite Eb in Rc. den_compute.
    rewrite Eb. generalize dependent (uval cr). intros u Rc. f_equal. clear H. bits1. }
  destruct (getLimitedValue cr (2 ^ 64 - 1) =? 1) eqn:E1; tidy_bools.
  { unfold getLimitedValue in E1. assert (uval cr = 1) as E by lia.
    apply implements_ok; [done..|]. intros ρ v Hd. den_inv.
    pose proof (denote_range checked l ρ _ Hl H). rewrite Hw in H0.
    by rewrite E, Z.mul_1_l, wrap_small. }
  destruct (uval cr =? 0) eqn:E0; tidy_bools.
  { apply implements_ok; [done|done|]. intros ρ v Hd. den_inv.
    den_compute. by rewrite E0. }
  rewrite Hw. change (getBitWidth cr) with (bin_width Mul (getWidth (Constant cr))).
  by apply implements_alloc.
Qed.

Lemma Mul_create_ok l r :
  wt l -> wt r -> getWidth l = getWidth r ->
  implements checked (MulExpr_create l r) (getWidth l) (bin_den checked Mul l r).
Proof.
  intros Hl Hr Hw. unfold MulExpr_create. destruct (getWidth l =? Bool_w) eqn:Eb; tidy_bools.
  - apply (implements_alloc And); [done..|]. intros ρ v Hd. den_inv.
    pose proof (denote_range checked l ρ _ Hl H) as R1.
    pose proof (denote_range checked r ρ _ Hr H0) as R2.
    rewrite <- Hw in R2. rewrite Eb in *. change Bool_w with 1 in *. den_compute. f_equal.
    clear H H0. bits1.
  - by apply (implements_alloc Mul).
Qed.

(** A one-bit division has divisor 1. *)
Lemma bool_divisor k l r ρ v :
  is_div k = true -> wt l -> wt r -> getWidth l = getWidth r -> getWidth l = 1 ->
  bin_den checked k l r ρ = Some v ->
  exists x, denote checked ρ l = Some x /\ 0 <= x < 2 ^ 1 /\ bin_sem k 1 x 1 = Some v.
Proof.
  intros Hk Hl Hr Hw H1 Hd. apply bin_den_inv in Hd as (x & y & Hx & Hy & Hv).
  pose proof (denote_range checked l ρ x Hl Hx) as Rx.
  pose proof (denote_range checked r ρ y Hr Hy) as Ry. rewrite <- Hw in Ry. rewrite H1 in *.
  exists x. split_and!; [done|lia|lia|].
  destruct (bit_cases y Ry) as [->| ->]; [|done]. by destruct k.
Qed.

Lemma div_create_ok k l r m :
  is_div k = true -> wt l -> wt r -> getWidth l = getWidth r ->
  m = (if getWidth l =? Bool_w
       then (match k with UDiv | SDiv => Ok l | _ => const_create 0 Bool_w end)
       else Ok (Binary k l r)) ->
  implements checked m (getWidth l) (bin_den checked k l r).
Proof.
  intros Hk Hl Hr Hw ->. destruct (getWidth l =? Bool_w) eqn:Eb; tidy_bools.
  - change Bool_w with 1 in *. pose proof (bool_divisor k l r) as B.
    destruct k; try discriminate Hk.
    1-2: apply implements_ok; [done..|]; intros ρ v Hd;
      destruct (B ρ v) as (x & Hx & Rx & Hv); auto; rewrite Hx, <- Hv; clear Hx; bits1.
    1-2: rewrite Eb; apply implements_const_create; [done..|]; intros ρ v Hd;
      destruct (B ρ v) as (x & Hx & Rx & Hv); auto; clear Hx; revert Hv; cbn; bits1;
      vm_compute; intros [= <-]; done.
  - assert (getWidth l = bin_width k (getWidth l)) as -> by (by destruct k).
    by apply implements_alloc.
Qed.

(** [a op isZero(b)] and [isZero(a) op b] for a connective [op], with the
    Boolean values [vf] of the two operands. *)
Lemma connective_ok op a b (negate_left : bool) d :
  op = And \/ op = Or -> wt a -> wt b -> getWidth a = 1 -> getWidth b = 1 ->
  (expr_size a + 1 < f)%nat -> (expr_size b + 1 < f)%nat ->
  (forall ρ v, d ρ = Some v -> exists x y, denote checked ρ a = Some x /\
     denote checked ρ b = Some y /\
     bin_sem op 1 (if negate_left then Z.b2z (x =? 0) else x)
                  (if negate_left then y else Z.b2z (y =? 0)) = Some v) ->
  implements checked
    (if negate_left then (let* na := createIsZero_with rec a in rec op na b)
     else (let* nb := createIsZero_with rec b in rec op a nb)) 1 d.
Proof.
  intros Hop Ha Hb Haw Hbw Hfa Hfb Hd.
  assert (forall x y, wt x -> wt y -> getWidth x = 1 -> getWidth y = 1 ->
    implements checked (rec op x y) 1 (bin_den checked op x y)) as K.
  { intros x y Hx Hy Hxw Hyw. rewrite <- Hxw at 1.
    replace (getWidth x) with (bin_width op (getWidth x)) by (by destruct Hop; subst).
    apply rec_implements; try done; try lia;
      [by destruct Hop; subst|destruct Hop; subst; cbn; lia|by destruct Hop; subst; destruct x, y]. }
  destruct negate_left; (eapply implements_bind; [apply isZero_ok; done|]);
    intros n Hn Hnw Hnd; (eapply implements_weaken; [by apply K|]);
    intros ρ v Hv; destruct (Hd ρ v Hv) as (x & y & Hx & Hy & Hs);
    den_compute; rewrite (Hnd ρ _ ltac:(den_compute; reflexivity)); cbn [mbind option_bind];
    den_compute; by rewrite ?Haw, ?Hnw.
Qed.

Lemma bool_ops_den k l r ρ v :
  wt l -> wt r -> getWidth l = getWidth r -> getWidth l = 1 -> bin_den checked k l r ρ = Some v ->
  exists x y, denote checked ρ l = Some x /\ denote checked ρ r = Some y /\
    0 <= x < 2 ^ 1 /\ 0 <= y < 2 ^ 1 /\ bin_sem k 1 x y = Some v.
Proof.
  intros Hl Hr Hw H1 Hd. apply bin_den_inv in Hd as (x & y & Hx & Hy & Hv).
  pose proof (denote_range checked l ρ x Hl Hx) as Rx.
  pose proof (denote_range checked r ρ y Hr Hy) as Ry. rewrite <- Hw in Ry. rewrite H1 in *.
  eauto 10.
Qed.


(** The one-bit forms of the shifts and comparisons. *)
Lemma bool_connective_ok k l r :
  k ∈ [Shl; LShr; Ult; Ule; Slt; Sle] -> wt l -> wt r -> getWidth l = getWidth r ->
  getWidth l = 1 -> (expr_size l + 1 < f)%nat -> (expr_size r + 1 < f)%nat ->
  let negate_left := match k with Ult | Ule => true | _ => false end in
  let op := match k with Ule | Sle => Or | _ => And end in
  implements checked
    (if negate_left then (let* na := createIsZero_with rec l in rec op na r)
     else (let* nb := createIsZero_with rec r in rec op l nb)) 1 (bin_den checked k l r).
Proof.
  intros Hk Hl Hr Hw H1 Hfl Hfr. cbn zeta. apply connective_ok; try done; [|lia|].
  - kind_cases Hk; auto.
  - intros ρ v Hd. destruct (bool_ops_den k l r ρ v) as (x & y & Hx & Hy & Rx & Ry & Hv); auto.
    exists x, y. split_and!; [done..|]. rewrite <- Hv. clear Hx Hy Hv Hd.
    kind_cases Hk; bits1.
Qed.

Lemma shift_create_ok k l r m :
  k ∈ [Shl; LShr; Ult; Ule; Slt; Sle] -> wt l -> wt r -> getWidth l = getWidth r ->
  (expr_size l + 1 < f)%nat -> (expr_size r + 1 < f)%nat ->
  m = (if getWidth l =? Bool_w then
         (if match k with Ult | Ule => true | _ => false end
          then (let* na := createIsZero_with rec l in rec (match k with Ule | Sle => Or | _ => And end) na r)
          else (let* nb := createIsZero_with rec r in rec (match k with Ule | Sle => Or | _ => And end) l nb))
       else Ok (Binary k l r)) ->
  implements checked m (bin_width k (getWidth l)) (bin_den checked k l r).
Proof.
  intros Hk Hl Hr Hw Hfl Hfr ->. destruct (getWidth l =? Bool_w) eqn:Eb; tidy_bools.
  - change Bool_w with 1 in *.
    replace (bin_width k (getWidth l)) with 1 by (rewrite Eb; by destruct k).
    by apply bool_connective_ok.
  - by apply implements_alloc.
Qed.

Lemma AShr_create_ok l r :
  wt l -> wt r -> getWidth l = getWidth r ->
  implements checked (AShrExpr_create l r) (getWidth l) (bin_den checked AShr l r).
Proof.
  intros Hl Hr Hw. unfold AShrExpr_create. destruct (getWidth l =? Bool_w) eqn:Eb; tidy_bools.
  - apply implements_ok; [done..|]. intros ρ v Hd.
    destruct (bool_ops_den AShr l r ρ v) as (x & y & Hx & Hy & Rx & Ry & Hv); auto.
    rewrite Hx, <- Hv. clear Hx Hy Hv. bits1.
  - by apply (implements_alloc AShr).
Qed.

(** *** The macros *)

Lemma fold_ok B k cl cr :
  (1 <= B)%nat -> wt (Constant cl) -> getBitWidth cl = getBitWidth cr ->
  div_ok k (Constant cl) (Constant cr) ->
  implements_lin B (let* c := const_op k cl cr in Ok (Constant c)) (bin_width k (getBitWidth cl))
    (bin_den checked k (Constant cl) (Constant cr)).
Proof.
  intros HB Hl Hw Hd. destruct (const_op_ok k cl cr) as (c & -> & Hcw & Hc); [done..|].
  cbn [res_bind]. apply implements_lin_ok; [|done| |done].
  - cbn in *. rewrite Hcw. unfold bin_width. by destruct (is_cmp k).
  - intros ρ v Hv. den_inv. cbn [getWidth] in Hv. rewrite Hc in Hv. by simplify_eq.
Qed.

Lemma BCREATE_R_ind (P : res expr -> Prop) k pL pR g l r :
  getWidth l = getWidth r ->
  (forall cl cr, l = Constant cl -> r = Constant cr ->
     P (let* c := const_op k cl cr in Ok (Constant c))) ->
  (forall cl, l = Constant cl -> isConstant r = false -> P (pR cl r)) ->
  (forall cr, r = Constant cr -> isConstant l = false -> P (pL l cr)) ->
  (isConstant l = false -> isConstant r = false -> P (g l r)) ->
  P (BCREATE_R k pL pR g l r).
Proof.
  intros Hw Hf HR HL Hg. unfold BCREATE_R. rewrite Hw, Z.eqb_refl. cbn [res_assert].
  destruct l, r; eauto.
Qed.

Lemma BCREATE_ind (P : res expr -> Prop) k g l r :
  getWidth l = getWidth r ->
  (forall cl cr, l = Constant cl -> r = Constant cr ->
     P (let* c := const_op k cl cr in Ok (Constant c))) ->
  P (g l r) -> P (BCREATE k g l r).
Proof.
  intros Hw Hf Hg. unfold BCREATE. rewrite Hw, Z.eqb_refl. cbn [res_assert].
  destruct l, r; eauto.
Qed.

Lemma implements_of_lin B m w d : implements_lin B m w d -> implements checked m w d.
Proof. intros (e & ? & ? & ? & ? & _). exists e. by split_and!. Qed.

Ltac fold_case := intros; subst; first
  [ eapply implements_of_lin; apply (fold_ok 1); first [done|lia]
  | apply fold_ok; first [done|cbn; lia] ].

Lemma lin_step_ok k l r :
  k = Add \/ k = Sub -> (measure l r < S f)%nat -> wt l -> wt r -> getWidth l = getWidth r ->
  implements_lin (expr_size l + expr_size r + 1) (create_step opt rec k l r) (getWidth l)
    (bin_den checked k l r).
Proof.
  intros Hk Hf Hl Hr Hw. unfold measure in Hf.
  assert (div_ok k l r) by (destruct Hk; subst; destruct l, r; done).
  assert (bin_width k (getWidth l) = getWidth l) as Hb by (destruct Hk; by subst).
  destruct Hk; subst; unfold create_step; apply BCREATE_R_ind; try done.
  1, 5: intros cl cr -> ->; rewrite <- Hb; fold_case.
  1, 4: intros cl -> Hc; rewrite Hc in Hf; cbn in Hf, Hw, Hl;
    (eapply implements_lin_grow;
      [first [apply Add_partialR_ok|apply Sub_partialR_ok]; try done; lia|cbn; lia]).
  1, 3: intros cr -> Hc; rewrite Hc in Hf; cbn in Hf, Hw, Hr;
    (eapply implements_lin_grow;
      [first [apply Add_partial_ok|apply Sub_partial_ok]; try done; try lia|cbn; lia]).
  all: intros Hcl Hcr; rewrite Hcl, Hcr in Hf; cbn in Hf;
    first [apply Add_create_ok|apply Sub_create_ok]; try done; lia.
Qed.

(** The kinds of BCREATE_R other than Add and Sub. *)
Lemma partial_step_ok k l r :
  k ∈ [Mul; And; Or; Xor; Eq] -> (need k l r < S f)%nat -> wt l -> wt r ->
  getWidth l = getWidth r ->
  implements checked (create_step opt rec k l r) (bin_width k (getWidth l)) (bin_den checked k l r).
Proof.
  intros Hk Hf Hl Hr Hw.
  assert (div_ok k l r) as Hdiv.
  { kind_cases Hk; by destruct l, r. }
  assert (forall cl, l = Constant cl -> bin_den checked k l r = cden k cl r) as HL by (by intros ? ->).
  assert (forall w m cr, r = Constant cr -> k ∈ [Add; Mul; And; Or; Xor; Eq] ->
    implements checked m w (cden k cr l) -> implements checked m w (bin_den checked k l r)) as HR.
  { intros w m cr -> Hk' H. apply implements_comm; auto. }
  kind_cases Hk; unfold create_step; apply BCREATE_R_ind; try done.
  all: try (intros cl cr -> ->; cbn [getWidth]; fold_case).
  - intros cl -> Hc. cbn [getWidth]. eapply implements_weaken;
      [cbn in Hw; rewrite Hw; by apply Mul_partial_ok|by rewrite HL with (cl := cl)].
  - intros cr -> Hc. apply HR with cr; [done|set_solver|]. by apply Mul_partial_ok.
  - intros _ _. by apply Mul_create_ok.
  - intros cl -> Hc. cbn [getWidth]. rewrite HL with (cl := cl) by done. unfold AndExpr_createPartialR.
    cbn in Hw. rewrite Hw. apply implements_comm; [kind_mem|done|]. by apply And_partial_ok.
  - intros cr -> Hc. by apply And_partial_ok.
  - intros _ _. by apply (implements_alloc And).
  - intros cl -> Hc. cbn [getWidth]. rewrite HL with (cl := cl) by done. unfold OrExpr_createPartialR.
    cbn in Hw. rewrite Hw. apply implements_comm; [kind_mem|done|]. by apply Or_partial_ok.
  - intros cr -> Hc. by apply Or_partial_ok.
  - intros _ _. by apply (implements_alloc Or).
  - intros cl -> Hc. rewrite HL with (cl := cl) by done. cbn [need] in Hf. unfold measure in Hf.
    cbn in Hf, Hl, Hw. apply Xor_partialR_ok; try done; lia.
  - intros cr -> Hc. apply HR with cr; [done|set_solver|]. cbn [need] in Hf. unfold measure in Hf.
    rewrite Hc in Hf. cbn in Hf, Hr, Hw. change (bin_width Xor (getWidth l)) with (getWidth l).
    rewrite Hw. apply Xor_partialR_ok; try done; lia.
  - intros _ _. by apply (implements_alloc Xor).
  - intros cl -> Hc. rewrite HL with (cl := cl) by done. cbn [need] in Hf. unfold measure in Hf.
    cbn in Hf, Hl, Hw. apply Eq_partialR_ok; try done; lia.
  - intros cr -> Hc. apply HR with cr; [done|set_solver|]. cbn [need] in Hf. unfold measure in Hf.
    rewrite Hc in Hf. cbn in Hf, Hr, Hw. apply Eq_partialR_ok; try done; lia.
  - intros _ _. by apply Eq_create_ok.
Qed.

Lemma plain_step_ok k l r :
  k ∈ [UDiv; SDiv; URem; SRem; Shl; LShr; AShr; Ult; Ule; Slt; Sle] -> (need k l r < S f)%nat ->
  wt l -> wt r -> getWidth l = getWidth r -> div_ok k l r ->
  implements checked (create_step opt rec k l r) (bin_width k (getWidth l)) (bin_den checked k l r).
Proof.
  intros Hk Hf Hl Hr Hw Hdiv.
  assert (k ∈ [Shl; LShr; Ult; Ule; Slt; Sle] -> (expr_size l + 1 < f)%nat /\ (expr_size r + 1 < f)%nat) as Hs.
  { intros Hk'. pose proof (expr_size_pos l). pose proof (expr_size_pos r).
    assert (S (measure l r) < S f)%nat as Hm.
    { kind_cases Hk'. }
    unfold measure in Hm. lia. }
  kind_cases Hk; unfold create_step;
    (apply BCREATE_ind; [done|intros cl cr -> ->; cbn [getWidth]; fold_case|]).
  1-4: by eapply div_create_ok.
  3: by apply AShr_create_ok.
  all: destruct Hs as [? ?]; [kind_mem|by apply shift_create_ok; [kind_mem|..]].
Qed.

Lemma creates_of_implements k l r :
  ~ (k = Add \/ k = Sub) ->
  implements checked (create_step opt rec k l r) (bin_width k (getWidth l)) (bin_den checked k l r) ->
  creates (create_step opt rec) k l r.
Proof. intros Hk (e & ? & ? & ? & ?). exists e. split_and!; auto. tauto. Qed.

Lemma creates_of_lin k l r :
  k = Add \/ k = Sub ->
  implements_lin (expr_size l + expr_size r + 1) (create_step opt rec k l r) (getWidth l)
    (bin_den checked k l r) ->
  creates (create_step opt rec) k l r.
Proof.
  intros Hk (e & ? & ? & ? & ? & ?). exists e. split_and!; auto.
  destruct Hk; by subst.
Qed.

Lemma step_rec_ok : rec_ok (create_step opt rec) (S f).
Proof.
  intros k l r Hk Hf Hl Hr Hw Hd. destruct k; try discriminate Hk.
  all: try (apply creates_of_lin; [tauto|apply lin_step_ok; auto; fail]).
  all: apply creates_of_implements; [intros [|]; discriminate|].
  all: first [ by apply partial_step_ok; [kind_mem|..] | by apply plain_step_ok; [kind_mem|..] ].
Qed.

End with_rec.

Lemma step_rec_folds rec n : rec_folds (create_step opt rec) (S n).
Proof.
  intros k a b Hk _ Hw. destruct k; try discriminate Hk; unfold create_step, BCREATE_R, BCREATE;
    cbn [getWidth]; by rewrite Hw, Z.eqb_refl.
Qed.

Lemma create_rec_ok n : rec_ok (create opt n) n /\ rec_folds (create opt n) n.
Proof.
  induction n as [|n [IHr IHf]].
  - split; intros ?; intros; lia.
  - split; [by apply step_rec_ok|apply step_rec_folds].
Qed.

(** The recursion of the constructors stays within [create_fuel]. *)
Lemma canonical_create_ok k l r :
  canonical k = true -> wt l -> wt r -> getWidth l = getWidth r -> div_ok k l r ->
  implements checked (canonical_create opt k l r) (bin_width k (getWidth l)) (bin_den checked k l r).
Proof.
  intros. destruct (create_rec_ok (create_fuel l r)) as [Hr Hf].
  apply (rec_implements (create opt (create_fuel l r)) (create_fuel l r)); auto.
  assert (measure l r <= expr_size l + expr_size r + 1)%nat
    by (unfold measure; destruct (isConstant l || isConstant r); lia).
  unfold create_fuel. destruct k; cbn [need]; lia.
Qed.

Lemma bin_den_swap k k' l r ρ v :
  (k, k') ∈ [(Ugt, Ult); (Uge, Ule); (Sgt, Slt); (Sge, Sle)] -> getWidth l = getWidth r ->
  bin_den checked k l r ρ = Some v -> bin_den checked k' r l ρ = Some v.
Proof.
  intros Hk Hw Hd. apply bin_den_inv in Hd as (x & y & Hx & Hy & Hv).
  unfold bin_den. rewrite Hx, Hy. cbn [mbind option_bind]. rewrite <- Hv, <- Hw.
  rewrite !elem_of_cons, elem_of_nil in Hk. destruct_or? Hk; simplify_eq; done.
Qed.

Lemma swapped_create_ok k k' l r :
  (k, k') ∈ [(Ugt, Ult); (Uge, Ule); (Sgt, Slt); (Sge, Sle)] -> wt l -> wt r ->
  getWidth l = getWidth r ->
  implements checked (canonical_create opt k' r l) 1 (bin_den checked k l r).
Proof.
  intros Hk Hl Hr Hw. eapply implements_weaken; [|intros ρ v; by eapply bin_den_swap].
  assert (bin_width k' (getWidth r) = 1 /\ canonical k' = true /\ div_ok k' r l) as (<- & Hc & Hd).
  { rewrite !elem_of_cons, elem_of_nil in Hk. destruct_or? Hk; simplify_eq; by destruct r, l. }
  by apply canonical_create_ok.
Qed.

Lemma NeExpr_create_ok l r :
  wt l -> wt r -> getWidth l = getWidth r ->
  implements checked (NeExpr_create opt l r) 1 (bin_den checked Ne l r).
Proof.
  intros Hl Hr Hw. unfold NeExpr_create. rewrite const_create_ok by done. cbn [res_bind].
  eapply implements_bind; [apply (canonical_create_ok Eq); try done; by destruct l, r|].
  intros e He Hew Hed. cbn in Hew. eapply implements_weaken.
  - change 1 with (bin_width Eq (getWidth (const_alloc 0 Bool_w))).
    apply canonical_create_ok; [done|by apply wt_const_alloc|done|by rewrite width_const_alloc|by destruct e].
  - intros ρ v Hd. apply bin_den_inv in Hd as (x & y & Hx & Hy & Hv).
    unfold bin_den at 1. rewrite denote_const_alloc by done. cbn [mbind option_bind].
    rewrite (Hed ρ (Z.b2z (x =? y))) by (unfold bin_den; by rewrite Hx; cbn; rewrite Hy).
    cbn [mbind option_bind]. rewrite <- Hv. cbn [bin_sem]. by destruct (x =? y).
Qed.

Lemma BinaryExpr_create_ok k l r :
  wt l -> wt r -> getWidth l = getWidth r -> div_ok k l r ->
  implements checked (BinaryExpr_create opt k l r) (bin_width k (getWidth l)) (bin_den checked k l r).
Proof.
  intros Hl Hr Hw Hd. destruct k; try (by apply canonical_create_ok); cbn [BinaryExpr_create].
  - by apply NeExpr_create_ok.
  - by apply swapped_create_ok; [kind_mem|..].
  - by apply swapped_create_ok; [kind_mem|..].
  - by apply swapped_create_ok; [kind_mem|..].
  - by apply swapped_create_ok; [kind_mem|..].
Qed.

Lemma createIsZero_ok e :
  wt e ->
  implements checked (createIsZero opt e) 1 (fun ρ => v ← denote checked ρ e; Some (Z.b2z (v =? 0))).
Proof.
  intros He. pose proof (wt_width_pos e He). unfold createIsZero, createIsZero_with.
  rewrite const_create_ok by lia. cbn [res_bind]. eapply implements_weaken.
  - change 1 with (bin_width Eq (getWidth e)). apply BinaryExpr_create_ok;
      [done|by apply wt_const_alloc|by rewrite width_const_alloc|by destruct e].
  - intros ρ v Hd. apply bind_Some in Hd as (x & Hx & Hv). unfold bin_den. rewrite Hx.
    cbn [mbind option_bind]. rewrite denote_const_alloc by lia. cbn. by rewrite wrap_small by lia.
Qed.

Lemma createImplies_ok h c :
  wt h -> wt c -> getWidth h = 1 -> getWidth c = 1 ->
  implements checked (createImplies opt h c) 1
    (fun ρ => x ← denote checked ρ h; y ← denote checked ρ c; Some (Z.b2z ((x =? 0) || negb (y =? 0)))).
Proof.
  intros Hh Hc Hhw Hcw. unfold createImplies.
  eapply implements_bind; [by apply createIsZero_ok|]. intros n Hn Hnw Hnd.
  eapply implements_weaken.
  - rewrite <- Hnw at 1. apply (BinaryExpr_create_ok Or); [done..|by rewrite Hnw|by destruct n, c].
  - intros ρ v Hd. apply bind_Some in Hd as (x & Hx & Hd). apply bind_Some in Hd as (y & Hy & Hd).
    pose proof (denote_range checked c ρ y Hc Hy) as Ry. rewrite Hcw in Ry.
    unfold bin_den. rewrite (Hnd ρ (Z.b2z (x =? 0))) by (by rewrite Hx).
    cbn [mbind option_bind]. rewrite Hy. cbn [mbind option_bind]. rewrite <- Hd. clear Hy Hd.
    destruct (x =? 0); bits1.
Qed.

End correct.

#[export] Hint Resolve BinaryExpr_create_ok createIsZero_ok : klee.

Section theorems.
Context {A : APInt} {L : APIntLaws A} {AR : Arrays}.

(** C5. Canonicalization is sound and total: on well-typed operands of one
    width (excluding the division of a constant by the constant zero) every
    [X::create(l, r)] returns, without a failed assertion and within
    [create_fuel], a well-typed expression of the operator's width that has
    the operator's value in every environment where the operands have one. *)
Theorem BinaryExpr_create_correct (opt checked : bool) k l r :
  (opt = true -> checked = true) ->
  wt l -> wt r -> getWidth l = getWidth r -> div_ok k l r ->
  exists e, BinaryExpr_create opt k l r = Ok e /\ wt e /\
    getWidth e = bin_width k (getWidth l) /\
    forall ρ x y v, denote checked ρ l = Some x -> denote checked ρ r = Some y ->
      bin_sem k (getWidth l) x y = Some v -> denote checked ρ e = Some v.
Proof.
  intros Ho Hl Hr Hw Hd.
  destruct (BinaryExpr_create_ok opt checked Ho k l r Hl Hr Hw Hd) as (e & He & Hwt & Hwd & Hden).
  exists e. split_and!; auto. intros ρ x y v Hx Hy Hv. apply Hden. unfold bin_den.
  by rewrite Hx, Hy.
Qed.

(** [Expr::createImplies] builds the Boolean implication of its two
    arguments. *)
Theorem createImplies_correct (opt checked : bool) h c :
  (opt = true -> checked = true) ->
  wt h -> wt c -> getWidth h = 1 -> getWidth c = 1 ->
  exists e, createImplies opt h c = Ok e /\ wt e /\ getWidth e = 1 /\
    forall ρ x y, denote checked ρ h = Some x -> denote checked ρ c = Some y ->
      denote checked ρ e = Some (Z.b2z ((x =? 0) || negb (y =? 0))).
Proof.
  intros Ho Hh Hc Hhw Hcw.
  destruct (createImplies_ok opt checked Ho h c Hh Hc Hhw Hcw) as (e & He & Hwt & Hwd & Hden).
  exists e. split_and!; auto. intros ρ x y Hx Hy. apply Hden. by rewrite Hx, Hy.
Qed.

End theorems.

Lemma BinaryExpr_create_correct_witness :
  exists e, @BinaryExpr_create bv_apint Examples.arrays true Sub (Examples.a_at 0)
      (Constant (Examples.byte 3)) = Ok e /\
    @denote bv_apint Examples.arrays true Examples.fives e = Some 2.
Proof.
  destruct (@BinaryExpr_create_correct bv_apint bv_apint_laws Examples.arrays true true Sub
    (Examples.a_at 0) (Constant (Examples.byte 3))) as (e & He & _ & _ & Hd).
  - exact (fun H => H).
  - exact (Examples.wt_a_at 0).
  - cbn. lia.
  - reflexivity.
  - exact I.
  - exists e. split; [exact He|]. apply (Hd Examples.fives 5 3 2); vm_compute; reflexivity.
Defined.

Lemma createImplies_correct_witness :
  exists e, @createImplies bv_apint Examples.arrays true (const_alloc 1 1) (const_alloc 0 1) = Ok e /\
    @denote bv_apint Examples.arrays true Examples.fives e = Some 0.
Proof.
  destruct (@createImplies_correct bv_apint bv_apint_laws Examples.arrays true true
    (const_alloc 1 1) (const_alloc 0 1)) as (e & He & _ & _ & Hd).
  - exact (fun H => H).
  - cbn. lia.
  - cbn. lia.
  - reflexivity.
  - reflexivity.
  - exists e. split; [exact He|]. apply (Hd Examples.fives 1 0); vm_compute; reflexivity.
Defined.
