(* ===== verification/ExprFactory.v ===== *)
(** The remaining constructors of klee/lib/Expr/Expr.cpp: [Select], [Concat],
    [Extract], [Not], the casts, [Read] over an update list, temporary reads
    and [createFromKind]; and the theorems that they implement the operators
    of [ExprSem.v].

    [ExtractExpr_create] and [ConcatExpr_create] are mutually recursive in the
    source.  Here the recursion is on fuel; [extract_fuel], the size of the
    operand plus one, is enough. *)
From Stdlib Require Import ZArith Lia Bool.
From stdpp Require Import base list numbers option.
From S2P Require Import Prelude APInt Expr ExprCreate ExprSem ExprCompare ExprCreateCorrect.
Open Scope Z_scope.

Section factory.
Context {A : APInt} {AR : Arrays}.
(** The command-line option [-const-array-opt]. *)
Context (ConstArrayOpt : bool).

Definition NotOptimizedExpr_create (src : expr) : expr := NotOptimized src.

Definition SelectExpr_create (c t f : expr) : res expr :=
  let kt := getWidth t in
  assert* getWidth c =? Bool_w in
  assert* kt =? getWidth f in
  let nonconst :=
    if expr_eqb t f then Ok t
    else if kt =? Bool_w then (* c ? t : f  <=> (c and t) or (not c and f) *)
      match t, f with
      | Constant CE, _ =>
          if const_isTrue CE then BinaryExpr_create ConstArrayOpt Or c f
          else let* nc := createIsZero ConstArrayOpt c in BinaryExpr_create ConstArrayOpt And nc f
      | _, Constant CE =>
          if const_isTrue CE then
            let* nc := createIsZero ConstArrayOpt c in BinaryExpr_create ConstArrayOpt Or nc t
          else BinaryExpr_create ConstArrayOpt And c t
      | _, _ => Ok (Select c t f)
      end
    else Ok (Select c t f) in
  match c with
  | Constant CE => Ok (if const_isTrue CE then t else f)
  | _ => nonconst
  end.

(* ConcatExpr::create, given ExtractExpr::create *)
Definition ConcatExpr_create_with (extract : expr -> Z -> Z -> res expr) (l r : expr) : res expr :=
  let w := getWidth l + getWidth r in
  match l, r with
  | Constant lCE, Constant rCE => Ok (Constant (const_Concat lCE rCE))
  | Extract le loff _, Extract re roff rw =>
      (* Merge contiguous Extracts *)
      if expr_eqb le re && (roff + rw =? loff) then extract le roff w
      else Ok (Concat l r)
  | _, _ => Ok (Concat l r)
  end.

Fixpoint ExtractExpr_create_fuel (fuel : nat) (e : expr) (off w : Z) : res expr :=
  match fuel with
  | O => OutOfFuel
  | S fuel' =>
      let kw := getWidth e in
      assert* (0 <? w) && (off + w <=? kw) in
      if w =? kw then Ok e
      else
        match e with
        | Constant CE => Ok (Constant (const_Extract CE off w))
        | Concat l r =>
            if getWidth r <=? off then ExtractExpr_create_fuel fuel' l (off - getWidth r) w
            else if off + w <=? getWidth r then ExtractExpr_create_fuel fuel' r off w
            else (* E(C(x,y)) = C(E(x), E(y)) *)
              let* el := ExtractExpr_create_fuel fuel' l 0 (w - getWidth r + off) in
              let* er := ExtractExpr_create_fuel fuel' r off (getWidth r - off) in
              ConcatExpr_create_with (ExtractExpr_create_fuel fuel') el er
        | _ => Ok (Extract e off w)
        end
  end.

Definition extract_fuel (e : expr) : nat := S (expr_size e).

Definition ExtractExpr_create (e : expr) (off w : Z) : res expr :=
  ExtractExpr_create_fuel (extract_fuel e) e off w.

Definition ConcatExpr_create (l r : expr) : res expr :=
  ConcatExpr_create_with ExtractExpr_create l r.

(* the loop of createN over the kids before the last two, from the right *)
Fixpoint createN_loop (kids : list expr) (r : expr) : res expr :=
  match kids with
  | [] => Ok r
  | k :: kids' => let* r' := ConcatExpr_create k r in createN_loop kids' r'
  end.

Definition ConcatExpr_createN (kids : list expr) : res expr :=
  match rev kids with
  | [] => AssertFail
  | [k] => Ok k
  | k1 :: k2 :: rest => let* r := ConcatExpr_create k2 k1 in createN_loop rest r
  end.

Definition ConcatExpr_create4 (k1 k2 k3 k4 : expr) : res expr :=
  let* r := ConcatExpr_create k3 k4 in
  let* r := ConcatExpr_create k2 r in
  ConcatExpr_create k1 r.

Definition ConcatExpr_create8 (k1 k2 k3 k4 k5 k6 k7 k8 : expr) : res expr :=
  let* r := ConcatExpr_create4 k5 k6 k7 k8 in
  let* r := ConcatExpr_create k4 r in
  let* r := ConcatExpr_create k3 r in
  let* r := ConcatExpr_create k2 r in
  ConcatExpr_create k1 r.

Definition NotExpr_create (e : expr) : expr :=
  match e with Constant CE => Constant (const_Not CE) | _ => Not e end.

Definition ZExtExpr_create (e : expr) (w : Z) : res expr :=
  let kBits := getWidth e in
  if w =? kBits then Ok e
  else if w <? kBits then ExtractExpr_create e 0 w (* trunc *)
  else match e with Constant CE => Ok (Constant (const_ZExt CE w)) | _ => Ok (Cast ZExt e w) end.

Definition SExtExpr_create (e : expr) (w : Z) : res expr :=
  let kBits := getWidth e in
  if w =? kBits then Ok e
  else if w <? kBits then ExtractExpr_create e 0 w (* trunc *)
  else match e with Constant CE => Ok (Constant (const_SExt CE w)) | _ => Ok (Cast SExt e w) end.

(** *** Reads *)

(** What the scan of the update list of [ReadExpr::create] ends with. *)
Inductive scan_result : Type :=
| Written (value : expr)              (* the value written at the index *)
| Stopped (un : updates) (symbolic : bool). (* where it stopped, and why *)

(* the loop over the update nodes *)
Fixpoint scan_updates (index : expr) (un : updates) : res scan_result :=
  match un with
  | UNil => Ok (Stopped UNil false)
  | UNode i v next =>
      let* cond := BinaryExpr_create ConstArrayOpt Eq index i in
      match cond with
      | Constant CE => if const_isTrue CE then Ok (Written v) else scan_updates index next
      | _ => Ok (Stopped un true)
      end
  end.

(* "the index is a constant": its value, which the source asserts to fit *)
Definition concrete_index (index : expr) : res (option Z) :=
  match index with
  | Constant CE => let* v := getZExtValue CE 64 in Ok (Some v)
  | _ => Ok None
  end.

Definition ReadExpr_create (root : positive) (head : updates) (index : expr) : res expr :=
  let* scan := scan_updates index head in
  match scan with
  | Written v => Ok v
  | Stopped un updateListHasSymbolicWrites =>
      let* ci := concrete_index index in
      match ci with
      | None => Ok (Read root head index)
      | Some concreteIndex =>
          let inRange := concreteIndex <? size (arrayAt root) in
          if isConstantArray (arrayAt root) && negb updateListHasSymbolicWrites && inRange then
            match constantValues (arrayAt root) !! Z.to_nat concreteIndex with
            | Some c => Ok (Constant c)
            | None => AssertFail
            end
          else if inRange then Ok (Read root un index)
          else Ok (Read root head index)
      end
  end.

Definition createTempRead (array : positive) (w : Z) : res expr :=
  let rd i := ReadExpr_create array UNil (const_alloc i Int32) in
  if w =? Bool_w then let* r0 := rd 0 in ZExtExpr_create r0 Bool_w
  else if w =? Int8 then rd 0
  else if w =? Int16 then
    let* r1 := rd 1 in let* r0 := rd 0 in ConcatExpr_create r1 r0
  else if w =? Int32 then
    let* r3 := rd 3 in let* r2 := rd 2 in let* r1 := rd 1 in let* r0 := rd 0 in
    ConcatExpr_create4 r3 r2 r1 r0
  else if w =? Int64 then
    let* r7 := rd 7 in let* r6 := rd 6 in let* r5 := rd 5 in let* r4 := rd 4 in
    let* r3 := rd 3 in let* r2 := rd 2 in let* r1 := rd 1 in let* r0 := rd 0 in
    ConcatExpr_create8 r7 r6 r5 r4 r3 r2 r1 r0
  else AssertFail.

(** *** createFromKind *)

(** [struct Expr::CreateArg]. *)
Inductive CreateArg : Type := ArgExpr (e : expr) | ArgWidth (w : Z).

(** [enum Expr::Kind]. *)
Inductive Kind : Type :=
| KConstant | KNotOptimized | KRead | KSelect | KConcat | KExtract
| KCast (k : CastKind) | KNot | KBinary (k : BinKind).

Definition createFromKind (k : Kind) (args : list CreateArg) : res expr :=
  match k, args with
  | KNotOptimized, [ArgExpr e] => Ok (NotOptimizedExpr_create e)
  | KSelect, [ArgExpr c; ArgExpr t; ArgExpr f] => SelectExpr_create c t f
  | KConcat, [ArgExpr l; ArgExpr r] => ConcatExpr_create l r
  | KCast ZExt, [ArgExpr e; ArgWidth w] => ZExtExpr_create e w
  | KCast SExt, [ArgExpr e; ArgWidth w] => SExtExpr_create e w
  | KBinary b, [ArgExpr l; ArgExpr r] => BinaryExpr_create ConstArrayOpt b l r
  (* Constant, Extract, Read and every other kind (Not has no case), and
     argument lists of the wrong shape *)
  | _, _ => AssertFail
  end.

End factory.

(** ** Bit-vector facts *)

Lemma wrap_div_wrap n m x :
  0 <= n <= m -> wrap (m - n) (x / 2 ^ n) = wrap m x / 2 ^ n.
Proof.
  intros H. unfold wrap. replace (2 ^ m) with (2 ^ n * 2 ^ (m - n)) by
    (rewrite <- Z.pow_add_r by lia; f_equal; lia).
  pose proof (Z.pow_pos_nonneg 2 n). pose proof (Z.pow_pos_nonneg 2 (m - n)).
  rewrite Z.rem_mul_r by lia. rewrite Z.mul_comm, Z.div_add by lia.
  rewrite (Z.div_small (x mod 2 ^ n)) by (apply Z.mod_pos_bound; lia). lia.
Qed.

(** Two adjacent fields are one. *)
Lemma wrap_adjacent w1 w2 x :
  0 <= w1 -> 0 <= w2 -> wrap w1 (x / 2 ^ w2) * 2 ^ w2 + wrap w2 x = wrap (w1 + w2) x.
Proof.
  intros. unfold wrap. rewrite (Z.add_comm w1 w2), Z.pow_add_r by lia.
  pose proof (Z.pow_pos_nonneg 2 w1). pose proof (Z.pow_pos_nonneg 2 w2).
  rewrite Z.rem_mul_r by lia. lia.
Qed.

Lemma wrap_adjacent_at o w1 w2 x :
  0 <= o -> 0 <= w1 -> 0 <= w2 ->
  wrap w1 (x / 2 ^ (o + w2)) * 2 ^ w2 + wrap w2 (x / 2 ^ o) = wrap (w1 + w2) (x / 2 ^ o).
Proof.
  intros. rewrite Z.pow_add_r by lia.
  pose proof (Z.pow_pos_nonneg 2 o). pose proof (Z.pow_pos_nonneg 2 w2).
  rewrite <- Z.div_div by lia. by apply wrap_adjacent.
Qed.

(** The fields of a concatenation. *)
Lemma field_left wr off w hi lo :
  0 <= lo < 2 ^ wr -> 0 <= wr <= off ->
  wrap w ((hi * 2 ^ wr + lo) / 2 ^ off) = wrap w (hi / 2 ^ (off - wr)).
Proof.
  intros Hlo Ho. f_equal. replace off with (wr + (off - wr)) at 1 by lia.
  rewrite Z.pow_add_r by lia.
  pose proof (Z.pow_pos_nonneg 2 wr). pose proof (Z.pow_pos_nonneg 2 (off - wr)).
  rewrite <- Z.div_div by lia. by rewrite Z.div_add_l, (Z.div_small lo), Z.add_0_r by lia.
Qed.

Lemma field_right wr off w hi lo :
  0 <= off -> 0 <= w -> off + w <= wr ->
  wrap w ((hi * 2 ^ wr + lo) / 2 ^ off) = wrap w (lo / 2 ^ off).
Proof.
  intros Ho Hw Hs. replace wr with (off + (w + (wr - off - w))) by lia.
  rewrite !Z.pow_add_r by lia. pose proof (Z.pow_pos_nonneg 2 off). pose proof (Z.pow_pos_nonneg 2 w).
  replace (hi * (2 ^ off * (2 ^ w * 2 ^ (wr - off - w)))) with
    (hi * 2 ^ (wr - off - w) * 2 ^ w * 2 ^ off) by ring.
  rewrite Z.div_add_l by lia. unfold wrap. by rewrite Z.add_comm, Z.mod_add by lia.
Qed.

Lemma field_both wr off w hi lo :
  0 <= lo < 2 ^ wr -> 0 <= off < wr -> wr <= off + w ->
  wrap w ((hi * 2 ^ wr + lo) / 2 ^ off) =
  wrap (w - wr + off) hi * 2 ^ (wr - off) + wrap (wr - off) (lo / 2 ^ off).
Proof.
  intros Hlo Ho Hs. pose proof (Z.pow_pos_nonneg 2 off). pose proof (Z.pow_pos_nonneg 2 (wr - off)).
  assert (2 ^ wr = 2 ^ (wr - off) * 2 ^ off) as E
    by (rewrite <- Z.pow_add_r by lia; f_equal; lia).
  rewrite E, Z.mul_assoc, Z.div_add_l by lia.
  assert (0 <= lo / 2 ^ off < 2 ^ (wr - off)).
  { split; [apply Z.div_pos; lia|]. apply Z.div_lt_upper_bound; lia. }
  replace w with ((w - wr + off) + (wr - off)) at 1 by lia.
  rewrite <- wrap_adjacent by lia. f_equal.
  - f_equal. f_equal. by rewrite Z.div_add_l, Z.div_small, Z.add_0_r by lia.
  - unfold wrap. by rewrite Z.add_comm, Z.mod_add by lia.
Qed.

Section correct.
Context {A : APInt} {L : APIntLaws A} {AR : Arrays}.
Context (opt checked : bool).
Context (Hopt : opt = true -> checked = true).

Definition extract_den (e : expr) (off w : Z) (ρ : env) : option Z :=
  v ← denote checked ρ e; Some (wrap w (v / 2 ^ off)).
Definition concat_den (l r : expr) (ρ : env) : option Z :=
  vl ← denote checked ρ l; vr ← denote checked ρ r; Some (vl * 2 ^ getWidth r + vr).

Lemma const_Concat_ok a b :
  0 < getBitWidth a -> 0 < getBitWidth b ->
  getBitWidth (const_Concat a b) = getBitWidth a + getBitWidth b /\
  uval (const_Concat a b) = uval a * 2 ^ getBitWidth b + uval b.
Proof.
  intros Ha Hb. unfold const_Concat. set (W := getBitWidth a + getBitWidth b).
  assert (getBitWidth (ap_zextOrTrunc a W) = W) as H1 by (apply zext_width; lia).
  assert (getBitWidth (ap_zextOrTrunc b W) = W) as H2 by (apply zext_width; lia).
  assert (getBitWidth (ap_shl_u (ap_zextOrTrunc a W) (getBitWidth b)) = W) as H3
    by (rewrite shl_u_width; lia).
  pose proof (uval_range a Ha) as Ra. pose proof (uval_range b Hb) as Rb.
  pose proof (Z.pow_pos_nonneg 2 (getBitWidth b)).
  assert (2 ^ W = 2 ^ getBitWidth a * 2 ^ getBitWidth b) as EW by (apply Z.pow_add_r; lia).
  assert (2 ^ getBitWidth a <= 2 ^ W) by (apply Z.pow_le_mono_r; lia).
  assert (2 ^ getBitWidth b <= 2 ^ W) by (apply Z.pow_le_mono_r; lia).
  split; [rewrite bin_op_width; lia|].
  apply bin_op_val; [done|lia|lia|]. rewrite shl_u_val by lia. rewrite H1, !zext_val by lia.
  rewrite (wrap_small W (uval a)), (wrap_small W (uval b)) by lia. cbn [bin_sem].
  rewrite (wrap_small W) by nia. f_equal.
  rewrite <- Z.add_lor_land. enough (Z.land (uval a * 2 ^ getBitWidth b) (uval b) = 0) by lia.
  apply Z.bits_inj'. intros n Hn. rewrite Z.land_spec, Z.bits_0.
  destruct (Z_lt_le_dec n (getBitWidth b)).
  - by rewrite Z.mul_pow2_bits_low by lia.
  - by rewrite (testbit_high (getBitWidth b) (uval b)), andb_false_r by lia.
Qed.

Lemma const_Extract_ok a off w :
  0 < w -> 0 <= off -> off + w <= getBitWidth a ->
  getBitWidth (const_Extract a off w) = w /\
  uval (const_Extract a off w) = wrap w (uval a / 2 ^ off).
Proof.
  intros Hw Ho Hs. unfold const_Extract. split; [by apply zext_width|].
  rewrite zext_val by (rewrite ?ashr_u_width; lia). rewrite ashr_u_val by lia.
  rewrite wrap_wrap by lia.
  transitivity (wrap w (wrap (getBitWidth a - off) (signed (getBitWidth a) (uval a) / 2 ^ off))).
  { by rewrite wrap_wrap by lia. }
  rewrite wrap_div_wrap, wrap_signed by lia.
  by rewrite (wrap_small (getBitWidth a)) by (apply uval_range; lia).
Qed.

(** Like [implements], with a bound on the operand of a result that is itself
    an extraction: what bounds the recursion between [Extract] and [Concat]. *)
Definition implements_ext (B : nat) (m : res expr) (w : Z) (d : env -> option Z) : Prop :=
  exists e, m = Ok e /\ wt e /\ getWidth e = w /\
    (forall ρ v, d ρ = Some v -> denote checked ρ e = Some v) /\
    (forall x o w', e = Extract x o w' -> (expr_size x <= B)%nat).

Lemma implements_of_ext B m w d : implements_ext B m w d -> implements checked m w d.
Proof. intros (e & ? & ? & ? & ? & _). exists e. by split_and!. Qed.

Lemma implements_ext_ok B e w d :
  wt e -> getWidth e = w -> (forall ρ v, d ρ = Some v -> denote checked ρ e = Some v) ->
  (forall x o w', e = Extract x o w' -> (expr_size x <= B)%nat) ->
  implements_ext B (Ok e) w d.
Proof. intros. exists e. by split_and!. Qed.

Lemma implements_ext_weaken B B' m w d d' :
  implements_ext B m w d -> (B <= B')%nat -> (forall ρ v, d' ρ = Some v -> d ρ = Some v) ->
  implements_ext B' m w d'.
Proof.
  intros (e & ? & ? & ? & ? & HB) ? ?. exists e. split_and!; auto.
  intros x o w' He. specialize (HB x o w' He). lia.
Qed.

Lemma concat_alloc_ok B l r : wt l -> wt r ->
  implements_ext B (Ok (Concat l r)) (getWidth l + getWidth r) (concat_den l r).
Proof. intros. by apply implements_ext_ok. Qed.

(** Concatenation, given an extraction that is right on operands smaller than
    [f]. *)
Lemma concat_with_ok extract f B l r :
  (forall e off w, (expr_size e < f)%nat -> wt e -> 0 < w -> 0 <= off -> off + w <= getWidth e ->
     implements_ext (expr_size e) (extract e off w) w (extract_den e off w)) ->
  wt l -> wt r -> (forall x o w, l = Extract x o w -> (expr_size x < f)%nat /\ (expr_size x <= B)%nat) ->
  implements_ext B (ConcatExpr_create_with extract l r) (getWidth l + getWidth r)
    (concat_den l r).
Proof.
  intros Hext Hl Hr Hf. unfold ConcatExpr_create_with.
  destruct l as [a| | | | |le loff lw| | |]; try (by apply concat_alloc_ok);
    destruct r as [b| | | | |re roff rw| | |]; try (by apply concat_alloc_ok).
  - destruct (const_Concat_ok a b) as [Hw Hv]; [done..|]. apply implements_ext_ok; [|done| |done].
    + cbn in *. lia.
    + intros ρ v Hd. cbn in *. by rewrite Hv.
  - destruct (expr_eqb le re && (roff + rw =? loff)) eqn:E; [|by apply concat_alloc_ok].
    tidy_bools. subst loff. destruct Hl as (Hle & ? & ? & ?). destruct Hr as (Hre & ? & ? & ?).
    destruct (expr_eqb_sound le re Hle Hre) as [_ Heq]; [done|].
    destruct (Hf _ _ _ eq_refl) as [Hf1 Hf2]. cbn [getWidth].
    eapply implements_ext_weaken; [apply Hext; auto; lia|lia|].
    intros ρ v Hd. unfold concat_den in Hd. cbn [denote getWidth] in Hd. rewrite <- (Heq checked) in Hd.
    unfold extract_den. destruct (denote checked ρ le) as [x|]; [|done]. cbn in *.
    rewrite <- Hd. by rewrite wrap_adjacent_at by lia.
Qed.

Lemma extract_fuel_ok f : forall e off w,
  (expr_size e < f)%nat -> wt e -> 0 < w -> 0 <= off -> off + w <= getWidth e ->
  implements_ext (expr_size e) (ExtractExpr_create_fuel f e off w) w (extract_den e off w).
Proof.
  induction f as [|f IH]; intros e off w Hf He Hw Ho Hs; [lia|]. cbn [ExtractExpr_create_fuel].
  replace ((0 <? w) && (off + w <=? getWidth e)) with true by lia. cbn [res_assert].
  destruct (w =? getWidth e) eqn:Ew; tidy_bools.
  { apply implements_ext_ok; [done..| |].
    - intros ρ v Hd. unfold extract_den in Hd. apply bind_Some in Hd as (x & Hx & Hd).
      pose proof (denote_range checked e ρ x He Hx). assert (off = 0) as -> by lia.
      rewrite Z.div_1_r, wrap_small in Hd by (by subst w). by simplify_eq.
    - intros x o w' ->. cbn. lia. }
  assert (implements_ext (expr_size e) (Ok (Extract e off w)) w (extract_den e off w)) as Hdef.
  { apply implements_ext_ok; [cbn; auto|done|done|]. intros x o w' [= <- _ _]. done. }
  destruct e as [a| | | |l r| | | |]; try exact Hdef.
  - destruct (const_Extract_ok a off w) as [Hcw Hcv]; [done..|].
    apply implements_ext_ok; [cbn; lia|done| |done]. intros ρ v Hd. cbn in *. by rewrite Hcv.
  - destruct He as [Hl Hr]. cbn in Hs, Hf.
    assert (forall ρ v, extract_den (Concat l r) off w ρ = Some v -> exists x y,
      denote checked ρ l = Some x /\ denote checked ρ r = Some y /\ 0 <= y < 2 ^ getWidth r /\
      v = wrap w ((x * 2 ^ getWidth r + y) / 2 ^ off)) as Hden.
    { intros ρ v Hd. unfold extract_den in Hd. cbn [denote] in Hd.
      destruct (denote checked ρ l) as [x|]; [|done]. destruct (denote checked ρ r) as [y|] eqn:Ey; [|done].
      exists x, y. pose proof (denote_range checked r ρ y Hr Ey). cbn in Hd. by simplify_eq. }
    pose proof (wt_width_pos r Hr).
    destruct (getWidth r <=? off) eqn:E1; [|destruct (off + w <=? getWidth r) eqn:E2]; tidy_bools.
    + eapply implements_ext_weaken; [apply IH; auto; lia|cbn; lia|].
      intros ρ v Hd. apply Hden in Hd as (x & y & Hx & Hy & Ry & ->).
      unfold extract_den. rewrite Hx. cbn. by rewrite field_left by lia.
    + eapply implements_ext_weaken; [apply IH; auto; lia|cbn; lia|].
      intros ρ v Hd. apply Hden in Hd as (x & y & Hx & Hy & Ry & ->).
      unfold extract_den. rewrite Hy. cbn. by rewrite field_right by lia.
    + destruct (IH l 0 (w - getWidth r + off)) as (el & -> & Hel & Helw & Held & Hels); auto; [lia..|].
      destruct (IH r off (getWidth r - off)) as (er & -> & Her & Herw & Herd & _); auto; [lia..|].
      cbn [res_bind].
      assert (w = getWidth el + getWidth er) as -> by lia.
      eapply implements_ext_weaken; [apply (concat_with_ok _ f (expr_size l))|cbn; lia|]; auto.
      * intros x o w' Hx. specialize (Hels x o w' Hx). lia.
      * intros ρ v Hd. apply Hden in Hd as (x & y & Hx & Hy & Ry & ->).
        unfold concat_den. rewrite (Held ρ _ ltac:(unfold extract_den; rewrite Hx; reflexivity)).
        cbn [mbind option_bind].
        rewrite (Herd ρ _ ltac:(unfold extract_den; rewrite Hy; reflexivity)).
        cbn [mbind option_bind]. rewrite Helw, Herw. f_equal. change (2 ^ 0) with 1. rewrite Z.div_1_r.
        rewrite (field_both (getWidth r) off _ x y) by lia. repeat (f_equal; try lia).
Qed.

Lemma ExtractExpr_create_ok e off w :
  wt e -> 0 < w -> 0 <= off -> off + w <= getWidth e ->
  implements_ext (expr_size e) (ExtractExpr_create e off w) w (extract_den e off w).
Proof. intros. apply extract_fuel_ok; unfold extract_fuel; auto. Qed.

Lemma ConcatExpr_create_ok l r :
  wt l -> wt r ->
  implements checked (ConcatExpr_create l r) (getWidth l + getWidth r) (concat_den l r).
Proof.
  intros. eapply implements_of_ext.
  apply (concat_with_ok _ (S (expr_size l)) (expr_size l)); auto using ExtractExpr_create_ok.
  intros x o w ->. cbn. lia.
Qed.

Definition kids_width (kids : list expr) : Z := foldr Z.add 0 (getWidth <$> kids).

(** The value (above: the width) of the concatenation of a list of kids, the first
    the most significant. *)
Fixpoint kids_den (kids : list expr) (ρ : env) : option Z :=
  match kids with
  | [] => Some 0
  | k :: ks => v ← denote checked ρ k; r ← kids_den ks ρ;
               Some (v * 2 ^ kids_width ks + r)
  end.

(** A tail of kids already concatenated, preceded by one more. *)
Lemma concat_cons_ok k ks r :
  wt k -> implements checked r (kids_width ks) (kids_den ks) ->
  implements checked (let* e := r in ConcatExpr_create k e) (kids_width (k :: ks)) (kids_den (k :: ks)).
Proof.
  intros Hk Hr. eapply implements_bind; [exact Hr|]. intros e He Hew Hed.
  change (kids_width (k :: ks)) with (getWidth k + kids_width ks). rewrite <- Hew.
  eapply implements_weaken; [by apply ConcatExpr_create_ok|].
  intros ρ v Hd. cbn [kids_den] in Hd. unfold concat_den.
  destruct (denote checked ρ k) as [x|]; [|done]. cbn [mbind option_bind] in *.
  destruct (kids_den ks ρ) as [y|] eqn:E; [|done]. rewrite (Hed ρ y E). cbn in *. by rewrite Hew.
Qed.

Lemma concat_single_ok k : wt k -> implements checked (Ok k) (kids_width [k]) (kids_den [k]).
Proof.
  intros. apply implements_ok; [done|unfold kids_width; cbn; lia|].
  intros ρ v Hd. cbn in Hd. destruct (denote checked ρ k); [|done]. cbn in Hd.
  rewrite <- Hd. f_equal. lia.
Qed.

Lemma createN_loop_ok rest : forall done_ r,
  Forall wt rest -> implements checked (Ok r) (kids_width done_) (kids_den done_) ->
  implements checked (createN_loop rest r) (kids_width (rev rest ++ done_)) (kids_den (rev rest ++ done_)).
Proof.
  induction rest as [|k rest IH]; intros done_ r Hwt Hr; [done|].
  inversion_clear Hwt. cbn [createN_loop rev]. rewrite <- app_assoc. cbn [app].
  destruct (concat_cons_ok k done_ (Ok r)) as (e & He & Hs); [done..|]. cbn [res_bind] in He.
  rewrite He. cbn [res_bind]. apply IH; [done|]. by exists e.
Qed.

Lemma ConcatExpr_createN_ok kids :
  kids <> [] -> Forall wt kids ->
  implements checked (ConcatExpr_createN kids) (kids_width kids) (kids_den kids).
Proof.
  intros Hne Hwt. apply Forall_rev in Hwt. unfold ConcatExpr_createN.
  assert (kids = rev (rev kids)) as E by (by rewrite rev_involutive).
  destruct (rev kids) as [|k1 [|k2 rest]].
  - by cbn in E.
  - rewrite E. inversion_clear Hwt. by apply concat_single_ok.
  - inversion_clear Hwt as [|? ? Hk1 Hwt']. inversion_clear Hwt' as [|? ? Hk2 Hrest].
    rewrite E. cbn [rev]. rewrite <- !app_assoc. cbn [app].
    destruct (concat_cons_ok k2 [k1] (Ok k1)) as (e & He & Hs); [done|by apply concat_single_ok|].
    cbn [res_bind] in He. rewrite He. cbn [res_bind]. apply createN_loop_ok; [done|]. by exists e.
Qed.

Lemma ConcatExpr_create4_ok k1 k2 k3 k4 :
  wt k1 -> wt k2 -> wt k3 -> wt k4 ->
  implements checked (ConcatExpr_create4 k1 k2 k3 k4) (kids_width [k1; k2; k3; k4])
    (kids_den [k1; k2; k3; k4]).
Proof.
  intros. destruct (concat_cons_ok k1 [k2; k3; k4]
    (let* r := ConcatExpr_create k3 k4 in ConcatExpr_create k2 r)) as (e & He & Hs); [done| |].
  - apply concat_cons_ok; [done|]. apply (concat_cons_ok k3 [k4] (Ok k4)); [done|].
    by apply concat_single_ok.
  - unfold ConcatExpr_create4. exists e. split; [|done]. rewrite <- He.
    by destruct (ConcatExpr_create k3 k4).
Qed.

Lemma ConcatExpr_create8_ok k1 k2 k3 k4 k5 k6 k7 k8 :
  Forall wt [k1; k2; k3; k4; k5; k6; k7; k8] ->
  implements checked (ConcatExpr_create8 k1 k2 k3 k4 k5 k6 k7 k8)
    (kids_width [k1; k2; k3; k4; k5; k6; k7; k8]) (kids_den [k1; k2; k3; k4; k5; k6; k7; k8]).
Proof.
  rewrite !Forall_cons_iff. intros. destruct_and!.
  destruct (ConcatExpr_create4_ok k5 k6 k7 k8) as (e4 & He4 & S4); auto.
  unfold ConcatExpr_create8. rewrite He4. cbn [res_bind].
  destruct (concat_cons_ok k4 [k5; k6; k7; k8] (Ok e4)) as (e3 & He3 & S3); [done|by exists e4|].
  cbn [res_bind] in He3. rewrite He3. cbn [res_bind].
  destruct (concat_cons_ok k3 [k4; k5; k6; k7; k8] (Ok e3)) as (e2 & He2 & S2); [done|by exists e3|].
  cbn [res_bind] in He2. rewrite He2. cbn [res_bind].
  destruct (concat_cons_ok k2 [k3; k4; k5; k6; k7; k8] (Ok e2)) as (e1 & He1 & S1); [done|by exists e2|].
  cbn [res_bind] in He1. rewrite He1. cbn [res_bind].
  apply (concat_cons_ok k1 [k2; k3; k4; k5; k6; k7; k8] (Ok e1)); [done|by exists e1].
Qed.

Lemma NotExpr_create_ok e :
  wt e ->
  implements checked (Ok (NotExpr_create e)) (getWidth e)
    (fun ρ => v ← denote checked ρ e; Some (wrap (getWidth e) (Z.lnot v))).
Proof.
  intros He. destruct e; cbn [NotExpr_create]; try (by apply implements_ok).
  cbn in He. apply implements_ok; cbn; [rewrite not_width; lia|by rewrite not_width|].
  intros ρ v Hd. by rewrite not_val.
Qed.

(** The value of a conversion to any width: truncation or extension. *)
Definition cast_den (k : CastKind) (e : expr) (w : Z) (ρ : env) : option Z :=
  v ← denote checked ρ e;
  Some (match k with ZExt => wrap w v | SExt => wrap w (signed (getWidth e) v) end).

Lemma cast_small k e w ρ v :
  wt e -> 0 < w <= getWidth e -> cast_den k e w ρ = Some v -> extract_den e 0 w ρ = Some v.
Proof.
  intros He Hw Hd. unfold cast_den in Hd. unfold extract_den.
  destruct (denote checked ρ e) as [x|]; [|done]. cbn [mbind option_bind] in *.
  rewrite <- Hd. change (2 ^ 0) with 1. rewrite Z.div_1_r. destruct k; [done|].
  transitivity (Some (wrap w (wrap (getWidth e) (signed (getWidth e) x)))).
  - by rewrite wrap_signed, wrap_wrap by lia.
  - by rewrite wrap_wrap by lia.
Qed.

Lemma cast_same k e ρ v : wt e -> cast_den k e (getWidth e) ρ = Some v -> denote checked ρ e = Some v.
Proof.
  intros He Hd. pose proof (wt_width_pos e He). apply cast_small in Hd; [|done|lia].
  unfold extract_den in Hd. destruct (denote checked ρ e) as [x|] eqn:E; [|done].
  pose proof (denote_range checked e ρ x He E). cbn in Hd.
  by rewrite Z.div_1_r, wrap_small in Hd.
Qed.

Lemma cast_create_ok k e w :
  wt e -> 0 < w ->
  implements checked (match k with ZExt => ZExtExpr_create e w | SExt => SExtExpr_create e w end) w
    (cast_den k e w).
Proof.
  intros He Hw.
  assert (implements checked
    (if w =? getWidth e then Ok e else if w <? getWidth e then ExtractExpr_create e 0 w
     else match e with
          | Constant CE => Ok (Constant (match k with ZExt => const_ZExt CE w | SExt => const_SExt CE w end))
          | _ => Ok (Cast k e w)
          end) w (cast_den k e w)) as H; [|by destruct k].
  destruct (w =? getWidth e) eqn:E1; [|destruct (w <? getWidth e) eqn:E2]; tidy_bools.
  - subst w. apply implements_ok; [done..|]. intros ρ v. by apply cast_same.
  - eapply implements_weaken; [eapply implements_of_ext, ExtractExpr_create_ok; auto; lia|].
    intros ρ v. apply cast_small; [done|lia].
  - assert (implements checked (Ok (Cast k e w)) w (cast_den k e w)) as Hdef.
    { apply implements_ok; [cbn; split; [done|lia]|done|]. intros ρ v Hd. unfold cast_den in Hd.
      cbn [denote]. destruct (denote checked ρ e) as [x|] eqn:E; [|by destruct k].
      pose proof (denote_range checked e ρ x He E).
      assert (2 ^ getWidth e <= 2 ^ w) by (apply Z.pow_le_mono_r; lia).
      cbn in Hd. destruct k; [|done]. by rewrite wrap_small in Hd by lia. }
    destruct e as [a| | | | | | | |]; try exact Hdef. cbn in He. apply implements_ok.
    + cbn. destruct k; unfold const_ZExt, const_SExt; [rewrite zext_width|rewrite sext_width]; lia.
    + cbn. destruct k; [apply zext_width|apply sext_width]; lia.
    + intros ρ v Hd. cbn in *. destruct k; unfold const_ZExt, const_SExt;
        [rewrite zext_val by lia|rewrite sext_val by lia]; done.
Qed.

(** *** Select *)

Definition select_den (c t f : expr) (ρ : env) : option Z :=
  vc ← denote checked ρ c; vt ← denote checked ρ t; vf ← denote checked ρ f;
  Some (if vc =? 1 then vt else vf).

Lemma select_den_inv c t f ρ v :
  select_den c t f ρ = Some v -> exists x y z, denote checked ρ c = Some x /\
    denote checked ρ t = Some y /\ denote checked ρ f = Some z /\ v = if x =? 1 then y else z.
Proof.
  unfold select_den. destruct (denote checked ρ c), (denote checked ρ t), (denote checked ρ f);
    try done. cbn. intros. simplify_eq. eauto 10.
Qed.

(** [op c x], or [op (c == 0) x], for a connective [op] and one-bit operands. *)
Lemma select_connective_ok (op : BinKind) (negate : bool) c x d :
  op = And \/ op = Or -> wt c -> wt x -> getWidth c = 1 -> getWidth x = 1 ->
  (forall ρ v, d ρ = Some v -> exists vc vx, denote checked ρ c = Some vc /\
    denote checked ρ x = Some vx /\
    bin_sem op 1 (if negate then Z.b2z (vc =? 0) else vc) vx = Some v) ->
  implements checked
    (if negate then (let* nc := createIsZero opt c in BinaryExpr_create opt op nc x)
     else BinaryExpr_create opt op c x) 1 d.
Proof.
  intros Hop Hc Hx Hcw Hxw Hd.
  assert (forall a, wt a -> getWidth a = 1 ->
    implements checked (BinaryExpr_create opt op a x) 1 (bin_den checked op a x)) as K.
  { intros a Ha Haw. replace 1 with (bin_width op (getWidth a)) by (destruct Hop; by subst).
    apply (BinaryExpr_create_ok opt checked Hopt); [done|done|lia|destruct Hop; subst; by destruct a, x]. }
  destruct negate.
  - eapply implements_bind; [by apply (createIsZero_ok opt checked Hopt)|]. intros n Hn Hnw Hnd.
    eapply implements_weaken; [by apply K|]. intros ρ v Hv.
    destruct (Hd ρ v Hv) as (vc & vx & Hvc & Hvx & <-). unfold bin_den.
    rewrite (Hnd ρ (Z.b2z (vc =? 0))) by (by rewrite Hvc). cbn [mbind option_bind].
    rewrite Hvx, Hnw. done.
  - eapply implements_weaken; [by apply K|]. intros ρ v Hv.
    destruct (Hd ρ v Hv) as (vc & vx & Hvc & Hvx & <-). unfold bin_den.
    by rewrite Hvc, Hvx, Hcw.
Qed.

Lemma const_isTrue_value CE :
  getBitWidth CE = 1 -> uval CE = (if const_isTrue CE then 1 else 0).
Proof.
  intros Hw. pose proof (uval_range CE ltac:(lia)) as R. rewrite Hw in R.
  unfold const_isTrue. rewrite Hw. cbn. destruct (bit_cases _ R) as [-> | ->]; done.
Qed.

Ltac select_bits Hc Hx :=
  intros ρ v Hd; apply select_den_inv in Hd as (x & y & z & Hx1 & Hy1 & Hz1 & ->);
  pose proof (denote_range checked _ ρ _ Hc Hx1) as Rx;
  cbn [denote] in Hy1, Hz1; first [injection Hy1 as <-|injection Hz1 as <-].

Lemma SelectExpr_create_ok c t f :
  wt c -> wt t -> wt f -> getWidth c = 1 -> getWidth t = getWidth f ->
  implements checked (SelectExpr_create opt c t f) (getWidth t) (select_den c t f).
Proof.
  intros Hc Ht Hf Hcw Hw. unfold SelectExpr_create. rewrite Hcw, Hw, !Z.eqb_refl. cbn [res_assert].
  assert (implements checked (Ok (Select c t f)) (getWidth f) (select_den c t f)) as Hdef
    by (by apply implements_ok).
  assert (forall CE, c = Constant CE ->
    implements checked (Ok (if const_isTrue CE then t else f)) (getWidth f) (select_den c t f)) as HCE.
  { intros CE ->. pose proof (const_isTrue_value CE Hcw) as Hv.
    apply implements_ok; [by destruct (const_isTrue CE)|by destruct (const_isTrue CE)|].
    intros ρ v Hd. apply select_den_inv in Hd as (x & y & z & Hx & Hy & Hz & ->).
    cbn in Hx. rewrite Hv in Hx. destruct (const_isTrue CE); by simplify_eq. }
  match goal with |- context [if expr_eqb t f then Ok t else ?b] => set (branch := b) end.
  assert (implements checked (if expr_eqb t f then Ok t else branch) (getWidth f) (select_den c t f))
    as Hgen; [|destruct c; try exact Hgen; by apply HCE].
  destruct (expr_eqb t f) eqn:E.
  { destruct (expr_eqb_sound t f Ht Hf E) as [_ Heq]. apply implements_ok; [done..|].
    intros ρ v Hd. apply select_den_inv in Hd as (x & y & z & Hx & Hy & Hz & ->).
    rewrite Heq in Hy. destruct (x =? 1); congruence. }
  subst branch. destruct (getWidth f =? Bool_w) eqn:Eb; [|done]. tidy_bools. change Bool_w with 1 in *.
  assert (forall CE, t = Constant CE -> implements checked
    (if const_isTrue CE then BinaryExpr_create opt Or c f
     else let* nc := createIsZero opt c in BinaryExpr_create opt And nc f) (getWidth f)
    (select_den c t f)) as HT.
  { intros CE ->. pose proof (const_isTrue_value CE ltac:(cbn in Hw; lia)) as Hv. rewrite Eb.
    destruct (const_isTrue CE);
      [apply (select_connective_ok Or false)|apply (select_connective_ok And true)]; auto.
    all: intros ρ v Hd; apply select_den_inv in Hd as (x & y & z & Hx & Hy & Hz & ->);
      pose proof (denote_range checked c ρ x Hc Hx) as Rx; rewrite Hcw in Rx;
      pose proof (denote_range checked f ρ z Hf Hz) as Rz; rewrite Eb in Rz;
      cbn in Hy; rewrite Hv in Hy; simplify_eq; exists x, z; split_and!; [done..|];
      clear Hx Hz; bits1. }
  assert (forall CE, f = Constant CE -> implements checked
    (if const_isTrue CE then let* nc := createIsZero opt c in BinaryExpr_create opt Or nc t
     else BinaryExpr_create opt And c t) (getWidth f) (select_den c t f)) as HF.
  { intros CE ->. pose proof (const_isTrue_value CE ltac:(cbn in Eb; lia)) as Hv. rewrite Eb.
    destruct (const_isTrue CE);
      [apply (select_connective_ok Or true)|apply (select_connective_ok And false)]; auto; try lia.
    all: intros ρ v Hd; apply select_den_inv in Hd as (x & y & z & Hx & Hy & Hz & ->);
      pose proof (denote_range checked c ρ x Hc Hx) as Rx; rewrite Hcw in Rx;
      pose proof (denote_range checked t ρ y Ht Hy) as Rz; rewrite Hw, Eb in Rz;
      cbn in Hz; rewrite Hv in Hz; simplify_eq; exists x, y; split_and!; [done..|];
      clear Hx Hy; bits1. }
  destruct t; try (by apply HT); destruct f; first [by apply HF|exact Hdef].
Qed.

(** *** Read *)

Definition read_den (root : positive) (head : updates) (index : expr) (ρ : env) : option Z :=
  i ← denote checked ρ index; denote_updates checked ρ root head i.

(** What the scan of an update list may end with: a value written at the
    index, or a tail of the list that gives the same element. *)
Definition scan_spec (root : positive) (index : expr) (un : updates) (s : scan_result) : Prop :=
  match s with
  | Written v => wt v /\ getWidth v = range (arrayAt root) /\
      forall ρ y, read_den root un index ρ = Some y -> denote checked ρ v = Some y
  | Stopped un' sym => wt_updates root un' /\ (sym = false -> un' = UNil) /\
      forall ρ y, read_den root un index ρ = Some y -> read_den root un' index ρ = Some y
  end.

Lemma scan_updates_ok root index un :
  wt index -> getWidth index = domain (arrayAt root) -> wt_updates root un ->
  exists s, scan_updates opt index un = Ok s /\ scan_spec root index un s.
Proof.
  intros Hi Hiw. induction un as [|j v next IH]; intros Hwt; [by exists (Stopped UNil false)|].
  destruct Hwt as (Hj & Hv & Hjw & Hvw & Hn). cbn [scan_updates].
  destruct (BinaryExpr_create_ok opt checked Hopt Eq index j) as (e & -> & He & Hew & Hed);
    [done|done|by rewrite Hiw|by destruct index, j|]. cbn [res_bind].
  assert (exists s, Ok (Stopped (UNode j v next) true) = Ok s /\ scan_spec root index (UNode j v next) s)
    as Hdef by (by eexists).
  destruct e as [CE| | | | | | | |]; try exact Hdef. clear Hdef.
  assert (forall ρ y, read_den root (UNode j v next) index ρ = Some y ->
    (if const_isTrue CE then denote checked ρ v else read_den root next index ρ) = Some y) as Hstep.
  { intros ρ y Hd. unfold read_den in *. apply bind_Some in Hd as (i & Hi' & Hd).
    rewrite denote_updates_node in Hd. apply bind_Some in Hd as (j' & Hj' & Hd).
    assert (Some (uval CE) = Some (Z.b2z (i =? j'))) as HCE.
    { apply (Hed ρ). unfold bin_den. by rewrite Hi', Hj'. }
    pose proof (const_isTrue_value CE Hew) as Ht. rewrite Hi'. cbn [mbind option_bind].
    destruct (Z.eqb_spec i j') as [->|Hne].
    - rewrite Z.eqb_refl in Hd. destruct (const_isTrue CE); [done|]. cbn in HCE. congruence.
    - destruct (j' =? i) eqn:E; tidy_bools; [congruence|].
      destruct (const_isTrue CE); [|done]. cbn in HCE. congruence. }
  destruct (const_isTrue CE); [by eexists|].
  destruct (IH Hn) as (s & -> & Hs). exists s. split; [done|].
  destruct s; destruct_and! Hs; split_and!; auto.
Qed.

Lemma ReadExpr_create_ok root head index :
  wt (Read root head index) ->
  implements checked (ReadExpr_create opt root head index) (range (arrayAt root))
    (read_den root head index).
Proof.
  intros Hwt. pose proof Hwt as (Harr & Hu & Hi & Hiw). unfold ReadExpr_create.
  destruct (scan_updates_ok root index head) as (s & -> & Hs); [done..|]. cbn [res_bind].
  destruct s as [v|un sym].
  { destruct Hs as (Hv & Hvw & Hvd). by apply implements_ok. }
  destruct Hs as (Hun & Hsym & Hud).
  assert (implements checked (Ok (Read root head index)) (range (arrayAt root)) (read_den root head index))
    as Hdef by (by apply implements_ok).
  assert (implements checked (Ok (Read root un index)) (range (arrayAt root)) (read_den root head index))
    as Hshort by (apply implements_ok; [by cbn|done|exact Hud]).
  destruct index as [a| | | | | | | |]; try exact Hdef. cbn [concrete_index].
  cbn in Hi, Hiw. pose proof Harr as (_ & Hdom & _ & _ & Hcw & Hlen).
  unfold getZExtValue. replace (getBitWidth a <=? 64) with true by lia. cbn [res_assert res_bind].
  destruct (uval a <? size (arrayAt root)) eqn:Es; tidy_bools; [|by rewrite andb_false_r].
  rewrite andb_true_r.
  destruct (isConstantArray (arrayAt root) && negb sym) eqn:Ec; [|exact Hshort]. tidy_bools.
  pose proof (uval_range a Hi) as Ra.
  destruct (lookup_lt_is_Some_2 (constantValues (arrayAt root)) (Z.to_nat (uval a))) as [c Hc].
  { rewrite <- Hlen in Es; [lia|]. intros E. unfold isConstantArray, isSymbolicArray in *. by rewrite E in *. }
  rewrite Hc. apply implements_ok.
  - cbn. rewrite (Forall_lookup_1 _ _ _ _ Hcw Hc). by destruct Harr.
  - cbn. by apply (Forall_lookup_1 _ _ _ _ Hcw Hc).
  - intros ρ v Hd. apply Hud in Hd. rewrite Hsym in Hd by done.
    unfold read_den in Hd. cbn in Hd. unfold array_init in Hd.
    replace (0 <=? uval a) with true in Hd by lia. by rewrite Hc in Hd.
Qed.

(** *** Temporary reads *)

(** The first [n] bytes of an array, little-endian. *)
Fixpoint le_bytes (array : positive) (n : nat) (ρ : env) : option Z :=
  match n with
  | O => Some 0
  | S n' => hi ← array_init checked ρ array (Z.of_nat n'); lo ← le_bytes array n' ρ;
            Some (hi * 2 ^ (8 * Z.of_nat n') + lo)
  end.

Definition temp_den (array : positive) (w : Z) (ρ : env) : option Z :=
  if w =? Bool_w then b ← array_init checked ρ array 0; Some (wrap 1 b)
  else le_bytes array (Z.to_nat (w / 8)) ρ.

Section temp_read.
Context (array : positive) (Harr : wt_array (arrayAt array)).
Context (Hdom : domain (arrayAt array) = 32) (Hrng : range (arrayAt array) = 8).

Lemma byte_read_ok i :
  0 <= i < 8 ->
  implements checked (ReadExpr_create opt array UNil (const_alloc i 32)) 8
    (fun ρ => array_init checked ρ array i).
Proof.
  intros Hi. rewrite <- Hrng. eapply implements_weaken; [apply ReadExpr_create_ok|].
  - cbn. split_and!; [done..|by rewrite make_width|by rewrite make_width].
  - intros ρ v Hd. unfold read_den. rewrite denote_const_alloc by lia.
    cbn [mbind option_bind]. by rewrite wrap_small by lia.
Qed.

Lemma kids_bytes_den rs :
  (forall i r, rs !! i = Some r -> getWidth r = 8 /\
     forall ρ v, array_init checked ρ array (Z.of_nat i) = Some v -> denote checked ρ r = Some v) ->
  kids_width (rev rs) = 8 * Z.of_nat (length rs) /\
  forall ρ v, le_bytes array (length rs) ρ = Some v -> kids_den (rev rs) ρ = Some v.
Proof.
  induction rs as [|r rs IH] using rev_ind; intros Hrs; [done|].
  rewrite rev_app_distr, length_app. cbn [rev app length].
  destruct IH as [Hw Hd].
  { intros i r' Hi. apply Hrs. by apply lookup_app_l_Some. }
  destruct (Hrs (length rs) r) as [Hrw Hrd]; [by apply list_lookup_middle|].
  change (kids_width (r :: rev rs)) with (getWidth r + kids_width (rev rs)).
  split; [lia|]. intros ρ v Hv. rewrite Nat.add_1_r in Hv. cbn [le_bytes] in Hv.
  apply bind_Some in Hv as (hi & Hhi & Hv). apply bind_Some in Hv as (lo & Hlo & Hv).
  cbn [kids_den]. rewrite (Hrd ρ hi Hhi), (Hd ρ lo Hlo). cbn [mbind option_bind]. by rewrite Hw.
Qed.

(** Obtains the byte read at index [i]. *)
Ltac read_byte i r :=
  let E := fresh "Er" in
  destruct (byte_read_ok i) as (r & E & ? & ? & ?); [lia|rewrite E; clear E; cbn [res_bind]].

Lemma bytes_implements m w rs :
  w = 8 * Z.of_nat (length rs) ->
  (forall i r, rs !! i = Some r -> getWidth r = 8 /\
     forall ρ v, array_init checked ρ array (Z.of_nat i) = Some v -> denote checked ρ r = Some v) ->
  w <> 1 ->
  implements checked m (kids_width (rev rs)) (kids_den (rev rs)) ->
  implements checked m w (temp_den array w).
Proof.
  intros Hw Hrs H1 Hm. destruct (kids_bytes_den rs Hrs) as [Hkw Hkd].
  rewrite Hkw, <- Hw in Hm. eapply implements_weaken; [exact Hm|].
  intros ρ v Hv. apply Hkd. unfold temp_den in Hv. replace (w =? Bool_w) with false in Hv
    by (symmetry; by apply Z.eqb_neq).
  rewrite Hw, Z.mul_comm, Z.div_mul, Nat2Z.id in Hv by lia. done.
Qed.

(** Proves the specification of each byte of a list of reads. *)
Ltac bytes_spec :=
  let i := fresh "i" in let r := fresh "r" in
  intros i r; do 8 (destruct i as [|i]; [cbn; intros; simplify_eq; (split; [done|assumption])|]); done.

Lemma createTempRead_ok w :
  w ∈ [1; 8; 16; 32; 64] ->
  implements checked (createTempRead opt array w) w (temp_den array w).
Proof.
  intros Hw. unfold createTempRead. rewrite !elem_of_cons, elem_of_nil in Hw.
  destruct_or? Hw; subst;
    unfold Bool_w, Int8, Int16, Int32, Int64; cbv beta zeta; cbn [Z.eqb Pos.eqb].
  - read_byte 0 r0. eapply implements_weaken; [by apply (cast_create_ok ZExt)|].
    intros ρ v Hd. unfold temp_den in Hd. cbn [Z.eqb Pos.eqb] in Hd.
    apply bind_Some in Hd as (b & Hb & Hd). unfold cast_den. by erewrite H1.
  - read_byte 0 r0. apply (bytes_implements _ _ [r0]); [done|bytes_spec|done|by apply concat_single_ok].
  - read_byte 1 r1. read_byte 0 r0. apply (bytes_implements _ _ [r0; r1]); [done|bytes_spec|done|].
    apply (concat_cons_ok _ [r0] (Ok r0)); [done|]. by apply concat_single_ok.
  - read_byte 3 r3. read_byte 2 r2. read_byte 1 r1. read_byte 0 r0.
    apply (bytes_implements _ _ [r0; r1; r2; r3]); [done|bytes_spec|done|].
    by apply ConcatExpr_create4_ok.
  - read_byte 7 r7. read_byte 6 r6. read_byte 5 r5. read_byte 4 r4. read_byte 3 r3. read_byte 2 r2. read_byte 1 r1. read_byte 0 r0.
    apply (bytes_implements _ _ [r0; r1; r2; r3; r4; r5; r6; r7]); [done|bytes_spec|done|].
    apply ConcatExpr_create8_ok. by rewrite !Forall_cons_iff.
Qed.

End temp_read.

(** *** createFromKind *)

(** The calls of [createFromKind] that build an expression, with the width and
    the value of the result. *)
Inductive kind_spec : Kind -> list CreateArg -> Z -> (env -> option Z) -> Prop :=
| spec_NotOptimized e : wt e ->
    kind_spec KNotOptimized [ArgExpr e] (getWidth e) (fun ρ => denote checked ρ e)
| spec_Select c t f : wt c -> wt t -> wt f -> getWidth c = 1 -> getWidth t = getWidth f ->
    kind_spec KSelect [ArgExpr c; ArgExpr t; ArgExpr f] (getWidth t) (select_den c t f)
| spec_Concat l r : wt l -> wt r ->
    kind_spec KConcat [ArgExpr l; ArgExpr r] (getWidth l + getWidth r) (concat_den l r)
| spec_Cast k e w : wt e -> 0 < w ->
    kind_spec (KCast k) [ArgExpr e; ArgWidth w] w (cast_den k e w)
| spec_Binary k l r : wt l -> wt r -> getWidth l = getWidth r -> div_ok k l r ->
    kind_spec (KBinary k) [ArgExpr l; ArgExpr r] (bin_width k (getWidth l)) (bin_den checked k l r).

Lemma createFromKind_ok k args w d :
  kind_spec k args w d -> implements checked (createFromKind opt k args) w d.
Proof.
  destruct 1; cbn [createFromKind].
  - by apply implements_ok.
  - by apply SelectExpr_create_ok.
  - by apply ConcatExpr_create_ok.
  - destruct k; [by apply (cast_create_ok ZExt)|by apply (cast_create_ok SExt)].
  - by apply (BinaryExpr_create_ok opt checked Hopt).
Qed.

End correct.

Section theorems.
Context {A : APInt} {L : APIntLaws A} {AR : Arrays}.
Context (opt checked : bool).
Context (Hopt : opt = true -> checked = true).

(** [ExtractExpr::create] selects bits [off, off + w) of the value of its
    operand: it terminates within [extract_fuel] through every interplay with
    [ConcatExpr::create], fails no assertion, and keeps the value. *)
Theorem ExtractExpr_create_correct e off w :
  wt e -> 0 < w -> 0 <= off -> off + w <= getWidth e ->
  exists e', ExtractExpr_create e off w = Ok e' /\ wt e' /\ getWidth e' = w /\
    forall ρ v, denote checked ρ e = Some v ->
      denote checked ρ e' = Some ((v / 2 ^ off) mod 2 ^ w).
Proof.
  intros. destruct (ExtractExpr_create_ok checked e off w) as (e' & ? & ? & ? & Hd & _); [done..|].
  exists e'. split_and!; auto. intros ρ v Hv. apply Hd. unfold extract_den. by rewrite Hv.
Qed.

(** [ConcatExpr::createN] of any non-empty array of kids is the
    concatenation, the first kid in the most significant bits. *)
Theorem ConcatExpr_createN_correct kids :
  kids <> [] -> Forall wt kids ->
  exists e, ConcatExpr_createN kids = Ok e /\ wt e /\ getWidth e = kids_width kids /\
    forall ρ v, kids_den checked kids ρ = Some v -> denote checked ρ e = Some v.
Proof. apply ConcatExpr_createN_ok. Qed.

(** [SelectExpr::create] is the conditional expression, through its
    constant, equal-branch and Boolean rewrites. *)
Theorem SelectExpr_create_correct c t f :
  wt c -> wt t -> wt f -> getWidth c = 1 -> getWidth t = getWidth f ->
  exists e, SelectExpr_create opt c t f = Ok e /\ wt e /\ getWidth e = getWidth t /\
    forall ρ x y z, denote checked ρ c = Some x -> denote checked ρ t = Some y ->
      denote checked ρ f = Some z -> denote checked ρ e = Some (if x =? 1 then y else z).
Proof.
  intros. destruct (SelectExpr_create_ok opt checked Hopt c t f) as (e & ? & ? & ? & Hd); [done..|].
  exists e. split_and!; auto. intros ρ x y z Hx Hy Hz. apply Hd. unfold select_den.
  by rewrite Hx, Hy, Hz.
Qed.

(** C31. [ReadExpr::create] returns the element the update list stores at the
    index: rolling back over the writes at other constant indices, stopping at
    the first symbolic one, and folding reads of constant arrays keep the
    value, and no access to the array's constants is out of bounds. *)
Theorem ReadExpr_create_correct root head index :
  wt (Read root head index) ->
  exists e, ReadExpr_create opt root head index = Ok e /\ wt e /\
    getWidth e = range (arrayAt root) /\
    forall ρ i v, denote checked ρ index = Some i -> denote_updates checked ρ root head i = Some v ->
      denote checked ρ e = Some v.
Proof.
  intros H. destruct (ReadExpr_create_ok opt checked Hopt root head index H) as (e & ? & ? & ? & Hd).
  exists e. split_and!; auto. intros ρ i v Hi Hv. apply Hd. unfold read_den. by rewrite Hi.
Qed.

(** [Expr::createTempRead] of a supported width reads the array's first
    bytes in little-endian order (and bit 0 of byte 0 for [Bool]). *)
Theorem createTempRead_correct array w :
  wt_array (arrayAt array) -> domain (arrayAt array) = 32 -> range (arrayAt array) = 8 ->
  w ∈ [1; 8; 16; 32; 64] ->
  exists e, createTempRead opt array w = Ok e /\ wt e /\ getWidth e = w /\
    forall ρ v, temp_den checked array w ρ = Some v -> denote checked ρ e = Some v.
Proof. intros. by apply createTempRead_ok. Qed.

(** [Expr::createFromKind] dispatches every supported kind, with arguments
    of the right shape, to a constructor that implements it. *)
Theorem createFromKind_correct k args w d :
  kind_spec checked k args w d ->
  exists e, createFromKind opt k args = Ok e /\ wt e /\ getWidth e = w /\
    forall ρ v, d ρ = Some v -> denote checked ρ e = Some v.
Proof. by apply createFromKind_ok. Qed.

End theorems.

Section witnesses.
#[local] Existing Instance Examples.arrays.

Lemma ExtractExpr_create_correct_witness :
  exists e, ExtractExpr_create (Concat (Examples.a_at 1) (Examples.a_at 0)) 4 8 = Ok e /\
    denote true Examples.fives e = Some 80.
Proof.
  destruct (ExtractExpr_create_correct true (Concat (Examples.a_at 1) (Examples.a_at 0)) 4 8)
    as (e & He & _ & _ & Hd).
  - split; exact (Examples.wt_a_at _).
  - lia.
  - lia.
  - vm_compute. discriminate.
  - exists e. split; [exact He|].
    rewrite (Hd Examples.fives 1285); [vm_compute; reflexivity|vm_compute; reflexivity].
Defined.

Lemma ConcatExpr_createN_correct_witness :
  exists e, ConcatExpr_createN [Examples.a_at 2; Examples.a_at 1; Examples.a_at 0] = Ok e /\
    denote true Examples.fives e = Some 328965.
Proof.
  destruct (ConcatExpr_createN_correct true [Examples.a_at 2; Examples.a_at 1; Examples.a_at 0])
    as (e & He & _ & _ & Hd).
  - discriminate.
  - rewrite !Forall_cons_iff. split_and!; try exact (Examples.wt_a_at _). constructor.
  - exists e. split; [exact He|]. apply Hd. vm_compute. reflexivity.
Defined.

Lemma SelectExpr_create_correct_witness :
  exists e, SelectExpr_create true (Binary Ult (Examples.a_at 0) (Constant (Examples.byte 9)))
      (Examples.a_at 1) (Constant (Examples.byte 3)) = Ok e /\
    denote true Examples.fives e = Some 5.
Proof.
  destruct (SelectExpr_create_correct true true (fun H => H)
    (Binary Ult (Examples.a_at 0) (Constant (Examples.byte 9)))
    (Examples.a_at 1) (Constant (Examples.byte 3))) as (e & He & _ & _ & Hd).
  - split; [exact (Examples.wt_a_at 0)|cbn; lia].
  - exact (Examples.wt_a_at 1).
  - cbn. lia.
  - reflexivity.
  - reflexivity.
  - exists e. split; [exact He|]. apply (Hd Examples.fives 1 5 3); vm_compute; reflexivity.
Defined.

Lemma ReadExpr_create_correct_witness :
  exists e, ReadExpr_create true 2 (UNode (Constant (Examples.word 1)) (Examples.a_at 0) UNil)
      (Constant (Examples.word 0)) = Ok e /\
    denote true Examples.fives e = Some 7.
Proof.
  destruct (ReadExpr_create_correct true true (fun H => H) 2
    (UNode (Constant (Examples.word 1)) (Examples.a_at 0) UNil)
    (Constant (Examples.word 0))) as (e & He & _ & _ & Hd).
  - cbn [wt]. split; [exact Examples.wt_k|]. cbn. split_and!; try done; try lia.
  - exists e. split; [exact He|]. apply (Hd Examples.fives 0 7); vm_compute; reflexivity.
Defined.

Lemma createTempRead_correct_witness :
  exists e, createTempRead true 1 16 = Ok e /\ denote true Examples.fives e = Some 1285.
Proof.
  destruct (createTempRead_correct true true (fun H => H) 1 16) as (e & He & _ & _ & Hd).
  - exact Examples.wt_a.
  - reflexivity.
  - reflexivity.
  - apply (bool_decide_unpack _). vm_compute. exact I.
  - exists e. split; [exact He|]. apply (Hd Examples.fives). vm_compute. reflexivity.
Defined.

Lemma createFromKind_correct_witness :
  exists e, createFromKind true (KCast SExt) [ArgExpr (Examples.a_at 0); ArgWidth 16] = Ok e /\
    denote true Examples.fives e = Some 5.
Proof.
  destruct (createFromKind_correct true true (fun H => H) (KCast SExt)
    [ArgExpr (Examples.a_at 0); ArgWidth 16] 16 (cast_den true SExt (Examples.a_at 0) 16))
    as (e & He & _ & _ & Hd).
  - apply spec_Cast; [exact (Examples.wt_a_at 0)|lia].
  - exists e. split; [exact He|]. apply Hd. vm_compute. reflexivity.
Defined.

End witnesses.
