(* ===== verification/ExprVisitor.v ===== *)
(** The expression visitor of klee/lib/Expr/ExprVisitor.cpp and [rebuild] of
    klee/include/klee/Expr/Expr.h.

    A visitor class is a record of the virtual functions it overrides; [visit]
    threads the table [visited] of the visitor object through the traversal.
    The recursion is on fuel: [deep_size] of the expression, which counts the
    update lists too, is enough for a visitor that is not [recursive]
    ([visit_sound]).

    [visit_sound] is the induction over the traversal every semantics-
    preserving visitor shares: if the overridden functions are sound, so is
    [visit], whatever the table holds. *)
From Stdlib Require Import ZArith Lia Bool.
From stdpp Require Import base list numbers option.
From S2P Require Import Prelude APInt Expr ExprCreate ExprSem ExprCompare ExprCreateCorrect ExprFactory.
Open Scope Z_scope.

Section visitor.
Context {A : APInt} {AR : Arrays}.
Context (ConstArrayOpt : bool).
(** The command-line option [-use-visitor-hash]. *)
Context (UseVisitorHash : bool).

(** [e.rebuild(kids)]. *)
Definition rebuild (e : expr) (ks : list expr) : res expr :=
  match e, ks with
  | NotOptimized _, [k] => Ok (NotOptimizedExpr_create k)
  | Read root head _, [k] => ReadExpr_create ConstArrayOpt root head k
  | Select _ _ _, [c; t; f] => SelectExpr_create ConstArrayOpt c t f
  | Concat _ _, [l; r] => ConcatExpr_create l r
  | Extract _ off w, [k] => ExtractExpr_create k off w
  | Cast ZExt _ w, [k] => ZExtExpr_create k w
  | Cast SExt _ w, [k] => SExtExpr_create k w
  | Not _, [k] => Ok (NotExpr_create k)
  | Binary b _ _, [l; r] => BinaryExpr_create ConstArrayOpt b l r
  | _, _ => AssertFail
  end.

(** [ExprVisitor::Action]. *)
Inductive Action : Type :=
| SkipChildren
| DoChildren
| ChangeTo (argument : expr).

(** The table [visited]: an [unordered_map] whose keys are compared by
    [operator==]. *)
Definition visited_ty : Type := list (expr * expr).

Fixpoint visited_find (e : expr) (vs : visited_ty) : option expr :=
  match vs with
  | [] => None
  | (k, r) :: vs' => if expr_eqb k e then Some r else visited_find e vs'
  end.

(* insert: an existing entry stays *)
Definition visited_insert (e r : expr) (vs : visited_ty) : visited_ty :=
  match visited_find e vs with Some _ => vs | None => (e, r) :: vs end.

(** The fields the class of the visitor adds, and programs over the visitor
    object. *)
Context {X : Type}.
Definition visits (T : Type) : Type := state (visited_ty * X) T.

(** The virtual functions.  [visitKind visit e] is the one [visitActual]
    dispatches to on the kind of [e]; it may visit other expressions. *)
Record ExprVisitor : Type := {
  recursive : bool;
  visitExpr : expr -> res Action;
  visitExprPost : expr -> res Action;
  visitKind : (expr -> visits expr) -> expr -> visits Action;
}.

(** The functions of the base class. *)
Definition base_visitExpr (e : expr) : res Action := Ok DoChildren.
Definition base_visitExprPost (e : expr) : res Action := Ok SkipChildren.
Definition base_visitKind (visit : expr -> visits expr) (e : expr) : visits Action := sret DoChildren.

Section visit.
Variable V : ExprVisitor.

(* the loop over the kids *)
Fixpoint visit_kids (visit : expr -> visits expr) (es : list expr) : visits (list expr) :=
  match es with
  | [] => sret []
  | e :: es' => sbind (visit e) (fun k => sbind (visit_kids visit es') (fun ks => sret (k :: ks)))
  end.

(* some visited kid differs from the kid *)
Definition kids_changed (e : expr) (ks : list expr) : bool :=
  negb (forallb (fun p => expr_eqb (fst p) (snd p)) (combine ks (kids e))).

(* visitExprPost on a result that is no constant *)
Definition visit_post (e : expr) : visits expr :=
  if isConstant e then sret e
  else sbind (slift (visitExprPost V e)) (fun res =>
    match res with ChangeTo r => sret r | _ => sret e end).

(* case Action::DoChildren of visitActual *)
Definition visit_children (visit : expr -> visits expr) (e : expr) : visits expr :=
  sbind (visit_kids visit (kids e)) (fun ks =>
  sbind (if kids_changed e ks
         then sbind (slift (rebuild e ks)) (fun e' => if recursive V then visit e' else sret e')
         else sret e)
    visit_post).

Definition visitActual (visit : expr -> visits expr) (e : expr) : visits expr :=
  if isConstant e then sret e
  else sbind (slift (visitExpr V e)) (fun res =>
    match res with
    | SkipChildren => sret e
    | ChangeTo r => sret r
    | DoChildren =>
        sbind (visitKind V visit e) (fun res =>
        match res with
        | DoChildren => visit_children visit e
        | SkipChildren => sret e
        | ChangeTo r => sret r
        end)
    end).

Fixpoint visit (fuel : nat) (e : expr) : visits expr :=
  match fuel with
  | O => fun _ => OutOfFuel
  | S fuel' =>
      if negb UseVisitorHash || isConstant e then visitActual (visit fuel') e
      else fun s =>
        match visited_find e (fst s) with
        | Some r => Ok (r, s)
        | None => sbind (visitActual (visit fuel') e)
                    (fun r s' => Ok (r, (visited_insert e r (fst s'), snd s'))) s
        end
  end.
End visit.

(** The number of constructors, update lists included. *)
Fixpoint deep_size (e : expr) : nat :=
  match e with
  | Constant _ => 1
  | NotOptimized s => S (deep_size s)
  | Read _ u i => S (deep_size_updates u + deep_size i)
  | Select c t f => S (deep_size c + deep_size t + deep_size f)
  | Concat l r => S (deep_size l + deep_size r)
  | Extract e _ _ => S (deep_size e)
  | Cast _ s _ => S (deep_size s)
  | Not e => S (deep_size e)
  | Binary _ l r => S (deep_size l + deep_size r)
  end
with deep_size_updates (u : updates) : nat :=
  match u with
  | UNil => 0
  | UNode i v n => S (deep_size i + deep_size v + deep_size_updates n)
  end.

End visitor.

Lemma kids_smaller `{A : APInt} e k : k ∈ kids e -> (deep_size k < deep_size e)%nat.
Proof. destruct e; cbn; rewrite ?elem_of_cons, ?elem_of_nil; intros; destruct_or?; subst; try done; lia. Qed.

Section sound.
Context {A : APInt} {L : APIntLaws A} {AR : Arrays}.
Context (opt checked : bool).
Context (Hopt : opt = true -> checked = true).
Context (hash : bool).

(** ** Rebuilding an expression from equivalent children *)

(** In the environment [ρ] the expression [r] stands for [e]. *)
Definition stands_for (ρ : env) (e r : expr) : Prop :=
  wt r /\ getWidth r = getWidth e /\
  forall v, denote checked ρ e = Some v -> denote checked ρ r = Some v.

Lemma stands_for_refl ρ e : wt e -> stands_for ρ e e.
Proof. by intros He. Qed.

Lemma stands_for_trans ρ a b c : stands_for ρ a b -> stands_for ρ b c -> stands_for ρ a c.
Proof. intros (? & ? & ?) (? & ? & ?). split; [done|split; [congruence|auto]]. Qed.

Lemma stands_for_eqb ρ e k : wt e -> wt k -> expr_eqb k e = true -> stands_for ρ e k.
Proof.
  intros He Hk H. destruct (expr_eqb_sound k e Hk He H) as [Hw Hd].
  split; [done|split; [done|]]. by rewrite Hd.
Qed.

Lemma implements_stands_for ρ m e d :
  implements checked m (getWidth e) d -> (forall v, denote checked ρ e = Some v -> d ρ = Some v) ->
  exists r, m = Ok r /\ stands_for ρ e r.
Proof. intros (r & -> & Hr & Hw & Hd) H. exists r. split; [done|split; auto]. Qed.

(** A defined expression has defined children. *)
Lemma kids_defined ρ e : is_Some (denote checked ρ e) -> Forall (fun k => is_Some (denote checked ρ k)) (kids e).
Proof.
  intros [v H]. destruct e; cbn [kids denote] in *;
    repeat match goal with
    | H : match ?k with _ => _ end = Some _ |- _ => is_var k; destruct k
    | H : _ ≫= _ = Some _ |- _ => apply bind_Some in H as (? & ? & H)
    end; rewrite ?Forall_cons_iff; split_and?; try done; by eexists.
Qed.

Lemma kids_wt e : wt e -> Forall wt (kids e).
Proof. destruct e; cbn; intros H; repeat first [apply Forall_nil_2 | apply Forall_cons_2]; tauto. Qed.

Lemma bin_sem_div k w x : is_div k = true -> bin_sem k w x 0 = None.
Proof. destruct k; intros H; (discriminate H || done). Qed.

Lemma rebuild_sound ρ e ks :
  wt e -> is_Some (denote checked ρ e) -> isConstant e = false ->
  Forall2 (stands_for ρ) (kids e) ks ->
  exists r, rebuild opt e ks = Ok r /\ stands_for ρ e r.
Proof.
  intros He [v Hv] HC Hks.
  destruct e; cbn [kids] in Hks; try done;
    repeat match goal with
    | H : Forall2 _ (_ :: _) _ |- _ => apply Forall2_cons_inv_l in H as (? & ? & (? & ? & ?) & H & ->)
    | H : Forall2 _ [] _ |- _ => apply Forall2_nil_inv_l in H as ->
    end; cbn in He; cbn [rebuild].
  - eexists. split; [done|]. by split.
  - destruct_and!. apply (implements_stands_for ρ _ (Read root head e)
      (read_den checked root head x)).
    + apply (ReadExpr_create_ok opt checked Hopt). cbn. split_and!; auto; congruence.
    + intros w Hw. unfold read_den. cbn in Hw. apply bind_Some in Hw as (i & Hi & Hw).
      rewrite (H1 i Hi). done.
  - destruct_and!. apply (implements_stands_for ρ _ (Select e1 e2 e3) (select_den checked x x1 x0)).
    + cbn. rewrite <- H3. apply (SelectExpr_create_ok opt checked Hopt); auto; congruence.
    + intros w Hw. cbn in Hw. unfold select_den. apply bind_Some in Hw as (a & Ha & Hw).
      apply bind_Some in Hw as (b & Hb & Hw). apply bind_Some in Hw as (c & Hc & Hw).
      by rewrite (H1 a), (H4 b), (H7 c).
  - destruct_and!. apply (implements_stands_for ρ _ (Concat e1 e2) (concat_den checked x x1)).
    + cbn. rewrite <- H0, <- H3. by apply ConcatExpr_create_ok.
    + intros w Hw. cbn in Hw. unfold concat_den. apply bind_Some in Hw as (a & Ha & Hw).
      apply bind_Some in Hw as (b & Hb & Hw). by rewrite (H1 a), (H4 b), H3.
  - destruct_and!. apply (implements_stands_for ρ _ (Extract e offset width) (extract_den checked x offset width)).
    + cbn. eapply implements_of_ext, ExtractExpr_create_ok; [done..|lia].
    + intros w Hw. cbn in Hw. unfold extract_den. apply bind_Some in Hw as (a & Ha & Hw).
      by rewrite (H1 a).
  - destruct_and!. pose proof (wt_width_pos _ H2).
    destruct (implements_stands_for ρ
      (match k with ZExt => ZExtExpr_create x width | SExt => SExtExpr_create x width end)
      (Cast k e width) (cast_den checked k x width)) as (r & Hr & HS).
    + cbn. apply cast_create_ok; [done|lia].
    + intros w Hw. unfold cast_den. cbn in Hw. destruct k.
      * rewrite (H1 w Hw). cbn. pose proof (denote_range checked e ρ w H2 Hw).
        assert (2 ^ getWidth e <= 2 ^ width) by (apply Z.pow_le_mono_r; lia).
        by rewrite wrap_small by lia.
      * apply bind_Some in Hw as (a & Ha & Hw). by rewrite (H1 a), H0.
    + exists r. split; [|done]. by destruct k.
  - apply (implements_stands_for ρ _ (Not e) (fun ρ => v ← denote checked ρ x; Some (wrap (getWidth x) (Z.lnot v)))).
    + cbn. rewrite <- H0. by apply NotExpr_create_ok.
    + intros w Hw. cbn in Hw. apply bind_Some in Hw as (a & Ha & Hw). by rewrite (H1 a), H0.
  - destruct_and!. cbn [denote] in Hv. apply bind_Some in Hv as (a & Ha & Hv).
    apply bind_Some in Hv as (b & Hb & Hv).
    apply (implements_stands_for ρ _ (Binary k e1 e2) (bin_den checked k x x1)).
    + cbn. replace (if is_cmp k then Bool_w else getWidth e1) with (bin_width k (getWidth x))
        by (unfold bin_width; by rewrite H0).
      apply (BinaryExpr_create_ok opt checked Hopt); [done|done|congruence|].
      unfold div_ok. destruct x, x1; try done. intros Hk Hz.
      pose proof (H4 b Hb) as E. cbn in E. simplify_eq. rewrite Hz in Hv.
      rewrite bin_sem_div in Hv by done. discriminate.
    + intros w Hw. unfold bin_den. cbn in Hw. apply bind_Some in Hw as (a' & Ha' & Hw).
      apply bind_Some in Hw as (b' & Hb' & Hw). by rewrite (H1 a'), (H4 b'), H0.
Qed.

(** ** Soundness of a traversal

    [visited_ok] is the invariant of the table, [sholds visited_ok m Q] total
    correctness of a program over the visitor. *)
Section traversal.
Context {X : Type}.
Variable ρ : env.
(** What the visitor asks of its inputs, and adds to its results. *)
Variables P C : expr -> Prop.

Definition visitable (e : expr) : Prop := wt e /\ is_Some (denote checked ρ e) /\ P e.
Definition result_of (e r : expr) : Prop := stands_for ρ e r /\ C r.

Definition visited_ok (s : visited_ty * X) : Prop :=
  Forall (fun p => visitable (fst p) /\ result_of (fst p) (snd p)) (fst s).

Notation vholds := (sholds visited_ok).

Lemma visited_find_ok e s r :
  wt e -> visited_ok s -> visited_find e (fst s) = Some r -> result_of e r.
Proof.
  intros He. destruct s as [vs x]. unfold visited_ok. cbn.
  induction vs as [|[k r'] vs IH]; intros Hvs Hf; [done|].
  apply Forall_cons_iff in Hvs as [[(Hk & _) [Hs HC]] Hvs]. cbn in *.
  destruct (expr_eqb k e) eqn:E; [|by apply IH]. injection Hf as <-.
  split; [|done]. eapply stands_for_trans; [by apply stands_for_eqb|done].
Qed.

Lemma visited_insert_ok e r s :
  visitable e -> result_of e r -> visited_ok s -> visited_ok (visited_insert e r (fst s), snd s).
Proof.
  intros. unfold visited_ok, visited_insert. cbn. destruct (visited_find e (fst s)); [done|]. by constructor.
Qed.

(** The answer of a virtual function is sound for [e]. *)
Definition answers (e : expr) (a : Action) : Prop :=
  match a with
  | SkipChildren => C e
  | DoChildren => True
  | ChangeTo r => result_of e r
  end.

(** What the overridden functions of a visitor owe to [visit].  [K e] is what
    is known of [e] when its children are visited. *)
Record SoundVisitor (V : ExprVisitor (X:=X)) (K : expr -> Prop) : Prop := {
  sound_not_recursive : recursive V = false;
  sound_constant v : C (Constant v);
  sound_kids e : visitable e -> Forall P (kids e);
  sound_visitExpr e :
    visitable e -> isConstant e = false ->
    exists a, visitExpr V e = Ok a /\ answers e a;
  sound_visitKind visit e :
    visitable e -> isConstant e = false -> visitExpr V e = Ok DoChildren ->
    (forall e', (deep_size e' < deep_size e)%nat -> visitable e' -> vholds (visit e') (result_of e')) ->
    vholds (visitKind V visit e) (fun a => answers e a /\ (a = DoChildren -> K e));
  sound_post e ks e' :
    visitable e -> isConstant e = false -> K e -> Forall2 result_of (kids e) ks ->
    (if kids_changed e ks then rebuild opt e ks = Ok e' else e' = e) ->
    stands_for ρ e e' -> isConstant e' = false ->
    exists a, visitExprPost V e' = Ok a /\ result_of e (match a with ChangeTo r => r | _ => e' end);
}.

Context (V : ExprVisitor (X:=X)) (K : expr -> Prop) (SV : SoundVisitor V K).

Lemma visit_kids_ok visit es :
  Forall (fun e => vholds (visit e) (result_of e)) es ->
  vholds (visit_kids visit es) (Forall2 result_of es).
Proof.
  induction 1 as [|e es He Hes IH]; [by apply sholds_ret|].
  cbn [visit_kids]. eapply sholds_bind; [done|]. intros r Hr.
  eapply sholds_bind; [done|]. intros rs Hrs. apply sholds_ret. by constructor.
Qed.

Lemma visit_children_ok visit e :
  visitable e -> isConstant e = false -> K e ->
  Forall (fun e => vholds (visit e) (result_of e)) (kids e) ->
  vholds (visit_children opt V visit e) (result_of e).
Proof.
  intros He HC HK Hkids. unfold visit_children.
  eapply sholds_bind; [by apply visit_kids_ok|]. intros ks Hks.
  pose proof He as (Hwt & Hd & _).
  destruct (rebuild_sound ρ e ks) as (e' & Hr & Hs); [done..| |].
  { eapply Forall2_impl; [|exact Hks]. by intros ? ? [? _]. }
  eapply (sholds_bind _ _ (fun r => stands_for ρ e r /\
    if kids_changed e ks then rebuild opt e ks = Ok r else r = e)).
  - destruct (kids_changed e ks).
    + eapply sholds_bind; [apply (sholds_lift _ (fun r => r = e')); by exists e'|].
      intros r ->. rewrite (sound_not_recursive _ _ SV). by apply sholds_ret.
    + apply sholds_ret. split; [by apply stands_for_refl|done].
  - intros r [Hsr Hif]. unfold visit_post. destruct (isConstant r) eqn:Er.
    + apply sholds_ret. split; [done|]. destruct r; try done. apply (sound_constant _ _ SV).
    + eapply sholds_bind; [apply (sholds_lift _ (fun a => result_of e match a with ChangeTo r' => r' | _ => r end))|].
      * by apply (sound_post _ _ SV e ks).
      * intros a Ha. destruct a; by apply sholds_ret.
Qed.

Lemma visitActual_ok visit e :
  visitable e ->
  (forall e', (deep_size e' < deep_size e)%nat -> visitable e' -> vholds (visit e') (result_of e')) ->
  vholds (visitActual opt V visit e) (result_of e).
Proof.
  intros He IH. pose proof He as (Hwt & Hd & _). unfold visitActual.
  assert (C e -> result_of e e) as Hself by (intros; split; [by apply stands_for_refl|done]).
  destruct (isConstant e) eqn:HC.
  { apply sholds_ret. destruct e; try done. apply Hself, (sound_constant _ _ SV). }
  destruct (sound_visitExpr _ _ SV e He HC) as (a & Ha & Hans).
  eapply sholds_bind; [apply (sholds_lift _ (fun b => b = a)); by exists a|]. intros ? ->.
  destruct a as [| |r]; [apply sholds_ret; auto| |by apply sholds_ret].
  eapply sholds_bind; [by apply (sound_visitKind _ _ SV)|].
  intros [| |r] [Hb HK]; [apply sholds_ret; auto| |by apply sholds_ret].
  apply visit_children_ok; auto. apply Forall_forall. intros k Hk. apply IH; [by apply kids_smaller, list_elem_of_In|].
  pose proof (kids_wt _ Hwt) as Hkw. pose proof (kids_defined ρ e Hd) as Hkd.
  pose proof (sound_kids _ _ SV e He) as HkP.
  rewrite Forall_forall in Hkw, Hkd, HkP. split; auto.
Qed.

Lemma visit_ok fuel e :
  (deep_size e < fuel)%nat -> visitable e ->
  vholds (visit opt hash V fuel e) (result_of e).
Proof.
  revert e. induction fuel as [|fuel IH]; intros e Hf He; [lia|]. cbn [visit].
  assert (vholds (visitActual opt V (visit opt hash V fuel) e) (result_of e)) as HA.
  { apply visitActual_ok; [done|]. intros. apply IH; [lia|done]. }
  destruct (negb hash || isConstant e); [done|]. intros vs Hvs.
  destruct (visited_find e (fst vs)) as [r|] eqn:E.
  - exists r, vs. split_and!; [done|done|]. eapply visited_find_ok; [apply He|done..].
  - destruct (HA vs Hvs) as (r & vs' & Hr & Hvs' & HR). unfold sbind. rewrite Hr. cbn.
    exists r, (visited_insert e r (fst vs'), snd vs'). split_and!; [done| |done]. by apply visited_insert_ok.
Qed.

End traversal.
End sound.
