(* ===== verification/ExprReads.v ===== *)
(** The bytes an expression reads.

    [within P ρ e] says that every read in [e], those in update lists
    included, is of a byte [P] accepts, with the indices evaluated in [ρ].  It
    states bounds ([in_bounds]), frames ([within_frame]: the value of an
    expression depends on the bytes it reads only) and, in [ExprEval.v], which
    initial values an evaluation needs. *)
From Stdlib Require Import ZArith Lia Bool.
From stdpp Require Import base list numbers option.
From S2P Require Import Prelude APInt Expr ExprSem ExprCompare.
Open Scope Z_scope.

Section within.
Context {A : APInt} {AR : Arrays}.
Context (checked : bool).

Section def.
Context (P : positive -> Z -> Prop) (ρ : env).

Fixpoint within (e : expr) : Prop :=
  match e with
  | Constant _ => True
  | NotOptimized s => within s
  | Read root u i =>
      within_updates u /\ within i /\ forall v, denote checked ρ i = Some v -> P root v
  | Select c t f => within c /\ within t /\ within f
  | Concat l r => within l /\ within r
  | Extract e _ _ => within e
  | Cast _ s _ => within s
  | Not e => within e
  | Binary _ l r => within l /\ within r
  end
with within_updates (u : updates) : Prop :=
  match u with
  | UNil => True
  | UNode i v n => within i /\ within v /\ within_updates n
  end.
End def.

(** Every read of the expression, whatever its index. *)
Section all.
Context (Q : positive -> updates -> expr -> Prop).

Fixpoint all_reads (e : expr) : Prop :=
  match e with
  | Constant _ => True
  | NotOptimized s => all_reads s
  | Read root u i => all_reads_updates u /\ all_reads i /\ Q root u i
  | Select c t f => all_reads c /\ all_reads t /\ all_reads f
  | Concat l r => all_reads l /\ all_reads r
  | Extract e _ _ => all_reads e
  | Cast _ s _ => all_reads s
  | Not e => all_reads e
  | Binary _ l r => all_reads l /\ all_reads r
  end
with all_reads_updates (u : updates) : Prop :=
  match u with
  | UNil => True
  | UNode i v n => all_reads i /\ all_reads v /\ all_reads_updates n
  end.
End all.

(** Every read is inside its array, whatever the bytes. *)
Definition in_array (root : positive) (i : Z) : Prop := 0 <= i < size (arrayAt root).
Definition in_bounds (e : expr) : Prop := forall ρ, within in_array ρ e.

(** A read that can see a byte or a write: not one of a constant array that
    was never written. *)
Definition sees (root : positive) (u : updates) : bool :=
  negb (isConstantArray (arrayAt root) && match u with UNil => true | _ => false end).

Fixpoint has_reads (e : expr) : bool :=
  match e with
  | Constant _ => false
  | NotOptimized s => has_reads s
  | Read root u i => sees root u || has_reads_updates u || has_reads i
  | Select c t f => has_reads c || has_reads t || has_reads f
  | Concat l r => has_reads l || has_reads r
  | Extract e _ _ => has_reads e
  | Cast _ s _ => has_reads s
  | Not e => has_reads e
  | Binary _ l r => has_reads l || has_reads r
  end
with has_reads_updates (u : updates) : bool :=
  match u with
  | UNil => false
  | UNode i v n => has_reads i || has_reads v || has_reads_updates n
  end.

(** An expression without such a read is a constant, and so are the operands
    the constructors take out of it. *)
Fixpoint grounded (e : expr) : bool :=
  (isConstant e || has_reads e) &&
  match e with
  | Binary _ l r => grounded l && grounded r
  | Cast _ s _ => grounded s
  | Read _ _ i => grounded i
  | _ => true
  end.

End within.

Section laws.
Context {A : APInt} {L : APIntLaws A} {AR : Arrays}.
Context (checked : bool).

Lemma within_Read P ρ root u i :
  within checked P ρ (Read root u i) =
    (within_updates checked P ρ u /\ within checked P ρ i /\ forall v, denote checked ρ i = Some v -> P root v).
Proof. done. Qed.

Lemma within_UNode P ρ i v n :
  within_updates checked P ρ (UNode i v n) =
    (within checked P ρ i /\ within checked P ρ v /\ within_updates checked P ρ n).
Proof. done. Qed.

Ltac open_within :=
  rewrite ?within_Read, ?within_UNode in *; cbn [within] in *; destruct_and?.

Lemma within_weaken_both (P Q : positive -> Z -> Prop) ρ :
  (forall root i, P root i -> Q root i) ->
  (forall e, within checked P ρ e -> within checked Q ρ e) /\
  (forall u, within_updates checked P ρ u -> within_updates checked Q ρ u).
Proof.
  intros H. apply expr_updates_ind; intros; open_within; split_and?; eauto.
Qed.

Lemma within_weaken (P Q : positive -> Z -> Prop) ρ e :
  (forall root i, P root i -> Q root i) -> within checked P ρ e -> within checked Q ρ e.
Proof. intros H. by apply within_weaken_both. Qed.

Lemma within_all_both ρ :
  (forall e, within checked (fun _ _ => True) ρ e) /\ (forall u, within_updates checked (fun _ _ => True) ρ u).
Proof. apply expr_updates_ind; intros; open_within; split_and?; auto; done. Qed.

Lemma within_and_both (P Q : positive -> Z -> Prop) ρ :
  (forall e, within checked P ρ e -> within checked Q ρ e -> within checked (fun r i => P r i /\ Q r i) ρ e) /\
  (forall u, within_updates checked P ρ u -> within_updates checked Q ρ u ->
     within_updates checked (fun r i => P r i /\ Q r i) ρ u).
Proof. apply expr_updates_ind; intros; open_within; split_and?; eauto. Qed.

(** The frame of an expression. *)
Lemma within_frame_both ρ ρ' :
  let agree root i := array_init checked ρ root i = array_init checked ρ' root i in
  (forall e, within checked agree ρ e -> denote checked ρ e = denote checked ρ' e) /\
  (forall u, within_updates checked agree ρ u -> forall root i, agree root i ->
     denote_updates checked ρ root u i = denote_updates checked ρ' root u i).
Proof.
  intros agree. apply expr_updates_ind; intros; open_within.
  - done.
  - cbn. auto.
  - cbn [denote]. rewrite <- H0 by done. destruct (denote checked ρ index) as [i|] eqn:E; [|done].
    cbn [mbind option_bind]. auto.
  - cbn [denote]. by rewrite H, H0, H1 by done.
  - cbn [denote]. by rewrite H, H0 by done.
  - cbn [denote]. by rewrite H by done.
  - cbn [denote]. by rewrite H by done.
  - cbn [denote]. by rewrite H by done.
  - cbn [denote]. by rewrite H, H0 by done.
  - done.
  - rewrite !denote_updates_node, H by done. apply option_bind_ext_fun. intros j.
    destruct (j =? i); auto.
Qed.

Lemma within_frame ρ ρ' e :
  within checked (fun root i => array_init checked ρ root i = array_init checked ρ' root i) ρ e ->
  denote checked ρ e = denote checked ρ' e.
Proof. apply (within_frame_both ρ ρ'). Qed.

Lemma all_reads_Read Q root u i :
  all_reads Q (Read root u i) = (all_reads_updates Q u /\ all_reads Q i /\ Q root u i).
Proof. done. Qed.

Lemma all_reads_UNode Q i v n :
  all_reads_updates Q (UNode i v n) = (all_reads Q i /\ all_reads Q v /\ all_reads_updates Q n).
Proof. done. Qed.

Lemma all_reads_within_both Q P ρ :
  (forall root u i v, Q root u i -> denote checked ρ i = Some v -> P root v) ->
  (forall e, all_reads Q e -> within checked P ρ e) /\
  (forall u, all_reads_updates Q u -> within_updates checked P ρ u).
Proof.
  intros H. apply expr_updates_ind; intros; rewrite ?all_reads_Read, ?all_reads_UNode in *; cbn [all_reads] in *;
    rewrite ?within_Read, ?within_UNode; cbn [within]; destruct_and?; split_and?; eauto.
Qed.

Lemma all_reads_within Q P ρ e :
  (forall root u i v, Q root u i -> denote checked ρ i = Some v -> P root v) ->
  all_reads Q e -> within checked P ρ e.
Proof. intros H. by apply (all_reads_within_both Q P ρ). Qed.

(** The expressions a node is made of, those of its update list included. *)
Fixpoint update_exprs (u : updates) : list expr :=
  match u with UNil => [] | UNode i v n => i :: v :: update_exprs n end.

Definition children (e : expr) : list expr :=
  match e with Read _ u i => i :: update_exprs u | _ => kids e end.

Lemma all_reads_updates_exprs Q u : Forall (all_reads Q) (update_exprs u) -> all_reads_updates Q u.
Proof.
  induction u as [|i v n IH]; intros H; [done|]. cbn [update_exprs] in H.
  apply Forall_cons_iff in H as [Hi H]. apply Forall_cons_iff in H as [Hv H].
  rewrite all_reads_UNode. auto.
Qed.

Lemma all_reads_children Q e :
  Forall (all_reads Q) (children e) -> (forall root u i, e = Read root u i -> Q root u i) -> all_reads Q e.
Proof.
  intros H HQ. destruct e; cbn [children kids] in H; rewrite ?Forall_cons_iff in H; rewrite ?all_reads_Read;
    cbn [all_reads]; destruct_and?; split_and?; auto; try done. by apply all_reads_updates_exprs.
Qed.

Lemma no_sees_no_reads_both :
  (forall e, all_reads (fun root u _ => sees root u = false) e -> has_reads e = false) /\
  (forall u, all_reads_updates (fun root u _ => sees root u = false) u -> has_reads_updates u = false).
Proof.
  apply expr_updates_ind; intros; rewrite ?all_reads_Read, ?all_reads_UNode in *; cbn [all_reads] in *;
    cbn [has_reads has_reads_updates]; destruct_and?; rewrite ?orb_false_iff; split_and?; auto.
Qed.

End laws.
