(* ===== verification/ExprEval.v ===== *)
(** Evaluation of expressions: [ExprEvaluator] (klee/lib/Expr/ExprEvaluator.cpp)
    and [Assignment] (klee/lib/Expr/Assignment.cpp and
    klee/include/klee/Expr/Assignment.h).

    [ExprEvaluator] is the visitor of [ExprVisitor.v] whose [visitExpr],
    [visitRead], divisions and [visitExprPost] are overridden;
    [getInitialValue], virtual in the source, is an argument, which
    [AssignmentEvaluator] instantiates by [Assignment::evaluate(array, index)].
    The [std::map] of bindings is the list of its entries in the order of the
    array addresses.

    Evaluation is total and exact on defined expressions, when no child of a
    [NotOptimizedExpr] is a constant ([foldable]; [notoptimized_constant_stays]
    shows what happens otherwise) and array indices fit [unsigned], to which
    [visitRead] converts them ([small_domains]). *)
From Stdlib Require Import ZArith Lia Bool.
From stdpp Require Import base list numbers option.
From S2P Require Import Prelude APInt Expr ExprCreate ExprSem ExprCompare ExprCreateCorrect ExprFactory ExprVisitor ExprReads.
Open Scope Z_scope.

Section evaluator.
Context {A : APInt} {AR : Arrays}.
Context (ConstArrayOpt : bool).

(** The evaluator has no fields of its own. *)
Notation evals := (visits (X:=unit)).

Section virtual.
Variable getInitialValue : positive -> Z -> res expr.
Variable visit : expr -> evals expr.

Definition changeTo (m : evals expr) : evals Action := sbind m (fun r => sret (ChangeTo r)).

Fixpoint evalRead (root : positive) (un : updates) (index : Z) : evals Action :=
  match un with
  | UNode i v next =>
      sbind (visit i) (fun ui =>
      match ui with
      | Constant CE =>
          sbind (slift (getZExtValue CE 64)) (fun c =>
          if c =? index then changeTo (visit v) else evalRead root next index)
      | _ => (* update index is unknown: rewrite to a read at this version *)
          changeTo (slift (ReadExpr_create ConstArrayOpt root un
            (const_alloc index (domain (arrayAt root)))))
      end)
  | UNil =>
      if isConstantArray (arrayAt root) && (index <? size (arrayAt root)) then
        match constantValues (arrayAt root) !! Z.to_nat index with
        | Some c => sret (ChangeTo (Constant c))
        | None => slift AssertFail
        end
      else changeTo (slift (getInitialValue root index))
  end.

Definition eval_visitExpr (e : expr) : res Action :=
  match e with
  | Read _ _ _ => Ok DoChildren
  | _ =>
      if Nat.eqb (getNumKids e) 0 || negb (forallb isConstant (kids e)) then Ok DoChildren
      else let* r := rebuild ConstArrayOpt e (kids e) in Ok (ChangeTo r)
  end.

(* the index is passed on as an unsigned *)
Definition visitRead (root : positive) (head : updates) (index : expr) : evals Action :=
  sbind (visit index) (fun v =>
  match v with
  | Constant CE =>
      sbind (slift (getZExtValue CE 64)) (fun i => evalRead root head (wrap 32 i))
  | _ => sret DoChildren
  end).

Definition protectedDivOperation (e left right : expr) : evals Action :=
  sbind (visit left) (fun k0 =>
  sbind (visit right) (fun k1 =>
  let k1 := match k1 with Constant CE => if const_isZero CE then right else k1 | _ => k1 end in
  if negb (expr_eqb k0 left) || negb (expr_eqb k1 right)
  then changeTo (slift (rebuild ConstArrayOpt e [k0; k1]))
  else sret SkipChildren)).

Definition eval_visitKind (e : expr) : evals Action :=
  match e with
  | Read root head index => visitRead root head index
  | Binary (UDiv | SDiv | URem | SRem) l r => protectedDivOperation e l r
  | _ => sret DoChildren
  end.

Definition eval_visitExprPost (e : expr) : res Action :=
  match e with NotOptimized src => Ok (ChangeTo src) | _ => Ok SkipChildren end.
End virtual.

Definition ExprEvaluator (getInitialValue : positive -> Z -> res expr) : ExprVisitor (X:=unit) := {|
  recursive := false;
  visitExpr := eval_visitExpr;
  visitExprPost := eval_visitExprPost;
  visitKind := eval_visitKind getInitialValue;
|}.

(** ** Assignments *)

Definition bindings_ty : Type := list (positive * list Z).

Record Assignment : Type := {
  allowFreeValues : bool;
  bindings : bindings_ty;
}.

(* std::map::find *)
Fixpoint bindings_find (os : positive) (bs : bindings_ty) : option (list Z) :=
  match bs with
  | [] => None
  | (k, vs) :: bs' => if Pos.eqb k os then Some vs else bindings_find os bs'
  end.

(* std::map::insert: in key order, an existing entry stays *)
Fixpoint bindings_insert (os : positive) (arr : list Z) (bs : bindings_ty) : bindings_ty :=
  match bs with
  | [] => [(os, arr)]
  | (k, vs) :: bs' =>
      if Pos.eqb k os then bs
      else if Pos.ltb os k then (os, arr) :: bs
      else (k, vs) :: bindings_insert os arr bs'
  end.

(* the constructor: one value per object *)
Fixpoint bind_objects (objects : list positive) (values : list (list Z)) (bs : bindings_ty) : res bindings_ty :=
  match objects, values with
  | [], _ => Ok bs
  | os :: objects', arr :: values' => bind_objects objects' values' (bindings_insert os arr bs)
  | _ :: _, [] => AssertFail (* dereferences the end of values *)
  end.

Definition Assignment_new (objects : list positive) (values : list (list Z)) (free : bool) : res Assignment :=
  let* bs := bind_objects objects values [] in
  Ok {| allowFreeValues := free; bindings := bs |}.

(* Assignment::evaluate(const Array *, unsigned) *)
Definition evaluate_array (a : Assignment) (array : positive) (index : Z) : res expr :=
  match bindings_find array (bindings a) with
  | Some vs =>
      match (if 0 <=? index then vs !! Z.to_nat index else None) with
      | Some v => Ok (const_alloc v (range (arrayAt array)))
      | None =>
          if allowFreeValues a
          then ReadExpr_create ConstArrayOpt array UNil (const_alloc index (domain (arrayAt array)))
          else Ok (const_alloc 0 (range (arrayAt array)))
      end
  | None =>
      if allowFreeValues a
      then ReadExpr_create ConstArrayOpt array UNil (const_alloc index (domain (arrayAt array)))
      else Ok (const_alloc 0 (range (arrayAt array)))
  end.

Definition AssignmentEvaluator (a : Assignment) : ExprVisitor (X:=unit) := ExprEvaluator (evaluate_array a).

Context (UseVisitorHash : bool).

Definition eval_visit (a : Assignment) (e : expr) : evals expr :=
  visit ConstArrayOpt UseVisitorHash (AssignmentEvaluator a) (S (deep_size e)) e.

(* Assignment::evaluate(ref<Expr>): a new evaluator *)
Definition evaluate (a : Assignment) (e : expr) : res expr :=
  let* p := eval_visit a e ([], tt) in Ok (fst p).

(* the loop of satisfies, over one evaluator *)
Fixpoint satisfies_loop (a : Assignment) (cs : list expr) (vs : visited_ty * unit) : res bool :=
  match cs with
  | [] => Ok true
  | c :: cs' =>
      let* p := eval_visit a c vs in
      let* t := isTrue (fst p) in
      if t then satisfies_loop a cs' (snd p) else Ok false
  end.

Definition satisfies (a : Assignment) (cs : list expr) : res bool := satisfies_loop a cs ([], tt).

(* the loop over the indices of one array *)
Fixpoint array_constraints (array : positive) (values : list Z) (arrayIndex : Z) (n : nat) : res (list expr) :=
  match n with
  | O => Ok []
  | S n' =>
      match values !! Z.to_nat arrayIndex with
      | None => AssertFail (* values[arrayIndex] past the end *)
      | Some value =>
          let* rd := ReadExpr_create ConstArrayOpt array UNil
                       (const_alloc arrayIndex (domain (arrayAt array))) in
          let* c := BinaryExpr_create ConstArrayOpt Eq rd (const_alloc value (range (arrayAt array))) in
          let* out := array_constraints array values (arrayIndex + 1) n' in
          Ok (c :: out)
      end
  end.

Fixpoint bindings_constraints (bs : bindings_ty) : res (list expr) :=
  match bs with
  | [] => Ok []
  | (array, values) :: bs' =>
      let* out := array_constraints array values 0 (Z.to_nat (size (arrayAt array))) in
      let* out' := bindings_constraints bs' in
      Ok (out ++ out')
  end.

Definition createConstraintsFromAssignment (a : Assignment) : res (list expr) :=
  bindings_constraints (bindings a).

End evaluator.

(** ** Conditions of exact evaluation *)

(** No child of a [NotOptimizedExpr] is a constant. *)
Fixpoint foldable `{A : APInt} (e : expr) : bool :=
  match e with
  | Constant _ => true
  | NotOptimized s => negb (isConstant s) && foldable s
  | Read _ u i => foldable_updates u && foldable i
  | Select c t f => foldable c && foldable t && foldable f
  | Concat l r => foldable l && foldable r
  | Extract e _ _ => foldable e
  | Cast _ s _ => foldable s
  | Not e => foldable e
  | Binary _ l r => foldable l && foldable r
  end
with foldable_updates `{A : APInt} (u : updates) : bool :=
  match u with
  | UNil => true
  | UNode i v n => foldable i && foldable v && foldable_updates n
  end.

(** Every array is indexed by at most 32 bits. *)
Definition small_domains `{AR : Arrays} : Prop := forall root, domain (arrayAt root) <= 32.

Section correct.
Context {A : APInt} {L : APIntLaws A} {AR : Arrays}.
Context (opt checked : bool).
Context (Hopt : opt = true -> checked = true).
Context (hash : bool).

(** Folding a node over constants gives a constant, the node kinds that stay
    aside. *)
Lemma canonical_create_const k (a b : ap) e' :
  canonical_create opt k (Constant a) (Constant b) = Ok e' -> isConstant e' = true.
Proof.
  unfold canonical_create, create_fuel. cbn [expr_size Nat.add create].
  destruct k; cbn [create_step]; try discriminate; unfold BCREATE_R, BCREATE;
    intros H; apply res_assert_inv in H as [_ H]; apply res_bind_inv in H as (c & _ & [= <-]); done.
Qed.

Lemma BinaryExpr_create_const k (a b : ap) e' :
  BinaryExpr_create opt k (Constant a) (Constant b) = Ok e' -> isConstant e' = true.
Proof.
  destruct k; cbn [BinaryExpr_create]; try apply canonical_create_const.
  unfold NeExpr_create. intros H. apply res_bind_inv in H as (z & Hz & H).
  apply res_bind_inv in H as (c & Hc & H). apply canonical_create_const in Hc.
  unfold const_create in Hz. apply res_assert_inv in Hz as [_ [= <-]].
  destruct c; try done. by apply canonical_create_const in H.
Qed.

Lemma rebuild_const e ks e' :
  forallb isConstant ks = true -> rebuild opt e ks = Ok e' ->
  match e with
  | Read _ _ _ => True
  | NotOptimized _ => exists k, ks = [k] /\ e' = NotOptimized k
  | _ => isConstant e' = true
  end.
Proof.
  intros Hc Hr.
  destruct e; cbn [rebuild] in Hr; try done;
    repeat match type of Hr with
    | match ?k with _ => _ end = _ => is_var k; destruct k; try discriminate Hr
    | rebuild _ _ ?k = _ => is_var k; destruct k; try discriminate Hr
    end; cbn in Hc; rewrite ?andb_true_iff in Hc; destruct_and?;
    repeat match goal with H : isConstant ?x = true |- _ => is_var x; destruct x; try discriminate H; clear H end.
  - injection Hr as <-. eauto.
  - unfold SelectExpr_create in Hr. apply res_assert_inv in Hr as [_ Hr].
    apply res_assert_inv in Hr as [_ Hr]. injection Hr as <-. by destruct (const_isTrue value1).
  - by injection Hr as <-.
  - unfold ExtractExpr_create in Hr. cbn in Hr. apply res_assert_inv in Hr as [_ Hr].
    destruct (width =? _); by injection Hr as <-.
  - unfold ZExtExpr_create in Hr. destruct (width =? _); [by injection Hr as <-|].
    destruct (width <? _); [|by injection Hr as <-].
    unfold ExtractExpr_create in Hr. cbn in Hr. apply res_assert_inv in Hr as [_ Hr].
    destruct (width =? _); by injection Hr as <-.
  - unfold SExtExpr_create in Hr. destruct (width =? _); [by injection Hr as <-|].
    destruct (width <? _); [|by injection Hr as <-].
    unfold ExtractExpr_create in Hr. cbn in Hr. apply res_assert_inv in Hr as [_ Hr].
    destruct (width =? _); by injection Hr as <-.
  - by injection Hr as <-.
  - by eapply BinaryExpr_create_const.
Qed.

Section evaluation.
Variable getInitialValue : positive -> Z -> res expr.
Variable ρ : env.
(** Whether the initial values are constants, and of which bytes. *)
Variable closed : bool.
Variable bound : positive -> Z -> Prop.

Definition input_ok (e : expr) : Prop := closed = true -> foldable e = true /\ within checked bound ρ e.
Definition result_ok (e : expr) : Prop := closed = true -> isConstant e = true.

Notation visitable := (visitable checked ρ input_ok).
Notation result_of := (result_of checked ρ result_ok).
Notation vholds := (sholds (visited_ok (X:=unit) checked ρ input_ok result_ok)).
Notation answers := (answers checked ρ result_ok).

(** [getInitialValue] gives the initial value of the array in [ρ]. *)
Definition initial_values_ok : Prop := forall root i v,
  wt_array (arrayAt root) -> 0 <= i < 2 ^ domain (arrayAt root) ->
  (isConstantArray (arrayAt root) && (i <? size (arrayAt root)) = false) ->
  array_init checked ρ root i = Some v ->
  exists r, getInitialValue root i = Ok r /\ wt r /\ getWidth r = range (arrayAt root) /\
    denote checked ρ r = Some v /\ (bound root i -> result_ok r).

Context (Hinit : initial_values_ok) (Hdom : small_domains).

(** What is known of a node whose children are visited. *)
Definition not_foldable_here (e : expr) : Prop :=
  closed = true ->
  match e with Read _ _ _ => False | _ => forallb isConstant (kids e) = false end.

Lemma result_of_intro e r v :
  denote checked ρ e = Some v -> wt r -> getWidth r = getWidth e ->
  denote checked ρ r = Some v -> result_ok r -> result_of e r.
Proof. intros He Hr Hw Hd HC. split; [|done]. split; [done|]. split; [done|]. congruence. Qed.

Lemma sound_eval_visitExpr e :
  visitable e -> isConstant e = false ->
  exists a, eval_visitExpr opt e = Ok a /\ answers e a.
Proof.
  intros (Hwt & Hd & HP) HC.
  assert (forall e, isConstant e = false -> wt e -> is_Some (denote checked ρ e) -> input_ok e ->
    (match e with Read _ _ _ => False | _ => True end) ->
    exists a, (if Nat.eqb (getNumKids e) 0 || negb (forallb isConstant (kids e)) then Ok DoChildren
      else let* r := rebuild opt e (kids e) in Ok (ChangeTo r)) = Ok a /\ answers e a) as H.
  { clear e HC Hwt Hd HP. intros e HC Hwt Hd HP Hk. destruct (Nat.eqb _ _ || _) eqn:E; [by eexists|].
    apply orb_false_iff in E as [_ Hall]. apply negb_false_iff in Hall.
    destruct (rebuild_sound opt checked Hopt ρ e (kids e)) as (r & Hr & Hs); [done..| |].
    { pose proof (kids_wt e Hwt) as Hkw. clear -Hkw. induction Hkw; constructor; [|done].
      by apply stands_for_refl. }
    rewrite Hr. eexists. split; [done|]. split; [done|]. intros Hcl.
    pose proof (rebuild_const e _ r Hall Hr) as Hrc. destruct (HP Hcl) as [HP' _].
    destruct e; try done. cbn in Hall, HP'. rewrite andb_true_r in Hall. by rewrite Hall in HP'. }
  destruct e; try (by apply H); try done. by eexists.
Qed.

Lemma index_in_range root i v :
  wt i -> getWidth i = domain (arrayAt root) -> denote checked ρ i = Some v ->
  wt_array (arrayAt root) -> 0 <= v < 2 ^ domain (arrayAt root) /\ wrap 32 v = v.
Proof.
  intros Hi Hw Hv Ha. pose proof (denote_range checked i ρ v Hi Hv) as R. rewrite Hw in R.
  split; [done|]. apply wrap_small. pose proof (Hdom root).
  assert (2 ^ domain (arrayAt root) <= 2 ^ 32); [|lia].
  apply Z.pow_le_mono_r; [lia|]. done.
Qed.

(** The constant a visited index evaluates to. *)
Lemma constant_index root i CE v :
  getWidth i = domain (arrayAt root) -> wt_array (arrayAt root) ->
  result_of i (Constant CE) -> denote checked ρ i = Some v ->
  getZExtValue CE 64 = Ok v /\ uval CE = v.
Proof.
  intros Hw Ha [(_ & Hcw & Hcd) _] Hv. apply Hcd in Hv. cbn in Hcw, Hv. injection Hv as Hv.
  split; [|done]. unfold getZExtValue.
  assert (getBitWidth CE <=? 64 = true) as -> by (apply Z.leb_le; rewrite Hcw, Hw; apply Ha).
  cbn. by rewrite Hv.
Qed.

Definition read_answers (root : positive) (v : Z) (a : Action) : Prop :=
  exists r, a = ChangeTo r /\ wt r /\ getWidth r = range (arrayAt root) /\
    denote checked ρ r = Some v /\ result_ok r.

Lemma changeTo_ok (m : visits (X:=unit) expr) root v :
  vholds m (fun r => wt r /\ getWidth r = range (arrayAt root) /\ denote checked ρ r = Some v /\ result_ok r) ->
  vholds (changeTo m) (read_answers root v).
Proof.
  intros Hm. eapply sholds_bind; [done|]. intros r Hr. apply sholds_ret. by exists r.
Qed.

Lemma evalRead_ok visit root un i v :
  (forall e', (deep_size e' < S (deep_size_updates un))%nat -> visitable e' -> vholds (visit e') (result_of e')) ->
  wt_array (arrayAt root) -> wt_updates root un -> 0 <= i < 2 ^ domain (arrayAt root) ->
  (closed = true -> foldable_updates un = true /\ within_updates checked bound ρ un /\ bound root i) ->
  denote_updates checked ρ root un i = Some v ->
  vholds (evalRead opt getInitialValue visit root un i) (read_answers root v).
Proof.
  intros Hvisit Ha Hu Hi HP. revert Hvisit Hu HP.
  assert (0 <= i < 2 ^ 64) as Hi64.
  { assert (2 ^ domain (arrayAt root) <= 2 ^ 64); [|lia]. apply Z.pow_le_mono_r; [lia|apply Ha]. }
  induction un as [|j w next IH]; intros Hvisit Hu HP Hv; cbn [evalRead].
  - change (array_init checked ρ root i = Some v) in Hv.
    destruct (isConstantArray (arrayAt root) && (i <? size (arrayAt root))) eqn:E.
    + apply andb_prop in E as [Hca Hlt]. apply Z.ltb_lt in Hlt.
      pose proof Ha as (Hr & _ & _ & _ & Hcw & Hlen). unfold array_init in Hv.
      assert (0 <=? i = true) as Hi0 by (apply Z.leb_le; lia). rewrite Hi0 in Hv.
      destruct (lookup_lt_is_Some_2 (constantValues (arrayAt root)) (Z.to_nat i)) as [c Hc].
      { assert (Z.of_nat (length (constantValues (arrayAt root))) = size (arrayAt root)); [|lia].
        apply Hlen. unfold isConstantArray, isSymbolicArray in Hca.
        by destruct (constantValues (arrayAt root)). }
      rewrite Hc in *. apply sholds_ret. injection Hv as <-.
      pose proof (Forall_lookup_1 _ _ _ _ Hcw Hc) as Hw. cbn beta in Hw.
      exists (Constant c). split_and!; [done| |done|done|done]. cbn. lia.
    + apply changeTo_ok. apply sholds_lift. destruct (Hinit root i v) as (r & Er & ? & ? & ? & Hres); [done..|].
      exists r. split; [done|]. split_and!; try done. intros Hcl. by apply Hres; [apply HP|].
  - destruct Hu as (Hj & Hw & Hjw & Hww & Hn). rewrite denote_updates_node in Hv.
    apply bind_Some in Hv as (jv & Hjv & Hv).
    assert (closed = true -> (foldable j = true /\ within checked bound ρ j) /\
      (foldable w = true /\ within checked bound ρ w) /\
      foldable_updates next = true /\ within_updates checked bound ρ next /\ bound root i) as HP'.
    { intros Hcl. destruct (HP Hcl) as (HP1 & HP2 & HP3). cbn in HP1. rewrite !andb_true_iff in HP1.
      rewrite within_UNode in HP2. tauto. }
    eapply sholds_bind.
    { apply Hvisit; [cbn; lia|]. split; [done|]. split; [by eexists|]. intros Hcl. by apply HP'. }
    intros ui Hui.
    assert (result_ok ui) as Hui2 by apply Hui.
    destruct ui as [CE| | | | | | | |].
    { destruct (constant_index root j CE jv) as [Hg Hg']; [done..|].
      eapply sholds_bind; [apply (sholds_lift _ (fun c => c = jv)); by exists jv|].
      intros ? ->. destruct (jv =? i).
      - apply changeTo_ok. eapply sholds_weaken.
        + apply Hvisit; [cbn; lia|]. split; [exact Hw|]. split; [by eexists|]. intros Hcl. by apply HP'.
        + intros r [(? & ? & Hd) ?]. split_and!; [done|congruence|auto|done].
      - apply IH; auto.
        + intros e' He'. apply Hvisit. cbn. lia.
        + intros Hcl. by apply HP'. }
    all: apply changeTo_ok, sholds_lift;
      (destruct (ReadExpr_create_ok opt checked Hopt root (UNode j w next)
         (const_alloc i (domain (arrayAt root)))) as (r & Hr & Hrw & Hrr & Hrd);
       [cbn [wt wt_updates]; split_and!; auto;
          [apply wt_const_alloc|apply width_const_alloc]; apply Ha
       |exists r; split_and!; [exact Hr|exact Hrw|exact Hrr| |intros Hcl; by specialize (Hui2 Hcl)];
        apply Hrd; unfold read_den; rewrite denote_const_alloc by (done || apply Ha);
        cbn [mbind option_bind]; rewrite wrap_small by done; rewrite denote_updates_node, Hjv; exact Hv]).
Qed.

Lemma visitRead_ok visit root head index :
  visitable (Read root head index) ->
  (forall e', (deep_size e' < deep_size (Read root head index))%nat -> visitable e' ->
     vholds (visit e') (result_of e')) ->
  vholds (visitRead opt getInitialValue visit root head index)
    (fun a => answers (Read root head index) a /\ (a = DoChildren -> not_foldable_here (Read root head index))).
Proof.
  intros ((Ha & Hu & Hi & Hiw) & [v Hv] & HP) Hvisit.
  pose proof Hv as Hv'. cbn [denote] in Hv'. apply bind_Some in Hv' as (i & Hiv & Hv').
  assert (closed = true -> (foldable_updates head = true /\ within_updates checked bound ρ head /\ bound root i) /\
    (foldable index = true /\ within checked bound ρ index)) as HP'.
  { intros Hcl. destruct (HP Hcl) as [HP1 HP2]. cbn in HP1. rewrite andb_true_iff in HP1.
    rewrite within_Read in HP2. destruct HP2 as (? & ? & Hb). specialize (Hb i Hiv). tauto. }
  unfold visitRead. eapply sholds_bind.
  { apply Hvisit; [cbn; lia|]. split; [exact Hi|]. split; [by eexists|]. intros Hcl. by apply HP'. }
  intros ui Hui.
  assert (result_ok ui) as Hui2 by apply Hui.
  destruct ui as [CE| | | | | | | |].
  { destruct (constant_index root index CE i) as [Hg Hg']; [done..|].
    destruct (index_in_range root index i) as [Hir Hiw32]; [done..|].
    eapply sholds_bind; [apply (sholds_lift _ (fun c => c = i)); by exists i|].
    intros ? ->. rewrite Hiw32. eapply sholds_weaken.
    - apply (evalRead_ok visit root head i v); auto.
      + intros e' He'. apply Hvisit. cbn. lia.
      + intros Hcl. by apply HP'.
    - intros a (r & -> & ? & ? & ? & ?). split; [|done].
      by apply (result_of_intro _ _ v). }
  all: apply sholds_ret; split; [done|]; intros _ Hcl; specialize (Hui2 Hcl); discriminate.
Qed.

Lemma protectedDivOperation_ok visit k l r :
  is_div k = true -> visitable (Binary k l r) ->
  (closed = true -> forallb isConstant [l; r] = false) ->
  (forall e', (deep_size e' < deep_size (Binary k l r))%nat -> visitable e' ->
     vholds (visit e') (result_of e')) ->
  vholds (protectedDivOperation opt visit (Binary k l r) l r)
    (fun a => answers (Binary k l r) a /\ (a = DoChildren -> not_foldable_here (Binary k l r))).
Proof.
  intros Hk (Hwt & [v Hv] & HP) Hcs Hvisit. pose proof Hwt as (Hl & Hr & Hw).
  pose proof Hv as Hv'. cbn [denote] in Hv'. apply bind_Some in Hv' as (x & Hx & Hv').
  apply bind_Some in Hv' as (y & Hy & Hv').
  assert (closed = true -> (foldable l = true /\ within checked bound ρ l) /\
    (foldable r = true /\ within checked bound ρ r)) as HP'.
  { intros Hcl. destruct (HP Hcl) as [HP1 HP2]. cbn in HP1, HP2. rewrite andb_true_iff in HP1. tauto. }
  unfold protectedDivOperation. eapply sholds_bind.
  { apply Hvisit; [cbn; lia|]. split; [exact Hl|]. split; [by eexists|]. intros Hcl. by apply HP'. }
  intros k0 Hk0. eapply sholds_bind.
  { apply Hvisit; [cbn; lia|]. split; [exact Hr|]. split; [by eexists|]. intros Hcl. by apply HP'. }
  intros k1 Hk1.
  assert ((match k1 with Constant CE => if const_isZero CE then r else k1 | _ => k1 end) = k1) as ->.
  { destruct k1; try done. destruct (const_isZero value) eqn:Hz; [|done]. exfalso.
    destruct Hk1 as [(_ & _ & Hd) _]. apply Hd in Hy. cbn in Hy. injection Hy as Hy.
    unfold const_isZero in Hz. apply Z.eqb_eq in Hz. rewrite <- Hy, Hz in Hv'.
    by rewrite bin_sem_div in Hv'. }
  destruct (rebuild_sound opt checked Hopt ρ (Binary k l r) [k0; k1]) as (e' & He' & Hs); [done|by eexists|done| |].
  { constructor; [apply Hk0|]. constructor; [apply Hk1|done]. }
  destruct (negb (expr_eqb k0 l) || negb (expr_eqb k1 r)) eqn:Hch.
  - apply (sholds_bind _ _ (fun r => r = e')); [apply sholds_lift; by exists e'|].
    intros ? ->. apply sholds_ret. split; [|done]. split; [done|]. intros Hcl.
    apply (rebuild_const (Binary k l r) [k0; k1]); [|done]. cbn.
    destruct Hk0 as [_ Hk0]. destruct Hk1 as [_ Hk1]. by rewrite (Hk0 Hcl), (Hk1 Hcl).
  - apply sholds_ret. split; [|done]. cbn. intros Hcl. exfalso.
    apply orb_false_iff in Hch as [H0 H1]. apply negb_false_iff in H0, H1.
    destruct Hk0 as [_ Hk0]. destruct Hk1 as [_ Hk1]. specialize (Hk0 Hcl). specialize (Hk1 Hcl).
    apply Z.eqb_eq, compare_zero_kind in H0, H1. specialize (Hcs Hcl). cbn in Hcs.
    assert (forall a b, isConstant a = true -> getKind a = getKind b -> isConstant b = true) as Hkind.
    { clear. intros a b Ha Hg. destruct a; try done. destruct b as [| | | | | |[] | |[]]; done. }
    by rewrite (Hkind k0 l), (Hkind k1 r) in Hcs.
Qed.

Lemma sound_eval_post e ks e' :
  visitable e -> isConstant e = false -> not_foldable_here e ->
  Forall2 result_of (kids e) ks ->
  (if kids_changed e ks then rebuild opt e ks = Ok e' else e' = e) ->
  stands_for checked ρ e e' -> isConstant e' = false ->
  exists a, eval_visitExprPost e' = Ok a /\ result_of e (match a with ChangeTo r => r | _ => e' end).
Proof.
  intros (Hwt & Hd & HP) HC HK Hks Hif Hs HC'.
  assert (closed = true -> exists k, e' = NotOptimized k /\ isConstant k = true) as Hcase.
  { intros Hcl. specialize (HK Hcl).
    assert (forallb isConstant ks = true) as Hall.
    { clear -Hks Hcl. induction Hks as [|? ? ? ? [_ H]]; [done|]. cbn. by rewrite (H Hcl). }
    destruct (kids_changed e ks) eqn:Hch.
    - pose proof (rebuild_const e ks e' Hall Hif) as Hrc. destruct e; try done; try congruence.
      destruct Hrc as (k & -> & ->). exists k. cbn in Hall. by rewrite andb_true_r in Hall.
    - exfalso. unfold kids_changed in Hch. apply negb_false_iff in Hch.
      assert (forallb isConstant (kids e) = true) as Hk.
      { clear -Hks Hall Hch. induction Hks as [|x y xs ys ? _ IH]; [done|]. cbn in *.
        apply andb_prop in Hall as [Hy Hys]. apply andb_prop in Hch as [Hxy Hxys].
        rewrite IH by done. apply Z.eqb_eq, compare_zero_kind in Hxy.
        destruct y; try done. destruct x as [| | | | | |[]| |[]]; done. }
      destruct e; try done; congruence. }
  destruct (match e' with NotOptimized _ => true | _ => false end) eqn:En.
  - destruct e' as [|s| | | | | | |]; try done. eexists. split; [done|]. split; [exact Hs|].
    intros Hcl. destruct (Hcase Hcl) as (k & [= ->] & Hk). done.
  - exists SkipChildren. split; [by destruct e'|]. split; [exact Hs|].
    intros Hcl. destruct (Hcase Hcl) as (k & -> & Hk). done.
Qed.

Lemma evaluator_sound :
  SoundVisitor opt checked ρ input_ok result_ok (ExprEvaluator opt getInitialValue) not_foldable_here.
Proof.
  split; cbn.
  - done.
  - by intros v Hcl.
  - intros e (_ & _ & HP). destruct (Bool.bool_dec closed true) as [Hcl|Hcl].
    + destruct (HP Hcl) as [HP1 HP2]. unfold input_ok.
      destruct e; rewrite ?within_Read in HP2; cbn [kids foldable within] in *; rewrite ?andb_true_iff in HP1;
        repeat (apply List.Forall_cons; [intros _; tauto|]); apply List.Forall_nil.
    + apply Forall_forall. by intros k _ ?.
  - apply sound_eval_visitExpr.
  - intros visit e He HC Hexpr IH.
    assert (closed = true -> match e with Read _ _ _ => True | _ => forallb isConstant (kids e) = false end) as Hnf.
    { intros Hcl. assert (getNumKids e <> 0%nat) by (by destruct e).
      unfold eval_visitExpr in Hexpr.
      destruct e; try done;
        (destruct (Nat.eqb _ _ || negb (forallb isConstant _)) eqn:E;
         [apply orb_true_iff in E as [E|E]; [apply Nat.eqb_eq in E; done|by apply negb_true_iff in E]
         |by apply res_bind_inv in Hexpr as (? & _ & ?)]). }
    assert (match e with Read _ _ _ => False | _ => True end ->
      vholds (sret DoChildren) (fun a => answers e a /\ (a = DoChildren -> not_foldable_here e))) as Hdef.
    { intros Hr. apply sholds_ret. split; [done|]. intros _ Hcl. specialize (Hnf Hcl). by destruct e. }
    destruct e as [| |root head index| | | | | |k l r]; try (by apply Hdef).
    + by apply visitRead_ok.
    + destruct k; try (by apply Hdef); (by apply protectedDivOperation_ok).
  - apply sound_eval_post.
Qed.

(** A visit of a defined expression returns, within the fuel given, an
    expression that stands for it, a constant if all initial values are. *)
Lemma evaluator_visit fuel e vs :
  (deep_size e < fuel)%nat -> visitable e -> visited_ok checked ρ input_ok result_ok vs ->
  exists r vs', visit opt hash (ExprEvaluator opt getInitialValue) fuel e vs = Ok (r, vs') /\
    visited_ok checked ρ input_ok result_ok vs' /\ result_of e r.
Proof. intros. by apply (visit_ok opt checked Hopt hash ρ _ _ _ _ evaluator_sound). Qed.

End evaluation.

(** ** Assignments *)

Definition bytes_ok (bs : bindings_ty) : Prop :=
  Forall (fun p => Forall (fun b => 0 <= b < 256) (snd p)) bs.

(** The byte an assignment gives to an array. *)
Definition bound_byte (a : Assignment) (root : positive) (i : Z) : option Z :=
  vs ← bindings_find root (bindings a); if 0 <=? i then vs !! Z.to_nat i else None.

(** The environments an assignment stands for: its bytes and, unless free
    values are allowed, zero elsewhere. *)
Definition agrees (a : Assignment) (ρ : env) : Prop := forall root i,
  match bound_byte a root i with
  | Some b => wrap (range (arrayAt root)) (ρ root i) = wrap (range (arrayAt root)) b
  | None => allowFreeValues a = false -> wrap (range (arrayAt root)) (ρ root i) = 0
  end.

Definition assignment_env (a : Assignment) : env := fun root i => default 0 (bound_byte a root i).

Lemma assignment_env_agrees a : agrees a (assignment_env a).
Proof.
  intros root i. unfold assignment_env. destruct (bound_byte a root i); [done|].
  intros _. cbn. apply Zmod_0_l.
Qed.

Lemma bindings_find_bytes bs root vs :
  bytes_ok bs -> bindings_find root bs = Some vs -> Forall (fun b => 0 <= b < 256) vs.
Proof.
  induction bs as [|[k ws] bs IH]; intros Hb Hf; [done|]. apply Forall_cons_iff in Hb as [Hb Hbs].
  cbn in *. destruct (Pos.eqb k root); [by injection Hf as <-|by apply IH].
Qed.

Lemma bindings_find_insert os arr bs k :
  bindings_find os bs = None ->
  bindings_find k (bindings_insert os arr bs) = if Pos.eqb os k then Some arr else bindings_find k bs.
Proof.
  induction bs as [|[k' vs] bs IH]; cbn; [done|]. destruct (Pos.eqb_spec k' os) as [->|Hne]; [done|]. intros H.
  destruct (Pos.ltb os k'); cbn; [done|]. rewrite (IH H).
  destruct (Pos.eqb_spec k' k) as [->|]; [|done]. by destruct (Pos.eqb_spec os k) as [->|].
Qed.

Lemma bindings_insert_Forall (P : positive * list Z -> Prop) os arr bs :
  P (os, arr) -> Forall P bs -> Forall P (bindings_insert os arr bs).
Proof.
  intros Hp. induction 1 as [|[k vs] bs Hk Hbs IH]; cbn; [by repeat constructor|].
  destruct (Pos.eqb k os); [by constructor|]. destruct (Pos.ltb os k); by repeat constructor.
Qed.

Lemma bindings_find_Forall (P : positive * list Z -> Prop) k bs vs :
  Forall P bs -> bindings_find k bs = Some vs -> P (k, vs).
Proof.
  induction 1 as [|[k' ws] bs Hk Hbs IH]; [done|]. cbn. destruct (Pos.eqb_spec k' k) as [->|]; [|done].
  by intros [= <-].
Qed.

Lemma bindings_insert_bound os arr bs k :
  is_Some (bindings_find k (bindings_insert os arr bs)) <-> k = os \/ is_Some (bindings_find k bs).
Proof.
  induction bs as [|[k' vs] bs IH]; cbn.
  - destruct (Pos.eqb_spec os k) as [->|]; naive_solver.
  - destruct (Pos.eqb_spec k' os) as [->|Hne]; cbn.
    + destruct (Pos.eqb_spec os k) as [->|]; split; eauto. intros [?|?]; [congruence|done].
    + destruct (Pos.ltb os k'); cbn.
      * destruct (Pos.eqb_spec os k) as [->|]; split; eauto. intros [?|?]; [congruence|done].
      * destruct (Pos.eqb_spec k' k) as [->|]; [|exact IH]. split; eauto.
Qed.

Lemma bind_objects_Forall (P : positive * list Z -> Prop) objects values : forall bs,
  Forall2 (fun os vs => P (os, vs)) objects values -> Forall P bs ->
  exists bs', bind_objects objects values bs = Ok bs' /\ Forall P bs' /\
    forall k, In k objects \/ is_Some (bindings_find k bs) -> is_Some (bindings_find k bs').
Proof.
  intros bs H. revert bs. induction H as [|os vs objects values Hp H IH]; intros bs Hbs; cbn [bind_objects].
  { exists bs. split_and!; [done..|]. by intros k [[]|?]. }
  destruct (IH (bindings_insert os vs bs)) as (bs' & E & HF & Hin); [by apply bindings_insert_Forall|].
  exists bs'. split_and!; [done..|]. intros k Hk. apply Hin. rewrite bindings_insert_bound. cbn [In] in Hk.
  destruct Hk as [[->|?]|?]; auto.
Qed.

Lemma bound_byte_range a root i b :
  bytes_ok (bindings a) -> bound_byte a root i = Some b -> 0 <= b < 2 ^ 64.
Proof.
  intros Hb H. unfold bound_byte in H. apply bind_Some in H as (vs & Hf & H).
  pose proof (bindings_find_bytes _ _ _ Hb Hf) as Hvs.
  destruct (0 <=? i); [|done]. pose proof (Forall_lookup_1 _ _ _ _ Hvs H). cbn in *. lia.
Qed.

Lemma evaluate_array_bound a root i :
  evaluate_array opt a root i =
  match bound_byte a root i with
  | Some v => Ok (const_alloc v (range (arrayAt root)))
  | None =>
      if allowFreeValues a
      then ReadExpr_create opt root UNil (const_alloc i (domain (arrayAt root)))
      else Ok (const_alloc 0 (range (arrayAt root)))
  end.
Proof.
  unfold evaluate_array, bound_byte. destruct (bindings_find _ _); [|done]. cbn.
  by destruct (if 0 <=? i then _ else None).
Qed.

Lemma array_init_free ρ root i v :
  wt_array (arrayAt root) ->
  isConstantArray (arrayAt root) && (i <? size (arrayAt root)) = false -> 0 <= i ->
  array_init checked ρ root i = Some v -> v = wrap (range (arrayAt root)) (ρ root i).
Proof.
  intros (_ & _ & _ & _ & _ & Hlen) Hc Hi Hv. unfold array_init in Hv.
  destruct (if 0 <=? i then _ else None) as [c|] eqn:E.
  - exfalso. destruct (0 <=? i); [|done]. apply lookup_lt_Some in E as Hlt.
    assert (constantValues (arrayAt root) <> []) as Hne by (intros Hn; by rewrite Hn in E).
    specialize (Hlen Hne).
    unfold isConstantArray, isSymbolicArray in Hc.
    destruct (constantValues (arrayAt root)); [done|]. cbn [negb andb] in Hc. apply Z.ltb_ge in Hc. lia.
  - destruct (checked && _); [done|]. by injection Hv as <-.
Qed.

(** The bytes whose value an assignment fixes, or that it is not asked for. *)
Definition known (a : Assignment) (root : positive) (i : Z) : Prop :=
  isConstantArray (arrayAt root) && (i <? size (arrayAt root)) = true \/
  allowFreeValues a = false \/ is_Some (bound_byte a root i).

Lemma within_known a ρ e : allowFreeValues a = false -> within checked (known a) ρ e.
Proof.
  intros Hf. apply (within_weaken _ (fun _ _ => True)); [by right; left|]. by apply within_all_both.
Qed.

Lemma evaluate_array_ok a ρ closed :
  bytes_ok (bindings a) -> agrees a ρ ->
  initial_values_ok (evaluate_array opt a) ρ closed (known a).
Proof.
  intros Hb Hag root i v Ha Hi Hc Hv.
  assert (0 < range (arrayAt root)) as Hr by apply Ha.
  assert (0 <= i < 2 ^ 64) as Hi64.
  { assert (2 ^ domain (arrayAt root) <= 2 ^ 64); [|lia]. apply Z.pow_le_mono_r; [lia|apply Ha]. }
  pose proof (array_init_free ρ root i v Ha Hc (proj1 Hi) Hv) as E. specialize (Hag root i).
  rewrite evaluate_array_bound. destruct (bound_byte a root i) as [b|] eqn:Hbb.
  - eexists. split; [done|].
    rewrite width_const_alloc, denote_const_alloc by (done || by eapply bound_byte_range).
    split_and!; [by apply wt_const_alloc|done|congruence|done].
  - destruct (allowFreeValues a) eqn:Hfree.
    + destruct (ReadExpr_create_ok opt checked Hopt root UNil (const_alloc i (domain (arrayAt root))))
        as (r & Hrd & Hrw & Hrr & Hden).
      { cbn [wt wt_updates]. split_and!; [done|done|apply wt_const_alloc|apply width_const_alloc]; apply Ha. }
      exists r. split_and!; [done..| |].
      * apply Hden. unfold read_den. rewrite denote_const_alloc by (done || apply Ha). cbn [mbind option_bind].
        by rewrite wrap_small.
      * intros [Hk|[Hk|Hk]]; [congruence|congruence|]. rewrite Hbb in Hk. by destruct Hk.
    + eexists. split; [done|].
      rewrite width_const_alloc, denote_const_alloc by (done || lia).
      split_and!; [by apply wt_const_alloc|done| |done].
      rewrite E, (Hag eq_refl). by rewrite wrap_small by lia.
Qed.

Lemma eval_visit_ok a ρ closed e vs :
  small_domains -> bytes_ok (bindings a) -> agrees a ρ ->
  visitable checked ρ (input_ok ρ closed (known a)) e ->
  visited_ok checked ρ (input_ok ρ closed (known a)) (result_ok closed) vs ->
  exists r vs', eval_visit opt hash a e vs = Ok (r, vs') /\
    visited_ok checked ρ (input_ok ρ closed (known a)) (result_ok closed) vs' /\
    result_of checked ρ (result_ok closed) e r.
Proof.
  intros. unfold eval_visit. apply evaluator_visit; [|done|lia|done|done].
  by apply evaluate_array_ok.
Qed.

(** The value of a constraint under a total assignment. *)
Definition holds (ρ : env) (c : expr) : bool := bool_decide (denote checked ρ c = Some 1).

Definition evaluable_constraint (ρ : env) (c : expr) : Prop :=
  wt c /\ getWidth c = 1 /\ foldable c = true /\ is_Some (denote checked ρ c).

Lemma isTrue_holds ρ c r :
  getWidth c = 1 -> is_Some (denote checked ρ c) -> stands_for checked ρ c r -> isConstant r = true ->
  isTrue r = Ok (holds ρ c).
Proof.
  intros Hw [v Hv] (Hwt & Hrw & Hd) Hr. unfold isTrue. rewrite Hrw, Hw. cbn [Z.eqb Pos.eqb res_assert Bool_w].
  f_equal. destruct r as [CE| | | | | | | |]; try done. apply Hd in Hv as Hv'. cbn in Hv', Hrw. injection Hv' as Hv'.
  pose proof (const_isTrue_value CE ltac:(congruence)) as Hu. unfold holds. rewrite Hv.
  destruct (const_isTrue CE); symmetry; [apply bool_decide_eq_true|apply bool_decide_eq_false]; congruence.
Qed.

Lemma satisfies_loop_ok a cs : forall vs,
  let ρ := assignment_env a in
  small_domains -> bytes_ok (bindings a) -> allowFreeValues a = false ->
  Forall (evaluable_constraint ρ) cs ->
  visited_ok checked ρ (input_ok ρ true (known a)) (result_ok true) vs ->
  satisfies_loop opt hash a cs vs = Ok (forallb (holds ρ) cs).
Proof.
  induction cs as [|c cs IH]; intros vs ρ Hs Hb Hf Hcs Hvs; [done|].
  apply Forall_cons_iff in Hcs as [(Hwt & Hw & Hfo & Hd) Hcs]. cbn [satisfies_loop forallb].
  destruct (eval_visit_ok a ρ true c vs) as (r & vs' & E & Hvs' & Hr); auto using assignment_env_agrees.
  { split; [done|]. split; [done|]. intros _. split; [done|]. by apply within_known. }
  rewrite E. cbn [res_bind fst snd]. destruct Hr as [Hst Hco].
  rewrite (isTrue_holds ρ c r) by auto. cbn [res_bind].
  destruct (holds ρ c); [|done]. by apply IH.
Qed.

(** Where the assignment fixes every byte that is read, evaluation is exact. *)
Lemma evaluate_known_ok a ρ e v :
  small_domains -> bytes_ok (bindings a) -> agrees a ρ -> wt e -> foldable e = true ->
  within checked (known a) ρ e -> denote checked ρ e = Some v ->
  exists c, evaluate opt hash a e = Ok (Constant c) /\ getBitWidth c = getWidth e /\ uval c = v.
Proof.
  intros Hs Hb Hag Hwt Hfo Hk Hv. unfold evaluate.
  destruct (eval_visit_ok a ρ true e ([], tt)) as (r & vs' & E & _ & Hr); [done|done|done| |constructor|].
  { split; [done|]. split; [by eexists|]. by intros _. }
  rewrite E. cbn. destruct Hr as [(_ & Hw & Hd) Hc].
  specialize (Hc eq_refl). destruct r as [c| | | | | | | |]; try done.
  apply Hd in Hv. injection Hv as Hv. by exists c.
Qed.

Lemma evaluate_closed_ok a e v :
  small_domains -> bytes_ok (bindings a) -> allowFreeValues a = false -> wt e -> foldable e = true ->
  denote checked (assignment_env a) e = Some v ->
  exists c, evaluate opt hash a e = Ok (Constant c) /\ getBitWidth c = getWidth e /\ uval c = v.
Proof.
  intros Hs Hb Hf Hwt Hfo. apply evaluate_known_ok; try done; [apply assignment_env_agrees|by apply within_known].
Qed.

Lemma satisfies_ok a cs :
  small_domains -> bytes_ok (bindings a) -> allowFreeValues a = false ->
  Forall (evaluable_constraint (assignment_env a)) cs ->
  exists b, satisfies opt hash a cs = Ok b /\
    (b = true <-> Forall (fun c => denote checked (assignment_env a) c = Some 1) cs).
Proof.
  intros Hs Hb Hf Hcs. eexists. split.
  - apply (satisfies_loop_ok a cs ([], tt)); auto. constructor.
  - rewrite forallb_forall, Forall_forall. unfold holds.
    split; intros H c Hin; by apply (bool_decide_eq_true (denote checked (assignment_env a) c = Some 1)), H.
Qed.

End correct.

Section constraints.
Context {A : APInt} {L : APIntLaws A} {AR : Arrays}.
Context (opt checked : bool).
Context (Hopt : opt = true -> checked = true).

(** [c] states that byte [i] of the symbolic array [root] is [b]. *)
Definition byte_constraint (root : positive) (i b : Z) (c : expr) : Prop :=
  wt c /\ getWidth c = 1 /\
  forall ρ, denote checked ρ c =
    Some (Z.b2z (wrap (range (arrayAt root)) (ρ root i) =? wrap (range (arrayAt root)) b)).

Lemma array_constraints_ok root vals : forall n i,
  wt_array (arrayAt root) -> isSymbolicArray (arrayAt root) = true ->
  Forall (fun b => 0 <= b < 256) vals ->
  0 <= i -> i + Z.of_nat n <= 2 ^ domain (arrayAt root) -> i + Z.of_nat n <= Z.of_nat (length vals) ->
  exists out, array_constraints opt root vals i n = Ok out /\
    Forall2 (fun j c => exists b, vals !! Z.to_nat j = Some b /\ byte_constraint root j b c)
      (seqZ i (Z.of_nat n)) out.
Proof.
  induction n as [|n IH]; intros i Ha Hs Hb Hi Hd Hl.
  { exists []. split; [done|]. apply Forall2_nil_2. }
  cbn [array_constraints].
  destruct (lookup_lt_is_Some_2 vals (Z.to_nat i)) as [b Hbv]; [lia|]. rewrite Hbv.
  pose proof (Forall_lookup_1 _ _ _ _ Hb Hbv) as Hbr. cbn beta in Hbr.
  assert (0 < range (arrayAt root) /\ 0 < domain (arrayAt root)) as [Hr Hdp] by (split; apply Ha).
  assert (0 <= i < 2 ^ 64) as Hi64.
  { assert (2 ^ domain (arrayAt root) <= 2 ^ 64); [|lia]. apply Z.pow_le_mono_r; [lia|apply Ha]. }
  destruct (ReadExpr_create_ok opt checked Hopt root UNil (const_alloc i (domain (arrayAt root))))
    as (rd & -> & Hrw & Hrr & Hrd).
  { cbn [wt wt_updates]. split_and!; [done|done|by apply wt_const_alloc|by apply width_const_alloc]. }
  cbn [res_bind].
  destruct (BinaryExpr_create_ok opt checked Hopt Eq rd (const_alloc b (range (arrayAt root))))
    as (c & -> & Hcw & Hcr & Hcd).
  { done. } { by apply wt_const_alloc. } { by rewrite width_const_alloc. } { by destruct rd. }
  cbn [res_bind].
  destruct (IH (i + 1)) as (out & -> & Hout); [done..|lia|lia|lia|].
  exists (c :: out). split; [done|].
  replace (Z.of_nat (S n)) with (Z.succ (Z.of_nat n)) by lia.
  rewrite seqZ_cons by lia. replace (Z.succ i) with (i + 1) by lia.
  replace (Z.pred (Z.succ (Z.of_nat n))) with (Z.of_nat n) by lia.
  constructor; [|done]. exists b. split; [done|]. split; [done|]. split; [done|]. intros ρ. apply Hcd.
  unfold bin_den. rewrite (Hrd ρ (wrap (range (arrayAt root)) (ρ root i))).
  - cbn [mbind option_bind]. rewrite denote_const_alloc by lia. done.
  - unfold read_den. rewrite denote_const_alloc by lia. cbn [mbind option_bind].
    rewrite wrap_small by lia. cbn. unfold array_init, isConstantArray.
    rewrite Hs. cbn [negb]. rewrite andb_false_r. unfold isSymbolicArray in Hs.
    destruct (constantValues (arrayAt root)); [|discriminate]. rewrite lookup_nil.
    by destruct (0 <=? i).
Qed.

(** One value per index of every array, and only arrays that are symbolic. *)
Definition complete_bindings (bs : bindings_ty) : Prop :=
  Forall (fun p => wt_array (arrayAt (fst p)) /\ isSymbolicArray (arrayAt (fst p)) = true /\
    size (arrayAt (fst p)) <= Z.of_nat (length (snd p)) /\
    Forall (fun b => 0 <= b < 256) (snd p)) bs.

(** [ρ] gives the bound arrays the bytes of the bindings. *)
Definition matches_bindings (bs : bindings_ty) (ρ : env) : Prop :=
  forall root vals i b, (root, vals) ∈ bs -> 0 <= i < size (arrayAt root) ->
    vals !! Z.to_nat i = Some b ->
    wrap (range (arrayAt root)) (ρ root i) = wrap (range (arrayAt root)) b.

Lemma byte_constraint_holds root i b c ρ :
  byte_constraint root i b c ->
  denote checked ρ c = Some 1 <->
  wrap (range (arrayAt root)) (ρ root i) = wrap (range (arrayAt root)) b.
Proof.
  intros (_ & _ & Hd). rewrite Hd. destruct (_ =? _) eqn:E; tidy_bools; split; intros; done.
Qed.

Lemma bindings_constraints_ok bs :
  complete_bindings bs ->
  exists out, bindings_constraints opt bs = Ok out /\
    Forall (fun c => wt c /\ getWidth c = 1) out /\
    forall ρ, Forall (fun c => denote checked ρ c = Some 1) out <-> matches_bindings bs ρ.
Proof.
  induction bs as [|[root vals] bs IH]; intros Hc.
  { exists []. split; [done|]. split; [constructor|]. intros ρ. split; [|constructor].
    intros _ ? ? ? ? Hin. by apply not_elem_of_nil in Hin. }
  apply Forall_cons_iff in Hc as [(Ha & Hs & Hlen & Hb) Hc]. cbn [fst snd] in *.
  destruct (IH Hc) as (out' & Eout' & Hwt' & Hout').
  destruct (array_constraints_ok root vals (Z.to_nat (size (arrayAt root))) 0) as (out & Eout & Hout);
    [done..|lia| | |]; try (pose proof Ha as (_ & _ & ? & ? & _); lia).
  cbn [bindings_constraints]. rewrite Eout, Eout'. cbn [res_bind]. exists (out ++ out').
  rewrite Z2Nat.id in Hout by (destruct Ha as (_ & _ & ? & _); lia).
  split; [done|]. split.
  { apply Forall_app. split; [|done]. apply Forall_forall. intros c Hin%list_elem_of_In.
    apply list_elem_of_lookup in Hin as [n Hn].
    destruct (Forall2_lookup_r _ _ _ _ _ Hout Hn) as (j & _ & b & _ & Hbc & Hbw & _). done. }
  intros ρ. rewrite Forall_app, Hout'. split.
  - intros [Ho Hm] r vs i b Hin Hi Hv. apply elem_of_cons in Hin as [[= -> ->]|Hin]; [|by eapply Hm].
    destruct (Forall2_lookup_l _ _ _ (Z.to_nat i) i Hout) as (c & Hcl & b' & Hb' & Hbc).
    { apply lookup_seqZ. lia. }
    simplify_eq. apply (byte_constraint_holds root i b c); [done|].
    by apply (Forall_lookup_1 _ _ _ _ Ho Hcl).
  - intros Hm. split; [|intros r vs i b Hin; apply Hm; by apply elem_of_cons; right].
    apply Forall_forall. intros c Hin%list_elem_of_In. apply list_elem_of_lookup in Hin as [n Hn].
    destruct (Forall2_lookup_r _ _ _ _ _ Hout Hn) as (j & Hj & b & Hb' & Hbc).
    apply lookup_seqZ in Hj as [-> Hlt].
    apply (byte_constraint_holds root (0 + Z.of_nat n) b c); [done|].
    apply (Hm root vals); [by apply elem_of_cons; left|lia|done].
Qed.

End constraints.

(** ** Properties *)
Section theorems.
Context {A : APInt} {L : APIntLaws A} {AR : Arrays}.

(** C29. Evaluating an expression under an assignment without free values is
    total and exact: when the expression has a value under the bytes of the
    assignment, the visit returns the constant of that value and of the
    expression's width, with or without the visitor's hash table. *)
Theorem evaluate_exact (opt checked hash : bool) a e v :
  (opt = true -> checked = true) -> small_domains -> bytes_ok (bindings a) ->
  allowFreeValues a = false -> wt e -> foldable e = true ->
  denote checked (assignment_env a) e = Some v ->
  exists c, evaluate opt hash a e = Ok (Constant c) /\ getBitWidth c = getWidth e /\ uval c = v.
Proof. intros Hopt. by apply evaluate_closed_ok. Qed.

(** With free values, evaluation is typed and equivalent: the visit
    returns a well-typed expression of the same width, which has the value of
    the original in every environment that agrees with the bindings. *)
Theorem evaluate_typed_equivalent (opt checked hash : bool) a e ρ0 :
  (opt = true -> checked = true) -> small_domains -> bytes_ok (bindings a) ->
  allowFreeValues a = true -> wt e -> agrees a ρ0 -> is_Some (denote checked ρ0 e) ->
  exists r, evaluate opt hash a e = Ok r /\ wt r /\ getWidth r = getWidth e /\
    forall ρ v, agrees a ρ -> denote checked ρ e = Some v -> denote checked ρ r = Some v.
Proof.
  intros Hopt Hs Hb Hf Hwt Hag Hd. unfold evaluate.
  assert (forall ρ, agrees a ρ -> is_Some (denote checked ρ e) -> exists r vs',
    eval_visit opt hash a e ([], tt) = Ok (r, vs') /\ stands_for checked ρ e r) as H.
  { intros ρ Hρ Hdρ.
    destruct (eval_visit_ok opt checked Hopt hash a ρ false e ([], tt)) as (r & vs' & E & _ & Hr & _);
      [done|done|done|by split|constructor|by exists r, vs']. }
  destruct (H ρ0 Hag Hd) as (r & vs' & E & Hst & Hw & _). rewrite E. cbn. exists r.
  split_and!; [done..|]. intros ρ v Hρ Hv.
  destruct (H ρ Hρ) as (r' & vs'' & E' & _ & _ & Hd'); [by eexists|].
  rewrite E in E'. injection E' as -> _. auto.
Qed.

(** [Assignment::satisfies] decides a constraint set: over one evaluator,
    whose table the constraints share, it returns true exactly when every
    constraint is 1 under the assignment. *)
Theorem satisfies_decides (opt checked hash : bool) a cs :
  (opt = true -> checked = true) -> small_domains -> bytes_ok (bindings a) ->
  allowFreeValues a = false ->
  Forall (evaluable_constraint checked (assignment_env a)) cs ->
  exists b, satisfies opt hash a cs = Ok b /\
    (b = true <-> Forall (fun c => denote checked (assignment_env a) c = Some 1) cs).
Proof. intros Hopt. by apply satisfies_ok. Qed.

(** The constraints an assignment turns into characterise its bindings:
    they are well-typed Boolean expressions, and an environment satisfies all
    of them exactly when it gives every bound array the bytes of the
    assignment. *)
Theorem createConstraintsFromAssignment_characterises (opt checked : bool) a :
  (opt = true -> checked = true) -> complete_bindings (bindings a) ->
  exists out, createConstraintsFromAssignment opt a = Ok out /\
    Forall (fun c => wt c /\ getWidth c = 1) out /\
    forall ρ, Forall (fun c => denote checked ρ c = Some 1) out <-> matches_bindings (bindings a) ρ.
Proof. intros Hopt. by apply bindings_constraints_ok. Qed.

End theorems.

(** ** Witnesses *)
Section witnesses.
#[local] Existing Instance Examples.arrays.
Import Examples.

(* [a] starts with the bytes 7, 8 *)
Definition sample_assignment (free : bool) : Assignment :=
  {| allowFreeValues := free; bindings := [(1%positive, [7; 8])] |}.

(* a[k[1] - 8] + 10 / a[0], where k[1] is 9 *)
Definition sample_expr : expr :=
  Binary Add (Read 1 UNil (Binary Sub (Cast ZExt (Read 2 UNil (Constant (word 1))) 32) (Constant (word 8))))
    (Binary UDiv (Constant (byte 10)) (a_at 0)).

(* a full assignment of [a] *)
Definition full_assignment : Assignment :=
  {| allowFreeValues := false; bindings := [(1%positive, map Z.of_nat (List.seq 0 16))] |}.

Lemma sample_small_domains : small_domains.
Proof. intros p. by destruct p as [| |]. Qed.

Lemma sample_bytes free : bytes_ok (bindings (sample_assignment free)).
Proof. repeat constructor; cbn; lia. Qed.

Lemma sample_wt : wt sample_expr.
Proof. pose proof wt_a. pose proof wt_k. cbn. split_and!; try done; cbn; lia. Qed.

Lemma sample_complete : complete_bindings (bindings full_assignment).
Proof.
  constructor; [|constructor]. split; [apply wt_a|]. split; [done|]. split; [done|].
  cbn. repeat constructor; lia.
Qed.

(** A [NotOptimizedExpr] over a constant is rebuilt by [visitExpr] and never
    reaches [visitExprPost]: it is not folded, and the evaluation of an
    expression that contains one is not a constant. *)
Lemma notoptimized_constant_stays :
  evaluate false true full_assignment (NotOptimized (Constant (byte 5))) =
    Ok (NotOptimized (Constant (byte 5))) /\
  evaluate false true full_assignment (NotOptimized (a_at 5)) = Ok (Constant (byte 5)).
Proof. split; reflexivity. Qed.

Lemma evaluate_exact_witness :
  denote false (assignment_env (sample_assignment false)) sample_expr = Some 9 /\
  exists c, evaluate false true (sample_assignment false) sample_expr = Ok (Constant c) /\
    getBitWidth c = getWidth sample_expr /\ uval c = 9.
Proof.
  split; [by vm_compute|].
  apply (evaluate_exact false false true (sample_assignment false) sample_expr 9); try done.
  - apply sample_small_domains.
  - apply sample_bytes.
  - apply sample_wt.
Defined.

Lemma evaluate_typed_equivalent_witness :
  exists r, evaluate false true (sample_assignment true) sample_expr = Ok r /\ wt r /\
    getWidth r = getWidth sample_expr /\
    forall ρ v, agrees (sample_assignment true) ρ ->
      denote false ρ sample_expr = Some v -> denote false ρ r = Some v.
Proof.
  apply (evaluate_typed_equivalent false false true (sample_assignment true) sample_expr
    (assignment_env (sample_assignment true)));
    [done|apply sample_small_domains|apply sample_bytes|done|apply sample_wt
    |apply assignment_env_agrees|by eexists].
Defined.

Lemma satisfies_decides_witness :
  exists b, satisfies false true full_assignment
      [Binary Eq (Constant (byte 3)) (a_at 3); Binary Ult (a_at 2) (a_at 1)] = Ok b /\
    (b = true <-> Forall (fun c => denote false (assignment_env full_assignment) c = Some 1)
      [Binary Eq (Constant (byte 3)) (a_at 3); Binary Ult (a_at 2) (a_at 1)]).
Proof.
  apply (satisfies_decides false false true full_assignment); try done.
  - apply sample_small_domains.
  - repeat constructor; cbn; lia.
  - pose proof wt_a. repeat constructor; cbn; try done; by eexists.
Defined.

Lemma createConstraintsFromAssignment_characterises_witness :
  exists out, createConstraintsFromAssignment false full_assignment = Ok out /\
    Forall (fun c => wt c /\ getWidth c = 1) out /\
    forall ρ, Forall (fun c => denote false ρ c = Some 1) out <->
      matches_bindings (bindings full_assignment) ρ.
Proof.
  apply (createConstraintsFromAssignment_characterises false false full_assignment); [done|].
  apply sample_complete.
Defined.
End witnesses.
