(* ===== verification/ExprClosed.v ===== *)
(** Classes of expressions the constructors of the binary kinds stay in.

    [CreateClosed strict P] states how a class [P] treats the nodes that
    [X::create] (klee/lib/Expr/Expr.cpp) takes apart and builds; a strict
    class has no binary node over two constants.  Every rewrite of the
    constructors then stays in [P] ([BinaryExpr_create_closed]).  Three
    classes the solvers rely on are instances: [foldable] (evaluation reaches
    a constant), [in_bounds] (reads stay inside their arrays) and [grounded]
    (an expression that mentions no byte of an array is a constant). *)
From Stdlib Require Import ZArith Lia Bool.
From stdpp Require Import base list numbers option.
From S2P Require Import Prelude APInt Expr ExprCreate ExprSem ExprCompare ExprCreateCorrect ExprFactory ExprVisitor ExprReads ExprEval.
Open Scope Z_scope.

(** The nodes every class has: the other kinds, and the arithmetic of truth
    values, the constructors do not build on their own account. *)
Definition plain_node `{A : APInt} {AR : Arrays} (k : BinKind) (l : expr) : Prop :=
  match k with
  | And | Or | Xor | Eq => True
  | Add | Sub | Mul | SRem | Ult | Ule | Slt | Sle => getWidth l <> 1
  | _ => False
  end.

Class CreateClosed `{A : APInt} {AR : Arrays} (strict : bool) (node : BinKind -> expr -> expr -> Prop) (P : expr -> Prop) : Prop := {
  closed_constant v : P (Constant v);
  closed_node k l r : plain_node k l -> node k l r;
  closed_binary k l r :
    P (Binary k l r) <-> P l /\ P r /\ (strict = true -> isConstant l && isConstant r = false) /\ node k l r;
  closed_cast k s w : P (Cast k s w) -> P s;
  closed_index root u i : P (Read root u i) -> P i;
}.

Section closed.
Context {A : APInt} {AR : Arrays} (opt : bool).
Context {strict : bool} {node : BinKind -> expr -> expr -> Prop} (P : expr -> Prop) {HP : CreateClosed strict node P}.

(** The two sides of a binary node. *)
Definition pair_ok (l r : expr) : Prop := strict = true -> isConstant l && isConstant r = false.

(** What [m] returns is in the class. *)
Definition gives (m : res expr) : Prop := forall e, m = Ok e -> P e.

Lemma constant_in v : P (Constant v).
Proof. apply closed_constant. Qed.

Lemma gives_bind m k : gives m -> (forall e, P e -> gives (k e)) -> gives (res_bind m k).
Proof. intros Hm Hk e H. apply res_bind_inv in H as (x & Hx & H). eapply Hk; eauto. Qed.

Lemma gives_assert b m : gives m -> gives (res_assert b m).
Proof. intros Hm e H. apply res_assert_inv in H as [_ H]. auto. Qed.

Lemma gives_ok e : P e -> gives (Ok e).
Proof. by intros H ? [= <-]. Qed.

Lemma gives_fail : gives AssertFail.
Proof. by intros ? ?. Qed.

Lemma gives_binary k l r : P l -> P r -> pair_ok l r -> node k l r -> gives (Ok (Binary k l r)).
Proof. intros. by apply gives_ok, closed_binary. Qed.

Lemma node_logic k l r : match k with And | Or | Xor | Eq => True | _ => False end -> node k l r.
Proof. intros H. apply closed_node. by destruct k. Qed.

Lemma node_wide k l r : getWidth l <> 1 -> plain_node k l -> node k l r.
Proof. intros _. apply closed_node. Qed.

Lemma gives_constant v : gives (Ok (Constant v)).
Proof. apply gives_ok, closed_constant. Qed.

Lemma gives_const v w : gives (const_create v w).
Proof. unfold const_create. apply gives_assert, gives_constant. Qed.

Lemma gives_op k a b (f : ap -> res expr) : (forall c, gives (f c)) -> gives (res_bind (const_op k a b) f).
Proof. intros Hf e H. apply res_bind_inv in H as (x & Hx & H). eapply Hf; eauto. Qed.

Lemma pair_ok_r l r : isConstant r = false -> pair_ok l r.
Proof. intros H _. rewrite H. apply andb_false_r. Qed.

Lemma pair_ok_l l r : isConstant l = false -> pair_ok l r.
Proof. intros H _. by rewrite H. Qed.

Create HintDb closed.
#[local] Hint Extern 1 (node _ _ _) => first [by apply node_logic | apply closed_node; assumption] : closed.
#[local] Hint Resolve constant_in gives_fail gives_const gives_constant pair_ok_l pair_ok_r : closed.
#[local] Hint Extern 1 (isConstant _ = false) => reflexivity : closed.

(** The kinds the constructors call each other for. *)
Definition rec_kind (k : BinKind) : bool :=
  match k with Add | Sub | And | Or | Eq => true | _ => false end.

(** The operands a node of the other kinds is built of. *)
Definition operands_ok (k : BinKind) (l r : expr) : Prop :=
  match k with
  | UDiv | SDiv | URem | Shl | LShr | AShr => getWidth l <> 1 -> node k l r
  | _ => True
  end.

#[local] Hint Extern 1 (rec_kind _ = true) => reflexivity : closed.

(** Splits a program into the constructors it calls; [closed_parts] opens the
    binary nodes of the hypotheses. *)
Ltac closed_parts :=
  repeat match goal with H : P (Binary _ _ _) |- _ => apply closed_binary in H as (? & ? & ? & ?) end.

Ltac in_class := first [by auto with closed | closed_parts; by auto with closed].

Ltac give rec :=
  repeat first
  [ apply gives_fail
  | apply gives_const
  | apply gives_constant
  | apply gives_op; intros ?
  | apply gives_bind; [|intros ? ?]
  | apply gives_assert
  | apply rec; in_class
  | apply gives_binary; in_class
  | apply gives_ok; in_class
  | match goal with
    | |- gives (if ?x =? ?y then _ else _) => destruct (Z.eqb_spec x y)
    | |- gives (if ?b then _ else _) => destruct b
    | |- gives (match ?x with _ => _ end) => destruct x
    end ].

Section rec.
Context (rec : BinKind -> expr -> expr -> res expr).
Context (Hrec : forall k l r, rec_kind k = true -> P l -> P r -> gives (rec k l r)).

Lemma Eq_create_closed l r : P l -> P r -> pair_ok l r -> gives (EqExpr_create l r).
Proof. intros. unfold EqExpr_create. give Hrec. Qed.

Lemma TryConst_loop_closed cl rd index vals : forall i n acc,
  P rd -> isConstant rd = false -> P index -> P acc ->
  gives (TryConstArrayOpt_loop rec cl rd index vals i n acc).
Proof.
  induction vals as [|v vals IH]; intros i n acc H1 Hc H2 H3; cbn [TryConstArrayOpt_loop]; [by apply gives_ok|].
  destruct (expr_eqb _ _); [|by apply IH].
  destruct (_ <? _); [by apply Eq_create_closed; auto with closed|].
  apply gives_bind; [apply Hrec; unfold const_alloc; auto with closed|]. intros m Hm.
  apply gives_bind; [by apply Hrec; auto with closed|]. intros a Ha. by apply IH.
Qed.

Lemma Eq_partialR_closed r : forall cl,
  P r -> pair_ok (Constant cl) r -> gives (EqExpr_createPartialR opt rec cl r).
Proof.
  induction r as [v|s IH|root head i IHi|c IHc t IHt f IHf|l IHl r IHr|e IH off w|k s IH w|e IH|k l IHl r IHr];
    intros cl H Hp; cbn [EqExpr_createPartialR];
    pose proof (fun r => Eq_create_closed (Constant cl) r (closed_constant cl)) as HE;
    destruct (_ =? Bool_w);
    try (destruct (const_isTrue cl); [by apply gives_ok|by apply HE]); try (by apply HE).
  - destruct opt; [|by apply HE]. unfold TryConstArrayOpt.
    destruct (_ || _); [by apply HE|].
    apply TryConst_loop_closed; [done|done|by eapply closed_index|apply closed_constant].
  - apply closed_cast in H.
    destruct k; destruct (expr_eqb _ _); first [by apply gives_const | by apply Hrec; auto with closed].
  - destruct (const_isTrue cl); [by apply gives_ok|].
    destruct k; try (by apply HE).
    + unfold createIsZero_with. give Hrec.
    + destruct l; try (by apply HE). destruct (_ && _); [|by apply HE]. apply gives_ok. by closed_parts.
  - destruct k; try (by apply HE); destruct l; try (by apply HE); closed_parts;
      (apply gives_bind; [by apply Hrec; auto with closed|]; intros d Hd; destruct d; try apply gives_fail; by apply IHr).
Qed.

Lemma lin_form_closed e k c a :
  lin_form e = Some (k, c, a) -> P e -> P a /\ pair_ok (Constant c) a.
Proof. intros [-> _]%lin_form_spec (? & ? & ? & _)%closed_binary. done. Qed.

Lemma Add_closed l r : P l -> P r -> pair_ok l r -> gives (AddExpr_create rec l r).
Proof.
  intros Hl Hr Hp. destruct (Z.eq_dec (getWidth l) 1) as [H1|H1].
  { unfold AddExpr_create, XorExpr_create. rewrite H1. give Hrec. }
  rewrite AddExpr_create_forms by done. unfold add_right.
  destruct (lin_form l) as [[[k c] a]|] eqn:El; [|destruct (lin_form r) as [[[k c] a]|] eqn:Er].
  - destruct (lin_form_closed _ _ _ _ El Hl). destruct k; give Hrec.
  - destruct (lin_form_closed _ _ _ _ Er Hr). destruct k; give Hrec.
  - give Hrec.
Qed.

Lemma Sub_closed l r : P l -> P r -> pair_ok l r -> gives (SubExpr_create rec l r).
Proof.
  intros Hl Hr Hp. destruct (Z.eq_dec (getWidth l) 1) as [H1|H1].
  { unfold SubExpr_create, XorExpr_create. rewrite H1. give Hrec. }
  destruct (expr_eqb l r) eqn:He.
  { unfold SubExpr_create. rewrite He. replace (getWidth l =? Bool_w) with false
      by (symmetry; by apply Z.eqb_neq). apply gives_constant. }
  rewrite SubExpr_create_forms by done. unfold sub_right.
  destruct (lin_form l) as [[[k c] a]|] eqn:El; [|destruct (lin_form r) as [[[k c] a]|] eqn:Er].
  - destruct (lin_form_closed _ _ _ _ El Hl). destruct k; give Hrec.
  - destruct (lin_form_closed _ _ _ _ Er Hr). destruct k; give Hrec.
  - give Hrec.
Qed.

Lemma Xor_partial_closed cl r : P r -> isConstant r = false -> gives (XorExpr_createPartialR opt rec cl r).
Proof.
  intros Hr Hc. unfold XorExpr_createPartialR, EqExpr_createPartial. destruct (const_isZero cl); [by apply gives_ok|].
  destruct (_ =? Bool_w); [|by apply gives_binary; auto with closed]. apply gives_bind; [apply gives_const|].
  intros z _. destruct z; try apply gives_fail. apply Eq_partialR_closed; auto with closed.
Qed.

Lemma Add_partial_closed cl r : P r -> isConstant r = false -> gives (AddExpr_createPartialR opt rec cl r).
Proof.
  intros Hr Hc. unfold AddExpr_createPartialR. destruct (Z.eqb_spec (getBitWidth cl) Bool_w); [by apply Xor_partial_closed|].
  give Hrec.
Qed.

Lemma BCREATE_R_closed k partialL partialR general l r :
  P l -> P r ->
  (forall c, isConstant l = false -> gives (partialL l c)) ->
  (forall c, isConstant r = false -> gives (partialR c r)) ->
  (pair_ok l r -> gives (general l r)) -> gives (BCREATE_R k partialL partialR general l r).
Proof.
  intros Hl Hr HL HR HG. unfold BCREATE_R. apply gives_assert.
  destruct l, r; try (by apply HL); try (by apply HR); try (by apply HG; auto with closed).
  apply gives_op. intros. apply gives_constant.
Qed.

Lemma BCREATE_closed k general l r :
  (pair_ok l r -> gives (general l r)) -> gives (BCREATE k general l r).
Proof.
  intros HG. unfold BCREATE. apply gives_assert.
  destruct l, r; try (by apply HG; auto with closed). apply gives_op. intros. apply gives_constant.
Qed.

Lemma step_closed k l r : P l -> P r -> operands_ok k l r -> gives (create_step opt rec k l r).
Proof.
  intros Hl Hr Hn.
  destruct k; cbn [create_step]; try apply gives_fail;
    first [apply BCREATE_R_closed; [done|done|intros c Hc|intros c Hc|intros Hp] | apply BCREATE_closed; intros Hp];
    unfold AddExpr_createPartial, SubExpr_createPartial, MulExpr_createPartial, MulExpr_createPartialR, XorExpr_createPartial,
      AndExpr_createPartialR, AndExpr_createPartial, OrExpr_createPartialR, OrExpr_createPartial, EqExpr_createPartial;
    first [by apply Add_partial_closed | by apply Xor_partial_closed | by apply Add_closed | by apply Sub_closed
      | by apply Eq_partialR_closed; auto with closed | by apply Eq_create_closed | idtac];
    unfold MulExpr_create, AndExpr_create, OrExpr_create, XorExpr_create, UDivExpr_create,
      SDivExpr_create, URemExpr_create, SRemExpr_create, ShlExpr_create, LShrExpr_create, AShrExpr_create, UltExpr_create,
      UleExpr_create, SltExpr_create, SleExpr_create, createIsZero_with.
  all: try (apply gives_op; intros; by apply Add_partial_closed).
  all: try (unfold SubExpr_createPartialR; destruct (Z.eqb_spec (getBitWidth c) Bool_w); [by apply Xor_partial_closed|]).
  all: give Hrec.
Qed.
End rec.

Lemma create_closed fuel : forall k l r, P l -> P r -> operands_ok k l r -> gives (create opt fuel k l r).
Proof.
  induction fuel as [|fuel IH]; intros k l r Hl Hr Hn; [by intros ? ?|]. apply step_closed; [|done..].
  intros k' l' r' Hk ? ?. apply IH; [done..|]. by destruct k'.
Qed.

Lemma BinaryExpr_create_closed k l r : P l -> P r -> operands_ok k l r -> gives (BinaryExpr_create opt k l r).
Proof.
  intros Hl Hr Hn. pose proof (fun k l r => create_closed (create_fuel l r) k l r) as H.
  destruct k; cbn [BinaryExpr_create]; try (by apply H).
  unfold NeExpr_create. apply gives_bind; [apply gives_const|]. intros z Hz.
  apply gives_bind; [by apply H|]. intros e He. by apply H.
Qed.
End closed.

(** ** Instances *)
Section instances.
Context {A : APInt} {AR : Arrays} (checked : bool).

(** Every node. *)
Definition any_node (k : BinKind) (l r : expr) : Prop := True.

#[export] Instance foldable_closed : CreateClosed false any_node (fun e => foldable e = true).
Proof.
  split; cbn; unfold any_node; try done.
  - intros _ l r. rewrite andb_true_iff. split; [|tauto]. by intros [? ?].
  - by intros _ u i [_ ?]%andb_prop.
Qed.

#[export] Instance in_bounds_closed : CreateClosed false any_node (in_bounds checked).
Proof.
  split; unfold in_bounds, any_node; try done.
  - intros k l r. cbn [within]. split.
    + intros H. split; [|split; [|by split]]; intros ρ; by destruct (H ρ).
    + intros (Hl & Hr & _) ρ. by split.
  - intros root u i H ρ. specialize (H ρ). rewrite within_Read in H. apply H.
Qed.

Lemma grounded_inv e : grounded e = true -> isConstant e = true \/ has_reads e = true.
Proof. destruct e; cbn [grounded]; rewrite andb_true_iff, orb_true_iff; tauto. Qed.

#[export] Instance grounded_closed : CreateClosed true any_node (fun e => grounded e = true).
Proof.
  split; cbn [grounded isConstant has_reads]; unfold any_node; try done.
  - intros k l r. cbn [orb]. rewrite !andb_true_iff. split.
    + intros [Hh [Hl Hr]]. split; [done|]. split; [done|]. split; [|done]. intros _. apply andb_false_iff.
      apply orb_true_iff in Hh. destruct Hh as [Hh|Hh]; [left; by destruct l|right; by destruct r].
    + intros (Hl & Hr & Hc & _). specialize (Hc eq_refl). split; [|done]. apply orb_true_iff.
      apply andb_false_iff in Hc. destruct Hc as [Hc|Hc]; [left|right].
      * destruct (grounded_inv l Hl); congruence.
      * destruct (grounded_inv r Hr); congruence.
  - intros k s w H. apply andb_prop in H. apply H.
  - intros root u i H. apply andb_prop in H. apply H.
Qed.
End instances.
