(* ===== verification/ExprUtil.v ===== *)
(** The arrays an expression mentions: [SymbolicObjectFinder] and
    [findSymbolicObjects] of klee/lib/Expr/ExprUtil.cpp.

    The finder is a visitor of [ExprVisitor.v] with two fields: the set
    [results] of the arrays seen and the vector [objects] they are pushed to.
    [findSymbolicObjects_exact]: the vector ends up with exactly the symbolic
    arrays the expressions mention, once each; and, by [denote_frame], no
    other symbolic array matters to their values. *)
From Stdlib Require Import ZArith Lia Bool.
From stdpp Require Import base list numbers option gmap sets.
From S2P Require Import Prelude APInt Expr ExprCreate ExprSem ExprCompare ExprCreateCorrect ExprFactory ExprVisitor.
Open Scope Z_scope.

Section finder.
Context {A : APInt} {AR : Arrays}.

(** [results] and [objects]. *)
Record found : Type := Found {
  results : gset positive;
  objects : list positive;
}.

Notation finds := (visits (X:=found)).

(* if (results.insert(ul.root).second) objects.push_back(ul.root) *)
Definition found_insert (root : positive) (f : found) : found :=
  if bool_decide (root ∈ results f) then f
  else Found ({[root]} ∪ results f) (objects f ++ [root]).

Definition add_object (root : positive) : finds unit := fun s =>
  Ok (tt, if isSymbolicArray (arrayAt root) then (fst s, found_insert root (snd s)) else s).

Section virtual.
Variable visit : expr -> finds expr.

(* the loop over the update nodes *)
Fixpoint visit_updates (un : updates) : finds unit :=
  match un with
  | UNil => sret tt
  | UNode i v next =>
      do* _ := visit i in
      do* _ := visit v in
      visit_updates next
  end.

Definition finder_visitRead (root : positive) (head : updates) : finds Action :=
  do* _ := visit_updates head in
  do* _ := add_object root in
  sret DoChildren.

Definition finder_visitKind (e : expr) : finds Action :=
  match e with
  | Read root head _ => finder_visitRead root head
  | _ => sret DoChildren
  end.
End virtual.

Definition SymbolicObjectFinder : ExprVisitor (X:=found) := {|
  recursive := false;
  visitExpr := base_visitExpr;
  visitExprPost := base_visitExprPost;
  visitKind := finder_visitKind;
|}.

Context (ConstArrayOpt UseVisitorHash : bool).

Fixpoint findSymbolicObjects_loop (es : list expr) : finds unit :=
  match es with
  | [] => sret tt
  | e :: es' =>
      do* _ := visit ConstArrayOpt UseVisitorHash SymbolicObjectFinder (S (deep_size e)) e in
      findSymbolicObjects_loop es'
  end.

(* the vector [objs] is extended *)
Definition findSymbolicObjects (es : list expr) (objs : list positive) : res (list positive) :=
  let* p := findSymbolicObjects_loop es ([], Found ∅ objs) in
  Ok (objects (snd (snd p))).

(** ** Specification *)

Fixpoint mentions (os : positive) (e : expr) : Prop :=
  match e with
  | Constant _ => False
  | NotOptimized s => mentions os s
  | Read root u i =>
      (root = os /\ isSymbolicArray (arrayAt os) = true) \/ mentions_updates os u \/ mentions os i
  | Select c t f => mentions os c \/ mentions os t \/ mentions os f
  | Concat l r => mentions os l \/ mentions os r
  | Extract e _ _ => mentions os e
  | Cast _ s _ => mentions os s
  | Not e => mentions os e
  | Binary _ l r => mentions os l \/ mentions os r
  end
with mentions_updates (os : positive) (u : updates) : Prop :=
  match u with
  | UNil => False
  | UNode i v n => mentions os i \/ mentions os v \/ mentions_updates os n
  end.

End finder.

(** ** The frame of an expression *)
Section frame.
Context {A : APInt} {L : APIntLaws A} {AR : Arrays}.
Context (checked : bool).

(** The environments agree on an array. *)
Definition agree_on (ρ ρ' : env) (os : positive) : Prop := forall i, ρ os i = ρ' os i.

Lemma denote_frame_both ρ ρ' :
  (forall os, isSymbolicArray (arrayAt os) = false -> agree_on ρ ρ' os) ->
  (forall e, (forall os, mentions os e -> agree_on ρ ρ' os) -> denote checked ρ e = denote checked ρ' e) /\
  (forall u, (forall os, mentions_updates os u -> agree_on ρ ρ' os) -> forall root i,
     agree_on ρ ρ' root -> denote_updates checked ρ root u i = denote_updates checked ρ' root u i).
Proof.
  intros Hc. apply expr_updates_ind; cbn [mentions mentions_updates]; intros.
  - done.
  - cbn. auto.
  - cbn. rewrite H0 by auto. apply option_bind_ext_fun. intros i. apply H; [auto|].
    destruct (isSymbolicArray (arrayAt root)) eqn:E; [|by apply Hc]. apply H1. by left.
  - cbn. by rewrite H, H0, H1 by auto.
  - cbn. by rewrite H, H0 by auto.
  - cbn. by rewrite H by auto.
  - cbn. by rewrite H by auto.
  - cbn. by rewrite H by auto.
  - cbn. by rewrite H, H0 by auto.
  - cbn. unfold array_init. by rewrite (H0 i).
  - rewrite !denote_updates_node, H by auto. apply option_bind_ext_fun. intros j.
    destruct (j =? i); auto.
Qed.

Lemma denote_frame ρ ρ' e :
  (forall os, isSymbolicArray (arrayAt os) = false -> agree_on ρ ρ' os) ->
  (forall os, mentions os e -> agree_on ρ ρ' os) ->
  denote checked ρ e = denote checked ρ' e.
Proof. intros Hc He. by apply (denote_frame_both ρ ρ' Hc). Qed.

Scheme same_mut' := Induction for same Sort Prop
  with same_updates_mut' := Induction for same_updates Sort Prop.
Combined Scheme same_ind_both from same_mut', same_updates_mut'.

(** Structurally equal expressions mention the same arrays. *)
Lemma same_mentions_both :
  (forall a b, same a b -> forall os, mentions os a <-> mentions os b) /\
  (forall u u', same_updates u u' -> forall os, mentions_updates os u <-> mentions_updates os u').
Proof.
  apply same_ind_both; cbn; intros;
    repeat match goal with H : forall os, _ <-> _ |- context [mentions ?o _] => specialize (H o) end;
    repeat match goal with H : forall os, _ <-> _ |- context [mentions_updates ?o _] => specialize (H o) end;
    tauto.
Qed.

Lemma same_trans_both :
  (forall a b, same a b -> forall c, same b c -> same a c) /\
  (forall u u', same_updates u u' -> forall u'', same_updates u' u'' -> same_updates u u'').
Proof.
  apply same_ind_both; intros;
    match goal with H : same _ ?c |- same _ ?c => inversion H | H : same_updates _ ?c |- _ => inversion H end;
    subst; constructor; auto; congruence.
Qed.

Lemma same_refl_both :
  (forall e, same e e) /\ (forall u, same_updates u u).
Proof. apply expr_updates_ind; intros; by constructor. Qed.

End frame.

(** ** Correctness of the finder *)

Lemma exists_cons {T} (P : T -> Prop) x l : (exists k, k ∈ x :: l /\ P k) <-> P x \/ exists k, k ∈ l /\ P k.
Proof.
  setoid_rewrite elem_of_cons. split.
  - intros (k & [->|Hk] & HP); eauto.
  - intros [HP|(k & Hk & HP)]; eauto.
Qed.

Lemma exists_nil {T} (P : T -> Prop) : (exists k, k ∈ [] /\ P k) <-> False.
Proof. split; [|done]. by intros (? & ?%not_elem_of_nil & _). Qed.

Lemma mentions_kids `{A : APInt} {AR : Arrays} os e :
  (match e with Read _ _ _ => False | _ => True end) ->
  mentions os e <-> exists k, k ∈ kids e /\ mentions os k.
Proof. destruct e; intros Hr; try done; cbn [kids mentions]; rewrite ?exists_cons, exists_nil; tauto. Qed.

Section correct.
Context {A : APInt} {L : APIntLaws A} {AR : Arrays}.
Context (opt hash : bool).

(** The arrays of a visited expression have been found, and its result is
    structurally equal to it. *)
Definition finder_ok (s : visited_ty * found) : Prop :=
  Forall (fun p => wt (fst p) /\ wt (snd p) /\ same (snd p) (fst p) /\
    forall os, mentions os (fst p) -> os ∈ objects (snd s)) (fst s) /\
  (forall os, os ∈ results (snd s) <-> os ∈ objects (snd s)) /\
  NoDup (objects (snd s)).

(** [m] finds the arrays of [M], and returns what [Q] says. *)
Definition collects {T} (M : positive -> Prop) (m : visits (X:=found) T) (Q : T -> Prop) : Prop :=
  forall s, finder_ok s -> exists x s', m s = Ok (x, s') /\ finder_ok s' /\
    (forall os, os ∈ objects (snd s') <-> os ∈ objects (snd s) \/ M os) /\ Q x.

Lemma collects_ret {T} (x : T) (Q : T -> Prop) : Q x -> collects (fun _ => False) (sret x) Q.
Proof. intros HQ s Hs. exists x, s. split_and!; [done|done|tauto|done]. Qed.

Lemma collects_bind {T U} M1 M2 (m : visits (X:=found) T) (k : T -> visits (X:=found) U) Q Q' :
  collects M1 m Q -> (forall x, Q x -> collects M2 (k x) Q') ->
  collects (fun os => M1 os \/ M2 os) (sbind m k) Q'.
Proof.
  intros Hm Hk s Hs. destruct (Hm s Hs) as (x & s1 & E & Hs1 & Hos & HQ). unfold sbind. rewrite E. cbn.
  destruct (Hk x HQ s1 Hs1) as (y & s2 & E2 & Hs2 & Hos2 & HQ2).
  exists y, s2. split_and!; [done|done| |done]. intros os. rewrite Hos2, Hos. tauto.
Qed.

Lemma collects_weaken {T} (M M' : positive -> Prop) (m : visits (X:=found) T) (Q Q' : T -> Prop) :
  collects M m Q -> (forall os, M os <-> M' os) -> (forall x, Q x -> Q' x) -> collects M' m Q'.
Proof.
  intros Hm HM HQ s Hs. destruct (Hm s Hs) as (x & s' & E & Hs' & Hos & HQx).
  exists x, s'. split_and!; [done|done| |auto]. intros os. by rewrite Hos, HM.
Qed.

Lemma found_insert_objects root f os :
  (forall os, os ∈ results f <-> os ∈ objects f) ->
  os ∈ objects (found_insert root f) <-> os ∈ objects f \/ os = root.
Proof.
  intros Hr. unfold found_insert. case_bool_decide as E.
  - split; [auto|]. intros [?| ->]; [done|by apply Hr].
  - cbn. rewrite elem_of_app, list_elem_of_singleton. done.
Qed.

Lemma add_object_ok root :
  collects (fun os => root = os /\ isSymbolicArray (arrayAt os) = true) (add_object root) (fun _ => True).
Proof.
  intros [vs f] (Hvs & Hr & Hn). cbn in *. unfold add_object. eexists tt, _. split; [done|].
  destruct (isSymbolicArray (arrayAt root)) eqn:E.
  - split; [|split; [|done]]; cbn.
    + split; [|split]; cbn.
      * eapply Forall_impl; [exact Hvs|]. intros [k r] (? & ? & ? & Hm). split_and!; try done. cbn in *.
        intros os Hos. apply found_insert_objects; auto.
      * intros os. rewrite found_insert_objects by done. unfold found_insert.
        case_bool_decide as Ed; [rewrite Hr; split; [auto|intros [?| ->]; [done|by apply Hr]]|].
        cbn. rewrite elem_of_union, elem_of_singleton, Hr. tauto.
      * unfold found_insert. case_bool_decide as Ed; [done|]. cbn. apply NoDup_app. split_and!; [done| |].
        -- intros os Hos Hin%list_elem_of_singleton. subst. apply Ed. by apply Hr.
        -- apply NoDup_singleton.
    + intros os. rewrite found_insert_objects by done.
      split; [intros [?| ->]; auto|intros [?|[-> _]]; auto].
  - split; [done|]. split; [|done]. intros os. cbn. split; [auto|]. intros [?|[-> ?]]; congruence.
Qed.

(** The result of visiting [e]. *)
Definition unchanged (e r : expr) : Prop := wt r /\ same r e.

Lemma unchanged_refl e : wt e -> unchanged e e.
Proof. intros. split; [done|]. apply same_refl_both. Qed.

Lemma visit_updates_ok visit root un :
  wt_updates root un ->
  (forall e, (deep_size e < S (deep_size_updates un))%nat -> wt e ->
     collects (fun os => mentions os e) (visit e) (unchanged e)) ->
  collects (fun os => mentions_updates os un) (visit_updates visit un) (fun _ => True).
Proof.
  intros Hwt Hv. induction un as [|i v next IH]; cbn [visit_updates mentions_updates]; [by apply collects_ret|].
  destruct Hwt as (Hi & Hvw & _ & _ & Hn). eapply collects_bind; [apply Hv; [cbn; lia|done]|]. intros _ _.
  eapply collects_bind; [apply Hv; [cbn; lia|done]|]. intros _ _. apply IH; [done|].
  intros e He. apply Hv. cbn. lia.
Qed.

Lemma visit_kids_finds visit es :
  Forall wt es ->
  Forall (fun e => collects (fun os => mentions os e) (visit e) (unchanged e)) es ->
  collects (fun os => exists e, e ∈ es /\ mentions os e) (visit_kids visit es) (Forall2 unchanged es).
Proof.
  intros Hwt Hv. induction Hv as [|e es He Hes IH].
  - cbn. eapply collects_weaken; [by apply (collects_ret _ (Forall2 unchanged []))| |done].
    intros os. by rewrite exists_nil.
  - apply Forall_cons_iff in Hwt as [Hwe Hwt]. cbn [visit_kids].
    eapply collects_weaken.
    + eapply collects_bind; [exact He|]. intros r Hr.
      eapply (collects_bind _ (fun _ => False)); [by apply IH|]. intros rs Hrs.
      apply (collects_ret _ (Forall2 unchanged (e :: es))). by constructor.
    + intros os. cbn beta. rewrite exists_cons. tauto.
    + done.
Qed.

Lemma kids_unchanged es ks :
  Forall wt es -> Forall2 unchanged es ks ->
  forallb (fun p => expr_eqb (fst p) (snd p)) (combine ks es) = true.
Proof.
  intros Hwt H. revert Hwt. induction H as [|e k es ks [Hk Hs] H IH]; intros Hwt; [done|].
  apply Forall_cons_iff in Hwt as [He Hwt]. cbn. rewrite IH by done. rewrite andb_true_r.
  apply Z.eqb_eq. by apply compare_same.
Qed.

Lemma finder_children_ok visit e :
  wt e -> isConstant e = false ->
  Forall (fun e => collects (fun os => mentions os e) (visit e) (unchanged e)) (kids e) ->
  collects (fun os => exists k, k ∈ kids e /\ mentions os k)
    (visit_children opt SymbolicObjectFinder visit e) (unchanged e).
Proof.
  intros Hwt HC Hk. unfold visit_children. eapply collects_weaken.
  - eapply (collects_bind _ (fun _ => False)); [apply visit_kids_finds; [by apply kids_wt|done]|].
    intros ks Hks. unfold kids_changed. rewrite kids_unchanged by (done || by apply kids_wt). cbn [negb].
    intros s Hs. unfold sbind, sret. cbn [res_bind fst snd]. unfold visit_post. rewrite HC.
    exists e, s. split; [done|]. split; [done|]. split; [tauto|by apply unchanged_refl].
  - intros os. cbn. tauto.
  - done.
Qed.

Lemma finder_visit_ok fuel : forall e,
  (deep_size e < fuel)%nat -> wt e ->
  collects (fun os => mentions os e) (visit opt hash SymbolicObjectFinder fuel e) (unchanged e).
Proof.
  induction fuel as [|fuel IH]; intros e Hf Hwt; [lia|]. cbn [visit].
  set (V := visit opt hash SymbolicObjectFinder fuel).
  assert (collects (fun os => mentions os e) (visitActual opt SymbolicObjectFinder V e) (unchanged e)) as HA.
  { unfold visitActual. destruct (isConstant e) eqn:HC.
    { destruct e; try done. by apply collects_ret, unchanged_refl. }
    assert (Forall (fun e => collects (fun os => mentions os e) (V e) (unchanged e)) (kids e)) as Hk.
    { pose proof (kids_wt e Hwt) as Hkw. rewrite Forall_forall in Hkw |- *. intros k Hin.
      apply IH; [|by apply Hkw].
      assert (deep_size k < deep_size e)%nat by (by apply kids_smaller). lia. }
    pose proof (finder_children_ok V e Hwt HC Hk) as Hchild.
    assert (match e with Read _ _ _ => False | _ => True end ->
      collects (fun os => mentions os e) (visit_children opt SymbolicObjectFinder V e) (unchanged e)) as Hother.
    { intros Hnr. eapply collects_weaken; [exact Hchild| |done]. intros os. symmetry. by apply mentions_kids. }
    change (collects (fun os => mentions os e) (sbind (finder_visitKind V e) (fun res =>
      match res with
      | DoChildren => visit_children opt SymbolicObjectFinder V e
      | SkipChildren => sret e
      | ChangeTo r => sret r
      end)) (unchanged e)).
    destruct e as [| |root head index| | | | | |]; try (by apply Hother).
    cbn [finder_visitKind]. unfold finder_visitRead. destruct Hwt as (Ha & Hu & Hi & Hiw).
    eapply collects_weaken.
    - eapply collects_bind.
      + eapply collects_bind; [apply (visit_updates_ok V root head Hu)|].
        * intros e' He'. apply IH. cbn in Hf. lia.
        * intros _ _. eapply collects_bind; [apply add_object_ok|]. intros _ _.
          by apply (collects_ret DoChildren (fun a => a = DoChildren)).
      + intros a ->. exact Hchild.
    - intros os. cbn [kids mentions]. rewrite exists_cons, exists_nil. tauto.
    - done. }
  destruct (negb hash || isConstant e); [exact HA|]. intros s Hs.
  destruct (visited_find e (fst s)) as [r|] eqn:E.
  - exists r, s. split; [done|]. split; [done|].
    assert (exists k, (k, r) ∈ fst s /\ expr_eqb k e = true) as (k & Hin & Heq).
    { clear -E. induction (fst s) as [|[k r'] vs IHv]; [done|]. cbn in E. destruct (expr_eqb k e) eqn:Ek.
      - injection E as ->. exists k. split; [by apply elem_of_cons; left|done].
      - destruct (IHv E) as (k' & ? & ?). exists k'. split; [by apply elem_of_cons; right|done]. }
    destruct Hs as (Hvs & _). rewrite Forall_forall in Hvs.
    destruct (Hvs (k, r)) as (Hk & Hr & Hsame & Hm); [done|]. cbn in *.
    apply Z.eqb_eq, compare_zero_same in Heq; [|done..]. split.
    + intros os. split; [auto|]. intros [?|Hos]; [done|]. apply Hm. by apply (proj1 same_mentions_both k e).
    + split; [done|]. by apply (proj1 same_trans_both r k).
  - destruct (HA s Hs) as (r & s' & Er & (Hvs & Hr & Hn) & Hos & Hu). unfold sbind. rewrite Er. cbn.
    exists r, (visited_insert e r (fst s'), snd s'). split; [done|]. split; [|split; [exact Hos|exact Hu]].
    split; [|split; [exact Hr|exact Hn]]. cbn. unfold visited_insert.
    destruct (visited_find e (fst s')); [done|]. constructor; [|done]. cbn. destruct Hu.
    split_and!; try done. intros os Hm. apply Hos. by right.
Qed.

Lemma findSymbolicObjects_loop_ok es :
  Forall wt es ->
  collects (fun os => exists e, e ∈ es /\ mentions os e) (findSymbolicObjects_loop opt hash es) (fun _ => True).
Proof.
  induction 1 as [|e es He Hes IH]; cbn [findSymbolicObjects_loop].
  - eapply collects_weaken; [by apply (collects_ret tt (fun _ => True))| |done].
    intros os. by rewrite exists_nil.
  - eapply collects_weaken.
    + eapply collects_bind; [apply finder_visit_ok; [lia|done]|]. intros _ _. exact IH.
    + intros os. cbn beta. by rewrite exists_cons.
    + done.
Qed.

Lemma findSymbolicObjects_ok es :
  Forall wt es ->
  exists objs, findSymbolicObjects opt hash es [] = Ok objs /\ NoDup objs /\
    forall os, os ∈ objs <-> exists e, e ∈ es /\ mentions os e.
Proof.
  intros Hwt. destruct (findSymbolicObjects_loop_ok es Hwt ([], Found ∅ [])) as (x & s' & E & (_ & _ & Hn) & Hos & _).
  { split; [constructor|]. split; [|constructor]. intros os. cbn. set_solver. }
  unfold findSymbolicObjects. rewrite E. cbn. eexists. split; [done|]. split; [done|].
  intros os. rewrite Hos. cbn. set_solver.
Qed.

End correct.

(** ** Properties *)

(** [findSymbolicObjects] finds exactly the symbolic arrays the
    expressions mention, once each; and these arrays are all that matters:
    environments that agree on them (and outside the constant arrays) give
    every expression the same value. *)
Theorem findSymbolicObjects_exact `{A : APInt} {L : APIntLaws A} {AR : Arrays} (opt hash : bool) es :
  Forall wt es ->
  exists objs, findSymbolicObjects opt hash es [] = Ok objs /\ NoDup objs /\
    (forall os, os ∈ objs <-> exists e, e ∈ es /\ mentions os e) /\
    forall checked ρ ρ',
      (forall os, os ∈ objs \/ isSymbolicArray (arrayAt os) = false -> agree_on ρ ρ' os) ->
      Forall (fun e => denote checked ρ e = denote checked ρ' e) es.
Proof.
  intros Hwt. destruct (findSymbolicObjects_ok opt hash es Hwt) as (objs & E & Hn & Hos).
  exists objs. split_and!; try done. intros checked ρ ρ' H. apply Forall_forall. intros e He.
  apply denote_frame; intros os Hm; apply H; [by right|]. left. apply Hos. by exists e.
Qed.

(** ** Witnesses *)
Section witnesses.
#[local] Existing Instance Examples.arrays.
Import Examples.

(* a[0] and a[1], both read twice, and the constant array k *)
Definition sample_reads : list expr := [Binary Add (a_at 0) (a_at 0); Binary Sub (a_at 1) (k_at (Constant (word 0)))].

Lemma sample_reads_wt : Forall wt sample_reads.
Proof.
  pose proof wt_a. pose proof wt_k. apply Forall_forall. intros e He.
  apply elem_of_cons in He as [->|He]; [|apply list_elem_of_singleton in He as ->];
    cbn; split_and!; try done; cbn; lia.
Qed.

Lemma findSymbolicObjects_exact_witness :
  findSymbolicObjects false true sample_reads [] = Ok [1%positive] /\
  forall os, os ∈ [1%positive] <-> exists e, e ∈ sample_reads /\ mentions os e.
Proof.
  assert (findSymbolicObjects false true sample_reads [] = Ok [1%positive]) as E by reflexivity.
  split; [exact E|].
  destruct (findSymbolicObjects_exact false true sample_reads) as (objs & E' & _ & H & _).
  { exact sample_reads_wt. }
  rewrite E in E'. injection E' as <-. exact H.
Defined.
End witnesses.
