(* ===== verification/ExprWeight.v ===== *)
(** Weights of expressions that the constructors do not increase.

    [weigh] adds up a weight per node ([Weights]); a node under an [Extract]
    or a cast counts [k_factor] times, because the constructors push an
    extraction into both sides of a concatenation.  When the weights satisfy
    [WeightLaws], [X::create] and [rebuild] return an expression that weighs
    no more than the node they were asked for ([rebuild_weight]).

    Two instances make the recursive rewriting of Constraints.cpp terminate:
    [read_count], the number of reads (and [NotOptimized] nodes), which a
    replacement lowers, and
    [node_weight], which bounds the size. *)
From Stdlib Require Import ZArith Lia Bool.
From stdpp Require Import base list numbers option.
From S2P Require Import Prelude APInt Expr ExprCreate ExprSem ExprCompare ExprCreateCorrect ExprFactory ExprVisitor ExprReads ExprEval ExprClosed.

#[local] Open Scope nat_scope.

Record Weights : Type := {
  k_const : nat;
  k_bin : BinKind -> nat;
  k_read : nat;
  k_select : nat;
  k_concat : nat;
  k_opaque : nat;    (* NotOptimized *)
  k_unary : nat;
  k_factor : nat;
}.

(** What a rewrite of the constructors may build, it must be able to pay for. *)
Record WeightLaws (K : Weights) : Prop := {
  law_eq_xor : k_bin K Eq <= k_bin K Xor;
  law_xor_add : k_bin K Xor <= k_bin K Add;
  law_add_sub : k_bin K Add = k_bin K Sub;
  law_and_mul : k_bin K And <= k_bin K Mul;
  law_or : k_bin K And + k_bin K Eq + k_const K <= k_bin K Or;
  law_not_and k : k = Shl \/ k = LShr \/ k = Ult \/ k = Slt -> k_bin K And + k_bin K Eq + k_const K <= k_bin K k;
  law_not_or k : k = Ule \/ k = Sle -> k_bin K Or + k_bin K Eq + k_const K <= k_bin K k;
  law_ne : k_bin K Eq + k_bin K Eq + k_const K <= k_bin K Ne;
  law_swap k : match k with
    | Ugt => k_bin K Ult <= k_bin K Ugt | Uge => k_bin K Ule <= k_bin K Uge
    | Sgt => k_bin K Slt <= k_bin K Sgt | Sge => k_bin K Sle <= k_bin K Sge | _ => True end;
  law_select : k_bin K Or + k_bin K Eq + k_const K <= k_select K;
  law_read : k_const K <= k_read K;
  law_factor : 1 <= k_factor K;
}.

Section weight.
Context {A : APInt} (K : Weights).

Fixpoint weigh (e : expr) : nat :=
  match e with
  | Constant _ => k_const K
  | NotOptimized s => k_opaque K + weigh s
  | Read _ u i => k_read K + weigh_updates u + weigh i
  | Select c t f => k_select K + weigh c + weigh t + weigh f
  | Concat l r => k_concat K + weigh l + weigh r
  | Extract e _ _ => k_factor K * weigh e
  | Cast _ s _ => k_unary K + k_factor K * weigh s
  | Not e => k_unary K + weigh e
  | Binary k l r => k_bin K k + weigh l + weigh r
  end
with weigh_updates (u : updates) : nat :=
  match u with
  | UNil => 0
  | UNode i v n => k_const K + weigh i + weigh v + weigh_updates n
  end.

End weight.

(** ** The constructors *)
Section create.
Context {A : APInt} {AR : Arrays} (K : Weights) (HK : WeightLaws K).

Notation weigh := (weigh K).
Notation kc := (k_const K).
Notation kb := (k_bin K).

Lemma const_weight e : kc <= weigh e.
Proof.
  pose proof (law_read K HK). pose proof (law_factor K HK).
  induction e; cbn; try nia; try lia.
Qed.

(** What [m] returns weighs at most [n]. *)
Definition within (m : res expr) (n : nat) : Prop := forall e, m = Ok e -> weigh e <= n.

Lemma within_ok e n : weigh e <= n -> within (Ok e) n.
Proof. by intros H ? [= <-]. Qed.
Lemma within_fail n : within AssertFail n.
Proof. by intros ? ?. Qed.
Lemma within_bind m k n n' : within m n' -> (forall e, weigh e <= n' -> within (k e) n) -> within (res_bind m k) n.
Proof. intros Hm Hk e H. apply res_bind_inv in H as (x & Hx & H). eapply Hk; [by apply Hm|done]. Qed.
Lemma within_assert b m n : within m n -> within (res_assert b m) n.
Proof. intros Hm e H. apply res_assert_inv in H as [_ H]. auto. Qed.
Lemma within_constant v n : kc <= n -> within (Ok (Constant v)) n.
Proof. intros H. by apply within_ok. Qed.
Lemma within_const v w n : kc <= n -> within (const_create v w) n.
Proof. intros H. unfold const_create. by apply within_assert, within_constant. Qed.
Lemma within_op k a b (f : ap -> res expr) n : (forall c, within (f c) n) -> within (res_bind (const_op k a b) f) n.
Proof. intros Hf e H. apply res_bind_inv in H as (x & Hx & H). eapply Hf; eauto. Qed.
Lemma within_le m n n' : within m n -> n <= n' -> within m n'.
Proof. intros H Hn e He. specialize (H e He). lia. Qed.

(* the constructors of truth values *)
Definition node_bound (k : BinKind) (l r : expr) : nat := kb k + weigh l + weigh r.

Section rec.
Context (rec : BinKind -> expr -> expr -> res expr).
Context (Hrec : forall k l r, within (rec k l r) (node_bound k l r)).

Lemma rec_within k l r n : kb k + weigh l + weigh r <= n -> within (rec k l r) n.
Proof. intros H. eapply within_le; [apply Hrec|exact H]. Qed.

Ltac weigh_up :=
  repeat match goal with e : expr |- _ => lazymatch goal with
    | H : kc <= weigh e |- _ => fail | _ => pose proof (const_weight e) end end;
  pose proof (law_eq_xor K HK); pose proof (law_xor_add K HK); pose proof (law_add_sub K HK);
  pose proof (law_and_mul K HK); pose proof (law_or K HK);
  cbn [ExprWeight.weigh const_alloc] in *; try lia.

Ltac weigh_rec :=
  repeat lazymatch goal with |- within _ _ => first
  [ simple apply within_fail
  | simple apply within_const
  | simple apply within_op; intros ?
  | simple apply within_assert
  | simple apply within_ok
  | simple apply rec_within
  | simple eapply within_bind; [simple apply Hrec|intros ? ?; unfold node_bound in *]
  | match goal with
    | |- within (if ?b then _ else _) _ => destruct b
    | |- within (match ?x with _ => _ end) _ => destruct x
    end ] end.

Lemma isZero_within e n : kb Eq + weigh e + kc <= n -> within (createIsZero_with rec e) n.
Proof.
  intros H. unfold createIsZero_with. eapply within_bind; [by apply (within_const _ _ kc)|].
  intros z Hz. apply rec_within. lia.
Qed.

Lemma Eq_create_within l r n : kb Eq + weigh l + weigh r <= n -> kc <= n -> within (EqExpr_create l r) n.
Proof. intros H Hc. unfold EqExpr_create. weigh_rec; cbn; lia. Qed.

Lemma Eq_partialR_within r : forall cl n, kb Eq + kc + weigh r <= n ->
  within (EqExpr_createPartialR false rec cl r) n.
Proof.
  induction r as [v|s IH|root head i IHi|c IHc t IHt f IHf|l IHl r IHr|e IH off w|k s IH w|e IH|k l IHl r IHr];
    intros cl n Hn; cbn [EqExpr_createPartialR]; destruct (_ =? Bool_w)%Z;
    try (destruct (const_isTrue cl); [apply within_ok; cbn in *; lia|]);
    try (apply Eq_create_within; cbn in *; lia).
  - destruct k; destruct (expr_eqb _ _); first [apply within_const; lia | apply rec_within];
      pose proof (law_factor K HK); cbn in *; nia.
  - pose proof (law_or K HK). destruct k; try (apply Eq_create_within; cbn in *; lia).
    + cbn in Hn. eapply within_bind; [by apply isZero_within|]. intros na Hna. eapply within_bind; [by apply isZero_within|]. intros nb Hnb.
      apply rec_within. lia.
    + destruct l; try (apply Eq_create_within; cbn in *; lia).
      destruct (_ && _); [apply within_ok|apply Eq_create_within]; cbn in *; lia.
  - destruct k; try (apply Eq_create_within; cbn in *; lia);
      (destruct l; try (apply Eq_create_within; cbn in *; lia));
      (eapply within_bind; [apply Hrec|]; intros d Hd; destruct d; try apply within_fail; apply IHr; cbn in *; lia).
Qed.

Lemma Xor_partial_within cl r n : kb Xor + kc + weigh r <= n -> within (XorExpr_createPartialR false rec cl r) n.
Proof.
  intros Hn. unfold XorExpr_createPartialR, EqExpr_createPartial.
  destruct (const_isZero cl); [apply within_ok; lia|].
  destruct (_ =? Bool_w)%Z; [|apply within_ok; cbn; lia].
  eapply within_bind; [by apply (within_const _ _ kc)|]. intros z Hz. destruct z; try apply within_fail.
  apply Eq_partialR_within. pose proof (law_eq_xor K HK). lia.
Qed.

Lemma Add_partial_within cl r n : kb Add + kc + weigh r <= n -> within (AddExpr_createPartialR false rec cl r) n.
Proof.
  intros Hn. pose proof (law_xor_add K HK). unfold AddExpr_createPartialR.
  destruct (_ =? Bool_w)%Z; [apply Xor_partial_within; lia|]. weigh_rec; weigh_up.
Qed.

Lemma Sub_partialR_within cl r n : kb Sub + kc + weigh r <= n -> within (SubExpr_createPartialR false rec cl r) n.
Proof.
  intros Hn. pose proof (law_xor_add K HK). pose proof (law_add_sub K HK). unfold SubExpr_createPartialR.
  destruct (_ =? Bool_w)%Z; [apply Xor_partial_within; lia|]. weigh_rec; weigh_up.
Qed.

Lemma Add_within l r : within (AddExpr_create rec l r) (node_bound Add l r).
Proof.
  destruct (Z.eq_dec (getWidth l) 1%Z) as [H1|H1].
  { unfold AddExpr_create, XorExpr_create, node_bound. rewrite H1. cbn. apply within_ok.
    pose proof (law_xor_add K HK). cbn. lia. }
  rewrite AddExpr_create_forms by done. unfold add_right, node_bound.
  destruct (lin_form l) as [[[k c] a]|] eqn:El; [|destruct (lin_form r) as [[[k c] a]|] eqn:Er].
  - apply lin_form_spec in El as [-> [-> | ->]]; weigh_rec; weigh_up.
  - apply lin_form_spec in Er as [-> [-> | ->]]; weigh_rec; weigh_up.
  - weigh_rec; weigh_up.
Qed.

Lemma Sub_within l r : within (SubExpr_create rec l r) (node_bound Sub l r).
Proof.
  destruct (Z.eq_dec (getWidth l) 1%Z) as [H1|H1].
  { unfold SubExpr_create, XorExpr_create, node_bound. rewrite H1. cbn. apply within_ok.
    pose proof (law_xor_add K HK). pose proof (law_add_sub K HK). cbn. lia. }
  destruct (expr_eqb l r) eqn:He.
  { unfold SubExpr_create, node_bound. rewrite He. replace (getWidth l =? Bool_w)%Z with false
      by (symmetry; by apply Z.eqb_neq). apply within_constant. pose proof (const_weight l). lia. }
  rewrite SubExpr_create_forms by done. unfold sub_right, node_bound.
  destruct (lin_form l) as [[[k c] a]|] eqn:El; [|destruct (lin_form r) as [[[k c] a]|] eqn:Er].
  - apply lin_form_spec in El as [-> [-> | ->]]; weigh_rec; weigh_up.
  - apply lin_form_spec in Er as [-> [-> | ->]]; weigh_rec; weigh_up.
  - weigh_rec; weigh_up.
Qed.

Lemma BCREATE_R_within k partialL partialR general l r n :
  kc <= n ->
  (forall c, r = Constant c -> within (partialL l c) n) -> (forall c, l = Constant c -> within (partialR c r) n) ->
  within (general l r) n -> within (BCREATE_R k partialL partialR general l r) n.
Proof.
  intros Hn HL HR HG. unfold BCREATE_R. apply within_assert.
  destruct l, r; try (by apply HL); try (by apply HR); try done.
  apply within_op. intros. by apply within_constant.
Qed.

Lemma BCREATE_within k general l r n : kc <= n -> within (general l r) n -> within (BCREATE k general l r) n.
Proof.
  intros Hn HG. unfold BCREATE. apply within_assert. destruct l, r; try done. apply within_op. intros. by apply within_constant.
Qed.

Lemma step_within k l r : within (create_step false rec k l r) (node_bound k l r).
Proof.
  pose proof (const_weight l). pose proof (const_weight r).
  assert (kc <= node_bound k l r) as Hc by (unfold node_bound; lia).
  pose proof (law_not_and K HK k) as Hna. pose proof (law_not_or K HK k) as Hno.
  destruct k; cbn [create_step]; try apply within_fail;
    first [apply BCREATE_R_within; [done|intros c ->|intros c ->|] | apply BCREATE_within; [done|]];
    unfold AddExpr_createPartial, SubExpr_createPartial, MulExpr_createPartial, MulExpr_createPartialR, XorExpr_createPartial,
      AndExpr_createPartialR, AndExpr_createPartial, OrExpr_createPartialR, OrExpr_createPartial, EqExpr_createPartial;
    first [by apply Add_within | by apply Sub_within | idtac]; unfold node_bound in *; cbn [ExprWeight.weigh] in *.
  all: try (apply Add_partial_within; lia).
  all: try (apply Sub_partialR_within; lia).
  all: try (apply Xor_partial_within; lia).
  all: try (apply Eq_partialR_within; lia).
  all: try (apply Eq_create_within; lia).
  all: try (apply within_op; intros; apply Add_partial_within; weigh_up).
  all: unfold MulExpr_create, AndExpr_create, OrExpr_create, XorExpr_create, UDivExpr_create,
      SDivExpr_create, URemExpr_create, SRemExpr_create, ShlExpr_create, LShrExpr_create, AShrExpr_create, UltExpr_create,
      UleExpr_create, SltExpr_create, SleExpr_create, AndExpr_createPartialR, AndExpr_createPartial.
  all: try (specialize (Hna ltac:(tauto))); try (specialize (Hno ltac:(tauto))).
  all: try (destruct (getWidth l =? Bool_w)%Z;
    [eapply within_bind; [apply isZero_within; reflexivity|intros ? ?; apply rec_within; lia]|apply within_ok; cbn; lia]).
  all: weigh_rec; weigh_up.
Qed.
End rec.

Lemma create_within fuel : forall k l r, within (create false fuel k l r) (node_bound k l r).
Proof. induction fuel as [|fuel IH]; intros k l r; [by intros ? ?|]. by apply step_within. Qed.

(** [X::create] returns nothing heavier than the node. *)
Lemma BinaryExpr_create_weight k l r : within (BinaryExpr_create false k l r) (node_bound k l r).
Proof.
  pose proof (fun k l r => create_within (create_fuel l r) k l r) as H.
  pose proof (law_swap K HK k) as Hs.
  destruct k; cbn [BinaryExpr_create]; try (by apply H);
    try (eapply within_le; [apply H|unfold node_bound; lia]).
  unfold NeExpr_create. eapply within_bind; [by apply (within_const _ _ kc)|]. intros z Hz.
  eapply within_bind; [by apply H|]. intros e He. eapply within_le; [apply H|].
  pose proof (law_ne K HK). unfold node_bound in *. lia.
Qed.
End create.

(** ** The other constructors, and [rebuild] *)
Section rebuild.
Context {A : APInt} {AR : Arrays} (K : Weights) (HK : WeightLaws K).

Notation weigh := (weigh K).
Notation within := (within K).
Notation kc := (k_const K).
Notation kb := (k_bin K).

Lemma factor_grows n : n <= k_factor K * n.
Proof. pose proof (law_factor K HK). nia. Qed.

Lemma NotExpr_create_weight e : weigh (NotExpr_create e) <= k_unary K + weigh e.
Proof. destruct e; cbn; lia. Qed.

Lemma concat_with_within extract l r n :
  (forall e off w, within (extract e off w) (k_factor K * weigh e)) ->
  k_concat K + weigh l + weigh r <= n -> within (ConcatExpr_create_with extract l r) n.
Proof.
  intros Hx Hn. unfold ConcatExpr_create_with. pose proof (const_weight K HK l). pose proof (const_weight K HK r).
  destruct l, r; try (apply within_ok; cbn in *; lia).
  destruct (_ && _); [|apply within_ok; cbn in *; lia].
  eapply within_le; [apply Hx|]. cbn in Hn. lia.
Qed.

Lemma extract_fuel_within fuel : forall e off w,
  within (ExtractExpr_create_fuel fuel e off w) (k_factor K * weigh e).
Proof.
  induction fuel as [|fuel IH]; intros e off w; cbn [ExtractExpr_create_fuel]; [by intros ? ?|].
  apply within_assert. pose proof (factor_grows (weigh e)). pose proof (const_weight K HK e).
  destruct (_ =? _)%Z; [by apply within_ok|].
  destruct e; try (apply within_ok; cbn in *; lia).
  pose proof (factor_grows (k_concat K)). cbn [ExprWeight.weigh] in *.
  destruct (_ <=? _)%Z; [eapply within_le; [apply IH|nia]|].
  destruct (_ <=? _)%Z; [eapply within_le; [apply IH|nia]|].
  eapply within_bind; [apply IH|]. intros el Hel. eapply within_bind; [apply IH|]. intros er Her.
  apply concat_with_within; [exact IH|]. rewrite !Nat.mul_add_distr_l. lia.
Qed.

Lemma ExtractExpr_create_weight e off w : within (ExtractExpr_create e off w) (k_factor K * weigh e).
Proof. apply extract_fuel_within. Qed.

Lemma ConcatExpr_create_weight l r : within (ConcatExpr_create l r) (k_concat K + weigh l + weigh r).
Proof. apply concat_with_within; [|done]. apply ExtractExpr_create_weight. Qed.

Lemma cast_create_weight k e w :
  within (match k with ZExt => ZExtExpr_create e w | SExt => SExtExpr_create e w end) (k_unary K + k_factor K * weigh e).
Proof.
  pose proof (factor_grows (weigh e)). pose proof (const_weight K HK e).
  destruct k; unfold ZExtExpr_create, SExtExpr_create;
    (destruct (_ =? _)%Z; [apply within_ok; lia|]);
    (destruct (_ <? _)%Z; [eapply within_le; [apply ExtractExpr_create_weight|lia]|]);
    destruct e; apply within_ok; cbn in *; lia.
Qed.

Lemma isZero_weight e : within (createIsZero false e) (kb Eq + weigh e + kc).
Proof. by apply (isZero_within K _ (BinaryExpr_create_weight K HK)). Qed.

Lemma SelectExpr_create_weight c t f :
  within (SelectExpr_create false c t f) (k_select K + weigh c + weigh t + weigh f).
Proof.
  pose proof (law_select K HK). pose proof (law_or K HK). pose proof (const_weight K HK c).
  pose proof (const_weight K HK t). pose proof (const_weight K HK f).
  assert (forall k l r n, kb k + weigh l + weigh r <= n -> within (BinaryExpr_create false k l r) n) as HB.
  { intros k l r n Hn. eapply within_le; [apply (BinaryExpr_create_weight K HK)|exact Hn]. }
  assert (forall k e, (k = Or \/ k = And) -> weigh e <= weigh t \/ weigh e <= weigh f ->
    within (let* nc := createIsZero false c in BinaryExpr_create false k nc e) (k_select K + weigh c + weigh t + weigh f)) as HN.
  { intros k e Hk He. eapply within_bind; [apply isZero_weight|]. intros nc Hnc. apply HB.
    destruct Hk as [-> | ->]; lia. }
  unfold SelectExpr_create. do 2 apply within_assert.
  assert (forall CE, c = Constant CE -> within (Ok (if const_isTrue CE then t else f)) (k_select K + weigh c + weigh t + weigh f))
    as Hconst by (intros CE _; apply within_ok; destruct (const_isTrue CE); lia).
  assert (within (if expr_eqb t f then Ok t else if (getWidth t =? Bool_w)%Z then
      match t, f with
      | Constant CE, _ =>
          if const_isTrue CE then BinaryExpr_create false Or c f
          else let* nc := createIsZero false c in BinaryExpr_create false And nc f
      | _, Constant CE =>
          if const_isTrue CE then
            let* nc := createIsZero false c in BinaryExpr_create false Or nc t
          else BinaryExpr_create false And c t
      | _, _ => Ok (Select c t f)
      end else Ok (Select c t f)) (k_select K + weigh c + weigh t + weigh f)) as Hnon.
  { destruct (expr_eqb t f); [apply within_ok; lia|]. destruct (_ =? _)%Z; [|apply within_ok; cbn; lia].
    destruct t; try (destruct (const_isTrue value); [apply HB; lia|apply HN; auto]);
      destruct f; try (apply within_ok; cbn; lia); (destruct (const_isTrue value); [apply HN; auto|apply HB; lia]). }
  destruct c; first [by eapply Hconst | exact Hnon].
Qed.

Lemma weigh_UNode i v n : weigh_updates K (UNode i v n) = kc + weigh i + weigh v + weigh_updates K n.
Proof. done. Qed.

Lemma weigh_Read root u i : weigh (Read root u i) = k_read K + weigh_updates K u + weigh i.
Proof. done. Qed.

Lemma scan_updates_weight index un s :
  scan_updates false index un = Ok s ->
  match s with
  | Written v => weigh v <= weigh_updates K un
  | Stopped un' _ => weigh_updates K un' <= weigh_updates K un
  end.
Proof.
  induction un as [|i v next IH]; cbn [scan_updates]; [by intros [= <-]|]. rewrite weigh_UNode. intros H. apply res_bind_inv in H as (c & Hc & H).
  destruct c as [CE| | | | | | | |]; try (injection H as <-; done).
  destruct (const_isTrue CE); [injection H as <-; lia|]. specialize (IH H). destruct s; lia.
Qed.

Lemma ReadExpr_create_weight root head index :
  within (ReadExpr_create false root head index) (k_read K + weigh_updates K head + weigh index).
Proof.
  unfold ReadExpr_create. intros e H. apply res_bind_inv in H as (s & Hs & H).
  apply scan_updates_weight in Hs. pose proof (law_read K HK).
  destruct s as [v|un sym]; [injection H as <-; lia|]. apply res_bind_inv in H as (ci & Hci & H).
  destruct ci as [ci|]; [|injection H as <-; by rewrite weigh_Read].
  destruct (_ && _); [|destruct (_ <? _)%Z; injection H as <-; rewrite weigh_Read; lia].
  destruct (_ !! _); [injection H as <-; cbn; lia|done].
Qed.

(** The weight of a node over other children. *)
Definition weigh_with (e : expr) (ws : list nat) : nat :=
  match e, ws with
  | NotOptimized _, [k] => k_opaque K + k
  | Read _ u _, [k] => k_read K + weigh_updates K u + k
  | Select _ _ _, [c; t; f] => k_select K + c + t + f
  | Concat _ _, [l; r] => k_concat K + l + r
  | Extract _ _ _, [k] => k_factor K * k
  | Cast _ _ _, [k] => k_unary K + k_factor K * k
  | Not _, [k] => k_unary K + k
  | Binary b _ _, [l; r] => kb b + l + r
  | _, _ => 0
  end.

Lemma weigh_kids e : isConstant e = false -> weigh e = weigh_with e (weigh <$> kids e).
Proof. by destruct e. Qed.

(** [rebuild] does not return more than the node over the new children. *)
Lemma rebuild_weight e ks r :
  rebuild false e ks = Ok r -> weigh r <= weigh_with e (weigh <$> ks).
Proof.
  destruct e; cbn [rebuild];
    repeat match goal with
    | |- match ?l with _ => _ end = _ -> _ => is_var l; destruct l; try done
    end; try done; cbn [fmap list_fmap weigh_with].
  - by intros [= <-].
  - apply ReadExpr_create_weight.
  - apply SelectExpr_create_weight.
  - apply ConcatExpr_create_weight.
  - apply ExtractExpr_create_weight.
  - intros H. apply (cast_create_weight ZExt _ _ _ H).
  - intros H. apply (cast_create_weight SExt _ _ _ H).
  - intros [= <-]. apply NotExpr_create_weight.
  - apply (BinaryExpr_create_weight K HK).
Qed.

(** Lighter children make a lighter node. *)
Lemma weigh_with_le e ws ws' : Forall2 (fun a b => a <= b) ws ws' -> length ws = length (kids e) ->
  weigh_with e ws <= weigh_with e ws'.
Proof.
  intros H Hl. destruct e; cbn in Hl;
    repeat match goal with
    | H : Forall2 _ ?l _ |- _ => is_var l; destruct l; try (cbn in Hl; done)
    | H : Forall2 _ (_ :: _) _ |- _ => apply Forall2_cons_inv_l in H as (? & ? & ? & H & ->)
    | H : Forall2 _ [] _ |- _ => apply Forall2_nil_inv_l in H as ->
    end; cbn; nia.
Qed.

Lemma weigh_with_lt e ws ws' : Forall2 (fun a b => a <= b) ws ws' -> length ws = length (kids e) ->
  sum_list ws < sum_list ws' -> weigh_with e ws < weigh_with e ws'.
Proof.
  intros H Hl Hs. pose proof (law_factor K HK). destruct e; cbn in Hl;
    repeat match goal with
    | H : Forall2 _ ?l _ |- _ => is_var l; destruct l; try (cbn in Hl; done)
    | H : Forall2 _ (_ :: _) _ |- _ => apply Forall2_cons_inv_l in H as (? & ? & ? & H & ->)
    | H : Forall2 _ [] _ |- _ => apply Forall2_nil_inv_l in H as ->
    end; cbn in *; nia.
Qed.

(** Equal expressions weigh the same. *)
Lemma same_weight_both :
  (forall a b, same a b -> weigh a = weigh b) /\
  (forall u u', same_updates u u' -> weigh_updates K u = weigh_updates K u').
Proof.
  apply same_both; intros; rewrite ?weigh_Read, ?weigh_UNode; cbn [ExprWeight.weigh]; congruence.
Qed.

End rebuild.

(** ** The two weights *)

Definition read_weights : Weights := {|
  k_const := 0; k_bin _ := 0; k_read := 1; k_select := 0; k_concat := 0; k_opaque := 1; k_unary := 0; k_factor := 1;
|}.

(** The number of reads, those of update lists included, and of
    [NotOptimized] nodes: what does not fold to a constant with its children. *)
Definition read_count `{A : APInt} (e : expr) : nat := weigh read_weights e.

Definition node_weights : Weights := {|
  k_const := 1;
  k_bin k := match k with
    | Or | Shl | LShr | Ult | Slt | Ne | Ugt | Sgt => 3
    | Ule | Sle | Uge | Sge => 5
    | _ => 1
    end;
  k_read := 1; k_select := 5; k_concat := 1; k_opaque := 1; k_unary := 1; k_factor := 2;
|}.

Definition node_weight `{A : APInt} (e : expr) : nat := weigh node_weights e.

Lemma read_weights_laws : WeightLaws read_weights.
Proof. constructor; cbn; try lia. by intros []. Qed.

Lemma node_weights_laws : WeightLaws node_weights.
Proof.
  constructor; cbn; try lia.
  - by intros k [-> | [-> | [-> | ->]]].
  - by intros k [-> | ->].
  - intros []; cbn; lia.
Qed.

Section sizes.
Context {A : APInt} {L : APIntLaws A} {AR : Arrays}.

Lemma deep_size_Read root u i : deep_size (Read root u i) = S (deep_size_updates u + deep_size i).
Proof. done. Qed.
Lemma deep_size_UNode i v n : deep_size_updates (UNode i v n) = S (deep_size i + deep_size v + deep_size_updates n).
Proof. done. Qed.

Lemma node_weight_size_both :
  (forall e, deep_size e <= node_weight e) /\ (forall u, deep_size_updates u <= weigh_updates node_weights u).
Proof.
  unfold node_weight. assert (forall e : expr, 1 <= deep_size e) as D by (intros []; cbn; lia).
  assert (forall k, 1 <= k_bin node_weights k) as B by (intros []; cbn; lia).
  apply expr_updates_ind; intros; rewrite ?weigh_Read, ?weigh_UNode, ?deep_size_Read, ?deep_size_UNode;
    cbn [deep_size weigh];
    change (k_const node_weights) with 1; change (k_read node_weights) with 1; change (k_select node_weights) with 5;
    change (k_concat node_weights) with 1; change (k_opaque node_weights) with 1; change (k_unary node_weights) with 1; change (k_factor node_weights) with 2;
    try match goal with e : expr |- _ => pose proof (D e) end;
    try match goal with k : BinKind |- _ => pose proof (B k) end; try lia. by cbn.
Qed.

Lemma node_weight_size e : deep_size e <= node_weight e.
Proof. apply node_weight_size_both. Qed.

Lemma eqb_weights K a b : wt a -> wt b -> expr_eqb a b = true -> weigh K a = weigh K b.
Proof. intros Ha Hb H. apply Z.eqb_eq, compare_zero_same in H; [|done..]. by apply same_weight_both. Qed.


End sizes.

(** ** Solid expressions

    No node is built of constants only, except [Read] and [NotOptimized]. *)
Section solid.
Context {A : APInt} {L : APIntLaws A} {AR : Arrays}.

Fixpoint solid (e : expr) : bool :=
  match e with
  | Constant _ => true
  | NotOptimized s => solid s
  | Read _ u i => solid_updates u && solid i
  | Select c t f => negb (isConstant c) && solid c && solid t && solid f
  | Concat l r => negb (isConstant l && isConstant r) && solid l && solid r
  | Extract e _ _ => negb (isConstant e) && solid e
  | Cast _ s _ => negb (isConstant s) && solid s
  | Not e => negb (isConstant e) && solid e
  | Binary _ l r => negb (isConstant l && isConstant r) && solid l && solid r
  end
with solid_updates (u : updates) : bool :=
  match u with
  | UNil => true
  | UNode i v n => solid i && solid v && solid_updates n
  end.

Definition is_solid (e : expr) : Prop := solid e = true.

Lemma solid_Read root u i : is_solid (Read root u i) <-> solid_updates u = true /\ is_solid i.
Proof. unfold is_solid. change (solid (Read root u i)) with (solid_updates u && solid i). by rewrite andb_true_iff. Qed.

Lemma solid_reads e : is_solid e -> isConstant e = false -> 1 <= read_count e.
Proof.
  unfold is_solid, read_count. induction e; intros Hs HC; try done; cbn [solid weigh] in *;
    cbn [k_bin k_const k_read k_select k_concat k_opaque k_unary k_factor read_weights] in *; try lia;
    rewrite ?andb_true_iff, ?negb_true_iff in Hs; destruct_and?.
  - specialize (IHe1 ltac:(done) ltac:(done)). lia.
  - match goal with H : _ && _ = false |- _ => apply andb_false_iff in H as [HN|HN] end;
      [specialize (IHe1 ltac:(done) HN)|specialize (IHe2 ltac:(done) HN)]; lia.
  - specialize (IHe ltac:(done) ltac:(done)). lia.
  - specialize (IHe ltac:(done) ltac:(done)). lia.
  - specialize (IHe ltac:(done) ltac:(done)). lia.
  - match goal with H : _ && _ = false |- _ => apply andb_false_iff in H as [HN|HN] end;
      [specialize (IHe1 ltac:(done) HN)|specialize (IHe2 ltac:(done) HN)]; lia.
Qed.

#[export] Instance solid_closed : CreateClosed true any_node is_solid.
Proof.
  split; unfold is_solid, any_node; cbn [solid]; try done.
  - intros k l r. rewrite !andb_true_iff, negb_true_iff. tauto.
  - intros k s w. rewrite andb_true_iff. tauto.
  - intros root u i H. apply (solid_Read root) in H. apply H.
Qed.

End solid.
