(* ===== verification/Replace.v ===== *)
(** The visitors of klee/lib/Expr/Constraints.cpp, which replace expressions by
    constants, and what every visitor of this form does.

    [visit_replaces] is shared by both: the traversal returns, also for a
    [recursive] visitor; the result has the value of the expression in every
    environment in which the replacements are right, whether or not the
    visited expressions are defined there; and a result that differs from the
    expression contains fewer reads, which is why the recursion ends. *)
From Stdlib Require Import ZArith Lia Bool.
From stdpp Require Import base list numbers option.
From S2P Require Import Prelude APInt Expr ExprCreate ExprSem ExprCompare ExprCreateCorrect ExprFactory ExprVisitor ExprUtil ExprWeight.
Open Scope Z_scope.

(** ** The visitors *)
Section visitors.
Context {A : APInt} {AR : Arrays}.

Definition ExprReplaceVisitor (src dst : expr) : ExprVisitor (X:=unit) := {|
  recursive := false;
  visitExpr e := Ok (if expr_eqb e src then ChangeTo dst else DoChildren);
  visitExprPost e := Ok (if expr_eqb e src then ChangeTo dst else DoChildren);
  visitKind := base_visitKind;
|}.

(** A [std::map] ordered by [compare]: lookup by [operator==]. *)
Definition replacements_ty : Type := list (expr * expr).

Definition ExprReplaceVisitor2 (replacements : replacements_ty) : ExprVisitor (X:=unit) := {|
  recursive := true;
  visitExpr := base_visitExpr;
  visitExprPost e := Ok (match visited_find e replacements with Some d => ChangeTo d | None => DoChildren end);
  visitKind := base_visitKind;
|}.

End visitors.

(** ** Rebuilding, also where the expression is undefined *)
Section rebuild.
Context {A : APInt} {L : APIntLaws A} {AR : Arrays}.
Context (opt checked : bool) (Hopt : opt = true -> checked = true).

Lemma implements_result m w d r :
  implements checked m w d -> m = Ok r ->
  wt r /\ getWidth r = w /\ forall ρ v, d ρ = Some v -> denote checked ρ r = Some v.
Proof. intros (r' & -> & H) [= <-]. exact H. Qed.

(** A division of constants that was folded is not one by zero. *)
Lemma folded_div_ok k l r e : BinaryExpr_create opt k l r = Ok e -> div_ok k l r.
Proof.
  destruct l; try done. destruct r as [c| | | | | | | |]; try done. cbn [div_ok]. intros H Hd E. revert H.
  destruct k; cbn in Hd; try done; cbn [BinaryExpr_create]; unfold canonical_create, create_fuel; rewrite Nat.add_comm;
    cbn [Nat.add create create_step]; unfold BCREATE, const_op; cbn [is_div]; rewrite E; cbn;
    by destruct (_ =? _).
Qed.

Definition same_type (e k : expr) : Prop := wt k /\ getWidth k = getWidth e.

Lemma rebuild_stands e ks r :
  wt e -> isConstant e = false -> rebuild opt e ks = Ok r -> Forall2 same_type (kids e) ks ->
  same_type e r /\ forall ρ, Forall2 (stands_for checked ρ) (kids e) ks -> stands_for checked ρ e r.
Proof.
  intros He HC Hr Hks.
  assert (forall m d, implements checked m (getWidth e) d -> m = Ok r ->
    (forall ρ v, Forall2 (stands_for checked ρ) (kids e) ks -> denote checked ρ e = Some v -> d ρ = Some v) ->
    same_type e r /\ forall ρ, Forall2 (stands_for checked ρ) (kids e) ks -> stands_for checked ρ e r) as finish.
  { intros m d Hm Em Hd. destruct (implements_result _ _ _ _ Hm Em) as (Hwt & Hw & Hden).
    split; [done|]. intros ρ Hs. split_and!; [done|done|]. intros v Hv. apply Hden. by apply Hd. }
  destruct e; cbn [kids] in Hks; try done; unfold same_type in Hks;
    repeat match goal with
    | H : Forall2 _ (_ :: _) _ |- _ => apply Forall2_cons_inv_l in H as (? & ? & (? & ?) & H & ->)
    | H : Forall2 _ [] _ |- _ => apply Forall2_nil_inv_l in H as ->
    end; cbn [wt] in He; cbn [rebuild] in Hr; destruct_and?; cbn [kids] in finish.
  all: assert (forall ρ a b l l', Forall2 (stands_for checked ρ) (a :: l) (b :: l') ->
      (forall v, denote checked ρ a = Some v -> denote checked ρ b = Some v) /\ Forall2 (stands_for checked ρ) l l') as inv
    by (intros ????? HF; inversion_clear HF as [|? ? ? ? (_ & _ & ?) ?]; done).
  - injection Hr as <-. split; [done|]. intros ρ Hs. apply inv in Hs as [Hs _]. by split_and!.
  - eapply finish; [|exact Hr|].
    + apply (ReadExpr_create_ok opt checked Hopt). cbn. split_and!; auto; congruence.
    + intros ρ w Hs Hw. apply inv in Hs as [Hs _]. unfold read_den. cbn in Hw. apply bind_Some in Hw as (i & Hi & Hw).
      by rewrite (Hs i Hi).
  - eapply finish; [|exact Hr|].
    + replace (getWidth (Select e1 e2 e3)) with (getWidth x1) by (cbn; congruence).
      apply (SelectExpr_create_ok opt checked Hopt); auto; congruence.
    + intros ρ w Hs Hw. apply inv in Hs as [Ha Hs]. apply inv in Hs as [Hb Hs]. apply inv in Hs as [Hc _].
      cbn in Hw. unfold select_den. apply bind_Some in Hw as (a & E1 & Hw).
      apply bind_Some in Hw as (b & E2 & Hw). apply bind_Some in Hw as (c & E3 & Hw).
      by rewrite (Ha a), (Hb b), (Hc c).
  - eapply finish; [|exact Hr|].
    + replace (getWidth (Concat e1 e2)) with (getWidth x + getWidth x1) by (cbn; congruence).
      by apply ConcatExpr_create_ok.
    + intros ρ w Hs Hw. apply inv in Hs as [Ha Hs]. apply inv in Hs as [Hb _].
      cbn in Hw. unfold concat_den. apply bind_Some in Hw as (a & E1 & Hw). apply bind_Some in Hw as (b & E2 & Hw).
      rewrite (Ha a), (Hb b) by done. cbn. congruence.
  - eapply finish; [|exact Hr|].
    + cbn. eapply implements_of_ext, ExtractExpr_create_ok; [done..|lia].
    + intros ρ w Hs Hw. apply inv in Hs as [Ha _]. cbn in Hw. unfold extract_den. apply bind_Some in Hw as (a & E1 & Hw).
      by rewrite (Ha a).
  - pose proof (wt_width_pos x ltac:(done)).
    apply (finish (match k with ZExt => ZExtExpr_create x width | SExt => SExtExpr_create x width end)
      (cast_den checked k x width)).
    + cbn. apply cast_create_ok; [done|lia].
    + by destruct k.
    + intros ρ w Hs Hw. apply inv in Hs as [Ha _]. unfold cast_den. cbn in Hw. destruct k.
      * rewrite (Ha w Hw). cbn. pose proof (denote_range checked e ρ w ltac:(done) Hw).
        assert (2 ^ getWidth e <= 2 ^ width) by (apply Z.pow_le_mono_r; lia).
        by rewrite wrap_small by lia.
      * apply bind_Some in Hw as (a & E1 & Hw). rewrite (Ha a) by done. cbn. congruence.
  - eapply (finish (Ok (NotExpr_create x))); [|exact Hr|].
    + replace (getWidth (Not e)) with (getWidth x) by (cbn; congruence). by apply NotExpr_create_ok.
    + intros ρ w Hs Hw. apply inv in Hs as [Ha _]. cbn in Hw. apply bind_Some in Hw as (a & E1 & Hw).
      rewrite (Ha a) by done. cbn. congruence.
  - eapply finish; [|exact Hr|].
    + replace (getWidth (Binary k e1 e2)) with (bin_width k (getWidth x)) by (unfold bin_width; cbn; match goal with E : getWidth x = _ |- _ => by rewrite E end).
      apply (BinaryExpr_create_ok opt checked Hopt); [done|done|congruence|by eapply folded_div_ok].
    + intros ρ w Hs Hw. apply inv in Hs as [Ha Hs]. apply inv in Hs as [Hb _]. unfold bin_den.
      cbn in Hw. apply bind_Some in Hw as (a & E1 & Hw). apply bind_Some in Hw as (b & E2 & Hw).
      rewrite (Ha a), (Hb b) by done. cbn. congruence.
Qed.
End rebuild.

(** ** Classes of expressions replacement stays in *)
Class ReplaceClosed `{A : APInt} {AR : Arrays} (opt : bool) (P : expr -> Prop) : Prop := {
  replace_constant v : P (Constant v);
  replace_kids e : P e -> Forall P (kids e);
  replace_rebuild e ks r :
    wt e -> isConstant e = false -> P e -> Forall P ks -> Forall2 same_type (kids e) ks ->
    rebuild opt e ks = Ok r -> P r;
}.

(** ** The traversal *)
Section traversal.
Context {A : APInt} {L : APIntLaws A} {AR : Arrays}.
Context (checked hash : bool).
Context (P : expr -> Prop) {HP : ReplaceClosed false P}.

(** A visitor that replaces what [lookup] finds by a constant. *)
Record Replacer (V : ExprVisitor (X:=unit)) (lookup : expr -> option expr) : Prop := {
  replacer_visitExpr e : visitExpr V e = Ok DoChildren \/
    visitExpr V e = Ok (match lookup e with Some d => ChangeTo d | None => DoChildren end);
  replacer_post e : visitExprPost V e = Ok (match lookup e with Some d => ChangeTo d | None => DoChildren end);
  replacer_kind : visitKind V = base_visitKind;
  (* what is replaced contains a read *)
  replacer_sound e d : wt e -> lookup e = Some d ->
    isConstant d = true /\ same_type e d /\ (1 <= read_count e)%nat;
}.

Context (V : ExprVisitor (X:=unit)) (lookup : expr -> option expr) (HV : Replacer V lookup).

(** The replacements are right in [ρ]. *)
Definition right_in (ρ : env) : Prop := forall e d, wt e -> lookup e = Some d -> stands_for checked ρ e d.

Record replaced (e r : expr) : Prop := {
  replaced_type : same_type e r;
  replaced_class : P r;
  replaced_value ρ : right_in ρ -> stands_for checked ρ e r;
  replaced_size : (node_weight r <= node_weight e)%nat;
  replaced_reads : (read_count r <= read_count e)%nat;
  replaced_progress : expr_eqb r e = true \/ (read_count r < read_count e)%nat;
}.

Definition table_ok (s : visited_ty * unit) : Prop := Forall (fun p => wt (fst p) /\ replaced (fst p) (snd p)) (fst s).

Lemma expr_eqb_refl (e : expr) : wt e -> expr_eqb e e = true.
Proof. intros He. apply Z.eqb_eq, compare_same; [apply same_refl_both|done]. Qed.

Lemma replaced_refl e : wt e -> P e -> replaced e e.
Proof. intros He HPe. constructor; try done. left. by apply expr_eqb_refl. Qed.

Lemma const_replaced e r d :
  replaced e r -> lookup r = Some d -> replaced e d.
Proof.
  intros [[Hw Ht] HPr Hv Hs Hr _] Hl. destruct (replacer_sound _ _ HV r d Hw Hl) as (Hc & [Hwd Htd] & H1).
  destruct d as [v| | | | | | | |]; try done. constructor.
  - split; [done|congruence].
  - apply replace_constant.
  - intros ρ Hρ. eapply stands_for_trans; [by apply Hv|]. by apply Hρ.
  - change (node_weight (Constant v)) with 1%nat. pose proof (const_weight node_weights node_weights_laws e). done.
  - change (read_count (Constant v)) with 0%nat. lia.
  - right. change (read_count (Constant v)) with 0%nat. lia.
Qed.

Lemma replaced_eqb e k r : wt e -> wt k -> expr_eqb k e = true -> replaced k r -> replaced e r.
Proof.
  intros He Hk E [[Hw Ht] HPr Hv Hs Hr Hp]. pose proof (expr_eqb_sound k e Hk He E) as [Hwid _].
  pose proof (eqb_weights node_weights k e Hk He E) as E1. pose proof (eqb_weights read_weights k e Hk He E) as E2.
  unfold node_weight, read_count in *. constructor; [split; [done|congruence]|done| |unfold node_weight; lia|unfold read_count; lia|].
  - intros ρ Hρ. eapply stands_for_trans; [|by apply Hv]. by apply stands_for_eqb.
  - destruct Hp as [Hp|Hp]; [left|right; unfold read_count; lia].
    apply Z.eqb_eq in E, Hp. apply compare_zero_same in E, Hp; [|done..].
    apply Z.eqb_eq, compare_same; [|done]. by eapply (proj1 same_trans_both).
Qed.

Lemma visited_find_replaced e s r :
  wt e -> table_ok s -> visited_find e (fst s) = Some r -> replaced e r.
Proof.
  intros He. destruct s as [vs x]. unfold table_ok. cbn.
  induction vs as [|[k r'] vs IH]; intros Hvs Hf; [done|].
  apply Forall_cons_iff in Hvs as [[Hk Hr] Hvs]. cbn in *.
  destruct (expr_eqb k e) eqn:E; [|by apply IH]. injection Hf as <-. by apply (replaced_eqb e k).
Qed.

Lemma kid_weight K e k : WeightLaws K -> k ∈ kids e -> (weigh K k <= weigh K e)%nat.
Proof.
  intros HK Hk. pose proof (law_factor K HK). destruct e; cbn [kids] in Hk;
    rewrite ?elem_of_cons, ?elem_of_nil in Hk; destruct_or?; subst; try done;
    rewrite ?weigh_Read; cbn [weigh]; nia.
Qed.

(* some child changed: there are fewer reads below the node *)
Lemma changed_fewer_reads e ks :
  Forall2 replaced (kids e) ks -> kids_changed e ks = true ->
  (sum_list (read_count <$> ks) < sum_list (read_count <$> kids e))%nat.
Proof.
  unfold kids_changed. intros HF H. apply negb_true_iff in H. revert H.
  assert (forall l l', Forall2 replaced l l' -> (sum_list (read_count <$> l') <= sum_list (read_count <$> l))%nat) as Hle.
  { induction 1 as [|? ? ? ? Hr ? IH]; cbn; [done|]. pose proof (replaced_reads _ _ Hr). lia. }
  induction HF as [|a b l l' Hab Hl IH]; cbn; [done|]. intros H. apply andb_false_iff in H as [H|H].
  - specialize (Hle _ _ Hl). destruct (replaced_progress _ _ Hab); [congruence|]. lia.
  - specialize (IH H). pose proof (replaced_reads _ _ Hab). lia.
Qed.

Lemma rebuild_replaced ρ0 e ks :
  right_in ρ0 -> wt e -> P e -> is_Some (denote checked ρ0 e) -> isConstant e = false ->
  Forall2 replaced (kids e) ks -> kids_changed e ks = true ->
  exists r, rebuild false e ks = Ok r /\ replaced e r /\ (read_count r < read_count e)%nat /\ is_Some (denote checked ρ0 r).
Proof.
  intros Hρ He HPe Hd HC HF Hch.
  destruct (rebuild_sound false checked ltac:(done) ρ0 e ks He Hd HC) as (r & Hr & Hs).
  { eapply Forall2_impl; [|exact HF]. intros ? ? Hab. by apply Hab. }
  assert (Forall2 same_type (kids e) ks) as Ht by (eapply Forall2_impl; [|exact HF]; intros ? ? Hab; apply Hab).
  destruct (rebuild_stands false checked ltac:(done) e ks r He HC Hr Ht) as [Hty Hst].
  assert (forall K, WeightLaws K -> (weigh K r <= weigh_with K e (weigh K <$> ks))%nat) as Hw
    by (intros K HK; by apply rebuild_weight).
  assert (forall K, WeightLaws K -> Forall2 (fun a b => weigh K b <= weigh K a)%nat (kids e) ks ->
    (weigh K r <= weigh K e)%nat) as Hle.
  { intros K HK HFK. etrans; [by apply Hw|]. rewrite (weigh_kids K e HC). apply weigh_with_le.
    - clear -HFK. induction HFK; constructor; done.
    - rewrite length_fmap. symmetry. by eapply Forall2_length. }
  assert (read_count r < read_count e)%nat as Hlt.
  { unfold read_count. eapply Nat.le_lt_trans; [apply Hw, read_weights_laws|]. rewrite (weigh_kids read_weights e HC).
    apply weigh_with_lt; [apply read_weights_laws| | |by apply changed_fewer_reads].
    - clear -HF. induction HF as [|? ? ? ? Hab]; constructor; [apply Hab|done].
    - rewrite length_fmap. symmetry. by eapply Forall2_length. }
  exists r. split_and!; [done| |done|].
  - constructor; [done| | | |lia|by right].
    + apply (replace_rebuild e ks); try done. clear -HF. induction HF as [|? ? ? ? Hab]; constructor; [apply Hab|done].
    + intros ρ Hρ'. apply Hst. eapply Forall2_impl; [|exact HF]. intros ? ? Hab. by apply Hab.
    + apply Hle; [apply node_weights_laws|]. eapply Forall2_impl; [|exact HF]. intros ? ? Hab. apply Hab.
  - destruct Hd as [v Hv]. exists v. by apply Hs.
Qed.

Notation vholds := (sholds table_ok).

Lemma vholds_lift {T U} (m : res T) x (k : T -> state (visited_ty * unit) U) Q :
  m = Ok x -> vholds (k x) Q -> vholds (sbind (slift m) k) Q.
Proof. intros -> H. exact H. Qed.

Lemma vholds_ret {T U} (x : T) (k : T -> state (visited_ty * unit) U) Q :
  vholds (k x) Q -> vholds (sbind (sret x) k) Q.
Proof. intros H. exact H. Qed.

(** What is visited. *)
Definition visitable_in (ρ0 : env) (e : expr) : Prop := wt e /\ P e /\ is_Some (denote checked ρ0 e).

Lemma visit_kids_replaced visit es :
  Forall (fun e => vholds (visit e) (replaced e)) es -> vholds (visit_kids visit es) (Forall2 replaced es).
Proof.
  induction 1 as [|e es He Hes IH]; [by apply sholds_ret|].
  cbn [visit_kids]. eapply sholds_bind; [done|]. intros r Hr.
  eapply sholds_bind; [done|]. intros rs Hrs. apply sholds_ret. by constructor.
Qed.

Lemma visitActual_replaced ρ0 visit e :
  right_in ρ0 -> visitable_in ρ0 e ->
  Forall (fun k => vholds (visit k) (replaced k)) (kids e) ->
  (forall e', (read_count e' < read_count e)%nat -> (node_weight e' <= node_weight e)%nat -> visitable_in ρ0 e' ->
     vholds (visit e') (replaced e')) ->
  vholds (visitActual false V visit e) (replaced e).
Proof.
  intros Hρ He Hkids Hrec. pose proof He as (Hwt & HPe & Hd). unfold visitActual.
  destruct (isConstant e) eqn:HC; [by apply sholds_ret, replaced_refl|].
  assert (forall r, replaced e r -> vholds (visit_post V r) (replaced e)) as Hpost.
  { intros r Hr. unfold visit_post. destruct (isConstant r); [by apply sholds_ret|].
    eapply vholds_lift; [apply (replacer_post _ _ HV)|]. destruct (lookup r) as [d|] eqn:E; apply sholds_ret; [|done]. by eapply const_replaced. }
  assert (vholds (visit_children false V visit e) (replaced e)) as Hch.
  { unfold visit_children. eapply sholds_bind; [by apply visit_kids_replaced|]. intros ks Hks.
    eapply (sholds_bind _ _ (replaced e)); [|exact Hpost].
    destruct (kids_changed e ks) eqn:Ech; [|by apply sholds_ret, replaced_refl].
    destruct (rebuild_replaced ρ0 e ks Hρ Hwt HPe Hd HC Hks Ech) as (r & Hr & Hrep & Hlt & Hdr).
    eapply vholds_lift; [exact Hr|]. destruct (recursive V); [|by apply sholds_ret].
    eapply sholds_weaken; [apply Hrec; [done|apply Hrep|]|].
    - split_and!; [apply Hrep|apply Hrep|done].
    - intros r' Hr'. destruct Hrep as [[Hw Ht] ? Hv ? ? ?], Hr' as [[Hw' Ht'] ? Hv' ? ? ?].
      constructor; [split; [done|congruence]|done| |lia|lia|right; lia].
      intros ρ Hρ'. eapply stands_for_trans; [by apply Hv|by apply Hv']. }
  destruct (replacer_visitExpr _ _ HV e) as [E|E]; (eapply vholds_lift; [exact E|]).
  - rewrite (replacer_kind _ _ HV). by apply vholds_ret.
  - destruct (lookup e) as [d|] eqn:El.
    + apply sholds_ret. eapply const_replaced; [by apply replaced_refl|done].
    + rewrite (replacer_kind _ _ HV). by apply vholds_ret.
Qed.

(** Enough fuel: the depth, for every level of nested revisits. *)
Definition visit_fuel (e : expr) : nat := S (read_count e * S (node_weight e) + deep_size e).

Lemma visit_enough ρ0 M fuel : right_in ρ0 -> forall e,
  visitable_in ρ0 e -> (node_weight e <= M)%nat -> (read_count e * S M + deep_size e < fuel)%nat ->
  vholds (visit false hash V fuel e) (replaced e).
Proof.
  intros Hρ. induction fuel as [|fuel IH]; intros e He HM Hf; [lia|]. cbn [visit].
  assert (vholds (visitActual false V (visit false hash V fuel) e) (replaced e)) as HA.
  { apply (visitActual_replaced ρ0); [done|done| |].
    - apply Forall_forall. intros k Hk. pose proof He as (Hwt & HPe & Hd).
      pose proof (kids_wt _ Hwt) as Hkw. pose proof (kids_defined checked ρ0 e Hd) as Hkd.
      pose proof (replace_kids e HPe) as HkP. rewrite Forall_forall in Hkw, Hkd, HkP.
      apply list_elem_of_In in Hk as Hk'. pose proof (kids_smaller e k Hk').
      pose proof (kid_weight _ _ _ read_weights_laws Hk') as H1. pose proof (kid_weight _ _ _ node_weights_laws Hk') as H2.
      apply IH; [split_and!; auto| |]; unfold read_count, node_weight in *; [lia|nia].
    - intros e' Hlt Hle He'. apply IH; [done|lia|]. pose proof (node_weight_size e'). nia. }
  destruct (negb hash || isConstant e); [done|]. intros vs Hvs.
  destruct (visited_find e (fst vs)) as [r|] eqn:E.
  - exists r, vs. split_and!; [done|done|]. eapply visited_find_replaced; [apply He|done..].
  - destruct (HA vs Hvs) as (r & vs' & Hr & Hvs' & HR). unfold sbind. rewrite Hr. cbn.
    exists r, (visited_insert e r (fst vs'), snd vs'). split_and!; [done| |done].
    unfold table_ok, visited_insert. cbn. destruct (visited_find e (fst vs')); [done|]. constructor; [|done].
    split; [apply He|done].
Qed.

Lemma visit_replaces ρ0 e :
  right_in ρ0 -> visitable_in ρ0 e -> vholds (visit false hash V (visit_fuel e) e) (replaced e).
Proof. intros Hρ He. apply (visit_enough ρ0 (node_weight e)); try done. unfold visit_fuel. lia. Qed.

End traversal.
