(* ===== verification/FindReads.v ===== *)
(** The reads of an expression: [findReads] of klee/lib/Expr/ExprUtil.cpp.

    The function walks the expression with an explicit stack and a table of
    visited expressions, compared by [operator==].  A head of an update list
    seen before is skipped in the source; its indices and values are then all
    visited, so that going through it again pushes nothing ([push_all_again]),
    and the model has no table of heads.  [findReads_ok]: within [deep_size] steps it returns,
    up to structural equality, every read of the expression, and only such. *)
From Stdlib Require Import ZArith Lia Bool.
From stdpp Require Import base list numbers option relations.
From S2P Require Import Prelude APInt Expr ExprCreate ExprSem ExprCompare ExprCreateCorrect ExprFactory ExprVisitor ExprReads ExprUtil.
Open Scope Z_scope.

Section find.
Context {A : APInt} {AR : Arrays}.

(** A [ReadExpr]: its array, the head of its update list and its index. *)
Record ReadExpr : Type := MkRead {
  read_root : positive;
  read_head : updates;
  read_index : expr;
}.

Definition read_expr (r : ReadExpr) : expr := Read (read_root r) (read_head r) (read_index r).

(** The stack, its back first, and the visited expressions. *)
Definition walk : Type := list expr * list expr.

(* if (!isa<ConstantExpr>(k) && visited.insert(k).second) stack.push_back(k) *)
Definition push (s : walk) (k : expr) : walk :=
  if isConstant k || existsb (expr_eqb k) (snd s) then s else (k :: fst s, k :: snd s).

Definition push_all (ks : list expr) (s : walk) : walk := foldl push s ks.

Fixpoint findReads_loop (fuel : nat) (visitUpdates : bool) (s : walk) (results : list ReadExpr) :
    res (list ReadExpr) :=
  match fst s with
  | [] => Ok results
  | top :: stack =>
      match fuel with
      | O => OutOfFuel
      | S fuel' =>
          let s := (stack, snd s) in
          match top with
          | Read root u i =>
              let s := push s i in
              let s := if visitUpdates then push_all (update_exprs u) s else s in
              findReads_loop fuel' visitUpdates s (results ++ [MkRead root u i])
          | _ => findReads_loop fuel' visitUpdates (push_all (kids top) s) results
          end
      end
  end.

Definition findReads (e : expr) (visitUpdates : bool) (results : list ReadExpr) : res (list ReadExpr) :=
  findReads_loop (deep_size e) visitUpdates (if isConstant e then ([], []) else ([e], [e])) results.

End find.

(** ** Correctness *)

Lemma same_children `{A : APInt} {AR : Arrays} a b : same a b -> Forall2 same (children a) (children b).
Proof.
  assert (forall u u', same_updates u u' -> Forall2 same (update_exprs u) (update_exprs u')) as Hu.
  { induction u as [|i v n IH]; intros u' H; inversion H; subst; cbn; repeat constructor; auto. }
  intros H. inversion H; subst; cbn; repeat constructor; auto.
Qed.

Section correct.
Context {A : APInt} {L : APIntLaws A} {AR : Arrays}.

Fixpoint total_size (es : list expr) : nat :=
  match es with [] => 0%nat | e :: es' => (deep_size e + total_size es')%nat end.

Lemma total_size_app a b : total_size (a ++ b) = (total_size a + total_size b)%nat.
Proof. induction a as [|e a IH]; cbn; [done|]. rewrite IH. lia. Qed.

Lemma children_size e : isConstant e = false -> (total_size (children e) < deep_size e)%nat.
Proof.
  assert (forall u, (total_size (update_exprs u) <= deep_size_updates u)%nat) as Hu.
  { induction u as [|i v n IH]; cbn [update_exprs total_size deep_size_updates]; lia. }
  intros H. destruct e; try done; cbn [children kids total_size deep_size]; try lia. specialize (Hu head). lia.
Qed.

Lemma children_wt e : wt e -> Forall wt (children e).
Proof.
  assert (forall root u, wt_updates root u -> Forall wt (update_exprs u)) as Hu.
  { intros root. induction u as [|i v n IH]; intros H; [constructor|].
    destruct H as (? & ? & _ & _ & ?). cbn. repeat constructor; auto. }
  intros H. destruct e; try (by apply kids_wt). destruct H as (_ & H & Hi & _). cbn. constructor; [done|].
  by eapply Hu.
Qed.

(** A class of expressions closed under [children]. *)
Context (Q : expr -> Prop) (HQ : forall e, Q e -> wt e /\ Forall Q (children e)).

(** [k] needs no visit any more. *)
Definition seen (visited : list expr) (k : expr) : Prop :=
  isConstant k = true \/ exists y, y ∈ visited /\ expr_eqb k y = true.

Lemma seen_more V V' k : (forall y, y ∈ V -> y ∈ V') -> seen V k -> seen V' k.
Proof. intros H [?|(y & Hy & ?)]; [by left|right; exists y; auto]. Qed.

Definition processed (visited : list expr) (results : list ReadExpr) (x : expr) : Prop :=
  Forall (seen visited) (children x) /\
  forall root u i, x = Read root u i -> MkRead root u i ∈ results.

(** What is known of the walk, from the stack [st] on. *)
Definition walk_ok (s : walk) (results : list ReadExpr) : Prop :=
  Forall Q (snd s) /\ Forall (fun r => Q (read_expr r)) results /\
  forall x, x ∈ snd s -> x ∈ fst s \/ processed (snd s) results x.

Lemma push_all_ok ks : forall s,
  Forall Q ks -> exists new, push_all ks s = (new ++ fst s, new ++ snd s) /\ Forall Q new /\
    Forall (fun x => isConstant x = false) new /\ Forall (seen (new ++ snd s)) ks /\ (total_size new <= total_size ks)%nat.
Proof.
  induction ks as [|k ks IH]; intros [st V] Hks; cbn [push_all foldl].
  { exists []. by split_and!. }
  apply Forall_cons_iff in Hks as [Hk Hks].
  assert (exists new0, push (st, V) k = (new0 ++ st, new0 ++ V) /\ Forall Q new0 /\
    Forall (fun x => isConstant x = false) new0 /\ seen (new0 ++ V) k /\
    (total_size new0 <= deep_size k)%nat) as (new0 & -> & Hn0 & Hc0 & Hs0 & Hz0).
  { unfold push. cbn [fst snd]. destruct (isConstant k || existsb (expr_eqb k) V) eqn:E.
    - exists []. split_and!; [done|constructor|constructor| |cbn; lia].
      apply orb_true_iff in E as [E|E]; [by left|right].
      apply existsb_exists in E as (y & Hy%list_elem_of_In & ?). by exists y.
    - apply orb_false_iff in E as [E _].
      exists [k]. split_and!; [done|by constructor|by constructor| |cbn; lia].
      right. exists k. split; [cbn; by left|]. apply Z.eqb_eq, compare_same; [apply same_refl_both|by apply HQ]. }
  destruct (IH (new0 ++ st, new0 ++ V) Hks) as (new & E & Hn & Hc & Hs & Hz). fold (push_all ks (new0 ++ st, new0 ++ V)).
  exists (new ++ new0). rewrite E. cbn [fst snd] in *. rewrite <- !app_assoc. split; [done|].
  split; [by apply Forall_app|]. split; [by apply Forall_app|]. split.
  - constructor; [|done]. eapply seen_more; [|exact Hs0]. intros y Hy. apply elem_of_app. by right.
  - rewrite total_size_app. cbn. lia.
Qed.

(** What has been pushed once is not pushed again. *)
Lemma push_all_seen ks : forall s, Forall (seen (snd s)) ks -> push_all ks s = s.
Proof.
  induction ks as [|k ks IH]; intros s H; [done|]. apply Forall_cons_iff in H as [Hk H]. cbn [push_all foldl].
  assert (push s k = s) as ->; [|by apply IH]. unfold push.
  assert (isConstant k || existsb (expr_eqb k) (snd s) = true) as ->; [|done]. apply orb_true_iff.
  destruct Hk as [?|(y & Hy & ?)]; [by left|right]. apply existsb_exists. exists y. by rewrite <- list_elem_of_In.
Qed.

Lemma push_all_again ks s : Forall Q ks -> push_all ks (push_all ks s) = push_all ks s.
Proof.
  intros H. apply push_all_seen. destruct (push_all_ok ks s H) as (new & -> & _ & _ & Hs & _). exact Hs.
Qed.

(** One step: the children of the top of the stack are pushed. *)
Lemma step_walk_ok top st V results new (rs : list ReadExpr) :
  walk_ok (top :: st, V) results -> Q top -> Forall Q new -> Forall (seen (new ++ V)) (children top) ->
  Forall (fun r => Q (read_expr r)) rs -> (forall root u i, top = Read root u i -> MkRead root u i ∈ rs) ->
  walk_ok (new ++ st, new ++ V) (results ++ rs).
Proof.
  intros (HV & Hr & Hp) Htop Hnew Hseen Hrs Hread. cbn [fst snd] in *. split; [by apply Forall_app|].
  split; [by apply Forall_app|]. intros x Hx. cbn [fst snd] in *.
  apply elem_of_app in Hx as [Hx|Hx]; [left; apply elem_of_app; by left|].
  destruct (Hp x Hx) as [Hst|[Hc Hxr]].
  - apply elem_of_cons in Hst as [->|Hst]; [right|left; apply elem_of_app; by right].
    split; [done|]. intros root u i E. apply elem_of_app. right. auto.
  - right. split.
    + eapply Forall_impl; [exact Hc|]. intros k. apply seen_more. intros y Hy. apply elem_of_app. by right.
    + intros root u i E. apply elem_of_app. left. auto.
Qed.

Lemma findReads_loop_ok fuel : forall s results,
  Forall Q (fst s) -> Forall (fun x => isConstant x = false) (fst s) -> walk_ok s results ->
  (total_size (fst s) <= fuel)%nat ->
  exists V results', findReads_loop fuel true s results = Ok results' /\
    (forall x, x ∈ snd s -> x ∈ V) /\ walk_ok ([], V) results'.
Proof.
  induction fuel as [|fuel IH]; intros [[|top st] V] results Hst Hc Hok Hf; cbn [findReads_loop fst snd] in *.
  1, 3: by exists V, results.
  { apply Forall_cons_iff in Hc as [Hc _]. apply children_size in Hc. cbn in Hf. lia. }
  apply Forall_cons_iff in Hst as [Htop Hst]. apply Forall_cons_iff in Hc as [Hct Hc].
  destruct (HQ top Htop) as [_ Hch]. pose proof (children_size top Hct) as Hsz.
  destruct (push_all_ok (children top) (st, V) Hch) as (new & E & Hn & Hnc & Hs & Hz). cbn [fst snd total_size] in *.
  set (rs := match top with Read root u i => [MkRead root u i] | _ => [] end).
  assert (match top with
    | Read root u i => findReads_loop fuel true (push_all (update_exprs u) (push (st, V) i)) (results ++ [MkRead root u i])
    | _ => findReads_loop fuel true (push_all (kids top) (st, V)) results
    end = findReads_loop fuel true (new ++ st, new ++ V) (results ++ rs)) as ->.
  { rewrite <- E. unfold rs. destruct top; cbn [children push_all foldl]; rewrite ?app_nil_r; done. }
  destruct (IH (new ++ st, new ++ V) (results ++ rs)) as (V' & results' & ER & HV' & Hok').
  - by apply Forall_app.
  - by apply Forall_app.
  - apply (step_walk_ok top); try done.
    + unfold rs. destruct top; by repeat constructor.
    + intros root u i ->. cbn. by left.
  - cbn [fst]. rewrite total_size_app. lia.
  - exists V', results'. split; [done|]. split; [|done]. intros x Hx. apply HV'. cbn. apply elem_of_app. by right.
Qed.

(** A closed table of visited expressions has found every read. *)
Definition found (results : list ReadExpr) (root : positive) (u : updates) (i : expr) : Prop :=
  exists r, r ∈ results /\ same (Read root u i) (read_expr r).

(** A child of an expression that stands for [y] is seen when [y]'s is. *)
Lemma seen_same V k k' : Forall wt V -> wt k -> wt k' -> same k k' -> seen V k' -> seen V k.
Proof.
  intros HV Hk Hk' E [H|(z & Hz & Ez)].
  - left. by inversion E; subst.
  - right. exists z. split; [done|]. rewrite Forall_forall in HV.
    apply Z.eqb_eq, compare_same; [|done]. eapply same_trans_both; [exact E|].
    apply compare_zero_same; [done|by apply HV|by apply Z.eqb_eq].
Qed.

Lemma total_size_elem k ks : k ∈ ks -> (deep_size k <= total_size ks)%nat.
Proof. induction 1 as [|k x ks _ IHk]; cbn; lia. Qed.

Lemma processed_all_reads V results :
  Forall wt V -> (forall x, x ∈ V -> processed V results x) ->
  forall n e, (deep_size e < n)%nat -> wt e -> seen V e -> all_reads (found results) e.
Proof.
  intros HV Hp. induction n as [|n IH]; intros e Hn Hwt Hs; [lia|].
  destruct (isConstant e) eqn:Hc; [by destruct e|].
  destruct Hs as [Hs|(y & Hy & E)]; [congruence|].
  assert (wt y) as Hwy by (rewrite Forall_forall in HV; by apply HV).
  apply Z.eqb_eq, compare_zero_same in E; [|done|done].
  destruct (Hp y Hy) as [Hch Hread]. apply all_reads_children.
  - pose proof (same_children e y E) as Hcc. pose proof (children_wt e Hwt) as Hcw.
    pose proof (children_wt y Hwy) as Hcy. pose proof (children_size e Hc) as Hz.
    assert (forall k, k ∈ children e -> (deep_size k < n)%nat) as Hkn.
    { intros k Hk%total_size_elem. lia. }
    clear -L IH Hch Hcc Hcw Hcy Hkn HV. revert Hch Hcw Hcy Hkn.
    induction Hcc as [|k k' ks ks' Hkk Hcc IHc]; intros; [constructor|].
    apply Forall_cons_iff in Hch as [Hk' Hch]. apply Forall_cons_iff in Hcw as [Hkw Hcw].
    apply Forall_cons_iff in Hcy as [Hkw' Hcy]. constructor.
    + apply IH; [by apply Hkn; left|done|]. by apply (seen_same V k k').
    + apply IHc; [done..|]. intros x Hx. apply Hkn. by right.
  - intros root u i ->. inversion E; subst. eexists (MkRead root _ _). split; [by apply Hread|done].
Qed.

Lemma findReads_ok e :
  Q e -> exists results, findReads e true [] = Ok results /\
    Forall (fun r => Q (read_expr r)) results /\ all_reads (found results) e.
Proof.
  intros He. pose proof (proj1 (HQ e He)) as Hwt. unfold findReads. destruct (isConstant e) eqn:Hc.
  - exists []. by destruct e.
  - destruct (findReads_loop_ok (deep_size e) ([e], [e]) []) as (V & results & E & HV & HVQ & Hr & Hp); cbn [fst snd].
    + by constructor.
    + by constructor.
    + split; [by constructor|]. split; [constructor|]. cbn. intros x ->%list_elem_of_singleton. left. by left.
    + cbn. lia.
    + exists results. split; [done|]. split; [done|]. cbn [fst snd] in *.
      apply (processed_all_reads V results) with (n := S (deep_size e)); [| |lia|done|].
      * eapply Forall_impl; [exact HVQ|]. intros x Hx. by apply HQ.
      * intros x Hx. destruct (Hp x Hx) as [H|H]; [by apply elem_of_nil in H|done].
      * right. exists e. split; [apply HV; by left|]. apply Z.eqb_eq, compare_same; [apply same_refl_both|done].
Qed.
End correct.

(** ** Properties *)

(** [x] is a part of [e]: [e] itself, or reached through operands, indices and
    the entries of update lists. *)
Definition part_of `{A : APInt} (e x : expr) : Prop := rtc (fun x k => k ∈ children x) e x.

(** [findReads] returns within its bound and misses no read: every read in
    the expression, those in update lists included, is structurally equal to
    one it lists, and it lists reads that are parts of the expression only. *)
Theorem findReads_complete `{A : APInt} {L : APIntLaws A} {AR : Arrays} e :
  wt e -> exists results, findReads e true [] = Ok results /\
    Forall (fun r => part_of e (read_expr r)) results /\
    all_reads (fun root u i => exists r, r ∈ results /\ same (Read root u i) (read_expr r)) e.
Proof.
  intros Hwt. destruct (findReads_ok (fun x => wt x /\ part_of e x)) with (e := e) as (results & E & Hr & Hall).
  - intros x [Hx Hp]. split; [done|]. pose proof (children_wt x Hx) as Hc.
    rewrite Forall_forall in Hc |- *. intros k Hk. split; [by apply Hc|].
    by eapply rtc_r.
  - by split; [|apply rtc_refl].
  - exists results. split; [done|]. split; [|done]. eapply Forall_impl; [exact Hr|]. by intros r [].
Qed.

(** ** Witnesses *)
Section witnesses.
#[local] Existing Instance Examples.arrays.
Import Examples.

(* a[a[1]], after a[2] := a[0] *)
Definition nested_read : expr := Read 1 (UNode (Constant (word 2)) (a_at 0) UNil) (Concat (Constant (BV 24 0)) (a_at 1)).

Lemma nested_read_wt : wt nested_read.
Proof. pose proof wt_a. cbn. split_and!; try done; cbn; lia. Qed.

Lemma findReads_complete_witness :
  length <$> (match findReads nested_read true [] with Ok rs => Some rs | _ => None end) = Some 3%nat /\
  exists results, findReads nested_read true [] = Ok results /\
    Forall (fun r => part_of nested_read (read_expr r)) results /\
    all_reads (fun root u i => exists r, r ∈ results /\ same (Read root u i) (read_expr r)) nested_read.
Proof. split; [reflexivity|]. apply (findReads_complete nested_read). exact nested_read_wt. Defined.
End witnesses.
