(* ===== verification/Solver.v ===== *)
(** The solver interface: [Query] and [Solver] (klee/include/klee/Solver/Solver.h,
    klee/lib/Solver/Solver.cpp) and [SolverImpl]
    (klee/include/klee/Solver/SolverImpl.h, klee/lib/Solver/SolverImpl.cpp).

    A [SolverImpl] is a record of its virtual functions over the state of the
    object; a function that returns [false] gives [None].  [SolverContract]
    states what the comments of SolverImpl.h promise, with the meaning of
    expressions of [ExprSem.v]; every wrapper is proved against it, so that
    the stacked solvers of klee/lib/Solver compose.

    The contract covers queries whose constraints are satisfiable Boolean
    expressions and whose expression is defined wherever the constraints hold
    ([query_ok]).  It does not use the promise "guaranteed to be non-constant"
    of SolverImpl.h: [computeValidity] passes on a negated expression, which
    no code checks. *)
From Stdlib Require Import ZArith Lia Bool.
From stdpp Require Import base list numbers option.
From S2P Require Import Prelude Bits APInt Expr ExprCreate ExprSem ExprCompare ExprCreateCorrect ExprFactory.
Open Scope Z_scope.

Section solver.
Context {A : APInt} {AR : Arrays}.
Context (ConstArrayOpt : bool).

(** [struct Query]; a [ConstraintManager] is the list of its constraints. *)
Record Query : Type := MkQuery {
  constraints : list expr;
  query_expr : expr;
}.

Definition withExpr (q : Query) (e : expr) : Query := MkQuery (constraints q) e.

Definition withFalse (q : Query) : Query := withExpr q (const_alloc 0 Bool_w).

Definition negateExpr (q : Query) : res Query :=
  let* n := createIsZero ConstArrayOpt (query_expr q) in Ok (withExpr q n).

(** [Solver::Validity]. *)
Inductive Validity : Type := ValidityTrue | ValidityFalse | ValidityUnknown.

(** The initial values of a list of arrays; [None] if the query is valid. *)
Definition solution : Type := option (list (list Z)).

(** [SolverImpl], over the object's state. *)
Record SolverImpl (S : Type) : Type := {
  computeTruth : Query -> state S (option bool);
  computeValidity : Query -> state S (option Validity);
  computeValue : Query -> state S (option expr);
  computeInitialValues : Query -> list positive -> state S (option solution);
}.
Arguments computeTruth {S}.
Arguments computeValidity {S}.
Arguments computeValue {S}.
Arguments computeInitialValues {S}.

(** The implementation [SolverImpl] gives of [computeValidity]. *)
Definition default_computeValidity {S} (computeTruth : Query -> state S (option bool)) (query : Query) :
    state S (option Validity) :=
  do* t := computeTruth query in
  match t with
  | None => sret None
  | Some true => sret (Some ValidityTrue)
  | Some false =>
      do* nq := slift (negateExpr query) in
      do* f := computeTruth nq in
      sret (match f with
            | None => None
            | Some isFalse => Some (if isFalse : bool then ValidityFalse else ValidityUnknown)
            end)
  end.

(** DummySolver: every operation fails. *)
Definition DummySolver : SolverImpl unit := {|
  computeTruth _ := sret None;
  computeValidity _ := sret None;
  computeValue _ := sret None;
  computeInitialValues _ _ := sret None;
|}.

(** *** Solver *)
Section wrappers.
Context {S : Type} (impl : SolverImpl S).

Definition evaluate (query : Query) : state S (option Validity) :=
  do* _ := slift (assert* getWidth (query_expr query) =? Bool_w in Ok tt) in
  match query_expr query with
  | Constant CE => sret (Some (if const_isTrue CE then ValidityTrue else ValidityFalse))
  | _ => computeValidity impl query
  end.

Definition mustBeTrue (query : Query) : state S (option bool) :=
  do* _ := slift (assert* getWidth (query_expr query) =? Bool_w in Ok tt) in
  match query_expr query with
  | Constant CE => sret (Some (const_isTrue CE))
  | _ => computeTruth impl query
  end.

Definition mustBeFalse (query : Query) : state S (option bool) :=
  do* nq := slift (negateExpr query) in mustBeTrue nq.

Definition mayBeTrue (query : Query) : state S (option bool) :=
  do* r := mustBeFalse query in sret (negb <$> r).

Definition mayBeFalse (query : Query) : state S (option bool) :=
  do* r := mustBeTrue query in sret (negb <$> r).

Definition getValue (query : Query) : state S (option ap) :=
  match query_expr query with
  | Constant CE => sret (Some CE)
  | _ =>
      do* r := computeValue impl query in
      match r with
      | None => sret None
      | Some (Constant c) => sret (Some c)
      | Some _ => slift AssertFail (* cast<ConstantExpr> *)
      end
  end.

(* without a solution the result is a failure *)
Definition getInitialValues (query : Query) (objects : list positive) : state S (option (list (list Z))) :=
  do* r := computeInitialValues impl query objects in
  sret (r ≫= id).

(* the answer of a call whose success is asserted *)
Definition assert_success {T} (m : state S (option T)) : state S T :=
  do* r := m in match r with Some x => sret x | None => slift AssertFail end.

(* while (lo < hi): the least value the test accepts *)
Fixpoint binary_search (fuel : nat) (test : Z -> state S bool) (lo hi : Z) : state S Z :=
  if lo <? hi then
    match fuel with
    | O => fun _ => OutOfFuel
    | Datatypes.S fuel' =>
        let mid := lo + (hi - lo) / 2 in
        do* res := test mid in
        if res then binary_search fuel' test lo mid else binary_search fuel' test (mid + 1) hi
    end
  else sret lo.

Definition search_fuel : nat := 64.

(* e >> mid == 0 in every solution *)
Definition useful_bits_test (query : Query) (width mid : Z) : state S bool :=
  do* q := slift (
    let* m := const_create mid width in
    let* sh := BinaryExpr_create ConstArrayOpt LShr (query_expr query) m in
    let* z := const_create 0 width in
    let* c := BinaryExpr_create ConstArrayOpt Eq sh z in
    Ok (withExpr query c)) in
  assert_success (mustBeTrue q).

(* e <= mid *)
Definition at_most (query : Query) (width mid : Z) : res Query :=
  let* m := const_create mid width in
  let* c := BinaryExpr_create ConstArrayOpt Ule (query_expr query) m in
  Ok (withExpr query c).

Definition is_zero_query (query : Query) (width : Z) : res Query :=
  let* z := const_create 0 width in
  let* c := BinaryExpr_create ConstArrayOpt Eq (query_expr query) z in
  Ok (withExpr query c).

Definition min_test (query : Query) (width mid : Z) : state S bool :=
  do* q := slift (at_most query width mid) in assert_success (mayBeTrue q).

Definition max_test (query : Query) (width mid : Z) : state S bool :=
  do* q := slift (at_most query width mid) in assert_success (mustBeTrue q).

(* the bounds of a non-constant expression of more than one bit *)
Definition search_range (query : Query) (width : Z) : state S (Z * Z) :=
  do* bits := binary_search search_fuel (useful_bits_test query width) 0 width in
  do* zq := slift (is_zero_query query width) in
  do* zero := assert_success (mayBeTrue zq) in
  do* top := slift (bits64.maxValueOfNBits bits) in
  do* min := (if zero : bool then sret 0
              else binary_search search_fuel (min_test query width) 0 top) in
  do* max := binary_search search_fuel (max_test query width) min top in
  sret (min, max).

Definition getRange (query : Query) : state S (expr * expr) :=
  let e := query_expr query in
  let width := getWidth e in
  do* range :=
    (if width =? 1 then
       do* v := assert_success (evaluate query) in
       sret (match v with
             | ValidityTrue => (1, 1)
             | ValidityFalse => (0, 0)
             | ValidityUnknown => (0, 1)
             end)
     else match e with
          | Constant CE => do* c := slift (getZExtValue CE 64) in sret (c, c)
          | _ => search_range query width
          end) in
  do* lo := slift (const_create (fst range) width) in
  do* hi := slift (const_create (snd range) width) in
  sret (lo, hi).
End wrappers.

End solver.
Arguments computeTruth {A S}.
Arguments computeValidity {A S}.
Arguments computeValue {A S}.
Arguments computeInitialValues {A S}.

(** ** The contract *)

(** The operations queries are derived by: comparisons, sums and small shifts,
    but no divisions. *)
Definition derived `{A : APInt} (k : BinKind) (c : ap) : Prop :=
  match k with
  | UDiv | SDiv | URem | Shl | AShr => False
  | LShr => uval c < 2 ^ 32
  | _ => True
  end.

Lemma derived_cmp `{A : APInt} k c : is_cmp k = true -> derived k c.
Proof. by destruct k. Qed.

(** The expressions a solver is asked about: a class that the constants and
    the expressions derived from a query stay in.  [d] is the value of the
    derived expression as a function of that of [e]. *)
Class Scope `{A : APInt} {AR : Arrays} (opt checked : bool) : Type := {
  good : expr -> Prop;
  good_false : good (const_alloc 0 Bool_w);
  good_create e k c e' (d : Z -> Z) :
    good e -> derived k c -> BinaryExpr_create opt k e (Constant c) = Ok e' ->
    (forall ρ v, denote checked ρ e = Some v -> denote checked ρ e' = Some (d v)) ->
    good e';
  (* the lists of objects whose values it can give *)
  good_objects : list positive -> Prop;
  good_objects_once objects : NoDup objects -> Forall (fun os => wt_array (arrayAt os)) objects -> good_objects objects;
}.

(** No restriction. *)
Definition any_scope `{A : APInt} {AR : Arrays} (opt checked : bool) : Scope opt checked := {|
  good _ := True;
  good_false := I;
  good_create _ _ _ _ _ _ _ _ _ := I;
  good_objects _ := True;
  good_objects_once _ _ _ := I;
|}.

Section contract.
Context {A : APInt} {AR : Arrays}.
Context {opt : bool} (checked : bool) {SC : Scope opt checked}.

(** [ρ] satisfies the constraints. *)
Definition sat (ρ : env) (cs : list expr) : Prop := Forall (fun c => denote checked ρ c = Some 1) cs.

Definition query_wf (q : Query) : Prop :=
  Forall (fun c => wt c /\ getWidth c = 1) (constraints q) /\
  wt (query_expr q) /\
  (forall ρ, sat ρ (constraints q) -> is_Some (denote checked ρ (query_expr q))) /\
  Forall (fun c => good c /\ isConstant c = false) (constraints q) /\ good (query_expr q).

Definition query_ok (q : Query) : Prop := query_wf q /\ exists ρ, sat ρ (constraints q).

Definition bool_wf (q : Query) : Prop := query_wf q /\ getWidth (query_expr q) = 1.

Definition bool_query (q : Query) : Prop := query_ok q /\ getWidth (query_expr q) = 1.

(** The negation of the expression does not fold to the constant false. *)
Definition refutable (q : Query) : Prop :=
  forall c, createIsZero opt (query_expr q) = Ok (Constant c) -> const_isFalse c = false.

(** The expression can have the value [v]. *)
Definition feasible (q : Query) (v : Z) : Prop :=
  exists ρ, sat ρ (constraints q) /\ denote checked ρ (query_expr q) = Some v.

(** It has the value [v] in every solution. *)
Definition forced (q : Query) (v : Z) : Prop :=
  forall ρ, sat ρ (constraints q) -> denote checked ρ (query_expr q) = Some v.

Definition validity_spec (q : Query) (v : Validity) : Prop :=
  match v with
  | ValidityTrue => forced q 1
  | ValidityFalse => forced q 0
  | ValidityUnknown => feasible q 0 /\ feasible q 1
  end.

(** The lists of objects whose values can be asked for. *)
Definition objects_ok (objects : list positive) : Prop :=
  Forall (fun os => wt_array (arrayAt os) /\ (isSymbolicArray (arrayAt os) = true -> range (arrayAt os) = 8)) objects /\
  good_objects objects.

Lemma objects_once objects :
  NoDup objects ->
  Forall (fun os => wt_array (arrayAt os) /\ (isSymbolicArray (arrayAt os) = true -> range (arrayAt os) = 8)) objects ->
  objects_ok objects.
Proof. intros Hn Ho. split; [done|]. apply good_objects_once; [done|]. revert Ho. apply Forall_impl. by intros os []. Qed.

(** The bytes of a symbolic array in [ρ]; nothing is said of the values of a
    constant array. *)
Definition bytes_of (ρ : env) (os : positive) (vs : list Z) : Prop :=
  Z.of_nat (length vs) = size (arrayAt os) /\ Forall (fun b => 0 <= b < 256) vs /\
  (isSymbolicArray (arrayAt os) = true ->
   forall i b, vs !! i = Some b -> denote_updates checked ρ os UNil (Z.of_nat i) = Some b).

(** The values list the bytes of the objects in [ρ]. *)
Definition object_values (ρ : env) : list positive -> list (list Z) -> Prop := Forall2 (bytes_of ρ).

(** A solution shows that the query is not valid. *)
Definition solution_spec (q : Query) (objects : list positive) (sol : solution) : Prop :=
  match sol with
  | None => forced q 1
  | Some values => exists ρ, sat ρ (constraints q) /\ denote checked ρ (query_expr q) = Some 0 /\
      object_values ρ objects values
  end.

(** What [SolverImpl] promises of a query; every function may fail. *)
Class SolverContract {S} (impl : SolverImpl S) (Inv : S -> Prop) : Prop := {
  computeTruth_ok q : bool_query q ->
    sholds Inv (computeTruth impl q) (fun r => forall b, r = Some b -> if b then forced q 1 else feasible q 0);
  computeValidity_ok q : bool_query q ->
    sholds Inv (computeValidity impl q) (fun r => forall v, r = Some v -> validity_spec q v);
  computeValue_ok q : query_ok q ->
    sholds Inv (computeValue impl q) (fun r => forall e, r = Some e ->
      exists c, e = Constant c /\ getBitWidth c = getWidth (query_expr q) /\ feasible q (uval c));
  computeInitialValues_ok q objects : bool_wf q -> refutable q -> objects_ok objects ->
    sholds Inv (computeInitialValues impl q objects)
      (fun r => forall sol, r = Some sol -> solution_spec q objects sol);
}.

End contract.
Arguments refutable {A AR} opt q.
Arguments objects_ok {A AR opt checked SC} objects.
Arguments objects_once {A AR opt checked SC} objects.
Arguments computeTruth_ok {A AR opt checked SC S impl Inv _} q.
Arguments computeValidity_ok {A AR opt checked SC S impl Inv _} q.
Arguments computeValue_ok {A AR opt checked SC S impl Inv _} q.
Arguments computeInitialValues_ok {A AR opt checked SC S impl Inv _} q objects.

Section correct.
Context {A : APInt} {L : APIntLaws A} {AR : Arrays}.
Context (opt checked : bool).
Context (Hopt : opt = true -> checked = true).
Context {SC : Scope opt checked}.

Notation sat := (sat checked).
Notation query_ok := (query_ok checked).
Notation query_wf := (query_wf checked).
Notation bool_query := (bool_query checked).
Notation bool_wf := (bool_wf checked).
Notation feasible := (feasible checked).
Notation forced := (forced checked).

(** *** Queries *)

Lemma forced_feasible q v : query_ok q -> forced q v -> feasible q v.
Proof. intros (_ & [ρ Hρ]) H. exists ρ. auto. Qed.

Lemma forced_unique q v v' : forced q v -> feasible q v' -> v = v'.
Proof. intros H (ρ & Hρ & Hv). specialize (H ρ Hρ). congruence. Qed.

Lemma bool_query_wf q : bool_query q -> bool_wf q.
Proof. by intros [[? _] ?]. Qed.

Lemma bit_value q ρ :
  bool_wf q -> sat ρ (constraints q) ->
  denote checked ρ (query_expr q) = Some 0 \/ denote checked ρ (query_expr q) = Some 1.
Proof.
  intros [(_ & Hwt & Hd & _) Hw] Hρ. destruct (Hd ρ Hρ) as [v Hv].
  pose proof (denote_range checked _ ρ v Hwt Hv) as R. rewrite Hw in R.
  destruct (bit_cases v R) as [-> | ->]; auto.
Qed.

(** The query about a constructor of an expression [e0] and a constant; [g]
    gives the value of [e0] from that of the query's expression, [f] the value
    of the result from that of [e0]. *)
Lemma with_expr_ok q e0 (g f : Z -> Z) k c :
  query_wf q -> good e0 -> derived k c ->
  (forall ρ v, denote checked ρ (query_expr q) = Some v -> denote checked ρ e0 = Some (g v)) ->
  implements checked (BinaryExpr_create opt k e0 (Constant c)) 1
    (fun ρ => v ← denote checked ρ e0; Some (f v)) ->
  exists e, BinaryExpr_create opt k e0 (Constant c) = Ok e /\ bool_wf (withExpr q e) /\
    forall ρ v, denote checked ρ (query_expr q) = Some v -> denote checked ρ e = Some (f (g v)).
Proof.
  intros (Hcs & Hwt & Hd & Hgc & _) Hg0 Hk Hg (e & E & He & Hw & Hden). exists e. split; [done|].
  assert (forall ρ v, denote checked ρ e0 = Some v -> denote checked ρ e = Some (f v)) as Hf.
  { intros ρ v Hv. apply Hden. by rewrite Hv. }
  split; [|auto]. split; [|done]. split; [done|]. split; [done|]. split; [|split; [done|]].
  - intros ρ Hρ. destruct (Hd ρ Hρ) as [v Hv]. exists (f (g v)). auto.
  - by apply (good_create e0 k c e f).
Qed.

Lemma negateExpr_wf q :
  query_wf q -> exists nq, negateExpr opt q = Ok nq /\ bool_wf nq /\ constraints nq = constraints q /\
    forall ρ v, denote checked ρ (query_expr q) = Some v ->
      denote checked ρ (query_expr nq) = Some (Z.b2z (v =? 0)).
Proof.
  intros Hq. pose proof Hq as (_ & Hwt & _ & _ & Hg). pose proof (wt_width_pos _ Hwt) as Hp.
  pose proof (createIsZero_ok opt checked Hopt (query_expr q) Hwt) as Hz.
  assert (createIsZero opt (query_expr q) =
    BinaryExpr_create opt Eq (query_expr q) (const_alloc 0 (getWidth (query_expr q)))) as E.
  { unfold createIsZero, createIsZero_with. by rewrite const_create_ok by lia. }
  rewrite E in Hz. unfold negateExpr. rewrite E.
  destruct (with_expr_ok q (query_expr q) id (fun v => Z.b2z (v =? 0)) Eq _ Hq Hg I ltac:(done) Hz) as (e & He & Hb & Hd).
  exists (withExpr q e). unfold const_alloc. by rewrite He.
Qed.

Lemma negateExpr_ok q :
  query_ok q -> exists nq, negateExpr opt q = Ok nq /\ bool_query nq /\ constraints nq = constraints q /\
    forall ρ v, denote checked ρ (query_expr q) = Some v ->
      denote checked ρ (query_expr nq) = Some (Z.b2z (v =? 0)).
Proof.
  intros [Hq Hs]. destruct (negateExpr_wf q Hq) as (nq & E & [Hn Hw] & Hc & Hd). exists nq.
  split; [done|]. split; [|done]. split; [|done]. split; [done|]. by rewrite Hc.
Qed.

Lemma withFalse_wf q : query_wf q -> bool_wf (withFalse q) /\ forced (withFalse q) 0.
Proof.
  intros (Hcs & _ & _ & Hgc & _).
  assert (forall ρ, denote checked ρ (const_alloc 0 Bool_w) = Some 0) as H0.
  { intros ρ. by rewrite denote_const_alloc. }
  split; [|intros ρ _; apply H0]. split; [|by apply width_const_alloc].
  split; [done|]. split; [by apply wt_const_alloc|]. split; [|split; [done|apply good_false]].
  intros ρ _. by exists 0.
Qed.

Lemma withFalse_ok q : query_ok q -> bool_query (withFalse q) /\ forced (withFalse q) 0.
Proof. intros [Hq Hs]. destruct (withFalse_wf q Hq) as [[? ?] ?]. done. Qed.

(** The answers about a test [d] of the expression, and about the negation. *)
Lemma forced_with q e (d : Z -> Z) (b : Z) :
  query_ok q ->
  (forall ρ v, denote checked ρ (query_expr q) = Some v -> denote checked ρ e = Some (d v)) ->
  forced (withExpr q e) b <-> forall v, feasible q v -> d v = b.
Proof.
  intros ((_ & _ & Hd & _) & _) He. split.
  - intros H v (ρ & Hρ & Hv). specialize (H ρ Hρ). cbn in H. rewrite (He ρ v Hv) in H. congruence.
  - intros H ρ Hρ. destruct (Hd ρ Hρ) as [v Hv]. cbn. rewrite (He ρ v Hv). f_equal.
    apply H. by exists ρ.
Qed.

Lemma feasible_with q e (d : Z -> Z) (b : Z) :
  query_ok q ->
  (forall ρ v, denote checked ρ (query_expr q) = Some v -> denote checked ρ e = Some (d v)) ->
  feasible (withExpr q e) b <-> exists v, feasible q v /\ d v = b.
Proof.
  intros ((_ & _ & Hd & _) & _) He. split.
  - intros (ρ & Hρ & Hv). destruct (Hd ρ Hρ) as [v E]. exists v. split; [by exists ρ|].
    cbn in Hv. rewrite (He ρ v E) in Hv. congruence.
  - intros (v & (ρ & Hρ & Hv) & <-). exists ρ. split; [done|]. by apply He.
Qed.

Lemma negate_forced q nq :
  bool_wf q -> constraints nq = constraints q ->
  (forall ρ v, denote checked ρ (query_expr q) = Some v ->
     denote checked ρ (query_expr nq) = Some (Z.b2z (v =? 0))) ->
  (forced nq 1 <-> forced q 0) /\ (forced nq 0 <-> forced q 1) /\
  (feasible nq 0 <-> feasible q 1) /\ (feasible nq 1 <-> feasible q 0).
Proof.
  intros Hq Hc Hn.
  assert (forall ρ, sat ρ (constraints q) ->
    (denote checked ρ (query_expr nq) = Some 1 <-> denote checked ρ (query_expr q) = Some 0) /\
    (denote checked ρ (query_expr nq) = Some 0 <-> denote checked ρ (query_expr q) = Some 1)) as H.
  { intros ρ Hρ. destruct (bit_value q ρ Hq Hρ) as [E|E]; rewrite E, (Hn ρ _ E); cbn; intuition congruence. }
  unfold forced, feasible; rewrite Hc.
  split_and!; split; first [intros Hf ρ Hρ | intros (ρ & Hρ & Hf); exists ρ; split; [done|]];
    destruct (H ρ Hρ) as [H1 H0]; (apply H1 || apply H0); auto.
Qed.

(** *** The default of [computeValidity] *)

Lemma default_computeValidity_ok {S} (Inv : S -> Prop) (truth : Query -> state S (option bool)) :
  (forall q, bool_query q -> sholds Inv (truth q)
     (fun r => forall b, r = Some b -> if b then forced q 1 else feasible q 0)) ->
  forall q, bool_query q ->
    sholds Inv (default_computeValidity opt truth q) (fun r => forall v, r = Some v -> validity_spec checked q v).
Proof.
  intros Ht q Hq. unfold default_computeValidity. eapply sholds_bind; [by apply Ht|].
  intros [[]|] Hr; [| |by apply sholds_ret].
  - apply sholds_ret. intros v [= <-]. by apply (Hr true).
  - specialize (Hr false eq_refl). cbn in Hr.
    destruct (negateExpr_ok q (proj1 Hq)) as (nq & En & Hnq & Hnc & Hnd).
    destruct (negate_forced q nq (bool_query_wf q Hq) Hnc Hnd) as (H1 & H2 & H3 & H4).
    eapply (sholds_bind _ _ (fun x => x = nq)); [apply sholds_lift; by exists nq|]. intros ? ->.
    eapply sholds_bind; [by apply Ht|]. intros r Hr2. apply sholds_ret.
    intros v Hv. destruct r as [[]|]; try done; injection Hv as <-; cbn.
    + apply H1. by apply (Hr2 true).
    + split; [done|]. apply H3. by apply (Hr2 false).
Qed.

(** *** The wrappers *)
Section wrappers.
Context {S : Type} (impl : SolverImpl S) (Inv : S -> Prop) {contract : SolverContract checked impl Inv}.

Lemma check_bool q (Q : unit -> Prop) :
  getWidth (query_expr q) = 1 -> Q tt ->
  sholds Inv (slift (assert* getWidth (query_expr q) =? Bool_w in Ok tt)) Q.
Proof. intros Hw HQ. apply sholds_lift. rewrite Hw. by exists tt. Qed.

Lemma constant_query q CE :
  query_expr q = Constant CE -> getWidth (query_expr q) = 1 ->
  if const_isTrue CE then forced q 1 else forced q 0.
Proof.
  intros E Hw. rewrite E in Hw. pose proof (const_isTrue_value CE Hw) as Hv.
  destruct (const_isTrue CE); intros ρ _; rewrite E; cbn; by rewrite Hv.
Qed.

Lemma mustBeTrue_ok q :
  bool_query q ->
  sholds Inv (mustBeTrue impl q) (fun r => forall b, r = Some b -> if b then forced q 1 else feasible q 0).
Proof.
  intros Hq. unfold mustBeTrue. eapply sholds_bind; [by apply (check_bool q (fun _ => True)), I; apply Hq|].
  intros _ _. destruct (query_expr q) as [CE| | | | | | | |] eqn:E;
    try (by apply computeTruth_ok).
  apply sholds_ret. intros b [= <-].
  pose proof (constant_query q CE E (proj2 Hq)) as H.
  destruct (const_isTrue CE); [done|]. by apply forced_feasible; [apply Hq|].
Qed.

Lemma evaluate_ok q :
  bool_query q ->
  sholds Inv (evaluate impl q) (fun r => forall v, r = Some v -> validity_spec checked q v).
Proof.
  intros Hq. unfold evaluate. eapply sholds_bind; [by apply (check_bool q (fun _ => True)), I; apply Hq|].
  intros _ _. destruct (query_expr q) as [CE| | | | | | | |] eqn:E;
    try (by apply computeValidity_ok).
  apply sholds_ret. intros v [= <-].
  pose proof (constant_query q CE E (proj2 Hq)) as H. by destruct (const_isTrue CE).
Qed.

Lemma mustBeFalse_ok q :
  bool_query q ->
  sholds Inv (mustBeFalse opt impl q) (fun r => forall b, r = Some b -> if b then forced q 0 else feasible q 1).
Proof.
  intros Hq. unfold mustBeFalse. destruct (negateExpr_ok q (proj1 Hq)) as (nq & En & Hnq & Hnc & Hnd).
  destruct (negate_forced q nq (bool_query_wf q Hq) Hnc Hnd) as (H1 & H2 & H3 & H4).
  eapply (sholds_bind _ _ (fun x => x = nq)); [apply sholds_lift; by exists nq|]. intros ? ->.
  eapply sholds_weaken; [by apply mustBeTrue_ok|]. intros r Hr b E. specialize (Hr b E).
  destruct b; [by apply H1|by apply H3].
Qed.

Lemma mayBeTrue_ok q :
  bool_query q ->
  sholds Inv (mayBeTrue opt impl q) (fun r => forall b, r = Some b -> if b then feasible q 1 else forced q 0).
Proof.
  intros Hq. unfold mayBeTrue. eapply sholds_bind; [by apply mustBeFalse_ok|].
  intros r Hr. apply sholds_ret. intros b E. destruct r as [b'|]; [|done]. specialize (Hr b' eq_refl).
  cbn in E. injection E as <-. by destruct b'.
Qed.

Lemma mayBeFalse_ok q :
  bool_query q ->
  sholds Inv (mayBeFalse impl q) (fun r => forall b, r = Some b -> if b then feasible q 0 else forced q 1).
Proof.
  intros Hq. unfold mayBeFalse. eapply sholds_bind; [by apply mustBeTrue_ok|].
  intros r Hr. apply sholds_ret. intros b E. destruct r as [b'|]; [|done]. specialize (Hr b' eq_refl).
  cbn in E. injection E as <-. by destruct b'.
Qed.

Lemma getValue_ok q :
  query_ok q ->
  sholds Inv (getValue impl q) (fun r => forall c, r = Some c ->
    getBitWidth c = getWidth (query_expr q) /\ feasible q (uval c)).
Proof.
  intros Hq. unfold getValue.
  assert (sholds Inv (do* r := computeValue impl q in
    match r with
    | None => sret None
    | Some (Constant c) => sret (Some c)
    | Some _ => slift AssertFail
    end) (fun r => forall c, r = Some c -> getBitWidth c = getWidth (query_expr q) /\ feasible q (uval c))) as H.
  { eapply sholds_bind; [by apply computeValue_ok|]. intros [e|] Hr; [|by apply sholds_ret].
    destruct (Hr e eq_refl) as (c & -> & Hw & Hf). apply sholds_ret. by intros ? [= <-]. }
  destruct (query_expr q) as [CE| | | | | | | |] eqn:E; try done.
  apply sholds_ret. intros c [= <-]. split; [done|].
  apply forced_feasible; [done|]. intros ρ _. by rewrite E.
Qed.

Lemma getInitialValues_ok q objects :
  bool_wf q -> refutable opt q -> objects_ok objects ->
  sholds Inv (getInitialValues impl q objects) (fun r => forall values, r = Some values ->
    exists ρ, sat ρ (constraints q) /\ denote checked ρ (query_expr q) = Some 0 /\
      object_values checked ρ objects values).
Proof.
  intros Hq Hr Ho. unfold getInitialValues. eapply sholds_bind; [by apply computeInitialValues_ok|].
  intros r Hr'. apply sholds_ret. intros values E. destruct r as [[vs|]|]; try done.
  injection E as <-. by apply (Hr' (Some vs)).
Qed.

(** *** [getRange] *)

(** Some call to the solver failed. *)
Definition solver_failed : Prop :=
  exists q s s', Inv s /\ bool_query q /\
    (computeTruth impl q s = Ok (None, s') \/ computeValidity impl q s = Ok (None, s')).

(** [m] returns as [sholds] says, or stops on an assertion because the solver
    failed. *)
Definition succeeds {T} (m : state S T) (Q : T -> Prop) : Prop :=
  forall s, Inv s -> (exists x s', m s = Ok (x, s') /\ Inv s' /\ Q x) \/ (m s = AssertFail /\ solver_failed).

Lemma succeeds_holds {T} (m : state S T) Q : sholds Inv m Q -> succeeds m Q.
Proof. intros H s Hs. left. by apply H. Qed.

Lemma succeeds_bind {T U} (m : state S T) (k : T -> state S U) Q Q' :
  succeeds m Q -> (forall x, Q x -> succeeds (k x) Q') -> succeeds (sbind m k) Q'.
Proof.
  intros Hm Hk s Hs. unfold sbind. destruct (Hm s Hs) as [(x & s' & -> & Hs' & HQ)|[-> Hf]].
  - by apply Hk.
  - by right.
Qed.

Lemma succeeds_weaken {T} (m : state S T) (Q Q' : T -> Prop) :
  succeeds m Q -> (forall x, Q x -> Q' x) -> succeeds m Q'.
Proof.
  intros Hm HQ s Hs. destruct (Hm s Hs) as [(x & s' & ? & ? & ?)|?]; [left|by right]. exists x, s'. auto.
Qed.

Lemma succeeds_lift {T} (m : res T) (Q : T -> Prop) : (exists x, m = Ok x /\ Q x) -> succeeds (slift m) Q.
Proof. intros. by apply succeeds_holds, sholds_lift. Qed.

Lemma succeeds_ret {T} (x : T) (Q : T -> Prop) : Q x -> succeeds (sret x) Q.
Proof. intros. by apply succeeds_holds, sholds_ret. Qed.

(** A call that fails only when the solver does. *)
Lemma assert_success_ok {T} (m : state S (option T)) (Q : T -> Prop) :
  sholds Inv m (fun r => forall x, r = Some x -> Q x) ->
  (forall s s', Inv s -> m s = Ok (None, s') -> solver_failed) ->
  succeeds (assert_success m) Q.
Proof.
  intros Hm Hf s Hs. destruct (Hm s Hs) as (r & s' & E & Hs' & Hr). unfold assert_success, sbind.
  rewrite E. cbn. destruct r as [x|].
  - left. exists x, s'. auto.
  - right. split; [done|]. by apply (Hf s s').
Qed.

Lemma mustBeTrue_fails q s s' :
  Inv s -> bool_query q -> mustBeTrue impl q s = Ok (None, s') -> solver_failed.
Proof.
  intros Hs Hq H. unfold mustBeTrue, sbind, slift in H. rewrite (proj2 Hq) in H. cbn in H.
  destruct (query_expr q) eqn:E; try done; exists q, s, s'; auto.
Qed.

Lemma evaluate_fails q s s' :
  Inv s -> bool_query q -> evaluate impl q s = Ok (None, s') -> solver_failed.
Proof.
  intros Hs Hq H. unfold evaluate, sbind, slift in H. rewrite (proj2 Hq) in H. cbn in H.
  destruct (query_expr q) eqn:E; try done; exists q, s, s'; auto.
Qed.

Lemma mayBeTrue_fails q s s' :
  Inv s -> bool_query q -> mayBeTrue opt impl q s = Ok (None, s') -> solver_failed.
Proof.
  intros Hs Hq H. destruct (negateExpr_ok q (proj1 Hq)) as (nq & En & Hnq & _).
  unfold mayBeTrue, mustBeFalse, sbind, slift in H. rewrite En in H. cbn in H.
  apply res_bind_inv in H as ([r s1] & E & H). cbn in H. injection H as Hr <-.
  destruct r; [done|]. by apply (mustBeTrue_fails nq s s1).
Qed.

Lemma must_ok q : bool_query q ->
  succeeds (assert_success (mustBeTrue impl q)) (fun b => if b then forced q 1 else feasible q 0).
Proof.
  intros Hq. apply assert_success_ok; [by apply mustBeTrue_ok|].
  intros s s' Hs. by apply mustBeTrue_fails.
Qed.

Lemma may_ok q : bool_query q ->
  succeeds (assert_success (mayBeTrue opt impl q)) (fun b => if b then feasible q 1 else forced q 0).
Proof.
  intros Hq. apply assert_success_ok; [by apply mayBeTrue_ok|].
  intros s s' Hs. by apply mayBeTrue_fails.
Qed.

(** The binary search returns a value the test accepts, and rejects just
    below it; [N] is what a rejection shows. *)
Lemma binary_search_ok (P N : Z -> Prop) (test : Z -> state S bool) fuel : forall lo hi,
  hi - lo < 2 ^ Z.of_nat fuel -> lo <= hi -> P hi ->
  (forall mid, lo <= mid < hi -> succeeds (test mid) (fun b => if b then P mid else N mid)) ->
  succeeds (binary_search fuel test lo hi) (fun r => lo <= r <= hi /\ P r /\ (r = lo \/ N (r - 1))).
Proof.
  induction fuel as [|fuel IH]; intros lo hi Hf Hle HP Htest; cbn [binary_search];
    destruct (lo <? hi) eqn:E; tidy_bools.
  - cbn in Hf. lia.
  - apply succeeds_ret. replace hi with lo in * by lia. split; [lia|]. auto.
  - rewrite Nat2Z.inj_succ, Z.pow_succ_r in Hf by lia.
    set (mid := lo + (hi - lo) / 2).
    assert (0 <= (hi - lo) / 2 < hi - lo) as Hd by (split; [apply Z.div_pos; lia|apply Z.div_lt; lia]).
    assert ((hi - lo) / 2 * 2 <= hi - lo < (hi - lo) / 2 * 2 + 2) as Hm.
    { pose proof (Z.div_mod (hi - lo) 2). pose proof (Z.mod_pos_bound (hi - lo) 2). lia. }
    eapply succeeds_bind; [apply Htest; lia|]. intros b Hb. cbn beta in Hb. destruct b.
    + eapply succeeds_weaken; [apply IH|]; auto; try lia; [intros; apply Htest; lia|].
      intros r (Hr & ? & ?). split; [lia|auto].
    + eapply succeeds_weaken; [apply IH|]; auto; try lia; [intros; apply Htest; lia|].
      intros r (Hr & ? & Hcase). split; [lia|]. split; [done|].
      right. destruct Hcase as [->|]; [|done]. by replace (mid + 1 - 1) with mid by lia.
  - apply succeeds_ret. replace hi with lo in * by lia. split; [lia|]. auto.
Qed.

Section range.
Variable q : Query.
Context (Hq : query_ok q).
Notation width := (getWidth (query_expr q)).
Context (Hw64 : width <= 64).

Lemma width_pos : 0 < width.
Proof. apply wt_width_pos, (proj1 Hq). Qed.

Lemma feasible_range v : feasible q v -> 0 <= v < 2 ^ width.
Proof. intros (ρ & _ & Hv). by apply (denote_range checked _ ρ v (proj1 (proj2 (proj1 Hq))) Hv). Qed.

Lemma feasible_some : exists v, feasible q v.
Proof. destruct Hq as ((_ & _ & Hd & _) & [ρ Hρ]). destruct (Hd ρ Hρ) as [v Hv]. by exists v, ρ. Qed.

(** The queries of the three searches. *)
Lemma compare_query k e0 (g : Z -> Z) c (f : Z -> bool) :
  wt e0 -> good e0 -> getWidth e0 = width ->
  (forall ρ v, denote checked ρ (query_expr q) = Some v -> denote checked ρ e0 = Some (g v)) ->
  0 <= c < 2 ^ width -> is_cmp k = true -> is_div k = false ->
  (forall v, bin_sem k width v c = Some (Z.b2z (f v))) ->
  exists q', (let* m := const_create c width in
     let* e := BinaryExpr_create opt k e0 m in Ok (withExpr q e)) = Ok q' /\
    bool_query q' /\
    (forall b, forced q' (Z.b2z b) <-> forall v, feasible q v -> f (g v) = b) /\
    (forall b, feasible q' (Z.b2z b) <-> exists v, feasible q v /\ f (g v) = b).
Proof.
  intros He0 Hs0 Hw0 Hd0 Hc Hk Hdiv Hf. pose proof width_pos as Hp. rewrite const_create_ok by done.
  cbn [res_bind].
  assert (0 <= c < 2 ^ 64) as Hc64.
  { assert (2 ^ width <= 2 ^ 64); [apply Z.pow_le_mono_r; lia|lia]. }
  destruct (with_expr_ok q e0 g (fun v => Z.b2z (f v)) k (ap_make width c)) as (e & E & [Hb1 Hb2] & He); [apply Hq|done|by apply derived_cmp|done..| |].
  { replace 1 with (bin_width k (getWidth e0)) by (unfold bin_width; by rewrite Hk).
    eapply implements_weaken.
    - apply (BinaryExpr_create_ok opt checked Hopt k e0 (const_alloc c width));
        [done|by apply wt_const_alloc|by rewrite width_const_alloc|].
      unfold div_ok. destruct e0; try done. cbn. by rewrite Hdiv.
    - intros ρ v Hv. apply bind_Some in Hv as (x & Hx & [= <-]). unfold bin_den. rewrite Hx, Hw0.
      cbn [mbind option_bind]. rewrite denote_const_alloc by done. cbn [mbind option_bind].
      by rewrite wrap_small, Hf by done. }
  unfold const_alloc. rewrite E. cbn [res_bind].
  exists (withExpr q e). split; [done|]. split; [split; [split; [done|apply Hq]|done]|].
  assert (forall a b, Z.b2z a = Z.b2z b <-> a = b) as Hinj by (by intros [] []).
  split; intros b.
  - rewrite (forced_with q e _ _ Hq He). cbn beta. setoid_rewrite Hinj. done.
  - rewrite (feasible_with q e _ _ Hq He). cbn beta. setoid_rewrite Hinj. done.
Qed.

Definition bounded_by (x : Z) : Prop := forall v, feasible q v -> v <= x.
Definition exceeded (x : Z) : Prop := exists v, feasible q v /\ x < v.
Definition reached_by (x : Z) : Prop := exists v, feasible q v /\ v <= x.
Definition fits_bits (x : Z) : Prop := 0 <= x /\ forall v, feasible q v -> v < 2 ^ x.

Lemma at_most_ok mid : 0 <= mid < 2 ^ width ->
  exists q', at_most opt q width mid = Ok q' /\ bool_query q' /\
    (forced q' 1 <-> bounded_by mid) /\ (feasible q' 0 -> exceeded mid) /\
    (feasible q' 1 <-> reached_by mid) /\ (forced q' 0 -> ~ reached_by mid).
Proof.
  intros Hm. destruct (compare_query Ule (query_expr q) id mid (fun v => v <=? mid)) as (q' & E & Hb & Hfo & Hfe);
    [apply Hq|apply Hq|done..|].
  exists q'. split; [done|]. split; [done|]. unfold id in *.
  rewrite (Hfo true), (Hfe true). unfold bounded_by, reached_by, exceeded. setoid_rewrite Z.leb_le.
  split_and!; [done| |done|].
  - intros (v & Hv & Hlt)%(Hfe false). apply Z.leb_gt in Hlt. by exists v.
  - intros Hall (v & Hv & Hle). apply (Hfo false) in Hv; [|done]. apply Z.leb_gt in Hv. lia.
Qed.

Lemma max_test_ok mid : 0 <= mid < 2 ^ width ->
  succeeds (max_test opt impl q width mid) (fun b => if b then bounded_by mid else exceeded mid).
Proof.
  intros Hm. destruct (at_most_ok mid Hm) as (q' & E & Hb & H1 & H0 & _ & _). unfold max_test.
  eapply (succeeds_bind _ _ (fun x => x = q')); [apply succeeds_lift; by exists q'|]. intros ? ->.
  eapply succeeds_weaken; [by apply must_ok|]. intros [] H; [by apply H1|by apply H0].
Qed.

Lemma min_test_ok mid : 0 <= mid < 2 ^ width ->
  succeeds (min_test opt impl q width mid) (fun b => if b then reached_by mid else ~ reached_by mid).
Proof.
  intros Hm. destruct (at_most_ok mid Hm) as (q' & E & Hb & _ & _ & H1 & H0). unfold min_test.
  eapply (succeeds_bind _ _ (fun x => x = q')); [apply succeeds_lift; by exists q'|]. intros ? ->.
  eapply succeeds_weaken; [by apply may_ok|]. intros [] H; [by apply H1|by apply H0].
Qed.
Lemma useful_bits_test_ok mid : 0 <= mid < width ->
  succeeds (useful_bits_test opt impl q width mid) (fun b => if b then fits_bits mid else True).
Proof.
  intros Hm. pose proof width_pos as Hp. unfold useful_bits_test.
  assert (mid < 2 ^ width) as Hmw.
  { apply Z.lt_le_trans with width; [lia|]. apply Z.lt_le_incl, Z.pow_gt_lin_r; lia. }
  assert (0 <= mid < 2 ^ 64) as Hm64.
  { assert (2 ^ width <= 2 ^ 64); [apply Z.pow_le_mono_r; lia|lia]. }
  destruct (BinaryExpr_create_ok opt checked Hopt LShr (query_expr q) (const_alloc mid width))
    as (sh & Esh & Hsh & Hshw & Hshd);
    [apply Hq|by apply wt_const_alloc|by rewrite width_const_alloc|by destruct (query_expr q)|].
  assert (forall ρ v, denote checked ρ (query_expr q) = Some v -> denote checked ρ sh = Some (v / 2 ^ mid)) as Hshv.
  { intros ρ v Hv. apply Hshd. unfold bin_den. rewrite Hv. cbn [mbind option_bind].
    rewrite denote_const_alloc by lia. cbn [mbind option_bind]. rewrite wrap_small by lia. cbn.
    by replace (mid <? width) with true by (symmetry; apply Z.ltb_lt; lia). }
  destruct (compare_query Eq sh (fun v => v / 2 ^ mid) 0 (fun v => v =? 0))
    as (q' & E & Hb & Hfo & Hfe); [done| |by rewrite Hshw|done|lia|done..|].
  { by apply (good_create (query_expr q) LShr (ap_make width mid) sh (fun v => v / 2 ^ mid)); [apply Hq| |..]; cbn; rewrite ?make_val, ?wrap_small by lia; try lia. }
  eapply (succeeds_bind _ _ (fun x => x = q')).
  { apply succeeds_lift. exists q'. split; [|done]. rewrite const_create_ok by lia. cbn [res_bind].
    rewrite Esh. cbn [res_bind]. exact E. }
  intros ? ->. eapply succeeds_weaken; [by apply must_ok|].
  assert (forall v, feasible q v -> (v / 2 ^ mid =? 0) = (v <? 2 ^ mid)) as Hdiv.
  { intros v Hv. pose proof (feasible_range v Hv). pose proof (Z.pow_pos_nonneg 2 mid).
    apply eq_true_iff_eq. rewrite Z.eqb_eq, Z.ltb_lt. rewrite Z.div_small_iff by lia. lia. }
  intros [] H; [|done]. split; [lia|]. intros v Hv.
  apply Z.ltb_lt. rewrite <- Hdiv by done. by apply (Hfo true).
Qed.

(** The tight bounds. *)
Definition tight (r : Z * Z) : Prop :=
  feasible q (fst r) /\ feasible q (snd r) /\ forall v, feasible q v -> fst r <= v <= snd r.

Lemma maxValue_ok n : 0 <= n <= 64 -> bits64.maxValueOfNBits n = Ok (2 ^ n - 1).
Proof.
  intros Hn. unfold bits64.maxValueOfNBits. assert (n <=? 64 = true) as -> by (apply Z.leb_le; lia).
  cbn [res_assert]. destruct (n =? 0) eqn:E; tidy_bools; [by subst|].
  unfold bits64.ones64. rewrite shiftr_all_ones, Z.ones_equiv by lia. done.
Qed.

Lemma search_min_ok (zero : bool) bits :
  0 <= bits <= width -> (forall v, feasible q v -> v < 2 ^ bits) ->
  (if zero then exists v, feasible q v /\ v = 0 else True) ->
  succeeds (if zero then sret 0 else binary_search search_fuel (min_test opt impl q width) 0 (2 ^ bits - 1))
    (fun lo => feasible q lo /\ forall v, feasible q v -> lo <= v).
Proof.
  intros Hb Hfit Hz. destruct feasible_some as [v0 Hv0].
  pose proof (Hfit v0 Hv0). pose proof (feasible_range v0 Hv0).
  assert (2 ^ bits <= 2 ^ width /\ 2 ^ width <= 2 ^ 64) by (split; apply Z.pow_le_mono_r; lia).
  destruct zero.
  { destruct Hz as (? & Hz & ->). apply succeeds_ret. split; [done|]. intros v Hv. by apply feasible_range. }
  eapply succeeds_weaken.
  - apply (binary_search_ok reached_by (fun x => ~ reached_by x)).
    + change (2 ^ Z.of_nat search_fuel) with (2 ^ 64). lia.
    + lia.
    + exists v0. split; [done|lia].
    + intros mid Hm. apply min_test_ok. lia.
  - intros lo (Hlo & (v & Hv & Hle) & Hleast).
    assert (forall v', feasible q v' -> lo <= v') as Hmin.
    { intros v' Hv'. pose proof (feasible_range v' Hv'). destruct Hleast as [->|Hn]; [lia|].
      destruct (Z_lt_le_dec v' lo) as [Hlt|]; [|done]. exfalso. apply Hn. exists v'. split; [done|lia]. }
    pose proof (Hmin v Hv). replace lo with v in * by lia. auto.
Qed.

Lemma search_max_ok bits lo :
  0 <= bits <= width -> (forall v, feasible q v -> v < 2 ^ bits) ->
  (feasible q lo /\ forall v, feasible q v -> lo <= v) ->
  succeeds (binary_search search_fuel (max_test opt impl q width) lo (2 ^ bits - 1))
    (fun hi => feasible q hi /\ bounded_by hi).
Proof.
  intros Hb Hfit [Hlo Hmin]. pose proof (Hfit lo Hlo). pose proof (feasible_range lo Hlo).
  assert (2 ^ bits <= 2 ^ width /\ 2 ^ width <= 2 ^ 64) by (split; apply Z.pow_le_mono_r; lia).
  eapply succeeds_weaken.
  - apply (binary_search_ok bounded_by exceeded).
    + change (2 ^ Z.of_nat search_fuel) with (2 ^ 64). lia.
    + lia.
    + intros v Hv. specialize (Hfit v Hv). lia.
    + intros mid Hm. apply max_test_ok. lia.
  - intros hi (_ & Hbound & [->|(v & Hv & Hlt)]); [done|].
    pose proof (Hbound v Hv). by replace hi with v in * by lia.
Qed.

Lemma search_range_ok : succeeds (search_range opt impl q width) tight.
Proof.
  pose proof width_pos as Hp. destruct feasible_some as [v0 Hv0].
  assert (2 ^ width <= 2 ^ 64) as H64 by (apply Z.pow_le_mono_r; lia).
  unfold search_range. eapply succeeds_bind.
  { apply (binary_search_ok fits_bits (fun _ => True)).
    - change (2 ^ Z.of_nat search_fuel) with (2 ^ 64). lia.
    - lia.
    - split; [lia|]. apply feasible_range.
    - intros mid Hm. by apply useful_bits_test_ok. }
  intros bits (Hb & [_ Hfit] & _).
  assert (2 ^ bits <= 2 ^ width) as Hbw by (apply Z.pow_le_mono_r; lia).
  destruct (compare_query Eq (query_expr q) id 0 (fun v => v =? 0)) as (zq & Ez & Hzb & Hzf & Hze);
    [apply Hq|apply Hq|done|done|lia|done..|].
  eapply (succeeds_bind _ _ (fun x => x = zq)); [apply succeeds_lift; by exists zq|]. intros ? ->.
  eapply succeeds_bind; [by apply may_ok|]. intros zero Hz. cbn beta in Hz.
  eapply (succeeds_bind _ _ (fun t => t = 2 ^ bits - 1)).
  { apply succeeds_lift. exists (2 ^ bits - 1). by rewrite maxValue_ok by lia. }
  intros ? ->. eapply succeeds_bind.
  { apply (search_min_ok zero bits Hb Hfit). destruct zero; [|done].
    apply (Hze true) in Hz as (v & Hv & E). exists v. split; [done|by apply Z.eqb_eq]. }
  intros lo Hlo. cbn beta in Hlo. eapply succeeds_bind; [by apply (search_max_ok bits)|].
  intros hi (Hhi & Hbound). apply succeeds_ret. split_and!; cbn; [apply Hlo|done|].
  intros v Hv. split; [by apply Hlo|by apply Hbound].
Qed.

Lemma getRange_ok :
  succeeds (getRange opt impl q) (fun r => exists lo hi,
    r = (const_alloc lo width, const_alloc hi width) /\ tight (lo, hi)).
Proof.
  pose proof width_pos as Hp. unfold getRange.
  eapply (succeeds_bind _ _ tight).
  { destruct (width =? 1) eqn:E1; tidy_bools.
    - assert (bool_query q) as Hbq by done.
      eapply succeeds_bind.
      { apply assert_success_ok; [by apply evaluate_ok|]. intros s s' Hs. by apply evaluate_fails. }
      intros v Hv. apply succeeds_ret.
      assert (forall x, forced q x -> tight (x, x)) as Hforced.
      { intros x Hx. split_and!; [by apply forced_feasible..|]. intros y Hy.
        pose proof (forced_unique q x y Hx Hy). cbn. lia. }
      destruct v; [by apply Hforced..|]. destruct Hv as [H0 H1]. split_and!; [done|done|].
      intros v Hv. pose proof (feasible_range v Hv) as R. rewrite E1 in R. cbn in *. lia.
    - pose proof search_range_ok as Hsearch.
      destruct (query_expr q) as [CE| | | | | | | |] eqn:E; try exact Hsearch.
      eapply (succeeds_bind _ _ (fun c => c = uval CE)).
      { apply succeeds_lift. exists (uval CE). unfold getZExtValue.
        assert (getBitWidth CE <=? 64 = true) as -> by (apply Z.leb_le; exact Hw64). done. }
      intros ? ->. apply succeeds_ret.
      assert (forced q (uval CE)) as Hx by (intros ρ _; by rewrite E).
      split_and!; [by apply forced_feasible..|]. intros y Hy.
      pose proof (forced_unique q (uval CE) y Hx Hy). cbn. lia. }
  intros [lo hi] Ht. pose proof Ht as (Hlo & Hhi & _). cbn [fst snd] in *.
  eapply (succeeds_bind _ _ (fun e => e = const_alloc lo width)).
  { apply succeeds_lift. rewrite const_create_ok by (by apply feasible_range). by eexists. }
  intros ? ->. eapply (succeeds_bind _ _ (fun e => e = const_alloc hi width)).
  { apply succeeds_lift. rewrite const_create_ok by (by apply feasible_range). by eexists. }
  intros ? ->. apply succeeds_ret. by exists lo, hi.
Qed.
End range.
End wrappers.
End correct.

(** ** A concrete solver

    [GuessSolver] answers a query from the constraints themselves, or from a
    list of environments; it fails on the rest. *)
Section guess.
Context {A : APInt} {L : APIntLaws A} {AR : Arrays}.
Context (opt checked : bool).
Context (Hopt : opt = true -> checked = true).
Context {SC : Scope opt checked}.
Context (guesses : list env).

(* the first guess that satisfies the constraints and gives the expression a
   value the test accepts *)
Fixpoint find_guess (test : Z -> bool) (q : Query) (gs : list env) : option (env * Z) :=
  match gs with
  | [] => None
  | ρ :: gs' =>
      if forallb (fun c => bool_decide (denote checked ρ c = Some 1)) (constraints q) then
        match denote checked ρ (query_expr q) with
        | Some v => if test v then Some (ρ, v) else find_guess test q gs'
        | None => find_guess test q gs'
        end
      else find_guess test q gs'
  end.

Definition assumed (q : Query) : bool := existsb (expr_eqb (query_expr q)) (constraints q).

Definition guess_truth (q : Query) : state unit (option bool) :=
  sret (if assumed q then Some true
        else match find_guess (Z.eqb 0) q guesses with Some _ => Some false | None => None end).

Definition guess_value (q : Query) : option expr :=
  if getWidth (query_expr q) <=? 64 then
    match find_guess (fun _ => true) q guesses with
    | Some (_, v) => Some (const_alloc v (getWidth (query_expr q)))
    | None => None
    end
  else None.

Definition initial_bytes (ρ : env) (os : positive) : list Z :=
  map (fun i => wrap 8 (ρ os i)) (seqZ 0 (size (arrayAt os))).

Definition guess_solution (q : Query) (objects : list positive) : option solution :=
  if assumed q then Some None
  else match find_guess (Z.eqb 0) q guesses with
       | Some (ρ, _) => Some (Some (map (initial_bytes ρ) objects))
       | None => None
       end.

Definition GuessSolver : SolverImpl unit := {|
  computeTruth := guess_truth;
  computeValidity := default_computeValidity opt guess_truth;
  computeValue q := sret (guess_value q);
  computeInitialValues q objects := sret (guess_solution q objects);
|}.

Lemma find_guess_ok test q gs ρ v :
  find_guess test q gs = Some (ρ, v) ->
  sat checked ρ (constraints q) /\ denote checked ρ (query_expr q) = Some v /\ test v = true.
Proof.
  induction gs as [|ρ' gs IH]; cbn; [done|]. destruct (forallb _ _) eqn:Ef; [|done].
  destruct (denote checked ρ' (query_expr q)) as [v'|] eqn:E; [|done].
  destruct (test v') eqn:Et; [|done]. intros [= -> ->]. split; [|done].
  apply Forall_forall. intros c Hc. rewrite forallb_forall in Ef.
  by apply (bool_decide_eq_true (denote checked ρ c = Some 1)), Ef.
Qed.

Lemma assumed_ok q : query_wf checked q -> assumed q = true -> forced checked q 1.
Proof.
  intros (Hcs & Hwt & _) H ρ Hρ. apply existsb_exists in H as (c & Hc & E).
  unfold sat in Hρ. rewrite Forall_forall in Hcs, Hρ. destruct (Hcs c Hc) as [Hcw _].
  destruct (expr_eqb_sound _ _ Hwt Hcw E) as [_ Hd]. by rewrite Hd, (Hρ c Hc).
Qed.

Lemma guess_truth_ok q :
  bool_query checked q ->
  sholds (fun _ => True) (guess_truth q)
    (fun r => forall b, r = Some b -> if b then forced checked q 1 else feasible checked q 0).
Proof.
  intros Hq. apply sholds_ret. destruct (assumed q) eqn:E.
  - intros b [= <-]. by eapply assumed_ok; [apply Hq|].
  - destruct (find_guess (Z.eqb 0) q guesses) as [[ρ v]|] eqn:Ef; [|done]. intros b [= <-].
    apply find_guess_ok in Ef as (Hs & Hv & Ht). exists ρ. split; [done|]. by apply Z.eqb_eq in Ht as ->.
Qed.

Lemma initial_bytes_ok ρ os :
  wt_array (arrayAt os) -> (isSymbolicArray (arrayAt os) = true -> range (arrayAt os) = 8) ->
  bytes_of checked ρ os (initial_bytes ρ os).
Proof.
  intros (_ & _ & Hs & _) Hr. unfold initial_bytes. split_and!.
  - rewrite length_map, length_seqZ. lia.
  - apply Forall_forall. intros b Hb. apply in_map_iff in Hb as (i & <- & _). by apply (wrap_range 8).
  - intros Hsym i b Hb. specialize (Hr Hsym). apply list_lookup_fmap_Some in Hb as (j & -> & Hj).
    apply lookup_seqZ in Hj as [-> _]. change (array_init checked ρ os (0 + Z.of_nat i) = Some (wrap 8 (ρ os (0 + Z.of_nat i)))).
    by rewrite array_init_symbolic, Hr.
Qed.

#[export] Instance GuessSolver_contract : SolverContract checked GuessSolver (fun _ => True).
Proof.
  split.
  - apply guess_truth_ok.
  - apply (default_computeValidity_ok opt checked Hopt). apply guess_truth_ok.
  - intros q Hq. apply sholds_ret. unfold guess_value.
    destruct (getWidth (query_expr q) <=? 64) eqn:Ew; tidy_bools; [|done].
    destruct (find_guess _ q guesses) as [[ρ v]|] eqn:E; [|done]. intros e [= <-].
    apply find_guess_ok in E as (Hs & Hv & _).
    pose proof (denote_range checked _ ρ v (proj1 (proj2 (proj1 Hq))) Hv) as R.
    pose proof (wt_width_pos _ (proj1 (proj2 (proj1 Hq)))) as Hp.
    assert (2 ^ getWidth (query_expr q) <= 2 ^ 64) by (apply Z.pow_le_mono_r; lia).
    eexists. split; [done|]. split; [by apply make_width|]. exists ρ.
    rewrite make_val, wrap_small by lia. done.
  - intros q objects Hq _ Ho. apply sholds_ret. unfold guess_solution. destruct (assumed q) eqn:Ea.
    + intros sol [= <-]. by eapply assumed_ok; [apply Hq|].
    + destruct (find_guess (Z.eqb 0) q guesses) as [[ρ v]|] eqn:E; [|done]. intros sol [= <-].
      apply find_guess_ok in E as (Hs & Hv & Ht). apply Z.eqb_eq in Ht as <-.
      exists ρ. split; [done|]. split; [done|]. clear Hq.
      destruct Ho as [Ho _]. induction Ho as [|os objects [? ?] Ho IH]; [constructor|].
      constructor; [by apply initial_bytes_ok|done].
Qed.
End guess.

(** ** Properties *)
Section theorems.
Context {A : APInt} {L : APIntLaws A} {AR : Arrays}.
Context (opt checked : bool) {SC : Scope opt checked}.

(** The methods of [Solver] are right whenever the implementation keeps
    its contract: on a satisfiable state, [evaluate] classifies the query as
    true, false or open; [mustBeTrue], [mustBeFalse], [mayBeTrue] and
    [mayBeFalse] decide whether the expression is forced to, or can, have the
    value; [getValue] returns a feasible value; all without a failed
    assertion. *)
Theorem solver_answers_correct {S} (impl : SolverImpl S) (Inv : S -> Prop) q :
  (opt = true -> checked = true) -> SolverContract checked impl Inv -> bool_query checked q ->
  sholds Inv (evaluate impl q) (fun r => forall v, r = Some v -> validity_spec checked q v) /\
  sholds Inv (mustBeTrue impl q) (fun r => forall b, r = Some b -> if b then forced checked q 1 else feasible checked q 0) /\
  sholds Inv (mustBeFalse opt impl q) (fun r => forall b, r = Some b -> if b then forced checked q 0 else feasible checked q 1) /\
  sholds Inv (mayBeTrue opt impl q) (fun r => forall b, r = Some b -> if b then feasible checked q 1 else forced checked q 0) /\
  sholds Inv (mayBeFalse impl q) (fun r => forall b, r = Some b -> if b then feasible checked q 0 else forced checked q 1) /\
  sholds Inv (getValue impl q) (fun r => forall c, r = Some c ->
    getBitWidth c = getWidth (query_expr q) /\ feasible checked q (uval c)).
Proof.
  intros Hopt HC Hq. split_and!.
  - by eapply evaluate_ok.
  - by eapply mustBeTrue_ok.
  - by apply (mustBeFalse_ok opt checked Hopt).
  - by apply (mayBeTrue_ok opt checked Hopt).
  - by eapply mayBeFalse_ok.
  - eapply getValue_ok; [done|apply Hq].
Qed.

(** C28. [Solver::getRange] terminates and is tight: on an expression of at
    most 64 bits its three binary searches return the least and the greatest
    feasible value, or the run stops on the assertion that a solver call
    succeeded. *)
Theorem getRange_tight {S} (impl : SolverImpl S) (Inv : S -> Prop) q s :
  (opt = true -> checked = true) -> SolverContract checked impl Inv ->
  query_ok checked q -> getWidth (query_expr q) <= 64 -> Inv s ->
  match getRange opt impl q s with
  | Ok (Constant lo, Constant hi, s') =>
      Inv s' /\ feasible checked q (uval lo) /\ feasible checked q (uval hi) /\
      forall v, feasible checked q v -> uval lo <= v <= uval hi
  | Ok _ => False
  | AssertFail => solver_failed opt checked impl Inv
  | OutOfFuel => False
  end.
Proof.
  intros Hopt HC Hq Hw Hs.
  destruct (getRange_ok opt checked Hopt impl Inv q Hq Hw s Hs) as [(r & s' & -> & Hs' & lo & hi & -> & Ht)|[-> Hf]];
    [|done]. cbn. destruct Ht as (Hlo & Hhi & Hb). cbn [fst snd] in *.
  pose proof (wt_width_pos _ (proj1 (proj2 (proj1 Hq)))) as Hp.
  pose proof (feasible_range opt checked q Hq lo Hlo). pose proof (feasible_range opt checked q Hq hi Hhi).
  assert (2 ^ getWidth (query_expr q) <= 2 ^ 64) by (apply Z.pow_le_mono_r; lia).
  rewrite !make_val, !wrap_small by lia. auto.
Qed.

(** The default [SolverImpl::computeValidity], two calls to
    [computeTruth], meets the contract of [computeValidity]. *)
Theorem default_computeValidity_refines {S} (Inv : S -> Prop)
    (truth : Query -> state S (option bool)) q :
  (opt = true -> checked = true) ->
  (forall q, bool_query checked q -> sholds Inv (truth q)
     (fun r => forall b, r = Some b -> if b then forced checked q 1 else feasible checked q 0)) ->
  bool_query checked q ->
  sholds Inv (default_computeValidity opt truth q) (fun r => forall v, r = Some v -> validity_spec checked q v).
Proof. intros Hopt Ht. by apply (default_computeValidity_ok opt checked Hopt). Qed.

End theorems.

(** ** Witnesses *)
Module SolverExamples.
#[local] Existing Instance Examples.arrays.
Import Examples.

#[export] Instance sample_scope : Scope false false := any_scope false false.

Definition five : expr := Binary Eq (Constant (byte 5)) (a_at 0).
Definition small : expr := Binary Ult (a_at 1) (a_at 0).

(* a[0] = 5 implies a[1] < a[0]? *)
Definition sample_query : Query := MkQuery [five] small.

(* a = 5 1 1 ... *)
Definition five_one : env := fun _ i => if i =? 0 then 5 else 1.

Definition sample_solver : SolverImpl unit := GuessSolver false false [fives; five_one].

Lemma five_wt : wt five.
Proof. pose proof wt_a. cbn. split_and!; try done; cbn; lia. Qed.

Lemma small_wt : wt small.
Proof. pose proof wt_a. cbn. split_and!; try done; cbn; lia. Qed.

(** A query under the constraint [five]. *)
Lemma five_query {SC : Scope false false} e :
  good five -> good e -> wt e -> getWidth e = 1 -> (forall ρ, is_Some (denote false ρ e)) ->
  bool_query false (MkQuery [five] e).
Proof.
  intros H5 He Hwt Hw Hd. split; [|done]. split; [|exists fives; by constructor].
  split; [|split; [done|split; [by intros ρ _|by split; [constructor; [by split|constructor]|]]]].
  constructor; [|constructor]. split; [exact five_wt|done].
Qed.

Lemma sample_query_ok : bool_query false sample_query.
Proof. apply five_query; [done|done|exact small_wt|done|intros ρ; by eexists]. Qed.

Lemma sample_assumed_ok : bool_query false (MkQuery [five] five).
Proof. apply five_query; [done|done|exact five_wt|done|intros ρ; by eexists]. Qed.

Lemma sample_contract : SolverContract false sample_solver (fun _ => True).
Proof. by apply GuessSolver_contract. Qed.

End SolverExamples.
Import SolverExamples.

Section witnesses.
#[local] Existing Instance Examples.arrays.

Lemma solver_answers_correct_witness :
  evaluate sample_solver sample_query tt = Ok (Some ValidityUnknown, tt) /\
  validity_spec false sample_query ValidityUnknown.
Proof.
  assert (evaluate sample_solver sample_query tt = Ok (Some ValidityUnknown, tt)) as E0 by reflexivity.
  split; [exact E0|].
  destruct (solver_answers_correct false false sample_solver (fun _ => True) sample_query) as (H & _);
    [done|exact sample_contract|exact sample_query_ok|].
  destruct (H tt I) as (r & s' & E & _ & Hv). apply Hv. rewrite E in E0.
  by injection E0.
Defined.

Lemma getRange_tight_witness :
  getRange false sample_solver (MkQuery [five] five) tt = Ok (const_alloc 1 1, const_alloc 1 1, tt) /\
  feasible false (MkQuery [five] five) (uval (ap_make 1 1)).
Proof.
  pose proof (getRange_tight false false sample_solver (fun _ => True) (MkQuery [five] five) tt
    ltac:(done) sample_contract (proj1 sample_assumed_ok) ltac:(done) I) as H.
  assert (getRange false sample_solver (MkQuery [five] five) tt = Ok (const_alloc 1 1, const_alloc 1 1, tt))
    as E by reflexivity.
  split; [exact E|]. rewrite E in H. exact (proj1 (proj2 H)).
Defined.

Lemma default_computeValidity_refines_witness :
  sholds (fun _ : unit => True)
    (default_computeValidity false (computeTruth sample_solver) sample_query)
    (fun r => forall v, r = Some v -> validity_spec false sample_query v).
Proof.
  apply (default_computeValidity_refines false false); [done| |exact sample_query_ok].
  intros q. apply (@computeTruth_ok _ _ _ _ _ _ _ _ sample_contract).
Defined.
End witnesses.
