(* ===== verification/Constraints.v ===== *)
(** The constraints of a state: klee/lib/Expr/Constraints.cpp.

    A [ConstraintManager] is the list of its constraints.  [simplifyExpr]
    replaces what the constraints determine; [addConstraint] simplifies a new
    constraint, splits conjunctions, and rewrites the others when it is an
    equality with a constant.

    The theorems are for satisfiable sets of Boolean constraints of a class
    closed under replacement ([ReplaceClosed]) whose expressions are solid
    ([is_solid]): both functions return, and the constraints keep their
    solutions.  The recursion is on fuel; [constraint_fuel] is enough. *)
From Stdlib Require Import ZArith Lia Bool.
From stdpp Require Import base list numbers option.
From S2P Require Import Prelude APInt Expr ExprCreate ExprSem ExprCompare ExprCreateCorrect ExprFactory ExprVisitor ExprReads ExprEval ExprClosed ExprUtil ExprWeight Replace Solver.
Open Scope Z_scope.

Section constraints.
Context {A : APInt} {AR : Arrays}.
(** The command-line options [-const-array-opt], [-use-visitor-hash] and
    [-rewrite-equalities]. *)
Context (ConstArrayOpt UseVisitorHash RewriteEqualities : bool).

Notation visit := (visit ConstArrayOpt UseVisitorHash).

(* the loop that builds the map of simplifyExpr; insert keeps an existing entry *)
Fixpoint equalities_of (cs : list expr) (equalities : replacements_ty) : replacements_ty :=
  match cs with
  | [] => equalities
  | c :: cs' =>
      equalities_of cs'
        (match c with
         | Binary Eq (Constant v as l) r => visited_insert r l equalities
         | _ => visited_insert c (const_alloc 1 Bool_w) equalities
         end)
  end.

Definition simplifyExpr (cs : list expr) (e : expr) : res expr :=
  match e with
  | Constant _ => Ok e
  | _ =>
      let* p := visit (ExprReplaceVisitor2 (equalities_of cs [])) (visit_fuel e) e ([], tt) in
      Ok (fst p)
  end.

(* rewriteConstraints, given addConstraintInternal: the loop over [old] *)
Fixpoint rewrite_loop (addConstraintInternal : list expr -> expr -> res (list expr))
    (visitor : ExprVisitor (X:=unit)) (old : list expr) (s : visited_ty * unit)
    (constraints : list expr) (changed : bool) : res (list expr * bool) :=
  match old with
  | [] => Ok (constraints, changed)
  | ce :: old' =>
      let* p := visit visitor (visit_fuel ce) ce s in
      let '(e, s) := p in
      if negb (expr_eqb e ce) then
        let* constraints := addConstraintInternal constraints e in
        rewrite_loop addConstraintInternal visitor old' s constraints true
      else rewrite_loop addConstraintInternal visitor old' s (constraints ++ [ce]) changed
  end.

Definition rewriteConstraints (addConstraintInternal : list expr -> expr -> res (list expr))
    (visitor : ExprVisitor (X:=unit)) (constraints : list expr) : res (list expr * bool) :=
  rewrite_loop addConstraintInternal visitor constraints ([], tt) [] false.

Fixpoint addConstraintInternal (fuel : nat) (constraints : list expr) (e : expr) : res (list expr) :=
  match fuel with
  | O => OutOfFuel
  | S fuel =>
      match e with
      | Constant CE => assert* const_isTrue CE in Ok constraints
      | Binary And l r =>
          let* constraints := addConstraintInternal fuel constraints l in
          addConstraintInternal fuel constraints r
      | Binary Eq l r =>
          let* constraints :=
            if RewriteEqualities && isConstant l then
              let* p := rewriteConstraints (addConstraintInternal fuel) (ExprReplaceVisitor r l) constraints in
              Ok (fst p)
            else Ok constraints in
          Ok (constraints ++ [e])
      | _ => Ok (constraints ++ [e])
      end
  end.

Definition constraint_fuel (constraints : list expr) (e : expr) : nat :=
  S (sum_list (read_count <$> e :: constraints) * S (sum_list (node_weight <$> e :: constraints)) + node_weight e).

Definition addConstraint (constraints : list expr) (e : expr) : res (list expr) :=
  let* e := simplifyExpr constraints e in
  addConstraintInternal (constraint_fuel constraints e) constraints e.

End constraints.

(** ** Solid expressions stay solid *)
Section solid.
Context {A : APInt} {L : APIntLaws A} {AR : Arrays} (opt : bool).

Definition solid_result (m : res expr) : Prop := gives is_solid m.

Lemma binary_solid k l r : is_solid l -> is_solid r -> solid_result (BinaryExpr_create opt k l r).
Proof. intros Hl Hr. apply (BinaryExpr_create_closed opt is_solid k l r Hl Hr). by destruct k. Qed.

Lemma isZero_solid e : is_solid e -> solid_result (createIsZero opt e).
Proof.
  intros He. unfold createIsZero, createIsZero_with. apply (gives_bind is_solid); [apply (gives_const is_solid)|].
  intros z Hz. by apply binary_solid.
Qed.

Lemma solid_bind m k : solid_result m -> (forall e, is_solid e -> solid_result (k e)) -> solid_result (res_bind m k).
Proof. apply (gives_bind is_solid). Qed.
Lemma solid_assert b m : solid_result m -> solid_result (res_assert b m).
Proof. apply (gives_assert is_solid). Qed.
Lemma solid_ok e : is_solid e -> solid_result (Ok e).
Proof. apply (gives_ok is_solid). Qed.

Lemma solid_node e : isConstant e = false ->
  is_solid e <-> match e with
    | Read _ u i => solid_updates u = true /\ is_solid i
    | NotOptimized s => is_solid s
    | Select c t f => isConstant c = false /\ is_solid c /\ is_solid t /\ is_solid f
    | Concat l r | Binary _ l r => isConstant l && isConstant r = false /\ is_solid l /\ is_solid r
    | Extract s _ _ | Cast _ s _ | Not s => isConstant s = false /\ is_solid s
    | Constant _ => True
    end.
Proof.
  intros HC. destruct e; try done; [apply solid_Read|..]; unfold is_solid; cbn [solid];
    rewrite !andb_true_iff, !negb_true_iff; tauto.
Qed.

Lemma concat_with_solid extract l r :
  (forall e off w, is_solid e -> solid_result (extract e off w)) -> is_solid l -> is_solid r ->
  solid_result (ConcatExpr_create_with extract l r).
Proof.
  intros Hx Hl Hr. unfold ConcatExpr_create_with.
  assert (isConstant l && isConstant r = false -> solid_result (Ok (Concat l r))) as Hok.
  { intros HC. apply solid_ok. by apply solid_node. }
  destruct l as [lv| | | | |le loff lw| | |]; try (by apply Hok);
    destruct r as [rv| | | | |re roff rw| | |]; try (by apply Hok).
  - by apply solid_ok.
  - destruct (expr_eqb le re && (roff + rw =? loff)); [|by apply Hok]. apply Hx. by apply (solid_node (Extract le loff lw)) in Hl as [_ ?].
Qed.

Lemma extract_solid fuel : forall e off w, is_solid e -> solid_result (ExtractExpr_create_fuel fuel e off w).
Proof.
  induction fuel as [|fuel IH]; intros e off w He; cbn [ExtractExpr_create_fuel]; [by intros ? ?|].
  apply solid_assert. destruct (_ =? _); [by apply solid_ok|].
  destruct e as [v| | | |l r| | | |] eqn:Ee; try (apply solid_ok; first [done | by apply solid_node]).
  apply (solid_node (Concat l r)) in He as (_ & Hl & Hr); [|done].
  destruct (_ <=? _); [by apply IH|]. destruct (_ <=? _); [by apply IH|].
  apply solid_bind; [by apply IH|]. intros el Hel. apply solid_bind; [by apply IH|]. intros er Her.
  by apply concat_with_solid.
Qed.

Lemma cast_solid k e w : is_solid e ->
  solid_result (match k with ZExt => ZExtExpr_create e w | SExt => SExtExpr_create e w end).
Proof.
  intros He. destruct k; unfold ZExtExpr_create, SExtExpr_create; (destruct (_ =? _); [by apply solid_ok|]);
    (destruct (_ <? _); [by apply extract_solid|]); destruct e; apply solid_ok; try done; by apply solid_node.
Qed.

Lemma select_solid c t f : is_solid c -> is_solid t -> is_solid f -> solid_result (SelectExpr_create opt c t f).
Proof.
  intros Hc Ht Hf. unfold SelectExpr_create. do 2 apply solid_assert.
  assert (forall k e, is_solid e -> solid_result (let* nc := createIsZero opt c in BinaryExpr_create opt k nc e)) as HN.
  { intros k e He. apply solid_bind; [by apply isZero_solid|]. intros. by apply binary_solid. }
  assert (isConstant c = false -> solid_result (if expr_eqb t f then Ok t else if getWidth t =? Bool_w then
      match t, f with
      | Constant CE, _ =>
          if const_isTrue CE then BinaryExpr_create opt Or c f
          else let* nc := createIsZero opt c in BinaryExpr_create opt And nc f
      | _, Constant CE =>
          if const_isTrue CE then
            let* nc := createIsZero opt c in BinaryExpr_create opt Or nc t
          else BinaryExpr_create opt And c t
      | _, _ => Ok (Select c t f)
      end else Ok (Select c t f))) as Hnon.
  { intros HC. destruct (expr_eqb t f); [by apply solid_ok|].
    assert (solid_result (Ok (Select c t f))) as HS by (apply solid_ok; by apply solid_node).
    destruct (_ =? _); [|done].
    destruct t; try (destruct (const_isTrue value); [by apply binary_solid|by apply HN]);
      destruct f; try done; (destruct (const_isTrue value); [by apply HN|by apply binary_solid]). }
  destruct c; try (by apply Hnon). apply solid_ok. by destruct (const_isTrue value).
Qed.

Lemma scan_solid index un s : solid_updates un = true -> scan_updates opt index un = Ok s ->
  match s with Written v => is_solid v | Stopped un' _ => solid_updates un' = true end.
Proof.
  induction un as [|i v next IH]; [by intros _ [= <-]|]. intros Hu H.
  change (solid i && solid v && solid_updates next = true) in Hu. apply andb_prop in Hu as [Hu Hn]. apply andb_prop in Hu as [Hi Hv].
  cbn [scan_updates] in H. apply res_bind_inv in H as (c & Hc & H).
  destruct c as [CE| | | | | | | |]; try (injection H as <-; change (solid i && solid v && solid_updates next = true);
    by rewrite Hi, Hv, Hn).
  destruct (const_isTrue CE); [by injection H as <-|]. by apply IH.
Qed.

Lemma read_solid root head index : solid_updates head = true -> is_solid index ->
  solid_result (ReadExpr_create opt root head index).
Proof.
  intros Hh Hi e H. unfold ReadExpr_create in H. apply res_bind_inv in H as (s & Hs & H).
  apply scan_solid in Hs; [|done]. destruct s as [v|un sym]; [by injection H as <-|].
  apply res_bind_inv in H as (ci & Hci & H). destruct ci as [ci|]; [|injection H as <-; by apply solid_Read].
  destruct (_ && _); [destruct (_ !! _); [by injection H as <-|done]|].
  destruct (_ <? _); injection H as <-; by apply solid_Read.
Qed.

#[export] Instance solid_replace : ReplaceClosed opt is_solid.
Proof.
  split; [done| |].
  - intros e He. destruct e; try (by constructor); apply solid_node in He; try done; cbn [kids];
      destruct_and?; repeat constructor; done.
  - intros e ks r _ HC He Hks _ Hr.
    destruct e; try done; cbn [rebuild] in Hr;
      repeat match goal with H : Forall _ ?l |- _ => is_var l; destruct H; try discriminate; try (destruct k; discriminate) end.
    + by injection Hr as <-.
    + apply solid_Read in He as [Hu _]. by apply (read_solid root head x).
    + by eapply select_solid; [..|exact Hr].
    + eapply concat_with_solid; [intros; by apply extract_solid|..|exact Hr]; done.
    + by eapply extract_solid; [|exact Hr].
    + apply (cast_solid k x width); [done|]. by destruct k.
    + injection Hr as <-. destruct x; try done; by apply solid_node.
    + by eapply binary_solid; [..|exact Hr].
Qed.
End solid.

(** ** Correctness *)
Section correct.
Context {A : APInt} {L : APIntLaws A} {AR : Arrays}.
Context (checked hash rewrite : bool).
Context (P : expr -> Prop) {HP : ReplaceClosed false P} (Hsolid : forall e, P e -> is_solid e).

Notation sat := (sat checked).

(** A constraint of the set. *)
Definition constraint_ok (c : expr) : Prop := wt c /\ getWidth c = 1 /\ P c /\ isConstant c = false.

(** [c] is not false in [ρ]: true, or without a value. *)
Definition not_false (ρ : env) (c : expr) : Prop := forall v, denote checked ρ c = Some v -> v = 1.
Definition none_false (ρ : env) (cs : list expr) : Prop := Forall (not_false ρ) cs.

Lemma sat_not_false ρ cs : sat ρ cs -> none_false ρ cs.
Proof. intros H. eapply Forall_impl; [|exact H]. cbn. intros c Hc v Hv. congruence. Qed.

Lemma stands_not_false ρ e r : stands_for checked ρ e r -> not_false ρ r -> not_false ρ e.
Proof. intros (_ & _ & Hd) Hr v Hv. by apply Hr, Hd. Qed.

Lemma ok_reads c : constraint_ok c -> (1 <= read_count c)%nat.
Proof. intros (_ & _ & Hc & HC). apply solid_reads; auto. Qed.

(** An equality with a constant. *)
Lemma eq_const_kids v r :
  wt (Binary Eq (Constant v) r) -> P (Binary Eq (Constant v) r) ->
  wt r /\ same_type r (Constant v) /\ P r /\ isConstant r = false /\ (1 <= read_count r)%nat.
Proof.
  intros (Hv & Hr & Hw) HPe. pose proof (Hsolid _ HPe) as Hs. apply solid_node in Hs as [HC [_ Hs]]; [|done].
  pose proof (replace_kids _ HPe) as HPk. apply Forall_cons_iff in HPk as [_ HPk]. apply Forall_cons_iff in HPk as [HPr _].
  split_and!; try done. by apply solid_reads.
Qed.

Lemma eq_const_value ρ v r :
  not_false ρ (Binary Eq (Constant v) r) -> forall x, denote checked ρ r = Some x -> x = uval v.
Proof.
  intros Hn x Hx. specialize (Hn (Z.b2z (uval v =? x))). cbn [denote] in Hn. rewrite Hx in Hn. cbn in Hn.
  specialize (Hn eq_refl). destruct (Z.eqb_spec (uval v) x); [done|discriminate].
Qed.

(** *** ExprReplaceVisitor *)
Definition lookup_one (src dst e : expr) : option expr := if expr_eqb e src then Some dst else None.

Lemma replace_one_ok v r :
  wt (Binary Eq (Constant v) r) -> P (Binary Eq (Constant v) r) ->
  Replacer (ExprReplaceVisitor r (Constant v)) (lookup_one r (Constant v)).
Proof.
  intros Hwt HPe. destruct (eq_const_kids v r Hwt HPe) as (Hr & [Hv Hw] & _ & _ & H1). split.
  - intros e. right. cbn. unfold lookup_one. by destruct (expr_eqb e r).
  - intros e. cbn. unfold lookup_one. by destruct (expr_eqb e r).
  - done.
  - intros e d He. unfold lookup_one. destruct (expr_eqb e r) eqn:E; [|done]. intros [= <-].
    destruct (expr_eqb_sound e r He Hr E) as [Hwe _]. split_and!; [done|split; [done|congruence]|].
    unfold read_count. by rewrite (eqb_weights read_weights e r He Hr E).
Qed.

Lemma replace_one_right ρ v r :
  wt (Binary Eq (Constant v) r) -> P (Binary Eq (Constant v) r) ->
  not_false ρ (Binary Eq (Constant v) r) -> right_in checked (lookup_one r (Constant v)) ρ.
Proof.
  intros Hwt HPe Hn e d He. unfold lookup_one. destruct (expr_eqb e r) eqn:E; [|done]. intros [= <-].
  destruct (eq_const_kids v r Hwt HPe) as (Hr & [Hv Hw] & _). destruct (expr_eqb_sound e r He Hr E) as [Hwe Hde].
  split_and!; [done|congruence|]. intros x Hx. rewrite Hde in Hx. cbn. f_equal. symmetry. by apply (eq_const_value ρ v r Hn).
Qed.

(** *** ExprReplaceVisitor2 and simplifyExpr *)

(* an entry of the map *)
Definition entry_ok (p : expr * expr) : Prop :=
  wt (fst p) /\ isConstant (snd p) = true /\ same_type (fst p) (snd p) /\ (1 <= read_count (fst p))%nat.

Definition entry_right (ρ : env) (p : expr * expr) : Prop := stands_for checked ρ (fst p) (snd p).

(* the entry a constraint adds *)
Definition entry_of (c : expr) : expr * expr :=
  match c with Binary Eq (Constant v as l) r => (r, l) | _ => (c, const_alloc 1 Bool_w) end.

Lemma equalities_of_cons c cs eqs :
  equalities_of (c :: cs) eqs = equalities_of cs (visited_insert (fst (entry_of c)) (snd (entry_of c)) eqs).
Proof. destruct c as [| | | | | | | |k l r]; try done. destruct k; try done. by destruct l. Qed.

Lemma true_constant ρ c : wt c -> getWidth c = 1 -> not_false ρ c -> stands_for checked ρ c (const_alloc 1 Bool_w).
Proof.
  intros Hc Hw Hn. unfold const_alloc. split_and!.
  - cbn. rewrite make_width by done. done.
  - cbn. by rewrite make_width.
  - intros v Hv. rewrite (Hn v Hv). cbn. by rewrite make_val.
Qed.

Lemma entry_of_ok c : constraint_ok c -> entry_ok (entry_of c) /\ forall ρ, not_false ρ c -> entry_right ρ (entry_of c).
Proof.
  intros Hc. pose proof Hc as (Hwt & Hw & HPc & HC). pose proof (ok_reads c Hc) as H1.
  assert (entry_ok (c, const_alloc 1 Bool_w) /\ forall ρ, not_false ρ c -> entry_right ρ (c, const_alloc 1 Bool_w)) as Hdef.
  { split.
    - split_and!; [done|done| |done]. unfold same_type, const_alloc. cbn. by rewrite make_width.
    - intros ρ Hn. by apply true_constant. }
  destruct c as [| | | | | | | |k l r]; try exact Hdef. destruct k; try exact Hdef. destruct l as [v| | | | | | | |]; try exact Hdef.
  destruct (eq_const_kids v r Hwt HPc) as (Hr & Ht & _ & _ & Hreads). split; [by split_and!|].
  intros ρ Hn. destruct Ht as [Hv Hwr]. split_and!; [done|done|]. intros x Hx. cbn in *. f_equal. symmetry.
  by apply (eq_const_value ρ v r Hn).
Qed.

Lemma equalities_ok cs : forall eqs,
  Forall constraint_ok cs -> Forall entry_ok eqs -> Forall entry_ok (equalities_of cs eqs).
Proof.
  induction cs as [|c cs IH]; intros eqs Hcs He; [done|]. apply Forall_cons_iff in Hcs as [Hc Hcs].
  rewrite equalities_of_cons. apply IH; [done|]. unfold visited_insert. destruct (visited_find _ eqs); [done|].
  constructor; [|done]. destruct (entry_of_ok c Hc) as [Hok _]. by destruct (entry_of c).
Qed.

Lemma equalities_right ρ cs : forall eqs,
  Forall constraint_ok cs -> none_false ρ cs -> Forall (entry_right ρ) eqs ->
  Forall (entry_right ρ) (equalities_of cs eqs).
Proof.
  induction cs as [|c cs IH]; intros eqs Hcs Hn He; [done|]. apply Forall_cons_iff in Hcs as [Hc Hcs].
  apply Forall_cons_iff in Hn as [Hnc Hn]. rewrite equalities_of_cons. apply IH; [done|done|].
  unfold visited_insert. destruct (visited_find _ eqs); [done|].
  constructor; [|done]. destruct (entry_of_ok c Hc) as [_ Hr]. specialize (Hr ρ Hnc). by destruct (entry_of c).
Qed.

Lemma visited_find_in e eqs d : visited_find e eqs = Some d -> exists k, (k, d) ∈ eqs /\ expr_eqb k e = true.
Proof.
  induction eqs as [|[k d'] eqs IH]; [done|]. cbn [visited_find]. destruct (expr_eqb k e) eqn:E.
  - intros [= ->]. exists k. split; [by left|done].
  - intros H. destruct (IH H) as (k' & ? & ?). exists k'. split; [by right|done].
Qed.

Lemma replace_many_ok eqs :
  Forall entry_ok eqs -> Replacer (ExprReplaceVisitor2 eqs) (fun e => visited_find e eqs).
Proof.
  intros Hok. split; [by left|done|done|]. intros e d He Hf. destruct (visited_find_in e eqs d Hf) as (k & Hin & E).
  rewrite Forall_forall in Hok. apply list_elem_of_In in Hin. destruct (Hok _ Hin) as (Hk & Hc & [Hd Hwd] & H1). cbn in *.
  destruct (expr_eqb_sound k e Hk He E) as [Hw _]. split_and!; [done|split; [done|congruence]|].
  unfold read_count in *. by rewrite <- (eqb_weights read_weights k e Hk He E).
Qed.

Lemma replace_many_right ρ eqs :
  Forall entry_ok eqs -> Forall (entry_right ρ) eqs -> right_in checked (fun e => visited_find e eqs) ρ.
Proof.
  intros Hok Hr e d He Hf. destruct (visited_find_in e eqs d Hf) as (k & Hin & E).
  rewrite Forall_forall in Hok, Hr. apply list_elem_of_In in Hin. destruct (Hok _ Hin) as (Hk & _). cbn in Hk.
  eapply stands_for_trans; [by apply stands_for_eqb|exact (Hr _ Hin)].
Qed.

Lemma simplify_ok cs e ρ0 :
  Forall constraint_ok cs -> sat ρ0 cs -> wt e -> P e -> is_Some (denote checked ρ0 e) ->
  exists e', simplifyExpr false hash cs e = Ok e' /\ same_type e e' /\ P e' /\
    (forall ρ, none_false ρ cs -> stands_for checked ρ e e') /\
    (node_weight e' <= node_weight e)%nat /\ (read_count e' <= read_count e)%nat.
Proof.
  intros Hcs Hsat He HPe Hd. set (eqs := equalities_of cs []).
  pose proof (equalities_ok cs [] Hcs ltac:(by constructor)) as Hok. fold eqs in Hok.
  assert (forall ρ, none_false ρ cs -> right_in checked (fun e => visited_find e eqs) ρ) as Hright.
  { intros ρ Hn. apply replace_many_right; [done|]. by apply equalities_right. }
  destruct (visit_replaces checked hash P (ExprReplaceVisitor2 eqs) _ (replace_many_ok eqs Hok) ρ0 e) with (s := (@nil (expr * expr), tt))
    as (r & s' & E & _ & [Ht HPr Hv Hs Hrd _]); [by apply Hright, sat_not_false|by split_and!|by constructor|].
  assert (forall ρ, none_false ρ cs -> stands_for checked ρ e r) as Hst by auto.
  assert (isConstant e = false -> simplifyExpr false hash cs e = Ok r) as Hsimp.
  { intros HC. unfold simplifyExpr. destruct e; try done; change (equalities_of cs []) with eqs; by rewrite E. }
  destruct (isConstant e) eqn:HC.
  - exists e. by destruct e.
  - exists r. split_and!; auto; try apply Ht.
Qed.

(** *** addConstraintInternal *)

Definition reads (cs : list expr) : nat := sum_list (read_count <$> cs).
Definition nodes (cs : list expr) : nat := sum_list (node_weight <$> cs).

Lemma reads_app a b : reads (a ++ b) = (reads a + reads b)%nat.
Proof. unfold reads. rewrite fmap_app. induction (read_count <$> a); cbn; lia. Qed.
Lemma nodes_app a b : nodes (a ++ b) = (nodes a + nodes b)%nat.
Proof. unfold nodes. rewrite fmap_app. induction (node_weight <$> a); cbn; lia. Qed.
Lemma reads_cons c cs : reads (c :: cs) = (read_count c + reads cs)%nat.
Proof. done. Qed.
Lemma nodes_cons c cs : nodes (c :: cs) = (node_weight c + nodes cs)%nat.
Proof. done. Qed.

(** [cs'] is the set [cs] with [e] added. *)
Record added (cs : list expr) (e : expr) (cs' : list expr) : Prop := {
  added_ok : Forall constraint_ok cs';
  added_back ρ : none_false ρ cs' -> none_false ρ cs /\ not_false ρ e;
  added_sat ρ : sat ρ cs -> denote checked ρ e = Some 1 -> sat ρ cs';
  added_reads : (reads cs' <= reads cs + read_count e)%nat;
  added_nodes : (nodes cs' <= nodes cs + node_weight e)%nat;
}.

Lemma added_push cs e : Forall constraint_ok cs -> constraint_ok e -> added cs e (cs ++ [e]).
Proof.
  intros Hcs He. constructor.
  - apply Forall_app_2; [done|by apply Forall_singleton].
  - intros ρ [H1 H2]%Forall_app. apply Forall_cons_iff in H2 as [H2 _]. done.
  - intros ρ H1 H2. apply Forall_app_2; [done|by apply Forall_singleton].
  - rewrite reads_app. cbn. lia.
  - rewrite nodes_app. cbn. lia.
Qed.

(** What the recursive calls promise: enough fuel for a total number of reads. *)
Definition adds (fuel : nat) : Prop := forall cs e M ρ0,
  Forall constraint_ok cs -> wt e -> getWidth e = 1 -> P e ->
  sat ρ0 cs -> denote checked ρ0 e = Some 1 ->
  (nodes cs + node_weight e <= M)%nat ->
  ((reads cs + read_count e) * S M + node_weight e < fuel)%nat ->
  exists cs', addConstraintInternal false hash rewrite fuel cs e = Ok cs' /\ added cs e cs'.

(* the constraints [old] are added to [cur] where [ρ] satisfies [Q] *)
Record rewritten (Q : env -> Prop) (cur old cs' : list expr) : Prop := {
  rewritten_ok : Forall constraint_ok cs';
  rewritten_back ρ : Q ρ -> none_false ρ cs' -> none_false ρ (cur ++ old);
  rewritten_sat ρ : Q ρ -> sat ρ (cur ++ old) -> sat ρ cs';
  rewritten_reads : (reads cs' <= reads cur + reads old)%nat;
  rewritten_nodes : (nodes cs' <= nodes cur + nodes old)%nat;
}.

Lemma rewrite_loop_ok fuel v r M ρ0 :
  adds fuel -> wt (Binary Eq (Constant v) r) -> P (Binary Eq (Constant v) r) ->
  right_in checked (lookup_one r (Constant v)) ρ0 ->
  forall old s cur changed,
  table_ok checked P (lookup_one r (Constant v)) s ->
  Forall constraint_ok old -> Forall constraint_ok cur -> sat ρ0 old -> sat ρ0 cur ->
  (nodes cur + nodes old <= M)%nat -> ((reads cur + reads old) * S M <= fuel)%nat ->
  exists cs' b, rewrite_loop false hash (addConstraintInternal false hash rewrite fuel) (ExprReplaceVisitor r (Constant v))
      old s cur changed = Ok (cs', b) /\
    rewritten (right_in checked (lookup_one r (Constant v))) cur old cs'.
Proof.
  intros IH Hwt HPe Hright. induction old as [|ce old IHold]; intros s cur changed Hs Hold Hcur Hso Hsc HM Hf; cbn [rewrite_loop].
  { exists cur, changed. split; [done|]. constructor; rewrite ?app_nil_r; auto; cbn; lia. }
  apply Forall_cons_iff in Hold as [Hce Hold]. apply Forall_cons_iff in Hso as [Hsce Hso].
  rewrite nodes_cons in HM. rewrite reads_cons in Hf. pose proof Hce as (Hcwt & Hcw & HPc & _).
  destruct (visit_replaces checked hash P _ _ (replace_one_ok v r Hwt HPe) ρ0 ce Hright) with (s := s)
    as (e & s' & -> & Hs' & Hrep); [by split_and!; [..|eexists]|done|]. cbn [res_bind].
  destruct (negb (expr_eqb e ce)) eqn:Ee.
  - destruct Hrep as [[Hewt Hew] HPr Hval Hnw _ Hpr]. apply negb_true_iff in Ee.
    destruct Hpr as [Hpr|Hpr]; [congruence|].
    destruct (IH cur e M ρ0) as (cs1 & -> & Hadd); try done.
    { congruence. } { by apply Hval. } { lia. } { nia. }
    cbn [res_bind]. destruct Hadd as [Hok1 Hback1 Hsat1 Hr1 Hn1].
    destruct (IHold s' cs1 true) as (cs' & b & -> & [Hok2 Hback2 Hsat2 Hr2 Hn2]); try done.
    { apply Hsat1; [done|]. by apply Hval. } { lia. } { nia. }
    exists cs', b. split; [done|]. constructor; [done| | |rewrite reads_cons; lia|rewrite nodes_cons; lia].
    + intros ρ HQ Hn. specialize (Hback2 ρ HQ Hn). apply Forall_app in Hback2 as [Hb1 Hb2].
      destruct (Hback1 ρ Hb1) as [Hb3 Hb4]. apply Forall_app. split; [done|]. constructor; [|done].
      eapply stands_not_false; [by apply Hval|done].
    + intros ρ HQ [Ha Hb]%Forall_app. apply Forall_cons_iff in Hb as [Hb Hc]. apply Hsat2; [done|]. apply Forall_app.
      split; [|done]. apply Hsat1; [done|]. by apply Hval.
  - destruct (IHold s' (cur ++ [ce]) changed) as (cs' & b & -> & [Hok2 Hback2 Hsat2 Hr2 Hn2]); try done.
    { apply Forall_app_2; [done|by apply Forall_singleton]. } { apply Forall_app_2; [done|by apply Forall_singleton]. }
    { rewrite nodes_app. cbn. lia. } { rewrite reads_app. cbn. nia. }
    exists cs', b. split; [done|]. rewrite <- app_assoc in *. constructor; try done.
    + rewrite reads_app in Hr2. cbn in Hr2. rewrite reads_cons. lia.
    + rewrite nodes_app in Hn2. cbn in Hn2. rewrite nodes_cons. lia.
Qed.

(** A true conjunction of truth values. *)
Lemma and_true ρ l r :
  wt (Binary And l r) -> getWidth (Binary And l r) = 1 ->
  (denote checked ρ (Binary And l r) = Some 1 <-> denote checked ρ l = Some 1 /\ denote checked ρ r = Some 1) /\
  (not_false ρ l -> not_false ρ r -> not_false ρ (Binary And l r)).
Proof.
  intros (Hl & Hr & Hw) H1. cbn in H1. unfold not_false. cbn [denote].
  destruct (denote checked ρ l) as [x|] eqn:El; cbn; [|split; [split; [done|by intros [? _]]|done]].
  destruct (denote checked ρ r) as [y|] eqn:Er; cbn; [|split; [split; [done|by intros [_ ?]]|done]].
  pose proof (denote_range checked l ρ x Hl El) as Rx. pose proof (denote_range checked r ρ y Hr Er) as Ry.
  rewrite <- Hw in Ry. rewrite H1 in Rx, Ry. cbn in Rx, Ry.
  assert (x = 0 \/ x = 1) as [-> | ->] by lia; assert (y = 0 \/ y = 1) as [-> | ->] by lia; cbn;
    (split; [split; [intros Hx|intros [Hx Hy]]; simplify_eq; done|]); intros Ha Hb v [= <-]; auto.
Qed.

Lemma constant_true ρ v : 0 < getBitWidth v -> getBitWidth v = 1 -> denote checked ρ (Constant v) = Some 1 -> const_isTrue v = true.
Proof. intros _ Hw [= Hv]. unfold const_isTrue, Bool_w. by rewrite Hw, Hv. Qed.

Lemma const_true_not_false ρ v : wt (Constant v) -> getBitWidth v = 1 -> const_isTrue v = true -> not_false ρ (Constant v).
Proof.
  intros Hwt Hw H x [= <-]. pose proof (uval_range v ltac:(cbn in Hwt; lia)) as R. rewrite Hw in R. cbn in R.
  unfold const_isTrue in H. apply andb_true_iff in H as [_ H]. apply negb_true_iff, Z.eqb_neq in H. lia.
Qed.

Lemma add_default fuel cs e :
  Forall constraint_ok cs -> constraint_ok e ->
  (forall l r, e <> Binary And l r) -> (forall v r, e <> Binary Eq (Constant v) r) ->
  addConstraintInternal false hash rewrite (S fuel) cs e = Ok (cs ++ [e]).
Proof.
  intros Hcs (_ & _ & _ & HC) HA HE. destruct e as [| | | | | | | |k l r]; try done.
  destruct k; try done; cbn [addConstraintInternal]; [by destruct (HA l r)|].
  destruct (isConstant l) eqn:El; [|by rewrite andb_false_r].
  destruct l as [v| | | | | | | |]; try done. by destruct (HE v r).
Qed.

Lemma add_eq fuel : adds fuel -> forall cs v r M ρ0,
  let e := Binary Eq (Constant v) r in
  Forall constraint_ok cs -> constraint_ok e -> sat ρ0 cs -> denote checked ρ0 e = Some 1 ->
  (nodes cs + node_weight e <= M)%nat -> ((reads cs + read_count e) * S M <= fuel)%nat ->
  exists cs', addConstraintInternal false hash rewrite (S fuel) cs e = Ok cs' /\ added cs e cs'.
Proof.
  intros IH cs v r M ρ0 e Hcs He Hsat Hd HM Hf. pose proof He as (Hwt & Hw & HPe & _).
  subst e. cbn [addConstraintInternal isConstant]. set (e := Binary Eq (Constant v) r) in *.
  destruct (rewrite && true).
  2: { exists (cs ++ [e]). split; [reflexivity|]. by apply added_push. }
  assert (forall ρ, not_false ρ e -> right_in checked (lookup_one r (Constant v)) ρ) as Hright
    by (intros ρ Hn; by apply replace_one_right).
  destruct (rewrite_loop_ok fuel v r M ρ0 IH Hwt HPe) with (old := cs) (s := (@nil (expr * expr), tt)) (cur := @nil expr) (changed := false)
    as (cs1 & b & E & [Hok Hback Hs1 Hr1 Hn1]); try done.
  { apply Hright. intros x Hx. congruence. }
  all: try (by constructor).
  { change (nodes []) with 0%nat. lia. } { change (reads []) with 0%nat. nia. }
  unfold rewriteConstraints. rewrite E. cbn [res_bind fst]. eexists. split; [done|].
  cbn [app] in Hback, Hs1. change (reads []) with 0%nat in Hr1. change (nodes []) with 0%nat in Hn1.
  destruct (added_push cs1 e Hok He) as [Hok' Hback' Hsat' Hr' Hn']. constructor; [done| | |lia|lia].
  - intros ρ Hn. destruct (Hback' ρ Hn) as [H1 H2]. split; [|done]. apply Hback; auto.
  - intros ρ H1 H2. apply Hsat'; [|done]. apply Hs1; [|done]. apply Hright. intros x Hx. congruence.
Qed.

Lemma addConstraintInternal_ok fuel : adds fuel.
Proof.
  induction fuel as [|fuel IH]; intros cs e M ρ0 Hcs Hwt Hw HPe Hsat Hd HM Hf; [lia|].
  destruct (isConstant e) eqn:HC.
  { destruct e as [v| | | | | | | |]; try done. cbn [addConstraintInternal].
    rewrite (constant_true ρ0 v) by done. exists cs. split; [done|]. constructor; try done; try lia.
    intros ρ Hn. split; [done|]. apply const_true_not_false; [done|done|]. by apply (constant_true ρ0). }
  assert (constraint_ok e) as He by done.
  assert ((exists l r, e = Binary And l r) \/ (exists v r, e = Binary Eq (Constant v) r) \/
    (forall l r, e <> Binary And l r) /\ (forall v r, e <> Binary Eq (Constant v) r)) as [(l & r & ->)|[(v & r & ->)|[HA HE]]].
  { destruct e as [| | | | | | | |k l r]; try (right; right; by split).
    destruct k; try (right; right; by split); [by left; exists l, r|].
    destruct l as [v| | | | | | | |]; try (right; right; by split). right. left. by exists v, r. }
  - pose proof Hwt as (Hl & Hr & Hwlr). cbn in Hw. pose proof (replace_kids _ HPe) as HPk.
    apply Forall_cons_iff in HPk as [HPl HPk]. apply Forall_cons_iff in HPk as [HPr _].
    assert (node_weight (Binary And l r) = S (node_weight l + node_weight r)) as En by done.
    assert (read_count (Binary And l r) = read_count l + read_count r)%nat as Er by done. rewrite En in *. rewrite Er in *.
    destruct (and_true ρ0 l r Hwt Hw) as [Hdl _]. destruct (proj1 Hdl Hd) as [Hd1 Hd2].
    cbn [addConstraintInternal]. destruct (IH cs l M ρ0) as (cs1 & -> & [Hok1 Hb1 Hs1 Hr1 Hn1]); try done; [lia|nia|].
    cbn [res_bind]. destruct (IH cs1 r M ρ0) as (cs2 & -> & [Hok2 Hb2 Hs2 Hr2 Hn2]); try done; [congruence|by apply Hs1|lia|nia|].
    exists cs2. split; [done|]. constructor; [done| | |rewrite Er; lia|rewrite En; lia].
    + intros ρ Hn. destruct (Hb2 ρ Hn) as [H1 H2]. destruct (Hb1 ρ H1) as [H3 H4]. split; [done|].
      by apply (and_true ρ l r).
    + intros ρ H1 H2. apply (and_true ρ l r) in H2 as [H2 H3]; [|done|done]. apply Hs2; [|done]. by apply Hs1.
  - apply (add_eq fuel IH cs v r M ρ0); try done. nia.
  - exists (cs ++ [e]). split; [by apply add_default|by apply added_push].
Qed.

Lemma addConstraint_ok cs e ρ0 :
  Forall constraint_ok cs -> wt e -> getWidth e = 1 -> P e -> sat ρ0 cs -> denote checked ρ0 e = Some 1 ->
  exists cs', addConstraint false hash rewrite cs e = Ok cs' /\ Forall constraint_ok cs' /\
    (forall ρ, none_false ρ cs' -> none_false ρ (e :: cs)) /\ (forall ρ, sat ρ (e :: cs) -> sat ρ cs').
Proof.
  intros Hcs Hwt Hw HPe Hsat Hd. unfold addConstraint.
  destruct (simplify_ok cs e ρ0) as (e' & -> & [Hwt' Hw'] & HPe' & Hst & _ & _); [done..|by eexists|]. cbn [res_bind].
  assert (denote checked ρ0 e' = Some 1) as Hd' by (by apply Hst; [apply sat_not_false|]).
  destruct (addConstraintInternal_ok (constraint_fuel cs e') cs e' (nodes (e' :: cs)) ρ0) as (cs' & -> & [Hok Hb Hs _ _]); try done.
  { congruence. } { rewrite nodes_cons. lia. }
  { unfold constraint_fuel. fold (reads (e' :: cs)) (nodes (e' :: cs)). rewrite reads_cons. nia. }
  exists cs'. split_and!; [done|done| |].
  - intros ρ Hn. destruct (Hb ρ Hn) as [H1 H2]. constructor; [|done]. eapply stands_not_false; [by apply Hst|done].
  - intros ρ [H1 H2]%Forall_cons_iff. apply Hs; [done|]. apply Hst; [by apply sat_not_false|done].
Qed.

End correct.

(** ** Scopes that simplification stays in *)
Class RewriteScope `{A : APInt} {AR : Arrays} (opt checked : bool) {SC : Scope opt checked} : Prop := {
  good_replace :: ReplaceClosed opt good;
  good_solid e : good e -> is_solid e;
}.

Section scope.
Context {A : APInt} {L : APIntLaws A} {AR : Arrays}.

(** The solid expressions are one. *)
Definition solid_scope (opt checked : bool) : Scope opt checked := {|
  good := is_solid;
  good_false := eq_refl;
  good_create e k c e' d He Hk E Hd := binary_solid opt k e (Constant c) He eq_refl e' E;
  good_objects _ := True;
  good_objects_once _ _ _ := I;
|}.

Lemma solid_rewrite_scope opt checked : RewriteScope opt checked (SC := solid_scope opt checked).
Proof. split; [apply solid_replace|done]. Qed.

End scope.

(** ** The theorems *)
Section theorems.
Context {A : APInt} {L : APIntLaws A} {AR : Arrays}.
Context (checked hash rewrite : bool) {SC : Scope false checked} {RS : RewriteScope false checked}.

(** The constraints of a state: Boolean expressions of the scope, no constants. *)
Definition constraint_set (cs : list expr) : Prop := Forall (constraint_ok good) cs.

(** C14. [simplifyExpr] terminates, fails no assertion, and returns an
    expression of the same width and scope with the same value in every
    environment that satisfies the constraints, for an expression that has a
    value in one of them. *)
Theorem simplifyExpr_correct (cs : list expr) (e : expr) (ρ0 : env) :
  constraint_set cs -> wt e -> good e -> sat checked ρ0 cs -> is_Some (denote checked ρ0 e) ->
  exists e', simplifyExpr false hash cs e = Ok e' /\ wt e' /\ good e' /\ getWidth e' = getWidth e /\
    forall ρ v, sat checked ρ cs -> denote checked ρ e = Some v -> denote checked ρ e' = Some v.
Proof.
  intros Hcs He Hg Hsat Hd.
  destruct (simplify_ok checked hash good good_solid cs e ρ0) as (e' & E & [Hwt Hw] & Hg' & Hst & _); [done..|].
  exists e'. split_and!; try done. intros ρ v Hρ Hv. by apply Hst; [apply sat_not_false|].
Qed.

(** C13. [addConstraint] of a constraint that is consistent with the others
    terminates and does not reach the assertion "attempt to add invalid
    (false) constraint", however the constraints are rewritten and split on
    the way.  The new set again consists of Boolean constraints that are no
    constants; every solution of the old constraints and the new one satisfies
    it, and a solution of it satisfies the old constraints and the new one
    wherever they have values. *)
Theorem addConstraint_correct (cs : list expr) (e : expr) (ρ0 : env) :
  constraint_set cs -> wt e -> getWidth e = 1 -> good e -> sat checked ρ0 (e :: cs) ->
  exists cs', addConstraint false hash rewrite cs e = Ok cs' /\ constraint_set cs' /\
    (forall ρ, sat checked ρ (e :: cs) -> sat checked ρ cs') /\
    (forall ρ, sat checked ρ cs' -> Forall (fun c => is_Some (denote checked ρ c)) (e :: cs) -> sat checked ρ (e :: cs)).
Proof.
  intros Hcs He Hw Hg [Hd Hsat]%Forall_cons_iff.
  destruct (addConstraint_ok checked hash rewrite good good_solid cs e ρ0) as (cs' & E & Hok & Hback & Hs); [done..|].
  exists cs'. split_and!; try done. intros ρ Hρ Hdef.
  specialize (Hback ρ (sat_not_false checked ρ cs' Hρ)). unfold none_false in Hback. unfold sat.
  rewrite Forall_forall in Hback, Hdef |- *.
  intros c Hc. destruct (Hdef c Hc) as [v Hv]. cbn beta. rewrite Hv. f_equal. by apply (Hback c Hc).
Qed.

End theorems.

Section witnesses.
Import Examples SolverExamples.
#[local] Existing Instance Examples.arrays.
#[local] Instance example_scope : Scope false false := solid_scope false false.
#[local] Instance example_rewrite : RewriteScope false false := solid_rewrite_scope false false.

(* under a[0] = 5, a[1] < a[0] becomes a[1] < 5 *)
Lemma simplifyExpr_correct_witness :
  exists e', simplifyExpr false true [five] small = Ok e' /\ wt e' /\ good e' /\ getWidth e' = getWidth small /\
    forall ρ v, sat false ρ [five] -> denote false ρ small = Some v -> denote false ρ e' = Some v.
Proof.
  apply (simplifyExpr_correct false true [five] small five_one).
  - constructor; [|constructor]. split_and!; [exact five_wt|done|done|done].
  - exact small_wt.
  - done.
  - constructor; [reflexivity|constructor].
  - by eexists.
Defined.

Example simplified_small :
  simplifyExpr false true [five] small = Ok (Binary Ult (a_at 1) (Constant (byte 5))).
Proof. reflexivity. Qed.

(* adding a[0] = 5 to a[1] < a[0] rewrites it *)
Lemma addConstraint_correct_witness :
  exists cs', addConstraint false true true [small] five = Ok cs' /\ constraint_set false cs' /\
    (forall ρ, sat false ρ [five; small] -> sat false ρ cs') /\
    (forall ρ, sat false ρ cs' -> Forall (fun c => is_Some (denote false ρ c)) [five; small] -> sat false ρ [five; small]).
Proof.
  apply (addConstraint_correct false true true [small] five five_one).
  - constructor; [|constructor]. split_and!; [exact small_wt|done|done|done].
  - exact five_wt.
  - done.
  - done.
  - repeat (constructor; [reflexivity|]). constructor.
Defined.

Example added_five :
  addConstraint false true true [small] five = Ok [Binary Ult (a_at 1) (Constant (byte 5)); five].
Proof. reflexivity. Qed.
End witnesses.
