(* ===== verification/SolverScope.v ===== *)
(** The expressions the solver chain is proved for ([evaluable]), as a [Scope]
    of [Solver.v]: they have a value in every environment, read inside the
    bounds of the arrays, evaluate to constants and mention a byte unless they
    are constants.  The constructors of the binary kinds preserve the class
    ([ExprClosed.v]), so that queries derived from others stay in it.

    The conditions are what the solvers rely on without a check: an
    [Assignment] says nothing of bytes outside the arrays, [satisfies]
    evaluates constraints in the order of a set, not of the path, so without
    the ones that guard them, and [IndependentSolver] drops factors that
    mention no array. *)
From Stdlib Require Import ZArith Lia Bool.
From stdpp Require Import base list numbers option gmap sets.
From S2P Require Import Prelude APInt Expr ExprCreate ExprSem ExprCompare ExprCreateCorrect ExprFactory ExprVisitor ExprReads ExprEval ExprClosed ExprUtil Solver.
Open Scope Z_scope.

Section scope.
Context {A : APInt} {L : APIntLaws A} {AR : Arrays}.
Context (opt checked : bool).

Definition evaluable (e : expr) : Prop :=
  (forall ρ, is_Some (denote checked ρ e)) /\ in_bounds checked e /\ foldable e = true /\ grounded e = true.

Lemma evaluable_const v w : evaluable (const_alloc v w).
Proof. split; [|done]. intros ρ. by eexists. Qed.

Lemma evaluable_create e k c e' (d : Z -> Z) :
  evaluable e -> BinaryExpr_create opt k e (Constant c) = Ok e' ->
  (forall ρ v, denote checked ρ e = Some v -> denote checked ρ e' = Some (d v)) ->
  evaluable e'.
Proof.
  intros (Ht & Hb & Hf & Hg) E Hd. split_and!.
  - intros ρ. destruct (Ht ρ) as [v Hv]. exists (d v). auto.
  - by apply (BinaryExpr_create_closed opt (in_bounds checked) k e (Constant c)); [..|by destruct k|].
  - by apply (BinaryExpr_create_closed opt (fun e => foldable e = true) k e (Constant c)); [..|by destruct k|].
  - by apply (BinaryExpr_create_closed opt (fun e => grounded e = true) k e (Constant c)); [..|by destruct k|].
Qed.

(** The evaluable expressions of a class. *)
Definition evaluable_within (SC : Scope opt checked) : Scope opt checked := {|
  good e := evaluable e /\ good e;
  good_false := conj (evaluable_const 0 Bool_w) good_false;
  good_create e k c e' d H Hk E Hd := conj (evaluable_create e k c e' d (proj1 H) E Hd) (good_create e k c e' d (proj2 H) Hk E Hd);
  good_objects := good_objects;
  good_objects_once := good_objects_once;
|}.

Definition evaluable_scope : Scope opt checked := evaluable_within (any_scope opt checked).

(** ** The frame of an evaluable expression *)

(** Every read of a well-typed expression is of a well-formed array. *)
Lemma wt_within_both ρ :
  (forall e, wt e -> within checked (fun root _ => wt_array (arrayAt root)) ρ e) /\
  (forall u, forall root, wt_updates root u -> within_updates checked (fun root _ => wt_array (arrayAt root)) ρ u).
Proof.
  apply expr_updates_ind; intros; rewrite ?within_Read, ?within_UNode; cbn [within wt wt_updates] in *;
    destruct_and?; split_and?; eauto. done.
Qed.

(** The environments agree on the bytes inside the symbolic arrays. *)
Definition agree_inside (ρ ρ' : env) : Prop := forall os i,
  isSymbolicArray (arrayAt os) = true -> 0 <= i < size (arrayAt os) ->
  wrap (range (arrayAt os)) (ρ os i) = wrap (range (arrayAt os)) (ρ' os i).

Lemma agree_inside_denote ρ ρ' e :
  wt e -> evaluable e -> agree_inside ρ ρ' -> denote checked ρ e = denote checked ρ' e.
Proof.
  intros Hwt (_ & Hb & _) Hag. apply within_frame.
  apply (within_weaken _ (fun root i => in_array root i /\ wt_array (arrayAt root))).
  2:{ apply within_and_both; [apply Hb|by apply wt_within_both]. }
  intros root i [Hi Ha]. destruct (isSymbolicArray (arrayAt root)) eqn:Hs.
  - rewrite !array_init_symbolic by done. f_equal. by apply Hag.
  - by apply array_init_constant.
Qed.
End scope.

(** ** Assignments *)

(** Symbolic arrays hold bytes. *)
Definition byte_arrays `{AR : Arrays} : Prop :=
  forall os, isSymbolicArray (arrayAt os) = true -> range (arrayAt os) = 8.

Section assignments.
Context {A : APInt} {L : APIntLaws A} {AR : Arrays}.
Context (checked : bool) (Hbytes : byte_arrays).

(** An assignment without free values that binds whole arrays to bytes. *)
Definition full (a : Assignment) : Prop :=
  allowFreeValues a = false /\ bytes_ok (bindings a) /\
  Forall (fun p => Z.of_nat (length (snd p)) = size (arrayAt (fst p))) (bindings a).

(** The bytes the solvers return for an object are those of the assignment. *)
Lemma object_bytes_ok a os :
  full a -> wt_array (arrayAt os) ->
  bytes_of checked (assignment_env a) os
    (match bindings_find os (bindings a) with
     | None => replicate (Z.to_nat (size (arrayAt os))) 0
     | Some vs => vs
     end).
Proof.
  intros (_ & Hb & Hl) Hwt.
  assert (isSymbolicArray (arrayAt os) = true -> forall i, denote_updates checked (assignment_env a) os UNil i =
    Some (wrap 8 (assignment_env a os i))) as Hd.
  { intros Hs i. rewrite <- (Hbytes os Hs). by apply array_init_symbolic. }
  unfold bytes_of. unfold assignment_env, bound_byte in Hd.
  destruct (bindings_find os (bindings a)) as [vs|] eqn:E; cbn [mbind option_bind default] in Hd.
  - pose proof (bindings_find_bytes _ _ _ Hb E) as Hvs. split_and!; [|done|].
    + clear -E Hl. induction Hl as [|[k ws] bs Hk Hbs IH]; [done|]. cbn in E, Hk.
      destruct (Pos.eqb_spec k os) as [->|]; [by injection E as <-|by apply IH].
    + intros Hs i b Hi. unfold assignment_env, bound_byte. rewrite Hd by done.
      assert (0 <=? Z.of_nat i = true) as -> by (apply Z.leb_le; lia).
      rewrite Nat2Z.id, Hi. cbn. pose proof (Forall_lookup_1 _ _ _ _ Hvs Hi) as R. cbn beta in R.
      f_equal. by apply wrap_small.
  - split_and!.
    + rewrite length_replicate. destruct Hwt as (_ & _ & ? & _). lia.
    + apply Forall_replicate. lia.
    + intros Hs i b [-> _]%lookup_replicate. unfold assignment_env, bound_byte. by rewrite Hd.
Qed.

(** Binding distinct objects binds each to its value. *)
Lemma bind_objects_ok (P : positive -> list Z -> Prop) objects values :
  Forall2 P objects values -> NoDup objects ->
  forall bs, Forall (fun os => bindings_find os bs = None) objects -> Forall (fun p => P (fst p) (snd p)) bs ->
  exists bs', bind_objects objects values bs = Ok bs' /\ Forall (fun p => P (fst p) (snd p)) bs' /\
    (forall os, os ∉ objects -> bindings_find os bs' = bindings_find os bs) /\
    (forall os, os ∈ objects -> exists vs, bindings_find os bs' = Some vs /\ P os vs).
Proof.
  induction 1 as [|os arr objects values HP H IH]; intros Hn bs Hb Hbs; cbn [bind_objects].
  { exists bs. split_and!; [done..|]. by intros ? ?%not_elem_of_nil. }
  apply NoDup_cons in Hn as [Hni Hn]. apply Forall_cons_iff in Hb as [Hos Hb].
  destruct (IH Hn (bindings_insert os arr bs)) as (bs' & E & HF & Hout & Hin).
  { rewrite Forall_forall in Hb |- *. intros k Hk. rewrite bindings_find_insert by done.
    destruct (Pos.eqb_spec os k) as [->|]; [done|by apply Hb]. }
  { by apply bindings_insert_Forall. }
  exists bs'. split_and!; [done|done| |].
  - intros k Hk%not_elem_of_cons. rewrite Hout by tauto. rewrite bindings_find_insert by done.
    destruct (Pos.eqb_spec os k) as [->|]; [tauto|done].
  - intros k Hk. destruct (decide (k ∈ objects)) as [?|Hne]; [by apply Hin|].
    apply elem_of_cons in Hk as [->|?]; [|done]. exists arr. split; [|done].
    by rewrite Hout, bindings_find_insert, Pos.eqb_refl.
Qed.

(** The assignment made of the values of the objects the expressions mention
    gives them their values. *)
Lemma Assignment_new_agrees ρ es objects values :
  Forall (fun e => wt e /\ evaluable checked e) es -> NoDup objects ->
  (forall os, os ∈ objects <-> exists e, e ∈ es /\ mentions os e) ->
  object_values checked ρ objects values ->
  exists a, Assignment_new objects values false = Ok a /\ full a /\
    Forall (fun e => denote checked (assignment_env a) e = denote checked ρ e) es.
Proof.
  intros Hes Hn Hm Hv.
  destruct (bind_objects_ok (bytes_of checked ρ) objects values Hv Hn []) as (bs & E & HF & _ & Hin).
  { by apply Forall_forall. } { constructor. }
  unfold Assignment_new. rewrite E. cbn [res_bind]. eexists. split; [done|].
  set (a := {| allowFreeValues := false; bindings := bs |}). split.
  { split; [done|]. split; cbn; (eapply Forall_impl; [exact HF|]); by intros p (? & ? & _). }
  set (ρ1 := fun os i => if bool_decide (os ∈ objects) || negb (isSymbolicArray (arrayAt os))
                         then ρ os i else assignment_env a os i).
  assert (agree_inside ρ1 (assignment_env a)) as Hag.
  { intros os i Hs Hi. unfold ρ1. rewrite Hs, orb_false_r. case_bool_decide as Hos; [|done].
    destruct (Hin os Hos) as (vs & Hf & Hlen & Hby & Hval).
    destruct (lookup_lt_is_Some_2 vs (Z.to_nat i)) as [b Hb]; [lia|].
    specialize (Hval Hs _ b Hb). change (array_init checked ρ os (Z.of_nat (Z.to_nat i)) = Some b) in Hval.
    rewrite array_init_symbolic, Z2Nat.id in Hval by (done || lia). injection Hval as Hval.
    assert (assignment_env a os i = b) as ->.
    { unfold assignment_env, bound_byte. cbn [bindings a]. rewrite Hf. cbn [mbind option_bind].
      assert (0 <=? i = true) as -> by (apply Z.leb_le; lia). by rewrite Hb. }
    pose proof (Forall_lookup_1 _ _ _ _ Hby Hb) as Hr. cbn beta in Hr.
    rewrite Hval. symmetry. apply wrap_small. by rewrite (Hbytes os Hs). }
  rewrite Forall_forall in Hes |- *. intros c Hc. destruct (Hes c Hc) as (Hwt & Hev).
  rewrite <- (agree_inside_denote _ _ _ _ Hwt Hev Hag). apply denote_frame; intros os Hos i; unfold ρ1.
  - by rewrite Hos, orb_true_r.
  - by rewrite bool_decide_true by (apply Hm; by exists c).
Qed.

(** Mentioned arrays are well-formed and symbolic. *)
Lemma mentions_wt_both os :
  (forall e, wt e -> mentions os e -> wt_array (arrayAt os) /\ isSymbolicArray (arrayAt os) = true) /\
  (forall u, forall root, wt_updates root u -> mentions_updates os u ->
     wt_array (arrayAt os) /\ isSymbolicArray (arrayAt os) = true).
Proof.
  apply expr_updates_ind; cbn [wt wt_updates mentions mentions_updates]; intros; destruct_and?; try done;
    repeat match goal with H : _ \/ _ |- _ => destruct H end; destruct_and?; subst; eauto.
Qed.
End assignments.

(** ** Samples *)
Module ScopeExamples.
#[local] Existing Instance Examples.arrays.
Import Examples SolverExamples.

Lemma a_at_in_bounds i : 0 <= i < 16 -> in_bounds false (a_at i).
Proof. intros Hi ρ. split; [done|]. split; [done|]. intros v [= <-]. unfold in_array, bv_uval. cbn. unfold wrap. by rewrite Z.mod_small by lia. Qed.

Lemma five_evaluable : evaluable false five.
Proof.
  split; [intros ρ; by eexists|]. split; [|done]. intros ρ. split; [done|]. by apply a_at_in_bounds.
Qed.

Lemma small_evaluable : evaluable false small.
Proof.
  split; [intros ρ; by eexists|]. split; [|done]. intros ρ. split; by apply a_at_in_bounds.
Qed.

(* a[0] <> 5 *)
Definition not_five : expr := Binary Eq (const_alloc 0 1) five.

Lemma not_five_wt : wt not_five.
Proof. split; [by apply wt_const_alloc|]. split; [exact five_wt|done]. Qed.

Lemma not_five_evaluable : evaluable false not_five.
Proof.
  split; [intros ρ; by eexists|]. split; [|done]. intros ρ. split; [done|]. apply five_evaluable.
Qed.
Lemma sample_byte_arrays : byte_arrays.
Proof. intros os. by destruct os as [| |]. Qed.

Lemma sample_evaluable_contract : SolverContract (SC:=evaluable_scope false false) false sample_solver (fun _ => True).
Proof. by apply GuessSolver_contract. Qed.

Lemma assumed_evaluable : bool_query (SC:=evaluable_scope false false) false (MkQuery [five] five).
Proof.
  apply (five_query (SC:=evaluable_scope false false)); [exact (conj five_evaluable I)|exact (conj five_evaluable I)|exact five_wt|done|].
  apply five_evaluable.
Qed.

Lemma sample_query_evaluable : bool_query (SC:=evaluable_scope false false) false sample_query.
Proof.
  apply (five_query (SC:=evaluable_scope false false)); [exact (conj five_evaluable I)|exact (conj small_evaluable I)|exact small_wt|done|].
  apply small_evaluable.
Qed.
End ScopeExamples.
