(* ===== verification/StagedSolver.v ===== *)
(** Incomplete solvers: klee/include/klee/Solver/IncompleteSolver.h and
    klee/lib/Solver/IncompleteSolver.cpp.  [PartialValidity] and its negation,
    the default [computeValidity] of [IncompleteSolver], and
    [StagedSolverImpl], which asks a primary incomplete solver first and a
    secondary solver for the rest.  The staged solver meets the contract of
    [Solver.v] when its parts meet theirs. *)
From Stdlib Require Import ZArith Lia Bool.
From stdpp Require Import base list numbers option.
From S2P Require Import Prelude APInt Expr ExprCreate ExprSem ExprCompare ExprCreateCorrect ExprFactory Solver.
Open Scope Z_scope.

(** [IncompleteSolver::PartialValidity]; [PVNone] is [None]. *)
Inductive PartialValidity : Type :=
| MustBeTrue | MustBeFalse | MayBeTrue | MayBeFalse | TrueOrFalse | PVNone.

#[export] Instance PartialValidity_eq_dec : EqDecision PartialValidity.
Proof. solve_decision. Defined.

(* asserts that the validity is known *)
Definition negatePartialValidity (pv : PartialValidity) : res PartialValidity :=
  match pv with
  | PVNone => AssertFail
  | MustBeTrue => Ok MustBeFalse
  | MustBeFalse => Ok MustBeTrue
  | MayBeTrue => Ok MayBeFalse
  | MayBeFalse => Ok MayBeTrue
  | TrueOrFalse => Ok TrueOrFalse
  end.

Section staged.
Context {A : APInt} {AR : Arrays}.
Context (ConstArrayOpt : bool).

(** [IncompleteSolver], over the object's state. *)
Record IncompleteSolver (S : Type) : Type := {
  ic_computeTruth : Query -> state S PartialValidity;
  ic_computeValidity : Query -> state S PartialValidity;
  ic_computeValue : Query -> state S (option expr);
  ic_computeInitialValues : Query -> list positive -> state S (option solution);
}.

(** The implementation [IncompleteSolver] gives of [computeValidity]. *)
Definition ic_default_computeValidity {S} (computeTruth : Query -> state S PartialValidity) (query : Query) :
    state S PartialValidity :=
  do* trueResult := computeTruth query in
  if decide (trueResult = MustBeTrue) then sret MustBeTrue
  else
    do* nq := slift (negateExpr ConstArrayOpt query) in
    do* falseResult := computeTruth nq in
    sret (
      if decide (falseResult = MustBeTrue) then MustBeFalse
      else
        let trueCorrect := bool_decide (trueResult <> PVNone) in
        let falseCorrect := bool_decide (falseResult <> PVNone) in
        if trueCorrect && falseCorrect then TrueOrFalse
        else if trueCorrect then MayBeFalse
        else if falseCorrect then MayBeTrue
        else PVNone).

Context {S1 S2 : Type} (primary : IncompleteSolver S1) (secondary : SolverImpl S2).

Definition staged_computeTruth (query : Query) : state (S1 * S2) (option bool) :=
  do* trueResult := on_fst (ic_computeTruth _ primary query) in
  if decide (trueResult <> PVNone) then sret (Some (bool_decide (trueResult = MustBeTrue)))
  else on_snd (computeTruth secondary query).

Definition staged_computeValidity (query : Query) : state (S1 * S2) (option Validity) :=
  do* pv := on_fst (ic_computeValidity _ primary query) in
  match pv with
  | MustBeTrue => sret (Some ValidityTrue)
  | MustBeFalse => sret (Some ValidityFalse)
  | TrueOrFalse => sret (Some ValidityUnknown)
  | MayBeTrue =>
      do* tmp := on_snd (computeTruth secondary query) in
      sret ((fun b : bool => if b then ValidityTrue else ValidityUnknown) <$> tmp)
  | MayBeFalse =>
      do* nq := slift (negateExpr ConstArrayOpt query) in
      do* tmp := on_snd (computeTruth secondary nq) in
      sret ((fun b : bool => if b then ValidityFalse else ValidityUnknown) <$> tmp)
  | PVNone => on_snd (computeValidity secondary query)
  end.

Definition staged_computeValue (query : Query) : state (S1 * S2) (option expr) :=
  do* r := on_fst (ic_computeValue _ primary query) in
  match r with Some e => sret (Some e) | None => on_snd (computeValue secondary query) end.

Definition staged_computeInitialValues (query : Query) (objects : list positive) :
    state (S1 * S2) (option solution) :=
  do* r := on_fst (ic_computeInitialValues _ primary query objects) in
  match r with
  | Some sol => sret (Some sol)
  | None => on_snd (computeInitialValues secondary query objects)
  end.

Definition StagedSolverImpl : SolverImpl (S1 * S2) := {|
  computeTruth := staged_computeTruth;
  computeValidity := staged_computeValidity;
  computeValue := staged_computeValue;
  computeInitialValues := staged_computeInitialValues;
|}.

End staged.
Arguments ic_computeTruth {A S}.
Arguments ic_computeValidity {A S}.
Arguments ic_computeValue {A S}.
Arguments ic_computeInitialValues {A S}.

(** ** Correctness *)

Section contract.
Context {A : APInt} {AR : Arrays}.
Context {opt : bool} (checked : bool) {SC : Scope opt checked}.

(** What a partial validity claims of a query. *)
Definition pv_spec (q : Query) (pv : PartialValidity) : Prop :=
  match pv with
  | MustBeTrue => forced checked q 1
  | MustBeFalse => forced checked q 0
  | MayBeTrue => feasible checked q 1
  | MayBeFalse => feasible checked q 0
  | TrueOrFalse => feasible checked q 0 /\ feasible checked q 1
  | PVNone => True
  end.

(** What an incomplete solver promises; [computeTruth] does not answer
    [MayBeTrue], which would not settle the question. *)
Class IncompleteContract {S} (ic : IncompleteSolver S) (Inv : S -> Prop) : Prop := {
  ic_computeTruth_ok q : bool_query checked q ->
    sholds Inv (ic_computeTruth ic q) (fun pv => pv_spec q pv /\ pv <> MayBeTrue);
  ic_computeValidity_ok q : bool_query checked q ->
    sholds Inv (ic_computeValidity ic q) (pv_spec q);
  ic_computeValue_ok q : query_ok checked q ->
    sholds Inv (ic_computeValue ic q) (fun r => forall e, r = Some e ->
      exists c, e = Constant c /\ getBitWidth c = getWidth (query_expr q) /\ feasible checked q (uval c));
  ic_computeInitialValues_ok q objects : bool_wf checked q -> refutable opt q -> objects_ok objects ->
    sholds Inv (ic_computeInitialValues ic q objects)
      (fun r => forall sol, r = Some sol -> solution_spec checked q objects sol);
}.
End contract.
Arguments ic_computeTruth_ok {A AR opt checked SC S ic Inv _} q.
Arguments ic_computeValidity_ok {A AR opt checked SC S ic Inv _} q.
Arguments ic_computeValue_ok {A AR opt checked SC S ic Inv _} q.
Arguments ic_computeInitialValues_ok {A AR opt checked SC S ic Inv _} q objects.

Section correct.
Context {A : APInt} {L : APIntLaws A} {AR : Arrays}.
Context (opt checked : bool).
Context (Hopt : opt = true -> checked = true).
Context {SC : Scope opt checked}.

(** A settled answer of [computeTruth] that is not [MustBeTrue] refutes. *)
Lemma pv_refutes q pv :
  query_ok checked q -> pv_spec checked q pv -> pv <> MayBeTrue -> pv <> PVNone -> pv <> MustBeTrue ->
  feasible checked q 0.
Proof. intros Hq Hpv. destruct pv; try done; cbn in Hpv; intros; [by eapply forced_feasible|apply Hpv]. Qed.

Lemma negate_pv_ok q nq pv :
  bool_wf checked q -> constraints nq = constraints q ->
  (forall ρ v, denote checked ρ (query_expr q) = Some v ->
     denote checked ρ (query_expr nq) = Some (Z.b2z (v =? 0))) ->
  forall pv', negatePartialValidity pv = Ok pv' -> pv_spec checked nq pv <-> pv_spec checked q pv'.
Proof.
  intros Hq Hc Hd pv' E. destruct (negate_forced opt checked q nq Hq Hc Hd) as (H1 & H2 & H3 & H4).
  destruct pv; try done; injection E as <-; cbn; tauto.
Qed.

Lemma ic_default_computeValidity_ok {S} (Inv : S -> Prop) (truth : Query -> state S PartialValidity) q :
  (forall q, bool_query checked q -> sholds Inv (truth q) (fun pv => pv_spec checked q pv /\ pv <> MayBeTrue)) ->
  bool_query checked q ->
  sholds Inv (ic_default_computeValidity opt truth q) (pv_spec checked q).
Proof.
  intros Ht Hq. unfold ic_default_computeValidity. eapply sholds_bind; [by apply Ht|].
  intros t [Hts Htn]. destruct (decide (t = MustBeTrue)) as [->|Hn]; [by apply sholds_ret|].
  destruct (negateExpr_ok opt checked Hopt q (proj1 Hq)) as (nq & En & Hnq & Hnc & Hnd).
  destruct (negate_forced opt checked q nq (bool_query_wf opt checked q Hq) Hnc Hnd) as (H1 & H2 & H3 & H4).
  eapply (sholds_bind _ _ (fun x => x = nq)); [apply sholds_lift; by exists nq|]. intros ? ->.
  eapply sholds_bind; [by apply Ht|]. intros f [Hfs Hfn]. apply sholds_ret.
  destruct (decide (f = MustBeTrue)) as [->|Hn']; [by apply H1|].
  assert (t <> PVNone -> feasible checked q 0) as Hfalse by (intros; by eapply (pv_refutes q t); [apply Hq|..]).
  assert (f <> PVNone -> feasible checked q 1) as Htrue
    by (intros; apply H3; by eapply (pv_refutes nq f); [apply Hnq|..]).
  do 2 case_bool_decide; cbn; auto.
Qed.

Context {S1 S2 : Type} (primary : IncompleteSolver S1) (secondary : SolverImpl S2).
Context (I1 : S1 -> Prop) (I2 : S2 -> Prop).
Context {HP : IncompleteContract checked primary I1} {HS : SolverContract checked secondary I2}.

#[export] Instance StagedSolver_contract :
  SolverContract checked (StagedSolverImpl opt primary secondary) (fun s => I1 (fst s) /\ I2 (snd s)).
Proof.
  split.
  - intros q Hq. unfold StagedSolverImpl, staged_computeTruth. cbn.
    eapply sholds_bind; [by apply sholds_on_fst, ic_computeTruth_ok|]. intros pv [Hpv Hn].
    destruct (decide (pv <> PVNone)) as [Hd|Hd]; [|by apply sholds_on_snd, computeTruth_ok].
    apply sholds_ret. intros b [= <-]. case_bool_decide as E; [by subst|].
    by eapply (pv_refutes q pv); [apply Hq|..].
  - intros q Hq. unfold StagedSolverImpl, staged_computeValidity. cbn.
    eapply sholds_bind; [by apply sholds_on_fst, ic_computeValidity_ok|]. intros pv Hpv.
    destruct pv; try (by apply sholds_ret; intros v [= <-]).
    + eapply sholds_bind; [by apply sholds_on_snd, computeTruth_ok|]. intros r Hr. apply sholds_ret.
      intros v E. destruct r as [b|]; [|done]. specialize (Hr b eq_refl). injection E as <-. by destruct b.
    + destruct (negateExpr_ok opt checked Hopt q (proj1 Hq)) as (nq & En & Hnq & Hnc & Hnd).
      destruct (negate_forced opt checked q nq (bool_query_wf opt checked q Hq) Hnc Hnd) as (H1 & H2 & H3 & H4).
      eapply (sholds_bind _ _ (fun x => x = nq)); [apply sholds_lift; by exists nq|]. intros ? ->.
      eapply sholds_bind; [by apply sholds_on_snd, computeTruth_ok|]. intros r Hr. apply sholds_ret.
      intros v E. destruct r as [b|]; [|done]. specialize (Hr b eq_refl). injection E as <-.
      destruct b; [by apply H1|]. split; [done|]. by apply H3.
    + by apply sholds_on_snd, computeValidity_ok.
  - intros q Hq. unfold StagedSolverImpl, staged_computeValue. cbn.
    eapply sholds_bind; [by apply sholds_on_fst, ic_computeValue_ok|]. intros [e|] Hr.
    + by apply sholds_ret.
    + by apply sholds_on_snd, computeValue_ok.
  - intros q objects Hq Hr Ho. unfold StagedSolverImpl, staged_computeInitialValues. cbn.
    eapply sholds_bind; [by apply sholds_on_fst, ic_computeInitialValues_ok|]. intros [sol|] Hsol.
    + by apply sholds_ret.
    + by apply sholds_on_snd, computeInitialValues_ok.
Qed.

End correct.

(** ** Properties *)

(** Staging is a refinement: a [StagedSolverImpl] over a primary solver
    that keeps the contract of incomplete solvers and a secondary one that
    keeps the contract of solvers keeps the latter contract, on every branch
    of the partial validity. *)
Theorem staged_solver_refines `{A : APInt} {L : APIntLaws A} {AR : Arrays} (opt checked : bool)
    {SC : Scope opt checked} {S1 S2} (primary : IncompleteSolver S1) (secondary : SolverImpl S2) (I1 : S1 -> Prop) (I2 : S2 -> Prop) :
  (opt = true -> checked = true) ->
  IncompleteContract checked primary I1 -> SolverContract checked secondary I2 ->
  SolverContract checked (StagedSolverImpl opt primary secondary) (fun s => I1 (fst s) /\ I2 (snd s)).
Proof. intros. by apply StagedSolver_contract. Qed.

(** The default [IncompleteSolver::computeValidity], which asks for the
    truth of the query and of its negation, claims only what is so: a
    [MustBe] is forced, a [MayBe] feasible, [TrueOrFalse] both. *)
Theorem incomplete_validity_sound `{A : APInt} {L : APIntLaws A} {AR : Arrays} (opt checked : bool)
    {SC : Scope opt checked} {S} (Inv : S -> Prop) (truth : Query -> state S PartialValidity) q :
  (opt = true -> checked = true) ->
  (forall q, bool_query checked q -> sholds Inv (truth q) (fun pv => pv_spec checked q pv /\ pv <> MayBeTrue)) ->
  bool_query checked q ->
  sholds Inv (ic_default_computeValidity opt truth q) (pv_spec checked q).
Proof. intros Hopt. by apply ic_default_computeValidity_ok. Qed.

(** ** Witnesses *)
Module StagedExamples.
#[local] Existing Instance Examples.arrays.
Import Examples SolverExamples.

(* answers a query that is one of the constraints *)
Definition assumed_truth (q : Query) : state unit PartialValidity :=
  sret (if assumed q then MustBeTrue else PVNone).

Definition AssumedSolver : IncompleteSolver unit := {|
  ic_computeTruth := assumed_truth;
  ic_computeValidity := ic_default_computeValidity false assumed_truth;
  ic_computeValue _ := sret None;
  ic_computeInitialValues _ _ := sret None;
|}.

Lemma assumed_truth_ok q :
  bool_query false q ->
  sholds (fun _ => True) (assumed_truth q) (fun pv => pv_spec false q pv /\ pv <> MayBeTrue).
Proof.
  intros Hq. apply sholds_ret. destruct (assumed q) eqn:E; [|done].
  split; [|done]. by eapply assumed_ok; [apply (proj1 (proj1 Hq))|].
Qed.

Lemma AssumedSolver_contract : IncompleteContract false AssumedSolver (fun _ => True).
Proof.
  split.
  - apply assumed_truth_ok.
  - intros q. apply ic_default_computeValidity_ok; [done|]. apply assumed_truth_ok.
  - intros q Hq. by apply sholds_ret.
  - intros q objects Hq Hr Ho. by apply sholds_ret.
Qed.
End StagedExamples.
Import StagedExamples.

Section witnesses.
#[local] Existing Instance Examples.arrays.
Import SolverExamples.

Lemma staged_solver_refines_witness :
  SolverContract false (StagedSolverImpl false AssumedSolver sample_solver) (fun s => True /\ True).
Proof.
  apply (staged_solver_refines false false AssumedSolver sample_solver (fun _ => True) (fun _ => True));
    [done|exact AssumedSolver_contract|exact sample_contract].
Defined.

Lemma incomplete_validity_sound_witness :
  ic_computeValidity AssumedSolver (MkQuery [five] five) tt = Ok (MustBeTrue, tt) /\
  sholds (fun _ => True) (ic_default_computeValidity false assumed_truth (MkQuery [five] five))
    (pv_spec false (MkQuery [five] five)).
Proof.
  split; [reflexivity|].
  exact (incomplete_validity_sound false false (fun _ => True) assumed_truth (MkQuery [five] five)
    (fun E => E) assumed_truth_ok sample_assumed_ok).
Defined.
End witnesses.
