(* ===== verification/CachingSolver.v ===== *)
(** The query cache of klee/lib/Solver/CachingSolver.cpp.

    A [CachingSolver] is the state of the solver it wraps and the cache, the
    list of its entries.  Keys are compared by [operator==]; [insert] keeps an
    existing entry, as [std::unordered_map::insert] does.  The statistics
    counters are left out.

    The invariant [cache_ok] says that every cached partial validity is true
    of its key; with it the caching solver keeps the contract of the solver it
    wraps. *)
From Stdlib Require Import ZArith Lia Bool.
From stdpp Require Import base list numbers option.
From S2P Require Import Prelude APInt Expr ExprCreate ExprSem ExprCompare ExprCreateCorrect ExprFactory Solver StagedSolver.
Open Scope Z_scope.

Section caching.
Context {A : APInt} {AR : Arrays}.
Context (ConstArrayOpt : bool).

Record CacheEntry : Type := MkEntry {
  entry_constraints : list expr;
  entry_query : expr;
}.

(* operator== on vectors of expressions *)
Fixpoint constraints_eqb (a b : list expr) : bool :=
  match a, b with
  | [], [] => true
  | x :: a', y :: b' => expr_eqb x y && constraints_eqb a' b'
  | _, _ => false
  end.

Definition entry_eqb (a b : CacheEntry) : bool :=
  constraints_eqb (entry_constraints a) (entry_constraints b) && expr_eqb (entry_query a) (entry_query b).

Definition cache_map : Type := list (CacheEntry * PartialValidity).

Fixpoint cache_find (ce : CacheEntry) (cache : cache_map) : option PartialValidity :=
  match cache with
  | [] => None
  | (k, pv) :: cache' => if entry_eqb k ce then Some pv else cache_find ce cache'
  end.

Definition cache_insert (ce : CacheEntry) (pv : PartialValidity) (cache : cache_map) : cache_map :=
  match cache_find ce cache with Some _ => cache | None => (ce, pv) :: cache end.

(* the canonical query, and whether it is the negation *)
Definition canonicalizeQuery (originalQuery : expr) : res (expr * bool) :=
  let* negatedQuery := createIsZero ConstArrayOpt originalQuery in
  if compare originalQuery negatedQuery <? 0 then Ok (originalQuery, false)
  else Ok (negatedQuery, true).

Definition negate_if (negationUsed : bool) (pv : PartialValidity) : res PartialValidity :=
  if negationUsed then negatePartialValidity pv else Ok pv.

Definition cacheLookup (query : Query) : state cache_map (option PartialValidity) := fun cache =>
  let* c := canonicalizeQuery (query_expr query) in
  match cache_find (MkEntry (constraints query) (fst c)) cache with
  | Some pv => let* r := negate_if (snd c) pv in Ok (Some r, cache)
  | None => Ok (None, cache)
  end.

Definition cacheInsert (query : Query) (result : PartialValidity) : state cache_map unit := fun cache =>
  let* c := canonicalizeQuery (query_expr query) in
  let* cachedResult := negate_if (snd c) result in
  Ok (tt, cache_insert (MkEntry (constraints query) (fst c)) cachedResult cache).

Context {S : Type} (solver : SolverImpl S).

Definition caching_computeValidity (query : Query) : state (S * cache_map) (option Validity) :=
  do* cached := on_snd (cacheLookup query) in
  match cached with
  | Some MustBeTrue => sret (Some ValidityTrue)
  | Some MustBeFalse => sret (Some ValidityFalse)
  | Some TrueOrFalse => sret (Some ValidityUnknown)
  | Some MayBeTrue =>
      do* tmp := on_fst (computeTruth solver query) in
      match tmp with
      | None => sret None
      | Some true => do* _ := on_snd (cacheInsert query MustBeTrue) in sret (Some ValidityTrue)
      | Some false => do* _ := on_snd (cacheInsert query TrueOrFalse) in sret (Some ValidityUnknown)
      end
  | Some MayBeFalse =>
      do* nq := slift (negateExpr ConstArrayOpt query) in
      do* tmp := on_fst (computeTruth solver nq) in
      match tmp with
      | None => sret None
      | Some true => do* _ := on_snd (cacheInsert query MustBeFalse) in sret (Some ValidityFalse)
      | Some false => do* _ := on_snd (cacheInsert query TrueOrFalse) in sret (Some ValidityUnknown)
      end
  | Some PVNone => slift AssertFail (* unreachable *)
  | None =>
      do* r := on_fst (computeValidity solver query) in
      match r with
      | None => sret None
      | Some result =>
          let cachedResult := match result with
            | ValidityTrue => MustBeTrue
            | ValidityFalse => MustBeFalse
            | ValidityUnknown => TrueOrFalse
            end in
          do* _ := on_snd (cacheInsert query cachedResult) in sret (Some result)
      end
  end.

(* cache miss, or a hit of MayBeTrue *)
Definition truth_miss (query : Query) (cacheHit : bool) : state (S * cache_map) (option bool) :=
  do* r := on_fst (computeTruth solver query) in
  match r with
  | None => sret None
  | Some isValid =>
      let cachedResult :=
        if isValid then MustBeTrue else if cacheHit then TrueOrFalse else MayBeFalse in
      do* _ := on_snd (cacheInsert query cachedResult) in sret (Some isValid)
  end.

Definition caching_computeTruth (query : Query) : state (S * cache_map) (option bool) :=
  do* cached := on_snd (cacheLookup query) in
  match cached with
  | Some MayBeTrue => truth_miss query true
  | Some pv => sret (Some (bool_decide (pv = MustBeTrue)))
  | None => truth_miss query false
  end.

Definition CachingSolver : SolverImpl (S * cache_map) := {|
  computeTruth := caching_computeTruth;
  computeValidity := caching_computeValidity;
  computeValue query := on_fst (computeValue solver query);
  computeInitialValues query objects := on_fst (computeInitialValues solver query objects);
|}.

End caching.

(** ** Correctness *)
Section correct.
Context {A : APInt} {L : APIntLaws A} {AR : Arrays}.
Context (opt checked : bool).
Context (Hopt : opt = true -> checked = true).
Context {SC : Scope opt checked}.

Notation bool_query := (bool_query checked).
Notation query_ok := (query_ok checked).
Notation pv_spec := (pv_spec checked).

Definition key_query (ce : CacheEntry) : Query := MkQuery (entry_constraints ce) (entry_query ce).

(** Every cached result is known and true of its key. *)
Definition cache_ok (cache : cache_map) : Prop :=
  Forall (fun p => bool_query (key_query (fst p)) /\ pv_spec (key_query (fst p)) (snd p) /\ snd p <> PVNone) cache.

Lemma constraints_eqb_sat ρ a b :
  Forall (fun c => wt c /\ getWidth c = 1) a -> Forall (fun c => wt c /\ getWidth c = 1) b ->
  constraints_eqb a b = true -> sat checked ρ a <-> sat checked ρ b.
Proof.
  revert b. induction a as [|x a IH]; intros [|y b] Ha Hb H; try done.
  apply Forall_cons_iff in Ha as [[Hx _] Ha]. apply Forall_cons_iff in Hb as [[Hy _] Hb].
  cbn in H. apply andb_prop in H as [Hxy H]. destruct (expr_eqb_sound x y Hx Hy Hxy) as [_ Hd].
  unfold sat in *. rewrite !Forall_cons_iff, Hd. by rewrite IH.
Qed.

(** Equal keys have the same partial validities. *)
Lemma entry_eqb_pv k ce pv :
  query_ok (key_query k) -> query_ok (key_query ce) -> entry_eqb k ce = true ->
  pv_spec (key_query k) pv -> pv_spec (key_query ce) pv.
Proof.
  intros ((Hcs & Hwt & _) & _) ((Hcs' & Hwt' & _) & _) H. apply andb_prop in H as [Hc He].
  destruct (expr_eqb_sound _ _ Hwt Hwt' He) as [_ Hd]. cbn in *.
  assert (forall ρ, sat checked ρ (entry_constraints k) <-> sat checked ρ (entry_constraints ce)) as Hsat
    by (intros ρ; by apply constraints_eqb_sat).
  assert (forall v, forced checked (key_query k) v -> forced checked (key_query ce) v) as Hf.
  { intros v Hf ρ Hρ. cbn in *. rewrite <- Hd. by apply Hf, Hsat. }
  assert (forall v, feasible checked (key_query k) v -> feasible checked (key_query ce) v) as Hs.
  { intros v (ρ & Hρ & Hv). exists ρ. cbn in *. rewrite <- Hd, <- Hsat. done. }
  destruct pv; cbn; try tauto; auto. intros [? ?]; auto.
Qed.

(** The canonical form of a query, and how to read a result about it. *)
Lemma canonicalizeQuery_ok q :
  bool_query q -> exists c n, canonicalizeQuery opt (query_expr q) = Ok (c, n) /\
    bool_query (MkQuery (constraints q) c) /\
    forall pv pv', negate_if n pv = Ok pv' -> pv_spec (MkQuery (constraints q) c) pv <-> pv_spec q pv'.
Proof.
  intros Hq. destruct (negateExpr_ok opt checked Hopt q (proj1 Hq)) as (nq & En & Hnq & Hnc & Hnd).
  unfold negateExpr in En. apply res_bind_inv in En as (n & En & [= <-]).
  unfold canonicalizeQuery. rewrite En. cbn [res_bind]. destruct (compare _ _ <? 0).
  - exists (query_expr q), false. split; [done|]. destruct q as [cs e]. split; [done|].
    by intros pv pv' [= ->].
  - exists n, true. split; [done|]. split; [done|]. intros pv pv' E.
    by apply (negate_pv_ok opt checked q (withExpr q n)); [apply bool_query_wf|..].
Qed.

Lemma negate_if_total n pv : pv <> PVNone -> exists pv', negate_if n pv = Ok pv' /\ pv' <> PVNone.
Proof. destruct n, pv; cbn; intros; try done; eexists; split; done. Qed.

Lemma negate_if_involutive n pv pv' : negate_if n pv = Ok pv' -> negate_if n pv' = Ok pv.
Proof. destruct n, pv; cbn; try discriminate; intros [= <-]; done. Qed.

Lemma cache_find_ok ce cache pv :
  bool_query (key_query ce) -> cache_ok cache -> cache_find ce cache = Some pv ->
  pv_spec (key_query ce) pv /\ pv <> PVNone.
Proof.
  intros Hce. induction cache as [|[k pv'] cache IH]; intros Hok Hf; [done|].
  apply Forall_cons_iff in Hok as [(Hk & Hpv & Hn) Hok]. cbn in *.
  destruct (entry_eqb k ce) eqn:E; [|by apply IH]. injection Hf as <-.
  split; [|done]. apply (entry_eqb_pv k ce); [apply Hk|apply Hce|done..].
Qed.

Lemma cacheLookup_ok q :
  bool_query q ->
  sholds cache_ok (cacheLookup opt q) (fun r => forall pv, r = Some pv -> pv_spec q pv /\ pv <> PVNone).
Proof.
  intros Hq cache Hok. destruct (canonicalizeQuery_ok q Hq) as (c & n & E & Hc & Hpv).
  unfold cacheLookup. rewrite E. cbn [res_bind fst snd].
  destruct (cache_find _ cache) as [pv|] eqn:Ef; [|by exists None, cache].
  destruct (cache_find_ok (MkEntry (constraints q) c) cache pv Hc Hok Ef) as [Hs Hn].
  destruct (negate_if_total n pv Hn) as (pv' & E' & Hn'). rewrite E'. exists (Some pv'), cache.
  split; [done|]. split; [done|]. intros ? [= <-]. split; [|done]. by apply (Hpv pv pv' E').
Qed.

Lemma cacheInsert_ok q pv :
  bool_query q -> pv_spec q pv -> pv <> PVNone ->
  sholds cache_ok (cacheInsert opt q pv) (fun _ => True).
Proof.
  intros Hq Hs Hn cache Hok. destruct (canonicalizeQuery_ok q Hq) as (c & n & E & Hc & Hpv).
  unfold cacheInsert. rewrite E. cbn [res_bind fst snd].
  destruct (negate_if_total n pv Hn) as (pv' & E' & Hn'). rewrite E'. cbn [res_bind].
  eexists tt, _. split; [done|]. split; [|done]. unfold cache_insert.
  destruct (cache_find _ cache); [done|]. constructor; [|done]. split; [done|]. split; [|done].
  apply (Hpv pv' pv); [by apply negate_if_involutive|done].
Qed.

Context {S : Type} (solver : SolverImpl S) (Inv : S -> Prop) {contract : SolverContract checked solver Inv}.

Notation caching_inv := (fun s => Inv (fst s) /\ cache_ok (snd s)).

(** Recording a result and returning it. *)
Lemma insert_then_ok {T} q pv (r : T) (Q : T -> Prop) :
  bool_query q -> pv_spec q pv -> pv <> PVNone -> Q r ->
  sholds caching_inv (do* _ := on_snd (cacheInsert opt q pv) in sret r) Q.
Proof.
  intros. eapply sholds_bind; [by apply sholds_on_snd, cacheInsert_ok|]. intros _ _. by apply sholds_ret.
Qed.

Lemma caching_computeValidity_ok q :
  bool_query q ->
  sholds caching_inv (caching_computeValidity opt solver q) (fun r => forall v, r = Some v -> validity_spec checked q v).
Proof.
  intros Hq. unfold caching_computeValidity.
  eapply sholds_bind; [by apply sholds_on_snd, cacheLookup_ok|]. intros [pv|] Hpv.
  - destruct (Hpv pv eq_refl) as [Hs Hn]. clear Hpv.
    destruct pv; try (by apply sholds_ret; intros v [= <-]); try done.
    + eapply sholds_bind; [by apply sholds_on_fst, computeTruth_ok|]. intros [b|] Hb; [|by apply sholds_ret].
      specialize (Hb b eq_refl). destruct b; by apply insert_then_ok; try done; intros v [= <-].
    + destruct (negateExpr_ok opt checked Hopt q (proj1 Hq)) as (nq & En & Hnq & Hnc & Hnd).
      destruct (negate_forced opt checked q nq (bool_query_wf opt checked q Hq) Hnc Hnd) as (H1 & H2 & H3 & H4).
      eapply (sholds_bind _ _ (fun x => x = nq)); [apply sholds_lift; by exists nq|]. intros ? ->.
      eapply sholds_bind; [by apply sholds_on_fst, computeTruth_ok|]. intros [b|] Hb; [|by apply sholds_ret].
      specialize (Hb b eq_refl). cbn in Hs. destruct b; (apply H1 in Hb || apply H3 in Hb);
        by apply insert_then_ok; try done; intros v [= <-].
  - eapply sholds_bind; [by apply sholds_on_fst, computeValidity_ok|]. intros [v|] Hv; [|by apply sholds_ret].
    specialize (Hv v eq_refl). by destruct v; apply insert_then_ok; try done; intros ? [= <-].
Qed.

Lemma truth_miss_ok q (hit : bool) :
  bool_query q -> (hit = true -> feasible checked q 1) ->
  sholds caching_inv (truth_miss opt solver q hit)
    (fun r => forall b, r = Some b -> if b then forced checked q 1 else feasible checked q 0).
Proof.
  intros Hq Hhit. unfold truth_miss.
  eapply sholds_bind; [by apply sholds_on_fst, computeTruth_ok|]. intros [b|] Hb; [|by apply sholds_ret].
  specialize (Hb b eq_refl). apply insert_then_ok; [done|by destruct b, hit; cbn; auto|by destruct b, hit|].
  by intros ? [= <-].
Qed.

Lemma caching_computeTruth_ok q :
  bool_query q ->
  sholds caching_inv (caching_computeTruth opt solver q)
    (fun r => forall b, r = Some b -> if b then forced checked q 1 else feasible checked q 0).
Proof.
  intros Hq. unfold caching_computeTruth.
  eapply sholds_bind; [by apply sholds_on_snd, cacheLookup_ok|]. intros [pv|] Hpv; [|by apply truth_miss_ok].
  destruct (Hpv pv eq_refl) as [Hs Hn]. destruct pv; try (by apply truth_miss_ok); try done;
    apply sholds_ret; intros b [= <-]; cbn; cbn in Hs; try done; try apply Hs.
  by eapply forced_feasible; [apply Hq|].
Qed.

#[export] Instance CachingSolver_contract : SolverContract checked (CachingSolver opt solver) caching_inv.
Proof.
  split.
  - apply caching_computeTruth_ok.
  - apply caching_computeValidity_ok.
  - intros q Hq. by apply sholds_on_fst, computeValue_ok.
  - intros q objects Hq Hr Ho. by apply sholds_on_fst, computeInitialValues_ok.
Qed.

(** A second insertion under the same canonical key is lost. *)
Lemma cacheInsert_lost q pv pv' cache r :
  pv <> PVNone -> cacheLookup opt q cache = Ok (Some pv', r) ->
  exists u, cacheInsert opt q pv cache = Ok (u, cache).
Proof.
  intros Hn H. unfold cacheLookup in H. unfold cacheInsert.
  destruct (canonicalizeQuery opt (query_expr q)) as [[c n]| |]; try done. cbn [res_bind fst snd] in *.
  destruct (negate_if_total n pv Hn) as (pv'' & -> & _). cbn [res_bind].
  exists tt. unfold cache_insert. by destruct (cache_find _ cache).
Qed.

End correct.

(** ** Properties *)

(** C8. The query cache is transparent: over any solver that keeps the
    contract, [CachingSolver] keeps it too; its invariant is that every
    cached partial validity is true of the constraints and query of its key,
    across canonicalization and negation of the query. *)
Theorem caching_solver_refines `{A : APInt} {L : APIntLaws A} {AR : Arrays} (opt checked : bool)
    {SC : Scope opt checked} {S} (solver : SolverImpl S) (Inv : S -> Prop) :
  (opt = true -> checked = true) -> SolverContract checked solver Inv ->
  SolverContract checked (CachingSolver opt solver) (fun s => Inv (fst s) /\ cache_ok opt checked (snd s)).
Proof. intros. by apply CachingSolver_contract. Qed.

(** A cached result is never strengthened: when a lookup of the query
    hits, [cacheInsert] of a more precise result leaves the cache as it is,
    so a [MayBeTrue] or [MayBeFalse] entry asks the solver again on every
    [computeValidity]. *)
Theorem cached_result_never_upgraded `{A : APInt} {L : APIntLaws A} {AR : Arrays} (opt : bool)
    (q : Query) (pv pv' : PartialValidity) (cache cache' : cache_map) :
  pv <> PVNone -> cacheLookup opt q cache = Ok (Some pv', cache') ->
  exists u, cacheInsert opt q pv cache = Ok (u, cache).
Proof. apply cacheInsert_lost. Qed.

(** ** Witnesses *)
Section witnesses.
#[local] Existing Instance Examples.arrays.
Import SolverExamples.

Lemma caching_solver_refines_witness :
  SolverContract false (CachingSolver false sample_solver) (fun s => True /\ cache_ok false false (snd s)).
Proof.
  apply (caching_solver_refines false false sample_solver (fun _ => True)); [done|exact sample_contract].
Defined.

Definition cached_small : cache_map :=
  match caching_computeTruth false sample_solver sample_query (tt, []) with
  | Ok (_, (_, cache)) => cache
  | _ => []
  end.

Lemma cached_result_never_upgraded_witness :
  cacheLookup false sample_query cached_small = Ok (Some MayBeFalse, cached_small) /\
  exists u, cacheInsert false sample_query TrueOrFalse cached_small = Ok (u, cached_small).
Proof.
  assert (cacheLookup false sample_query cached_small = Ok (Some MayBeFalse, cached_small)) as E
    by reflexivity.
  split; [exact E|].
  exact (cached_result_never_upgraded false sample_query TrueOrFalse MayBeFalse cached_small cached_small
    ltac:(discriminate) E).
Defined.
End witnesses.
