(* ===== verification/MapOfSets.v ===== *)
(** The map from sets to values of klee/include/klee/Internal/ADT/MapOfSets.h,
    the index of the counterexample cache: a trie over the elements of a set in
    increasing order.

    - A [std::set] is the strictly increasing list of its elements; a
      [std::map<K, Node>] is a [Forest] in increasing order of keys.
    - [ltb] is the order of the keys, [key_eqb] their equality, [default] the value [V()].
    - A pointer to a value is the value, a null pointer [None].
    - A [std::map] iterator of the stack of [MapOfSets::iterator] is the rest
      of the forest from its position on. *)
From Stdlib Require Import ZArith Lia Bool Sorting.Sorted.
From stdpp Require Import base list numbers option sorting sets.
From S2P Require Import Prelude.

(** [operator==] of the keys. *)
Class KeyEq (K : Type) : Type := key_eqb : K -> K -> bool.

Section trie.
Context {K V : Type} {keys : KeyEq K} (ltb : K -> K -> bool) (default : V).

Inductive Node : Type :=
| MkNode (value : V) (isEndOfSet : bool) (children : Forest)
with Forest : Type :=
| FNil
| FCons (key : K) (child : Node) (rest : Forest).

Definition value (n : Node) : V := match n with MkNode v _ _ => v end.
Definition isEndOfSet (n : Node) : bool := match n with MkNode _ b _ => b end.
Definition children (n : Node) : Forest := match n with MkNode _ _ f => f end.

Definition new_node : Node := MkNode default false FNil.

(** ** std::set and std::map *)

(* set.insert *)
Fixpoint set_insert (k : K) (s : list K) : list K :=
  match s with
  | [] => [k]
  | x :: s' => if ltb k x then k :: s else if key_eqb k x then s else x :: set_insert k s'
  end.

(* children.find *)
Fixpoint find_child (k : K) (f : Forest) : option Node :=
  match f with
  | FNil => None
  | FCons k' c rest => if key_eqb k k' then Some c else find_child k rest
  end.

(* children.insert(std::make_pair(k, Node())).first->second, changed by [g] *)
Fixpoint at_child (k : K) (g : Node -> Node) (f : Forest) : Forest :=
  match f with
  | FNil => FCons k (g new_node) FNil
  | FCons k' c rest =>
      if ltb k k' then FCons k (g new_node) f
      else if key_eqb k k' then FCons k' (g c) rest
      else FCons k' c (at_child k g rest)
  end.

(** ** MapOfSets *)

(* the loop of insert, over the elements of the set *)
Fixpoint insert (set : list K) (v : V) (n : Node) : Node :=
  match set with
  | [] => MkNode v true (children n)
  | k :: set => MkNode (value n) (isEndOfSet n) (at_child k (insert set v) (children n))
  end.

Fixpoint lookup (set : list K) (n : Node) : option V :=
  match set with
  | [] => if isEndOfSet n then Some (value n) else None
  | k :: set => match find_child k (children n) with None => None | Some c => lookup set c end
  end.

Definition clear (n : Node) : Node := MkNode default false FNil.

(* resultsOut.push_back(std::make_pair(accum, n->value)) *)
Definition emit (n : Node) (accum : list K) : list (list K * V) :=
  if isEndOfSet n then [(accum, value n)] else [].

(* the loop of findSubsets *)
Fixpoint findSubsets_loop (n : Node) (accum set : list K) : list (list K * V) :=
  match set with
  | [] => []
  | elt :: set =>
      match find_child elt (children n) with
      | None => []
      | Some c => let nacc := set_insert elt accum in emit c nacc ++ findSubsets_loop c nacc set
      end ++ findSubsets_loop n accum set
  end.

Definition findSubsets (n : Node) (accum set : list K) : list (list K * V) :=
  emit n accum ++ findSubsets_loop n accum set.

Definition subsets (set : list K) (root : Node) : list (list K * V) := findSubsets root [] set.

Fixpoint findSupersets (n : Node) (accum set : list K) : list (list K * V) :=
  match n with
  | MkNode v isEnd f =>
      match set with
      | [] => (if isEnd then [(accum, v)] else []) ++ findSupersets_all f accum
      | elt :: next => findSupersets_from f accum elt next
      end
  end
(* the loop when begin == end *)
with findSupersets_all (f : Forest) (accum : list K) : list (list K * V) :=
  match f with
  | FNil => []
  | FCons k c rest => findSupersets c (set_insert k accum) [] ++ findSupersets_all rest accum
  end
(* the loop otherwise *)
with findSupersets_from (f : Forest) (accum : list K) (elt : K) (next : list K) : list (list K * V) :=
  match f with
  | FNil => []
  | FCons k c rest =>
      let nacc := set_insert k accum in
      if key_eqb elt k then findSupersets c nacc next ++ findSupersets_from rest accum elt next
      else if ltb k elt then findSupersets c nacc (elt :: next) ++ findSupersets_from rest accum elt next
      else []
  end.

Definition supersets (set : list K) (root : Node) : list (list K * V) := findSupersets root [] set.

Section predicate.
Context (p : V -> bool).

(* if (res) return res; and so on *)
Definition orelse (a b : option V) : option V := match a with Some v => Some v | None => b end.

Fixpoint drop_below (k : K) (set : list K) : list K :=
  match set with
  | [] => []
  | x :: set' => if ltb x k then drop_below k set' else set
  end.

Fixpoint findSubset (n : Node) (set : list K) : option V :=
  match n with
  | MkNode v isEnd f =>
      if isEnd && p v then Some v
      else match set with [] => None | _ => findSubset_loop f set end
  end
(* the outer loop, kbegin being at the first child of [f] *)
with findSubset_loop (f : Forest) (set : list K) : option V :=
  match f with
  | FNil => None
  | FCons k c rest =>
      match drop_below k set with
      | [] => None
      | x :: next =>
          if key_eqb x k then
            let res := findSubset c next in
            match res, next with
            | Some _, _ => res
            | None, [] => res
            | None, _ => findSubset_loop rest next
            end
          else findSubset_loop rest (x :: next)
      end
  end.

Fixpoint findSuperset (n : Node) (set : list K) : option V :=
  match n with
  | MkNode v isEnd f =>
      match set with
      | [] => if isEnd && p v then Some v else findSuperset_all f []
      | elt :: next => orelse (findSuperset_all f set) (findSuperset_at f elt next)
      end
  end
(* the loop over all children *)
with findSuperset_all (f : Forest) (set : list K) : option V :=
  match f with
  | FNil => None
  | FCons k c rest => orelse (findSuperset c set) (findSuperset_all rest set)
  end
(* the child of key elt *)
with findSuperset_at (f : Forest) (elt : K) (next : list K) : option V :=
  match f with
  | FNil => None
  | FCons k c rest => if key_eqb elt k then findSuperset c next else findSuperset_at rest elt next
  end.

End predicate.

(** ** The iterator *)

(* the stack, its top first *)
Record iterator : Type := Iterator { onEntry : bool; stack : list Forest }.

Definition it_end : iterator := Iterator false [].

(* the first loop of step: descends along the first children *)
Fixpoint descend (f : Forest) (st : list Forest) : iterator :=
  match f with
  | FNil => Iterator false st
  | FCons _ c _ => if isEndOfSet c then Iterator true (f :: st) else descend (children c) (f :: st)
  end.

(* the inner loop of the second one: while (!n->isEndOfSet) *)
Fixpoint descend_to_end (f : Forest) (st : list Forest) : res iterator :=
  match f with
  | FNil => AssertFail (* assert(!n->children.empty()), or the end of the map *)
  | FCons _ c _ =>
      if isEndOfSet c then Ok (Iterator true (f :: st)) else descend_to_end (children c) (f :: st)
  end.

(* the second loop *)
Fixpoint advance (st : list Forest) : res iterator :=
  match st with
  | [] => Ok (Iterator false [])
  | FNil :: _ => AssertFail
  | FCons _ _ FNil :: st' => advance st'
  | FCons _ _ rest :: st' => descend_to_end rest st'
  end.

Definition current (root : Node) (it : iterator) : res Node :=
  match stack it with
  | [] => Ok root
  | FCons _ c _ :: _ => Ok c
  | FNil :: _ => AssertFail
  end.

Definition step (root : Node) (it : iterator) : res iterator :=
  if onEntry it then
    let* n := current root it in
    let it := descend (children n) (stack it) in
    if onEntry it then Ok it else advance (stack it)
  else advance (stack it).

Definition begin_ (root : Node) : res iterator :=
  let it := Iterator true [] in if isEndOfSet root then Ok it else step root it.

Definition top_key (f : Forest) : list K := match f with FNil => [] | FCons k _ _ => [k] end.

(* operator*; the elements of the set are collected from the bottom of the stack *)
Definition deref (root : Node) (it : iterator) : res (list K * V) :=
  assert* onEntry it || negb (bool_decide (length (stack it) = 0)) in
  let* n := current root it in
  Ok (foldl (fun s f => foldr set_insert s (top_key f)) [] (rev (stack it)), value n).

End trie.

(** * Specification *)

#[export] Instance eq_keys {K} `{EqDecision K} : KeyEq K | 100 := fun x y => bool_decide (x = y).

Lemma key_eqb_spec {K} `{EqDecision K} (x y : K) : reflect (x = y) (key_eqb x y).
Proof. apply bool_decide_reflect. Qed.


(** The sets of the map with their values, in the order of the trie. *)
Section spec.
Context {K V : Type}.

Fixpoint contents (n : Node (K:=K) (V:=V)) : list (list K * V) :=
  match n with
  | MkNode v isEnd f => (if isEnd then [([], v)] else []) ++ forest_contents f
  end
with forest_contents (f : Forest) : list (list K * V) :=
  match f with
  | FNil => []
  | FCons k c rest => map (fun e => (k :: fst e, snd e)) (contents c) ++ forest_contents rest
  end.

(** A node below another holds a set or leads to one. *)
Definition useful (n : Node (K:=K) (V:=V)) : Prop := isEndOfSet n = true \/ children n <> FNil.

Context (ltb : K -> K -> bool).

(** [k] comes after the elements on the path to the node. *)
Definition above (lo : option K) (k : K) : Prop :=
  match lo with None => True | Some k0 => ltb k0 k = true end.

Fixpoint wf (lo : option K) (n : Node (K:=K) (V:=V)) : Prop :=
  match n with MkNode _ _ f => wf_forest lo f end
with wf_forest (lo : option K) (f : Forest) : Prop :=
  match f with
  | FNil => True
  | FCons k c rest => above lo k /\ wf (Some k) c /\ useful c /\ wf_forest (Some k) rest
  end.

(** A set as its increasing list of elements, all after [lo]. *)
Fixpoint ordered (lo : option K) (s : list K) : Prop :=
  match s with [] => True | k :: s => above lo k /\ ordered (Some k) s end.

End spec.

(** [a] is a subset of [b]. *)
Definition subsetb {K} `{EqDecision K} (a b : list K) : bool := forallb (fun x => bool_decide (x ∈ b)) a.
#[local] Arguments subsetb : simpl never.

Scheme Node_mut := Induction for Node Sort Prop
with Forest_mut := Induction for Forest Sort Prop.
Combined Scheme trie_ind from Node_mut, Forest_mut.

(** ** Soundness for any equality of the keys

    What holds of the operations whatever [operator<] and [operator==] are:
    nothing is found that was not inserted. *)
Section sound.
Context {K V : Type} {keys : KeyEq K} (ltb : K -> K -> bool).
#[local] Notation Node := (Node (K:=K) (V:=V)).
#[local] Notation Forest := (Forest (K:=K) (V:=V)).

(** The same key for the map. *)
Definition same_key (x y : K) : Prop := x = y \/ key_eqb x y = true.

Lemma find_child_contents k (f : Forest) c e :
  find_child k f = Some c -> e ∈ contents c ->
  exists k', same_key k k' /\ (k' :: fst e, snd e) ∈ forest_contents f.
Proof.
  induction f as [|k' c' rest IH]; [done|]. cbn [find_child forest_contents]. intros H He.
  destruct (key_eqb k k') eqn:E.
  - injection H as ->. exists k'. split; [by right|]. apply elem_of_app. left. apply list_elem_of_fmap. by exists e.
  - destruct (IH H He) as (k'' & ? & ?). exists k''. split; [done|]. apply elem_of_app. by right.
Qed.

Lemma lookup_sound set : forall (n : Node) v,
  lookup set n = Some v -> exists s, (s, v) ∈ contents n /\ Forall2 same_key set s.
Proof.
  induction set as [|k set IH]; intros [v0 b f] v H; cbn in H.
  - exists []. destruct b; [|done]. injection H as ->. split; [cbn; by left|constructor].
  - destruct (find_child k f) as [c|] eqn:E; [|done]. destruct (IH c v H) as (s & Hs & Hk).
    destruct (find_child_contents k f c (s, v) E Hs) as (k' & Hkk & Hin). exists (k' :: s).
    split; [cbn; apply elem_of_app; by right|by constructor].
Qed.

(** The entries of a child changed by [g]. *)
Lemma at_child_contents default k g e (f : Forest) :
  e ∈ forest_contents (at_child ltb default k g f) ->
  e ∈ forest_contents f \/
  exists k' c e', same_key k k' /\ e' ∈ contents (g c) /\ e = (k' :: fst e', snd e') /\
    (c = new_node default \/ forall e, e ∈ contents c -> (k' :: fst e, snd e) ∈ forest_contents f).
Proof.
  assert (forall k' c rest (e : list K * V), e ∈ forest_contents (FCons k' c rest) <->
    (exists e', e = (k' :: fst e', snd e') /\ e' ∈ contents c) \/ e ∈ forest_contents rest) as Hcons.
  { intros. cbn. by rewrite elem_of_app, list_elem_of_fmap. }
  induction f as [|k' c' rest IH]; cbn [at_child]; rewrite ?Hcons.
  - intros [(e' & -> & He')|H]; [|by left]. right. exists k, (new_node default), e'. split_and!; auto. by left.
  - destruct (ltb k k'); [|destruct (key_eqb k k') eqn:E]; rewrite ?Hcons.
    + intros [(e' & -> & He')|H]; [|auto]. right. exists k, (new_node default), e'. split_and!; auto. by left.
    + intros [(e' & -> & He')|H]; [|auto]. right. exists k', c', e'. split_and!; [by right|done|done|].
      right. intros e He. apply Hcons. eauto.
    + intros [H|H]; [auto|]. destruct (IH H) as [?|(k'' & c & e' & ? & ? & ? & Hc)]; [auto|].
      right. exists k'', c, e'. split_and!; try done. destruct Hc as [?|Hc]; [by left|]. right. intros. apply Hcons. auto.
Qed.

(** [insert] adds the set, up to the equality of the keys. *)
Lemma insert_contents default set v : forall (n : Node) e,
  e ∈ contents (insert ltb default set v n) ->
  e ∈ contents n \/ (snd e = v /\ Forall2 same_key set (fst e)).
Proof.
  induction set as [|k set IH]; intros [v0 b f] e He; cbn [insert contents children isEndOfSet value] in *.
  - apply elem_of_app in He as [He|He].
    + apply list_elem_of_singleton in He as ->. right. split; [done|constructor].
    + left. apply elem_of_app. by right.
  - rewrite elem_of_app in He |- *. destruct He as [He|He]; [auto|].
    destruct (at_child_contents _ _ _ _ _ He) as [?|(k' & c & e' & Hk & He' & -> & Hc)]; [auto|]. cbn [fst snd].
    destruct (IH c e' He') as [Hin|[? ?]]; [|right; split; [done|by constructor]].
    destruct Hc as [->|Hc]; [by apply not_elem_of_nil in Hin|]. left. right. by apply Hc.
Qed.

(** All the keys of the trie satisfy [P]. *)
Fixpoint all_keys (P : K -> Prop) (n : Node) : Prop :=
  match n with MkNode _ _ f => all_keys_forest P f end
with all_keys_forest (P : K -> Prop) (f : Forest) : Prop :=
  match f with FNil => True | FCons k c rest => P k /\ all_keys P c /\ all_keys_forest P rest end.

Lemma insert_all_keys (P : K -> Prop) default set v : forall (n : Node),
  Forall P set -> all_keys P n -> all_keys P (insert ltb default set v n).
Proof.
  induction set as [|k set IH]; intros [v0 b f] Hs Hn; [done|].
  apply Forall_cons_iff in Hs as [Hk Hs]. cbn in *.
  induction f as [|k' c rest IHf]; cbn [at_child]; [cbn; auto|].
  destruct (ltb k k'); [by split_and!; auto; apply IH|].
  destruct Hn as (? & ? & ?). destruct (key_eqb k k'); cbn; auto.
Qed.

Lemma all_keys_contents (P : K -> Prop) :
  (forall (n : Node), all_keys P n -> Forall (fun e => Forall P (fst e)) (contents n)) /\
  (forall (f : Forest), all_keys_forest P f -> Forall (fun e => Forall P (fst e)) (forest_contents f)).
Proof.
  apply trie_ind; cbn.
  - intros v b f IH Hf. apply Forall_app. split; [destruct b; by repeat constructor|auto].
  - constructor.
  - intros k c IHc rest IHr (Hk & Hc & Hr). apply Forall_app. split; [|auto].
    apply Forall_map. eapply Forall_impl; [by apply IHc|]. cbn. auto.
Qed.

Lemma drop_below_incl k set : forall x, x ∈ drop_below ltb k set -> x ∈ set.
Proof.
  induction set as [|y set IH]; intros x; cbn; [done|]. destruct (ltb y k); [|done]. intros Hx.
  apply elem_of_cons. right. by apply IH.
Qed.

Context (p : V -> bool).

Lemma findSubset_loop_cons k c (rest : Forest) set :
  findSubset_loop ltb p (FCons k c rest) set =
    match drop_below ltb k set with
    | [] => None
    | x :: next =>
        if key_eqb x k then
          match findSubset ltb p c next, next with
          | Some v, _ => Some v
          | None, [] => None
          | None, _ => findSubset_loop ltb p rest next
          end
        else findSubset_loop ltb p rest (x :: next)
    end.
Proof.
  transitivity (match drop_below ltb k set with
    | [] => None
    | x :: next =>
        if key_eqb x k then
          let res := findSubset ltb p c next in
          match res, next with
          | Some _, _ => res
          | None, [] => res
          | None, _ => findSubset_loop ltb p rest next
          end
        else findSubset_loop ltb p rest (x :: next)
    end); [done|].
  destruct (drop_below ltb k set) as [|x next]; [done|]. destruct (key_eqb x k); [|done]. cbn zeta.
  by destruct (findSubset ltb p c next), next.
Qed.

(** What [findSubset] returns is accepted and stored under keys of the set. *)
Lemma findSubset_sound :
  (forall (n : Node) set v, findSubset ltb p n set = Some v ->
     p v = true /\ exists s, (s, v) ∈ contents n /\ Forall (fun y => exists x, x ∈ set /\ same_key x y) s) /\
  (forall (f : Forest) set v, findSubset_loop ltb p f set = Some v ->
     p v = true /\ exists s, (s, v) ∈ forest_contents f /\ Forall (fun y => exists x, x ∈ set /\ same_key x y) s).
Proof.
  apply trie_ind.
  - intros v0 b f IH set v H. cbn [findSubset] in H. destruct (b && p v0) eqn:E.
    + injection H as <-. apply andb_prop in E as [-> Hp]. split; [done|]. exists []. split; [cbn; by left|constructor].
    + destruct set as [|x set]; [done|]. destruct (IH _ _ H) as (Hp & s & Hs & Hf).
      split; [done|]. exists s. split; [|done]. cbn. apply elem_of_app. by right.
  - done.
  - intros k c IHc rest IHr set v H. rewrite findSubset_loop_cons in H.
    pose proof (drop_below_incl k set) as Hdrop. destruct (drop_below ltb k set) as [|x next]; [done|].
    assert (forall next', (forall y, y ∈ next' -> y ∈ set) -> findSubset_loop ltb p rest next' = Some v ->
      p v = true /\ exists s, (s, v) ∈ forest_contents (FCons k c rest) /\
        Forall (fun y => exists x, x ∈ set /\ same_key x y) s) as Hrest.
    { intros next' Hn H'. destruct (IHr _ _ H') as (Hp & s & Hs & Hf). split; [done|]. exists s. split.
      - cbn. apply elem_of_app. by right.
      - eapply Forall_impl; [exact Hf|]. cbn. intros y (z & ? & ?). exists z. auto. }
    assert (forall y, y ∈ next -> y ∈ set) as Hnext by (intros y Hy; apply Hdrop, elem_of_cons; by right).
    destruct (key_eqb x k) eqn:E; [|by apply (Hrest (x :: next))].
    destruct (findSubset ltb p c next) as [r|] eqn:Er.
    + assert (r = v) as -> by (destruct next; congruence).
      destruct (IHc _ _ Er) as (Hp & s & Hs & Hf). split; [done|]. exists (k :: s). split.
      * cbn. apply elem_of_app. left. apply list_elem_of_fmap. by exists (s, v).
      * constructor; [exists x; split; [apply Hdrop, elem_of_cons; by left|by right]|].
        eapply Forall_impl; [exact Hf|]. cbn. intros y (z & ? & ?). exists z. auto.
    + destruct next as [|y next]; [done|]. by apply (Hrest (y :: next)).
Qed.

Lemma findSuperset_node v b (f : Forest) set :
  findSuperset p (MkNode v b f) set =
    match set with
    | [] => if b && p v then Some v else findSuperset_all p f []
    | elt :: next => orelse (findSuperset_all p f set) (findSuperset_at p f elt next)
    end.
Proof. by destruct set. Qed.

Lemma findSuperset_all_cons k c (rest : Forest) set :
  findSuperset_all p (FCons k c rest) set = orelse (findSuperset p c set) (findSuperset_all p rest set).
Proof. done. Qed.

Lemma findSuperset_at_cons k c (rest : Forest) elt next :
  findSuperset_at p (FCons k c rest) elt next =
    if key_eqb elt k then findSuperset p c next else findSuperset_at p rest elt next.
Proof. done. Qed.

(** What [findSuperset] returns is accepted and stored under keys that
    include the set. *)
Lemma findSuperset_sound :
  (forall (n : Node) set v, findSuperset p n set = Some v ->
     p v = true /\ exists s, (s, v) ∈ contents n /\ Forall (fun x => exists y, y ∈ s /\ same_key x y) set) /\
  (forall (f : Forest),
     (forall set v, findSuperset_all p f set = Some v ->
        p v = true /\ exists s, (s, v) ∈ forest_contents f /\ Forall (fun x => exists y, y ∈ s /\ same_key x y) set) /\
     (forall elt next v, findSuperset_at p f elt next = Some v ->
        p v = true /\ exists s, (s, v) ∈ forest_contents f /\
          Forall (fun x => exists y, y ∈ s /\ same_key x y) (elt :: next))).
Proof.
  assert (forall k s (v : V) (c : Node) rest, (s, v) ∈ contents c -> (k :: s, v) ∈ forest_contents (FCons k c rest)) as Hin.
  { intros k s v c rest H. cbn. apply elem_of_app. left. apply list_elem_of_fmap. by exists (s, v). }
  assert (forall k (s set : list K), Forall (fun x => exists y, y ∈ s /\ same_key x y) set ->
    Forall (fun x => exists y, y ∈ k :: s /\ same_key x y) set) as Hmore.
  { intros k s set H. eapply Forall_impl; [exact H|]. cbn. intros x (y & ? & ?). exists y. split; [|done].
    apply elem_of_cons. by right. }
  apply trie_ind.
  - intros v0 b f [IHall IHat] set v H. rewrite findSuperset_node in H.
    assert (p v = true /\ (exists s, (s, v) ∈ forest_contents f /\ Forall (fun x => exists y, y ∈ s /\ same_key x y) set) ->
      p v = true /\ exists s, (s, v) ∈ contents (MkNode v0 b f) /\
        Forall (fun x => exists y, y ∈ s /\ same_key x y) set) as Hf.
    { intros (? & s & ? & ?). split; [done|]. exists s. split; [|done]. cbn. apply elem_of_app. by right. }
    destruct set as [|elt next].
    + destruct (b && p v0) eqn:E; [|by apply Hf, IHall]. injection H as <-. apply andb_prop in E as [-> ?].
      split; [done|]. exists []. split; [cbn; by left|constructor].
    + unfold orelse in H. destruct (findSuperset_all p f (elt :: next)) as [r|] eqn:E; [|by apply Hf, IHat].
      injection H as ->. by apply Hf, IHall.
  - done.
  - intros k c IHc rest [IHall IHat]. split.
    + intros set v H. rewrite findSuperset_all_cons in H. unfold orelse in H.
      destruct (findSuperset p c set) as [r|] eqn:E.
      * injection H as ->. destruct (IHc _ _ E) as (? & s & ? & ?). split; [done|]. exists (k :: s). auto.
      * destruct (IHall _ _ H) as (? & s & ? & ?). split; [done|]. exists s. split; [|done]. cbn. apply elem_of_app. by right.
    + intros elt next v H. rewrite findSuperset_at_cons in H. destruct (key_eqb elt k) eqn:E.
      * destruct (IHc _ _ H) as (? & s & ? & ?). split; [done|]. exists (k :: s). split; [auto|].
        constructor; [|auto]. exists k. split; [apply elem_of_cons; by left|by right].
      * destruct (IHat _ _ _ H) as (? & s & ? & ?). split; [done|]. exists s. split; [|done]. cbn. apply elem_of_app. by right.
Qed.

(** The elements of a set after an insertion. *)
Lemma set_insert_sound k s :
  (forall x, x ∈ set_insert ltb k s -> x = k \/ x ∈ s) /\
  (forall x, x ∈ k :: s -> exists y, y ∈ set_insert ltb k s /\ same_key x y).
Proof.
  assert (forall (x : K) (l : list K), x ∈ l -> exists y, y ∈ l /\ same_key x y) as Hself.
  { intros x l Hx. exists x. split; [done|by left]. }
  induction s as [|x s [IH1 IH2]]; cbn.
  - split; [intros y Hy; apply elem_of_cons in Hy; tauto|]. auto.
  - destruct (ltb k x); [split; [intros y Hy; apply elem_of_cons in Hy; tauto|auto]|].
    destruct (key_eqb k x) eqn:E.
    + split; [auto|]. intros y Hy. apply elem_of_cons in Hy as [->|Hy]; [|auto].
      exists x. split; [apply elem_of_cons; by left|by right].
    + split.
      * intros y [->|Hy]%elem_of_cons; [right; by left|]. destruct (IH1 y Hy); [by left|right; by right].
      * intros y Hy. assert (y = x \/ y ∈ k :: s) as [->|Hy'].
        { rewrite !elem_of_cons in Hy. rewrite elem_of_cons. tauto. }
        -- exists x. split; [by left|by left].
        -- destruct (IH2 y Hy') as (z & ? & ?). exists z. split; [by right|done].
Qed.

End sound.

(** ** Correctness over a total order *)
Section lemmas.
Context {K V : Type} `{EqDecision K} (ltb : K -> K -> bool) {order : StrictTotalOrder ltb}.
#[local] Notation Node := (Node (K:=K) (V:=V)).
#[local] Notation Forest := (Forest (K:=K) (V:=V)).
#[local] Notation above := (above ltb).
#[local] Notation wf := (wf ltb).
#[local] Notation wf_forest := (wf_forest ltb).
#[local] Notation ordered := (ordered ltb).

Lemma ltb_neq a b : ltb a b = true -> a <> b.
Proof. intros H ->. by rewrite (cmp_irrefl (CMP:=ltb)) in H. Qed.

Lemma ltb_asym a b : ltb a b = true -> ltb b a = false.
Proof.
  intros H. apply not_true_is_false. intros H'. pose proof (cmp_trans (CMP:=ltb) _ _ _ H H') as C.
  by rewrite (cmp_irrefl (CMP:=ltb)) in C.
Qed.

Lemma above_trans lo k k' : above lo k -> ltb k k' = true -> above lo k'.
Proof. destruct lo as [k0|]; cbn; [|done]. intros H H'. by apply (cmp_trans (CMP:=ltb) _ k). Qed.

Lemma wf_forest_weaken lo k (f : Forest) : above lo k -> wf_forest (Some k) f -> wf_forest lo f.
Proof.
  intros Hk. destruct f as [|k' c rest]; cbn; [done|]. intros (Hk' & H). split; [|done].
  by apply above_trans with k.
Qed.

Lemma ordered_weaken lo k s : above lo k -> ordered (Some k) s -> ordered lo s.
Proof. intros Hk. destruct s as [|k' s]; cbn; [done|]. intros (Hk' & H). split; [by apply above_trans with k|done]. Qed.

Lemma ordered_above lo s : ordered lo s -> Forall (above lo) s.
Proof.
  revert lo. induction s as [|k s IH]; intros lo; [constructor|]. intros [Hk Hs]. constructor; [done|].
  eapply Forall_impl; [by apply IH|]. intros x Hx. by apply above_trans with k.
Qed.

(** The sets of a node are increasing, and come after its path. *)
Lemma contents_ordered :
  (forall (n : Node) lo, wf lo n -> Forall (fun e => ordered lo (fst e)) (contents n)) /\
  (forall (f : Forest) lo, wf_forest lo f -> Forall (fun e => ordered lo (fst e)) (forest_contents f)).
Proof.
  apply trie_ind.
  - intros v b f IH lo Hf. cbn. apply Forall_app. split; [destruct b; by repeat constructor|by apply IH].
  - intros lo _. constructor.
  - intros k c IHc rest IHr lo (Hk & Hc & _ & Hr). cbn. apply Forall_app. split.
    + apply Forall_map. eapply Forall_impl; [by apply IHc|]. cbn. intros e He. done.
    + apply IHr. by apply wf_forest_weaken with k.
Qed.

Lemma forest_contents_nonempty lo (f : Forest) :
  wf_forest lo f -> Forall (fun e => exists k s, fst e = k :: s /\ above lo k /\ ordered (Some k) s) (forest_contents f).
Proof.
  revert lo. induction f as [|k c rest IH]; intros lo; [constructor|]. intros (Hk & Hc & _ & Hr). cbn.
  apply Forall_app. split.
  - apply Forall_map. eapply Forall_impl; [by apply (proj1 contents_ordered)|]. cbn. intros e He. by exists k, (fst e).
  - apply IH. by apply wf_forest_weaken with k.
Qed.

(** ** Lookup and insertion *)

(** A key before those of a forest is not in it. *)
Lemma find_child_before k x (f : Forest) : k = x \/ ltb k x = true -> wf_forest (Some x) f -> find_child k f = None.
Proof.
  revert x. induction f as [|k1 c1 r IH]; intros x Hx; [done|]. intros (Hk1 & _ & _ & Hr). cbn [find_child].
  assert (ltb k k1 = true) as Hlt by (destruct Hx as [->|Hx]; [done|by apply (cmp_trans (CMP:=ltb) _ x)]).
  destruct (key_eqb_spec k k1) as [->|_]; [by apply ltb_neq in Hlt|]. apply (IH k1); [by right|done].
Qed.

Section insertion.
Context (default : V).

Lemma find_at_child k k' g (f : Forest) lo :
  wf_forest lo f ->
  find_child k' (at_child ltb default k g f) =
    if key_eqb k' k then Some (g (from_option id (new_node default) (find_child k f))) else find_child k' f.
Proof.
  revert lo. induction f as [|k0 c rest IH]; intros lo Hf; cbn [at_child find_child].
  - by destruct (key_eqb_spec k' k).
  - destruct Hf as (Hk0 & _ & _ & Hr). destruct (ltb k k0) eqn:E.
    + cbn [find_child]. destruct (key_eqb_spec k' k); [|done]. f_equal. f_equal.
      assert (find_child k (FCons k0 c rest) = None) as E0; [|cbn [find_child] in E0; by rewrite E0].
      cbn [find_child]. destruct (key_eqb_spec k k0) as [->|_]; [by apply ltb_neq in E|].
      apply (find_child_before _ k0); [by right|done].
    + destruct (key_eqb_spec k k0) as [->|Hne]; cbn [find_child].
      * by destruct (key_eqb_spec k' k0).
      * rewrite (IH (Some k0) Hr). destruct (key_eqb_spec k' k0) as [->|]; [by destruct (key_eqb_spec k0 k)|done].
Qed.

Lemma wf_at_child k g (f : Forest) lo :
  wf_forest lo f -> above lo k ->
  (forall c, (wf (Some k) c) -> wf (Some k) (g c) /\ useful (g c)) ->
  wf_forest lo (at_child ltb default k g f).
Proof.
  intros Hf Hk Hg. revert lo Hf Hk. induction f as [|k0 c rest IH]; intros lo Hf Hk; cbn [at_child].
  - destruct (Hg (new_node default)) as [H1 H2]; [done|]. by split_and!.
  - destruct Hf as (Hk0 & Hc & Hu & Hr). destruct (ltb k k0) eqn:E.
    + destruct (Hg (new_node default)) as [H1 H2]; [done|]. by split_and!.
    + destruct (key_eqb_spec k k0) as [->|Hne].
      * destruct (Hg c Hc) as [H1 H2]. by split_and!.
      * split_and!; [done|done|done|]. apply IH; [done|]. cbn.
        destruct (ltb k0 k) eqn:E'; [done|]. exfalso. apply Hne. by apply cmp_total.
Qed.

Lemma insert_useful s v (n : Node) : useful (insert ltb default s v n).
Proof.
  destruct s as [|k s]; [by left|]. right. cbn. destruct (children n) as [|k0 c rest]; [done|]. cbn.
  destruct (ltb k k0); [done|]. by destruct (key_eqb_spec k k0).
Qed.

Lemma insert_wf s v lo (n : Node) : wf lo n -> ordered lo s -> wf lo (insert ltb default s v n).
Proof.
  revert lo n. induction s as [|k s IH]; intros lo [v0 b f] Hn Hs; cbn in *; [done|].
  destruct Hs as [Hk Hs]. apply wf_at_child; [done|done|]. intros c Hc. split; [by apply IH|apply insert_useful].
Qed.

Lemma lookup_new s : lookup s (new_node (K:=K) default) = None.
Proof. by destruct s. Qed.

Lemma wf_child lo k (f : Forest) c : wf_forest lo f -> find_child k f = Some c -> wf (Some k) c.
Proof.
  revert lo. induction f as [|k0 c0 rest IH]; intros lo; [done|]. intros (_ & Hc & _ & Hr). cbn [find_child].
  destruct (key_eqb_spec k k0) as [->|]; [by intros [= <-]|by apply (IH (Some k0))].
Qed.

Lemma lookup_insert s v s' lo (n : Node) :
  wf lo n -> lookup s' (insert ltb default s v n) = if decide (s' = s) then Some v else lookup s' n.
Proof.
  revert s' lo n. induction s as [|k s IH]; intros s' lo [v0 b f] Hn.
  - destruct s' as [|k' s']; cbn; [done|]. by destruct (decide _).
  - destruct s' as [|k' s']; cbn [insert lookup isEndOfSet value children]; [by destruct (decide _)|].
    rewrite (find_at_child _ _ _ _ lo Hn). destruct (key_eqb_spec k' k) as [->|Hne].
    + destruct (find_child k f) as [c|] eqn:E; cbn [from_option id].
      * rewrite (IH s' (Some k)) by (by eapply wf_child). destruct (decide (s' = s)) as [->|]; [by rewrite decide_True|].
        rewrite decide_False by congruence. done.
      * rewrite (IH s' (Some k)) by done. rewrite lookup_new.
        destruct (decide (s' = s)) as [->|]; [by rewrite decide_True|]. by rewrite decide_False by congruence.
    + rewrite decide_False by congruence. done.
Qed.

End insertion.

(** [lookup] agrees with the contents. *)
Lemma lookup_contents :
  (forall (n : Node) lo s v, wf lo n -> lookup s n = Some v <-> (s, v) ∈ contents n) /\
  (forall (f : Forest) lo s v, wf_forest lo f ->
     match s with [] => None | k :: s => match find_child k f with None => None | Some c => lookup s c end end = Some v
     <-> (s, v) ∈ forest_contents f).
Proof.
  apply trie_ind.
  - intros v0 b f IH lo s v Hf. cbn [contents]. rewrite elem_of_app, <- (IH lo) by done.
    destruct s as [|k s]; cbn [lookup isEndOfSet value children].
    + destruct b; [rewrite list_elem_of_singleton|rewrite elem_of_nil]; naive_solver.
    + destruct b; [rewrite list_elem_of_singleton|rewrite elem_of_nil]; naive_solver.
  - intros lo s v _. cbn. rewrite elem_of_nil. by destruct s.
  - intros k c IHc rest IHr lo s v (Hk & Hc & Hu & Hr). cbn [forest_contents find_child].
    rewrite elem_of_app, list_elem_of_fmap, <- (IHr (Some k)) by done.
    destruct s as [|k' s]; [naive_solver|]. destruct (key_eqb_spec k' k) as [->|Hne].
    + rewrite (IHc (Some k)) by done. split; [intros H; left; by exists (s, v)|].
      intros [([s' v'] & [= <- <-] & H)|H]; [done|]. exfalso.
      destruct (find_child k rest) as [c'|] eqn:E; [|done].
      rewrite (find_child_before k k rest) in E; [done|by left|done].
    + split; [intros H; by right|]. intros [([s' v'] & [= -> _] & _)|H]; done.
Qed.

(** ** Subsets and supersets *)

(** The results below a node, with the elements of its path in front. *)
Definition under (acc : list K) (l : list (list K * V)) : list (list K * V) :=
  map (fun e => (acc ++ fst e, snd e)) l.

Lemma under_app acc l1 l2 : under acc (l1 ++ l2) = under acc l1 ++ under acc l2.
Proof. apply map_app. Qed.

Lemma under_entry acc v l1 l2 : under acc ([([], v)] ++ l1) ++ l2 = (acc, v) :: under acc l1 ++ l2.
Proof. unfold under. cbn. by rewrite app_nil_r. Qed.

Lemma under_cons acc k l : under acc (map (fun e => (k :: fst e, snd e)) l) = under (acc ++ [k]) l.
Proof. unfold under. rewrite map_map. apply map_ext. intros [s v]. cbn. by rewrite <- app_assoc. Qed.

Lemma set_insert_last k acc : Forall (fun x => ltb x k = true) acc -> set_insert ltb k acc = acc ++ [k].
Proof.
  induction 1 as [|x acc Hx _ IH]; [done|]. cbn [set_insert app]. rewrite (ltb_asym _ _ Hx).
  destruct (key_eqb_spec k x) as [->|_]; [by apply ltb_neq in Hx|]. by rewrite IH.
Qed.

(** All elements of the path so far come before those of the subtree. *)
Definition path_before (acc : list K) (lo : option K) : Prop :=
  forall k, above lo k -> Forall (fun x => ltb x k = true) acc.

Lemma path_before_snoc acc lo k : path_before acc lo -> above lo k -> path_before (acc ++ [k]) (Some k).
Proof.
  intros H Hk k' Hk'. apply Forall_app. split; [|by constructor].
  eapply Forall_impl; [by apply (H k)|]. cbn. intros x Hx. by apply (cmp_trans (CMP:=ltb) _ k).
Qed.

Lemma path_before_weaken acc lo k : path_before acc lo -> above lo k -> path_before acc (Some k).
Proof. intros H Hk k' Hk'. apply H. by apply above_trans with k. Qed.

(** An element of an increasing set. *)
Lemma ordered_in lo k s : ordered lo (k :: s) -> forall x, x ∈ s -> ltb k x = true.
Proof. intros [_ Hs] x Hx. apply ordered_above in Hs. rewrite Forall_forall in Hs. by apply (Hs x). Qed.

Lemma not_in_above k s : ordered (Some k) s -> k ∉ s.
Proof.
  intros Hs Hk. apply ordered_above in Hs. rewrite Forall_forall in Hs. specialize (Hs _ Hk). by apply ltb_neq in Hs.
Qed.

Lemma subsetb_spec (a b : list K) : subsetb a b = true <-> a ⊆ b.
Proof.
  unfold subsetb. rewrite forallb_forall. split.
  - intros H x Hx. apply list_elem_of_In in Hx. specialize (H x Hx). by apply bool_decide_eq_true in H.
  - intros H x Hx. apply bool_decide_eq_true, H. by apply list_elem_of_In.
Qed.

Lemma subsetb_false (a b : list K) x : x ∈ a -> x ∉ b -> subsetb a b = false.
Proof. intros Ha Hb. apply not_true_is_false. rewrite subsetb_spec. set_solver. Qed.

Lemma subsetb_ext (a b a' b' : list K) : (a ⊆ b <-> a' ⊆ b') -> subsetb a b = subsetb a' b'.
Proof. intros H. apply eq_true_iff_eq. by rewrite !subsetb_spec. Qed.

Lemma filter_map {A B} (f : B -> bool) (g : A -> B) l :
  List.filter f (map g l) = map g (List.filter (fun x => f (g x)) l).
Proof. induction l as [|x l IH]; cbn; [done|]. destruct (f (g x)); cbn; by rewrite IH. Qed.

Lemma filter_false {A} (f : A -> bool) l : Forall (fun x => f x = false) l -> List.filter f l = [].
Proof. induction 1 as [|x l Hx _ IH]; cbn; [done|]. by rewrite Hx. Qed.

Lemma filter_ext_Forall {A} (f g : A -> bool) l : Forall (fun x => f x = g x) l -> List.filter f l = List.filter g l.
Proof. induction 1 as [|x l Hx _ IH]; cbn; [done|]. by rewrite Hx, IH. Qed.

Lemma contents_split (n : Node) : contents n = (if isEndOfSet n then [([], value n)] else []) ++ forest_contents (children n).
Proof. by destruct n. Qed.

Lemma forest_contents_cons k c (rest : Forest) :
  forest_contents (FCons k c rest) = map (fun e => (k :: fst e, snd e)) (contents c) ++ forest_contents rest.
Proof. done. Qed.

(** Whether a set that starts with [k] is a subset of [elt :: s]. *)
Lemma subset_skip k p elt s : k <> elt -> ordered (Some k) p -> ordered None (elt :: s) ->
  subsetb (k :: p) (elt :: s) = subsetb (k :: p) s.
Proof.
  intros Hne Hp Hs. destruct (ltb elt k) eqn:E.
  - apply subsetb_ext. assert (elt ∉ k :: p) as Hn; [|set_solver].
    apply not_elem_of_cons. split; [congruence|]. intros Hin. apply ordered_above in Hp. rewrite Forall_forall in Hp.
    specialize (Hp _ Hin). cbn in Hp. apply ltb_asym in E. congruence.
  - assert (ltb k elt = true) as E'.
    { destruct (ltb k elt) eqn:E'; [done|]. exfalso. apply Hne. by apply cmp_total. }
    assert (k ∉ elt :: s) as Hn.
    { apply not_elem_of_cons. split; [done|]. intros Hin. pose proof (ordered_in _ _ _ Hs _ Hin) as H.
      apply ltb_asym in H. congruence. }
    rewrite (subsetb_false _ (elt :: s) k), (subsetb_false _ s k); set_solver.
Qed.

(** The subsets of [elt :: s] in a forest: those through the child [elt], and
    the subsets of [s]. *)
Lemma forest_subsets (f : Forest) lo elt s :
  wf_forest lo f -> ordered None (elt :: s) ->
  List.filter (fun e => subsetb (fst e) (elt :: s)) (forest_contents f) =
    match find_child elt f with
    | None => []
    | Some c => map (fun e => (elt :: fst e, snd e)) (List.filter (fun e => subsetb (fst e) s) (contents c))
    end ++ List.filter (fun e => subsetb (fst e) s) (forest_contents f).
Proof.
  intros Hf Hs. pose proof (not_in_above _ _ (proj2 Hs)) as Hn. revert lo Hf.
  induction f as [|k c rest IH]; intros lo Hf; [done|]. destruct Hf as (Hk & Hc & Hu & Hr).
  rewrite forest_contents_cons. cbn [find_child]. rewrite !List.filter_app, !filter_map. cbn [fst].
  pose proof (proj1 contents_ordered c _ Hc) as Ho.
  destruct (key_eqb_spec elt k) as [->|Hne].
  - f_equal; [f_equal; apply filter_ext_Forall; eapply Forall_impl; [exact Ho|]|].
    + cbn. intros e He. apply subsetb_ext. pose proof (not_in_above _ _ He). set_solver.
    + rewrite (filter_false _ (contents c)) by (apply Forall_forall; intros e _; apply (subsetb_false _ _ k); set_solver).
      apply filter_ext_Forall. eapply Forall_impl; [by apply (forest_contents_nonempty _ _ Hr)|].
      cbn. intros e (k' & p & -> & Hk' & Hp). apply subset_skip; [|done|done].
      intros ->. by apply ltb_neq in Hk'.
  - rewrite (filter_ext_Forall _ (fun e => subsetb (k :: fst e) s) (contents c)).
    2:{ eapply Forall_impl; [exact Ho|]. cbn. intros e He. apply subset_skip; [congruence|done|done]. }
    rewrite (IH _ Hr), !app_assoc. f_equal. destruct (ltb elt k) eqn:E.
    + rewrite (find_child_before elt k) by (done || by right). by rewrite app_nil_r.
    + assert (k ∉ s) as Hks.
      { intros Hin. pose proof (ordered_in _ _ _ Hs _ Hin). congruence. }
      rewrite (filter_false _ (contents c)) by (apply Forall_forall; intros e _; apply (subsetb_false _ _ k); set_solver).
      cbn [map app]. by rewrite app_nil_r.
Qed.

Lemma wf_children lo (n : Node) : wf lo n -> wf_forest lo (children n).
Proof. by destruct n. Qed.

Lemma above_child lo k (f : Forest) c : wf_forest lo f -> find_child k f = Some c -> above lo k.
Proof.
  revert lo. induction f as [|k0 c0 rest IH]; intros lo; [done|]. intros (Hk & _ & _ & Hr). cbn [find_child].
  destruct (key_eqb_spec k k0) as [->|]; [done|]. intros E. apply above_trans with k0; [done|]. exact (IH (Some k0) Hr E).
Qed.

(* the empty set below the path *)
Lemma emit_ok (n : Node) acc set :
  emit n acc = under acc (List.filter (fun e => subsetb (fst e) set) (if isEndOfSet n then [([], value n)] else [])).
Proof.
  unfold emit. destruct (isEndOfSet n); [|done]. cbn [List.filter fst].
  change (subsetb [] set) with true. cbn. by rewrite app_nil_r.
Qed.

(** The loop of [findSubsets] finds the proper extensions of the path. *)
Lemma findSubsets_loop_ok set : forall (n : Node) acc lo lo',
  wf lo n -> path_before acc lo -> ordered lo' set ->
  findSubsets_loop ltb n acc set =
    under acc (List.filter (fun e => subsetb (fst e) set) (forest_contents (children n))).
Proof.
  induction set as [|elt set IH]; intros n acc lo lo' Hn Hacc Hs.
  - symmetry. cbn [findSubsets_loop]. rewrite (filter_false _ _); [done|].
    eapply Forall_impl; [exact (forest_contents_nonempty _ _ (wf_children _ _ Hn))|].
    cbn. intros e (k & p & -> & _). apply (subsetb_false _ _ k); set_solver.
  - cbn [findSubsets_loop]. destruct Hs as [Helt Hs].
    rewrite (forest_subsets _ lo _ _ (wf_children _ _ Hn) (conj I Hs)).
    rewrite under_app. f_equal; [|by apply (IH n acc lo (Some elt))].
    destruct (find_child elt (children n)) as [c|] eqn:E; [|done].
    pose proof (above_child _ _ _ _ (wf_children _ _ Hn) E) as Hab. pose proof (wf_child _ _ _ _ (wf_children _ _ Hn) E) as Hc.
    rewrite set_insert_last by (by apply Hacc). rewrite under_cons, contents_split, List.filter_app, under_app.
    rewrite (IH c (acc ++ [elt]) (Some elt) (Some elt)); [|done|by apply path_before_snoc with lo|done].
    f_equal. apply emit_ok.
Qed.

Lemma path_before_nil lo : path_before [] lo.
Proof. intros k _. constructor. Qed.

Lemma under_nil l : under [] l = l.
Proof. unfold under. cbn. rewrite <- (map_id l) at 2. apply map_ext. by intros []. Qed.

Lemma subsets_ok set (n : Node) :
  wf None n -> ordered None set -> subsets ltb set n = List.filter (fun e => subsetb (fst e) set) (contents n).
Proof.
  intros Hn Hs. unfold subsets, findSubsets. rewrite (findSubsets_loop_ok _ _ _ None None) by (done || apply path_before_nil).
  rewrite under_nil, contents_split, List.filter_app. f_equal. rewrite (emit_ok n [] set). apply under_nil.
Qed.

(** ** Supersets *)

Lemma superset_cons_eq k s p : ordered (Some k) s -> subsetb (k :: s) (k :: p) = subsetb s p.
Proof. intros Hs. apply subsetb_ext. pose proof (not_in_above _ _ Hs). set_solver. Qed.

Lemma superset_cons_lt k s p : ordered (Some k) s -> subsetb s (k :: p) = subsetb s p.
Proof. intros Hs. apply subsetb_ext. pose proof (not_in_above _ _ Hs). set_solver. Qed.

(** No set of a forest past [elt] contains it. *)
Lemma no_superset (f : Forest) k elt s :
  wf_forest (Some k) f -> elt = k \/ ltb elt k = true ->
  List.filter (fun e => subsetb (elt :: s) (fst e)) (forest_contents f) = [].
Proof.
  intros Hf Hk. apply filter_false. eapply Forall_impl; [exact (proj2 contents_ordered f _ Hf)|]. cbn. intros e He.
  apply (subsetb_false _ _ elt); [set_solver|]. apply ordered_above in He. rewrite Forall_forall in He.
  intros Hin. specialize (He _ Hin). cbn in He. destruct Hk as [->|Hk]; [by apply ltb_neq in He|].
  apply ltb_asym in Hk. congruence.
Qed.

Lemma findSupersets_node v b (f : Forest) acc set :
  findSupersets ltb (MkNode v b f) acc set =
    match set with
    | [] => (if b then [(acc, v)] else []) ++ findSupersets_all ltb f acc
    | elt :: next => findSupersets_from ltb f acc elt next
    end.
Proof. by destruct set. Qed.

Lemma findSupersets_all_cons k c (rest : Forest) acc :
  findSupersets_all ltb (FCons k c rest) acc =
    findSupersets ltb c (set_insert ltb k acc) [] ++ findSupersets_all ltb rest acc.
Proof. done. Qed.

Lemma findSupersets_from_cons k c (rest : Forest) acc elt next :
  findSupersets_from ltb (FCons k c rest) acc elt next =
    let nacc := set_insert ltb k acc in
    if key_eqb elt k then findSupersets ltb c nacc next ++ findSupersets_from ltb rest acc elt next
    else if ltb k elt then findSupersets ltb c nacc (elt :: next) ++ findSupersets_from ltb rest acc elt next
    else [].
Proof. done. Qed.

Lemma findSupersets_ok :
  (forall (n : Node) acc lo set, wf lo n -> path_before acc lo -> ordered None set ->
     findSupersets ltb n acc set = under acc (List.filter (fun e => subsetb set (fst e)) (contents n))) /\
  (forall (f : Forest) acc lo, wf_forest lo f -> path_before acc lo ->
     findSupersets_all ltb f acc = under acc (forest_contents f) /\
     forall elt next, ordered None (elt :: next) ->
       findSupersets_from ltb f acc elt next =
         under acc (List.filter (fun e => subsetb (elt :: next) (fst e)) (forest_contents f))).
Proof.
  assert (forall l : list (list K * V), List.filter (fun e => subsetb [] (fst e)) l = l) as Hall.
  { intros l. induction l as [|e l IH]; cbn; [done|]. by rewrite IH. }
  apply trie_ind.
  - intros v b f IH acc lo set Hf Hacc Hs. destruct (IH acc lo Hf Hacc) as [IHa IHf].
    rewrite findSupersets_node, contents_split. cbn [isEndOfSet value children]. destruct set as [|elt next].
    + rewrite Hall, under_app, IHa. f_equal. destruct b; [|done]. cbn. by rewrite app_nil_r.
    + rewrite List.filter_app, (IHf elt next Hs). by destruct b.
  - done.
  - intros k c IHc rest IHr acc lo (Hk & Hc & Hu & Hr) Hacc.
    pose proof (path_before_snoc _ _ _ Hacc Hk) as Hacc'. pose proof (path_before_weaken _ _ _ Hacc Hk) as Hacc2.
    destruct (IHr acc (Some k) Hr Hacc2) as [IHa IHf].
    rewrite forest_contents_cons, findSupersets_all_cons.
    pose proof (set_insert_last k acc (Hacc k Hk)) as Eacc. split.
    + rewrite Eacc. rewrite (IHc _ (Some k) []) by done. by rewrite IHa, under_app, under_cons, Hall.
    + intros elt next Hs. rewrite findSupersets_from_cons, Eacc. cbn zeta.
      rewrite List.filter_app, filter_map, under_app, under_cons. cbn [fst].
      destruct (key_eqb_spec elt k) as [->|Hne].
      * rewrite (IHc _ (Some k) next), IHf by (done || by eapply ordered_weaken; [|apply Hs]).
        f_equal. f_equal. apply filter_ext_Forall. eapply Forall_impl; [exact (proj1 contents_ordered c _ Hc)|].
        cbn. intros e He. symmetry. apply superset_cons_eq, Hs.
      * destruct (ltb k elt) eqn:E.
        -- rewrite (IHc _ (Some k) (elt :: next)), IHf by done. f_equal. f_equal. apply filter_ext_Forall.
           eapply Forall_impl; [exact (proj1 contents_ordered c _ Hc)|]. cbn. intros e He. symmetry.
           apply superset_cons_lt. split; [done|]. apply Hs.
        -- assert (ltb elt k = true) as E'.
           { destruct (ltb elt k) eqn:E'; [done|]. exfalso. apply Hne. by apply cmp_total. }
           rewrite (no_superset rest k) by (done || by right). rewrite app_nil_r.
           symmetry. rewrite filter_false; [done|]. eapply Forall_impl; [exact (proj1 contents_ordered c _ Hc)|].
           cbn. intros e He. apply (subsetb_false _ _ elt); [set_solver|]. apply not_elem_of_cons. split; [done|].
           intros Hin. apply ordered_above in He. rewrite Forall_forall in He. specialize (He _ Hin). cbn in He.
           apply ltb_asym in E'. congruence.
Qed.

Lemma supersets_ok set (n : Node) :
  wf None n -> ordered None set -> supersets ltb set n = List.filter (fun e => subsetb set (fst e)) (contents n).
Proof.
  intros Hn Hs. unfold supersets. rewrite (proj1 findSupersets_ok n [] None set Hn (path_before_nil _) Hs). apply under_nil.
Qed.

(** ** Searches with a predicate *)

Section predicate.
Context (p : V -> bool).

(** The first value that satisfies the predicate. *)
Definition first_value (l : list (list K * V)) : option V := snd <$> List.find (fun e => p (snd e)) l.

Lemma first_value_app l1 l2 : first_value (l1 ++ l2) = orelse (first_value l1) (first_value l2).
Proof. unfold first_value. induction l1 as [|e l1 IH]; cbn; [done|]. by destruct (p (snd e)). Qed.

Lemma first_value_map (g : list K -> list K) l : first_value (map (fun e => (g (fst e), snd e)) l) = first_value l.
Proof. unfold first_value. induction l as [|e l IH]; cbn; [done|]. by destruct (p (snd e)). Qed.

(** Elements before the keys of a forest play no part in its subsets. *)
Lemma drop_below_subset k set (e : list K) :
  Forall (fun x => x = k \/ ltb k x = true) e -> subsetb e (drop_below ltb k set) = subsetb e set.
Proof.
  intros He. induction set as [|x set IH]; [done|]. cbn [drop_below]. destruct (ltb x k) eqn:E; [|done].
  rewrite IH. apply subsetb_ext. assert (x ∉ e) as Hx; [|set_solver]. intros Hin. rewrite Forall_forall in He.
  destruct (He _ Hin) as [->|H]; [by apply ltb_neq in E|]. apply ltb_asym in H. congruence.
Qed.

Lemma drop_below_ordered k set lo : ordered lo set -> exists lo', ordered lo' (drop_below ltb k set).
Proof.
  revert lo. induction set as [|x set IH]; intros lo Hs; [by exists lo|]. cbn [drop_below].
  destruct (ltb x k); [|by exists lo]. destruct Hs as [_ Hs]. by apply (IH (Some x)).
Qed.

Lemma drop_below_head k set x next : drop_below ltb k set = x :: next -> ltb x k = false.
Proof. induction set as [|y set IH]; [done|]. cbn [drop_below]. destruct (ltb y k) eqn:E; [done|]. by intros [= -> _]. Qed.

(** All sets of a forest consist of its first key and larger ones. *)
Lemma forest_from k c (rest : Forest) lo :
  wf_forest lo (FCons k c rest) ->
  Forall (fun e => Forall (fun x => x = k \/ ltb k x = true) (fst e)) (forest_contents (FCons k c rest)).
Proof.
  intros (Hk & Hc & _ & Hr). rewrite forest_contents_cons. apply Forall_app. split.
  - apply Forall_map. eapply Forall_impl; [exact (proj1 contents_ordered c _ Hc)|]. cbn. intros e He.
    constructor; [by left|]. apply ordered_above in He. eapply Forall_impl; [exact He|]. cbn. by right.
  - eapply Forall_impl; [exact (proj2 contents_ordered rest _ Hr)|]. cbn. intros e He.
    apply ordered_above in He. eapply Forall_impl; [exact He|]. cbn. by right.
Qed.

Lemma findSubset_node v b (f : Forest) set :
  findSubset ltb p (MkNode v b f) set =
    if b && p v then Some v else match set with [] => None | _ => findSubset_loop ltb p f set end.
Proof. done. Qed.

Lemma no_subset_of_nil lo (f : Forest) : wf_forest lo f ->
  List.filter (fun e => subsetb (fst e) []) (forest_contents f) = [].
Proof.
  intros Hf. apply filter_false. eapply Forall_impl; [exact (forest_contents_nonempty _ _ Hf)|].
  cbn. intros e (k & s & -> & _). apply (subsetb_false _ _ k); set_solver.
Qed.

Lemma findSubset_ok :
  (forall (n : Node) lo lo' set, wf lo n -> ordered lo' set ->
     findSubset ltb p n set = first_value (List.filter (fun e => subsetb (fst e) set) (contents n))) /\
  (forall (f : Forest) lo lo' set, wf_forest lo f -> ordered lo' set ->
     findSubset_loop ltb p f set = first_value (List.filter (fun e => subsetb (fst e) set) (forest_contents f))).
Proof.
  apply trie_ind.
  - intros v b f IH lo lo' set Hf Hs. rewrite findSubset_node, contents_split, List.filter_app, first_value_app.
    cbn [isEndOfSet value children].
    assert (match set with [] => None | _ => findSubset_loop ltb p f set end =
            first_value (List.filter (fun e => subsetb (fst e) set) (forest_contents f))) as ->.
    { destruct set; [by rewrite (no_subset_of_nil lo)|by apply (IH lo lo')]. }
    destruct b; [|done]. cbn [List.filter fst andb]. change (subsetb [] set) with true. unfold first_value at 2.
    cbn. by destruct (p v).
  - done.
  - intros k c IHc rest IHr lo lo' set Hf Hs. pose proof Hf as (Hk & Hc & _ & Hr).
    rewrite findSubset_loop_cons. destruct (drop_below_ordered k set lo' Hs) as [lo2 Hd].
    rewrite (filter_ext_Forall _ (fun e => subsetb (fst e) (drop_below ltb k set))).
    2:{ eapply Forall_impl; [exact (forest_from _ _ _ _ Hf)|]. cbn beta. intros e He. by rewrite drop_below_subset. }
    destruct (drop_below ltb k set) as [|x next] eqn:Ed; [by rewrite (no_subset_of_nil lo)|].
    apply drop_below_head in Ed. assert (ordered None (x :: next)) as Hd' by (split; [done|apply Hd]).
    rewrite forest_contents_cons, List.filter_app, filter_map, first_value_app, (first_value_map (cons k)). cbn [fst].
    pose proof (proj1 contents_ordered c _ Hc) as Ho. destruct (key_eqb_spec x k) as [->|Hne].
    + rewrite (filter_ext_Forall _ (fun e => subsetb (fst e) next) (contents c)).
      2:{ eapply Forall_impl; [exact Ho|]. cbn beta. intros e He. apply subsetb_ext. pose proof (not_in_above _ _ He). set_solver. }
      rewrite (IHc (Some k) (Some k) next Hc (proj2 Hd)). destruct (first_value _); [done|]. cbn [orelse].
      rewrite (filter_ext_Forall _ (fun e => subsetb (fst e) next) (forest_contents rest)).
      2:{ eapply Forall_impl; [exact (forest_contents_nonempty _ _ Hr)|]. cbn beta.
          intros e (k' & s & -> & Hk' & He). apply subset_skip; [|done|done]. intros ->. by apply ltb_neq in Hk'. }
      destruct next; [by rewrite (no_subset_of_nil _ _ Hr)|]. apply (IHr (Some k) (Some k)); [done|apply Hd].
    + rewrite (filter_false _ (contents c)); [apply (IHr (Some k) lo2); done|].
      apply Forall_forall. intros e _. apply (subsetb_false _ _ k); [set_solver|]. apply not_elem_of_cons. split; [done|].
      intros Hin. pose proof (ordered_in _ _ _ Hd' _ Hin). congruence.
Qed.

(** *** Supersets *)

(** A search over [l] for a value of a set that satisfies [Q]. *)
Definition search_ok (r : option V) (Q : list K -> Prop) (l : list (list K * V)) : Prop :=
  match r with
  | Some v => p v = true /\ exists s, (s, v) ∈ l /\ Q s
  | None => forall s v, (s, v) ∈ l -> Q s -> p v = false
  end.

Lemma search_nil Q : search_ok None Q [].
Proof. intros s v H. by apply elem_of_nil in H. Qed.

Lemma search_orelse a b Q l1 l2 :
  search_ok a Q l1 -> search_ok b Q l2 -> search_ok (orelse a b) Q (l1 ++ l2).
Proof. unfold search_ok. destruct a, b; cbn; set_solver. Qed.

Lemma search_weaken r (Q Q' : list K -> Prop) l l' :
  search_ok r Q l -> (forall s v, (s, v) ∈ l -> Q s -> exists s', (s', v) ∈ l' /\ Q' s') ->
  (forall s v, (s, v) ∈ l' -> Q' s -> exists s', (s', v) ∈ l /\ Q s') -> search_ok r Q' l'.
Proof.
  unfold search_ok. destruct r as [v|].
  - intros (Hv & s & Hs & HQ) H _. split; [done|]. by apply (H s v).
  - intros Hr _ H s v Hs HQ. destruct (H s v Hs HQ) as (s' & Hs' & HQ'). by apply (Hr s').
Qed.

Lemma elem_of_consed k s v (l : list (list K * V)) :
  (s, v) ∈ map (fun e => (k :: fst e, snd e)) l <-> exists t, s = k :: t /\ (t, v) ∈ l.
Proof.
  rewrite list_elem_of_fmap. split.
  - intros ([t w] & [= -> ->] & H). by exists t.
  - intros (t & -> & H). by exists (t, v).
Qed.

(** The two searches of a node together: the superset does or does not contain
    the key of the child it is under. *)
Lemma superset_node_ok a b (f : Forest) lo elt next :
  wf_forest lo f -> ordered None (elt :: next) ->
  search_ok a (fun s => exists k t, s = k :: t /\ elt :: next ⊆ t) (forest_contents f) ->
  search_ok b (fun s => exists t, s = elt :: t /\ next ⊆ t) (forest_contents f) ->
  search_ok (orelse a b) (fun s => elt :: next ⊆ s) (forest_contents f).
Proof.
  intros Hf Hs Ha Hb. destruct a as [w|]; [|destruct b as [w|]]; cbn [orelse].
  - destruct Ha as (Hp & s & Hin & k & t & -> & Hsub). split; [done|]. exists (k :: t). split; [done|set_solver].
  - destruct Hb as (Hp & s & Hin & t & -> & Hsub). split; [done|]. exists (elt :: t). split; [done|set_solver].
  - intros s v Hin Hsub. pose proof (forest_contents_nonempty _ _ Hf) as He. rewrite Forall_forall in He.
    destruct (He _ Hin) as (k & t & E & _ & Ht). cbn in E. subst s. apply ordered_above in Ht. rewrite Forall_forall in Ht.
    destruct (key_eqb_spec elt k) as [->|Hne].
    + apply (Hb _ _ Hin). exists t. split; [done|]. pose proof (not_in_above _ _ (proj2 Hs)). set_solver.
    + apply (Ha _ _ Hin). exists k, t. split; [done|]. assert (ltb k elt = true) as Hlt.
      { apply Ht. specialize (Hsub elt). set_solver. }
      assert (k ∉ elt :: next) as Hk; [|set_solver]. intros [?|Hk]%elem_of_cons; [congruence|].
      pose proof (ordered_in _ _ _ Hs _ Hk) as C. apply ltb_asym in C. congruence.
Qed.

Lemma findSuperset_ok :
  (forall (n : Node) lo set, wf lo n -> ordered None set ->
     search_ok (findSuperset p n set) (fun s => set ⊆ s) (contents n)) /\
  (forall (f : Forest) lo, wf_forest lo f ->
     (forall set, ordered None set ->
        search_ok (findSuperset_all p f set) (fun s => exists k t, s = k :: t /\ set ⊆ t) (forest_contents f)) /\
     (forall elt next, ordered None (elt :: next) ->
        search_ok (findSuperset_at p f elt next) (fun s => exists t, s = elt :: t /\ next ⊆ t) (forest_contents f))).
Proof.
  apply trie_ind.
  - intros v b f IH lo set Hf Hs. destruct (IH lo Hf) as [IHa IHt]. rewrite findSuperset_node, contents_split.
    cbn [isEndOfSet value children]. destruct set as [|elt next].
    + assert (search_ok (findSuperset_all p f []) (fun s => [] ⊆ s) (forest_contents f)) as Hall.
      { eapply search_weaken; [by apply IHa| |].
        - intros s w Hw _. exists s. split; [done|set_solver].
        - intros s w Hw _. pose proof (forest_contents_nonempty _ _ Hf) as He. rewrite Forall_forall in He.
          destruct (He _ Hw) as (k & t & E & _). cbn in E. subst s. exists (k :: t). split; [done|].
          exists k, t. split; [done|set_solver]. }
      destruct b; [|exact Hall]. cbn [andb]. destruct (p v) eqn:Ep.
      * split; [done|]. exists []. split; [left|set_solver].
      * apply (search_orelse None (findSuperset_all p f [])); [|done]. intros s w [= -> ->]%list_elem_of_singleton _. done.
    + set (set := elt :: next) in *. assert (search_ok None (fun s => set ⊆ s) (if b then [([], v)] else [])) as H0.
      { intros s w Hw Hsub. destruct b; [|by apply elem_of_nil in Hw]. apply list_elem_of_singleton in Hw as [= -> ->].
        exfalso. specialize (Hsub elt). set_solver. }
      apply (search_orelse None (orelse (findSuperset_all p f set) (findSuperset_at p f elt next))); [done|]. apply (superset_node_ok _ _ _ lo); [done|done|by apply IHa|by apply IHt].
  - intros lo _. split; intros; apply search_nil.
  - intros k c IHc rest IHr lo (Hk & Hc & Hu & Hr). destruct (IHr (Some k) Hr) as [IHa IHt].
    rewrite forest_contents_cons. split.
    + intros set Hs. rewrite findSuperset_all_cons. apply search_orelse; [|by apply IHa].
      eapply search_weaken; [by apply (IHc (Some k))| |].
      * intros s v Hin Hsub. exists (k :: s). split; [apply elem_of_consed; eauto|eauto].
      * intros s v (t & -> & Hin)%elem_of_consed (k' & t' & [= <- <-] & Hsub). eauto.
    + intros elt next Hs. rewrite findSuperset_at_cons. destruct (key_eqb_spec elt k) as [->|Hne].
      * eapply search_weaken; [apply (IHc (Some k) next Hc); by eapply ordered_weaken; [|apply Hs]| |].
        -- intros s v Hin Hsub. exists (k :: s). split; [|eauto]. apply elem_of_app. left. apply elem_of_consed. eauto.
        -- intros s v Hin (t & -> & Hsub). apply elem_of_app in Hin as [Hin|Hin].
           ++ apply elem_of_consed in Hin as (t' & [= <-] & Hin). eauto.
           ++ exfalso. pose proof (forest_contents_nonempty _ _ Hr) as He. rewrite Forall_forall in He.
              destruct (He _ Hin) as (k' & t' & [= <- <-] & Hk' & _). by apply ltb_neq in Hk'.
      * eapply search_weaken; [by apply IHt| |].
        -- intros s v Hin HQ. exists s. split; [apply elem_of_app; by right|done].
        -- intros s v [Hin|Hin]%elem_of_app (t & -> & Hsub); [|eauto].
           apply elem_of_consed in Hin as (t' & [= -> _] & _). done.
Qed.

End predicate.

(** ** The iterator *)

Fixpoint path_of (st : list Forest) : list K :=
  match st with [] => [] | f :: st => path_of st ++ top_key f end.

(** What is left after the subtree of the node at the top of the stack. *)
Fixpoint after (st : list Forest) : list (list K * V) :=
  match st with
  | [] => []
  | FNil :: st => after st
  | FCons k c rest :: st => under (path_of st) (forest_contents rest) ++ after st
  end.

Definition last_key (st : list Forest) : option K :=
  match st with FCons k _ _ :: _ => Some k | _ => None end.

(** Every level of the stack is at a node of a well-formed forest. *)
Fixpoint stack_ok (st : list Forest) : Prop :=
  match st with
  | [] => True
  | f :: st => stack_ok st /\ f <> FNil /\ wf_forest (last_key st) f
  end.

Lemma stack_path st : stack_ok st -> path_before (path_of st) (last_key st).
Proof.
  induction st as [|f st IH]; intros Hst; [apply path_before_nil|]. destruct Hst as (Hst & Hne & Hf).
  destruct f as [|k c rest]; [done|]. apply path_before_snoc with (last_key st); [by apply IH|apply Hf].
Qed.

(** The iterator is at the entry of the first set of [l], the others follow. *)
Definition it_at (root : Node) (it : iterator) (l : list (list K * V)) : Prop :=
  match l with
  | [] => it = it_end
  | e :: l =>
      onEntry it = true /\ stack_ok (stack it) /\
      exists n, current root it = Ok n /\ wf (last_key (stack it)) n /\
        e = (path_of (stack it), value n) /\
        l = under (path_of (stack it)) (forest_contents (children n)) ++ after (stack it)
  end.

(** Going down the first children reaches the first set of a forest. *)
Lemma trie_descend_ok root :
  (forall (n : Node) st, stack_ok st -> wf (last_key st) n -> children n <> FNil ->
     it_at root (descend (children n) st) (under (path_of st) (forest_contents (children n)) ++ after st) /\
     descend_to_end (children n) st = Ok (descend (children n) st) /\ onEntry (descend (children n) st) = true) /\
  (forall (f : Forest) st, stack_ok st -> wf_forest (last_key st) f -> f <> FNil ->
     it_at root (descend f st) (under (path_of st) (forest_contents f) ++ after st) /\
     descend_to_end f st = Ok (descend f st) /\ onEntry (descend f st) = true).
Proof.
  apply trie_ind.
  - intros v b f IH st Hst Hf Hne. by apply IH.
  - done.
  - intros k c IHc rest _ st Hst Hf _. pose proof Hf as (Hk & Hc & Hu & Hr). cbn [descend descend_to_end].
    assert (under (path_of st) (forest_contents (FCons k c rest)) ++ after st =
      under (path_of st ++ [k]) (contents c) ++ after (FCons k c rest :: st)) as ->.
    { rewrite forest_contents_cons, under_app, under_cons. by rewrite <- app_assoc. }
    assert (stack_ok (FCons k c rest :: st)) as Hst' by done. rewrite contents_split.
    destruct (isEndOfSet c) eqn:Eb.
    + split; [|by split]. rewrite under_entry. refine (conj eq_refl (conj Hst' _)). by exists c.
    + destruct Hu as [Hu|Hu]; [congruence|]. exact (IHc (FCons k c rest :: st) Hst' Hc Hu).
Qed.

Lemma advance_ok root st : stack_ok st -> exists it, advance st = Ok it /\ it_at root it (after st).
Proof.
  induction st as [|f st IH]; intros Hst; [by exists it_end|]. destruct Hst as (Hst & Hne & Hf).
  destruct f as [|k c rest]; [done|]. destruct Hf as (Hk & Hc & Hu & Hr). cbn [advance after].
  destruct rest as [|k' c' rest]; [by apply IH|].
  assert (wf_forest (last_key st) (FCons k' c' rest)) as Hf by (by apply wf_forest_weaken with k).
  destruct (proj2 (trie_descend_ok root) (FCons k' c' rest) st Hst Hf) as (H1 & H2 & _); [done|]. eauto.
Qed.

Lemma enter_ok root it n :
  onEntry it = true -> stack_ok (stack it) -> current root it = Ok n -> wf (last_key (stack it)) n ->
  exists it', step root it = Ok it' /\
    it_at root it' (under (path_of (stack it)) (forest_contents (children n)) ++ after (stack it)).
Proof.
  intros He Hst Hn Hw. unfold step. rewrite He, Hn. cbn [res_bind]. apply wf_children in Hw.
  destruct (children n) as [|k c rest]; [by apply advance_ok|].
  destruct (proj2 (trie_descend_ok root) (FCons k c rest) (stack it) Hst Hw) as (H1 & _ & H3); [done|].
  rewrite H3. eauto.
Qed.

Lemma step_ok root it e l : it_at root it (e :: l) -> exists it', step root it = Ok it' /\ it_at root it' l.
Proof. intros (He & Hst & n & Hn & Hw & -> & ->). by apply enter_ok. Qed.

Lemma trie_begin_ok root : wf None root -> exists it, begin_ root = Ok it /\ it_at root it (contents root).
Proof.
  intros Hw. unfold begin_. rewrite contents_split. destruct (isEndOfSet root) eqn:Eb.
  - eexists. split; [done|]. cbn. split_and!; [done|done|]. exists root. split_and!; [done|done|done|].
    by rewrite under_nil, app_nil_r.
  - destruct (enter_ok root (Iterator true []) root) as (it & E & H); [done..|]. exists it. split; [exact E|].
    cbn in H. by rewrite under_nil, app_nil_r in H.
Qed.

Lemma deref_ok root it e l : it_at root it (e :: l) -> deref ltb root it = Ok e.
Proof.
  intros (He & Hst & n & Hn & Hw & -> & ->). unfold deref. rewrite He, Hn. cbn [orb res_assert res_bind]. do 2 f_equal.
  clear - Hst order. induction (stack it) as [|f st IH]; [done|]. destruct Hst as (Hst & Hne & Hf).
  cbn [rev path_of]. rewrite foldl_app. cbn [foldl]. rewrite IH by done.
  destruct f as [|k c rest]; [done|]. cbn [top_key foldr]. apply set_insert_last.
  by apply (stack_path st Hst), Hf.
Qed.

End lemmas.

(** * Properties *)

Section properties.
Context {K V : Type} `{EqDecision K} (ltb : K -> K -> bool) (default : V) {order : StrictTotalOrder ltb}.

(** Inserting and looking up: an inserted set is found with its value, every
    other set keeps what it had, the trie stays well formed (keys increasing
    along every path, no useless node), and [lookup] finds exactly the sets of
    [contents]. *)
Theorem mapofsets_insert_lookup (n : Node (K:=K) (V:=V)) (set : list K) (v : V)
  (Hn : wf ltb None n) (Hs : ordered ltb None set) :
  wf ltb None (insert ltb default set v n) /\
  (forall s, lookup s (insert ltb default set v n) = if decide (s = set) then Some v else lookup s n) /\
  (forall s w, lookup s n = Some w <-> (s, w) ∈ contents n).
Proof.
  split_and!.
  - by apply (insert_wf ltb default).
  - intros s. by apply (lookup_insert ltb default set v s None).
  - intros s w. by apply (proj1 (lookup_contents ltb) n None).
Qed.

(** The four queries search exactly the subsets or supersets of a set:
    [subsets] and [supersets] list them in order, [findSubset] gives the value
    of the first subset that satisfies the predicate, and [findSuperset] that
    of some superset that does, whenever there is one. *)
Theorem mapofsets_queries (n : Node (K:=K) (V:=V)) (set : list K) (p : V -> bool)
  (Hn : wf ltb None n) (Hs : ordered ltb None set) :
  subsets ltb set n = List.filter (fun e => subsetb (fst e) set) (contents n) /\
  supersets ltb set n = List.filter (fun e => subsetb set (fst e)) (contents n) /\
  findSubset ltb p n set = first_value p (subsets ltb set n) /\
  match findSuperset p n set with
  | Some v => p v = true /\ exists s, (s, v) ∈ supersets ltb set n
  | None => forall s v, (s, v) ∈ supersets ltb set n -> p v = false
  end.
Proof.
  rewrite (subsets_ok ltb set n Hn Hs), (supersets_ok ltb set n Hn Hs). split_and!; [done|done| |].
  - by apply (proj1 (findSubset_ok ltb p) n None None set).
  - pose proof (proj1 (findSuperset_ok ltb p) n None set Hn Hs) as H. unfold search_ok in H.
    assert (forall s v, (s, v) ∈ List.filter (fun e => subsetb set (fst e)) (contents n) <-> (s, v) ∈ contents n /\ set ⊆ s) as E.
    { intros s v. rewrite !list_elem_of_In, List.filter_In. cbn [fst]. rewrite subsetb_spec. done. }
    destruct (findSuperset p n set) as [v|].
    + destruct H as (Hp & s & Hin & Hsub). split; [done|]. exists s. by apply E.
    + intros s v [Hin Hsub]%E. by apply (H s v).
Qed.

(** Reads [k] sets from an iterator. *)
Fixpoint read_n (root : Node (K:=K) (V:=V)) (k : nat) (it : iterator) : res (list (list K * V) * iterator) :=
  match k with
  | O => Ok ([], it)
  | S k =>
      let* e := deref ltb root it in
      let* it := step root it in
      let* r := read_n root k it in Ok (e :: fst r, snd r)
  end.

(** A loop from [begin] reads every set of the map once, in order, and is
    then at [end]; no step fails. *)
Theorem mapofsets_iterate (n : Node (K:=K) (V:=V)) (Hn : wf ltb None n) :
  exists it, begin_ n = Ok it /\ read_n n (length (contents n)) it = Ok (contents n, it_end).
Proof.
  destruct (trie_begin_ok ltb n Hn) as (it & E & Hit). exists it. split; [done|]. clear E. revert it Hit.
  generalize (contents n). intros l. induction l as [|e l IH]; intros it Hit; cbn [length read_n].
  - by rewrite (Hit : it = it_end).
  - rewrite (deref_ok ltb n it e l Hit). cbn [res_bind].
    destruct (step_ok ltb n it e l Hit) as (it' & -> & Hit'). cbn [res_bind]. by rewrite (IH it' Hit').
Qed.

End properties.

(** ** A map of four sets *)

Definition sample_map : Node (K:=Z) (V:=Z) :=
  let ins s v n := insert Z.ltb 0%Z s v n in
  ins [1; 3]%Z 13%Z (ins [2; 3]%Z 23%Z (ins [1; 2; 3]%Z 123%Z (ins [] 0%Z (new_node 0%Z)))).

Lemma sample_contents : contents sample_map = [([], 0); ([1; 2; 3], 123); ([1; 3], 13); ([2; 3], 23)]%Z.
Proof. vm_compute. reflexivity. Qed.

Lemma sample_wf : wf Z.ltb None sample_map.
Proof. vm_compute. repeat split; try reflexivity; try (left; reflexivity); right; discriminate. Qed.

Lemma mapofsets_insert_lookup_witness :
  lookup [1; 3]%Z (insert Z.ltb 0%Z [4]%Z 4%Z sample_map) = Some 13%Z.
Proof.
  rewrite (proj1 (proj2 (mapofsets_insert_lookup Z.ltb 0%Z sample_map [4]%Z 4%Z sample_wf (conj I I)))).
  vm_compute. reflexivity.
Defined.

Lemma mapofsets_queries_witness :
  findSubset Z.ltb (fun v => 10 <? v)%Z sample_map [1; 3; 5]%Z = Some 13%Z.
Proof.
  assert (ordered Z.ltb None [1; 3; 5]%Z) as Hs by (repeat split).
  rewrite (proj1 (proj2 (proj2 (mapofsets_queries Z.ltb sample_map [1; 3; 5]%Z (fun v => 10 <? v)%Z sample_wf Hs)))).
  vm_compute. reflexivity.
Defined.

Lemma mapofsets_iterate_witness :
  exists it, begin_ sample_map = Ok it /\ read_n Z.ltb sample_map 4 it = Ok (contents sample_map, it_end).
Proof. exact (mapofsets_iterate Z.ltb sample_map sample_wf). Defined.
