(* ===== verification/CexCachingSolver.v ===== *)
(** The counterexample cache of klee/lib/Solver/CexCachingSolver.cpp.

    A [CexCachingSolver] is the state of the solver it wraps, the cache, a
    [MapOfSets] from sets of constraints to assignments ([None] is the null
    pointer: no solution), and the table of all assignments made, a
    [std::set] ordered by the bindings.  An [Assignment] is never changed once
    made, so a pointer to one is the assignment.  The command-line options are
    parameters; statistics and timers are left out.

    The invariant [cex_ok] says that a cached assignment satisfies its key and
    that a key without assignment has no solution; it is what makes it sound
    to answer from a subset or a superset of the key.  With it the cache keeps
    the contract of the solver it wraps ([cex_caching_refines]), for
    constraints that have a value in every environment, determined by the
    bytes inside the arrays ([evaluable]): an assignment says nothing of the
    bytes outside, and [satisfies] evaluates constraints in the order of the
    set, not of the path, so without the ones that guard them. *)
From Stdlib Require Import ZArith Lia Bool.
From stdpp Require Import base list numbers option gmap sets.
From S2P Require Import Prelude APInt Expr ExprCreate ExprSem ExprCompare ExprCreateCorrect ExprFactory ExprVisitor ExprReads ExprEval ExprUtil Solver SolverScope StagedSolver MapOfSets.
Open Scope Z_scope.

(** [operator==] of [ref<Expr>]. *)
#[export] Instance expr_keys `{A : APInt} {AR : Arrays} : KeyEq expr | 10 := expr_eqb.

(* std::lexicographical_compare *)
Fixpoint lex_ltb {T : Type} (lt : T -> T -> bool) (a b : list T) : bool :=
  match a, b with
  | _, [] => false
  | [], _ => true
  | x :: a', y :: b' => if lt x y then true else if lt y x then false else lex_ltb lt a' b'
  end.

Section cex.
Context {A : APInt} {AR : Arrays}.
Context (ConstArrayOpt UseVisitorHash : bool).
Context (CexCacheTryAll CexCacheSuperSet CexCacheExperimental DebugCexCacheCheckBinding : bool).

(** [std::set< ref<Expr> >]. *)
Definition KeyType : Type := list expr.

(* operator< of ref<Expr> *)
Definition expr_ltb (a b : expr) : bool := compare a b <? 0.

(* the constructor from a range *)
Definition key_of (cs : list expr) : KeyType := foldl (fun key c => set_insert expr_ltb c key) [] cs.

(* operator< of std::pair and std::vector *)
Definition binding_ltb (p q : positive * list Z) : bool :=
  if Pos.ltb (fst p) (fst q) then true
  else if Pos.ltb (fst q) (fst p) then false
  else lex_ltb Z.ltb (snd p) (snd q).

Definition AssignmentLessThan (a b : Assignment) : bool := lex_ltb binding_ltb (bindings a) (bindings b).

(** The fields [cache] and [assignmentsTable]. *)
Record CexCache : Type := MkCexCache {
  cache : Node (K:=expr) (V:=option Assignment);
  assignmentsTable : list Assignment;
}.

Definition empty_cache : CexCache := MkCexCache (new_node None) [].

(* assignmentsTable.insert: the table, and the element the iterator is at *)
Fixpoint table_insert (a : Assignment) (table : list Assignment) : list Assignment * Assignment :=
  match table with
  | [] => ([a], a)
  | b :: table' =>
      if AssignmentLessThan a b then (a :: table, a)
      else if AssignmentLessThan b a then
        let p := table_insert a table' in (b :: fst p, snd p)
      else (table, b)
  end.

Definition NullAssignment (a : option Assignment) : bool :=
  match a with None => true | Some _ => false end.

Definition NonNullAssignment (a : option Assignment) : bool := negb (NullAssignment a).

Definition NullOrSatisfyingAssignment (key : KeyType) (a : option Assignment) : res bool :=
  match a with None => Ok true | Some a => satisfies ConstArrayOpt UseVisitorHash a key end.

(* findSubset with NullOrSatisfyingAssignment: a call of the predicate that
   fails ends the search like one that accepts, and fails again outside *)
Definition findSubset_satisfying (key : KeyType) (root : Node (K:=expr)) : res (option (option Assignment)) :=
  let stops a := match NullOrSatisfyingAssignment key a with Ok b => b | _ => true end in
  match findSubset expr_ltb stops root key with
  | None => Ok None
  | Some a => let* _ := NullOrSatisfyingAssignment key a in Ok (Some a)
  end.

(* the first assignment of the table that satisfies the key *)
Fixpoint find_satisfying (key : KeyType) (table : list Assignment) : res (option (option Assignment)) :=
  match table with
  | [] => Ok None
  | a :: table' =>
      let* b := satisfies ConstArrayOpt UseVisitorHash a key in
      if b then Ok (Some (Some a)) else find_satisfying key table'
  end.

Definition searchForAssignment (f : CexCache) (key : KeyType) : res (option (option Assignment)) :=
  match lookup key (cache f) with
  | Some result => Ok (Some result)
  | None =>
      let superset := if CexCacheSuperSet then findSuperset NonNullAssignment (cache f) key else None in
      if CexCacheTryAll then
        let found := match superset with
          | Some _ => superset
          | None => findSubset expr_ltb NullAssignment (cache f) key
          end in
        match found with
        | Some result => Ok (Some result)
        | None => find_satisfying key (assignmentsTable f)
        end
      else
        match superset with
        | Some result => Ok (Some result)
        | None => findSubset_satisfying key (cache f)
        end
  end.

(* the key, and the result if one is known *)
Definition lookupAssignment (f : CexCache) (query : Query) : res (KeyType * option (option Assignment)) :=
  let key := key_of (constraints query) in
  let* neg := createIsZero ConstArrayOpt (query_expr query) in
  let search key := let* result := searchForAssignment f key in Ok (key, result) in
  match neg with
  | Constant CE => if const_isFalse CE then Ok (key, Some None) else search key
  | _ => search (set_insert expr_ltb neg key)
  end.

(* the assignment becomes the one of the table *)
Definition memoize (a : Assignment) : state CexCache Assignment := fun f =>
  let p := table_insert a (assignmentsTable f) in Ok (snd p, MkCexCache (cache f) (fst p)).

Definition cache_insert (key : KeyType) (binding : option Assignment) : state CexCache unit := fun f =>
  Ok (tt, MkCexCache (insert expr_ltb None key binding (cache f)) (assignmentsTable f)).

(* klee_error ends the program *)
Definition check_binding (key : KeyType) (binding : Assignment) : res unit :=
  if DebugCexCacheCheckBinding then
    let* ok := satisfies ConstArrayOpt UseVisitorHash binding key in assert* ok in Ok tt
  else Ok tt.

Context {S : Type} (solver : SolverImpl S).

(* what a function that does not change the fields returns *)
Definition reads {T} (m : CexCache -> res T) : state (S * CexCache) T := fun s =>
  let* x := m (snd s) in Ok (x, s).

(* what the solver found, recorded *)
Definition record_solution (key : KeyType) (objects : list positive) (sol : solution) :
    state CexCache (option Assignment) :=
  do* binding :=
    (match sol with
     | Some values =>
         do* a := slift (Assignment_new objects values false) in
         do* binding := memoize a in
         do* _ := slift (check_binding key binding) in
         sret (Some binding)
     | None => sret None
     end) in
  do* _ := cache_insert key binding in
  sret binding.

Definition getAssignment (query : Query) : state (S * CexCache) (option (option Assignment)) :=
  do* p := reads (fun f => lookupAssignment f query) in
  match snd p with
  | Some result => sret (Some result)
  | None =>
      do* objects := slift (findSymbolicObjects ConstArrayOpt UseVisitorHash (fst p) []) in
      do* r := on_fst (computeInitialValues solver query objects) in
      match r with
      | None => sret None
      | Some sol =>
          do* binding := on_snd (record_solution (fst p) objects sol) in
          sret (Some binding)
      end
  end.

(* an assignment whose presence is asserted, and the value of the query's
   expression under it, asserted to be a constant *)
Definition evaluate_in (query : Query) (a : option Assignment) : res ap :=
  match a with
  | None => AssertFail
  | Some a =>
      let* q := ExprEval.evaluate ConstArrayOpt UseVisitorHash a (query_expr query) in
      match q with Constant c => Ok c | _ => AssertFail end
  end.

Definition cex_computeValidity (query : Query) : state (S * CexCache) (option Validity) :=
  do* r := getAssignment (withFalse query) in
  match r with
  | None => sret None
  | Some a =>
      do* c := slift (evaluate_in query a) in
      if const_isTrue c then
        do* r := getAssignment query in
        sret ((fun a => if NullAssignment a then ValidityTrue else ValidityUnknown) <$> r)
      else
        do* nq := slift (negateExpr ConstArrayOpt query) in
        do* r := getAssignment nq in
        sret ((fun a => if NullAssignment a then ValidityFalse else ValidityUnknown) <$> r)
  end.

(* the lookup of -cex-cache-exp: the negated query is known to have no solution *)
Definition negation_refuted (query : Query) : state (S * CexCache) bool :=
  if CexCacheExperimental then
    do* nq := slift (negateExpr ConstArrayOpt query) in
    do* p := reads (fun f => lookupAssignment f nq) in
    sret (match snd p with Some a => NullAssignment a | None => false end)
  else sret false.

Definition cex_computeTruth (query : Query) : state (S * CexCache) (option bool) :=
  do* refuted := negation_refuted query in
  if refuted then sret None
  else
    do* r := getAssignment query in
    sret (NullAssignment <$> r).

Definition cex_computeValue (query : Query) : state (S * CexCache) (option expr) :=
  do* r := getAssignment (withFalse query) in
  match r with
  | None => sret None
  | Some a => do* c := slift (evaluate_in query a) in sret (Some (Constant c))
  end.

(* the bytes of an object, zero if it is not bound *)
Definition object_bytes (a : Assignment) (os : positive) : list Z :=
  match bindings_find os (bindings a) with
  | None => replicate (Z.to_nat (size (arrayAt os))) 0
  | Some vs => vs
  end.

Definition cex_computeInitialValues (query : Query) (objects : list positive) :
    state (S * CexCache) (option solution) :=
  do* r := getAssignment query in
  sret (option_map (option_map (fun a => map (object_bytes a) objects)) r).

Definition CexCachingSolver : SolverImpl (S * CexCache) := {|
  computeTruth := cex_computeTruth;
  computeValidity := cex_computeValidity;
  computeValue := cex_computeValue;
  computeInitialValues := cex_computeInitialValues;
|}.

End cex.

(** ** The table of assignments *)

Lemma lex_ltb_total {T} (lt : T -> T -> bool) :
  (forall x y, lt x y = false -> lt y x = false -> x = y) ->
  forall a b, lex_ltb lt a b = false -> lex_ltb lt b a = false -> a = b.
Proof.
  intros Hlt. induction a as [|x a IH]; intros [|y b]; try done. cbn.
  destruct (lt x y) eqn:E1; [done|]. destruct (lt y x) eqn:E2; [done|]. intros.
  f_equal; [by apply Hlt|by apply IH].
Qed.

Lemma binding_ltb_total p q : binding_ltb p q = false -> binding_ltb q p = false -> p = q.
Proof.
  destruct p as [k vs], q as [k' vs']. unfold binding_ltb. cbn.
  destruct (Pos.ltb k k') eqn:E1; [done|]. destruct (Pos.ltb k' k) eqn:E2; [done|]. intros.
  apply Pos.ltb_ge in E1, E2. f_equal; [lia|]. apply (lex_ltb_total Z.ltb); [|done..]. intros x y Hx Hy. apply Z.ltb_ge in Hx, Hy. lia.
Qed.

Section correct.
Context {A : APInt} {L : APIntLaws A} {AR : Arrays}.
Context (opt checked : bool).
Context (Hopt : opt = true -> checked = true).
Context (hash all super exp debug : bool).
Context (Hdom : small_domains) (Hbytes : byte_arrays).
Context {SC : Scope opt checked}.
#[local] Instance scope_of_cache : Scope opt checked := evaluable_within opt checked SC.

Notation sat := (sat checked).
Notation bool_query := (Solver.bool_query (opt:=opt) (SC:=evaluable_within opt checked SC) checked).
Notation query_ok := (Solver.query_ok (opt:=opt) (SC:=evaluable_within opt checked SC) checked).
Notation forced := (forced checked).
Notation feasible := (feasible checked).
Notation evaluable := (evaluable checked).
Notation query_wf := (Solver.query_wf (opt:=opt) (SC:=evaluable_within opt checked SC) checked).
Notation bool_wf := (Solver.bool_wf (opt:=opt) (SC:=evaluable_within opt checked SC) checked).

Lemma table_insert_same a table :
  full a -> Forall full table -> snd (table_insert a table) = a /\ Forall full (fst (table_insert a table)).
Proof.
  intros Ha Ht. induction Ht as [|b table Hb Ht [IH1 IH2]]; cbn [table_insert].
  { split; [done|]. by apply Forall_singleton. }
  destruct (AssignmentLessThan a b) eqn:E1; [split; [done|]; cbn; auto|].
  destruct (AssignmentLessThan b a) eqn:E2; [cbn; auto|]. cbn. split; [|by constructor].
  pose proof (lex_ltb_total _ binding_ltb_total _ _ E1 E2) as E.
  destruct a, b, Ha as [Hfa _], Hb as [Hfb _]. cbn in *. by subst.
Qed.

(** ** Keys *)

(** A constraint of a key. *)
Definition key_member (c : expr) : Prop := wt c /\ getWidth c = 1 /\ evaluable c.

Lemma same_key_denote ρ x y :
  key_member x -> key_member y -> same_key x y -> denote checked ρ x = denote checked ρ y.
Proof.
  intros [Hx _] [Hy _] [->|E]; [done|]. by apply (expr_eqb_sound x y).
Qed.

Lemma sat_included ρ s s' :
  Forall key_member s -> Forall key_member s' ->
  Forall (fun y => exists x, x ∈ s' /\ (same_key x y \/ same_key y x)) s -> sat ρ s' -> sat ρ s.
Proof.
  unfold Solver.sat. rewrite !Forall_forall. intros Hs Hs' Hin H y Hy. destruct (Hin y Hy) as (x & Hx & [E|E]).
  - rewrite <- (same_key_denote ρ x y); auto.
  - rewrite (same_key_denote ρ y x); auto.
Qed.

Lemma set_insert_key c s :
  key_member c -> Forall key_member s ->
  Forall key_member (set_insert expr_ltb c s) /\
  forall ρ, sat ρ (set_insert expr_ltb c s) <-> denote checked ρ c = Some 1 /\ sat ρ s.
Proof.
  intros Hc Hs. destruct (set_insert_sound expr_ltb c s) as [H1 H2].
  assert (Forall key_member (set_insert expr_ltb c s)) as Hk.
  { rewrite Forall_forall in Hs |- *. intros x Hx. destruct (H1 x Hx) as [->|?]; auto. }
  assert (Forall key_member (c :: s)) as Hcs by (by constructor).
  split; [done|]. intros ρ. transitivity (sat ρ (c :: s)); [|by unfold Solver.sat; rewrite Forall_cons_iff].
  split; apply sat_included; try done; apply Forall_forall; intros x Hx.
  - destruct (H2 x Hx) as (y & ? & ?). exists y. auto.
  - exists x. split; [|left; by left]. destruct (H1 x Hx) as [->|?]; [by left|by right].
Qed.

Lemma key_of_ok cs :
  Forall key_member cs -> Forall key_member (key_of cs) /\ forall ρ, sat ρ (key_of cs) <-> sat ρ cs.
Proof.
  intros Hcs. unfold key_of.
  assert (forall s, Forall key_member s -> Forall key_member (foldl (fun key c => set_insert expr_ltb c key) s cs) /\
    forall ρ, sat ρ (foldl (fun key c => set_insert expr_ltb c key) s cs) <-> sat ρ cs /\ sat ρ s) as H.
  { induction Hcs as [|c cs Hc Hcs IH]; intros s Hs; cbn.
    - split; [done|]. intros ρ. split; [|tauto]. by split; [constructor|].
    - destruct (set_insert_key c s Hc Hs) as [Hk Hsat]. destruct (IH _ Hk) as [Hk' Hsat'].
      split; [done|]. intros ρ. rewrite Hsat', Hsat. unfold Solver.sat. rewrite Forall_cons_iff. tauto. }
  destruct (H [] ltac:(constructor)) as [Hk Hsat]. split; [done|]. intros ρ. rewrite Hsat.
  split; [tauto|]. intros. by split; [|constructor].
Qed.

(** ** The cache *)

(** What a cached result says of its key. *)
Definition answers_key (key : KeyType) (r : option Assignment) : Prop :=
  match r with
  | None => forall ρ, ~ sat ρ key
  | Some a => full a /\ sat (assignment_env a) key
  end.

Definition cex_ok (f : CexCache) : Prop :=
  all_keys key_member (cache f) /\
  Forall (fun e => answers_key (fst e) (snd e)) (contents (cache f)) /\
  Forall full (assignmentsTable f).

Lemma empty_cache_ok : cex_ok empty_cache.
Proof. split; [done|]. split; constructor. Qed.

(** An entry: a key of the cache and what is known of it. *)
Lemma cache_entry f s r :
  cex_ok f -> (s, r) ∈ contents (cache f) -> Forall key_member s /\ answers_key s r.
Proof.
  intros (Hk & He & _) Hin. apply all_keys_contents in Hk. rewrite Forall_forall in Hk, He.
  split; [by apply (Hk (s, r))|by apply (He (s, r))].
Qed.

Lemma satisfies_key a key :
  full a -> Forall key_member key ->
  exists b, satisfies opt hash a key = Ok b /\ (b = true <-> sat (assignment_env a) key).
Proof.
  intros (Hf & Hb & _) Hk. apply (satisfies_ok opt checked Hopt); try done.
  eapply Forall_impl; [exact Hk|]. intros c (? & ? & Ht & _ & Hfo & _). by split_and!.
Qed.

(** A cached key without solution refutes its supersets, an assignment
    satisfies the subsets. *)
Lemma refuted_superset s key :
  Forall key_member s -> Forall key_member key -> answers_key s None ->
  Forall (fun y => exists x, x ∈ key /\ same_key x y) s -> answers_key key None.
Proof.
  intros Hs Hk Hn Hin ρ Hρ. apply (Hn ρ). apply (sat_included ρ s key); [done|done| |done].
  eapply Forall_impl; [exact Hin|]. cbn. intros y (x & ? & ?). exists x. auto.
Qed.

Lemma satisfied_subset s key a :
  Forall key_member s -> Forall key_member key -> answers_key s (Some a) ->
  Forall (fun x => exists y, y ∈ s /\ same_key x y) key -> answers_key key (Some a).
Proof.
  intros Hs Hk [Ha Hsat] Hin. split; [done|]. apply (sat_included _ key s); [done|done| |done].
  eapply Forall_impl; [exact Hin|]. cbn. intros x (y & ? & ?). exists y. auto.
Qed.

Lemma Forall2_exists_l {T} (R : T -> T -> Prop) s s' :
  Forall2 R s s' -> Forall (fun x => exists y, y ∈ s' /\ R x y) s.
Proof.
  induction 1 as [|x y s s' Hxy H IH]; constructor.
  - exists y. split; [by left|done].
  - eapply Forall_impl; [exact IH|]. cbn. intros z (w & ? & ?). exists w. split; [by right|done].
Qed.

Lemma Forall2_exists_r {T} (R : T -> T -> Prop) s s' :
  Forall2 R s s' -> Forall (fun y => exists x, x ∈ s /\ R x y) s'.
Proof. intros H. apply Forall2_flip in H. exact (Forall2_exists_l _ _ _ H). Qed.

Lemma lookup_answers f key r :
  cex_ok f -> Forall key_member key -> lookup key (cache f) = Some r -> answers_key key r.
Proof.
  intros Hf Hk H. destruct (lookup_sound key _ _ H) as (s & Hin & Hs).
  destruct (cache_entry f s r Hf Hin) as [Hsk Hr]. destruct r as [a|].
  - apply (satisfied_subset s); try done. by apply Forall2_exists_l.
  - apply (refuted_superset s); try done. by apply Forall2_exists_r.
Qed.

Lemma findSuperset_answers f key r :
  cex_ok f -> Forall key_member key -> findSuperset NonNullAssignment (cache f) key = Some r -> answers_key key r.
Proof.
  intros Hf Hk H. apply findSuperset_sound in H as (Hp & s & Hin & Hs).
  destruct (cache_entry f s r Hf Hin) as [Hsk Hr]. destruct r as [a|]; [|done]. by apply (satisfied_subset s).
Qed.

Lemma findSubset_answers f key p r :
  cex_ok f -> Forall key_member key -> findSubset expr_ltb p (cache f) key = Some r ->
  p r = true /\ match r with None => answers_key key None | Some a => full a end.
Proof.
  intros Hf Hk H. apply findSubset_sound in H as (Hp & s & Hin & Hs).
  destruct (cache_entry f s r Hf Hin) as [Hsk Hr]. split; [done|]. destruct r as [a|]; [apply Hr|].
  by apply (refuted_superset s).
Qed.

Lemma find_satisfying_ok key table :
  Forall key_member key -> Forall full table ->
  exists r, find_satisfying opt hash key table = Ok r /\ forall x, r = Some x -> answers_key key x.
Proof.
  intros Hk. induction 1 as [|a table Ha Ht IH]; cbn [find_satisfying]; [by exists None|].
  destruct (satisfies_key a key Ha Hk) as (b & -> & Hb). cbn [res_bind]. destruct b; [|done].
  eexists. split; [done|]. intros x [= <-]. split; [done|by apply Hb].
Qed.

Lemma findSubset_satisfying_ok f key :
  cex_ok f -> Forall key_member key ->
  exists r, findSubset_satisfying opt hash key (cache f) = Ok r /\ forall x, r = Some x -> answers_key key x.
Proof.
  intros Hf Hk. unfold findSubset_satisfying. cbn zeta.
  destruct (findSubset _ _ _ _) as [r|] eqn:E; [|by exists None].
  destruct (findSubset_answers f key _ r Hf Hk E) as [Hp Hr]. destruct r as [a|]; cbn in *.
  - destruct (satisfies_key a key Hr Hk) as (b & Es & Hb). rewrite Es in Hp |- *. subst b. cbn.
    eexists. split; [done|]. intros x [= <-]. split; [done|by apply Hb].
  - eexists. split; [done|]. by intros x [= <-].
Qed.

Lemma searchForAssignment_ok f key :
  cex_ok f -> Forall key_member key ->
  exists r, searchForAssignment opt hash all super f key = Ok r /\ forall x, r = Some x -> answers_key key x.
Proof.
  intros Hf Hk. unfold searchForAssignment.
  destruct (lookup key (cache f)) as [r|] eqn:El.
  { eexists. split; [done|]. intros x [= <-]. by apply (lookup_answers f). }
  set (superset := if super then findSuperset NonNullAssignment (cache f) key else None).
  assert (forall x, superset = Some x -> answers_key key x) as Hsup.
  { intros x. unfold superset. destruct super; [|done]. by apply findSuperset_answers. }
  cbn zeta. clearbody superset. destruct all.
  - destruct superset as [x|]; [by eexists|].
    destruct (findSubset _ _ _ _) as [r|] eqn:E.
    + eexists. split; [done|]. intros x [= <-].
      destruct (findSubset_answers f key _ r Hf Hk E) as [Hp Hr]. by destruct r.
    + apply find_satisfying_ok; [done|apply Hf].
  - destruct superset as [x|]; [by eexists|]. by apply findSubset_satisfying_ok.
Qed.

(** ** Queries *)

(** [ρ] shows that the query is not valid. *)
Definition refutes (ρ : env) (q : Query) : Prop :=
  sat ρ (constraints q) /\ denote checked ρ (query_expr q) = Some 0.

(** What a cached result says of a query. *)
Definition answers_query (q : Query) (r : option Assignment) : Prop :=
  match r with
  | None => forall ρ, ~ refutes ρ q
  | Some a => full a /\ refutes (assignment_env a) q
  end.

Lemma answers_key_query q key r :
  (forall ρ, sat ρ key <-> refutes ρ q) -> answers_key key r -> answers_query q r.
Proof.
  intros H. destruct r as [a|]; cbn.
  - intros [Ha Hs]. split; [done|by apply H].
  - intros Hn ρ Hρ. apply (Hn ρ). by apply H.
Qed.

Lemma no_refutation_forced q : bool_wf q -> (forall ρ, ~ refutes ρ q) -> forced q 1.
Proof.
  intros Hq Hn ρ Hρ. destruct (bit_value opt checked q ρ Hq Hρ) as [H|H]; [|done].
  exfalso. by apply (Hn ρ).
Qed.

Lemma query_key q : query_wf q -> Forall key_member (constraints q).
Proof.
  intros (Hcs & _ & _ & He & _). rewrite Forall_forall in Hcs, He |- *. intros c Hc.
  destruct (Hcs c Hc). split; [done|]. split; [done|by apply (He c Hc)].
Qed.

Lemma searched_ok f q key :
  cex_ok f -> refutable opt q -> Forall key_member key -> (forall ρ, sat ρ key <-> refutes ρ q) ->
  exists k r, (let* result := searchForAssignment opt hash all super f key in Ok (key, result)) = Ok (k, r) /\
    (r = None -> refutable opt q /\ Forall key_member k /\ forall ρ, sat ρ k <-> refutes ρ q) /\
    forall x, r = Some x -> answers_query q x.
Proof.
  intros Hf Href Hk Hs. destruct (searchForAssignment_ok f key Hf Hk) as (r & -> & Hr). exists key, r.
  split; [done|]. split; [done|]. intros x Hx. by apply (answers_key_query q key), Hr.
Qed.

(** The key holds exactly where the query fails. *)
Lemma lookupAssignment_ok f q :
  cex_ok f -> bool_wf q ->
  exists key r, lookupAssignment opt hash all super f q = Ok (key, r) /\
    (r = None -> refutable opt q /\ Forall key_member key /\ forall ρ, sat ρ key <-> refutes ρ q) /\
    forall x, r = Some x -> answers_query q x.
Proof.
  intros Hf Hq. pose proof (query_key q (proj1 Hq)) as Hcs. destruct (key_of_ok _ Hcs) as [Hk Hsat].
  destruct (negateExpr_wf opt checked Hopt q (proj1 Hq)) as (nq & En & Hnq & Hnc & Hnd).
  pose proof (bit_value opt checked q) as Hbit.
  unfold negateExpr in En. apply res_bind_inv in En as (n & En & [= <-]). cbn in Hnd.
  destruct Hnq as [(_ & Hnwt & _ & _ & Hne & _) Hnw]. cbn in Hnwt, Hne, Hnw.
  assert (forall ρ, sat ρ (constraints q) ->
    denote checked ρ n = Some 1 <-> denote checked ρ (query_expr q) = Some 0) as Hiff.
  { intros ρ Hρ. destruct (Hbit ρ Hq Hρ) as [H|H]; by rewrite (Hnd _ _ H), H. }
  assert (isConstant n = false -> exists key r,
    (let* result := searchForAssignment opt hash all super f (set_insert expr_ltb n (key_of (constraints q))) in
     Ok (set_insert expr_ltb n (key_of (constraints q)), result)) = Ok (key, r) /\
    (r = None -> refutable opt q /\ Forall key_member key /\ forall ρ, sat ρ key <-> refutes ρ q) /\
    forall x, r = Some x -> answers_query q x) as Hins.
  { intros Hnc'. destruct (set_insert_key n _ (conj Hnwt (conj Hnw Hne)) Hk) as [Hk' Hsat'].
    apply searched_ok; [done| |done|].
    { intros c Ec. rewrite En in Ec. injection Ec as ->. done. }
    intros ρ. rewrite Hsat', Hsat. unfold refutes. specialize (Hiff ρ). tauto. }
  unfold lookupAssignment. rewrite En. cbn [res_bind]. destruct n as [CE| | | | | | | |]; try (by apply Hins).
  cbn in Hiff, Hnw. unfold const_isFalse. rewrite Hnw. cbn [Z.eqb Pos.eqb andb].
  destruct (uval CE =? 0) eqn:E; tidy_bools.
  - eexists _, _. split; [done|]. split; [done|]. intros x [= <-] ρ [Hρ H0].
    apply Hiff in H0; [|done]. injection H0. lia.
  - apply searched_ok; [done| |done|].
    { intros c Ec. rewrite En in Ec. injection Ec as ->. unfold const_isFalse. rewrite Hnw. cbn.
      by apply Z.eqb_neq. }
    intros ρ. rewrite Hsat. split; [|by intros []]. intros Hρ. split; [done|].
    apply Hiff; [done|]. destruct (Hbit ρ Hq Hρ) as [H|H]; apply Hnd in H; cbn in H; congruence.
Qed.

(** ** New assignments *)

(** The assignment made of a solution of the key satisfies the key. *)
Lemma Assignment_new_ok ρ key objects values :
  Forall key_member key -> sat ρ key -> NoDup objects ->
  (forall os, os ∈ objects <-> exists e, e ∈ key /\ mentions os e) ->
  object_values checked ρ objects values ->
  exists a, Assignment_new objects values false = Ok a /\ full a /\ sat (assignment_env a) key.
Proof.
  intros Hk Hsat Hn Hm Hv.
  destruct (Assignment_new_agrees checked Hbytes ρ key objects values) as (a & E & Ha & He); try done.
  { eapply Forall_impl; [exact Hk|]. intros c (? & _ & ?). by split. }
  exists a. split_and!; [done|done|]. unfold Solver.sat in *. rewrite Forall_forall in Hsat, He |- *.
  intros c Hc. rewrite He by done. by apply Hsat.
Qed.

Lemma cache_insert_ok key r :
  Forall key_member key -> answers_key key r -> sholds cex_ok (cache_insert key r) (fun _ => True).
Proof.
  intros Hk Hr f Hf. eexists tt, _. split; [done|]. split; [|exact I].
  pose proof Hf as (Hkeys & He & Ht).
  pose proof (insert_all_keys expr_ltb _ None key r _ Hk Hkeys) as Hkeys'.
  split_and!; cbn; [done| |done]. apply Forall_forall. intros [s v] Hin.
  destruct (insert_contents _ _ _ _ _ _ Hin) as [Hold|[Hv Hs]].
  - rewrite Forall_forall in He. by apply He.
  - apply all_keys_contents in Hkeys'. rewrite Forall_forall in Hkeys'.
    specialize (Hkeys' _ Hin). cbn [fst snd] in *. subst v.
    assert (forall ρ, sat ρ s <-> sat ρ key) as Heq.
    { intros ρ. split; apply sat_included; try done;
        [apply Forall2_exists_l in Hs|apply Forall2_exists_r in Hs];
        (eapply Forall_impl; [exact Hs|]); cbn; intros x (y & ? & ?); exists y; auto. }
    destruct r as [a|]; cbn in Hr |- *; [by rewrite Heq|]. intros ρ Hρ. apply (Hr ρ). by apply Heq.
Qed.

Context {S : Type} (solver : SolverImpl S) (Inv : S -> Prop).
Context {contract : SolverContract (opt:=opt) (SC:=evaluable_within opt checked SC) checked solver Inv}.

Notation cex_inv := (fun s => Inv (fst s) /\ cex_ok (snd s)).

Lemma record_solution_ok q key objects sol :
  Forall key_member key -> (forall ρ, sat ρ key <-> refutes ρ q) -> NoDup objects ->
  (forall os, os ∈ objects <-> exists e, e ∈ key /\ mentions os e) ->
  solution_spec checked q objects sol ->
  sholds cex_ok (record_solution opt hash debug key objects sol) (answers_query q).
Proof.
  intros Hk Hsat Hn Hm Hsol. unfold record_solution.
  assert (forall r, answers_key key r ->
    sholds cex_ok (do* _ := cache_insert key r in sret r) (answers_query q)) as Hins.
  { intros r Hr. eapply sholds_bind; [by apply cache_insert_ok|]. intros _ _. apply sholds_ret.
    by eapply answers_key_query. }
  destruct sol as [values|].
  - destruct Hsol as (ρ & Hρ & H0 & Hv).
    destruct (Assignment_new_ok ρ key objects values) as (a & E & Ha & Has); try done; [by apply Hsat|].
    eapply (sholds_bind _ _ (fun r => r = Some a)); [|intros ? ->; by apply Hins].
    eapply (sholds_bind _ _ (fun x => x = a)); [apply sholds_lift; by exists a|]. intros ? ->.
    eapply (sholds_bind _ _ (fun x => x = a)).
    { intros f (Hkeys & He & Ht). destruct (table_insert_same a _ Ha Ht) as [Hs Htab].
      eexists _, _. split; [done|]. split; [|done]. by split_and!. }
    intros ? ->. eapply (sholds_bind _ _ (fun _ => True)); [|intros _ _; by apply sholds_ret].
    apply sholds_lift. exists tt. split; [|done]. unfold check_binding. destruct debug; [|done].
    destruct (satisfies_key a key Ha Hk) as (b & -> & Hb). by rewrite (proj2 Hb Has).
  - eapply (sholds_bind _ _ (fun r => r = None)); [by apply sholds_ret|]. intros ? ->. apply Hins.
    intros ρ Hρ%Hsat. destruct Hρ as [Hc H0]. specialize (Hsol ρ Hc). congruence.
Qed.

Lemma getAssignment_ok q :
  bool_wf q ->
  sholds cex_inv (getAssignment opt hash all super debug solver q)
    (fun r => forall a, r = Some a -> answers_query q a).
Proof.
  intros Hq. unfold getAssignment.
  eapply (sholds_bind _ _ (fun p =>
    (snd p = None -> refutable opt q /\ Forall key_member (fst p) /\ forall ρ, sat ρ (fst p) <-> refutes ρ q) /\
    forall x, snd p = Some x -> answers_query q x)).
  { intros [s f] [Hs Hf]. destruct (lookupAssignment_ok f q Hf Hq) as (key & r & E & H).
    unfold reads. cbn. rewrite E. by exists (key, r), (s, f). }
  intros [key r] [Hnew Hr]. cbn [fst snd] in *. destruct r as [r|].
  { apply sholds_ret. intros a [= <-]. auto. }
  destruct (Hnew eq_refl) as (Href & Hk & Hsat).
  assert (Forall wt key) as Hwt by (eapply Forall_impl; [exact Hk|]; by intros c []).
  destruct (findSymbolicObjects_ok opt hash key Hwt) as (objects & E & Hn & Hm).
  assert (objects_ok objects) as Hobj.
  { apply objects_once; [done|]. apply Forall_forall. intros os (e & He & Hme)%Hm. rewrite Forall_forall in Hwt.
    destruct (proj1 (mentions_wt_both os) e (Hwt e He) Hme). split; [done|]. intros _. by apply Hbytes. }
  eapply (sholds_bind _ _ (fun x => x = objects)); [apply sholds_lift; by exists objects|]. intros ? ->.
  eapply sholds_bind; [by apply sholds_on_fst, (computeInitialValues_ok q objects)|].
  intros [sol|] Hsol; [|by apply sholds_ret]. specialize (Hsol sol eq_refl).
  eapply sholds_bind; [by apply sholds_on_snd, (record_solution_ok q key objects sol)|].
  intros a Ha. apply sholds_ret. by intros ? [= <-].
Qed.

(** ** The operations *)

(** The assignment of [withFalse] satisfies the constraints, and the query's
    expression evaluates under it. *)
Lemma state_assignment_ok q r :
  query_ok q -> answers_query (withFalse q) r ->
  exists c, evaluate_in opt hash q r = Ok c /\ getBitWidth c = getWidth (query_expr q) /\
    feasible q (uval c).
Proof.
  intros Hq Hr. destruct (withFalse_ok opt checked q Hq) as [_ Hf].
  pose proof Hq as ((_ & Hwt & Hd & _ & (_ & _ & Hfo & _) & _) & [ρ Hρ]). destruct r as [a|].
  - destruct Hr as (Ha & Hs & _). cbn in Hs. destruct (Hd _ Hs) as [v Hv].
    destruct Ha as (Hfree & Hb & _). cbn [evaluate_in].
    destruct (evaluate_closed_ok opt checked Hopt hash a _ v Hdom Hb Hfree Hwt Hfo Hv) as (c & -> & Hw & Hu).
    exists c. split; [done|]. split; [done|]. exists (assignment_env a). by rewrite Hu.
  - exfalso. apply (Hr ρ). split; [done|]. by apply Hf.
Qed.

Lemma answer_valid q r :
  bool_wf q -> answers_query q r -> if NullAssignment r then forced q 1 else feasible q 0.
Proof.
  intros Hq Hr. destruct r as [a|]; cbn.
  - destruct Hr as (_ & Hs & H0). by exists (assignment_env a).
  - by apply no_refutation_forced.
Qed.

Lemma cex_computeValidity_ok q :
  bool_query q ->
  sholds cex_inv (cex_computeValidity opt hash all super debug solver q)
    (fun r => forall v, r = Some v -> validity_spec checked q v).
Proof.
  intros Hq. unfold cex_computeValidity.
  eapply sholds_bind; [apply getAssignment_ok, (withFalse_wf opt checked), Hq|].
  intros [a|] Ha; [|by apply sholds_ret]. specialize (Ha a eq_refl).
  destruct (state_assignment_ok q a (proj1 Hq) Ha) as (c & E & Hw & Hc).
  eapply (sholds_bind _ _ (fun x => x = c)); [apply sholds_lift; by exists c|]. intros ? ->.
  unfold const_isTrue. rewrite Hw, (proj2 Hq). cbn [Z.eqb Pos.eqb andb].
  destruct (negb (uval c =? 0)) eqn:Ec; tidy_bools.
  - assert (uval c = 1) as E1.
    { destruct Hc as (ρ & Hρ & Hv). destruct (bit_value opt checked q ρ (bool_query_wf opt checked q Hq) Hρ) as [H|H]; congruence. }
    rewrite E1 in Hc. eapply sholds_bind; [by apply getAssignment_ok, (bool_query_wf opt checked)|].
    intros [r|] Hr; apply sholds_ret; [|done]. specialize (answer_valid q r (bool_query_wf opt checked q Hq) (Hr r eq_refl)).
    intros Hv v [= <-]. by destruct (NullAssignment r).
  - rewrite Ec in Hc.
    destruct (negateExpr_ok opt checked Hopt q (proj1 Hq)) as (nq & En & Hnq & Hnc & Hnd).
    destruct (negate_forced opt checked q nq (bool_query_wf opt checked q Hq) Hnc Hnd) as (H1 & _ & H3 & _).
    eapply (sholds_bind _ _ (fun x => x = nq)); [apply sholds_lift; by exists nq|]. intros ? ->.
    eapply sholds_bind; [by apply getAssignment_ok, (bool_query_wf opt checked)|].
    intros [r|] Hr; apply sholds_ret; [|done]. specialize (answer_valid nq r (bool_query_wf opt checked nq Hnq) (Hr r eq_refl)).
    intros Hv v [= <-]. destruct (NullAssignment r); [by apply H1|]. split; [done|by apply H3].
Qed.

Lemma negation_refuted_ok q :
  bool_query q ->
  sholds cex_inv (negation_refuted opt hash all super exp q) (fun b => b = true -> exp = true /\ forced q 0).
Proof.
  intros Hq. unfold negation_refuted. destruct exp; [|by apply sholds_ret].
  destruct (negateExpr_ok opt checked Hopt q (proj1 Hq)) as (nq & En & Hnq & Hnc & Hnd).
  eapply (sholds_bind _ _ (fun x => x = nq)); [apply sholds_lift; by exists nq|]. intros ? ->.
  eapply (sholds_bind _ _ (fun p => forall x, snd p = Some x -> answers_query nq x)).
  { intros [s f] [Hs Hf]. destruct (lookupAssignment_ok f nq Hf (bool_query_wf opt checked nq Hnq)) as (key & r & E & _ & H).
    unfold reads. cbn. rewrite E. by exists (key, r), (s, f). }
  intros [key r] Hr. apply sholds_ret. cbn [snd] in *. destruct r as [[a|]|]; try done. intros _. split; [done|].
  apply (negate_forced opt checked q nq (bool_query_wf opt checked q Hq) Hnc Hnd). apply (answer_valid nq None (bool_query_wf opt checked nq Hnq)). by apply Hr.
Qed.

Lemma cex_computeTruth_ok q :
  bool_query q ->
  sholds cex_inv (cex_computeTruth opt hash all super exp debug solver q)
    (fun r => forall b, r = Some b -> if b then forced q 1 else feasible q 0).
Proof.
  intros Hq. unfold cex_computeTruth. eapply sholds_bind; [by apply negation_refuted_ok|].
  intros [] _; [by apply sholds_ret|]. eapply sholds_bind; [by apply getAssignment_ok, (bool_query_wf opt checked)|].
  intros [r|] Hr; apply sholds_ret; [|done]. intros b [= <-]. apply (answer_valid q r (bool_query_wf opt checked q Hq) (Hr r eq_refl)).
Qed.

Lemma cex_computeValue_ok q :
  query_ok q ->
  sholds cex_inv (cex_computeValue opt hash all super debug solver q) (fun r => forall e, r = Some e ->
    exists c, e = Constant c /\ getBitWidth c = getWidth (query_expr q) /\ feasible q (uval c)).
Proof.
  intros Hq. unfold cex_computeValue.
  eapply sholds_bind; [apply getAssignment_ok, (withFalse_wf opt checked), Hq|].
  intros [a|] Ha; [|by apply sholds_ret]. specialize (Ha a eq_refl).
  destruct (state_assignment_ok q a Hq Ha) as (c & E & Hw & Hc).
  eapply (sholds_bind _ _ (fun x => x = c)); [apply sholds_lift; by exists c|]. intros ? ->.
  apply sholds_ret. intros e [= <-]. by exists c.
Qed.

Lemma cex_computeInitialValues_ok q objects :
  bool_wf q -> objects_ok objects ->
  sholds cex_inv (cex_computeInitialValues opt hash all super debug solver q objects)
    (fun r => forall sol, r = Some sol -> solution_spec checked q objects sol).
Proof.
  intros Hq Ho. unfold cex_computeInitialValues. eapply sholds_bind; [by apply getAssignment_ok|].
  intros [r|] Hr; apply sholds_ret; [|done]. specialize (Hr r eq_refl). intros sol [= <-].
  destruct r as [a|]; cbn.
  - destruct Hr as (Ha & Hs & H0). exists (assignment_env a). split; [done|]. split; [done|].
    destruct Ho as [Ho _]. clear -Ho Ha L Hbytes. induction Ho as [|os objects [? ?] Ho IH]; [constructor|].
    constructor; [by apply object_bytes_ok|done].
  - by apply no_refutation_forced.
Qed.

Lemma CexCachingSolver_contract :
  SolverContract (opt:=opt) (SC:=evaluable_within opt checked SC) checked
    (CexCachingSolver opt hash all super exp debug solver) cex_inv.
Proof.
  split.
  - apply cex_computeTruth_ok.
  - apply cex_computeValidity_ok.
  - apply cex_computeValue_ok.
  - intros q objects Hq _. by apply cex_computeInitialValues_ok.
Qed.

End correct.

(** ** Properties *)

(** C9. The counterexample cache is transparent: over any solver that keeps
    the contract, [CexCachingSolver] keeps it too, whatever its options; its
    invariant is that a cached assignment satisfies its set of constraints,
    that a set cached without one has no solution, and that the table holds
    complete assignments only. *)
Theorem cex_caching_refines `{A : APInt} {L : APIntLaws A} {AR : Arrays} (opt checked : bool) {SC : Scope opt checked}
    (hash all super exp debug : bool) {S} (solver : SolverImpl S) (Inv : S -> Prop) :
  (opt = true -> checked = true) -> small_domains -> byte_arrays ->
  SolverContract (SC:=evaluable_within opt checked SC) checked solver Inv ->
  SolverContract (SC:=evaluable_within opt checked SC) checked
    (CexCachingSolver opt hash all super exp debug solver) (fun s => Inv (fst s) /\ cex_ok checked (snd s)).
Proof. intros. by apply CexCachingSolver_contract. Qed.

(** With -cex-cache-exp, [computeTruth] reports a failure where the answer
    is known: when the cache shows that the negated query has no solution, so
    that the query's expression is 0 in every state and not valid, the call
    returns without an answer. *)
Theorem cex_exp_answer_lost `{A : APInt} {L : APIntLaws A} {AR : Arrays} (opt checked : bool) {SC : Scope opt checked}
    (hash all super debug : bool) {S} (solver : SolverImpl S) (s : S) (f : CexCache) (q nq : Query) key :
  (opt = true -> checked = true) -> small_domains -> cex_ok checked f ->
  bool_query (SC:=evaluable_within opt checked SC) checked q -> negateExpr opt q = Ok nq ->
  lookupAssignment opt hash all super f nq = Ok (key, Some None) ->
  computeTruth (CexCachingSolver opt hash all super true debug solver) q (s, f) = Ok (None, (s, f)) /\
  forced checked q 0 /\ ~ forced checked q 1.
Proof.
  intros Hopt Hdom Hf Hq En E.
  assert (negation_refuted opt hash all super true q (s, f) = Ok (true, (s, f))) as Er.
  { unfold negation_refuted, sbind, slift, reads. cbn. rewrite En. cbn. by rewrite E. }
  split.
  - cbn. unfold cex_computeTruth, sbind. by rewrite Er.
  - destruct (negation_refuted_ok opt checked Hopt hash all super true Hdom (fun _ : S => True) q Hq (s, f))
      as (b & s' & Eb & _ & Hb); [done|]. rewrite Er in Eb. injection Eb as <- _.
    assert (forced checked q 0) as H0 by (by apply Hb). split; [done|]. intros H1.
    destruct Hq as [[_ [ρ Hρ]] _]. specialize (H0 ρ Hρ). specialize (H1 ρ Hρ). congruence.
Qed.

(** ** Witnesses *)
Section witnesses.
#[local] Existing Instance Examples.arrays.
Import Examples SolverExamples ScopeExamples.

Definition sample_cex : SolverImpl (unit * CexCache) := CexCachingSolver false true false true true true sample_solver.

Lemma cex_caching_refines_witness :
  SolverContract (SC:=evaluable_scope false false) false sample_cex (fun s => True /\ cex_ok false (snd s)).
Proof.
  apply (cex_caching_refines false false true false true true true sample_solver (fun _ => True));
    [done|apply sample_small_domains|apply sample_byte_arrays|apply sample_evaluable_contract].
Defined.

(* the cache after the query *)
Definition cached_after (q : Query) : CexCache :=
  match computeTruth sample_cex q (tt, empty_cache) with Ok (_, (_, f)) => f | _ => empty_cache end.

(** The second time the answer needs no solver. *)
Lemma answered_from_cache :
  computeTruth sample_cex sample_query (tt, empty_cache) = Ok (Some false, (tt, cached_after sample_query)) /\
  computeTruth (CexCachingSolver false true false true true true DummySolver) sample_query
    (tt, cached_after sample_query) = Ok (Some false, (tt, cached_after sample_query)).
Proof. split; reflexivity. Qed.

(* a[0] = 5 implies a[0] <> 5? *)
Definition contradiction : Query := MkQuery [five] not_five.

Lemma contradiction_cex_ok : bool_query (SC:=evaluable_scope false false) false contradiction.
Proof.
  apply (five_query (SC:=evaluable_scope false false));
    [exact (conj five_evaluable I)|exact (conj not_five_evaluable I)|exact not_five_wt|done|].
  apply not_five_evaluable.
Qed.

Lemma cached_after_ok : cex_ok false (cached_after (MkQuery [five] five)).
Proof.
  pose proof (@CexCachingSolver_contract _ _ _ false false ltac:(done) true false true true true
    sample_small_domains sample_byte_arrays _ _ sample_solver (fun _ => True) sample_evaluable_contract) as C.
  destruct (@computeTruth_ok _ _ _ _ _ _ _ _ C (MkQuery [five] five) assumed_evaluable (tt, empty_cache))
    as (r & [u f] & E & [_ Hf] & _); [by split; [|apply empty_cache_ok]|].
  unfold cached_after, sample_cex. rewrite E. exact Hf.
Qed.

Lemma cex_exp_answer_lost_witness :
  computeTruth sample_cex contradiction (tt, cached_after (MkQuery [five] five)) =
    Ok (None, (tt, cached_after (MkQuery [five] five))) /\
  forced false contradiction 0.
Proof.
  destruct (cex_exp_answer_lost false false true false true true sample_solver tt
    (cached_after (MkQuery [five] five)) contradiction (MkQuery [five] five)
    (key_of [five; not_five])) as (H1 & H2 & _);
    [done|apply sample_small_domains|apply cached_after_ok|apply contradiction_cex_ok
    |reflexivity|reflexivity|].
  split; [exact H1|exact H2].
Defined.

End witnesses.
