(* ===== verification/Independence.v ===== *)
(** Independent constraints: [DenseSet], [IndependentElementSet] and the two
    partitions of klee/lib/Solver/IndependentSolver.cpp.

    An [IndependentElementSet] records which bytes its expressions read: single
    indices of an array, or whole arrays once one index is not a constant.
    [getIndependentConstraints] collects the constraints that a query depends
    on, [getAllIndependentConstraintsSets] splits all of them into factors that
    share no byte.  Both repeat passes until one changes no set; each pass that
    does consumes a set, which bounds them by the number of constraints.

    The [std::map] and [std::set]s are [gmap] and [gset]: the order of their
    addresses matters in [calculateArrayReferences] only.  [framed] links a
    set to an expression: every read that can see a byte is recorded. *)
From Stdlib Require Import ZArith Lia Bool Sorted.
From stdpp Require Import base list numbers option gmap sets.
From S2P Require Import Prelude APInt Expr ExprCreate ExprSem ExprCompare ExprCreateCorrect ExprFactory ExprVisitor ExprReads ExprEval ExprUtil FindReads Solver SolverScope.
Open Scope Z_scope.

(** ** DenseSet<unsigned> *)

(* add(const DenseSet &): the set, and whether it changed *)
Definition DenseSet_add (s b : gset Z) : gset Z * bool :=
  set_fold (fun x (st : gset Z * bool) =>
    if snd st || negb (bool_decide (x ∈ fst st)) then ({[x]} ∪ fst st, true) else st) (s, false) b.

Definition DenseSet_intersects (s b : gset Z) : bool := existsb (fun x => bool_decide (x ∈ b)) (elements s).

Section independence.
Context {A : APInt} {AR : Arrays}.
Context (ConstArrayOpt : bool).

Record IndependentElementSet : Type := MkSet {
  ies_elements : gmap positive (gset Z);
  wholeObjects : gset positive;
  exprs : list expr;
}.

(* the body of the loop over the reads *)
Definition add_read (s : IndependentElementSet) (re : ReadExpr) : res IndependentElementSet :=
  let array := read_root re in
  if isConstantArray (arrayAt array) && match read_head re with UNil => true | _ => false end then Ok s
  else if bool_decide (array ∈ wholeObjects s) then Ok s
  else
    match read_index re with
    | Constant CE =>
        let* z := getZExtValue CE 32 in
        let dis := default ∅ (ies_elements s !! array) in
        Ok (MkSet (<[array := {[wrap 32 z]} ∪ dis]> (ies_elements s)) (wholeObjects s) (exprs s))
    | _ => Ok (MkSet (delete array (ies_elements s)) ({[array]} ∪ wholeObjects s) (exprs s))
    end.

Fixpoint add_reads (reads : list ReadExpr) (s : IndependentElementSet) : res IndependentElementSet :=
  match reads with
  | [] => Ok s
  | re :: reads' => let* s := add_read s re in add_reads reads' s
  end.

(** The constructor from an expression. *)
Definition IndependentElementSet_new (e : expr) : res IndependentElementSet :=
  let* reads := findReads e true [] in
  add_reads reads (MkSet ∅ ∅ [e]).

Definition intersects (a b : IndependentElementSet) : bool :=
  existsb (fun array => bool_decide (array ∈ wholeObjects b) || bool_decide (is_Some (ies_elements b !! array)))
    (elements (wholeObjects a)) ||
  existsb (fun p : positive * gset Z =>
    bool_decide (fst p ∈ wholeObjects b) ||
    match ies_elements b !! fst p with Some ds => DenseSet_intersects (snd p) ds | None => false end)
    (map_to_list (ies_elements a)).

(** The sets of a factor under [add], and whether one changed. *)
Definition add_state : Type := gmap positive (gset Z) * gset positive * bool.

(* the loop over b.wholeObjects *)
Definition add_whole (array : positive) (st : add_state) : add_state :=
  let '(els, whole, modified) := st in
  match els !! array with
  | Some _ => (delete array els, {[array]} ∪ whole, true)
  | None => if bool_decide (array ∈ whole) then st else (els, {[array]} ∪ whole, true)
  end.

(* the loop over b.elements *)
Definition add_elements (array : positive) (ds : gset Z) (st : add_state) : add_state :=
  let '(els, whole, modified) := st in
  if bool_decide (array ∈ whole) then st
  else
    match els !! array with
    | None => (<[array := ds]> els, whole, true)
    | Some dis =>
        let p := DenseSet_add dis ds in
        (<[array := fst p]> els, whole, modified || snd p)
    end.

Definition add (s b : IndependentElementSet) : IndependentElementSet * bool :=
  let st := set_fold add_whole (ies_elements s, wholeObjects s, false) (wholeObjects b) in
  let '(els, whole, modified) := map_fold add_elements st (ies_elements b) in
  (MkSet els whole (exprs s ++ exprs b), modified).

(** ** Factors *)

(* the inner loop: current with what it absorbed, what is kept, and whether a set changed *)
Fixpoint absorb (current : IndependentElementSet) (factors : list IndependentElementSet) :
    IndependentElementSet * list IndependentElementSet * bool :=
  match factors with
  | [] => (current, [], false)
  | compare :: factors' =>
      if intersects current compare then
        let p := add current compare in
        let '(c, keep, changed) := absorb (fst p) factors' in (c, keep, snd p || changed)
      else
        let '(c, keep, changed) := absorb current factors' in (c, compare :: keep, changed)
  end.

(* one round of the do loop *)
Fixpoint factor_pass (fuel : nat) (factors : list IndependentElementSet) :
    res (list IndependentElementSet * bool) :=
  match factors with
  | [] => Ok ([], false)
  | current :: factors' =>
      match fuel with
      | O => OutOfFuel
      | S fuel' =>
          let '(c, keep, changed) := absorb current factors' in
          let* p := factor_pass fuel' keep in
          Ok (c :: fst p, changed || snd p)
      end
  end.

Fixpoint factor_loop (fuel : nat) (factors : list IndependentElementSet) : res (list IndependentElementSet) :=
  match fuel with
  | O => OutOfFuel
  | S fuel' =>
      let* p := factor_pass (length factors) factors in
      if snd p then factor_loop fuel' (fst p) else Ok (fst p)
  end.

Fixpoint sets_of (es : list expr) : res (list IndependentElementSet) :=
  match es with
  | [] => Ok []
  | e :: es' =>
      let* s := IndependentElementSet_new e in
      let* ss := sets_of es' in
      Ok (s :: ss)
  end.

(* the expressions that are split: the constraints and, unless the query's
   expression is the constant false, its negation *)
Definition factor_exprs (query : Query) : res (list expr) :=
  match query_expr query with
  | Constant CE => assert* const_isFalse CE in Ok (constraints query)
  | _ => let* neg := createIsZero ConstArrayOpt (query_expr query) in Ok (neg :: constraints query)
  end.

Definition getAllIndependentConstraintsSets (query : Query) : res (list IndependentElementSet) :=
  let* es := factor_exprs query in
  let* factors := sets_of es in
  factor_loop (S (length factors)) factors.

(** ** The constraints a query depends on *)

Definition worklist_ty : Type := list (expr * IndependentElementSet).

(* one round over the work list: the closure, the constraints that join it,
   the others, and whether the closure changed *)
Fixpoint closure_pass (eltsClosure : IndependentElementSet) (worklist : worklist_ty) :
    IndependentElementSet * list expr * worklist_ty * bool :=
  match worklist with
  | [] => (eltsClosure, [], [], false)
  | it :: worklist' =>
      if intersects (snd it) eltsClosure then
        let p := add eltsClosure (snd it) in
        let '(c, result, new, changed) := closure_pass (fst p) worklist' in
        (c, fst it :: result, new, snd p || changed)
      else
        let '(c, result, new, changed) := closure_pass eltsClosure worklist' in
        (c, result, it :: new, changed)
  end.

Fixpoint closure_loop (fuel : nat) (eltsClosure : IndependentElementSet) (worklist : worklist_ty)
    (result : list expr) : res (IndependentElementSet * list expr) :=
  match fuel with
  | O => OutOfFuel
  | S fuel' =>
      let '(c, found, new, changed) := closure_pass eltsClosure worklist in
      if changed then closure_loop fuel' c new (result ++ found) else Ok (c, result ++ found)
  end.

Definition getIndependentConstraints (query : Query) : res (IndependentElementSet * list expr) :=
  let* eltsClosure := IndependentElementSet_new (query_expr query) in
  let* sets := sets_of (constraints query) in
  closure_loop (S (length (constraints query))) eltsClosure (zip (constraints query) sets) [].

Definition calculateArrayReferences (ie : IndependentElementSet) : list positive :=
  by_address (dom (ies_elements ie) ∪ wholeObjects ie).

End independence.

(** ** The sets *)

Lemma DenseSet_add_ok s b : DenseSet_add s b = (s ∪ b, negb (bool_decide (b ⊆ s))).
Proof.
  unfold DenseSet_add.
  set (P := fun (st : gset Z * bool) (X : gset Z) => st = (s ∪ X, negb (bool_decide (X ⊆ s)))).
  apply (set_fold_ind_L P); unfold P; clear P.
  - rewrite bool_decide_true by set_solver. cbn. f_equal. set_solver.
  - intros x X st Hx ->. cbn [fst snd].
    destruct (decide (X ⊆ s)) as [HX|HX]; [rewrite (bool_decide_true (X ⊆ s)) by done|rewrite (bool_decide_false (X ⊆ s)) by done]; cbn.
    + destruct (decide (x ∈ s ∪ X)) as [Hin|Hin].
      * rewrite bool_decide_true by done. cbn. rewrite bool_decide_true by set_solver. f_equal. set_solver.
      * rewrite bool_decide_false by done. cbn. rewrite bool_decide_false by set_solver. f_equal. set_solver.
    + rewrite bool_decide_false by set_solver. f_equal. set_solver.
Qed.

Lemma DenseSet_intersects_spec s b : DenseSet_intersects s b = true <-> exists x, x ∈ s /\ x ∈ b.
Proof.
  unfold DenseSet_intersects. rewrite existsb_exists. split; intros (x & H1 & H2); exists x.
  - apply list_elem_of_In, elem_of_elements in H1. by apply bool_decide_eq_true in H2.
  - split; [by apply list_elem_of_In, elem_of_elements|by apply bool_decide_eq_true].
Qed.

Section sets.
Context {A : APInt} {AR : Arrays}.

(** The indices recorded for an array, the arrays of a set, and the bytes it
    covers. *)
Definition indices (s : IndependentElementSet) (root : positive) : gset Z := default ∅ (ies_elements s !! root).

Definition ies_arrays (s : IndependentElementSet) : gset positive := dom (ies_elements s) ∪ wholeObjects s.

Definition covers (s : IndependentElementSet) (root : positive) (i : Z) : Prop :=
  root ∈ wholeObjects s \/ i ∈ indices s root.

#[export] Instance covers_dec s root i : Decision (covers s root i).
Proof. unfold covers. apply _. Defined.

(** The sets share no byte; a whole array belongs to one of them only. *)
Definition separate (a b : IndependentElementSet) : Prop := forall root,
  root ∈ ies_arrays a -> root ∈ ies_arrays b ->
  root ∉ wholeObjects a /\ root ∉ wholeObjects b /\ indices a root ## indices b root.

(** The sets are the same, the expressions aside. *)
Definition same_sets (a b : IndependentElementSet) : Prop :=
  ies_elements a = ies_elements b /\ wholeObjects a = wholeObjects b.

Lemma covers_array s root i : covers s root i -> root ∈ ies_arrays s.
Proof.
  unfold covers, indices, ies_arrays. rewrite elem_of_union, elem_of_dom. intros [?|H]; [by right|left].
  destruct (ies_elements s !! root); [by eexists|]. cbn in H. set_solver.
Qed.

Lemma separate_sym a b : separate a b -> separate b a.
Proof. intros H root Ha Hb. destruct (H root Hb Ha) as (? & ? & ?). by split_and!. Qed.

Lemma separate_covers a b root i : separate a b -> covers a root i -> covers b root i -> False.
Proof.
  intros H Ha Hb. destruct (H root (covers_array _ _ _ Ha) (covers_array _ _ _ Hb)) as (? & ? & Hd).
  destruct Ha, Hb; set_solver.
Qed.

Lemma same_sets_separate a a' b : same_sets a a' -> separate a b -> separate a' b.
Proof. intros [E1 E2]. unfold separate, ies_arrays, indices. by rewrite E1, E2. Qed.

Lemma intersects_separate a b : intersects a b = false <-> separate a b.
Proof.
  unfold intersects. rewrite orb_false_iff. split.
  - intros [H1 H2] root Ha Hb. rewrite <- not_true_iff_false, existsb_exists in H1, H2.
    unfold ies_arrays in Ha, Hb. rewrite elem_of_union, elem_of_dom in Ha, Hb.
    assert (root ∉ wholeObjects a) as Hwa.
    { intros Hw. apply H1. exists root. split; [by apply list_elem_of_In, elem_of_elements|].
      apply orb_true_iff. rewrite !bool_decide_eq_true. tauto. }
    destruct Ha as [[ds Hds]|?]; [|done].
    assert (forall P, (bool_decide (root ∈ wholeObjects b) || P ds = true) ->
      (forall ds', P ds' = match ies_elements b !! root with Some d => DenseSet_intersects ds' d | None => false end) -> False) as Hn.
    { intros P HP E. apply H2. exists (root, ds). split; [by apply list_elem_of_In, elem_of_map_to_list|].
      cbn [fst snd]. by rewrite <- E. }
    assert (root ∉ wholeObjects b) as Hwb.
    { intros Hw. eapply Hn; [|done]. apply orb_true_iff. left. by apply bool_decide_eq_true. }
    destruct Hb as [[ds' Hds']|?]; [|done]. split; [done|]. split; [done|].
    unfold indices. rewrite Hds, Hds'. cbn. intros i Hi Hi'. eapply Hn; [|done]. apply orb_true_iff. right.
    rewrite Hds'. apply DenseSet_intersects_spec. by exists i.
  - intros H. rewrite <- !not_true_iff_false, !existsb_exists. split.
    + intros (root & Hin & Hb). apply list_elem_of_In, elem_of_elements in Hin.
      destruct (H root) as (? & ? & _); [|..|done]; unfold ies_arrays; rewrite elem_of_union, elem_of_dom; [by right|].
      rewrite orb_true_iff, !bool_decide_eq_true in Hb. tauto.
    + intros ([root ds] & Hin & Hb). apply list_elem_of_In, elem_of_map_to_list in Hin. cbn [fst snd] in Hb.
      assert (root ∈ ies_arrays a) as Ha by (unfold ies_arrays; rewrite elem_of_union, elem_of_dom; left; by eexists).
      rewrite orb_true_iff, bool_decide_eq_true in Hb. destruct Hb as [Hb|Hb].
      * destruct (H root Ha) as (? & ? & _); [|done]. unfold ies_arrays. rewrite elem_of_union. by right.
      * destruct (ies_elements b !! root) as [ds'|] eqn:E; [|done].
        destruct (H root Ha) as (_ & _ & Hd); [unfold ies_arrays; rewrite elem_of_union, elem_of_dom; left; by eexists|].
        apply DenseSet_intersects_spec in Hb as (i & ? & ?). unfold indices in Hd. rewrite Hin, E in Hd. cbn in Hd. set_solver.
Qed.

Lemma intersects_arrays a b : intersects a b = true -> ies_arrays a <> ∅ /\ ies_arrays b <> ∅.
Proof.
  intros H. split; intros E; enough (intersects a b = false) by congruence; apply intersects_separate;
    intros root Ha Hb; set_solver.
Qed.

(** [add] joins the sets. *)
Lemma add_whole_ok els whole X :
  let '(els', whole', m) := set_fold add_whole (els, whole, false) X in
  (forall root, els' !! root = if decide (root ∈ X) then None else els !! root) /\ whole' = whole ∪ X /\
  (m = false -> els' = els /\ whole' = whole).
Proof.
  set (P := fun (st : add_state) (X : gset positive) => let '(els', whole', m) := st in
    (forall root, els' !! root = if decide (root ∈ X) then None else els !! root) /\ whole' = whole ∪ X /\
    (m = false -> els' = els /\ whole' = whole)).
  apply (set_fold_ind_L P); unfold P; clear P.
  { split_and!; [|set_solver|done]. intros root. by rewrite decide_False by set_solver. }
  intros x X' [[els' whole'] m] Hx (He & Hw & Hm). unfold add_whole.
  assert (forall root, delete x els' !! root = if decide (root ∈ {[x]} ∪ X') then None else els !! root) as Hd.
  { intros root. rewrite lookup_delete, He. repeat case_decide; set_solver. }
  destruct (els' !! x) eqn:Ex; [split_and!; [done|set_solver|done]|].
  assert (forall root, els' !! root = if decide (root ∈ {[x]} ∪ X') then None else els !! root) as Hd'.
  { intros root. rewrite <- Hd. destruct (decide (root = x)) as [->|Hn]; [by rewrite lookup_delete_eq|by rewrite lookup_delete_ne]. }
  destruct (decide (x ∈ whole')) as [Hin|Hin].
  - rewrite bool_decide_true by done. split_and!; [done|set_solver|done].
  - rewrite bool_decide_false by done. split_and!; [done|set_solver|done].
Qed.

Lemma add_elements_ok els whole m0 (M : gmap positive (gset Z)) :
  let '(els', whole', m) := map_fold add_elements (els, whole, m0) M in
  whole' = whole /\
  (forall root, els' !! root = if decide (root ∈ whole) then els !! root
                 else union_with (fun x y => Some (x ∪ y)) (els !! root) (M !! root)) /\
  (m = false -> m0 = false /\ els' = els).
Proof.
  set (P := fun (st : add_state) (M : gmap positive (gset Z)) => let '(els', whole', m) := st in
    whole' = whole /\
    (forall root, els' !! root = if decide (root ∈ whole) then els !! root
                   else union_with (fun x y => Some (x ∪ y)) (els !! root) (M !! root)) /\
    (m = false -> m0 = false /\ els' = els)).
  apply (map_fold_weak_ind P); unfold P; clear P.
  { split_and!; [done| |done]. intros root. rewrite lookup_empty. case_decide; [done|]. by destruct (els !! root). }
  intros x ds M' [[els' whole'] m] Hx (-> & He & Hm). unfold add_elements.
  destruct (decide (x ∈ whole)) as [Hin|Hin].
  { rewrite bool_decide_true by done. split; [done|]. split; [|done]. intros root. rewrite He.
    case_decide; [done|]. rewrite lookup_insert_ne by set_solver. done. }
  rewrite bool_decide_false by done.
  pose proof (He x) as Hex. rewrite decide_False, Hx in Hex by done.
  assert (els' !! x = els !! x) as E0 by (rewrite Hex; by destruct (els !! x)).
  assert (forall v, union_with (fun x y => Some (x ∪ y)) (els !! x) (Some ds) = Some v ->
    forall root, <[x := v]> els' !! root = if decide (root ∈ whole) then els !! root
      else union_with (fun x y => Some (x ∪ y)) (els !! root) (<[x := ds]> M' !! root)) as Hi.
  { intros v Hv root. destruct (decide (root = x)) as [->|Hn].
    - by rewrite !lookup_insert_eq, decide_False.
    - by rewrite !lookup_insert_ne. }
  rewrite E0. destruct (els !! x) as [dis|] eqn:Ex.
  - rewrite DenseSet_add_ok. cbn [fst snd]. split; [done|]. split; [by apply Hi|].
    intros [-> Hs%negb_false_iff%bool_decide_eq_true]%orb_false_iff. destruct (Hm eq_refl) as [-> ->].
    split; [done|]. apply insert_id. rewrite Ex. f_equal. set_solver.
  - split; [done|]. split; [by apply Hi|done].
Qed.

Lemma add_ok s b :
  let s' := fst (add s b) in
  exprs s' = exprs s ++ exprs b /\ wholeObjects s' = wholeObjects s ∪ wholeObjects b /\
  (forall root, ies_elements s' !! root =
     if decide (root ∈ wholeObjects b) then None
     else if decide (root ∈ wholeObjects s) then ies_elements s !! root
     else union_with (fun x y => Some (x ∪ y)) (ies_elements s !! root) (ies_elements b !! root)) /\
  (snd (add s b) = false -> same_sets s' s).
Proof.
  unfold add. pose proof (add_whole_ok (ies_elements s) (wholeObjects s) (wholeObjects b)) as H1.
  destruct (set_fold add_whole _ _) as [[els whole] m]. destruct H1 as (He & -> & Hm).
  pose proof (add_elements_ok els (wholeObjects s ∪ wholeObjects b) m (ies_elements b)) as H2.
  destruct (map_fold add_elements _ _) as [[els' whole'] m']. destruct H2 as (-> & He' & Hm').
  cbn [fst snd exprs wholeObjects ies_elements]. split_and!; [done|done| |].
  - intros root. rewrite He', He. repeat case_decide; try done; set_solver.
  - intros H. destruct (Hm' H) as [H' ->]. destruct (Hm H') as [-> Hw]. done.
Qed.
End sets.

(** ** What a set says of its expressions *)
Section framed.
Context {A : APInt} {L : APIntLaws A} {AR : Arrays}.
Context (checked : bool).
Context (Hdom : small_domains).

(** The read is recorded, if it can see a byte. *)
Definition tracked (s : IndependentElementSet) (root : positive) (u : updates) (i : expr) : Prop :=
  sees root u = true -> root ∈ wholeObjects s \/ exists c, i = Constant c /\ covers s root (uval c).

Definition framed (s : IndependentElementSet) (e : expr) : Prop := all_reads (tracked s) e.

(** The arrays of a set are well-formed and its indices inside them. *)
Definition sets_wf (s : IndependentElementSet) : Prop :=
  (forall root, root ∈ ies_arrays s -> wt_array (arrayAt root)) /\
  (forall root i, i ∈ indices s root -> in_array root i).

(** [s'] records what [s] does. *)
Definition extends (s s' : IndependentElementSet) : Prop :=
  (forall root, root ∈ wholeObjects s -> root ∈ wholeObjects s') /\
  (forall root i, covers s root i -> covers s' root i) /\
  (forall root, root ∈ ies_arrays s -> root ∈ ies_arrays s').

Lemma tracked_extends s s' root u i : extends s s' -> tracked s root u i -> tracked s' root u i.
Proof.
  intros (Hw & Hc & _) Ht Hs. destruct (Ht Hs) as [?|(c & -> & ?)]; [left; auto|right].
  exists c. auto.
Qed.

Lemma all_reads_weaken_both (Q Q' : positive -> updates -> expr -> Prop) :
  (forall root u i, Q root u i -> Q' root u i) ->
  (forall e, all_reads Q e -> all_reads Q' e) /\ (forall u, all_reads_updates Q u -> all_reads_updates Q' u).
Proof.
  intros H. apply expr_updates_ind; intros; rewrite ?all_reads_Read, ?all_reads_UNode in *; cbn [all_reads] in *;
    destruct_and?; split_and?; auto; done.
Qed.

Lemma framed_extends s s' e : extends s s' -> framed s e -> framed s' e.
Proof. intros H. apply all_reads_weaken_both. intros. by eapply tracked_extends. Qed.

(** The frame of an expression: the symbolic bytes its set covers. *)
Lemma framed_within s e ρ :
  framed s e -> within checked (fun root i => isSymbolicArray (arrayAt root) = true -> covers s root i) ρ e.
Proof.
  apply all_reads_within. intros root u i v Ht Hv Hs. destruct Ht as [?|(c & -> & Hc)].
  - unfold sees, isConstantArray. by rewrite Hs.
  - by left.
  - by injection Hv as <-.
Qed.

(** The expressions the solver is proved for. *)
Definition framable (e : expr) : Prop := wt e /\ in_bounds checked e.

Lemma framable_children e : framable e -> wt e /\ Forall framable (children e).
Proof.
  intros [Hwt Hb]. split; [done|]. pose proof (children_wt e Hwt) as Hc.
  enough (Forall (in_bounds checked) (children e)) as Hb'.
  { rewrite Forall_forall in Hc, Hb' |- *. intros x Hx. split; auto. }
  apply Forall_forall. intros x Hx ρ. specialize (Hb ρ).
  assert (forall u, within_updates checked in_array ρ u -> x ∈ update_exprs u -> within checked in_array ρ x) as Hu.
  { induction u as [|i v n IH]; rewrite ?within_UNode; cbn [update_exprs]; [by intros _ ?%not_elem_of_nil|].
    intros (? & ? & ?) [->|[->|?]%elem_of_cons]%elem_of_cons; auto. }
  destruct e; cbn [children kids] in Hx; rewrite ?within_Read in Hb; cbn [within] in Hb; destruct_and?;
    repeat match goal with H : x ∈ [] |- _ => by apply not_elem_of_nil in H | H : x ∈ _ :: _ |- _ => apply elem_of_cons in H as [->|H] end;
    eauto.
Qed.

(** Removing an array's indices for the whole array. *)
Lemma add_read_ok s re :
  sets_wf s -> framable (read_expr re) ->
  exists s', add_read s re = Ok s' /\ sets_wf s' /\ extends s s' /\ exprs s' = exprs s /\
    tracked s' (read_root re) (read_head re) (read_index re) /\
    (ies_arrays s' = ∅ -> sees (read_root re) (read_head re) = false).
Proof.
  destruct re as [root u i]. unfold read_expr, add_read. cbn [read_root read_head read_index].
  intros (Hwa & Hwi) [Hwt Hb]. destruct Hwt as (Ha & Hu & Hi & Hiw).
  change (match u with UNil => true | UNode _ _ _ => false end) with
    (match u with UNil => true | _ => false end).
  destruct (isConstantArray (arrayAt root) && _) eqn:Es.
  { exists s. split; [done|]. split; [done|]. split; [done|]. split; [done|].
    assert (sees root u = false) as E by (unfold sees; by rewrite Es).
    split; [|done]. intros Hs. congruence. }
  destruct (decide (root ∈ wholeObjects s)) as [Hin|Hin].
  { rewrite bool_decide_true by done. exists s. split_and!; try done; [by left|].
    intros E. unfold ies_arrays in E. set_solver. }
  rewrite bool_decide_false by done.
  assert (forall j, match i with Constant c => False | _ => True end -> exists s',
    Ok (MkSet (delete root (ies_elements s)) ({[root]} ∪ wholeObjects s) (exprs s)) = Ok s' /\ sets_wf s' /\
    extends s s' /\ exprs s' = exprs s /\ tracked s' root u j /\ (ies_arrays s' = ∅ -> sees root u = false)) as Hwhole.
  { intros j _. eexists. split; [done|]. unfold tracked, sets_wf, extends, covers, ies_arrays, indices.
    cbn [ies_elements wholeObjects exprs].
    assert (forall r, r ∈ dom (delete root (ies_elements s)) ∪ ({[root]} ∪ wholeObjects s) ->
      r = root \/ r ∈ ies_arrays s) as Hr.
    { intros r. unfold ies_arrays. rewrite dom_delete_L. set_solver. }
    split_and!.
    - intros r [->|?]%Hr; [done|auto].
    - intros r j' Hj. destruct (decide (r = root)) as [->|Hn]; [by rewrite lookup_delete_eq in Hj|].
      rewrite lookup_delete_ne in Hj by done. by apply Hwi.
    - set_solver.
    - intros r j' [?|Hj]; [left; set_solver|]. destruct (decide (r = root)) as [->|Hn]; [left; set_solver|].
      right. by rewrite lookup_delete_ne.
    - intros r. rewrite dom_delete_L. destruct (decide (r = root)); set_solver.
    - done.
    - intros _. left. set_solver.
    - set_solver. }
  destruct i as [c| | | | | | | |]; try (by apply Hwhole). clear Hwhole.
  assert (domain (arrayAt root) <= 32) as Hd by apply Hdom. cbn in Hiw.
  assert (in_array root (uval c)) as Hci.
  { pose proof (Hb (fun _ _ => 0)) as Hb0. rewrite within_Read in Hb0. by apply Hb0. }
  unfold getZExtValue. rewrite (proj2 (Z.leb_le _ _)) by lia. cbn [res_assert res_bind].
  rewrite wrap_small.
  2:{ unfold in_array in Hci. destruct Ha as (_ & _ & Hs & _). lia. }
  eexists. split; [done|]. unfold tracked, sets_wf, extends, covers, ies_arrays, indices.
  cbn [ies_elements wholeObjects exprs].
  assert (forall r, default ∅ (<[root := {[uval c]} ∪ default ∅ (ies_elements s !! root)]> (ies_elements s) !! r) =
    (if decide (r = root) then {[uval c]} else ∅) ∪ indices s r) as Hr.
  { intros r. unfold indices. case_decide as Hn.
    - subst r. by rewrite lookup_insert_eq.
    - rewrite lookup_insert_ne by done. set_solver. }
  split_and!.
  - intros r. rewrite dom_insert_L. intros Hr'. destruct (decide (r = root)) as [->|Hn]; [done|].
    apply Hwa. unfold ies_arrays. set_solver.
  - intros r j. rewrite Hr. case_decide as Hn; [|rewrite elem_of_union; intros [?|?]; [set_solver|auto]].
    subst r. rewrite elem_of_union, elem_of_singleton. intros [->|?]; [done|auto].
  - done.
  - intros r j. rewrite Hr. unfold indices. set_solver.
  - intros r. rewrite dom_insert_L. set_solver.
  - done.
  - intros _. right. exists c. split; [done|]. right. rewrite Hr, decide_True by done. set_solver.
  - rewrite dom_insert_L. set_solver.
Qed.

Lemma add_reads_ok reads : forall s,
  sets_wf s -> Forall (fun re => framable (read_expr re)) reads ->
  exists s', add_reads reads s = Ok s' /\ sets_wf s' /\ extends s s' /\ exprs s' = exprs s /\
    Forall (fun re => tracked s' (read_root re) (read_head re) (read_index re)) reads.
Proof.
  induction reads as [|re reads IH]; intros s Hs Hr; cbn [add_reads]; [by exists s|].
  apply Forall_cons_iff in Hr as [Hre Hr].
  destruct (add_read_ok s re Hs Hre) as (s1 & -> & H1 & He1 & Hx1 & Ht1 & _). cbn [res_bind].
  destruct (IH s1 H1 Hr) as (s' & -> & Hs' & He' & Hx' & Ht'). exists s'. split_and!; try done; [|congruence|].
  - destruct He1 as (? & ? & ?), He' as (? & ? & ?). split_and!; auto.
  - constructor; [|done]. by eapply tracked_extends.
Qed.

(** A recorded read tracks the reads equal to it. *)
Lemma tracked_same s root u i re :
  same (Read root u i) (read_expr re) -> tracked s (read_root re) (read_head re) (read_index re) -> tracked s root u i.
Proof.
  intros H Ht. destruct re as [r u' i']. unfold read_expr in H. cbn in *. inversion H; subst. intros Hs.
  destruct Ht as [?|(c & -> & ?)].
  - unfold sees in *. by match goal with H : same_updates _ _ |- _ => inversion H; subst end.
  - by left.
  - right. match goal with H : same _ (Constant _) |- _ => inversion H as [v ? ? Ev| | | | | | | |]; subst end.
    exists v. split; [done|]. by rewrite Ev.
Qed.

Lemma IndependentElementSet_new_ok e :
  framable e -> exists s, IndependentElementSet_new e = Ok s /\ sets_wf s /\ exprs s = [e] /\ framed s e /\
    (ies_arrays s = ∅ \/ isConstant e = false).
Proof.
  intros He. unfold IndependentElementSet_new. destruct (isConstant e) eqn:Hc.
  { destruct e; try done. eexists. split; [done|]. unfold sets_wf, ies_arrays, indices. cbn.
    split_and!; [intros; set_solver|intros; set_solver|done|done|left; set_solver]. }
  destruct (findReads_ok framable framable_children e He) as (results & -> & Hr & Hall). cbn [res_bind].
  destruct (add_reads_ok results (MkSet ∅ ∅ [e])) as (s & -> & Hs & _ & Hx & Ht); [|done|].
  { unfold sets_wf, ies_arrays, indices. cbn. split; intros; set_solver. }
  exists s. split_and!; [done..| |by right]. revert Hall. apply all_reads_weaken_both.
  intros root u i (r & Hr' & Hsame). eapply tracked_same; [exact Hsame|].
  rewrite Forall_forall in Ht. by apply Ht.
Qed.
End framed.

(** ** The partitions *)
Section partition.
Context {A : APInt} {L : APIntLaws A} {AR : Arrays}.
Context (checked : bool).

Lemma add_extends s b : extends s (fst (add s b)) /\ extends b (fst (add s b)).
Proof.
  destruct (add_ok s b) as (_ & Hw & He & _).
  assert (forall root, root ∈ wholeObjects s \/ root ∈ wholeObjects b -> root ∈ wholeObjects (fst (add s b))) as H1.
  { intros root. rewrite Hw. set_solver. }
  assert (forall root i, covers s root i \/ covers b root i -> covers (fst (add s b)) root i) as H2.
  { intros root i H. unfold covers, indices in *. rewrite He, Hw, elem_of_union.
    destruct (decide (root ∈ wholeObjects b)); [tauto|]. destruct (decide (root ∈ wholeObjects s)); [tauto|]. right.
    destruct (ies_elements s !! root), (ies_elements b !! root); cbn in H |- *;
      rewrite ?elem_of_union, ?elem_of_empty in *; tauto. }
  assert (forall root, root ∈ ies_arrays s \/ root ∈ ies_arrays b -> root ∈ ies_arrays (fst (add s b))) as H3.
  { intros root H. unfold ies_arrays in *. rewrite !elem_of_union, !elem_of_dom, He, Hw, ?elem_of_union in *.
    destruct (decide (root ∈ wholeObjects b)); [tauto|]. destruct (decide (root ∈ wholeObjects s)); [tauto|].
    left. destruct (ies_elements s !! root), (ies_elements b !! root); cbn; try by eexists.
    destruct H as [[[? ?]|?]|[[? ?]|?]]; done. }
  split; split_and!; auto.
Qed.

Lemma add_sets_wf s b : sets_wf s -> sets_wf b -> sets_wf (fst (add s b)).
Proof.
  intros [Has Hs] [Hab Hb]. destruct (add_ok s b) as (_ & Hw & He & _). split.
  - intros root. unfold ies_arrays in *. rewrite elem_of_union, elem_of_dom, He, Hw, elem_of_union. intros H.
    destruct (decide (root ∈ wholeObjects b)); [apply Hab; set_solver|].
    destruct (decide (root ∈ wholeObjects s)); [apply Has; set_solver|].
    destruct H as [[d H]|?]; [|tauto].
    destruct (ies_elements s !! root) eqn:E; [apply Has; rewrite elem_of_union, elem_of_dom; left; by eexists|].
    destruct (ies_elements b !! root) eqn:E'; [apply Hab; rewrite elem_of_union, elem_of_dom; left; by eexists|]. done.
  - intros root i. unfold indices in *. rewrite He. intros H. specialize (Hs root i). specialize (Hb root i).
    destruct (decide (root ∈ wholeObjects b)); [by apply elem_of_empty in H|].
    destruct (decide (root ∈ wholeObjects s)); [auto|].
    destruct (ies_elements s !! root), (ies_elements b !! root); cbn in H, Hs, Hb;
      rewrite ?elem_of_union, ?elem_of_empty in *; tauto.
Qed.

(** A factor: its sets are well-formed, record what its expressions read, and
    cover some byte unless it is a single constant. *)
Definition factor_wf (s : IndependentElementSet) : Prop :=
  sets_wf s /\ exprs s <> [] /\ Forall (framed s) (exprs s) /\
  (ies_arrays s = ∅ \/ Forall (fun e => isConstant e = false) (exprs s)).

Lemma add_framed s b es es' :
  Forall (framed s) es -> Forall (framed b) es' -> Forall (framed (fst (add s b))) (es ++ es').
Proof.
  intros Hs Hb. destruct (add_extends s b) as [Es Eb]. apply Forall_app. split.
  - eapply Forall_impl; [exact Hs|]. intros e. by apply framed_extends.
  - eapply Forall_impl; [exact Hb|]. intros e. by apply framed_extends.
Qed.

Lemma add_factor_wf s b :
  factor_wf s -> factor_wf b -> intersects s b = true -> factor_wf (fst (add s b)).
Proof.
  intros (Hs & Hne & Hf & Hc) (Hb & Hne' & Hf' & Hc') Hi. destruct (add_ok s b) as (He & _).
  apply intersects_arrays in Hi as [Hi Hi'].
  split; [by apply add_sets_wf|]. rewrite He. split; [by destruct (exprs s)|]. split; [by apply add_framed|].
  right. apply Forall_app. tauto.
Qed.

(** [keep] holds sets of [fs] only, up to their expressions. *)
Definition among (fs fs' : list IndependentElementSet) : Prop :=
  Forall (fun x => exists y, y ∈ fs /\ same_sets x y) fs'.

Lemma absorb_ok fs : forall current,
  factor_wf current -> Forall factor_wf fs ->
  let '(c, keep, changed) := absorb current fs in
  factor_wf c /\ Forall factor_wf keep /\ (length keep <= length fs)%nat /\
  (changed = true -> (length keep < length fs)%nat) /\
  exprs c ++ (keep ≫= exprs) ≡ₚ exprs current ++ (fs ≫= exprs) /\
  (changed = false -> same_sets c current /\ Forall (separate c) keep /\ among fs keep).
Proof.
  induction fs as [|f fs IH]; intros current Hc Hfs; cbn [absorb].
  { split_and!; try done. intros _. split; [done|]. split; constructor. }
  apply Forall_cons_iff in Hfs as [Hf Hfs]. destruct (intersects current f) eqn:Hi.
  - destruct (add_ok current f) as (He & _ & _ & Hm). specialize (IH _ (add_factor_wf _ _ Hc Hf Hi) Hfs).
    destruct (absorb (fst (add current f)) fs) as [[c keep] changed].
    destruct IH as (Hwc & Hk & Hl & Hlt & Hp & Hs). split_and!; [done|done|cbn; lia|cbn; lia| |].
    + rewrite Hp, He. cbn. by rewrite (assoc (++)).
    + intros [Hm' ->]%orb_false_iff. specialize (Hm Hm'). destruct (Hs eq_refl) as ([E1 E2] & Hsep & Ham).
      destruct Hm as [E3 E4]. split; [split; congruence|]. split; [done|].
      eapply Forall_impl; [exact Ham|]. intros x (y & ? & ?). exists y. split; [by right|done].
  - specialize (IH _ Hc Hfs). destruct (absorb current fs) as [[c keep] changed].
    destruct IH as (Hwc & Hk & Hl & Hlt & Hp & Hs). split_and!; [done|by constructor|cbn; lia|cbn; intros ?%Hlt; lia| |].
    + cbn. rewrite (assoc (++) (exprs c)), (Permutation_app_comm (exprs c)), <- (assoc (++)), Hp.
      rewrite !(assoc (++)). apply Permutation_app_tail, Permutation_app_comm.
    + intros ->. destruct (Hs eq_refl) as (Hsm & Hsep & Ham). split; [done|]. split.
      * constructor; [|done]. apply (same_sets_separate current); [by destruct Hsm|by apply intersects_separate].
      * constructor; [exists f; split; [by left|done]|].
        eapply Forall_impl; [exact Ham|]. intros x (y & ? & ?). exists y. split; [by right|done].
Qed.

Lemma factor_pass_ok fuel : forall fs,
  Forall factor_wf fs -> (length fs <= fuel)%nat ->
  exists fs' changed, factor_pass fuel fs = Ok (fs', changed) /\ Forall factor_wf fs' /\
    (length fs' <= length fs)%nat /\ (changed = true -> (length fs' < length fs)%nat) /\
    (fs' ≫= exprs) ≡ₚ (fs ≫= exprs) /\
    (changed = false -> ForallOrdPairs separate fs' /\ among fs fs').
Proof.
  induction fuel as [|fuel IH]; intros [|current fs] Hfs Hl; cbn [factor_pass].
  1, 3: exists [], false; split_and!; try done; intros _; split; constructor.
  { cbn in Hl. lia. }
  apply Forall_cons_iff in Hfs as [Hc Hfs]. pose proof (absorb_ok fs current Hc Hfs) as Ha.
  destruct (absorb current fs) as [[c keep] changed]. destruct Ha as (Hwc & Hk & Hl' & Hlt & Hp & Hs).
  cbn in Hl. destruct (IH keep Hk) as (fs' & changed' & -> & Hw & Hlen & Hlt' & Hp' & Hs'); [lia|].
  cbn [res_bind fst snd]. exists (c :: fs'), (changed || changed'). split; [done|].
  split; [by constructor|]. cbn [length]. split; [lia|]. split; [|split].
  - intros [H|H]%orb_true_iff; [apply Hlt in H; lia|apply Hlt' in H; lia].
  - cbn. by rewrite Hp'.
  - intros [-> ->]%orb_false_iff. destruct (Hs eq_refl) as (Hsm & Hsep & Ham).
    destruct (Hs' eq_refl) as [Hord Ham'].
    assert (among fs fs') as Ham2.
    { unfold among in *. rewrite Forall_forall in Ham, Ham' |- *. intros x Hx.
      destruct (Ham' x Hx) as (y & Hy & [E1 E2]). destruct (Ham y Hy) as (z & Hz & [E3 E4]).
      exists z. split; [done|]. split; congruence. }
    split; constructor.
    + unfold among in Ham'. rewrite Forall_forall in Ham', Hsep |- *. intros x Hx.
      destruct (Ham' x Hx) as (y & Hy & [E1 E2]). apply separate_sym.
      apply (same_sets_separate y); [by split|]. by apply separate_sym, Hsep.
    + done.
    + exists current. split; [by left|done].
    + eapply Forall_impl; [exact Ham2|]. intros x (y & ? & ?). exists y. split; [by right|done].
Qed.

(** The rounds end: one that changes a set leaves fewer factors. *)
Lemma factor_loop_ok fuel : forall fs,
  Forall factor_wf fs -> (length fs < fuel)%nat ->
  exists fs', factor_loop fuel fs = Ok fs' /\ Forall factor_wf fs' /\ ForallOrdPairs separate fs' /\
    (fs' ≫= exprs) ≡ₚ (fs ≫= exprs).
Proof.
  induction fuel as [|fuel IH]; intros fs Hfs Hl; [lia|]. cbn [factor_loop].
  destruct (factor_pass_ok (length fs) fs Hfs) as (fs' & changed & -> & Hw & Hlen & Hlt & Hp & Hs); [lia|].
  cbn [res_bind fst snd]. destruct changed.
  - specialize (Hlt eq_refl). destruct (IH fs' Hw) as (fs'' & -> & ? & ? & Hp'); [lia|].
    exists fs''. split_and!; try done. by rewrite Hp'.
  - exists fs'. split_and!; try done. by apply Hs.
Qed.

Context (Hdom : small_domains).
Notation framable := (framable checked).

Lemma sets_of_ok es :
  Forall framable es ->
  exists ss, sets_of es = Ok ss /\
    Forall2 (fun e s => exprs s = [e] /\ sets_wf s /\ framed s e /\ (ies_arrays s = ∅ \/ isConstant e = false)) es ss.
Proof.
  induction 1 as [|e es He Hes (ss & IH & IHs)]; cbn [sets_of]; [by exists []|].
  destruct (IndependentElementSet_new_ok checked Hdom e He) as (s & -> & ? & ? & ? & ?). cbn [res_bind].
  rewrite IH. cbn. exists (s :: ss). split; [done|]. by constructor.
Qed.

(** The factors partition the expressions and share no byte. *)
Lemma factors_ok (opt : bool) q es :
  factor_exprs opt q = Ok es -> Forall framable es ->
  exists fs, getAllIndependentConstraintsSets opt q = Ok fs /\ Forall factor_wf fs /\
    ForallOrdPairs separate fs /\ (fs ≫= exprs) ≡ₚ es.
Proof.
  intros E Hes. unfold getAllIndependentConstraintsSets. rewrite E. cbn [res_bind].
  destruct (sets_of_ok es Hes) as (ss & -> & Hss). cbn [res_bind].
  assert (Forall factor_wf ss /\ (ss ≫= exprs) = es) as [Hw Hx].
  { clear -Hss. induction Hss as [|e s es ss (He & ? & ? & Hc) _ [IH1 IH2]]; [by split|]. split.
    - constructor; [|done]. unfold factor_wf. rewrite He. split_and!; [done..|by constructor|].
      destruct Hc; [by left|right; by constructor].
    - cbn. by rewrite He, IH2. }
  destruct (factor_loop_ok (S (length ss)) ss Hw) as (fs & -> & ? & ? & ?); [lia|].
  exists fs. rewrite <- Hx. by split_and!.
Qed.

(** ** The closure of a query *)

Definition item_wf (it : expr * IndependentElementSet) : Prop := sets_wf (snd it) /\ framed (snd it) (fst it).

Lemma closure_pass_ok wl : forall c es,
  sets_wf c -> Forall (framed c) es -> Forall item_wf wl ->
  let '(c', found, new, changed) := closure_pass c wl in
  sets_wf c' /\ Forall (framed c') (es ++ found) /\ Forall item_wf new /\
  found ++ new.*1 ≡ₚ wl.*1 /\ (length new <= length wl)%nat /\ (changed = true -> (length new < length wl)%nat) /\
  (changed = false -> same_sets c' c /\ Forall (fun it => separate c' (snd it)) new).
Proof.
  induction wl as [|[e s] wl IH]; intros c es Hc Hes Hwl; cbn [closure_pass].
  { rewrite app_nil_r. split_and!; done. }
  apply Forall_cons_iff in Hwl as [[Hs Hf] Hwl]. cbn [fst snd] in *. destruct (intersects s c) eqn:Hi.
  - destruct (add_ok c s) as (_ & _ & _ & Hm).
    specialize (IH (fst (add c s)) (es ++ [e]) (add_sets_wf _ _ Hc Hs)
      (add_framed c s es [e] Hes ltac:(by constructor)) Hwl).
    destruct (closure_pass (fst (add c s)) wl) as [[[c' found] new] changed].
    destruct IH as (Hc' & Hes' & Hn & Hp & Hl & Hlt & Hsep). split_and!; [done| |done| |cbn; lia|cbn; lia|].
    + by rewrite <- (assoc (++)) in Hes'.
    + cbn. by rewrite Hp.
    + intros [Hm' ->]%orb_false_iff. destruct (Hm Hm') as [E1 E2]. destruct (Hsep eq_refl) as [[E3 E4] ?].
      split; [split; congruence|done].
  - specialize (IH c es Hc Hes Hwl). destruct (closure_pass c wl) as [[[c' found] new] changed].
    destruct IH as (Hc' & Hes' & Hn & Hp & Hl & Hlt & Hsep).
    split_and!; [done|done|by constructor| |cbn; lia|cbn; intros ?%Hlt; lia|].
    + cbn. rewrite <- Hp. symmetry. apply Permutation_middle.
    + intros ->. destruct (Hsep eq_refl) as [[E1 E2] ?]. split; [done|]. constructor; [|done].
      apply (same_sets_separate c); [by split|]. by apply separate_sym, intersects_separate.
Qed.

Lemma closure_loop_ok fuel : forall c es wl result,
  sets_wf c -> Forall (framed c) (es ++ result) -> Forall item_wf wl -> (length wl < fuel)%nat ->
  exists c' result' rest, closure_loop fuel c wl result = Ok (c', result') /\
    Forall (framed c') (es ++ result') /\ result' ++ rest.*1 ≡ₚ result ++ wl.*1 /\
    Forall item_wf rest /\ Forall (fun it => separate c' (snd it)) rest.
Proof.
  induction fuel as [|fuel IH]; intros c es wl result Hc Hes Hwl Hl; [lia|]. cbn [closure_loop].
  pose proof (closure_pass_ok wl c (es ++ result) Hc Hes Hwl) as H.
  destruct (closure_pass c wl) as [[[c1 found] new] changed].
  destruct H as (Hc1 & Hes1 & Hn & Hp & Hlen & Hlt & Hsep). rewrite <- (assoc (++)) in Hes1. destruct changed.
  - specialize (Hlt eq_refl). destruct (IH c1 es new (result ++ found) Hc1 Hes1 Hn) as (c' & r' & rest & -> & ? & Hp' & ? & ?); [lia|].
    exists c', r', rest. split_and!; try done. by rewrite Hp', <- (assoc (++)), Hp.
  - exists c1, (result ++ found), new. split_and!; try done; [by rewrite <- (assoc (++)), Hp|by apply Hsep].
Qed.

(** The required constraints and the others share no byte. *)
Lemma getIndependentConstraints_ok q :
  framable (query_expr q) -> Forall framable (constraints q) ->
  exists c required rest, getIndependentConstraints q = Ok (c, required) /\
    Forall (framed c) (query_expr q :: required) /\ required ++ rest.*1 ≡ₚ constraints q /\
    Forall item_wf rest /\ Forall (fun it => separate c (snd it)) rest.
Proof.
  intros He Hcs. unfold getIndependentConstraints.
  destruct (IndependentElementSet_new_ok checked Hdom _ He) as (s & -> & Hs & _ & Hf & _). cbn [res_bind].
  destruct (sets_of_ok _ Hcs) as (ss & -> & Hss). cbn [res_bind].
  assert (Forall item_wf (zip (constraints q) ss) /\ (zip (constraints q) ss).*1 = constraints q) as [Hw Hz].
  { clear -Hss. induction Hss as [|e s es ss (_ & ? & ? & _) _ [IH1 IH2]]; [by split|]. cbn. rewrite IH2.
    split; [|done]. by constructor. }
  destruct (closure_loop_ok (S (length (constraints q))) s [query_expr q] (zip (constraints q) ss) []) as
    (c & req & rest & -> & ? & Hp & ? & ?); [done|by constructor|done| |].
  { rewrite <- Hz at 2. rewrite length_fmap. lia. }
  exists c, req, rest. split_and!; try done. by rewrite Hp, Hz.
Qed.
End partition.

(** ** Properties *)

(** C30. The factors of a query partition its expressions: splitting ends, each
    constraint, and the negated expression, is in exactly one factor, the sets
    of a factor record every read of its expressions that can see a byte, and
    two factors share no byte. *)
Theorem factors_partition `{A : APInt} {L : APIntLaws A} {AR : Arrays} (opt checked : bool) q es :
  small_domains -> factor_exprs opt q = Ok es -> Forall (fun e => wt e /\ in_bounds checked e) es ->
  exists fs, getAllIndependentConstraintsSets opt q = Ok fs /\
    (fs ≫= exprs) ≡ₚ es /\ Forall (fun f => Forall (framed f) (exprs f)) fs /\
    ForallOrdPairs (fun f g => forall root i, covers f root i -> covers g root i -> False) fs.
Proof.
  intros Hdom E Hes. destruct (factors_ok checked Hdom opt q es E Hes) as (fs & Efs & Hw & Hord & Hp).
  exists fs. split_and!; [done|done| |].
  - eapply Forall_impl; [exact Hw|]. by intros f (_ & _ & ? & _).
  - clear -Hord. induction Hord as [|f fs Hf Hord IH]; constructor; [|done].
    eapply Forall_impl; [exact Hf|]. intros g Hg root i. by apply separate_covers.
Qed.

(** ** Witnesses *)
Section witnesses.
#[local] Existing Instance Examples.arrays.
Import Examples ScopeExamples.

(* a[0] < a[1], a[2] < a[3], and a[1] < a[4] *)
Definition chained : list expr :=
  [Binary Ult (a_at 0) (a_at 1); Binary Ult (a_at 2) (a_at 3); Binary Ult (a_at 1) (a_at 4)].

Definition chained_query : Query := MkQuery chained (const_alloc 0 1).

Lemma chained_ok : Forall (fun e => wt e /\ in_bounds false e) chained.
Proof.
  pose proof wt_a. apply Forall_forall. intros e He. unfold chained in He. rewrite !elem_of_cons in He.
  destruct He as [->|[->|[->|He%elem_of_nil]]]; [..|done];
    (split; [cbn; split_and!; try done; cbn; lia|intros ρ; split; apply a_at_in_bounds; lia]).
Qed.

(** Two factors: the first and the third constraint share [a[1]]. *)
Lemma factors_partition_witness :
  length <$> (match getAllIndependentConstraintsSets false chained_query with Ok fs => Some fs | _ => None end) = Some 2%nat /\
  exists fs, getAllIndependentConstraintsSets false chained_query = Ok fs /\
    (fs ≫= exprs) ≡ₚ chained /\ Forall (fun f => Forall (framed f) (exprs f)) fs /\
    ForallOrdPairs (fun f g => forall root i, covers f root i -> covers g root i -> False) fs.
Proof.
  split; [reflexivity|]. apply (factors_partition false false chained_query chained);
    [apply sample_small_domains|reflexivity|exact chained_ok].
Defined.
End witnesses.
