(* ===== verification/IndependentSolver.v ===== *)
(** The independence solver of klee/lib/Solver/IndependentSolver.cpp, over the
    partitions of [Independence.v].

    The truth, the validity and a value of a query are asked under the
    constraints it depends on only; initial values are asked of every factor
    and put together in [retMap].  [IndependentSolver_contract]: the wrapper
    keeps the contract of the solver below for [evaluable] expressions.  A
    solution of the required constraints is merged with one of the others
    ([merge]), since the two sets of bytes are disjoint; the values of the
    factors fit together for the same reason, so that the final assertion of
    [computeInitialValues], which evaluates every constraint at the point
    found, holds. *)
From Stdlib Require Import ZArith Lia Bool Sorted.
From stdpp Require Import base list numbers option gmap sets.
From S2P Require Import Prelude APInt Expr ExprCreate ExprSem ExprCompare ExprCreateCorrect ExprFactory ExprVisitor ExprReads ExprEval ExprClosed ExprUtil FindReads Solver SolverScope Independence.
Open Scope Z_scope.

Section independent.
Context {A : APInt} {AR : Arrays}.
Context (ConstArrayOpt UseVisitorHash : bool).

(* retMap[arr], an entry that exists *)
Fixpoint bindings_set (os : positive) (arr : list Z) (bs : bindings_ty) : bindings_ty :=
  match bs with
  | [] => []
  | (k, vs) :: bs' => if Pos.eqb k os then (k, arr) :: bs' else (k, vs) :: bindings_set os arr bs'
  end.

(* ( *tempPtr)[index] = values[index], for the indices *)
Fixpoint place (indices : list Z) (values temp : list Z) : res (list Z) :=
  match indices with
  | [] => Ok temp
  | index :: indices' =>
      match values !! Z.to_nat index with
      | None => AssertFail (* past the end *)
      | Some b =>
          assert* Nat.ltb (Z.to_nat index) (length temp) in
          place indices' values (<[Z.to_nat index := b]> temp)
      end
  end.

(* the answer for one array of a factor *)
Definition record_answer (it : IndependentElementSet) (arr : positive) (values : list Z) (retMap : bindings_ty) :
    res bindings_ty :=
  match bindings_find arr retMap with
  | Some temp =>
      assert* Nat.eqb (length temp) (length values) in
      let ds := default ∅ (ies_elements it !! arr) in
      let* temp := place (elements ds) values temp in
      Ok (bindings_set arr temp retMap)
  | None => Ok (bindings_insert arr values retMap)
  end.

Fixpoint record_answers (it : IndependentElementSet) (arrays : list positive) (tempValues : list (list Z))
    (retMap : bindings_ty) : res bindings_ty :=
  match arrays, tempValues with
  | arr :: arrays', values :: tempValues' =>
      let* retMap := record_answer it arr values retMap in
      record_answers it arrays' tempValues' retMap
  | _, _ => Ok retMap
  end.

(* every constraint evaluates to a constant; false if one is false *)
Fixpoint all_evaluate_true (assign : Assignment) (cs : list expr) : res bool :=
  match cs with
  | [] => Ok true
  | c :: cs' =>
      let* ret := ExprEval.evaluate ConstArrayOpt UseVisitorHash assign c in
      match ret with
      | Constant v => if const_isFalse v then Ok false else all_evaluate_true assign cs'
      | _ => AssertFail
      end
  end.

Definition assertCreatedPointEvaluatesToTrue (query : Query) (objects : list positive) (values : list (list Z))
    (retMap : bindings_ty) : res bool :=
  let* assign := Assignment_new objects values true in
  let assign := {| allowFreeValues := allowFreeValues assign;
                   bindings := foldl (fun bs p => bindings_insert (fst p) (snd p) bs) (bindings assign) retMap |} in
  let* ok := all_evaluate_true assign (constraints query) in
  if ok then
    let* neg := createIsZero ConstArrayOpt (query_expr query) in
    let* q := ExprEval.evaluate ConstArrayOpt UseVisitorHash assign neg in
    match q with Constant v => Ok (const_isTrue v) | _ => AssertFail end
  else Ok false.

Context {S : Type} (solver : SolverImpl S).

(* the query under the constraints it depends on *)
Definition required_query (query : Query) : res Query :=
  let* p := getIndependentConstraints query in
  Ok (MkQuery (snd p) (query_expr query)).

Definition independent_computeValidity (query : Query) : state S (option Validity) :=
  do* q := slift (required_query query) in computeValidity solver q.

Definition independent_computeTruth (query : Query) : state S (option bool) :=
  do* q := slift (required_query query) in computeTruth solver q.

Definition independent_computeValue (query : Query) : state S (option expr) :=
  do* q := slift (required_query query) in computeValue solver q.

(* the loop over the factors: retMap, or the early return without a solution *)
Fixpoint solve_factors (factors : list IndependentElementSet) (retMap : bindings_ty) :
    state S (option (option bindings_ty)) :=
  match factors with
  | [] => sret (Some (Some retMap))
  | it :: factors' =>
      do* _ := slift (assert* Nat.leb 1 (length (exprs it)) in Ok tt) in
      let arraysInFactor := calculateArrayReferences it in
      match arraysInFactor with
      | [] => solve_factors factors' retMap
      | _ =>
          do* r := computeInitialValues solver (MkQuery (exprs it) (const_alloc 0 Bool_w)) arraysInFactor in
          match r with
          | None => sret None
          | Some None => sret (Some None)
          | Some (Some tempValues) =>
              do* retMap := slift (
                assert* Nat.eqb (length tempValues) (length arraysInFactor) in
                record_answers it arraysInFactor tempValues retMap) in
              solve_factors factors' retMap
          end
      end
  end.

(* the values of an object, zero if no factor mentions it *)
Definition object_values_of (retMap : bindings_ty) (arr : positive) : list Z :=
  match bindings_find arr retMap with
  | None => replicate (Z.to_nat (size (arrayAt arr))) 0
  | Some vs => vs
  end.

Definition independent_computeInitialValues (query : Query) (objects : list positive) :
    state S (option solution) :=
  do* factors := slift (getAllIndependentConstraintsSets ConstArrayOpt query) in
  do* r := solve_factors factors [] in
  match r with
  | None => sret None
  | Some None => sret (Some None)
  | Some (Some retMap) =>
      let values := map (object_values_of retMap) objects in
      do* ok := slift (assertCreatedPointEvaluatesToTrue query objects values retMap) in
      do* _ := slift (assert* ok in Ok tt) in
      sret (Some (Some values))
  end.

Definition IndependentSolver : SolverImpl S := {|
  computeTruth := independent_computeTruth;
  computeValidity := independent_computeValidity;
  computeValue := independent_computeValue;
  computeInitialValues := independent_computeInitialValues;
|}.

End independent.

(** ** Answers of the factors *)

Lemma bindings_find_set os arr bs k :
  is_Some (bindings_find os bs) ->
  bindings_find k (bindings_set os arr bs) = if Pos.eqb os k then Some arr else bindings_find k bs.
Proof.
  induction bs as [|[k' vs] bs IH]; cbn; [by intros [? ?]|]. intros H.
  destruct (Pos.eqb_spec k' os) as [->|Hne]; cbn; [by destruct (Pos.eqb os k)|].
  rewrite (IH H). destruct (Pos.eqb_spec k' k) as [->|]; [|done]. by destruct (Pos.eqb_spec os k) as [->|].
Qed.

Lemma bindings_set_Forall (P : positive * list Z -> Prop) os arr bs :
  P (os, arr) -> Forall P bs -> Forall P (bindings_set os arr bs).
Proof.
  intros HP. induction 1 as [|[k vs] bs Hk Hbs IH]; cbn; [done|].
  destruct (Pos.eqb_spec k os) as [->|]; by constructor.
Qed.

(** [place] overwrites the indices with the values. *)
Lemma place_ok (idx : list Z) (values : list Z) : forall temp,
  length temp = length values -> Forall (fun i => 0 <= i < Z.of_nat (length values)) idx ->
  exists temp', place idx values temp = Ok temp' /\ length temp' = length values /\
    forall i, 0 <= i -> temp' !! Z.to_nat i = if decide (i ∈ idx) then values !! Z.to_nat i else temp !! Z.to_nat i.
Proof.
  induction idx as [|j idx IH]; intros temp Hl Hr; cbn [place].
  { exists temp. split_and!; [done..|]. intros i _. by rewrite decide_False by apply not_elem_of_nil. }
  apply Forall_cons_iff in Hr as [Hj Hr].
  destruct (lookup_lt_is_Some_2 values (Z.to_nat j)) as [b Hb]; [lia|]. rewrite Hb.
  assert (Nat.ltb (Z.to_nat j) (length temp) = true) as -> by (apply Nat.ltb_lt; lia). cbn [res_assert].
  destruct (IH (<[Z.to_nat j := b]> temp)) as (temp' & -> & Hl' & Hv); [by rewrite length_insert|done|].
  exists temp'. split_and!; [done..|]. intros i Hi. rewrite Hv by done.
  destruct (decide (i ∈ idx)) as [Hin|Hin]; [by rewrite decide_True by (by right)|].
  destruct (decide (i = j)) as [->|Hne].
  - rewrite decide_True by (by left). rewrite list_lookup_insert_eq by lia. done.
  - rewrite decide_False by (rewrite elem_of_cons; tauto). apply list_lookup_insert_ne. lia.
Qed.

Section answers.
Context {A : APInt} {L : APIntLaws A} {AR : Arrays}.

(** Whole arrays, bound to bytes. *)
Definition answer_ok (p : positive * list Z) : Prop :=
  Z.of_nat (length (snd p)) = size (arrayAt (fst p)) /\ Forall (fun b => 0 <= b < 256) (snd p).

(** What recording the values of an array does to its entry: the bytes of the
    factor are the new ones, the other bytes of an older entry stay. *)
Definition recorded (it : IndependentElementSet) (old new : bindings_ty) (arr : positive) (values : list Z) : Prop :=
  exists vs, bindings_find arr new = Some vs /\
    (forall i, 0 <= i -> covers it arr i -> vs !! Z.to_nat i = values !! Z.to_nat i) /\
    (forall ws i, 0 <= i -> bindings_find arr old = Some ws -> i ∉ indices it arr ->
       vs !! Z.to_nat i = ws !! Z.to_nat i).

Lemma place_bytes idx values : forall temp temp',
  Forall (fun b => 0 <= b < 256) values -> Forall (fun b => 0 <= b < 256) temp ->
  place idx values temp = Ok temp' -> Forall (fun b => 0 <= b < 256) temp'.
Proof.
  induction idx as [|j idx IH]; cbn [place]; intros temp temp' Hv Ht H; [by injection H as <-|].
  destruct (values !! Z.to_nat j) as [b|] eqn:Hb; [|done]. apply res_assert_inv in H as [_ H].
  apply (IH _ _ Hv) in H; [done|]. apply Forall_insert; [done|]. by apply (Forall_lookup_1 _ _ _ _ Hv Hb).
Qed.

Lemma record_answer_ok it arr values retMap :
  sets_wf it -> Forall answer_ok retMap -> answer_ok (arr, values) ->
  (is_Some (bindings_find arr retMap) -> arr ∉ wholeObjects it) ->
  exists retMap', record_answer it arr values retMap = Ok retMap' /\ Forall answer_ok retMap' /\
    recorded it retMap retMap' arr values /\
    forall k, k <> arr -> bindings_find k retMap' = bindings_find k retMap.
Proof.
  intros [_ Hin] Hok [Hlen Hby] Hw. unfold record_answer, recorded. cbn [fst snd] in *.
  destruct (bindings_find arr retMap) as [temp|] eqn:E.
  - specialize (Hw ltac:(by eexists)).
    destruct (bindings_find_Forall _ _ _ _ Hok E) as [Htl Htb]. cbn [fst snd] in *.
    assert (length temp = length values) as El by lia. rewrite El, Nat.eqb_refl. cbn [res_assert].
    destruct (place_ok (elements (indices it arr)) values temp El) as (temp' & Ep & Hl' & Hv).
    { apply Forall_forall. intros i Hi%elem_of_elements. apply Hin in Hi. unfold in_array in Hi. lia. }
    unfold indices in Ep. rewrite Ep. cbn [res_bind]. eexists. split; [done|].
    pose proof (place_bytes _ _ _ _ Hby Htb Ep) as Hb'.
    split; [apply bindings_set_Forall; [|done]; split; cbn; [lia|done]|].
    split; [|intros k Hk; rewrite bindings_find_set by (by eexists); by rewrite (proj2 (Pos.eqb_neq arr k))].
    exists temp'. rewrite bindings_find_set, Pos.eqb_refl by (by eexists). split; [done|]. split.
    + intros i Hi Hc. rewrite Hv by done. rewrite decide_True; [done|].
      destruct Hc as [?|Hc]; [done|by apply elem_of_elements].
    + intros ws i Hi [= <-] Hni. rewrite Hv by done. by rewrite decide_False by (by rewrite elem_of_elements).
  - eexists. split; [done|]. split; [by apply bindings_insert_Forall|].
    split; [|intros k Hk; rewrite bindings_find_insert by done; by rewrite (proj2 (Pos.eqb_neq arr k))].
    exists values. rewrite bindings_find_insert, Pos.eqb_refl by done. split_and!; [done..|].
    intros ws i Hi [= <-].
Qed.

Lemma record_answers_ok it arrays tempValues : forall retMap,
  sets_wf it -> Forall answer_ok retMap -> Forall2 (fun arr values => answer_ok (arr, values)) arrays tempValues ->
  NoDup arrays -> (forall arr, arr ∈ arrays -> is_Some (bindings_find arr retMap) -> arr ∉ wholeObjects it) ->
  exists retMap', record_answers it arrays tempValues retMap = Ok retMap' /\ Forall answer_ok retMap' /\
    Forall2 (recorded it retMap retMap') arrays tempValues /\
    forall k, k ∉ arrays -> bindings_find k retMap' = bindings_find k retMap.
Proof.
  intros retMap Hit Hok Hv. revert retMap Hok.
  induction Hv as [|arr values arrays tempValues Ha Hv IH]; intros retMap Hok Hnd Hw; cbn [record_answers].
  { exists retMap. by split_and!. }
  apply NoDup_cons in Hnd as [Hni Hnd].
  destruct (record_answer_ok it arr values retMap Hit Hok Ha) as (r1 & -> & Hok1 & Hr1 & Hf1); [by apply Hw; left|].
  assert (forall k, k ∈ arrays -> bindings_find k r1 = bindings_find k retMap) as Hsame.
  { intros k Hk. apply Hf1. by intros ->. }
  cbn [res_bind]. destruct (IH r1 Hok1 Hnd) as (r2 & -> & Hok2 & Hr2 & Hf2).
  { intros k Hk Hs. rewrite Hsame in Hs by done. by apply Hw; [right|]. }
  exists r2. split; [done|]. split; [done|]. split.
  - constructor.
    + unfold recorded in *. by rewrite (Hf2 arr Hni).
    + clear -Hr2 Hsame. revert Hsame. induction Hr2 as [|k vs ks vss Hk Hr2 IH]; intros Hsame; constructor.
      * unfold recorded in *. by rewrite <- (Hsame k) by (by left).
      * apply IH. intros. apply Hsame. by right.
  - intros k Hk%not_elem_of_cons. rewrite Hf2, Hf1; tauto.
Qed.

(** A [retMap]: one entry per array. *)
Definition map_ok (retMap : bindings_ty) : Prop := Forall answer_ok retMap /\ NoDup (retMap.*1).

Lemma bindings_find_None os bs : bindings_find os bs = None <-> os ∉ bs.*1.
Proof.
  induction bs as [|[k vs] bs IH]; cbn; [split; [intros _; apply not_elem_of_nil|done]|].
  rewrite not_elem_of_cons, <- IH. destruct (Pos.eqb_spec k os) as [->|]; naive_solver.
Qed.

Lemma bindings_insert_keys os arr bs :
  bindings_find os bs = None -> (bindings_insert os arr bs).*1 ≡ₚ os :: bs.*1.
Proof.
  induction bs as [|[k vs] bs IH]; cbn; [done|]. destruct (Pos.eqb_spec k os) as [->|]; [done|]. intros H.
  destruct (Pos.ltb os k); cbn; [done|]. rewrite (IH H). apply Permutation_swap.
Qed.

Lemma bindings_set_keys os arr bs : (bindings_set os arr bs).*1 = bs.*1.
Proof.
  induction bs as [|[k vs] bs IH]; cbn; [done|]. destruct (Pos.eqb k os); cbn; [done|]. by rewrite IH.
Qed.

Lemma record_answers_keys it arrays : forall tempValues retMap retMap',
  record_answers it arrays tempValues retMap = Ok retMap' -> NoDup (retMap.*1) -> NoDup (retMap'.*1).
Proof.
  induction arrays as [|arr arrays IH]; intros tempValues retMap retMap' H Hn; cbn [record_answers] in H.
  { by injection H as <-. }
  destruct tempValues as [|values tempValues]; [by injection H as <-|].
  apply res_bind_inv in H as (r & Hr & H). apply (IH _ _ _ H). unfold record_answer in Hr.
  destruct (bindings_find arr retMap) eqn:E.
  - apply res_assert_inv in Hr as [_ Hr]. apply res_bind_inv in Hr as (t & _ & [= <-]). by rewrite bindings_set_keys.
  - injection Hr as <-. rewrite bindings_insert_keys by done. apply NoDup_cons. split; [by apply bindings_find_None|done].
Qed.

End answers.

(** ** Correctness *)
Section correct.
Context {A : APInt} {L : APIntLaws A} {AR : Arrays}.
Context (opt checked : bool).
Context (Hopt : opt = true -> checked = true).
Context (hash : bool).
Context (Hdom : small_domains) (Hbytes : byte_arrays).
Context {SC : Scope opt checked}.
#[local] Instance scope_of_factors : Scope opt checked := evaluable_within opt checked SC.

Notation sat := (sat checked).
Notation bool_query := (Solver.bool_query (opt:=opt) (SC:=evaluable_within opt checked SC) checked).
Notation query_ok := (Solver.query_ok (opt:=opt) (SC:=evaluable_within opt checked SC) checked).
Notation query_wf := (Solver.query_wf (opt:=opt) (SC:=evaluable_within opt checked SC) checked).
Notation bool_wf := (Solver.bool_wf (opt:=opt) (SC:=evaluable_within opt checked SC) checked).
Notation forced := (forced checked).
Notation feasible := (feasible checked).
Notation evaluable := (evaluable checked).
(** An expression the solver below may be asked about. *)
Notation member e := (evaluable e /\ @good _ _ _ _ SC e).
Notation framable := (framable checked).

(** The value of an expression depends on the bytes its set covers. *)
Lemma denote_covered s ρ ρ' e :
  wt e -> evaluable e -> framed s e ->
  (forall root i, isSymbolicArray (arrayAt root) = true -> in_array root i -> covers s root i ->
     array_init checked ρ root i = array_init checked ρ' root i) ->
  denote checked ρ e = denote checked ρ' e.
Proof.
  intros Hwt (_ & Hb & _) Hf Hag. apply within_frame.
  apply (within_weaken _ (fun root i => in_array root i /\ (wt_array (arrayAt root) /\
    (isSymbolicArray (arrayAt root) = true -> covers s root i)))).
  2:{ apply within_and_both; [apply Hb|]. apply within_and_both; [by apply wt_within_both|by apply framed_within]. }
  intros root i (Hi & Ha & Hc). destruct (isSymbolicArray (arrayAt root)) eqn:Hs; [auto|by apply array_init_constant].
Qed.

(** [ρ1] on the bytes of the set, [ρ2] elsewhere. *)
Definition merge (s : IndependentElementSet) (ρ1 ρ2 : env) : env := fun root i =>
  if decide (covers s root i) then ρ1 root i else ρ2 root i.

Lemma merge_inside s ρ1 ρ2 e :
  wt e -> evaluable e -> framed s e -> denote checked (merge s ρ1 ρ2) e = denote checked ρ1 e.
Proof.
  intros Hwt He Hf. apply (denote_covered s); try done. intros root i Hs _ Hc.
  rewrite !array_init_symbolic by done. unfold merge. by rewrite decide_True.
Qed.

Lemma merge_outside s s' ρ1 ρ2 e :
  wt e -> evaluable e -> framed s' e -> separate s s' ->
  denote checked (merge s ρ1 ρ2) e = denote checked ρ2 e.
Proof.
  intros Hwt He Hf Hsep. apply (denote_covered s'); try done. intros root i Hs _ Hc.
  rewrite !array_init_symbolic by done. unfold merge. rewrite decide_False; [done|].
  intros Hc'. by apply (separate_covers s s' root i).
Qed.

Lemma query_members q : query_wf q ->
  wt (query_expr q) /\ member (query_expr q) /\
  Forall (fun c => wt c /\ getWidth c = 1 /\ member c /\ isConstant c = false) (constraints q).
Proof.
  intros (Hcs & Hwt & _ & Hg & Hge). split; [done|]. split; [done|].
  rewrite Forall_forall in Hcs, Hg |- *. intros c Hc. destruct (Hcs c Hc), (Hg c Hc) as [[? ?] ?]. by split_and!.
Qed.

Lemma evaluable_framable e : wt e -> evaluable e -> framable e.
Proof. intros Hwt (_ & Hb & _). by split. Qed.

(** Dropping the constraints that share no byte with the query changes no
    answer, the constraints being satisfiable. *)
Lemma required_query_ok q :
  query_ok q ->
  exists q', required_query q = Ok q' /\ query_expr q' = query_expr q /\ query_ok q' /\
    constraints q' ⊆ constraints q /\
    (forall v, feasible q' v <-> feasible q v) /\ (forall v, forced q' v -> forced q v).
Proof.
  intros [Hq [ρ2 Hρ2]]. destruct (query_members q Hq) as (Hwt & [Hev Hqg] & Hcs).
  destruct (getIndependentConstraints_ok checked Hdom q) as (c & req & rest & E & Hf & Hp & Hrest & Hsep).
  { by apply evaluable_framable. }
  { eapply Forall_impl; [exact Hcs|]. intros e (? & _ & [? _] & _). by apply evaluable_framable. }
  unfold required_query. rewrite E. cbn [res_bind snd]. eexists. split; [done|]. cbn [query_expr constraints].
  split; [done|]. apply Forall_cons_iff in Hf as [Hfe Hf].
  assert (forall ρ, sat ρ (constraints q) <-> sat ρ req /\ sat ρ rest.*1) as Hsat.
  { intros ρ. unfold Solver.sat. by rewrite <- Hp, Forall_app. }
  pose proof Hcs as Hcs0. rewrite <- Hp, Forall_app in Hcs0. destruct Hcs0 as [Hcr Hcrest].
  assert (query_wf (MkQuery req (query_expr q))) as Hq'.
  { destruct Hq as (_ & _ & _ & _ & Hge). split_and!; cbn [constraints query_expr]; try done.
    - eapply Forall_impl; [exact Hcr|]. by intros e (? & ? & _).
    - intros ρ _. apply Hev.
    - eapply Forall_impl; [exact Hcr|]. by intros e (_ & _ & ? & ?). }
  split; [split; [done|exists ρ2; by apply Hsat]|]. split; [|split].
  - intros e He. rewrite <- Hp. apply elem_of_app. by left.
  - intros v. split; [|intros (ρ & Hρ%Hsat & Hv); exists ρ; split; [apply Hρ|done]].
    intros (ρ1 & Hρ1 & Hv). exists (merge c ρ1 ρ2). cbn [constraints query_expr] in *.
    rewrite merge_inside by done. split; [|done]. apply Hsat. apply Hsat in Hρ2 as [_ Hρ2]. unfold Solver.sat in *.
    rewrite Forall_forall in Hρ1, Hρ2, Hcr, Hcrest, Hf |- *. split.
    + intros e He. destruct (Hcr e He) as (? & _ & [? _] & _). rewrite merge_inside by auto. auto.
    + apply Forall_forall. intros e He. destruct (Hcrest e He) as (? & _ & [? _] & _).
      apply list_elem_of_fmap in He as ([e' s'] & -> & Hin). rewrite Forall_forall in Hrest, Hsep.
      destruct (Hrest _ Hin) as [_ Hfr]. rewrite (merge_outside c s'); [|done|done|done|by apply (Hsep (e', s'))].
      apply Hρ2. apply list_elem_of_fmap. by exists (e', s').
  - intros v Hfv ρ Hρ. apply Hsat in Hρ as [Hρ _]. by apply (Hfv ρ).
Qed.

Context {S : Type} (solver : SolverImpl S) (Inv : S -> Prop).
Context {contract : SolverContract (opt:=opt) (SC:=evaluable_within opt checked SC) checked solver Inv}.

(** Asking the solver below about the required query. *)
Lemma ask_required {T} (m : Query -> state S T) q (Q : T -> Prop) :
  query_ok q ->
  (forall q', query_expr q' = query_expr q -> query_ok q' -> (forall v, feasible q' v <-> feasible q v) ->
     (forall v, forced q' v -> forced q v) -> sholds Inv (m q') Q) ->
  sholds Inv (do* q' := slift (required_query q) in m q') Q.
Proof.
  intros Hq Hm. destruct (required_query_ok q Hq) as (q' & E & He & Hq' & _ & Hf & Hfo).
  eapply (sholds_bind _ _ (fun x => x = q')); [apply sholds_lift; by exists q'|]. intros ? ->. by apply Hm.
Qed.

Lemma independent_computeTruth_ok q :
  bool_query q ->
  sholds Inv (independent_computeTruth solver q) (fun r => forall b, r = Some b -> if b then forced q 1 else feasible q 0).
Proof.
  intros [Hq Hw]. apply ask_required; [done|]. intros q' He Hq' Hf Hfo.
  eapply sholds_weaken; [apply (computeTruth_ok q'); split; [done|by rewrite He]|].
  intros r Hr b E. specialize (Hr b E). destruct b; [by apply Hfo|by apply Hf].
Qed.

Lemma independent_computeValidity_ok q :
  bool_query q ->
  sholds Inv (independent_computeValidity solver q) (fun r => forall v, r = Some v -> validity_spec checked q v).
Proof.
  intros [Hq Hw]. apply ask_required; [done|]. intros q' He Hq' Hf Hfo.
  eapply sholds_weaken; [apply (computeValidity_ok q'); split; [done|by rewrite He]|].
  intros r Hr v E. specialize (Hr v E). destruct v; cbn in *; [by apply Hfo|by apply Hfo|by rewrite <- !Hf].
Qed.

Lemma independent_computeValue_ok q :
  query_ok q ->
  sholds Inv (independent_computeValue solver q) (fun r => forall e, r = Some e ->
    exists c, e = Constant c /\ getBitWidth c = getWidth (query_expr q) /\ feasible q (uval c)).
Proof.
  intros Hq. apply ask_required; [done|]. intros q' He Hq' Hf Hfo.
  eapply sholds_weaken; [by apply (computeValue_ok q')|].
  intros r Hr e E. destruct (Hr e E) as (c & -> & Hw & Hc). exists c. rewrite <- He. split_and!; try done. by apply Hf.
Qed.

(** *** Initial values *)

(** The expressions that are split into factors hold exactly where the query
    is refuted. *)
Definition splits (q : Query) (es : list expr) : Prop :=
  Forall (fun e => wt e /\ getWidth e = 1 /\ member e) es /\
  (forall e, e ∈ es -> isConstant e = true -> forall ρ, denote checked ρ e = Some 1) /\
  (forall ρ, sat ρ es <-> sat ρ (constraints q) /\ denote checked ρ (query_expr q) = Some 0) /\
  (forall e, e ∈ constraints q \/ createIsZero opt (query_expr q) = Ok e -> isConstant e = true \/ e ∈ es).

Lemma refutable_negation q neg :
  bool_wf q -> refutable opt q -> createIsZero opt (query_expr q) = Ok neg -> isConstant neg = true ->
  forall ρ, denote checked ρ neg = Some 1.
Proof.
  intros Hq Hr En Hc ρ. destruct neg as [v| | | | | | | |]; try done. cbn.
  destruct (negateExpr_wf opt checked Hopt q (proj1 Hq)) as (nq & E & [(_ & Hnwt & _) Hnw] & _).
  unfold negateExpr in E. rewrite En in E. injection E as <-. cbn in Hnwt, Hnw.
  specialize (Hr v En). unfold const_isFalse in Hr. rewrite Hnw in Hr. cbn in Hr. tidy_bools.
  pose proof (uval_range v) as R. rewrite Hnw in R. specialize (R ltac:(lia)). f_equal. lia.
Qed.

Lemma factor_exprs_ok q :
  bool_wf q -> refutable opt q -> exists es, factor_exprs opt q = Ok es /\ splits q es.
Proof.
  intros Hq Hr. destruct (query_members q (proj1 Hq)) as (Hwt & [Hev Hqg] & Hcs).
  destruct (negateExpr_wf opt checked Hopt q (proj1 Hq)) as (nq & En & [(_ & Hnwt & _ & _ & Hne) Hnw] & _ & Hnd).
  unfold negateExpr in En. apply res_bind_inv in En as (neg & En & [= <-]). cbn [query_expr withExpr] in *.
  pose proof (refutable_negation q neg Hq Hr En) as Hn1.
  assert (forall ρ, denote checked ρ neg = Some 1 <-> denote checked ρ (query_expr q) = Some 0) as Hiff.
  { intros ρ. destruct (proj1 Hev ρ) as [v Hv]. rewrite Hv, (Hnd ρ v Hv).
    destruct (Z.eqb_spec v 0) as [->|]; cbn; split; intros; congruence. }
  assert (Forall (fun e => wt e /\ getWidth e = 1 /\ member e) (constraints q)) as Hcs'.
  { eapply Forall_impl; [exact Hcs|]. by intros e (? & ? & ? & _). }
  assert (forall e, e ∈ constraints q -> isConstant e = false) as Hnc.
  { rewrite Forall_forall in Hcs. intros e He. by apply Hcs. }
  unfold factor_exprs. destruct (isConstant (query_expr q)) eqn:Hc.
  - destruct (query_expr q) as [CE| | | | | | | |] eqn:E; try done.
    assert (isConstant neg = true) as Hnn.
    { unfold createIsZero, createIsZero_with in En. apply res_bind_inv in En as (z & Ez & En).
      unfold const_create in Ez. apply res_assert_inv in Ez as [_ [= <-]].
      by apply (BinaryExpr_create_const opt Eq CE _ neg) in En. }
    assert (uval CE = 0) as E0.
    { pose proof (proj1 (Hiff (fun _ _ => 0)) (Hn1 Hnn _)) as H0. by injection H0. }
    assert (const_isFalse CE = true) as ->.
    { unfold const_isFalse. destruct Hq as [_ Hw]. rewrite E in Hw. cbn in Hw. by rewrite Hw, E0. }
    cbn [res_assert]. exists (constraints q). split; [done|]. split; [done|]. split.
    + intros e He Hce. rewrite (Hnc e He) in Hce. done.
    + rewrite E, En. split; [intros ρ; cbn; rewrite E0; tauto|]. intros e [?|[= <-]]; [by right|by left].
  - assert (exists es, es = neg :: constraints q /\ factor_exprs opt q = Ok es) as (es & -> & Ees).
    { eexists. split; [done|]. unfold factor_exprs. destruct (query_expr q); try done; by rewrite En. }
    exists (neg :: constraints q). split; [exact Ees|]. split; [by constructor|]. split.
    + intros e [->|He]%elem_of_cons Hce; [by apply Hn1|]. rewrite (Hnc e He) in Hce. done.
    + split; [intros ρ; unfold Solver.sat; rewrite Forall_cons_iff, Hiff; tauto|]. rewrite En.
      intros e [?|[= <-]]; right; [by right|by left].
Qed.

(** [retMap] holds a solution of the factor. *)
Definition solved (retMap : bindings_ty) (f : IndependentElementSet) : Prop :=
  (exists ρ, sat ρ (exprs f) /\ forall root i,
     isSymbolicArray (arrayAt root) = true -> in_array root i -> covers f root i ->
     exists vs b, bindings_find root retMap = Some vs /\ vs !! Z.to_nat i = Some b /\
       array_init checked ρ root i = Some b) /\
  forall root, root ∈ ies_arrays f -> is_Some (bindings_find root retMap).

Definition factor_ok (f : IndependentElementSet) : Prop :=
  factor_wf f /\ Forall (fun e => wt e /\ getWidth e = 1 /\ member e) (exprs f).

Lemma array_references f :
  (forall root, root ∈ calculateArrayReferences f <-> root ∈ ies_arrays f) /\ NoDup (calculateArrayReferences f) /\
  (calculateArrayReferences f = [] -> ies_arrays f = ∅).
Proof.
  unfold calculateArrayReferences. destruct (by_address_spec (dom (ies_elements f) ∪ wholeObjects f)) as [H Hn].
  split; [done|]. split; [done|]. intros E. rewrite E in H. apply set_eq. intros root. rewrite <- (H root).
  set_solver.
Qed.

(** The new answers leave those of the factors before, and solve the factor. *)
Lemma record_factor_ok f retMap ρ tempValues :
  factor_ok f -> map_ok retMap -> sat ρ (exprs f) ->
  object_values checked ρ (calculateArrayReferences f) tempValues ->
  (forall root, root ∈ ies_arrays f -> is_Some (bindings_find root retMap) -> root ∉ wholeObjects f) ->
  exists retMap', record_answers f (calculateArrayReferences f) tempValues retMap = Ok retMap' /\
    map_ok retMap' /\ solved retMap' f /\
    (forall d, separate d f -> solved retMap d -> solved retMap' d) /\
    (forall root, is_Some (bindings_find root retMap') -> root ∈ ies_arrays f \/ is_Some (bindings_find root retMap)).
Proof.
  intros [(Hsw & _) _] [Hok Hkeys] Hsat Hv Hw. destruct (array_references f) as (Hin & Hnd & _).
  destruct (record_answers_ok f (calculateArrayReferences f) tempValues retMap) as (r & E & Hok' & Hr & Hf); try done.
  { eapply Forall2_impl; [exact Hv|]. by intros os vs (? & ? & _). }
  { intros arr Ha. by apply Hw, Hin. }
  exists r. split; [done|]. split; [split; [done|by eapply record_answers_keys]|].
  assert (forall root, root ∈ ies_arrays f -> exists values, bytes_of checked ρ root values /\ recorded f retMap r root values) as Hrec.
  { intros root Ha. apply Hin in Ha. apply list_elem_of_lookup in Ha as [k Hk].
    destruct (Forall2_lookup_l _ _ _ _ _ Hv Hk) as (values & Hvk & Hb).
    destruct (Forall2_lookup_l _ _ _ _ _ Hr Hk) as (values' & Hvk' & Hb').
    rewrite Hvk in Hvk'. injection Hvk' as <-. by exists values. }
  split; [|split].
  - split; [|intros root Ha; destruct (Hrec root Ha) as (values & _ & vs & Evs & _); by exists vs].
    exists ρ. split; [done|]. intros root i Hs Hi Hc.
    destruct (Hrec root (covers_array _ _ _ Hc)) as (values & (Hl & _ & Hb) & vs & Evs & Hnew & _).
    unfold in_array in Hi. destruct (lookup_lt_is_Some_2 values (Z.to_nat i)) as [b Eb]; [lia|].
    exists vs, b. split; [done|]. split; [by rewrite Hnew by (done || lia)|].
    specialize (Hb Hs _ _ Eb). rewrite Z2Nat.id in Hb by lia. exact Hb.
  - intros d Hsep [(ρd & Hsd & Hd) Hbd]. split.
    + exists ρd. split; [done|]. intros root i Hs Hi Hc. destruct (Hd root i Hs Hi Hc) as (vs & b & Evs & Eb & Hab).
      destruct (decide (root ∈ ies_arrays f)) as [Ha|Ha]; [|exists vs, b; rewrite Hf by (by rewrite Hin); done].
      destruct (Hrec root Ha) as (values & _ & vs' & Evs' & _ & Hold). exists vs', b. split; [done|]. split; [|done].
      destruct (Hsep root (covers_array _ _ _ Hc) Ha) as (Hwd & _ & Hdis).
      unfold in_array in Hi. rewrite (Hold vs i); [done|lia|done|]. destruct Hc as [?|Hc]; [done|set_solver].
    + intros root Ha. destruct (decide (root ∈ ies_arrays f)) as [Hb|Hb].
      * destruct (Hrec root Hb) as (values & _ & vs & Evs & _). by exists vs.
      * rewrite Hf by (by rewrite Hin). auto.
  - intros root H. destruct (decide (root ∈ ies_arrays f)) as [Hb|Hb]; [by left|right].
    by rewrite Hf in H by (by rewrite Hin).
Qed.

(** The query about a factor that mentions an array. *)
Lemma factor_query f :
  factor_ok f -> ies_arrays f <> ∅ ->
  let q := MkQuery (exprs f) (const_alloc 0 Bool_w) in
  bool_wf q /\ refutable opt q /\ objects_ok (calculateArrayReferences f).
Proof.
  intros [((Ha & _) & _ & _ & Hc) Hx] Hne q. destruct Hc as [?|Hc]; [done|].
  assert (query_wf q) as Hq.
  { split_and!; cbn [constraints query_expr q].
    - eapply Forall_impl; [exact Hx|]. by intros e (? & ? & _).
    - by apply wt_const_alloc.
    - intros ρ _. by eexists.
    - rewrite Forall_forall in Hx, Hc |- *. intros e He. destruct (Hx e He) as (_ & _ & ?). split; [done|by apply Hc].
    - apply good_false. }
  assert (bool_wf q) as Hbq by (split; [done|by apply width_const_alloc]). split; [done|]. split.
  - intros c Hc'. destruct (negateExpr_wf opt checked Hopt q Hq) as (nq & En & [_ Hnw] & _ & Hnd).
    unfold negateExpr in En. rewrite Hc' in En. injection En as <-. cbn in Hnw.
    specialize (Hnd (fun _ _ => 0) 0 ltac:(by unfold q; cbn [query_expr]; rewrite denote_const_alloc)). cbn in Hnd. injection Hnd as Hnd.
    unfold const_isFalse. rewrite Hnd. apply andb_false_r.
  - apply objects_once; [apply array_references|]. apply Forall_forall. intros os Hos. apply array_references in Hos. split; [by apply Ha|].
    intros Hs. by apply Hbytes.
Qed.

(** A factor without arrays is not asked about. *)
Definition answered (retMap : bindings_ty) (f : IndependentElementSet) : Prop :=
  ies_arrays f = ∅ \/ solved retMap f.

Lemma solve_factors_ok fs : forall before retMap,
  map_ok retMap -> Forall factor_ok fs -> Forall (answered retMap) before ->
  (forall root, is_Some (bindings_find root retMap) -> exists d, d ∈ before /\ root ∈ ies_arrays d) ->
  ForallOrdPairs separate fs -> (forall d f, d ∈ before -> f ∈ fs -> separate d f) ->
  sholds Inv (solve_factors solver fs retMap) (fun r => match r with
    | None => True
    | Some None => exists f, f ∈ fs /\ forall ρ, ~ sat ρ (exprs f)
    | Some (Some retMap') => map_ok retMap' /\ Forall (answered retMap') (before ++ fs)
    end).
Proof.
  induction fs as [|f fs IH]; intros before retMap Hok Hfs Hb Hdom' Hord Hsep; cbn [solve_factors].
  { apply sholds_ret. by rewrite app_nil_r. }
  apply Forall_cons_iff in Hfs as [Hf Hfs]. inversion Hord as [|? ? Hff Hord']; subst. clear Hord.
  eapply (sholds_bind _ _ (fun _ => True)).
  { apply sholds_lift. destruct Hf as [(_ & Hne & _) _]. destruct (exprs f); [done|]. by exists tt. }
  intros _ _. destruct (array_references f) as (Hin & _ & Hnil).
  (* the rest, once [f] is answered *)
  assert (forall retMap', map_ok retMap' -> answered retMap' f -> Forall (answered retMap') before ->
    (forall root, is_Some (bindings_find root retMap') -> exists d, d ∈ before ++ [f] /\ root ∈ ies_arrays d) ->
    sholds Inv (solve_factors solver fs retMap') (fun r => match r with
      | None => True
      | Some None => exists g, g ∈ f :: fs /\ forall ρ, ~ sat ρ (exprs g)
      | Some (Some retMap'') => map_ok retMap'' /\ Forall (answered retMap'') (before ++ f :: fs)
      end)) as Hrest.
  { intros retMap' Hok' Hf' Hb' Hd'. eapply sholds_weaken; [apply (IH (before ++ [f]) retMap'); try done|].
    - apply Forall_app. split; [done|by constructor].
    - intros d g [Hd|Hd]%elem_of_app Hg; [by apply Hsep; [|right]|].
      apply list_elem_of_singleton in Hd as ->. rewrite Forall_forall in Hff. by apply Hff.
    - intros [[r|]|]; [| |done].
      + rewrite <- (assoc (++)). done.
      + intros (g & ? & ?). exists g. split; [by right|done]. }
  destruct (calculateArrayReferences f) as [|arr arrays] eqn:Earr.
  { apply Hrest; [done|left; by apply Hnil|done|]. intros root Hr. destruct (Hdom' root Hr) as (d & ? & ?).
    exists d. split; [apply elem_of_app; by left|done]. }
  assert (ies_arrays f <> ∅) as Hne.
  { intros E. assert (arr ∈ ies_arrays f) by (apply Hin; by left). set_solver. }
  destruct (factor_query f Hf Hne) as (Hq & Hr & Ho). rewrite Earr in Ho.
  eapply sholds_bind; [by apply (computeInitialValues_ok _ (arr :: arrays) Hq Hr)|].
  intros [[tempValues|]|] Hsol; [| |by apply sholds_ret].
  - destruct (Hsol _ eq_refl) as (ρ & Hρ & _ & Hv). cbn [constraints] in Hρ.
    rewrite <- Earr in Hv. destruct (record_factor_ok f retMap ρ tempValues Hf Hok Hρ Hv) as (r & E & Hok' & Hs & Hold & Hd).
    { intros root Ha H. destruct (Hdom' root H) as (d & Hd & Had).
      destruct (Hsep d f Hd ltac:(by left) root Had Ha) as (_ & ? & _). done. }
    rewrite Earr in E, Hv.
    eapply (sholds_bind _ _ (fun x => x = r)).
    { apply sholds_lift. exists r. rewrite <- (Forall2_length _ _ _ Hv), Nat.eqb_refl. by split. }
    intros ? ->. apply Hrest; [done|by right| |].
    + rewrite Forall_forall in Hb |- *. intros d Hd'. destruct (Hb d Hd') as [?|?]; [by left|right].
      apply Hold; [|done]. apply Hsep; [done|by left].
    + intros root H. destruct (Hd root H) as [?|H']; [exists f; split; [apply elem_of_app; right; by left|done]|].
      destruct (Hdom' root H') as (d & ? & ?). exists d. split; [apply elem_of_app; by left|done].
  - specialize (Hsol _ eq_refl). apply sholds_ret. exists f. split; [by left|]. intros ρ Hρ.
    specialize (Hsol ρ Hρ). cbn [query_expr] in Hsol. by rewrite denote_const_alloc in Hsol by done.
Qed.

(** *** The point found *)

Definition ret_assignment (retMap : bindings_ty) : Assignment := {| allowFreeValues := false; bindings := retMap |}.

(** An expression without a byte is a constant. *)
Lemma framed_constant f e : framed f e -> ies_arrays f = ∅ -> evaluable e -> isConstant e = true.
Proof.
  intros Hf Ha (_ & _ & _ & Hg). destruct (grounded_inv e Hg) as [?|Hr]; [done|]. exfalso.
  enough (has_reads e = false) by congruence. apply no_sees_no_reads_both. revert Hf. apply all_reads_weaken_both.
  intros root u i Ht. destruct (sees root u) eqn:E; [|done]. exfalso.
  assert (root ∈ ies_arrays f); [|set_solver].
  destruct (Ht E) as [?|(c & _ & Hc)]; [unfold ies_arrays; set_solver|by eapply covers_array].
Qed.

(** The answers of the factors fit together. *)
Lemma point_ok q es fs retMap :
  splits q es -> (fs ≫= exprs) ≡ₚ es -> Forall factor_wf fs -> Forall (answered retMap) fs ->
  sat (assignment_env (ret_assignment retMap)) es.
Proof.
  intros (Hes & Hc & _ & _) Hp Hw Ha. unfold Solver.sat. rewrite Forall_forall in Hes |- *.
  rewrite Forall_forall in Hw, Ha. intros e He.
  pose proof He as Hef. rewrite <- Hp in Hef. apply list_elem_of_bind in Hef as (f & Hef & Hf).
  destruct (Hes e He) as (Hwt & _ & Hev & _). destruct (Hw f Hf) as (_ & _ & Hfr & _). rewrite Forall_forall in Hfr.
  destruct (Ha f Hf) as [Hempty|[(ρ & Hρ & Hs) _]].
  - apply Hc; [done|]. by apply (framed_constant f); [apply Hfr| |].
  - unfold Solver.sat in Hρ. rewrite Forall_forall in Hρ. rewrite <- (Hρ e Hef).
    apply (denote_covered f); [done|done|by apply Hfr|]. intros root i Hsy Hi Hcov.
    destruct (Hs root i Hsy Hi Hcov) as (vs & b & Ev & Eb & Hb). rewrite Hb.
    rewrite array_init_symbolic in Hb |- * by done. injection Hb as <-.
    unfold assignment_env, bound_byte, ret_assignment. cbn [bindings]. rewrite Ev. cbn [mbind option_bind].
    unfold in_array in Hi. assert (0 <=? i = true) as -> by (apply Z.leb_le; lia). rewrite Eb. cbn.
    rewrite wrap_wrap; [done|]. rewrite (Hbytes root Hsy). lia.
Qed.

(** The bindings of the final assignment: those of [retMap], and zeros for the
    objects it does not bind. *)
Definition entry_ok (retMap : bindings_ty) (p : positive * list Z) : Prop :=
  snd p = object_values_of retMap (fst p) /\ Forall (fun b => 0 <= b < 256) (snd p).

Lemma map_entries retMap : map_ok retMap -> Forall (entry_ok retMap) retMap.
Proof.
  intros [Hok Hn]. apply Forall_forall. intros [k vs] Hin. rewrite Forall_forall in Hok.
  destruct (Hok _ Hin) as [_ Hb]. split; [|done]. cbn. unfold object_values_of. clear Hok Hb.
  induction retMap as [|[k' ws] retMap IH]; [by apply elem_of_nil in Hin|]. cbn in Hn |- *.
  apply NoDup_cons in Hn as [Hni Hn]. apply elem_of_cons in Hin as [[= <- <-]|Hin]; [by rewrite Pos.eqb_refl|].
  destruct (Pos.eqb_spec k' k) as [->|]; [|by apply IH]. exfalso. apply Hni. apply list_elem_of_fmap. by exists (k, vs).
Qed.

Lemma object_values_bytes retMap os :
  map_ok retMap -> Forall (fun b => 0 <= b < 256) (object_values_of retMap os).
Proof.
  intros [Hok _]. unfold object_values_of. destruct (bindings_find os retMap) eqn:E.
  - by apply (bindings_find_Forall _ _ _ _ Hok) in E as [_ ?].
  - apply Forall_replicate. lia.
Qed.

Lemma bind_objects_entries retMap objects : forall bs,
  map_ok retMap -> Forall (entry_ok retMap) bs ->
  exists bs', bind_objects objects (map (object_values_of retMap) objects) bs = Ok bs' /\ Forall (entry_ok retMap) bs'.
Proof.
  induction objects as [|os objects IH]; intros bs Hm Hbs; cbn [map bind_objects]; [by exists bs|].
  apply IH; [done|]. apply bindings_insert_Forall; [|done]. split; [done|]. by apply object_values_bytes.
Qed.

Lemma insert_all_entries retMap bs : forall more,
  Forall (entry_ok retMap) bs -> Forall (entry_ok retMap) more ->
  let bs' := foldl (fun bs p => bindings_insert (fst p) (snd p) bs) bs more in
  Forall (entry_ok retMap) bs' /\
  forall k, k ∈ more.*1 \/ is_Some (bindings_find k bs) -> is_Some (bindings_find k bs').
Proof.
  intros more. revert bs. induction more as [|p more IH]; intros bs Hbs Hm; cbn [foldl].
  { split; [done|]. cbn. by intros k [?%elem_of_nil|?]. }
  apply Forall_cons_iff in Hm as [Hp Hm].
  destruct (IH (bindings_insert (fst p) (snd p) bs)) as [H1 H2]; [by apply bindings_insert_Forall; [destruct p|]|done|].
  split; [done|]. intros k Hk. apply H2. cbn in Hk. rewrite elem_of_cons in Hk. rewrite bindings_insert_bound. tauto.
Qed.

Lemma final_assignment_ok retMap objects :
  map_ok retMap ->
  exists bs, Assignment_new objects (map (object_values_of retMap) objects) true =
      Ok {| allowFreeValues := true; bindings := bs |} /\
    let a := {| allowFreeValues := true;
                bindings := foldl (fun bs p => bindings_insert (fst p) (snd p) bs) bs retMap |} in
    bytes_ok (bindings a) /\ agrees a (assignment_env (ret_assignment retMap)) /\
    forall root i, is_Some (bindings_find root retMap) -> in_array root i -> is_Some (bound_byte a root i).
Proof.
  intros Hm. destruct (bind_objects_entries retMap objects [] Hm ltac:(constructor)) as (bs & E & Hbs).
  exists bs. unfold Assignment_new. rewrite E. split; [done|].
  destruct (insert_all_entries retMap bs retMap Hbs (map_entries retMap Hm)) as [He Hin].
  cbn zeta in *. cbn [bindings]. set (final := foldl _ bs retMap) in *. split_and!.
  - eapply Forall_impl; [exact He|]. by intros p [_ ?].
  - intros root i. unfold bound_byte, assignment_env, bound_byte, ret_assignment. cbn [bindings].
    destruct (bindings_find root final) as [vs|] eqn:Ef; [|done]. cbn [mbind option_bind].
    apply (bindings_find_Forall _ _ _ _ He) in Ef as [Ev _]. cbn in Ev. subst vs. unfold object_values_of.
    destruct (bindings_find root retMap) as [ws|]; cbn [mbind option_bind].
    + by destruct (if 0 <=? i then ws !! Z.to_nat i else None).
    + destruct (0 <=? i); [|done]. destruct (replicate _ _ !! _) eqn:El; [|done].
      by apply lookup_replicate in El as [-> _].
  - intros root i Hs Hi. destruct (Hin root) as [vs Ef].
    { left. destruct (decide (root ∈ retMap.*1)) as [?|H]; [done|]. apply bindings_find_None in H. rewrite H in Hs. by destruct Hs. }
    unfold bound_byte. cbn [bindings]. rewrite Ef. cbn [mbind option_bind].
    apply (bindings_find_Forall _ _ _ _ He) in Ef as [Ev _]. cbn in Ev. subst vs. unfold object_values_of.
    destruct Hs as [ws Ews]. rewrite Ews. destruct Hm as [Hok _].
    apply (bindings_find_Forall _ _ _ _ Hok) in Ews as [Hl _]. cbn in Hl. unfold in_array in Hi.
    assert (0 <=? i = true) as -> by (apply Z.leb_le; lia). apply lookup_lt_is_Some_2. lia.
Qed.

(** Every byte a split expression reads is bound. *)
Lemma known_within q es fs retMap a ρ e :
  splits q es -> (fs ≫= exprs) ≡ₚ es -> Forall factor_wf fs -> Forall (answered retMap) fs ->
  (forall root i, is_Some (bindings_find root retMap) -> in_array root i -> is_Some (bound_byte a root i)) ->
  isConstant e = true \/ e ∈ es -> within checked (known a) ρ e.
Proof.
  intros (Hes & _) Hp Hw Ha Hb [Hc|He]; [by destruct e|]. rewrite Forall_forall in Hes. rewrite Forall_forall in Hw, Ha.
  pose proof He as Hef. rewrite <- Hp in Hef. apply list_elem_of_bind in Hef as (f & Hef & Hf).
  destruct (Hes e He) as (Hwt & _ & (_ & Hbo & _) & _). destruct (Hw f Hf) as (_ & _ & Hfr & _). rewrite Forall_forall in Hfr.
  apply (within_weaken _ (fun root i => in_array root i /\ (isSymbolicArray (arrayAt root) = true -> covers f root i))).
  2:{ apply within_and_both; [apply Hbo|by apply framed_within, Hfr]. }
  intros root i [Hi Hcov]. unfold known, isConstantArray.
  destruct (isSymbolicArray (arrayAt root)) eqn:Hs; [right; right|left].
  - apply Hb; [|done]. specialize (Hcov eq_refl). apply covers_array in Hcov.
    destruct (Ha f Hf) as [E|[_ Hbound]]; [set_solver|by apply Hbound].
  - cbn. unfold in_array in Hi. apply Z.ltb_lt. lia.
Qed.

Lemma all_evaluate_true_ok a ρ cs :
  bytes_ok (bindings a) -> agrees a ρ -> sat ρ cs ->
  Forall (fun c => wt c /\ getWidth c = 1 /\ member c /\ within checked (known a) ρ c) cs ->
  all_evaluate_true opt hash a cs = Ok true.
Proof.
  intros Hb Hag Hs Hcs. induction Hcs as [|c cs (Hwt & Hw & [(_ & _ & Hfo & _) _] & Hk) _ IH]; [done|].
  apply Forall_cons_iff in Hs as [Hc Hs]. cbn [all_evaluate_true].
  destruct (evaluate_known_ok opt checked Hopt hash a ρ c 1 Hdom Hb Hag Hwt Hfo Hk Hc) as (v & -> & Hvw & Hv).
  cbn [res_bind]. unfold const_isFalse. rewrite Hv, andb_false_r. by apply IH.
Qed.

(** The assertion at the end of [computeInitialValues] holds. *)
Lemma created_point_ok q es fs retMap objects :
  bool_wf q -> splits q es -> (fs ≫= exprs) ≡ₚ es -> Forall factor_wf fs -> Forall (answered retMap) fs ->
  map_ok retMap ->
  assertCreatedPointEvaluatesToTrue opt hash q objects (map (object_values_of retMap) objects) retMap = Ok true.
Proof.
  intros Hq Hsp Hp Hw Ha Hm. pose proof (point_ok q es fs retMap Hsp Hp Hw Ha) as Hsat.
  set (ρ := assignment_env (ret_assignment retMap)) in *.
  destruct (final_assignment_ok retMap objects Hm) as (bs & E & Hb & Hag & Hbound).
  unfold assertCreatedPointEvaluatesToTrue. rewrite E. cbn [res_bind allowFreeValues bindings].
  set (a := {| allowFreeValues := true; bindings := foldl _ bs retMap |}) in *.
  pose proof (known_within q es fs retMap a ρ) as Hk.
  destruct (query_members q (proj1 Hq)) as (_ & _ & Hcs). pose proof Hsp as (_ & _ & Hiff & Hin).
  apply Hiff in Hsat as [Hsc H0].
  rewrite (all_evaluate_true_ok a ρ); [|done|done|done|].
  2:{ rewrite Forall_forall in Hcs |- *. intros c Hc. destruct (Hcs c Hc) as (? & ? & ? & ?).
      split; [done|]. split; [done|]. split; [done|]. apply Hk; auto. }
  cbn [res_bind]. destruct (negateExpr_wf opt checked Hopt q (proj1 Hq)) as (nq & En & [(_ & Hnwt & _ & _ & Hne) Hnw] & _ & Hnd).
  unfold negateExpr in En. apply res_bind_inv in En as (neg & En & [= <-]). cbn [query_expr withExpr] in *.
  specialize (Hnd ρ 0 H0). cbn in Hnd. rewrite En. cbn [res_bind].
  destruct (evaluate_known_ok opt checked Hopt hash a ρ neg 1 Hdom Hb Hag Hnwt) as (v & -> & Hvw & Hv); [apply Hne|by apply Hk; auto|done|].
  cbn [res_bind]. unfold const_isTrue. by rewrite Hvw, Hnw, Hv.
Qed.

Lemma independent_computeInitialValues_ok q objects :
  bool_wf q -> refutable opt q -> objects_ok objects ->
  sholds Inv (independent_computeInitialValues opt hash solver q objects)
    (fun r => forall sol, r = Some sol -> solution_spec checked q objects sol).
Proof.
  intros Hq Hr Ho. destruct (factor_exprs_ok q Hq Hr) as (es & Ees & Hsp). pose proof Hsp as (Hes & _ & Hiff & _).
  destruct (factors_ok checked Hdom opt q es Ees) as (fs & Efs & Hw & Hord & Hp).
  { eapply Forall_impl; [exact Hes|]. intros e (? & _ & ? & _). by apply evaluable_framable. }
  assert (Forall factor_ok fs) as Hfs.
  { rewrite Forall_forall in Hw |- *. intros f Hf. split; [by apply Hw|]. rewrite <- Hp in Hes.
    apply Forall_forall. rewrite Forall_forall in Hes. intros e He. apply Hes. apply list_elem_of_bind. by exists f. }
  unfold independent_computeInitialValues.
  eapply (sholds_bind _ _ (fun x => x = fs)); [apply sholds_lift; by exists fs|]. intros ? ->.
  eapply sholds_bind.
  { apply (solve_factors_ok fs [] []); [by split; constructor|done|done| |done|].
    - by intros root [? ?].
    - by intros d f ?%elem_of_nil. }
  intros [[retMap|]|] Hres; [| |by apply sholds_ret].
  - destruct Hres as [Hm Ha]. cbn [app] in Ha.
    pose proof (created_point_ok q es fs retMap objects Hq Hsp Hp Hw Ha Hm) as Hpt.
    eapply (sholds_bind _ _ (fun b => b = true)); [apply sholds_lift; by exists true|]. intros ? ->.
    eapply (sholds_bind _ _ (fun _ => True)); [apply sholds_lift; by exists tt|]. intros _ _.
    apply sholds_ret. intros sol [= <-]. pose proof (point_ok q es fs retMap Hsp Hp Hw Ha) as Hsat.
    apply Hiff in Hsat as [Hsc H0]. eexists. split; [exact Hsc|]. split; [exact H0|].
    assert (full (ret_assignment retMap)) as Hfull.
    { destruct Hm as [Hok _]. split; [done|]. split; (eapply Forall_impl; [exact Hok|]); by intros p []. }
    destruct Ho as [Ho _]. clear -Ho Hfull Hbytes. induction Ho as [|os objects [? ?] Ho IH]; [constructor|].
    constructor; [by apply (object_bytes_ok checked Hbytes (ret_assignment retMap))|done].
  - destruct Hres as (f & Hf & Hn). apply sholds_ret. intros sol [= <-] ρ Hρ.
    destruct (bit_value opt checked q ρ Hq Hρ) as [H0|H1]; [|done]. exfalso. apply (Hn ρ).
    assert (sat ρ es) as Hs by (apply Hiff; done). unfold Solver.sat in *. rewrite <- Hp in Hs.
    rewrite Forall_forall in Hs |- *. intros e He. apply Hs. apply list_elem_of_bind. by exists f.
Qed.

#[export] Instance IndependentSolver_contract :
  SolverContract (opt:=opt) (SC:=evaluable_within opt checked SC) checked (IndependentSolver opt hash solver) Inv.
Proof.
  split.
  - apply independent_computeTruth_ok.
  - apply independent_computeValidity_ok.
  - apply independent_computeValue_ok.
  - apply independent_computeInitialValues_ok.
Qed.
End correct.

(** ** Properties *)

(** C10. The independence solver is transparent: over any solver that keeps the
    contract, [IndependentSolver] keeps it too, in every operation, and no
    assertion of it fails; in particular the values [computeInitialValues] puts
    together from the answers of the factors satisfy every constraint and
    refute the query. *)
Theorem independent_solver_refines `{A : APInt} {L : APIntLaws A} {AR : Arrays} (opt checked hash : bool)
    {SC : Scope opt checked} {S} (solver : SolverImpl S) (Inv : S -> Prop) :
  (opt = true -> checked = true) -> small_domains -> byte_arrays ->
  SolverContract (SC:=evaluable_within opt checked SC) checked solver Inv ->
  SolverContract (SC:=evaluable_within opt checked SC) checked (IndependentSolver opt hash solver) Inv.
Proof. intros. by apply IndependentSolver_contract. Qed.

(** The constraints a query depends on decide it: on a satisfiable path the
    query under the required constraints alone, some of the query's own, can
    have the same values and is forced to the same value. *)
Theorem required_constraints_decide `{A : APInt} {L : APIntLaws A} {AR : Arrays} (opt checked : bool) {SC : Scope opt checked} q :
  small_domains -> query_ok (SC:=evaluable_within opt checked SC) checked q ->
  exists q', required_query q = Ok q' /\ query_expr q' = query_expr q /\ constraints q' ⊆ constraints q /\
    (forall v, feasible checked q' v <-> feasible checked q v) /\
    (forall v, forced checked q' v <-> forced checked q v).
Proof.
  intros Hdom Hq. destruct (required_query_ok opt checked Hdom q Hq) as (q' & E & He & Hq' & Hs & Hf & Hfo).
  exists q'. split_and!; [done..|]. intros v. split; [apply Hfo|]. intros Hv ρ Hρ.
  destruct Hq' as [(_ & _ & Hd & _) _]. destruct (Hd ρ Hρ) as [v' Hv']. rewrite Hv'. f_equal. symmetry.
  apply (forced_unique checked q); [done|]. apply Hf. by exists ρ.
Qed.

(** ** Witnesses *)
Section witnesses.
#[local] Existing Instance Examples.arrays.
Import Examples SolverExamples ScopeExamples.

Definition sample_independent : SolverImpl unit := IndependentSolver false true sample_solver.

Lemma independent_solver_refines_witness :
  SolverContract (SC:=evaluable_scope false false) false sample_independent (fun _ => True).
Proof.
  apply (independent_solver_refines false false true sample_solver (fun _ => True));
    [done|apply sample_small_domains|apply sample_byte_arrays|apply sample_evaluable_contract].
Defined.

(* the constraint is about a[0], the query about a[1] *)
Definition unrelated : expr := Binary Ult (a_at 1) (a_at 2).

Lemma unrelated_ok : bool_query (SC:=evaluable_scope false false) false (MkQuery [five] unrelated).
Proof.
  assert (evaluable false unrelated) as H.
  { split; [intros ρ; by eexists|]. split; [|done]. intros ρ. split; by apply a_at_in_bounds. }
  pose proof wt_a. apply (five_query (SC:=evaluable_scope false false)); [exact (conj five_evaluable I)|exact (conj H I)| |done|apply H].
  cbn. split_and!; try done; cbn; lia.
Qed.

Lemma required_constraints_decide_witness :
  required_query (MkQuery [five] unrelated) = Ok (MkQuery [] unrelated) /\
  exists q', required_query (MkQuery [five] unrelated) = Ok q' /\ query_expr q' = unrelated /\
    constraints q' ⊆ [five] /\
    (forall v, feasible false q' v <-> feasible false (MkQuery [five] unrelated) v) /\
    (forall v, forced false q' v <-> forced false (MkQuery [five] unrelated) v).
Proof.
  split; [reflexivity|].
  apply (required_constraints_decide false false (MkQuery [five] unrelated)); [apply sample_small_domains|apply unrelated_ok].
Defined.

(** Initial values of two independent factors, a[0] = 5 and a[1] = 1, in one array. *)
Definition one_at_1 : expr := Binary Eq (Constant (byte 1)) (a_at 1).

Lemma factors_put_together :
  match computeInitialValues sample_independent (MkQuery [five; one_at_1] (const_alloc 0 1)) [1%positive] tt with
  | Ok (Some (Some [vs]), _) => take 2 vs = [5; 1]
  | _ => False
  end.
Proof. reflexivity. Qed.
End witnesses.
