(* ===== verification/ValidatingSolver.v ===== *)
(** The checking layers of the solver chain: [ValidatingSolver]
    (klee/lib/Solver/ValidatingSolver.cpp), which compares a solver with an
    oracle, and [AssignmentValidatingSolver]
    (klee/lib/Solver/AssignmentValidatingSolver.cpp), which evaluates a query
    under the assignment a solver found.

    Both solvers of a [ValidatingSolver] work on one state: the oracle may be
    the core solver at the bottom of the chain.  A failed check, [assert(0)] or
    [abort()], is [AssertFail].  Over solvers that keep their contract no check
    fails, initial values aside: those are checked under the assumption that
    the objects asked for are all the query mentions ([mentioned]), which the
    interface does not require ([validating_false_alarm]). *)
From Stdlib Require Import ZArith Lia Bool.
From stdpp Require Import base list numbers option gmap sets.
From S2P Require Import Prelude APInt Expr ExprCreate ExprSem ExprCompare ExprCreateCorrect ExprFactory ExprVisitor ExprReads ExprEval ExprClosed ExprUtil Solver SolverScope.
Open Scope Z_scope.

#[export] Instance Validity_eq_dec : EqDecision Validity.
Proof. solve_decision. Defined.

Section validating.
Context {A : APInt} {AR : Arrays}.
Context (ConstArrayOpt UseVisitorHash : bool).

(** The values of the objects as constraints, one equality per byte. *)
Fixpoint binding_equalities (objects : list positive) (values : list (list Z)) : res (list expr) :=
  match objects, values with
  | _, [] => Ok []
  | [], _ :: _ => AssertFail (* objects[i] past the end *)
  | array :: objects', vs :: values' =>
      let* out := array_constraints ConstArrayOpt array vs 0 (Z.to_nat (size (arrayAt array))) in
      let* out' := binding_equalities objects' values' in
      Ok (out ++ out')
  end.

Fixpoint conjoin (conj : expr) (cs : list expr) : res expr :=
  match cs with
  | [] => Ok conj
  | c :: cs' => let* conj := BinaryExpr_create ConstArrayOpt And conj c in conjoin conj cs'
  end.

(* the query an answer of computeInitialValues is checked with *)
Definition solution_query (query : Query) (objects : list positive) (sol : solution) : res Query :=
  match sol with
  | Some values =>
      let* bindings := binding_equalities objects values in
      let* neg := createIsZero ConstArrayOpt (query_expr query) in
      let* conj := conjoin neg (constraints query) in
      Ok (MkQuery bindings conj)
  | None => Ok query
  end.

Context {S : Type} (solver oracle : SolverImpl S).

(* the oracle's answer, and the check *)
Definition consult {T U} (ask : state S (option T)) (agrees : T -> bool) (result : U) : state S (option U) :=
  do* a := ask in
  match a with
  | None => sret None
  | Some answer => do* _ := slift (assert* agrees answer in Ok tt) in sret (Some result)
  end.

Definition validating_computeTruth (query : Query) : state S (option bool) :=
  do* r := computeTruth solver query in
  match r with
  | None => sret None
  | Some isValid => consult (computeTruth oracle query) (Bool.eqb isValid) isValid
  end.

Definition validating_computeValidity (query : Query) : state S (option Validity) :=
  do* r := computeValidity solver query in
  match r with
  | None => sret None
  | Some result => consult (computeValidity oracle query) (fun answer => bool_decide (result = answer)) result
  end.

Definition validating_computeValue (query : Query) : state S (option expr) :=
  do* r := computeValue solver query in
  match r with
  | None => sret None
  | Some result =>
      do* ne := slift (BinaryExpr_create ConstArrayOpt Ne (query_expr query) result) in
      consult (computeTruth oracle (withExpr query ne)) negb result
  end.

Definition validating_computeInitialValues (query : Query) (objects : list positive) : state S (option solution) :=
  do* r := computeInitialValues solver query objects in
  match r with
  | None => sret None
  | Some sol =>
      do* q := slift (solution_query query objects sol) in
      consult (computeTruth oracle q) id sol
  end.

Definition ValidatingSolver : SolverImpl S := {|
  computeTruth := validating_computeTruth;
  computeValidity := validating_computeValidity;
  computeValue := validating_computeValue;
  computeInitialValues := validating_computeInitialValues;
|}.

(** ** AssignmentValidatingSolver *)

(* abort() unless the constraint is constant and not false *)
Fixpoint check_constraints (a : Assignment) (cs : list expr) : res unit :=
  match cs with
  | [] => Ok tt
  | c :: cs' =>
      let* r := ExprEval.evaluate ConstArrayOpt UseVisitorHash a c in
      match r with
      | Constant CE => assert* negb (const_isFalse CE) in check_constraints a cs'
      | _ => AssertFail
      end
  end.

Definition check_assignment (query : Query) (objects : list positive) (values : list (list Z)) : res unit :=
  let* a := Assignment_new objects values true in
  let* _ := check_constraints a (constraints query) in
  let* r := ExprEval.evaluate ConstArrayOpt UseVisitorHash a (query_expr query) in
  match r with
  | Constant CE => assert* negb (const_isTrue CE) in Ok tt
  | _ => AssertFail
  end.

(** What the caller's variable holds when the solver below fails without
    setting it: [hasSolution] is read all the same. *)
Context (hasSolution : bool).

Definition assignment_validating_computeInitialValues (query : Query) (objects : list positive) :
    state S (option solution) :=
  do* r := computeInitialValues solver query objects in
  match r with
  | Some None => sret (Some None)
  | Some (Some values) =>
      do* _ := slift (check_assignment query objects values) in sret (Some (Some values))
  | None =>
      if hasSolution then do* _ := slift (check_assignment query objects []) in sret None
      else sret None
  end.

Definition AssignmentValidatingSolver : SolverImpl S := {|
  computeTruth := computeTruth solver;
  computeValidity := computeValidity solver;
  computeValue := computeValue solver;
  computeInitialValues := assignment_validating_computeInitialValues;
|}.

End validating.

(** ** Correctness *)
(** ** Truth, validity and values, for every class of expressions *)
Section answers.
Context {A : APInt} {L : APIntLaws A} {AR : Arrays}.
Context (opt checked : bool).
Context (Hopt : opt = true -> checked = true).
Context {SC : Scope opt checked}.
Context {S : Type} (solver oracle : SolverImpl S) (Inv : S -> Prop).
Context {contract : SolverContract checked solver Inv} {oracle_contract : SolverContract checked oracle Inv}.

Notation bool_query := (Solver.bool_query checked).
Notation query_ok := (Solver.query_ok checked).
Notation forced := (forced checked).
Notation feasible := (feasible checked).

(** The oracle does not answer. *)
Definition oracle_fails (s s' : S) : Prop :=
  exists q, computeTruth oracle q s = Ok (None, s') \/ computeValidity oracle q s = Ok (None, s').

(** The answer [t] is accepted: no check fails, and it is returned unless the
    oracle does not answer. *)
Definition accepts {T} (m : state S (option T)) (t : T) : Prop := forall s, Inv s ->
  exists r s', m s = Ok (r, s') /\ Inv s' /\ (r = Some t \/ r = None /\ oracle_fails s s').

(** [m'] passes on the answers of [m], which are right. *)
Definition passes_on {T} (m m' : state S (option T)) (P : T -> Prop) : Prop := forall s, Inv s ->
  exists r s1 r' s', m s = Ok (r, s1) /\ m' s = Ok (r', s') /\ Inv s' /\ (forall t, r = Some t -> P t) /\
    (r' = r \/ r' = None /\ oracle_fails s1 s').

Lemma passes_on_holds {T} (m m' : state S (option T)) (P : T -> Prop) :
  passes_on m m' P -> sholds Inv m' (fun r => forall t, r = Some t -> P t).
Proof.
  intros H s Hs. destruct (H s Hs) as (r & s1 & r' & s' & _ & E & Hs' & HP & Hr). exists r', s'.
  split_and!; [done..|]. intros t ->. destruct Hr as [<-|[? _]]; [by apply HP|done].
Qed.

Lemma consult_ok {T U} (ask : state S (option T)) (agrees : T -> bool) (result : U) (P : T -> Prop) :
  sholds Inv ask (fun r => forall t, r = Some t -> P t) -> (forall t, P t -> agrees t = true) ->
  (forall s s', ask s = Ok (None, s') -> oracle_fails s s') -> accepts (consult ask agrees result) result.
Proof.
  intros Hask Hag Hf s Hs. destruct (Hask s Hs) as (r & s' & E & Hs' & HP). unfold consult, sbind. rewrite E. cbn [res_bind fst snd].
  destruct r as [t|]; [|exists None, s'; split_and!; auto]. unfold slift. rewrite (Hag t (HP t eq_refl)).
  exists (Some result), s'. by split_and!; [..|left].
Qed.

Lemma prepared_ok {T V} (prep : res V) (x : V) (k : V -> state S (option T)) t :
  prep = Ok x -> accepts (k x) t -> accepts (do* y := slift prep in k y) t.
Proof. intros -> H s Hs. exact (H s Hs). Qed.

Lemma passes_ok {T} (m : state S (option T)) (k : T -> state S (option T)) (P : T -> Prop) :
  sholds Inv m (fun r => forall t, r = Some t -> P t) -> (forall t, P t -> accepts (k t) t) ->
  passes_on m (do* r := m in match r with None => sret None | Some t => k t end) P.
Proof.
  intros Hm Hk s Hs. destruct (Hm s Hs) as (r & s1 & E & Hs1 & HP). unfold sbind. rewrite E. cbn [res_bind fst snd].
  destruct r as [t|].
  - destruct (Hk t (HP t eq_refl) s1 Hs1) as (r' & s' & E' & Hs' & Hr). by exists (Some t), s1, r', s'.
  - exists None, s1, None, s1. by split_and!; [..|left].
Qed.

Lemma truth_fails q s s' : computeTruth oracle q s = Ok (None, s') -> oracle_fails s s'.
Proof. intros E. exists q. by left. Qed.

Lemma validity_fails q s s' : computeValidity oracle q s = Ok (None, s') -> oracle_fails s s'.
Proof. intros E. exists q. by right. Qed.

Lemma forced_not_feasible q v v' : forced q v -> feasible q v' -> v <> v' -> False.
Proof. intros Hf Hv Hne. apply Hne. by apply (forced_unique checked q). Qed.

Lemma validating_computeTruth_ok q :
  bool_query q ->
  passes_on (computeTruth solver q) (validating_computeTruth solver oracle q)
    (fun b : bool => if b then forced q 1 else feasible q 0).
Proof.
  intros Hq. apply passes_ok; [by apply (computeTruth_ok q)|]. intros b Hb.
  eapply consult_ok; [by apply (computeTruth_ok (impl:=oracle) q)| |apply truth_fails].
  intros b'. destruct b, b'; cbn in *; try done; intros H'; exfalso; by eapply (forced_not_feasible q 1 0).
Qed.

Lemma validity_spec_unique q v v' :
  bool_query q -> validity_spec checked q v -> validity_spec checked q v' -> v = v'.
Proof.
  intros [Hq _] H H'. pose proof (fun b => forced_feasible opt checked q b Hq) as Hff.
  destruct v, v'; cbn in *; try done; exfalso;
    first [by eapply (forced_not_feasible q 1 0); auto | by eapply (forced_not_feasible q 0 1); auto
      | destruct H; by eapply (forced_not_feasible q 1 0) | destruct H; by eapply (forced_not_feasible q 0 1)
      | destruct H'; by eapply (forced_not_feasible q 1 0) | destruct H'; by eapply (forced_not_feasible q 0 1)].
Qed.

Lemma validating_computeValidity_ok q :
  bool_query q ->
  passes_on (computeValidity solver q) (validating_computeValidity solver oracle q) (validity_spec checked q).
Proof.
  intros Hq. apply passes_ok; [by apply (computeValidity_ok q)|]. intros v Hv.
  eapply consult_ok; [by apply (computeValidity_ok (impl:=oracle) q)| |apply validity_fails].
  intros v' Hv'. apply bool_decide_eq_true. by eapply validity_spec_unique.
Qed.

Lemma validating_computeValue_ok q :
  query_ok q ->
  passes_on (computeValue solver q) (validating_computeValue opt solver oracle q)
    (fun e => exists c, e = Constant c /\ getBitWidth c = getWidth (query_expr q) /\ feasible q (uval c)).
Proof.
  intros Hq. apply passes_ok; [by apply (computeValue_ok q)|]. intros e (c & -> & Hw & Hf).
  pose proof Hq as [Hwf Hs]. pose proof Hwf as (_ & Hwt & _ & _ & Hg).
  pose proof (BinaryExpr_create_ok opt checked Hopt Ne (query_expr q) (Constant c) Hwt) as Hne.
  destruct (with_expr_ok opt checked q (query_expr q) id (fun v => Z.b2z (negb (v =? uval c))) Ne c Hwf Hg I ltac:(done))
    as (ne & E & [Hb Hbw] & Hd).
  { eapply implements_weaken.
    - apply Hne; [cbn; rewrite Hw; by apply wt_width_pos|done|by destruct (query_expr q)].
    - intros ρ v Hv. apply bind_Some in Hv as (x & Hx & [= <-]). unfold bin_den. by rewrite Hx. }
  apply (prepared_ok _ ne); [exact E|].
  eapply consult_ok; [apply (computeTruth_ok (impl:=oracle) (withExpr q ne)); by split| |apply truth_fails].
  intros [] Hb'; [|done]. exfalso. destruct Hf as (ρ & Hρ & Hv). specialize (Hb' ρ Hρ). cbn in Hb'.
  rewrite (Hd ρ _ Hv) in Hb'. unfold id in Hb'. by rewrite Z.eqb_refl in Hb'.
Qed.
End answers.

Section correct.
Context {A : APInt} {L : APIntLaws A} {AR : Arrays}.
Context (opt checked : bool).
Context (Hopt : opt = true -> checked = true).
Context (hash : bool).
Context (Hdom : small_domains) (Hbytes : byte_arrays).
#[local] Instance scope_of_checks : Scope opt checked := evaluable_scope opt checked.

Notation sat := (sat checked).
Notation bool_query := (Solver.bool_query (opt:=opt) (SC:=evaluable_scope opt checked) checked).
Notation query_ok := (Solver.query_ok (opt:=opt) (SC:=evaluable_scope opt checked) checked).
Notation forced := (forced checked).
Notation feasible := (feasible checked).
Notation evaluable := (evaluable checked).

(** *** The query about a solution *)

(** The constructors of two evaluable expressions, divisions aside. *)
Lemma evaluable_binary k l r :
  wt l -> wt r -> getWidth l = getWidth r -> is_div k = false -> evaluable l -> evaluable r ->
  exists e, BinaryExpr_create opt k l r = Ok e /\ wt e /\ getWidth e = bin_width k (getWidth l) /\ evaluable e /\
    forall ρ x y, denote checked ρ l = Some x -> denote checked ρ r = Some y ->
      denote checked ρ e = bin_sem k (getWidth l) x y.
Proof.
  intros Hl Hr Hw Hk (Htl & Hbl & Hfl & Hgl) (Htr & Hbr & Hfr & Hgr).
  destruct (BinaryExpr_create_ok opt checked Hopt k l r Hl Hr Hw) as (e & E & He & Hew & Hd).
  { unfold div_ok. destruct l, r; try done. congruence. }
  exists e.
  assert (forall ρ x y, denote checked ρ l = Some x -> denote checked ρ r = Some y ->
    denote checked ρ e = bin_sem k (getWidth l) x y) as Hden.
  { intros ρ x y Hx Hy. destruct (bin_sem_defined k (getWidth l) x y) as [v Hv]; [congruence|]. rewrite Hv.
    apply Hd. unfold bin_den. by rewrite Hx, Hy. }
  split_and!; try done. split_and!.
  - intros ρ. destruct (Htl ρ) as [x Hx], (Htr ρ) as [y Hy]. rewrite (Hden ρ x y Hx Hy).
    destruct (bin_sem_defined k (getWidth l) x y) as [v Hv]; [congruence|]. by exists v.
  - by apply (BinaryExpr_create_closed opt (in_bounds checked) k l r); [..|by destruct k|].
  - by apply (BinaryExpr_create_closed opt (fun e => foldable e = true) k l r); [..|by destruct k|].
  - by apply (BinaryExpr_create_closed opt (fun e => grounded e = true) k l r); [..|by destruct k|].
Qed.

(** A Boolean expression of the chain. *)
Definition condition (e : expr) : Prop := wt e /\ getWidth e = 1 /\ evaluable e.

Lemma condition_value e ρ : condition e -> denote checked ρ e = Some 0 \/ denote checked ρ e = Some 1.
Proof.
  intros (Hwt & Hw & Ht & _). destruct (Ht ρ) as [v Hv]. pose proof (denote_range checked _ ρ v Hwt Hv) as R.
  rewrite Hw in R. destruct (bit_cases v R) as [-> | ->]; auto.
Qed.

Lemma conjoin_ok cs : forall conj,
  condition conj -> Forall condition cs ->
  exists e, conjoin opt conj cs = Ok e /\ condition e /\
    forall ρ, denote checked ρ e = Some 1 <-> denote checked ρ conj = Some 1 /\ sat ρ cs.
Proof.
  induction cs as [|c cs IH]; intros conj Hconj Hcs; cbn [conjoin].
  { exists conj. split; [done|]. split; [done|]. intros ρ. split; [intros H; split; [done|constructor]|by intros []]. }
  apply Forall_cons_iff in Hcs as [Hc Hcs]. pose proof Hconj as (Hw1 & Hb1 & He1). pose proof Hc as (Hw2 & Hb2 & He2).
  destruct (evaluable_binary And conj c) as (e & -> & Hwe & Hbe & Hee & Hd); [done|done|congruence|done..|].
  cbn [res_bind]. rewrite Hb1 in Hbe, Hd.
  destruct (IH e) as (e' & -> & He' & Hsat); [done|done|]. exists e'. split; [done|]. split; [done|].
  intros ρ. rewrite Hsat. unfold Solver.sat. rewrite Forall_cons_iff.
  assert (denote checked ρ e = Some 1 <-> denote checked ρ conj = Some 1 /\ denote checked ρ c = Some 1) as ->; [|tauto].
  destruct (condition_value conj ρ Hconj) as [E1|E1], (condition_value c ρ Hc) as [E2|E2];
    rewrite (Hd _ _ _ E1 E2), E1, E2; cbn; intuition congruence.
Qed.

(** The equality of a byte of a symbolic array and a value. *)
Lemma equality_ok root i b rd c :
  wt_array (arrayAt root) -> isSymbolicArray (arrayAt root) = true -> 0 <= i < size (arrayAt root) -> 0 <= b < 256 ->
  ReadExpr_create opt root UNil (const_alloc i (domain (arrayAt root))) = Ok rd ->
  BinaryExpr_create opt Eq rd (const_alloc b (range (arrayAt root))) = Ok c ->
  condition c /\ isConstant c = false.
Proof.
  intros Ha Hs Hi Hb Erd Ec. assert (0 <= b < 2 ^ 64) as Hb64 by (change (2 ^ 64) with 18446744073709551616; lia). pose proof Ha as (Hr & Hdp & Hsz & Hszd & _).
  assert (2 ^ domain (arrayAt root) <= 2 ^ 64) as H64 by (apply Z.pow_le_mono_r; lia).
  set (idx := const_alloc i (domain (arrayAt root))) in *.
  assert (wt idx /\ getWidth idx = domain (arrayAt root)) as [Hiw Hid] 
    by (unfold idx; split; [apply wt_const_alloc|apply width_const_alloc]; lia).
  assert (forall ρ, denote checked ρ idx = Some i) as Hidx.
  { intros ρ. unfold idx. rewrite denote_const_alloc, wrap_small by lia. done. }
  assert (rd = Read root UNil idx) as ->.
  { unfold ReadExpr_create in Erd. cbn [scan_updates res_bind] in Erd. change idx with (Constant (ap_make (domain (arrayAt root)) i)) in Erd at 1.
    cbn [concrete_index] in Erd. apply res_bind_inv in Erd as (ci & _ & Erd). destruct ci; [|by injection Erd as <-].
    unfold isConstantArray in Erd. rewrite Hs in Erd. cbn [negb andb] in Erd.
    destruct (_ <? _); by injection Erd as <-. }
  assert (forall ρ, denote checked ρ (Read root UNil idx) = Some (wrap (range (arrayAt root)) (ρ root i))) as Hrd.
  { intros ρ. cbn [denote]. rewrite Hidx. cbn [mbind option_bind denote_updates]. by apply array_init_symbolic. }
  destruct (evaluable_binary Eq (Read root UNil idx) (const_alloc b (range (arrayAt root)))) as (c' & E & Hwt & Hw & Hev & Hd).
  - cbn [wt wt_updates]. by split_and!.
  - by apply wt_const_alloc.
  - by rewrite width_const_alloc.
  - done.
  - split; [intros ρ; rewrite Hrd; by eexists|]. split; [|split; [done|]].
    + intros ρ. rewrite within_Read. split; [done|]. split; [done|]. intros v. rewrite Hidx. intros [= <-]. done.
    + cbn [grounded has_reads]. unfold sees, isConstantArray. by rewrite Hs.
  - apply evaluable_const.
  - rewrite E in Ec. injection Ec as <-. split; [done|]. destruct c' as [v| | | | | | | |]; try done. exfalso.
    set (m := wrap (range (arrayAt root)) b) in *.
    assert (0 <= m < 2 ^ range (arrayAt root)) as Hm by (apply wrap_range; lia).
    assert (2 <= 2 ^ range (arrayAt root)) as H2 by (change 2 with (2 ^ 1) at 1; apply Z.pow_le_mono_r; lia).
    assert (forall x, 0 <= x < 2 ^ range (arrayAt root) -> uval v = Z.b2z (x =? m)) as Hx.
    { intros x Hx. specialize (Hd (fun _ _ => x) x m). rewrite Hrd in Hd. rewrite (wrap_small _ x) in Hd by done.
      rewrite denote_const_alloc in Hd by done. specialize (Hd eq_refl eq_refl). cbn in Hd. by injection Hd. }
    pose proof (Hx m Hm) as H0. rewrite Z.eqb_refl in H0.
    destruct (Z.eqb_spec m 0) as [E0|E0].
    + pose proof (Hx 1 ltac:(lia)) as H1. rewrite E0 in H1. cbn in H0, H1. lia.
    + pose proof (Hx 0 ltac:(lia)) as H1. rewrite (proj2 (Z.eqb_neq 0 m)) in H1 by lia. cbn in H0, H1. lia.
Qed.

Lemma array_equalities_ok root vals : forall n i out,
  wt_array (arrayAt root) -> isSymbolicArray (arrayAt root) = true -> Forall (fun b => 0 <= b < 256) vals ->
  0 <= i -> i + Z.of_nat n <= size (arrayAt root) -> array_constraints opt root vals i n = Ok out ->
  Forall (fun c => condition c /\ isConstant c = false) out.
Proof.
  induction n as [|n IH]; intros i out Ha Hs Hv Hi Hn H; cbn [array_constraints] in H; [by injection H as <-|].
  destruct (vals !! Z.to_nat i) as [b|] eqn:Eb; [|done].
  apply res_bind_inv in H as (rd & Erd & H). apply res_bind_inv in H as (c & Ec & H).
  apply res_bind_inv in H as (out' & Eo & [= <-]). constructor.
  - eapply (equality_ok root i b rd c); try done; [lia|by apply (Forall_lookup_1 _ _ _ _ Hv Eb)].
  - apply (IH (i + 1)); try done; lia.
Qed.
(** The objects whose values can be checked, and the queries about them. *)
Definition symbolic_object (os : positive) : Prop := wt_array (arrayAt os) /\ isSymbolicArray (arrayAt os) = true.

Definition mentioned (objects : list positive) (q : Query) : Prop :=
  forall os e, e ∈ query_expr q :: constraints q -> mentions os e -> os ∈ objects.

Lemma binding_equalities_zip objects : forall values,
  length objects = length values -> binding_equalities opt objects values = bindings_constraints opt (zip objects values).
Proof.
  induction objects as [|os objects IH]; intros [|vs values] H; try done. cbn. by rewrite IH by (cbn in H; lia).
Qed.

Lemma binding_equalities_ok ρ objects values :
  Forall symbolic_object objects -> object_values checked ρ objects values ->
  exists out, binding_equalities opt objects values = Ok out /\
    Forall (fun c => condition c /\ isConstant c = false) out /\
    forall ρ', sat ρ' out <-> matches_bindings (zip objects values) ρ'.
Proof.
  intros Ho Hv. rewrite binding_equalities_zip by (by eapply Forall2_length).
  assert (complete_bindings (zip objects values)) as Hc.
  { clear -Ho Hv. induction Hv as [|os vs objects values (Hl & Hb & _) Hv IH]; [constructor|].
    apply Forall_cons_iff in Ho as [[Ha Hs] Ho]. constructor; [|by apply IH]. cbn. split_and!; try done. lia. }
  destruct (bindings_constraints_ok opt checked Hopt _ Hc) as (out & E & _ & Hm). exists out. split; [done|]. split; [|done].
  clear Hm Ho Hv. revert out E. induction Hc as [|[root vals] bs (Ha & Hs & Hl & Hb) Hc IH]; intros out E.
  { by injection E as <-. }
  cbn [bindings_constraints fst snd] in *. apply res_bind_inv in E as (o1 & E1 & E). apply res_bind_inv in E as (o2 & E2 & [= <-]).
  apply Forall_app. split; [|by apply IH]. eapply (array_equalities_ok root vals); try done.
  pose proof Ha as (_ & _ & ? & _). lia.
Qed.

Lemma object_byte ρ objects values os i :
  object_values checked ρ objects values -> os ∈ objects -> symbolic_object os -> 0 <= i < size (arrayAt os) ->
  exists vs b, (os, vs) ∈ zip objects values /\ vs !! Z.to_nat i = Some b /\ wrap (range (arrayAt os)) (ρ os i) = b.
Proof.
  intros Hv Hos [Ha Hs] Hi. apply list_elem_of_lookup in Hos as [k Hk].
  destruct (Forall2_lookup_l _ _ _ _ _ Hv Hk) as (vs & Hvs & Hl & _ & Hb).
  destruct (lookup_lt_is_Some_2 vs (Z.to_nat i)) as [b Eb]; [lia|]. exists vs, b. split; [|split; [done|]].
  - apply list_elem_of_lookup. exists k. by rewrite lookup_zip_with, Hk, Hvs.
  - specialize (Hb Hs _ _ Eb). change (array_init checked ρ os (Z.of_nat (Z.to_nat i)) = Some b) in Hb.
    rewrite array_init_symbolic, Z2Nat.id in Hb by (done || lia). by injection Hb.
Qed.

(** The values are those of the solution they come from. *)
Lemma matches_self ρ objects values :
  Forall symbolic_object objects -> object_values checked ρ objects values -> matches_bindings (zip objects values) ρ.
Proof.
  intros Ho Hv root vals i b Hin Hi Hb. apply list_elem_of_lookup in Hin as [k Hk].
  rewrite lookup_zip_with in Hk. apply bind_Some in Hk as (os & Hos & Hk). apply bind_Some in Hk as (vs & Hvs & [= -> ->]).
  destruct (Forall2_lookup_lr _ _ _ _ _ _ Hv Hos Hvs) as (_ & _ & Hval).
  destruct (Forall_lookup_1 _ _ _ _ Ho Hos) as [Ha Hs].
  specialize (Hval Hs _ _ Hb). change (array_init checked ρ root (Z.of_nat (Z.to_nat i)) = Some b) in Hval.
  rewrite array_init_symbolic, Z2Nat.id in Hval by (done || lia). injection Hval as <-.
  destruct Ha as (? & _). by rewrite wrap_wrap by lia.
Qed.

(** They fix the value of every expression about the objects. *)
Lemma matches_denote ρ ρ' objects values e :
  Forall symbolic_object objects -> object_values checked ρ objects values -> matches_bindings (zip objects values) ρ' ->
  wt e -> evaluable e -> (forall os, mentions os e -> os ∈ objects) -> denote checked ρ e = denote checked ρ' e.
Proof.
  intros Ho Hv Hm Hwt Hev Hme.
  set (ρ1 := fun os i => if bool_decide (os ∈ objects) || negb (isSymbolicArray (arrayAt os)) then ρ os i else ρ' os i).
  transitivity (denote checked ρ1 e).
  - apply denote_frame; intros os Hos i; unfold ρ1.
    + by rewrite Hos, orb_true_r.
    + by rewrite bool_decide_true by auto.
  - apply agree_inside_denote; [done|done|]. intros os i Hs Hi. unfold ρ1. rewrite Hs, orb_false_r.
    case_bool_decide as Hos; [|done]. rewrite Forall_forall in Ho. destruct (Ho os Hos) as [Ha _].
    destruct (object_byte ρ objects values os i Hv Hos (Ho os Hos) Hi) as (vs & b & Hin & Eb & Hb).
    rewrite (Hm os vs i b Hin Hi Eb), <- Hb. destruct Ha as (? & _). by rewrite wrap_wrap by lia.
Qed.

Context {S : Type} (solver oracle : SolverImpl S) (Inv : S -> Prop).
Context {contract : SolverContract (opt:=opt) (SC:=evaluable_scope opt checked) checked solver Inv}.
Context {oracle_contract : SolverContract (opt:=opt) (SC:=evaluable_scope opt checked) checked oracle Inv}.


Lemma query_conditions q : bool_query q -> Forall condition (query_expr q :: constraints q).
Proof.
  intros [[(Hcs & Hwt & _ & Hg & Hge & _) _] Hw]. constructor; [done|].
  rewrite Forall_forall in Hcs, Hg |- *. intros c Hc. destruct (Hcs c Hc), (Hg c Hc) as [[? _] _]. done.
Qed.

(** A solution is confirmed when it fixes everything the query mentions. *)
Lemma solution_query_ok q objects sol :
  bool_query q -> Forall symbolic_object objects -> mentioned objects q -> solution_spec checked q objects sol ->
  exists q', solution_query opt q objects sol = Ok q' /\ bool_query q' /\ forced q' 1.
Proof.
  intros Hq Ho Hm Hsol. destruct sol as [values|]; [|by exists q]. cbn [solution_query].
  destruct Hsol as (ρ & Hρ & H0 & Hv). pose proof (query_conditions q Hq) as Hc.
  destruct (binding_equalities_ok ρ objects values Ho Hv) as (out & -> & Hout & Hsat). cbn [res_bind].
  destruct (negateExpr_wf opt checked Hopt q (proj1 (proj1 Hq))) as (nq & En & [(_ & Hnwt & _ & _ & Hne & _) Hnw] & _ & Hnd).
  unfold negateExpr in En. apply res_bind_inv in En as (neg & En & [= <-]). cbn [query_expr withExpr] in *.
  rewrite En. cbn [res_bind]. apply Forall_cons_iff in Hc as [Hce Hcs].
  destruct (conjoin_ok (constraints q) neg) as (conj & -> & (Hcwt & Hcw & Hcev) & Hcd); [done|done|]. cbn [res_bind].
  eexists. split; [done|]. split.
  - split; [|done]. split; [|exists ρ; apply Hsat; by apply matches_self]. split_and!; cbn [constraints query_expr].
    + eapply Forall_impl; [exact Hout|]. by intros c [(? & ? & _) _].
    + done.
    + intros ρ' _. apply Hcev.
    + eapply Forall_impl; [exact Hout|]. by intros c [(_ & _ & ?) ?].
    + by split.
  - intros ρ' Hρ'. cbn [constraints query_expr] in *. apply Hcd. apply Hsat in Hρ'.
    assert (forall e, e ∈ query_expr q :: constraints q -> denote checked ρ' e = denote checked ρ e) as Hsame.
    { intros e He. symmetry. assert (condition e) as (Hwt & _ & Hev).
      { apply elem_of_cons in He as [->|He]; [done|]. rewrite Forall_forall in Hcs. by apply Hcs. }
      apply (matches_denote ρ ρ' objects values); try done. intros os. by apply Hm. }
    split.
    + rewrite (Hnd ρ' 0); [done|]. rewrite Hsame by (by left). done.
    + unfold Solver.sat in *. rewrite Forall_forall in Hρ |- *. intros c Hin. rewrite Hsame by (by right). auto.
Qed.

Lemma validating_computeInitialValues_ok q objects :
  bool_query q -> refutable opt q -> Forall symbolic_object objects -> mentioned objects q ->
  passes_on oracle Inv (computeInitialValues solver q objects) (validating_computeInitialValues opt solver oracle q objects)
    (solution_spec checked q objects).
Proof.
  intros Hq Hr Ho Hm. apply passes_ok.
  { apply (computeInitialValues_ok q objects); [by apply (bool_query_wf opt checked)|done|].
    split; [|done]. eapply Forall_impl; [exact Ho|]. intros os [? ?]. split; [done|auto]. }
  intros sol Hsol. destruct (solution_query_ok q objects sol Hq Ho Hm Hsol) as (q' & E & Hq' & Hf).
  apply (prepared_ok _ _ _ q'); [exact E|].
  eapply consult_ok; [by apply (computeTruth_ok (impl:=oracle) q')| |apply truth_fails].
  intros [] Hb; [done|]. exfalso. by eapply (forced_not_feasible checked q' 1 0).
Qed.

(** *** AssignmentValidatingSolver *)

Lemma within_mentions_both ρ (P : positive -> Prop) :
  (forall e, (forall os, mentions os e -> P os) ->
     within checked (fun root _ => isSymbolicArray (arrayAt root) = true -> P root) ρ e) /\
  (forall u, (forall os, mentions_updates os u -> P os) ->
     within_updates checked (fun root _ => isSymbolicArray (arrayAt root) = true -> P root) ρ u).
Proof.
  apply expr_updates_ind; intros; rewrite ?within_Read, ?within_UNode; cbn [within mentions mentions_updates] in *;
    split_and?; auto; done.
Qed.

(** The assignment of a solution agrees with it on the bytes of its objects. *)
Lemma solution_assignment_ok ρ objects values :
  Forall symbolic_object objects -> object_values checked ρ objects values ->
  exists bs, Assignment_new objects values true = Ok {| allowFreeValues := true; bindings := bs |} /\
    let a := {| allowFreeValues := true; bindings := bs |} in
    bytes_ok bs /\ agrees a ρ /\
    forall os i, os ∈ objects -> 0 <= i < size (arrayAt os) -> is_Some (bound_byte a os i).
Proof.
  intros Ho Hv. set (P := fun p : positive * list Z => symbolic_object (fst p) /\ bytes_of checked ρ (fst p) (snd p)).
  destruct (bind_objects_Forall P objects values []) as (bs & E & HP & Hin); [|constructor|].
  { clear -Ho Hv. induction Hv as [|os vs objects values Hb Hv IH]; [constructor|].
    apply Forall_cons_iff in Ho as [Hos Ho]. constructor; [by split|by apply IH]. }
  exists bs. unfold Assignment_new. rewrite E. split; [done|]. cbn zeta. split_and!.
  - eapply Forall_impl; [exact HP|]. by intros p (_ & _ & ? & _).
  - intros os i. unfold bound_byte. cbn [bindings]. destruct (bindings_find os bs) as [vs|] eqn:Ef; [|done].
    apply (bindings_find_Forall P) in Ef as [[Ha Hs] (_ & _ & Hb)]; [|done]. cbn [fst snd mbind option_bind] in *.
    destruct (0 <=? i) eqn:Ei; [|done]. tidy_bools. destruct (vs !! Z.to_nat i) as [b|] eqn:Eb; [|done].
    specialize (Hb Hs _ _ Eb). change (array_init checked ρ os (Z.of_nat (Z.to_nat i)) = Some b) in Hb.
    rewrite array_init_symbolic, Z2Nat.id in Hb by (done || lia). injection Hb as <-.
    destruct Ha as (? & _). by rewrite wrap_wrap by lia.
  - intros os i Hos Hi. unfold bound_byte. cbn [bindings]. destruct (Hin os (or_introl (proj1 (list_elem_of_In _ _) Hos))) as [vs Ef]. rewrite Ef.
    apply (bindings_find_Forall P) in Ef as [_ (Hl & _)]; [|done]. cbn [fst snd mbind option_bind] in *.
    assert (0 <=? i = true) as -> by (apply Z.leb_le; lia). apply lookup_lt_is_Some_2. lia.
Qed.

Lemma evaluate_solution a ρ (objects : list positive) e v :
  bytes_ok (bindings a) -> agrees a ρ ->
  (forall os i, os ∈ objects -> 0 <= i < size (arrayAt os) -> is_Some (bound_byte a os i)) ->
  condition e -> (forall os, mentions os e -> os ∈ objects) -> denote checked ρ e = Some v ->
  exists c, ExprEval.evaluate opt hash a e = Ok (Constant c) /\ getBitWidth c = 1 /\ uval c = v.
Proof.
  intros Hb Hag Hbound (Hwt & Hw & _ & Hin & Hfo & _) Hm Hv. rewrite <- Hw.
  apply (evaluate_known_ok opt checked Hopt hash a ρ e v Hdom Hb Hag Hwt Hfo); [|done].
  apply (within_weaken _ (fun root i => in_array root i /\ (isSymbolicArray (arrayAt root) = true -> root ∈ objects))).
  2:{ apply within_and_both; [apply Hin|by apply within_mentions_both]. }
  intros root i [Hi Ho]. unfold known, isConstantArray. unfold in_array in Hi.
  destruct (isSymbolicArray (arrayAt root)) eqn:Hs; [right; right; auto|left]. cbn. apply Z.ltb_lt. lia.
Qed.

Lemma check_assignment_ok q objects ρ values :
  bool_query q -> Forall symbolic_object objects -> mentioned objects q ->
  sat ρ (constraints q) -> denote checked ρ (query_expr q) = Some 0 -> object_values checked ρ objects values ->
  check_assignment opt hash q objects values = Ok tt.
Proof.
  intros Hq Ho Hm Hs H0 Hv. destruct (solution_assignment_ok ρ objects values Ho Hv) as (bs & E & Hb & Hag & Hbound).
  unfold check_assignment. rewrite E. cbn [res_bind]. set (a := {| allowFreeValues := true; bindings := bs |}) in *.
  pose proof (query_conditions q Hq) as Hc. apply Forall_cons_iff in Hc as [Hce Hcs].
  assert (check_constraints opt hash a (constraints q) = Ok tt) as ->.
  { assert (forall e os, e ∈ constraints q -> mentions os e -> os ∈ objects) as Hme.
    { intros e os He. apply Hm. by right. }
    clear -Hs Hcs Hme Hb Hag Hbound Hopt Hdom L. induction Hcs as [|c cs Hc Hcs IH]; [done|].
    apply Forall_cons_iff in Hs as [Hsc Hs]. cbn [check_constraints].
    destruct (evaluate_solution a ρ objects c 1 Hb Hag Hbound Hc) as (v & -> & Hw & Hu); [intros os; apply Hme; by left|done|].
    cbn [res_bind]. unfold const_isFalse. rewrite Hu, andb_false_r. cbn [negb res_assert].
    apply IH; [done|]. intros e os He. apply Hme. by right. }
  cbn [res_bind]. destruct (evaluate_solution a ρ objects (query_expr q) 0 Hb Hag Hbound Hce) as (v & -> & Hw & Hu);
    [intros os; apply Hm; by left|done|]. cbn [res_bind]. unfold const_isTrue. by rewrite Hu, andb_false_r.
Qed.

Lemma assignment_validating_computeInitialValues_ok q objects :
  bool_query q -> refutable opt q -> Forall symbolic_object objects -> mentioned objects q ->
  sholds Inv (assignment_validating_computeInitialValues opt hash solver false q objects)
    (fun r => forall sol, r = Some sol -> solution_spec checked q objects sol).
Proof.
  intros Hq Hr Ho Hm. eapply sholds_bind.
  { apply (computeInitialValues_ok q objects); [by apply (bool_query_wf opt checked)|done|].
    split; [|done]. eapply Forall_impl; [exact Ho|]. intros os [? ?]. split; [done|auto]. }
  intros [[values|]|] Hsol; [| |by apply sholds_ret].
  - pose proof (Hsol _ eq_refl) as (ρ & Hρ & H0 & Hv).
    eapply (sholds_bind _ _ (fun _ => True)); [apply sholds_lift; exists tt; by rewrite (check_assignment_ok q objects ρ values)|].
    intros _ _. apply sholds_ret. by intros ? [= <-]; exists ρ.
  - apply sholds_ret. intros ? [= <-]. by apply (Hsol None).
Qed.
End correct.

(** ** Properties *)


(** Evaluating a query under the assignment a right solver found never
    aborts, when the objects are the symbolic arrays the query mentions and
    the flag [hasSolution] is not left set by a failing call. *)
Theorem assignment_validating_accepts `{A : APInt} {L : APIntLaws A} {AR : Arrays} (opt checked hash : bool)
    {S} (solver : SolverImpl S) (Inv : S -> Prop) q objects :
  (opt = true -> checked = true) -> small_domains -> byte_arrays ->
  SolverContract (SC:=evaluable_scope opt checked) checked solver Inv ->
  bool_query (SC:=evaluable_scope opt checked) checked q -> refutable opt q ->
  Forall symbolic_object objects -> mentioned objects q ->
  sholds Inv (computeInitialValues (AssignmentValidatingSolver opt hash solver false) q objects)
    (fun r => forall sol, r = Some sol -> solution_spec checked q objects sol).
Proof. intros. by apply (assignment_validating_computeInitialValues_ok opt checked). Qed.

(** When the solver below fails while the caller's flag is set, as
    [IndependentSolver] sets it before the call, the missing values are read. *)
Theorem assignment_validating_failure `{A : APInt} {AR : Arrays} (opt hash : bool)
    {S} (solver : SolverImpl S) q os objects s s' :
  computeInitialValues solver q (os :: objects) s = Ok (None, s') ->
  computeInitialValues (AssignmentValidatingSolver opt hash solver true) q (os :: objects) s = AssertFail.
Proof.
  intros E. cbn. unfold assignment_validating_computeInitialValues, sbind. by rewrite E.
Qed.

(** ** Witnesses *)
Section witnesses.
#[local] Existing Instance Examples.arrays.
Import Examples SolverExamples ScopeExamples.

Lemma small_mentioned : mentioned [1%positive] sample_query.
Proof.
  intros os e He Hm. apply elem_of_cons in He as [->|He]; [|apply list_elem_of_singleton in He as ->];
    cbn in Hm; apply list_elem_of_singleton; naive_solver.
Qed.

Lemma sample_symbolic : Forall symbolic_object [1%positive].
Proof. constructor; [|constructor]. split; [exact wt_a|done]. Qed.

Lemma sample_refutable : refutable false sample_query.
Proof. intros c H. exfalso. assert (createIsZero false small = Ok (Binary Eq (const_alloc 0 1) small)) as E by reflexivity. cbn [query_expr sample_query] in H. rewrite E in H. discriminate. Qed.

(* two lists of guesses *)
Definition sample_oracle : SolverImpl unit := GuessSolver false false [five_one].

Lemma sample_oracle_contract : SolverContract (SC:=evaluable_scope false false) false sample_oracle (fun _ => True).
Proof. by apply GuessSolver_contract. Qed.


Lemma assignment_validating_accepts_witness :
  sholds (fun _ : unit => True)
    (computeInitialValues (AssignmentValidatingSolver false true sample_solver false) sample_query [1%positive])
    (fun r => forall sol, r = Some sol -> solution_spec false sample_query [1%positive] sol).
Proof.
  apply (assignment_validating_accepts false false true sample_solver (fun _ => True));
    [done|apply sample_small_domains|apply sample_byte_arrays|apply sample_evaluable_contract
    |apply sample_query_evaluable|apply sample_refutable|apply sample_symbolic|apply small_mentioned].
Defined.

(* the objects need not be all the query mentions *)
Definition zeros : env := fun _ _ => 0.
Definition fives_and_zeros : SolverImpl unit := GuessSolver false false [fives; zeros].

(** A right answer of a right solver is rejected by a right oracle: asked for
    no object, the solver finds a state where a[0] = 5 refutes a[0] <> 5, but
    the values it returns do not fix a[0]. *)
Lemma validating_false_alarm :
  computeInitialValues fives_and_zeros (MkQuery [five] not_five) [] tt = Ok (Some (Some []), tt) /\
  computeInitialValues (ValidatingSolver false fives_and_zeros fives_and_zeros) (MkQuery [five] not_five) [] tt = AssertFail.
Proof. split; reflexivity. Qed.
End witnesses.
