(* ===== verification/SolverChain.v ===== *)
(** The solver chain: [constructSolverChain] of
    klee/lib/Solver/ConstructSolverChain.cpp.

    The chain stacks the layers the options select over the core solver, from
    the bottom: [AssignmentValidatingSolver], [CexCachingSolver],
    [CachingSolver], [IndependentSolver] and [ValidatingSolver], whose oracle is
    the core solver itself.  A [Chain] is a stacked solver with its state, the
    state it starts in, and the access to the state of the core solver that the
    oracle shares.  The logging layers, the fast counterexample solver and the
    cross-check with a second core solver are not modelled: the definition is
    that of the chain with these options off. *)
From Stdlib Require Import ZArith Lia Bool.
From stdpp Require Import base list numbers option gmap sets.
From S2P Require Import Prelude APInt Expr ExprCreate ExprSem ExprFactory ExprVisitor ExprReads ExprEval Solver SolverScope StagedSolver CachingSolver MapOfSets CexCachingSolver Independence IndependentSolver ValidatingSolver.
Open Scope Z_scope.

Section chain.
Context {A : APInt} {AR : Arrays}.

(** A solver over a core solver with state [C]. *)
Record Chain (C : Type) : Type := MkChain {
  chain_state : Type;
  chain_impl : SolverImpl chain_state;
  chain_start : C -> chain_state;
  chain_core : forall T, state C T -> state chain_state T;
}.
Arguments chain_state {C} c.
Arguments chain_impl {C} c.
Arguments chain_start {C} c s.
Arguments chain_core {C} c {T} m.

Context (ConstArrayOpt UseVisitorHash : bool).
(** The options of the counterexample cache, and what [hasSolution] holds after
    a failing call. *)
Context (CexCacheTryAll CexCacheSuperSet CexCacheExperimental DebugCexCacheCheckBinding hasSolution : bool).
Context (UseAssignmentValidatingSolver UseCexCache UseBranchCache UseIndependentSolver DebugValidateSolver : bool).

Section layers.
Context {C : Type} (coreSolver : SolverImpl C).

Definition core_chain : Chain C :=
  {| chain_impl := coreSolver; chain_start s := s; chain_core _ m := m |}.

(* a layer without a state of its own *)
Definition plain_layer (layer : forall S, SolverImpl S -> SolverImpl S) (c : Chain C) : Chain C :=
  {| chain_impl := layer _ (chain_impl c); chain_start := chain_start c; chain_core _ m := chain_core c m |}.

(* a layer with a state, and the state it starts in *)
Definition state_layer {X} (layer : forall S, SolverImpl S -> SolverImpl (S * X)) (x : X) (c : Chain C) : Chain C :=
  {| chain_impl := layer _ (chain_impl c); chain_start s := (chain_start c s, x); chain_core _ m := on_fst (chain_core c m) |}.

(* the core solver, reached through the chain *)
Definition shared_core (c : Chain C) : SolverImpl (chain_state c) := {|
  computeTruth q := chain_core c (computeTruth coreSolver q);
  computeValidity q := chain_core c (computeValidity coreSolver q);
  computeValue q := chain_core c (computeValue coreSolver q);
  computeInitialValues q objects := chain_core c (computeInitialValues coreSolver q objects);
|}.

Definition validating_layer (c : Chain C) : Chain C :=
  {| chain_impl := ValidatingSolver ConstArrayOpt (chain_impl c) (shared_core c);
     chain_start := chain_start c; chain_core _ m := chain_core c m |}.

Definition assignment_layer : Chain C -> Chain C :=
  plain_layer (fun S s => AssignmentValidatingSolver ConstArrayOpt UseVisitorHash s hasSolution).

Definition cex_layer : Chain C -> Chain C :=
  state_layer (fun S => CexCachingSolver ConstArrayOpt UseVisitorHash
    CexCacheTryAll CexCacheSuperSet CexCacheExperimental DebugCexCacheCheckBinding) empty_cache.

Definition branch_layer : Chain C -> Chain C := state_layer (fun S => CachingSolver ConstArrayOpt) [].

Definition independent_layer : Chain C -> Chain C := plain_layer (fun S => IndependentSolver ConstArrayOpt UseVisitorHash).

Definition when (option : bool) (layer : Chain C -> Chain C) (solver : Chain C) : Chain C :=
  if option then layer solver else solver.

Definition constructSolverChain : Chain C :=
  let solver := core_chain in
  let solver := when UseAssignmentValidatingSolver assignment_layer solver in
  let solver := when UseCexCache cex_layer solver in
  let solver := when UseBranchCache branch_layer solver in
  let solver := when UseIndependentSolver independent_layer solver in
  when DebugValidateSolver validating_layer solver.

End layers.
End chain.
Arguments chain_state {A C} c.
Arguments chain_impl {A C} c.
Arguments chain_start {A C} c s.
Arguments chain_core {A C} c {T} m.

(** ** Correctness *)
Section correct.
Context {A : APInt} {L : APIntLaws A} {AR : Arrays}.
Context (opt checked : bool).
Context (Hopt : opt = true -> checked = true) (Hdom : small_domains) (Hbytes : byte_arrays).
Context {C : Type} (coreSolver : SolverImpl C) (Inv : C -> Prop).
Context {SC : Scope opt checked}.
#[local] Instance scope_of_chain : Scope opt checked := evaluable_within opt checked SC.

(** The chain keeps its contract under an invariant that holds at the start and
    that the core solver's programs keep. *)
Definition chain_ok (c : Chain C) (Inv' : chain_state c -> Prop) : Prop :=
  SolverContract (SC:=evaluable_within opt checked SC) checked (chain_impl c) Inv' /\
  (forall s, Inv s -> Inv' (chain_start c s)) /\
  forall T (m : state C T) Q, sholds Inv m Q -> sholds Inv' (chain_core c m) Q.

Lemma plain_layer_ok layer c :
  (forall S (s : SolverImpl S) I, SolverContract (SC:=evaluable_within opt checked SC) checked s I ->
     SolverContract (SC:=evaluable_within opt checked SC) checked (layer S s) I) ->
  (exists I, chain_ok c I) -> exists I, chain_ok (plain_layer layer c) I.
Proof. intros Hl (I & Hc & Hs & Hm). exists I. split; [by apply Hl|done]. Qed.

Lemma state_layer_ok {X} layer (x : X) (P : X -> Prop) c :
  (forall S (s : SolverImpl S) I, SolverContract (SC:=evaluable_within opt checked SC) checked s I ->
     SolverContract (SC:=evaluable_within opt checked SC) checked (layer S s) (fun s => I (fst s) /\ P (snd s))) ->
  P x -> (exists I, chain_ok c I) -> exists I, chain_ok (state_layer layer x c) I.
Proof.
  intros Hl Hx (I & Hc & Hs & Hm). exists (fun s => I (fst s) /\ P (snd s)). split; [by apply Hl|]. split.
  - intros s Hs'. split; [by apply Hs|done].
  - intros T m Q HQ. by apply sholds_on_fst, Hm.
Qed.

Lemma core_chain_ok :
  SolverContract (SC:=evaluable_within opt checked SC) checked coreSolver Inv -> exists I, chain_ok (core_chain coreSolver) I.
Proof. intros H. exists Inv. by split_and!. Qed.

(** The oracle of the chain keeps the core solver's contract. *)
Lemma shared_core_ok c I :
  SolverContract (SC:=evaluable_within opt checked SC) checked coreSolver Inv -> chain_ok c I ->
  SolverContract (SC:=evaluable_within opt checked SC) checked (shared_core coreSolver c) I.
Proof.
  intros H (_ & _ & Hm). split; intros; apply Hm.
  - by apply (computeTruth_ok q).
  - by apply (computeValidity_ok q).
  - by apply (computeValue_ok q).
  - by apply (computeInitialValues_ok q objects).
Qed.

Lemma when_ok option layer c :
  ((exists I, chain_ok c I) -> exists I, chain_ok (layer c) I) -> (exists I, chain_ok c I) ->
  exists I, chain_ok (when option layer c) I.
Proof. destruct option; cbn; auto. Qed.

Lemma caching_layers_ok hash all super exp debug hasSolution cex branch indep :
  SolverContract (SC:=evaluable_within opt checked SC) checked coreSolver Inv ->
  exists I, chain_ok
    (constructSolverChain opt hash all super exp debug hasSolution false cex branch indep false coreSolver) I.
Proof.
  intros H. unfold constructSolverChain. cbn [when].
  apply when_ok; [|apply when_ok; [|apply when_ok; [|by apply core_chain_ok]]].
  - apply plain_layer_ok. intros S s I Hs. by apply IndependentSolver_contract.
  - apply (state_layer_ok _ _ (cache_ok opt checked)); [|constructor].
    intros S s I Hs. by apply CachingSolver_contract.
  - apply (state_layer_ok _ _ (cex_ok checked)); [|apply empty_cache_ok].
    intros S s I Hs. by apply CexCachingSolver_contract.
Qed.
End correct.

(** ** Properties *)

(** C11. The solver chain composes: over any core solver that keeps the
    contract, the chain of the counterexample cache, the query cache and the
    independence solver, each switched on or off, keeps the contract from the
    state it starts in, through every sequence of queries. *)
Theorem solver_chain_correct `{A : APInt} {L : APIntLaws A} {AR : Arrays} (opt checked : bool)
    {SC : Scope opt checked} (hash all super exp debug hasSolution cex branch indep : bool) {C} (core : SolverImpl C) (Inv : C -> Prop) :
  (opt = true -> checked = true) -> small_domains -> byte_arrays ->
  SolverContract (SC:=evaluable_within opt checked SC) checked core Inv ->
  let chain := constructSolverChain opt hash all super exp debug hasSolution false cex branch indep false core in
  exists Inv', SolverContract (SC:=evaluable_within opt checked SC) checked (chain_impl chain) Inv' /\
    forall s, Inv s -> Inv' (chain_start chain s).
Proof.
  intros Hopt Hdom Hbytes H chain.
  destruct (caching_layers_ok opt checked Hopt Hdom Hbytes core Inv hash all super exp debug hasSolution cex branch indep H)
    as (I & Hc & Hs & _). by exists I.
Qed.

(** With -debug-validate-solver, the chain checked against the core solver
    below it answers truth, validity and values as the contract says, and no
    check fails, from the state it starts in. *)
Theorem validated_chain_correct `{A : APInt} {L : APIntLaws A} {AR : Arrays} (opt checked : bool)
    {SC : Scope opt checked} (hash all super exp debug hasSolution cex branch indep : bool) {C} (core : SolverImpl C) (Inv : C -> Prop) :
  (opt = true -> checked = true) -> small_domains -> byte_arrays ->
  SolverContract (SC:=evaluable_within opt checked SC) checked core Inv ->
  let chain := constructSolverChain opt hash all super exp debug hasSolution false cex branch indep true core in
  exists Inv', (forall s, Inv s -> Inv' (chain_start chain s)) /\
    forall q, bool_query (SC:=evaluable_within opt checked SC) checked q ->
      sholds Inv' (computeTruth (chain_impl chain) q)
        (fun r => forall b, r = Some b -> if b then forced checked q 1 else feasible checked q 0) /\
      sholds Inv' (computeValidity (chain_impl chain) q) (fun r => forall v, r = Some v -> validity_spec checked q v) /\
      sholds Inv' (computeValue (chain_impl chain) q) (fun r => forall e, r = Some e ->
        exists c, e = Constant c /\ getBitWidth c = getWidth (query_expr q) /\ feasible checked q (uval c)).
Proof.
  intros Hopt Hdom Hbytes H chain.
  destruct (caching_layers_ok opt checked Hopt Hdom Hbytes core Inv hash all super exp debug hasSolution cex branch indep H)
    as (I & Hc). pose proof Hc as (Hi & Hs & _). pose proof (shared_core_ok opt checked core Inv _ I H Hc) as Ho.
  exists I. split; [exact Hs|]. intros q Hq. split; [|split].
  - eapply passes_on_holds. by apply (validating_computeTruth_ok opt checked (SC:=evaluable_within opt checked SC) _ _ I).
  - eapply passes_on_holds. by apply (validating_computeValidity_ok opt checked (SC:=evaluable_within opt checked SC) _ _ I).
  - eapply passes_on_holds. apply (validating_computeValue_ok opt checked Hopt (SC:=evaluable_within opt checked SC) _ _ I). apply Hq.
Qed.

(** ** Witnesses *)
Section witnesses.
#[local] Existing Instance Examples.arrays.
Import Examples SolverExamples ScopeExamples.

Definition sample_chain (validate : bool) : Chain unit :=
  constructSolverChain false true false true false true false false true true true validate sample_solver.

(** The whole chain answers, and again from its caches. *)
Lemma sample_chain_answers :
  match evaluate (chain_impl (sample_chain true)) sample_query (chain_start (sample_chain true) tt) with
  | Ok (Some ValidityUnknown, s) =>
      match evaluate (chain_impl (sample_chain true)) sample_query s with Ok (Some ValidityUnknown, _) => True | _ => False end
  | _ => False
  end.
Proof. exact I. Qed.

Lemma solver_chain_correct_witness :
  exists Inv', SolverContract (SC:=evaluable_scope false false) false (chain_impl (sample_chain false)) Inv' /\
    forall s, True -> Inv' (chain_start (sample_chain false) s).
Proof.
  apply (solver_chain_correct false false true false true false true false true true true sample_solver (fun _ => True));
    [done|apply sample_small_domains|apply sample_byte_arrays|apply sample_evaluable_contract].
Defined.

Lemma validated_chain_correct_witness :
  exists Inv', (forall s, True -> Inv' (chain_start (sample_chain true) s)) /\
    sholds Inv' (computeTruth (chain_impl (sample_chain true)) sample_query)
      (fun r => forall b, r = Some b -> if b then forced false sample_query 1 else feasible false sample_query 0).
Proof.
  destruct (validated_chain_correct false false true false true false true false true true true sample_solver (fun _ => True))
    as (I & Hs & H); [done|apply sample_small_domains|apply sample_byte_arrays|apply sample_evaluable_contract|].
  exists I. split; [exact Hs|]. apply (H sample_query sample_query_evaluable).
Defined.
End witnesses.
