(* ===== verification/Rng.v ===== *)
(** The Mersenne twister of klee/lib/Support/RNG.cpp: the state, [seed],
    [getInt32] with its in-place regeneration of the state block, and the
    derived draws.  Reads and writes of the array [mt] out of its bounds are
    [AssertFail]. *)
From Stdlib Require Import ZArith Lia Bool Btauto.
From stdpp Require Import base list numbers option.
From S2P Require Import Prelude.
Open Scope Z_scope.

Definition N_ : Z := 624.
Definition M_ : Z := 397.
Definition MATRIX_A : Z := 0x9908b0df.
Definition UPPER_MASK : Z := 0x80000000.
Definition LOWER_MASK : Z := 0x7fffffff.

Record RNG : Type := { mt : list Z; mti : Z }.

(** ** Array accesses *)

Definition get (a : list Z) (i : Z) : res Z :=
  match (if i <? 0 then None else a !! Z.to_nat i) with
  | Some v => Ok v
  | None => AssertFail
  end.

Definition set (a : list Z) (i v : Z) : res (list Z) :=
  assert* (0 <=? i) && (i <? Z.of_nat (length a)) in Ok (<[Z.to_nat i := v]> a).

(** ** Seeding *)

(* the loop of seed, for the next [n] values of mti *)
Fixpoint seed_loop (n : nat) (mti : Z) (mt : list Z) : res (list Z) :=
  match n with
  | O => Ok mt
  | S n' =>
      let* prev := get mt (mti - 1) in
      let v := wrap 64 (wrap 64 (1812433253 * Z.lxor prev (Z.shiftr prev 30)) + mti) in
      let* mt := set mt mti (wrap 32 v) in
      let* x := get mt mti in
      let* mt := set mt mti (Z.land x 0xffffffff) in
      seed_loop n' (mti + 1) mt
  end.

Definition seed (s : Z) : res RNG :=
  let* mt := set (replicate 624 0) 0 (Z.land s 0xffffffff) in
  let* mt := seed_loop 623 1 mt in
  Ok {| mt := mt; mti := N_ |}.

(** ** Regeneration *)

Definition mag01 (y : Z) : Z := if Z.land y 1 =? 1 then MATRIX_A else 0.

Definition mix (a b : Z) : Z := Z.lor (Z.land a UPPER_MASK) (Z.land b LOWER_MASK).

(* mt[kk] = mt[kk+off] ^ (y >> 1) ^ mag01[y & 1], y from mt[kk] and mt[next] *)
Definition twist_at (kk next src : Z) (mt : list Z) : res (list Z) :=
  let* a := get mt kk in
  let* b := get mt next in
  let y := mix a b in
  let* c := get mt src in
  set mt kk (Z.lxor (Z.lxor c (Z.shiftr y 1)) (mag01 y)).

(* a loop over kk, kk+1, ..., with mt[kk+off] on the right *)
Fixpoint twist_loop (n : nat) (kk off : Z) (mt : list Z) : res (list Z) :=
  match n with
  | O => Ok mt
  | S n' => let* mt := twist_at kk (kk + 1) (kk + off) mt in twist_loop n' (kk + 1) off mt
  end.

Definition regenerate (mt : list Z) : res (list Z) :=
  let* mt := twist_loop 227 0 M_ mt in              (* kk < N-M *)
  let* mt := twist_loop 396 (N_ - M_) (M_ - N_) mt in (* kk < N-1 *)
  twist_at (N_ - 1) 0 (M_ - 1) mt.

Definition temper (y : Z) : Z :=
  let y := Z.lxor y (Z.shiftr y 11) in
  let y := Z.lxor y (Z.land (wrap 32 (Z.shiftl y 7)) 0x9d2c5680) in
  let y := Z.lxor y (Z.land (wrap 32 (Z.shiftl y 15)) 0xefc60000) in
  Z.lxor y (Z.shiftr y 18).

Definition getInt32 (r : RNG) : res (Z * RNG) :=
  let* r :=
    if N_ <=? mti r then let* mt := regenerate (mt r) in Ok {| mt := mt; mti := 0 |}
    else Ok r in
  let* y := get (mt r) (mti r) in
  Ok (temper y, {| mt := mt r; mti := mti r + 1 |}).

Definition getInt31 (r : RNG) : res (Z * RNG) :=
  let* p := getInt32 r in Ok (Z.shiftr (fst p) 1, snd p).

Definition parity_fold (bits : Z) : Z :=
  let bits := Z.lxor bits (Z.shiftr bits 16) in
  let bits := Z.lxor bits (Z.shiftr bits 8) in
  let bits := Z.lxor bits (Z.shiftr bits 4) in
  let bits := Z.lxor bits (Z.shiftr bits 2) in
  let bits := Z.lxor bits (Z.shiftr bits 1) in
  Z.land bits 1.

Definition getBool (r : RNG) : res (bool * RNG) :=
  let* p := getInt32 r in Ok (negb (parity_fold (fst p) =? 0), snd p).

(** ** Invariant *)

Definition word (x : Z) : Prop := 0 <= x < 2 ^ 32.

Record valid (r : RNG) : Prop := {
  valid_length : length (mt r) = 624%nat;
  valid_words : Forall word (mt r);
  valid_mti : 0 <= mti r <= 624;
}.

(** ** Lemmas *)

Lemma get_ok a i : 0 <= i < Z.of_nat (length a) ->
  exists v, get a i = Ok v /\ a !! Z.to_nat i = Some v.
Proof.
  intros Hi. unfold get. replace (i <? 0) with false by lia.
  destruct (lookup_lt_is_Some_2 a (Z.to_nat i)) as [v Hv]; [lia|]. rewrite Hv. eauto.
Qed.

Lemma set_ok a i v : 0 <= i < Z.of_nat (length a) -> set a i v = Ok (<[Z.to_nat i := v]> a).
Proof. intros Hi. unfold set. by replace (_ && _) with true by lia. Qed.

Lemma word_lxor x y : word x -> word y -> word (Z.lxor x y).
Proof. apply lxor_range. lia. Qed.

Lemma word_land x y : word x -> 0 <= y -> word (Z.land x y).
Proof. apply land_range. lia. Qed.

Lemma word_lor x y : word x -> word y -> word (Z.lor x y).
Proof. apply lor_range. lia. Qed.

Lemma word_shiftr x n : word x -> 0 <= n -> word (Z.shiftr x n).
Proof.
  unfold word. intros Hx Hn. rewrite Z.shiftr_div_pow2 by done.
  pose proof (Z.pow_pos_nonneg 2 n). split; [apply Z.div_pos; lia|].
  apply Z.div_lt_upper_bound; [lia|]. nia.
Qed.

Lemma word_wrap x : word (wrap 32 x).
Proof. apply wrap_range. lia. Qed.

Create HintDb rng.
#[export] Hint Resolve word_lxor word_land word_shiftr word_wrap word_lor : rng.

Lemma word_mix a b : word a -> word b -> word (mix a b).
Proof.
  intros. unfold mix. apply word_lor; apply word_land; auto; unfold UPPER_MASK, LOWER_MASK; lia.
Qed.

Lemma word_mag01 y : word (mag01 y).
Proof. unfold mag01, MATRIX_A, word. destruct (_ =? _); lia. Qed.

Lemma word_temper y : word y -> word (temper y).
Proof.
  intros. unfold temper. cbn zeta.
  repeat first [apply word_lxor|apply word_shiftr|apply word_land|apply word_wrap|done|lia].
Qed.
#[export] Hint Resolve word_mix word_mag01 word_temper : rng.

(** What [twist_at] stores. *)
Definition twisted (a b c : Z) : Z :=
  Z.lxor (Z.lxor c (Z.shiftr (mix a b) 1)) (mag01 (mix a b)).

Lemma word_twisted a b c : word a -> word b -> word c -> word (twisted a b c).
Proof. intros. unfold twisted. auto 10 with rng zarith. Qed.

Definition at_ (a : list Z) (i : Z) : Z := a !!! Z.to_nat i.

Lemma at_insert a i j v :
  0 <= i < Z.of_nat (length a) -> 0 <= j ->
  at_ (<[Z.to_nat i := v]> a) j = if j =? i then v else at_ a j.
Proof.
  intros Hi Hj. unfold at_. destruct (Z.eqb_spec j i) as [->|Hne].
  - apply list_lookup_total_insert_eq. lia.
  - apply list_lookup_total_insert_ne. lia.
Qed.

Lemma twist_at_ok kk next src a :
  0 <= kk < Z.of_nat (length a) -> 0 <= next < Z.of_nat (length a) ->
  0 <= src < Z.of_nat (length a) -> Forall word a ->
  exists a', twist_at kk next src a = Ok a' /\ length a' = length a /\ Forall word a' /\
    forall j, 0 <= j -> at_ a' j =
      if j =? kk then twisted (at_ a kk) (at_ a next) (at_ a src) else at_ a j.
Proof.
  intros Hk Hn Hs Hw. unfold twist_at.
  destruct (get_ok a kk Hk) as (x & -> & Hx). destruct (get_ok a next Hn) as (y & -> & Hy).
  destruct (get_ok a src Hs) as (z & -> & Hz). cbn [res_bind].
  rewrite set_ok by done. eexists. split; [done|].
  pose proof (Forall_lookup_1 _ _ _ _ Hw Hx). pose proof (Forall_lookup_1 _ _ _ _ Hw Hy).
  pose proof (Forall_lookup_1 _ _ _ _ Hw Hz). split_and!.
  - by rewrite length_insert.
  - apply Forall_insert; [done|]. by apply word_twisted.
  - intros j Hj. rewrite at_insert by done. destruct (j =? kk); [|done].
    unfold at_. by rewrite (list_lookup_total_correct _ _ _ Hx),
      (list_lookup_total_correct _ _ _ Hy), (list_lookup_total_correct _ _ _ Hz).
Qed.

(** The block after the words below [k] have been regenerated: those satisfy
    the recurrence of the generator, the others are unchanged. *)
Record regenerated (old new : list Z) (k : Z) : Prop := {
  regen_length : length new = 624%nat;
  regen_words : Forall word new;
  regen_rest : forall j, k <= j -> at_ new j = at_ old j;
  regen_done : forall j, 0 <= j < k ->
    at_ new j = twisted (at_ old j)
      (if j =? 623 then at_ new 0 else at_ old (j + 1))
      (if j <? 227 then at_ old (j + 397) else at_ new (j - 227));
}.

Lemma regenerated_step old new k src next :
  length old = 624%nat -> regenerated old new k -> 0 <= k < 624 ->
  src = (if k <? 227 then k + 397 else k - 227) -> next = (if k =? 623 then 0 else k + 1) ->
  exists new', twist_at k next src new = Ok new' /\ regenerated old new' (k + 1).
Proof.
  intros Ho [Hl Hw Hr Hd] Hk Hsrc Hnext.
  assert (0 <= src < 624 /\ 0 <= next < 624) as [Hs Hn].
  { subst. destruct (k <? 227) eqn:?; destruct (k =? 623) eqn:?; tidy_bools; lia. }
  destruct (twist_at_ok k next src new) as (new' & -> & Hl' & Hw' & Hat); [lia..|done|].
  exists new'. split; [done|]. constructor; [lia|done| |].
  - intros j Hj. rewrite Hat by lia. replace (j =? k) with false by lia. apply Hr. lia.
  - intros j Hj. rewrite !Hat by lia. destruct (Z.eqb_spec j k) as [->|Hne].
    + f_equal.
      * apply Hr. lia.
      * rewrite Hnext. destruct (k =? 623) eqn:E; tidy_bools.
        -- by replace (0 =? k) with false by lia.
        -- apply Hr. lia.
      * rewrite Hsrc. destruct (k <? 227) eqn:E; tidy_bools; [apply Hr; lia|].
        rewrite Hat by lia. by replace (k - 227 =? k) with false by lia.
    + rewrite Hd by lia. replace (j =? 623) with false by lia.
      destruct (j <? 227) eqn:E; tidy_bools; [done|].
      rewrite Hat by lia. by replace (j - 227 =? k) with false by lia.
Qed.

Lemma twist_loop_ok old n : forall k new off,
  length old = 624%nat -> regenerated old new k -> 0 <= k -> k + Z.of_nat n <= 623 ->
  (off = 397 /\ k + Z.of_nat n <= 227 \/ off = -227 /\ 227 <= k) ->
  exists new', twist_loop n k off new = Ok new' /\ regenerated old new' (k + Z.of_nat n).
Proof.
  induction n as [|n IH]; intros k new off Ho Hr Hk Hn Hoff.
  - exists new. by rewrite Z.add_0_r.
  - cbn [twist_loop]. destruct (regenerated_step old new k (k + off) (k + 1)) as (new1 & -> & Hr1);
      [done|done|lia| | |].
    + destruct (k <? 227) eqn:E; tidy_bools; lia.
    + by replace (k =? 623) with false by lia.
    + cbn [res_bind]. destruct (IH (k + 1) new1 off) as (new2 & -> & Hr2); [done|done|lia|lia|lia|].
      exists new2. split; [done|]. by replace (k + Z.of_nat (S n)) with (k + 1 + Z.of_nat n) by lia.
Qed.

Lemma regenerate_ok old :
  length old = 624%nat -> Forall word old ->
  exists new, regenerate old = Ok new /\ regenerated old new 624.
Proof.
  intros Ho Hw. unfold regenerate, M_, N_.
  assert (regenerated old old 0) as H0 by (constructor; try done; lia).
  destruct (twist_loop_ok old 227 0 old 397) as (n1 & -> & H1); [done|done|lia|lia|lia|].
  cbn [res_bind]. change (624 - 397) with 227. change (397 - 624) with (-227).
  destruct (twist_loop_ok old 396 227 n1 (-227)) as (n2 & -> & H2); [done|done|lia|lia|lia|].
  cbn [res_bind]. apply (regenerated_step old n2 623); [done|exact H2|lia|done|done].
Qed.

Lemma seed_loop_ok n : forall i a,
  length a = 624%nat -> Forall word a -> 1 <= i -> i + Z.of_nat n <= 624 ->
  exists a', seed_loop n i a = Ok a' /\ length a' = 624%nat /\ Forall word a'.
Proof.
  induction n as [|n IH]; intros i a Hl Hw Hi Hn; [by exists a|]. cbn [seed_loop].
  destruct (get_ok a (i - 1)) as (p & -> & Hp); [lia|]. cbn [res_bind].
  rewrite set_ok by lia. cbn [res_bind].
  match goal with |- context [get ?a' i] => set (a1 := a') end.
  assert (length a1 = 624%nat) as Hl1 by (subst a1; by rewrite length_insert).
  assert (Forall word a1) as Hw1 by (apply Forall_insert; [done|apply word_wrap]).
  destruct (get_ok a1 i) as (x & -> & Hx); [lia|]. cbn [res_bind]. rewrite set_ok by lia.
  cbn [res_bind]. apply IH; [by rewrite length_insert| |lia|lia].
  apply Forall_insert; [done|]. apply word_land; [|lia]. by apply (Forall_lookup_1 _ _ _ _ Hw1 Hx).
Qed.

Lemma seed_ok s : word s -> exists r, seed s = Ok r /\ valid r.
Proof.
  intros Hs. unfold seed. rewrite set_ok by (cbn; lia). cbn [res_bind].
  destruct (seed_loop_ok 623 1 (<[Z.to_nat 0 := Z.land s 0xffffffff]> (replicate 624 0)))
    as (a & -> & Hl & Hw); try lia.
  - done.
  - apply Forall_insert; [by apply Forall_replicate|]. by apply word_land.
  - cbn [res_bind]. eexists. split; [done|]. constructor; cbn; [done|done|unfold N_; lia].
Qed.

Lemma getInt32_ok r :
  valid r -> exists y r', getInt32 r = Ok (y, r') /\ word y /\ valid r'.
Proof.
  intros [Hl Hw Hm]. unfold getInt32.
  assert (exists a i, (if N_ <=? mti r then let* mt := regenerate (mt r) in Ok {| mt := mt; mti := 0 |}
    else Ok r) = Ok {| mt := a; mti := i |} /\ length a = 624%nat /\ Forall word a /\ 0 <= i < 624)
    as (a & i & -> & Hl' & Hw' & Hi).
  { unfold N_. destruct (624 <=? mti r) eqn:E; tidy_bools.
    - destruct (regenerate_ok (mt r) Hl Hw) as (a & -> & [Hla Hwa _ _]). exists a, 0. cbn. split_and!; auto; lia.
    - exists (mt r), (mti r). split_and!; auto; [by destruct r|lia]. }
  cbn [res_bind mt mti]. destruct (get_ok a i) as (y & -> & Hy); [lia|]. cbn [res_bind].
  do 2 eexists. split; [done|]. split; [by apply word_temper; apply (Forall_lookup_1 _ _ _ _ Hw' Hy)|].
  constructor; cbn; [done|done|lia].
Qed.

(** The exclusive or of the low bits of a word. *)
Definition xor_bits (y : Z) (n : nat) : bool :=
  foldr xorb false (Z.testbit y <$> seqZ 0 (Z.of_nat n)).

Lemma foldr_xorb_app l l' : foldr xorb false (l ++ l') = xorb (foldr xorb false l) (foldr xorb false l').
Proof. induction l as [|b l IH]; cbn -[xorb]; [by rewrite xorb_false_l|]. by rewrite IH, xorb_assoc. Qed.

Lemma foldr_xorb_zip (f g : Z -> bool) l :
  foldr xorb false ((fun i => xorb (f i) (g i)) <$> l) =
  xorb (foldr xorb false (f <$> l)) (foldr xorb false (g <$> l)).
Proof.
  induction l as [|i l IH]; cbn; [done|]. rewrite IH.
  by destruct (f i), (g i), (foldr _ _ (f <$> l)), (foldr _ _ (g <$> l)).
Qed.

(** Folding a word in two keeps the exclusive or of its bits. *)
Lemma xor_bits_halve y m n :
  m = (n + n)%nat -> xor_bits y m = xor_bits (Z.lxor y (Z.shiftr y (Z.of_nat n))) n.
Proof.
  intros ->. unfold xor_bits. rewrite Nat2Z.inj_add, seqZ_app, fmap_app, foldr_xorb_app by lia.
  rewrite Z.add_0_l.
  assert (Z.testbit (Z.lxor y (Z.shiftr y (Z.of_nat n))) <$> seqZ 0 (Z.of_nat n) =
    (fun i => xorb (Z.testbit y i) (Z.testbit y (i + Z.of_nat n))) <$> seqZ 0 (Z.of_nat n)) as ->.
  { apply list_fmap_ext. intros k i Hi. apply lookup_seqZ in Hi.
    rewrite Z.lxor_spec, Z.shiftr_spec by lia. done. }
  rewrite (foldr_xorb_zip (Z.testbit y)). f_equal. f_equal.
  replace (seqZ (Z.of_nat n) (Z.of_nat n)) with (Z.add (Z.of_nat n) <$> seqZ 0 (Z.of_nat n))
    by (rewrite fmap_add_seqZ; f_equal; lia).
  rewrite <- list_fmap_compose. apply list_fmap_ext. intros k i _. cbn. f_equal. lia.
Qed.

(** ** Theorems *)

(** The generator never leaves its arrays: [seed] builds a valid state, and
    every draw from a valid state succeeds, is a 32-bit (31-bit for
    [getInt31]) word and leaves a valid state. *)
Theorem rng_draws_valid s r :
  word s -> valid r ->
  (exists r0, seed s = Ok r0 /\ valid r0) /\
  (exists y r', getInt32 r = Ok (y, r') /\ 0 <= y < 2 ^ 32 /\ valid r') /\
  (exists y r', getInt31 r = Ok (y, r') /\ 0 <= y < 2 ^ 31 /\ valid r').
Proof.
  intros Hs Hr. split; [by apply seed_ok|].
  destruct (getInt32_ok r Hr) as (y & r' & E & Hy & Hr'). unfold getInt31. rewrite E. cbn [res_bind fst snd].
  split; [by exists y, r'|]. exists (Z.shiftr y 1), r'. split; [done|]. split; [|done].
  unfold word in Hy. rewrite Z.shiftr_div_pow2 by lia. change (2 ^ 1) with 2.
  split; [apply Z.div_pos; lia|]. apply Z.div_lt_upper_bound; lia.
Qed.

(** C35. The in-place regeneration of the block computes the recurrence of the
    Mersenne twister on the previous block: word [j] is
    [x(j+397) xor twist(x(j), x(j+1))] for the infinite sequence [x] of old
    words followed by new ones. *)
Theorem regenerate_recurrence (old : list Z) :
  length old = 624%nat -> Forall word old ->
  exists new, regenerate old = Ok new /\ length new = 624%nat /\
    forall j, 0 <= j < 624 ->
      let x i := if i <? 624 then at_ old i else at_ new (i - 624) in
      at_ new j = twisted (x j) (x (j + 1)) (x (j + 397)).
Proof.
  intros Ho Hw. destruct (regenerate_ok old Ho Hw) as (new & -> & [Hl _ _ Hd]).
  exists new. split_and!; [done|done|]. intros j Hj. cbn zeta. rewrite Hd by lia.
  replace (j <? 624) with true by lia. f_equal.
  - destruct (Z.eqb_spec j 623) as [->|]; [done|]. by replace (j + 1 <? 624) with true by lia.
  - destruct (j <? 227) eqn:E; tidy_bools.
    + by replace (j + 397 <? 624) with true by lia.
    + replace (j + 397 <? 624) with false by lia. f_equal. lia.
Qed.

(** [getBool] is the exclusive or of the 32 bits of a draw. *)
Theorem getBool_parity r :
  valid r -> exists y r', getInt32 r = Ok (y, r') /\
    getBool r = Ok (foldr xorb false (Z.testbit y <$> seqZ 0 32), r').
Proof.
  intros Hr. destruct (getInt32_ok r Hr) as (y & r' & E & Hy & Hr'). exists y, r'. split; [done|].
  unfold getBool. rewrite E. cbn [res_bind fst snd]. do 2 f_equal.
  assert (parity_fold y = Z.b2z (foldr xorb false (Z.testbit y <$> seqZ 0 32))) as ->;
    [|by destruct (foldr _ _ _)].
  unfold parity_fold. cbn zeta. change (foldr _ _ _) with (xor_bits y 32).
  change 1 with (Z.ones 1) at 2. rewrite Z.land_ones by lia.
  change (2 ^ 1) with 2. rewrite <- Z.bit0_mod. f_equal.
  rewrite (xor_bits_halve y 32 16), (xor_bits_halve _ 16 8), (xor_bits_halve _ 8 4),
    (xor_bits_halve _ 4 2), (xor_bits_halve _ 2 1) by lia.
  symmetry. apply xorb_false_r.
Qed.

(** The reference output of MT19937 for the default seed. *)
Example default_seed_first_draw :
  (let* r := seed 5489 in let* p := getInt32 r in Ok (fst p)) = Ok 3499211612.
Proof. vm_compute. reflexivity. Qed.

Definition sample_block : list Z := replicate 624 1.
Definition sample_rng : RNG := {| mt := sample_block; mti := 624 |}.

Lemma sample_valid : valid sample_rng.
Proof.
  constructor; [done| |cbn; lia]. change (Forall word (replicate 624 1)).
  apply Forall_replicate. unfold word. lia.
Qed.

Lemma rng_draws_valid_witness :
  exists y r', getInt32 sample_rng = Ok (y, r') /\ 0 <= y < 2 ^ 32.
Proof.
  destruct (rng_draws_valid 5489 sample_rng) as (_ & (y & r' & H1 & H2 & _) & _);
    [unfold word; lia|exact sample_valid|].
  exists y, r'. split; assumption.
Defined.

Lemma regenerate_recurrence_witness :
  exists new, regenerate sample_block = Ok new /\ length new = 624%nat.
Proof.
  destruct (regenerate_recurrence sample_block) as (new & H1 & H2 & _);
    [reflexivity|exact (valid_words _ sample_valid)|].
  exists new. split; assumption.
Defined.

Lemma getBool_parity_witness :
  exists y r', getInt32 sample_rng = Ok (y, r') /\
    getBool sample_rng = Ok (foldr xorb false (Z.testbit y <$> seqZ 0 32), r').
Proof. exact (getBool_parity sample_rng sample_valid). Defined.
