(* ===== verification/Double.v ===== *)
(** IEEE 754 double precision, through the Standard Library's [SpecFloat]: the
    operations on [double] the sources use, and the order of [<].  A [double]
    is a [spec_float] with 53 bits of precision and exponents below 1024. *)
From Stdlib Require Import ZArith Lia Bool SpecFloat.
From stdpp Require Import base list numbers option.
From S2P Require Import Prelude.
Open Scope Z_scope.

Definition double : Type := spec_float.

Definition d_zero : double := S754_zero false.
Definition dadd (x y : double) : double := SFadd 53 1024 x y.
Definition dmul (x y : double) : double := SFmul 53 1024 x y.
Definition ddiv (x y : double) : double := SFdiv 53 1024 x y.
(* x < y and x >= y of the language: both are false on a NaN *)
Definition dlt (x y : double) : bool := SFltb x y.
Definition dge (x y : double) : bool := SFleb y x.

(** The double nearest to an integer. *)
Definition of_Z (n : Z) : double := binary_normalize 53 1024 n 0 false.

(** Truncation to an unsigned 64-bit integer of a value in range. *)
Definition to_uint64 (x : double) : Z :=
  match x with
  | S754_finite false m e => Z.shiftl (Z.pos m) e
  | _ => 0
  end.

(* the literals 0.1 and 1.1 *)
Definition d_0_1 : double := ddiv (of_Z 1) (of_Z 10).
Definition d_1_1 : double := ddiv (of_Z 11) (of_Z 10).

Definition is_nan_d (x : double) : bool := match x with S754_nan => true | _ => false end.

(** ** Order

    [<] is decided by the place of a value: its class, and for finite values
    the pair of exponent and mantissa (negated for negative ones). *)

Definition class_of (x : double) : Z :=
  match x with
  | S754_infinity true => -2
  | S754_finite true _ _ => -1
  | S754_zero _ => 0
  | S754_finite false _ _ => 1
  | S754_infinity false => 2
  | S754_nan => 3
  end.

Definition exp_of (x : double) : Z :=
  match x with S754_finite s m e => if s then - e else e | _ => 0 end.
Definition mant_of (x : double) : Z :=
  match x with S754_finite s m e => if s then - Z.pos m else Z.pos m | _ => 0 end.

Definition place_lt (x y : double) : Prop :=
  class_of x < class_of y \/
  class_of x = class_of y /\ (exp_of x < exp_of y \/ exp_of x = exp_of y /\ mant_of x < mant_of y).

Ltac place_case := solve [split; intros; first [done | lia | exfalso; (discriminate || lia)]].

Lemma dlt_place x y :
  is_nan_d x = false -> is_nan_d y = false -> dlt x y = true <-> place_lt x y.
Proof.
  unfold dlt, SFltb, place_lt.
  destruct x as [sx|sx| |sx mx ex], y as [sy|sy| |sy my ey]; cbn; try discriminate; intros _ _;
    try destruct sx; try destruct sy; cbn; try place_case.
  all: destruct (Z.compare_spec ex ey); cbn; try place_case.
  all: change (Pos.compare_cont Datatypes.Eq mx my) with (mx ?= my)%positive.
  all: destruct (Pos.compare_spec mx my); cbn; place_case.
Qed.

Lemma dlt_not_nan x y : dlt x y = true -> is_nan_d x = false /\ is_nan_d y = false.
Proof. by destruct x as [[]|[]| |[]], y as [[]|[]| |[]]. Qed.

(** A value above [t] is above everything that [t] is not below, and is not
    below any of it. *)
Lemma dlt_above t n e :
  dlt t n = true -> dlt t e = false -> dlt n e = false /\ (is_nan_d e = false -> dlt e n = true).
Proof.
  intros H1 H2. destruct (dlt_not_nan t n H1) as [Ht Hn].
  destruct (is_nan_d e) eqn:He.
  { destruct e; try discriminate. split; [|done]. by destruct n as [[]|[]| |[]]. }
  apply (dlt_place t n Ht Hn) in H1.
  assert (~ place_lt t e) as H2'.
  { intros C. apply (dlt_place t e Ht He) in C. congruence. }
  split.
  - apply not_true_is_false. intros C. apply (dlt_place n e Hn He) in C. unfold place_lt in *. lia.
  - intros _. apply (dlt_place e n He Hn). unfold place_lt in *. lia.
Qed.

Lemma dlt_irrefl x : dlt x x = false.
Proof.
  destruct (is_nan_d x) eqn:E; [by destruct x|].
  apply not_true_is_false. intros C. apply (dlt_place x x E E) in C. unfold place_lt in C. lia.
Qed.

(** The literals are the usual ones. *)
Example literal_0_1 : d_0_1 = S754_finite false 7205759403792794 (-56).
Proof. vm_compute. reflexivity. Qed.
Example literal_1_1 : d_1_1 = S754_finite false 4953959590107546 (-52).
Proof. vm_compute. reflexivity. Qed.
