(* ===== verification/RngDouble.v ===== *)
(** The floating-point draws of klee/lib/Support/RNG.cpp: [getDoubleLR],
    [getDoubleL], [getDouble] and their [float] versions, over [SpecFloat]'s
    binary64 and binary32.

    [getDoubleL] is exact: it returns the 32-bit draw divided by 2^32, so it is
    in [0, 1), what [DiscretePDF::choose] asserts.  The conversion of a 32-bit
    draw to [float] rounds, so that [getFloatL] and [getFloat] reach 1. *)
From Stdlib Require Import ZArith Lia Bool SpecFloat.
From stdpp Require Import base list numbers option.
From S2P Require Import Prelude Double Rng.
Open Scope Z_scope.

(** ** The draws *)

(* the literals 1.0/4294967295.0 and 1.0/4294967296.0 *)
Definition d_inv_max : double := ddiv (of_Z 1) (of_Z 4294967295).
Definition d_inv_2_32 : double := ddiv (of_Z 1) (of_Z 4294967296).
Definition d_0_5 : double := ddiv (of_Z 1) (of_Z 2).

Definition getDoubleLR (r : RNG) : res (double * RNG) :=
  let* p := getInt32 r in Ok (dmul (of_Z (fst p)) d_inv_max, snd p).
Definition getDoubleL (r : RNG) : res (double * RNG) :=
  let* p := getInt32 r in Ok (dmul (of_Z (fst p)) d_inv_2_32, snd p).
Definition getDouble (r : RNG) : res (double * RNG) :=
  let* p := getInt32 r in Ok (dmul (dadd (of_Z (fst p)) d_0_5) d_inv_2_32, snd p).

(* float: 24 bits of precision, exponents below 128 *)
Definition float : Type := spec_float.
Definition f_of_Z (n : Z) : float := binary_normalize 24 128 n 0 false.
Definition fmul (x y : float) : float := SFmul 24 128 x y.
Definition fadd (x y : float) : float := SFadd 24 128 x y.
Definition fdiv (x y : float) : float := SFdiv 24 128 x y.
Definition f_inv_max : float := fdiv (f_of_Z 1) (f_of_Z 4294967295).
Definition f_inv_2_32 : float := fdiv (f_of_Z 1) (f_of_Z 4294967296).
Definition f_0_5 : float := fdiv (f_of_Z 1) (f_of_Z 2).

Definition getFloatLR (r : RNG) : res (float * RNG) :=
  let* p := getInt32 r in Ok (fmul (f_of_Z (fst p)) f_inv_max, snd p).
Definition getFloatL (r : RNG) : res (float * RNG) :=
  let* p := getInt32 r in Ok (fmul (f_of_Z (fst p)) f_inv_2_32, snd p).
Definition getFloat (r : RNG) : res (float * RNG) :=
  let* p := getInt32 r in Ok (fmul (fadd (f_of_Z (fst p)) f_0_5) f_inv_2_32, snd p).

(** ** Rounding of exact values *)

Lemma digits_log2 p : Z.pos (digits2_pos p) = Z.log2 (Z.pos p) + 1.
Proof.
  induction p as [p IH|p IH|]; [| |done]; cbn [digits2_pos]; rewrite Pos2Z.inj_succ, IH.
  - rewrite Pos2Z.inj_xI, Z.log2_succ_double by lia. lia.
  - rewrite Pos2Z.inj_xO, Z.log2_double by lia. lia.
Qed.

Lemma iter_xO d : forall m, Z.pos (Pos.iter xO m d) = Z.pos m * 2 ^ Z.pos d.
Proof.
  induction d as [|d IH] using Pos.peano_ind; intros m; [cbn; lia|].
  rewrite Pos.iter_succ. rewrite Pos2Z.inj_xO, IH, Pos2Z.inj_succ, Z.pow_succ_r by lia. lia.
Qed.

Lemma iter_pos_iter {A} (f : A -> A) n : forall x, SpecFloat.iter_pos f n x = Nat.iter (Pos.to_nat n) f x.
Proof.
  induction n as [n IH|n IH|]; intros x; cbn [SpecFloat.iter_pos]; rewrite ?IH; [| |done].
  - rewrite Pos2Nat.inj_xI, Nat.iter_succ_r, <- Nat.iter_add. f_equal. lia.
  - rewrite Pos2Nat.inj_xO, <- Nat.iter_add. f_equal. lia.
Qed.

Lemma shr_1_double q : shr_1 {| shr_m := 2 * q; shr_r := false; shr_s := false |} =
  {| shr_m := q; shr_r := false; shr_s := false |}.
Proof. by destruct q. Qed.

Lemma iter_shr n : forall q, Nat.iter n shr_1 {| shr_m := q * 2 ^ Z.of_nat n; shr_r := false; shr_s := false |} =
  {| shr_m := q; shr_r := false; shr_s := false |}.
Proof.
  induction n as [|n IH]; intros q; [cbn; by rewrite Z.mul_1_r|].
  rewrite Nat.iter_succ_r. rewrite Nat2Z.inj_succ, Z.pow_succ_r by lia.
  replace (q * (2 * 2 ^ Z.of_nat n)) with (2 * (q * 2 ^ Z.of_nat n)) by lia. rewrite shr_1_double. apply IH.
Qed.

(** A mantissa of 53 bits followed by [s] zeros loses nothing. *)
Lemma round_exact m q e s :
  0 <= s -> Z.log2 (Z.pos q) = 52 -> Z.pos m = Z.pos q * 2 ^ s -> -1074 <= e + s <= 971 ->
  binary_round_aux 53 1024 false (Z.pos m) e loc_Exact = S754_finite false q (e + s).
Proof.
  intros Hs Hq Hm He. unfold binary_round_aux.
  assert (Z.log2 (Z.pos m) = 52 + s) as Hl by (rewrite Hm, Z.log2_mul_pow2, Hq; lia).
  assert (shr_fexp 53 1024 (Z.pos m) e loc_Exact =
    ({| shr_m := Z.pos q; shr_r := false; shr_s := false |}, e + s)) as ->.
  { unfold shr_fexp, fexp, emin. cbn [Zdigits2]. rewrite digits_log2, Hl.
    replace (Z.max (52 + s + 1 + e - 53) (3 - 1024 - 53) - e) with s by lia.
    cbn [shr_record_of_loc]. destruct s as [|p|p]; [|cbn [shr]; f_equal|lia].
    - cbn [shr]. rewrite Z.add_0_r. f_equal. f_equal. lia.
    - rewrite iter_pos_iter, Hm. rewrite <- (positive_nat_Z p). apply iter_shr. }
  cbn [shr_m loc_of_shr_record round_nearest_even].
  assert (shr_fexp 53 1024 (Z.pos q) (e + s) loc_Exact =
    ({| shr_m := Z.pos q; shr_r := false; shr_s := false |}, e + s)) as ->.
  { unfold shr_fexp, fexp, emin. cbn [Zdigits2]. rewrite digits_log2, Hq.
    replace (Z.max (52 + 1 + (e + s) - 53) (3 - 1024 - 53) - (e + s)) with 0 by lia. done. }
  cbn [shr_m]. destruct (Z.leb_spec (e + s) (1024 - 53)); [done|lia].
Qed.

(** A positive integer below 2^53 is a double. *)
Lemma of_Z_exact y :
  0 < y < 2 ^ 53 ->
  exists m, of_Z y = S754_finite false m (Z.log2 y - 52) /\ Z.log2 (Z.pos m) = 52 /\
    Z.pos m = y * 2 ^ (52 - Z.log2 y).
Proof.
  intros [H1 H2]. destruct y as [|y|y]; [lia| |lia].
  assert (0 <= Z.log2 (Z.pos y) < 53) as Hl.
  { split; [apply Z.log2_nonneg|]. by apply Z.log2_lt_pow2. }
  set (L := Z.log2 (Z.pos y)) in *.
  assert (exists m, binary_round 53 1024 false y 0 = binary_round_aux 53 1024 false (Z.pos m) (L - 52) loc_Exact /\
      Z.pos m = Z.pos y * 2 ^ (52 - L)) as (m & E & Hm).
  { unfold binary_round, shl_align, fexp, emin. rewrite digits_log2. fold L.
    replace (Z.max (L + 1 + 0 - 53) (3 - 1024 - 53) - 0) with (L - 52) by lia.
    replace (Z.max (L + 1 + 0 - 53) (3 - 1024 - 53)) with (L - 52) by lia.
    destruct (L - 52) as [|p|p] eqn:Ed; [|lia|].
    - exists y. split; [done|]. replace (52 - L) with 0 by lia. lia.
    - exists (Pos.iter xO y p). split; [done|]. rewrite iter_xO. do 2 f_equal. lia. }
  assert (Z.log2 (Z.pos m) = 52) as Hlm.
  { rewrite Hm, Z.log2_mul_pow2 by lia. fold L. lia. }
  exists m. split_and!; [|done|done]. unfold of_Z, binary_normalize. rewrite E.
  rewrite (round_exact m m (L - 52) 0); try lia. f_equal. lia.
Qed.

(** ** Bounds *)

(* the value m * 2^e of a non-negative double is y / 2^32 *)
Definition is_ratio_2_32 (x : double) (y : Z) : Prop :=
  match x with
  | S754_zero false => y = 0
  | S754_finite false m e => e < 0 /\ Z.pos m * 2 ^ 32 = y * 2 ^ (- e)
  | _ => False
  end.

Lemma d_inv_2_32_value : d_inv_2_32 = S754_finite false 4503599627370496 (-84).
Proof. by vm_compute. Qed.

Lemma of_Z_1 : of_Z 1 = S754_finite false 4503599627370496 (-52).
Proof. by vm_compute. Qed.

Lemma draw_ratio y :
  0 <= y < 2 ^ 32 ->
  let x := dmul (of_Z y) d_inv_2_32 in
  is_ratio_2_32 x y /\ dlt x d_zero = false /\ dge x (of_Z 1) = false.
Proof.
  intros [H0 H1]. cbn zeta. rewrite d_inv_2_32_value, of_Z_1. destruct (Z.eq_dec y 0) as [->|Hne]; [done|].
  destruct (of_Z_exact y) as (m & -> & Hm & Em); [lia|].
  assert (0 <= Z.log2 y < 32) as Hl.
  { split; [apply Z.log2_nonneg|]. apply Z.log2_lt_pow2; lia. }
  unfold dmul. cbn [SFmul xorb].
  rewrite (round_exact _ m (Z.log2 y - 52 + -84) 52); [|lia|done|rewrite Pos2Z.inj_mul; lia|lia].
  replace (Z.log2 y - 52 + -84 + 52) with (Z.log2 y - 84) by lia. split_and!; [|done|].
  - split; [lia|]. rewrite Em. rewrite <- Z.mul_assoc, <- Z.pow_add_r by lia. do 2 f_equal. lia.
  - unfold dge, SFleb, SFcompare. destruct (Z.compare_spec (-52) (Z.log2 y - 84)); [lia|lia|done].
Qed.

(** [RNG::getDoubleL] returns the 32-bit draw divided by 2^32, without
    rounding: a number of [0, 1), as its comment says. *)
Theorem getDoubleL_exact (r : RNG) :
  valid r ->
  exists y x r', getInt32 r = Ok (y, r') /\ getDoubleL r = Ok (x, r') /\ valid r' /\
    is_ratio_2_32 x y /\ dlt x d_zero = false /\ dge x (of_Z 1) = false.
Proof.
  intros Hv. destruct (getInt32_ok r Hv) as (y & r' & E & Hy & Hr').
  exists y, (dmul (of_Z y) d_inv_2_32), r'. unfold getDoubleL. rewrite E. cbn [res_bind fst snd].
  destruct (draw_ratio y Hy) as (H1 & H2 & H3). by split_and!.
Qed.

(* a generator whose next draw is the largest one *)
Definition largest_rng : RNG := {| mt := replicate 624 316513203; mti := 0 |}.

Lemma largest_rng_valid : valid largest_rng.
Proof.
  constructor; [done| |cbn; lia]. apply Forall_replicate. unfold word. lia.
Qed.

Lemma getDoubleL_exact_witness :
  exists y x r', getInt32 largest_rng = Ok (y, r') /\ getDoubleL largest_rng = Ok (x, r') /\ valid r' /\
    is_ratio_2_32 x y /\ dlt x d_zero = false /\ dge x (of_Z 1) = false.
Proof. apply (getDoubleL_exact largest_rng), largest_rng_valid. Defined.

(** [getFloatL], "on [0,1)", and [getFloat], "on (0,1)", return 1 on the
    largest draws: the conversion to [float] rounds them up to 2^32. *)
Example getFloatL_reaches_1 :
  match getInt32 largest_rng, getFloatL largest_rng, getFloat largest_rng with
  | Ok (y, _), Ok (x, _), Ok (z, _) => y = 4294967295 /\ x = f_of_Z 1 /\ z = f_of_Z 1
  | _, _, _ => False
  end.
Proof. vm_compute. done. Qed.

(* the least draw with this result *)
Example float_rounds_up :
  fmul (f_of_Z 4294967168) f_inv_2_32 = f_of_Z 1 /\ fmul (f_of_Z 4294967167) f_inv_2_32 ≠ f_of_Z 1.
Proof. vm_compute. done. Qed.

(** The bounds of the other draws are reached at the ends of the range:
    [getDoubleLR] at both ends of [0,1], [getDouble] strictly inside. *)
Example double_ends :
  dmul (of_Z 0) d_inv_max = d_zero /\ dmul (of_Z 4294967295) d_inv_max = of_Z 1 /\
  dlt d_zero (dmul (dadd (of_Z 0) d_0_5) d_inv_2_32) = true /\
  dlt (dmul (dadd (of_Z 4294967295) d_0_5) d_inv_2_32) (of_Z 1) = true.
Proof. vm_compute. done. Qed.
