(* ===== verification/DiscretePDF.v ===== *)
(** The discrete probability distribution of the weighted searchers
    (klee/include/klee/Internal/ADT/DiscretePDF.h and DiscretePDF.inc): a
    red-black tree of items with their weights, where each node also keeps the
    sum of the weights of its subtree.

    - [tree]: a node's subtree.  A pointer to a node is a zipper: the subtree
      at the node and the [path] of frames from its parent to the root, which
      stand for the [parent] pointers.  [rotate], [split] and [lengthen] move
      the nodes around the focus.
    - The item is an [ExecutionState *], compared by address: a [positive].
      The weights are any type with the operations of [Weight]; the program
      uses [double].
    - A null dereference and a failed assertion are both [AssertFail].

    [pdf_ok] is the invariant: sorted items, right sums, a black root.
    [contents] is the finite map the tree stands for.  Every operation that
    does not assert refines the one on the map, keeps the invariant, and
    terminates without a null dereference. *)
From Stdlib Require Import ZArith Lia Bool SpecFloat.
From stdpp Require Import base list numbers option sets gmap sorting.
From S2P Require Import Prelude Double.
Open Scope Z_scope.

(** What the tree does with weights: [weight_type]. *)
Class Weight (W : Type) : Type := {
  w_zero : W;
  w_add : W -> W -> W;
  w_sub : W -> W -> W;
  w_lt : W -> W -> bool;
  w_scale : W -> double -> W;      (* (weight_type) (w * p) *)
}.

#[export] Instance double_weight : Weight double := {|
  w_zero := d_zero;
  w_add := dadd;
  w_sub := SFsub 53 1024;
  w_lt := dlt;
  w_scale := dmul;
|}.

Local Notation "'let2*' x , y ':=' m 'in' k" := (res_bind m (fun '(x, y) => k))
  (at level 10, x name, y name, m at level 100, k at level 200).

Section pdf.
Context {W : Type} `{Weight W}.

(** ** The tree *)

(* [red] is m_mark *)
Inductive tree : Type :=
| Leaf
| Node (red : bool) (left : tree) (key : positive) (weight sumWeights : W) (right : tree).

(* the node above a focus; [f_left]: the focus is its left child *)
Record frame : Type := Frame {
  f_left : bool; f_red : bool; f_key : positive; f_weight : W; f_sum : W; f_other : tree;
}.

Definition is_red (t : tree) : bool := match t with Leaf => false | Node m _ _ _ _ _ => m end.
Definition mark (m : bool) (t : tree) : tree :=
  match t with Leaf => Leaf | Node _ l k w s r => Node m l k w s r end.
Definition mark_frame (m : bool) (f : frame) : frame :=
  Frame (f_left f) m (f_key f) (f_weight f) (f_sum f) (f_other f).
Definition is_null (t : tree) : bool := match t with Leaf => true | _ => false end.
Definition child (d : bool) (t : tree) : tree :=
  match t with Leaf => Leaf | Node _ l _ _ _ r => if d then l else r end.

(* leftIsBlack, rightIsBlack *)
Definition leftIsBlack (t : tree) : bool := negb (is_red (child true t)).
Definition rightIsBlack (t : tree) : bool := negb (is_red (child false t)).
Definition childIsBlack (d : bool) (t : tree) : bool := if d then leftIsBlack t else rightIsBlack t.

Definition add_sum (s : W) (t : tree) : W :=
  match t with Leaf => s | Node _ _ _ _ st _ => w_add s st end.
Definition setSum (weight : W) (l r : tree) : W := add_sum (add_sum weight l) r.

(** ** Moving the focus *)
Definition up (f : frame) (n : tree) : tree :=
  if f_left f then Node (f_red f) n (f_key f) (f_weight f) (f_sum f) (f_other f)
  else Node (f_red f) (f_other f) (f_key f) (f_weight f) (f_sum f) n.

Fixpoint plug (path : list frame) (n : tree) : tree :=
  match path with [] => n | f :: path' => plug path' (up f n) end.

Fixpoint down (dirs : list bool) (t : tree) (path : list frame) : res (tree * list frame) :=
  match dirs with
  | [] => Ok (t, path)
  | d :: dirs' =>
      match t with
      | Leaf => AssertFail
      | Node m l k w s r =>
          if d then down dirs' l (Frame true m k w s r :: path)
          else down dirs' r (Frame false m k w s l :: path)
      end
  end.

(** ** rotate: [n] goes above its parent [p].  [n->setSum()] runs before
    [p->setSum()], with the old sum of [p]. *)
Definition rotate (p : frame) (n : tree) : res tree :=
  match n with
  | Leaf => AssertFail
  | Node m a k w _ b =>
      if f_left p then
        let old := Node (f_red p) b (f_key p) (f_weight p) (f_sum p) (f_other p) in
        Ok (Node m a k w (setSum w a old)
             (Node (f_red p) b (f_key p) (f_weight p) (setSum (f_weight p) b (f_other p)) (f_other p)))
      else
        let old := Node (f_red p) (f_other p) (f_key p) (f_weight p) (f_sum p) a in
        Ok (Node m (Node (f_red p) (f_other p) (f_key p) (f_weight p) (setSum (f_weight p) (f_other p) a) a)
             k w (setSum w old b) b)
  end.

(** ** split *)
Definition mark_children (m : bool) (t : tree) : tree :=
  match t with Leaf => Leaf | Node r0 l k w s r => Node r0 (mark m l) k w s (mark m r) end.

Definition split (n : tree) (path : list frame) : res (tree * list frame) :=
  let n := mark_children false n in
  match path with
  | [] => Ok (n, [])
  | p :: rest =>
      let n := mark true n in
      if negb (f_red p) then Ok (n, p :: rest)
      else
        match rest with
        | [] => AssertFail
        | pp :: rest =>
            let pp := mark_frame true pp in
            if negb (eqb (f_left p) (f_left pp)) then
              (* not same direction: rotate(n); p = n; rotate(p) *)
              let* t := rotate p n in
              let* t := rotate pp t in
              Ok (mark false t, rest)
            else
              let* t := rotate pp (up p n) in
              down [f_left p] (mark false t) rest
        end
  end.

(** ** propogateSumsUp *)
Definition resum (n : tree) : tree :=
  match n with Leaf => Leaf | Node m l k w _ r => Node m l k w (setSum w l r) r end.

Fixpoint propogateSumsUp (n : tree) (path : list frame) : tree :=
  match path with
  | [] => resum n
  | f :: path' => propogateSumsUp (up f (resum n)) path'
  end.

(* propogateSumsUp(n->parent) *)
Definition propogateSumsUp_parent (n : tree) (path : list frame) : tree :=
  match path with [] => n | f :: path' => propogateSumsUp (up f n) path' end.

(** ** insert *)

(* the descent: the new node's path *)
Fixpoint insert_descend (fuel : nat) (item : positive) (n : tree) (path : list frame) : res (list frame) :=
  match fuel with
  | O => OutOfFuel
  | S fuel =>
      if is_null n then Ok path
      else
        let2* n, path := if negb (leftIsBlack n) && negb (rightIsBlack n) then split n path
                         else Ok (n, path) in
        match n with
        | Leaf => AssertFail
        | Node m l k w s r =>
            if (k =? item)%positive then AssertFail (* already in tree *)
            else if (item <? k)%positive then insert_descend fuel item l (Frame true m k w s r :: path)
            else insert_descend fuel item r (Frame false m k w s l :: path)
        end
  end.

Fixpoint size (t : tree) : nat :=
  match t with Leaf => 0 | Node _ l _ _ _ r => S (size l + size r) end%nat.

Definition insert_fuel (t : tree) : nat := S (S (size t) * S (size t)).

Definition pdf_insert (item : positive) (weight : W) (root : tree) : res tree :=
  let* path := insert_descend (insert_fuel root) item root [] in
  let n := Node false Leaf item weight w_zero Leaf in
  let2* n, path := match path with [] => Ok (n, []) | _ => split n path end in
  Ok (propogateSumsUp n path).

(** ** lookup *)
Fixpoint lookup_pos (item : positive) (n : tree) (path : list frame) : tree * list frame :=
  match n with
  | Leaf => (Leaf, path)
  | Node m l k w s r =>
      if (k =? item)%positive then (n, path)
      else if (item <? k)%positive then lookup_pos item l (Frame true m k w s r :: path)
      else lookup_pos item r (Frame false m k w s l :: path)
  end.

(** ** lengthen

    The mirror-image cases of the source are one case here: [d] says that [n]
    is the left child, so that the sibling's near child is on side [d] and its
    far child on side [negb d]. *)

(* n->parent with the focus on the sibling of n *)
Definition across (p : frame) (n : tree) : frame :=
  Frame (negb (f_left p)) (f_red p) (f_key p) (f_weight p) (f_sum p) n.

Definition with_other (t : tree) (f : frame) : frame :=
  Frame (f_left f) (f_red f) (f_key f) (f_weight f) (f_sum f) t.

Definition mark_child (d m : bool) (t : tree) : res tree :=
  match t with
  | Leaf => AssertFail
  | Node m0 l k w s r =>
      if is_null (if d then l else r) then AssertFail
      else Ok (if d then Node m0 (mark m l) k w s r else Node m0 l k w s (mark m r))
  end.

(* the sibling is red: it goes above the parent, and n gets a new sibling *)
Definition lengthen_red_sibling (n : tree) (p : frame) (rest : list frame) : res (tree * list frame) :=
  if is_red (f_other p) then
    let* t := rotate (across (mark_frame true p) n) (mark false (f_other p)) in
    down [f_left p; f_left p] t rest
  else Ok (n, p :: rest).

(* the sibling is black with a red child: n and its place *)
Definition lengthen_rotate (n : tree) (p : frame) (rest : list frame) : res (tree * list frame) :=
  let d := f_left p in
  let* sibling :=
    if childIsBlack (negb d) (f_other p) then
      (* rotate(sibling->near); sibling->markRed(); sibling->parent->markBlack() *)
      let2* near, at_sibling := down [d] (f_other p) [] in
      match at_sibling with
      | [f] => let* t := rotate f near in let* t := mark_child (negb d) true t in Ok (mark false t)
      | _ => AssertFail
      end
    else Ok (f_other p) in
  let* t := rotate (across p n) sibling in
  let t := if f_red p then mark true t else t in
  let* t := mark_child true false t in
  let* t := mark_child false false t in
  down [d; d] t rest.

Fixpoint lengthen (fuel : nat) (n : tree) (path : list frame) : res (tree * list frame) :=
  match fuel with
  | O => OutOfFuel
  | S fuel =>
      if is_red n then Ok (mark false n, path)
      else
        match path with
        | [] => Ok (n, [])
        | p :: rest =>
            let2* n, path := lengthen_red_sibling n p rest in
            match path with
            | [] => AssertFail
            | p :: rest =>
                if is_null (f_other p) then
                  let2* pt, rest := lengthen fuel (up p n) rest in
                  down [f_left p] pt rest
                else if leftIsBlack (f_other p) && rightIsBlack (f_other p) then
                  let p' := with_other (mark true (f_other p)) p in
                  if negb (f_red p) then
                    let2* pt, rest := lengthen fuel (up p' n) rest in
                    down [f_left p] pt rest
                  else Ok (n, mark_frame false p' :: rest)
                else lengthen_rotate n p rest
            end
        end
  end.

(** ** remove *)

(* the rightmost node below a left child, and its path from there *)
Fixpoint left_max (n : tree) (path : list frame) : tree * list frame :=
  match n with
  | Leaf => (Leaf, path)
  | Node m l k w s r => if is_null r then (n, path) else left_max r (Frame false m k w s l :: path)
  end.

Definition pdf_remove (item : positive) (root : tree) : res tree :=
  let '(n, path) := lookup_pos item root [] in
  match n with
  | Leaf => AssertFail (* not in tree *)
  | Node m l k w s r =>
      let '(n, path) :=
        match l with
        | Leaf => (n, path)
        | Node _ _ _ _ _ _ =>
            let '(mx, mpath) := left_max l [] in
            match mx with
            | Leaf => (mx, mpath)
            | Node _ _ k' w' _ _ => (mx, mpath ++ Frame true m k' w' s r :: path)
            end
        end in
      (* node now has at most one child *)
      let c := if is_null (child true n) then child false n else child true n in
      let2* c, path := if negb (is_null c) && negb (is_red n) then lengthen (length path + 2) c path
                       else Ok (c, path) in
      Ok (propogateSumsUp_parent c path)
  end.

(** ** update, inTree, getWeight, empty *)
Definition pdf_update (item : positive) (weight : W) (root : tree) : res tree :=
  let '(n, path) := lookup_pos item root [] in
  match n with
  | Leaf => AssertFail
  | Node m l k _ s r => Ok (propogateSumsUp (Node m l k weight s r) path)
  end.

Definition inTree (item : positive) (root : tree) : bool :=
  negb (is_null (fst (lookup_pos item root []))).

Definition pdf_getWeight (item : positive) (root : tree) : res W :=
  match fst (lookup_pos item root []) with
  | Leaf => AssertFail
  | Node _ _ _ w _ _ => Ok w
  end.

Definition pdf_empty (root : tree) : bool := is_null root.

(** ** choose *)

(* the loop, at a node: the left child, this node, or the right child *)
Fixpoint choose_loop (w : W) (n : tree) : option positive :=
  match n with
  | Leaf => None
  | Node _ l k weight _ r =>
      let here w := if w_lt w weight || is_null r then Some k else choose_loop (w_sub w weight) r in
      match l with
      | Leaf => here w
      | Node _ _ _ _ lsum _ => if w_lt w lsum then choose_loop w l else here (w_sub w lsum)
      end
  end.

Definition choose (p : double) (root : tree) : res positive :=
  if dlt p d_zero || dge p (of_Z 1) then AssertFail
  else
    match root with
    | Leaf => AssertFail
    | Node _ _ _ _ sum _ =>
        match choose_loop (w_scale sum p) root with Some k => Ok k | None => AssertFail end
    end.

End pdf.
Arguments tree W : clear implicits.
Arguments frame W : clear implicits.

(** ** What a tree holds *)
Section views.
Context {W : Type} `{Weight W}.
Implicit Types (n t l r : tree W) (f : frame W) (path : list (frame W)).

(** The items with their weights, from left to right; the map of them. *)
Fixpoint to_list (t : tree W) : list (positive * W) :=
  match t with Leaf => [] | Node _ l k w _ r => to_list l ++ (k, w) :: to_list r end.

Definition contents (t : tree W) : gmap positive W := list_to_map (to_list t).

(* the items on the left and on the right of a focus *)
Fixpoint lefts (path : list (frame W)) : list (positive * W) :=
  match path with
  | [] => []
  | f :: path' => lefts path' ++ if f_left f then [] else to_list (f_other f) ++ [(f_key f, f_weight f)]
  end.
Fixpoint rights (path : list (frame W)) : list (positive * W) :=
  match path with
  | [] => []
  | f :: path' => (if f_left f then (f_key f, f_weight f) :: to_list (f_other f) else []) ++ rights path'
  end.

(** The sums are the ones [setSum] computes, bottom up. *)
Fixpoint sums_ok (t : tree W) : Prop :=
  match t with
  | Leaf => True
  | Node _ l _ w s r => s = setSum w l r /\ sums_ok l /\ sums_ok r
  end.

Definition kids_ok (t : tree W) : Prop :=
  match t with Leaf => True | Node _ l _ _ _ r => sums_ok l /\ sums_ok r end.
Definition others_ok (path : list (frame W)) : Prop := Forall (fun f => sums_ok (f_other f)) path.

Definition sorted (l : list (positive * W)) : Prop := StronglySorted Pos.lt l.*1.

(** The invariant of the data structure. *)
Record pdf_ok (t : tree W) : Prop := {
  ok_sorted : sorted (to_list t);
  ok_sums : sums_ok t;
  ok_root : is_red t = false;
}.

(* the mark of the root, from a focus with mark [m] *)
Fixpoint root_red (m : bool) (path : list (frame W)) : bool :=
  match path with [] => m | f :: path' => root_red (f_red f) path' end.

Fixpoint reds (t : tree W) : nat :=
  match t with Leaf => 0 | Node m l _ _ _ r => Nat.b2n m + reds l + reds r end%nat.
Fixpoint reds_path (path : list (frame W)) : nat :=
  match path with [] => 0 | f :: path' => Nat.b2n (f_red f) + reds (f_other f) + reds_path path' end%nat.

(** ** Basic facts *)
Lemma to_list_plug path : forall n, to_list (plug path n) = lefts path ++ to_list n ++ rights path.
Proof.
  induction path as [|f path IH]; intros n; cbn; [by rewrite app_nil_r|].
  rewrite IH. unfold up. destruct (f_left f); cbn; rewrite <- ?app_assoc; done.
Qed.

Lemma lefts_app p q : lefts (p ++ q) = lefts q ++ lefts p.
Proof. induction p as [|f p IH]; cbn; [by rewrite app_nil_r|]. by rewrite IH, app_assoc. Qed.
Lemma rights_app p q : rights (p ++ q) = rights p ++ rights q.
Proof. induction p as [|f p IH]; cbn; [done|]. by rewrite IH, app_assoc. Qed.

Lemma is_red_plug path : forall n, is_red (plug path n) = root_red (is_red n) path.
Proof. induction path as [|f path IH]; intros n; cbn; [done|]. rewrite IH. unfold up. by destruct (f_left f). Qed.

Lemma root_red_app p q m : root_red m (p ++ q) = root_red (root_red m p) q.
Proof. revert m. by induction p as [|f p IH]; intros m; cbn. Qed.

Lemma to_list_mark m t : to_list (mark m t) = to_list t.
Proof. by destruct t. Qed.
Lemma sums_ok_mark m t : sums_ok (mark m t) <-> sums_ok t.
Proof. by destruct t. Qed.
Lemma kids_ok_mark m t : kids_ok (mark m t) <-> kids_ok t.
Proof. by destruct t. Qed.
Lemma sums_kids t : sums_ok t -> kids_ok t.
Proof. destruct t; cbn; tauto. Qed.
Lemma add_sum_mark s m t : add_sum s (mark m t) = add_sum s t.
Proof. by destruct t. Qed.
Lemma setSum_mark w m m' l r : setSum w (mark m l) (mark m' r) = setSum w l r.
Proof. unfold setSum. by rewrite !add_sum_mark. Qed.
Lemma is_red_mark m t : is_null t = false -> is_red (mark m t) = m.
Proof. by destruct t. Qed.
Lemma reds_mark m t : is_null t = false ->
  (reds (mark m t) + Nat.b2n (is_red t) = reds t + Nat.b2n m)%nat.
Proof. destruct t; cbn; [done|]. lia. Qed.
Lemma to_list_resum t : to_list (resum t) = to_list t.
Proof. by destruct t. Qed.
Lemma resum_ok t : kids_ok t -> sums_ok (resum t).
Proof. by destruct t. Qed.
Lemma size_to_list t : size t = length (to_list t).
Proof. induction t; cbn; [done|]. rewrite length_app. cbn. lia. Qed.
Lemma reds_size t : (reds t <= size t)%nat.
Proof. induction t as [|m l IHl k w s r IHr]; cbn; [lia|]. destruct m; cbn; lia. Qed.

Lemma propogate_list path : forall n, to_list (propogateSumsUp n path) = to_list (plug path n).
Proof.
  induction path as [|f path IH]; intros n; cbn; [apply to_list_resum|].
  rewrite IH, !to_list_plug. unfold up. by destruct (f_left f); cbn; rewrite to_list_resum.
Qed.

Lemma propogate_sums path : forall n, kids_ok n -> others_ok path -> sums_ok (propogateSumsUp n path).
Proof.
  induction path as [|f path IH]; intros n Hn Hp; cbn; [by apply resum_ok|].
  inversion_clear Hp. apply IH; [|done]. apply resum_ok in Hn. unfold up. destruct (f_left f); cbn; by split.
Qed.

Lemma propogate_root path : forall n, is_red (propogateSumsUp n path) = root_red (is_red n) path.
Proof.
  assert (forall n, is_red (resum n) = is_red n) as Hr by (by intros []).
  induction path as [|f path IH]; intros n; cbn; [apply Hr|].
  rewrite IH. unfold up. by destruct (f_left f).
Qed.

Lemma Forall_fst (P : positive -> Prop) (l : list (positive * W)) :
  Forall P l.*1 <-> Forall (fun x => P x.1) l.
Proof. induction l as [|x l IH]; cbn; [by split; constructor|]. by rewrite !Forall_cons, IH. Qed.

(** Sorted lists around an item. *)
Lemma sorted_mid (a : list (positive * W)) k w b :
  sorted (a ++ (k, w) :: b) <->
  sorted (a ++ b) /\ Forall (fun x => (x.1 < k)%positive) a /\ Forall (fun x => (k < x.1)%positive) b.
Proof.
  unfold sorted. rewrite !fmap_app. cbn [fmap list_fmap fst].
  induction a as [|[x y] a IH]; cbn.
  - split.
    + intros Hs. inversion_clear Hs as [|? ? H1 H2]. split_and!; [done|constructor|]. by rewrite Forall_fst in H2.
    + intros (H1 & _ & H2). constructor; [done|]. by rewrite Forall_fst.
  - split.
    + intros Hs. inversion_clear Hs as [|? ? H1 H2]. apply IH in H1 as (H1 & H3 & H4).
      apply Forall_app in H2 as [H2 H5]. inversion_clear H5 as [|? ? Hxk H6].
      split_and!; [|by constructor|done]. constructor; [done|]. by apply Forall_app.
    + intros (Hs & Ha & Hb). inversion_clear Hs as [|? ? H1 H2]. inversion_clear Ha as [|? ? Hxk Ha'].
      apply Forall_app in H2 as [H2 H5]. constructor; [by apply IH|].
      apply Forall_app. split; [done|]. constructor; done.
Qed.

Lemma sorted_nodup (l : list (positive * W)) : sorted l -> NoDup l.*1.
Proof.
  unfold sorted. induction 1 as [|x l' Hs IH Hx]; constructor; [|done].
  intros Hin. rewrite Forall_forall in Hx. specialize (Hx x Hin). lia.
Qed.

Lemma not_below (l : list (positive * W)) k : Forall (fun x => (x.1 < k)%positive) l -> k ∉ l.*1.
Proof. intros Hl ([x y] & -> & Hx)%list_elem_of_fmap. rewrite Forall_forall in Hl. specialize (Hl _ Hx). cbn in Hl. lia. Qed.
Lemma not_above (l : list (positive * W)) k : Forall (fun x => (k < x.1)%positive) l -> k ∉ l.*1.
Proof. intros Hl ([x y] & -> & Hx)%list_elem_of_fmap. rewrite Forall_forall in Hl. specialize (Hl _ Hx). cbn in Hl. lia. Qed.

(** The map of a list with an item in the middle. *)
Lemma map_mid (a : list (positive * W)) k w b :
  k ∉ a.*1 -> (list_to_map (a ++ (k, w) :: b) : gmap positive W) = <[k := w]> (list_to_map (a ++ b)).
Proof.
  induction a as [|[x y] a IH]; [done|]. cbn. rewrite not_elem_of_cons. intros [Hne Ha].
  rewrite IH by done. by rewrite insert_insert_ne.
Qed.

Lemma lookup_list_none (l : list (positive * W)) k : k ∉ l.*1 -> (list_to_map l : gmap positive W) !! k = None.
Proof. apply not_elem_of_list_to_map_1. Qed.

(** The removal and the replacement of an item of a sorted list. *)
Lemma sorted_find (a : list (positive * W)) k w b :
  sorted (a ++ (k, w) :: b) ->
  (list_to_map (a ++ (k, w) :: b) : gmap positive W) !! k = Some w /\
  (list_to_map (a ++ b) : gmap positive W) = delete k (list_to_map (a ++ (k, w) :: b)).
Proof.
  intros (Hs & Ha & Hb)%sorted_mid. apply not_below in Ha. apply not_above in Hb.
  rewrite map_mid by done. split; [by rewrite lookup_insert_eq|].
  rewrite delete_insert_id; [done|]. apply lookup_list_none. rewrite fmap_app, elem_of_app. tauto.
Qed.

Lemma dom_contents t : dom (contents t) = list_to_set (to_list t).*1.
Proof. unfold contents. by rewrite dom_list_to_map_L. Qed.

End views.

(** ** The operations keep the invariant *)
Section correct.
Context {W : Type} `{Weight W}.
Implicit Types (n t l r : tree W) (f : frame W) (path : list (frame W)).

Lemma root_red_black m path : root_red m path = false -> root_red false path = false.
Proof. by destruct path. Qed.

(* equations of lists built from the same pieces in the same order *)
Ltac list_order := repeat (cbn; rewrite <- ?app_assoc, ?app_nil_r); try done.

(** A focus that moved up over some of its neighbours. *)
Definition moved (n : tree W) (path : list (frame W)) (n' : tree W) (path' : list (frame W)) : Prop :=
  exists a b, lefts path = lefts path' ++ a /\ rights path = b ++ rights path' /\
    to_list n' = a ++ to_list n ++ b.

Lemma moved_same n path n' : to_list n' = to_list n -> moved n path n' path.
Proof. intros E. exists [], []. by rewrite !app_nil_r. Qed.

(* what [split] needs of the focus, and keeps *)
Record focus_ok (n : tree W) (path : list (frame W)) : Prop := {
  focus_node : is_null n = false;
  focus_kids : kids_ok n;
  focus_others : others_ok path;
  focus_root : root_red (is_red n) path = false;
}.

Lemma kids_mark_children m n : kids_ok (mark_children m n) <-> kids_ok n.
Proof. destruct n; cbn; [done|]. by rewrite !sums_ok_mark. Qed.
Lemma to_list_mark_children m n : to_list (mark_children m n) = to_list n.
Proof. destruct n; cbn; [done|]. by rewrite !to_list_mark. Qed.

Lemma reds_mark_black t : (reds (mark false t) + Nat.b2n (is_red t) = reds t)%nat.
Proof. destruct t; cbn; lia. Qed.

Lemma reds_mark_children n : (reds (mark_children false n) <= reds n)%nat /\
  (leftIsBlack n = false -> rightIsBlack n = false -> reds (mark_children false n) + 2 = reds n)%nat.
Proof.
  destruct n as [|m l k w s r]; cbn; [unfold leftIsBlack; done|].
  pose proof (reds_mark_black l) as El. pose proof (reds_mark_black r) as Er.
  unfold leftIsBlack, rightIsBlack. cbn.
  destruct (is_red l), (is_red r); cbn in *; split; try done; try lia.
Qed.

(** [split] moves the focus up by at most two nodes, blackens its children and
    leaves fewer red nodes. *)
Lemma split_ok n path :
  focus_ok n path ->
  exists n' path', split n path = Ok (n', path') /\ moved n path n' path' /\ focus_ok n' path' /\
    (leftIsBlack n = false -> rightIsBlack n = false ->
     reds n' + reds_path path' < reds n + reds_path path)%nat.
Proof.
  intros [Hn Hk Ho Hr].
  pose proof (reds_mark_children n) as [Hle Hlt].
  assert (exists m a k w s b, mark_children false n = Node m a k w s b /\ m = is_red n) as
    (m & a & k & w & s & b & E & Em) by (destruct n; [done|]; by repeat eexists).
  pose proof (to_list_mark_children false n) as El.
  apply (kids_mark_children false) in Hk. rewrite E in Hk, El, Hle, Hlt. cbn in Hk, Hle, Hlt, El.
  unfold split. rewrite E. destruct path as [|p rest].
  { exists (Node m a k w s b), []. split_and!; [done|by apply moved_same| |intros H1 H2; specialize (Hlt H1 H2); cbn; lia].
    constructor; cbn; [done|done|constructor|]. cbn in Hr. congruence. }
  cbn [mark]. destruct (f_red p) eqn:Ep; cbn [negb].
  2: { exists (Node true a k w s b), (p :: rest).
    split_and!; [done|by apply moved_same| |].
    - constructor; [done|done|done|]. done.
    - intros H1 H2. specialize (Hlt H1 H2). cbn. lia. }
  inversion_clear Ho as [|? ? Hop Ho'].
  destruct rest as [|pp rest]; [cbn in Hr; congruence|].
  inversion_clear Ho' as [|? ? Hopp Hor]. cbn in Hr.
  destruct p as [dp mp kp wp sp op], pp as [dpp mpp kpp wpp spp opp].
  cbn in *. subst mp. destruct Hk as [Hka Hkb]. unfold moved.
  destruct dp, dpp; cbn; do 2 eexists; (split; [reflexivity|]); split_and!;
    try (constructor; cbn; [done|split_and?; done|repeat (constructor; cbn; [split_and?; done|]); done|by eapply root_red_black]); try (intros H1 H2; specialize (Hlt H1 H2); cbn; lia).
  - exists [], []. split_and!; list_order.
  - exists (to_list opp ++ [(kpp, wpp)]), ((kp, wp) :: to_list op). rewrite <- El. split_and!; list_order.
  - exists (to_list op ++ [(kp, wp)]), ((kpp, wpp) :: to_list opp). rewrite <- El. split_and!; list_order.
  - exists [], []. split_and!; list_order.
Qed.

(** ** insert *)

Definition around (item : positive) (path : list (frame W)) : Prop :=
  Forall (fun x => (x.1 < item)%positive) (lefts path) /\
  Forall (fun x => (item < x.1)%positive) (rights path).

Lemma around_not_in item path : around item path -> item ∉ (lefts path ++ rights path).*1.
Proof.
  intros [Hl Hr]. rewrite fmap_app, elem_of_app. intros [Hx|Hx].
  - by apply (not_below _ _ Hl).
  - by apply (not_above _ _ Hr).
Qed.

Lemma moved_plug n path n' path' :
  moved n path n' path' -> to_list (plug path' n') = to_list (plug path n).
Proof. intros (a & b & E1 & E2 & E3). rewrite !to_list_plug, E1, E2, E3. list_order. Qed.

Lemma moved_around item n path n' path' : moved n path n' path' -> around item path -> around item path'.
Proof.
  intros (a & b & E1 & E2 & _) [Hl Hr]. rewrite E1 in Hl. rewrite E2 in Hr.
  apply Forall_app in Hl as [Hl _]. apply Forall_app in Hr as [_ Hr]. done.
Qed.

(** Below a node, the search keeps smaller items on the left and larger ones
    on the right. *)
Lemma around_child item m l k w s r path :
  sorted (to_list (plug path (Node m l k w s r))) -> around item path -> item ≠ k ->
  if (item <? k)%positive then around item (Frame true m k w s r :: path)
  else around item (Frame false m k w s l :: path).
Proof.
  rewrite to_list_plug. cbn [to_list]. rewrite <- !app_assoc, app_assoc. cbn [app].
  intros (_ & Hl & Hr)%sorted_mid [H1 H2] Hne.
  apply Forall_app in Hl as [_ Hl]. apply Forall_app in Hr as [Hr _].
  destruct (Pos.ltb_spec item k) as [Hlt|Hge]; split; cbn; rewrite ?app_nil_r; try done.
  - constructor; [done|]. apply Forall_app. split; [|done].
    eapply Forall_impl; [exact Hr|]. cbn. intros x Hx. lia.
  - apply Forall_app. split; [done|]. apply Forall_app. split; [|repeat constructor; cbn; lia].
    eapply Forall_impl; [exact Hl|]. cbn. intros x Hx. lia.
Qed.

(* the state of the descent *)
Record descent (n : tree W) (path : list (frame W)) (item : positive) : Prop := {
  descent_kids : kids_ok n;
  descent_others : others_ok path;
  descent_root : root_red (is_red n) path = false;
  descent_sorted : sorted (to_list (plug path n));
  descent_around : around item path;
}.

Lemma descent_child m l k w s r path item :
  focus_ok (Node m l k w s r) path -> sorted (to_list (plug path (Node m l k w s r))) ->
  around item path -> item ≠ k ->
  if (item <? k)%positive then descent l (Frame true m k w s r :: path) item
  else descent r (Frame false m k w s l :: path) item.
Proof.
  intros [_ [Hl Hr] Ho Hred] Hs Ha Hne. pose proof (around_child item m l k w s r path Hs Ha Hne) as Hc.
  destruct (item <? k)%positive; constructor; try done.
  all: first [by apply sums_kids | by constructor].
Qed.

Lemma insert_descend_ok item N fuel : forall n path,
  descent n path item ->
  (length (to_list (plug path n)) <= N)%nat ->
  ((reds n + reds_path path) * S N + size n < fuel)%nat ->
  (item ∈ (to_list (plug path n)).*1 /\ insert_descend fuel item n path = AssertFail) \/
  (item ∉ (to_list (plug path n)).*1 /\
   exists path', insert_descend fuel item n path = Ok path' /\ descent Leaf path' item /\
     to_list (plug path' Leaf) = to_list (plug path n)).
Proof.
  induction fuel as [|fuel IH]; intros n path Hd HN Hf; [lia|]. cbn [insert_descend].
  destruct (is_null n) eqn:En.
  { right. destruct n; [|done]. split; [|by exists path]. rewrite to_list_plug. cbn.
    apply around_not_in, Hd. }
  destruct Hd as [Hk Ho Hr Hs Ha]. pose proof (Build_focus_ok _ _ En Hk Ho Hr) as Hfo.
  assert (exists n1 path1, (if negb (leftIsBlack n) && negb (rightIsBlack n) then split n path
      else Ok (n, path)) = Ok (n1, path1) /\ moved n path n1 path1 /\ focus_ok n1 path1 /\
      ((reds n1 + reds_path path1) * S N + size n1 <= fuel)%nat) as (n1 & path1 & -> & Hm & Hfo1 & Hf1).
  { destruct (leftIsBlack n) eqn:E1; [|destruct (rightIsBlack n) eqn:E2]; cbn [negb andb].
    1,2: exists n, path; split_and!; [done|by apply moved_same|done|lia].
    destruct (split_ok n path Hfo) as (n1 & path1 & E & Hm & Hfo1 & Hlt).
    exists n1, path1. split_and!; [done..|]. specialize (Hlt E1 E2).
    assert (size n1 <= N)%nat; [|nia]. rewrite size_to_list.
    apply moved_plug in Hm. rewrite <- Hm, to_list_plug, !length_app in HN. lia. }
  cbn [res_bind]. pose proof (moved_plug _ _ _ _ Hm) as Ep. rewrite <- Ep in *.
  apply (moved_around item) in Hm; [|done]. clear n path En Hk Ho Hr Ha Hfo Hf Ep.
  destruct n1 as [|m l k w s r]; [by destruct Hfo1|].
  destruct (Pos.eqb_spec k item) as [->|Hne].
  { left. split; [|done]. rewrite to_list_plug. cbn. rewrite !fmap_app. cbn. set_solver. }
  pose proof (descent_child m l k w s r path1 item Hfo1 Hs Hm (not_eq_sym Hne)) as Hc.
  cbn [reds size] in Hf1. destruct (item <? k)%positive.
  - apply (IH l (Frame true m k w s r :: path1) Hc HN). cbn [reds_path f_red f_other]. lia.
  - apply (IH r (Frame false m k w s l :: path1) Hc HN). cbn [reds_path f_red f_other]. lia.
Qed.

(** Inserting at the place the descent found. *)
Lemma insert_at_ok item weight path :
  descent Leaf path item ->
  exists t, (let2* n, path := match path with
               | [] => Ok (Node false Leaf item weight w_zero Leaf, [])
               | _ => split (Node false Leaf item weight w_zero Leaf) path end in
             Ok (propogateSumsUp n path)) = Ok t /\
    pdf_ok t /\ to_list t = lefts path ++ (item, weight) :: rights path.
Proof.
  intros [_ Ho Hr Hs Ha]. set (n := Node false Leaf item weight w_zero Leaf).
  assert (focus_ok n path) as Hfo by done.
  assert (exists n1 path1, match path with [] => Ok (n, []) | _ => split n path end = Ok (n1, path1) /\
      moved n path n1 path1 /\ focus_ok n1 path1) as (n1 & path1 & -> & Hm & Hfo1).
  { destruct path as [|f path]; [exists n, []; split_and!; [done|by apply moved_same|done]|].
    destruct (split_ok n (f :: path) Hfo) as (n1 & path1 & E & Hm & Hfo1 & _). by exists n1, path1. }
  cbn [res_bind]. exists (propogateSumsUp n1 path1). split; [done|].
  assert (to_list (propogateSumsUp n1 path1) = lefts path ++ (item, weight) :: rights path) as El.
  { by rewrite propogate_list, (moved_plug _ _ _ _ Hm), to_list_plug. }
  split; [|done]. destruct Hfo1 as [_ Hk1 Ho1 Hr1]. constructor.
  - rewrite El. apply sorted_mid. rewrite to_list_plug in Hs. by split.
  - by apply propogate_sums.
  - by rewrite propogate_root.
Qed.

Lemma pdf_descent item t : pdf_ok t -> descent t [] item.
Proof. intros [Hs Hsum Hr]. constructor; [by apply sums_kids|constructor|done|done|split; constructor]. Qed.

Lemma insert_cases item weight t :
  pdf_ok t ->
  (item ∈ (to_list t).*1 /\ pdf_insert item weight t = AssertFail) \/
  (item ∉ (to_list t).*1 /\ exists t', pdf_insert item weight t = Ok t' /\ pdf_ok t' /\
     contents t' = <[item := weight]> (contents t)).
Proof.
  intros Ht. destruct (insert_descend_ok item (size t) (insert_fuel t) t [] (pdf_descent item t Ht))
    as [[Hin E]|[Hnin (path & E & Hd & El)]].
  - cbn. by rewrite size_to_list.
  - unfold insert_fuel. pose proof (reds_size t). cbn [reds_path]. nia.
  - left. split; [done|]. unfold pdf_insert. by rewrite E.
  - right. split; [done|]. unfold pdf_insert. rewrite E. cbn [res_bind].
    destruct (insert_at_ok item weight path Hd) as (t' & -> & Hok & Hl).
    exists t'. split_and!; [done..|]. unfold contents. rewrite Hl, map_mid.
    + rewrite to_list_plug in El. cbn in El. by rewrite El.
    + apply not_below, Hd.
Qed.

(** ** lookup *)

(* the place of an item: its node, or the null link where it would be *)
Record place (item : positive) (t : tree W) (n : tree W) (path : list (frame W)) : Prop := {
  place_plug : plug path n = t;
  place_others : others_ok path;
  place_sums : sums_ok n;
  place_key : match n with Leaf => item ∉ (to_list t).*1 | Node _ _ k _ _ _ => k = item end;
}.

Lemma lookup_pos_ok item t : forall n path,
  plug path n = t -> others_ok path -> sums_ok n -> sorted (to_list t) -> around item path ->
  place item t (fst (lookup_pos item n path)) (snd (lookup_pos item n path)).
Proof.
  induction n as [|m l IHl k w s r IHr]; intros path Hp Ho Hn Hs Ha; cbn [lookup_pos].
  - constructor; [done..|]. cbn. rewrite <- Hp, to_list_plug. by apply around_not_in.
  - destruct (Pos.eqb_spec k item) as [->|Hne]; [by constructor|].
    rewrite <- Hp in Hs. pose proof (around_child item m l k w s r path Hs Ha (not_eq_sym Hne)) as Hc.
    rewrite Hp in Hs. destruct Hn as (_ & Hl & Hr).
    destruct (item <? k)%positive; [apply IHl|apply IHr]; try done; by constructor.
Qed.

Lemma lookup_pos_spec item t : pdf_ok t ->
  exists n path, lookup_pos item t [] = (n, path) /\ place item t n path.
Proof.
  intros [Hs Hsum _]. destruct (lookup_pos item t []) as [n path] eqn:E. exists n, path. split; [done|].
  pose proof (lookup_pos_ok item t t [] eq_refl) as Hp. rewrite E in Hp. apply Hp; [constructor|done..|].
  split; constructor.
Qed.

Lemma place_none item t path : place item t Leaf path -> contents t !! item = None.
Proof. intros [_ _ _ Hk]. by apply lookup_list_none. Qed.

Lemma place_some item t m l k w s r path :
  pdf_ok t -> place item t (Node m l k w s r) path ->
  k = item /\ contents t !! item = Some w /\
  to_list t = (lefts path ++ to_list l) ++ (item, w) :: (to_list r ++ rights path).
Proof.
  intros [Hs _ _] [Hp _ _ Hk]. cbn in Hk. subst k.
  assert (to_list t = (lefts path ++ to_list l) ++ (item, w) :: (to_list r ++ rights path)) as El.
  { rewrite <- Hp, to_list_plug. list_order. }
  split_and!; [done| |done]. unfold contents. rewrite El in *. by apply sorted_find.
Qed.

Lemma lookup_spec item t : pdf_ok t ->
  match contents t !! item with
  | Some w => exists m l s r path, lookup_pos item t [] = (Node m l item w s r, path) /\
                place item t (Node m l item w s r) path
  | None => exists path, lookup_pos item t [] = (Leaf, path)
  end.
Proof.
  intros Ht. destruct (lookup_pos_spec item t Ht) as (n & path & -> & Hp).
  destruct n as [|m l k w s r].
  - rewrite (place_none _ _ _ Hp). by exists path.
  - destruct (place_some _ _ _ _ _ _ _ _ _ Ht Hp) as (-> & -> & _). by exists m, l, s, r, path.
Qed.

(** ** update *)
Lemma update_ok item weight t :
  pdf_ok t -> is_Some (contents t !! item) ->
  exists t', pdf_update item weight t = Ok t' /\ pdf_ok t' /\ contents t' = <[item := weight]> (contents t).
Proof.
  intros Ht [w0 Hin]. pose proof (lookup_spec item t Ht) as Hl. rewrite Hin in Hl.
  destruct Hl as (m & l & s & r & path & E & Hp). unfold pdf_update. rewrite E. cbn.
  destruct (place_some _ _ _ _ _ _ _ _ _ Ht Hp) as (_ & _ & El).
  eexists. split; [done|]. set (t' := propogateSumsUp _ _).
  assert (to_list t' = (lefts path ++ to_list l) ++ (item, weight) :: (to_list r ++ rights path)) as El'.
  { unfold t'. rewrite propogate_list, to_list_plug. list_order. }
  destruct Ht as [Hs _ Hr], Hp as [Hpl Ho Hsum _]. rewrite El in Hs. apply sorted_mid in Hs as (Hs1 & Hs2 & Hs3).
  split; [constructor|].
  - rewrite El'. by apply sorted_mid.
  - apply propogate_sums; [|done]. apply Hsum.
  - unfold t'. rewrite propogate_root. by rewrite <- Hpl, is_red_plug in Hr.
  - unfold contents. rewrite El, El', !map_mid by (by apply not_below). by rewrite insert_insert_eq.
Qed.

(** ** lengthen *)

(* [lengthen] keeps the focus, up to its mark, and what is beside the path *)
Record lengthened (n : tree W) (path : list (frame W)) (n' : tree W) (path' : list (frame W)) : Prop := {
  len_node : n' = n \/ n' = mark false n;
  len_lefts : lefts path' = lefts path;
  len_rights : rights path' = rights path;
  len_others : others_ok path';
  len_root : root_red (is_red n') path' = false;
}.

Lemma len_trans n p1 p2 n' p' :
  lengthened n p1 n p2 -> lengthened n p2 n' p' -> lengthened n p1 n' p'.
Proof. intros [_ E1 E2 _ _] [H1 E3 E4 Ho Hr]. constructor; [done|congruence..|done|done]. Qed.

Lemma len_red_sibling_ok n p rest :
  others_ok (p :: rest) -> root_red (is_red n) (p :: rest) = false ->
  exists p' rest', lengthen_red_sibling n p rest = Ok (n, p' :: rest') /\
    lengthened n (p :: rest) n (p' :: rest') /\
    ((p' = p /\ rest' = rest /\ is_red (f_other p) = false) \/ f_red p' = true) /\ f_left p' = f_left p.
Proof.
  intros Ho Hr. unfold lengthen_red_sibling. inversion_clear Ho as [|? ? Hop Hor].
  destruct p as [d mp kp wp sp [|ms a ks ws ss b]]; cbn [f_other is_red].
  1: do 2 eexists; split_and!; [done| |by left|done]; by constructor; [left| | |constructor|].
  destruct ms.
  2: do 2 eexists; split_and!; [done| |by left|done]; by constructor; [left| | |constructor|].
  cbn in Hr, Hop. destruct Hop as (_ & Ha & Hb). apply root_red_black in Hr.
  unfold across. cbn [mark mark_frame f_left f_red f_key f_weight f_sum f_other rotate].
  destruct d; cbn; do 2 eexists; (split; [done|]); (split; [|by split; [right|]]);
    (constructor; cbn; [by left|list_order|list_order| |done]);
    repeat (constructor; cbn; [done|]); done.
Qed.

(* the double rotation first brings the sibling's near child above it *)
Lemma len_rotate_ok n p rest :
  others_ok (p :: rest) -> root_red (is_red n) (p :: rest) = false ->
  is_red (f_other p) = false \/ f_red p = true ->
  leftIsBlack (f_other p) && rightIsBlack (f_other p) = false ->
  exists path', lengthen_rotate n p rest = Ok (n, path') /\ lengthened n (p :: rest) n path'.
Proof.
  intros Ho Hr Hsib Hch. unfold lengthen_rotate. inversion_clear Ho as [|? ? Hop Hor].
  destruct p as [d mp kp wp sp [|ms a ks ws ss b]]; [done|].
  cbn in Hop, Hsib, Hch, Hr. destruct Hop as (_ & Ha & Hb).
  unfold leftIsBlack, rightIsBlack, childIsBlack in *. cbn in Hch.
  destruct a as [|ma a1 ka wa sa a2], b as [|mb b1 kb wb sb b2]; cbn in Hch; try done;
    destruct d; cbn; try (destruct ma); try (destruct mb); try done; cbn in Ha, Hb |- *;
    destruct mp; cbn; eexists; (split; [done|]);
    (constructor; cbn; [by left|list_order|list_order| |try done]);
    try (repeat (constructor; cbn; [split_and?; try done; tauto|]); done); by destruct Hsib as [->|].
Qed.

(* the way down from the parent after the parent was lengthened *)
Lemma len_up_ok n p rest pt rest' :
  sums_ok (f_other p) -> lengthened (up p n) rest pt rest' ->
  exists path', down [f_left p] pt rest' = Ok (n, path') /\ lengthened n (p :: rest) n path'.
Proof.
  intros Ho [Hpt E1 E2 Ho' Hr']. destruct p as [d mp kp wp sp o]. cbn in Ho |- *.
  unfold up in *. cbn in *. destruct Hpt as [-> | ->]; destruct d; cbn in *; eexists;
    (split; [done|constructor; cbn; [by left|by rewrite E1|by rewrite E2|by constructor|done]]).
Qed.

Lemma others_with_other t p rest :
  to_list t = to_list (f_other p) ->
  lefts (with_other t p :: rest) = lefts (p :: rest) /\ rights (with_other t p :: rest) = rights (p :: rest).
Proof. intros E. cbn. by rewrite E. Qed.

Lemma is_red_up n p : is_red (up p n) = f_red p.
Proof. unfold up. by destruct (f_left p). Qed.

Lemma lengthen_ok fuel : forall n path,
  others_ok path -> root_red (is_red n) path = false ->
  (is_red n = true /\ (1 <= fuel)%nat) \/ (length path + 2 <= fuel)%nat ->
  exists n' path', lengthen fuel n path = Ok (n', path') /\ lengthened n path n' path'.
Proof.
  induction fuel as [|fuel IH]; intros n path Ho Hr Hf; [lia|]. cbn [lengthen].
  destruct (is_red n) eqn:En.
  { exists (mark false n), path. split; [done|]. constructor; [by right|done..|].
    rewrite is_red_mark by (by destruct n). by eapply root_red_black. }
  destruct Hf as [[? _]|Hf]; [done|].
  destruct path as [|p rest].
  { exists n, []. split; [done|]. constructor; [by left|done|done|constructor|]. by rewrite En. }
  destruct (len_red_sibling_ok n p rest) as (p' & rest' & -> & Hl1 & Hp' & _); [done|by rewrite En|].
  cbn [res_bind]. pose proof Hl1 as [_ _ _ Ho' Hr']. rewrite En in Hr'. cbn in Hr'.
  inversion Ho' as [|? ? Hop Hor]; subst.
  assert (Hfuel : (f_red p' = true /\ (1 <= fuel)%nat) \/ (length rest' + 2 <= fuel)%nat).
  { destruct Hp' as [(-> & -> & _)|E]; [right; cbn in Hf; lia|left; split; [done|lia]]. }
  destruct (is_null (f_other p')) eqn:Enull.
  { destruct (IH (up p' n) rest') as (pt & rest'' & -> & Hl2); [done| |by rewrite is_red_up|].
    { by rewrite is_red_up. }
    cbn [res_bind]. destruct (len_up_ok n p' rest' pt rest'' Hop Hl2) as (path' & -> & Hl3).
    exists n, path'. split; [done|]. by eapply len_trans. }
  destruct (leftIsBlack (f_other p') && rightIsBlack (f_other p')) eqn:Ech.
  - set (p2 := with_other (mark true (f_other p')) p').
    assert (sums_ok (f_other p2)) as Ho2 by (by apply sums_ok_mark).
    destruct (others_with_other (mark true (f_other p')) p' rest') as [El2 Er2]; [apply to_list_mark|].
    assert (lengthened n (p' :: rest') n (p2 :: rest')) as Hl2.
    { constructor; [by left|done|done|by constructor|done]. }
    destruct (f_red p') eqn:Ep'; cbn [negb].
    + exists n, (mark_frame false p2 :: rest'). split; [done|].
      eapply len_trans; [exact Hl1|]. eapply len_trans; [exact Hl2|].
      constructor; [by left|done|done|by constructor|]. by eapply root_red_black.
    + destruct (IH (up p2 n) rest') as (pt & rest'' & -> & Hl3); [done| |rewrite is_red_up; cbn; by rewrite Ep'|].
      { rewrite is_red_up. cbn. by rewrite Ep'. }
      cbn [res_bind]. change (f_left p') with (f_left p2).
      destruct (len_up_ok n p2 rest' pt rest'' Ho2 Hl3) as (path' & -> & Hl4).
      exists n, path'. split; [done|]. eapply len_trans; [exact Hl1|]. by eapply len_trans.
  - destruct (len_rotate_ok n p' rest') as (path' & E & Hl2); try done.
    { destruct Hp' as [(-> & -> & ?)|?]; [by left|by right]. }
    exists n, path'. split; [done|]. by eapply len_trans.
Qed.

(** ** remove *)
Lemma left_max_ok : forall n path,
  is_null n = false -> sums_ok n -> others_ok path ->
  exists m a k w s path', left_max n path = (Node m a k w s Leaf, path') /\ sums_ok a /\ others_ok path' /\
    lefts path' ++ to_list a ++ [(k, w)] = lefts path ++ to_list n /\ rights path' = rights path.
Proof.
  induction n as [|m l IHl k w s r IHr]; intros path Hn Hs Ho; [done|]. cbn [left_max].
  destruct Hs as (_ & Hl & Hr). destruct (is_null r) eqn:Er.
  - destruct r; [|done]. by exists m, l, k, w, s, path.
  - destruct (IHr (Frame false m k w s l :: path)) as (m' & a & k' & w' & s' & path' & E & Ha & Ho' & E1 & E2);
      [done|done|by constructor|].
    exists m', a, k', w', s', path'. split_and!; [done..| |done]. rewrite E1. list_order.
Qed.

Lemma propogate_parent_list c path : to_list (propogateSumsUp_parent c path) = to_list (plug path c).
Proof. destruct path; cbn; [done|]. by rewrite propogate_list. Qed.

Lemma propogate_parent_sums c path : sums_ok c -> others_ok path -> sums_ok (propogateSumsUp_parent c path).
Proof.
  destruct path as [|f path]; cbn; [done|]. intros Hc Ho. inversion_clear Ho.
  apply propogate_sums; [|done]. unfold up. by destruct (f_left f).
Qed.

Lemma propogate_parent_root c path : is_red (propogateSumsUp_parent c path) = root_red (is_red c) path.
Proof. destruct path as [|f path]; cbn; [done|]. by rewrite propogate_root, is_red_up. Qed.

(* unlinking a node with mark [m] and only child [c] *)
Lemma unlink_ok (m : bool) c path :
  others_ok path -> sums_ok c -> root_red m path = false -> sorted (lefts path ++ to_list c ++ rights path) ->
  exists t, (let2* c, path := if negb (is_null c) && negb m then lengthen (length path + 2) c path
                       else Ok (c, path) in Ok (propogateSumsUp_parent c path)) = Ok t /\
    pdf_ok t /\ to_list t = lefts path ++ to_list c ++ rights path.
Proof.
  intros Ho Hc Hr Hs.
  assert (exists c' path', (if negb (is_null c) && negb m then lengthen (length path + 2) c path
      else Ok (c, path)) = Ok (c', path') /\ (c' = c \/ c' = mark false c) /\ others_ok path' /\
      root_red (is_red c') path' = false /\ lefts path' = lefts path /\ rights path' = rights path)
    as (c' & path' & -> & Hc' & Ho' & Hr' & E1 & E2).
  { destruct (negb (is_null c) && negb m) eqn:E.
    - apply andb_true_iff in E as [En Em]. destruct m; [done|].
      destruct path as [|f path].
      + cbn. destruct (is_red c) eqn:Ec.
        * do 2 eexists. split_and!; [done|by right|constructor|..]; try done. by destruct c.
        * do 2 eexists. split_and!; [done|by left|constructor|..]; done.
      + destruct (lengthen_ok (length (f :: path) + 2) c (f :: path)) as (c' & path' & E & [H1 H2 H3 H4 H5]);
          [done|done|by right|].
        exists c', path'. by split_and!.
    - exists c, path. split_and!; [done|by left|done| |done|done]. destruct path as [|f path]; [|done].
      cbn in Hr |- *. subst m. destruct c; [done|]. cbn in E. done. }
  cbn [res_bind]. eexists. split; [done|].
  assert (to_list c' = to_list c) as Ec by (destruct Hc' as [-> | ->]; rewrite ?to_list_mark; done).
  assert (to_list (propogateSumsUp_parent c' path') = lefts path ++ to_list c ++ rights path) as El.
  { by rewrite propogate_parent_list, to_list_plug, E1, E2, Ec. }
  split; [|done]. constructor.
  - by rewrite El.
  - apply propogate_parent_sums; [|done]. destruct Hc' as [-> | ->]; [done|by apply sums_ok_mark].
  - by rewrite propogate_parent_root.
Qed.

Lemma pdf_remove_ok item t :
  pdf_ok t -> is_Some (contents t !! item) ->
  exists t', pdf_remove item t = Ok t' /\ pdf_ok t' /\ contents t' = delete item (contents t).
Proof.
  intros Ht [w0 Hin]. pose proof (lookup_spec item t Ht) as Hl. rewrite Hin in Hl.
  destruct Hl as (m & l & s & r & path & E & Hp). unfold pdf_remove. rewrite E.
  destruct (place_some _ _ _ _ _ _ _ _ _ Ht Hp) as (_ & _ & El).
  destruct Ht as [Hs _ Hroot], Hp as [Hpl Ho (_ & Hl & Hr) _].
  assert (root_red m path = false) as Hm by (by rewrite <- Hpl, is_red_plug in Hroot).
  rewrite El in Hs. destruct (sorted_find _ _ _ _ Hs) as [_ Hdel]. apply sorted_mid in Hs as (Hs & _ & _).
  unfold contents at 2. rewrite El, <- Hdel.
  destruct l as [|ml ll kl wl sl rl] eqn:Edl.
  - cbn [child is_null is_red].
    destruct (unlink_ok m r path) as (t' & E' & Hok & El'); [done..| |].
    { cbn in Hs. by rewrite app_nil_r in Hs. }
    rewrite E'. exists t'. split; [reflexivity|]. split; [exact Hok|]. unfold contents. rewrite El'. cbn. by rewrite app_nil_r.
  - rewrite <- Edl in *. destruct (left_max_ok l []) as (m' & a & k' & w' & s' & mp & E' & Ha & Ho' & E1 & E2);
      [by rewrite Edl|done|constructor|]. rewrite E'. cbn [child is_null is_red].
    set (path' := mp ++ Frame true m k' w' s r :: path).
    assert (lefts path' ++ to_list a ++ rights path' = (lefts path ++ to_list l) ++ to_list r ++ rights path) as Ew.
    { unfold path'. rewrite lefts_app, rights_app. cbn in E1, E2 |- *. rewrite E2, <- E1. list_order. }
    assert ((if is_null a then Leaf else a) = a) as -> by (by destruct a).
    destruct (unlink_ok m' a path') as (t' & E3 & Hok & El'); [|done| | |].
    + apply Forall_app. split; [done|]. by constructor.
    + unfold path'. rewrite root_red_app. cbn. done.
    + by rewrite Ew.
    + rewrite E3. exists t'. split; [reflexivity|]. split; [exact Hok|]. unfold contents. by rewrite El', Ew.
Qed.

(** ** choose *)
Lemma choose_loop_some t : forall w, is_null t = false ->
  exists k, choose_loop w t = Some k /\ k ∈ (to_list t).*1.
Proof.
  induction t as [|m l IHl k weight s r IHr]; intros w Hn; [done|]. cbn [to_list]. rewrite fmap_app. cbn.
  assert (forall w, exists k0, (if w_lt w weight || is_null r then Some k else choose_loop (w_sub w weight) r) = Some k0
    /\ k0 ∈ (to_list l).*1 ++ k :: (to_list r).*1) as Hhere.
  { intros w1. destruct (w_lt w1 weight || is_null r) eqn:E.
    - exists k. split; [done|]. set_solver.
    - apply orb_false_iff in E as [_ E]. destruct (IHr (w_sub w1 weight) E) as (k0 & -> & Hk0).
      exists k0. split; [done|]. set_solver. }
  destruct l as [|ml ll kl wl sl rl]; [apply Hhere|].
  destruct (w_lt w sl); [|apply Hhere]. destruct (IHl w eq_refl) as (k0 & -> & Hk0).
  exists k0. split; [done|]. apply elem_of_app. left. exact Hk0.
Qed.

Lemma contents_in k t : k ∈ (to_list t).*1 <-> is_Some (contents t !! k).
Proof. rewrite <- elem_of_dom, dom_contents. set_solver. Qed.

Lemma choose_ok p t :
  dlt p d_zero = false -> dge p (of_Z 1) = false -> contents t ≠ ∅ ->
  exists k, choose p t = Ok k /\ is_Some (contents t !! k).
Proof.
  intros H0 H1 Hne. unfold choose. rewrite H0, H1. cbn [orb].
  destruct t as [|m l k w s r] eqn:Et; [done|]. rewrite <- Et in *.
  destruct (choose_loop_some t (w_scale s p)) as (k0 & E & Hk0); [by rewrite Et|]. rewrite E.
  exists k0. split; [done|]. by apply contents_in.
Qed.

Lemma empty_contents t : pdf_empty t = true <-> contents t = ∅.
Proof.
  destruct t as [|m l k w s r] eqn:Et; [done|]. split; [done|]. intros E. rewrite <- Et in E.
  assert (k ∈ (to_list t).*1) as [x Hk]%contents_in.
  { rewrite Et. cbn. rewrite fmap_app. apply elem_of_app. right. by left. }
  rewrite E in Hk. by rewrite lookup_empty in Hk.
Qed.

Lemma pdf_ok_leaf : pdf_ok (Leaf : tree W).
Proof. constructor; [constructor|done|done]. Qed.

(** C15. [DiscretePDF] implements a finite map from items to weights.  On a
    tree that is sorted, has the right sums and a black root (as the empty
    tree): [insert] of a new item and [update] and [remove] of a present item
    return a tree with the same three properties whose contents are those of
    the map after the operation, whatever rotations they made; [insert] of a
    present item and [update], [remove] and [getWeight] of an absent one fail
    their assertion; [inTree], [getWeight] and [empty] are the queries of the
    map.  No loop runs out of fuel and no null pointer is followed. *)
Theorem pdf_refines_map (t : tree W) (item : positive) (weight : W) :
  pdf_ok t ->
  match contents t !! item with
  | None =>
      (exists t', pdf_insert item weight t = Ok t' /\ pdf_ok t' /\
         contents t' = <[item := weight]> (contents t)) /\
      pdf_update item weight t = AssertFail /\ pdf_remove item t = AssertFail /\
      pdf_getWeight item t = AssertFail /\ inTree item t = false
  | Some w =>
      pdf_insert item weight t = AssertFail /\
      (exists t', pdf_update item weight t = Ok t' /\ pdf_ok t' /\
         contents t' = <[item := weight]> (contents t)) /\
      (exists t', pdf_remove item t = Ok t' /\ pdf_ok t' /\ contents t' = delete item (contents t)) /\
      pdf_getWeight item t = Ok w /\ inTree item t = true
  end /\
  (pdf_empty t = true <-> contents t = ∅).
Proof.
  intros Ht. split; [|apply empty_contents].
  pose proof (lookup_spec item t Ht) as Hl.
  pose proof (update_ok item weight t Ht) as Hu. pose proof (pdf_remove_ok item t Ht) as Hrm.
  destruct (insert_cases item weight t Ht) as [[Hin Ei]|[Hin Ei]]; rewrite contents_in in Hin;
    destruct (contents t !! item) as [w|]; try (by destruct Hin); try (by destruct (Hin ltac:(done))).
  - destruct Hl as (m & l & s & r & path & E & _). unfold pdf_getWeight, inTree. rewrite E.
    split_and!; [done|apply Hu; done|apply Hrm; done|done|done].
  - destruct Hl as (path & E). unfold pdf_getWeight, inTree, pdf_update, pdf_remove. rewrite E.
    by split_and!.
Qed.

End correct.

(** ** The distribution

    With weights computed exactly, here integers, [choose] picks the item whose
    interval holds the drawn value: the intervals lie side by side in the order
    of the items and are as long as the weights. *)
#[export] Instance integer_weight : Weight Z := {|
  w_zero := 0; w_add := Z.add; w_sub := Z.sub; w_lt := Z.ltb;
  w_scale w p := to_uint64 (dmul (of_Z w) p);
|}.

Section exact.
Implicit Types (t l r : tree Z) (a b : list (positive * Z)).

Fixpoint total (a : list (positive * Z)) : Z :=
  match a with [] => 0 | x :: a' => x.2 + total a' end.

(* the linear scan *)
Fixpoint pick (w : Z) (a : list (positive * Z)) : option positive :=
  match a with
  | [] => None
  | (k, x) :: a' => if w <? x then Some k else pick (w - x) a'
  end.

Lemma total_app a b : total (a ++ b) = total a + total b.
Proof. induction a as [|x a IH]; cbn; [done|]. rewrite IH. lia. Qed.

Lemma total_nonneg a : Forall (fun x => 0 <= x.2) a -> 0 <= total a.
Proof. induction 1; cbn; lia. Qed.

Lemma pick_app a b w : Forall (fun x => 0 <= x.2) a -> 0 <= w ->
  pick w (a ++ b) = if w <? total a then pick w a else pick (w - total a) b.
Proof.
  intros Ha. revert w. induction Ha as [|[k x] a Hx Ha IH]; intros w Hw; cbn in *.
  - destruct (Z.ltb_spec w 0); [lia|]. by rewrite Z.sub_0_r.
  - pose proof (total_nonneg a Ha). destruct (Z.ltb_spec w x).
    + destruct (Z.ltb_spec w (x + total a)); [done|lia].
    + rewrite IH by lia. destruct (Z.ltb_spec (w - x) (total a)), (Z.ltb_spec w (x + total a)); try lia; [done|].
      f_equal. lia.
Qed.

Lemma sum_total t : sums_ok t -> add_sum 0 t = total (to_list t).
Proof.
  induction t as [|m l IHl k w s r IHr]; [done|]. cbn [sums_ok to_list add_sum]. intros (-> & Hl & Hr).
  rewrite total_app. change (total ((k, w) :: to_list r)) with (w + total (to_list r)).
  rewrite <- (IHl Hl), <- (IHr Hr). unfold setSum. destruct l, r; cbn; lia.
Qed.

Lemma choose_pick t : forall w, sums_ok t -> Forall (fun x => 0 <= x.2) (to_list t) ->
  0 <= w < total (to_list t) -> choose_loop w t = pick w (to_list t).
Proof.
  induction t as [|m l IHl k x s r IHr]; intros w Hs Hpos Hw; [done|].
  destruct Hs as (_ & Hl & Hr). cbn [to_list] in *. apply Forall_app in Hpos as [Hpl Hpr].
  inversion_clear Hpr as [|? ? Hx Hpr']. rewrite total_app in Hw. cbn in Hw.
  rewrite pick_app by (done || lia). cbn [pick choose_loop].
  assert (forall w, 0 <= w < x + total (to_list r) ->
    (if w_lt w x || is_null r then Some k else choose_loop (w_sub w x) r) =
    (if w <? x then Some k else pick (w - x) (to_list r))) as Hhere.
  { intros w1 Hw1. cbn. destruct (Z.ltb_spec w1 x); [done|]. cbn [orb].
    destruct (is_null r) eqn:Er; [destruct r; cbn in *; [lia|done]|]. apply IHr; [done|done|lia]. }
  pose proof (sum_total l Hl) as El. pose proof (total_nonneg _ Hpl).
  destruct l as [|ml ll kl wl sl rl] eqn:Edl.
  - change (total (to_list Leaf)) with 0 in *. destruct (Z.ltb_spec w 0); [lia|]. rewrite Z.sub_0_r.
    apply Hhere. lia.
  - rewrite <- Edl in *. cbn in El. change (w_lt w sl) with (w <? sl).
    assert (sl = total (to_list l)) as -> by (rewrite <- El, Edl; cbn; lia).
    destruct (Z.ltb_spec w (total (to_list l))); [apply IHl; [done..|lia]|].
    apply Hhere. lia.
Qed.

(** When the weights are non-negative and added without rounding (the
    integers), the loop of [choose] picks an item with a chance equal to its
    share of the total weight: the item before which the weights add up to at
    most [w] and with which they exceed [w], of the items in order.  In
    particular an item of weight zero is not picked. *)
Theorem choose_interval (t : tree Z) (w : Z) a k x b :
  pdf_ok t -> Forall (fun y => 0 <= y.2) (to_list t) -> to_list t = a ++ (k, x) :: b ->
  total a <= w < total a + x -> choose_loop w t = Some k.
Proof.
  intros [_ Hs _] Hpos El Hw. assert (0 <= total a /\ 0 <= total b) as [Ha Hb].
  { rewrite El in Hpos. apply Forall_app in Hpos as [Ha Hb]. inversion_clear Hb.
    split; by apply total_nonneg. }
  rewrite choose_pick; [|done|done|rewrite El, total_app; cbn; lia].
  rewrite El in *. apply Forall_app in Hpos as [Hpa _]. rewrite pick_app by (done || lia).
  destruct (Z.ltb_spec w (total a)); [lia|]. cbn. destruct (Z.ltb_spec (w - total a) x); [done|lia].
Qed.

End exact.

(** ** Examples *)

(* a tree with rotations in both directions *)
Definition sample_inserts {W} `{Weight W} (f : Z -> W) : res (tree W) :=
  foldl (fun t k => let* t := t in pdf_insert k (f (Z.pos k)) t) (Ok Leaf) [5; 2; 8; 6; 7; 1; 4; 3]%positive.

Definition sample_tree : tree Z :=
  match sample_inserts (fun z => z) with Ok t => t | _ => Leaf end.

Example sample_tree_list : to_list sample_tree = [(1%positive, 1); (2%positive, 2); (3%positive, 3); (4%positive, 4); (5%positive, 5); (6%positive, 6); (7%positive, 7); (8%positive, 8)].
Proof. vm_compute. reflexivity. Qed.

Lemma sample_tree_ok : pdf_ok sample_tree.
Proof.
  constructor; [|by vm_compute|by vm_compute].
  unfold sorted. replace (to_list sample_tree).*1 with [1; 2; 3; 4; 5; 6; 7; 8]%positive by (by vm_compute).
  repeat constructor.
Qed.

Lemma pdf_refines_map_witness :
  (exists t', pdf_remove 5 sample_tree = Ok t' /\ pdf_ok t' /\
     contents t' = delete 5%positive (contents sample_tree)).
Proof.
  destruct (pdf_refines_map sample_tree 5 0 sample_tree_ok) as [Hm _].
  replace (contents sample_tree !! 5%positive) with (Some 5) in Hm by (by vm_compute).
  apply Hm.
Defined.

Lemma choose_interval_witness : choose_loop 20 sample_tree = Some 6%positive.
Proof.
  apply (choose_interval sample_tree 20 [(1%positive, 1); (2%positive, 2); (3%positive, 3); (4%positive, 4); (5%positive, 5)] 6 6
    [(7%positive, 7); (8%positive, 8)]).
  - apply sample_tree_ok.
  - rewrite sample_tree_list. repeat constructor; cbn; lia.
  - apply sample_tree_list.
  - cbn. lia.
Defined.

(** ** Balance

    [remove] rebalances, with [lengthen], only below a black node that has a
    child; in a red-black tree that child is red and just becomes black.  The
    removal of a black leaf leaves its side one black node short. *)
Fixpoint black_height {W} (t : tree W) : option nat :=
  match t with
  | Leaf => Some 0%nat
  | Node m l _ _ _ r =>
      match black_height l, black_height r with
      | Some a, Some b => if Nat.eqb a b then Some (if m then a else S a) else None
      | _, _ => None
      end
  end.

Example removal_unbalances :
  black_height sample_tree = Some 2%nat /\
  (let* t := pdf_remove 1 sample_tree in Ok (black_height t)) = Ok None.
Proof. vm_compute. done. Qed.
