(* ===== verification/SearcherSpec.v ===== *)
(** The interface of klee/lib/Core/Searcher.h: what a searcher may look at and
    change ([World]), the virtual functions of [class Searcher] as a typeclass,
    and the contract every implementation must satisfy ([SearcherLaws]).

    - An [ExecutionState *] is its address, a [positive].
    - [selectState] and [update] run in a [World]: the global generator
      [theRNG], the wall clock (successive readings of a function of time), the
      instruction counter, and the fields of execution states and the printed
      constraints that searchers read.  They return the changed world.
    - The abstract state of a searcher is the set of states it manages
      ([live]) and the part of it that it may currently select ([active]):
      they differ only for a searcher that pauses states. *)
From Stdlib Require Import ZArith Lia Bool String.
From stdpp Require Import base list numbers option gmap sets sorting.
From S2P Require Import Prelude Rng.
Open Scope Z_scope.

(** ** The world *)

(* the statistics the searchers read, of klee/lib/Core/CoreStats.cpp *)
Inductive Statistic : Type := stat_instructions | stat_minDistToUncovered | stat_minDistToReturn.

(** What [WeightedRandomSearcher::getWeight] reads of an execution state. *)
Record StateMeasures : Type := {
  depth : Z;                     (* es->depth, unsigned *)
  instsSinceCovNew : Z;          (* es->instsSinceCovNew, unsigned *)
  queryCost : Z;                 (* es->queryCost, in nanoseconds *)
  pc_id : Z;                     (* es->pc->info->id *)
  callPath_instructions : Z;     (* es->stack.back().callPathNode->statistics.getValue(instructions) *)
  minDistToUncoveredOnReturn : Z; (* es->stack.back().minDistToUncoveredOnReturn *)
}.

Record World : Type := {
  theRNG : RNG;
  clock : nat -> Z;              (* the readings of getWallTime, in nanoseconds *)
  ticks : nat;                   (* how many have been taken *)
  instructions : Z;              (* stats::instructions *)
  stack_size : positive -> Z;    (* es->stack.size() *)
  constraints_text : positive -> string; (* ExprPPrinter::printConstraints of es->constraints *)
  updated : gset positive;       (* the states with es->updated *)
  measures : positive -> StateMeasures;
  getIndexedValue : Statistic -> Z -> Z; (* theStatisticManager->getIndexedValue *)
}.

Definition set_rng (r : RNG) (w : World) : World :=
  {| theRNG := r; clock := clock w; ticks := ticks w; instructions := instructions w;
     stack_size := stack_size w; constraints_text := constraints_text w; updated := updated w;
     measures := measures w; getIndexedValue := getIndexedValue w |}.
Definition set_ticks (n : nat) (w : World) : World :=
  {| theRNG := theRNG w; clock := clock w; ticks := n; instructions := instructions w;
     stack_size := stack_size w; constraints_text := constraints_text w; updated := updated w;
     measures := measures w; getIndexedValue := getIndexedValue w |}.
Definition set_updated (u : gset positive) (w : World) : World :=
  {| theRNG := theRNG w; clock := clock w; ticks := ticks w; instructions := instructions w;
     stack_size := stack_size w; constraints_text := constraints_text w; updated := u;
     measures := measures w; getIndexedValue := getIndexedValue w |}.

(* time::getWallTime() *)
Definition getWallTime (w : World) : Z * World := (clock w (ticks w), set_ticks (S (ticks w)) w).

(* theRNG.getInt32() *)
Definition draw (w : World) : res (Z * World) :=
  let* p := getInt32 (theRNG w) in Ok (fst p, set_rng (snd p) w).

Notation "'let2*' x , y ':=' m 'in' k" := (res_bind m (fun '(x, y) => k))
  (at level 10, x name, y name, m at level 100, k at level 200) : klee_scope.
Notation "'let3*' x , y , z ':=' m 'in' k" := (res_bind m (fun '(x, y, z) => k))
  (at level 10, x name, y name, z name, m at level 100, k at level 200) : klee_scope.

(** ** The virtual functions *)
Class Searcher (S : Type) : Type := {
  selectState : World -> S -> res (positive * S * World);
  update : World -> S -> option positive -> list positive -> list positive -> res (S * World);
  empty : S -> bool;
}.

#[export] Hint Mode Searcher ! : typeclass_instances.

Section utilities.
Context {S : Type} `{Searcher S}.

Definition addState (w : World) (s : S) (es : positive) (current : option positive) : res (S * World) :=
  update w s current [es] [].

Definition removeState (w : World) (s : S) (es : positive) (current : option positive) : res (S * World) :=
  update w s current [] [es].

End utilities.

(** ** The contract *)

(** What a searcher may change of the world: the generator, the clock, the
    [updated] flags. *)
Record world_le (w w' : World) : Prop := {
  le_clock : clock w' = clock w;
  le_instructions : instructions w' = instructions w;
  le_stack_size : stack_size w' = stack_size w;
  le_text : constraints_text w' = constraints_text w;
  le_measures : measures w' = measures w;
  le_indexed : getIndexedValue w' = getIndexedValue w;
  le_rng : valid (theRNG w) -> valid (theRNG w');
}.

#[export] Instance world_le_preorder : PreOrder world_le.
Proof.
  split; [by constructor|]. intros w1 w2 w3 [] []. constructor; try congruence; auto.
Qed.

(** The calls of [update] the executor may make: new states are new, removed
    states are managed, the current state is one that can be selected. *)
Record update_pre (live active : gset positive) (current : option positive)
    (added removed : list positive) : Prop := {
  pre_added : NoDup added;
  pre_removed : NoDup removed;
  pre_fresh : forall x, x ∈ added -> x ∉ live;
  pre_managed : forall x, x ∈ removed -> x ∈ live \/ x ∈ added;
  pre_current : forall c, current = Some c -> c ∈ active;
}.

(** The set of managed states after an update. *)
Definition after (live : gset positive) (added removed : list positive) : gset positive :=
  (live ∪ list_to_set added) ∖ list_to_set removed.

Class SearcherLaws (S : Type) `{Searcher S} : Type := {
  inv : S -> Prop;
  live : S -> gset positive;
  active : S -> gset positive;
  (* what the searcher needs of the world, beyond a valid generator *)
  ready : World -> S -> Prop;
  active_live s : inv s -> active s ⊆ live s;
  progress s : inv s -> live s ≠ ∅ -> active s ≠ ∅;
  empty_spec s : inv s -> empty s = true <-> live s = ∅;
  ready_mono w w' s : world_le w w' -> ready w s -> ready w' s;
  select_spec w s : inv s -> valid (theRNG w) -> ready w s -> live s ≠ ∅ ->
    exists x s' w', selectState w s = Ok (x, s', w') /\ x ∈ active s /\
      inv s' /\ live s' = live s /\ active s' = active s /\ world_le w w' /\ ready w' s';
  update_spec w s current added removed : inv s -> valid (theRNG w) -> ready w s ->
    update_pre (live s) (active s) current added removed ->
    exists s' w', update w s current added removed = Ok (s', w') /\
      inv s' /\ live s' = after (live s) added removed /\ world_le w w' /\ ready w' s';
}.

#[export] Hint Mode SearcherLaws ! - : typeclass_instances.

(** A searcher that never pauses a state. *)
Class NoPausing (S : Type) `{SearcherLaws S} : Prop :=
  no_pausing (s : S) : inv s -> active s = live s.

(** ** Lists of states *)

(* the searches of the update functions: erases the first occurrence *)
Fixpoint erase_first (es : positive) (states : list positive) : option (list positive) :=
  match states with
  | [] => None
  | x :: states' =>
      if decide (es = x) then Some states'
      else match erase_first es states' with Some l => Some (x :: l) | None => None end
  end.

(* assert(ok && "invalid state removed") *)
Definition erase_or_fail (es : positive) (states : list positive) : res (list positive) :=
  match erase_first es states with Some l => Ok l | None => AssertFail end.

(** A loop that removes states one by one. *)
Fixpoint remove_each {T} (remove : positive -> T -> res T) (removed : list positive) (s : T) : res T :=
  match removed with
  | [] => Ok s
  | es :: removed' => let* s := remove es s in remove_each remove removed' s
  end.

(** ** Lemmas *)

Lemma draw_ok w : valid (theRNG w) -> exists y w', draw w = Ok (y, w') /\ 0 <= y < 2 ^ 32 /\
  world_le w w'.
Proof.
  intros Hv. unfold draw. destruct (getInt32_ok (theRNG w) Hv) as (y & r & -> & Hy & Hr).
  cbn [res_bind fst snd]. do 2 eexists. split; [done|]. by split.
Qed.

Lemma wall_time_le w : world_le w (snd (getWallTime w)).
Proof. by constructor. Qed.

Lemma world_le_valid w w' : world_le w w' -> valid (theRNG w) -> valid (theRNG w').
Proof. by intros []. Qed.

Create HintDb searcher.
#[export] Hint Resolve world_le_valid wall_time_le ready_mono : searcher.

Lemma erase_first_ok es l :
  NoDup l -> es ∈ l ->
  exists l', erase_first es l = Some l' /\ NoDup l' /\ (forall x, x ∈ l' <-> x ∈ l /\ x <> es).
Proof.
  induction 1 as [|x l Hx Hl IH]; [set_solver|]. intros Hes. cbn [erase_first].
  destruct (decide (es = x)) as [->|Hne].
  - exists l. split_and!; [done|done|]. set_solver.
  - destruct IH as (l' & -> & Hl' & Hin); [set_solver|]. exists (x :: l'). split_and!; [done| |].
    + constructor; [|done]. rewrite Hin. set_solver.
    + intros y. rewrite !elem_of_cons, Hin. set_solver.
Qed.

Lemma erase_or_fail_ok es l :
  NoDup l -> es ∈ l ->
  exists l', erase_or_fail es l = Ok l' /\ NoDup l' /\ (forall x, x ∈ l' <-> x ∈ l /\ x <> es).
Proof.
  intros Hl Hes. unfold erase_or_fail. destruct (erase_first_ok es l Hl Hes) as (l' & -> & ?). eauto.
Qed.

(** A removal loop whose step removes one managed state removes them all. *)
Lemma remove_each_ok {T} (remove : positive -> T -> res T) (P : T -> Prop) (states : T -> list positive)
    removed : forall s,
  (forall es s, P s -> es ∈ states s -> exists s', remove es s = Ok s' /\ P s' /\
     forall x, x ∈ states s' <-> x ∈ states s /\ x <> es) ->
  P s -> NoDup removed -> (forall x, x ∈ removed -> x ∈ states s) ->
  exists s', remove_each remove removed s = Ok s' /\ P s' /\
    forall x, x ∈ states s' <-> x ∈ states s /\ x ∉ removed.
Proof.
  induction removed as [|es removed IH]; intros s Hstep HP Hnd Hin.
  - exists s. split_and!; [done|done|]. set_solver.
  - inversion_clear Hnd as [|? ? Hes Hnd']. cbn [remove_each].
    destruct (Hstep es s HP) as (s1 & -> & HP1 & H1); [set_solver|]. cbn [res_bind].
    destruct (IH s1 Hstep HP1 Hnd') as (s2 & -> & HP2 & H2).
    + intros x Hx. apply H1. set_solver.
    + exists s2. split_and!; [done|done|]. intros x. rewrite H2, H1. set_solver.
Qed.

Lemma after_spec L added removed (l : list positive) :
  (forall x, x ∈ l <-> (x ∈ L \/ x ∈ added) /\ x ∉ removed) ->
  list_to_set l = after L added removed.
Proof. intros H. unfold after. apply set_eq. intros x. rewrite elem_of_list_to_set, H. set_solver. Qed.

(** ** Running a searcher under an executor *)

Section run.
Context {S : Type} `{SearcherLaws S}.

(** One iteration of the executor's loop: while it has states, one is selected
    and steps, and the searcher is told which states the step added and
    removed.  Until the next iteration the world may change, as long as the
    generator stays valid and the searcher [ready]. *)
Inductive exec_step : gset positive * S * World -> gset positive * S * World -> Prop :=
| exec_iteration L s w x s1 w1 added removed s2 w2 w3 :
    L <> ∅ ->
    selectState w s = Ok (x, s1, w1) ->
    update_pre L (active s1) (Some x) added removed ->
    update w1 s1 (Some x) added removed = Ok (s2, w2) ->
    valid (theRNG w3) -> ready w3 s2 ->
    exec_step (L, s, w) (after L added removed, s2, w3).

(** The searcher manages exactly the states of the executor. *)
Definition agree (c : gset positive * S * World) : Prop :=
  let '(L, s, w) := c in inv s /\ live s = L /\ valid (theRNG w) /\ ready w s.

(** The next iteration cannot fail. *)
Definition can_step (c : gset positive * S * World) : Prop :=
  let '(L, s, w) := c in
  exists x s1 w1, selectState w s = Ok (x, s1, w1) /\ x ∈ L /\ x ∈ active s1 /\
    forall added removed, update_pre L (active s1) (Some x) added removed ->
      exists s2 w2, update w1 s1 (Some x) added removed = Ok (s2, w2) /\
        inv s2 /\ live s2 = after L added removed.

Lemma agree_can_step L s w : agree (L, s, w) -> L <> ∅ -> can_step (L, s, w).
Proof.
  intros (Hi & <- & Hw & Hr) Hne.
  destruct (select_spec w s) as (x & s1 & w1 & Hsel & Hx & Hi1 & Hl1 & Ha1 & Hle & Hr1); auto.
  exists x, s1, w1. split_and!; [done|by apply (active_live s Hi)|by rewrite Ha1|].
  intros added removed Hpre. rewrite <- Hl1 in Hpre.
  destruct (update_spec w1 s1 (Some x) added removed) as (s2 & w2 & Hup & Hi2 & Hl2 & _);
    eauto with searcher.
  exists s2, w2. rewrite <- Hl1. by split_and!.
Qed.

Lemma exec_step_agree c c' : agree c -> exec_step c c' -> agree c'.
Proof.
  intros Ha Hstep. destruct Hstep as [L s w x s1 w1 added removed s2 w2 w3 Hne Hsel Hpre Hup Hv Hr].
  destruct (agree_can_step L s w Ha Hne) as (x' & s1' & w1' & Hsel' & _ & _ & Hall).
  rewrite Hsel in Hsel'. injection Hsel' as <- <- <-.
  destruct (Hall added removed Hpre) as (s2' & w2' & Hup' & Hi2 & Hl2).
  rewrite Hup in Hup'. injection Hup' as <- <-. by split_and!.
Qed.

Lemma run_safe c c' :
  agree c -> rtc exec_step c c' -> agree c' /\ (fst (fst c') <> ∅ -> can_step c').
Proof.
  intros Ha Hr. assert (agree c') as Ha'.
  { revert Ha. induction Hr; [done|]. intros. apply IHHr. by eapply exec_step_agree. }
  split; [done|]. destruct c' as [[L s] w]. by apply agree_can_step.
Qed.

End run.

(** ** A concrete world *)
Definition sample_world : World :=
  {| theRNG := sample_rng; clock := fun n => Z.of_nat n; ticks := 0; instructions := 0;
     stack_size := fun _ => 1; constraints_text := fun _ => ""%string; updated := ∅;
     measures := fun _ => {| depth := 1; instsSinceCovNew := 0; queryCost := 0; pc_id := 0;
       callPath_instructions := 1; minDistToUncoveredOnReturn := 0 |};
     getIndexedValue := fun _ _ => 0 |}.

