(* ===== verification/WeightedSearcher.v ===== *)
(** [WeightedRandomSearcher] of klee/lib/Core/Searcher.cpp and
    [computeMinDistToUncovered] of klee/lib/Core/StatsTracker.cpp: the weight
    of a state, the selection by [DiscretePDF::choose] and the update.

    The searcher satisfies the contract of SearcherSpec.v for every weight
    type, and a weight is never negative and never a NaN. *)
From Stdlib Require Import ZArith Lia Bool SpecFloat.
From stdpp Require Import base list numbers option gmap sets.
From S2P Require Import Prelude Bits Double Rng RngDouble DiscretePDF SearcherSpec.
Open Scope Z_scope.

Inductive WeightType : Type :=
| Depth | RP | QueryCost | InstCount | CPInstCount | MinDistToUncovered | CoveringNew.

#[export] Instance WeightType_eq_dec : EqDecision WeightType.
Proof. solve_decision. Defined.

Record WeightedRandomSearcher : Type := Weighted {
  states : tree double;
  type : WeightType;
  updateWeights : bool;
}.

Definition WeightedRandomSearcher_new (t : WeightType) : WeightedRandomSearcher :=
  {| states := Leaf; type := t;
     updateWeights := match t with
       | Depth | RP => false
       | InstCount | CPInstCount | QueryCost | MinDistToUncovered | CoveringNew => true
       end |}.

(** ** The weight of a state *)

Definition computeMinDistToUncovered (w : World) (ki : Z) (minDistAtRA : Z) : Z :=
  if minDistAtRA =? 0 then getIndexedValue w stat_minDistToUncovered ki
  else
    let minDistLocal := getIndexedValue w stat_minDistToUncovered ki in
    let distToReturn := getIndexedValue w stat_minDistToReturn ki in
    if distToReturn =? 0 then minDistLocal
    else if minDistLocal =? 0 then wrap 64 (distToReturn + minDistAtRA)
    else Z.min minDistLocal (wrap 64 (distToReturn + minDistAtRA)).

(* std::pow(0.5, n) *)
Definition pow_half (n : Z) : double := binary_normalize 53 1024 1 (- n) false.

Definition inverse (n : Z) : double := ddiv (of_Z 1) (of_Z n).

(* (int) n of an unsigned n *)
Definition to_int (n : Z) : Z := if n <? 2 ^ 31 then n else n - 2 ^ 32.

(* time::Span::toSeconds *)
Definition toSeconds (span : Z) : double := ddiv (of_Z span) (of_Z 1000000000).

(* the subtraction of the CoveringNew case overflows below INT_MIN + 1000 *)
Definition getWeight (t : WeightType) (w : World) (es : positive) : res double :=
  let m := measures w es in
  match t with
  | Depth => Ok (of_Z (depth m))
  | RP => Ok (pow_half (depth m))
  | InstCount =>
      let inv := inverse (Z.max 1 (getIndexedValue w stat_instructions (pc_id m))) in
      Ok (dmul inv inv)
  | CPInstCount => Ok (inverse (Z.max 1 (callPath_instructions m)))
  | QueryCost =>
      let seconds := toSeconds (queryCost m) in
      Ok (if dlt seconds d_0_1 then of_Z 1 else ddiv (of_Z 1) seconds)
  | CoveringNew | MinDistToUncovered =>
      let md2u := computeMinDistToUncovered w (pc_id m) (minDistToUncoveredOnReturn m) in
      let invMD2U := inverse (if md2u =? 0 then 10000 else md2u) in
      match t with
      | CoveringNew =>
          let* invCovNew :=
            if instsSinceCovNew m =? 0 then Ok d_zero
            else
              let n := to_int (instsSinceCovNew m) - 1000 in
              if n <? - 2 ^ 31 then AssertFail else Ok (inverse (Z.max 1 n)) in
          Ok (dadd (dmul invCovNew invCovNew) (dmul invMD2U invMD2U))
      | _ => Ok (dmul invMD2U invMD2U)
      end
  end.

(** ** The virtual functions *)

(* theRNG.getDoubleL() *)
Definition draw_double (w : World) : res (double * World) :=
  let* p := getDoubleL (theRNG w) in Ok (fst p, set_rng (snd p) w).

Definition wr_selectState (w : World) (s : WeightedRandomSearcher)
    : res (positive * WeightedRandomSearcher * World) :=
  let2* p, w := draw_double w in
  let* es := choose p (states s) in
  Ok (es, s, w).

Fixpoint insert_each (t : WeightType) (w : World) (added : list positive) (states : tree double)
    : res (tree double) :=
  match added with
  | [] => Ok states
  | es :: added' =>
      let* weight := getWeight t w es in
      let* states := pdf_insert es weight states in
      insert_each t w added' states
  end.

Definition wr_update (w : World) (s : WeightedRandomSearcher) (current : option positive)
    (added removed : list positive) : res (WeightedRandomSearcher * World) :=
  let* states1 :=
    match current with
    | Some c =>
        if updateWeights s && negb (bool_decide (c ∈ removed)) then
          let* weight := getWeight (type s) w c in pdf_update c weight (states s)
        else Ok (states s)
    | None => Ok (states s)
    end in
  let* states2 := insert_each (type s) w added states1 in
  let* states3 := remove_each pdf_remove removed states2 in
  Ok (Weighted states3 (type s) (updateWeights s), w).

#[export] Instance weighted_searcher : Searcher WeightedRandomSearcher := {|
  selectState := wr_selectState;
  update := wr_update;
  empty s := pdf_empty (states s);
|}.

(** ** The contract *)

Definition wr_inv (s : WeightedRandomSearcher) : Prop := pdf_ok (states s).
Definition wr_live (s : WeightedRandomSearcher) : gset positive := dom (contents (states s)).

(* no counter of instructions without new coverage in the 1000 values whose
   conversion to int is too close to INT_MIN *)
Definition cov_new_defined (m : StateMeasures) : Prop := 
  0 <= instsSinceCovNew m < 2 ^ 31 \/ 2 ^ 31 + 1000 <= instsSinceCovNew m < 2 ^ 32.

Definition wr_ready (w : World) (s : WeightedRandomSearcher) : Prop :=
  type s = CoveringNew -> forall es, cov_new_defined (measures w es).

Lemma getWeight_ok t w es :
  (t = CoveringNew -> cov_new_defined (measures w es)) -> exists x, getWeight t w es = Ok x.
Proof.
  intros Hd. destruct t; cbn [getWeight]; eauto. specialize (Hd eq_refl).
  destruct (instsSinceCovNew (measures w es) =? 0); cbn [res_bind]; [eauto|].
  unfold cov_new_defined, to_int in *.
  set (n := if _ <? 2 ^ 31 then _ else _). assert (- 2 ^ 31 <= n - 1000) as Hn.
  { unfold n. destruct (Z.ltb_spec (instsSinceCovNew (measures w es)) (2 ^ 31)); lia. }
  destruct (Z.ltb_spec (n - 1000) (- 2 ^ 31)); [lia|]. cbn [res_bind]. eauto.
Qed.

Lemma draw_double_ok w : valid (theRNG w) ->
  exists p w', draw_double w = Ok (p, w') /\ dlt p d_zero = false /\ dge p (of_Z 1) = false /\ world_le w w'.
Proof.
  intros Hv. destruct (getInt32_ok (theRNG w) Hv) as (y & r' & E & Hy & Hr').
  destruct (draw_ratio y Hy) as (_ & H0 & H1). unfold draw_double, getDoubleL. rewrite E.
  cbn [res_bind fst snd]. do 2 eexists. split_and!; [done|exact H0|exact H1|]. by split.
Qed.

(** The operations of the tree on the set of its items. *)
Definition items (t : tree double) : gset positive := dom (contents t).

Lemma in_items k t : k ∈ items t <-> is_Some (contents t !! k).
Proof. apply elem_of_dom. Qed.

Lemma not_in_items k t : k ∉ items t <-> contents t !! k = None.
Proof. apply not_elem_of_dom. Qed.

Lemma insert_each_ok t w added : forall s,
  (forall es, t = CoveringNew -> cov_new_defined (measures w es)) ->
  pdf_ok s -> NoDup added -> (forall es, es ∈ added -> es ∉ items s) ->
  exists s', insert_each t w added s = Ok s' /\ pdf_ok s' /\ items s' = items s ∪ list_to_set added.
Proof.
  induction added as [|es added IH]; intros s Hd Hs Hnd Hin.
  { exists s. split_and!; [done|done|set_solver]. }
  inversion_clear Hnd as [|? ? Hes Hnd']. cbn [insert_each].
  destruct (getWeight_ok t w es) as [x ->]; [auto|]. cbn [res_bind].
  destruct (insert_cases es x s Hs) as [[Hc _]|[_ (s1 & -> & Hs1 & E1)]].
  { exfalso. apply contents_in in Hc. by apply (Hin es ltac:(by left)), in_items. }
  cbn [res_bind]. assert (items s1 = {[es]} ∪ items s) as Ei.
  { unfold items. by rewrite E1, dom_insert_L. }
  destruct (IH s1 Hd Hs1 Hnd') as (s2 & -> & Hs2 & E2).
  { intros e He. rewrite Ei. specialize (Hin e ltac:(by right)). set_solver. }
  exists s2. split_and!; [done|done|]. rewrite E2, Ei. set_solver.
Qed.

Lemma remove_each_pdf removed : forall s,
  pdf_ok s -> NoDup removed -> (forall es, es ∈ removed -> es ∈ items s) ->
  exists s', remove_each pdf_remove removed s = Ok s' /\ pdf_ok s' /\ items s' = items s ∖ list_to_set removed.
Proof.
  induction removed as [|es removed IH]; intros s Hs Hnd Hin.
  { exists s. split_and!; [done|done|set_solver]. }
  inversion_clear Hnd as [|? ? Hes Hnd']. cbn [remove_each].
  destruct (pdf_remove_ok es s Hs) as (s1 & -> & Hs1 & E1); [apply in_items, Hin; by left|]. cbn [res_bind].
  assert (items s1 = items s ∖ {[es]}) as Ei by (unfold items; by rewrite E1, dom_delete_L).
  destruct (IH s1 Hs1 Hnd') as (s2 & -> & Hs2 & E2).
  { intros e He. rewrite Ei. specialize (Hin e ltac:(by right)). set_solver. }
  exists s2. split_and!; [done|done|]. rewrite E2, Ei. set_solver.
Qed.

Lemma wr_update_current w s current (removed : list positive) :
  wr_inv s -> wr_ready w s -> (forall c, current = Some c -> c ∈ items (states s)) ->
  exists t, match current with
      | Some c => if updateWeights s && negb (bool_decide (c ∈ removed)) then
          let* weight := getWeight (type s) w c in pdf_update c weight (states s) else Ok (states s)
      | None => Ok (states s) end = Ok t /\ pdf_ok t /\ items t = items (states s).
Proof.
  intros Hi Hr Hc. destruct current as [c|]; [|by exists (states s)].
  destruct (updateWeights s && negb (bool_decide (c ∈ removed))); [|by exists (states s)].
  destruct (getWeight_ok (type s) w c) as [x ->]; [intros E; by apply Hr|]. cbn [res_bind].
  specialize (Hc c eq_refl). destruct (update_ok c x (states s) Hi) as (t & -> & Ht & E).
  { by apply in_items. }
  exists t. split_and!; [done|done|]. unfold items in *. rewrite E, dom_insert_L. set_solver.
Qed.

#[export] Instance weighted_laws : SearcherLaws WeightedRandomSearcher.
Proof.
  refine {| inv := wr_inv; live := wr_live; active := wr_live; ready := wr_ready |}.
  - done.
  - done.
  - intros s Hi. cbn. rewrite empty_contents. unfold wr_live. by rewrite dom_empty_iff_L.
  - intros w w' s [_ _ _ _ Hm _ _] Hr E es. rewrite Hm. by apply Hr.
  - intros w s Hi Hv Hr Hne. cbn. unfold wr_selectState.
    destruct (draw_double_ok w Hv) as (p & w' & -> & H0 & H1 & Hle). cbn [res_bind].
    destruct (choose_ok p (states s) H0 H1) as (k & -> & Hk).
    { intros E. apply Hne. unfold wr_live. by rewrite E, dom_empty_L. }
    cbn [res_bind]. do 3 eexists. split_and!; [done|by apply elem_of_dom|done|done|done|done|].
    intros E es. destruct Hle as [_ _ _ _ -> _ _]. by apply Hr.
  - intros w s current added removed Hi Hv Hr [Ha Hre Hf Hm Hc]. cbn. unfold wr_update.
    destruct (wr_update_current w s current removed Hi Hr Hc) as (t1 & -> & H1 & E1). cbn [res_bind].
    destruct (insert_each_ok (type s) w added t1) as (t2 & -> & H2 & E2); [auto|done|done| |].
    { intros es He. rewrite E1. by apply Hf. }
    cbn [res_bind].
    destruct (remove_each_pdf removed t2 H2 Hre) as (t3 & -> & H3 & E3).
    { intros es He. rewrite E2, E1. apply elem_of_union. rewrite elem_of_list_to_set. by apply Hm. }
    cbn [res_bind]. do 2 eexists. split_and!; [done|done| |done|done].
    unfold wr_live, after. cbn [states]. fold (items t3). by rewrite E3, E2, E1.
Defined.

#[export] Instance weighted_no_pausing : NoPausing WeightedRandomSearcher.
Proof. done. Qed.

(** ** Weights are not negative *)

Definition nonneg (x : double) : Prop :=
  match x with
  | S754_zero false | S754_finite false _ _ | S754_infinity false => True
  | _ => False
  end.

Lemma nonneg_not_below x : nonneg x -> dlt x d_zero = false /\ is_nan_d x = false.
Proof. by destruct x as [[]|[]| |[] m e]. Qed.

Lemma iter_shr_nonneg n : forall r, 0 <= shr_m r -> 0 <= shr_m (Nat.iter n shr_1 r).
Proof.
  induction n as [|n IH]; intros r Hr; [done|]. rewrite Nat.iter_succ_r. apply IH.
  destruct r as [[|[p|p|]|p] a b]; cbn in *; lia.
Qed.

Lemma shr_fexp_nonneg m e l : 0 <= m -> 0 <= shr_m (fst (shr_fexp 53 1024 m e l)).
Proof.
  intros Hm. unfold shr_fexp. assert (0 <= shr_m (shr_record_of_loc m l)) by (by destruct l as [|[]]).
  unfold shr. destruct (_ - e); cbn [fst]; [done| |done]. rewrite iter_pos_iter. by apply iter_shr_nonneg.
Qed.

Lemma round_even_nonneg m l : 0 <= m -> 0 <= round_nearest_even m l.
Proof. intros Hm. destruct l as [|[]]; cbn; try destruct (Z.even m); lia. Qed.

Lemma round_aux_nonneg m e l : 0 <= m -> nonneg (binary_round_aux 53 1024 false m e l).
Proof.
  intros Hm. unfold binary_round_aux. pose proof (shr_fexp_nonneg m e l Hm) as H1.
  destruct (shr_fexp 53 1024 m e l) as [r1 e1]. cbn [fst] in H1.
  pose proof (shr_fexp_nonneg _ e1 loc_Exact (round_even_nonneg _ (loc_of_shr_record r1) H1)) as H2.
  destruct (shr_fexp 53 1024 (round_nearest_even _ _) e1 loc_Exact) as [r2 e2]. cbn [fst] in H2.
  destruct (shr_m r2); [done| |lia]. by destruct (e2 <=? 1024 - 53).
Qed.

Lemma normalize_nonneg m e : 0 <= m -> nonneg (binary_normalize 53 1024 m e false).
Proof.
  intros Hm. destruct m as [|m|m]; [done| |lia]. unfold binary_normalize, binary_round.
  destruct (shl_align m e _) as [mz ez]. by apply round_aux_nonneg.
Qed.

Lemma of_Z_nonneg n : 0 <= n -> nonneg (of_Z n).
Proof. apply normalize_nonneg. Qed.

Lemma square_nonneg x : nonneg x -> nonneg (dmul x x).
Proof. destruct x as [[]|[]| |[] m e]; try done. intros _. by apply round_aux_nonneg. Qed.

Lemma dadd_nonneg x y : nonneg x -> nonneg y -> nonneg (dadd x y).
Proof.
  destruct x as [[]|[]| |[] mx ex], y as [[]|[]| |[] my ey]; try done. intros _ _.
  unfold dadd, SFadd. cbn [cond_Zopp]. apply normalize_nonneg. lia.
Qed.

Lemma ddiv_finite_nonneg m1 e1 m2 e2 :
  nonneg (ddiv (S754_finite false m1 e1) (S754_finite false m2 e2)).
Proof.
  unfold ddiv, SFdiv. cbn [xorb]. unfold SFdiv_core_binary.
  match goal with |- context [Z.div_eucl ?a ?b] =>
    pose proof (Z.div_pos a b) as Hd; destruct (Z.div_eucl a b) as [q r] eqn:E; unfold Z.div in *; rewrite E in * end.
  apply round_aux_nonneg. apply Hd; [|lia]. destruct (_ - _); [lia|by apply Z.shiftl_nonneg|lia].
Qed.

Lemma ddiv_1_nonneg x : nonneg x -> nonneg (ddiv (of_Z 1) x).
Proof. rewrite of_Z_1. destruct x as [[]|[]| |[] m e]; try done. intros _. apply ddiv_finite_nonneg. Qed.

Lemma inverse_nonneg n : 0 <= n -> nonneg (inverse n).
Proof. intros Hn. by apply ddiv_1_nonneg, of_Z_nonneg. Qed.

Lemma toSeconds_nonneg n : 0 <= n -> nonneg (toSeconds n).
Proof.
  intros Hn. unfold toSeconds. pose proof (of_Z_nonneg n Hn) as H.
  replace (of_Z 1000000000) with (S754_finite false 8388608000000000 (-23)) by (by vm_compute).
  destruct (of_Z n) as [[]|[]| |[] m e]; try done. apply ddiv_finite_nonneg.
Qed.

(* the counters are unsigned, the spans not negative *)
Record measures_ok (m : StateMeasures) : Prop := {
  ok_depth : 0 <= depth m;
  ok_queryCost : 0 <= queryCost m;
}.

Lemma md2u_nonneg w ki d :
  (forall stat id, 0 <= getIndexedValue w stat id) -> 0 <= computeMinDistToUncovered w ki d.
Proof.
  intros Hs. unfold computeMinDistToUncovered, wrap.
  pose proof (Hs stat_minDistToUncovered ki) as H1. pose proof (Hs stat_minDistToReturn ki) as H2.
  pose proof (Z.mod_pos_bound (getIndexedValue w stat_minDistToReturn ki + d) (2 ^ 64)).
  repeat case_match; lia.
Qed.

(** The weight of a state is never negative and never a NaN, for every
    weight type: from counters that are not negative, [getWeight] returns a
    zero, a positive finite number or +infinity. *)
Theorem getWeight_nonneg (t : WeightType) (w : World) (es : positive) :
  measures_ok (measures w es) -> (forall stat id, 0 <= getIndexedValue w stat id) ->
  (t = CoveringNew -> cov_new_defined (measures w es)) ->
  exists x, getWeight t w es = Ok x /\ nonneg x.
Proof.
  intros [Hdepth Hq] Hstat Hd. destruct (getWeight_ok t w es Hd) as [x0 E].
  pose proof (md2u_nonneg w (pc_id (measures w es)) (minDistToUncoveredOnReturn (measures w es)) Hstat) as Hm.
  revert E. unfold getWeight. set (md2u := computeMinDistToUncovered _ _ _) in *.
  assert (nonneg (dmul (inverse (if md2u =? 0 then 10000 else md2u)) (inverse (if md2u =? 0 then 10000 else md2u))))
    as Hmd by (apply square_nonneg, inverse_nonneg; destruct (md2u =? 0); lia).
  destruct t; cbn [res_bind]; intros E.
  1-6: eexists; split; [reflexivity|].
  - by apply of_Z_nonneg.
  - by apply normalize_nonneg.
  - destruct (dlt _ d_0_1); [by apply (of_Z_nonneg 1)|]. by apply ddiv_1_nonneg, toSeconds_nonneg.
  - apply square_nonneg, inverse_nonneg. lia.
  - apply inverse_nonneg. lia.
  - exact Hmd.
  - destruct (instsSinceCovNew (measures w es) =? 0); cbn [res_bind] in E |- *;
      [|destruct (_ <? - 2 ^ 31); [done|]; cbn [res_bind] in E |- *];
      (eexists; split; [reflexivity|]; apply dadd_nonneg; [apply square_nonneg|exact Hmd]).
    + done.
    + apply inverse_nonneg. lia.
Qed.

(** C16. A new [WeightedRandomSearcher] of any type, given the initial state,
    serves the executor for ever: after any sequence of selections and legal
    updates, whatever the executor did to the states' counters in between, it
    manages exactly the executor's states and can select one of them without a
    failed assertion.  For [CoveringNew] this needs the counters of
    instructions without new coverage to stay out of the 1000 values for which
    the subtraction of [getWeight] overflows. *)
Theorem weighted_searcher_runs (t : WeightType) (w : World) (es : positive) :
  valid (theRNG w) -> (t = CoveringNew -> forall es, cov_new_defined (measures w es)) ->
  exists s w', update w (WeightedRandomSearcher_new t) None [es] [] = Ok (s, w') /\
    forall c', rtc exec_step ({[es]}, s, w') c' ->
      agree c' /\ (fst (fst c') <> ∅ -> can_step c').
Proof.
  intros Hv Hr.
  destruct (update_spec w (WeightedRandomSearcher_new t) None [es] []) as (s & w' & E & Hi & Hl & Hle & Hr').
  - apply pdf_ok_leaf.
  - done.
  - exact Hr.
  - constructor; [apply NoDup_singleton|constructor| |by intros x Hx%not_elem_of_nil|done].
    intros x _. cbn. unfold wr_live. cbn. set_solver.
  - exists s, w'. split; [done|]. intros c' Hrun. apply (run_safe ({[es]}, s, w')); [|done].
    split_and!; [done| |by apply (world_le_valid w)|done].
    rewrite Hl. cbn. unfold wr_live, after. cbn. set_solver.
Qed.

(** ** Examples *)

Lemma sample_measures_ok es : measures_ok (measures sample_world es).
Proof. constructor; cbn; lia. Qed.

Lemma sample_cov_new es : cov_new_defined (measures sample_world es).
Proof. left. cbn. lia. Qed.

Lemma getWeight_nonneg_witness : exists x, getWeight CoveringNew sample_world 1 = Ok x /\ nonneg x.
Proof.
  apply (getWeight_nonneg CoveringNew sample_world 1).
  - apply sample_measures_ok.
  - intros stat id. cbn. lia.
  - intros _. apply sample_cov_new.
Defined.

Lemma weighted_searcher_runs_witness :
  exists s w', update sample_world (WeightedRandomSearcher_new CoveringNew) None [1%positive] [] = Ok (s, w') /\
    forall c', rtc exec_step ({[1%positive]}, s, w') c' ->
      agree c' /\ (fst (fst c') <> ∅ -> can_step c').
Proof.
  apply (weighted_searcher_runs CoveringNew sample_world 1).
  - apply sample_valid.
  - intros _. apply sample_cov_new.
Defined.

(** A state that has run 2^31 instructions since it covered new code: the
    conversion to [int] makes the count negative, and the subtraction of 1000
    overflows; 1000 instructions later the state has the weight of one that
    has just covered new code. *)
Definition stale_world (n : Z) : World :=
  let w := sample_world in
  {| theRNG := theRNG w; clock := clock w; ticks := ticks w; instructions := instructions w;
     stack_size := stack_size w; constraints_text := constraints_text w; updated := updated w;
     measures := fun _ => {| depth := 1; instsSinceCovNew := n; queryCost := 0; pc_id := 0;
       callPath_instructions := 1; minDistToUncoveredOnReturn := 0 |};
     getIndexedValue := getIndexedValue w |}.

Example covering_new_wraps :
  getWeight CoveringNew (stale_world (2 ^ 31)) 1 = AssertFail /\
  getWeight CoveringNew (stale_world (2 ^ 31 + 1000)) 1 = getWeight CoveringNew (stale_world 1) 1 /\
  (let* a := getWeight CoveringNew (stale_world (2 ^ 31 - 1)) 1 in
   let* b := getWeight CoveringNew (stale_world 1) 1 in Ok (dlt a b)) = Ok true.
Proof. vm_compute. done. Qed.
