(* ===== verification/Searchers.v ===== *)
(** The searchers of klee/lib/Core/Searcher.cpp, each an instance of the
    interface of [SearcherSpec.v]: depth first, breadth first, random, and the
    ones that wrap other searchers: batching, iterative deepening, interleaved
    and branching.  A wrapper is defined and proved against the interface of
    its base searcher. *)
From Stdlib Require Import ZArith Lia Bool String.
From stdpp Require Import base list numbers option gmap sets sorting.
From S2P Require Import Prelude Rng Double SearcherSpec.
Open Scope Z_scope.

(** ** DFSSearcher *)
Record DFSSearcher : Type := DFS { dfs_states : list positive }.

Definition dfs_selectState (w : World) (s : DFSSearcher) : res (positive * DFSSearcher * World) :=
  match last (dfs_states s) with
  | Some es => Ok (es, s, w)
  | None => AssertFail (* back() of an empty vector *)
  end.

(* the body of the loop over removedStates *)
Definition dfs_remove (es : positive) (states : list positive) : res (list positive) :=
  match last states with
  | None => AssertFail
  | Some b => if decide (es = b) then Ok (removelast states) else erase_or_fail es states
  end.

Definition dfs_update (w : World) (s : DFSSearcher) (current : option positive)
    (addedStates removedStates : list positive) : res (DFSSearcher * World) :=
  let* states := remove_each dfs_remove removedStates (dfs_states s ++ addedStates) in
  Ok (DFS states, w).

#[export] Instance dfs_searcher : Searcher DFSSearcher := {|
  selectState := dfs_selectState;
  update := dfs_update;
  empty s := bool_decide (dfs_states s = []);
|}.

(** ** BFSSearcher *)
Record BFSSearcher : Type := BFS { bfs_states : list positive }.

Definition bfs_selectState (w : World) (s : BFSSearcher) : res (positive * BFSSearcher * World) :=
  match bfs_states s with
  | es :: _ => Ok (es, s, w)
  | [] => AssertFail (* front() of an empty deque *)
  end.

Definition bfs_remove (es : positive) (states : list positive) : res (list positive) :=
  match states with
  | [] => AssertFail
  | f :: states' => if decide (es = f) then Ok states' else erase_or_fail es states
  end.

Definition bfs_update (w : World) (s : BFSSearcher) (current : option positive)
    (addedStates removedStates : list positive) : res (BFSSearcher * World) :=
  (* if new states were added the current state evolved: it moves to the back *)
  let* states :=
    match current with
    | Some c =>
        if negb (bool_decide (addedStates = [])) && negb (bool_decide (c ∈ removedStates)) then
          let* states := erase_or_fail c (bfs_states s) in Ok (states ++ [c])
        else Ok (bfs_states s)
    | None => Ok (bfs_states s)
    end in
  let* states := remove_each bfs_remove removedStates (states ++ addedStates) in
  Ok (BFS states, w).

#[export] Instance bfs_searcher : Searcher BFSSearcher := {|
  selectState := bfs_selectState;
  update := bfs_update;
  empty s := bool_decide (bfs_states s = []);
|}.

(** ** RandomSearcher *)
Record RandomSearcher : Type := RandomS { random_states : list positive }.

(* states[theRNG.getInt32() % states.size()] *)
Definition choose_random (w : World) (states : list positive) : res (positive * World) :=
  let2* y, w := draw w in
  let n := Z.of_nat (length states) in
  assert* negb (n =? 0) in (* division by zero *)
  match states !! Z.to_nat (y mod n) with
  | Some es => Ok (es, w)
  | None => AssertFail
  end.

Definition random_selectState (w : World) (s : RandomSearcher) : res (positive * RandomSearcher * World) :=
  let2* es, w := choose_random w (random_states s) in Ok (es, s, w).

Definition random_update (w : World) (s : RandomSearcher) (current : option positive)
    (addedStates removedStates : list positive) : res (RandomSearcher * World) :=
  let* states := remove_each erase_or_fail removedStates (random_states s ++ addedStates) in
  Ok (RandomS states, w).

#[export] Instance random_searcher : Searcher RandomSearcher := {|
  selectState := random_selectState;
  update := random_update;
  empty s := bool_decide (random_states s = []);
|}.

(** ** BatchingSearcher *)
Record BatchingSearcher (S : Type) : Type := Batching {
  bt_baseSearcher : S;
  bt_timeBudget : Z;           (* a time::Span, in nanoseconds *)
  bt_instructionBudget : Z;    (* unsigned *)
  bt_lastState : option positive;
  bt_lastStartTime : Z;
  bt_lastStartInstructions : Z; (* unsigned: 32 bits of the 64-bit counter *)
}.
Arguments Batching {S}.
Arguments bt_baseSearcher {S}.
Arguments bt_timeBudget {S}.
Arguments bt_instructionBudget {S}.
Arguments bt_lastState {S}.
Arguments bt_lastStartTime {S}.
Arguments bt_lastStartInstructions {S}.

(* Span::toMicroseconds and Span::operator*=(double) *)
Definition toMicroseconds (span : Z) : Z := wrap 64 (Z.quot span 1000).
Definition span_mul_double (span : Z) (factor : double) : Z :=
  1000 * to_uint64 (dmul (of_Z (toMicroseconds span)) factor).

Section batching.
Context {S : Type} `{Searcher S}.

(* the condition of selectState; the clock is read only when it is needed *)
Definition bt_expired (w : World) (s : BatchingSearcher S) : bool * World :=
  match bt_lastState s with
  | None => (true, w)
  | Some _ =>
      let instr :=
        (0 <? bt_instructionBudget s) &&
        (bt_instructionBudget s <? wrap 64 (instructions w - bt_lastStartInstructions s)) in
      (* timeBudget.toSeconds() > 0 *)
      if 0 <? bt_timeBudget s then
        let (t, w) := getWallTime w in
        ((bt_timeBudget s <? t - bt_lastStartTime s) || instr, w)
      else (instr, w)
  end.

(* "if (lastState)": the time budget grows when it was exceeded by a tenth *)
Definition bt_adjust (w : World) (s : BatchingSearcher S) : Z * World :=
  match bt_lastState s with
  | None => (bt_timeBudget s, w)
  | Some _ =>
      let (now, w) := getWallTime w in
      let delta := now - bt_lastStartTime s in
      let t := span_mul_double (bt_timeBudget s) d_1_1 in
      (if t <? delta then delta else bt_timeBudget s, w)
  end.

Definition bt_selectState (w : World) (s : BatchingSearcher S)
    : res (positive * BatchingSearcher S * World) :=
  let (expired, w) := bt_expired w s in
  if expired then
    let (budget, w) := bt_adjust w s in
    let3* es, base, w := selectState w (bt_baseSearcher s) in
    let (now, w) := getWallTime w in
    Ok (es, Batching base budget (bt_instructionBudget s) (Some es) now (wrap 32 (instructions w)), w)
  else
    match bt_lastState s with
    | Some es => Ok (es, s, w)
    | None => AssertFail
    end.

Definition bt_update (w : World) (s : BatchingSearcher S) (current : option positive)
    (addedStates removedStates : list positive) : res (BatchingSearcher S * World) :=
  let lastState :=
    match bt_lastState s with
    | Some es => if bool_decide (es ∈ removedStates) then None else Some es
    | None => None
    end in
  let2* base, w := update w (bt_baseSearcher s) current addedStates removedStates in
  Ok (Batching base (bt_timeBudget s) (bt_instructionBudget s) lastState
        (bt_lastStartTime s) (bt_lastStartInstructions s), w).

#[export] Instance batching_searcher : Searcher (BatchingSearcher S) := {|
  selectState := bt_selectState;
  update := bt_update;
  empty s := empty (bt_baseSearcher s);
|}.

End batching.

(** ** IterativeDeepeningTimeSearcher *)
Record IterativeDeepeningTimeSearcher (S : Type) : Type := IterDeep {
  it_baseSearcher : S;
  it_startTime : Z;
  it_time : Z;                 (* a time::Span, in nanoseconds *)
  it_pausedStates : gset positive;
}.
Arguments IterDeep {S}.
Arguments it_baseSearcher {S}.
Arguments it_startTime {S}.
Arguments it_time {S}.
Arguments it_pausedStates {S}.

Section iterative_deepening.
Context {S : Type} `{Searcher S}.

Definition it_selectState (w : World) (s : IterativeDeepeningTimeSearcher S)
    : res (positive * IterativeDeepeningTimeSearcher S * World) :=
  let3* es, base, w := selectState w (it_baseSearcher s) in
  let (now, w) := getWallTime w in
  Ok (es, IterDeep base now (it_time s) (it_pausedStates s), w).

(* the loop over removedStates: the paused ones leave pausedStates and alt *)
Fixpoint it_unpause (removed : list positive) (paused : gset positive) (alt : list positive)
    : gset positive * list positive :=
  match removed with
  | [] => (paused, alt)
  | es :: removed' =>
      if bool_decide (es ∈ paused) then
        it_unpause removed' (paused ∖ {[es]}) (filter (fun x => x <> es) alt)
      else it_unpause removed' paused alt
  end.

Definition it_update (w : World) (s : IterativeDeepeningTimeSearcher S) (current : option positive)
    (addedStates removedStates : list positive) : res (IterativeDeepeningTimeSearcher S * World) :=
  let (now, w) := getWallTime w in
  let elapsed := now - it_startTime s in
  let '(paused, alt) :=
    if bool_decide (removedStates = []) then (it_pausedStates s, removedStates)
    else it_unpause removedStates (it_pausedStates s) removedStates in
  let2* base, w := update w (it_baseSearcher s) current addedStates alt in
  let* p :=
    match current with
    | Some c =>
        if negb (bool_decide (c ∈ removedStates)) && (it_time s <? elapsed) then
          let2* base, w := removeState w base c None in
          Ok ({[c]} ∪ paused, base, w)
        else Ok (paused, base, w)
    | None => Ok (paused, base, w)
    end in
  let '(paused, base, w) := p in
  if empty base then
    (* time *= 2U *)
    let2* base, w := update w base None (by_address paused) [] in
    Ok (IterDeep base (it_startTime s) (it_time s * 2) ∅, w)
  else Ok (IterDeep base (it_startTime s) (it_time s) paused, w).

#[export] Instance iterdeep_searcher : Searcher (IterativeDeepeningTimeSearcher S) := {|
  selectState := it_selectState;
  update := it_update;
  empty s := empty (it_baseSearcher s) && bool_decide (it_pausedStates s = ∅);
|}.

End iterative_deepening.

(** ** InterleavedSearcher *)
Record InterleavedSearcher (S : Type) : Type := Interleaved {
  il_searchers : list S;
  il_index : Z; (* unsigned *)
}.
Arguments Interleaved {S}.
Arguments il_searchers {S}.
Arguments il_index {S}.

Section interleaved.
Context {S : Type} `{Searcher S}.

Definition il_new (searchers : list S) : InterleavedSearcher S := Interleaved searchers 1.

Definition il_selectState (w : World) (s : InterleavedSearcher S)
    : res (positive * InterleavedSearcher S * World) :=
  let index := wrap 32 (il_index s - 1) in
  match il_searchers s !! Z.to_nat index with
  | None => AssertFail
  | Some b =>
      let index' := if index =? 0 then Z.of_nat (length (il_searchers s)) else index in
      let3* es, b', w := selectState w b in
      Ok (es, Interleaved (<[Z.to_nat index := b']> (il_searchers s)) index', w)
  end.

Fixpoint il_update_all (w : World) (searchers : list S) (current : option positive)
    (addedStates removedStates : list positive) : res (list S * World) :=
  match searchers with
  | [] => Ok ([], w)
  | b :: rest =>
      let2* b, w := update w b current addedStates removedStates in
      let2* rest, w := il_update_all w rest current addedStates removedStates in
      Ok (b :: rest, w)
  end.

Definition il_update (w : World) (s : InterleavedSearcher S) (current : option positive)
    (addedStates removedStates : list positive) : res (InterleavedSearcher S * World) :=
  let2* searchers, w := il_update_all w (il_searchers s) current addedStates removedStates in
  Ok (Interleaved searchers (il_index s), w).

#[export] Instance interleaved_searcher : Searcher (InterleavedSearcher S) := {|
  selectState := il_selectState;
  update := il_update;
  empty s := match il_searchers s with b :: _ => empty b | [] => true end;
|}.

End interleaved.

(** ** BranchingSearcher *)
Record BranchingSearcher (S : Type) : Type := Branching {
  br_baseSearcher : S;
  br_lastState : option positive;
  br_lastSelectStackSize : Z;
}.
Arguments Branching {S}.
Arguments br_baseSearcher {S}.
Arguments br_lastState {S}.
Arguments br_lastSelectStackSize {S}.

Section branching.
Context {S : Type} `{Searcher S}.

Definition br_selectState (w : World) (s : BranchingSearcher S)
    : res (positive * BranchingSearcher S * World) :=
  match br_lastState s with
  | Some es => Ok (es, s, w)
  | None =>
      let3* es, base, w := selectState w (br_baseSearcher s) in
      Ok (es, Branching base (Some es) (wrap 32 (stack_size w es)), w)
  end.

Definition br_update (w : World) (s : BranchingSearcher S) (current : option positive)
    (addedStates removedStates : list positive) : res (BranchingSearcher S * World) :=
  let lastState :=
    match br_lastState s with
    | Some es => if bool_decide (es ∈ removedStates) then None else Some es
    | None => None
    end in
  let lastState :=
    match current with
    | Some _ => if bool_decide (addedStates = []) then lastState else None
    | None => lastState
    end in
  let2* base, w := update w (br_baseSearcher s) current addedStates removedStates in
  Ok (Branching base lastState (br_lastSelectStackSize s), w).

#[export] Instance branching_searcher : Searcher (BranchingSearcher S) := {|
  selectState := br_selectState;
  update := br_update;
  empty s := empty (br_baseSearcher s);
|}.

End branching.

(** * Laws *)

(** ** Searchers that keep a list of states *)

Lemma dfs_remove_ok es l :
  NoDup l -> es ∈ l ->
  exists l', dfs_remove es l = Ok l' /\ NoDup l' /\ forall x, x ∈ l' <-> x ∈ l /\ x <> es.
Proof.
  intros Hl Hes. unfold dfs_remove. destruct (last l) as [b|] eqn:E.
  2: { apply last_None in E. subst. by apply not_elem_of_nil in Hes. }
  destruct (decide (es = b)) as [->|]; [|by apply erase_or_fail_ok].
  apply last_Some in E as [l' ->]. rewrite removelast_last. exists l'.
  apply NoDup_app in Hl as (Hl' & Hd & _). split_and!; [done|done|]. intros x.
  rewrite elem_of_app, list_elem_of_singleton. split; [|tauto].
  intros Hx. split; [by left|]. intros ->. apply (Hd b Hx). by apply list_elem_of_singleton.
Qed.

Lemma bfs_remove_ok es l :
  NoDup l -> es ∈ l ->
  exists l', bfs_remove es l = Ok l' /\ NoDup l' /\ forall x, x ∈ l' <-> x ∈ l /\ x <> es.
Proof.
  intros Hl Hes. destruct l as [|f l]; [by apply not_elem_of_nil in Hes|]. cbn [bfs_remove].
  destruct (decide (es = f)) as [->|]; [|by apply erase_or_fail_ok].
  inversion_clear Hl as [|? ? Hf Hl']. exists l. split_and!; [done|done|].
  intros x. rewrite elem_of_cons. split; [|by intros [[->|Hx] Hne]].
  intros Hx. split; [by right|]. by intros ->.
Qed.

(** Appending the added states and removing the removed ones, for any removal
    step that erases one state. *)
Lemma list_update_ok remove l act current added removed :
  (forall es l, NoDup l -> es ∈ l -> exists l', remove es l = Ok l' /\ NoDup l' /\
     forall x, x ∈ l' <-> x ∈ l /\ x <> es) ->
  NoDup l -> update_pre (list_to_set l) act current added removed ->
  exists l', remove_each remove removed (l ++ added) = Ok l' /\ NoDup l' /\
    list_to_set l' = after (list_to_set l) added removed.
Proof.
  intros Hstep Hl [Ha Hr Hfresh Hman _].
  assert (NoDup (l ++ added)) as Hnd.
  { apply NoDup_app. split_and!; [done| |done]. intros x Hx Hx'.
    apply (Hfresh x Hx'). by apply elem_of_list_to_set. }
  destruct (remove_each_ok remove NoDup (fun l => l) removed (l ++ added)) as (l' & Hl' & Hnd' & Hin).
  - intros es l1 Hl1 Hes. destruct (Hstep es l1 Hl1 Hes) as (l2 & ? & ? & ?). by exists l2.
  - done.
  - done.
  - intros x Hx. apply elem_of_app. destruct (Hman x Hx) as [H|H]; [|by right].
    left. by apply elem_of_list_to_set in H.
  - exists l'. split_and!; [done|done|]. apply after_spec. intros x.
    by rewrite Hin, elem_of_app, elem_of_list_to_set.
Qed.

Lemma list_to_set_empty (l : list positive) : list_to_set l =@{gset positive} ∅ <-> l = [].
Proof.
  split; [|by intros ->]. destruct l as [|x l]; [done|]. intros E. exfalso.
  assert (x ∈ (∅ : gset positive)) as Hx by (rewrite <- E; set_solver). set_solver.
Qed.

(** What the instances below share: a searcher whose state is a list without
    duplicates. *)
Section list_laws.
Context {S : Type} `{Searcher S} (states : S -> list positive).
Context (Hempty : forall s, empty s = bool_decide (states s = [])).
Context (Hselect : forall w s, valid (theRNG w) -> states s <> [] ->
  exists x w', selectState w s = Ok (x, s, w') /\ x ∈ states s /\ world_le w w').
Context (Hupdate : forall w s current added removed, NoDup (states s) ->
  update_pre (list_to_set (states s)) (list_to_set (states s)) current added removed ->
  exists s', update w s current added removed = Ok (s', w) /\ NoDup (states s') /\
    list_to_set (states s') =@{gset positive} after (list_to_set (states s)) added removed).

Lemma list_laws : SearcherLaws S.
Proof.
  refine {| inv s := NoDup (states s); live s := list_to_set (states s);
            active s := list_to_set (states s); ready _ _ := True |}; intros.
  - done.
  - done.
  - by rewrite Hempty, bool_decide_eq_true, list_to_set_empty.
  - done.
  - destruct (Hselect w s) as (x & w' & E & Hx & Hle); [done|by rewrite <- list_to_set_empty|].
    exists x, s, w'. split_and!; try done. by apply elem_of_list_to_set.
  - destruct (Hupdate w s current added removed) as (s' & E & ? & ?); [done|done|].
    by exists s', w.
Defined.
End list_laws.

#[export] Instance dfs_laws : SearcherLaws DFSSearcher.
Proof.
  apply (list_laws dfs_states); [done| |].
  - intros w s _ Hne. cbn. unfold dfs_selectState. destruct (last (dfs_states s)) as [x|] eqn:E.
    + exists x, w. split_and!; [done| |done]. apply last_Some in E as [l ->]. set_solver.
    + by apply last_None in E.
  - intros w s current added removed Hl Hpre. cbn. unfold dfs_update.
    destruct (list_update_ok dfs_remove _ _ current added removed dfs_remove_ok Hl Hpre)
      as (l' & -> & ? & ?). by exists (DFS l').
Defined.

#[export] Instance bfs_laws : SearcherLaws BFSSearcher.
Proof.
  apply (list_laws bfs_states); [done| |].
  - intros w s _ Hne. cbn. unfold bfs_selectState. destruct (bfs_states s) as [|x l]; [done|].
    exists x, w. split_and!; [done|set_solver|done].
  - intros w s current added removed Hl Hpre. cbn. unfold bfs_update.
    match goal with |- context [res_bind ?m _] =>
      assert (exists l1, m = Ok l1 /\ NoDup l1 /\ (forall x, x ∈ l1 <-> x ∈ bfs_states s)) as (l1 & -> & Hl1 & Hin)
    end.
    { destruct current as [c|]; [|by exists (bfs_states s)]. destruct (_ && _); [|by exists (bfs_states s)].
      assert (c ∈ bfs_states s) as Hc.
      { rewrite <- (elem_of_list_to_set (C:=gset positive)). by apply (pre_current _ _ _ _ _ Hpre). }
      destruct (erase_or_fail_ok c (bfs_states s) Hl Hc) as (l' & -> & Hl' & Hin').
      cbn [res_bind]. exists (l' ++ [c]). split_and!; [done| |].
      - apply NoDup_app. split_and!; [done| |apply NoDup_singleton].
        intros x Hx Hx'. apply list_elem_of_singleton in Hx' as ->. by apply Hin' in Hx as [_ []].
      - intros x. rewrite elem_of_app, Hin', list_elem_of_singleton.
        destruct (decide (x = c)) as [->|]; tauto. }
    cbn [res_bind].
    assert (list_to_set l1 =@{gset positive} list_to_set (bfs_states s)) as E.
    { apply set_eq. intros x. by rewrite !elem_of_list_to_set. }
    rewrite <- E in Hpre. rewrite <- E.
    destruct (list_update_ok bfs_remove _ _ current added removed bfs_remove_ok Hl1 Hpre)
      as (l' & -> & ? & ?). by exists (BFS l').
Defined.

Lemma choose_random_ok w l :
  valid (theRNG w) -> l <> [] ->
  exists x w', choose_random w l = Ok (x, w') /\ x ∈ l /\ world_le w w'.
Proof.
  intros Hv Hne. unfold choose_random. destruct (draw_ok w Hv) as (y & w' & -> & Hy & Hle).
  cbn [res_bind]. assert (0 < Z.of_nat (length l)) by (destruct l; [done|cbn; lia]).
  replace (negb (Z.of_nat (length l) =? 0)) with true by lia. cbn [res_assert].
  pose proof (Z.mod_pos_bound y (Z.of_nat (length l))).
  destruct (lookup_lt_is_Some_2 l (Z.to_nat (y mod Z.of_nat (length l)))) as [x Hx]; [lia|].
  rewrite Hx. exists x, w'. split_and!; [done| |done]. by apply list_elem_of_lookup_2 in Hx.
Qed.

#[export] Instance random_laws : SearcherLaws RandomSearcher.
Proof.
  apply (list_laws random_states); [done| |].
  - intros w s Hv Hne. cbn. unfold random_selectState.
    destruct (choose_random_ok w (random_states s) Hv Hne) as (x & w' & -> & Hx & Hle).
    cbn [res_bind]. by exists x, w'.
  - intros w s current added removed Hl Hpre. cbn. unfold random_update.
    destruct (list_update_ok erase_or_fail _ _ current added removed erase_or_fail_ok Hl Hpre)
      as (l' & -> & ? & ?). by exists (RandomS l').
Defined.

#[export] Instance dfs_no_pausing : NoPausing DFSSearcher.
Proof. by intros ? ?. Qed.
#[export] Instance bfs_no_pausing : NoPausing BFSSearcher.
Proof. by intros ? ?. Qed.
#[export] Instance random_no_pausing : NoPausing RandomSearcher.
Proof. by intros ? ?. Qed.

(** ** Wrappers that cache a state of their base searcher *)

(** The cached state survives an update of the base when it is not removed. *)
Lemma cached_after (L : gset positive) added removed (last : option positive) es :
  (forall x, last = Some x -> x ∈ L) ->
  match last with
  | Some x => if bool_decide (x ∈ removed) then None else Some x
  | None => None
  end = Some es -> es ∈ after L added removed.
Proof.
  intros HL H. destruct last as [x|]; [|done]. case_bool_decide as Hx; [done|].
  injection H as <-. specialize (HL x eq_refl). unfold after.
  apply elem_of_difference. rewrite elem_of_list_to_set. set_solver.
Qed.

Section batching_laws.
Context {S : Type} `{NoPausing S}.

Lemma bt_expired_le w (s : BatchingSearcher S) b w' : bt_expired w s = (b, w') -> world_le w w'.
Proof.
  unfold bt_expired. destruct (bt_lastState s); [|by intros [= <- <-]].
  destruct (0 <? bt_timeBudget s); intros [= <- <-]; [by constructor|done].
Qed.

Lemma bt_adjust_le w (s : BatchingSearcher S) b w' : bt_adjust w s = (b, w') -> world_le w w'.
Proof.
  unfold bt_adjust. destruct (bt_lastState s); [|by intros [= <- <-]].
  intros [= <- <-]; by constructor.
Qed.

#[export] Instance batching_laws : SearcherLaws (BatchingSearcher S).
Proof.
  refine {|
    inv s := inv (bt_baseSearcher s) /\
             forall es, bt_lastState s = Some es -> es ∈ live (bt_baseSearcher s);
    live s := live (bt_baseSearcher s);
    active s := active (bt_baseSearcher s);
    ready w s := ready w (bt_baseSearcher s) |}.
  - intros s [Hi _]. exact (active_live _ Hi).
  - intros s [Hi _]. exact (progress _ Hi).
  - intros s [Hi _]. exact (empty_spec _ Hi).
  - intros w w' s. exact (ready_mono w w' _).
  - intros w s [Hi Hlast] Hv Hr Hne. cbn. unfold bt_selectState.
    destruct (bt_expired w s) as [b w1] eqn:E1. pose proof (bt_expired_le w s b w1 E1) as Hle1.
    destruct b.
    + destruct (bt_adjust w1 s) as [budget w2] eqn:E2. pose proof (bt_adjust_le w1 s budget w2 E2) as Hle2.
      assert (world_le w w2) as Hle by (by transitivity w1).
      destruct (select_spec w2 (bt_baseSearcher s)) as (x & s' & w3 & -> & Hx & Hi' & Hl' & Ha' & Hle3 & Hr');
        eauto with searcher.
      cbn [res_bind getWallTime]. do 3 eexists. split; [done|]. cbn.
      assert (live s' = live (bt_baseSearcher s)) as El by done.
      split_and!; auto.
      * intros es [= <-]. rewrite Hl'. by apply (active_live (bt_baseSearcher s) Hi).
      * transitivity w3; [by transitivity w2|apply wall_time_le].
      * eapply ready_mono; [apply wall_time_le|done].
    + assert (exists es, bt_lastState s = Some es) as [es Hes].
      { unfold bt_expired in E1. destruct (bt_lastState s); [eauto|discriminate]. }
      rewrite Hes. exists es, s, w1. split_and!; auto.
      * rewrite (no_pausing (bt_baseSearcher s) Hi). auto.
      * by apply (ready_mono w).
  - intros w s current added removed [Hi Hlast] Hv Hr Hpre. cbn. unfold bt_update.
    destruct (update_spec w (bt_baseSearcher s) current added removed) as (s' & w' & -> & Hi' & Hl' & Hle & Hr');
      auto. cbn [res_bind]. do 2 eexists. split; [done|]. cbn. split_and!; auto.
    intros es Hes. rewrite Hl'. by eapply cached_after.
Defined.

#[export] Instance batching_no_pausing : NoPausing (BatchingSearcher S).
Proof. intros s [Hi _]. exact (no_pausing _ Hi). Qed.

End batching_laws.

Section branching_laws.
Context {S : Type} `{NoPausing S}.

#[export] Instance branching_laws : SearcherLaws (BranchingSearcher S).
Proof.
  refine {|
    inv s := inv (br_baseSearcher s) /\
             forall es, br_lastState s = Some es -> es ∈ live (br_baseSearcher s);
    live s := live (br_baseSearcher s);
    active s := active (br_baseSearcher s);
    ready w s := ready w (br_baseSearcher s) |}.
  - intros s [Hi _]. exact (active_live _ Hi).
  - intros s [Hi _]. exact (progress _ Hi).
  - intros s [Hi _]. exact (empty_spec _ Hi).
  - intros w w' s. exact (ready_mono w w' _).
  - intros w s [Hi Hlast] Hv Hr Hne. cbn. unfold br_selectState.
    destruct (br_lastState s) as [es|] eqn:E.
    + exists es, s, w. split_and!; auto; try done.
      * rewrite (no_pausing (br_baseSearcher s) Hi). auto.
      * intros es'. rewrite E. apply Hlast.
    + destruct (select_spec w (br_baseSearcher s)) as (x & s' & w1 & -> & Hx & Hi' & Hl' & Ha' & Hle & Hr'); auto.
      cbn [res_bind]. do 3 eexists. split; [done|]. cbn. split_and!; auto.
      intros es [= <-]. rewrite Hl'. by apply (active_live (br_baseSearcher s) Hi).
  - intros w s current added removed [Hi Hlast] Hv Hr Hpre. cbn. unfold br_update.
    destruct (update_spec w (br_baseSearcher s) current added removed) as (s' & w' & -> & Hi' & Hl' & Hle & Hr');
      auto. cbn [res_bind]. do 2 eexists. split; [done|]. cbn. split_and!; auto.
    intros es Hes. rewrite Hl'. eapply cached_after; [exact Hlast|].
    destruct current; [|exact Hes]. by case_bool_decide.
Defined.

#[export] Instance branching_no_pausing : NoPausing (BranchingSearcher S).
Proof. intros s [Hi _]. exact (no_pausing _ Hi). Qed.

End branching_laws.

(** ** InterleavedSearcher *)
Section interleaved_laws.
Context {S : Type} `{NoPausing S}.

Lemma il_update_all_ok (L : gset positive) current added removed (l : list S) : forall w,
  Forall (fun b => inv b /\ live b = L) l -> valid (theRNG w) -> Forall (ready w) l ->
  update_pre L L current added removed ->
  exists l' w', il_update_all w l current added removed = Ok (l', w') /\ length l' = length l /\
    Forall (fun b => inv b /\ live b = after L added removed) l' /\ world_le w w' /\
    Forall (ready w') l'.
Proof.
  induction l as [|b l IH]; intros w Hl Hv Hr Hpre; [by exists [], w|]. cbn [il_update_all].
  inversion_clear Hl as [|? ? [Hi Hlb] Hl']. inversion_clear Hr as [|? ? Hrb Hr'].
  destruct (update_spec w b current added removed) as (b' & w1 & -> & Hi' & Hl1 & Hle1 & Hrb'); auto.
  { by rewrite (no_pausing b Hi), Hlb. }
  cbn [res_bind].
  destruct (IH w1) as (l' & w2 & -> & Hlen & Hl2 & Hle2 & Hr2); eauto with searcher.
  { eapply Forall_impl; [exact Hr'|]. intros y Hy. by eapply ready_mono. }
  cbn [res_bind]. exists (b' :: l'), w2. split_and!; [done|cbn; lia| |by transitivity w1|].
  - constructor; [|done]. by rewrite Hl1, Hlb.
  - constructor; [|done]. by eapply ready_mono.
Qed.

(** All the searchers manage the same states; [index] is that of the searcher
    used last, and 1 to begin with. *)
Definition il_inv (s : InterleavedSearcher S) : Prop :=
  exists L, Forall (fun b => inv b /\ live b = L) (il_searchers s) /\
    1 <= il_index s <= Z.of_nat (length (il_searchers s)) /\ Z.of_nat (length (il_searchers s)) < 2 ^ 32.

Definition il_live (s : InterleavedSearcher S) : gset positive :=
  match il_searchers s with b :: _ => live b | [] => ∅ end.

Lemma il_inv_cons (s : InterleavedSearcher S) : il_inv s -> exists b rest, il_searchers s = b :: rest /\ inv b /\
  Forall (fun b => inv b /\ live b = il_live s) (il_searchers s).
Proof.
  intros (L & Hall & Hidx & _). unfold il_live.
  destruct (il_searchers s) as [|b rest]; [cbn in Hidx; lia|].
  exists b, rest. assert (live b = L) as -> by (by inversion_clear Hall; destruct_and!).
  split_and!; [done| |done]. by inversion_clear Hall; destruct_and!.
Qed.

Lemma il_live_all (s : InterleavedSearcher S) L :
  il_searchers s <> [] -> Forall (fun b => inv b /\ live b = L) (il_searchers s) -> il_live s = L.
Proof.
  unfold il_live. destruct (il_searchers s) as [|b rest]; [done|]. intros _ Hall.
  by inversion_clear Hall; destruct_and!.
Qed.

#[export] Instance interleaved_laws : SearcherLaws (InterleavedSearcher S).
Proof.
  refine {|
    inv := il_inv; live := il_live; active := il_live;
    ready w s := Forall (ready w) (il_searchers s) |}.
  - done.
  - done.
  - intros s Hi. destruct (il_inv_cons s Hi) as (b & rest & E & Hb & _).
    unfold il_live. cbn. rewrite E. by apply empty_spec.
  - intros w w' s Hle Hr. eapply Forall_impl; [exact Hr|]. intros b. by apply ready_mono.
  - intros w s Hi Hv Hr Hne. destruct (il_inv_cons s Hi) as (_ & _ & _ & _ & Hall).
    destruct Hi as (L & _ & Hidx & Hlen). cbn. unfold il_selectState.
    rewrite wrap_small by lia.
    destruct (lookup_lt_is_Some_2 (il_searchers s) (Z.to_nat (il_index s - 1))) as [b Hb]; [lia|].
    rewrite Hb. destruct (Forall_lookup_1 _ _ _ _ Hall Hb) as [Hib Hlb].
    pose proof (Forall_lookup_1 _ _ _ _ Hr Hb) as Hrb.
    destruct (select_spec w b) as (x & b' & w' & -> & Hx & Hi' & Hl' & Ha' & Hle & Hrb'); auto; [by rewrite Hlb|].
    cbn [res_bind]. do 3 eexists. split; [done|]. cbn.
    set (l' := <[Z.to_nat (il_index s - 1) := b']> (il_searchers s)).
    assert (length l' = length (il_searchers s)) as Hlen' by apply length_insert.
    assert (Forall (fun b => inv b /\ live b = il_live s) l') as Hall'.
    { apply Forall_insert; [done|]. by rewrite Hl', Hlb. }
    set (idx' := if _ =? 0 then _ else _).
    assert (il_live (Interleaved l' idx') = il_live s) as El.
    { apply il_live_all; [|done]. cbn. intros E. rewrite E in Hlen'. cbn in Hlen'. lia. }
    assert (il_live s = live b) as Elb by done.
    split_and!; auto.
    + rewrite Elb. by apply (active_live b Hib).
    + exists (il_live s). cbn. split; [done|]. rewrite Hlen'. split; [|done].
      subst idx'. case_match; tidy_bools; lia.
    + apply Forall_insert; [|done]. eapply Forall_impl; [exact Hr|]. intros y. by apply ready_mono.
  - intros w s current added removed Hi Hv Hr Hpre. destruct (il_inv_cons s Hi) as (b & rest & E & _ & Hall).
    destruct Hi as (L & _ & Hidx & Hlen). cbn. unfold il_update.
    destruct (il_update_all_ok (il_live s) current added removed (il_searchers s) w)
      as (l' & w' & -> & Hlen' & Hall' & Hle & Hr'); auto.
    cbn [res_bind]. do 2 eexists. split; [done|]. cbn. split_and!; auto.
    + exists (after (il_live s) added removed). cbn. split_and!; [done|lia..].
    + apply il_live_all; [|done]. cbn. intros El. rewrite El in Hlen'. cbn in Hlen'. lia.
Defined.

#[export] Instance interleaved_no_pausing : NoPausing (InterleavedSearcher S).
Proof. by intros ? ?. Qed.

End interleaved_laws.

(** ** IterativeDeepeningTimeSearcher *)

Lemma it_unpause_ok removed : forall paused alt paused' alt',
  it_unpause removed paused alt = (paused', alt') ->
  paused' = paused ∖ list_to_set removed /\
  (forall x, x ∈ alt' <-> x ∈ alt /\ ~ (x ∈ removed /\ x ∈ paused)) /\ (NoDup alt -> NoDup alt').
Proof.
  induction removed as [|es removed IH]; intros paused alt paused' alt' E; cbn [it_unpause] in E.
  - injection E as <- <-. split_and!; [set_solver| |done]. set_solver.
  - case_bool_decide as Hp; apply IH in E as (-> & Hin & Hnd); split_and!.
    + set_solver.
    + intros x. rewrite Hin, list_elem_of_filter. clear Hin Hnd IH.
      destruct (decide (x = es)) as [->|Hne]; set_solver.
    + intros Hn. apply Hnd. by apply NoDup_filter.
    + apply set_eq. intros x. clear Hin Hnd IH. set_solver.
    + intros x. rewrite Hin. clear Hin Hnd IH. set_solver.
    + done.
Qed.

Section iterative_laws.
Context {S : Type} `{SearcherLaws S}.

Record it_inv (s : IterativeDeepeningTimeSearcher S) : Prop := {
  it_base_inv : inv (it_baseSearcher s);
  it_disjoint : it_pausedStates s ## live (it_baseSearcher s);
  it_awake : live (it_baseSearcher s) = ∅ -> it_pausedStates s = ∅;
}.

Definition it_live (s : IterativeDeepeningTimeSearcher S) : gset positive :=
  live (it_baseSearcher s) ∪ it_pausedStates s.

(** The last part of update: the paused states return when the base searcher
    has run out of states. *)
Lemma it_restart_ok w (base : S) paused start time :
  inv base -> valid (theRNG w) -> ready w base -> paused ## live base ->
  exists s' w',
    (if empty base then
       let2* base, w := update w base None (by_address paused) [] in
       Ok (IterDeep base start (time * 2) ∅, w)
     else Ok (IterDeep base start time paused, w)) = Ok (s', w') /\
    it_inv s' /\ it_live s' = live base ∪ paused /\ world_le w w' /\ ready w' (it_baseSearcher s') /\ it_startTime s' = start /\
    (live base = ∅ -> it_pausedStates s' = ∅ /\ it_time s' = time * 2 /\ live (it_baseSearcher s') = paused) /\
    (live base <> ∅ -> it_pausedStates s' = paused /\ it_time s' = time /\ it_baseSearcher s' = base).
Proof.
  intros Hi Hv Hr Hd. destruct (empty base) eqn:E.
  - apply empty_spec in E; [|done]. destruct (by_address_spec paused) as [Hin Hnd].
    destruct (update_spec w base None (by_address paused) []) as (b' & w' & -> & Hi' & Hl' & Hle & Hr');
      [done|done|done| |].
    + constructor; [done|constructor| |set_solver|done]. intros x Hx. set_solver.
    + cbn [res_bind]. do 2 eexists. split; [done|]. unfold it_live. cbn.
      assert (live b' = paused) as El.
      { rewrite Hl'. unfold after. apply set_eq. intros x. specialize (Hin x). rewrite E.
        rewrite elem_of_difference, elem_of_union, !elem_of_list_to_set. set_solver. }
      split_and!; [|rewrite El, E; set_solver|done|done|done|intros _; by split_and!|by intros Hb]. constructor; cbn; [done|set_solver|done].
  - assert (live base <> ∅) as Hne by (intros Hb; apply empty_spec in Hb; [|done]; congruence).
    do 2 eexists. split; [done|]. cbn. split_and!; [|done|done|done|done|by intros Hb|intros _; by split_and!]. by constructor.
Qed.

(** The state that has used its time. *)
Definition it_overdue (current : option positive) (removed : list positive) (late : bool) : gset positive :=
  match current with
  | Some c => if negb (bool_decide (c ∈ removed)) && late then {[c]} else ∅
  | None => ∅
  end.

(** The middle part of update: the current state is paused when it has used
    its time. *)
Lemma it_pause_ok w (base : S) paused current (removed : list positive) (late : bool) :
  inv base -> valid (theRNG w) -> ready w base -> paused ## live base ->
  (forall c, current = Some c -> c ∉ removed -> c ∈ live base) ->
  exists base' w',
    match current with
    | Some c =>
        if negb (bool_decide (c ∈ removed)) && late then
          let2* base, w := removeState w base c None in Ok ({[c]} ∪ paused, base, w)
        else Ok (paused, base, w)
    | None => Ok (paused, base, w)
    end = Ok (it_overdue current removed late ∪ paused, base', w') /\
    inv base' /\ world_le w w' /\ ready w' base' /\ live base' = live base ∖ it_overdue current removed late /\
    it_overdue current removed late ⊆ live base.
Proof.
  intros Hi Hv Hr Hd Hc.
  assert (forall p : gset positive, ∅ ∪ p = p) as Hnone by (intros p; apply (left_id_L ∅ (∪))).
  unfold it_overdue. destruct current as [c|]; [|exists base, w; rewrite Hnone; split_and!; try done; set_solver].
  destruct (_ && _) eqn:E; [|exists base, w; rewrite Hnone; split_and!; try done; set_solver].
  apply andb_true_iff in E as [E _]. apply negb_true_iff, bool_decide_eq_false in E.
  specialize (Hc c eq_refl E). unfold removeState.
  destruct (update_spec w base None [] [c]) as (b' & w' & -> & Hi' & Hl' & Hle & Hr');
    [done|done|done| |].
  - constructor; [constructor|apply NoDup_singleton|set_solver|set_solver|done].
  - cbn [res_bind]. do 2 eexists. split; [done|]. unfold after in Hl'. rewrite Hl'.
    split_and!; [done|done|done|set_solver|set_solver].
Qed.

(** Pausing the states [o] of [b], beside the paused [p]. *)
Lemma it_pause_sets (b o p : gset positive) : p ## b -> o ⊆ b ->
  p ## b ∖ o /\ o ∪ p ## b ∖ o /\ b ∖ o ∪ (o ∪ p) = b ∪ p /\
  (b ∪ p ⊆ o ∪ p -> b ∖ o = ∅ /\ o ∪ p = b ∪ p) /\ (~ b ∪ p ⊆ o ∪ p -> b ∖ o <> ∅ /\ b ∖ o = (b ∪ p) ∖ (o ∪ p)).
Proof.
  intros Hd Ho. assert (b ∖ o ∪ (o ∪ p) = b ∪ p) as E.
  { apply set_eq. intros x. destruct (decide (x ∈ o)); set_solver. }
  assert (b ∖ o = (b ∪ p) ∖ (o ∪ p)) as E2 by set_solver.
  split_and!; [set_solver|set_solver|done| |]; intros Hsub; split; [set_solver|set_solver| |done].
  intros Hn. apply Hsub. rewrite <- E, Hn. set_solver.
Qed.

(** The whole update. *)
Lemma it_update_ok w (s : IterativeDeepeningTimeSearcher S) current added removed :
  it_inv s -> valid (theRNG w) -> ready w (it_baseSearcher s) ->
  update_pre (it_live s) (active (it_baseSearcher s)) current added removed ->
  let total := after (it_live s) added removed in
  let overdue := it_overdue current removed (it_time s <? clock w (ticks w) - it_startTime s) in
  let paused := overdue ∪ it_pausedStates s ∖ list_to_set removed in
  exists s' w', it_update w s current added removed = Ok (s', w') /\
    it_inv s' /\ it_live s' = total /\ world_le w w' /\ ready w' (it_baseSearcher s') /\ it_startTime s' = it_startTime s /\
    (total ⊆ paused -> it_pausedStates s' = ∅ /\ it_time s' = it_time s * 2 /\ live (it_baseSearcher s') = total) /\
    (~ total ⊆ paused -> it_pausedStates s' = paused /\ it_time s' = it_time s /\ live (it_baseSearcher s') = total ∖ paused).
Proof.
  intros [Hi Hd Hw] Hv Hr Hpre. cbn zeta. set (total := after (it_live s) added removed). unfold it_update.
  cbn [getWallTime]. set (w0 := set_ticks _ w). set (late := _ <? _).
  assert (world_le w w0) as Hle0 by apply wall_time_le.
  match goal with |- context [let '(_, _) := ?e in _] => destruct e as [paused alt] eqn:E end.
  assert (paused = it_pausedStates s ∖ list_to_set removed /\
    (forall x, x ∈ alt <-> x ∈ removed /\ x ∉ it_pausedStates s) /\ NoDup alt) as (Hp & Halt & Hnd).
  { case_bool_decide as Hrem; [injection E as <- <-; subst removed; split_and!; [set_solver..|constructor]|].
    apply it_unpause_ok in E as (-> & Hin & Hn). split_and!; [done| |apply Hn, Hpre].
    intros x. rewrite Hin. destruct (decide (x ∈ it_pausedStates s)); tauto. }
  clear E. destruct Hpre as [Hna Hnr Hfr Hman Hcur].
  destruct (update_spec w0 (it_baseSearcher s) current added alt) as (b1 & w1 & -> & Hi1 & Hl1 & Hle1 & Hr1);
    [done|eauto with searcher|by apply (ready_mono w)| |].
  { unfold it_live in *. constructor; [done|done| | |done].
    - intros x Hx. specialize (Hfr x Hx). set_solver.
    - intros x Hx. apply Halt in Hx as [Hx Hx']. specialize (Hman x Hx). set_solver. }
  cbn [res_bind].
  assert (paused ## live b1) as Hd1.
  { rewrite Hl1, Hp. unfold after, it_live in *. intros x Hx Hx'. rewrite elem_of_difference, elem_of_union in Hx'.
    rewrite !elem_of_list_to_set in Hx'. destruct Hx' as [[Hx'|Hx'] _]; [set_solver|].
    specialize (Hfr x Hx'). set_solver. }
  assert (total = live b1 ∪ paused) as EL.
  { subst total. rewrite Hl1, Hp. unfold after, it_live in *. apply set_eq. intros x.
    rewrite !elem_of_union, !elem_of_difference, !elem_of_union, !elem_of_list_to_set, Halt.
    specialize (Hfr x). specialize (Hd x). destruct (decide (x ∈ removed)); set_solver. }
  destruct (it_pause_ok w1 b1 paused current removed late Hi1)
    as (b2 & w2 & -> & Hi2 & Hle2 & Hr2 & Hl2 & Hov); [eauto with searcher|done|done| |].
  { intros c -> Hc. specialize (Hcur c eq_refl). apply (active_live _ Hi) in Hcur.
    rewrite Hl1. unfold after. rewrite elem_of_difference, elem_of_union, !elem_of_list_to_set, Halt. tauto. }
  cbn [res_bind]. rewrite <- Hp. set (overdue := it_overdue _ _ _) in *.
  destruct (it_pause_sets (live b1) overdue paused Hd1 Hov) as (_ & Hd2 & EL2 & Hall & Hsome). rewrite <- Hl2, <- EL in *.
  destruct (it_restart_ok w2 b2 (overdue ∪ paused) (it_startTime s) (it_time s))
    as (s' & w3 & -> & Hi3 & Hl3 & Hle3 & Hr3 & Hs3 & Hre & Hst); [done|eauto with searcher|done|done|].
  do 2 eexists. split; [done|]. split_and!; [done|congruence| |done|done| |].
  - by transitivity w2; [transitivity w1; [transitivity w0|]|].
  - intros [Hb2 Ht]%Hall. destruct (Hre Hb2) as (-> & -> & ->). by split_and!.
  - intros [Hb2 Ht]%Hsome. destruct (Hst Hb2) as (-> & -> & ->). by split_and!.
Qed.

#[export] Instance iterdeep_laws : SearcherLaws (IterativeDeepeningTimeSearcher S).
Proof.
  refine {|
    inv := it_inv; live := it_live; active s := active (it_baseSearcher s);
    ready w s := ready w (it_baseSearcher s) |}.
  - intros s [Hi _ _]. unfold it_live. pose proof (active_live _ Hi). set_solver.
  - intros s [Hi _ Hw] Hne. apply (progress _ Hi). intros E. apply Hne. unfold it_live. rewrite E, (Hw E). set_solver.
  - intros s [Hi _ Hw]. cbn. rewrite andb_true_iff, bool_decide_eq_true. rewrite (empty_spec _ Hi). unfold it_live.
    split; [intros [-> ->]; set_solver|]. intros E. assert (live (it_baseSearcher s) = ∅) by set_solver. auto.
  - intros w w' s. exact (ready_mono w w' _).
  - intros w s [Hi Hd Hw] Hv Hr Hne. cbn. unfold it_selectState.
    destruct (select_spec w (it_baseSearcher s)) as (x & b' & w' & -> & Hx & Hi' & Hl' & Ha' & Hle & Hr'); auto.
    { intros E. apply Hne. unfold it_live. rewrite E, (Hw E). set_solver. }
    cbn [res_bind getWallTime]. do 3 eexists. split; [done|]. unfold it_live. cbn. rewrite Hl'.
    split_and!; auto.
    + constructor; cbn; rewrite ?Hl'; auto.
    + transitivity w'; [done|apply wall_time_le].
    + eapply ready_mono; [apply wall_time_le|done].
  - intros w s current added removed Hi Hv Hr Hpre.
    destruct (it_update_ok w s current added removed Hi Hv Hr Hpre) as (s' & w' & E & H1 & H2 & H3 & H4 & _).
    by exists s', w'.
Defined.

End iterative_laws.

(** ** A searcher of any kind

    [Searcher *]: a value of some type of searchers that satisfies the contract
    and never pauses, what [InterleavedSearcher] requires of its elements. *)
Record AnySearcher : Type := Any {
  any_type : Type;
  any_searcher : Searcher any_type;
  any_laws : SearcherLaws any_type;
  any_no_pausing : NoPausing any_type;
  any_value : any_type;
}.

Definition any_selectState (w : World) (s : AnySearcher) : res (positive * AnySearcher * World) :=
  let3* es, v, w := @selectState _ (any_searcher s) w (any_value s) in
  Ok (es, Any (any_type s) (any_searcher s) (any_laws s) (any_no_pausing s) v, w).

Definition any_update (w : World) (s : AnySearcher) (current : option positive)
    (added removed : list positive) : res (AnySearcher * World) :=
  let2* v, w := @update _ (any_searcher s) w (any_value s) current added removed in
  Ok (Any (any_type s) (any_searcher s) (any_laws s) (any_no_pausing s) v, w).

#[export] Instance any_searcher_instance : Searcher AnySearcher := {|
  selectState := any_selectState;
  update := any_update;
  empty s := @empty _ (any_searcher s) (any_value s);
|}.

#[export] Instance any_laws_instance : SearcherLaws AnySearcher.
Proof.
  refine {|
    inv s := @inv _ _ (any_laws s) (any_value s);
    live s := @live _ _ (any_laws s) (any_value s);
    active s := @active _ _ (any_laws s) (any_value s);
    ready w s := @ready _ _ (any_laws s) w (any_value s) |}.
  - intros [S C Lw NP v]. exact (@active_live _ _ Lw v).
  - intros [S C Lw NP v]. exact (@progress _ _ Lw v).
  - intros [S C Lw NP v]. exact (@empty_spec _ _ Lw v).
  - intros w w' [S C Lw NP v]. exact (@ready_mono _ _ Lw w w' v).
  - intros w [S C Lw NP v]. cbn. intros Hi Hv Hr Hne. unfold any_selectState. cbn.
    destruct (select_spec w v) as (x & v' & w' & E & Hs); auto. cbn in E. rewrite E.
    cbn [res_bind]. by do 3 eexists.
  - intros w [S C Lw NP v] current added removed. cbn. intros Hi Hv Hr Hpre. unfold any_update. cbn.
    destruct (update_spec w v current added removed) as (v' & w' & E & Hs); auto. rewrite E.
    cbn [res_bind]. by do 2 eexists.
Defined.

#[export] Instance any_no_pausing_instance : NoPausing AnySearcher.
Proof. intros [S C Lw NP v] Hi. exact (NP v Hi). Qed.

(** ** The order of the listed states *)

Lemma filter_id (P : positive -> Prop) `{!forall x, Decision (P x)} (l : list positive) :
  (forall x, x ∈ l -> P x) -> filter P l = l.
Proof.
  induction l as [|x l IH]; intros Hl; [done|]. rewrite filter_cons_True by (apply Hl; by left).
  f_equal. apply IH. intros y Hy. apply Hl. by right.
Qed.

Lemma erase_first_filter es l :
  NoDup l -> es ∈ l -> erase_first es l = Some (filter (fun x => x <> es) l).
Proof.
  induction 1 as [|x l Hx Hl IH]; intros Hes; [by apply not_elem_of_nil in Hes|].
  cbn [erase_first]. destruct (decide (es = x)) as [->|Hne].
  - rewrite filter_cons_False by tauto. f_equal. symmetry. apply filter_id.
    intros y Hy ->. done.
  - rewrite IH by set_solver. by rewrite filter_cons_True.
Qed.

Lemma dfs_remove_filter es l :
  NoDup l -> es ∈ l -> dfs_remove es l = Ok (filter (fun x => x <> es) l).
Proof.
  intros Hl Hes. unfold dfs_remove. destruct (last l) as [b|] eqn:E.
  2: { apply last_None in E. subst. by apply not_elem_of_nil in Hes. }
  destruct (decide (es = b)) as [->|].
  - apply last_Some in E as [l' ->]. rewrite removelast_last, filter_app.
    rewrite filter_cons_False, filter_nil, app_nil_r by tauto. f_equal. symmetry.
    apply filter_id. intros y Hy ->. apply NoDup_app in Hl as (_ & Hd & _).
    apply (Hd b Hy). by left.
  - unfold erase_or_fail. by rewrite erase_first_filter.
Qed.

Lemma bfs_remove_filter es l :
  NoDup l -> es ∈ l -> bfs_remove es l = Ok (filter (fun x => x <> es) l).
Proof.
  intros Hl Hes. destruct l as [|f l]; [by apply not_elem_of_nil in Hes|]. cbn [bfs_remove].
  destruct (decide (es = f)) as [->|].
  - pose proof (erase_first_filter f (f :: l) Hl Hes) as E. cbn [erase_first] in E.
    rewrite decide_True in E by done. by injection E as <-.
  - unfold erase_or_fail. by rewrite erase_first_filter.
Qed.

Lemma remove_each_filter remove removed : forall l,
  (forall es l, NoDup l -> es ∈ l -> remove es l = Ok (filter (fun x => x <> es) l)) ->
  NoDup l -> NoDup removed -> (forall x, x ∈ removed -> x ∈ l) ->
  remove_each remove removed l = Ok (filter (fun x => x ∉ removed) l).
Proof.
  induction removed as [|es removed IH]; intros l Hstep Hl Hnd Hin; cbn [remove_each].
  - f_equal. symmetry. apply filter_id. intros x _. apply not_elem_of_nil.
  - inversion_clear Hnd as [|? ? Hes Hnd']. rewrite Hstep by (auto; apply Hin; by left). cbn [res_bind].
    rewrite IH; [|done|by apply NoDup_filter|done|].
    + f_equal. rewrite list_filter_filter. apply list_filter_iff. intros x.
      rewrite elem_of_cons. tauto.
    + intros x Hx. apply list_elem_of_filter. split; [by intros ->|]. apply Hin. by right.
Qed.

Lemma update_pre_nodup (l : list positive) act current added removed :
  NoDup l -> update_pre (list_to_set l) act current added removed ->
  NoDup (l ++ added) /\ NoDup removed /\ (forall x, x ∈ removed -> x ∈ l ++ added).
Proof.
  intros Hl [Ha Hr Hfr Hman _]. split_and!; [|done|].
  - apply NoDup_app. split_and!; [done| |done]. intros x Hx Hx'. apply (Hfr x Hx').
    by apply elem_of_list_to_set.
  - intros x Hx. apply elem_of_app. destruct (Hman x Hx) as [H|]; [left|by right].
    by apply elem_of_list_to_set in H.
Qed.

(** Depth-first and breadth-first order: an update appends the new states
    and drops the removed ones, keeping the order of the others; breadth-first
    search first moves the current state to the back when it forked and was
    not removed. *)
Theorem search_order w l current added removed :
  NoDup l -> update_pre (list_to_set l) (list_to_set l) current added removed ->
  dfs_update w (DFS l) current added removed =
    Ok (DFS (filter (fun x => x ∉ removed) (l ++ added)), w) /\
  bfs_update w (BFS l) current added removed =
    Ok (BFS (filter (fun x => x ∉ removed)
         (match current with
          | Some c => if bool_decide (added = []) || bool_decide (c ∈ removed) then l
                      else filter (fun x => x <> c) l ++ [c]
          | None => l
          end ++ added)), w).
Proof.
  intros Hl Hpre. destruct (update_pre_nodup l _ current added removed Hl Hpre) as (Hnd & Hndr & Hin).
  unfold dfs_update, bfs_update. cbn [dfs_states bfs_states]. split.
  - by rewrite remove_each_filter by (auto using dfs_remove_filter).
  - assert (forall l', l' ≡ₚ l -> remove_each bfs_remove removed (l' ++ added) =
      Ok (filter (fun x => x ∉ removed) (l' ++ added))) as K.
    { intros l' P. apply remove_each_filter; [by apply bfs_remove_filter| |done|].
      - by rewrite P.
      - intros x Hx. rewrite P. auto. }
    destruct current as [c|]; [|cbn [res_bind]; by rewrite K].
    destruct (bool_decide (added = [])) eqn:E1; [cbn [negb andb orb res_bind]; by rewrite K|].
    destruct (bool_decide (c ∈ removed)) eqn:E2; [cbn [negb andb orb res_bind]; by rewrite K|].
    cbn [negb andb orb]. assert (c ∈ l) as Hc.
    { rewrite <- (elem_of_list_to_set (C:=gset positive)). by apply (pre_current _ _ _ _ _ Hpre). }
    unfold erase_or_fail. rewrite erase_first_filter by done. cbn [res_bind]. rewrite K; [done|].
    clear -Hl Hc. induction Hl as [|x l Hx Hl IH]; [by apply not_elem_of_nil in Hc|].
    apply elem_of_cons in Hc as [->|Hc].
    + rewrite filter_cons_False by tauto. rewrite filter_id by (intros y Hy ->; done).
      by rewrite Permutation_app_comm.
    + rewrite filter_cons_True by (intros ->; done). cbn. by rewrite IH.
Qed.

(** ** Interleaving *)

Section round_robin.
Context {S : Type} `{NoPausing S}.

(** Selections, each in the world the executor made of the last one: the states
    selected with the worlds after them, and the searcher at the end. *)
Fixpoint il_selections (ws : list World) (s : InterleavedSearcher S) : res (list (positive * World) * InterleavedSearcher S) :=
  match ws with
  | [] => Ok ([], s)
  | w :: ws' =>
      let3* x, s, w' := il_selectState w s in
      let* p := il_selections ws' s in
      Ok ((x, w') :: fst p, snd p)
  end.

(** The specification: the searchers at the positions [idxs] are asked in turn,
    and each keeps its new state; the others are not touched. *)
Fixpoint consultations (ws : list World) (idxs : list Z) (searchers : list S) : res (list (positive * World) * list S) :=
  match ws, idxs with
  | [], _ => Ok ([], searchers)
  | w :: ws', i :: idxs' =>
      match searchers !! Z.to_nat i with
      | None => AssertFail
      | Some b =>
          let3* x, b', w' := selectState w b in
          let* p := consultations ws' idxs' (<[Z.to_nat i := b']> searchers) in
          Ok ((x, w') :: fst p, snd p)
      end
  | _ :: _, [] => AssertFail
  end.

(** The positions of [m] selections of [n] searchers from an index on. *)
Definition round_robin (n index : Z) (m : nat) : list Z :=
  (fun k => (index - 1 - k) mod n) <$> seqZ 0 (Z.of_nat m).

Lemma round_robin_cons n index m : 1 <= index <= n ->
  round_robin n index (Datatypes.S m) = index - 1 :: round_robin n (if index - 1 =? 0 then n else index - 1) m.
Proof.
  intros Hi. unfold round_robin. rewrite Nat2Z.inj_succ, seqZ_cons by lia. rewrite fmap_cons, Z.pred_succ. f_equal.
  - rewrite Z.mod_small by lia. lia.
  - rewrite <- (fmap_add_seqZ 1 0), <- list_fmap_compose. apply list_fmap_ext. intros j k _. cbn.
    destruct (index - 1 =? 0) eqn:E; tidy_bools.
    + replace (index - 1 - (1 + k)) with (n - 1 - k + (-1) * n) by lia. by rewrite Z.mod_add by lia.
    + f_equal. lia.
Qed.

(** One round is a permutation of the positions. *)
Lemma round_robin_once n index : 0 < n ->
  (forall i, 0 <= i < n -> i ∈ round_robin n index (Z.to_nat n)) /\ NoDup (round_robin n index (Z.to_nat n)).
Proof.
  intros Hn. unfold round_robin. rewrite Z2Nat.id by lia. split.
  - intros i Hi. apply list_elem_of_fmap. exists ((index - 1 - i) mod n). split.
    + rewrite Zminus_mod_idemp_r. replace (index - 1 - (index - 1 - i)) with i by lia. symmetry. by apply Z.mod_small.
    + apply elem_of_seqZ. pose proof (Z.mod_pos_bound (index - 1 - i) n). lia.
  - apply NoDup_fmap_2_strong; [|apply NoDup_seqZ]. intros a b Ha Hb E. apply elem_of_seqZ in Ha, Hb.
    assert ((a - b) mod n = 0) as Hz.
    { replace (a - b) with ((index - 1 - b) - (index - 1 - a)) by lia. rewrite Zminus_mod, E, Z.sub_diag. apply Z.mod_0_l; lia. }
    apply Z.mod_divide in Hz as [q Hq]; [|lia]. assert (q = 0) by nia. subst q. lia.
Qed.

Lemma il_selections_consult ws : forall s,
  1 <= il_index s <= Z.of_nat (length (il_searchers s)) -> Z.of_nat (length (il_searchers s)) < 2 ^ 32 ->
  (let* p := il_selections ws s in Ok (fst p, il_searchers (snd p))) =
    consultations ws (round_robin (Z.of_nat (length (il_searchers s))) (il_index s) (length ws)) (il_searchers s).
Proof.
  induction ws as [|w ws IH]; intros s Hi Hn; [done|]. cbn [length]. rewrite round_robin_cons by done.
  cbn [il_selections consultations]. unfold il_selectState. rewrite wrap_small by lia.
  destruct (il_searchers s !! Z.to_nat (il_index s - 1)) as [b|]; [|done].
  destruct (selectState w b) as [[[x b'] w']| |]; [|done|done]. cbn [res_bind].
  specialize (IH (Interleaved (<[Z.to_nat (il_index s - 1) := b']> (il_searchers s))
    (if il_index s - 1 =? 0 then Z.of_nat (length (il_searchers s)) else il_index s - 1))).
  cbn [il_searchers il_index] in IH. rewrite length_insert in IH. rewrite <- IH by (try done; case_match; tidy_bools; lia).
  by destruct (il_selections ws _).
Qed.

(** C34. Interleaving is round robin: in any worlds, successive selections are
    those of the searchers in decreasing order of position, cyclically - the
    searcher in turn selects the state and changes, the others do not -, fail
    only where that searcher fails, and any [n] consecutive ones consult each
    of the [n] searchers exactly once. *)
Theorem interleaved_round_robin (s : InterleavedSearcher S) :
  il_inv s ->
  let n := Z.of_nat (length (il_searchers s)) in
  (forall ws, (let* p := il_selections ws s in Ok (fst p, il_searchers (snd p))) =
     consultations ws (round_robin n (il_index s) (length ws)) (il_searchers s)) /\
  (forall i, 0 <= i < n -> i ∈ round_robin n (il_index s) (length (il_searchers s))) /\
  NoDup (round_robin n (il_index s) (length (il_searchers s))).
Proof.
  intros (L & _ & Hidx & Hlen) n. split; [intros ws; by apply il_selections_consult|].
  destruct (round_robin_once n (il_index s)) as [Hall Hnd]; [lia|]. subst n. by rewrite Nat2Z.id in Hall, Hnd.
Qed.

End round_robin.

(** ** Batching *)

Section batching_theorems.
Context {S : Type} `{NoPausing S}.

(** Batching: while its state is not removed and neither budget is
    exceeded, the searcher keeps selecting it without consulting the base
    searcher; and once 2^32 instructions have been executed the 32-bit
    [lastStartInstructions] makes every instruction budget exceeded at once,
    even directly after a selection. *)
Theorem batching_budget w (s : BatchingSearcher S) es :
  bt_lastState s = Some es ->
  (0 <= bt_instructionBudget s < 2 ^ 32 -> 0 <= bt_lastStartInstructions s <= instructions w ->
   instructions w < 2 ^ 64 -> 
   instructions w - bt_lastStartInstructions s <= bt_instructionBudget s ->
   (bt_timeBudget s <= 0 \/ clock w (ticks w) - bt_lastStartTime s <= bt_timeBudget s) ->
   exists w', bt_selectState w s = Ok (es, s, w')) /\
  (0 < bt_instructionBudget s < 2 ^ 32 -> 2 ^ 32 <= instructions w < 2 ^ 64 ->
   bt_lastStartInstructions s = wrap 32 (instructions w) ->
   fst (bt_expired w s) = true).
Proof.
  intros Hes. unfold bt_selectState, bt_expired. rewrite Hes. split.
  - intros Hb Hl Hw Hi Ht. rewrite wrap_small by lia.
    replace (bt_instructionBudget s <? _) with false by lia. rewrite andb_false_r.
    destruct (0 <? bt_timeBudget s) eqn:E; tidy_bools; [|eauto]. cbn [getWallTime].
    replace (bt_timeBudget s <? _) with false by lia. cbn [orb]. eauto.
  - intros Hb Hw Hl. assert (bt_instructionBudget s <? wrap 64 (instructions w - bt_lastStartInstructions s) = true) as ->.
    { rewrite Hl. pose proof (wrap_range 32 (instructions w)). unfold wrap in *.
      pose proof (Z.div_mod (instructions w) (2 ^ 32)).
      assert (1 <= instructions w / 2 ^ 32) by (apply Z.div_le_lower_bound; lia).
      rewrite (Z.mod_small (instructions w - _)) by lia. lia. }
    replace (0 <? bt_instructionBudget s) with true by lia. cbn [andb].
    destruct (0 <? bt_timeBudget s); [|done]. cbn. by rewrite orb_true_r.
Qed.

End batching_theorems.

(** ** Iterative deepening *)

Section iterative_theorems.
Context {S : Type} `{SearcherLaws S}.

(** C33. Iterative deepening on time, by the sets of states.  A state that has
    run longer than the budget since it was selected is paused, a paused state
    that is removed is forgotten, and no other state becomes paused or returns:
    while some managed state is not paused, exactly the paused states are kept
    from the base searcher and the budget stays; when none is left - and only
    then - all states return to the base searcher and the budget doubles.  No
    state is lost: the managed states are those of the executor throughout, and
    the time of the selection is kept. *)
Theorem iterative_deepening_pauses w (s : IterativeDeepeningTimeSearcher S) current added removed :
  it_inv s -> valid (theRNG w) -> ready w (it_baseSearcher s) ->
  update_pre (it_live s) (active (it_baseSearcher s)) current added removed ->
  let total := after (it_live s) added removed in
  let overdue := it_overdue current removed (it_time s <? clock w (ticks w) - it_startTime s) in
  let paused := overdue ∪ it_pausedStates s ∖ list_to_set removed in
  exists s' w', it_update w s current added removed = Ok (s', w') /\ it_inv s' /\ it_live s' = total /\ it_startTime s' = it_startTime s /\
    (total ⊆ paused -> it_pausedStates s' = ∅ /\ it_time s' = it_time s * 2 /\ live (it_baseSearcher s') = total) /\
    (~ total ⊆ paused -> it_pausedStates s' = paused /\ it_time s' = it_time s /\ live (it_baseSearcher s') = total ∖ paused).
Proof.
  intros Hi Hv Hr Hpre. destruct (it_update_ok w s current added removed Hi Hv Hr Hpre)
    as (s' & w' & E & H1 & H2 & _ & _ & H5). by exists s', w'.
Qed.

End iterative_theorems.

(** ** Witnesses *)

Definition sample_pre_ok (l added removed : list positive) (c : positive) : bool :=
  bool_decide (NoDup added) && bool_decide (NoDup removed) &&
  forallb (fun x => negb (bool_decide (x ∈ l))) added &&
  forallb (fun x => bool_decide (x ∈ l) || bool_decide (x ∈ added)) removed &&
  bool_decide (c ∈ l).

Lemma sample_pre l added removed c :
  sample_pre_ok l added removed c = true ->
  update_pre (list_to_set l) (list_to_set l) (Some c) added removed.
Proof.
  unfold sample_pre_ok. rewrite !andb_true_iff, !forallb_forall, !bool_decide_eq_true.
  intros ((((H1 & H2) & H3) & H4) & H5). constructor; [done|done| | |].
  - intros x Hx. rewrite elem_of_list_to_set. apply list_elem_of_In in Hx.
    specialize (H3 x Hx). by rewrite negb_true_iff, bool_decide_eq_false in H3.
  - intros x Hx. rewrite elem_of_list_to_set. apply list_elem_of_In in Hx.
    specialize (H4 x Hx). by rewrite orb_true_iff, !bool_decide_eq_true in H4.
  - intros y [= <-]. by apply elem_of_list_to_set.
Qed.

Lemma search_order_witness :
  bfs_update sample_world (BFS [1; 2; 3]%positive) (Some 1%positive) [4%positive] [2%positive] =
  Ok (BFS [3; 1; 4]%positive, sample_world).
Proof.
  destruct (search_order sample_world [1; 2; 3]%positive (Some 1%positive) [4%positive] [2%positive]) as [_ H].
  - apply (bool_decide_unpack _). vm_compute. exact I.
  - apply sample_pre. vm_compute. reflexivity.
  - exact H.
Defined.

Definition sample_interleaved : InterleavedSearcher DFSSearcher :=
  il_new [DFS [1; 2]%positive; DFS [2; 1]%positive].

(* the first searcher, then the second *)
Lemma interleaved_round_robin_witness :
  consultations [sample_world; sample_world] [0; 1] (il_searchers sample_interleaved) =
    Ok ([(2, sample_world); (1, sample_world)]%positive, il_searchers sample_interleaved) /\
  (let* p := il_selections [sample_world; sample_world] sample_interleaved in Ok (fst p, il_searchers (snd p))) =
    consultations [sample_world; sample_world] [0; 1] (il_searchers sample_interleaved).
Proof.
  split; [reflexivity|]. destruct (interleaved_round_robin sample_interleaved) as (E & _ & _).
  - exists (list_to_set [1; 2]%positive). split; [|cbn; lia].
    repeat constructor; try (apply (bool_decide_unpack _); vm_compute; exact I).
  - exact (E [sample_world; sample_world]).
Defined.

Definition sample_batching : BatchingSearcher DFSSearcher :=
  Batching (DFS [1; 2]%positive) 5 100 (Some 1%positive) 0 0.

Lemma batching_budget_witness :
  exists w', bt_selectState sample_world sample_batching = Ok (1%positive, sample_batching, w').
Proof.
  destruct (batching_budget sample_world sample_batching 1%positive eq_refl) as [H _].
  apply H; cbn; try lia.
Defined.

Definition sample_iterdeep : IterativeDeepeningTimeSearcher DFSSearcher :=
  IterDeep (DFS [1; 2]%positive) (-10) 5 ∅.

(* the state 2 has used its time; the state 1 still runs *)
Lemma iterative_deepening_pauses_witness :
  exists s' w', it_update sample_world sample_iterdeep (Some 2%positive) [] [] = Ok (s', w') /\
    it_pausedStates s' = {[2%positive]} /\ live (it_baseSearcher s') = {[1%positive]} /\ it_time s' = 5.
Proof.
  destruct (iterative_deepening_pauses sample_world sample_iterdeep (Some 2%positive) [] []) as (s' & w' & H1 & _ & _ & _ & _ & H2).
  - constructor; [apply (bool_decide_unpack _); vm_compute; exact I|set_solver|done].
  - exact sample_valid.
  - exact I.
  - constructor; [constructor|constructor|set_solver|set_solver|].
    intros c [= <-]. apply (bool_decide_unpack _). vm_compute. exact I.
  - destruct H2 as (H2 & H3 & H4).
    + apply (bool_decide_unpack _). vm_compute. exact I.
    + exists s', w'. split; [exact H1|]. rewrite H2, H3, H4. split_and!; [| |reflexivity]; apply (bool_decide_unpack _); vm_compute; exact I.
Defined.
