(* ===== verification/FeatMaker.v ===== *)
(** FeatMaker's searcher, [AutoFeatureSearcher] of
    klee/lib/Core/Searcher.cpp: it scores a state by the weights of the
    features its path condition contains, and selects a state of maximal
    score.

    [std::regex_replace] with the pattern of eight or more digits is
    [abstractCond]; the [std::map] of scores is a [gmap] iterated in address
    order.  Scores are doubles ([Double.v]). *)
From Stdlib Require Import ZArith Lia Bool Ascii String.
From stdpp Require Import base list numbers option gmap sets sorting strings.
From S2P Require Import Prelude Rng Double SearcherSpec Searchers.
Open Scope Z_scope.

(** ** Text *)

Definition is_digit (c : ascii) : bool :=
  let n := N_of_ascii c in ((48 <=? n) && (n <=? 57))%N.

#[local] Arguments is_digit : simpl never.
#[local] Arguments String.append !_ _ /.

(* the replacement of one maximal run of digits *)
Definition flush_run (run : string) : string :=
  if (8 <=? String.length run)%nat then "LargeValue"%string else run.

(* the scan of regex_replace, with the digits just read in [run] *)
Fixpoint abstract_scan (run line : string) : string :=
  match line with
  | EmptyString => flush_run run
  | String c line' =>
      if is_digit c then abstract_scan (run ++ String c EmptyString) line'
      else flush_run run ++ String c (abstract_scan EmptyString line')
  end.

(* std::regex_replace(line, \d{8,}, "LargeValue") *)
Definition abstractCond (line : string) : string := abstract_scan EmptyString line.

Definition newline : ascii := Ascii.ascii_of_nat 10.

(* the lines getline yields: no line follows a final newline *)
Fixpoint getlines_from (cur text : string) : list string :=
  match text with
  | EmptyString => match cur with EmptyString => [] | _ => [cur] end
  | String c text' =>
      if Ascii.eqb c newline then cur :: getlines_from EmptyString text'
      else getlines_from (cur ++ String c EmptyString) text'
  end.

Definition getlines (text : string) : list string := getlines_from EmptyString text.

(** ** The searcher *)
Record AutoFeatureSearcher : Type := AutoFeature {
  af_states : list positive;
  af_selectedState : option positive;       (* uninitialized at first *)
  af_updateFeatureMap : bool;
  af_feature_map : gmap string Z;
  af_EncounteredFeature : gset Z;           (* the keys set to true *)
  af_weights : list double;
  af_EsWeightMap : gmap positive double;
  af_featureCount : Z;
}.

Definition set_scores (s : AutoFeatureSearcher) (enc : gset Z) (m : gmap positive double)
    (states : list positive) : AutoFeatureSearcher :=
  {| af_states := states; af_selectedState := af_selectedState s;
     af_updateFeatureMap := af_updateFeatureMap s; af_feature_map := af_feature_map s;
     af_EncounteredFeature := enc; af_weights := af_weights s; af_EsWeightMap := m;
     af_featureCount := af_featureCount s |}.

(* the loop of the constructor over the lines of the feature file *)
Fixpoint read_features (lines : list string) (feature_map : gmap string Z) (featureCount : Z)
    : gmap string Z * Z :=
  match lines with
  | [] => (feature_map, featureCount)
  | cond :: lines' =>
      read_features lines' (<[cond := featureCount]> feature_map) (featureCount + 1)
  end.

(* the constructor, on the text of the feature file and the parsed weights *)
Definition af_new (featureFile : string) (weights : list double) : AutoFeatureSearcher :=
  let (feature_map, featureCount) := read_features (getlines featureFile) ∅ 0 in
  {| af_states := []; af_selectedState := None; af_updateFeatureMap := false;
     af_feature_map := feature_map; af_EncounteredFeature := ∅; af_weights := weights;
     af_EsWeightMap := ∅; af_featureCount := featureCount |}.

(* the loop of getWeight over the lines of the printed constraints *)
Fixpoint score_lines (feature_map : gmap string Z) (weights : list double) (lines : list string)
    (weight : double) (enc : gset Z) : res (double * gset Z) :=
  match lines with
  | [] => Ok (weight, enc)
  | l :: lines' =>
      match feature_map !! abstractCond l with
      | None => score_lines feature_map weights lines' weight enc
      | Some i =>
          match (if i <? 0 then None else weights !! Z.to_nat i) with
          | None => AssertFail (* weights[i] out of bounds *)
          | Some wt => score_lines feature_map weights lines' (dadd weight wt) ({[i]} ∪ enc)
          end
      end
  end.

(** The score of a state, and the features encountered. *)
Definition af_score (s : AutoFeatureSearcher) (w : World) (es : positive) (enc : gset Z)
    : res (double * gset Z) :=
  score_lines (af_feature_map s) (af_weights s) (getlines (constraints_text w es)) d_zero enc.

Definition af_getWeight (w : World) (s : AutoFeatureSearcher) (es : positive)
    : res (double * AutoFeatureSearcher * World) :=
  let w := set_updated (updated w ∖ {[es]}) w in
  let2* weight, enc := af_score s w es (af_EncounteredFeature s) in
  Ok (weight, set_scores s enc (af_EsWeightMap s) (af_states s), w).

(* EsWeightMap[es] = getWeight(es) *)
Definition af_rescore (w : World) (s : AutoFeatureSearcher) (es : positive)
    : res (AutoFeatureSearcher * World) :=
  let3* weight, s, w := af_getWeight w s es in
  Ok (set_scores s (af_EncounteredFeature s) (<[es := weight]> (af_EsWeightMap s)) (af_states s), w).

Fixpoint af_add (added : list positive) (w : World) (s : AutoFeatureSearcher)
    : res (AutoFeatureSearcher * World) :=
  match added with
  | [] => Ok (s, w)
  | es :: added' =>
      let2* s, w := af_rescore w s es in
      af_add added' w (set_scores s (af_EncounteredFeature s) (af_EsWeightMap s) (af_states s ++ [es]))
  end.

(* the body of the loop over removedStates *)
Definition af_remove (es : positive) (s : AutoFeatureSearcher) : res AutoFeatureSearcher :=
  let* states := erase_or_fail es (af_states s) in
  Ok (set_scores s (af_EncounteredFeature s) (delete es (af_EsWeightMap s)) states).

Definition set_updateFeatureMap (s : AutoFeatureSearcher) (b : bool) : AutoFeatureSearcher :=
  {| af_states := af_states s; af_selectedState := af_selectedState s;
     af_updateFeatureMap := b; af_feature_map := af_feature_map s;
     af_EncounteredFeature := af_EncounteredFeature s; af_weights := af_weights s;
     af_EsWeightMap := af_EsWeightMap s; af_featureCount := af_featureCount s |}.

Definition set_selected (s : AutoFeatureSearcher) (o : option positive) : AutoFeatureSearcher :=
  {| af_states := af_states s; af_selectedState := o;
     af_updateFeatureMap := af_updateFeatureMap s; af_feature_map := af_feature_map s;
     af_EncounteredFeature := af_EncounteredFeature s; af_weights := af_weights s;
     af_EsWeightMap := af_EsWeightMap s; af_featureCount := af_featureCount s |}.

(* (states.size() * 0.1) >= 1 *)
Definition enough_states (n : nat) : bool := dge (dmul (of_Z (Z.of_nat n)) d_0_1) (of_Z 1).

Definition af_update (w : World) (s : AutoFeatureSearcher) (current : option positive)
    (addedStates removedStates : list positive) : res (AutoFeatureSearcher * World) :=
  let2* s, w :=
    match current with
    | Some c => if bool_decide (c ∈ updated w) then af_rescore w s c else Ok (s, w)
    | None => Ok (s, w)
    end in
  let2* s, w := af_add addedStates w s in
  let* s := remove_each af_remove removedStates s in
  Ok (set_updateFeatureMap s (enough_states (length (af_states s))), w).

(* the order of the keys of a map *)
Definition addr_le (x y : positive * double) : Prop := (x.1 <= y.1)%positive.
#[export] Instance addr_le_dec : RelDecision addr_le.
Proof. intros x y. unfold addr_le. apply _. Defined.

(** The entries of the map of scores, in address order. *)
Definition entries (m : gmap positive double) : list (positive * double) :=
  merge_sort addr_le (map_to_list m).

(* the loop of selectState *)
Fixpoint top_loop (l : list (positive * double)) (selected : option positive) (topScore : double)
    : option positive * double :=
  match l with
  | [] => (selected, topScore)
  | (es, score) :: l' =>
      if dlt topScore score then top_loop l' (Some es) score else top_loop l' selected topScore
  end.

(* double topScore = -100000000 *)
Definition top_sentinel : double := of_Z (-100000000).

Definition af_selectState (w : World) (s : AutoFeatureSearcher)
    : res (positive * AutoFeatureSearcher * World) :=
  if bool_decide (af_EsWeightMap s = ∅) || negb (af_updateFeatureMap s) then
    let2* es, w := choose_random w (af_states s) in
    Ok (es, set_selected s (Some es), w)
  else
    let sel := fst (top_loop (entries (af_EsWeightMap s)) (af_selectedState s) top_sentinel) in
    match sel with
    | Some es => Ok (es, set_selected s sel, w)
    | None => AssertFail (* *selectedState, never initialized *)
    end.

#[export] Instance af_searcher : Searcher AutoFeatureSearcher := {|
  selectState := af_selectState;
  update := af_update;
  empty s := bool_decide (af_states s = []);
|}.

Example abstract_example :
  abstractCond "(Eq 123456789 (w32 1234567))" = "(Eq LargeValue (w32 1234567))"%string.
Proof. reflexivity. Qed.

Example enough_9_10 : enough_states 9 = false /\ enough_states 10 = true.
Proof. split; vm_compute; reflexivity. Qed.

(** * Lemmas *)

(** ** Abstraction of constants *)

Fixpoint longest_digits (best run : nat) (s : string) : nat :=
  match s with
  | EmptyString => Nat.max best run
  | String c s' => if is_digit c then longest_digits best (S run) s'
                   else longest_digits (Nat.max best run) 0 s'
  end.

Fixpoint all_digits (s : string) : bool :=
  match s with EmptyString => true | String c s' => is_digit c && all_digits s' end.

Lemma longest_digits_mono b b' run s :
  (b <= b')%nat -> (longest_digits b run s <= longest_digits b' run s)%nat.
Proof.
  revert b b' run. induction s as [|c s IH]; intros b b' run Hb; cbn; [lia|].
  destruct (is_digit c); apply IH; lia.
Qed.

Lemma longest_digits_run b run s c t :
  all_digits s = true -> is_digit c = false ->
  longest_digits b run (s ++ String c t) = longest_digits (Nat.max b (run + String.length s)) 0 t.
Proof.
  revert b run. induction s as [|d s IH]; intros b run Hs Hc; cbn in *.
  - rewrite Hc. f_equal. lia.
  - apply andb_true_iff in Hs as [-> Hs]. rewrite IH by done. f_equal. lia.
Qed.

Lemma longest_digits_all b run s :
  all_digits s = true -> longest_digits b run s = Nat.max b (run + String.length s).
Proof.
  revert b run. induction s as [|d s IH]; intros b run Hs; cbn in *; [lia|].
  apply andb_true_iff in Hs as [-> Hs]. rewrite IH by done. lia.
Qed.

Lemma longest_digits_max b s : longest_digits b 0 s = Nat.max b (longest_digits 0 0 s).
Proof.
  assert (forall s b run, longest_digits b run s = Nat.max b (longest_digits 0 run s)) as H.
  { clear. induction s as [|c s IH]; intros b run; cbn; [lia|]. destruct (is_digit c); [apply IH|].
    rewrite (IH (Nat.max b run)), (IH (Nat.max 0 run)). lia. }
  apply H.
Qed.

Lemma all_digits_snoc s c : all_digits s = true -> is_digit c = true ->
  all_digits (s ++ String c EmptyString) = true.
Proof.
  induction s as [|d s IH]; cbn; intros Hs Hc; [by rewrite Hc|].
  apply andb_true_iff in Hs as [-> Hs]. by apply IH.
Qed.

Lemma abstract_scan_short line : forall run,
  all_digits run = true -> (longest_digits 0 0 (abstract_scan run line) < 8)%nat.
Proof.
  induction line as [|c line IH]; intros run Hr; cbn [abstract_scan]; unfold flush_run.
  - destruct (8 <=? String.length run)%nat eqn:E; [vm_compute; lia|].
    apply Nat.leb_gt in E. rewrite longest_digits_all by done. lia.
  - destruct (is_digit c) eqn:Hc; [by apply IH, all_digits_snoc|].
    specialize (IH EmptyString eq_refl).
    destruct (8 <=? String.length run)%nat eqn:E.
    + cbn. rewrite Hc. exact IH.
    + apply Nat.leb_gt in E. rewrite longest_digits_run by done. rewrite longest_digits_max. lia.
Qed.

Lemma string_app_assoc (s t u : string) : ((s ++ t) ++ u = s ++ (t ++ u))%string.
Proof. induction s as [|c s IH]; cbn; [done|]. by rewrite IH. Qed.

Lemma string_app_nil (s : string) : (s ++ "" = s)%string.
Proof. induction s as [|c s IH]; cbn; [done|]. by rewrite IH. Qed.

Lemma string_length_snoc s c : String.length (s ++ String c EmptyString) = S (String.length s).
Proof. induction s as [|d s IH]; cbn; [done|]. by rewrite IH. Qed.

Lemma longest_digits_ge b run s : (Nat.max b run <= longest_digits b run s)%nat.
Proof.
  revert b run. induction s as [|c s IH]; intros b run; cbn; [lia|].
  destruct (is_digit c); [specialize (IH b (S run))|specialize (IH (Nat.max b run) 0%nat)]; lia.
Qed.

Lemma abstract_scan_id line : forall run,
  (longest_digits 0 (String.length run) line < 8)%nat -> abstract_scan run line = (run ++ line)%string.
Proof.
  induction line as [|c line IH]; intros run Hs; cbn [abstract_scan]; unfold flush_run.
  - cbn in Hs. replace (8 <=? String.length run)%nat with false; [|symmetry; apply Nat.leb_gt; lia].
    by rewrite string_app_nil.
  - cbn in Hs. destruct (is_digit c) eqn:Hc.
    + rewrite IH by (by rewrite string_length_snoc). by rewrite string_app_assoc.
    + pose proof (longest_digits_ge (String.length run) 0 line).
      replace (8 <=? String.length run)%nat with false; [|symmetry; apply Nat.leb_gt; lia].
      rewrite longest_digits_max in Hs. rewrite IH by (cbn; lia). done.
Qed.

(** ** Selection *)

Lemma dlt_trans x y z : dlt x y = true -> dlt y z = true -> dlt x z = true.
Proof.
  intros H1 H2. destruct (dlt_not_nan x y H1) as [Hx Hy]. destruct (dlt_not_nan y z H2) as [_ Hz].
  apply (dlt_place x y Hx Hy) in H1. apply (dlt_place y z Hy Hz) in H2.
  apply (dlt_place x z Hx Hz). unfold place_lt in *. lia.
Qed.

(** The loop keeps the first entry of maximal score above [top]. *)
Lemma top_loop_ok l : forall sel top,
  (top_loop l sel top = (sel, top) /\ forall x v, (x, v) ∈ l -> dlt top v = false) \/
  exists l1 x v l2, l = l1 ++ (x, v) :: l2 /\ top_loop l sel top = (Some x, v) /\
    dlt top v = true /\ (forall y u, (y, u) ∈ l -> dlt v u = false) /\
    (forall y u, (y, u) ∈ l1 -> is_nan_d u = false -> dlt u v = true).
Proof.
  induction l as [|[es score] l IH]; intros sel top; cbn [top_loop].
  { left. split; [done|]. intros x v Hx. by apply not_elem_of_nil in Hx. }
  destruct (dlt top score) eqn:E.
  - right. destruct (IH (Some es) score) as [[-> Hnone]|(l1 & x & v & l2 & -> & -> & Hv & Hmax & Hbef)].
    + exists [], es, score, l. split_and!; [done|done|done| |].
      * intros y u Hy. apply elem_of_cons in Hy as [[= -> ->]|Hy]; [apply dlt_irrefl|by eapply Hnone].
      * intros y u Hy. by apply not_elem_of_nil in Hy.
    + exists ((es, score) :: l1), x, v, l2. split_and!; [done|done|by eapply dlt_trans| |].
      * intros y u Hy. apply elem_of_cons in Hy as [[= -> ->]|Hy]; [|by eapply Hmax].
        apply (dlt_above score v score Hv (dlt_irrefl score)).
      * intros y u Hy Hn. apply elem_of_cons in Hy as [[= -> ->]|Hy]; [done|by eapply Hbef].
  - destruct (IH sel top) as [[-> Hnone]|(l1 & x & v & l2 & -> & -> & Hv & Hmax & Hbef)].
    + left. split; [done|]. intros y u Hy. apply elem_of_cons in Hy as [[= -> ->]|Hy]; [done|by eapply Hnone].
    + right. exists ((es, score) :: l1), x, v, l2. split_and!; [done|done|done| |].
      * intros y u Hy. apply elem_of_cons in Hy as [[= -> ->]|Hy]; [|by eapply Hmax].
        by apply (dlt_above top v score).
      * intros y u Hy Hn. apply elem_of_cons in Hy as [[= -> ->]|Hy]; [by apply (dlt_above top v score)|by eapply Hbef].
Qed.

Lemma entries_spec m x v : (x, v) ∈ entries m <-> m !! x = Some v.
Proof. unfold entries. by rewrite merge_sort_Permutation, elem_of_map_to_list. Qed.

#[local] Instance addr_le_trans : Transitive addr_le.
Proof. intros x y z. unfold addr_le. lia. Qed.
#[local] Instance addr_le_total : Total addr_le.
Proof. intros x y. unfold addr_le. lia. Qed.

Lemma entries_sorted m l1 x v l2 y u :
  entries m = l1 ++ (x, v) :: l2 -> (y, u) ∈ entries m -> (y < x)%positive -> (y, u) ∈ l1.
Proof.
  intros E Hy Hlt. pose proof (StronglySorted_merge_sort addr_le (map_to_list m)) as Hs.
  fold (entries m) in Hs. rewrite E in Hs, Hy. apply elem_of_app in Hy as [Hy|Hy]; [done|].
  apply elem_of_cons in Hy as [[= -> ->]|Hy]; [lia|].
  apply StronglySorted_app_1_r in Hs. apply StronglySorted_inv in Hs as [_ Hf].
  rewrite Forall_forall in Hf. specialize (Hf _ Hy). unfold addr_le in Hf. cbn in Hf. lia.
Qed.

(** ** The contract *)

(** Every feature has a weight. *)
Definition features_ok (s : AutoFeatureSearcher) : Prop :=
  map_Forall (fun _ i => 0 <= i < Z.of_nat (length (af_weights s))) (af_feature_map s).

Record af_inv (s : AutoFeatureSearcher) : Prop := {
  af_nodup : NoDup (af_states s);
  af_scored : dom (af_EsWeightMap s) = list_to_set (af_states s);
  af_features : features_ok s;
  af_above : map_Forall (fun _ v => dlt top_sentinel v = true) (af_EsWeightMap s);
  af_nonempty : af_updateFeatureMap s = true -> af_states s <> [];
}.

(** Scores are above the sentinel the selection loop starts from. *)
Definition af_ready (w : World) (s : AutoFeatureSearcher) : Prop :=
  forall es enc v enc', af_score s w es enc = Ok (v, enc') -> dlt top_sentinel v = true.

(** The searchers with the configuration (features and weights) of [s]. *)
Definition same_config (s s' : AutoFeatureSearcher) : Prop :=
  af_feature_map s' = af_feature_map s /\ af_weights s' = af_weights s.

Lemma score_lines_ok fm ws lines : forall weight enc,
  map_Forall (fun _ i => 0 <= i < Z.of_nat (length ws)) fm ->
  exists v enc', score_lines fm ws lines weight enc = Ok (v, enc').
Proof.
  induction lines as [|l lines IH]; intros weight enc Hf; cbn [score_lines]; [eauto|].
  destruct (fm !! abstractCond l) as [i|] eqn:E; [|by apply IH].
  pose proof (Hf _ _ E) as Hi. cbn in Hi. replace (i <? 0) with false by lia.
  destruct (lookup_lt_is_Some_2 ws (Z.to_nat i)) as [x ->]; [lia|]. by apply IH.
Qed.

(** The parts of the invariant the loops of update keep; the states [X] are
    scored but not in the list yet. *)
Record af_loop_inv (X : gset positive) (s : AutoFeatureSearcher) : Prop := {
  lp_nodup : NoDup (af_states s);
  lp_scored : dom (af_EsWeightMap s) = list_to_set (af_states s) ∪ X;
  lp_features : features_ok s;
  lp_above : map_Forall (fun _ v => dlt top_sentinel v = true) (af_EsWeightMap s);
}.

Lemma af_ready_config w w' s s' :
  same_config s s' -> constraints_text w' = constraints_text w -> af_ready w s -> af_ready w' s'.
Proof.
  intros [Hf Hw] Ht Hr es enc v enc' E. apply (Hr es enc v enc').
  unfold af_score in *. by rewrite <- Hf, <- Hw, <- Ht.
Qed.

Lemma af_rescore_ok w s es X :
  af_loop_inv X s -> af_ready w s ->
  exists s' w', af_rescore w s es = Ok (s', w') /\ world_le w w' /\ same_config s s' /\
    af_states s' = af_states s /\ af_loop_inv ({[es]} ∪ X) s'.
Proof.
  intros [Hnd Hd Hf Ha] Hr. unfold af_rescore, af_getWeight.
  set (w0 := set_updated _ w).
  destruct (score_lines_ok (af_feature_map s) (af_weights s) (getlines (constraints_text w0 es)) d_zero
    (af_EncounteredFeature s) Hf) as (v & enc & E).
  unfold af_score. rewrite E. cbn [res_bind]. do 2 eexists. split; [done|].
  split; [by constructor|]. split; [done|]. split; [done|]. constructor; cbn; [done| |done|].
  - rewrite dom_insert_L, Hd. set_solver.
  - apply map_Forall_insert_2; [|done]. by apply (Hr es (af_EncounteredFeature s) v enc).
Qed.

Lemma af_add_ok added : forall w s,
  af_loop_inv ∅ s -> af_ready w s -> NoDup added -> (forall x, x ∈ added -> x ∉ af_states s) ->
  exists s' w', af_add added w s = Ok (s', w') /\ world_le w w' /\ same_config s s' /\
    af_states s' = af_states s ++ added /\ af_loop_inv ∅ s'.
Proof.
  induction added as [|es added IH]; intros w s Hi Hr Hnd Hfr; cbn [af_add].
  { exists s, w. rewrite app_nil_r. by split_and!. }
  inversion_clear Hnd as [|? ? Hes Hnd'].
  destruct (af_rescore_ok w s es ∅ Hi Hr) as (s1 & w1 & -> & Hle1 & Hc1 & Hst1 & [Hn1 Hd1 Hf1 Ha1]).
  cbn [res_bind].
  match goal with |- context [af_add added w1 ?t] => set (s2 := t) end.
  assert (same_config s s2) as Hc2 by done.
  destruct (IH w1 s2) as (s3 & w3 & -> & Hle3 & Hc3 & Hst3 & Hi3).
  - constructor; cbn.
    + apply NoDup_app. split_and!; [done| |apply NoDup_singleton]. rewrite Hst1.
      intros x Hx Hx'. apply list_elem_of_singleton in Hx' as ->. apply (Hfr es); [by left|done].
    + rewrite Hd1, list_to_set_app_L. set_solver.
    + done.
    + done.
  - apply (af_ready_config w w1 s); [done|by apply (le_text _ _ Hle1)|done].
  - done.
  - intros x Hx. cbn. rewrite Hst1, elem_of_app, list_elem_of_singleton.
    intros [Hx'| ->]; [|done]. apply (Hfr x); [by right|done].
  - exists s3, w3. split_and!; [done|by transitivity w1| | |done].
    + destruct Hc2, Hc3. split; congruence.
    + rewrite Hst3. cbn. by rewrite Hst1, <- app_assoc.
Qed.

Lemma af_remove_ok es s :
  af_loop_inv ∅ s -> es ∈ af_states s ->
  exists s', af_remove es s = Ok s' /\ af_loop_inv ∅ s' /\ same_config s s' /\
    forall x, x ∈ af_states s' <-> x ∈ af_states s /\ x <> es.
Proof.
  intros [Hnd Hd Hf Ha] Hes. unfold af_remove.
  destruct (erase_or_fail_ok es (af_states s) Hnd Hes) as (l & -> & Hl & Hin). cbn [res_bind].
  eexists. split; [done|]. split; [|done]. constructor; cbn; [done| |done|].
  - rewrite dom_delete_L, Hd. apply set_eq. intros x.
    rewrite elem_of_difference, !elem_of_union, !elem_of_list_to_set, Hin. set_solver.
  - by apply map_Forall_delete.
Qed.

#[export] Instance af_laws : SearcherLaws AutoFeatureSearcher.
Proof.
  refine {| inv := af_inv; live s := list_to_set (af_states s); active s := list_to_set (af_states s);
            ready := af_ready |}.
  - done.
  - done.
  - intros s _. cbn. by rewrite bool_decide_eq_true, list_to_set_empty.
  - intros w w' s Hle. apply af_ready_config; [done|by apply (le_text _ _ Hle)].
  - intros w s [Hnd Hd Hf Ha Hne] Hv Hr Hl. cbn. unfold af_selectState.
    assert (af_states s <> []) as Hs by (by rewrite <- list_to_set_empty).
    destruct (bool_decide (af_EsWeightMap s = ∅) || negb (af_updateFeatureMap s)) eqn:E.
    + destruct (choose_random_ok w (af_states s) Hv Hs) as (x & w' & -> & Hx & Hle). cbn [res_bind].
      do 3 eexists. split; [done|]. split_and!; try done.
      * by apply elem_of_list_to_set.
      * by apply (af_ready_config w w' s); [|apply (le_text _ _ Hle)|].
    + apply orb_false_iff in E as [E _]. apply bool_decide_eq_false in E.
      destruct (top_loop_ok (entries (af_EsWeightMap s)) (af_selectedState s) top_sentinel)
        as [[-> Hnone]|(l1 & x & v & l2 & El & -> & Hv' & _)].
      * exfalso. destruct (map_choose _ E) as (x & v & Hx). specialize (Ha x v Hx).
        change (dlt top_sentinel v = true) in Ha.
        rewrite (Hnone x v) in Ha; [done|]. by apply entries_spec.
      * cbn [fst]. do 3 eexists. split; [done|]. split_and!; try done.
        rewrite <- Hd. apply elem_of_dom. exists v. apply entries_spec. rewrite El. set_solver.
  - intros w s current added removed [Hnd Hd Hf Ha Hne] Hv Hr [Hna Hnr Hfr Hman Hcur]. cbn. unfold af_update.
    assert (af_loop_inv ∅ s) as Hi by (constructor; [done|set_solver|done|done]).
    match goal with |- context [res_bind ?m (fun '(s, w) => res_bind (af_add _ _ _) _)] =>
      assert (exists s1 w1, m = Ok (s1, w1) /\ world_le w w1 /\ same_config s s1 /\
        af_states s1 = af_states s /\ af_loop_inv ∅ s1) as (s1 & w1 & -> & Hle1 & Hc1 & Hst1 & Hi1)
    end.
    { destruct current as [c|]; [|by exists s, w]. case_bool_decide; [|by exists s, w].
      destruct (af_rescore_ok w s c ∅ Hi Hr) as (s1 & w1 & -> & Hle1 & Hc1 & Hst1 & [Hn1 Hd1 Hf1 Ha1]).
      exists s1, w1. split_and!; [done..|]. constructor; [done| |done|done].
      rewrite Hd1, Hst1. specialize (Hcur c eq_refl). set_solver. }
    cbn [res_bind].
    destruct (af_add_ok added w1 s1) as (s2 & w2 & -> & Hle2 & Hc2 & Hst2 & Hi2); [done| |done| |].
    { apply (af_ready_config w w1 s); [done|by apply (le_text _ _ Hle1)|done]. }
    { intros x Hx Hx'. rewrite Hst1 in Hx'. apply (Hfr x Hx). by apply elem_of_list_to_set. }
    cbn [res_bind].
    destruct (remove_each_ok af_remove (fun s' => af_loop_inv ∅ s' /\ same_config s s') af_states removed s2)
      as (s3 & -> & [[Hn3 Hd3 Hf3 Ha3] Hc3] & Hin3).
    + intros es s' [Hi' Hc'] Hes. destruct (af_remove_ok es s' Hi' Hes) as (s4 & E & Hi4 & Hc4 & Hin4).
      exists s4. split_and!; [done|done| |done]. destruct Hc', Hc4. split; congruence.
    + split; [done|]. destruct Hc1, Hc2. split; congruence.
    + done.
    + intros x Hx. rewrite Hst2, Hst1, elem_of_app. destruct (Hman x Hx) as [Hx'|Hx']; [|by right].
      left. by apply elem_of_list_to_set in Hx'.
    + cbn [res_bind]. do 2 eexists. split; [done|]. cbn.
      assert (list_to_set (af_states s3) = after (list_to_set (af_states s)) added removed) as El.
      { apply after_spec. intros x. by rewrite Hin3, Hst2, Hst1, elem_of_app, elem_of_list_to_set. }
      split_and!; [|done|by transitivity w1|].
      * constructor; cbn; [done|set_solver|done|done|].
        intros Hen E. rewrite E in Hen. by vm_compute in Hen.
      * apply (af_ready_config w w2 s); [done| |done].
        rewrite (le_text _ _ Hle2). by apply (le_text _ _ Hle1).
Defined.

#[export] Instance af_no_pausing : NoPausing AutoFeatureSearcher.
Proof. by intros ? ?. Qed.

Lemma read_features_ok lines : forall fm n,
  0 <= n -> map_Forall (fun _ i => 0 <= i < n) fm ->
  let '(fm', n') := read_features lines fm n in
  n' = n + Z.of_nat (length lines) /\ map_Forall (fun _ i => 0 <= i < n') fm'.
Proof.
  induction lines as [|l lines IH]; intros fm n Hn Hf; cbn [read_features].
  { split; [cbn; lia|done]. }
  specialize (IH (<[l := n]> fm) (n + 1)). destruct (read_features lines _ _) as [fm' n'].
  destruct IH as [-> Hf']; [lia| |split; [cbn; lia|done]].
  apply map_Forall_insert_2; [lia|]. intros x i Hx. specialize (Hf x i Hx). cbn in Hf |- *. lia.
Qed.

Lemma af_new_ok featureFile weights :
  (length (getlines featureFile) <= length weights)%nat ->
  af_inv (af_new featureFile weights).
Proof.
  intros Hlen. unfold af_new. pose proof (read_features_ok (getlines featureFile) ∅ 0) as H.
  destruct (read_features _ ∅ 0) as [fm n]. destruct H as [-> Hf]; [lia|apply map_Forall_empty|].
  constructor; cbn; [constructor|set_solver| |apply map_Forall_empty|done].
  intros x i Hx. specialize (Hf x i Hx). cbn in *. lia.
Qed.

(** ** Theorems *)

(** C6. FeatMaker's selection: once it has enough scored states, the searcher
    returns, without failing, a managed state whose score is maximal, the one
    at the lowest address among those; scores are compared as IEEE doubles. *)
Theorem feature_selection_is_argmax w s :
  af_inv s -> af_updateFeatureMap s = true ->
  exists x v s', af_selectState w s = Ok (x, s', w) /\ x ∈ af_states s /\
    af_EsWeightMap s !! x = Some v /\ af_EsWeightMap s' = af_EsWeightMap s /\
    (forall y u, af_EsWeightMap s !! y = Some u -> dlt v u = false) /\
    (forall y u, af_EsWeightMap s !! y = Some u -> (y < x)%positive -> is_nan_d u = false ->
       dlt u v = true).
Proof.
  intros [Hnd Hd Hf Ha Hne] Hu. specialize (Hne Hu). unfold af_selectState. rewrite Hu, orb_false_r.
  assert (af_EsWeightMap s <> ∅) as Hm.
  { intros E. rewrite E, dom_empty_L in Hd. symmetry in Hd. by apply list_to_set_empty in Hd. }
  rewrite bool_decide_eq_false_2 by done.
  destruct (top_loop_ok (entries (af_EsWeightMap s)) (af_selectedState s) top_sentinel)
    as [[-> Hnone]|(l1 & x & v & l2 & El & -> & Hv' & Hmax & Hbef)].
  - exfalso. destruct (map_choose _ Hm) as (x & v & Hx). specialize (Ha x v Hx).
    change (dlt top_sentinel v = true) in Ha. rewrite (Hnone x v) in Ha; [done|]. by apply entries_spec.
  - cbn [fst]. assert (af_EsWeightMap s !! x = Some v) as Hx.
    { apply entries_spec. rewrite El. set_solver. }
    exists x, v. eexists. split_and!; [done| |done|done| |].
    + rewrite <- (elem_of_list_to_set (C:=gset positive)), <- Hd. by eapply elem_of_dom_2.
    + intros y u Hy. apply (Hmax y u). by apply entries_spec.
    + intros y u Hy Hlt Hn. apply (Hbef y u); [|done].
      eapply entries_sorted; [exact El| |exact Hlt]. by apply entries_spec.
Qed.

(** C7. The contract of FeatMaker's searcher from its construction on: built
    from a weight file with a weight for each line of the feature file, it
    satisfies the invariant, and every legal update keeps it, manages exactly
    the states of the executor and keeps a score for each of them. *)
Theorem feature_searcher_contract featureFile weights w s current added removed :
  (length (getlines featureFile) <= length weights)%nat ->
  valid (theRNG w) -> af_inv s -> af_ready w s ->
  update_pre (list_to_set (af_states s)) (list_to_set (af_states s)) current added removed ->
  af_inv (af_new featureFile weights) /\
  exists s' w', af_update w s current added removed = Ok (s', w') /\ af_inv s' /\
    list_to_set (af_states s') = after (list_to_set (af_states s)) added removed /\
    dom (af_EsWeightMap s') = after (list_to_set (af_states s)) added removed.
Proof.
  intros Hlen Hv Hi Hr Hpre. split; [by apply af_new_ok|].
  destruct (@update_spec _ _ af_laws w s current added removed Hi Hv Hr Hpre) as (s' & w' & E & Hi' & Hl' & _).
  exists s', w'. split_and!; [done|done|done|]. by rewrite (af_scored _ Hi').
Qed.

(** [abstractCond] leaves no run of eight digits in a condition, and
    abstracting an abstracted condition changes nothing. *)
Theorem abstractCond_normal line :
  (longest_digits 0 0 (abstractCond line) < 8)%nat /\
  abstractCond (abstractCond line) = abstractCond line.
Proof.
  assert (longest_digits 0 0 (abstractCond line) < 8)%nat as H by (by apply abstract_scan_short).
  split; [done|]. by apply abstract_scan_id.
Qed.

(** A stale selection: when every score is at or below the sentinel, the
    selected state is the one of an earlier call, even when it was removed. *)
Example stale_selection :
  let s := {| af_states := [2%positive]; af_selectedState := Some 1%positive;
              af_updateFeatureMap := true; af_feature_map := ∅; af_EncounteredFeature := ∅;
              af_weights := []; af_EsWeightMap := {[2%positive := top_sentinel]};
              af_featureCount := 0 |} in
  forall w, exists s', af_selectState w s = Ok (1%positive, s', w).
Proof. intros s w. eexists. vm_compute. reflexivity. Qed.

(** ** Witnesses *)
Definition sample_featmaker : AutoFeatureSearcher :=
  {| af_states := [3; 1; 2]%positive; af_selectedState := None; af_updateFeatureMap := true;
     af_feature_map := ∅; af_EncounteredFeature := ∅; af_weights := [];
     af_EsWeightMap := {[3%positive := of_Z 7; 1%positive := of_Z 5; 2%positive := of_Z 7]};
     af_featureCount := 0 |}.

Lemma sample_featmaker_inv : af_inv sample_featmaker.
Proof.
  constructor.
  - apply (bool_decide_unpack _). vm_compute. exact I.
  - apply (bool_decide_unpack _). vm_compute. exact I.
  - apply map_Forall_empty.
  - apply (bool_decide_unpack _). vm_compute. exact I.
  - discriminate.
Qed.

Lemma feature_selection_is_argmax_witness :
  exists x v s', af_selectState sample_world sample_featmaker = Ok (x, s', sample_world) /\
    af_EsWeightMap sample_featmaker !! x = Some v /\ dlt v (of_Z 7) = false.
Proof.
  destruct (feature_selection_is_argmax sample_world sample_featmaker sample_featmaker_inv eq_refl)
    as (x & v & s' & H1 & _ & H2 & _ & H3 & _).
  exists x, v, s'. split; [exact H1|]. split; [exact H2|].
  apply (H3 3%positive (of_Z 7)). vm_compute. reflexivity.
Defined.

Lemma feature_searcher_contract_witness :
  exists s' w', af_update sample_world sample_featmaker (Some 3%positive) [4%positive] [1%positive] = Ok (s', w') /\
    dom (af_EsWeightMap s') = after (list_to_set [3; 1; 2]%positive) [4%positive] [1%positive].
Proof.
  destruct (feature_searcher_contract "a" [of_Z 1] sample_world sample_featmaker (Some 3%positive)
    [4%positive] [1%positive]) as (_ & s' & w' & H1 & _ & _ & H2).
  - vm_compute. lia.
  - exact sample_valid.
  - exact sample_featmaker_inv.
  - intros es enc v enc' H. vm_compute in H. injection H as <- <-. vm_compute. reflexivity.
  - constructor; try (apply (bool_decide_unpack _); vm_compute; exact I).
    + intros x Hx. apply list_elem_of_singleton in Hx as ->. apply (bool_decide_unpack _). vm_compute. exact I.
    + intros x Hx. apply list_elem_of_singleton in Hx as ->. left. apply (bool_decide_unpack _). vm_compute. exact I.
    + intros c [= <-]. apply (bool_decide_unpack _). vm_compute. exact I.
  - exists s', w'. split; [exact H1|exact H2].
Defined.
