(* ===== verification/ImmutableTree.v ===== *)
(** The persistent balanced trees of
    klee/include/klee/Internal/ADT/ImmutableTree.h, and the maps and sets built
    on them (ImmutableMap.h, ImmutableSet.h).

    - [Node::terminator] is [Terminator]; the other nodes keep their cached
      [height].  Nodes are never modified once built, so a node is a value;
      reference counts and the [allocated] statistics are left out.
    - Reading the value of the terminator, or overflowing the fixed stack of an
      iterator, is [AssertFail]: the theorems show that neither happens.
    - A search tree has no two nodes with equivalent keys: comparing two of its
      nodes by address is comparing their keys ([node_eqb]). *)
From Stdlib Require Import ZArith Lia Bool Sorting.Sorted.
From stdpp Require Import base list numbers option sorting sets.
From S2P Require Import Prelude.
Open Scope Z_scope.

Section tree.
Context {K V : Type} (KOV : V -> K) (CMP : K -> K -> bool).

Inductive tree : Type :=
| Terminator
| Node (left : tree) (value : V) (right : tree) (height : Z).

Definition isTerminator (t : tree) : bool :=
  match t with Terminator => true | Node _ _ _ _ => false end.

Definition height (t : tree) : Z := match t with Terminator => 0 | Node _ _ _ h => h end.
(* the terminator's children are itself *)
Definition left (t : tree) : tree := match t with Terminator => Terminator | Node l _ _ _ => l end.
Definition right (t : tree) : tree := match t with Terminator => Terminator | Node _ _ r _ => r end.
Definition value (t : tree) : res V := match t with Terminator => AssertFail | Node _ v _ _ => Ok v end.

(* Node(left, right, value) *)
Definition new_node (l : tree) (v : V) (r : tree) : tree := Node l v r (Z.max (height l) (height r) + 1).

Definition balance (l : tree) (v : V) (r : tree) : res tree :=
  if height r + 2 <? height l then
    let ll := left l in
    let lr := right l in
    let* lv := value l in
    if height lr <=? height ll then Ok (new_node ll lv (new_node lr v r))
    else
      let* lrv := value lr in
      Ok (new_node (new_node ll lv (left lr)) lrv (new_node (right lr) v r))
  else if height l + 2 <? height r then
    let rl := left r in
    let rr := right r in
    let* rv := value r in
    if height rl <=? height rr then Ok (new_node (new_node l v rl) rv rr)
    else
      let* rlv := value rl in
      Ok (new_node (new_node l v (left rl)) rlv (new_node (right rl) rv rr))
  else Ok (new_node l v r).

Fixpoint node_size (t : tree) : Z :=
  match t with Terminator => 0 | Node l _ r _ => node_size l + 1 + node_size r end.

Fixpoint node_popMin (t : tree) : res (V * tree) :=
  match t with
  | Terminator => AssertFail
  | Node l v r _ =>
      if isTerminator l then Ok (v, r)
      else let* p := node_popMin l in let* t' := balance (snd p) v r in Ok (fst p, t')
  end.

Fixpoint node_popMax (t : tree) : res (V * tree) :=
  match t with
  | Terminator => AssertFail
  | Node l v r _ =>
      if isTerminator r then Ok (v, l)
      else let* p := node_popMax r in let* t' := balance l v (snd p) in Ok (fst p, t')
  end.

Fixpoint node_insert (v : V) (t : tree) : res tree :=
  match t with
  | Terminator => Ok (new_node Terminator v Terminator)
  | Node l x r _ =>
      if CMP (KOV v) (KOV x) then let* l' := node_insert v l in balance l' x r
      else if CMP (KOV x) (KOV v) then let* r' := node_insert v r in balance l x r'
      else Ok t
  end.

Fixpoint node_replace (v : V) (t : tree) : res tree :=
  match t with
  | Terminator => Ok (new_node Terminator v Terminator)
  | Node l x r _ =>
      if CMP (KOV v) (KOV x) then let* l' := node_replace v l in balance l' x r
      else if CMP (KOV x) (KOV v) then let* r' := node_replace v r in balance l x r'
      else Ok (new_node l v r)
  end.

Fixpoint node_remove (k : K) (t : tree) : res tree :=
  match t with
  | Terminator => Ok Terminator
  | Node l x r _ =>
      if CMP k (KOV x) then let* l' := node_remove k l in balance l' x r
      else if CMP (KOV x) k then let* r' := node_remove k r in balance l x r'
      else if isTerminator l then Ok r
      else if isTerminator r then Ok l
      else let* p := node_popMin r in balance l (fst p) (snd p)
  end.

(** The loops of [lookup], [count] and [lookup_previous]. *)
Fixpoint lookup (k : K) (t : tree) : option V :=
  match t with
  | Terminator => None
  | Node l x r _ =>
      if CMP k (KOV x) then lookup k l else if CMP (KOV x) k then lookup k r else Some x
  end.

Fixpoint count (k : K) (t : tree) : Z :=
  match t with
  | Terminator => 0
  | Node l x r _ =>
      if CMP k (KOV x) then count k l else if CMP (KOV x) k then count k r else 1
  end.

Fixpoint lookup_previous_from (result : option V) (k : K) (t : tree) : option V :=
  match t with
  | Terminator => result
  | Node l x r _ =>
      if CMP k (KOV x) then lookup_previous_from result k l
      else if CMP (KOV x) k then lookup_previous_from (Some x) k r
      else Some x
  end.

Definition lookup_previous (k : K) (t : tree) : option V := lookup_previous_from None k t.

Fixpoint min (t : tree) : res V :=
  match t with
  | Terminator => AssertFail
  | Node l v _ _ => if isTerminator l then Ok v else min l
  end.

Fixpoint max (t : tree) : res V :=
  match t with
  | Terminator => AssertFail
  | Node _ v r _ => if isTerminator r then Ok v else max r
  end.

(** ** Iterators *)

(** The stack holds the nodes from the current one (first) up to the root; an
    empty stack is the end.  [max] is the size of its buffer. *)
Record iterator : Type := Iterator { it_root : tree; it_max : Z; it_stack : list tree }.

Definition node_eqb (a b : tree) : bool :=
  match a, b with
  | Node _ x _ _, Node _ y _ _ => negb (CMP (KOV x) (KOV y)) && negb (CMP (KOV y) (KOV x))
  | Terminator, Terminator => true
  | _, _ => false
  end.

Definition push_back (max : Z) (n : tree) (stack : list tree) : res (list tree) :=
  assert* Z.of_nat (length stack) <? max in Ok (n :: stack).

(* for (; !n->isTerminator(); n=n->left) stack.push_back(n) *)
Fixpoint push_lefts (max : Z) (n : tree) (stack : list tree) : res (list tree) :=
  match n with
  | Terminator => Ok stack
  | Node l _ _ _ => let* stack := push_back max n stack in push_lefts max l stack
  end.

Fixpoint push_rights (max : Z) (n : tree) (stack : list tree) : res (list tree) :=
  match n with
  | Terminator => Ok stack
  | Node _ _ r _ => let* stack := push_back max n stack in push_rights max r stack
  end.

(* the loops that pop to the first ancestor entered from the left (right) *)
Fixpoint pop_to_left (prev : tree) (stack : list tree) : list tree :=
  match stack with
  | [] => []
  | n :: stack' => if node_eqb prev (left n) then stack else pop_to_left n stack'
  end.

Fixpoint pop_to_right (prev : tree) (stack : list tree) : list tree :=
  match stack with
  | [] => []
  | n :: stack' => if node_eqb prev (right n) then stack else pop_to_right n stack'
  end.

Definition set_stack (it : iterator) (stack : list tree) : iterator :=
  Iterator (it_root it) (it_max it) stack.

(* operator++ *)
Definition it_next (it : iterator) : res iterator :=
  match it_stack it with
  | [] => AssertFail
  | n :: stack =>
      if isTerminator (right n) then Ok (set_stack it (pop_to_left n stack))
      else
        let* s := push_back (it_max it) (right n) (n :: stack) in
        let* s := push_lefts (it_max it) (left (right n)) s in
        Ok (set_stack it s)
  end.

(* operator-- *)
Definition it_prev (it : iterator) : res iterator :=
  match it_stack it with
  | [] => let* s := push_rights (it_max it) (it_root it) [] in Ok (set_stack it s)
  | n :: stack =>
      if isTerminator (left n) then Ok (set_stack it (pop_to_right n stack))
      else
        let* s := push_back (it_max it) (left n) (n :: stack) in
        let* s := push_rights (it_max it) (right (left n)) s in
        Ok (set_stack it s)
  end.

(* operator== on iterators of one tree *)
Definition it_eqb (a b : iterator) : bool :=
  (length (it_stack a) =? length (it_stack b))%nat &&
  forallb (fun p => node_eqb (fst p) (snd p)) (combine (it_stack a) (it_stack b)).

(* operator* *)
Definition it_get (it : iterator) : res V :=
  match it_stack it with [] => AssertFail | n :: _ => value n end.

Definition begin_ (t : tree) : res iterator :=
  let* s := push_lefts (height t) t [] in Ok (Iterator t (height t) s).

Definition end_ (t : tree) : iterator := Iterator t (height t) [].

(* the loop of lower_bound; the flag tells that the key was found *)
Fixpoint descend (max : Z) (k : K) (n : tree) (stack : list tree) : res (list tree * bool) :=
  match n with
  | Terminator => Ok (stack, false)
  | Node l x r _ =>
      let* stack := push_back max n stack in
      if CMP k (KOV x) then descend max k l stack
      else if CMP (KOV x) k then descend max k r stack
      else Ok (stack, true)
  end.

Definition lower_bound (k : K) (t : tree) : res iterator :=
  let* p := descend (height t) k t [] in
  let it := Iterator t (height t) (fst p) in
  if snd p then Ok it
  else
    match fst p with
    | [] => Ok it
    | last :: _ => let* x := value last in if CMP (KOV x) k then it_next it else Ok it
    end.

Definition is_end (it : iterator) : bool := match it_stack it with [] => true | _ => false end.

Definition find (k : K) (t : tree) : res iterator :=
  let* it := lower_bound k t in
  if is_end it then Ok (end_ t)
  else let* x := it_get it in if CMP k (KOV x) then Ok (end_ t) else Ok it.

Definition upper_bound (k : K) (t : tree) : res iterator :=
  let* it := lower_bound k t in
  if is_end it then Ok it
  else let* x := it_get it in if negb (CMP k (KOV x)) then it_next it else Ok it.

(** * Specification *)

(** The values in order. *)
Fixpoint elements (t : tree) : list V :=
  match t with Terminator => [] | Node l v r _ => elements l ++ v :: elements r end.

(** Cached heights are right and siblings differ by at most two. *)
Fixpoint avl (t : tree) : Prop :=
  match t with
  | Terminator => True
  | Node l _ r h =>
      avl l /\ avl r /\ h = Z.max (height l) (height r) + 1 /\ - 2 <= height l - height r <= 2
  end.

(** Values in increasing order of keys, hence no two of equivalent keys. *)
Definition key_lt (x y : V) : Prop := CMP (KOV x) (KOV y) = true.
Definition bst (t : tree) : Prop := StronglySorted key_lt (elements t).

Definition below (k : K) (x : V) : bool := CMP (KOV x) k.
Definition above (k : K) (x : V) : bool := CMP k (KOV x).
Definition same_key (k : K) (x : V) : bool := negb (below k x) && negb (above k x).

End tree.

Arguments Terminator {V}.
Arguments Node {V}.

(** * Balance and contents *)

Section balance.
Context {V : Type}.

(** Equality of concatenations, up to associativity. *)
Ltac app_norm := repeat (progress (rewrite <- ?app_assoc; cbn [app])); reflexivity.

Lemma height_nonneg (t : tree (V:=V)) : avl t -> 0 <= height t.
Proof. induction t as [|l IHl v r IHr h]; cbn; [lia|]. intros (Hl & Hr & -> & ?). specialize (IHl Hl). lia. Qed.

Lemma avl_new_node (l : tree (V:=V)) v r :
  avl l -> avl r -> - 2 <= height l - height r <= 2 -> avl (new_node l v r).
Proof. intros. unfold new_node. cbn. auto. Qed.

Lemma height_new_node (l : tree (V:=V)) v r :
  height (new_node l v r) = Z.max (height l) (height r) + 1.
Proof. done. Qed.

(** Opens a balanced tree that is not the terminator. *)
Lemma avl_open (t : tree (V:=V)) :
  avl t -> 0 < height t -> exists l v r, t = Node l v r (Z.max (height l) (height r) + 1) /\
    avl l /\ avl r /\ - 2 <= height l - height r <= 2 /\ 0 <= height l /\ 0 <= height r.
Proof.
  destruct t as [|l v r h]; cbn; [lia|]. intros (Hl & Hr & -> & Hd) _.
  exists l, v, r. split_and!; auto; try lia; by apply height_nonneg.
Qed.

(** [balance] of two trees whose heights differ by at most three: balanced,
    one level higher at most, with the same values in order. *)
Lemma balance_ok (l : tree (V:=V)) v r :
  avl l -> avl r -> - 3 <= height l - height r <= 3 ->
  exists t, balance l v r = Ok t /\ avl t /\ elements t = elements l ++ v :: elements r /\
    Z.max (height l) (height r) <= height t <= Z.max (height l) (height r) + 1 /\
    (- 2 <= height l - height r <= 2 -> height t = Z.max (height l) (height r) + 1).
Proof.
  intros Hl Hr Hd. pose proof (height_nonneg l Hl). pose proof (height_nonneg r Hr). unfold balance.
  destruct (height r + 2 <? height l) eqn:E1; tidy_bools.
  - destruct (avl_open l Hl) as (ll & lv & lr & -> & Hll & Hlr & Hld & Hpl & Hpr); [lia|].
    cbn [left right value res_bind height] in *.
    destruct (height lr <=? height ll) eqn:E2; tidy_bools.
    + eexists. split; [done|]. cbn. split_and!; try done; try lia. app_norm.
    + destruct (avl_open lr Hlr) as (lrl & lrv & lrr & -> & Hlrl & Hlrr & Hlrd & ? & ?); [lia|].
      cbn [left right value res_bind height] in *. eexists. split; [done|]. cbn.
      split_and!; try done; try lia. app_norm.
  - destruct (height l + 2 <? height r) eqn:E2; tidy_bools.
    + destruct (avl_open r Hr) as (rl & rv & rr & -> & Hrl & Hrr & Hrd & Hpl & Hpr); [lia|].
      cbn [left right value res_bind height] in *.
      destruct (height rl <=? height rr) eqn:E3; tidy_bools.
      * eexists. split; [done|]. cbn. split_and!; try done; try lia. app_norm.
      * destruct (avl_open rl Hrl) as (rll & rlv & rlr & -> & Hrll & Hrlr & Hrld & ? & ?); [lia|].
        cbn [left right value res_bind height] in *. eexists. split; [done|]. cbn.
        split_and!; try done; try lia. app_norm.
    + eexists. split; [done|]. cbn. split_and!; try done; lia.
Qed.

Lemma popMin_ok (t : tree (V:=V)) :
  avl t -> t <> Terminator ->
  exists v t', node_popMin t = Ok (v, t') /\ avl t' /\ elements t = v :: elements t' /\
    height t - 1 <= height t' <= height t.
Proof.
  induction t as [|l IHl v r IHr h]; intros Ha Hne; [done|]. destruct Ha as (Hl & Hr & -> & Hd).
  cbn [node_popMin]. pose proof (height_nonneg l Hl). pose proof (height_nonneg r Hr).
  destruct l as [|ll lv lr lh].
  - exists v, r. cbn in *. split_and!; try done; lia.
  - destruct (IHl Hl) as (m & l' & -> & Hl' & El & Hhl); [done|]. cbn [isTerminator res_bind fst snd].
    destruct (balance_ok l' v r Hl' Hr) as (t' & -> & Ht' & Et & Hh & Hh'); [lia|].
    exists m, t'. cbn [res_bind]. split_and!; [done|done| | |].
    + change (elements (Node (Node ll lv lr lh) v r _)) with (elements (Node ll lv lr lh) ++ v :: elements r).
      by rewrite Et, El.
    + cbn [height] in *. lia.
    + cbn [height] in *. lia.
Qed.

Lemma popMax_ok (t : tree (V:=V)) :
  avl t -> t <> Terminator ->
  exists v t', node_popMax t = Ok (v, t') /\ avl t' /\ elements t = elements t' ++ [v] /\
    height t - 1 <= height t' <= height t.
Proof.
  induction t as [|l IHl v r IHr h]; intros Ha Hne; [done|]. destruct Ha as (Hl & Hr & -> & Hd).
  cbn [node_popMax]. pose proof (height_nonneg l Hl). pose proof (height_nonneg r Hr).
  destruct r as [|rl rv rr rh].
  - exists v, l. cbn in *. split_and!; try done; lia.
  - destruct (IHr Hr) as (m & r' & -> & Hr' & Er & Hhr); [done|]. cbn [isTerminator res_bind fst snd].
    destruct (balance_ok l v r' Hl Hr') as (t' & -> & Ht' & Et & Hh & Hh'); [lia|].
    exists m, t'. cbn [res_bind]. split_and!; [done|done| | |].
    + change (elements (Node l v (Node rl rv rr rh) _)) with (elements l ++ v :: elements (Node rl rv rr rh)).
      by rewrite Et, Er, <- app_assoc.
    + cbn [height] in *. lia.
    + cbn [height] in *. lia.
Qed.

(** The height is logarithmic in the size. *)
Lemma avl_size (t : tree (V:=V)) : avl t -> 2 ^ (height t / 3) <= node_size t + 1 /\ 0 <= node_size t.
Proof.
  induction t as [|l IHl v r IHr h]; intros Ha; [split; vm_compute; congruence|].
  destruct Ha as (Hl & Hr & -> & Hd). destruct (IHl Hl) as [IL ?]. destruct (IHr Hr) as [IR ?]. cbn [height node_size].
  pose proof (height_nonneg l Hl). pose proof (height_nonneg r Hr).
  set (m := Z.max (height l) (height r)) in *.
  assert (forall a, 0 <= a -> m - 2 <= a -> 2 ^ ((m + 1) / 3) <= 2 * 2 ^ (a / 3)) as K.
  { intros a Ha0 Ha. rewrite <- Z.pow_succ_r by (apply Z.div_pos; lia). apply Z.pow_le_mono_r; [lia|].
    pose proof (Z.div_le_mono (m - 2) a 3). replace (m + 1) with (m - 2 + 1 * 3) by lia.
    rewrite Z.div_add by lia. lia. }
  pose proof (K (height l) ltac:(lia) ltac:(lia)). pose proof (K (height r) ltac:(lia) ltac:(lia)).
  split; lia.
Qed.

End balance.

(** * Search *)

Section search.
Context {K V : Type} (KOV : V -> K) (CMP : K -> K -> bool) {order : StrictWeakOrder CMP}.
#[local] Notation key_lt := (key_lt KOV CMP).
#[local] Notation bst := (bst KOV CMP).
#[local] Notation below := (below KOV CMP).
#[local] Notation above := (above KOV CMP).
#[local] Notation same_key := (same_key KOV CMP).

Lemma filter_all (f : V -> bool) l : Forall (fun x => f x = true) l -> List.filter f l = l.
Proof. induction 1 as [|x l Hx _ IH]; cbn; [done|]. by rewrite Hx, IH. Qed.

Lemma filter_none (f : V -> bool) l : Forall (fun x => f x = false) l -> List.filter f l = [].
Proof. induction 1 as [|x l Hx _ IH]; cbn; [done|]. by rewrite Hx. Qed.

Lemma bst_node l v r h :
  bst (Node l v r h) <-> bst l /\ bst r /\ Forall (fun x => key_lt x v) (elements l) /\
    Forall (fun x => key_lt v x) (elements r).
Proof.
  unfold ImmutableTree.bst. cbn [elements]. rewrite StronglySorted_app, !Forall_forall. split.
  - intros (Hc & Hl & Hr). apply StronglySorted_inv in Hr as [Hr Hf]. split_and!; [done|done| |].
    + intros x Hx. apply Hc; [done|by left].
    + by apply Forall_forall.
  - intros (Hl & Hr & Hlv & Hrv). split_and!; [|done|].
    + intros x y Hx Hy. apply elem_of_cons in Hy as [->|Hy]; [by apply Hlv|].
      eapply cmp_trans; [by apply Hlv|by apply Hrv].
    + constructor; [done|]. by apply Forall_forall.
Qed.

Lemma cmp_asym x y : CMP x y = true -> CMP y x = false.
Proof.
  intros H. apply not_true_is_false. intros H'. pose proof (cmp_trans _ _ _ H H') as C.
  by rewrite cmp_irrefl in C.
Qed.

(** Transitivity, through the predicates on values. *)
Ltac by_trans :=
  unfold ImmutableTree.below, ImmutableTree.above, ImmutableTree.key_lt in *; cbn beta in *;
  eapply cmp_trans; eassumption.

(** What the three outcomes of comparing [k] with the key at a node say of the
    two subtrees. *)
Lemma sides_lt k v l :
  CMP k (KOV v) = true -> Forall (fun x => key_lt v x) l ->
  Forall (fun x => below k x = false) (v :: l) /\ Forall (fun x => above k x = true) (v :: l).
Proof.
  intros Hk Hl. assert (Forall (fun x => above k x = true) (v :: l)) as Ha.
  { constructor; [done|]. eapply Forall_impl; [exact Hl|]. intros x Hx. by_trans. }
  split; [|done]. eapply Forall_impl; [exact Ha|]. intros x. apply cmp_asym.
Qed.

Lemma sides_gt k v l :
  CMP (KOV v) k = true -> Forall (fun x => key_lt x v) l ->
  Forall (fun x => below k x = true) (l ++ [v]) /\ Forall (fun x => above k x = false) (l ++ [v]).
Proof.
  intros Hk Hl. assert (Forall (fun x => below k x = true) (l ++ [v])) as Ha.
  { apply Forall_app. split; [|by constructor]. eapply Forall_impl; [exact Hl|].
    intros x Hx. by_trans. }
  split; [done|]. eapply Forall_impl; [exact Ha|]. intros x. apply cmp_asym.
Qed.

Lemma sides_eq k v l r :
  CMP k (KOV v) = false -> CMP (KOV v) k = false ->
  Forall (fun x => key_lt x v) l -> Forall (fun x => key_lt v x) r ->
  (Forall (fun x => below k x = true) l /\ Forall (fun x => above k x = false) l) /\
  (Forall (fun x => below k x = false) r /\ Forall (fun x => above k x = true) r).
Proof.
  intros H1 H2 Hl Hr. unfold ImmutableTree.below, ImmutableTree.above.
  assert (forall x, key_lt x v -> CMP (KOV x) k = true) as Kl.
  { intros x Hx. destruct (cmp_split (KOV x) k (KOV v) Hx); [done|congruence]. }
  assert (forall x, key_lt v x -> CMP k (KOV x) = true) as Kr.
  { intros x Hx. destruct (cmp_split (KOV v) k (KOV x) Hx); [congruence|done]. }
  repeat split; (eapply Forall_impl; [eassumption|]); intros x Hx; auto using cmp_asym.
Qed.

(** The values below and above a key, at a node. *)
Lemma filters_lt k l v r h :
  bst (Node l v r h) -> CMP k (KOV v) = true ->
  List.filter (below k) (elements (Node l v r h)) = List.filter (below k) (elements l) /\
  List.filter (above k) (elements (Node l v r h)) = List.filter (above k) (elements l) ++ v :: elements r.
Proof.
  intros Hb Hk. apply bst_node in Hb as (_ & _ & _ & Hr). cbn [elements].
  destruct (sides_lt k v _ Hk Hr) as [Hbl Hab]. rewrite !List.filter_app.
  rewrite (filter_none _ _ Hbl), (filter_all _ _ Hab), app_nil_r. done.
Qed.

Lemma filters_gt k l v r h :
  bst (Node l v r h) -> CMP (KOV v) k = true ->
  List.filter (below k) (elements (Node l v r h)) = elements l ++ v :: List.filter (below k) (elements r) /\
  List.filter (above k) (elements (Node l v r h)) = List.filter (above k) (elements r).
Proof.
  intros Hb Hk. apply bst_node in Hb as (_ & _ & Hl & _). cbn [elements].
  destruct (sides_gt k v _ Hk Hl) as [Hbl Hab].
  change (v :: elements r) with ([v] ++ elements r). rewrite app_assoc, !(List.filter_app _ (elements l ++ [v])).
  rewrite (filter_all _ _ Hbl), (filter_none _ _ Hab). split; [|done]. by rewrite <- app_assoc.
Qed.

Lemma filters_eq k l v r h :
  bst (Node l v r h) -> CMP k (KOV v) = false -> CMP (KOV v) k = false ->
  List.filter (below k) (elements (Node l v r h)) = elements l /\
  List.filter (above k) (elements (Node l v r h)) = elements r.
Proof.
  intros Hb H1 H2. apply bst_node in Hb as (_ & _ & Hl & Hr). cbn [elements].
  destruct (sides_eq k v _ _ H1 H2 Hl Hr) as [[Hlb Hla] [Hrb Hra]].
  rewrite !List.filter_app. cbn [List.filter]. unfold ImmutableTree.below at 2, ImmutableTree.above at 2.
  rewrite H1, H2, (filter_all _ _ Hlb), (filter_none _ _ Hla), (filter_none _ _ Hrb), (filter_all _ _ Hra).
  by rewrite app_nil_r.
Qed.

Lemma sorted_filter (f : V -> bool) l : StronglySorted key_lt l -> StronglySorted key_lt (List.filter f l).
Proof.
  induction 1 as [|x l Hl IH Hx]; cbn; [constructor|]. destruct (f x); [|done]. constructor; [done|].
  rewrite Forall_forall in *. intros y Hy. apply list_elem_of_In, List.filter_In in Hy as [Hy _].
  apply Hx. by apply list_elem_of_In.
Qed.

(** A value between those below and those above its key. *)
Lemma sorted_around k v l :
  StronglySorted key_lt l -> (forall x, CMP (KOV x) k = true -> key_lt x v) ->
  (forall x, CMP k (KOV x) = true -> key_lt v x) ->
  StronglySorted key_lt (List.filter (below k) l ++ v :: List.filter (above k) l).
Proof.
  intros Hl Hlo Hhi. apply StronglySorted_app. split_and!; [|by apply sorted_filter|].
  - intros x y Hx Hy. apply list_elem_of_In, List.filter_In in Hx as [_ Hx].
    apply elem_of_cons in Hy as [->|Hy]; [by apply Hlo|].
    apply list_elem_of_In, List.filter_In in Hy as [_ Hy].
    eapply cmp_trans; [by apply Hlo|by apply Hhi].
  - constructor; [by apply sorted_filter|]. apply Forall_forall. intros y Hy.
    apply list_elem_of_In, List.filter_In in Hy as [_ Hy]. by apply Hhi.
Qed.

Lemma sorted_without k l :
  StronglySorted key_lt l -> StronglySorted key_lt (List.filter (below k) l ++ List.filter (above k) l).
Proof.
  intros Hl. apply StronglySorted_app. split_and!; [|by apply sorted_filter|by apply sorted_filter].
  intros x y Hx Hy. apply list_elem_of_In, List.filter_In in Hx as [_ Hx].
  apply list_elem_of_In, List.filter_In in Hy as [_ Hy]. by_trans.
Qed.

(** Lookup finds the value of an equivalent key, if there is one. *)
Lemma lookup_ok k t :
  bst t -> match lookup KOV CMP k t with
  | Some x => x ∈ elements t /\ same_key k x = true /\
              elements t = List.filter (below k) (elements t) ++ x :: List.filter (above k) (elements t)
  | None => elements t = List.filter (below k) (elements t) ++ List.filter (above k) (elements t)
  end.
Proof.
  induction t as [|l IHl v r IHr h]; intros Hb; cbn [lookup]; [done|].
  pose proof Hb as Hb'. apply bst_node in Hb' as (Hl & Hr & _ & _).
  destruct (CMP k (KOV v)) eqn:E1; [|destruct (CMP (KOV v) k) eqn:E2].
  - destruct (filters_lt k l v r h Hb E1) as [-> ->]. specialize (IHl Hl). cbn [elements].
    destruct (lookup KOV CMP k l) as [x|].
    + destruct IHl as (Hx & Hs & E). split_and!; [set_solver|done|]. rewrite E at 1. by rewrite <- app_assoc.
    + rewrite IHl at 1. by rewrite <- app_assoc.
  - destruct (filters_gt k l v r h Hb E2) as [-> ->]. specialize (IHr Hr). cbn [elements].
    destruct (lookup KOV CMP k r) as [x|].
    + destruct IHr as (Hx & Hs & E). split_and!; [set_solver|done|]. rewrite E at 1. by rewrite <- app_assoc.
    + rewrite IHr at 1. by rewrite <- app_assoc.
  - destruct (filters_eq k l v r h Hb E1 E2) as [-> ->]. split_and!; [set_solver| |done].
    unfold ImmutableTree.same_key, ImmutableTree.below, ImmutableTree.above. by rewrite E1, E2.
Qed.

Lemma same_key_bounds k v :
  same_key k v = true ->
  (forall x, CMP (KOV x) k = true -> key_lt x v) /\ (forall x, CMP k (KOV x) = true -> key_lt v x).
Proof.
  unfold ImmutableTree.same_key, ImmutableTree.below, ImmutableTree.above, ImmutableTree.key_lt.
  intros H. apply andb_true_iff in H as [H1 H2]. apply negb_true_iff in H1, H2. split; intros x Hx.
  - destruct (cmp_split (KOV x) (KOV v) k Hx); [done|congruence].
  - destruct (cmp_split k (KOV v) (KOV x) Hx); [congruence|done].
Qed.

Lemma same_key_refl v : same_key (KOV v) v = true.
Proof. unfold ImmutableTree.same_key, ImmutableTree.below, ImmutableTree.above. by rewrite (cmp_irrefl (CMP:=CMP)). Qed.

(** ** Updates *)

Lemma insert_ok v t :
  avl t -> bst t ->
  exists t', node_insert KOV CMP v t = Ok t' /\ avl t' /\ height t <= height t' <= height t + 1 /\
    elements t' = List.filter (below (KOV v)) (elements t) ++
      from_option id v (lookup KOV CMP (KOV v) t) :: List.filter (above (KOV v)) (elements t).
Proof.
  induction t as [|l IHl x r IHr h]; intros Ha Hb; cbn [node_insert lookup].
  { eexists. split; [done|]. cbn. split_and!; try done; lia. }
  pose proof Hb as Hb'. apply bst_node in Hb' as (Hl & Hr & _ & _). destruct Ha as (Hal & Har & -> & Hd).
  destruct (CMP (KOV v) (KOV x)) eqn:E1; [|destruct (CMP (KOV x) (KOV v)) eqn:E2].
  - destruct (IHl Hal Hl) as (l' & -> & Hal' & Hh & El). cbn [res_bind].
    destruct (filters_lt (KOV v) l x r (Z.max (height l) (height r) + 1) Hb E1) as [-> ->].
    destruct (balance_ok l' x r Hal' Har) as (t' & -> & Hat & Et & Hht & Hht'); [lia|].
    exists t'. split_and!; [done|done|cbn; lia|cbn; lia|]. rewrite Et, El. by rewrite <- app_assoc.
  - destruct (IHr Har Hr) as (r' & -> & Har' & Hh & Er). cbn [res_bind].
    destruct (filters_gt (KOV v) l x r (Z.max (height l) (height r) + 1) Hb E2) as [-> ->].
    destruct (balance_ok l x r' Hal Har') as (t' & -> & Hat & Et & Hht & Hht'); [lia|].
    exists t'. split_and!; [done|done|cbn; lia|cbn; lia|]. rewrite Et, Er. by rewrite <- app_assoc.
  - destruct (filters_eq (KOV v) l x r (Z.max (height l) (height r) + 1) Hb E1 E2) as [-> ->].
    eexists. split; [done|]. cbn. split_and!; try done; lia.
Qed.

Lemma replace_ok v t :
  avl t -> bst t ->
  exists t', node_replace KOV CMP v t = Ok t' /\ avl t' /\ height t <= height t' <= height t + 1 /\
    elements t' = List.filter (below (KOV v)) (elements t) ++ v :: List.filter (above (KOV v)) (elements t).
Proof.
  induction t as [|l IHl x r IHr h]; intros Ha Hb; cbn [node_replace].
  { eexists. split; [done|]. cbn. split_and!; try done; lia. }
  pose proof Hb as Hb'. apply bst_node in Hb' as (Hl & Hr & _ & _). destruct Ha as (Hal & Har & -> & Hd).
  destruct (CMP (KOV v) (KOV x)) eqn:E1; [|destruct (CMP (KOV x) (KOV v)) eqn:E2].
  - destruct (IHl Hal Hl) as (l' & -> & Hal' & Hh & El). cbn [res_bind].
    destruct (filters_lt (KOV v) l x r (Z.max (height l) (height r) + 1) Hb E1) as [-> ->].
    destruct (balance_ok l' x r Hal' Har) as (t' & -> & Hat & Et & Hht & Hht'); [lia|].
    exists t'. split_and!; [done|done|cbn; lia|cbn; lia|]. rewrite Et, El. by rewrite <- app_assoc.
  - destruct (IHr Har Hr) as (r' & -> & Har' & Hh & Er). cbn [res_bind].
    destruct (filters_gt (KOV v) l x r (Z.max (height l) (height r) + 1) Hb E2) as [-> ->].
    destruct (balance_ok l x r' Hal Har') as (t' & -> & Hat & Et & Hht & Hht'); [lia|].
    exists t'. split_and!; [done|done|cbn; lia|cbn; lia|]. rewrite Et, Er. by rewrite <- app_assoc.
  - destruct (filters_eq (KOV v) l x r (Z.max (height l) (height r) + 1) Hb E1 E2) as [-> ->].
    eexists. split; [done|]. cbn. split_and!; try done; lia.
Qed.

Lemma remove_ok k t :
  avl t -> bst t ->
  exists t', node_remove KOV CMP k t = Ok t' /\ avl t' /\ height t - 1 <= height t' <= height t /\
    elements t' = List.filter (below k) (elements t) ++ List.filter (above k) (elements t).
Proof.
  induction t as [|l IHl x r IHr h]; intros Ha Hb; cbn [node_remove].
  { eexists. split; [done|]. cbn. split_and!; try done; lia. }
  pose proof Hb as Hb'. apply bst_node in Hb' as (Hl & Hr & _ & _). destruct Ha as (Hal & Har & -> & Hd).
  pose proof (height_nonneg l Hal). pose proof (height_nonneg r Har).
  destruct (CMP k (KOV x)) eqn:E1; [|destruct (CMP (KOV x) k) eqn:E2].
  - destruct (IHl Hal Hl) as (l' & -> & Hal' & Hh & El). cbn [res_bind].
    destruct (filters_lt k l x r (Z.max (height l) (height r) + 1) Hb E1) as [-> ->].
    destruct (balance_ok l' x r Hal' Har) as (t' & -> & Hat & Et & Hht & Hht'); [lia|].
    exists t'. split_and!; [done|done|cbn; lia|cbn; lia|]. rewrite Et, El. by rewrite <- app_assoc.
  - destruct (IHr Har Hr) as (r' & -> & Har' & Hh & Er). cbn [res_bind].
    destruct (filters_gt k l x r (Z.max (height l) (height r) + 1) Hb E2) as [-> ->].
    destruct (balance_ok l x r' Hal Har') as (t' & -> & Hat & Et & Hht & Hht'); [lia|].
    exists t'. split_and!; [done|done|cbn; lia|cbn; lia|]. rewrite Et, Er. by rewrite <- app_assoc.
  - destruct (filters_eq k l x r (Z.max (height l) (height r) + 1) Hb E1 E2) as [-> ->].
    destruct l as [|ll lv lr lh]; [exists r; cbn in *; split_and!; try done; lia|].
    destruct r as [|rl rv rr rh]; [exists (Node ll lv lr lh); cbn [isTerminator elements]; cbn [height] in *; rewrite app_nil_r; split_and!; try done; lia|].
    cbn [isTerminator]. destruct (popMin_ok (Node rl rv rr rh) Har) as (m & nr & -> & Hnr & En & Hhn); [done|].
    cbn [res_bind fst snd].
    destruct (balance_ok (Node ll lv lr lh) m nr Hal Hnr) as (t' & -> & Hat & Et & Hht & Hht'); [lia|].
    exists t'. split_and!; [done|done|cbn [height] in *; lia|cbn [height] in *; lia|].
    by rewrite Et, En.
Qed.

(** ** Iterators *)

(** [path root stack b a]: the stack goes from a node up to the root, the
    values before and after the subtree of that node being [b] and [a]. *)
Inductive path (root : tree (V:=V)) : list tree -> list V -> list V -> Prop :=
| path_root : root <> Terminator -> path root [root] [] []
| path_left p stack b a v r h :
    path root (p :: stack) b a -> p = Node (left p) v r h -> left p <> Terminator ->
    path root (left p :: p :: stack) b (v :: elements r ++ a)
| path_right p stack b a v l h :
    path root (p :: stack) b a -> p = Node l v (right p) h -> right p <> Terminator ->
    path root (right p :: p :: stack) (b ++ elements l ++ [v]) a.

(** What is behind an iterator and what is ahead of it. *)
Inductive iter_at (root : tree) : iterator (V:=V) -> list V -> list V -> Prop :=
| iter_end : iter_at root (Iterator root (height root) []) (elements root) []
| iter_node l v r h stack b a :
    path root (Node l v r h :: stack) b a ->
    iter_at root (Iterator root (height root) (Node l v r h :: stack)) (b ++ elements l) (v :: elements r ++ a).

Lemma path_node l v r h : path (Node l v r h) [Node l v r h] [] [].
Proof. by apply path_root. Qed.

Lemma path_elements root n stack b a :
  path root (n :: stack) b a -> elements root = b ++ elements n ++ a.
Proof.
  remember (n :: stack) as s eqn:E. intros Hp. revert n stack E.
  induction Hp as [|p st b a v r h Hp IH Ep Hne|p st b a v l h Hp IH Ep Hne]; intros n stack [= <- <-].
  - by rewrite app_nil_r.
  - rewrite (IH _ _ eq_refl). rewrite Ep at 1. cbn [elements]. by rewrite <- app_assoc.
  - rewrite (IH _ _ eq_refl). rewrite Ep at 1. cbn [elements]. by rewrite <- !app_assoc.
Qed.

Lemma path_open root n stack b a : path root (n :: stack) b a -> exists l v r h, n = Node l v r h.
Proof.
  intros H. assert (n <> Terminator) as Hn by (by inversion H; subst). destruct n; [done|eauto].
Qed.

(** The nodes of a path are balanced search trees, and the path is no longer
    than the tree is high. *)
Lemma path_inv root n stack b a :
  avl root -> bst root -> path root (n :: stack) b a ->
  avl n /\ bst n /\ Z.of_nat (length (n :: stack)) + height n <= height root + 1.
Proof.
  intros Ha Hb. remember (n :: stack) as s eqn:E. intros Hp. revert n stack E.
  induction Hp as [|p st b a v r h Hp IH Ep Hne|p st b a v l h Hp IH Ep Hne]; intros n stack [= <- <-].
  - split_and!; [done|done|cbn; lia].
  - destruct (IH _ _ eq_refl) as (Hpa & Hpb & Hl). rewrite Ep in Hpa, Hpb. destruct Hpa as (? & ? & -> & ?).
    apply bst_node in Hpb as (? & ? & ? & ?). split_and!; [done|done|]. rewrite Ep in Hl at 2.
    cbn [length height] in *. lia.
  - destruct (IH _ _ eq_refl) as (Hpa & Hpb & Hl). rewrite Ep in Hpa, Hpb. destruct Hpa as (? & ? & -> & ?).
    apply bst_node in Hpb as (? & ? & ? & ?). split_and!; [done|done|]. rewrite Ep in Hl at 2.
    cbn [length height] in *. lia.
Qed.

Lemma path_nonempty root n stack b a :
  avl root -> bst root -> path root (n :: stack) b a -> Z.of_nat (length stack) < height root.
Proof.
  intros Ha Hb Hp. destruct (path_inv _ _ _ _ _ Ha Hb Hp) as (Hn & _ & Hl).
  destruct (path_open _ _ _ _ _ Hp) as (l & v & r & h & ->). destruct Hn as (? & ? & -> & ?).
  cbn [length height] in *. pose proof (height_nonneg l ltac:(done)). pose proof (height_nonneg r ltac:(done)). lia.
Qed.

(** A node on a path fits in the stack. *)
Lemma push_back_ok root n stack b a :
  avl root -> bst root -> path root (n :: stack) b a -> push_back (height root) n stack = Ok (n :: stack).
Proof.
  intros Ha Hb Hp. unfold push_back. pose proof (path_nonempty _ _ _ _ _ Ha Hb Hp).
  by rewrite (proj2 (Z.ltb_lt _ _)).
Qed.

Lemma path_down_left root l v r h stack b a :
  path root (Node l v r h :: stack) b a -> l <> Terminator ->
  path root (l :: Node l v r h :: stack) b (v :: elements r ++ a).
Proof. intros Hp Hl. by apply (path_left root (Node l v r h) stack b a v r h). Qed.

Lemma path_down_right root l v r h stack b a :
  path root (Node l v r h :: stack) b a -> r <> Terminator ->
  path root (r :: Node l v r h :: stack) (b ++ elements l ++ [v]) a.
Proof. intros Hp Hr. by apply (path_right root (Node l v r h) stack b a v l h). Qed.

Lemma push_lefts_ok root n stack b a :
  avl root -> bst root -> path root (n :: stack) b a ->
  exists stack' x t, push_lefts (height root) n stack = Ok stack' /\
    elements n ++ a = x :: t /\ iter_at root (Iterator root (height root) stack') b (x :: t).
Proof.
  intros Ha Hb. revert stack a. induction n as [|l IHl v r IHr h]; intros stack a Hp.
  { destruct (path_open _ _ _ _ _ Hp) as (? & ? & ? & ? & [=]). }
  cbn [push_lefts]. rewrite (push_back_ok _ _ _ _ _ Ha Hb Hp). cbn [res_bind].
  destruct l as [|ll lv lr lh].
  - eexists _, v, (elements r ++ a). split_and!; [done|done|].
    pose proof (iter_node root Terminator v r h stack b a Hp) as Hi. cbn in Hi. by rewrite app_nil_r in Hi.
  - destruct (IHl _ _ (path_down_left _ _ _ _ _ _ _ _ Hp ltac:(done))) as (s' & x & t & E & El & Hi).
    exists s', x, t. split_and!; [exact E| |exact Hi]. rewrite <- El.
    change (elements (Node (Node ll lv lr lh) v r h)) with (elements (Node ll lv lr lh) ++ v :: elements r).
    by rewrite <- app_assoc.
Qed.

Lemma push_rights_ok root n stack b a :
  avl root -> bst root -> path root (n :: stack) b a ->
  exists stack' x t, push_rights (height root) n stack = Ok stack' /\
    b ++ elements n = t ++ [x] /\ iter_at root (Iterator root (height root) stack') t (x :: a).
Proof.
  intros Ha Hb. revert stack b. induction n as [|l IHl v r IHr h]; intros stack b Hp.
  { destruct (path_open _ _ _ _ _ Hp) as (? & ? & ? & ? & [=]). }
  cbn [push_rights]. rewrite (push_back_ok _ _ _ _ _ Ha Hb Hp). cbn [res_bind].
  destruct r as [|rl rv rr rh].
  - eexists _, v, (b ++ elements l). split_and!; [done|by rewrite <- app_assoc|].
    exact (iter_node root l v Terminator h stack b a Hp).
  - destruct (IHr _ _ (path_down_right _ _ _ _ _ _ _ _ Hp ltac:(done))) as (s' & x & t & E & El & Hi).
    exists s', x, t. split_and!; [exact E| |exact Hi]. rewrite <- El.
    change (elements (Node l v (Node rl rv rr rh) h)) with (elements l ++ v :: elements (Node rl rv rr rh)).
    by rewrite <- !app_assoc.
Qed.


(** Climbing to the first ancestor entered from the left reaches the next
    value, from the right the previous one. *)
Lemma node_eqb_refl l v r h : node_eqb KOV CMP (Node l v r h) (Node l v r h) = true.
Proof. cbn. by rewrite (cmp_irrefl (CMP:=CMP)). Qed.

Lemma node_eqb_lr l v r h :
  bst (Node l v r h) -> r <> Terminator -> node_eqb KOV CMP r l = false.
Proof.
  intros Hb Hr. apply bst_node in Hb as (_ & _ & Hl & Hv).
  destruct r as [|rl rv rr rh]; [done|]. destruct l as [|ll lv lr lh]; [done|]. cbn [node_eqb].
  assert (CMP (KOV lv) (KOV rv) = true) as ->; [|by rewrite andb_false_r].
  rewrite Forall_forall in Hl, Hv. apply (cmp_trans _ (KOV v)); [apply Hl|apply Hv]; cbn; set_solver.
Qed.

Lemma node_eqb_rl l v r h :
  bst (Node l v r h) -> l <> Terminator -> node_eqb KOV CMP l r = false.
Proof.
  intros Hb Hl. apply bst_node in Hb as (_ & _ & Hlv & Hv).
  destruct l as [|ll lv lr lh]; [done|]. destruct r as [|rl rv rr rh]; [done|]. cbn [node_eqb].
  assert (CMP (KOV lv) (KOV rv) = true) as ->; [|done].
  rewrite Forall_forall in Hlv, Hv. apply (cmp_trans _ (KOV v)); [apply Hlv|apply Hv]; cbn; set_solver.
Qed.

Lemma pop_to_left_ok root n stack b a :
  avl root -> bst root -> path root (n :: stack) b a ->
  iter_at root (Iterator root (height root) (pop_to_left KOV CMP n stack)) (b ++ elements n) a.
Proof.
  intros Ha Hb. remember (n :: stack) as s eqn:E. intros Hp. revert n stack E.
  induction Hp as [|p st b a v r h Hp IH Ep Hne|p st b a v l h Hp IH Ep Hne]; intros n stack [= <- <-].
  - apply iter_end.
  - cbn [pop_to_left]. destruct (left p) as [|ll lv lr lh] eqn:El; [done|]. rewrite node_eqb_refl, Ep.
    apply iter_node. by rewrite <- Ep.
  - cbn [pop_to_left]. destruct (path_inv _ _ _ _ _ Ha Hb Hp) as (_ & Hpb & _).
    rewrite Ep in Hpb. assert (left p = l) as -> by (rewrite Ep; done).
    rewrite (node_eqb_lr _ _ _ _ Hpb Hne). specialize (IH _ _ eq_refl). rewrite Ep in IH at 2. cbn [elements] in IH.
    by rewrite <- !app_assoc.
Qed.

Lemma pop_to_right_ok root n stack b a :
  avl root -> bst root -> path root (n :: stack) b a ->
  match pop_to_right KOV CMP n stack with
  | [] => b = []
  | stack' => exists x t, b = t ++ [x] /\
      iter_at root (Iterator root (height root) stack') t (x :: elements n ++ a)
  end.
Proof.
  intros Ha Hb. remember (n :: stack) as s eqn:E. intros Hp. revert n stack E.
  induction Hp as [|p st b a v r h Hp IH Ep Hne|p st b a v l h Hp IH Ep Hne]; intros n stack [= <- <-].
  - done.
  - cbn [pop_to_right]. destruct (path_inv _ _ _ _ _ Ha Hb Hp) as (_ & Hpb & _).
    rewrite Ep in Hpb. assert (right p = r) as -> by (rewrite Ep; done).
    rewrite (node_eqb_rl _ _ _ _ Hpb Hne). specialize (IH _ _ eq_refl).
    destruct (pop_to_right KOV CMP p st) as [|q st']; [done|]. destruct IH as (x & t & E & Hi).
    exists x, t. split; [exact E|]. rewrite Ep in Hi. cbn [elements] in Hi. by rewrite <- app_assoc in Hi.
  - cbn [pop_to_right]. destruct (right p) as [|rl rv rr rh] eqn:Er; [done|]. rewrite node_eqb_refl.
    exists v, (b ++ elements l). split; [by rewrite <- app_assoc|]. rewrite Ep. apply iter_node. by rewrite <- Ep.
Qed.

Lemma begin_ok t : avl t -> bst t -> exists it, begin_ t = Ok it /\ iter_at t it [] (elements t).
Proof.
  intros Ha Hb. unfold begin_. destruct t as [|l v r h].
  - eexists. split; [done|]. apply (iter_end Terminator).
  - destruct (push_lefts_ok _ _ _ _ _ Ha Hb (path_node l v r h))
      as (s & x & t & -> & E & Hi). eexists. split; [done|]. rewrite app_nil_r in E. by rewrite E.
Qed.

Lemma it_get_ok root it b x t : iter_at root it b (x :: t) -> it_get it = Ok x.
Proof. intros H. by inversion H; subst. Qed.

Lemma it_next_ok root it b x t :
  avl root -> bst root -> iter_at root it b (x :: t) ->
  exists it', it_next KOV CMP it = Ok it' /\ iter_at root it' (b ++ [x]) t.
Proof.
  intros Ha Hb Hi. inversion Hi as [|l v r h stack b0 a Hp]; subst. unfold it_next, set_stack.
  cbn [it_stack it_root it_max right]. destruct r as [|rl rv rr rh].
  - cbn [isTerminator]. eexists. split; [done|]. rewrite <- app_assoc.
    exact (pop_to_left_ok _ _ _ _ _ Ha Hb Hp).
  - cbn [isTerminator left].
    assert (path root (Node rl rv rr rh :: Node l x (Node rl rv rr rh) h :: stack) (b0 ++ elements l ++ [x]) a) as Hq
      by (by apply path_down_right).
    destruct (push_lefts_ok _ _ _ _ _ Ha Hb Hq) as (s & y & t' & E & El & Hs).
    cbn [push_lefts] in E. rewrite (push_back_ok _ _ _ _ _ Ha Hb Hq) in E |- *. cbn [res_bind] in E |- *.
    rewrite E. cbn [res_bind]. eexists. split; [done|]. by rewrite <- app_assoc, El.
Qed.

Lemma it_prev_ok root it b x t :
  avl root -> bst root -> iter_at root it (b ++ [x]) t ->
  exists it', it_prev KOV CMP it = Ok it' /\ iter_at root it' b (x :: t).
Proof.
  intros Ha Hb Hi. inversion Hi as [E0 E1 E2|l v r h stack b0 a Hp E0 E2 E3]; clear Hi; subst; unfold it_prev, set_stack;
    cbn [it_stack it_root it_max left].
  - destruct root as [|l v r h]; [by destruct b|].
    destruct (push_rights_ok _ _ _ _ _ Ha Hb (path_node l v r h))
      as (s & y & t' & -> & E & Hs). eexists. split; [done|]. cbn [app] in E. rewrite E1 in E.
    by apply app_inj_tail in E as [-> ->].
  - destruct l as [|ll lv lr lh].
    + cbn [isTerminator]. eexists. split; [done|]. pose proof (pop_to_right_ok _ _ _ _ _ Ha Hb Hp) as H.
      cbn [elements] in E2. rewrite app_nil_r in E2. subst b0.
      destruct (pop_to_right KOV CMP _ stack) as [|q st]; [by destruct b|].
      destruct H as (y & t' & E & H). by apply app_inj_tail in E as [-> ->].
    + cbn [isTerminator right].
      assert (path root (Node ll lv lr lh :: Node (Node ll lv lr lh) v r h :: stack) b0 (v :: elements r ++ a)) as Hq
        by (by apply path_down_left).
      destruct (push_rights_ok _ _ _ _ _ Ha Hb Hq) as (s & y & t' & E & El & Hs).
      cbn [push_rights] in E. rewrite (push_back_ok _ _ _ _ _ Ha Hb Hq) in E |- *. cbn [res_bind] in E |- *.
      rewrite E. cbn [res_bind]. eexists. split; [done|]. rewrite E2 in El.
      by apply app_inj_tail in El as [-> ->].
Qed.


(** ** Bounds *)

Lemma elements_node (l : tree (V:=V)) v r h : elements (Node l v r h) = elements l ++ v :: elements r.
Proof. done. Qed.

Lemma below_above k x : above k x = true -> below k x = false.
Proof. apply cmp_asym. Qed.

(** The descent keeps the smaller keys behind and the larger ones ahead. *)
Lemma descend_ok root k n stack b a :
  avl root -> bst root -> path root (n :: stack) b a ->
  Forall (fun x => below k x = true) b -> Forall (fun x => above k x = true) a ->
  exists l v r h stack' b' a' fl,
    descend KOV CMP (height root) k n stack = Ok (Node l v r h :: stack', fl) /\
    path root (Node l v r h :: stack') b' a' /\
    Forall (fun x => below k x = true) b' /\ Forall (fun x => above k x = true) a' /\
    if fl then same_key k v = true
    else (above k v = true /\ l = Terminator) \/ (below k v = true /\ r = Terminator).
Proof.
  intros Ha Hb. revert stack b a. induction n as [|l IHl v r IHr h]; intros stack b a Hp Hlo Hhi.
  { destruct (path_open _ _ _ _ _ Hp) as (? & ? & ? & ? & [=]). }
  cbn [descend]. rewrite (push_back_ok _ _ _ _ _ Ha Hb Hp). cbn [res_bind].
  destruct (path_inv _ _ _ _ _ Ha Hb Hp) as (_ & Hn & _). apply bst_node in Hn as (_ & _ & Hl & Hr).
  destruct (CMP k (KOV v)) eqn:E1; [|destruct (CMP (KOV v) k) eqn:E2].
  - destruct l as [|ll lv lr lh].
    + eexists _, _, _, _, _, _, _, _. split_and!; [done|exact Hp|done|done|]. by left.
    + apply (IHl _ b (v :: elements r ++ a)); [by apply path_down_left|done|].
      destruct (sides_lt k v _ E1 Hr) as [_ H]. change (v :: elements r ++ a) with ((v :: elements r) ++ a).
      by apply Forall_app.
  - destruct r as [|rl rv rr rh].
    + eexists _, _, _, _, _, _, _, _. split_and!; [done|exact Hp|done|done|]. by right.
    + apply (IHr _ (b ++ elements l ++ [v]) a); [by apply path_down_right| |done].
      destruct (sides_gt k v _ E2 Hl) as [H _]. by apply Forall_app.
  - eexists _, _, _, _, _, _, _, _. split_and!; [done|exact Hp|done|done|].
    unfold ImmutableTree.same_key, ImmutableTree.below, ImmutableTree.above. by rewrite E1, E2.
Qed.

(** [lower_bound] stops at the first value whose key is not below. *)
Lemma lower_bound_ok k t :
  avl t -> bst t ->
  exists it d u, lower_bound KOV CMP k t = Ok it /\ iter_at t it d u /\
    Forall (fun x => below k x = true) d /\ Forall (fun x => below k x = false) u.
Proof.
  intros Ha Hb. unfold lower_bound. destruct t as [|l v r h].
  { eexists _, [], []. split_and!; [done|apply (iter_end Terminator)|done|done]. }
  destruct (descend_ok _ k _ _ _ _ Ha Hb (path_node l v r h)) as
    (nl & x & nr & nh & s & b & a & fl & -> & Hp & Hlo & Hhi & Hfl); [done|done|].
  cbn [res_bind fst snd]. pose proof (iter_node _ _ _ _ _ _ _ _ Hp) as Hi.
  destruct (path_inv _ _ _ _ _ Ha Hb Hp) as (_ & Hn & _). apply bst_node in Hn as (_ & _ & Hnl & Hnr).
  assert (Forall (fun y => below k y = false) a) as Hhi'
    by (eapply Forall_impl; [exact Hhi|]; intros y; apply below_above).
  destruct fl.
  - pose proof Hfl as Hk. unfold ImmutableTree.same_key in Hk. apply andb_true_iff in Hk as [K1 K2].
    apply negb_true_iff in K1, K2. destruct (sides_eq k x _ _ K2 K1 Hnl Hnr) as [[Hlb _] [Hrb _]].
    eexists _, _, _. split_and!; [done|exact Hi|by apply Forall_app|].
    constructor; [exact K1|]. by apply Forall_app.
  - cbn [value res_bind]. destruct Hfl as [[Hx ->]|[Hx ->]].
    + pose proof (below_above _ _ Hx) as Hx'. unfold ImmutableTree.below in Hx' at 1. rewrite Hx'.
      eexists _, _, _. split_and!; [done|exact Hi|by rewrite app_nil_r|].
      destruct (sides_lt k x _ Hx Hnr) as [H _]. change (x :: elements nr ++ a) with ((x :: elements nr) ++ a).
      by apply Forall_app.
    + unfold ImmutableTree.below in Hx. rewrite Hx.
      destruct (it_next_ok _ _ _ _ _ Ha Hb Hi) as (it & E & Hit). exists it, ((b ++ elements nl) ++ [x]), a.
      split_and!; [exact E|exact Hit| |done].
      destruct (sides_gt k x _ Hx Hnl) as [H _]. rewrite <- app_assoc. by apply Forall_app.
Qed.

Lemma iter_at_elements root it d u : iter_at root it d u -> elements root = d ++ u.
Proof.
  intros Hi. inversion Hi as [|l v r h s b a Hp]; subst; [by rewrite app_nil_r|].
  rewrite (path_elements _ _ _ _ _ Hp). cbn [elements]. by rewrite <- !app_assoc.
Qed.

(** A split of the values into smaller and not smaller is the filter. *)
Lemma split_below k d u l :
  l = d ++ u -> Forall (fun x => below k x = true) d -> Forall (fun x => below k x = false) u ->
  d = List.filter (below k) l /\ u = List.filter (fun x => negb (below k x)) l.
Proof.
  intros -> Hd Hu. rewrite !List.filter_app. rewrite (filter_all _ _ Hd), (filter_none _ _ Hu), app_nil_r.
  split; [done|]. rewrite (filter_none _ d), (filter_all _ u); [done| |].
  - eapply Forall_impl; [exact Hu|]. cbn. by intros x ->.
  - eapply Forall_impl; [exact Hd|]. cbn. by intros x ->.
Qed.

Lemma is_end_spec root it d u : iter_at root it d u -> is_end it = match u with [] => true | _ => false end.
Proof. intros Hi. by inversion Hi; subst. Qed.

Lemma iter_at_end root it d : iter_at root it d [] -> it = end_ root.
Proof. intros Hi. by inversion Hi; subst. Qed.

(** At most one value has a given key, right after those below it. *)
Lemma tail_above k x u :
  StronglySorted key_lt (x :: u) -> below k x = false ->
  Forall (fun y => above k y = true) u.
Proof.
  intros Hs Hx. apply StronglySorted_inv in Hs as [_ Hs]. eapply Forall_impl; [exact Hs|]. intros y Hy.
  destruct (cmp_split (KOV x) k (KOV y) Hy) as [C|C]; [|exact C].
  unfold ImmutableTree.below in Hx. congruence.
Qed.

Lemma sorted_tail (l d u : list V) : l = d ++ u -> StronglySorted key_lt l -> StronglySorted key_lt u.
Proof. intros ->. by intros (_ & _ & H)%StronglySorted_app. Qed.

Lemma upper_bound_ok k t :
  avl t -> bst t ->
  exists it d u, upper_bound KOV CMP k t = Ok it /\ iter_at t it d u /\
    Forall (fun x => above k x = false) d /\ Forall (fun x => above k x = true) u.
Proof.
  intros Ha Hb. destruct (lower_bound_ok k t Ha Hb) as (it & d & u & E & Hi & Hd & Hu).
  assert (Forall (fun x => above k x = false) d) as Hd'
    by (eapply Forall_impl; [exact Hd|]; intros y; apply cmp_asym).
  unfold upper_bound. rewrite E. cbn [res_bind]. rewrite (is_end_spec _ _ _ _ Hi).
  destruct u as [|x u]; [by exists it, d, []|]. rewrite (it_get_ok _ _ _ _ _ Hi). cbn [res_bind].
  pose proof (sorted_tail _ _ _ (iter_at_elements _ _ _ _ Hi) Hb) as Hs. apply Forall_cons_iff in Hu as [Hx _].
  pose proof (tail_above _ _ _ Hs Hx) as Hu. destruct (CMP k (KOV x)) eqn:Ek; cbn [negb].
  - exists it, d, (x :: u). split_and!; [done|done|done|by constructor].
  - destruct (it_next_ok _ _ _ _ _ Ha Hb Hi) as (it' & E' & Hi'). exists it', (d ++ [x]), u.
    split_and!; [done|done| |done]. apply Forall_app. split; [done|]. by constructor.
Qed.

(** *** Comparing iterators *)

(** The path to a value is the one the search for its key takes. *)
Lemma path_descend root n stack b a x :
  avl root -> bst root -> path root (n :: stack) b a -> x ∈ elements n ->
  descend KOV CMP (height root) (KOV x) root [] = descend KOV CMP (height root) (KOV x) n stack.
Proof.
  intros Ha Hb. remember (n :: stack) as s eqn:E. intros Hp. revert n stack E.
  induction Hp as [|p st b a v r h Hp IH Ep Hne|p st b a v l h Hp IH Ep Hne]; intros n stack [= <- <-] Hx; [done| |];
    pose proof (path_inv _ _ _ _ _ Ha Hb Hp) as (_ & Hbp & _); rewrite Ep in Hbp; apply bst_node in Hbp as (_ & _ & Hl & Hr);
    rewrite Forall_forall in Hl, Hr.
  - rewrite (IH _ _ eq_refl) by (rewrite Ep; cbn [elements]; set_solver). rewrite Ep at 1. cbn [descend].
    rewrite <- Ep, (push_back_ok _ _ _ _ _ Ha Hb Hp). cbn [res_bind]. by rewrite (Hl x Hx).
  - rewrite (IH _ _ eq_refl) by (rewrite Ep; cbn [elements]; set_solver). rewrite Ep at 1. cbn [descend].
    rewrite <- Ep, (push_back_ok _ _ _ _ _ Ha Hb Hp). cbn [res_bind]. specialize (Hr x Hx). rewrite (cmp_asym _ _ Hr).
    by rewrite Hr.
Qed.

Lemma path_unique root l v r h stack b a l' r' h' stack' b' a' :
  avl root -> bst root -> path root (Node l v r h :: stack) b a -> path root (Node l' v r' h' :: stack') b' a' ->
  Node l v r h :: stack = Node l' v r' h' :: stack'.
Proof.
  intros Ha Hb Hp Hp'.
  assert (forall n st b a l r h, n = Node l v r h -> path root (n :: st) b a ->
    descend KOV CMP (height root) (KOV v) root [] = Ok (n :: st, true)) as H.
  { intros n st b0 a0 l0 r0 h0 En Hq. rewrite (path_descend _ _ _ _ _ v Ha Hb Hq) by (subst n; cbn [elements]; set_solver).
    subst n. cbn [descend]. rewrite (push_back_ok _ _ _ _ _ Ha Hb Hq). cbn [res_bind]. by rewrite (cmp_irrefl (CMP:=CMP)). }
  pose proof (H _ _ _ _ _ _ _ eq_refl Hp) as E. rewrite (H _ _ _ _ _ _ _ eq_refl Hp') in E. congruence.
Qed.

Lemma sorted_distinct d x u d' x' u' :
  StronglySorted key_lt (d ++ x :: u) -> d ++ x :: u = d' ++ x' :: u' -> (length d < length d')%nat -> key_lt x x'.
Proof.
  intros Hs E Hlen. assert (x' ∈ u) as Hin.
  { assert ((d ++ x :: u) !! length d' = Some x') as Hl by (rewrite E; by apply list_lookup_middle).
    rewrite lookup_app_r in Hl by lia. destruct (length d' - length d)%nat as [|k] eqn:Ek; [lia|].
    cbn in Hl. by eapply list_elem_of_lookup_2. }
  apply StronglySorted_app in Hs as (_ & _ & Hs). apply StronglySorted_inv in Hs as [_ Hs]. rewrite Forall_forall in Hs. auto.
Qed.

(** Two iterators of a tree are equal when as much is ahead of them. *)
Lemma it_eqb_ok root it d u it' d' u' :
  avl root -> bst root -> iter_at root it d u -> iter_at root it' d' u' ->
  it_eqb KOV CMP it it' = bool_decide (length u = length u').
Proof.
  intros Ha Hb Hi Hi'. pose proof (iter_at_elements _ _ _ _ Hi) as E. pose proof (iter_at_elements _ _ _ _ Hi') as E'.
  unfold it_eqb. inversion Hi as [|l v r h st b a Hp]; inversion Hi' as [|l' v' r' h' st' b' a' Hp']; subst; cbn [it_stack]; try done.
  set (e := b ++ elements l) in *. set (t := elements r ++ a) in *. set (e' := b' ++ elements l') in *. set (t' := elements r' ++ a') in *.
  assert (length e + S (length t) = length e' + S (length t'))%nat as Hlen.
  { pose proof (f_equal length E) as L1. pose proof (f_equal length E') as L2. rewrite !length_app in L1, L2. cbn in L1, L2. lia. }
  unfold ImmutableTree.bst in Hb. pose proof Hb as Hs. rewrite E in Hs. rewrite E in E'. case_bool_decide as Heq.
  - cbn [length] in Heq. apply app_inj_1 in E' as [_ [= <- _]]; [|lia].
    pose proof (path_unique _ _ _ _ _ _ _ _ _ _ _ _ _ _ Ha Hb Hp Hp') as [= -> -> -> ->].
    rewrite Nat.eqb_refl. cbn [andb]. generalize (Node l' v r' h' :: st') as stack. induction stack as [|n stack IH]; [done|].
    cbn [combine forallb fst snd]. rewrite IH, andb_true_r. by destruct n; [|apply node_eqb_refl].
  - cbn [length] in Heq. assert (CMP (KOV v) (KOV v') = true \/ CMP (KOV v') (KOV v) = true) as Hd.
    { destruct (Nat.lt_total (length e) (length e')) as [Hlt|[Heq'|Hlt]]; [left|lia|right].
      - by apply (sorted_distinct e v t e' v' t').
      - rewrite E' in Hs. by apply (sorted_distinct e' v' t' e v t). }
    cbn [combine forallb fst snd node_eqb]. by destruct Hd as [-> | ->]; rewrite ?andb_false_r.
Qed.

Lemma find_ok k t :
  avl t -> bst t ->
  match lookup KOV CMP k t with
  | Some x => exists it d u, find KOV CMP k t = Ok it /\ iter_at t it d (x :: u)
  | None => find KOV CMP k t = Ok (end_ t)
  end.
Proof.
  intros Ha Hb. destruct (lower_bound_ok k t Ha Hb) as (it & d & u & E & Hi & Hd & Hu).
  pose proof (lookup_ok k t Hb) as Hlk. unfold find. rewrite E. cbn [res_bind].
  rewrite (is_end_spec _ _ _ _ Hi). pose proof (iter_at_elements _ _ _ _ Hi) as El.
  assert (forall x, x ∈ elements t -> same_key k x = true -> x ∈ u) as Hin.
  { intros x Hx Hk. rewrite El in Hx. apply elem_of_app in Hx as [Hx|Hx]; [|done].
    rewrite Forall_forall in Hd. unfold ImmutableTree.same_key in Hk. by rewrite (Hd _ Hx) in Hk. }
  destruct u as [|y u].
  { destruct (lookup KOV CMP k t) as [x|]; [|done]. destruct Hlk as (Hx & Hk & _).
    specialize (Hin _ Hx Hk). by apply elem_of_nil in Hin. }
  rewrite (it_get_ok _ _ _ _ _ Hi). cbn [res_bind].
  pose proof (sorted_tail _ _ _ El Hb) as Hs. apply Forall_cons_iff in Hu as [Hy _].
  pose proof (tail_above _ _ _ Hs Hy) as Hu. rewrite Forall_forall in Hu.
  assert (forall x, x ∈ elements t -> same_key k x = true -> x = y) as Huniq.
  { intros x Hx Hk. specialize (Hin _ Hx Hk). apply elem_of_cons in Hin as [->|Hin]; [done|].
    unfold ImmutableTree.same_key in Hk. by rewrite (Hu _ Hin), andb_false_r in Hk. }
  destruct (lookup KOV CMP k t) as [x|].
  - destruct Hlk as (Hx & Hk & _). assert (x = y) as -> by auto. unfold ImmutableTree.same_key in Hk.
    apply andb_true_iff in Hk as [_ Hk]. apply negb_true_iff in Hk. unfold ImmutableTree.above in Hk.
    rewrite Hk. by exists it, d, u.
  - destruct (CMP k (KOV y)) eqn:Ek; [done|]. exfalso.
    assert (y ∈ elements t) as Hyt by (rewrite El; set_solver). rewrite Hlk in Hyt.
    apply elem_of_app in Hyt as [H|H]; apply list_elem_of_In, List.filter_In in H as [_ H]; unfold ImmutableTree.above in *; congruence.
Qed.

(** ** The ends *)

Lemma min_ok (t : tree (V:=V)) v u : elements t = v :: u -> min t = Ok v.
Proof.
  revert u. induction t as [|l IHl x r IHr h]; intros u E; [done|]. cbn [min].
  destruct l as [|ll lv lr lh]; [by injection E as -> _|]. cbn [isTerminator].
  rewrite elements_node in E. destruct (elements (Node ll lv lr lh)) as [|y l] eqn:El.
  - cbn in El. by destruct (elements ll).
  - injection E as -> _. by apply (IHl l).
Qed.

Lemma max_ok (t : tree (V:=V)) v u : elements t = u ++ [v] -> max t = Ok v.
Proof.
  revert u. induction t as [|l IHl x r IHr h]; intros u E; [by destruct u|]. cbn [max].
  destruct r as [|rl rv rr rh]; [by apply app_inj_tail in E as [_ ->]|]. cbn [isTerminator].
  rewrite elements_node in E. destruct (exists_last (l := elements (Node rl rv rr rh))) as (q & y & Eq).
  { cbn. by destruct (elements rl). }
  rewrite Eq in E. change (elements l ++ x :: q ++ [y]) with (elements l ++ (x :: q) ++ [y]) in E.
  rewrite app_assoc in E. apply app_inj_tail in E as [_ ->]. by apply (IHr q).
Qed.

Lemma count_ok k t : count KOV CMP k t = if lookup KOV CMP k t then 1 else 0.
Proof.
  induction t as [|l IHl x r IHr h]; cbn; [done|]. by destruct (CMP k (KOV x)), (CMP (KOV x) k).
Qed.

Lemma node_size_ok (t : tree (V:=V)) : node_size t = Z.of_nat (length (elements t)).
Proof. induction t as [|l IHl x r IHr h]; cbn [node_size elements]; [done|]. rewrite length_app. cbn. lia. Qed.

(** [lookup_previous] finds the last value whose key is not above. *)
Lemma lookup_previous_from_ok o k t :
  bst t -> lookup_previous_from KOV CMP o k t =
    match last (List.filter (fun x => negb (above k x)) (elements t)) with Some x => Some x | None => o end.
Proof.
  revert o. induction t as [|l IHl v r IHr h]; intros o Hb; cbn [lookup_previous_from]; [done|].
  pose proof Hb as Hb'. apply bst_node in Hb' as (Hl & Hr & Hlv & Hvr).
  rewrite elements_node, List.filter_app. cbn [List.filter]. unfold ImmutableTree.above at 2.
  destruct (CMP k (KOV v)) eqn:E1; [|destruct (CMP (KOV v) k) eqn:E2].
  - rewrite IHl by done. cbn [negb]. destruct (sides_lt k v _ E1 Hvr) as [_ [_ H]%Forall_cons_iff].
    rewrite (filter_none _ (elements r)), app_nil_r; [done|].
    eapply Forall_impl; [exact H|]. cbn. by intros x ->.
  - rewrite IHr by done. cbn [negb]. rewrite last_app, last_cons.
    by destruct (last (List.filter _ (elements r))).
  - cbn [negb]. destruct (sides_eq k v _ _ E1 E2 Hlv Hvr) as [_ [_ H]].
    rewrite (filter_none _ (elements r)); [by rewrite last_snoc|].
    eapply Forall_impl; [exact H|]. cbn. by intros x ->.
Qed.


(** ** Lookup after an update *)

Lemma find_app (f : V -> bool) l1 l2 :
  List.find f (l1 ++ l2) = match List.find f l1 with Some x => Some x | None => List.find f l2 end.
Proof. induction l1 as [|x l1 IH]; cbn; [done|]. by destruct (f x). Qed.

Lemma find_none (f : V -> bool) l : Forall (fun x => f x = false) l -> List.find f l = None.
Proof. induction 1 as [|x l Hx _ IH]; cbn; [done|]. by rewrite Hx. Qed.

Lemma lookup_find k t : bst t -> lookup KOV CMP k t = List.find (same_key k) (elements t).
Proof.
  intros Hb. pose proof (lookup_ok k t Hb) as H.
  assert (forall l, List.find (same_key k) (List.filter (below k) l) = None) as Hlo.
  { intros l. apply find_none, Forall_forall. intros x Hx. apply list_elem_of_In, List.filter_In in Hx as [_ Hx].
    unfold ImmutableTree.same_key. by rewrite Hx. }
  assert (forall l, List.find (same_key k) (List.filter (above k) l) = None) as Hhi.
  { intros l. apply find_none, Forall_forall. intros x Hx. apply list_elem_of_In, List.filter_In in Hx as [_ Hx].
    unfold ImmutableTree.same_key. by rewrite Hx, andb_false_r. }
  destruct (lookup KOV CMP k t) as [x|].
  - destruct H as (_ & Hx & ->). rewrite find_app, Hlo. cbn [List.find]. by rewrite Hx.
  - by rewrite H, find_app, Hlo, Hhi.
Qed.

(** Keys neither of which is below the other. *)
Definition equiv_keys (k k' : K) : bool := negb (CMP k k') && negb (CMP k' k).

Lemma equiv_keys_true k k' :
  equiv_keys k k' = true ->
  forall x, CMP k x = CMP k' x /\ CMP x k = CMP x k'.
Proof.
  unfold equiv_keys. intros H x. apply andb_true_iff in H as [H1 H2]. apply negb_true_iff in H1, H2.
  split; apply eq_true_iff_eq; split; intros C.
  - by destruct (cmp_split k k' x C) as [?|?]; [congruence|].
  - by destruct (cmp_split k' k x C) as [?|?]; [congruence|].
  - by destruct (cmp_split x k' k C) as [?|?]; [|congruence].
  - by destruct (cmp_split x k k' C) as [?|?]; [|congruence].
Qed.

Lemma same_key_equiv k k' x : equiv_keys k k' = true -> same_key k x = same_key k' x.
Proof.
  intros H. unfold ImmutableTree.same_key, ImmutableTree.below, ImmutableTree.above.
  by destruct (equiv_keys_true k k' H (KOV x)) as [-> ->].
Qed.

Lemma equiv_keys_sym k k' : equiv_keys k k' = equiv_keys k' k.
Proof. unfold equiv_keys. apply andb_comm. Qed.

Lemma same_key_equiv_keys k x : same_key k x = equiv_keys k (KOV x).
Proof. unfold ImmutableTree.same_key, ImmutableTree.below, ImmutableTree.above, equiv_keys. apply andb_comm. Qed.

(** A tree rebuilt around a key: the values below and above it, and [o] for it. *)
Lemma lookup_rebuilt k t t' (o : option V) :
  bst t -> bst t' ->
  elements t' = List.filter (below k) (elements t) ++ option_list o ++ List.filter (above k) (elements t) ->
  (forall x, o = Some x -> same_key k x = true) ->
  forall k', lookup KOV CMP k' t' = if equiv_keys k k' then o else lookup KOV CMP k' t.
Proof.
  intros Hb Hb' E Ho k'. rewrite !lookup_find by done.
  assert (forall l o', (forall x, o' = Some x -> same_key k x = true) ->
    List.find (same_key k') (List.filter (below k) l ++ option_list o' ++ List.filter (above k) l) =
    if equiv_keys k k' then o' else
      List.find (same_key k') (List.filter (below k) l ++ List.filter (above k) l)) as Key.
  { intros l o' Ho'. rewrite !find_app. destruct (equiv_keys k k') eqn:Ek.
    - rewrite find_none.
      2:{ apply Forall_forall. intros x Hx. apply list_elem_of_In, List.filter_In in Hx as [_ Hx].
          rewrite <- (same_key_equiv _ _ _ Ek). unfold ImmutableTree.same_key. by rewrite Hx. }
      destruct o' as [x|]; cbn.
      + by rewrite <- (same_key_equiv _ _ _ Ek), (Ho' x eq_refl).
      + apply find_none, Forall_forall. intros x Hx. apply list_elem_of_In, List.filter_In in Hx as [_ Hx].
        rewrite <- (same_key_equiv _ _ _ Ek). unfold ImmutableTree.same_key. by rewrite Hx, andb_false_r.
    - destruct (List.find _ (List.filter (below k) l)); [done|]. destruct o' as [x|]; cbn; [|done].
      assert (same_key k' x = false) as ->; [|done]. apply not_true_is_false. intros Hk'.
      pose proof (Ho' x eq_refl) as Hk. rewrite same_key_equiv_keys in Hk, Hk'.
      rewrite equiv_keys_sym in Hk'. unfold equiv_keys in Ek.
      destruct (equiv_keys_true _ _ Hk k') as [-> ->] in Ek.
      unfold equiv_keys in Hk'. congruence. }
  rewrite E, (Key _ o Ho). destruct (equiv_keys k k') eqn:Ek; [done|].
  pose proof (lookup_ok k t Hb) as H. destruct (lookup KOV CMP k t) as [x|] eqn:El.
  - destruct H as (_ & Hx & Et). rewrite Et at 3.
    assert (forall y, Some x = Some y -> same_key k y = true) as Hx' by (by intros y [= <-]).
    pose proof (Key (elements t) (Some x) Hx') as K2.  symmetry. exact K2.
  - by rewrite H at 3.
Qed.

(** ** The operations *)

(** What an update that leaves [o] at key [k] promises. *)
Definition updates (t t' : tree) (k : K) (o : option V) : Prop :=
  avl t' /\ bst t' /\
  forall k', lookup KOV CMP k' t' = if equiv_keys k k' then o else lookup KOV CMP k' t.

Lemma updates_intro t t' k o :
  bst t -> avl t' ->
  elements t' = List.filter (below k) (elements t) ++ option_list o ++ List.filter (above k) (elements t) ->
  (forall x, o = Some x -> same_key k x = true) -> updates t t' k o.
Proof.
  intros Hb Ha E Ho. assert (bst t') as Hb'.
  { unfold ImmutableTree.bst in *. rewrite E. destruct o as [x|]; cbn.
    - destruct (same_key_bounds k x (Ho x eq_refl)). by apply sorted_around.
    - by apply sorted_without. }
  split_and!; [done|done|]. by apply lookup_rebuilt.
Qed.

(** The updates of a balanced search tree never fail an assertion and give
    a balanced search tree; [insert] keeps the value an equivalent key already
    has, [replace] overwrites it, [remove] takes it out, and every other key is
    looked up as before. *)
Lemma tree_updates (t : tree) (v : V) (k : K) (Ha : avl t) (Hb : bst t) :
  (exists t', node_insert KOV CMP v t = Ok t' /\
     updates t t' (KOV v) (Some (from_option id v (lookup KOV CMP (KOV v) t)))) /\
  (exists t', node_replace KOV CMP v t = Ok t' /\ updates t t' (KOV v) (Some v)) /\
  (exists t', node_remove KOV CMP k t = Ok t' /\ updates t t' k None).
Proof.
  split_and!.
  - destruct (insert_ok v t Ha Hb) as (t' & -> & Ha' & _ & E). exists t'. split; [done|].
    apply updates_intro; [done|done|exact E|]. intros x [= <-].
    pose proof (lookup_ok (KOV v) t Hb) as H. destruct (lookup KOV CMP (KOV v) t); [apply H|apply same_key_refl].
  - destruct (replace_ok v t Ha Hb) as (t' & -> & Ha' & _ & E). exists t'. split; [done|].
    apply updates_intro; [done|done|exact E|]. intros x [= <-]. apply same_key_refl.
  - destruct (remove_ok k t Ha Hb) as (t' & -> & Ha' & _ & E). exists t'. split; [done|].
    by apply updates_intro.
Qed.

(** Reads [n] values from an iterator. *)
Fixpoint read_n (n : nat) (it : iterator (V:=V)) : res (list V * iterator) :=
  match n with
  | O => Ok ([], it)
  | S n =>
      let* x := it_get it in
      let* it := it_next KOV CMP it in
      let* p := read_n n it in Ok (x :: fst p, snd p)
  end.

Lemma read_n_ok root it d u :
  avl root -> bst root -> iter_at root it d u -> read_n (length u) it = Ok (u, end_ root).
Proof.
  intros Ha Hb. revert it d. induction u as [|x u IH]; intros it d Hi; cbn [length read_n].
  - by rewrite (iter_at_end _ _ _ Hi).
  - rewrite (it_get_ok _ _ _ _ _ Hi). cbn [res_bind].
    destruct (it_next_ok _ _ _ _ _ Ha Hb Hi) as (it' & -> & Hi'). cbn [res_bind].
    rewrite (IH _ _ Hi'). done.
Qed.

(** An iterator is a cursor into the sorted list of values: [begin] stands
    before all of them, dereferencing gives the one ahead, [++] moves past it and
    [--] moves back over the one behind (from the end to the last value); the
    fixed stack, as deep as the tree is high, is never overflowed, and a loop
    from [begin] reads every value in order. *)
Theorem iterator_cursor (t : tree) (Ha : avl t) (Hb : bst t) :
  (exists it, begin_ t = Ok it /\ iter_at t it [] (elements t) /\
    read_n (length (elements t)) it = Ok (elements t, end_ t)) /\
  iter_at t (end_ t) (elements t) [] /\
  (forall it d x u, iter_at t it d (x :: u) ->
    it_get it = Ok x /\ exists it', it_next KOV CMP it = Ok it' /\ iter_at t it' (d ++ [x]) u) /\
  (forall it d x u, iter_at t it (d ++ [x]) u ->
    exists it', it_prev KOV CMP it = Ok it' /\ iter_at t it' d (x :: u)).
Proof.
  split_and!.
  - destruct (begin_ok t Ha Hb) as (it & E & Hi). exists it. split_and!; [done|done|].
    by apply read_n_ok with [].
  - apply iter_end.
  - intros it d x u Hi. split; [by apply it_get_ok in Hi|]. by apply it_next_ok.
  - intros it d x u. by apply it_prev_ok.
Qed.

(** The searches of a balanced search tree: [lower_bound] stops before the
    first value whose key is not below [k], [upper_bound] before the first
    whose key is above, [find] at the value [lookup] finds or at the end,
    [lookup_previous] gives the last value whose key is not above. *)
Theorem tree_bounds (t : tree) (k : K) (Ha : avl t) (Hb : bst t) :
  (exists it, lower_bound KOV CMP k t = Ok it /\
     iter_at t it (List.filter (below k) (elements t)) (List.filter (fun x => negb (below k x)) (elements t))) /\
  (exists it, upper_bound KOV CMP k t = Ok it /\
     iter_at t it (List.filter (fun x => negb (above k x)) (elements t)) (List.filter (above k) (elements t))) /\
  match lookup KOV CMP k t with
  | Some x => exists it d u, find KOV CMP k t = Ok it /\ iter_at t it d (x :: u)
  | None => find KOV CMP k t = Ok (end_ t)
  end /\
  lookup_previous KOV CMP k t = last (List.filter (fun x => negb (above k x)) (elements t)).
Proof.
  split_and!.
  - destruct (lower_bound_ok k t Ha Hb) as (it & d & u & E & Hi & Hd & Hu). exists it. split; [done|].
    pose proof (split_below k d u _ (iter_at_elements _ _ _ _ Hi) Hd Hu) as [<- <-]. done.
  - destruct (upper_bound_ok k t Ha Hb) as (it & d & u & E & Hi & Hd & Hu). exists it. split; [done|].
    pose proof (iter_at_elements _ _ _ _ Hi) as El. rewrite El, !List.filter_app.
    rewrite (filter_all _ u Hu), (filter_none _ d Hd), (filter_all _ d), (filter_none _ u).
    + by rewrite app_nil_r.
    + eapply Forall_impl; [exact Hu|]. cbn. by intros x ->.
    + eapply Forall_impl; [exact Hd|]. cbn. by intros x ->.
  - by apply find_ok.
  - unfold lookup_previous. rewrite lookup_previous_from_ok by done. by destruct (last _).
Qed.

End search.

(** A balanced tree of [n] values is at most [3 * log2 (n + 1) + 2] high:
    lookups, updates and the iterators' stacks are logarithmic. *)
Theorem tree_height_log {V : Type} (t : tree (V:=V)) (Ha : avl t) :
  0 <= height t <= 3 * Z.log2 (node_size t + 1) + 2.
Proof.
  pose proof (height_nonneg t Ha). destruct (avl_size t Ha) as [H1 H2]. split; [done|].
  assert (height t / 3 <= Z.log2 (node_size t + 1)) by (apply Z.log2_le_pow2; lia).
  pose proof (Z.div_mod (height t) 3 ltac:(lia)). pose proof (Z.mod_pos_bound (height t) 3 ltac:(lia)). lia.
Qed.

(** The ends of a non-empty balanced tree: [min] and [max] read its first
    and last value, and [popMin] and [popMax] take exactly that value out,
    leaving a balanced tree. *)
Theorem tree_ends {V : Type} (t : tree (V:=V)) (Ha : avl t) (Hne : t <> Terminator) :
  (exists v t', min t = Ok v /\ node_popMin t = Ok (v, t') /\ avl t' /\ elements t = v :: elements t') /\
  (exists v t', max t = Ok v /\ node_popMax t = Ok (v, t') /\ avl t' /\ elements t = elements t' ++ [v]).
Proof.
  destruct (popMin_ok t Ha Hne) as (v & t' & E & Ha' & El & _).
  destruct (popMax_ok t Ha Hne) as (w & u & F & Hu & Fl & _). split.
  - exists v, t'. split_and!; [by apply min_ok with (elements t')|done..].
  - exists w, u. split_and!; [by apply max_ok with (elements u)|done..].
Qed.

(** * Maps and sets *)

(** ImmutableMap and ImmutableSet pass every call to the tree. *)
Module ImmutableMap.
Section map.
Context {K D : Type} (CMP : K -> K -> bool).

Definition value_type : Type := K * D.
(* _Select1st *)
Definition Select1st (v : value_type) : K := fst v.
Definition Tree : Type := tree (V:=value_type).

Definition new : Tree := Terminator.
Definition empty (m : Tree) : bool := isTerminator m.
Definition count (m : Tree) (key : K) : Z := ImmutableTree.count Select1st CMP key m.
Definition lookup (m : Tree) (key : K) : option value_type := ImmutableTree.lookup Select1st CMP key m.
Definition lookup_previous (m : Tree) (key : K) : option value_type :=
  ImmutableTree.lookup_previous Select1st CMP key m.
Definition min (m : Tree) : res value_type := ImmutableTree.min m.
Definition max (m : Tree) : res value_type := ImmutableTree.max m.
Definition size (m : Tree) : Z := node_size m.
Definition insert (m : Tree) (v : value_type) : res Tree := node_insert Select1st CMP v m.
Definition replace (m : Tree) (v : value_type) : res Tree := node_replace Select1st CMP v m.
Definition remove (m : Tree) (key : K) : res Tree := node_remove Select1st CMP key m.
Definition find (m : Tree) (key : K) : res iterator := ImmutableTree.find Select1st CMP key m.
Definition lower_bound (m : Tree) (key : K) : res iterator := ImmutableTree.lower_bound Select1st CMP key m.
Definition upper_bound (m : Tree) (key : K) : res iterator := ImmutableTree.upper_bound Select1st CMP key m.

(** The finite map a tree stands for. *)
Definition denote (m : Tree) (key : K) : option D := snd <$> lookup m key.
Definition wf (m : Tree) : Prop := avl m /\ bst Select1st CMP m.

Lemma wf_new : wf new.
Proof. split; [done|]. unfold bst. constructor. Qed.

End map.
End ImmutableMap.

Section map_refinement.
Context {K D : Type} (CMP : K -> K -> bool) {order : StrictTotalOrder CMP}.
Context {eqdec : EqDecision K}.
Import ImmutableMap.

Lemma equiv_keys_decide k k' : equiv_keys CMP k k' = bool_decide (k = k').
Proof.
  apply eq_true_iff_eq. rewrite bool_decide_eq_true. unfold equiv_keys. rewrite andb_true_iff, !negb_true_iff.
  split; [intros []; by apply cmp_total|]. intros ->. by rewrite (cmp_irrefl (CMP:=CMP)).
Qed.

Lemma updates_denote (m m' : Tree (K:=K) (D:=D)) k o :
  updates Select1st CMP m m' k o ->
  wf CMP m' /\ forall k', denote CMP m' k' = if bool_decide (k = k') then snd <$> o else denote CMP m k'.
Proof.
  intros (Ha & Hb & H). split; [done|]. intros k'. unfold denote, lookup. rewrite H, equiv_keys_decide.
  by case_bool_decide.
Qed.

(** C36. The persistent map implements a finite map: starting from the empty
    map, no update ever fails an assertion or unbalances the tree, [insert]
    adds a binding unless the key has one, [replace] sets it, [remove] deletes
    it, all other keys keep their bindings, [count] and [find] agree with
    [lookup], and the size is the number of bindings. *)
Theorem immutable_map_refines (m : Tree (K:=K) (D:=D)) (k : K) (d : D) (Hm : wf CMP m) :
  (exists m', insert CMP m (k, d) = Ok m' /\ wf CMP m' /\
     forall k', denote CMP m' k' =
       if bool_decide (k = k') then Some (from_option id d (denote CMP m k)) else denote CMP m k') /\
  (exists m', replace CMP m (k, d) = Ok m' /\ wf CMP m' /\
     forall k', denote CMP m' k' = if bool_decide (k = k') then Some d else denote CMP m k') /\
  (exists m', remove CMP m k = Ok m' /\ wf CMP m' /\
     forall k', denote CMP m' k' = if bool_decide (k = k') then None else denote CMP m k') /\
  count CMP m k = (if denote CMP m k then 1 else 0) /\
  match denote CMP m k with
  | Some x => exists it b u, find CMP m k = Ok it /\ iter_at m it b ((k, x) :: u)
  | None => find CMP m k = Ok (end_ m)
  end /\
  size m = Z.of_nat (length (elements m)).
Proof.
  destruct Hm as [Ha Hb]. destruct (tree_updates Select1st CMP m (k, d) k Ha Hb)
    as ((m1 & E1 & U1) & (m2 & E2 & U2) & (m3 & E3 & U3)). split_and!.
  - exists m1. split; [exact E1|]. destruct (updates_denote _ _ _ _ U1) as [Hw H]. split; [exact Hw|].
    intros k'. rewrite H. unfold denote, lookup. cbn [Select1st fst]. case_bool_decide; [|done].
    by destruct (ImmutableTree.lookup _ _ k m).
  - exists m2. split; [exact E2|]. exact (updates_denote _ _ _ _ U2).
  - exists m3. split; [exact E3|]. exact (updates_denote _ _ _ _ U3).
  - unfold count, denote, lookup. rewrite count_ok. by destruct (ImmutableTree.lookup _ _ k m).
  - pose proof (find_ok Select1st CMP k m Ha Hb) as H. pose proof (lookup_ok Select1st CMP k m Hb) as L.
    unfold denote, lookup, find. destruct (ImmutableTree.lookup _ _ k m) as [[k1 x]|]; cbn [fmap option_fmap option_map snd]; [|exact H].
    destruct L as (_ & Hs & _). rewrite same_key_equiv_keys, equiv_keys_decide in Hs. apply bool_decide_eq_true in Hs.
    cbn [Select1st fst] in Hs. by subst k1.
  - apply node_size_ok.
Qed.

End map_refinement.

(** ** Concrete maps *)

Module Examples.

Fixpoint insert_all (l : list (Z * Z)) (m : tree (V:=Z * Z)) : res (tree (V:=Z * Z)) :=
  match l with
  | [] => Ok m
  | v :: l => let* m := ImmutableMap.insert Z.ltb m v in insert_all l m
  end.

(* 1..7 in order, through two rotations *)
Definition seven : tree (V:=Z * Z) :=
  match insert_all [(1, 10); (2, 20); (3, 30); (4, 40); (5, 50); (6, 60); (7, 70)] Terminator with
  | Ok m => m
  | _ => Terminator
  end.

Example seven_elements :
  elements seven = [(1, 10); (2, 20); (3, 30); (4, 40); (5, 50); (6, 60); (7, 70)] /\ height seven = 4.
Proof. split; vm_compute; reflexivity. Qed.

Lemma wf_seven : ImmutableMap.wf Z.ltb seven.
Proof.
  split; [vm_compute; repeat split; congruence|]. change (StronglySorted (key_lt fst Z.ltb) (elements seven)). rewrite (proj1 seven_elements).
  repeat (constructor; [|repeat constructor]). constructor.
Qed.

End Examples.
Import Examples.

Lemma immutable_map_refines_witness :
  ImmutableMap.wf Z.ltb seven /\
  exists m', ImmutableMap.remove Z.ltb seven 4 = Ok m' /\ ImmutableMap.wf Z.ltb m' /\
    forall k', ImmutableMap.denote Z.ltb m' k' = if bool_decide (4 = k') then None else ImmutableMap.denote Z.ltb seven k'.
Proof.
  split; [exact wf_seven|].
  refine (proj1 (proj2 (proj2 (immutable_map_refines Z.ltb seven 4 0 wf_seven)))).
Defined.

Lemma iterator_cursor_witness :
  exists it, begin_ seven = Ok it /\ read_n fst Z.ltb 7 it = Ok (elements seven, end_ seven).
Proof.
  destruct (iterator_cursor fst Z.ltb seven (proj1 wf_seven) (proj2 wf_seven)) as [(it & E & _ & H) _].
  exists it. split; [exact E|]. exact H.
Defined.

Lemma tree_bounds_witness :
  exists it, lower_bound fst Z.ltb 4 seven = Ok it /\
    iter_at seven it [(1, 10); (2, 20); (3, 30)] [(4, 40); (5, 50); (6, 60); (7, 70)].
Proof. exact (proj1 (tree_bounds fst Z.ltb seven 4 (proj1 wf_seven) (proj2 wf_seven))). Defined.

Lemma tree_height_log_witness : 0 <= height seven <= 3 * Z.log2 (node_size seven + 1) + 2.
Proof. exact (tree_height_log seven (proj1 wf_seven)). Defined.

Lemma tree_ends_witness :
  exists v t', min seven = Ok v /\ node_popMin seven = Ok (v, t') /\ avl t' /\ elements seven = v :: elements t'.
Proof. refine (proj1 (tree_ends seven (proj1 wf_seven) _)). vm_compute. discriminate. Defined.
