(* ===== verification/KTest.v ===== *)
(** The test-case files of klee/lib/Basic/KTest.cpp.

    - A stream is the list of the bytes still to be read, or of those written
      so far; a program on it returns ([Ret]), jumps to its error exit ([Fail])
      or does something the language leaves undefined ([Crash]).
    - [fread] and [fwrite] of one item of size zero return 0, as the C standard
      says.
    - [malloc n] tells whether the allocator grants [n] bytes, [room] is how
      many bytes a file may have, [opened] the success of [fopen].
    - A [char *] is the buffer it points to.
    - [fclose] and the release of memory are left out. *)
From Stdlib Require Import ZArith Lia Bool.
From stdpp Require Import base list numbers option.
From S2P Require Import Prelude.
Open Scope Z_scope.

(** * Streams *)

Inductive out (A : Type) : Type := Ret (v : A) | Fail | Crash.
Arguments Ret {A} v.
Arguments Fail {A}.
Arguments Crash {A}.

Definition io (A : Type) : Type := list Z -> out (A * list Z).

Definition ret {A} (v : A) : io A := fun f => Ret (v, f).
Definition fail {A} : io A := fun _ => Fail.
Definition crash {A} : io A := fun _ => Crash.
Definition bind {A B} (m : io A) (k : A -> io B) : io B :=
  fun f => match m f with Ret (v, f') => k v f' | Fail => Fail | Crash => Crash end.

#[local] Notation "x <-- m ;; k" := (bind m (fun x => k)) (at level 100, m at next level, right associativity).
#[local] Notation "m >>> k" := (bind m (fun _ => k)) (at level 100, right associativity).

(* if (!b) goto error; *)
Definition guard (b : bool) : io unit := if b then ret tt else fail.

(** * Reading and writing *)

Section io.
Context (malloc : Z -> bool) (room : Z).

(* fread(buffer of cap bytes, len, 1, f) != 1 fails; what the file has of the
   item is stored even when it is too short *)
Definition fread (cap len : Z) : io (list Z) := fun f =>
  if len =? 0 then Fail
  else if cap <? Z.min len (Z.of_nat (length f)) then Crash
  else if Z.of_nat (length f) <? len then Fail
  else Ret (take (Z.to_nat len) f, drop (Z.to_nat len) f).

(* fwrite(the first len bytes of data, len, 1, f) != 1 fails *)
Definition fwrite (data : list Z) (len : Z) : io unit := fun f =>
  if len =? 0 then Fail
  else if room <? Z.of_nat (length f) + len then Fail
  else Ret (tt, f ++ take (Z.to_nat len) data).

Definition read_uint32 : io Z :=
  data <-- fread 4 4 ;;
  match data with
  | [d0; d1; d2; d3] =>
      ret (wrap 32 (Z.shiftl (Z.shiftl (Z.shiftl d0 8 + d1) 8 + d2) 8 + d3))
  | _ => crash
  end.

(* data[i] is an unsigned char; fwrite(data, 1, 4, f) == 4 *)
Definition write_uint32 (value : Z) : io unit :=
  fwrite [wrap 8 (Z.shiftr value 24); wrap 8 (Z.shiftr value 16); wrap 8 (Z.shiftr value 8);
          wrap 8 (Z.shiftr value 0)] 4.

(* the buffer has len+1 bytes, a sum of 32 bits *)
Definition read_string : io (list Z) :=
  len <-- read_uint32 ;;
  guard (malloc (wrap 32 (len + 1))) >>>
  (s <-- fread (wrap 32 (len + 1)) len ;;
   if wrap 32 (len + 1) <=? len then crash else ret (s ++ [0])).

Fixpoint strlen (s : list Z) : option Z :=
  match s with
  | [] => None
  | c :: s => if c =? 0 then Some 0 else Z.succ <$> strlen s
  end.

Definition write_string (value : list Z) : io unit :=
  match strlen value with
  | None => crash
  | Some n => let len := wrap 32 n in write_uint32 len >>> fwrite value len
  end.

(** * Test cases *)

Record KTestObject : Type := { name : list Z; numBytes : Z; bytes : list Z }.

Record KTest : Type := {
  version : Z;
  numArgs : Z; args : list (list Z);
  symArgvs : Z; symArgvLen : Z;
  numObjects : Z; objects : list KTestObject;
}.

Definition KTEST_VERSION : Z := 3.
Definition KTEST_MAGIC_SIZE : Z := 5.
(* "KTEST" and "BOUT\n" *)
Definition KTEST_MAGIC : list Z := [75; 84; 69; 83; 84].
Definition BOUT_MAGIC : list Z := [66; 79; 85; 84; 10].

Definition kTest_getCurrentVersion : Z := KTEST_VERSION.

Definition kTest_checkHeader : io unit :=
  header <-- fread KTEST_MAGIC_SIZE KTEST_MAGIC_SIZE ;;
  guard (negb (negb (bool_decide (header = KTEST_MAGIC)) && negb (bool_decide (header = BOUT_MAGIC)))).

(* the error exit returns 0 *)
Definition kTest_isKTestFile (opened : bool) (f : list Z) : out bool :=
  if negb opened then Ret false
  else match kTest_checkHeader f with Ret _ => Ret true | Fail => Ret false | Crash => Crash end.

(* for (i=0; i<numArgs; i++) *)
Fixpoint read_args (n : nat) : io (list (list Z)) :=
  match n with
  | O => ret []
  | S n => a <-- read_string ;; l <-- read_args n ;; ret (a :: l)
  end.

(* the result of malloc(numBytes) is not tested *)
Definition read_object : io KTestObject :=
  name <-- read_string ;;
  numBytes <-- read_uint32 ;;
  bytes <-- fread (if malloc numBytes then numBytes else 0) numBytes ;;
  ret {| name := name; numBytes := numBytes; bytes := bytes |}.

Fixpoint read_objects (n : nat) : io (list KTestObject) :=
  match n with
  | O => ret []
  | S n => o <-- read_object ;; l <-- read_objects n ;; ret (o :: l)
  end.

(* sizes: 48 for a KTest, 8 for a pointer, 24 for a KTestObject *)
Definition kTest_read : io KTest :=
  kTest_checkHeader >>>
  guard (malloc 48) >>>
  (version <-- read_uint32 ;;
   guard (negb (kTest_getCurrentVersion <? version)) >>>
   (numArgs <-- read_uint32 ;;
    guard (malloc (8 * numArgs)) >>>
    (args <-- read_args (Z.to_nat numArgs) ;;
     sym <-- (if 2 <=? version
              then a <-- read_uint32 ;; b <-- read_uint32 ;; ret (a, b)
              else ret (0, 0)) ;;
     numObjects <-- read_uint32 ;;
     guard (malloc (24 * numObjects)) >>>
     (objects <-- read_objects (Z.to_nat numObjects) ;;
      ret {| version := version; numArgs := numArgs; args := args;
             symArgvs := fst sym; symArgvLen := snd sym;
             numObjects := numObjects; objects := objects |})))).

(* the result is null at the error exit *)
Definition kTest_fromFile (opened : bool) (f : list Z) : out (option KTest) :=
  if negb opened then Ret None
  else match kTest_read f with Ret (t, _) => Ret (Some t) | Fail => Ret None | Crash => Crash end.

Fixpoint write_args (n i : nat) (args : list (list Z)) : io unit :=
  match n with
  | O => ret tt
  | S n => match args !! i with
           | None => crash
           | Some a => write_string a >>> write_args n (S i) args
           end
  end.

Definition write_object (o : KTestObject) : io unit :=
  write_string (name o) >>> write_uint32 (numBytes o) >>>
  (if Z.of_nat (length (bytes o)) <? numBytes o then crash else fwrite (bytes o) (numBytes o)).

Fixpoint write_objects (n i : nat) (objects : list KTestObject) : io unit :=
  match n with
  | O => ret tt
  | S n => match objects !! i with
           | None => crash
           | Some o => write_object o >>> write_objects n (S i) objects
           end
  end.

Definition kTest_write (bo : KTest) : io unit :=
  fwrite KTEST_MAGIC 5 >>>
  write_uint32 KTEST_VERSION >>>
  write_uint32 (numArgs bo) >>>
  write_args (Z.to_nat (numArgs bo)) 0 (args bo) >>>
  write_uint32 (symArgvs bo) >>>
  write_uint32 (symArgvLen bo) >>>
  write_uint32 (numObjects bo) >>>
  write_objects (Z.to_nat (numObjects bo)) 0 (objects bo).

(* the file, or nothing when 0 is returned *)
Definition kTest_toFile (opened : bool) (bo : KTest) : out (option (list Z)) :=
  if negb opened then Ret None
  else match kTest_write bo [] with Ret (_, f) => Ret (Some f) | Fail => Ret None | Crash => Crash end.

Fixpoint sum_bytes (n i : nat) (objects : list KTestObject) (res : Z) : out Z :=
  match n with
  | O => Ret res
  | S n => match objects !! i with
           | None => Crash
           | Some o => sum_bytes n (S i) objects (wrap 32 (res + numBytes o))
           end
  end.

Definition kTest_numBytes (bo : KTest) : out Z := sum_bytes (Z.to_nat (numObjects bo)) 0 (objects bo) 0.

End io.

(** * The file format *)

Definition encode_uint32 (v : Z) : list Z :=
  [wrap 8 (Z.shiftr v 24); wrap 8 (Z.shiftr v 16); wrap 8 (Z.shiftr v 8); wrap 8 (Z.shiftr v 0)].
(* a buffer without its final NUL *)
Definition encode_string (a : list Z) : list Z :=
  encode_uint32 (Z.of_nat (length a) - 1) ++ removelast a.
Definition encode_object (o : KTestObject) : list Z :=
  encode_string (name o) ++ encode_uint32 (numBytes o) ++ bytes o.
Definition encode (bo : KTest) : list Z :=
  KTEST_MAGIC ++ encode_uint32 KTEST_VERSION ++ encode_uint32 (numArgs bo) ++
  concat (encode_string <$> args bo) ++ encode_uint32 (symArgvs bo) ++ encode_uint32 (symArgvLen bo) ++
  encode_uint32 (numObjects bo) ++ concat (encode_object <$> objects bo).

Definition uint32 (v : Z) : Prop := 0 <= v < 2 ^ 32.

(** A NUL-terminated buffer. *)
Definition c_string (a : list Z) : Prop :=
  exists s, a = s ++ [0] /\ Forall (fun c => c <> 0) s /\ Z.of_nat (length s) < 2 ^ 32 - 1.
Definition wf_object (o : KTestObject) : Prop :=
  c_string (name o) /\ uint32 (numBytes o) /\ Z.of_nat (length (bytes o)) = numBytes o.
Definition wf (bo : KTest) : Prop :=
  uint32 (numArgs bo) /\ Z.of_nat (length (args bo)) = numArgs bo /\ Forall c_string (args bo) /\
  uint32 (symArgvs bo) /\ uint32 (symArgvLen bo) /\
  uint32 (numObjects bo) /\ Z.of_nat (length (objects bo)) = numObjects bo /\ Forall wf_object (objects bo).

(** No empty string and no empty object: what the file can hold. *)
Definition nonempty_string (a : list Z) : bool := 1 <? Z.of_nat (length a).
Definition storable_object (o : KTestObject) : bool := nonempty_string (name o) && (0 <? numBytes o).
Definition storable (bo : KTest) : bool :=
  forallb nonempty_string (args bo) && forallb storable_object (objects bo).

(** * Writing *)

Section writing.
Context (room : Z).

(** [m] appends [bs] if [ok] and there is room, and fails otherwise. *)
Definition writes (m : io unit) (ok : bool) (bs : list Z) : Prop :=
  forall f, Z.of_nat (length f) <= room ->
    m f = if ok && (Z.of_nat (length f) + Z.of_nat (length bs) <=? room) then Ret (tt, f ++ bs) else Fail.

Lemma writes_ret : writes (ret tt) true [].
Proof. intros f Hf. cbn. rewrite (proj2 (Z.leb_le _ _)) by lia. by rewrite app_nil_r. Qed.

Lemma writes_bind m1 m2 ok1 ok2 bs1 bs2 :
  writes m1 ok1 bs1 -> writes m2 ok2 bs2 -> writes (bind m1 (fun _ => m2)) (ok1 && ok2) (bs1 ++ bs2).
Proof.
  intros H1 H2 f Hf. unfold bind. rewrite H1 by done. rewrite length_app.
  destruct ok1; cbn [andb]; [|done].
  destruct (Z.of_nat (length f) + Z.of_nat (length bs1) <=? room) eqn:E; tidy_bools.
  - rewrite H2 by (rewrite length_app; lia). rewrite length_app, <- app_assoc.
    replace (Z.of_nat (length f + length bs1) + Z.of_nat (length bs2)) with
      (Z.of_nat (length f) + Z.of_nat (length bs1 + length bs2)) by lia. done.
  - rewrite (proj2 (Z.leb_gt _ _)) by lia. by rewrite andb_false_r.
Qed.

Lemma writes_fwrite data len :
  Z.of_nat (length data) = len -> writes (fwrite room data len) (0 <? len) data.
Proof.
  intros <- f Hf. unfold fwrite. destruct data as [|d data]; [done|].
  rewrite (proj2 (Z.eqb_neq _ 0)) by (cbn [length]; lia). rewrite (proj2 (Z.ltb_lt 0 _)) by (cbn [length]; lia).
  cbn [andb]. rewrite Nat2Z.id, firstn_all. unfold Z.ltb, Z.leb. rewrite Z.compare_antisym.
  by destruct (_ ?= _).
Qed.

Lemma writes_uint32 v : writes (write_uint32 room v) true (encode_uint32 v).
Proof. exact (writes_fwrite (encode_uint32 v) 4 eq_refl). Qed.

Lemma strlen_string s : Forall (fun c => c <> 0) s -> strlen (s ++ [0]) = Some (Z.of_nat (length s)).
Proof.
  induction 1 as [|c s Hc Hs IH]; [done|]. cbn [app strlen length]. rewrite (proj2 (Z.eqb_neq _ _) Hc), IH.
  cbn. f_equal. lia.
Qed.

Lemma writes_string a : c_string a -> writes (write_string room a) (nonempty_string a) (encode_string a).
Proof.
  intros (s & -> & Hs & Hl). unfold write_string, encode_string, nonempty_string.
  rewrite strlen_string, wrap_small, removelast_last, length_app by (done || lia). cbn [length].
  replace (Z.of_nat (length s + 1) - 1) with (Z.of_nat (length s)) by lia.
  replace (1 <? Z.of_nat (length s + 1)) with (0 <? Z.of_nat (length s)).
  2:{ apply eq_true_iff_eq. rewrite !Z.ltb_lt. lia. }
  apply (writes_bind _ _ true); [apply writes_uint32|]. intros f Hf.
  etransitivity; [|exact (writes_fwrite s _ eq_refl f Hf)]. unfold fwrite.
  by rewrite Nat2Z.id, take_app_le, firstn_all by lia.
Qed.

Lemma lookup_of_drop {A} (i : nat) (l : list A) a r : drop i l = a :: r -> l !! i = Some a /\ drop (S i) l = r.
Proof.
  intros H. split.
  - rewrite <- (Nat.add_0_r i), <- lookup_drop, H. done.
  - by rewrite <- Nat.add_1_r, <- drop_drop, H.
Qed.

Lemma writes_args l i all :
  drop i all = l -> Forall c_string l ->
  writes (write_args room (length l) i all) (forallb nonempty_string l) (concat (encode_string <$> l)).
Proof.
  intros E Hl. revert i E. induction Hl as [|a l Ha Hl IH]; intros i E;
    cbn [write_args forallb fmap list_fmap concat length]; [apply writes_ret|].
  destruct (lookup_of_drop _ _ _ _ E) as [-> E']. apply writes_bind; [by apply writes_string|by apply IH].
Qed.

Lemma writes_object o : wf_object o -> writes (write_object room o) (storable_object o) (encode_object o).
Proof.
  intros (Hn & Hb & Hl). unfold write_object, storable_object, encode_object.
  apply writes_bind; [by apply writes_string|]. apply (writes_bind _ _ true); [apply writes_uint32|].
  rewrite (proj2 (Z.ltb_ge _ _)) by lia. by apply writes_fwrite.
Qed.

Lemma writes_objects l i all :
  drop i all = l -> Forall wf_object l ->
  writes (write_objects room (length l) i all) (forallb storable_object l) (concat (encode_object <$> l)).
Proof.
  intros E Hl. revert i E. induction Hl as [|a l Ha Hl IH]; intros i E;
    cbn [write_objects forallb fmap list_fmap concat length]; [apply writes_ret|].
  destruct (lookup_of_drop _ _ _ _ E) as [-> E']. apply writes_bind; [by apply writes_object|by apply IH].
Qed.

Lemma writes_ktest bo : wf bo -> writes (kTest_write room bo) (storable bo) (encode bo).
Proof.
  intros (Ha & Hla & Hfa & Hs1 & Hs2 & Ho & Hlo & Hfo). unfold kTest_write, encode.
  rewrite <- Hla, <- Hlo, !Nat2Z.id. change (storable bo) with
    (true && (true && (true && (forallb nonempty_string (args bo) && (true && (true && (true &&
       forallb storable_object (objects bo)))))))).
  apply writes_bind; [exact (writes_fwrite KTEST_MAGIC 5 eq_refl)|].
  repeat (apply writes_bind; [apply writes_uint32 || by apply writes_args|]). by apply writes_objects.
Qed.

End writing.

(** * Reading *)

Section reading.

(** [m] takes [bs] off the stream and gives [v]. *)
Definition reads {A} (m : io A) (bs : list Z) (v : A) : Prop := forall f, m (bs ++ f) = Ret (v, f).

Lemma reads_ret {A} (v : A) : reads (ret v) [] v.
Proof. by intros f. Qed.

Lemma reads_bind {A B} (m : io A) (k : A -> io B) bs1 bs2 v w :
  reads m bs1 v -> reads (k v) bs2 w -> reads (bind m k) (bs1 ++ bs2) w.
Proof. intros H1 H2 f. unfold bind. by rewrite <- app_assoc, H1, H2. Qed.

Lemma reads_last {A B} (m : io A) (k : A -> io B) bs v w :
  reads m bs v -> reads (k v) [] w -> reads (bind m k) bs w.
Proof. intros H1 H2. rewrite <- (app_nil_r bs). by eapply reads_bind. Qed.

Lemma reads_guard {B} b (m : io B) bs w : b = true -> reads m bs w -> reads (bind (guard b) (fun _ => m)) bs w.
Proof. intros -> H f. apply H. Qed.

Lemma reads_fread data cap len :
  Z.of_nat (length data) = len -> 0 < len <= cap -> reads (fread cap len) data data.
Proof.
  intros <- Hc f. unfold fread. rewrite (proj2 (Z.eqb_neq _ 0)) by lia. rewrite length_app.
  rewrite !(proj2 (Z.ltb_ge _ _)) by lia. by rewrite Nat2Z.id, take_app_length, drop_app_length.
Qed.

Lemma reads_uint32 v : uint32 v -> reads read_uint32 (encode_uint32 v) v.
Proof.
  intros Hv. eapply reads_last; [by apply reads_fread|]. cbn [encode_uint32].
  replace (wrap 32 _) with v; [apply reads_ret|]. unfold uint32, wrap in *.
  rewrite !Z.shiftl_mul_pow2, !Z.shiftr_div_pow2 by lia. change (2 ^ 0) with 1. change (2 ^ 8) with 256.
  change (2 ^ 16) with 65536. change (2 ^ 24) with 16777216. change (2 ^ 32) with 4294967296 in *.
  Z.to_euclidean_division_equations; lia.
Qed.

Context (malloc : Z -> bool).
Hypothesis malloc_ok : forall n, malloc n = true.

Lemma reads_string a : c_string a -> nonempty_string a = true -> reads (read_string malloc) (encode_string a) a.
Proof.
  intros (s & -> & _ & Hl) Hn. unfold nonempty_string, encode_string in *. rewrite length_app in *. cbn [length] in *.
  tidy_bools. rewrite removelast_last. replace (Z.of_nat (length s + 1) - 1) with (Z.of_nat (length s)) by lia.
  eapply reads_bind; [apply reads_uint32; unfold uint32; lia|]. cbn beta.
  apply reads_guard; [apply malloc_ok|]. rewrite wrap_small by lia.
  eapply reads_last; [apply reads_fread; [done|lia]|]. cbn beta.
  rewrite (proj2 (Z.leb_gt _ _)) by lia. apply reads_ret.
Qed.

Lemma reads_args l :
  Forall c_string l -> forallb nonempty_string l = true ->
  reads (read_args malloc (length l)) (concat (encode_string <$> l)) l.
Proof.
  induction 1 as [|a l Ha Hl IH]; intros Hn;
    cbn [read_args fmap list_fmap concat length]; [apply reads_ret|]. cbn in Hn. apply andb_true_iff in Hn as [Hn Hn'].
  eapply reads_bind; [by apply reads_string|].
  eapply reads_last; [by apply IH|]. apply reads_ret.
Qed.

Lemma reads_object o : wf_object o -> storable_object o = true -> reads (read_object malloc) (encode_object o) o.
Proof.
  intros (Hn & Hb & Hl) Hs. unfold storable_object in Hs. tidy_bools. unfold read_object, encode_object.
  eapply reads_bind; [by apply reads_string|]. cbn beta.
  eapply reads_bind; [by apply reads_uint32|]. cbn beta. rewrite malloc_ok.
  eapply reads_last; [apply reads_fread; [done|lia]|]. destruct o. apply reads_ret.
Qed.

Lemma reads_objects l :
  Forall wf_object l -> forallb storable_object l = true ->
  reads (read_objects malloc (length l)) (concat (encode_object <$> l)) l.
Proof.
  induction 1 as [|a l Ha Hl IH]; intros Hn;
    cbn [read_objects fmap list_fmap concat length]; [apply reads_ret|]. cbn in Hn. apply andb_true_iff in Hn as [Hn Hn'].
  eapply reads_bind; [by apply reads_object|].
  eapply reads_last; [by apply IH|]. apply reads_ret.
Qed.

Lemma reads_header : reads kTest_checkHeader KTEST_MAGIC tt.
Proof. eapply reads_last; [by apply reads_fread|]. apply reads_ret. Qed.

(** A test case as [kTest_toFile] writes it: in the current version. *)
Definition current (bo : KTest) : KTest :=
  {| version := KTEST_VERSION; numArgs := numArgs bo; args := args bo; symArgvs := symArgvs bo;
     symArgvLen := symArgvLen bo; numObjects := numObjects bo; objects := objects bo |}.

Lemma reads_ktest bo : wf bo -> storable bo = true -> reads (kTest_read malloc) (encode bo) (current bo).
Proof.
  intros (Ha & Hla & Hfa & Hs1 & Hs2 & Ho & Hlo & Hfo) Hst. unfold storable in Hst. tidy_bools. unfold kTest_read, encode.
  eapply reads_bind; [apply reads_header|]. apply reads_guard; [apply malloc_ok|].
  eapply reads_bind; [apply reads_uint32; done|]. apply reads_guard; [done|].
  eapply reads_bind; [apply reads_uint32; done|]. apply reads_guard; [apply malloc_ok|].
  rewrite <- Hla, Nat2Z.id. eapply reads_bind; [by apply reads_args|]. rewrite app_assoc.
  eapply reads_bind.
  { cbn [Z.leb]. change (2 <=? KTEST_VERSION) with true. cbn iota.
    eapply reads_bind; [by apply reads_uint32|].
    eapply reads_last; [by apply reads_uint32|]. apply reads_ret. }
  eapply reads_bind; [apply reads_uint32; done|]. apply reads_guard; [apply malloc_ok|].
  rewrite <- Hlo, Nat2Z.id. eapply reads_last; [by apply reads_objects|].
  unfold current. rewrite <- Hla, <- Hlo. apply reads_ret.
Qed.

End reading.

(** * Malformed files *)

Section safety.
Context (malloc : Z -> bool).
Hypothesis malloc_ok : forall n, malloc n = true.

(** A file of bytes in which nowhere four 255 follow each other. *)
Definition plain (f : list Z) : Prop :=
  Forall (fun c => 0 <= c < 256) f /\ forall pre post, f <> pre ++ [255; 255; 255; 255] ++ post.

Lemma plain_drop n f : plain f -> plain (drop n f).
Proof.
  intros [Hb Hp]. split; [by apply Forall_drop|]. intros pre post E. apply (Hp (take n f ++ pre) post).
  by rewrite <- app_assoc, <- E, take_drop.
Qed.

(** On such a file [m] does nothing undefined and its result satisfies [P]. *)
Definition safe {A} (m : io A) (P : A -> Prop) : Prop :=
  forall f, plain f -> match m f with Ret (v, f') => plain f' /\ P v | Fail => True | Crash => False end.

Lemma safe_ret {A} (v : A) (P : A -> Prop) : P v -> safe (ret v) P.
Proof. intros H f Hf. done. Qed.

Lemma safe_bind {A B} (m : io A) (k : A -> io B) P Q :
  safe m P -> (forall v, P v -> safe (k v) Q) -> safe (bind m k) Q.
Proof.
  intros H1 H2 f Hf. unfold bind. specialize (H1 f Hf). destruct (m f) as [[v f']| |]; try done.
  destruct H1 as [Hf' Hv]. by apply (H2 v Hv).
Qed.

Lemma safe_guard b : safe (guard b) (fun _ => True).
Proof. intros f Hf. by destruct b. Qed.

Lemma safe_fread cap len : len <= cap -> safe (fread cap len) (fun _ => True).
Proof.
  intros Hc f Hf. unfold fread. destruct (len =? 0); [done|].
  rewrite (proj2 (Z.ltb_ge _ _)) by lia. destruct (_ <? len); [done|]. split; [by apply plain_drop|done].
Qed.

Lemma safe_uint32 : safe read_uint32 (fun v => 0 <= v < 2 ^ 32 - 1).
Proof.
  intros f Hf. unfold read_uint32, bind, fread. cbn [Z.eqb].
  destruct f as [|d0 [|d1 [|d2 [|d3 f]]]]; try done.
  rewrite (proj2 (Z.ltb_ge 4 _)) by lia. rewrite (proj2 (Z.ltb_ge _ 4)) by (cbn [length]; lia).
  change (Z.to_nat 4) with 4%nat. cbn [take drop firstn skipn]. unfold ret.
  split; [exact (plain_drop 4 _ Hf)|]. destruct Hf as [Hb Hp].
  rewrite !Forall_cons_iff in Hb. destruct Hb as (H0 & H1 & H2 & H3 & _). cbn beta in *.
  assert (~ (d0 = 255 /\ d1 = 255 /\ d2 = 255 /\ d3 = 255)) as Hn.
  { intros (-> & -> & -> & ->). by apply (Hp [] f). }
  rewrite !Z.shiftl_mul_pow2 by lia. change (2 ^ 8) with 256.
  change (2 ^ 32 - 1) with 4294967295. rewrite wrap_small by (change (2 ^ 32) with 4294967296; lia). lia.
Qed.

Lemma safe_string : safe (read_string malloc) (fun _ => True).
Proof.
  eapply safe_bind; [apply safe_uint32|]. intros len Hl. cbn beta in Hl. rewrite wrap_small by lia.
  eapply safe_bind; [apply safe_guard|]. intros [] _.
  eapply safe_bind; [apply safe_fread; lia|]. intros s _. rewrite (proj2 (Z.leb_gt _ _)) by lia.
  by apply safe_ret.
Qed.

Lemma safe_loop {A} (read : io A) (loop : nat -> io (list A)) :
  loop O = ret [] -> (forall n, loop (S n) = bind read (fun a => bind (loop n) (fun l => ret (a :: l)))) ->
  safe read (fun _ => True) -> forall n, safe (loop n) (fun _ => True).
Proof.
  intros H0 HS Hr n. induction n as [|n IH]; [rewrite H0; by apply safe_ret|]. rewrite HS.
  eapply safe_bind; [exact Hr|]. intros a _. eapply safe_bind; [exact IH|]. intros l _. by apply safe_ret.
Qed.

Lemma safe_object : safe (read_object malloc) (fun _ => True).
Proof.
  eapply safe_bind; [apply safe_string|]. intros n _. eapply safe_bind; [apply safe_uint32|]. intros b Hb. cbn beta in Hb.
  rewrite malloc_ok. eapply safe_bind; [apply safe_fread; lia|]. intros bs _. by apply safe_ret.
Qed.

Lemma safe_read : safe (kTest_read malloc) (fun _ => True).
Proof.
  eapply safe_bind.
  { eapply safe_bind; [apply safe_fread; reflexivity|]. intros h _. apply safe_guard. }
  intros [] _. eapply safe_bind; [apply safe_guard|]. intros [] _.
  eapply safe_bind; [apply safe_uint32|]. intros v _. eapply safe_bind; [apply safe_guard|]. intros [] _.
  eapply safe_bind; [apply safe_uint32|]. intros n _. eapply safe_bind; [apply safe_guard|]. intros [] _.
  eapply safe_bind; [by apply (safe_loop _ _ eq_refl (fun _ => eq_refl) safe_string)|]. intros a _.
  eapply (safe_bind _ _ (fun _ => True)).
  { destruct (2 <=? v); [|by apply safe_ret]. eapply safe_bind; [apply safe_uint32|]. intros x _.
    eapply safe_bind; [apply safe_uint32|]. intros y _. by apply safe_ret. }
  intros s _. eapply safe_bind; [apply safe_uint32|]. intros k _. eapply safe_bind; [apply safe_guard|]. intros [] _.
  eapply safe_bind; [by apply (safe_loop _ _ eq_refl (fun _ => eq_refl) safe_object)|]. intros o _. by apply safe_ret.
Qed.

End safety.

(** * Properties *)

(** C37. Saving a test case and loading it gives it back, in the current
    version: [kTest_toFile] writes a file that [kTest_isKTestFile] recognises
    and from which [kTest_fromFile] rebuilds the same arguments and objects. *)
Theorem ktest_roundtrip (malloc : Z -> bool) (room : Z) (bo : KTest)
  (Hwf : wf bo) (Hst : storable bo = true) (Hroom : Z.of_nat (length (encode bo)) <= room)
  (Hmalloc : forall n, malloc n = true) :
  exists f, kTest_toFile room true bo = Ret (Some f) /\
    kTest_isKTestFile true f = Ret true /\
    kTest_fromFile malloc true f = Ret (Some (current bo)).
Proof.
  exists (encode bo). unfold kTest_toFile, kTest_isKTestFile, kTest_fromFile. cbn [negb].
  rewrite (writes_ktest room bo Hwf []) by (cbn [length]; lia). rewrite Hst, (proj2 (Z.leb_le _ _)) by (cbn [length]; lia).
  split_and!; [done| |].
  - unfold encode. by rewrite (reads_header _).
  - pose proof (reads_ktest malloc Hmalloc bo Hwf Hst []) as H. rewrite app_nil_r in H. by rewrite H.
Qed.

(** [kTest_toFile] on a well-formed test case: it writes the format when
    the file fits and no argument, object name or object is empty, and reports
    an error, never anything worse, in all other cases; so a test case with an
    empty argument or an object of no bytes cannot be saved. *)
Theorem ktest_save_outcome (room : Z) (bo : KTest) (Hwf : wf bo) (Hroom : 0 <= room) :
  kTest_toFile room true bo =
    Ret (if storable bo && (Z.of_nat (length (encode bo)) <=? room) then Some (encode bo) else None).
Proof.
  unfold kTest_toFile. cbn [negb]. rewrite (writes_ktest room bo Hwf []) by done.
  cbn [length app]. rewrite Z.add_0_l. by destruct (storable bo && _).
Qed.

(** Loading any file, however malformed or truncated, either gives a test
    case or reports an error as long as the file does not contain the length
    2^32 - 1: no buffer is overrun.  That length wraps the size of the buffer
    of a string to zero, and reading the string overruns it. *)
Theorem ktest_load_safe (malloc : Z -> bool) (Hmalloc : forall n, malloc n = true) :
  (forall f, plain f -> kTest_fromFile malloc true f <> Crash) /\
  (forall c f, read_string malloc ([255; 255; 255; 255] ++ c :: f) = Crash).
Proof.
  split.
  - intros f Hf. unfold kTest_fromFile. cbn [negb]. pose proof (safe_read malloc Hmalloc f Hf) as H.
    by destruct (kTest_read malloc f) as [[t f']| |].
  - intros c f. assert (read_uint32 ([255; 255; 255; 255] ++ c :: f) = Ret (2 ^ 32 - 1, c :: f)) as E.
    { apply (reads_uint32 (2 ^ 32 - 1)). unfold uint32. lia. }
    unfold read_string, bind, guard. rewrite E, Hmalloc. change (wrap 32 (2 ^ 32 - 1 + 1)) with 0. unfold ret, fread.
    rewrite (proj2 (Z.eqb_neq (2 ^ 32 - 1) 0)) by lia. rewrite (proj2 (Z.ltb_lt 0 _)); [done|]. cbn [length]. lia.
Qed.

Lemma sum_bytes_ok n i all res l :
  drop i all = l -> n = length l ->
  sum_bytes n i all res = Ret (match l with [] => res | _ => wrap 32 (res + foldr Z.add 0 (numBytes <$> l)) end).
Proof.
  intros E ->. revert i res E. induction l as [|o l IH]; intros i res E; [done|]. cbn [length sum_bytes].
  destruct (lookup_of_drop _ _ _ _ E) as [-> E']. rewrite (IH _ _ E'). f_equal. cbn.
  destruct l as [|o' l]; [by rewrite Z.add_0_r|]. unfold wrap. rewrite Zplus_mod_idemp_l. f_equal. lia.
Qed.

(** [kTest_numBytes] is the total of the object sizes modulo 2^32. *)
Theorem kTest_numBytes_total (bo : KTest) (Hwf : wf bo) :
  kTest_numBytes bo = Ret (foldr Z.add 0 (numBytes <$> objects bo) mod 2 ^ 32).
Proof.
  destruct Hwf as (_ & _ & _ & _ & _ & _ & Hlo & _). unfold kTest_numBytes.
  rewrite (sum_bytes_ok _ 0 _ 0 (objects bo)); [|done|lia].
  by destruct (objects bo).
Qed.

(** ** A test case *)

Definition example_test : KTest :=
  {| version := 3; numArgs := 1; args := [[97; 0]]; symArgvs := 0; symArgvLen := 0;
     numObjects := 1; objects := [{| name := [120; 0]; numBytes := 4; bytes := [255; 255; 255; 255] |}] |}.

Lemma wf_example : wf example_test.
Proof.
  assert (forall c, c <> 0 -> c_string [c; 0]) as S.
  { intros c Hc. exists [c]. split_and!; [done|by constructor|done]. }
  unfold wf, uint32. cbn. split_and!; try lia; constructor; try constructor; try by apply S.
  unfold uint32. cbn. lia.
Qed.

Lemma ktest_roundtrip_witness :
  exists f, kTest_toFile 100 true example_test = Ret (Some f) /\
    kTest_isKTestFile true f = Ret true /\ kTest_fromFile (fun _ => true) true f = Ret (Some example_test).
Proof.
  apply (ktest_roundtrip (fun _ => true) 100 example_test); [exact wf_example|reflexivity|vm_compute; congruence|reflexivity].
Defined.

Lemma ktest_save_outcome_witness : kTest_toFile 10 true example_test = Ret None.
Proof. rewrite (ktest_save_outcome 10 example_test wf_example) by lia. reflexivity. Defined.

Lemma ktest_load_safe_witness : kTest_fromFile (fun _ => true) true (take 20 (encode example_test)) <> Crash.
Proof.
  apply (proj1 (ktest_load_safe (fun _ => true) (fun _ => eq_refl))). split.
  - apply (bool_decide_unpack _). vm_compute. exact I.
  - intros pre post E. assert (255 ∈ take 20 (encode example_test)) as H by (rewrite E; apply elem_of_app; right; left).
    revert H. apply (bool_decide_unpack _). vm_compute. exact I.
Defined.

Lemma kTest_numBytes_total_witness : kTest_numBytes example_test = Ret 4.
Proof. rewrite (kTest_numBytes_total example_test wf_example). reflexivity. Defined.
