(* ===== verification/TreeStream.v ===== *)
(** Streams that fork: klee/lib/Support/TreeStream.cpp and
    Internal/ADT/TreeStream.h, in which the executor records the branches of
    every path.

    All streams of a writer share one file.  Opening a stream from another one
    writes a record with both numbers; what is written to a stream goes to the
    file as a record with its number and length, through a buffer.
    [readStream] follows the records back to the root of a stream and collects
    what was written to its ancestors before each fork.

    The file is the list of the bytes written to it; a number of 32 bits is
    four bytes, in the byte order of the host, taken as little-endian.  The
    file system is assumed not to fail once the file is open. *)
From Stdlib Require Import ZArith Lia Bool.
From stdpp Require Import base list numbers option gmap relations.
From S2P Require Import Prelude.
Open Scope Z_scope.

(** ** The writer *)

(* a stream: its writer, if it has one, and its number *)
Record TreeOStream : Type := MkOStream { writer : option positive; os_id : Z }.

(* [buffer] is its first bufferCount bytes; [output] is the null pointer or
   the contents of the file *)
Record TreeStreamWriter : Type := MkWriter {
  this : positive; buffer : list Z; lastID : Z; output : option (list Z); ids : Z;
}.

Definition bufferSize : Z := 4 * 4096.

Definition TreeOStream_new : TreeOStream := MkOStream None 0.

Definition TreeStreamWriter_new (self : positive) (good : bool) : TreeStreamWriter :=
  MkWriter self [] 0 (if good then Some [] else None) 1.

Definition good (w : TreeStreamWriter) : bool := bool_decide (is_Some (output w)).

Definition bufferCount (w : TreeStreamWriter) : Z := Z.of_nat (length (buffer w)).

(* output->write of four bytes *)
Definition word_bytes (v : Z) : list Z :=
  [wrap 8 v; wrap 8 (Z.shiftr v 8); wrap 8 (Z.shiftr v 16); wrap 8 (Z.shiftr v 24)].

Definition output_write (bytes : list Z) (w : TreeStreamWriter) : res TreeStreamWriter :=
  match output w with
  | None => AssertFail
  | Some f => Ok (MkWriter (this w) (buffer w) (lastID w) (Some (f ++ bytes)) (ids w))
  end.

Definition set_buffer (id : Z) (b : list Z) (w : TreeStreamWriter) : TreeStreamWriter :=
  MkWriter (this w) b id (output w) (ids w).

Definition flushBuffer (w : TreeStreamWriter) : res TreeStreamWriter :=
  if bufferCount w =? 0 then Ok w
  else
    let* w := output_write (word_bytes (lastID w) ++ word_bytes (bufferCount w) ++ buffer w) w in
    Ok (set_buffer (lastID w) [] w).

(* 1<<31 *)
Definition fork_bit : Z := 2 ^ 31.

Definition open_from (os : TreeOStream) (w : TreeStreamWriter) : res (TreeOStream * TreeStreamWriter) :=
  assert* good w && bool_decide (writer os = Some (this w)) in
  let* w := flushBuffer w in
  let id := ids w in
  let w := MkWriter (this w) (buffer w) (lastID w) (output w) (wrap 32 (id + 1)) in
  let* w := output_write (word_bytes (os_id os)) w in
  let* w := output_write (word_bytes (Z.lor id fork_bit)) w in
  Ok (MkOStream (Some (this w)) id, w).

Definition open (w : TreeStreamWriter) : res (TreeOStream * TreeStreamWriter) :=
  open_from (MkOStream (Some (this w)) 0) w.

(* memcpy to the buffer, which must not be overrun *)
Definition write (os : TreeOStream) (s : list Z) (size : Z) (w : TreeStreamWriter) : res TreeStreamWriter :=
  let bytes := take (Z.to_nat size) s in
  let* w :=
    if negb (bufferCount w =? 0) &&
       (negb (os_id os =? lastID w) || (bufferSize <? wrap 32 (size + bufferCount w)))
    then flushBuffer w else Ok w in
  if negb (bufferCount w =? 0) then
    assert* size + bufferCount w <=? bufferSize in
    Ok (set_buffer (lastID w) (buffer w ++ bytes) w)
  else if size <? bufferSize then Ok (set_buffer (os_id os) bytes w)
  else output_write (word_bytes (os_id os) ++ word_bytes size ++ bytes) w.

(* TreeOStream::write and operator<< *)
Definition os_write (os : TreeOStream) (s : list Z) (w : TreeStreamWriter) : res TreeStreamWriter :=
  assert* bool_decide (writer os = Some (this w)) in write os s (wrap 32 (Z.of_nat (length s))) w.

Definition flush (w : TreeStreamWriter) : res TreeStreamWriter :=
  assert* good w in flushBuffer w.

(** ** readStream *)

(* is.read of four bytes *)
Definition read_word (inp : list Z) : option (Z * list Z) :=
  match inp with
  | b0 :: b1 :: b2 :: b3 :: inp' => Some (b0 + 256 * (b1 + 256 * (b2 + 256 * b3)), inp')
  | _ => None
  end.

(* while (size--) is.get(): -1 at the end of the file *)
Definition get_bytes (size : Z) (inp : list Z) : list Z * list Z :=
  let n := Z.to_nat size in
  (take n inp ++ replicate (n - length inp) 255, drop n inp).

(* the loop over the parents; roots.back() is the head *)
Fixpoint push_roots (fuel : nat) (parents : gmap Z Z) (id : Z) (roots : list Z) : res (list Z) :=
  if id =? 0 then Ok roots
  else
    match fuel with
    | O => OutOfFuel
    | S fuel =>
        match parents !! id with
        | Some p => push_roots fuel parents p (id :: roots)
        | None => AssertFail
        end
    end.

(* the first loop: the chain of the stream *)
Fixpoint find_roots (fuel : nat) (streamID : Z) (inp : list Z) (parents : gmap Z Z) : res (list Z) :=
  match fuel with
  | O => OutOfFuel
  | S fuel =>
      match read_word inp with
      | None => AssertFail
      | Some (id, inp) =>
          match read_word inp with
          | None => AssertFail
          | Some (tag, inp) =>
              if negb (Z.land tag fork_bit =? 0) then
                let child := Z.lxor tag fork_bit in
                if child =? streamID then push_roots (S (Z.to_nat id)) parents id [child]
                else find_roots fuel streamID inp (match parents !! child with Some _ => parents | None => <[child := id]> parents end)
              else find_roots fuel streamID (snd (get_bytes tag inp)) parents
          end
      end
  end.

(* the second loop *)
Fixpoint collect (fuel : nat) (inp : list Z) (roots : list Z) (out : list Z) : res (list Z) :=
  match fuel with
  | O => OutOfFuel
  | S fuel =>
      match read_word inp with
      | None => Ok out
      | Some (id, inp) =>
          match read_word inp with
          | None => Ok out
          | Some (tag, inp) =>
              match roots with
              | [] => AssertFail (* roots.back() *)
              | back :: below =>
                  if negb (Z.land tag fork_bit =? 0) then
                    let child := Z.lxor tag fork_bit in
                    let roots :=
                      match below with
                      | next :: _ => if (id =? back) && (child =? next) then below else roots
                      | [] => roots
                      end in
                    collect fuel inp roots out
                  else
                    let '(bytes, inp) := get_bytes tag inp in
                    collect fuel inp roots (if id =? back then out ++ bytes else out)
              end
          end
      end
  end.

Definition readStream (streamID : Z) (w : TreeStreamWriter) : res (list Z * TreeStreamWriter) :=
  assert* (0 <? streamID) && (streamID <? ids w) in
  let* w := flush w in
  match output w with
  | None => AssertFail
  | Some f =>
      let* roots := find_roots (S (length f)) streamID f ∅ in
      let* out := collect (S (length f)) f roots [] in
      Ok (out, w)
  end.

(** ** The records of the file *)

Inductive record : Type :=
| Fork (parent child : Z)
| Data (id : Z) (bytes : list Z).

Definition encode (r : record) : list Z :=
  match r with
  | Fork p c => word_bytes p ++ word_bytes (Z.lor c fork_bit)
  | Data i bs => word_bytes i ++ word_bytes (Z.of_nat (length bs)) ++ bs
  end.

Definition record_ok (r : record) : Prop :=
  match r with
  | Fork p c => 0 <= p < 2 ^ 32 /\ 0 <= c < 2 ^ 31
  | Data i bs => 0 <= i < 2 ^ 32 /\ Z.of_nat (length bs) < 2 ^ 31
  end.

Lemma wrap_split v k : 0 <= k -> wrap 8 (Z.shiftr v k) + 256 * Z.shiftr v (k + 8) = Z.shiftr v k.
Proof.
  intros Hk. unfold wrap. rewrite <- Z.shiftr_shiftr, (Z.shiftr_div_pow2 (Z.shiftr v k)) by lia.
  pose proof (Z.div_mod (Z.shiftr v k) (2 ^ 8) ltac:(lia)). change (2 ^ 8) with 256 in *. lia.
Qed.

Lemma read_word_bytes v rest : 0 <= v < 2 ^ 32 -> read_word (word_bytes v ++ rest) = Some (v, rest).
Proof.
  intros Hv. cbn [word_bytes app read_word]. do 2 f_equal.
  pose proof (wrap_split v 0 ltac:(lia)) as E0. pose proof (wrap_split v 8 ltac:(lia)) as E1.
  pose proof (wrap_split v 16 ltac:(lia)) as E2. pose proof (wrap_split v 24 ltac:(lia)) as E3.
  rewrite Z.shiftr_0_r in E0. cbn [Z.add] in E0, E1, E2, E3.
  assert (Z.shiftr v 32 = 0) as E4 by (rewrite Z.shiftr_div_pow2 by lia; apply Z.div_small; lia).
  change (0 + 8) with 8 in E0. change (8 + 8) with 16 in E1. change (16 + 8) with 24 in E2. change (24 + 8) with 32 in E3.
  rewrite E4 in E3. lia.
Qed.

Lemma fork_tag c : 0 <= c < 2 ^ 31 ->
  0 <= Z.lor c fork_bit < 2 ^ 32 /\ Z.land (Z.lor c fork_bit) fork_bit <> 0 /\ Z.lxor (Z.lor c fork_bit) fork_bit = c.
Proof.
  intros Hc. unfold fork_bit.
  assert (Z.land c (2 ^ 31) = 0) as Hd.
  { apply Z.bits_inj'. intros i Hi. rewrite Z.land_spec, Z.bits_0. destruct (decide (i = 31)) as [->|Hne].
    - rewrite (Z.bits_above_log2 c 31) by (lia || (destruct (decide (c = 0)) as [->|]; [done|apply Z.log2_lt_pow2; lia])). done.
    - rewrite Z.pow2_bits_false by lia. apply andb_false_r. }
  pose proof (Z.add_nocarry_lxor c (2 ^ 31) Hd) as Ha. pose proof (Z.lxor_lor c (2 ^ 31) Hd) as Hx.
  split; [lia|]. split.
  - rewrite Z.land_comm, Z.land_lor_distr_r, (Z.land_comm _ c), Hd, Z.lor_0_l, Z.land_diag. done.
  - by rewrite <- Hx, Z.lxor_assoc, Z.lxor_nilpotent, Z.lxor_0_r.
Qed.

Lemma data_tag n : 0 <= n < 2 ^ 31 -> Z.land n fork_bit = 0.
Proof.
  intros Hn. unfold fork_bit. apply Z.bits_inj'. intros i Hi. rewrite Z.land_spec, Z.bits_0. destruct (decide (i = 31)) as [->|Hne].
  - rewrite (Z.bits_above_log2 n 31) by (lia || (destruct (decide (n = 0)) as [->|]; [done|apply Z.log2_lt_pow2; lia])). done.
  - rewrite Z.pow2_bits_false by lia. apply andb_false_r.
Qed.

Lemma get_bytes_ok bs rest : get_bytes (Z.of_nat (length bs)) (bs ++ rest) = (bs, rest).
Proof.
  unfold get_bytes. rewrite Nat2Z.id, length_app, (proj2 (Nat.sub_0_le _ _)) by lia. cbn [replicate].
  by rewrite app_nil_r, take_app_length, drop_app_length.
Qed.

(** Reading one record. *)
Lemma read_fork p c rest : record_ok (Fork p c) ->
  exists rest', read_word (encode (Fork p c) ++ rest) = Some (p, rest') /\
    exists tag, read_word rest' = Some (tag, rest) /\ Z.land tag fork_bit <> 0 /\ Z.lxor tag fork_bit = c.
Proof.
  intros [Hp Hc]. cbn [encode]. rewrite <- app_assoc. eexists. split; [by apply read_word_bytes|].
  destruct (fork_tag c Hc) as (Ht & Hl & Hx). eexists. split; [by apply read_word_bytes|done].
Qed.

Lemma read_data i bs rest : record_ok (Data i bs) ->
  exists rest', read_word (encode (Data i bs) ++ rest) = Some (i, rest') /\
    exists tag, read_word rest' = Some (tag, bs ++ rest) /\ Z.land tag fork_bit = 0 /\
      get_bytes tag (bs ++ rest) = (bs, rest).
Proof.
  intros [Hi Hl]. cbn [encode]. rewrite <- !app_assoc. eexists. split; [by apply read_word_bytes|].
  eexists. split; [apply read_word_bytes; lia|]. split; [apply data_tag; lia|apply get_bytes_ok].
Qed.

(** ** The loops over the records *)

Definition add_parent (P : gmap Z Z) (r : record) : gmap Z Z :=
  match r with
  | Fork p c => match P !! c with Some _ => P | None => <[c := p]> P end
  | Data _ _ => P
  end.

Definition is_fork_of (s : Z) (r : record) : Prop := match r with Fork _ c => c = s | _ => False end.

Lemma find_roots_ok s p rest : forall pre P fuel,
  Forall record_ok pre -> record_ok (Fork p s) -> Forall (fun r => ~ is_fork_of s r) pre -> (length pre < fuel)%nat ->
  find_roots fuel s (concat (encode <$> pre) ++ encode (Fork p s) ++ rest) P =
    push_roots (S (Z.to_nat p)) (foldl add_parent P pre) p [s].
Proof.
  induction pre as [|r pre IH]; intros P fuel Hok Hps Hno Hf; (destruct fuel as [|fuel]; [cbn in Hf; lia|]).
  - cbn [fmap list_fmap concat app foldl find_roots]. destruct (read_fork p s rest Hps) as (rest' & -> & tag & -> & Hl & ->).
    rewrite (proj2 (Z.eqb_neq _ _) Hl), Z.eqb_refl. done.
  - apply Forall_cons_iff in Hok as [Hr Hok]. apply Forall_cons_iff in Hno as [Hn Hno].
    cbn [fmap list_fmap concat foldl find_roots]. rewrite <- app_assoc. cbn [length] in Hf. destruct r as [q c|i bs].
    + destruct (read_fork q c (concat (encode <$> pre) ++ encode (Fork p s) ++ rest) Hr) as (rest' & -> & tag & -> & Hl & ->).
      rewrite (proj2 (Z.eqb_neq _ _) Hl). cbn [negb]. rewrite (proj2 (Z.eqb_neq c s) Hn). apply IH; (done || lia).
    + destruct (read_data i bs (concat (encode <$> pre) ++ encode (Fork p s) ++ rest) Hr) as (rest' & -> & tag & -> & -> & ->).
      cbn [Z.eqb negb snd]. apply IH; (done || lia).
Qed.

(* a record in the second loop *)
Definition pick (st : list Z * list Z) (r : record) : list Z * list Z :=
  match fst st with
  | [] => st
  | back :: below =>
      match r with
      | Fork p c =>
          (match below with next :: _ => if (p =? back) && (c =? next) then below else fst st | [] => fst st end, snd st)
      | Data i bs => (fst st, if i =? back then snd st ++ bs else snd st)
      end
  end.

Lemma collect_ok : forall log roots out fuel,
  Forall record_ok log -> roots <> [] -> (length log < fuel)%nat ->
  collect fuel (concat (encode <$> log)) roots out = Ok (snd (foldl pick (roots, out) log)).
Proof.
  induction log as [|r log IH]; intros roots out fuel Hok Hne Hf; (destruct fuel as [|fuel]; [cbn in Hf; lia|]); [done|].
  apply Forall_cons_iff in Hok as [Hr Hok]. destruct roots as [|back below]; [done|].
  cbn [fmap list_fmap concat foldl collect length] in *. destruct r as [p c|i bs].
  - destruct (read_fork p c (concat (encode <$> log)) Hr) as (rest' & -> & tag & -> & Hl & ->).
    rewrite (proj2 (Z.eqb_neq _ _) Hl). cbn [negb pick fst snd]. rewrite IH; [done|done| |lia].
    destruct below; [done|]. by destruct ((p =? back) && _).
  - destruct (read_data i bs (concat (encode <$> log)) Hr) as (rest' & -> & tag & -> & -> & ->).
    cbn [Z.eqb negb pick fst snd]. rewrite IH by (done || lia). done.
Qed.

(** ** Histories *)

(** What the streams hold after a record. *)
Definition play (m : gmap Z (list Z)) (r : record) : gmap Z (list Z) :=
  match r with
  | Fork p c => <[c := default [] (m !! p)]> m
  | Data i bs => <[i := default [] (m !! i) ++ bs]> m
  end.

Definition replay (log : list record) : gmap Z (list Z) := foldl play ∅ log.

Definition parents_of (log : list record) : gmap Z Z := foldl add_parent ∅ log.

(** A log that a writer leaves; [n] is the next number. *)
Inductive log_ok : list record -> Z -> Prop :=
| log_nil : log_ok [] 1
| log_fork l n p : log_ok l n -> 0 <= p < n -> n < 2 ^ 31 -> log_ok (l ++ [Fork p n]) (n + 1)
| log_data l n i bs : log_ok l n -> 0 < i < n -> Z.of_nat (length bs) < 2 ^ 31 -> log_ok (l ++ [Data i bs]) n.

Lemma log_range l n : log_ok l n -> 1 <= n <= 2 ^ 31.
Proof. induction 1; lia. Qed.

Lemma log_records l n : log_ok l n -> Forall record_ok l.
Proof.
  induction 1 as [|l n p Hl IH Hp Hn|l n i bs Hl IH Hi Hb]; [done| |]; apply Forall_app; (split; [done|]);
    constructor; try done; pose proof (log_range l n Hl); cbn; lia.
Qed.

Lemma play_dom l n : log_ok l n -> forall i, is_Some (replay l !! i) <-> 0 < i < n.
Proof.
  unfold replay. induction 1 as [|l n p Hl IH Hp Hn|l n i bs Hl IH Hi Hb]; intros j.
  - cbn. rewrite lookup_empty. split; [by intros [? [=]]|lia].
  - rewrite foldl_snoc. cbn [play]. pose proof (log_range l n Hl). destruct (decide (j = n)) as [->|Hne].
    + rewrite lookup_insert_eq. split; [lia|by eexists].
    + rewrite lookup_insert_ne by done. rewrite IH. lia.
  - rewrite foldl_snoc. cbn [play]. destruct (decide (j = i)) as [->|Hne].
    + rewrite lookup_insert_eq. split; [lia|by eexists].
    + rewrite lookup_insert_ne by done. apply IH.
Qed.

Lemma parents_dom l n : log_ok l n -> forall c p, parents_of l !! c = Some p -> 0 <= p < c /\ c < n.
Proof.
  unfold parents_of. induction 1 as [|l n p Hl IH Hp Hn|l n i bs Hl IH Hi Hb]; intros c q.
  - cbn. by rewrite lookup_empty.
  - rewrite foldl_snoc. cbn [add_parent]. destruct (foldl add_parent ∅ l !! n) as [x|] eqn:E.
    { apply IH in E. lia. }
    destruct (decide (c = n)) as [->|Hne]; [rewrite lookup_insert_eq; intros [= <-]; lia|].
    rewrite lookup_insert_ne by done. intros H%IH. lia.
  - rewrite foldl_snoc. apply IH.
Qed.

Lemma parents_fork l n p : log_ok l n -> parents_of (l ++ [Fork p n]) = <[n := p]> (parents_of l).
Proof.
  intros Hl. unfold parents_of. rewrite foldl_snoc. cbn [add_parent]. fold (parents_of l).
  destruct (parents_of l !! n) as [x|] eqn:E; [|done]. apply (parents_dom l n Hl) in E. lia.
Qed.

(** Every stream but 0 has a parent. *)
Lemma parents_total l n : log_ok l n -> forall c, 0 < c < n -> is_Some (parents_of l !! c).
Proof.
  induction 1 as [|l n p Hl IH Hp Hn|l n i bs Hl IH Hi Hb]; intros c Hc; [lia| |].
  - rewrite parents_fork by done. destruct (decide (c = n)) as [->|Hne]; [by rewrite lookup_insert_eq|].
    rewrite lookup_insert_ne by done. apply IH. lia.
  - unfold parents_of. rewrite foldl_snoc. by apply IH.
Qed.

(** ** The chain of a stream *)

(* each is the parent of the next, [p] of the first *)
Fixpoint linked (P : gmap Z Z) (p : Z) (roots : list Z) : Prop :=
  match roots with
  | [] => True
  | x :: roots' => P !! x = Some p /\ linked P x roots'
  end.

Lemma linked_mono (P Q : gmap Z Z) roots : P ⊆ Q -> forall p, linked P p roots -> linked Q p roots.
Proof.
  intros HPQ. induction roots as [|x roots IH]; intros p; [done|]. cbn. intros [Hx Hr].
  split; [by eapply lookup_weaken|by apply IH].
Qed.

Lemma push_roots_ok (P' P : gmap Z Z) s :
  P' ⊆ P -> (forall c p, P !! c = Some p -> 0 <= p < c) -> (forall c, 0 < c < s -> is_Some (P' !! c)) ->
  forall fuel id roots, 0 <= id < s -> (Z.to_nat id < fuel)%nat -> roots <> [] -> linked P id roots ->
  exists roots', push_roots fuel P' id roots = Ok roots' /\ roots' <> [] /\ linked P 0 roots' /\ last roots' = last roots.
Proof.
  intros HP Hd Ht. induction fuel as [|fuel IH]; intros id roots Hid Hf Hne Hl; [lia|]. cbn [push_roots].
  destruct (Z.eqb_spec id 0) as [->|H0]; [by exists roots|].
  destruct (Ht id ltac:(lia)) as [p Hp]. rewrite Hp. assert (P !! id = Some p) as HPp by (by eapply lookup_weaken).
  pose proof (Hd _ _ HPp) as Hlt.
  destruct (IH p (id :: roots)) as (roots' & E & Hne' & Hl' & Hlast); [lia|lia|done|done|].
  exists roots'. split_and!; [done|done|done|]. rewrite Hlast. by destruct roots.
Qed.

(** The numbers of a chain grow. *)
Lemma linked_below (P : gmap Z Z) roots : (forall c p, P !! c = Some p -> 0 <= p < c) ->
  forall p, linked P p roots -> Forall (fun x => p < x) roots.
Proof.
  intros Hd. induction roots as [|x roots IH]; intros p; [done|]. cbn. intros [Hx Hr]. apply Hd in Hx.
  constructor; [lia|]. eapply List.Forall_impl; [|by apply IH]. cbn. lia.
Qed.

(** The second loop keeps the chain from the youngest ancestor read on, and
    has collected what that ancestor holds. *)
Record picked (P : gmap Z Z) (n : Z) (m : gmap Z (list Z)) (s : Z) (st : list Z * list Z) : Prop := {
  pk_some : exists b below, fst st = b :: below /\ linked P b below /\ Forall (fun x => n <= x) below /\
    (b < n /\ snd st = default [] (m !! b) \/ n <= b /\ P !! b = Some 0 /\ snd st = []);
  pk_last : last (fst st) = Some s;
}.

Lemma pick_ok (P : gmap Z Z) chain s :
  (forall c p, P !! c = Some p -> 0 <= p < c) ->
  linked P 0 chain -> last chain = Some s ->
  forall l n, log_ok l n -> parents_of l ⊆ P -> picked P n (replay l) s (foldl pick (chain, []) l).
Proof.
  intros Hd Hch Hs. assert (exists b below, chain = b :: below) as (b0 & below0 & Ec) by (destruct chain; [done|eauto]).
  induction 1 as [|l n p Hl IH Hp Hn|l n i bs Hl IH Hi Hb]; intros HP.
  - split; [|done]. exists b0, below0. subst chain. destruct Hch as [Hb Hbel]. pose proof (Hd _ _ Hb).
    split_and!; [done|done| |right; cbn; split_and!; [lia|done|done]].
    eapply List.Forall_impl; [|by eapply linked_below]. cbn. lia.
  - rewrite parents_fork in HP by done.
    assert (parents_of l ⊆ P) as HPl.
    { apply map_subseteq_spec. intros c q Hc. eapply lookup_weaken; [|exact HP]. rewrite lookup_insert_ne; [done|].
      intros <-. apply (parents_dom l n Hl) in Hc. lia. }
    assert (P !! n = Some p) as Hpn by (eapply lookup_weaken; [apply lookup_insert_eq|exact HP]).
    specialize (IH HPl). rewrite foldl_snoc. unfold replay. rewrite foldl_snoc. fold (replay l).
    destruct (foldl pick (chain, []) l) as [roots out]. destruct IH as [(b & below & E & Hlk & Hbig & Hcase) Hlast].
    cbn [fst snd] in *. subst roots. pose proof (log_range l n Hl). cbn [pick fst snd play].
    assert (Forall (fun x => b < x) below) as Hbb by (by eapply linked_below).
    destruct Hcase as [[Hbn Hout]|(Hbn & Hb0 & Hout)].
    + (* the ancestor is read *)
      destruct below as [|b2 below].
      { split; cbn [fst snd]; [|done]. exists b, []. split_and!; [done|done|done|]. left. split; [lia|].
        by rewrite lookup_insert_ne by lia. }
      destruct Hlk as [Hb2 Hlk]. apply Forall_cons_iff in Hbig as [Hb2n Hbig].
      assert (Forall (fun x => b2 < x) below) as Hbb2 by (by eapply linked_below).
      destruct (decide (b2 = n)) as [->|Hne].
      * rewrite Hpn in Hb2. injection Hb2 as ->. rewrite !Z.eqb_refl. cbn [andb].
        split; cbn [fst snd]; [|by rewrite last_cons_cons in Hlast].
        exists n, below. split_and!; [done|done| |left; split; [lia|by rewrite lookup_insert_eq]].
        eapply List.Forall_impl; [|exact Hbb2]. cbn. lia.
      * rewrite (proj2 (Z.eqb_neq n b2)) by lia. rewrite andb_false_r.
        split; cbn [fst snd]; [|done]. exists b, (b2 :: below). split_and!; [done|done| |].
        -- constructor; [lia|]. eapply List.Forall_impl; [|exact Hbb2]. cbn. lia.
        -- left. split; [lia|]. by rewrite lookup_insert_ne by lia.
    + (* the root is still to come *)
      assert ((match below with next :: _ => if (p =? b) && (n =? next) then below else b :: below | [] => b :: below end) = b :: below) as ->.
      { destruct below as [|next below]; [done|]. by rewrite (proj2 (Z.eqb_neq p b)) by lia. }
      split; cbn [fst snd]; [|done]. exists b, below.
      destruct (decide (b = n)) as [->|Hne].
      * rewrite Hpn in Hb0. injection Hb0 as ->. split_and!; [done|done|eapply List.Forall_impl; [|exact Hbb]; cbn; lia|].
        left. split; [lia|]. rewrite lookup_insert_eq. subst out. destruct (replay l !! 0) eqn:E; [|done].
        assert (is_Some (replay l !! 0)) as H0%(play_dom l n Hl) by eauto. lia.
      * split_and!; [done|done|eapply List.Forall_impl; [|exact Hbb]; cbn; lia|]. right. split_and!; [lia|done|done].
  - unfold parents_of in HP. rewrite foldl_snoc in HP. specialize (IH HP).
    rewrite foldl_snoc. unfold replay. rewrite foldl_snoc. fold (replay l).
    destruct (foldl pick (chain, []) l) as [roots out]. destruct IH as [(b & below & E & Hlk & Hbig & Hcase) Hlast].
    cbn [fst snd] in *. subst roots. cbn [pick fst snd play]. split; cbn [fst snd]; [|done].
    exists b, below. split_and!; [done|done|done|].
    destruct Hcase as [[Hbn Hout]|(Hbn & Hb0 & Hout)].
    + left. split; [done|]. destruct (Z.eqb_spec i b) as [->|Hne]; [by rewrite lookup_insert_eq, Hout|].
      by rewrite lookup_insert_ne by done.
    + right. split_and!; [done|done|]. by rewrite (proj2 (Z.eqb_neq i b)) by lia.
Qed.

(** Reading a stream from its log. *)
Lemma log_split l n s : log_ok l n -> 0 < s < n ->
  exists pre p post, l = pre ++ Fork p s :: post /\ log_ok pre s /\ 0 <= p < s.
Proof.
  induction 1 as [|l n p Hl IH Hp Hn|l n i bs Hl IH Hi Hb]; intros Hs; [lia| |].
  - destruct (decide (s = n)) as [->|Hne]; [by exists l, p, []|].
    destruct IH as (pre & q & post & -> & Hpre & Hq); [lia|]. exists pre, q, (post ++ [Fork p n]).
    split_and!; [|done|lia..]. by rewrite <- app_assoc.
  - destruct IH as (pre & q & post & -> & Hpre & Hq); [lia|]. exists pre, q, (post ++ [Data i bs]).
    split_and!; [|done|lia..]. by rewrite <- app_assoc.
Qed.

Lemma no_fork l n s : log_ok l n -> n <= s -> Forall (fun r => ~ is_fork_of s r) l.
Proof.
  induction 1 as [|l n p Hl IH Hp Hn|l n i bs Hl IH Hi Hb]; intros Hs; [done| |];
    apply Forall_app; (split; [apply IH; lia|]); constructor; try done; cbn; lia.
Qed.

Lemma parents_mono l : forall P, P ⊆ foldl add_parent P l.
Proof.
  induction l as [|r l IH]; intros P; [done|]. cbn [foldl]. etrans; [|apply IH]. destruct r as [p c|]; [|done].
  cbn [add_parent]. destruct (P !! c) eqn:E; [done|]. by apply insert_subseteq.
Qed.

Lemma length_encode l : (length l <= length (concat (encode <$> l)))%nat.
Proof.
  induction l as [|r l IH]; [done|]. cbn [fmap list_fmap concat length]. rewrite length_app.
  assert (1 <= length (encode r))%nat by (destruct r; cbn; lia). lia.
Qed.

Lemma read_log l n s : log_ok l n -> 0 < s < n ->
  let f := concat (encode <$> l) in
  exists roots, find_roots (S (length f)) s f ∅ = Ok roots /\
    collect (S (length f)) f roots [] = Ok (default [] (replay l !! s)).
Proof.
  intros Hl Hs f. destruct (log_split l n s Hl Hs) as (pre & p & post & E & Hpre & Hp).
  pose proof (log_records l n Hl) as Hrec. rewrite E in Hrec. apply Forall_app in Hrec as [Hr1 [Hr2 _]%Forall_cons_iff].
  assert (forall c q, parents_of l !! c = Some q -> 0 <= q < c) as Hd by (intros c q H%(parents_dom l n Hl); lia).
  set (P' := parents_of pre). assert (P' ⊆ parents_of l) as HP'.
  { unfold P', parents_of. rewrite E, foldl_app. apply parents_mono. }
  assert (parents_of l !! s = Some p) as Hps.
  { rewrite E. unfold parents_of. rewrite foldl_app. cbn [foldl]. eapply lookup_weaken; [|apply parents_mono].
    fold (parents_of pre). cbn [add_parent]. destruct (parents_of pre !! s) eqn:Es.
    - apply (parents_dom pre s Hpre) in Es. lia.
    - by rewrite lookup_insert_eq. }
  (* the parents above [s] are known when its fork is read *)
  destruct (push_roots_ok P' (parents_of l) s HP' Hd (parents_total pre s Hpre) (S (Z.to_nat p)) p [s])
    as (roots & Er & Hne & Hlk & Hlast); [lia|lia|done|done|].
  exists roots. split.
  - pose proof (length_encode l) as Hlen. fold f in Hlen.
    assert (length pre < S (length f))%nat as Hpl by (rewrite E, length_app in Hlen; lia).
    remember (S (length f)) as fuel eqn:Ef. subst f. rewrite E, fmap_app, concat_app. cbn [fmap list_fmap concat].
    rewrite find_roots_ok; [exact Er|done|done|by apply (no_fork pre s)|done].
  - pose proof (length_encode l) as Hlen. fold f in Hlen. unfold f at 2. rewrite collect_ok; [|by eapply log_records|done|lia].
    destruct (pick_ok (parents_of l) roots s Hd Hlk Hlast l n Hl ltac:(done)) as [(b & below & Eb & _ & Hbig & Hcase) Hl'].
    rewrite Eb in Hl'. assert (below = []) as ->.
    { destruct below as [|x below]; [done|]. exfalso. rewrite last_cons_cons in Hl'.
      apply last_Some_elem_of in Hl'. rewrite Forall_forall in Hbig. apply Hbig in Hl'. lia. }
    injection Hl' as ->. f_equal. destruct Hcase as [[_ ->]|[Hn _]]; [done|lia].
Qed.

(** ** The writer *)

(** [w] holds the streams [m]: its file and its buffer are a log of them. *)
Definition pending (w : TreeStreamWriter) : list record :=
  if bufferCount w =? 0 then [] else [Data (lastID w) (buffer w)].

Record holds (w : TreeStreamWriter) (m : gmap Z (list Z)) : Prop := {
  hd_log : exists log, output w = Some (concat (encode <$> log)) /\ log_ok log (ids w) /\ m = replay (log ++ pending w);
  hd_buffer : bufferCount w <= bufferSize;
  hd_last : bufferCount w <> 0 -> 0 < lastID w < ids w;
}.

(** [w] and [w'] are the same writer with the same streams. *)
Definition same_writer (w w' : TreeStreamWriter) : Prop := this w' = this w /\ ids w' = ids w.

Lemma holds_new self : holds (TreeStreamWriter_new self true) ∅.
Proof. split; [|done|done]. exists []. split_and!; [done|constructor|done]. Qed.

Lemma holds_dom w m : holds w m -> forall i, is_Some (m !! i) <-> 0 < i < ids w.
Proof.
  intros [(log & _ & Hl & ->) Hb Hi] i. unfold pending. destruct (Z.eqb_spec (bufferCount w) 0) as [E|E].
  - rewrite app_nil_r. by apply play_dom.
  - apply play_dom. apply log_data; [done|by apply Hi|]. unfold bufferCount, bufferSize in *. lia.
Qed.

Lemma flushBuffer_ok w m : holds w m ->
  exists w', flushBuffer w = Ok w' /\ holds w' m /\ same_writer w w' /\ buffer w' = [] /\ is_Some (output w').
Proof.
  intros H. pose proof H as [(log & E & Hl & Hm) Hb Hi]. unfold flushBuffer, pending in *.
  destruct (Z.eqb_spec (bufferCount w) 0) as [E0|E0].
  - exists w. split_and!; [done|done|done| |by eexists]. unfold bufferCount in E0. destruct (buffer w); [done|cbn in E0; lia].
  - unfold output_write. rewrite E. cbn [res_bind]. eexists. split; [done|]. split_and!; [|done|done|by eexists].
    split; cbn; [|unfold bufferCount, bufferSize; cbn; lia|done]. exists (log ++ [Data (lastID w) (buffer w)]). split_and!.
    + rewrite fmap_app, concat_app. cbn. by rewrite app_nil_r.
    + apply log_data; [done|by apply Hi|]. unfold bufferCount, bufferSize in *. lia.
    + subst m. unfold pending. cbn. by rewrite app_nil_r.
Qed.

Lemma open_ok w m i : holds w m -> 0 <= i < ids w -> ids w < 2 ^ 31 ->
  exists w', open_from (MkOStream (Some (this w)) i) w = Ok (MkOStream (Some (this w)) (ids w), w') /\
    this w' = this w /\ ids w' = ids w + 1 /\ holds w' (<[ids w := default [] (m !! i)]> m).
Proof.
  intros H Hi Hn. assert (1 <= ids w) as Hids by (destruct (hd_log w m H) as (log & _ & Hl & _); apply (log_range _ _ Hl)).
  unfold open_from, good. rewrite bool_decide_true by (destruct (hd_log w m H) as (log & -> & _); by eexists).
  rewrite bool_decide_true by done. cbn [andb res_assert].
  destruct (flushBuffer_ok w m H) as (w1 & -> & H1 & [Ht En] & Eb & _). cbn [res_bind].
  destruct H1 as [(log & E & Hl & Hm) _ _]. unfold output_write. cbn [output this buffer lastID ids os_id].
  rewrite E. cbn [res_bind output this buffer lastID ids]. rewrite Ht, En. eexists. split; [done|].
  cbn [this ids]. rewrite wrap_small by lia. split_and!; [done|done|]. split; cbn [output buffer ids lastID].
  - exists (log ++ [Fork i (ids w)]). split_and!.
    + rewrite fmap_app, concat_app. cbn. rewrite <- app_assoc; cbn; done.
    + apply log_fork; [by rewrite <- En|lia|lia].
    + unfold pending in *. unfold bufferCount in *. cbn [buffer]. rewrite Eb in Hm |- *. cbn in Hm |- *.
      rewrite app_nil_r in Hm |- *. subst m. unfold replay. by rewrite foldl_snoc.
  - unfold bufferCount, bufferSize. cbn. rewrite Eb. cbn. lia.
  - unfold bufferCount. cbn. by rewrite Eb.
Qed.

Lemma stream_write_ok w m i s : holds w m -> 0 < i < ids w -> Z.of_nat (length s) < 2 ^ 31 ->
  exists w', os_write (MkOStream (Some (this w)) i) s w = Ok w' /\ same_writer w w' /\
    holds w' (<[i := default [] (m !! i) ++ s]> m).
Proof.
  intros H Hi Hs. unfold os_write. rewrite bool_decide_true by done. cbn [res_assert].
  rewrite wrap_small by lia. unfold write. rewrite Nat2Z.id, take_ge by lia. cbn [os_id].
  set (k := Z.of_nat (length s)) in *.
  (* the buffer is flushed first, or the bytes are appended to it *)
  assert (forall w1, holds w1 m -> same_writer w w1 -> bufferCount w1 = 0 ->
    exists w', (if k <? bufferSize then Ok (set_buffer i s w1) else output_write (word_bytes i ++ word_bytes k ++ s) w1) = Ok w' /\
      same_writer w w' /\ holds w' (<[i := default [] (m !! i) ++ s]> m)) as Hfresh.
  { intros w1 [(log & E & Hl & Hm) _ _] [Ht En] E0. unfold pending in Hm. rewrite E0 in Hm. cbn in Hm. rewrite app_nil_r in Hm.
    rewrite En in Hl. destruct (Z.ltb_spec k bufferSize) as [Hk|Hk].
    - eexists. split; [done|]. split; [by split|]. split.
      + exists log. split_and!; [done|cbn; by rewrite En|]. unfold pending, bufferCount. cbn. subst m. fold k.
        destruct (Z.eqb_spec k 0) as [Ek|Ek].
        * rewrite app_nil_r. destruct s; [|cbn in k; lia]. rewrite app_nil_r. apply insert_id.
          destruct (proj2 (play_dom log (ids w) Hl i) Hi) as [x Hx]. by rewrite Hx.
        * unfold replay. by rewrite foldl_snoc.
      + unfold bufferCount. cbn. fold k. lia.
      + cbn. by rewrite En.
    - unfold output_write. rewrite E. eexists. split; [done|]. split; [by split|]. split.
      + exists (log ++ [Data i s]). split_and!.
        * cbn. rewrite fmap_app, concat_app. cbn. by rewrite app_nil_r.
        * cbn. rewrite En. by apply log_data.
        * unfold pending, bufferCount in *. cbn. rewrite E0. cbn. rewrite app_nil_r. subst m. unfold replay. by rewrite foldl_snoc.
      + unfold bufferCount in *. cbn. rewrite E0. by unfold bufferSize.
      + unfold bufferCount in *. cbn. by rewrite E0. }
  destruct (Z.eqb_spec (bufferCount w) 0) as [E0|E0].
  - cbn [negb andb res_bind]. rewrite E0. cbn. by apply Hfresh.
  - cbn [negb andb]. pose proof H as [(log & E & Hl & Hm) Hb Hlast]. rewrite wrap_small by (unfold bufferSize in Hb; unfold bufferCount in *; lia).
    destruct (Z.eqb_spec i (lastID w)) as [Ei|Ei], (Z.ltb_spec bufferSize (k + bufferCount w)) as [Hk|Hk]; cbn [negb orb].
    2:{ cbn [res_bind]. rewrite (proj2 (Z.eqb_neq _ _) E0). cbn [negb]. rewrite (proj2 (Z.leb_le _ _)) by done. cbn [res_assert].
        eexists. split; [done|]. split; [by split|]. split.
        - exists log. split_and!; [done|done|]. unfold pending in *. rewrite (proj2 (Z.eqb_neq _ _) E0) in Hm.
          unfold bufferCount in *. cbn. rewrite length_app, (proj2 (Z.eqb_neq _ _)) by lia. subst m i. unfold replay.
          rewrite !foldl_snoc. cbn. by rewrite lookup_insert_eq, insert_insert_eq, app_assoc.
        - unfold bufferCount in *. cbn. rewrite length_app. lia.
        - intros _. by apply Hlast. }
    all: destruct (flushBuffer_ok w m H) as (w1 & -> & H1 & Hw1 & Eb & _); cbn [res_bind];
      (assert (bufferCount w1 = 0) as E1 by (unfold bufferCount; by rewrite Eb)); rewrite E1; cbn; by apply Hfresh.
Qed.

Lemma stream_read_ok w m i : holds w m -> 0 < i < ids w ->
  exists w', readStream i w = Ok (default [] (m !! i), w') /\ same_writer w w' /\ holds w' m.
Proof.
  intros H Hi. unfold readStream. rewrite !(proj2 (Z.ltb_lt _ _)) by lia. cbn [andb res_assert].
  unfold flush, good. rewrite bool_decide_true by (destruct (hd_log w m H) as (log & -> & _); by eexists). cbn [res_assert].
  destruct (flushBuffer_ok w m H) as (w1 & -> & H1 & Hw1 & Eb & _). cbn [res_bind].
  pose proof H1 as [(log & E & Hl & Hm) _ _]. rewrite E. rewrite (proj2 Hw1) in Hl.
  destruct (read_log log (ids w) i Hl Hi) as (roots & Er & Ec). rewrite Er. cbn [res_bind]. rewrite Ec. cbn [res_bind].
  exists w1. split_and!; [|done|done]. unfold pending, bufferCount in Hm. rewrite Eb in Hm. cbn in Hm. rewrite app_nil_r in Hm. by subst m.
Qed.

(** ** The theorem *)

(** The uses of a writer, with what each stream should hold: a stream starts
    with what the stream it is opened from holds at that time. *)
Inductive tree_step : TreeStreamWriter * gmap Z (list Z) -> TreeStreamWriter * gmap Z (list Z) -> Prop :=
| step_open w m i os w' :
    0 <= i < ids w -> ids w < 2 ^ 31 -> open_from (MkOStream (Some (this w)) i) w = Ok (os, w') ->
    tree_step (w, m) (w', <[os_id os := default [] (m !! i)]> m)
| step_write w m i s w' :
    0 < i < ids w -> Z.of_nat (length s) < 2 ^ 31 -> os_write (MkOStream (Some (this w)) i) s w = Ok w' ->
    tree_step (w, m) (w', <[i := default [] (m !! i) ++ s]> m)
| step_flush w m w' : flush w = Ok w' -> tree_step (w, m) (w', m)
| step_read w m i bs w' : 0 < i < ids w -> readStream i w = Ok (bs, w') -> tree_step (w, m) (w', m).

Lemma tree_step_holds c c' : tree_step c c' -> holds (fst c) (snd c) -> holds (fst c') (snd c').
Proof.
  intros [w m i os w' Hi Hn E|w m i s w' Hi Hs E|w m w' E|w m i bs w' Hi E] H; cbn [fst snd] in *.
  - destruct (open_ok w m i H Hi Hn) as (w1 & E1 & _ & _ & H1). rewrite E in E1. by injection E1 as -> ->.
  - destruct (stream_write_ok w m i s H Hi Hs) as (w1 & E1 & _ & H1). rewrite E in E1. by injection E1 as ->.
  - unfold flush in E. apply res_assert_inv in E as [_ E].
    destruct (flushBuffer_ok w m H) as (w1 & E1 & H1 & _). rewrite E in E1. by injection E1 as ->.
  - destruct (stream_read_ok w m i H Hi) as (w1 & E1 & _ & H1). rewrite E in E1. by injection E1 as _ ->.
Qed.

(** C38. Whatever streams of a writer were opened, written to and read, in any
    order, [readStream] returns for each stream exactly what it should hold:
    what its ancestors held when it was opened from them, and then what was
    written to it.  With fewer than 2^31 streams and writes of less than 2^31
    bytes no assertion fails, the buffer is not overrun and the chain of
    parents is found. *)
Theorem treestream_roundtrip (self : positive) (w : TreeStreamWriter) (m : gmap Z (list Z)) :
  rtc tree_step (TreeStreamWriter_new self true, ∅) (w, m) ->
  (forall i, 0 < i < ids w -> exists bs w', m !! i = Some bs /\ readStream i w = Ok (bs, w')) /\
  (forall i, 0 <= i < ids w -> ids w < 2 ^ 31 -> exists os w', open_from (MkOStream (Some (this w)) i) w = Ok (os, w')) /\
  (forall i s, 0 < i < ids w -> Z.of_nat (length s) < 2 ^ 31 -> exists w', os_write (MkOStream (Some (this w)) i) s w = Ok w').
Proof.
  intros Hreach. assert (holds w m) as H.
  { change (holds (fst (w, m)) (snd (w, m))). revert Hreach. generalize (w, m) as c'. intros c' Hreach.
    assert (holds (fst (TreeStreamWriter_new self true, ∅ : gmap Z (list Z))) ∅) as H0 by apply holds_new.
    revert H0. remember (TreeStreamWriter_new self true, ∅ : gmap Z (list Z)) as c eqn:Ec.
    assert (∅ = snd c) as -> by (by subst c). clear Ec.
    induction Hreach as [|c1 c2 c3 Hs _ IH]; [done|]. intros H0. by apply IH, (tree_step_holds c1). }
  split_and!.
  - intros i Hi. destruct (stream_read_ok w m i H Hi) as (w' & E & _). destruct (proj2 (holds_dom w m H i) Hi) as [bs Hbs].
    exists bs, w'. rewrite Hbs in E. done.
  - intros i Hi Hn. destruct (open_ok w m i H Hi Hn) as (w' & E & _). eauto.
  - intros i s Hi Hs. destruct (stream_write_ok w m i s H Hi Hs) as (w' & E & _). eauto.
Qed.

(** A fork: the child continues what its parent wrote before it. *)
Definition forked_writer : res TreeStreamWriter :=
  let w := TreeStreamWriter_new 1 true in
  let* p := open w in
  let '(a, w) := p in
  let* w := os_write a [49] w in
  let* p := open_from a w in
  let '(b, w) := p in
  let* w := os_write a [49] w in
  os_write b [48] w.

Definition forked : TreeStreamWriter :=
  Eval vm_compute in match forked_writer with Ok w => w | _ => TreeStreamWriter_new 1 false end.

Lemma forked_writer_reachable : exists m, rtc tree_step (TreeStreamWriter_new 1 true, ∅) (forked, m).
Proof.
  eexists. eapply rtc_l; [apply (step_open _ _ 0); [by vm_compute|by vm_compute|vm_compute; reflexivity]|].
  eapply rtc_l; [apply (step_write _ _ 1 [49]); [by vm_compute|by vm_compute|vm_compute; reflexivity]|].
  eapply rtc_l; [apply (step_open _ _ 1); [by vm_compute|by vm_compute|vm_compute; reflexivity]|].
  eapply rtc_l; [apply (step_write _ _ 1 [49]); [by vm_compute|by vm_compute|vm_compute; reflexivity]|].
  apply rtc_once. apply (step_write _ _ 2 [48]); [by vm_compute|by vm_compute|vm_compute; reflexivity].
Qed.

Lemma treestream_roundtrip_witness :
  forked_writer = Ok forked /\ (let* p := readStream 2 forked in Ok (fst p)) = Ok [49; 48] /\
  exists bs w', readStream 1 forked = Ok (bs, w').
Proof.
  split; [vm_compute; reflexivity|]. split; [vm_compute; reflexivity|].
  destruct forked_writer_reachable as [m Hm]. destruct (treestream_roundtrip 1 forked m Hm) as [Hr _].
  destruct (Hr 1 (conj eq_refl eq_refl)) as (bs & w' & _ & Er). exists bs, w'. exact Er.
Defined.
