(* ===== verification/PTree.v ===== *)
(** The tree of execution states of klee/lib/Core/PTree.cpp and the searcher
    that walks it ([RandomPathSearcher] of klee/lib/Core/Searcher.cpp).

    - Nodes are never moved, so a [PTreeNode *] is the path from the root to
      the node, [true] for left; the parent is the path without its last turn.
      [null] is the null pointer: setting a child to it frees the subtree.
    - [ptreeNode] holds the field of that name of every execution state, an
      [ExecutionState *] being its address.
    - Following a null pointer is [AssertFail].
    - [PTree::dump] is left out. *)
From Stdlib Require Import ZArith Lia Bool.
From stdpp Require Import base list numbers option gmap sets.
From S2P Require Import Prelude Rng.
Open Scope Z_scope.

Inductive PTreeNode : Type :=
| null
| Node (left right : PTreeNode) (state : option positive).

Definition path : Type := list bool.

Record PTree : Type := { root : PTreeNode; ptreeNode : gmap positive path }.

Fixpoint node_at (t : PTreeNode) (p : path) : PTreeNode :=
  match t, p with
  | _, [] => t
  | Node l _ _, true :: p => node_at l p
  | Node _ r _, false :: p => node_at r p
  | null, _ => null
  end.

(** Changes the node at a path. *)
Fixpoint modify (f : PTreeNode -> PTreeNode) (t : PTreeNode) (p : path) : PTreeNode :=
  match t, p with
  | _, [] => f t
  | Node l r s, true :: p => Node (modify f l p) r s
  | Node l r s, false :: p => Node l (modify f r p) s
  | null, _ => null
  end.

Definition set_child (d : bool) (c : PTreeNode) (t : PTreeNode) : PTreeNode :=
  match t with
  | null => null
  | Node l r s => if d then Node c r s else Node l c s
  end.

(* n && !n->left && !n->right *)
Definition childless (t : PTreeNode) : bool :=
  match t with Node null null _ => true | _ => false end.

(* PTreeNode::PTreeNode *)
Definition new_node (es : positive) : PTreeNode := Node null null (Some es).

(* PTree::PTree *)
Definition new (initialState : positive) : PTree :=
  {| root := new_node initialState; ptreeNode := {[initialState := []]} |}.

Definition attach (node : path) (leftState rightState : positive) (t : PTree) : res PTree :=
  assert* childless (node_at (root t) node) in
  Ok {| root := modify (fun _ => Node (new_node leftState) (new_node rightState) None) (root t) node;
        ptreeNode := <[rightState := node ++ [false]]> (<[leftState := node ++ [true]]> (ptreeNode t)) |}.

(* the loop of remove; [up] is the path of n, the last turn first *)
Fixpoint remove_loop (t : PTreeNode) (up : path) : PTreeNode :=
  match up with
  | [] => t
  | d :: up =>
      let t := modify (set_child d null) t (rev up) in
      if childless (node_at t (rev up)) then remove_loop t up else t
  end.

Definition remove (n : path) (t : PTree) : res PTree :=
  assert* childless (node_at (root t) n) in
  Ok {| root := remove_loop (root t) (rev n); ptreeNode := ptreeNode t |}.

(** ** RandomPathSearcher *)

(* the loop of selectState *)
Fixpoint walk (n : PTreeNode) (flips bits : Z) (theRNG : RNG) : res (positive * RNG) :=
  match n with
  | null => AssertFail
  | Node l r (Some es) => Ok (es, theRNG)
  | Node null r None => walk r flips bits theRNG
  | Node l null None => walk l flips bits theRNG
  | Node l r None =>
      let* d := (if bits =? 0 then let* d := getInt32 theRNG in Ok (fst d, 32, snd d)
                 else Ok (flips, bits, theRNG)) in
      let '(flips, bits, theRNG) := d in
      let bits := bits - 1 in
      if negb (Z.land flips (wrap 32 (Z.shiftl 1 bits)) =? 0) then walk l flips bits theRNG
      else walk r flips bits theRNG
  end.

Definition selectState (theRNG : RNG) (t : PTree) : res (positive * RNG) := walk (root t) 0 0 theRNG.

(** ** The executor's use of the tree *)

(** The states that have a node, and the tree.  A fork of [es] gives its node a
    left child for the new state and a right one for [es] ([Executor::fork] and
    [Executor::branch]); [Executor::updateStates] and [terminateState] remove
    the node of a state that has ended. *)
Inductive exec_step : gset positive * PTree -> gset positive * PTree -> Prop :=
| exec_fork X t es ns p t' :
    es ∈ X -> ns ∉ X -> ptreeNode t !! es = Some p -> attach p ns es t = Ok t' ->
    exec_step (X, t) ({[ns]} ∪ X, t')
| exec_terminate X t es p t' :
    es ∈ X -> ptreeNode t !! es = Some p -> remove p t = Ok t' ->
    exec_step (X, t) (X ∖ {[es]}, t').

(** * Specification *)

(** [es] is the state of the leaf at [p]. *)
Definition at_leaf (t : PTreeNode) (p : path) (es : positive) : Prop := node_at t p = new_node es.

(** Leaves have states, inner nodes a child. *)
Fixpoint wf (t : PTreeNode) : Prop :=
  match t with
  | null => True
  | Node l r (Some _) => l = null /\ r = null
  | Node l r None => wf l /\ wf r /\ (l <> null \/ r <> null)
  end.

(** The tree of a set of states: its leaves are these states, each at the node
    the state names.  The last state leaves a lone root. *)
Definition represents (X : gset positive) (t : PTree) : Prop :=
  if decide (X = ∅) then childless (root t) = true
  else wf (root t) /\ root t <> null /\
    (forall es p, at_leaf (root t) p es -> es ∈ X /\ ptreeNode t !! es = Some p) /\
    (forall es, es ∈ X -> exists p, at_leaf (root t) p es).

(** The walk with a given sequence of coin flips. *)
Fixpoint follow (t : PTreeNode) (flips : list bool) : option positive :=
  match t with
  | null => None
  | Node l r (Some es) => Some es
  | Node null r None => follow r flips
  | Node l null None => follow l flips
  | Node l r None =>
      match flips with [] => None | d :: flips => if d then follow l flips else follow r flips end
  end.

(** The turns of a path at the nodes with two children. *)
Fixpoint turns (t : PTreeNode) (p : path) : list bool :=
  match t, p with
  | Node null r _, false :: p => turns r p
  | Node l null _, true :: p => turns l p
  | Node l r _, d :: p => d :: turns (if d then l else r) p
  | _, _ => []
  end.

Fixpoint depth (t : PTreeNode) : nat :=
  match t with null => 0 | Node l r _ => S (Nat.max (depth l) (depth r)) end.

(** The low [n] bits of a word, the highest first, and those of the next draws. *)
Fixpoint low_bits (n : nat) (y : Z) : list bool :=
  match n with O => [] | S n => Z.testbit y (Z.of_nat n) :: low_bits n y end.
Fixpoint flips_of (n : nat) (r : RNG) : list bool :=
  match n with
  | O => []
  | S n => match getInt32 r with Ok (y, r) => low_bits 32 y ++ flips_of n r | _ => [] end
  end.

(** * Lemmas *)

Lemma node_at_app t p q : node_at t (p ++ q) = node_at (node_at t p) q.
Proof.
  revert t. induction p as [|d p IH]; intros t; [by destruct t|].
  destruct t as [|l r s]; [by destruct q|]. cbn. by destruct d.
Qed.

Lemma node_at_modify f t p : node_at t p <> null -> node_at (modify f t p) p = f (node_at t p).
Proof.
  revert t. induction p as [|d p IH]; intros t Hn.
  - cbn. destruct t; cbn; by destruct (f _).
  - destruct t as [|l r s]; [done|]. cbn in *. destruct d; by apply IH.
Qed.

Lemma wf_node_at t p : wf t -> wf (node_at t p).
Proof.
  revert t. induction p as [|d p IH]; intros t Ht; [by destruct t|].
  destruct t as [|l r [es|]]; [done| |]; cbn in *.
  - destruct Ht as [-> ->]. by destruct d, p.
  - destruct Ht as (Hl & Hr & _). destruct d; by apply IH.
Qed.

(** A node on the way to another one has no state. *)
Lemma wf_inner l r s d p : wf (Node l r s) -> node_at (Node l r s) (d :: p) <> null ->
  s = None /\ wf l /\ wf r.
Proof.
  destruct s as [es|]; [|by intros (? & ? & _)]. intros [-> ->] H. exfalso. apply H. cbn. by destruct d, p.
Qed.

Lemma at_leaf_inner l r d p es : ~ at_leaf (Node l r None) [] es /\
  (at_leaf (Node l r None) (d :: p) es <-> at_leaf (if d then l else r) p es).
Proof. split; [done|]. by destruct d. Qed.

Lemma at_leaf_null p es : ~ at_leaf null p es.
Proof. by destruct p. Qed.

Lemma at_leaf_new p es es' : at_leaf (new_node es) p es' <-> p = [] /\ es' = es.
Proof.
  destruct p as [|d p]; unfold at_leaf; cbn; [split; [by intros [= ->]|by intros [_ ->]]|].
  split; [|by intros [? _]]. destruct d; by destruct p.
Qed.

Lemma at_leaf_modify f t p q es :
  wf t -> node_at t p <> null ->
  at_leaf (modify f t p) q es <->
  (exists q', q = p ++ q' /\ at_leaf (f (node_at t p)) q' es) \/
  (at_leaf t q es /\ ~ exists q', q = p ++ q').
Proof.
  revert t q. induction p as [|d p IH]; intros t q Ht Hn.
  - replace (modify f t []) with (f t) by (by destruct t). replace (node_at t []) with t by (by destruct t).
    split; [intros H; left; by exists q|]. intros [(q' & -> & H)|[_ []]]; [done|by exists q].
  - destruct t as [|l r s]; [done|]. destruct (wf_inner _ _ _ _ _ Ht Hn) as (-> & Hl & Hr).
    destruct q as [|d' q].
    + split; [by destruct d|]. intros [(q' & [=] & _)|[[=] _]].
    + assert (d' <> d -> at_leaf (modify f (Node l r None) (d :: p)) (d' :: q) es <->
                at_leaf (Node l r None) (d' :: q) es) as Hother by (by destruct d, d').
      destruct (decide (d' = d)) as [->|Hd].
      * transitivity (at_leaf (modify f (if d then l else r) p) q es); [by destruct d|].
        rewrite IH by (by destruct d). cbn [node_at].
        replace (node_at (if d then l else r) p) with (node_at (Node l r None) (d :: p)) by (by destruct d).
        cbn [node_at]. split; (intros [(q' & E & H)|[H Hno]]; [left|right]).
        -- exists q'. by rewrite E.
        -- split; [by destruct d|]. intros [q' [= E]]. apply Hno. by exists q'.
        -- exists q'. by injection E as E.
        -- split; [by destruct d|]. intros [q' ->]. apply Hno. by exists q'.
      * rewrite (Hother Hd). split; [intros H; right; split; [done|]|intros [(q' & [= E _] & _)|[H _]]; done].
        intros [q' [= E _]]. done.
Qed.

Lemma wf_modify f t p :
  wf t -> node_at t p <> null -> wf (f (node_at t p)) -> f (node_at t p) <> null ->
  wf (modify f t p) /\ modify f t p <> null.
Proof.
  revert t. induction p as [|d p IH]; intros t Ht Hn Hf Hf0.
  - by destruct t.
  - destruct t as [|l r s]; [done|]. destruct (wf_inner _ _ _ _ _ Ht Hn) as (-> & Hl & Hr).
    destruct Ht as (_ & _ & Hc). cbn in *. destruct d.
    + destruct (IH l Hl Hn Hf Hf0). split; [|done]. split_and!; [done|done|by left].
    + destruct (IH r Hr Hn Hf Hf0). split; [|done]. split_and!; [done|done|by right].
Qed.

(** ** Removal *)

(** What removal leaves of a subtree: a node that loses its last child goes too. *)
Fixpoint delete_at (t : PTreeNode) (p : path) : PTreeNode :=
  match p, t with
  | d :: p, Node l r s =>
      let t := set_child d (delete_at (if d then l else r) p) t in if childless t then null else t
  | _, _ => null
  end.

Lemma delete_snoc c p d :
  node_at c p <> null ->
  let c' := modify (set_child d null) c p in
  delete_at c (p ++ [d]) = if childless (node_at c' p) then delete_at c' p else c'.
Proof.
  cbn zeta. revert c. induction p as [|e p IH]; intros c Hn.
  - destruct c as [|l r s]; [done|]. destruct d; by destruct l, r.
  - destruct c as [|l r s]; [done|]. cbn [app delete_at].
    assert (node_at (if e then l else r) p <> null) as Hn' by (by destruct e).
    rewrite (IH _ Hn'). set (ch := modify (set_child d null) (if e then l else r) p).
    assert (modify (set_child d null) (Node l r s) (e :: p) = set_child e ch (Node l r s)) as ->
      by (by destruct e).
    assert (node_at (set_child e ch (Node l r s)) (e :: p) = node_at ch p) as -> by (by destruct e).
    assert (ch <> null) as Hch.
    { unfold ch. intros E. apply (f_equal (fun t => node_at t p)) in E. rewrite node_at_modify in E by done.
      destruct (node_at (if e then l else r) p); [done|]. destruct d, p; cbn in E; done. }
    destruct (childless (node_at ch p)).
    + by destruct e.
    + destruct ch; [done|]. destruct e; cbn; by destruct l, r.
Qed.

Lemma remove_loop_delete t p :
  node_at t p <> null ->
  remove_loop t (rev p) =
    match p with [] => t | d :: p => set_child d (delete_at (node_at t [d]) p) t end.
Proof.
  revert t. induction p as [|d p IH] using rev_ind; intros t Hn; [done|].
  rewrite rev_app_distr. cbn [rev app remove_loop]. rewrite rev_involutive.
  assert (node_at t p <> null) as Hp.
  { intros E. apply Hn. rewrite node_at_app, E. done. }
  set (t' := modify (set_child d null) t p). assert (node_at t' p = set_child d null (node_at t p)) as Et.
  { unfold t'. by rewrite node_at_modify. }
  assert (node_at t' p <> null) as Ht'.
  { rewrite Et. destruct (node_at t p); [done|]. by destruct d. }
  rewrite (IH t' Ht'). destruct p as [|e p].
  - cbn [app]. destruct t as [|l r s]; [done|]. unfold t'. destruct d; by destruct l, r.
  - cbn [app]. destruct t as [|l r s]; [done|].
    assert (node_at (Node l r s) [e] = if e then l else r) as -> by (destruct e; cbn; by destruct l, r).
    assert (node_at (if e then l else r) p <> null) as Hc by (by destruct e).
    rewrite (delete_snoc _ p d Hc). set (ch := modify (set_child d null) (if e then l else r) p).
    assert (t' = set_child e ch (Node l r s)) as -> by (by destruct e).
    assert (node_at (set_child e ch (Node l r s)) (e :: p) = node_at ch p) as -> by (by destruct e).
    assert (node_at (set_child e ch (Node l r s)) [e] = ch) as -> by (destruct e; cbn; by destruct ch).
    destruct (childless (node_at ch p)); by destruct e.
Qed.

(** Putting in place of a subtree what is left of it without the leaf [p]. *)
Lemma delete_child l r (d : bool) (p : path) c :
  wf (Node l r None) -> wf c ->
  (forall q x, at_leaf c q x <-> at_leaf (if d then l else r) q x /\ q <> p) ->
  let t' := set_child d c (Node l r None) in
  (forall q x, at_leaf t' q x <-> at_leaf (Node l r None) q x /\ q <> d :: p) /\
  if childless t' then forall q x, ~ at_leaf t' q x else wf t'.
Proof.
  intros (Hwl & Hwr & _) Hc Hq t'. split.
  - intros [|d' q] x; [split; [by destruct d|by intros [[=] _]]|].
    destruct (decide (d' = d)) as [->|Hd].
    + transitivity (at_leaf c q x); [by destruct d|]. rewrite Hq.
      transitivity (at_leaf (Node l r None) (d :: q) x /\ q <> p); [by destruct d|]. naive_solver.
    + transitivity (at_leaf (Node l r None) (d' :: q) x); [by destruct d, d'|]. naive_solver.
  - destruct (childless t') eqn:Ech; unfold t' in *.
    + intros q x Hx. assert (c = null /\ (if d then r else l) = null) as [-> E].
      { clear -Ech. destruct d; cbn in Ech |- *; by destruct c, l, r. }
      destruct q as [|d' q]; [by destruct d|]. destruct d, d'; cbn in E; subst; by apply at_leaf_null in Hx.
    + destruct d; cbn in *; split_and!; try done.
      * destruct c, r; by auto.
      * destruct c, l; by auto.
Qed.

Lemma delete_at_ok t p es :
  wf t -> at_leaf t p es ->
  wf (delete_at t p) /\
  forall q es', at_leaf (delete_at t p) q es' <-> at_leaf t q es' /\ q <> p.
Proof.
  revert t. induction p as [|d p IH]; intros t Ht Hl.
  - unfold at_leaf in Hl. replace (node_at t []) with t in Hl by (by destruct t). subst t. split; [done|].
    intros q es'. rewrite at_leaf_new. cbn [delete_at]. split; [by intros H%at_leaf_null|]. by intros [[-> _] ?].
  - destruct t as [|l r s]; [done|].
    destruct (wf_inner _ _ _ _ _ Ht ltac:(rewrite Hl; done)) as (-> & Hwl & Hwr).
    assert (at_leaf (if d then l else r) p es) as Hlf by (by destruct d).
    destruct (IH (if d then l else r) ltac:(by destruct d) Hlf) as [Hw Hq]. cbn [delete_at].
    destruct (delete_child l r d p _ Ht Hw Hq) as [Hq' Hch]. destruct (childless _); [|done].
    split; [done|]. intros q es'. rewrite <- Hq'. split; [by intros H%at_leaf_null|]. by intros H%Hch.
Qed.

(** ** The tree of the executor's states *)

Lemma wf_has_leaf t : wf t -> t <> null -> exists p es, at_leaf t p es.
Proof.
  induction t as [|l IHl r IHr [es|]]; intros Ht Hn; [done| |].
  - destruct Ht as [-> ->]. by exists [], es.
  - destruct Ht as (Hl & Hr & [Hc|Hc]).
    + destruct (IHl Hl Hc) as (p & es & H). by exists (true :: p), es.
    + destruct (IHr Hr Hc) as (p & es & H). by exists (false :: p), es.
Qed.

Lemma represents_new es : represents {[es]} (new es).
Proof.
  unfold represents. destruct (decide _) as [E|_]; [set_solver|]. split_and!; [done|done| |].
  - intros es' p [-> ->]%at_leaf_new. split; [set_solver|]. apply lookup_singleton_eq.
  - intros es' ->%elem_of_singleton. by exists [].
Qed.

Lemma represents_some X t es :
  represents X t -> es ∈ X ->
  wf (root t) /\ root t <> null /\
    (forall es p, at_leaf (root t) p es -> es ∈ X /\ ptreeNode t !! es = Some p) /\
    (forall es, es ∈ X -> exists p, at_leaf (root t) p es).
Proof. unfold represents. intros H Hes. destruct (decide _) as [->|_]; [set_solver|done]. Qed.

(** The node a state names is its leaf. *)
Lemma represents_leaf X t es p :
  represents X t -> es ∈ X -> ptreeNode t !! es = Some p -> at_leaf (root t) p es.
Proof.
  intros H Hes Hp. destruct (represents_some _ _ _ H Hes) as (_ & _ & Hl & Hx).
  destruct (Hx es Hes) as [q Hq]. destruct (Hl _ _ Hq) as [_ E]. rewrite E in Hp. by injection Hp as <-.
Qed.

Lemma ptree_attach_ok X t es ns p :
  represents X t -> es ∈ X -> ns ∉ X -> ptreeNode t !! es = Some p ->
  exists t', attach p ns es t = Ok t' /\ represents ({[ns]} ∪ X) t'.
Proof.
  intros H Hes Hns Hp. pose proof (represents_leaf _ _ _ _ H Hes Hp) as Hleaf.
  destruct (represents_some _ _ _ H Hes) as (Hw & Hne & Hl & Hx). unfold attach.
  rewrite (Hleaf : node_at _ _ = _). cbn [childless new_node res_assert]. eexists. split; [done|].
  set (f := fun _ : PTreeNode => Node (new_node ns) (new_node es) None).
  assert (node_at (root t) p <> null) as Hn by (by rewrite Hleaf).
  assert (forall q x, at_leaf (modify f (root t) p) q x <->
    (q = p ++ [true] /\ x = ns) \/ (q = p ++ [false] /\ x = es) \/ (at_leaf (root t) q x /\ q <> p)) as Hlf.
  { intros q x. rewrite (at_leaf_modify f _ _ _ _ Hw Hn). unfold f. split.
    - intros [(q' & -> & H')|[H' Hno]].
      + destruct q' as [|[] q']; [done| |]; apply at_leaf_new in H' as [-> ->]; auto.
      + right; right. split; [done|]. intros ->. apply Hno. exists []. by rewrite app_nil_r.
    - intros [[-> ->]|[[-> ->]|[H' Hq]]]; [left; by exists [true]|left; by exists [false]|].
      right. split; [done|]. intros [q' ->]. destruct q' as [|d q']; [by rewrite app_nil_r in Hq|].
      unfold at_leaf in H'. rewrite node_at_app, Hleaf in H'. by destruct d, q'. }
  unfold represents. destruct (decide _) as [E|_]; [set_solver|]. cbn [root ptreeNode].
  destruct (wf_modify f (root t) p Hw Hn) as [Hw' Hne']; [unfold f; cbn; auto|done|].
  assert (ns <> es) as Hnes by (by intros ->). split_and!; [done|done| |].
  - intros x q [[-> ->]|[[-> ->]|[H' Hq]]]%Hlf.
    + split; [set_solver|]. rewrite lookup_insert_ne by done. apply lookup_insert_eq.
    + split; [set_solver|]. apply lookup_insert_eq.
    + destruct (Hl _ _ H') as [Hx' E]. split; [set_solver|].
      rewrite !lookup_insert_ne; [done|by intros ->|]. intros ->. rewrite Hp in E. by injection E as ->.
  - intros x [->%elem_of_singleton|Hx']%elem_of_union.
    + exists (p ++ [true]). apply Hlf. auto.
    + destruct (decide (x = es)) as [->|Hne2]; [exists (p ++ [false]); apply Hlf; auto|].
      destruct (Hx x Hx') as [q Hq]. exists q. apply Hlf. right; right. split; [done|]. intros ->.
      unfold at_leaf in *. rewrite Hleaf in Hq. by injection Hq as ->.
Qed.

Lemma represents_remove l r (m : gmap positive path) X (d : bool) (p : path) es c :
  represents X {| root := Node l r None; ptreeNode := m |} -> es ∈ X -> m !! es = Some ((d :: p) : path) ->
  wf c -> (forall q x, at_leaf c q x <-> at_leaf (if d then l else r) q x /\ q <> p) ->
  represents (X ∖ {[es]}) {| root := set_child d c (Node l r None); ptreeNode := m |}.
Proof.
  intros H Hes Hp Hc Hq. pose proof (represents_leaf _ _ _ _ H Hes Hp) as Hleaf.
  destruct (represents_some _ _ _ H Hes) as (Hw & _ & Hl & Hx). cbn [root ptreeNode] in *.
  destruct (delete_child l r d p c Hw Hc Hq) as [Hq' Hch]. set (t' := set_child d c (Node l r None)) in *.
  assert (forall x q, at_leaf (Node l r None) q x -> (x ∈ X ∖ {[es]} <-> q <> d :: p)) as Hothers.
  { intros x q Hqx. destruct (Hl _ _ Hqx) as [Hxx E]. rewrite elem_of_difference, elem_of_singleton. split.
    - intros [_ Hne] ->. unfold at_leaf in *. rewrite Hleaf in Hqx. by injection Hqx as ->.
    - intros Hqp. split; [done|]. intros ->. rewrite Hp in E. by injection E as <-. }
  assert (t' <> null) as Ht' by (by destruct d).
  unfold represents. cbn [root ptreeNode]. destruct (decide _) as [E|Hne'].
  - destruct (childless t'); [done|]. exfalso. destruct (wf_has_leaf _ Hch Ht') as (q & x & Hqx).
    apply Hq' in Hqx as [Hqx Hqp]. apply (Hothers _ _ Hqx) in Hqp. set_solver.
  - split_and!; [|done| |].
    + destruct (childless t'); [|done]. exfalso. apply set_choose_L in Hne' as [x Hx'].
      destruct (Hx x) as [q Hqx]; [set_solver|]. apply (Hch q x), Hq'. split; [done|]. by apply (Hothers _ _ Hqx).
    + intros x q [Hqx Hqp]%Hq'. split; [by apply (Hothers _ _ Hqx)|]. by apply Hl.
    + intros x Hx'. destruct (Hx x) as [q Hqx]; [set_solver|]. exists q. apply Hq'. split; [done|].
      by apply (Hothers _ _ Hqx).
Qed.

Lemma ptree_remove_ok X t es p :
  represents X t -> es ∈ X -> ptreeNode t !! es = Some p ->
  exists t', remove p t = Ok t' /\ represents (X ∖ {[es]}) t'.
Proof.
  intros H Hes Hp. pose proof (represents_leaf _ _ _ _ H Hes Hp) as Hleaf.
  destruct (represents_some _ _ _ H Hes) as (Hw & _ & _ & Hx). destruct t as [t m]. cbn [root ptreeNode] in *.
  unfold remove. cbn [root ptreeNode]. rewrite (Hleaf : node_at _ _ = _). cbn [childless new_node res_assert].
  eexists. split; [done|]. rewrite remove_loop_delete by (by rewrite Hleaf). destruct p as [|d p].
  - assert (t = new_node es) as -> by (by destruct t). unfold represents. destruct (decide _) as [|Hne]; [done|].
    exfalso. apply set_choose_L in Hne as [x Hx']. destruct (Hx x) as [q Hq]; [set_solver|].
    apply at_leaf_new in Hq as [_ ->]. set_solver.
  - destruct t as [|l r s]; [done|]. destruct (wf_inner _ _ _ _ _ Hw ltac:(rewrite Hleaf; done)) as (-> & Hwl & Hwr).
    assert (node_at (Node l r None) [d] = if d then l else r) as -> by (destruct d; cbn; by destruct l, r).
    destruct (delete_at_ok (if d then l else r) p es) as [Hc Hq]; [by destruct d|by destruct d|].
    by apply represents_remove with p.
Qed.

(** ** Walks *)

Lemma follow_turns t p es fs :
  wf t -> at_leaf t p es -> follow t (turns t p ++ fs) = Some es.
Proof.
  revert t. induction p as [|d p IH]; intros t Ht Hl.
  - unfold at_leaf in Hl. replace (node_at t []) with t in Hl by (by destruct t). by subst t.
  - destruct t as [|l r s]; [done|]. destruct (wf_inner _ _ _ _ _ Ht ltac:(rewrite Hl; done)) as (-> & Hwl & Hwr).
    assert (at_leaf (if d then l else r) p es) as Hlf by (by destruct d).
    specialize (IH (if d then l else r) ltac:(by destruct d) Hlf).
    destruct d, l as [|ll lr ls], r as [|rl rr rs]; cbn in IH |- *; try done; by apply at_leaf_null in Hlf.
Qed.

Lemma follow_total t fs :
  wf t -> t <> null -> (depth t <= S (length fs))%nat ->
  exists p es, at_leaf t p es /\ follow t fs = Some es /\ turns t p `prefix_of` fs.
Proof.
  revert fs. induction t as [|l IHl r IHr [es|]]; intros fs Ht Hn Hd; [done| |].
  - destruct Ht as [-> ->]. exists [], es. split_and!; [done|done|apply prefix_nil].
  - destruct Ht as (Hl & Hr & Hc). cbn [depth] in Hd.
    destruct l as [|ll lr ls]; [|destruct r as [|rl rr rs]].
    + destruct Hc as [?|Hc]; [done|]. destruct r as [|rl rr rs]; [done|]. destruct (IHr fs Hr Hc) as (p & es & H1 & H2 & H3); [cbn [depth] in *; lia|].
      exists (false :: p), es. exact (conj H1 (conj H2 H3)).
    + destruct (IHl fs Hl) as (p & es & H1 & H2 & H3); [done|cbn [depth] in *; lia|].
      exists (true :: p), es. exact (conj H1 (conj H2 H3)).
    + destruct fs as [|[] fs]; [cbn in Hd; lia| |]; cbn [length] in Hd.
      * destruct (IHl fs Hl) as (p & es & H1 & H2 & H3); [done|cbn [depth] in *; lia|].
        exists (true :: p), es. split_and!; [done|done|by apply prefix_cons].
      * destruct (IHr fs Hr) as (p & es & H1 & H2 & H3); [done|cbn [depth] in *; lia|].
        exists (false :: p), es. split_and!; [done|done|by apply prefix_cons].
Qed.

Lemma length_low_bits n y : length (low_bits n y) = n.
Proof. induction n as [|n IH]; cbn; [done|]. by rewrite IH. Qed.

Lemma test_bit y n : (n < 32)%nat -> negb (Z.land y (wrap 32 (Z.shiftl 1 (Z.of_nat n))) =? 0) = Z.testbit y (Z.of_nat n).
Proof.
  intros Hn. rewrite Z.shiftl_1_l, wrap_small by (split; [lia|apply Z.pow_lt_mono_r; lia]).
  destruct (Z.testbit y (Z.of_nat n)) eqn:E.
  - apply negb_true_iff, Z.eqb_neq. intros H. apply (f_equal (fun z => Z.testbit z (Z.of_nat n))) in H.
    rewrite Z.land_spec, E, Z.pow2_bits_true, Z.bits_0 in H by lia. done.
  - apply negb_false_iff, Z.eqb_eq. apply Z.bits_inj'. intros i Hi. rewrite Z.land_spec, Z.bits_0.
    destruct (decide (i = Z.of_nat n)) as [->|Hne]; [by rewrite E|].
    rewrite Z.pow2_bits_false by lia. apply andb_false_r.
Qed.

(** The walk is [follow] with the bits of the draws, the highest first. *)
Lemma walk_follow t : forall b n flips r,
  wf t -> t <> null -> valid r -> (b <= 32)%nat -> (depth t <= S (b + 32 * n))%nat ->
  exists es r', walk t flips (Z.of_nat b) r = Ok (es, r') /\ valid r' /\
    follow t (low_bits b flips ++ flips_of n r) = Some es.
Proof.
  induction t as [|l IHl r IHr [es|]]; intros b n flips g Ht Hn Hg Hb Hd; [done|by destruct Ht as [-> ->]; exists es, g|].
  destruct Ht as (Hl & Hr & Hc). cbn [depth] in Hd.
  destruct l as [|ll lr ls]; [|destruct r as [|rl rr rs]].
  - destruct Hc as [?|Hc]; [done|]. destruct r as [|rl rr rs]; [done|]. apply IHr; try done. cbn [depth] in *. lia.
  - apply IHl; try done. cbn [depth] in *. lia.
  - set (l := Node ll lr ls) in *. set (r := Node rl rr rs) in *.
    assert (forall b n flips g, valid g -> (b < 32)%nat -> (depth l <= S (b + 32 * n))%nat -> (depth r <= S (b + 32 * n))%nat ->
      exists es r', (if negb (Z.land flips (wrap 32 (Z.shiftl 1 (Z.of_nat b))) =? 0)
                     then walk l flips (Z.of_nat b) g else walk r flips (Z.of_nat b) g) = Ok (es, r') /\ valid r' /\
        follow (Node l r None) (low_bits (S b) flips ++ flips_of n g) = Some es) as Step.
    { clear b n flips g Hg Hb Hd. intros b n flips g Hg Hb Hdl Hdr. rewrite test_bit by done. cbn [low_bits app follow].
      destruct (Z.testbit flips (Z.of_nat b)); [apply IHl|apply IHr]; try done; lia. }
    cbn [walk]. unfold l at 1, r at 1. destruct b as [|b].
    + destruct n as [|n]; [unfold l, r in Hd; cbn [depth] in Hd; lia|]. cbn [Z.of_nat Z.eqb low_bits app flips_of].
      destruct (getInt32_ok g Hg) as (y & g' & -> & _ & Hg'). cbn [res_bind fst snd].
      apply (Step 31%nat n y g'); [done|lia|lia|lia].
    + rewrite (proj2 (Z.eqb_neq _ _)) by lia. cbn [res_bind]. replace (Z.of_nat (S b) - 1) with (Z.of_nat b) by lia.
      apply (Step b n flips g); [done|lia|lia|lia].
Qed.

(** * Properties *)

(** C39. From the tree of the initial state on, whatever states fork and end, the
    tree has exactly the living states at its leaves, each where its
    [ptreeNode] points; so neither [attach] nor [remove] ever fails an
    assertion, and removing a state also removes the inner nodes it leaves
    childless. *)
Theorem ptree_represents_states (es : positive) (X : gset positive) (t : PTree)
  (Hreach : rtc exec_step ({[es]}, new es) (X, t)) :
  represents X t /\
  forall x, x ∈ X -> exists p, ptreeNode t !! x = Some p /\
    (exists t', remove p t = Ok t' /\ represents (X ∖ {[x]}) t') /\
    (forall ns, ns ∉ X -> exists t', attach p ns x t = Ok t' /\ represents ({[ns]} ∪ X) t').
Proof.
  assert (forall c c', exec_step c c' -> represents (fst c) (snd c) -> represents (fst c') (snd c')) as Step.
  { intros c c' Hs Hr. destruct Hs as [Y u x ns p u' Hx Hns Hp E|Y u x p u' Hx Hp E]; cbn [fst snd] in *.
    - destruct (ptree_attach_ok Y u x ns p Hr Hx Hns Hp) as (v & E' & Hv). rewrite E in E'. by injection E' as <-.
    - destruct (ptree_remove_ok Y u x p Hr Hx Hp) as (v & E' & Hv). rewrite E in E'. by injection E' as <-. }
  assert (represents X t) as Hr.
  { change (represents (fst (X, t)) (snd (X, t))). revert Hreach. generalize (X, t) as c'. intros c' Hreach.
    remember ({[es]}, new es) as c eqn:Ec. assert (represents (fst c) (snd c)) as H0
      by (subst c; apply represents_new). clear Ec. induction Hreach as [|c1 c2 c3 Hs _ IH]; [done|]. eauto. }
  split; [done|]. intros x Hx. destruct (represents_some _ _ _ Hr Hx) as (_ & _ & Hl & Hall).
  destruct (Hall x Hx) as [p Hp]. destruct (Hl _ _ Hp) as [_ E]. exists p. split_and!; [done| |].
  - by apply (ptree_remove_ok X t x p).
  - intros ns Hns. by apply (ptree_attach_ok X t x ns p).
Qed.

(** C40. A random path walk over the tree of a non-empty set of states ends at one
    of them: the one that the bits of the generator's next draws, the highest
    first, lead to; and it reaches each state exactly with the flips that
    start with the turns of its path at the nodes with two children, that is
    with probability 2^-k for k such nodes. *)
Theorem random_path_selects (X : gset positive) (t : PTree) (r : RNG)
  (Ht : represents X t) (Hne : X <> ∅) (Hr : valid r) :
  (exists es r', selectState r t = Ok (es, r') /\ es ∈ X /\ valid r' /\
     follow (root t) (flips_of (depth (root t)) r) = Some es) /\
  (forall es, es ∈ X -> exists p, ptreeNode t !! es = Some p /\
     forall fs, (depth (root t) <= S (length fs))%nat ->
       follow (root t) fs = Some es <-> turns (root t) p `prefix_of` fs).
Proof.
  unfold represents in Ht. destruct (decide _) as [|_]; [done|]. destruct Ht as (Hw & Hn & Hl & Hx). split.
  - destruct (walk_follow (root t) 0 (depth (root t)) 0 r Hw Hn Hr) as (es & r' & E & Hr' & Hf); [lia|lia|].
    exists es, r'. split_and!; [exact E| |done|exact Hf].
    assert (depth (root t) <= S (length (flips_of (depth (root t)) r)))%nat as Hlen.
    { assert (forall n r, valid r -> length (flips_of n r) = (32 * n)%nat) as L; [|rewrite L by done; lia].
      clear. induction n as [|n IH]; intros r Hr; [done|]. cbn [flips_of].
      destruct (getInt32_ok r Hr) as (y & r' & -> & _ & Hr'). rewrite length_app, length_low_bits, IH by done. lia. }
    destruct (follow_total (root t) _ Hw Hn Hlen) as (p & es' & Hp & Hf' & _).
    cbn [low_bits app] in Hf. rewrite Hf in Hf'. injection Hf' as ->. by apply (Hl _ p).
  - intros es Hes. destruct (Hx es Hes) as [p Hp]. exists p. destruct (Hl _ _ Hp) as [_ E]. split; [done|].
    intros fs Hfs. split.
    + intros Hf. destruct (follow_total (root t) fs Hw Hn Hfs) as (q & es' & Hq & Hf' & Hpre).
      rewrite Hf in Hf'. injection Hf' as <-. destruct (Hl _ _ Hq) as [_ E']. rewrite E in E'. by injection E' as <-.
    + intros [gs ->]. by apply follow_turns.
Qed.

(** ** A tree of three states *)

Definition three : PTree :=
  match (let* t := attach [] 2 1 (new 1) in attach [true] 3 2 t) with
  | Ok t => t
  | _ => new 1
  end%positive.

Lemma three_reachable : rtc exec_step ({[1%positive]}, new 1) ({[3%positive]} ∪ ({[2%positive]} ∪ {[1%positive]}), three).
Proof.
  eapply rtc_l; [apply (exec_fork _ _ 1%positive 2%positive []); [set_solver|set_solver|reflexivity|reflexivity]|].
  apply rtc_once. apply (exec_fork _ _ 2%positive 3%positive [true]); [set_solver|set_solver|reflexivity|reflexivity].
Qed.

Lemma ptree_represents_states_witness :
  represents ({[3%positive]} ∪ ({[2%positive]} ∪ {[1%positive]})) three.
Proof. exact (proj1 (ptree_represents_states 1%positive _ three three_reachable)). Defined.

Lemma three_represents : represents ({[3%positive]} ∪ ({[2%positive]} ∪ {[1%positive]})) three.
Proof.
  destruct (ptree_attach_ok {[1%positive]} (new 1) 1 2 []) as (t & E & Ht);
    [apply represents_new|set_solver|set_solver|reflexivity|].
  destruct (ptree_attach_ok _ t 2 3 [true] Ht) as (t' & E' & Ht'); [set_solver|set_solver| |].
  - by injection E as <-.
  - injection E as <-. injection E' as <-. exact Ht'.
Qed.

Lemma random_path_selects_witness :
  exists es r', selectState sample_rng three = Ok (es, r') /\ es ∈ {[3%positive]} ∪ ({[2%positive]} ∪ {[1%positive]} : gset positive).
Proof.
  destruct (random_path_selects _ three sample_rng three_represents) as [(es & r' & E & Hes & _) _];
    [set_solver|exact sample_valid|]. exact (ex_intro _ es (ex_intro _ r' (conj E Hes))).
Defined.
