(* ===== verification/BitArray.v ===== *)
(** The bit vectors of klee/include/klee/util/BitArray.h, the masks of an
    object state: an array of 32-bit words.

    [bit] reads a bit of the vector, [bits_ok n] says that the vector has the
    words for [n] bits; reading, setting and clearing a bit below [n] stay
    inside the array and touch no other bit. *)
From Stdlib Require Import ZArith Lia Bool.
From stdpp Require Import base list numbers option.
From S2P Require Import Prelude.
Open Scope Z_scope.

(** The words. *)
Notation BitArray := (list Z).

(* BitArray::length *)
Definition words (size : Z) : Z := wrap 32 (size + 31) / 32.

(* the constructor: memset with 0xFF or 0 *)
Definition BitArray_new (size : Z) (value : bool) : BitArray :=
  replicate (Z.to_nat (words size)) (if value then 2 ^ 32 - 1 else 0).

(* the copy constructor: memcpy of the words for [size] bits *)
Definition BitArray_copy (b : BitArray) (size : Z) : res BitArray :=
  let n := Z.to_nat (words size) in
  assert* (n <=? length b)%nat in Ok (take n b).

Definition bit_get (b : BitArray) (idx : Z) : res bool :=
  match b !! Z.to_nat (idx / 32) with
  | Some w => Ok (negb (Z.land (Z.shiftr w (Z.land idx 31)) 1 =? 0))
  | None => AssertFail
  end.

Definition bit_set (b : BitArray) (idx : Z) : res BitArray :=
  match b !! Z.to_nat (idx / 32) with
  | Some w => Ok (<[Z.to_nat (idx / 32) := Z.lor w (wrap 32 (Z.shiftl 1 (Z.land idx 31)))]> b)
  | None => AssertFail
  end.

Definition bit_unset (b : BitArray) (idx : Z) : res BitArray :=
  match b !! Z.to_nat (idx / 32) with
  | Some w =>
      Ok (<[Z.to_nat (idx / 32) := Z.land w (wrap 32 (Z.lnot (Z.shiftl 1 (Z.land idx 31))))]> b)
  | None => AssertFail
  end.

(** ** The vector of bits *)

Definition bit (b : BitArray) (idx : Z) : bool :=
  match b !! Z.to_nat (idx / 32) with
  | Some w => Z.testbit w (idx mod 32)
  | None => false
  end.

Definition bits_ok (n : Z) (b : BitArray) : Prop := Z.of_nat (length b) = words n.

(** Sizes whose number of words does not wrap. *)
Definition size_ok (n : Z) : Prop := 0 <= n < 2 ^ 32 - 31.

Section correct.
Context (n : Z) (Hn : size_ok n).

Lemma words_val : words n = (n + 31) / 32.
Proof. unfold words, size_ok in *. by rewrite wrap_small by lia. Qed.

Lemma word_index i : 0 <= i < n -> 0 <= i / 32 < words n.
Proof.
  intros Hi. rewrite words_val. unfold size_ok in Hn. split; [apply Z.div_pos; lia|].
  apply Z.div_lt_upper_bound; [lia|]. pose proof (Z.div_mod (n + 31) 32). pose proof (Z.mod_pos_bound (n + 31) 32). lia.
Qed.

Lemma word_at b i : bits_ok n b -> 0 <= i < n -> exists w, b !! Z.to_nat (i / 32) = Some w.
Proof.
  intros Hb Hi. apply lookup_lt_is_Some_2. pose proof (word_index i Hi). unfold bits_ok in Hb. lia.
Qed.

Lemma land_31 i : Z.land i 31 = i mod 32.
Proof. change 31 with (Z.ones 5). by rewrite Z.land_ones by lia. Qed.

Lemma bit_get_ok b i : bits_ok n b -> 0 <= i < n -> bit_get b i = Ok (bit b i).
Proof.
  intros Hb Hi. destruct (word_at b i Hb Hi) as [w Hw]. unfold bit_get, bit. rewrite Hw, land_31. f_equal.
  change 1 with (Z.ones 1) at 1. rewrite Z.land_ones by lia. change (2 ^ 1) with 2.
  pose proof (Z.mod_pos_bound i 32). rewrite <- Z.bit0_mod, Z.shiftr_spec by lia. rewrite Z.add_0_l.
  by destruct (Z.testbit w _).
Qed.

(** One word changes in one bit. *)
Lemma bit_insert (b : list Z) i w w' v j :
  0 <= i -> 0 <= j -> b !! Z.to_nat (i / 32) = Some w ->
  (forall k, 0 <= k < 32 -> Z.testbit w' k = if k =? i mod 32 then v else Z.testbit w k) ->
  bit (<[Z.to_nat (i / 32) := w']> b) j = if j =? i then v else bit b j.
Proof.
  intros Hi Hj Hw Hk. unfold bit. pose proof (Z.div_pos i 32). pose proof (Z.div_pos j 32).
  destruct (Z.eq_dec (i / 32) (j / 32)) as [E|E].
  - rewrite <- E, Hw. rewrite list_lookup_insert_eq by (by eapply lookup_lt_Some).
    rewrite Hk by (apply Z.mod_pos_bound; lia).
    pose proof (Z.div_mod i 32). pose proof (Z.div_mod j 32).
    destruct (Z.eqb_spec (j mod 32) (i mod 32)), (Z.eqb_spec j i); try done; subst; try lia.
  - rewrite list_lookup_insert_ne by lia. destruct (Z.eqb_spec j i); [congruence|done].
Qed.

Lemma mod_32 i : 0 <= i mod 32 < 32.
Proof. by apply Z.mod_pos_bound. Qed.

Lemma shiftl_1_bits i k : 0 <= i mod 32 -> 0 <= k -> Z.testbit (Z.shiftl 1 (i mod 32)) k = (k =? i mod 32).
Proof. intros Hi Hk. rewrite Z.shiftl_1_l, Z.pow2_bits_eqb by done. by rewrite Z.eqb_sym. Qed.

Lemma bit_set_ok b i : bits_ok n b -> 0 <= i < n ->
  exists b', bit_set b i = Ok b' /\ bits_ok n b' /\ forall j, 0 <= j -> bit b' j = if j =? i then true else bit b j.
Proof.
  intros Hb Hi. destruct (word_at b i Hb Hi) as [w Hw]. pose proof (mod_32 i) as Hm. unfold bit_set. rewrite Hw, land_31.
  eexists. split; [done|]. split; [unfold bits_ok; by rewrite length_insert|]. intros j Hj.
  apply (bit_insert b i w); [lia|done|done|]. intros k Hk. rewrite Z.lor_spec. unfold wrap.
  rewrite Z.mod_pow2_bits_low, shiftl_1_bits by lia.
  destruct (k =? i mod 32); [apply orb_true_r|apply orb_false_r].
Qed.

Lemma bit_unset_ok b i : bits_ok n b -> 0 <= i < n ->
  exists b', bit_unset b i = Ok b' /\ bits_ok n b' /\ forall j, 0 <= j -> bit b' j = if j =? i then false else bit b j.
Proof.
  intros Hb Hi. destruct (word_at b i Hb Hi) as [w Hw]. pose proof (mod_32 i) as Hm. unfold bit_unset. rewrite Hw, land_31.
  eexists. split; [done|]. split; [unfold bits_ok; by rewrite length_insert|]. intros j Hj.
  apply (bit_insert b i w); [lia|done|done|]. intros k Hk. rewrite Z.land_spec. unfold wrap.
  rewrite Z.mod_pow2_bits_low, Z.lnot_spec, shiftl_1_bits by lia.
  destruct (k =? i mod 32); [apply andb_false_r|apply andb_true_r].
Qed.

Lemma BitArray_new_ok v : bits_ok n (BitArray_new n v) /\ forall i, 0 <= i < n -> bit (BitArray_new n v) i = v.
Proof.
  unfold BitArray_new. split.
  - unfold bits_ok. rewrite length_replicate, Z2Nat.id; [done|]. rewrite words_val.
    unfold size_ok in Hn. apply Z.div_pos; lia.
  - intros i Hi. unfold bit. pose proof (word_index i Hi). rewrite lookup_replicate_2 by lia. pose proof (mod_32 i).
    destruct v; [|by rewrite Z.testbit_0_l].
    change (2 ^ 32 - 1) with (Z.ones 32). by apply Z.ones_spec_low.
Qed.

(** A copy of the vector is the vector. *)
Lemma BitArray_copy_ok b : bits_ok n b -> BitArray_copy b n = Ok b.
Proof.
  intros Hb. unfold BitArray_copy, bits_ok in *. rewrite <- Hb, Nat2Z.id, Nat.leb_refl. cbn [res_assert].
  by rewrite take_ge by lia.
Qed.
End correct.
