(* ===== verification/ArrayCache.v ===== *)
(** The array cache: klee/lib/Expr/ArrayCache.cpp, ArrayCache.h and the
    constructor of [Array] in klee/lib/Expr/Expr.cpp.

    The arrays themselves are immutable and live in the store [arrayAt]; the
    allocator [new_array] gives the address of the n-th array that is kept, and
    [new_array_ok] says that the store holds the array there.  The array that a
    cache hit builds and deletes again is not given an address. *)
From Stdlib Require Import ZArith Lia Bool String.
From stdpp Require Import base list numbers option countable strings.
From S2P Require Import Prelude APInt Expr ExprSem.
Open Scope Z_scope.

Section array_cache.
Context {A : APInt} {AR : Arrays}.
Context (new_array : nat -> array -> positive).

(* Array::Array *)
Definition Array_new (name : string) (size : Z) (values : list ap) (domain range : Z) : res array :=
  let a := Array name (wrap 32 size) domain range values in
  assert* isSymbolicArray a || (Z.of_nat (length values) =? Expr.size a) in
  assert* forallb (fun c => getBitWidth c =? range) values in
  Ok a.

(* Array::computeHash *)
Definition array_hash (a : array) : Z :=
  u32_add (u32_mul (name_hash 0 (name a)) MAGIC_HASH_CONSTANT) (size a).

(* EquivArrayCmpFn *)
Definition equiv_arrays (array1 array2 : array) : bool :=
  (size array1 =? size array2) && String.eqb (name array1) (name array2).

Record ArrayCache : Type := MkArrayCache {
  cachedSymbolicArrays : list positive;
  concreteArrays : list positive;
  allocations : nat;
}.

Definition no_arrays : ArrayCache := MkArrayCache [] [] 0.

(* the lookup of cachedSymbolicArrays.insert *)
Definition cached (a : array) (c : ArrayCache) : option positive :=
  find (fun p => (array_hash (arrayAt p) =? array_hash a) && equiv_arrays (arrayAt p) a) (cachedSymbolicArrays c).

Definition CreateArray (name : string) (size : Z) (values : list ap) (domain range : Z) :
    state ArrayCache positive :=
  do* a := slift (Array_new name size values domain range) in fun c =>
  let p := new_array (allocations c) a in
  if isSymbolicArray a then
    match cached a c with
    | None => Ok (p, MkArrayCache (p :: cachedSymbolicArrays c) (concreteArrays c) (S (allocations c)))
    | Some p' => assert* isSymbolicArray (arrayAt p') in Ok (p', c)
    end
  else
    assert* isConstantArray a in
    Ok (p, MkArrayCache (cachedSymbolicArrays c) (concreteArrays c ++ [p]) (S (allocations c))).

(** ** Correctness *)

(** The cached arrays are symbolic, have domain [d] and range [r], and no two
    have the same name and size. *)
Record cache_ok (d r : Z) (c : ArrayCache) : Prop := {
  cached_arrays : Forall (fun p => isSymbolicArray (arrayAt p) = true /\
    domain (arrayAt p) = d /\ range (arrayAt p) = r) (cachedSymbolicArrays c);
  cached_once : forall p q, p ∈ cachedSymbolicArrays c -> q ∈ cachedSymbolicArrays c ->
    equiv_arrays (arrayAt p) (arrayAt q) = true -> p = q;
}.

Lemma no_arrays_ok d r : cache_ok d r no_arrays.
Proof. split; [constructor|]. intros p q Hp. by apply elem_of_nil in Hp. Qed.

Lemma equiv_arrays_spec a b : equiv_arrays a b = true <-> size a = size b /\ name a = name b.
Proof. unfold equiv_arrays. by rewrite andb_true_iff, Z.eqb_eq, String.eqb_eq. Qed.

(** The hash distinguishes no two arrays the comparison finds equal. *)
Lemma equiv_arrays_hash a b : equiv_arrays a b = true -> array_hash a = array_hash b.
Proof. rewrite equiv_arrays_spec. intros [Hs Hn]. unfold array_hash. by rewrite Hs, Hn. Qed.

Lemma cached_Some a c p :
  cached a c = Some p -> p ∈ cachedSymbolicArrays c /\ equiv_arrays (arrayAt p) a = true.
Proof.
  unfold cached. intros H. apply find_some in H as [Hin H]. apply andb_true_iff in H as [_ H].
  split; [by apply list_elem_of_In|done].
Qed.

Lemma cached_None a c q :
  cached a c = None -> q ∈ cachedSymbolicArrays c -> equiv_arrays (arrayAt q) a = false.
Proof.
  unfold cached. intros H Hq. apply list_elem_of_In in Hq. apply (find_none _ _ H) in Hq.
  destruct (equiv_arrays (arrayAt q) a) eqn:E; [|done].
  by rewrite (equiv_arrays_hash _ _ E), Z.eqb_refl in Hq.
Qed.

Lemma Array_new_ok name size values d r :
  0 <= size < 2 ^ 32 -> (values <> [] -> Z.of_nat (length values) = size) ->
  Forall (fun c => getBitWidth c = r) values ->
  Array_new name size values d r = Ok (Array name size d r values).
Proof.
  intros Hs Hl Hv. unfold Array_new. rewrite wrap_small by done.
  assert (isSymbolicArray (Array name size d r values) || (Z.of_nat (length values) =? Expr.size (Array name size d r values)) = true) as ->.
  { destruct values; [done|]. cbn [Expr.size]. apply orb_true_iff. right. apply Z.eqb_eq. by apply Hl. }
  cbn [res_assert]. assert (forallb (fun c => getBitWidth c =? r) values = true) as ->; [|done].
  apply forallb_forall. intros c Hc. apply Z.eqb_eq. apply list_elem_of_In in Hc.
  revert c Hc. apply list.Forall_forall. exact Hv.
Qed.

Context (new_array_ok : forall n a, arrayAt (new_array n a) = a).

(** The array asked for, and the cache keeps its invariant. *)
Lemma CreateArray_ok c name size values d r :
  cache_ok d r c -> 0 <= size < 2 ^ 32 -> (values <> [] -> Z.of_nat (length values) = size) ->
  Forall (fun v => getBitWidth v = r) values ->
  exists p c', CreateArray name size values d r c = Ok (p, c') /\ cache_ok d r c' /\
    arrayAt p = Array name size d r values /\ (values = [] -> cached (arrayAt p) c' = Some p).
Proof.
  intros [Hc Ho] Hs Hl Hv. unfold CreateArray, sbind, slift. rewrite Array_new_ok by done. cbn [res_bind fst snd].
  set (a := Array name size d r values). set (p := new_array (allocations c) a).
  assert (arrayAt p = a) as Hp by apply new_array_ok.
  destruct (isSymbolicArray a) eqn:Esym.
  - assert (values = []) as Ev by (by destruct values). destruct (cached a c) as [q|] eqn:Ec.
    + pose proof Ec as [Hq He]%cached_Some. rewrite list.Forall_forall in Hc. destruct (Hc q Hq) as (Hsym & Hd & Hr).
      rewrite Hsym. cbn [res_assert]. exists q, c. split; [done|]. split; [by split; [rewrite list.Forall_forall|]|].
      apply equiv_arrays_spec in He as [Hsz Hnm]. assert (arrayAt q = a) as Eq.
      { unfold isSymbolicArray in Hsym. destruct (arrayAt q) as [nm sz dm rg vs]. cbn in *. destruct vs; [|done].
        unfold a. by subst. }
      split; [done|]. intros _. by rewrite Eq.
    + exists p. eexists. split; [done|]. split; [|split; [done|]].
      * split; cbn.
        -- constructor; [rewrite Hp; by split_and!|done].
        -- intros x y Hx Hy E. rewrite elem_of_cons in Hx, Hy.
           destruct Hx as [->|Hx], Hy as [->|Hy]; [done| | |by apply Ho].
           ++ rewrite Hp in E. apply equiv_arrays_spec in E as [E1 E2].
              assert (equiv_arrays (arrayAt y) a = true) as E by (by apply equiv_arrays_spec).
              by rewrite (cached_None _ _ _ Ec Hy) in E.
           ++ rewrite Hp in E. by rewrite (cached_None _ _ _ Ec Hx) in E.
      * intros _. unfold cached. cbn. rewrite Hp, Z.eqb_refl.
        assert (equiv_arrays a a = true) as ->; [|done]. by apply equiv_arrays_spec.
  - unfold isConstantArray. rewrite Esym. cbn [negb res_assert]. exists p. eexists. split; [done|].
    split; [|split; [done|]]; [by split|]. intros ->. done.
Qed.

(** Asking again for a symbolic array gives the same object. *)
Lemma CreateArray_again c name size d r p :
  0 <= size < 2 ^ 32 -> cached (Array name size d r []) c = Some p -> isSymbolicArray (arrayAt p) = true ->
  CreateArray name size [] d r c = Ok (p, c).
Proof.
  intros Hs Hc Hp. unfold CreateArray, sbind, slift. rewrite Array_new_ok by done. cbn [res_bind fst snd isSymbolicArray constantValues].
  by rewrite Hc, Hp.
Qed.

End array_cache.

(** ** Properties *)

(** [CreateArray] returns the array asked for, keeps one symbolic array per
    name and size, and returns that one when it is asked for again; it fails no
    assertion.  All arrays of one cache have to have the same domain and range,
    which are no part of its key. *)
Theorem array_cache_correct `{A : APInt} {AR : Arrays} (new_array : nat -> array -> positive) c name size values d r :
  (forall n a, arrayAt (new_array n a) = a) -> cache_ok d r c -> 0 <= size < 2 ^ 32 ->
  (values <> [] -> Z.of_nat (length values) = size) -> Forall (fun v => getBitWidth v = r) values ->
  exists p c', CreateArray new_array name size values d r c = Ok (p, c') /\ cache_ok d r c' /\
    arrayAt p = Array name size d r values /\
    (values = [] -> CreateArray new_array name size [] d r c' = Ok (p, c')).
Proof.
  intros Hn Hc Hs Hl Hv. destruct (CreateArray_ok new_array Hn c name size values d r) as (p & c' & E & Hc' & Hp & Ha); [done..|].
  exists p, c'. split_and!; try done. intros ->. apply CreateArray_again; [done| |by rewrite Hp].
  specialize (Ha eq_refl). by rewrite Hp in Ha.
Qed.

(** ** A concrete store *)

(** Every array has an address: the number of its allocation and its contents,
    encoded. *)
Module ArraySamples.
Definition fields : Type := nat * (string * Z * Z * Z * list (Z * Z)).

Definition to_fields (n : nat) (a : @array bv_apint) : fields :=
  (n, (name a, size a, domain a, range a, map (fun v : bv => (bv_width v, bv_bits v)) (constantValues a))).

Definition of_fields (f : fields) : @array bv_apint :=
  let '(_, (nm, sz, d, r, vs)) := f in @Array bv_apint nm sz d r (map (fun v => BV v.1 v.2) vs).

Definition sample_new_array (n : nat) (a : @array bv_apint) : positive := encode (to_fields n a).

Definition sample_store : @Arrays bv_apint := fun p =>
  match decode p with Some f => of_fields f | None => @Array bv_apint "" 0 32 8 [] end.

Lemma sample_store_ok n a : @arrayAt bv_apint sample_store (sample_new_array n a) = a.
Proof.
  unfold arrayAt, sample_store, sample_new_array. rewrite decode_encode. destruct a as [nm sz d r vs]. cbn.
  f_equal. induction vs as [|[w b] vs IH]; [done|]. cbn. by f_equal.
Qed.
End ArraySamples.

Section witnesses.
Import ArraySamples.
#[local] Existing Instance sample_store.

(** A second array of the same name and size, with another range, is the first
    one: its elements have the wrong width. *)
Lemma array_range_ignored :
  match CreateArray sample_new_array "x" 4 [] 32 8 no_arrays with
  | Ok (p, c) =>
      match CreateArray sample_new_array "x" 4 [] 32 16 c with
      | Ok (q, _) => q = p /\ range (arrayAt q) = 8
      | _ => False
      end
  | _ => False
  end.
Proof. split; reflexivity. Qed.

Lemma array_cache_correct_witness :
  exists p c', CreateArray sample_new_array "x" 4 [] 32 8 no_arrays = Ok (p, c') /\ cache_ok 32 8 c' /\
    arrayAt p = Array "x" 4 32 8 [] /\ CreateArray sample_new_array "x" 4 [] 32 8 c' = Ok (p, c').
Proof.
  destruct (array_cache_correct sample_new_array no_arrays "x" 4 [] 32 8) as (p & c' & E & Hc & Hp & Ha).
  - exact sample_store_ok.
  - apply no_arrays_ok.
  - lia.
  - done.
  - constructor.
  - exists p, c'. split_and!; [exact E|exact Hc|exact Hp|by apply Ha].
Defined.
End witnesses.
