(* ===== verification/ObjectState.v ===== *)
(** The contents of a memory object: class [ObjectState] of
    klee/lib/Core/Memory.cpp and Memory.h.

    Each byte of an object is cached as a concrete value ([concreteStore], where
    [concreteMask] is set), as a symbolic expression ([knownSymbolics]), or only
    in the update list ([flushMask] cleared); a byte may be in the update list
    and cached at the same time.  Accesses at constant offsets use the cache,
    accesses at symbolic offsets flush it into the update list.

    Functions of one byte or mask are functions of the record; functions that
    may create an array work on the object and the [World]: the array cache and
    the counters behind the names of arrays.  [updates] is a root, null until a
    constant array is needed, and a list of nodes.  Out of range accesses are
    [AssertFail].  [setReadOnly], [print] and the warnings are left out. *)
From Stdlib Require Import ZArith Lia Bool String.
From stdpp Require Import base list numbers option.
From S2P Require Import Prelude Bits APInt Expr ExprCreate ExprFactory BitArray ArrayCache.
Open Scope Z_scope.

Section object_state.
Context {A : APInt} {AR : Arrays}.
Context (ConstArrayOpt UseConstantArrays isLittleEndian : bool).
Context (new_array : nat -> array -> positive) (utostr : Z -> string).

Record ObjectState : Type := MkObjectState {
  copyOnWriteOwner : Z;
  concreteStore : list Z;
  concreteMask : option BitArray;
  flushMask : option BitArray;
  knownSymbolics : option (list (option expr));
  updates_root : option positive;
  updates_head : updates;
  os_size : Z;
  readOnly : bool;
}.

Definition set_owner (v : Z) (os : ObjectState) : ObjectState :=
  MkObjectState v (concreteStore os) (concreteMask os) (flushMask os) (knownSymbolics os)
    (updates_root os) (updates_head os) (os_size os) (readOnly os).
Definition set_store (v : list Z) (os : ObjectState) : ObjectState :=
  MkObjectState (copyOnWriteOwner os) v (concreteMask os) (flushMask os) (knownSymbolics os)
    (updates_root os) (updates_head os) (os_size os) (readOnly os).
Definition set_concreteMask (v : option BitArray) (os : ObjectState) : ObjectState :=
  MkObjectState (copyOnWriteOwner os) (concreteStore os) v (flushMask os) (knownSymbolics os)
    (updates_root os) (updates_head os) (os_size os) (readOnly os).
Definition set_flushMask (v : option BitArray) (os : ObjectState) : ObjectState :=
  MkObjectState (copyOnWriteOwner os) (concreteStore os) (concreteMask os) v (knownSymbolics os)
    (updates_root os) (updates_head os) (os_size os) (readOnly os).
Definition set_known (v : option (list (option expr))) (os : ObjectState) : ObjectState :=
  MkObjectState (copyOnWriteOwner os) (concreteStore os) (concreteMask os) (flushMask os) v
    (updates_root os) (updates_head os) (os_size os) (readOnly os).
Definition set_updates (root : option positive) (head : updates) (os : ObjectState) : ObjectState :=
  MkObjectState (copyOnWriteOwner os) (concreteStore os) (concreteMask os) (flushMask os) (knownSymbolics os)
    root head (os_size os) (readOnly os).

(** *** The masks and the cache *)

Definition isByteConcrete (offset : Z) (os : ObjectState) : res bool :=
  match concreteMask os with None => Ok true | Some m => bit_get m offset end.

Definition isByteFlushed (offset : Z) (os : ObjectState) : res bool :=
  match flushMask os with None => Ok false | Some m => let* b := bit_get m offset in Ok (negb b) end.

(* knownSymbolics[offset], null where nothing is known *)
Definition known_at (offset : Z) (os : ObjectState) : res (option expr) :=
  match knownSymbolics os with
  | None => Ok None
  | Some ks => match ks !! Z.to_nat offset with Some e => Ok e | None => AssertFail end
  end.

Definition isByteKnownSymbolic (offset : Z) (os : ObjectState) : res bool :=
  let* e := known_at offset os in Ok (match e with Some _ => true | None => false end).

Definition concrete_at (offset : Z) (os : ObjectState) : res Z :=
  match concreteStore os !! Z.to_nat offset with Some b => Ok b | None => AssertFail end.

Definition markByteConcrete (offset : Z) (os : ObjectState) : res ObjectState :=
  match concreteMask os with
  | Some m => let* m := bit_set m offset in Ok (set_concreteMask (Some m) os)
  | None => Ok os
  end.

Definition markByteSymbolic (offset : Z) (os : ObjectState) : res ObjectState :=
  let m := match concreteMask os with Some m => m | None => BitArray_new (os_size os) true end in
  let* m := bit_unset m offset in Ok (set_concreteMask (Some m) os).

Definition markByteUnflushed (offset : Z) (os : ObjectState) : res ObjectState :=
  match flushMask os with
  | Some m => let* m := bit_set m offset in Ok (set_flushMask (Some m) os)
  | None => Ok os
  end.

Definition markByteFlushed (offset : Z) (os : ObjectState) : res ObjectState :=
  match flushMask os with
  | None => Ok (set_flushMask (Some (BitArray_new (os_size os) false)) os)
  | Some m => let* m := bit_unset m offset in Ok (set_flushMask (Some m) os)
  end.

Definition setKnownSymbolic (offset : Z) (value : option expr) (os : ObjectState) : res ObjectState :=
  match knownSymbolics os with
  | Some ks =>
      assert* (Z.to_nat offset <? length ks)%nat in
      Ok (set_known (Some (<[Z.to_nat offset := value]> ks)) os)
  | None =>
      match value with
      | Some _ =>
          let ks := replicate (Z.to_nat (os_size os)) None in
          assert* (Z.to_nat offset <? length ks)%nat in
          Ok (set_known (Some (<[Z.to_nat offset := value]> ks)) os)
      | None => Ok os
      end
  end.

Definition store_byte (offset value : Z) (os : ObjectState) : res ObjectState :=
  assert* (Z.to_nat offset <? length (concreteStore os))%nat in
  Ok (set_store (<[Z.to_nat offset := value]> (concreteStore os)) os).

(* updates.extend, whose widths are checked once there is a root *)
Definition updates_extend (index value : expr) (os : ObjectState) : res ObjectState :=
  match updates_root os with
  | Some root =>
      let* h := extend root (updates_head os) index value in Ok (set_updates (Some root) h os)
  | None => Ok (set_updates None (UNode index value (updates_head os)) os)
  end.

(* the bytes of an access: all of the object *)
Definition fastRangeCheckOffset (os : ObjectState) : Z * Z := (0, os_size os).

(* flushMask->unset(offset), where the mask was created before *)
Definition flush_unset (offset : Z) (os : ObjectState) : res ObjectState :=
  match flushMask os with
  | Some m => let* m := bit_unset m offset in Ok (set_flushMask (Some m) os)
  | None => AssertFail
  end.

Definition create_flushMask (os : ObjectState) : ObjectState :=
  match flushMask os with
  | None => set_flushMask (Some (BitArray_new (os_size os) true)) os
  | Some _ => os
  end.

(* the update of a cached byte *)
Definition extend_concrete (offset : Z) (os : ObjectState) : res ObjectState :=
  let* i := const_create offset Int32 in
  let* b := concrete_at offset os in
  let* v := const_create b Int8 in
  updates_extend i v os.

Definition extend_known (offset : Z) (os : ObjectState) : res ObjectState :=
  let* e := known_at offset os in
  match e with
  | Some v => let* i := const_create offset Int32 in updates_extend i v os
  | None => AssertFail (* "invalid bit set in flushMask" *)
  end.

Definition flush_for_read (offset : Z) (os : ObjectState) : res ObjectState :=
  let* f := isByteFlushed offset os in
  if f then Ok os
  else
    let* c := isByteConcrete offset os in
    let* os := (if c then extend_concrete offset os else extend_known offset os) in
    flush_unset offset os.

Definition flush_for_write (offset : Z) (os : ObjectState) : res ObjectState :=
  let* f := isByteFlushed offset os in
  let* c := isByteConcrete offset os in
  if f then
    if c then markByteSymbolic offset os
    else
      let* k := isByteKnownSymbolic offset os in
      if k then setKnownSymbolic offset None os else Ok os
  else
    let* os :=
      if c then let* os := extend_concrete offset os in markByteSymbolic offset os
      else let* os := extend_known offset os in setKnownSymbolic offset None os in
    flush_unset offset os.

(* for (offset = rangeBase; offset < rangeBase + rangeSize; offset++) *)
Fixpoint for_range (n : nat) (offset : Z) (body : Z -> ObjectState -> res ObjectState) (os : ObjectState) :
    res ObjectState :=
  match n with
  | O => Ok os
  | S n' => let* os := body offset os in for_range n' (offset + 1) body os
  end.

Definition flushRangeForRead (rangeBase rangeSize : Z) (os : ObjectState) : res ObjectState :=
  for_range (Z.to_nat rangeSize) rangeBase flush_for_read (create_flushMask os).

Definition flushRangeForWrite (rangeBase rangeSize : Z) (os : ObjectState) : res ObjectState :=
  for_range (Z.to_nat rangeSize) rangeBase flush_for_write (create_flushMask os).

Definition makeConcrete (os : ObjectState) : ObjectState :=
  set_known None (set_flushMask None (set_concreteMask None os)).

Definition makeSymbolic (os : ObjectState) : res ObjectState :=
  match updates_head os with
  | UNode _ _ _ => AssertFail (* "makeSymbolic of objects with symbolic values is unsupported" *)
  | UNil =>
      for_range (Z.to_nat (os_size os)) 0 (fun i os =>
        let* os := markByteSymbolic i os in
        let* os := setKnownSymbolic i None os in
        markByteFlushed i os) os
  end.

Definition fill_store (b : Z) (os : ObjectState) : ObjectState :=
  set_store (replicate (Z.to_nat (os_size os)) b) os.

Definition initializeToZero (os : ObjectState) : ObjectState := fill_store 0 (makeConcrete os).

Definition initializeToRandom (os : ObjectState) : ObjectState := fill_store 171 (makeConcrete os).

(** *** Programs over an object and the world *)

Record World : Type := MkWorld { arrayCache : ArrayCache; tmp_arrs : Z; const_arrs : Z }.

Definition prog (T : Type) : Type := state (ObjectState * World) T.

Definition ask {T} (f : ObjectState -> res T) : prog T := fun s =>
  let* x := f (fst s) in Ok (x, s).

Definition change (f : ObjectState -> res ObjectState) : prog unit := fun s =>
  let* os := f (fst s) in Ok (tt, (os, snd s)).

(* getArrayCache()->CreateArray(name, size, values), with the default domain
   and range *)
Definition create_array (nm : string) (size : Z) (values : list ap) : state World positive := fun w =>
  let* p := CreateArray new_array nm size values Int32 Int8 (arrayCache w) in
  Ok (fst p, MkWorld (snd p) (tmp_arrs w) (const_arrs w)).

(* ObjectState(mo) *)
Definition ObjectState_new (size : Z) : state World ObjectState := fun w =>
  let os := MkObjectState 0 (replicate (Z.to_nat size) 0) None None None None UNil size false in
  if UseConstantArrays then Ok (os, w)
  else
    let id := wrap 32 (tmp_arrs w + 1) in
    let* p := create_array ("tmp_arr" ++ utostr id) size [] (MkWorld (arrayCache w) id (const_arrs w)) in
    Ok (set_updates (Some (fst p)) UNil os, snd p).

(* ObjectState(mo, array) *)
Definition ObjectState_symbolic (size : Z) (array : positive) : res ObjectState :=
  let* os := makeSymbolic (MkObjectState 0 (replicate (Z.to_nat size) 0) None None None (Some array) UNil size false) in
  Ok (fill_store 0 os).

Definition mask_copy (m : option BitArray) (size : Z) : res (option BitArray) :=
  match m with Some m => let* m := BitArray_copy m size in Ok (Some m) | None => Ok None end.

(* ObjectState(os) *)
Definition ObjectState_copy (os : ObjectState) : res ObjectState :=
  let* cm := mask_copy (concreteMask os) (os_size os) in
  let* fm := mask_copy (flushMask os) (os_size os) in
  assert* negb (readOnly os) in
  let n := Z.to_nat (os_size os) in
  assert* match knownSymbolics os with Some ks => (n <=? length ks)%nat | None => true end in
  assert* (n <=? length (concreteStore os))%nat in
  Ok (MkObjectState 0 (take n (concreteStore os)) cm fm (take n <$> knownSymbolics os)
        (updates_root os) (updates_head os) (os_size os) false).

(** *** The update list *)

(* the writes, the oldest first *)
Fixpoint collect_writes (u : updates) (Writes : list (expr * expr)) : list (expr * expr) :=
  match u with
  | UNil => Writes
  | UNode index value next => collect_writes next ((index, value) :: Writes)
  end.

(* pushes the leading concrete writes into the constant array *)
Fixpoint push_concrete (Contents : list ap) (Writes : list (expr * expr)) : res (list ap * list (expr * expr)) :=
  match Writes with
  | (Constant Index, Constant Value) :: Writes' =>
      let* i := getZExtValue Index 64 in
      assert* (Z.to_nat i <? length Contents)%nat in
      push_concrete (<[Z.to_nat i := Value]> Contents) Writes'
  | _ => Ok (Contents, Writes)
  end.

Fixpoint extend_all (Writes : list (expr * expr)) (os : ObjectState) : res ObjectState :=
  match Writes with
  | [] => Ok os
  | (index, value) :: Writes' => let* os := updates_extend index value os in extend_all Writes' os
  end.

Definition make_root : prog unit := fun s =>
  let (os, w) := s in
  let* p := push_concrete (replicate (Z.to_nat (os_size os)) (ap_make Int8 0)) (collect_writes (updates_head os) []) in
  let (Contents, Writes) := p in
  let id := wrap 32 (const_arrs w + 1) in
  let* q := create_array ("const_arr" ++ utostr id) (os_size os) Contents (MkWorld (arrayCache w) (tmp_arrs w) id) in
  let* os := extend_all Writes (set_updates (Some (fst q)) UNil os) in
  Ok (tt, (os, snd q)).

Definition getUpdates : prog (positive * updates) :=
  do* u := (fun s => match updates_root (fst s) with Some _ => Ok (tt, s) | None => make_root s end) in
  ask (fun os => match updates_root os with Some root => Ok (root, updates_head os) | None => AssertFail end).

(** *** Bytes *)

(* read8(unsigned offset) *)
Definition read8 (offset : Z) : prog expr :=
  do* c := ask (isByteConcrete offset) in
  if c : bool then ask (fun os => let* b := concrete_at offset os in const_create b Int8)
  else
    do* k := ask (known_at offset) in
    match k with
    | Some e => sret e
    | None =>
        do* f := ask (isByteFlushed offset) in
        do* _ := slift (assert* f in Ok tt) in
        do* u := getUpdates in
        slift (let* i := const_create offset Int32 in ReadExpr_create ConstArrayOpt (fst u) (snd u) i)
    end.

(* read8(ref<Expr> offset) *)
Definition read8_at (offset : expr) : prog expr :=
  do* _ := slift (assert* negb (isConstant offset) in Ok tt) in
  do* _ := change (fun os => let (base, size) := fastRangeCheckOffset os in flushRangeForRead base size os) in
  do* u := getUpdates in
  slift (let* i := ZExtExpr_create offset Int32 in ReadExpr_create ConstArrayOpt (fst u) (snd u) i).

(* write8(unsigned offset, uint8_t value) *)
Definition write8_byte (offset value : Z) : prog unit :=
  change (fun os =>
    let* os := store_byte offset (wrap 8 value) os in
    let* os := setKnownSymbolic offset None os in
    let* os := markByteConcrete offset os in
    markByteUnflushed offset os).

(* write8(unsigned offset, ref<Expr> value) *)
Definition write8 (offset : Z) (value : expr) : prog unit :=
  match value with
  | Constant CE => do* v := slift (getZExtValue CE 8) in write8_byte offset v
  | _ =>
      change (fun os =>
        let* os := setKnownSymbolic offset (Some value) os in
        let* os := markByteSymbolic offset os in
        markByteUnflushed offset os)
  end.

(* write8(ref<Expr> offset, ref<Expr> value) *)
Definition write8_at (offset value : expr) : prog unit :=
  do* _ := slift (assert* negb (isConstant offset) in Ok tt) in
  do* _ := change (fun os => let (base, size) := fastRangeCheckOffset os in flushRangeForWrite base size os) in
  do* i := slift (ZExtExpr_create offset Int32) in
  change (updates_extend i value).

(** *** Words *)

(* the byte of the object that holds byte [i] of a word of [NumBytes] bytes *)
Definition byte_index (NumBytes i : Z) : Z := if isLittleEndian then i else NumBytes - i - 1.

(* Res = i ? Concat(Byte, Res) : Byte, for i = 0, ..., NumBytes - 1 *)
Fixpoint read_loop (byte : Z -> prog expr) (NumBytes : Z) (n : nat) (i : Z) (Res : option expr) : prog (option expr) :=
  match n with
  | O => sret Res
  | S n' =>
      do* Byte := byte (byte_index NumBytes i) in
      do* r := slift (match Res with Some r => ConcatExpr_create Byte r | None => Ok Byte end) in
      read_loop byte NumBytes n' (i + 1) (Some r)
  end.

(* Res is null when there is no byte to read *)
Definition read_bytes (byte : Z -> prog expr) (width : Z) : prog (option expr) :=
  let NumBytes := width / 8 in
  do* _ := slift (assert* width =? NumBytes * 8 in Ok tt) in
  read_loop byte NumBytes (Z.to_nat NumBytes) 0 None.

(* read(unsigned offset, Width width) *)
Definition read (offset width : Z) : prog (option expr) :=
  if width =? Bool_w then
    do* b := read8 offset in do* e := slift (ExtractExpr_create b 0 Bool_w) in sret (Some e)
  else read_bytes (fun idx => read8 (wrap 32 (offset + idx))) width.

(* the rest of read(ref<Expr> offset, Width width), for a symbolic offset *)
Definition read_symbolic (offset : expr) (width : Z) : prog (option expr) :=
  if width =? Bool_w then
    do* b := read8_at offset in do* e := slift (ExtractExpr_create b 0 Bool_w) in sret (Some e)
  else
    read_bytes (fun idx =>
      do* o := slift (let* i := const_create idx Int32 in BinaryExpr_create ConstArrayOpt Add offset i) in
      read8_at o) width.

(* read(ref<Expr> offset, Width width) *)
Definition read_at (offset : expr) (width : Z) : prog (option expr) :=
  do* offset := slift (ZExtExpr_create offset Int32) in
  match offset with
  | Constant CE => do* o := slift (getZExtValue CE 32) in read o width
  | _ => read_symbolic offset width
  end.

Fixpoint write_loop (byte : Z -> Z -> prog unit) (NumBytes : Z) (n : nat) (i : Z) : prog unit :=
  match n with
  | O => sret tt
  | S n' => do* _ := byte (byte_index NumBytes i) i in write_loop byte NumBytes n' (i + 1)
  end.

(* write16, write32 and write64 *)
Definition write_word (NumBytes offset value : Z) : prog unit :=
  write_loop (fun idx i => write8_byte (wrap 32 (offset + idx)) (Z.shiftr value (8 * i))) NumBytes (Z.to_nat NumBytes) 0.

Definition write_bytes (byte : Z -> expr -> prog unit) (value : expr) : prog unit :=
  let w := getWidth value in
  let NumBytes := w / 8 in
  do* _ := slift (assert* w =? NumBytes * 8 in Ok tt) in
  write_loop (fun idx i => do* v := slift (ExtractExpr_create value (8 * i) Int8) in byte idx v)
    NumBytes (Z.to_nat NumBytes) 0.

(* the rest of write(unsigned offset, ref<Expr> value) *)
Definition write_general (offset : Z) (value : expr) : prog unit :=
  if getWidth value =? Bool_w then do* v := slift (ZExtExpr_create value Int8) in write8 offset v
  else write_bytes (fun idx v => write8 (wrap 32 (offset + idx)) v) value.

(* write(unsigned offset, ref<Expr> value) *)
Definition write (offset : Z) (value : expr) : prog unit :=
  match value with
  | Constant CE =>
      let w := getBitWidth CE in
      if (w <=? 64) && bits64.isPowerOfTwo w then
        do* val := slift (getZExtValue CE 64) in
        if (w =? Bool_w) || (w =? Int8) then write8_byte offset val
        else if w =? Int16 then write_word 2 offset (wrap 16 val)
        else if w =? Int32 then write_word 4 offset (wrap 32 val)
        else if w =? Int64 then write_word 8 offset val
        else slift AssertFail
      else write_general offset value
  | _ => write_general offset value
  end.

(* the rest of write(ref<Expr> offset, ref<Expr> value), for a symbolic offset *)
Definition write_symbolic (offset value : expr) : prog unit :=
  if getWidth value =? Bool_w then
    do* v := slift (ZExtExpr_create value Int8) in write8_at offset v
  else
    write_bytes (fun idx v =>
      do* o := slift (let* i := const_create idx Int32 in BinaryExpr_create ConstArrayOpt Add offset i) in
      write8_at o v) value.

(* write(ref<Expr> offset, ref<Expr> value) *)
Definition write_at (offset value : expr) : prog unit :=
  do* offset := slift (ZExtExpr_create offset Int32) in
  match offset with
  | Constant CE => do* o := slift (getZExtValue CE 32) in write o value
  | _ => write_symbolic offset value
  end.

(** *** Concrete values for an external call

    [getValue] is the solver's answer for the value of an expression. *)
Section flush_to_store.
Context {X : Type} (getValue : expr -> state X (option ap)).

(* the body of the loop; toMemory of a byte is its value *)
Definition flush_to_store (i : Z) : state ((ObjectState * World) * X) unit :=
  do* k := on_fst (ask (isByteKnownSymbolic i)) in
  if k : bool then
    do* e := on_fst (read8 i) in
    do* ce := on_snd (getValue e) in
    match ce with
    | None => sret tt (* a warning: "byte will have random value" *)
    | Some v => do* b := slift (getZExtValue v 8) in on_fst (change (store_byte i b))
    end
  else sret tt.

Fixpoint flush_to_store_loop (n : nat) (i : Z) : state ((ObjectState * World) * X) unit :=
  match n with
  | O => sret tt
  | S n' => do* _ := flush_to_store i in flush_to_store_loop n' (i + 1)
  end.

Definition flushToConcreteStore : state ((ObjectState * World) * X) unit := fun s =>
  flush_to_store_loop (Z.to_nat (os_size (fst (fst s)))) 0 s.
End flush_to_store.

End object_state.
