(* ===== verification/ObjectStateInv.v ===== *)
(** What an object state represents, and that the operations on its caches keep
    it: the masks, flushing, and the update list.

    An object represents [contents]: in every environment, a value for each of
    its bytes.  [represents] ties the three caches of each byte ([byte_ok]) to
    them; its first two conditions are the invariants the source lists. *)
From Stdlib Require Import ZArith Lia Bool String.
From stdpp Require Import base list numbers option.
From S2P Require Import Prelude APInt Expr ExprCreate ExprSem ExprFactory BitArray ArrayCache ObjectState.
Open Scope Z_scope.

Section inv.
Context {A : APInt} {L : APIntLaws A} {AR : Arrays}.
Context (opt checked : bool).

(** In each environment, the value of each byte. *)
Definition contents : Type := env -> Z -> option Z.

(** *** The value of the update list *)

Fixpoint writes_value (ρ : env) (base : Z -> option Z) (u : updates) (i : Z) : option Z :=
  match u with
  | UNil => base i
  | UNode index value next =>
      j ← denote checked ρ index;
      if j =? i then denote checked ρ value else writes_value ρ base next i
  end.

(* a null root stands for zeros *)
Definition base_value (ρ : env) (root : option positive) (i : Z) : option Z :=
  match root with Some r => array_init checked ρ r i | None => Some 0 end.

Definition updates_value (os : ObjectState) (ρ : env) (i : Z) : option Z :=
  writes_value ρ (base_value ρ (updates_root os)) (updates_head os) i.

Lemma writes_value_denote ρ r u i :
  writes_value ρ (base_value ρ (Some r)) u i = denote_updates checked ρ r u i.
Proof. induction u as [|idx v next IH]; [done|]. cbn [writes_value]. by rewrite IH. Qed.

Lemma writes_value_ext ρ b b' u i : b i = b' i -> writes_value ρ b u i = writes_value ρ b' u i.
Proof. intros H. induction u as [|idx v next IH]; [done|]. cbn [writes_value]. by rewrite IH. Qed.

Fixpoint writes_ok (size : Z) (null : bool) (u : updates) : Prop :=
  match u with
  | UNil => True
  | UNode index value next =>
      wt index /\ getWidth index = 32 /\ wt value /\ getWidth value = 8 /\
      (null = true -> match index with Constant c => uval c < size | _ => True end) /\
      writes_ok size null next
  end.

Lemma writes_ok_root size r u :
  domain (arrayAt r) = 32 -> range (arrayAt r) = 8 -> writes_ok size false u -> wt_updates r u.
Proof. intros Hd Hr. induction u as [|idx v next IH]; [done|]. cbn. rewrite Hd, Hr. tauto. Qed.

(** *** The caches of a byte *)

Definition mask_bit (m : option BitArray) (i : Z) : bool :=
  match m with None => true | Some b => bit b i end.

Definition mask_ok (n : Z) (m : option BitArray) : Prop :=
  match m with None => True | Some b => bits_ok n b end.

Definition conc (os : ObjectState) (i : Z) : bool := mask_bit (concreteMask os) i.
Definition unflushed (os : ObjectState) (i : Z) : bool := mask_bit (flushMask os) i.
Definition known (os : ObjectState) (i : Z) : option expr :=
  match knownSymbolics os with None => None | Some ks => default None (ks !! Z.to_nat i) end.
Definition stored (os : ObjectState) (i : Z) : Z := default 0 (concreteStore os !! Z.to_nat i).

Definition root_ok (size : Z) (root : option positive) : Prop :=
  match root with
  | None => True
  | Some r => wt_array (arrayAt r) /\ domain (arrayAt r) = 32 /\ range (arrayAt r) = 8 /\ Expr.size (arrayAt r) = size
  end.

Record shape (os : ObjectState) : Prop := {
  shape_size : size_ok (os_size os);
  shape_store : Z.of_nat (length (concreteStore os)) = os_size os;
  shape_bytes : Forall (fun b => 0 <= b < 256) (concreteStore os);
  shape_cmask : mask_ok (os_size os) (concreteMask os);
  shape_fmask : mask_ok (os_size os) (flushMask os);
  shape_known : match knownSymbolics os with Some ks => Z.of_nat (length ks) = os_size os | None => True end;
  shape_root : root_ok (os_size os) (updates_root os);
  shape_writes : writes_ok (os_size os) (negb (bool_decide (is_Some (updates_root os)))) (updates_head os);
}.

(** An expression that has the value of a byte wherever that has one. *)
Definition byte_expr (c : env -> option Z) (e : expr) : Prop :=
  wt e /\ getWidth e = 8 /\ forall ρ v, c ρ = Some v -> denote checked ρ e = Some v.

Record byte_ok (c : env -> option Z) (is_conc : bool) (k : option expr) (is_unflushed : bool) (st : Z)
    (uv : env -> option Z) : Prop := {
  byte_excl : is_conc = true -> k = None;
  byte_cached : is_unflushed = true -> is_conc = true \/ k <> None;
  byte_conc : is_conc = true -> forall ρ v, c ρ = Some v -> v = st;
  byte_known : forall e, k = Some e -> byte_expr c e;
  byte_flushed : is_unflushed = false -> forall ρ v, c ρ = Some v -> uv ρ = Some v;
}.

Definition byte_at (c : contents) (os : ObjectState) (i : Z) : Prop :=
  byte_ok (fun ρ => c ρ i) (conc os i) (known os i) (unflushed os i) (stored os i)
    (fun ρ => updates_value os ρ i).

Definition in_range (os : ObjectState) (i : Z) : Prop := 0 <= i < os_size os.

Record represents (c : contents) (os : ObjectState) : Prop := {
  rep_shape : shape os;
  rep_bytes : forall i, in_range os i -> byte_at c os i;
}.

(** *** The primitives *)
Section primitives.
Context (os : ObjectState) (Hos : shape os) (i : Z) (Hi : in_range os i).

Lemma isByteConcrete_ok : isByteConcrete i os = Ok (conc os i).
Proof.
  unfold isByteConcrete, conc, mask_bit. destruct Hos as [Hs _ _ Hm _ _ _ _].
  destruct (concreteMask os); [|done]. by apply (bit_get_ok (os_size os)).
Qed.

Lemma isByteFlushed_ok : isByteFlushed i os = Ok (negb (unflushed os i)).
Proof.
  unfold isByteFlushed, unflushed, mask_bit. destruct Hos as [Hs _ _ _ Hm _ _ _].
  destruct (flushMask os); [|done]. by rewrite (bit_get_ok (os_size os)).
Qed.

Lemma known_at_ok : known_at i os = Ok (known os i).
Proof.
  unfold known_at, known. destruct Hos as [_ _ _ _ _ Hk _ _]. destruct (knownSymbolics os) as [ks|]; [|done].
  destruct (lookup_lt_is_Some_2 ks (Z.to_nat i)) as [e He]; [unfold in_range in Hi; lia|]. by rewrite He.
Qed.

Lemma concrete_at_ok : concrete_at i os = Ok (stored os i).
Proof.
  unfold concrete_at, stored. destruct Hos as [_ Hl _ _ _ _ _ _].
  destruct (lookup_lt_is_Some_2 (concreteStore os) (Z.to_nat i)) as [e He]; [unfold in_range in Hi; lia|]. by rewrite He.
Qed.

Lemma stored_range : 0 <= stored os i < 256.
Proof.
  unfold stored. destruct Hos as [_ _ Hb _ _ _ _ _]. destruct (concreteStore os !! Z.to_nat i) as [b|] eqn:E; cbn; [|lia].
  by apply (Forall_lookup_1 _ _ _ _ Hb E).
Qed.

(** A mask changes in one bit. *)
Definition mask_change (n : Z) (m m' : option BitArray) (v : bool) : Prop :=
  mask_ok n m' /\ forall j, 0 <= j < n -> mask_bit m' j = if j =? i then v else mask_bit m j.

Lemma shape_set_cmask m : mask_ok (os_size os) m -> shape (set_concreteMask m os).
Proof. destruct Hos. by split. Qed.

Lemma shape_set_fmask m : mask_ok (os_size os) m -> shape (set_flushMask m os).
Proof. destruct Hos. by split. Qed.

Lemma mask_unset_ok (m : BitArray) :
  bits_ok (os_size os) m ->
  exists m', bit_unset m i = Ok m' /\ mask_change (os_size os) (Some m) (Some m') false.
Proof.
  intros Hm. destruct Hos as [Hs _ _ _ _ _ _ _]. destruct (bit_unset_ok (os_size os) Hs m i Hm Hi) as (m' & E & Hm' & Hb).
  exists m'. split; [done|]. split; [done|]. intros j Hj. cbn. apply Hb. lia.
Qed.

Lemma mask_set_ok (m : BitArray) :
  bits_ok (os_size os) m ->
  exists m', bit_set m i = Ok m' /\ mask_change (os_size os) (Some m) (Some m') true.
Proof.
  intros Hm. destruct Hos as [Hs _ _ _ _ _ _ _]. destruct (bit_set_ok (os_size os) Hs m i Hm Hi) as (m' & E & Hm' & Hb).
  exists m'. split; [done|]. split; [done|]. intros j Hj. cbn. apply Hb. lia.
Qed.

Lemma full_mask_ok : bits_ok (os_size os) (BitArray_new (os_size os) true) /\
  forall j, 0 <= j < os_size os -> bit (BitArray_new (os_size os) true) j = true.
Proof. destruct Hos as [Hs _ _ _ _ _ _ _]. by apply BitArray_new_ok. Qed.

Lemma markByteConcrete_ok :
  exists m, markByteConcrete i os = Ok (set_concreteMask m os) /\ mask_change (os_size os) (concreteMask os) m true.
Proof.
  unfold markByteConcrete. pose proof (shape_cmask _ Hos) as Hm. destruct (concreteMask os) as [m|] eqn:E.
  - destruct (mask_set_ok m Hm) as (m' & -> & Hc). by exists (Some m').
  - exists None. split; [by destruct os; cbn in *; subst|]. split; [done|]. intros j Hj. cbn. by destruct (j =? i).
Qed.

Lemma markByteUnflushed_ok :
  exists m, markByteUnflushed i os = Ok (set_flushMask m os) /\ mask_change (os_size os) (flushMask os) m true.
Proof.
  unfold markByteUnflushed. pose proof (shape_fmask _ Hos) as Hm. destruct (flushMask os) as [m|] eqn:E.
  - destruct (mask_set_ok m Hm) as (m' & -> & Hc). by exists (Some m').
  - exists None. split; [by destruct os; cbn in *; subst|]. split; [done|]. intros j Hj. cbn. by destruct (j =? i).
Qed.

Lemma markByteSymbolic_ok :
  exists m, markByteSymbolic i os = Ok (set_concreteMask m os) /\ mask_change (os_size os) (concreteMask os) m false.
Proof.
  unfold markByteSymbolic. pose proof (shape_cmask _ Hos) as Hm. destruct (concreteMask os) as [m|] eqn:E; cbn zeta.
  - destruct (mask_unset_ok m Hm) as (m' & -> & Hc). by exists (Some m').
  - destruct full_mask_ok as [Hf Hb]. destruct (mask_unset_ok _ Hf) as (m' & -> & Hc & Hd). exists (Some m').
    split; [done|]. split; [done|]. intros j Hj. rewrite (Hd j Hj). cbn. by rewrite (Hb j Hj).
Qed.

Lemma flush_unset_ok :
  flushMask os <> None ->
  exists m, flush_unset i os = Ok (set_flushMask (Some m) os) /\ mask_change (os_size os) (flushMask os) (Some m) false.
Proof.
  intros Hne. unfold flush_unset. pose proof (shape_fmask _ Hos) as Hm. destruct (flushMask os) as [m|]; [|done].
  destruct (mask_unset_ok m Hm) as (m' & -> & Hc). by exists m'.
Qed.

(** The cached expression of one byte changes. *)
Definition known_change (ks : option (list (option expr))) (v : option expr) : Prop :=
  shape (set_known ks os) /\
  forall j, in_range os j -> known (set_known ks os) j = if j =? i then v else known os j.

Lemma known_insert_ok ks v :
  Z.of_nat (length ks) = os_size os -> (forall j, in_range os j -> default None (ks !! Z.to_nat j) = known os j) ->
  known_change (Some (<[Z.to_nat i := v]> ks)) v.
Proof.
  intros Hl Hk. unfold in_range in *. split.
  - destruct Hos. split; try done. cbn. by rewrite length_insert.
  - intros j Hj. unfold in_range in *. unfold known. cbn [knownSymbolics set_known]. destruct (Z.eqb_spec j i) as [->|Hne].
    + by rewrite list_lookup_insert_eq by lia.
    + rewrite list_lookup_insert_ne by lia. by apply Hk.
Qed.

Lemma setKnownSymbolic_ok v :
  exists ks, setKnownSymbolic i v os = Ok (set_known ks os) /\ known_change ks v.
Proof.
  unfold setKnownSymbolic. pose proof (shape_known _ Hos) as Hk. pose proof Hi as Hi'. unfold in_range in Hi'.
  assert (Hsz := shape_size _ Hos). unfold size_ok in Hsz.
  destruct (knownSymbolics os) as [ks|] eqn:E.
  - assert (Z.to_nat i <? length ks = true)%nat as -> by (apply Nat.ltb_lt; lia). cbn [res_assert]. eexists. split; [done|].
    apply known_insert_ok; [done|]. intros j Hj. unfold known. by rewrite E.
  - destruct v as [v|].
    + assert (Z.to_nat i <? length (replicate (Z.to_nat (os_size os)) (@None expr)) = true)%nat as ->
        by (apply Nat.ltb_lt; rewrite length_replicate; lia).
      cbn [res_assert]. eexists. split; [done|]. apply known_insert_ok.
      * rewrite length_replicate. lia.
      * intros j Hj. unfold in_range in Hj. unfold known. rewrite E. by rewrite lookup_replicate_2 by lia.
    + exists None. split; [by destruct os; cbn in *; subst|]. split.
      * destruct Hos. by split.
      * intros j Hj. unfold known. cbn [knownSymbolics set_known]. rewrite E. by destruct (j =? i).
Qed.

Lemma store_byte_ok v :
  0 <= v < 256 ->
  exists st, store_byte i v os = Ok (set_store st os) /\ shape (set_store st os) /\
    forall j, in_range os j -> stored (set_store st os) j = if j =? i then v else stored os j.
Proof.
  intros Hv. unfold store_byte. pose proof (shape_store _ Hos) as Hl. unfold in_range in *.
  assert (Z.to_nat i <? length (concreteStore os) = true)%nat as -> by (apply Nat.ltb_lt; lia). cbn [res_assert].
  eexists. split; [done|]. split.
  - destruct Hos. split; try done; cbn; [by rewrite length_insert|by apply Forall_insert].
  - intros j Hj. unfold stored. cbn [concreteStore set_store]. destruct (Z.eqb_spec j i) as [->|Hne].
    + by rewrite list_lookup_insert_eq by lia.
    + by rewrite list_lookup_insert_ne by lia.
Qed.
End primitives.

(** *** Changing one byte *)

Definition same_byte (os os' : ObjectState) (j : Z) : Prop :=
  conc os' j = conc os j /\ known os' j = known os j /\ unflushed os' j = unflushed os j /\
  stored os' j = stored os j /\ forall ρ, updates_value os' ρ j = updates_value os ρ j.

(** What no operation on the bytes changes. *)
Definition frame (os : ObjectState) : Z * Z * bool := (copyOnWriteOwner os, os_size os, readOnly os).

Lemma byte_at_same (c c' : contents) os os' j :
  (forall ρ v, c' ρ j = Some v -> c ρ j = Some v) -> same_byte os os' j -> byte_at c os j -> byte_at c' os' j.
Proof.
  intros Hc (E1 & E2 & E3 & E4 & E5) [H1 H2 H3 H4 H5]. unfold byte_at. rewrite E1, E2, E3, E4. split; try done.
  - intros Hb ρ v Hv. exact (H3 Hb ρ v (Hc ρ v Hv)).
  - intros e He. destruct (H4 e He) as (Hw & Hwd & Hd). split_and!; try done. intros ρ v Hv. by apply Hd, Hc.
  - intros Hb ρ v Hv. rewrite E5. by apply H5, Hc.
Qed.

Lemma represents_change (c c' : contents) os os' i :
  represents c os -> shape os' -> frame os' = frame os ->
  (forall j, in_range os j -> j <> i -> same_byte os os' j /\ forall ρ v, c' ρ j = Some v -> c ρ j = Some v) ->
  byte_at c' os' i -> represents c' os'.
Proof.
  intros [_ Hb] Hs Hf Hj Hi. split; [done|]. intros j Hr. assert (in_range os j) as Hr'.
  { unfold in_range in *. unfold frame in Hf. congruence. }
  destruct (Z.eq_dec j i) as [->|Hne]; [done|]. destruct (Hj j Hr' Hne) as [Hsame Hc].
  by apply (byte_at_same c c' os os'); auto.
Qed.

(** *** Extending the update list *)

Lemma updates_extend_ok os index value :
  shape os -> wt index -> getWidth index = 32 -> wt value -> getWidth value = 8 ->
  match index with Constant c => uval c < os_size os | _ => True end ->
  updates_extend index value os = Ok (set_updates (updates_root os) (UNode index value (updates_head os)) os) /\
  shape (set_updates (updates_root os) (UNode index value (updates_head os)) os).
Proof.
  intros Hs Hi Hiw Hv Hvw Hc. assert (shape (set_updates (updates_root os) (UNode index value (updates_head os)) os)) as Hs'.
  { destruct Hs. by split. }
  split; [|done]. unfold updates_extend. destruct (updates_root os) as [r|] eqn:Er; [|done].
  pose proof (shape_root _ Hs) as Hr. rewrite Er in Hr. destruct Hr as (_ & Hd & Hrg & _).
  unfold extend. by rewrite Hd, Hrg, Hiw, Hvw.
Qed.

Lemma index_ok os i :
  shape os -> in_range os i ->
  const_create i Int32 = Ok (const_alloc i Int32) /\ wt (const_alloc i Int32) /\ getWidth (const_alloc i Int32) = 32 /\
  uval (ap_make Int32 i) = i.
Proof.
  intros Hs Hi. pose proof (shape_size _ Hs) as Hn. unfold size_ok, in_range, Int32 in *.
  split_and!; [by apply const_create_ok; lia|by apply wt_const_alloc|by apply width_const_alloc|].
  rewrite make_val by lia. by apply wrap_small; lia.
Qed.

(** A write of [e] at the constant index [i]. *)
Definition extended (os : ObjectState) (i : Z) (v : env -> option Z) (h : updates) : Prop :=
  shape (set_updates (updates_root os) h os) /\
  forall ρ j, updates_value (set_updates (updates_root os) h os) ρ j = if j =? i then v ρ else updates_value os ρ j.

Lemma extend_byte_ok os i e :
  shape os -> in_range os i -> wt e -> getWidth e = 8 ->
  exists h, updates_extend (const_alloc i Int32) e os = Ok (set_updates (updates_root os) h os) /\
    extended os i (fun ρ => denote checked ρ e) h.
Proof.
  intros Hs Hi He Hw. destruct (index_ok os i Hs Hi) as (_ & Hwi & Hww & Hv).
  destruct (updates_extend_ok os (const_alloc i Int32) e) as [-> Hs']; try done.
  { unfold const_alloc. rewrite Hv. apply Hi. }
  eexists. split; [done|]. split; [done|]. intros ρ j. unfold updates_value. cbn [updates_head set_updates writes_value updates_root].
  unfold const_alloc. cbn [denote mbind option_bind]. rewrite Hv, Z.eqb_sym. done.
Qed.

Lemma extend_concrete_ok os i :
  shape os -> in_range os i ->
  exists h, extend_concrete i os = Ok (set_updates (updates_root os) h os) /\
    extended os i (fun _ => Some (stored os i)) h.
Proof.
  intros Hs Hi. unfold extend_concrete. destruct (index_ok os i Hs Hi) as (-> & _ & _ & _). cbn [res_bind].
  rewrite concrete_at_ok by done. cbn [res_bind]. pose proof (stored_range os Hs i) as Hr.
  unfold Int8. rewrite const_create_ok by done. cbn [res_bind].
  destruct (extend_byte_ok os i (const_alloc (stored os i) 8)) as (h & E & Hs' & Hv);
    [done|done|by apply wt_const_alloc|by apply width_const_alloc|].
  exists h. split; [exact E|]. split; [done|]. intros ρ j. rewrite Hv.
  rewrite denote_const_alloc, wrap_small by (change (2 ^ 64) with 18446744073709551616; change (2 ^ 8) with 256; lia). done.
Qed.

Lemma extend_known_ok os i e :
  shape os -> in_range os i -> known os i = Some e -> wt e -> getWidth e = 8 ->
  exists h, extend_known i os = Ok (set_updates (updates_root os) h os) /\ extended os i (fun ρ => denote checked ρ e) h.
Proof.
  intros Hs Hi Hk He Hw. unfold extend_known. rewrite known_at_ok by done. cbn [res_bind]. rewrite Hk.
  destruct (index_ok os i Hs Hi) as (-> & _ & _ & _). cbn [res_bind]. by apply extend_byte_ok.
Qed.

(** *** Flushing *)

(** The update list has the byte. *)
Definition flushed_to (os os' : ObjectState) (i : Z) : Prop :=
  frame os' = frame os /\ flushMask os' <> None /\ unflushed os' i = false /\
  forall j, in_range os j -> j <> i -> unflushed os' j = unflushed os j.

(** Only the update list has the byte. *)
Definition evicted (os : ObjectState) (i : Z) : Prop := conc os i = false /\ known os i = None.

Definition evicted_to (os os' : ObjectState) (i : Z) : Prop :=
  flushed_to os os' i /\ evicted os' i /\ forall j, in_range os j -> j <> i -> evicted os j -> evicted os' j.

Lemma flush_extended_ok (c : contents) os i v h :
  represents c os -> in_range os i -> flushMask os <> None -> extended os i v h ->
  (forall ρ x, c ρ i = Some x -> v ρ = Some x) ->
  exists os', flush_unset i (set_updates (updates_root os) h os) = Ok os' /\ represents c os' /\ flushed_to os os' i.
Proof.
  intros Hr Hi Hm [Hs Hv] Hc. destruct (flush_unset_ok _ Hs i Hi Hm) as (m & -> & Hmo & Hmb). eexists. split; [done|].
  assert (forall j, in_range os j -> unflushed (set_flushMask (Some m) (set_updates (updates_root os) h os)) j =
    if j =? i then false else unflushed os j) as Hu by exact Hmb.
  split; [|split_and!; try done].
  - apply (represents_change c c os _ i); [done|by apply shape_set_fmask|done| |].
    + intros j Hj Hne. split; [|done]. split_and!; try done.
      * rewrite Hu by done. by rewrite (proj2 (Z.eqb_neq _ _) Hne).
      * intros ρ. etrans; [apply Hv|]. by rewrite (proj2 (Z.eqb_neq _ _) Hne).
    + destruct (rep_bytes _ _ Hr i Hi) as [H1 H2 H3 H4 H5]. unfold byte_at. rewrite Hu, Z.eqb_refl by done.
      split; try done. intros _ ρ x Hx. etrans; [apply Hv|]. rewrite Z.eqb_refl. by apply Hc.
  - rewrite Hu by done. by rewrite Z.eqb_refl.
  - intros j Hj Hne. rewrite Hu by done. by rewrite (proj2 (Z.eqb_neq _ _) Hne).
Qed.

Lemma flush_for_read_ok (c : contents) os i :
  represents c os -> in_range os i -> flushMask os <> None ->
  exists os', flush_for_read i os = Ok os' /\ represents c os' /\ flushed_to os os' i.
Proof.
  intros Hr Hi Hm. pose proof (rep_shape _ _ Hr) as Hs. unfold flush_for_read.
  rewrite isByteFlushed_ok by done. cbn [res_bind]. destruct (unflushed os i) eqn:Eu; cbn [negb].
  - rewrite isByteConcrete_ok by done. cbn [res_bind]. destruct (rep_bytes _ _ Hr i Hi) as [H1 H2 H3 H4 H5].
    destruct (conc os i) eqn:Ec.
    + destruct (extend_concrete_ok os i Hs Hi) as (h & -> & He). cbn [res_bind].
      apply (flush_extended_ok c os i (fun _ => Some (stored os i))); try done.
      intros ρ x Hx. f_equal. symmetry. exact (H3 eq_refl ρ x Hx).
    + destruct (known os i) as [e|] eqn:Ek; [|by destruct (H2 Eu)]. destruct (H4 e eq_refl) as (Hw & Hwd & Hd).
      destruct (extend_known_ok os i e) as (h & -> & He); try done. cbn [res_bind].
      by apply (flush_extended_ok c os i (fun ρ => denote checked ρ e)).
  - exists os. by split_and!.
Qed.

(** A byte that is flushed may be dropped from the caches. *)
Lemma drop_concrete_ok (c : contents) os i :
  represents c os -> in_range os i -> unflushed os i = false -> conc os i = true ->
  exists os', markByteSymbolic i os = Ok os' /\ represents c os' /\ evicted os' i /\
    frame os' = frame os /\ flushMask os' = flushMask os /\
    forall j, in_range os j -> j <> i -> same_byte os os' j.
Proof.
  intros Hr Hi Hu Hcc. pose proof (rep_shape _ _ Hr) as Hs. destruct (rep_bytes _ _ Hr i Hi) as [H1 H2 H3 H4 H5].
  destruct (markByteSymbolic_ok os Hs i Hi) as (m & -> & Hmo & Hmb).
  assert (forall j, in_range os j -> conc (set_concreteMask m os) j = if j =? i then false else conc os j) as Hc by exact Hmb.
  assert (conc (set_concreteMask m os) i = false) as Hci by (rewrite Hc, Z.eqb_refl; done).
  assert (forall j, in_range os j -> j <> i -> same_byte os (set_concreteMask m os) j) as Hsame.
  { intros j Hj Hne. split_and!; try done. rewrite Hc by done. by rewrite (proj2 (Z.eqb_neq _ _) Hne). }
  eexists. split; [done|]. split; [|split_and!; try done; [split; [done|exact (H1 Hcc)]]].
  apply (represents_change c c os _ i); [done|by apply shape_set_cmask|done|by intros j Hj Hne; split; [apply Hsame|]|].
  unfold byte_at. rewrite Hci. split; try done. intros Hu'. exfalso. change (unflushed os i = true) in Hu'. congruence.
Qed.

Lemma drop_known_ok (c : contents) os i :
  represents c os -> in_range os i -> unflushed os i = false -> conc os i = false ->
  exists os', setKnownSymbolic i None os = Ok os' /\ represents c os' /\ evicted os' i /\
    frame os' = frame os /\ flushMask os' = flushMask os /\
    forall j, in_range os j -> j <> i -> same_byte os os' j.
Proof.
  intros Hr Hi Hu Hcc. pose proof (rep_shape _ _ Hr) as Hs. destruct (rep_bytes _ _ Hr i Hi) as [H1 H2 H3 H4 H5].
  destruct (setKnownSymbolic_ok os Hs i Hi None) as (ks & -> & Hks & Hk).
  assert (known (set_known ks os) i = None) as Hki by (rewrite Hk, Z.eqb_refl; done).
  assert (forall j, in_range os j -> j <> i -> same_byte os (set_known ks os) j) as Hsame.
  { intros j Hj Hne. split_and!; try done. rewrite Hk by done. by rewrite (proj2 (Z.eqb_neq _ _) Hne). }
  eexists. split; [done|]. split; [|split_and!; try done; by split].
  apply (represents_change c c os _ i); [done|done|done|by intros j Hj Hne; split; [apply Hsame|]|].
  unfold byte_at. rewrite Hki. split; try done. intros Hu'. exfalso. change (unflushed os i = true) in Hu'. congruence.
Qed.

(** The source clears the two masks in the other order. *)
Lemma mark_flush_commute i os os2 os3 :
  flush_unset i os = Ok os2 -> markByteSymbolic i os2 = Ok os3 ->
  exists os1, markByteSymbolic i os = Ok os1 /\ flush_unset i os1 = Ok os3.
Proof.
  unfold flush_unset, markByteSymbolic. destruct (flushMask os) as [fm|] eqn:Ef; [|done]. intros H1 H2.
  apply res_bind_inv in H1 as (fm' & Ef' & [= <-]). cbn [concreteMask set_flushMask os_size] in H2.
  apply res_bind_inv in H2 as (cm' & Ec' & [= <-]). rewrite Ec'. cbn [res_bind]. eexists. split; [done|].
  cbn [flushMask set_concreteMask]. rewrite Ef, Ef'. done.
Qed.

Lemma known_flush_commute i v os os2 os3 :
  flush_unset i os = Ok os2 -> setKnownSymbolic i v os2 = Ok os3 ->
  exists os1, setKnownSymbolic i v os = Ok os1 /\ flush_unset i os1 = Ok os3.
Proof.
  unfold flush_unset, setKnownSymbolic. destruct (flushMask os) as [fm|] eqn:Ef; [|done]. intros H1 H2.
  apply res_bind_inv in H1 as (fm' & Ef' & [= <-]). cbn [knownSymbolics set_flushMask os_size] in H2.
  destruct (knownSymbolics os) as [ks|].
  - apply res_assert_inv in H2 as [Hb [= <-]]. rewrite Hb. cbn [res_assert]. eexists. split; [done|].
    cbn [flushMask set_known]. by rewrite Ef, Ef'.
  - destruct v as [v|].
    + apply res_assert_inv in H2 as [Hb [= <-]]. rewrite Hb. cbn [res_assert]. eexists. split; [done|].
      cbn [flushMask set_known]. by rewrite Ef, Ef'.
    + injection H2 as <-. eexists. split; [done|]. by rewrite Ef, Ef'.
Qed.

Lemma evicted_after os os1 os2 i :
  in_range os i -> flushed_to os os1 i -> (forall j, in_range os j -> j <> i -> evicted os j -> evicted os1 j) ->
  evicted os2 i -> frame os2 = frame os1 -> flushMask os2 = flushMask os1 ->
  (forall j, in_range os1 j -> j <> i -> same_byte os1 os2 j) -> evicted_to os os2 i.
Proof.
  intros Hi (Hf & Hm & Hu & Huj) Hev1 Hev Hf2 Hm2 Hsame. assert (forall j, in_range os1 j <-> in_range os j) as Hrange.
  { unfold in_range. unfold frame in Hf. by assert (os_size os1 = os_size os) as -> by congruence. }
  split; [|split; [done|]].
  - split_and!; [congruence|congruence| |].
    + unfold unflushed in *. by rewrite Hm2.
    + intros j Hj Hne. unfold unflushed in *. rewrite Hm2. by apply Huj.
  - intros j Hj Hne He. destruct (Hev1 j Hj Hne He) as [Hc Hk]. destruct (Hsame j (proj2 (Hrange j) Hj) Hne) as (E1 & E2 & _).
    split; congruence.
Qed.

Lemma flush_unset_inv i os os' : flush_unset i os = Ok os' -> exists m, os' = set_flushMask (Some m) os.
Proof.
  unfold flush_unset. destruct (flushMask os); [|done]. intros H. apply res_bind_inv in H as (m & _ & [= <-]). by exists m.
Qed.

(** A byte is written to the update list and dropped from the cache. *)
Lemma flush_drop_ok (c : contents) os i v h drop :
  represents c os -> in_range os i -> flushMask os <> None -> extended os i v h ->
  (forall ρ x, c ρ i = Some x -> v ρ = Some x) ->
  (forall os2, represents c os2 -> in_range os2 i -> unflushed os2 i = false -> conc os2 i = conc os i ->
     exists os3, drop os2 = Ok os3 /\ represents c os3 /\ evicted os3 i /\ frame os3 = frame os2 /\
       flushMask os3 = flushMask os2 /\ forall j, in_range os2 j -> j <> i -> same_byte os2 os3 j) ->
  (forall os1 os2 os3, flush_unset i os1 = Ok os2 -> drop os2 = Ok os3 ->
     exists os1', drop os1 = Ok os1' /\ flush_unset i os1' = Ok os3) ->
  exists os', (let* os1 := drop (set_updates (updates_root os) h os) in flush_unset i os1) = Ok os' /\
    represents c os' /\ evicted_to os os' i.
Proof.
  intros Hr Hi Hm He Hc Hdrop Hcomm.
  destruct (flush_extended_ok c os i v h) as (os2 & E2 & Hr2 & Hf2); try done.
  pose proof Hf2 as (Hfr & Hm2 & Hu2 & _). assert (in_range os2 i) as Hi2 by (unfold in_range, frame in *; congruence).
  destruct (flush_unset_inv _ _ _ E2) as [m Em]. assert (conc os2 i = conc os i) as Hc2 by (by rewrite Em).
  destruct (Hdrop os2 Hr2 Hi2 Hu2 Hc2) as (os3 & E3 & Hr3 & Hev & Hf3 & Hm3 & Hsame).
  destruct (Hcomm _ os2 os3 E2 E3) as (os1 & -> & E1). cbn [res_bind]. exists os3. split; [exact E1|].
  split; [done|]. apply (evicted_after os os2 os3); try done. intros j Hj Hne Hevj. by rewrite Em.
Qed.

Lemma flush_for_write_ok (c : contents) os i :
  represents c os -> in_range os i -> flushMask os <> None ->
  exists os', flush_for_write i os = Ok os' /\ represents c os' /\ evicted_to os os' i.
Proof.
  intros Hr Hi Hm. pose proof (rep_shape _ _ Hr) as Hs. unfold flush_for_write.
  rewrite isByteFlushed_ok by done. cbn [res_bind]. rewrite isByteConcrete_ok by done. cbn [res_bind].
  destruct (rep_bytes _ _ Hr i Hi) as [H1 H2 H3 H4 H5].
  destruct (unflushed os i) eqn:Eu; cbn [negb]; destruct (conc os i) eqn:Ec.
  - destruct (extend_concrete_ok os i Hs Hi) as (h & -> & He). cbn [res_bind].
    apply (flush_drop_ok c os i (fun _ => Some (stored os i))); try done.
    + intros ρ x Hx. f_equal. symmetry. exact (H3 eq_refl ρ x Hx).
    + intros os2 Hr2 Hi2 Hu2 Hc2. apply drop_concrete_ok; congruence.
    + intros os1 os2 os3. apply mark_flush_commute.
  - destruct (known os i) as [e|] eqn:Ek; [|by destruct (H2 eq_refl)]. destruct (H4 e eq_refl) as (Hw & Hwd & Hd).
    destruct (extend_known_ok os i e) as (h & -> & He); try done. cbn [res_bind].
    apply (flush_drop_ok c os i (fun ρ => denote checked ρ e)); try done.
    + intros os2 Hr2 Hi2 Hu2 Hc2. apply drop_known_ok; congruence.
    + intros os1 os2 os3. apply known_flush_commute.
  - destruct (drop_concrete_ok c os i Hr Hi Eu Ec) as (os3 & -> & Hr3 & Hev & Hf3 & Hm3 & Hsame). exists os3.
    split; [done|]. split; [done|]. apply (evicted_after os os os3); try done; by split_and!.
  - unfold isByteKnownSymbolic. rewrite known_at_ok by done. cbn [res_bind]. destruct (known os i) as [e|] eqn:Ek.
    + destruct (drop_known_ok c os i Hr Hi Eu Ec) as (os3 & -> & Hr3 & Hev & Hf3 & Hm3 & Hsame). exists os3.
      split; [done|]. split; [done|]. apply (evicted_after os os os3); try done; by split_and!.
    + exists os. split; [done|]. split; [done|]. split; [by split_and!|]. split; [by split|]. done.
Qed.

(** *** Flushing all bytes *)

Lemma for_range_ok (P : Z -> ObjectState -> Prop) body n : forall base os,
  P base os ->
  (forall i os, base <= i < base + Z.of_nat n -> P i os -> exists os', body i os = Ok os' /\ P (i + 1) os') ->
  exists os', for_range n base body os = Ok os' /\ P (base + Z.of_nat n) os'.
Proof.
  induction n as [|n IH]; intros base os HP Hb; cbn [for_range].
  - exists os. by rewrite Z.add_0_r.
  - destruct (Hb base os) as (os1 & -> & H1); [lia|done|]. cbn [res_bind].
    destruct (IH (base + 1) os1 H1) as (os' & E & H2); [intros i os2 Hi; apply Hb; lia|].
    exists os'. split; [done|]. by replace (base + Z.of_nat (S n)) with (base + 1 + Z.of_nat n) by lia.
Qed.

Lemma create_flushMask_ok (c : contents) os :
  represents c os ->
  represents c (create_flushMask os) /\ flushMask (create_flushMask os) <> None /\
  frame (create_flushMask os) = frame os.
Proof.
  intros Hr. unfold create_flushMask. destruct (flushMask os) as [m|] eqn:Em; [split; [done|]; split; [by rewrite Em|done]|].
  split; [|by split]. pose proof (rep_shape _ _ Hr) as Hs. destruct (full_mask_ok os Hs) as [Hf Hb].
  split; [by apply shape_set_fmask|]. intros j Hj. apply (byte_at_same c c os); [done| |by apply (rep_bytes _ _ Hr)].
  split_and!; try done. unfold unflushed. rewrite Em. cbn. by apply Hb.
Qed.

(** Every byte is in the update list. *)
Definition all_flushed (os : ObjectState) : Prop := forall j, in_range os j -> unflushed os j = false.
Definition all_evicted (os : ObjectState) : Prop := forall j, in_range os j -> evicted os j.

Lemma frame_in_range os os' j : frame os' = frame os -> in_range os' j <-> in_range os j.
Proof. unfold frame, in_range. intros H. by assert (os_size os' = os_size os) as -> by congruence. Qed.

Lemma flushRangeForRead_ok (c : contents) os :
  represents c os ->
  exists os', flushRangeForRead 0 (os_size os) os = Ok os' /\ represents c os' /\ frame os' = frame os /\ all_flushed os'.
Proof.
  intros Hr. destruct (create_flushMask_ok c os Hr) as (Hr0 & Hm0 & Hf0). unfold flushRangeForRead.
  pose proof (shape_size _ (rep_shape _ _ Hr)) as Hn. unfold size_ok in Hn.
  destruct (for_range_ok (fun i os' => represents c os' /\ flushMask os' <> None /\ frame os' = frame os /\
    forall j, 0 <= j < i -> unflushed os' j = false) flush_for_read (Z.to_nat (os_size os)) 0 (create_flushMask os))
    as (os' & E & Hr' & Hm' & Hf' & Hu').
  - split_and!; try done. lia.
  - intros i os1 Hi (Hr1 & Hm1 & Hf1 & Hu1). assert (in_range os i) as Hio by (unfold in_range; lia).
    apply (frame_in_range os os1) in Hio; [|done].
    destruct (flush_for_read_ok c os1 i Hr1 Hio Hm1) as (os2 & E & Hr2 & Hf2 & Hm2 & Hu2 & Hj2). exists os2.
    split; [done|]. split_and!; [done|done|congruence|]. intros j Hj. destruct (Z.eq_dec j i) as [->|Hne]; [done|].
    rewrite Hj2; [apply Hu1; lia| |done]. unfold in_range in *. lia.
  - exists os'. split_and!; try done. intros j Hj. apply Hu'. apply (frame_in_range os os') in Hj; [|done]. unfold in_range in Hj. lia.
Qed.

Lemma flushRangeForWrite_ok (c : contents) os :
  represents c os ->
  exists os', flushRangeForWrite 0 (os_size os) os = Ok os' /\ represents c os' /\ frame os' = frame os /\
    all_flushed os' /\ all_evicted os'.
Proof.
  intros Hr. destruct (create_flushMask_ok c os Hr) as (Hr0 & Hm0 & Hf0). unfold flushRangeForWrite.
  pose proof (shape_size _ (rep_shape _ _ Hr)) as Hn. unfold size_ok in Hn.
  destruct (for_range_ok (fun i os' => represents c os' /\ flushMask os' <> None /\ frame os' = frame os /\
    forall j, 0 <= j < i -> unflushed os' j = false /\ evicted os' j) flush_for_write (Z.to_nat (os_size os)) 0 (create_flushMask os))
    as (os' & E & Hr' & Hm' & Hf' & Hu').
  - split_and!; try done. lia.
  - intros i os1 Hi (Hr1 & Hm1 & Hf1 & Hu1). assert (in_range os i) as Hio by (unfold in_range; lia).
    apply (frame_in_range os os1) in Hio; [|done].
    destruct (flush_for_write_ok c os1 i Hr1 Hio Hm1) as (os2 & E & Hr2 & (Hf2 & Hm2 & Hu2 & Hj2) & Hev & Hevj). exists os2.
    split; [done|]. split_and!; [done|done|congruence|]. intros j Hj. destruct (Z.eq_dec j i) as [->|Hne]; [done|].
    assert (in_range os1 j) as Hj1 by (unfold in_range in *; lia). destruct (Hu1 j) as [? ?]; [lia|].
    split; [by rewrite Hj2|by apply Hevj].
  - assert (forall j, in_range os' j -> unflushed os' j = false /\ evicted os' j) as H.
    { intros j Hj. apply Hu'. apply (frame_in_range os os') in Hj; [|done]. unfold in_range in Hj. lia. }
    exists os'. split_and!; try done; intros j Hj; by apply H.
Qed.

(** *** Creating the constant array *)

(* the writes of a list, the oldest first *)
Definition to_updates (Writes : list (expr * expr)) (u : updates) : updates :=
  fold_left (fun u w => UNode (fst w) (snd w) u) Writes u.

Lemma collect_to_updates u : forall Writes, to_updates (collect_writes u Writes) UNil = to_updates Writes u.
Proof. induction u as [|i v next IH]; intros Writes; [done|]. cbn [collect_writes]. by rewrite IH. Qed.

Lemma writes_value_to_updates ρ Writes : forall base u i,
  writes_value ρ base (to_updates Writes u) i = writes_value ρ (writes_value ρ base u) (to_updates Writes UNil) i.
Proof.
  induction Writes as [|[idx v] Writes IH]; intros base u i; [done|]. unfold to_updates. cbn [fold_left fst snd].
  fold (to_updates Writes (UNode idx v u)) (to_updates Writes (UNode idx v UNil)).
  rewrite IH, (IH _ (UNode idx v UNil)). by apply writes_value_ext.
Qed.

Lemma writes_ok_to_updates size null Writes : forall u,
  writes_ok size null (to_updates Writes u) <-> writes_ok size null (to_updates Writes UNil) /\ writes_ok size null u.
Proof.
  induction Writes as [|[idx v] Writes IH]; intros u; [cbn; tauto|]. unfold to_updates. cbn [fold_left fst snd].
  fold (to_updates Writes (UNode idx v u)) (to_updates Writes (UNode idx v UNil)).
  rewrite IH, (IH (UNode idx v UNil)). cbn [writes_ok]. tauto.
Qed.

Definition constants_value (Contents : list ap) (i : Z) : option Z := uval <$> Contents !! Z.to_nat i.

(** Pushing writes into the array keeps the value of each byte. *)
Lemma push_concrete_ok n Writes : forall Contents,
  writes_ok n true (to_updates Writes UNil) -> Z.of_nat (length Contents) = n ->
  Forall (fun v => getBitWidth v = 8) Contents ->
  exists Contents' Writes', push_concrete Contents Writes = Ok (Contents', Writes') /\
    Z.of_nat (length Contents') = n /\ Forall (fun v => getBitWidth v = 8) Contents' /\
    writes_ok n true (to_updates Writes' UNil) /\
    forall ρ i, 0 <= i < n ->
      writes_value ρ (constants_value Contents) (to_updates Writes UNil) i =
      writes_value ρ (constants_value Contents') (to_updates Writes' UNil) i.
Proof.
  induction Writes as [|[idx v] Writes IH]; intros Contents Hw Hl Hc.
  { exists Contents, []. by split_and!. }
  destruct idx as [I| | | | | | | |]; try (by exists Contents; eexists; split_and!).
  destruct v as [V| | | | | | | |]; try (by exists Contents; eexists; split_and!).
  change (to_updates ((Constant I, Constant V) :: Writes) UNil) with (to_updates Writes (UNode (Constant I) (Constant V) UNil)) in *.
  apply writes_ok_to_updates in Hw as [Hw (Hi & Hiw & Hv & Hvw & Hlt & _)]. cbn in Hi, Hiw, Hv, Hvw. specialize (Hlt eq_refl).
  pose proof (uval_range I Hi) as HI. cbn [push_concrete]. unfold getZExtValue. rewrite Hiw. change (32 <=? 64) with true. cbn [res_assert res_bind].
  assert (Z.to_nat (uval I) <? length Contents = true)%nat as -> by (apply Nat.ltb_lt; lia). cbn [res_assert].
  destruct (IH (<[Z.to_nat (uval I) := V]> Contents)) as (C' & W' & -> & Hl' & Hc' & Hw' & Heq);
    [done|by rewrite length_insert|by apply Forall_insert|].
  exists C', W'. split_and!; try done. intros ρ i Hin. rewrite <- Heq by done. rewrite writes_value_to_updates.
  apply writes_value_ext. cbn [writes_value denote mbind option_bind]. unfold constants_value.
  destruct (Z.eqb_spec (uval I) i) as [<-|Hne].
  - by rewrite list_lookup_insert_eq by lia.
  - by rewrite list_lookup_insert_ne by lia.
Qed.

Lemma extend_all_ok n r Writes : forall os,
  domain (arrayAt r) = 32 -> range (arrayAt r) = 8 -> updates_root os = Some r ->
  writes_ok n true (to_updates Writes UNil) ->
  extend_all Writes os = Ok (set_updates (Some r) (to_updates Writes (updates_head os)) os).
Proof.
  induction Writes as [|[idx v] Writes IH]; intros os Hd Hr Hroot Hw; cbn [extend_all].
  { unfold to_updates. cbn. destruct os; cbn in *. by subst. }
  change (to_updates ((idx, v) :: Writes) UNil) with (to_updates Writes (UNode idx v UNil)) in Hw.
  apply writes_ok_to_updates in Hw as [Hw (Hi & Hiw & Hv & Hvw & _ & _)].
  unfold updates_extend. rewrite Hroot. unfold extend. rewrite Hd, Hr, Hiw, Hvw, !Z.eqb_refl. cbn [res_assert res_bind].
  rewrite IH by done. by destruct os.
Qed.

Lemma writes_ok_weaken n u : writes_ok n true u -> writes_ok n false u.
Proof. induction u as [|i v next IH]; [done|]. cbn. intros (? & ? & ? & ? & ? & ?). split_and!; auto. done. Qed.

End inv.
