(* ===== verification/ObjectStateCorrect.v ===== *)
(** Reads and writes of an object state refine those of an array of bytes.

    [at_index] and [set_byte] are the byte array's read and write at an offset
    that may differ between environments; [word_at] and [set_word] those of a
    word of several bytes.  A read returns an expression with the value of the
    word ([word_expr]), and a write changes the contents ([Inv]). *)
From Stdlib Require Import ZArith Lia Bool String.
From stdpp Require Import base list numbers option.
From S2P Require Import Prelude Bits APInt Expr ExprCreate ExprSem ExprCreateCorrect ExprFactory BitArray ArrayCache ObjectState ObjectStateInv.
Open Scope Z_scope.

Section correct.
Context {A : APInt} {L : APIntLaws A} {AR : Arrays}.
Context (opt checked : bool).
Context (Hopt : opt = true -> checked = true).
Context (UseConstantArrays isLittleEndian : bool).
Context (new_array : nat -> array -> positive) (utostr : Z -> string).
Context (new_array_ok : forall n a, arrayAt (new_array n a) = a).

Notation represents := (represents checked).
Notation contents := (@contents).

Definition world_ok (w : World) : Prop := cache_ok 32 8 (arrayCache w).

(** The object represents [c], and the rest of its record is [fr]. *)
Definition Inv (c : contents) (fr : Z * Z * bool) (s : ObjectState * World) : Prop :=
  represents c (fst s) /\ frame (fst s) = fr /\ world_ok (snd s).

Definition caches (os : ObjectState) :=
  (concreteStore os, concreteMask os, flushMask os, knownSymbolics os).

(** ** The update list *)

Lemma create_array_ok nm size values w :
  world_ok w -> 0 <= size < 2 ^ 32 -> (values <> [] -> Z.of_nat (length values) = size) ->
  Forall (fun v => getBitWidth v = 8) values ->
  exists p w', create_array new_array nm size values w = Ok (p, w') /\ world_ok w' /\
    arrayAt p = Array nm size 32 8 values.
Proof.
  intros Hw Hs Hl Hv. destruct (CreateArray_ok new_array new_array_ok (arrayCache w) nm size values 32 8)
    as (p & c' & E & Hc & Hp & _); [done..|].
  unfold create_array. change Int32 with 32. change Int8 with 8. rewrite E. cbn [res_bind fst snd]. by eexists _, _.
Qed.

Lemma fresh_array_ok nm size values :
  0 <= size < 2 ^ 32 -> (values <> [] -> Z.of_nat (length values) = size) ->
  Forall (fun v => getBitWidth v = 8) values -> wt_array (Array nm size 32 8 values).
Proof.
  intros Hs Hl Hv. unfold wt_array. cbn. split_and!; try done; lia.
Qed.

(** The initial values of the constant array. *)
Lemma constants_init r nm n Contents ρ i :
  arrayAt r = Array nm n 32 8 Contents -> Z.of_nat (length Contents) = n -> 0 <= i < n ->
  array_init checked ρ r i = constants_value Contents i.
Proof.
  intros Hr Hl Hi. unfold array_init. rewrite Hr. cbn [constantValues]. assert (0 <=? i = true) as -> by lia.
  unfold constants_value. destruct (lookup_lt_is_Some_2 Contents (Z.to_nat i)) as [x Hx]; [lia|]. by rewrite Hx.
Qed.

Lemma make_root_ok c fr os w :
  Inv c fr (os, w) -> updates_root os = None ->
  exists r h w', make_root new_array utostr (os, w) = Ok (tt, (set_updates (Some r) h os, w')) /\
    Inv c fr (set_updates (Some r) h os, w').
Proof.
  intros (Hr & Hf & Hw) Hroot. cbn [fst snd] in *. pose proof (rep_shape _ _ _ Hr) as Hs.
  pose proof (shape_size _ Hs) as Hn. unfold size_ok in Hn. pose proof (shape_writes _ Hs) as Hwr. rewrite Hroot in Hwr.
  change (negb (bool_decide (is_Some None))) with true in Hwr. unfold make_root.
  assert (getBitWidth (ap_make Int8 0) = 8) as H8 by (unfold Int8; by rewrite make_width).
  destruct (push_concrete_ok checked (os_size os) (collect_writes (updates_head os) [])
    (replicate (Z.to_nat (os_size os)) (ap_make Int8 0))) as (C & W & -> & Hl & Hc & Hw' & Heq).
  { by rewrite collect_to_updates. }
  { rewrite length_replicate. lia. }
  { by apply Forall_replicate. }
  cbn [res_bind]. cbv beta zeta iota.
  destruct (create_array_ok ("const_arr" ++ utostr (wrap 32 (const_arrs w + 1))) (os_size os) C
    (MkWorld (arrayCache w) (tmp_arrs w) (wrap 32 (const_arrs w + 1)))) as (r & w' & -> & Hw2 & Har); [done|lia|done|done|].
  cbn [res_bind fst snd]. assert (domain (arrayAt r) = 32 /\ range (arrayAt r) = 8) as [Hd Hrg] by (by rewrite Har).
  rewrite (extend_all_ok (os_size os) r W) by done. cbn [res_bind updates_head set_updates].
  exists r, (to_updates W UNil), w'. split; [by destruct os|]. split; [|by split].
  assert (root_ok (os_size os) (Some r)) as Hro.
  { cbn. rewrite Har. split_and!; try done. apply fresh_array_ok; [lia|done|done]. }
  split.
  - destruct Hs. split; try done. cbn. by apply writes_ok_weaken.
  - intros i Hi. apply (byte_at_same checked c c os); [done| |by apply (rep_bytes _ _ _ Hr)]. split_and!; try done.
    intros ρ. unfold updates_value. cbn [updates_root updates_head set_updates]. rewrite Hroot.
    rewrite (writes_value_ext checked ρ (base_value checked ρ (Some r)) (constants_value C)) by (by eapply constants_init).
    rewrite <- Heq, collect_to_updates by done. apply writes_value_ext. unfold constants_value, base_value.
    unfold in_range in Hi. cbn [fst os_size set_updates] in Hi. rewrite lookup_replicate_2 by lia. cbn. unfold Int8. by rewrite make_val by done.
Qed.

Lemma getUpdates_ok c fr os w :
  Inv c fr (os, w) ->
  exists r h w', getUpdates new_array utostr (os, w) = Ok ((r, h), (set_updates (Some r) h os, w')) /\
    Inv c fr (set_updates (Some r) h os, w').
Proof.
  intros HI. unfold getUpdates, sbind. cbn [fst]. destruct (updates_root os) as [r|] eqn:Er.
  - exists r, (updates_head os), w. cbn [res_bind fst snd]. unfold ask. cbn [fst]. rewrite Er. cbn [res_bind].
    assert (set_updates (Some r) (updates_head os) os = os) as -> by (destruct os; cbn in *; by subst). by split.
  - destruct (make_root_ok c fr os w HI Er) as (r & h & w' & -> & HI'). exists r, h, w'. by split.
Qed.

(** Reading the update list at an index. *)
Definition at_index (n : Z) (o : env -> option Z) (c : contents) (ρ : env) : option Z :=
  i ← o ρ; if (0 <=? i) && (i <? n) then c ρ i else None.

Lemma read_updates_ok c fr r h os w index :
  Inv c fr (set_updates (Some r) h os, w) -> wt index -> getWidth index = 32 ->
  exists e, ReadExpr_create opt r h index = Ok e /\
    byte_expr checked (at_index (os_size os) (fun ρ => i ← denote checked ρ index; if unflushed os i then None else Some i) c) e.
Proof.
  intros (Hr & _ & _) Hi Hiw. cbn [fst] in Hr. pose proof (rep_shape _ _ _ Hr) as Hs.
  pose proof (shape_root _ Hs) as Hro. cbn in Hro. destruct Hro as (Ha & Hd & Hrg & _).
  pose proof (shape_writes _ Hs) as Hw. cbn in Hw.
  destruct (ReadExpr_create_ok opt checked Hopt r h index) as (e & E & He & Hew & Hden).
  { cbn [wt]. split_and!; [done|by apply (writes_ok_root (os_size os))|done|congruence]. }
  exists e. split; [done|]. split; [done|]. split; [congruence|]. intros ρ v Hv. unfold at_index in Hv.
  apply bind_Some in Hv as (i & Hiv & Hv). apply bind_Some in Hiv as (i' & Hiv & Hiu).
  destruct (unflushed os i') eqn:Eu; [done|]. injection Hiu as ->.
  destruct ((0 <=? i) && (i <? os_size os)) eqn:Eb; [|done]. tidy_bools.
  apply Hden. unfold read_den. rewrite Hiv. cbn [mbind option_bind]. rewrite <- writes_value_denote.
  apply (byte_flushed _ _ _ _ _ _ _ (rep_bytes _ _ _ Hr i ltac:(split; done))); done.
Qed.
(** ** Bytes *)

Definition set_byte (o v : env -> option Z) (c : contents) : contents :=
  fun ρ j => i ← o ρ; if i =? j then v ρ else c ρ j.

(** The size of an object, from what its operations keep. *)
Definition frame_size (fr : Z * Z * bool) : Z := snd (fst fr).

Lemma Inv_in_range c fr s i : Inv c fr s -> 0 <= i < frame_size fr -> in_range (fst s) i.
Proof. intros (_ & <- & _) Hi. exact Hi. Qed.

Definition byte_fits (e : expr) : Prop := wt e /\ getWidth e = 8.

Lemma byte_expr_weaken c c' e :
  byte_expr checked c e -> (forall ρ v, c' ρ = Some v -> c ρ = Some v) -> byte_expr checked c' e.
Proof. intros (Hw & Hwd & Hd) H. split_and!; auto. Qed.

Lemma byte_expr_const b : 0 <= b < 256 -> byte_expr checked (fun _ => Some b) (const_alloc b 8).
Proof.
  intros Hb. split; [by apply wt_const_alloc|]. split; [by apply width_const_alloc|]. intros ρ v [= <-].
  rewrite denote_const_alloc by (change (2 ^ 64) with 18446744073709551616; lia). by rewrite wrap_small.
Qed.

Lemma read8_ok c fr i :
  0 <= i < frame_size fr ->
  triple (Inv c fr) (read8 opt new_array utostr i) (fun e s => Inv c fr s /\ byte_expr checked (fun ρ => c ρ i) e).
Proof.
  intros Hi [os w] HI. pose proof (Inv_in_range c fr (os, w) i HI Hi) as Hin. cbn [fst] in Hin.
  pose proof HI as (Hr & Hf & Hw). cbn [fst snd] in *. pose proof (rep_shape _ _ _ Hr) as Hs.
  destruct (rep_bytes _ _ _ Hr i Hin) as [H1 H2 H3 H4 H5].
  unfold read8, sbind, ask. cbn [fst]. rewrite isByteConcrete_ok by done. cbn [res_bind fst snd].
  destruct (conc os i) eqn:Ec.
  { rewrite concrete_at_ok by done. cbn [res_bind fst snd]. pose proof (stored_range os Hs i) as Hst.
    unfold Int8. rewrite const_create_ok by done. cbn [res_bind]. eexists _, _. split; [done|]. split; [done|].
    eapply byte_expr_weaken; [by apply byte_expr_const|]. intros ρ v Hv. by rewrite (H3 eq_refl ρ v Hv). }
  rewrite known_at_ok by done. cbn [res_bind fst snd]. destruct (known os i) as [e|] eqn:Ek.
  { eexists _, _. split; [done|]. split; [done|]. by apply H4. }
  rewrite isByteFlushed_ok by done. cbn [res_bind fst snd]. destruct (unflushed os i) eqn:Eu; [by destruct (H2 eq_refl)|].
  cbn [negb]. unfold slift at 1. cbn [res_assert res_bind fst snd].
  destruct (getUpdates_ok c fr os w HI) as (r & h & w' & -> & HI'). cbn [res_bind fst snd].
  destruct (index_ok os i Hs Hin) as (-> & Hwi & Hww & Hv). unfold slift. cbn [res_bind].
  destruct (read_updates_ok c fr r h os w' (const_alloc i Int32) HI' Hwi Hww) as (e & -> & He). cbn [res_bind].
  eexists _, _. split; [done|]. split; [done|]. eapply byte_expr_weaken; [exact He|]. intros ρ v Hc. unfold at_index.
  unfold const_alloc. cbn [denote mbind option_bind]. rewrite Hv. rewrite Eu. cbn [mbind option_bind].
  assert ((0 <=? i) && (i <? os_size os) = true) as ->; [|done]. unfold in_range in Hin. lia.
Qed.

Lemma read8_at_ok c fr offset :
  wt offset -> getWidth offset = 32 -> isConstant offset = false ->
  triple (Inv c fr) (read8_at opt new_array utostr offset)
    (fun e s => Inv c fr s /\ byte_expr checked (at_index (frame_size fr) (fun ρ => denote checked ρ offset) c) e).
Proof.
  intros Hw Hwd Hnc [os w] HI. pose proof HI as (Hr & Hf & Hwo). cbn [fst snd] in *.
  unfold read8_at, sbind, slift at 1, change. rewrite Hnc. cbn [negb res_assert res_bind fst snd fastRangeCheckOffset].
  destruct (flushRangeForRead_ok checked c os Hr) as (os1 & E & Hr1 & Hf1 & Hall). cbv beta iota. unfold fastRangeCheckOffset.
  rewrite E. cbn [res_bind fst snd].
  assert (Inv c fr (os1, w)) as HI1 by (split_and!; [done|cbn; congruence|done]).
  destruct (getUpdates_ok c fr os1 w HI1) as (r & h & w' & -> & HI'). cbn [res_bind fst snd].
  assert (ZExtExpr_create offset Int32 = Ok offset) as -> by (unfold ZExtExpr_create; by rewrite Hwd). unfold slift. cbn [res_bind].
  destruct (read_updates_ok c fr r h os1 w' offset HI' Hw Hwd) as (e & -> & He). cbn [res_bind].
  eexists _, _. split; [done|]. split; [done|]. eapply byte_expr_weaken; [exact He|]. intros ρ v Hc. unfold at_index in *.
  apply bind_Some in Hc as (j & Hj & Hc). rewrite Hj. cbn [mbind option_bind].
  assert (os_size os1 = frame_size fr) as -> by (unfold frame_size; rewrite <- Hf, <- Hf1; done).
  destruct ((0 <=? j) && (j <? frame_size fr)) eqn:Eb; [|done]. rewrite Hall; [cbn; by rewrite Eb|].
  tidy_bools. unfold in_range. assert (os_size os1 = frame_size fr) as -> by (unfold frame_size; rewrite <- Hf, <- Hf1; done). lia.
Qed.

Lemma set_byte_other o v c ρ i j x : o ρ = Some i -> i <> j -> set_byte o v c ρ j = Some x -> c ρ j = Some x.
Proof. intros Ho Hne. unfold set_byte. rewrite Ho. cbn. by rewrite (proj2 (Z.eqb_neq _ _) Hne). Qed.

Lemma set_byte_same o v c ρ i : o ρ = Some i -> set_byte o v c ρ i = v ρ.
Proof. intros Ho. unfold set_byte. rewrite Ho. cbn. by rewrite Z.eqb_refl. Qed.

(** The caches of one byte are replaced. *)
Lemma write_cached_ok c os os' i v :
  represents c os -> shape os' -> frame os' = frame os -> in_range os i ->
  (forall j, in_range os j -> j <> i -> same_byte checked os os' j) ->
  byte_ok checked v (conc os' i) (known os' i) (unflushed os' i) (stored os' i) (fun ρ => updates_value checked os' ρ i) ->
  represents (set_byte (fun _ => Some i) v c) os'.
Proof.
  intros Hr Hs Hf Hi Hj Hb. apply (represents_change checked c _ os os' i); try done.
  - intros j Hjr Hne. split; [by apply Hj|]. intros ρ x. by apply (set_byte_other _ _ _ _ i).
  - destruct Hb as [B1 B2 B3 B4 B5]. assert (forall ρ, set_byte (fun _ => Some i) v c ρ i = v ρ) as Hv by (intros ρ; by apply set_byte_same).
    split; try done.
    + intros Hc ρ x. rewrite Hv. by apply (B3 Hc).
    + intros e He. eapply byte_expr_weaken; [by apply B4|]. intros ρ x. by rewrite Hv.
    + intros Hu ρ x. rewrite Hv. by apply (B5 Hu).
Qed.

Lemma write8_byte_ok c fr i v :
  0 <= i < frame_size fr ->
  triple (Inv c fr) (write8_byte i v) (fun _ s => Inv (set_byte (fun _ => Some i) (fun _ => Some (wrap 8 v)) c) fr s).
Proof.
  intros Hi [os w] HI. pose proof (Inv_in_range c fr (os, w) i HI Hi) as Hin. cbn [fst] in Hin.
  pose proof HI as (Hr & Hf & Hw). cbn [fst snd] in *. pose proof (rep_shape _ _ _ Hr) as Hs.
  unfold write8_byte, change. cbn [fst snd].
  destruct (store_byte_ok os Hs i Hin (wrap 8 v)) as (st & -> & Hs1 & Hst); [by apply wrap_range|]. cbn [res_bind].
  destruct (setKnownSymbolic_ok _ Hs1 i Hin None) as (ks & -> & Hs2 & Hks). cbn [res_bind].
  destruct (markByteConcrete_ok _ Hs2 i Hin) as (cm & -> & Hcm & Hcb). cbn [res_bind].
  assert (shape (set_concreteMask cm (set_known ks (set_store st os)))) as Hs3 by (by apply shape_set_cmask).
  destruct (markByteUnflushed_ok _ Hs3 i Hin) as (fm & -> & Hfm & Hfb). cbn [res_bind].
  set (os' := set_flushMask fm _). eexists _, _. split; [done|].
  assert (forall j, in_range os j -> conc os' j = if j =? i then true else conc os j) as Ec by exact Hcb.
  assert (forall j, in_range os j -> known os' j = if j =? i then None else known os j) as Ek by exact Hks.
  assert (forall j, in_range os j -> unflushed os' j = if j =? i then true else unflushed os j) as Eu by exact Hfb.
  assert (forall j, in_range os j -> stored os' j = if j =? i then wrap 8 v else stored os j) as Es by exact Hst.
  split; [|by split]. cbn [fst]. apply (write_cached_ok c os os'); try done; [by apply shape_set_fmask| |].
  - intros j Hj Hne. apply Z.eqb_neq in Hne. split_and!; [by rewrite Ec, Hne|by rewrite Ek, Hne|by rewrite Eu, Hne|by rewrite Es, Hne|done].
  - rewrite Ec, Ek, Eu, Es, Z.eqb_refl by done. split; try done; [auto|]. by intros _ ρ x [= <-].
Qed.

Lemma write8_ok c fr i value :
  0 <= i < frame_size fr -> byte_fits value ->
  triple (Inv c fr) (write8 i value) (fun _ s => Inv (set_byte (fun _ => Some i) (fun ρ => denote checked ρ value) c) fr s).
Proof.
  intros Hi [Hv Hvw]. destruct (isConstant value) eqn:Enc.
  { destruct value as [CE| | | | | | | |]; try done. unfold write8. cbn in Hv, Hvw.
    pose proof (uval_range CE Hv) as Hu. rewrite Hvw in Hu.
    eapply triple_step; [unfold getZExtValue; by rewrite Hvw|]. eapply triple_weaken; [by apply write8_byte_ok|done|].
    intros [] s. by rewrite wrap_small. }
  intros [os w] HI. pose proof (Inv_in_range c fr (os, w) i HI Hi) as Hin. cbn [fst] in Hin.
  pose proof HI as (Hr & Hf & Hw). cbn [fst snd] in *. pose proof (rep_shape _ _ _ Hr) as Hs.
  assert (write8 i value = change (fun os =>
    let* os := setKnownSymbolic i (Some value) os in let* os := markByteSymbolic i os in markByteUnflushed i os)) as ->
    by (by destruct value).
  unfold change. cbn [fst snd].
  destruct (setKnownSymbolic_ok _ Hs i Hin (Some value)) as (ks & -> & Hs2 & Hks). cbn [res_bind].
  destruct (markByteSymbolic_ok _ Hs2 i Hin) as (cm & -> & Hcm & Hcb). cbn [res_bind].
  assert (shape (set_concreteMask cm (set_known ks os))) as Hs3 by (by apply shape_set_cmask).
  destruct (markByteUnflushed_ok _ Hs3 i Hin) as (fm & -> & Hfm & Hfb). cbn [res_bind].
  set (os' := set_flushMask fm _). eexists _, _. split; [done|].
  assert (forall j, in_range os j -> conc os' j = if j =? i then false else conc os j) as Ec by exact Hcb.
  assert (forall j, in_range os j -> known os' j = if j =? i then Some value else known os j) as Ek by exact Hks.
  assert (forall j, in_range os j -> unflushed os' j = if j =? i then true else unflushed os j) as Eu by exact Hfb.
  split; [|by split]. cbn [fst]. apply (write_cached_ok c os os'); try done; [by apply shape_set_fmask| |].
  - intros j Hj Hne. apply Z.eqb_neq in Hne. split_and!; [by rewrite Ec, Hne|by rewrite Ek, Hne|by rewrite Eu, Hne|done|done].
  - rewrite Ec, Ek, Eu, Z.eqb_refl by done. split; try done; [auto|]. by intros e [= <-].
Qed.
Lemma write8_at_ok c fr offset value :
  wt offset -> getWidth offset = 32 -> isConstant offset = false -> byte_fits value ->
  triple (Inv c fr) (write8_at offset value)
    (fun _ s => Inv (set_byte (fun ρ => denote checked ρ offset) (fun ρ => denote checked ρ value) c) fr s).
Proof.
  intros Hw Hwd Hnc [Hv Hvw] [os w] HI. pose proof HI as (Hr & Hf & Hwo). cbn [fst snd] in *.
  unfold write8_at, sbind, slift at 1, change. rewrite Hnc. cbn [negb res_assert res_bind fst snd].
  destruct (flushRangeForWrite_ok checked c os Hr) as (os1 & E & Hr1 & Hf1 & Hall & Hev). unfold fastRangeCheckOffset.
  rewrite E. cbn [res_bind fst snd].
  assert (ZExtExpr_create offset Int32 = Ok offset) as -> by (unfold ZExtExpr_create; by rewrite Hwd). unfold slift. cbn [res_bind fst snd].
  pose proof (rep_shape _ _ _ Hr1) as Hs1.
  destruct (updates_extend_ok os1 offset value) as [-> Hs2]; try done; [by destruct offset|]. cbn [res_bind].
  set (os2 := set_updates _ _ os1) in *. eexists _, _. split; [done|]. split; [|split; [exact (eq_trans Hf1 Hf)|done]]. cbn [fst].
  split; [done|]. intros j Hj. change (in_range os1 j) in Hj. specialize (Hall j Hj). destruct (Hev j Hj) as [Hc Hk].
  unfold byte_at. change (conc os2 j) with (conc os1 j). change (known os2 j) with (known os1 j).
  change (unflushed os2 j) with (unflushed os1 j). rewrite Hc, Hk, Hall. split; try done. intros _ ρ v Hx.
  unfold set_byte in Hx. apply bind_Some in Hx as (o & Ho & Hx). unfold updates_value. cbn [os2 updates_head updates_root set_updates writes_value].
  rewrite Ho. cbn [mbind option_bind]. destruct (o =? j); [done|].
  by apply (byte_flushed _ _ _ _ _ _ _ (rep_bytes _ _ _ Hr1 j Hj)).
Qed.

(** ** Words *)

Notation byte_index := (byte_index isLittleEndian).

(** The word whose bytes, the least significant first, are [f 0], [f 1], .... *)
Fixpoint word_value (f : Z -> option Z) (n : nat) : option Z :=
  match n with
  | O => Some 0
  | S n' => hi ← f (Z.of_nat n'); lo ← word_value f n'; Some (hi * 2 ^ (8 * Z.of_nat n') + lo)
  end.

(** A partial result of [read_loop]: the word of the bytes read so far. *)
Definition word_expr (f : env -> Z -> option Z) (n : nat) (e : expr) : Prop :=
  wt e /\ getWidth e = 8 * Z.of_nat n /\ forall ρ v, word_value (f ρ) n = Some v -> denote checked ρ e = Some v.

Definition partial_word (f : env -> Z -> option Z) (n : nat) (r : option expr) : Prop :=
  match r with None => n = O | Some e => (0 < n)%nat /\ word_expr f n e end.

Lemma word_step f n b r :
  byte_expr checked (fun ρ => f ρ (Z.of_nat n)) b -> partial_word f n r ->
  exists e, (match r with Some r => ConcatExpr_create b r | None => Ok b end) = Ok e /\ partial_word f (S n) (Some e).
Proof.
  intros (Hw & Hwd & Hd). destruct r as [r|]; cbn [partial_word].
  - intros (Hn & Hrw & Hrwd & Hrd). destruct (ConcatExpr_create_ok checked b r Hw Hrw) as (e & -> & He & Hew & Hed).
    exists e. split; [done|]. split; [lia|]. split; [done|]. split; [lia|]. intros ρ v Hv. cbn [word_value] in Hv.
    apply bind_Some in Hv as (hi & Hhi & Hv). apply bind_Some in Hv as (lo & Hlo & [= <-]).
    apply Hed. unfold concat_den. rewrite (Hd ρ hi Hhi), (Hrd ρ lo Hlo). cbn. by rewrite Hrwd.
  - intros ->. exists b. split; [done|]. split; [lia|]. split; [done|]. split; [lia|]. intros ρ v Hv. cbn [word_value] in Hv.
    apply bind_Some in Hv as (hi & Hhi & Hv). cbn in Hv. injection Hv as <-. rewrite (Hd ρ hi Hhi). f_equal. lia.
Qed.

Lemma byte_index_range N i : 0 <= i < N -> 0 <= byte_index N i < N.
Proof. unfold ObjectState.byte_index. destruct isLittleEndian; lia. Qed.

Lemma read_loop_ok (P : ObjectState * World -> Prop) byte (val : Z -> env -> option Z) N n : forall i r,
  (forall idx, 0 <= idx < N -> triple P (byte idx) (fun e s => P s /\ byte_expr checked (val idx) e)) ->
  Z.of_nat i + Z.of_nat n = N -> partial_word (fun ρ k => val (byte_index N k) ρ) i r ->
  triple P (read_loop isLittleEndian byte N n (Z.of_nat i) r)
    (fun r s => P s /\ partial_word (fun ρ k => val (byte_index N k) ρ) (Z.to_nat N) r).
Proof.
  induction n as [|n IH]; intros i r Hb Hin Hr; cbn [read_loop].
  - apply triple_ret. intros s Hs. split; [done|]. by replace (Z.to_nat N) with i by lia.
  - eapply triple_bind; [apply Hb, byte_index_range; lia|]. intros b. cbn beta.
    intros s (Hs & He). destruct (word_step (fun ρ k => val (byte_index N k) ρ) i b r He Hr) as (e & Ee & Hp).
    unfold sbind, slift. rewrite Ee. cbn [res_bind fst snd]. replace (Z.of_nat i + 1) with (Z.of_nat (S i)) by lia.
    apply (IH (S i)); [done|lia|done|done].
Qed.

Lemma read_bytes_ok (P : ObjectState * World -> Prop) byte (val : Z -> env -> option Z) N :
  0 < N ->
  (forall idx, 0 <= idx < N -> triple P (byte idx) (fun e s => P s /\ byte_expr checked (val idx) e)) ->
  triple P (read_bytes isLittleEndian byte (N * 8))
    (fun r s => P s /\ exists e, r = Some e /\ word_expr (fun ρ k => val (byte_index N k) ρ) (Z.to_nat N) e).
Proof.
  intros HN Hb. unfold read_bytes. rewrite Z.div_mul by done. rewrite Z.eqb_refl.
  eapply triple_step; [done|].
  eapply triple_weaken; [apply (read_loop_ok P byte val N (Z.to_nat N) 0 None); [done|lia|done]|done|].
  intros r s (HP & Hr). split; [done|]. destruct r as [e|]; [|cbn in Hr; lia]. exists e. split; [done|]. apply Hr.
Qed.
(** *** The array of bytes *)

(** Offsets are taken modulo 2^32. *)
Definition shifted (o : env -> option Z) (idx : Z) (ρ : env) : option Z := b ← o ρ; Some (wrap 32 (b + idx)).

Definition word_at (size N : Z) (o : env -> option Z) (c : contents) (ρ : env) : option Z :=
  word_value (fun k => at_index size (shifted o (byte_index N k)) c ρ) (Z.to_nat N).

Definition value_byte (v : env -> option Z) (i : Z) (ρ : env) : option Z :=
  x ← v ρ; Some (wrap 8 (x / 2 ^ (8 * i))).

(** The bytes [v 0, ..., v (n-1)] are written at the offsets [o 0, ..., o (n-1)]. *)
Fixpoint set_bytes (o v : Z -> env -> option Z) (n : nat) (c : contents) : contents :=
  match n with
  | O => c
  | S n' => set_byte (o (Z.of_nat n')) (v (Z.of_nat n')) (set_bytes o v n' c)
  end.

Definition set_word (N : Z) (o v : env -> option Z) (c : contents) : contents :=
  set_bytes (fun k => shifted o (byte_index N k)) (value_byte v) (Z.to_nat N) c.

(** *** Writing the bytes of a word *)

Lemma Inv_weaken c c' fr s :
  (forall ρ j v, c' ρ j = Some v -> c ρ j = Some v) -> Inv c fr s -> Inv c' fr s.
Proof.
  intros Hc (Hr & Hf & Hw). split; [|done]. split; [apply (rep_shape _ _ _ Hr)|]. intros j Hj.
  apply (byte_at_same checked c c' (fst s) (fst s)); [intros ρ v; apply Hc|by split_and!|by apply (rep_bytes _ _ _ Hr)].
Qed.

Lemma set_byte_mono o o' v v' c ρ j x :
  (forall y, o' ρ = Some y -> o ρ = Some y) -> (forall y, v' ρ = Some y -> v ρ = Some y) ->
  set_byte o' v' c ρ j = Some x -> set_byte o v c ρ j = Some x.
Proof.
  intros Ho Hv. unfold set_byte. intros H. apply bind_Some in H as (i & Hi & H). rewrite (Ho i Hi). cbn.
  destruct (i =? j); auto.
Qed.

Lemma write_loop_ok fr (o v : Z -> env -> option Z) byte N n : forall i c0,
  (forall idx k c, 0 <= idx < N -> 0 <= k < N ->
     triple (Inv c fr) (byte idx k) (fun _ s => Inv (set_byte (o idx) (v k) c) fr s)) ->
  Z.of_nat i + Z.of_nat n = N ->
  triple (Inv (set_bytes (fun k => o (byte_index N k)) v i c0) fr) (write_loop isLittleEndian byte N n (Z.of_nat i))
    (fun _ s => Inv (set_bytes (fun k => o (byte_index N k)) v (Z.to_nat N) c0) fr s).
Proof.
  induction n as [|n IH]; intros i c0 Hb Hin; cbn [write_loop].
  - apply triple_ret. intros s Hs. by replace (Z.to_nat N) with i by lia.
  - eapply triple_bind; [apply Hb; [apply byte_index_range; lia|lia]|]. intros [].
    replace (Z.of_nat i + 1) with (Z.of_nat (S i)) by lia. apply (IH (S i)); [done|lia].
Qed.

Lemma value_byte_ok value k N :
  wt value -> getWidth value = N * 8 -> 0 <= k < N ->
  exists e, ExtractExpr_create value (8 * k) Int8 = Ok e /\ byte_fits e /\
    forall ρ y, value_byte (fun ρ => denote checked ρ value) k ρ = Some y -> denote checked ρ e = Some y.
Proof.
  intros Hw Hwd Hk. unfold Int8. destruct (ExtractExpr_create_ok checked value (8 * k) 8) as (e & E & He & Hew & Hd & _); [done|lia..|].
  exists e. split; [done|]. split; [done|]. intros ρ y Hy. by apply Hd.
Qed.

Lemma write_bytes_ok c0 fr (o : Z -> env -> option Z) byte value N :
  0 < N -> wt value -> getWidth value = N * 8 ->
  (forall idx e c, 0 <= idx < N -> byte_fits e ->
     triple (Inv c fr) (byte idx e) (fun _ s => Inv (set_byte (o idx) (fun ρ => denote checked ρ e) c) fr s)) ->
  triple (Inv c0 fr) (write_bytes isLittleEndian byte value)
    (fun _ s => Inv (set_bytes (fun k => o (byte_index N k)) (value_byte (fun ρ => denote checked ρ value)) (Z.to_nat N) c0) fr s).
Proof.
  intros HN Hw Hwd Hb. unfold write_bytes. rewrite Hwd, Z.div_mul by done. rewrite Z.eqb_refl.
  eapply triple_step; [done|].
  apply (write_loop_ok fr o _ _ N (Z.to_nat N) 0 c0); [|lia]. intros idx k c Hidx Hk.
  destruct (value_byte_ok value k N Hw Hwd Hk) as (e & Ee & He & Hd).
  eapply triple_step; [done|].
  eapply triple_weaken; [by apply (Hb idx e c)|done|]. intros [] s. apply Inv_weaken. intros ρ j y.
  apply set_byte_mono; [done|]. intros z. by apply Hd.
Qed.

Lemma write_word_ok c0 fr N offset x :
  0 < N -> 0 <= offset -> offset + N <= frame_size fr -> frame_size fr < 2 ^ 32 -> 0 <= x ->
  triple (Inv c0 fr) (write_word isLittleEndian N offset x)
    (fun _ s => Inv (set_word N (fun _ => Some offset) (fun _ => Some x) c0) fr s).
Proof.
  intros HN Ho Hs H32 Hx. unfold write_word, set_word.
  apply (write_loop_ok fr (fun idx => shifted (fun _ => Some offset) idx) _ _ N (Z.to_nat N) 0 c0); [|lia].
  intros idx k c Hidx Hk. assert (0 <= wrap 32 (offset + idx) < frame_size fr) as Hr by (rewrite wrap_small; lia).
  eapply triple_weaken; [by apply (write8_byte_ok c)|done|].
  intros [] s. apply Inv_weaken. intros ρ j y. apply set_byte_mono; [done|]. intros z. unfold value_byte. cbn.
  intros [= <-]. by rewrite Z.shiftr_div_pow2 by lia.
Qed.
(** *** Accesses at constant offsets *)

(** The widths of accesses, and the number of bytes they touch. *)
Definition access_width (w : Z) : Prop := w = 1 \/ exists N, 0 < N /\ w = N * 8.
Definition access_bytes (w : Z) : Z := if w =? Bool_w then 1 else w / 8.

Lemma access_cases w : access_width w -> w = 1 /\ access_bytes w = 1 \/ 0 < access_bytes w /\ w = access_bytes w * 8 /\ (w =? Bool_w) = false.
Proof.
  unfold access_bytes, Bool_w. intros [->|(N & HN & ->)]; [by left|]. right.
  assert (N * 8 =? 1 = false) as -> by lia. rewrite Z.div_mul by done. auto.
Qed.

(** What reading [w] bits at [o] returns. *)
Definition read_result (size w : Z) (o : env -> option Z) (c : contents) (e : expr) : Prop :=
  wt e /\ getWidth e = w /\
  forall ρ x, word_at size (access_bytes w) o c ρ = Some x -> denote checked ρ e = Some (wrap w x).

Lemma word_read_result size w o c e :
  access_width w -> w <> 1 ->
  word_expr (fun ρ k => at_index size (shifted o (byte_index (access_bytes w) k)) c ρ) (Z.to_nat (access_bytes w)) e ->
  read_result size w o c e.
Proof.
  intros Hw H1 (He & Hew & Hd). destruct (access_cases w Hw) as [[? _]|(HN & Hwd & _)]; [done|].
  split; [done|]. split; [lia|]. intros ρ x Hx. specialize (Hd ρ x Hx). rewrite Hd.
  pose proof (denote_range checked e ρ x He Hd). rewrite wrap_small; [done|]. replace w with (getWidth e) by lia. done.
Qed.

Lemma bool_index : byte_index 1 0 = 0.
Proof. unfold ObjectState.byte_index. by destruct isLittleEndian. Qed.

Lemma bool_read_result size o c b :
  byte_expr checked (at_index size (shifted o 0) c) b ->
  exists e, ExtractExpr_create b 0 Bool_w = Ok e /\ read_result size 1 o c e.
Proof.
  intros (Hb & Hbw & Hd). destruct (ExtractExpr_create_ok checked b 0 1) as (e & E & He & Hew & Hed & _); [done|lia..|].
  exists e. split; [done|]. split; [done|]. split; [done|]. intros ρ x Hx. unfold word_at in Hx.
  change (access_bytes 1) with 1 in Hx. change (Z.to_nat 1) with 1%nat in Hx. cbn [word_value] in Hx. change (Z.of_nat 0) with 0 in Hx.
  rewrite bool_index in Hx. apply bind_Some in Hx as (y & Hy & [= <-]). apply Hed. unfold extract_den.
  rewrite (Hd ρ y Hy). cbn. by rewrite Z.div_1_r, Z.add_0_r, Z.mul_1_r.
Qed.

(** A byte at a constant offset. *)
Lemma const_index size o i idx c ρ v :
  (forall ρ, o ρ = Some i) -> 0 <= i -> 0 <= idx -> i + idx < size -> size < 2 ^ 32 ->
  at_index size (shifted o idx) c ρ = Some v -> c ρ (wrap 32 (i + idx)) = Some v.
Proof.
  intros Ho Hi Hx Hs H32 Hv. unfold at_index, shifted in Hv. rewrite Ho in Hv. cbn [mbind option_bind] in Hv.
  by destruct (_ && _).
Qed.

Lemma read_ok c fr i w o :
  size_ok (frame_size fr) -> access_width w -> 0 <= i -> i + access_bytes w <= frame_size fr -> (forall ρ, o ρ = Some i) ->
  triple (Inv c fr) (read opt isLittleEndian new_array utostr i w)
    (fun r s => Inv c fr s /\ exists e, r = Some e /\ read_result (frame_size fr) w o c e).
Proof.
  intros Hn Hw Hi Hs Ho. unfold size_ok in Hn. unfold read. destruct (access_cases w Hw) as [[-> E1]|(HN & Hwd & Hnb)].
  - rewrite E1 in Hs. cbn [Z.eqb Bool_w Pos.eqb]. eapply triple_bind; [apply read8_ok; lia|]. intros b. cbn beta.
    intros s (HI & Hb). destruct (bool_read_result (frame_size fr) o c b) as (e & Ee & He).
    { eapply byte_expr_weaken; [exact Hb|]. intros ρ v Hv. apply (const_index _ o i 0) in Hv; [|done|lia..].
      rewrite Z.add_0_r, wrap_small in Hv by lia. done. }
    unfold sbind, slift. rewrite Ee. cbn. eexists _, _. split; [done|]. split; [done|]. by exists e.
  - rewrite Hnb. rewrite Hwd at 1. eapply triple_weaken; [apply (read_bytes_ok (Inv c fr) _
      (fun idx => at_index (frame_size fr) (shifted o idx) c)); [done|]|done|].
    + intros idx Hidx. assert (0 <= wrap 32 (i + idx) < frame_size fr) as Hr by (rewrite wrap_small; lia).
      eapply triple_weaken; [by apply (read8_ok c)|done|]. intros e s (HI & He). split; [done|].
      eapply byte_expr_weaken; [exact He|]. intros ρ v. apply (const_index _ o i idx); [done|lia..].
    + intros r s (HI & e & -> & He). split; [done|]. exists e. split; [done|]. apply word_read_result; [done| |done].
      intros ->. unfold Bool_w in Hnb. lia.
Qed.

(** What writing a value at [o] makes of the contents. *)
Definition written (w : Z) (o : env -> option Z) (value : expr) (c : contents) : contents :=
  set_word (access_bytes w) o (fun ρ => denote checked ρ value) c.

Lemma bool_written o value c ρ j x :
  written 1 o value c ρ j = Some x -> set_byte (shifted o 0) (value_byte (fun ρ => denote checked ρ value) 0) c ρ j = Some x.
Proof.
  unfold written, set_word. change (access_bytes 1) with 1. change (Z.to_nat 1) with 1%nat.
  cbn [set_bytes]. change (Z.of_nat 0) with 0. by rewrite bool_index.
Qed.

Lemma bool_byte_ok value :
  wt value -> getWidth value = 1 ->
  exists e, ZExtExpr_create value Int8 = Ok e /\ byte_fits e /\
    forall ρ y, value_byte (fun ρ => denote checked ρ value) 0 ρ = Some y -> denote checked ρ e = Some y.
Proof.
  intros Hw Hwd. destruct (cast_create_ok checked ZExt value 8 Hw) as (e & E & He & Hew & Hd); [lia|]. exists e.
  split; [done|]. split; [done|]. intros ρ y Hy. apply Hd. unfold value_byte in Hy. unfold cast_den.
  destruct (denote checked ρ value) as [x|]; [|done]. cbn in Hy |- *. by rewrite Z.div_1_r in Hy.
Qed.

Lemma write_general_ok c fr i value o :
  size_ok (frame_size fr) -> wt value -> access_width (getWidth value) -> 0 <= i ->
  i + access_bytes (getWidth value) <= frame_size fr -> (forall ρ, o ρ = Some i) ->
  triple (Inv c fr) (write_general isLittleEndian i value) (fun _ s => Inv (written (getWidth value) o value c) fr s).
Proof.
  intros Hn Hv Hw Hi Hs Ho. unfold size_ok in Hn. unfold write_general.
  assert (forall idx, 0 <= i + idx < frame_size fr -> forall ρ, shifted o idx ρ = Some (wrap 32 (i + idx))) as Hsh.
  { intros idx Hidx ρ. unfold shifted. by rewrite Ho. }
  destruct (access_cases _ Hw) as [[Hw1 E1]|(HN & Hwd & Hnb)].
  - rewrite Hw1. rewrite E1 in Hs. cbn [Z.eqb Bool_w Pos.eqb]. destruct (bool_byte_ok value Hv Hw1) as (e & Ee & He & Hd).
    eapply triple_step; [done|].
    eapply triple_weaken; [apply (write8_ok c fr i e); [lia|done]|done|]. intros [] s. apply Inv_weaken. intros ρ j y Hy.
    apply bool_written in Hy. eapply set_byte_mono; [| |exact Hy]; [|by apply Hd]. intros z Hz.
    rewrite Hsh, Z.add_0_r, wrap_small in Hz by lia. done.
  - rewrite Hnb. unfold written, set_word. apply write_bytes_ok; [done|done|done|]. intros idx e c' Hidx He.
    assert (0 <= wrap 32 (i + idx) < frame_size fr) as Hr by (rewrite wrap_small; lia).
    eapply triple_weaken; [by apply (write8_ok c')|done|]. intros [] s. apply Inv_weaken. intros ρ j y.
    apply set_byte_mono; [|done]. intros z Hz. rewrite Hsh in Hz by lia. done.
Qed.
Lemma write_const_ok c fr i CE o :
  size_ok (frame_size fr) -> wt (Constant CE) -> access_width (getBitWidth CE) -> 0 <= i ->
  i + access_bytes (getBitWidth CE) <= frame_size fr -> (forall ρ, o ρ = Some i) ->
  (getBitWidth CE <=? 64) && bits64.isPowerOfTwo (getBitWidth CE) = true ->
  triple (Inv c fr) (write isLittleEndian i (Constant CE)) (fun _ s => Inv (written (getBitWidth CE) o (Constant CE) c) fr s).
Proof.
  intros Hn Hv Hw Hi Hs Ho Hpow. unfold write. rewrite Hpow. apply andb_prop in Hpow as [H64 Hpow]. apply Z.leb_le in H64.
  cbn in Hv. pose proof (uval_range CE Hv) as Hu. unfold size_ok in Hn.
  eapply triple_step; [unfold getZExtValue; by rewrite (proj2 (Z.leb_le _ _) H64)|].
  assert (forall N x, 0 < N -> i + N <= frame_size fr -> 0 <= x -> x = uval CE ->
    triple (Inv c fr) (write_word isLittleEndian N i x)
      (fun _ s => Inv (set_word N o (fun ρ => denote checked ρ (Constant CE)) c) fr s)) as Hword.
  { intros N x HN HNs Hx ->. eapply triple_weaken; [by apply (write_word_ok c fr N i (uval CE)); lia|done|]. intros [] s.
    apply Inv_weaken. intros ρ j y. unfold set_word. generalize (Z.to_nat N) as n. induction n as [|n IH] in j, y |- *; [done|].
    cbn [set_bytes]. unfold set_byte. intros H. apply bind_Some in H as (k & Hk & H). unfold shifted in *. rewrite Ho in Hk.
    cbn in Hk |- *. injection Hk as <-. destruct (_ =? j); auto. }
  destruct (access_cases _ Hw) as [[Hw1 E1]|(HN & Hwd & Hnb)].
  - rewrite Hw1. rewrite E1 in Hs. cbn [Z.eqb Bool_w Pos.eqb orb].
    eapply triple_weaken; [apply (write8_byte_ok c fr i (uval CE)); lia|done|]. intros [] s. apply Inv_weaken. intros ρ j y Hy.
    apply bool_written in Hy. eapply set_byte_mono; [| |exact Hy].
    + intros z Hz. unfold shifted in Hz. rewrite Ho in Hz. cbn in Hz. rewrite Z.add_0_r, wrap_small in Hz by lia. done.
    + intros z Hz. unfold value_byte in Hz. cbn in Hz. by rewrite Z.div_1_r in Hz.
  - rewrite Hnb. cbn [orb]. unfold written. set (N := access_bytes (getBitWidth CE)) in *.
    assert (N = 1 \/ N = 2 \/ N = 3 \/ N = 4 \/ N = 5 \/ N = 6 \/ N = 7 \/ N = 8) as HN8 by lia.
    rewrite Hwd in Hpow, Hu |- *. clearbody N.
    destruct HN8 as [->|[->|[->|[->|[->|[->|[->| ->]]]]]]]; try (vm_compute in Hpow; discriminate); cbn [Z.mul Pos.mul Z.eqb Pos.eqb Int8 Int16 Int32 Int64] in *.
    + eapply triple_weaken; [apply (write8_byte_ok c fr i (uval CE)); lia|done|]. intros [] s. apply Inv_weaken. intros ρ j y.
      unfold set_word. change (Z.to_nat 1) with 1%nat. cbn [set_bytes]. change (Z.of_nat 0) with 0. rewrite bool_index.
      apply set_byte_mono.
      * intros z Hz. unfold shifted in Hz. rewrite Ho in Hz. cbn in Hz. rewrite Z.add_0_r, wrap_small in Hz by lia. done.
      * intros z Hz. unfold value_byte in Hz. cbn in Hz. by rewrite Z.div_1_r in Hz.
    + apply Hword; [lia|lia|apply wrap_range; lia|by rewrite wrap_small].
    + apply Hword; [lia|lia|apply wrap_range; lia|by rewrite wrap_small].
    + apply Hword; [lia|lia|lia|done].
Qed.

Lemma write_ok c fr i value o :
  size_ok (frame_size fr) -> wt value -> access_width (getWidth value) -> 0 <= i ->
  i + access_bytes (getWidth value) <= frame_size fr -> (forall ρ, o ρ = Some i) ->
  triple (Inv c fr) (write isLittleEndian i value) (fun _ s => Inv (written (getWidth value) o value c) fr s).
Proof.
  intros Hn Hv Hw Hi Hs Ho. destruct value as [CE| | | | | | | |]; try by apply write_general_ok.
  destruct ((getBitWidth CE <=? 64) && bits64.isPowerOfTwo (getBitWidth CE)) eqn:E.
  - by apply write_const_ok.
  - unfold write. rewrite E. by apply write_general_ok.
Qed.

(** *** Offsets that stay symbolic

    The bytes of an access are at the sums of the offset and constants; a sum
    that folded to a constant would fail the assertion of the byte's access.
    No sum of an offset in the form the constructors give folds. *)
Fixpoint varying (e : expr) : bool :=
  match e with
  | Constant _ => false
  | Binary Add (Constant _) r => varying r
  | Binary Sub (Constant _) r => varying r
  | _ => true
  end.

Lemma varying_nonconst e : varying e = true -> isConstant e = false.
Proof. by destruct e. Qed.

Definition sum_kind (k : BinKind) : Prop := k = Add \/ k = Sub.

Lemma fold_sum fuel k a b s :
  sum_kind k -> 0 < getBitWidth a -> getBitWidth b = getBitWidth a ->
  create opt fuel k (Constant a) (Constant b) = Ok s -> exists d, s = Constant d /\ getBitWidth d = getBitWidth a.
Proof.
  intros Hk Ha Hb H. destruct fuel as [|fuel]; [done|]. cbn [create] in H.
  assert (create_step opt (create opt fuel) k (Constant a) (Constant b) = (let* c := const_op k a b in Ok (Constant c))) as E.
  { destruct Hk as [-> | ->]; cbn [create_step]; unfold BCREATE_R; cbn [getWidth]; by rewrite Hb, Z.eqb_refl. }
  rewrite E in H. assert (is_div k = false /\ is_cmp k = false) as [Hnd Hnc] by (by destruct Hk as [-> | ->]).
  destruct (const_op_ok k a b) as (r & Er & Hr & _); [done|done|by rewrite Hnd|]. rewrite Er in H. injection H as <-.
  exists r. split; [done|]. unfold bin_width in Hr. by rewrite Hnc in Hr.
Qed.

Lemma varying_sum fuel : forall k a e e',
  sum_kind k -> wt e -> varying e = true -> getBitWidth a <> 1 -> getWidth e = getBitWidth a ->
  create opt fuel k (Constant a) e = Ok e' -> varying e' = true.
Proof.
  induction fuel as [|fuel IH]; intros k a e e' Hk Hwt He H1 Hw H; [done|]. cbn [create] in H.
  pose proof (varying_nonconst e He) as Hnc. pose proof (wt_width_pos e Hwt) as Hpos.
  assert (getWidth (Constant a) =? getWidth e = true) as Eq by (by apply Z.eqb_eq).
  assert (getBitWidth a =? Bool_w = false) as Eb by (by apply Z.eqb_neq).
  (* A + (B + c) and A - (B + c): the constants fold, and the rest is smaller *)
  assert (forall l b c op op', e = Binary l (Constant b) c -> l = Add \/ l = Sub -> varying c = true -> sum_kind op -> sum_kind op' ->
    (let* s := create opt fuel op (Constant a) (Constant b) in create opt fuel op' s c) = Ok e' -> varying e' = true) as Hstep.
  { intros l b c op op' -> Hl Hc Hop Hop' H'. apply res_bind_inv in H' as (s & Hs & H').
    assert (getBitWidth b = getBitWidth a) as Hb by (destruct Hl as [-> | ->]; exact Hw).
    destruct Hwt as (_ & Hcw & Hcb). cbn in Hcb.
    destruct (fold_sum fuel op a b s Hop) as (d & -> & Hd); [lia|done|done|]. apply (IH op' d c e'); try done; congruence. }
  assert (varying (Binary Add (Constant a) e) = true /\ varying (Binary Sub (Constant a) e) = true) as [HA HS] by done.
  assert (match k with Add => AddExpr_createPartialR opt (create opt fuel) a e | _ => SubExpr_createPartialR opt (create opt fuel) a e end = Ok e') as H'.
  { destruct Hk as [-> | ->]; cbn [create_step] in H; unfold BCREATE_R in H; rewrite Eq in H; cbn [res_assert] in H; by destruct e. }
  clear H. destruct Hk as [-> | ->].
  - unfold AddExpr_createPartialR in H'. rewrite Eb in H'. destruct (const_isZero a); [congruence|].
    destruct e as [| | | | | | | |l x y]; try (by injection H' as <-).
    destruct l; try (by injection H' as <-); destruct x as [b| | | | | | | |]; try (by injection H' as <-);
      (eapply Hstep; [reflexivity| | | | |exact H']; try exact He; unfold sum_kind; auto).
  - unfold SubExpr_createPartialR in H'. rewrite Eb in H'.
    destruct e as [| | | | | | | |l x y]; try (by injection H' as <-).
    destruct l; try (by injection H' as <-); destruct x as [b| | | | | | | |]; try (by injection H' as <-);
      (eapply Hstep; [reflexivity| | | | |exact H']; try exact He; unfold sum_kind; auto).
Qed.

Lemma sum_comm fuel e c :
  isConstant e = false -> create opt fuel Add e (Constant c) = create opt fuel Add (Constant c) e.
Proof.
  intros He. destruct fuel as [|fuel]; [done|]. cbn [create create_step]. unfold BCREATE_R. rewrite Z.eqb_sym.
  by destruct e.
Qed.

(** The offset of a byte of an access. *)
Lemma offset_sum_ok offset idx :
  wt offset -> getWidth offset = 32 -> varying offset = true -> 0 <= idx < 2 ^ 32 ->
  exists e, (let* i := const_create idx Int32 in BinaryExpr_create opt Add offset i) = Ok e /\
    wt e /\ getWidth e = 32 /\ isConstant e = false /\
    forall ρ v, shifted (fun ρ => denote checked ρ offset) idx ρ = Some v -> denote checked ρ e = Some v.
Proof.
  intros Hw Hwd Hv Hi. unfold Int32. rewrite const_create_ok by done. cbn [res_bind].
  assert (getWidth (const_alloc idx 32) = 32) as Hcw by (by apply width_const_alloc).
  destruct (BinaryExpr_create_ok opt checked Hopt Add offset (const_alloc idx 32)) as (e & E & He & Hew & Hd);
    [done|by apply wt_const_alloc|congruence|by destruct offset|].
  exists e. split; [done|]. split; [done|]. split; [by rewrite Hew, <- Hwd|]. split.
  - apply varying_nonconst. pose proof (varying_nonconst offset Hv) as Hnc.
    change (create opt (create_fuel offset (const_alloc idx 32)) Add offset (const_alloc idx 32) = Ok e) in E.
    apply (varying_sum (create_fuel offset (const_alloc idx 32)) Add (ap_make 32 idx) offset e); try done; try (by left).
    + change (getWidth (const_alloc idx 32) <> 1). lia.
    + change (getWidth offset = getWidth (const_alloc idx 32)). congruence.
    + by rewrite <- sum_comm.
  - intros ρ v Hx. apply Hd. unfold shifted in Hx. apply bind_Some in Hx as (b & Hb & [= <-]). unfold bin_den. rewrite Hb.
    rewrite denote_const_alloc by (change (2 ^ 64) with 18446744073709551616; lia). rewrite (wrap_small 32 idx) by done.
    cbn [mbind option_bind bin_sem]. by rewrite Hwd.
Qed.

(** *** Accesses at any offset *)

(** The value of an offset, which the accesses truncate to 32 bits. *)
Definition offset32 (offset : expr) (ρ : env) : option Z := o ← denote checked ρ offset; Some (wrap 32 o).

(** The offsets the executor may access [N] bytes at: constant and in bounds,
    or symbolic. *)
Definition offset_ok (size N : Z) (offset : expr) : Prop :=
  wt offset /\ forall o, ZExtExpr_create offset Int32 = Ok o ->
    match o with Constant c => uval c + N <= size | _ => varying o = true end.

(** The two cases of the truncated offset. *)
Lemma offset_cases size N offset :
  offset_ok size N offset ->
  exists o, ZExtExpr_create offset Int32 = Ok o /\ wt o /\ getWidth o = 32 /\
    (forall ρ x, offset32 offset ρ = Some x -> denote checked ρ o = Some x) /\
    ((exists c, o = Constant c /\ 0 <= uval c < 2 ^ 32 /\ uval c + N <= size) \/ isConstant o = false /\ varying o = true).
Proof.
  intros [Hw Ho]. unfold Int32. destruct (cast_create_ok checked ZExt offset 32 Hw) as (o & E & How & Hod & Hd); [lia|].
  exists o. specialize (Ho o E). split; [done|]. split; [done|]. split; [done|]. split; [exact Hd|].
  destruct o as [c| | | | | | | |]; try by right. left. exists c. split; [done|]. split; [|done]. cbn in How, Hod. rewrite <- Hod.
  by apply uval_range.
Qed.

Lemma at_index_weaken size o o' c ρ v :
  (forall x, o ρ = Some x -> o' ρ = Some x) -> at_index size o c ρ = Some v -> at_index size o' c ρ = Some v.
Proof. intros Ho. unfold at_index. intros H. apply bind_Some in H as (i & Hi & H). by rewrite (Ho i Hi). Qed.

Lemma shifted_weaken o o' idx ρ v :
  (forall x, o ρ = Some x -> o' ρ = Some x) -> shifted o idx ρ = Some v -> shifted o' idx ρ = Some v.
Proof. intros Ho. unfold shifted. intros H. apply bind_Some in H as (i & Hi & H). by rewrite (Ho i Hi). Qed.

Lemma word_value_weaken f g n v :
  (forall k x, f k = Some x -> g k = Some x) -> word_value f n = Some v -> word_value g n = Some v.
Proof.
  intros Hfg. induction n as [|n IH] in v |- *; [done|]. cbn [word_value]. intros H. apply bind_Some in H as (hi & Hhi & H).
  apply bind_Some in H as (lo & Hlo & H). rewrite (Hfg _ _ Hhi), (IH _ Hlo). exact H.
Qed.

Lemma read_result_weaken size w o o' c e :
  (forall ρ x, o' ρ = Some x -> o ρ = Some x) -> read_result size w o c e -> read_result size w o' c e.
Proof.
  intros Ho (Hw & Hwd & Hd). split; [done|]. split; [done|]. intros ρ x Hx. apply Hd. revert Hx. unfold word_at.
  apply word_value_weaken. intros k y. apply at_index_weaken. intros z. apply shifted_weaken. apply Ho.
Qed.

Lemma offset_const_value c : getBitWidth c = 32 -> getZExtValue c 32 = Ok (uval c).
Proof. intros H. unfold getZExtValue. by rewrite H. Qed.

Lemma read_sum_ok c fr o idx :
  wt o -> getWidth o = 32 -> varying o = true -> 0 <= idx < 2 ^ 32 ->
  triple (Inv c fr)
    (do* x := slift (let* i := const_create idx Int32 in BinaryExpr_create opt Add o i) in read8_at opt new_array utostr x)
    (fun e s => Inv c fr s /\ byte_expr checked (at_index (frame_size fr) (shifted (fun ρ => denote checked ρ o) idx) c) e).
Proof.
  intros How Hod Hvar Hidx. destruct (offset_sum_ok o idx How Hod Hvar Hidx) as (x & Ex & Hx & Hxw & Hxn & Hxd).
  eapply triple_step; [done|].
  eapply triple_weaken; [by apply read8_at_ok|done|]. intros e s [HI He]. split; [done|].
  eapply byte_expr_weaken; [exact He|]. intros ρ v. apply at_index_weaken. apply Hxd.
Qed.

(** The truncated offset as an offset of bytes. *)
Lemma shifted_0 o ρ x : wt o -> getWidth o = 32 -> shifted (fun ρ => denote checked ρ o) 0 ρ = Some x -> denote checked ρ o = Some x.
Proof.
  intros How Hod Hx. unfold shifted in Hx. apply bind_Some in Hx as (y & Hy & [= <-]). rewrite Hy, Z.add_0_r.
  f_equal. symmetry. apply wrap_small. rewrite <- Hod. by apply (denote_range checked o ρ).
Qed.

Lemma read_symbolic_ok c fr o w :
  wt o -> getWidth o = 32 -> varying o = true -> access_width w -> access_bytes w <= 2 ^ 32 ->
  triple (Inv c fr) (read_symbolic opt isLittleEndian new_array utostr o w)
    (fun r s => Inv c fr s /\ exists e, r = Some e /\ read_result (frame_size fr) w (fun ρ => denote checked ρ o) c e).
Proof.
  intros How Hod Hvar Hw HN. unfold read_symbolic. destruct (access_cases w Hw) as [[-> E1]|(HNp & Hwd & Hnb)].
  - cbn [Z.eqb Bool_w Pos.eqb]. eapply triple_bind; [by apply (read8_at_ok c fr o), varying_nonconst|]. intros b. cbn beta.
    intros s (HI & Hb). destruct (bool_read_result (frame_size fr) (fun ρ => denote checked ρ o) c b) as (e & Ee & He).
    { eapply byte_expr_weaken; [exact Hb|]. intros ρ v. apply at_index_weaken. intros x. by apply shifted_0. }
    unfold sbind, slift. rewrite Ee. cbn. eexists _, _. split; [done|]. split; [done|]. by exists e.
  - rewrite Hnb. rewrite Hwd at 1. eapply triple_weaken; [apply (read_bytes_ok (Inv c fr) _
      (fun idx => at_index (frame_size fr) (shifted (fun ρ => denote checked ρ o) idx) c)); [done|]|done|].
    + intros idx Hidx. apply read_sum_ok; try done. lia.
    + intros r s (HI & e & -> & He). split; [done|]. exists e. split; [done|]. apply word_read_result; [done| |done].
      intros ->. unfold Bool_w in Hnb. lia.
Qed.

Lemma read_at_ok c fr offset w :
  size_ok (frame_size fr) -> access_width w -> access_bytes w <= 2 ^ 32 -> offset_ok (frame_size fr) (access_bytes w) offset ->
  triple (Inv c fr) (read_at opt isLittleEndian new_array utostr offset w)
    (fun r s => Inv c fr s /\ exists e, r = Some e /\ read_result (frame_size fr) w (offset32 offset) c e).
Proof.
  intros Hn Hw HN Hoff. destruct (offset_cases _ _ _ Hoff) as (o & Eo & How & Hod & Hden & Hcase).
  eapply triple_step; [exact Eo|]. apply (triple_weaken (Inv c fr) _ _
    (fun r s => Inv c fr s /\ exists e, r = Some e /\ read_result (frame_size fr) w (fun ρ => denote checked ρ o) c e)); [|done|].
  - destruct Hcase as [(cc & -> & Hr & Hs)|[Hnc Hvar]].
    + cbn in How, Hod. eapply triple_step; [by apply offset_const_value|]. apply (read_ok c fr (uval cc) w); try done; lia.
    + pose proof (read_symbolic_ok c fr o w How Hod Hvar Hw HN). by destruct o.
  - intros r s (HI & e & -> & He). split; [done|]. exists e. split; [done|]. eapply read_result_weaken; [exact Hden|exact He].
Qed.

Lemma written_mono w o o' value c ρ j x :
  (forall y, o' ρ = Some y -> o ρ = Some y) -> written w o' value c ρ j = Some x -> written w o value c ρ j = Some x.
Proof.
  intros Ho. unfold written, set_word. generalize (Z.to_nat (access_bytes w)) as n.
  induction n as [|n IH] in j, x |- *; [done|]. cbn [set_bytes]. unfold set_byte. intros H. apply bind_Some in H as (i & Hi & H).
  rewrite (shifted_weaken _ _ _ _ _ Ho Hi). cbn [mbind option_bind]. destruct (i =? j); auto.
Qed.

Lemma write_symbolic_ok c fr o value :
  wt o -> getWidth o = 32 -> varying o = true -> wt value -> access_width (getWidth value) ->
  access_bytes (getWidth value) <= 2 ^ 32 ->
  triple (Inv c fr) (write_symbolic opt isLittleEndian o value)
    (fun _ s => Inv (written (getWidth value) (fun ρ => denote checked ρ o) value c) fr s).
Proof.
  intros How Hod Hvar Hv Hw HN. unfold write_symbolic. destruct (access_cases _ Hw) as [[Hw1 E1]|(HNp & Hwd & Hnb)].
  - rewrite Hw1. cbn [Z.eqb Bool_w Pos.eqb]. destruct (bool_byte_ok value Hv Hw1) as (e & Ee & He & Hd).
    eapply triple_step; [done|].
    eapply triple_weaken; [apply (write8_at_ok c fr o e); try done; by apply varying_nonconst|done|]. intros [] s. apply Inv_weaken.
    intros ρ j y Hy. apply bool_written in Hy. eapply set_byte_mono; [| |exact Hy]; [intros z; by apply shifted_0|by apply Hd].
  - rewrite Hnb. unfold written, set_word. apply write_bytes_ok; [done|done|done|]. intros idx e c' Hidx He.
    destruct (offset_sum_ok o idx How Hod Hvar) as (x & Ex & Hx & Hxw & Hxn & Hxd); [lia|].
    eapply triple_step; [done|].
    eapply triple_weaken; [by apply (write8_at_ok c' fr x e)|done|]. intros [] s. apply Inv_weaken. intros ρ j z.
    apply set_byte_mono; [apply Hxd|done].
Qed.

Lemma write_at_ok c fr offset value :
  size_ok (frame_size fr) -> wt value -> access_width (getWidth value) -> access_bytes (getWidth value) <= 2 ^ 32 ->
  offset_ok (frame_size fr) (access_bytes (getWidth value)) offset ->
  triple (Inv c fr) (write_at opt isLittleEndian offset value)
    (fun _ s => Inv (written (getWidth value) (offset32 offset) value c) fr s).
Proof.
  intros Hn Hv Hw HN Hoff. destruct (offset_cases _ _ _ Hoff) as (o & Eo & How & Hod & Hden & Hcase).
  eapply triple_step; [exact Eo|]. apply (triple_weaken (Inv c fr) _ _
    (fun _ s => Inv (written (getWidth value) (fun ρ => denote checked ρ o) value c) fr s)); [|done|].
  - destruct Hcase as [(cc & -> & Hr & Hs)|[Hnc Hvar]].
    + cbn in How, Hod. eapply triple_step; [by apply offset_const_value|]. apply (write_ok c fr (uval cc) value); try done. lia.
    + pose proof (write_symbolic_ok c fr o value How Hod Hvar Hv Hw HN). by destruct o.
  - intros [] s. apply Inv_weaken. intros ρ j x. apply written_mono. apply Hden.
Qed.
End correct.
