(* ===== verification/ObjectStateSpec.v ===== *)
(** What an object state promises: it implements an array of bytes per
    environment ([contents]), through every operation of [ObjectState].

    The first part is about arrays of bytes: a word that is written is read
    back.  The rest are the constructors, the copy and the flush for external
    calls, and the properties. *)
From Stdlib Require Import ZArith Lia Bool String.
From stdpp Require Import base list numbers option.
From S2P Require Import Prelude APInt Expr ExprCreate ExprSem ExprFactory BitArray ArrayCache ObjectState ObjectStateInv ObjectStateCorrect.
Open Scope Z_scope.

(** ** Arrays of bytes *)
Section bytes.
Context {A : APInt} {AR : Arrays}.
Context (isLittleEndian : bool).

Notation byte_index := (byte_index isLittleEndian).

(** [n] bytes written at the distinct offsets [a 0], ..., [a (n-1)]. *)
Lemma set_bytes_get ρ (o v : Z -> env -> option Z) (a : Z -> Z) c n : 
  (forall k, 0 <= k < Z.of_nat n -> o k ρ = Some (a k)) ->
  (forall k l, 0 <= k < Z.of_nat n -> 0 <= l < Z.of_nat n -> a k = a l -> k = l) ->
  (forall k, 0 <= k < Z.of_nat n -> set_bytes o v n c ρ (a k) = v k ρ) /\
  forall j, (forall k, 0 <= k < Z.of_nat n -> a k <> j) -> set_bytes o v n c ρ j = c ρ j.
Proof.
  induction n as [|n IH]; intros Ho Hinj; cbn [set_bytes]; [split; [lia|done]|].
  destruct IH as [IH1 IH2]; [intros; apply Ho; lia|intros; apply Hinj; [lia..|done]|].
  assert (o (Z.of_nat n) ρ = Some (a (Z.of_nat n))) as Hon by (apply Ho; lia). split.
  - intros k Hk. destruct (Z.eq_dec k (Z.of_nat n)) as [->|Hne]; [by apply set_byte_same|].
    unfold set_byte. rewrite Hon. cbn. rewrite (proj2 (Z.eqb_neq _ _)); [apply IH1; lia|]. intros E. apply Hne. symmetry.
    apply Hinj; [lia..|done].
  - intros j Hj. unfold set_byte. rewrite Hon. cbn. rewrite (proj2 (Z.eqb_neq _ _)) by (apply Hj; lia).
    apply IH2. intros k Hk. apply Hj. lia.
Qed.

Lemma word_value_bytes x n : word_value (fun k => Some (wrap 8 (x / 2 ^ (8 * k)))) n = Some (wrap (8 * Z.of_nat n) x).
Proof.
  induction n as [|n IH]; cbn [word_value]; [unfold wrap; by rewrite Z.mod_1_r|]. rewrite IH. cbn [mbind option_bind]. f_equal.
  rewrite wrap_adjacent by lia. f_equal. lia.
Qed.

Lemma byte_index_inj N k l : 0 <= k < N -> 0 <= l < N -> byte_index N k = byte_index N l -> k = l.
Proof. unfold ObjectState.byte_index. destruct isLittleEndian; lia. Qed.

Lemma word_value_ext f g n : (forall k, 0 <= k < Z.of_nat n -> f k = g k) -> word_value f n = word_value g n.
Proof.
  induction n as [|n IH]; intros H; [done|]. cbn [word_value]. rewrite (H (Z.of_nat n)) by lia.
  rewrite IH by (intros; apply H; lia). done.
Qed.

Section written.
Context (size N b : Z) (o : env -> option Z) (ρ : env).
Context (HN : 0 < N) (Hsize : size < 2 ^ 32) (Hb : 0 <= b) (Hbs : b + N <= size) (Ho : o ρ = Some b).

Lemma shifted_in k : 0 <= k < N -> shifted o (byte_index N k) ρ = Some (b + byte_index N k).
Proof.
  intros Hk. unfold shifted. rewrite Ho. cbn. pose proof (byte_index_range isLittleEndian N k Hk). by rewrite wrap_small by lia.
Qed.

(** A word that is written is read back. *)
Lemma word_written v x c :
  v ρ = Some x -> word_at isLittleEndian size N o (set_word isLittleEndian N o v c) ρ = Some (wrap (8 * N) x).
Proof.
  intros Hv. unfold word_at. destruct (set_bytes_get ρ (fun k => shifted o (byte_index N k)) (value_byte v)
    (fun k => b + byte_index N k) c (Z.to_nat N)) as [Hget _].
  { intros k Hk. apply shifted_in. lia. }
  { intros k l Hk Hl E. apply (byte_index_inj N); lia. }
  rewrite (word_value_ext _ (fun k => Some (wrap 8 (x / 2 ^ (8 * k))))).
  - rewrite word_value_bytes. by rewrite Z2Nat.id by lia.
  - intros k Hk. unfold at_index. rewrite shifted_in by lia. cbn [mbind option_bind].
    pose proof (byte_index_range isLittleEndian N k). assert ((0 <=? b + byte_index N k) && (b + byte_index N k <? size) = true) as -> by lia.
    unfold set_word. rewrite Hget by lia. unfold value_byte. by rewrite Hv.
Qed.

(** The other bytes are not changed. *)
Lemma word_other v c j : ~ (b <= j < b + N) -> set_word isLittleEndian N o v c ρ j = c ρ j.
Proof.
  intros Hj. destruct (set_bytes_get ρ (fun k => shifted o (byte_index N k)) (value_byte v)
    (fun k => b + byte_index N k) c (Z.to_nat N)) as [_ Hget].
  { intros k Hk. apply shifted_in. lia. }
  { intros k l Hk Hl E. apply (byte_index_inj N); lia. }
  apply Hget. intros k Hk. pose proof (byte_index_range isLittleEndian N k). lia.
Qed.
End written.

(** A disjoint word is not changed. *)
Lemma word_disjoint size N N' b b' o o' v c ρ :
  0 < N -> 0 < N' -> size < 2 ^ 32 -> 0 <= b -> 0 <= b' -> b + N <= size -> b' + N' <= size ->
  o ρ = Some b -> o' ρ = Some b' -> b + N <= b' \/ b' + N' <= b ->
  word_at isLittleEndian size N' o' (set_word isLittleEndian N o v c) ρ = word_at isLittleEndian size N' o' c ρ.
Proof.
  intros HN HN' Hs Hb Hb' Hbs Hbs' Ho Ho' Hd. unfold word_at. apply word_value_ext. intros k Hk. unfold at_index.
  rewrite (shifted_in size N' b') by (done || lia). cbn [mbind option_bind].
  pose proof (byte_index_range isLittleEndian N' k).
  destruct (_ && _); [|done]. apply (word_other size N b); try done. lia.
Qed.
End bytes.

Section spec.
Context {A : APInt} {L : APIntLaws A} {AR : Arrays}.
Context (opt checked : bool).
Context (Hopt : opt = true -> checked = true).
Context (UseConstantArrays isLittleEndian : bool).
Context (new_array : nat -> array -> positive) (utostr : Z -> string).
Context (new_array_ok : forall n a, arrayAt (new_array n a) = a).

Notation represents := (represents checked).
Notation Inv := (Inv checked).

(** ** Constructors *)

(** A fresh object of concrete bytes. *)
Definition new_bytes (n b : Z) (root : option positive) (os : ObjectState) : Prop :=
  concreteMask os = None /\ knownSymbolics os = None /\ flushMask os = None /\
  concreteStore os = replicate (Z.to_nat n) b /\ os_size os = n /\ updates_root os = root /\ updates_head os = UNil.

Lemma fresh_shape n b root os : size_ok n -> 0 <= b < 256 -> root_ok n root -> new_bytes n b root os -> shape os.
Proof.
  intros Hn Hb Hr (E1 & E2 & E3 & E4 & E5 & E6 & E7). subst n. unfold size_ok in Hn. split.
  - done.
  - rewrite E4, length_replicate. lia.
  - rewrite E4. by apply Forall_replicate.
  - by rewrite E1.
  - by rewrite E3.
  - by rewrite E2.
  - by rewrite E6.
  - by rewrite E7.
Qed.

Lemma fresh_represents n b root os :
  size_ok n -> 0 <= b < 256 -> root_ok n root -> new_bytes n b root os -> represents (fun _ _ => Some b) os.
Proof.
  intros Hn Hb Hr Hf. split; [by eapply fresh_shape|]. intros i Hi. destruct Hf as (E1 & E2 & E3 & E4 & E5 & E6 & E7).
  unfold byte_at, conc, known, unflushed, stored. rewrite E1, E2, E3, E4. cbn. unfold in_range, size_ok in *.
  rewrite lookup_replicate_2 by lia. cbn. split; try done; [by left|by intros _ ρ v [= <-]].
Qed.

Lemma ObjectState_new_ok size w :
  world_ok w -> size_ok size ->
  exists os w', ObjectState_new UseConstantArrays new_array utostr size w = Ok (os, w') /\
    Inv (fun _ _ => Some 0) (0, size, false) (os, w').
Proof.
  intros Hw Hs. unfold size_ok in Hs. unfold ObjectState_new. destruct UseConstantArrays.
  - eexists _, _. split; [done|]. split; [|by split]. by apply (fresh_represents size 0 None).
  - destruct (create_array_ok new_array new_array_ok ("tmp_arr" ++ utostr (wrap 32 (tmp_arrs w + 1))) size []
      (MkWorld (arrayCache w) (wrap 32 (tmp_arrs w + 1)) (const_arrs w))) as (r & w' & E & Hw' & Hr); [done|lia|done|constructor|].
    cbv zeta. rewrite E. cbn [res_bind fst snd]. eexists _, _. split; [done|]. split; [|by split].
    apply (fresh_represents size 0 (Some r)); try done. cbn. rewrite Hr. split_and!; try done.
    apply fresh_array_ok; [lia|done|constructor].
Qed.

Lemma markByteFlushed_ok os i :
  shape os -> in_range os i -> flushMask os = None \/ all_flushed os ->
  exists m, markByteFlushed i os = Ok (set_flushMask m os) /\ mask_ok (os_size os) m /\
    forall j, in_range os j -> mask_bit m j = false.
Proof.
  intros Hs Hi Hf. unfold markByteFlushed. pose proof (shape_fmask _ Hs) as Hm. destruct (flushMask os) as [m|] eqn:E.
  - destruct (mask_unset_ok os Hs i Hi m Hm) as (m' & -> & Hmo & Hb). exists (Some m'). split; [done|]. split; [done|].
    intros j Hj. rewrite Hb by done. destruct (j =? i); [done|]. destruct Hf as [Hf|Hf]; [done|].
    specialize (Hf j Hj). unfold unflushed in Hf. by rewrite E in Hf.
  - destruct (BitArray_new_ok (os_size os) (shape_size _ Hs) false) as [Ho Hb]. eexists. split; [done|]. split; [done|]. exact Hb.
Qed.

Lemma makeSymbolic_ok n b r os :
  size_ok n -> 0 <= b < 256 -> root_ok n (Some r) -> new_bytes n b (Some r) os ->
  exists os', makeSymbolic os = Ok os' /\ shape os' /\ frame os' = frame os /\ updates_root os' = Some r /\
    updates_head os' = UNil /\ all_flushed os' /\ all_evicted os'.
Proof.
  intros Hn Hb Hr Hf. pose proof (fresh_shape _ _ _ _ Hn Hb Hr Hf) as Hs. destruct Hf as (E1 & E2 & E3 & E4 & E5 & E6 & E7).
  unfold makeSymbolic. rewrite E7. unfold size_ok in Hn.
  destruct (for_range_ok (fun i os' => shape os' /\ frame os' = frame os /\ updates_root os' = Some r /\ updates_head os' = UNil /\
    knownSymbolics os' = None /\ (flushMask os' = None \/ all_flushed os') /\ (0 < i -> all_flushed os') /\
    forall j, 0 <= j < i -> conc os' j = false)
    (fun i os => let* os := markByteSymbolic i os in let* os := setKnownSymbolic i None os in markByteFlushed i os)
    (Z.to_nat (os_size os)) 0 os) as (os' & E & Hs' & Hf' & Hr' & Hh' & Hk' & _ & Hu' & Hc').
  - split_and!; try done; [by left|lia].
  - intros i os1 Hi (Hs1 & Hf1 & Hr1 & Hh1 & Hk1 & Hu1 & _ & Hc1).
    assert (in_range os1 i) as Hi1 by (apply (frame_in_range os os1); [done|]; unfold in_range; lia).
    destruct (markByteSymbolic_ok os1 Hs1 i Hi1) as (cm & -> & Hcm & Hcb). cbn [res_bind].
    unfold setKnownSymbolic. cbn [knownSymbolics set_concreteMask]. rewrite Hk1. cbn [res_bind].
    destruct (markByteFlushed_ok (set_concreteMask cm os1) i) as (fm & -> & Hfm & Hfb); [by apply shape_set_cmask|done..|].
    eexists. split; [done|]. split_and!; try done.
    + apply shape_set_fmask; [by apply shape_set_cmask|done].
    + by right.
    + intros j Hj. assert (in_range os1 j) as Hj1 by (unfold in_range in *; lia).
      change (mask_bit cm j = false). rewrite Hcb by exact Hj1. destruct (Z.eqb_spec j i); [done|]. apply Hc1. lia.
  - exists os'. split; [exact E|]. split_and!; try done.
    + intros j Hj. apply Hu'; [|done]. apply (frame_in_range os os' j Hf') in Hj. unfold in_range in Hj. lia.
    + intros j Hj. split; [|unfold known; by rewrite Hk']. apply Hc'. apply (frame_in_range os os' j Hf') in Hj.
      unfold in_range in Hj. lia.
Qed.

Lemma ObjectState_symbolic_ok size r :
  size_ok size -> root_ok size (Some r) ->
  exists os, ObjectState_symbolic size r = Ok os /\ represents (fun ρ i => array_init checked ρ r i) os /\
    frame os = (0, size, false).
Proof.
  intros Hs Hr. unfold ObjectState_symbolic.
  destruct (makeSymbolic_ok size 0 r (MkObjectState 0 (replicate (Z.to_nat size) 0) None None None (Some r) UNil size false))
    as (os & -> & Hs' & Hf & Hroot & Hh & Hu & He); [done|done|done|by split_and!|].
  cbn [res_bind]. eexists. split; [done|]. split; [|exact Hf].
  assert (os_size os = size) as Hsz by (unfold frame in Hf; cbn in Hf; congruence). unfold size_ok in Hs. split.
  - destruct Hs'. split; try done; cbn; [rewrite length_replicate; lia|by apply Forall_replicate].
  - intros i Hi. destruct (He i Hi) as [Hc Hk]. specialize (Hu i Hi). unfold byte_at.
    change (conc (fill_store 0 os) i) with (conc os i). change (known (fill_store 0 os) i) with (known os i).
    change (unflushed (fill_store 0 os) i) with (unflushed os i). rewrite Hc, Hk, Hu. split; try done. intros _ ρ v Hv.
    unfold updates_value. cbn. by rewrite Hroot, Hh.
Qed.

(** *** Resetting the contents *)

Lemma initialize_ok c os b :
  represents c os -> 0 <= b < 256 ->
  represents (fun _ _ => Some b) (fill_store b (makeConcrete os)) /\ frame (fill_store b (makeConcrete os)) = frame os.
Proof.
  intros Hr Hb. split; [|done]. pose proof (rep_shape _ _ _ Hr) as Hs. pose proof (shape_size _ Hs) as Hn. unfold size_ok in Hn.
  split.
  - destruct Hs. split; try done; cbn; [rewrite length_replicate; lia|by apply Forall_replicate].
  - intros i Hi. unfold byte_at, conc, known, unflushed, stored. cbn. unfold in_range in Hi. cbn in Hi.
    rewrite lookup_replicate_2 by lia. cbn. split; try done; [by left|by intros _ ρ v [= <-]].
Qed.

(** *** Copies *)

Lemma mask_copy_ok n m : size_ok n -> mask_ok n m -> mask_copy m n = Ok m.
Proof. intros Hn Hm. destruct m as [m|]; [|done]. cbn in *. by rewrite BitArray_copy_ok. Qed.

Lemma ObjectState_copy_ok os :
  shape os -> readOnly os = false -> ObjectState_copy os = Ok (set_owner 0 os).
Proof.
  intros [H1 H2 H3 H4 H5 H6 H7 H8] Hro. unfold ObjectState_copy. rewrite !mask_copy_ok by done. cbn [res_bind]. rewrite Hro.
  cbn [negb res_assert]. unfold size_ok in H1.
  assert (match knownSymbolics os with Some ks => (Z.to_nat (os_size os) <=? length ks)%nat | None => true end = true) as ->
    by (destruct (knownSymbolics os); [apply Nat.leb_le; lia|done]).
  assert (Z.to_nat (os_size os) <=? length (concreteStore os) = true)%nat as -> by (apply Nat.leb_le; lia). cbn [res_assert].
  unfold set_owner. rewrite Hro, take_ge by lia. destruct (knownSymbolics os) as [ks|]; [|done]. cbn. by rewrite take_ge by lia.
Qed.

Lemma represents_set_owner c os k : represents c os -> represents c (set_owner k os).
Proof. intros [Hs Hb]. split; [destruct Hs; by split|exact Hb]. Qed.

(** *** The flush for an external call *)
Section flush_to_store.
Context {X : Type} (getValue : expr -> state X (option ap)) (XInv : X -> Prop) (answer : expr -> Z -> Prop).
Context (getValue_ok : forall e, wt e -> getWidth e = 8 ->
  triple XInv (getValue e) (fun r x => XInv x /\ forall v, r = Some v -> getBitWidth v = 8 /\ answer e (uval v))).

(** What the flush may make of a byte of the store. *)
Definition flushed_byte (os : ObjectState) (i b : Z) : Prop :=
  match known os i with Some e => b = stored os i \/ answer e b | None => b = stored os i end.

(** The state after the bytes below [i]. *)
Definition flushing (c : contents) (os : ObjectState) (w : World) (i : Z) (s : (ObjectState * World) * X) : Prop :=
  let os' := fst (fst s) in
  represents c os' /\ frame os' = frame os /\ snd (fst s) = w /\ XInv (snd s) /\
  (forall j, in_range os j -> known os' j = known os j) /\
  forall j, in_range os j -> if j <? i then flushed_byte os j (stored os' j) else stored os' j = stored os j.

Lemma flushing_step c os w i s s' :
  in_range os i -> flushing c os w i s ->
  represents c (fst (fst s')) -> frame (fst (fst s')) = frame os -> snd (fst s') = w -> XInv (snd s') ->
  (forall j, in_range os j -> known (fst (fst s')) j = known (fst (fst s)) j) ->
  (forall j, in_range os j -> j <> i -> stored (fst (fst s')) j = stored (fst (fst s)) j) ->
  flushed_byte os i (stored (fst (fst s')) i) -> flushing c os w (i + 1) s'.
Proof.
  intros Hi (_ & _ & _ & _ & Hk & Hj) Hr Hf Hw Hx Hk' Hst Hb. split_and!; try done.
  - intros j Hjr. rewrite Hk' by done. by apply Hk.
  - intros j Hjr. specialize (Hj j Hjr). destruct (Z.eq_dec j i) as [->|Hne].
    + by rewrite (proj2 (Z.ltb_lt _ _)) by lia.
    + rewrite Hst by done. destruct (Z.ltb_spec j i), (Z.ltb_spec j (i + 1)); try done; lia.
Qed.

Lemma store_represents c os i b :
  represents c os -> in_range os i -> conc os i = false -> 0 <= b < 256 ->
  exists st, store_byte i b os = Ok (set_store st os) /\ represents c (set_store st os) /\
    forall j, in_range os j -> stored (set_store st os) j = if j =? i then b else stored os j.
Proof.
  intros Hr Hi Hc Hb. destruct (store_byte_ok os (rep_shape _ _ _ Hr) i Hi b Hb) as (st & E & Hs & Hst).
  exists st. split; [done|]. split; [|done]. split; [done|]. intros j Hj. pose proof (rep_bytes _ _ _ Hr j Hj) as [H1 H2 H3 H4 H5].
  unfold byte_at. rewrite Hst by done. destruct (Z.eqb_spec j i) as [->|Hne]; [|by split].
  split; try done. intros Hc' ρ v Hv. change (conc os i = true) in Hc'. congruence.
Qed.

Lemma flush_to_store_ok c os w i :
  in_range os i ->
  triple (flushing c os w i) (flush_to_store opt new_array utostr getValue i) (fun _ s => flushing c os w (i + 1) s).
Proof.
  intros Hi [[os1 w1] x] HP. pose proof HP as (Hr & Hf & Hw & Hx & Hk & Hj). cbn [fst snd] in *.
  assert (in_range os1 i) as Hi1 by (by apply (frame_in_range os os1)).
  pose proof (rep_shape _ _ _ Hr) as Hs. unfold flush_to_store, sbind, on_fst, ask. cbn [fst snd].
  unfold isByteKnownSymbolic. rewrite known_at_ok by done. cbn [res_bind fst snd].
  assert (stored os1 i = stored os i) as Hst by (specialize (Hj i Hi); by rewrite Z.ltb_irrefl in Hj).
  destruct (known os1 i) as [e|] eqn:Ek.
  2: { eexists _, _. split; [done|]. apply (flushing_step c os w i _ _ Hi HP); try done. unfold flushed_byte. cbn [fst].
       by rewrite <- Hk, Ek by done. }
  pose proof (rep_bytes _ _ _ Hr i Hi1) as [B1 B2 B3 B4 B5]. destruct (B4 e Ek) as (Hew & Hewd & _).
  assert (conc os1 i = false) as Hc by (destruct (conc os1 i); [by rewrite B1 in Ek|done]).
  assert (read8 opt new_array utostr i (os1, w1) = Ok (e, (os1, w1))) as Er.
  { unfold read8, sbind, ask. cbn [fst]. rewrite isByteConcrete_ok by done. cbn [res_bind fst snd]. rewrite Hc.
    rewrite known_at_ok by done. cbn [res_bind fst snd]. by rewrite Ek. }
  cbn [res_bind fst snd]. rewrite Er. cbn [res_bind fst snd]. unfold on_snd. cbn [fst snd].
  destruct (getValue_ok e Hew Hewd x Hx) as (r & x' & -> & Hx' & Ha). cbn [res_bind fst snd].
  destruct r as [v|].
  - destruct (Ha v eq_refl) as [Hvw Hva]. unfold slift, getZExtValue. rewrite Hvw. change (8 <=? 8) with true. cbn [res_assert res_bind fst snd].
    pose proof (uval_range v ltac:(lia)) as Hv. rewrite Hvw in Hv.
    destruct (store_represents c os1 i (uval v) Hr Hi1 Hc Hv) as (st & E & Hr' & Hst').
    unfold change. cbn [fst snd]. rewrite E. cbn [res_bind fst snd]. eexists _, _. split; [done|].
    apply (flushing_step c os w i _ _ Hi HP); try done; cbn [fst].
    + intros j Hjr Hne. rewrite Hst' by (by apply (frame_in_range os os1)). by rewrite (proj2 (Z.eqb_neq _ _) Hne).
    + unfold flushed_byte. rewrite Hst' by done. rewrite Z.eqb_refl, <- Hk, Ek by done. by right.
  - eexists _, _. split; [done|]. apply (flushing_step c os w i _ _ Hi HP); try done. unfold flushed_byte. cbn [fst].
    rewrite <- Hk, Ek by done. by left.
Qed.

Lemma flush_loop_ok c os w n : forall i,
  0 <= i -> i + Z.of_nat n = os_size os ->
  triple (flushing c os w i) (flush_to_store_loop opt new_array utostr getValue n i) (fun _ s => flushing c os w (os_size os) s).
Proof.
  induction n as [|n IH]; intros i Hi Hn; cbn [flush_to_store_loop].
  - apply triple_ret. intros s Hs. by replace (os_size os) with i by lia.
  - eapply triple_bind; [apply flush_to_store_ok; unfold in_range; lia|]. intros []. apply IH; lia.
Qed.
End flush_to_store.
End spec.

(** ** Properties *)
Section theorems.
Context {A : APInt} {L : APIntLaws A} {AR : Arrays}.
Context (opt checked : bool).
Context (UseConstantArrays isLittleEndian : bool).
Context (new_array : nat -> array -> positive) (utostr : Z -> string).

(** An access of [w] bits at an offset, in an object of [size] bytes. *)
Definition access_ok (size w : Z) (offset : expr) : Prop :=
  access_width w /\ w < 2 ^ 32 /\ offset_ok size (access_bytes w) offset.

Lemma access_bytes_bound w : access_width w -> w < 2 ^ 32 -> 0 < access_bytes w <= 2 ^ 32.
Proof. intros Hw Hb. destruct (access_cases w Hw) as [[_ ->]|(? & ? & _)]; lia. Qed.

Lemma Inv_size c fr s : Inv checked c fr s -> size_ok (frame_size fr).
Proof. intros (Hr & <- & _). apply (shape_size _ (rep_shape _ _ _ Hr)). Qed.

(** C20. An object state implements an array of bytes whose contents may differ
    between environments: a read of any width, at a constant or a symbolic
    offset, returns an expression with the value of the word there, and changes
    no contents; a write changes them as a write of the array does.  No
    assertion fails and no byte outside the object is touched, through every
    combination of concrete, symbolic and flushed bytes, and the lazily created
    constant array changes nothing. *)
Theorem object_state_refines c fr s :
  (opt = true -> checked = true) -> (forall n a, arrayAt (new_array n a) = a) -> Inv checked c fr s ->
  (forall offset w, access_ok (frame_size fr) w offset ->
     exists e s', read_at opt isLittleEndian new_array utostr offset w s = Ok (Some e, s') /\ Inv checked c fr s' /\
       wt e /\ getWidth e = w /\
       forall ρ x, word_at isLittleEndian (frame_size fr) (access_bytes w) (offset32 checked offset) c ρ = Some x ->
         denote checked ρ e = Some (wrap w x)) /\
  (forall offset value, wt value -> access_ok (frame_size fr) (getWidth value) offset ->
     exists s', write_at opt isLittleEndian offset value s = Ok (tt, s') /\
       Inv checked (set_word isLittleEndian (access_bytes (getWidth value)) (offset32 checked offset)
         (fun ρ => denote checked ρ value) c) fr s').
Proof.
  intros Hopt Hn HI. pose proof (Inv_size c fr s HI) as Hs. split.
  - intros offset w (Hw & Hb & Ho). pose proof (access_bytes_bound w Hw Hb).
    destruct (read_at_ok opt checked Hopt isLittleEndian new_array utostr Hn c fr offset w Hs Hw ltac:(lia) Ho s HI)
      as (r & s' & E & HI' & e & -> & He & Hew & Hd). exists e, s'. by split_and!.
  - intros offset value Hv (Hw & Hb & Ho). pose proof (access_bytes_bound _ Hw Hb).
    destruct (write_at_ok opt checked Hopt isLittleEndian c fr offset value Hs Hv Hw ltac:(lia) Ho s HI) as ([] & s' & E & HI').
    by exists s'.
Qed.

Lemma word_at_offset size N o o' c ρ :
  o ρ = o' ρ -> word_at isLittleEndian size N o c ρ = word_at isLittleEndian size N o' c ρ.
Proof. intros E. unfold word_at. apply word_value_ext. intros k _. unfold at_index, shifted. by rewrite E. Qed.

Lemma offset32_range offset ρ b : offset32 checked offset ρ = Some b -> 0 <= b < 2 ^ 32.
Proof. intros H. apply bind_Some in H as (x & _ & [= <-]). by apply wrap_range. Qed.

(** Reading back what was written: in every environment in which the two
    offsets are in bounds and equal, a read of the width that was written
    returns the value; where the two ranges are disjoint, it returns what was
    there before.  The byte order is the same both ways, and one offset may be
    constant where the other is symbolic. *)
Theorem object_write_read c fr s offset value offset' w' :
  (opt = true -> checked = true) -> (forall n a, arrayAt (new_array n a) = a) -> Inv checked c fr s ->
  wt value -> access_ok (frame_size fr) (getWidth value) offset -> access_ok (frame_size fr) w' offset' ->
  exists s' e s'', write_at opt isLittleEndian offset value s = Ok (tt, s') /\
    read_at opt isLittleEndian new_array utostr offset' w' s' = Ok (Some e, s'') /\ wt e /\ getWidth e = w' /\
    forall ρ b b', offset32 checked offset ρ = Some b -> offset32 checked offset' ρ = Some b' ->
      b + access_bytes (getWidth value) <= frame_size fr -> b' + access_bytes w' <= frame_size fr ->
      (b = b' -> w' = getWidth value -> forall x, denote checked ρ value = Some x -> denote checked ρ e = Some x) /\
      (b + access_bytes (getWidth value) <= b' \/ b' + access_bytes w' <= b -> forall x,
         word_at isLittleEndian (frame_size fr) (access_bytes w') (offset32 checked offset') c ρ = Some x ->
         denote checked ρ e = Some (wrap w' x)).
Proof.
  intros Hopt Hn HI Hv (Hw & Hwb & Ho) (Hw' & Hwb' & Ho'). pose proof (Inv_size c fr s HI) as Hs. unfold size_ok in Hs.
  pose proof (access_bytes_bound _ Hw Hwb) as HN. pose proof (access_bytes_bound _ Hw' Hwb') as HN'.
  destruct (write_at_ok opt checked Hopt isLittleEndian c fr offset value Hs Hv Hw ltac:(lia) Ho s HI) as ([] & s1 & E1 & HI1).
  destruct (read_at_ok opt checked Hopt isLittleEndian new_array utostr Hn _ fr offset' w' Hs Hw' ltac:(lia) Ho' s1 HI1)
    as (r & s2 & E2 & _ & e & -> & He & Hew & Hd).
  exists s1, e, s2. split_and!; try done. intros ρ b b' Eb Eb' Hbs Hbs'.
  pose proof (offset32_range _ _ _ Eb). pose proof (offset32_range _ _ _ Eb'). split.
  - intros <- -> x Hx. unfold written in Hd.
    rewrite (Hd ρ (wrap (8 * access_bytes (getWidth value)) x)).
    + f_equal. pose proof (denote_range checked value ρ x Hv Hx) as Hr.
      destruct (access_cases _ Hw) as [[Ew Ea]|(_ & Ew & _)].
      * rewrite Ea, Ew. rewrite Ew in Hr. rewrite (wrap_small (8 * 1)); [by apply wrap_small|]. change (2 ^ (8 * 1)) with 256. lia.
      * rewrite Ew at 1. replace (8 * access_bytes (getWidth value)) with (access_bytes (getWidth value) * 8) by lia.
        rewrite wrap_wrap by lia. apply wrap_small. by rewrite <- Ew.
    + rewrite (word_at_offset _ _ _ (offset32 checked offset)) by congruence.
      apply (word_written isLittleEndian _ _ b); try done; lia.
  - intros Hdis x Hx. apply Hd. unfold written. rewrite (word_disjoint isLittleEndian _ _ _ b b'); try done; lia.
Qed.

(** Every way to make an object state gives one that represents its
    contents: zeros for a new object, with or without [-use-constant-arrays],
    the initial bytes of the array for a symbolic one, the same contents for a
    copy, which is not owned by any address space, and zeros or 0xAB after an
    initialization. *)
Theorem object_state_creation size w r c fr s :
  (forall n a, arrayAt (new_array n a) = a) -> world_ok w -> size_ok size ->
  wt_array (arrayAt r) -> domain (arrayAt r) = 32 -> range (arrayAt r) = 8 -> Expr.size (arrayAt r) = size ->
  Inv checked c fr s -> snd fr = false ->
  (exists os w', ObjectState_new UseConstantArrays new_array utostr size w = Ok (os, w') /\
     Inv checked (fun _ _ => Some 0) (0, size, false) (os, w')) /\
  (exists os, ObjectState_symbolic size r = Ok os /\
     Inv checked (fun ρ i => array_init checked ρ r i) (0, size, false) (os, w)) /\
  (exists os, ObjectState_copy (fst s) = Ok os /\ Inv checked c (0, frame_size fr, false) (os, snd s)) /\
  Inv checked (fun _ _ => Some 0) fr (initializeToZero (fst s), snd s) /\
  Inv checked (fun _ _ => Some 171) fr (initializeToRandom (fst s), snd s).
Proof.
  intros Hn Hw Hs Ha Hd Hrg Hsz (Hr & Hf & Hw') Hro. split; [by apply ObjectState_new_ok|]. split; [|split; [|split]].
  - destruct (ObjectState_symbolic_ok checked size r Hs) as (os & E & Hrep & Hfr); [by split_and!|]. exists os. by split_and!.
  - rewrite ObjectState_copy_ok; [|apply (rep_shape _ _ _ Hr)|rewrite <- Hf in Hro; exact Hro]. eexists. split; [done|].
    split; [by apply represents_set_owner|]. split; [|done]. unfold frame. cbn. rewrite <- Hf in *. cbn in *. by rewrite Hro.
  - destruct (initialize_ok checked c (fst s) 0 Hr) as [Hi Hfi]; [lia|]. split; [exact Hi|]. split; [|done]. cbn [fst]. etrans; [exact Hfi|exact Hf].
  - destruct (initialize_ok checked c (fst s) 171 Hr) as [Hi Hfi]; [lia|]. split; [exact Hi|]. split; [|done]. cbn [fst]. etrans; [exact Hfi|exact Hf].
Qed.

(** The flush before an external call changes no contents, and writes to
    the concrete store, for every byte whose expression is known, a value the
    solver gave for it (or leaves the byte, when the solver fails).  Every other
    byte of the store is left, those that are symbolic but known only to the
    update list included. *)
Theorem flush_to_store_sound {X} (getValue : expr -> state X (option ap)) (XInv : X -> Prop) (answer : expr -> Z -> Prop) c fr s x :
  (forall e, wt e -> getWidth e = 8 ->
     triple XInv (getValue e) (fun r x => XInv x /\ forall v, r = Some v -> getBitWidth v = 8 /\ answer e (uval v))) ->
  Inv checked c fr s -> XInv x ->
  exists os x', flushToConcreteStore opt new_array utostr getValue (s, x) = Ok (tt, (os, snd s, x')) /\
    Inv checked c fr (os, snd s) /\ XInv x' /\
    forall i, 0 <= i < frame_size fr ->
      match known (fst s) i with
      | Some e => stored os i = stored (fst s) i \/ answer e (stored os i)
      | None => stored os i = stored (fst s) i
      end.
Proof.
  intros Hg (Hr & Hf & Hw) Hx. unfold flushToConcreteStore. cbn [fst].
  pose proof (shape_size _ (rep_shape _ _ _ Hr)) as Hn. unfold size_ok in Hn.
  destruct (flush_loop_ok opt checked new_array utostr getValue XInv answer Hg c (fst s) (snd s) (Z.to_nat (os_size (fst s))) 0)
    with (s := (s, x)) as ([] & [[os w] x'] & E & Hr' & Hf' & Hw' & Hx' & _ & Hj); [lia|lia| |].
  { split_and!; try done. intros j Hj. destruct (Z.ltb_spec j 0); [unfold in_range in Hj; lia|done]. }
  cbn [fst snd] in *. subst w. exists os, x'. split; [exact E|]. split; [split_and!; [done|cbn [fst]; congruence|done]|].
  split; [done|]. intros i Hi. assert (in_range (fst s) i) as Hin by (unfold in_range; rewrite <- Hf in Hi; exact Hi).
  specialize (Hj i Hin). rewrite (proj2 (Z.ltb_lt _ _)) in Hj by (unfold in_range in Hin; lia). exact Hj.
Qed.
End theorems.

(** ** Witnesses *)
Section witnesses.
Import ArraySamples.
#[local] Existing Instance sample_store.

Definition no_names (n : Z) : string := "".
Definition start : World := MkWorld no_arrays 0 0.
Definition x_array : positive := sample_new_array 0 (@Array bv_apint "x" 4 32 8 []).
(* x[0], as an offset *)
Definition x_offset : expr := Cast ZExt (Read x_array UNil (Constant (BV 32 0))) 32.
Definition two_bytes : @expr bv_apint := Constant (BV 16 513).
Definition ones : env := fun _ _ => 1.

Lemma x_array_at : arrayAt x_array = Array "x" 4 32 8 [].
Proof. apply sample_store_ok. Qed.

Lemma x_array_wt : wt_array (arrayAt x_array).
Proof. rewrite x_array_at. apply fresh_array_ok; [lia|done|constructor]. Qed.

Lemma x_array_root : root_ok 4 (Some x_array).
Proof. split; [apply x_array_wt|]. by rewrite x_array_at. Qed.

Lemma start_ok : world_ok start.
Proof. apply no_arrays_ok. Qed.

Lemma four_ok : size_ok 4.
Proof. unfold size_ok. lia. Qed.

Lemma x_offset_wt : wt x_offset /\ getWidth x_offset = 32.
Proof.
  cbn [x_offset wt wt_updates getWidth]. pose proof x_array_wt as Ha. rewrite x_array_at in *. cbn. split_and!; try done; lia.
Qed.

Lemma x_offset_ok : access_ok 4 16 x_offset.
Proof.
  destruct x_offset_wt as [Hw Hwd]. split; [right; exists 2; lia|]. split; [lia|]. split; [done|]. intros o Ho.
  unfold ZExtExpr_create in Ho. rewrite Hwd in Ho. cbn in Ho. by injection Ho as <-.
Qed.

Lemma x_offset_value : offset32 false x_offset ones = Some 1.
Proof.
  unfold offset32. cbn [x_offset denote]. cbn [mbind option_bind denote_updates uval bv_apint].
  rewrite array_init_symbolic by (by rewrite x_array_at). by rewrite x_array_at.
Qed.

Lemma sample_object :
  exists os, ObjectState_symbolic 4 x_array = Ok os /\
    Inv false (fun ρ i => array_init false ρ x_array i) (0, 4, false) (os, start).
Proof.
  destruct (ObjectState_symbolic_ok false 4 x_array four_ok x_array_root) as (os & E & Hr & Hf). exists os.
  split; [done|]. split; [done|]. split; [done|apply start_ok].
Qed.

Lemma object_state_refines_witness :
  exists os e s', ObjectState_symbolic 4 x_array = Ok os /\
    read_at false true sample_new_array no_names x_offset 16 (os, start) = Ok (Some e, s') /\
    denote false ones e = Some 257.
Proof.
  destruct sample_object as (os & E & HI).
  destruct (object_state_refines false false true sample_new_array no_names _ _ _ (fun H => H) sample_store_ok HI) as [Hread _].
  destruct (Hread x_offset 16 x_offset_ok) as (e & s' & Er & _ & _ & _ & Hd).
  exists os, e, s'. split; [exact E|]. split; [exact Er|]. rewrite (Hd ones 257); [reflexivity|].
  cbv beta. unfold word_at. change (Z.to_nat (access_bytes 16)) with 2%nat. cbn [word_value]. unfold at_index, shifted.
  rewrite x_offset_value. cbn [mbind option_bind].
  rewrite !array_init_symbolic by (by rewrite x_array_at). rewrite x_array_at. reflexivity.
Defined.

Lemma object_write_read_witness :
  exists os s' e s'', ObjectState_symbolic 4 x_array = Ok os /\
    write_at false true x_offset two_bytes (os, start) = Ok (tt, s') /\
    read_at false true sample_new_array no_names x_offset 16 s' = Ok (Some e, s'') /\ denote false ones e = Some 513.
Proof.
  destruct sample_object as (os & E & HI).
  destruct (object_write_read false false true sample_new_array no_names _ _ _ x_offset two_bytes x_offset 16
    (fun H => H) sample_store_ok HI) as (s' & e & s'' & Ew & Er & _ & _ & Hd).
  - cbn. lia.
  - exact x_offset_ok.
  - exact x_offset_ok.
  - exists os, s', e, s''. split; [exact E|]. split; [exact Ew|]. split; [exact Er|].
    destruct (Hd ones 1 1) as [Hsame _]; [apply x_offset_value|apply x_offset_value|by vm_compute|by vm_compute|].
    by apply (Hsame eq_refl eq_refl 513).
Defined.

Lemma object_state_creation_witness :
  exists os w', ObjectState_new true sample_new_array no_names 4 start = Ok (os, w') /\
    Inv false (fun _ _ => Some 0) (0, 4, false) (os, w').
Proof.
  destruct sample_object as (os & _ & HI).
  destruct (object_state_creation false true sample_new_array no_names 4 start x_array _ _ _ sample_store_ok start_ok four_ok
    x_array_wt (proj1 (proj2 x_array_root)) (proj1 (proj2 (proj2 x_array_root))) (proj2 (proj2 (proj2 x_array_root))) HI eq_refl)
    as (H & _). exact H.
Defined.

(** A solver that always answers 7. *)
Definition sevens (e : @expr bv_apint) : state unit (option (@ap bv_apint)) := sret (Some (BV 8 7)).

Lemma flush_to_store_sound_witness :
  exists os os' w x', ObjectState_symbolic 4 x_array = Ok os /\
    flushToConcreteStore false sample_new_array no_names sevens (os, start, tt) = Ok (tt, (os', w, x')).
Proof.
  destruct sample_object as (os & E & HI).
  destruct (flush_to_store_sound false false sample_new_array no_names sevens (fun _ => True) (fun _ v => v = 7)
    (fun ρ i => array_init false ρ x_array i) (0, 4, false) (os, start) tt)
    as (os' & x' & Ef & _); [|exact HI|done|exists os, os', start, x'; split; [exact E|exact Ef]].
  intros e _ _ s _. exists (Some (BV 8 7)), s. split; [done|]. split; [done|]. intros v [= <-]. done.
Defined.

(** The bytes of a symbolic object are known to its update list only, so the
    flush writes none of them: an external call sees zeros. *)
Lemma symbolic_bytes_not_flushed :
  match ObjectState_symbolic 4 x_array with
  | Ok os =>
      match flushToConcreteStore false sample_new_array no_names sevens (os, start, tt) with
      | Ok (_, (os', _, _)) => concreteStore os' = [0; 0; 0; 0]
      | _ => False
      end
  | _ => False
  end.
Proof. reflexivity. Qed.
End witnesses.
