(* ===== verification/MemoryObject.v ===== *)
(** Memory objects: class [MemoryObject] of klee/lib/Core/Memory.h, an
    allocation of the program, and the expressions that check accesses to it.

    The allocation site is an address, 0 for none.  The name, the list of
    preferences for test cases and the manager are not modelled. *)
From Stdlib Require Import ZArith Lia Bool.
From stdpp Require Import base list numbers option.
From S2P Require Import Prelude APInt Expr ExprCreate ExprSem ExprCreateCorrect.
Open Scope Z_scope.

Record MemoryObject : Type := MkMemoryObject {
  mo_id : Z;
  mo_address : Z;
  mo_size : Z;
  mo_isLocal : bool;
  mo_isGlobal : bool;
  mo_isFixed : bool;
  mo_isUserSpecified : bool;
  mo_allocSite : Z;
}.

(* MemoryObject(address): a key for lookups *)
Definition MemoryObject_hack (counter address : Z) : MemoryObject :=
  MkMemoryObject counter address 0 false false true false 0.

(* MemoryObject(address, size, ...) *)
Definition MemoryObject_new (counter address size : Z) (isLocal isGlobal isFixed : bool) (allocSite : Z) : MemoryObject :=
  MkMemoryObject counter address size isLocal isGlobal isFixed false allocSite.

(** [MemoryObject::compare]. *)
Definition mo_compare (a b : MemoryObject) : Z :=
  if mo_id a =? mo_id b then 0
  else if negb (mo_address a =? mo_address b) then (if mo_address a <? mo_address b then -1 else 1)
  else if negb (mo_size a =? mo_size b) then (if mo_size a <? mo_size b then -1 else 1)
  else if negb (mo_allocSite a =? mo_allocSite b) then (if mo_allocSite a <? mo_allocSite b then -1 else 1)
  else 0.

Section bounds.
Context {A : APInt} {AR : Arrays}.
Context (ConstArrayOpt : bool).
(* Context::get().getPointerWidth() *)
Context (PointerWidth : Z).

Definition getBaseExpr (mo : MemoryObject) : res expr := const_create (mo_address mo) PointerWidth.
Definition getSizeExpr (mo : MemoryObject) : res expr := const_create (mo_size mo) PointerWidth.

Definition getOffsetExpr (mo : MemoryObject) (pointer : expr) : res expr :=
  let* base := getBaseExpr mo in BinaryExpr_create ConstArrayOpt Sub pointer base.

(* getBoundsCheckOffset(offset) *)
Definition getBoundsCheckOffset (mo : MemoryObject) (offset : expr) : res expr :=
  if mo_size mo =? 0 then BinaryExpr_create ConstArrayOpt Eq offset (const_alloc 0 PointerWidth)
  else let* size := getSizeExpr mo in BinaryExpr_create ConstArrayOpt Ult offset size.

(* getBoundsCheckOffset(offset, bytes) *)
Definition getBoundsCheckOffset_bytes (mo : MemoryObject) (offset : expr) (bytes : Z) : res expr :=
  if bytes <=? mo_size mo then
    BinaryExpr_create ConstArrayOpt Ult offset (const_alloc (wrap 32 (mo_size mo - bytes + 1)) PointerWidth)
  else Ok (const_alloc 0 Bool_w).

Definition getBoundsCheckPointer (mo : MemoryObject) (pointer : expr) : res expr :=
  let* offset := getOffsetExpr mo pointer in getBoundsCheckOffset mo offset.

Definition getBoundsCheckPointer_bytes (mo : MemoryObject) (pointer : expr) (bytes : Z) : res expr :=
  let* offset := getOffsetExpr mo pointer in getBoundsCheckOffset_bytes mo offset bytes.

End bounds.

(** ** Correctness *)

(** The address is in the object; an object of no bytes has its address. *)
Definition in_object (mo : MemoryObject) (p : Z) : bool :=
  if mo_size mo =? 0 then p =? mo_address mo else (mo_address mo <=? p) && (p <? mo_address mo + mo_size mo).

(** [bytes] bytes at the address are. *)
Definition range_in_object (mo : MemoryObject) (p bytes : Z) : bool :=
  (mo_address mo <=? p) && (p + bytes <=? mo_address mo + mo_size mo).

(** The object lies in the address space. *)
Definition placed (PointerWidth : Z) (mo : MemoryObject) : Prop :=
  0 <= mo_address mo /\ 0 <= mo_size mo < 2 ^ 32 /\ mo_size mo < 2 ^ PointerWidth /\
  mo_address mo < 2 ^ PointerWidth /\ mo_address mo + mo_size mo <= 2 ^ PointerWidth.

Section correct.
Context {A : APInt} {L : APIntLaws A} {AR : Arrays}.
Context (opt checked : bool).
Context (Hopt : opt = true -> checked = true).
Context (W : Z) (HW : 0 < W <= 64).

Lemma pointer_pow : 2 ^ W <= 2 ^ 64.
Proof. apply Z.pow_le_mono_r; lia. Qed.

Lemma pointer_const v : 0 <= v < 2 ^ W ->
  const_create v W = Ok (const_alloc v W) /\ wt (const_alloc v W) /\ getWidth (const_alloc v W) = W /\
  forall ρ, denote checked ρ (const_alloc v W) = Some v.
Proof.
  intros Hv. pose proof pointer_pow. split_and!; [by apply const_create_ok|apply wt_const_alloc; lia|apply width_const_alloc; lia|].
  intros ρ. rewrite denote_const_alloc, wrap_small by lia. done.
Qed.

(** A binary operator of an expression and a pointer constant. *)
Lemma pointer_binary k l r w :
  wt l -> getWidth l = W -> 0 <= r < 2 ^ W -> is_div k = false -> bin_width k W = w ->
  implements checked (BinaryExpr_create opt k l (const_alloc r W)) w
    (fun ρ => x ← denote checked ρ l; bin_sem k W x r).
Proof.
  intros Hl Hw Hr Hk <-. destruct (pointer_const r Hr) as (_ & Hcw & Hcd & Hcv).
  eapply implements_weaken; [rewrite <- Hw at 2; apply (BinaryExpr_create_ok opt checked Hopt); try done; [congruence|]|].
  - unfold div_ok. destruct l; try done. intros E. congruence.
  - intros ρ v. unfold bin_den. rewrite Hcv, Hw. by destruct (denote checked ρ l).
Qed.

Lemma getOffsetExpr_ok mo p :
  placed W mo -> wt p -> getWidth p = W ->
  implements checked (getOffsetExpr opt W mo p) W (fun ρ => v ← denote checked ρ p; Some (wrap W (v - mo_address mo))).
Proof.
  intros (Ha & _ & _ & Hb & _) Hp Hw. unfold getOffsetExpr, getBaseExpr. destruct (pointer_const (mo_address mo)) as (-> & _); [lia|].
  cbn [res_bind]. eapply implements_weaken; [by apply (pointer_binary Sub p (mo_address mo) W)|]. done.
Qed.

Lemma offset_in mo v : placed W mo -> 0 <= v < 2 ^ W -> mo_size mo <> 0 -> 
  (wrap W (v - mo_address mo) <? mo_size mo) = (mo_address mo <=? v) && (v <? mo_address mo + mo_size mo).
Proof.
  intros (Ha & Hs & Hs' & Hb & Hend) Hv Hne. destruct (Z.leb_spec (mo_address mo) v).
  - rewrite wrap_small by lia. apply eq_true_iff_eq. rewrite andb_true_iff, !Z.ltb_lt. lia.
  - assert (wrap W (v - mo_address mo) = v - mo_address mo + 2 ^ W) as ->.
    { unfold wrap. symmetry. apply (Z.mod_unique_pos _ _ (-1)); lia. }
    apply Z.ltb_ge. lia.
Qed.

Lemma getBoundsCheckPointer_ok mo p :
  placed W mo -> wt p -> getWidth p = W ->
  implements checked (getBoundsCheckPointer opt W mo p) 1 (fun ρ => v ← denote checked ρ p; Some (Z.b2z (in_object mo v))).
Proof.
  intros Hpl Hp Hw. unfold getBoundsCheckPointer. pose proof Hpl as (Ha & Hs & Hs' & Hb & Hend).
  eapply implements_bind; [by apply getOffsetExpr_ok|]. intros o Ho Hod Hden. unfold getBoundsCheckOffset, in_object.
  destruct (Z.eqb_spec (mo_size mo) 0) as [E|E].
  - eapply implements_weaken; [apply (pointer_binary Eq o 0 1); try done; lia|]. intros ρ x Hx. cbv beta in Hx |- *.
    destruct (denote checked ρ p) as [v|] eqn:Ev; [|done]. injection Hx as <-.
    rewrite (Hden ρ (wrap W (v - mo_address mo))) by (by rewrite Ev). cbn. do 2 f_equal.
    pose proof (denote_range checked p ρ v Hp Ev) as Hr. rewrite Hw in Hr.
    destruct (Z.eqb_spec v (mo_address mo)) as [->|Hne]; [by rewrite Z.sub_diag|]. apply Z.eqb_neq. unfold wrap.
    intros H0. apply Z.mod_divide in H0 as [q Hq]; [|lia]. assert (q = 0) by nia. lia.
  - unfold getSizeExpr. destruct (pointer_const (mo_size mo)) as (-> & _); [lia|]. cbn [res_bind].
    eapply implements_weaken; [apply (pointer_binary Ult o (mo_size mo) 1); try done; lia|]. intros ρ x Hx. cbv beta in Hx |- *.
    destruct (denote checked ρ p) as [v|] eqn:Ev; [|done]. injection Hx as <-.
    rewrite (Hden ρ (wrap W (v - mo_address mo))) by (by rewrite Ev). cbn. do 2 f_equal.
    pose proof (denote_range checked p ρ v Hp Ev) as Hr. rewrite Hw in Hr. by apply offset_in.
Qed.

Lemma getBoundsCheckPointer_bytes_ok mo p bytes :
  placed W mo -> wt p -> getWidth p = W -> 0 < bytes < 2 ^ 32 ->
  implements checked (getBoundsCheckPointer_bytes opt W mo p bytes) 1
    (fun ρ => v ← denote checked ρ p; Some (Z.b2z (range_in_object mo v bytes))).
Proof.
  intros Hpl Hp Hw Hbytes. unfold getBoundsCheckPointer_bytes. pose proof Hpl as (Ha & Hs & Hs' & Hb & Hend).
  eapply implements_bind; [by apply getOffsetExpr_ok|]. intros o Ho Hod Hden. unfold getBoundsCheckOffset_bytes, range_in_object.
  destruct (Z.leb_spec bytes (mo_size mo)) as [Hle|Hgt].
  - rewrite (wrap_small 32) by lia.
    eapply implements_weaken; [apply (pointer_binary Ult o (mo_size mo - bytes + 1) 1); try done; lia|]. intros ρ x Hx. cbv beta in Hx |- *.
    destruct (denote checked ρ p) as [v|] eqn:Ev; [|done]. injection Hx as <-.
    rewrite (Hden ρ (wrap W (v - mo_address mo))) by (by rewrite Ev). cbn. do 2 f_equal.
    pose proof (denote_range checked p ρ v Hp Ev) as Hr. rewrite Hw in Hr.
    destruct (Z.leb_spec (mo_address mo) v).
    + rewrite wrap_small by lia. apply eq_true_iff_eq. cbn [andb]. rewrite Z.ltb_lt, Z.leb_le. lia.
    + assert (wrap W (v - mo_address mo) = v - mo_address mo + 2 ^ W) as ->.
      { unfold wrap. symmetry. apply (Z.mod_unique_pos _ _ (-1)); lia. }
      apply Z.ltb_ge. lia.
  - apply implements_ok; [by apply wt_const_alloc|by apply width_const_alloc|]. intros ρ x Hx. cbv beta in Hx.
    destruct (denote checked ρ p) as [v|] eqn:Ev; [|done]. injection Hx as <-.
    rewrite denote_const_alloc by (unfold Bool_w; lia). f_equal.
    assert ((mo_address mo <=? v) && (v + bytes <=? mo_address mo + mo_size mo) = false) as ->; [|done].
    apply andb_false_iff. destruct (Z.leb_spec (mo_address mo) v); [right|by left]. apply Z.leb_gt. lia.
Qed.
End correct.

(** ** Properties *)

(** C25. The bounds checks of a memory object are exact: the expression is true
    of a pointer exactly in the environments in which it points into the object
    (at an object of no bytes, to its address), and the check of an access of
    [bytes] bytes exactly where all of them are in the object, wrap-around of
    the address space included. *)
Theorem bounds_check_exact `{A : APInt} {L : APIntLaws A} {AR : Arrays} (opt checked : bool) W mo p bytes :
  (opt = true -> checked = true) -> 0 < W <= 64 -> placed W mo -> wt p -> getWidth p = W -> 0 < bytes < 2 ^ 32 ->
  (exists e, getBoundsCheckPointer opt W mo p = Ok e /\ wt e /\ getWidth e = 1 /\
     forall ρ v, denote checked ρ p = Some v -> denote checked ρ e = Some (Z.b2z (in_object mo v))) /\
  (exists e, getBoundsCheckPointer_bytes opt W mo p bytes = Ok e /\ wt e /\ getWidth e = 1 /\
     forall ρ v, denote checked ρ p = Some v -> denote checked ρ e = Some (Z.b2z (range_in_object mo v bytes))).
Proof.
  intros Hopt HW Hpl Hp Hw Hb. split.
  - destruct (getBoundsCheckPointer_ok opt checked Hopt W HW mo p Hpl Hp Hw) as (e & E & He & Hew & Hd). exists e.
    split_and!; try done. intros ρ v Hv. apply Hd. by rewrite Hv.
  - destruct (getBoundsCheckPointer_bytes_ok opt checked Hopt W HW mo p bytes Hpl Hp Hw Hb) as (e & E & He & Hew & Hd). exists e.
    split_and!; try done. intros ρ v Hv. apply Hd. by rewrite Hv.
Qed.

Section witnesses.
#[local] Existing Instance Examples.arrays.

Definition sample_mo : MemoryObject := MemoryObject_new 1 4096 8 true false false 0.

Lemma sample_placed : placed 16 sample_mo.
Proof. unfold placed. cbn. lia. Qed.

(* a pointer whose high byte is the constant 16 and whose low byte is a[0] *)
Definition sample_pointer : expr := Concat (Constant (Examples.byte 16)) (Examples.a_at 0).

Lemma bounds_check_exact_witness :
  exists e, getBoundsCheckPointer_bytes false 16 sample_mo sample_pointer 4 = Ok e /\ denote false Examples.fives e = Some 0.
Proof.
  destruct (bounds_check_exact false false 16 sample_mo sample_pointer 4) as [_ (e & E & _ & _ & Hd)].
  - done.
  - lia.
  - exact sample_placed.
  - split; [cbn; lia|exact (Examples.wt_a_at 0)].
  - reflexivity.
  - lia.
  - exists e. split; [exact E|]. apply (Hd Examples.fives 4101). reflexivity.
Defined.
End witnesses.
