(* ===== verification/TimingSolver.v ===== *)
(** The executor's access to the solver chain: klee/lib/Core/TimingSolver.cpp.

    Every question is asked under the constraints of a state.  Constants are
    answered without the solver; other expressions are first simplified with
    the equalities among the constraints, when [simplifyExprs] is set.  The
    proofs use the simplification through its contract [Simplifier], which
    [ConstraintManager::simplifyExpr] of [Constraints.v] meets; the time and cost
    statistics are left out. *)
From Stdlib Require Import ZArith Lia Bool.
From stdpp Require Import base list numbers option.
From S2P Require Import Prelude APInt Expr ExprCreate ExprSem ExprCreateCorrect Solver Constraints.
Open Scope Z_scope.

Section timing.
Context {A : APInt} {AR : Arrays}.
Context (ConstArrayOpt : bool).
Context (simplifyExpr : list expr -> expr -> res expr).
Context {S : Type} (solver : SolverImpl S) (simplifyExprs : bool).

(* if (simplifyExprs) expr = state.constraints.simplifyExpr(expr) *)
Definition simplified (cs : list expr) (e : expr) : res Query :=
  let* e := (if simplifyExprs then simplifyExpr cs e else Ok e) in Ok (MkQuery cs e).

Definition ts_evaluate (cs : list expr) (e : expr) : state S (option Validity) :=
  match e with
  | Constant CE => sret (Some (if const_isTrue CE then ValidityTrue else ValidityFalse))
  | _ => do* q := slift (simplified cs e) in evaluate solver q
  end.

Definition ts_mustBeTrue (cs : list expr) (e : expr) : state S (option bool) :=
  match e with
  | Constant CE => sret (Some (const_isTrue CE))
  | _ => do* q := slift (simplified cs e) in mustBeTrue solver q
  end.

Definition ts_mustBeFalse (cs : list expr) (e : expr) : state S (option bool) :=
  do* n := slift (createIsZero ConstArrayOpt e) in ts_mustBeTrue cs n.

Definition ts_mayBeTrue (cs : list expr) (e : expr) : state S (option bool) :=
  do* r := ts_mustBeFalse cs e in sret (negb <$> r).

Definition ts_mayBeFalse (cs : list expr) (e : expr) : state S (option bool) :=
  do* r := ts_mustBeTrue cs e in sret (negb <$> r).

Definition ts_getValue (cs : list expr) (e : expr) : state S (option ap) :=
  match e with
  | Constant CE => sret (Some CE)
  | _ => do* q := slift (simplified cs e) in getValue solver q
  end.

Definition ts_getInitialValues (cs : list expr) (objects : list positive) : state S (option (list (list Z))) :=
  match objects with
  | [] => sret (Some [])
  | _ => getInitialValues solver (MkQuery cs (const_alloc 0 Bool_w)) objects
  end.

Definition ts_getRange (cs : list expr) (e : expr) : state S (expr * expr) :=
  getRange ConstArrayOpt solver (MkQuery cs e).

End timing.

(** ** Correctness *)
Section correct.
Context {A : APInt} {L : APIntLaws A} {AR : Arrays}.
Context (opt checked : bool).
Context (Hopt : opt = true -> checked = true).
Context {SC : Scope opt checked}.

(** What the simplification promises: an expression with the same value in
    every environment that satisfies the constraints. *)
Definition Simplifier (simplifyExpr : list expr -> expr -> res expr) : Prop :=
  forall cs e, query_ok checked (MkQuery cs e) ->
    exists e', simplifyExpr cs e = Ok e' /\ query_ok checked (MkQuery cs e') /\ getWidth e' = getWidth e /\
      forall ρ, sat checked ρ cs -> denote checked ρ e' = denote checked ρ e.

(** Not to simplify is a simplification. *)
Lemma no_simplifier : Simplifier (fun _ e => Ok e).
Proof. intros cs e H. by exists e. Qed.

Context (simplifyExpr : list expr -> expr -> res expr) (Hsimp : Simplifier simplifyExpr).
Context {S : Type} (solver : SolverImpl S) (Inv : S -> Prop) {HS : SolverContract checked solver Inv}.
Context (simplifyExprs : bool).

Lemma simplified_ok cs e :
  query_ok checked (MkQuery cs e) ->
  exists q, simplified simplifyExpr simplifyExprs cs e = Ok q /\ query_ok checked q /\
    getWidth (query_expr q) = getWidth e /\
    (forall v, forced checked q v <-> forced checked (MkQuery cs e) v) /\
    (forall v, feasible checked q v <-> feasible checked (MkQuery cs e) v).
Proof.
  intros Hq. unfold simplified. destruct simplifyExprs.
  - destruct (Hsimp cs e Hq) as (e' & -> & Hq' & Hw & Hd). cbn [res_bind]. exists (MkQuery cs e'). split_and!; try done.
    + intros v. unfold forced. cbn. split; intros H ρ Hρ; specialize (H ρ Hρ); [by rewrite <- Hd|by rewrite Hd].
    + intros v. unfold feasible. cbn. split; intros (ρ & Hρ & Hv); exists ρ; (split; [done|]); [by rewrite <- Hd|by rewrite Hd].
  - by exists (MkQuery cs e).
Qed.

(** A constant Boolean is forced. *)
Lemma constant_forced cs CE :
  getBitWidth CE = 1 -> forced checked (MkQuery cs (Constant CE)) (if const_isTrue CE then 1 else 0).
Proof.
  intros Hw ρ _. cbn. pose proof (uval_range CE ltac:(lia)) as Hr. rewrite Hw in Hr. unfold const_isTrue, Bool_w.
  rewrite Hw. cbn. destruct (Z.eqb_spec (uval CE) 0) as [->|]; cbn; [done|]. f_equal. lia.
Qed.

Definition truth_spec (cs : list expr) (e : expr) (r : option bool) : Prop :=
  forall b, r = Some b -> if b then forced checked (MkQuery cs e) 1 else feasible checked (MkQuery cs e) 0.

Lemma ts_mustBeTrue_ok cs e :
  bool_query checked (MkQuery cs e) ->
  sholds Inv (ts_mustBeTrue simplifyExpr solver simplifyExprs cs e) (truth_spec cs e).
Proof.
  intros Hq. assert (sholds Inv (do* q := slift (simplified simplifyExpr simplifyExprs cs e) in mustBeTrue solver q) (truth_spec cs e)) as H.
  { destruct Hq as [Hq Hw]. destruct (simplified_ok cs e Hq) as (q & E & Hq' & Hw' & Hf & Hp).
    eapply sholds_bind; [apply (sholds_lift _ (fun q' => q' = q)); eauto|]. intros q' ->.
    eapply sholds_weaken; [apply (mustBeTrue_ok opt checked solver Inv); split; [done|]; rewrite Hw'; exact Hw|].
    intros r Hr b Hb. specialize (Hr b Hb). destruct b; [by apply Hf|by apply Hp]. }
  destruct e as [CE| | | | | | | |]; try exact H. apply sholds_ret. intros b [= <-].
  pose proof (constant_forced cs CE (proj2 Hq)) as Hc. destruct (const_isTrue CE); [done|].
  apply (forced_feasible opt checked); [apply Hq|done].
Qed.
(** The negation of a question is one. *)
Lemma negated_query cs e :
  bool_query checked (MkQuery cs e) ->
  exists n, createIsZero opt e = Ok n /\ bool_query checked (MkQuery cs n) /\
    (forced checked (MkQuery cs n) 1 -> forced checked (MkQuery cs e) 0) /\
    (feasible checked (MkQuery cs n) 0 -> feasible checked (MkQuery cs e) 1).
Proof.
  intros Hq. destruct (negateExpr_ok opt checked Hopt (MkQuery cs e) (proj1 Hq)) as (nq & En & Hnq & Hnc & Hnd).
  destruct (negate_forced opt checked (MkQuery cs e) nq (bool_query_wf opt checked _ Hq) Hnc Hnd) as (H1 & H2 & H3 & H4).
  unfold negateExpr in En. cbn [query_expr] in En. apply res_bind_inv in En as (n & En & [= <-]).
  exists n. split_and!; [exact En|exact Hnq|by apply H1|by apply H3].
Qed.

Definition falsity_spec (cs : list expr) (e : expr) (r : option bool) : Prop :=
  forall b, r = Some b -> if b then forced checked (MkQuery cs e) 0 else feasible checked (MkQuery cs e) 1.

Lemma ts_mustBeFalse_ok cs e :
  bool_query checked (MkQuery cs e) ->
  sholds Inv (ts_mustBeFalse opt simplifyExpr solver simplifyExprs cs e) (falsity_spec cs e).
Proof.
  intros Hq. unfold ts_mustBeFalse. destruct (negated_query cs e Hq) as (n & En & Hnq & H1 & H0).
  eapply sholds_bind; [apply (sholds_lift _ (fun x => x = n)); eauto|]. intros x ->.
  eapply sholds_weaken; [by apply ts_mustBeTrue_ok|]. intros r Hr b Hb. specialize (Hr b Hb). destruct b; auto.
Qed.

Definition may_true_spec (cs : list expr) (e : expr) (r : option bool) : Prop :=
  forall b, r = Some b -> if b then feasible checked (MkQuery cs e) 1 else forced checked (MkQuery cs e) 0.

Lemma ts_mayBeTrue_ok cs e :
  bool_query checked (MkQuery cs e) ->
  sholds Inv (ts_mayBeTrue opt simplifyExpr solver simplifyExprs cs e) (may_true_spec cs e).
Proof.
  intros Hq. unfold ts_mayBeTrue. eapply sholds_bind; [by apply ts_mustBeFalse_ok|]. intros r Hr. apply sholds_ret.
  intros b Hb. destruct r as [b'|]; [|done]. injection Hb as <-. specialize (Hr b' eq_refl). by destruct b'.
Qed.

Lemma ts_mayBeFalse_ok cs e :
  bool_query checked (MkQuery cs e) ->
  sholds Inv (ts_mayBeFalse simplifyExpr solver simplifyExprs cs e)
    (fun r => forall b, r = Some b -> if b then feasible checked (MkQuery cs e) 0 else forced checked (MkQuery cs e) 1).
Proof.
  intros Hq. unfold ts_mayBeFalse. eapply sholds_bind; [by apply ts_mustBeTrue_ok|]. intros r Hr. apply sholds_ret.
  intros b Hb. destruct r as [b'|]; [|done]. injection Hb as <-. specialize (Hr b' eq_refl). by destruct b'.
Qed.

Lemma ts_evaluate_ok cs e :
  bool_query checked (MkQuery cs e) ->
  sholds Inv (ts_evaluate simplifyExpr solver simplifyExprs cs e)
    (fun r => forall v, r = Some v -> validity_spec checked (MkQuery cs e) v).
Proof.
  intros Hq. assert (sholds Inv (do* q := slift (simplified simplifyExpr simplifyExprs cs e) in evaluate solver q)
    (fun r => forall v, r = Some v -> validity_spec checked (MkQuery cs e) v)) as H.
  { destruct Hq as [Hq Hw]. destruct (simplified_ok cs e Hq) as (q & E & Hq' & Hw' & Hf & Hp).
    eapply sholds_bind; [apply (sholds_lift _ (fun q' => q' = q)); eauto|]. intros q' ->.
    eapply sholds_weaken; [apply (evaluate_ok opt checked solver Inv); split; [done|]; rewrite Hw'; exact Hw|].
    intros r Hr v Hv. specialize (Hr v Hv). destruct v; cbn in *; [by apply Hf|by apply Hf|]. split; apply Hp; apply Hr. }
  destruct e as [CE| | | | | | | |]; try exact H. apply sholds_ret. intros v [= <-].
  pose proof (constant_forced cs CE (proj2 Hq)) as Hc. by destruct (const_isTrue CE).
Qed.

Lemma ts_getValue_ok cs e :
  query_ok checked (MkQuery cs e) ->
  sholds Inv (ts_getValue simplifyExpr solver simplifyExprs cs e)
    (fun r => forall c, r = Some c -> getBitWidth c = getWidth e /\ feasible checked (MkQuery cs e) (uval c)).
Proof.
  intros Hq. assert (sholds Inv (do* q := slift (simplified simplifyExpr simplifyExprs cs e) in getValue solver q)
    (fun r => forall c, r = Some c -> getBitWidth c = getWidth e /\ feasible checked (MkQuery cs e) (uval c))) as H.
  { destruct (simplified_ok cs e Hq) as (q & E & Hq' & Hw' & Hf & Hp).
    eapply sholds_bind; [apply (sholds_lift _ (fun q' => q' = q)); eauto|]. intros q' ->.
    eapply sholds_weaken; [by apply (getValue_ok opt checked solver Inv)|].
    intros r Hr c Hc. destruct (Hr c Hc) as [Hcw Hcf]. split; [congruence|]. by apply Hp. }
  destruct e as [CE| | | | | | | |]; try exact H. apply sholds_ret. intros c [= <-]. split; [done|].
  destruct Hq as (_ & ρ & Hρ). by exists ρ.
Qed.

Lemma ts_getInitialValues_ok cs objects :
  query_ok checked (MkQuery cs (const_alloc 0 Bool_w)) -> objects_ok objects ->
  sholds Inv (ts_getInitialValues solver cs objects)
    (fun r => forall values, r = Some values -> exists ρ, sat checked ρ cs /\ object_values checked ρ objects values).
Proof.
  intros Hq Ho. unfold ts_getInitialValues. destruct objects as [|os objects].
  { apply sholds_ret. intros values [= <-]. destruct Hq as (_ & ρ & Hρ). exists ρ. split; [done|constructor]. }
  eapply sholds_weaken; [apply (getInitialValues_ok opt checked solver Inv)|].
  - split; [apply Hq|]. by apply width_const_alloc.
  - intros c Hc. destruct (createIsZero_ok opt checked Hopt (const_alloc 0 Bool_w)) as (n & En & _ & _ & Hn).
    { by apply wt_const_alloc. }
    cbn [query_expr] in Hc. rewrite Hc in En. injection En as <-.
    destruct Hq as (_ & ρ & _). specialize (Hn ρ 1). cbn in Hn. rewrite make_val in Hn by done.
    specialize (Hn eq_refl). injection Hn as Hn. unfold const_isFalse. rewrite Hn. by rewrite andb_false_r.
  - done.
  - intros r Hr values Hv. destruct (Hr values Hv) as (ρ & Hρ & _ & Hval). by exists ρ.
Qed.

End correct.
Arguments Simplifier {A AR opt} checked {SC} simplifyExpr.

(** [ConstraintManager::simplifyExpr] is a simplification. *)
Section simplifier.
Context {A : APInt} {L : APIntLaws A} {AR : Arrays}.
Context (checked hash : bool) {SC : Scope false checked} {RS : RewriteScope false checked}.

Lemma query_constraint_set q : query_wf checked q -> constraint_set checked (constraints q).
Proof.
  intros (Hcs & _ & _ & Hg & _). unfold constraint_set. rewrite Forall_forall in Hcs, Hg |- *. intros c Hc.
  destruct (Hcs c Hc), (Hg c Hc). by split_and!.
Qed.

Lemma simplifyExpr_simplifier : Simplifier checked (simplifyExpr false hash).
Proof.
  intros cs e [Hq [ρ0 Hs]]. pose proof (query_constraint_set _ Hq) as Hcs. pose proof Hq as (Hc1 & Hwt & Hd & Hc2 & Hg).
  cbn in Hcs, Hwt, Hd, Hg, Hs.
  destruct (simplify_ok checked hash good good_solid cs e ρ0) as (e' & E & [Hwt' Hw'] & Hg' & Hst & _);
    [done..|by apply Hd|]. exists e'.
  assert (forall ρ, sat checked ρ cs -> denote checked ρ e' = denote checked ρ e) as Hde.
  { intros ρ Hρ. destruct (Hd ρ Hρ) as [v Hv]. rewrite Hv. apply Hst; [by apply sat_not_false|done]. }
  split_and!; try done. split; [|by exists ρ0]. split_and!; try done. cbn. intros ρ Hρ. rewrite Hde by done. by apply Hd.
Qed.
End simplifier.

Section theorems.
Context {A : APInt} {L : APIntLaws A} {AR : Arrays}.
Context (opt checked : bool) (Hopt : opt = true -> checked = true) {SC : Scope opt checked}.
Context (simplify : list expr -> expr -> res expr).
Context {S : Type} (solver : SolverImpl S) (Inv : S -> Prop).

(** C26. The executor's questions are answered as they are asked: with any
    simplification that keeps values under the constraints ([Simplifier], which
    [simplifyExpr_simplifier] proves of the one of the constraint manager) or
    none, under a satisfiable set of constraints [evaluate] classifies a
    condition [e], [mustBeTrue], [mustBeFalse], [mayBeTrue] and [mayBeFalse]
    answer true exactly for a forced and a possible truth value, [getValue]
    returns a possible value of an expression [t] of any width, at that width,
    and [getInitialValues] the bytes of a solution, whenever the solver
    succeeds. *)
Theorem timing_solver_correct (simplifyExprs : bool)
    (cs : list expr) (e t : expr) (objects : list positive) (s : S)
    (HS : SolverContract checked solver Inv)
    (Hsimp : Simplifier checked simplify)
    (Hq : bool_query checked (MkQuery cs e))
    (Ht : query_ok checked (MkQuery cs t))
    (Hc : query_ok checked (MkQuery cs (const_alloc 0 Bool_w)))
    (Ho : objects_ok objects) (Hs : Inv s) :
  (exists r s', ts_evaluate simplify solver simplifyExprs cs e s = Ok (r, s') /\ Inv s' /\
     forall v, r = Some v -> validity_spec checked (MkQuery cs e) v) /\
  (exists r s', ts_mustBeTrue simplify solver simplifyExprs cs e s = Ok (r, s') /\ Inv s' /\
     (r = Some true -> forced checked (MkQuery cs e) 1) /\ (r = Some false -> feasible checked (MkQuery cs e) 0)) /\
  (exists r s', ts_mustBeFalse opt simplify solver simplifyExprs cs e s = Ok (r, s') /\ Inv s' /\
     (r = Some true -> forced checked (MkQuery cs e) 0) /\ (r = Some false -> feasible checked (MkQuery cs e) 1)) /\
  (exists r s', ts_mayBeTrue opt simplify solver simplifyExprs cs e s = Ok (r, s') /\ Inv s' /\
     (r = Some true -> feasible checked (MkQuery cs e) 1) /\ (r = Some false -> forced checked (MkQuery cs e) 0)) /\
  (exists r s', ts_mayBeFalse simplify solver simplifyExprs cs e s = Ok (r, s') /\ Inv s' /\
     (r = Some true -> feasible checked (MkQuery cs e) 0) /\ (r = Some false -> forced checked (MkQuery cs e) 1)) /\
  (exists r s', ts_getValue simplify solver simplifyExprs cs t s = Ok (r, s') /\ Inv s' /\
     forall c, r = Some c -> getBitWidth c = getWidth t /\ feasible checked (MkQuery cs t) (uval c)) /\
  (exists r s', ts_getInitialValues solver cs objects s = Ok (r, s') /\ Inv s' /\
     forall values, r = Some values -> exists ρ, sat checked ρ cs /\ object_values checked ρ objects values).
Proof.
  assert (forall T (m : state S T) (Q : T -> Prop), sholds Inv m Q -> exists r s', m s = Ok (r, s') /\ Inv s' /\ Q r) as run
    by (intros T m Q H; exact (H s Hs)).
  assert (forall (P Q : Prop) r, (forall b, r = Some b -> if b : bool then P else Q) ->
    (r = Some true -> P) /\ (r = Some false -> Q)) as cases by (intros P Q r H; split; exact (H _)).
  split_and!.
  - by apply run, (ts_evaluate_ok opt checked _ Hsimp solver Inv).
  - destruct (run _ _ _ (ts_mustBeTrue_ok opt checked _ Hsimp solver Inv simplifyExprs cs e Hq)) as (r & s' & ? & ? & H).
    exists r, s'. split_and!; try done; by apply (cases _ _ _ H).
  - destruct (run _ _ _ (ts_mustBeFalse_ok opt checked Hopt _ Hsimp solver Inv simplifyExprs cs e Hq)) as (r & s' & ? & ? & H).
    exists r, s'. split_and!; try done; by apply (cases _ _ _ H).
  - destruct (run _ _ _ (ts_mayBeTrue_ok opt checked Hopt _ Hsimp solver Inv simplifyExprs cs e Hq)) as (r & s' & ? & ? & H).
    exists r, s'. split_and!; try done; by apply (cases _ _ _ H).
  - destruct (run _ _ _ (ts_mayBeFalse_ok opt checked _ Hsimp solver Inv simplifyExprs cs e Hq)) as (r & s' & ? & ? & H).
    exists r, s'. split_and!; try done; by apply (cases _ _ _ H).
  - by apply run, (ts_getValue_ok opt checked _ Hsimp solver Inv).
  - by apply run, (ts_getInitialValues_ok opt checked Hopt solver Inv).
Qed.

End theorems.

Section witnesses.
Import Examples SolverExamples.
#[local] Existing Instance Examples.arrays.
#[local] Instance example_scope : Scope false false := solid_scope false false.
#[local] Instance example_rewrite : RewriteScope false false := solid_rewrite_scope false false.

Lemma false_query_ok : query_ok false (MkQuery [five] (const_alloc 0 Bool_w)).
Proof.
  refine (proj1 (five_query (const_alloc 0 Bool_w) _ _ _ _ _)); done.
Qed.

(* a byte of the array, under the constraint on another *)
Lemma byte_query_ok : query_ok false (MkQuery [five] (a_at 1)).
Proof.
  destruct false_query_ok as [(H1 & _ & _ & H2 & _) H3]. split; [|exact H3]. split_and!; [exact H1|exact (wt_a_at 1)| |exact H2|done].
  intros ρ _. by eexists.
Qed.

(* under a[0] = 5, a[1] < a[0], which is a[1] < 5, may be false, and a[1] may be 5 *)
Lemma timing_solver_correct_witness :
  (ts_mustBeTrue (simplifyExpr false true) sample_solver true [five] small tt = Ok (Some false, tt) /\
   feasible false sample_query 0) /\
  exists c, ts_getValue (simplifyExpr false true) sample_solver true [five] (a_at 1) tt = Ok (Some c, tt) /\
    getBitWidth c = 8 /\ feasible false (MkQuery [five] (a_at 1)) (uval c).
Proof.
  destruct (timing_solver_correct false false ltac:(done) (simplifyExpr false true) sample_solver (fun _ => True) true [five] small (a_at 1) [] tt)
    as (_ & (r & s' & E & _ & _ & H) & _ & _ & _ & (r2 & s2 & E2 & _ & H2) & _);
    [by apply GuessSolver_contract|exact (simplifyExpr_simplifier false true)|by apply five_query; [..|exact small_wt|done|intros ρ; by eexists]|
     exact byte_query_ok|exact false_query_ok|by split|done|].
  assert (ts_mustBeTrue (simplifyExpr false true) sample_solver true [five] small tt = Ok (Some false, tt)) as E0 by reflexivity.
  assert (ts_getValue (simplifyExpr false true) sample_solver true [five] (a_at 1) tt = Ok (Some (BV 8 5), tt)) as E1 by reflexivity.
  split; [split; [exact E0|]; apply H; rewrite E in E0; by injection E0|]. exists (BV 8 5). split; [exact E1|].
  rewrite E2 in E1. injection E1 as -> _. exact (H2 _ eq_refl).
Defined.

End witnesses.
