(* ===== verification/AddressSpace.v ===== *)
(** Address spaces: klee/lib/Core/AddressSpace.cpp and AddressSpace.h.

    An address space maps memory objects, ordered by address, to the addresses
    of their object states.  Execution states share object states: the copy
    constructor copies the map only, and [getWriteable] copies an object state
    the space does not own.  Object states live in a [heap]; a function that
    changes one works on the space and the heap.

    [resolveOne] and [resolve] find the objects a pointer may point to.  They
    run over the state of the solver; [timed_out] is the test of the timeout,
    [timeout && timeout < timer.delta()], for a clock in that state.  The
    memory of the process, which external calls share, is a function from
    addresses to bytes. *)
From Stdlib Require Import ZArith Lia Bool.
From stdpp Require Import base list numbers option gmap.
From S2P Require Import Prelude APInt Expr ExprCreate Solver TimingSolver ImmutableTree BitArray ObjectState MemoryObject.
Open Scope Z_scope.

(** [MemoryObjectLT]: by address. *)
Definition mo_lt (a b : MemoryObject) : bool := mo_address a <? mo_address b.

Notation os_ref := positive.
Notation heap := (gmap os_ref ObjectState).
Definition ObjectPair : Type := MemoryObject * os_ref.
Definition ResolutionList : Type := list ObjectPair.
Definition MemoryMap : Type := ImmutableMap.Tree (K:=MemoryObject) (D:=os_ref).

Record AddressSpace : Type := MkAddressSpace {
  cowKey : Z;
  objects : MemoryMap;
}.

Definition AddressSpace_new : AddressSpace := MkAddressSpace 1 ImmutableMap.new.

(* AddressSpace(b): the copy, and b, whose counter moves too *)
Definition AddressSpace_copy (b : AddressSpace) : AddressSpace * AddressSpace :=
  let key := wrap 32 (cowKey b + 1) in (MkAddressSpace key (objects b), MkAddressSpace key (objects b)).

Definition unbindObject (mo : MemoryObject) (a : AddressSpace) : res AddressSpace :=
  let* m := ImmutableMap.remove mo_lt (objects a) mo in Ok (MkAddressSpace (cowKey a) m).

Definition findObject (mo : MemoryObject) (a : AddressSpace) : option os_ref :=
  snd <$> ImmutableMap.lookup mo_lt (objects a) mo.

(** *** Object states *)
Section heap.
Context {A : APInt}.

Definition deref (os : os_ref) (h : heap) : res ObjectState :=
  match h !! os with Some o => Ok o | None => AssertFail end.

Definition space_state (T : Type) : Type := state (AddressSpace * heap) T.

Definition bindObject (mo : MemoryObject) (os : os_ref) : space_state unit := fun '(a, h) =>
  let* o := deref os h in
  assert* copyOnWriteOwner o =? 0 in
  let* m := ImmutableMap.replace mo_lt (objects a) (mo, os) in
  Ok (tt, (MkAddressSpace (cowKey a) m, <[os := set_owner (cowKey a) o]> h)).

Definition getWriteable (mo : MemoryObject) (os : os_ref) : space_state os_ref := fun '(a, h) =>
  let* o := deref os h in
  assert* negb (readOnly o) in
  if cowKey a =? copyOnWriteOwner o then Ok (os, (a, h))
  else
    let* copy := ObjectState_copy o in
    let newObjectState : os_ref := fresh (dom h : gset os_ref) in
    let* m := ImmutableMap.replace mo_lt (objects a) (mo, newObjectState) in
    Ok (newObjectState, (MkAddressSpace (cowKey a) m, <[newObjectState := set_owner (cowKey a) copy]> h)).

(** *** The memory of the process *)

(* memcpy(to, from, n) and memcmp(mem, from, n) != 0, on the first n bytes of a store *)
Definition copy_out (mem : Z -> Z) (address : Z) (bytes : list Z) : Z -> Z := fun p =>
  if (address <=? p) && (p <? address + Z.of_nat (length bytes)) then nth (Z.to_nat (p - address)) bytes 0 else mem p.

Definition copy_in (mem : Z -> Z) (address : Z) (n : nat) : list Z :=
  (fun i => mem (address + Z.of_nat i)) <$> seq 0 n.

Definition store_prefix (size : Z) (o : ObjectState) : res (list Z) :=
  assert* (Z.to_nat size <=? length (concreteStore o))%nat in Ok (take (Z.to_nat size) (concreteStore o)).

(* a loop over the objects; the map is the one at the start of the loop *)
Fixpoint for_objects {T} (fuel : nat) (it : iterator (V:=ObjectPair)) (stop : iterator)
    (body : ObjectPair -> T -> res (bool * T)) (s : T) : res (bool * T) :=
  if it_eqb ImmutableMap.Select1st mo_lt it stop then Ok (true, s)
  else
    match fuel with
    | O => OutOfFuel
    | S fuel =>
        let* x := it_get it in
        let* r := body x s in
        if fst r then let* it := it_next ImmutableMap.Select1st mo_lt it in for_objects fuel it stop body (snd r)
        else Ok (false, snd r)
    end.

Definition over_objects {T} (m : MemoryMap) (body : ObjectPair -> T -> res (bool * T)) (s : T) : res (bool * T) :=
  let* it := begin_ m in for_objects (Z.to_nat (node_size m)) it (end_ m) body s.

Definition copy_out_object (h : heap) (x : ObjectPair) (mem : Z -> Z) : res (bool * (Z -> Z)) :=
  let '(mo, os) := x in
  if mo_isUserSpecified mo then Ok (true, mem)
  else
    let* o := deref os h in
    if readOnly o then Ok (true, mem)
    else let* bytes := store_prefix (mo_size mo) o in Ok (true, copy_out mem (mo_address mo) bytes).

Definition copyOutConcretes (a : AddressSpace) (h : heap) (mem : Z -> Z) : res (Z -> Z) :=
  let* r := over_objects (objects a) (copy_out_object h) mem in Ok (snd r).

Definition copyInConcrete (mem : Z -> Z) (mo : MemoryObject) (os : os_ref) (src_address : Z) : space_state bool := fun s =>
  let* o := deref os (snd s) in
  let* bytes := store_prefix (mo_size mo) o in
  let new := copy_in mem src_address (Z.to_nat (mo_size mo)) in
  if bool_decide (new = bytes) then Ok (true, s)
  else if readOnly o then Ok (false, s)
  else
    let* r := getWriteable mo os s in
    let '(wos, (a, h)) := r in
    let* w := deref wos h in
    assert* (length new <=? length (concreteStore w))%nat in
    Ok (true, (a, <[wos := set_store (new ++ drop (length new) (concreteStore w)) w]> h)).

Definition copy_in_object (mem : Z -> Z) (x : ObjectPair) (s : AddressSpace * heap) : res (bool * (AddressSpace * heap)) :=
  let '(mo, os) := x in
  if mo_isUserSpecified mo then Ok (true, s) else copyInConcrete mem mo os (mo_address mo) s.

Definition copyInConcretes (mem : Z -> Z) : space_state bool := fun s =>
  over_objects (objects (fst s)) (copy_in_object mem) s.

End heap.

(** *** Resolution *)

(* MemoryObject hack(address): only its address is looked at *)
Definition hack (address : Z) : MemoryObject := MemoryObject_hack 0 address.

(* resolveOne(addr, result) *)
Definition resolveOne_constant {A : APInt} (a : AddressSpace) (addr : ap) : res (option ObjectPair) :=
  let* address := getZExtValue addr 64 in
  Ok (match ImmutableMap.lookup_previous mo_lt (objects a) (hack address) with
      | Some (mo, os) =>
          if ((mo_size mo =? 0) && (address =? mo_address mo)) || (wrap 64 (address - mo_address mo) <? mo_size mo)
          then Some (mo, os) else None
      | None => None
      end).

Section resolve.
Context {A : APInt} {AR : Arrays}.
Context (ConstArrayOpt : bool) (PointerWidth : Z).
Context (simplifyExpr : list expr -> expr -> res expr).
Context {S : Type} (solver : SolverImpl S) (simplifyExprs : bool) (timed_out : state S bool).
(* state.constraints *)
Context (cs : list expr).

Definition may_be_true (e : expr) : state S (option bool) :=
  ts_mayBeTrue ConstArrayOpt simplifyExpr solver simplifyExprs cs e.
Definition must_be_true (e : expr) : state S (option bool) :=
  ts_mustBeTrue simplifyExpr solver simplifyExprs cs e.

Definition may_be_in_object (mo : MemoryObject) (p : expr) : state S (option bool) :=
  do* c := slift (getBoundsCheckPointer ConstArrayOpt PointerWidth mo p) in may_be_true c.

(* UgeExpr::create(p, mo->getBaseExpr()) or UltExpr::create *)
Definition must_compare (k : BinKind) (p : expr) (mo : MemoryObject) : state S (option bool) :=
  do* c := slift (let* base := getBaseExpr PointerWidth mo in BinaryExpr_create ConstArrayOpt k p base) in must_be_true c.

(** [resolveOne(state, solver, address, result, success)]: [None] is the return
    of false, [Some None] no success. *)
Definition resolution : Type := option (option ObjectPair).

(* while (oi != begin): the loop is left with an answer, or not *)
Fixpoint resolveOne_backwards (fuel : nat) (address : expr) (begin oi : iterator (V:=ObjectPair)) :
    state S (option resolution) :=
  if it_eqb ImmutableMap.Select1st mo_lt oi begin then sret None
  else
    match fuel with
    | O => fun _ => OutOfFuel
    | Datatypes.S fuel =>
        do* oi := slift (it_prev ImmutableMap.Select1st mo_lt oi) in
        do* op := slift (it_get oi) in
        do* mayBeTrue := may_be_in_object (fst op) address in
        match mayBeTrue with
        | None => sret (Some None)
        | Some true => sret (Some (Some (Some op)))
        | Some false =>
            do* mustBeTrue := must_compare Uge address (fst op) in
            match mustBeTrue with
            | None => sret (Some None)
            | Some true => sret None
            | Some false => resolveOne_backwards fuel address begin oi
            end
        end
    end.

Fixpoint resolveOne_forwards (fuel : nat) (address : expr) (stop oi : iterator (V:=ObjectPair)) : state S resolution :=
  if it_eqb ImmutableMap.Select1st mo_lt oi stop then sret (Some None)
  else
    match fuel with
    | O => fun _ => OutOfFuel
    | Datatypes.S fuel =>
        do* op := slift (it_get oi) in
        do* mustBeTrue := must_compare Ult address (fst op) in
        match mustBeTrue with
        | None => sret None
        | Some true => sret (Some None)
        | Some false =>
            do* mayBeTrue := may_be_in_object (fst op) address in
            match mayBeTrue with
            | None => sret None
            | Some true => sret (Some (Some op))
            | Some false =>
                do* oi := slift (it_next ImmutableMap.Select1st mo_lt oi) in
                resolveOne_forwards fuel address stop oi
            end
        end
    end.

(* the search for the object around the example *)
Definition resolveOne_search (a : AddressSpace) (address : expr) (example : Z) : state S resolution :=
  do* oi := slift (ImmutableMap.upper_bound mo_lt (objects a) (hack example)) in
  do* begin := slift (begin_ (objects a)) in
  let fuel := Z.to_nat (node_size (objects a)) in
  do* r := resolveOne_backwards fuel address begin oi in
  match r with
  | Some r => sret r
  | None => resolveOne_forwards fuel address (end_ (objects a)) oi
  end.

Definition resolveOne (a : AddressSpace) (address : expr) : state S resolution :=
  match address with
  | Constant CE => do* r := slift (resolveOne_constant a CE) in sret (Some r)
  | _ =>
      do* cex := ts_getValue simplifyExpr solver simplifyExprs cs address in
      match cex with
      | None => sret None
      | Some cex =>
          do* example := slift (getZExtValue cex 64) in
          match ImmutableMap.lookup_previous mo_lt (objects a) (hack example) with
          | Some (mo, os) =>
              if wrap 64 (example - mo_address mo) <? mo_size mo then sret (Some (Some (mo, os)))
              else resolveOne_search a address example
          | None => resolveOne_search a address example
          end
      end
  end.

(** [checkPointerInObject]: 0, 1 or 2, and the list. *)
Definition checkPointerInObject (p : expr) (op : ObjectPair) (rl : ResolutionList) (maxResolutions : Z) :
    state S (Z * ResolutionList) :=
  let mo := fst op in
  do* inBounds := slift (getBoundsCheckPointer ConstArrayOpt PointerWidth mo p) in
  do* mayBeTrue := may_be_true inBounds in
  match mayBeTrue with
  | None => sret (1, rl)
  | Some false => sret (2, rl)
  | Some true =>
      let rl := rl ++ [op] in
      let size := Z.of_nat (length rl) in
      if size =? 1 then
        do* mustBeTrue := must_be_true inBounds in
        match mustBeTrue with
        | None => sret (1, rl)
        | Some true => sret (0, rl)
        | Some false => sret (2, rl)
        end
      else if size =? maxResolutions then sret (1, rl)
      else sret (2, rl)
  end.

(* the loops of resolve: the list and the value returned, if the loop returns *)
Fixpoint resolve_backwards (fuel : nat) (p : expr) (begin oi : iterator (V:=ObjectPair)) (rl : ResolutionList)
    (maxResolutions : Z) : state S (ResolutionList * option bool) :=
  if it_eqb ImmutableMap.Select1st mo_lt oi begin then sret (rl, None)
  else
    match fuel with
    | O => fun _ => OutOfFuel
    | Datatypes.S fuel =>
        do* oi := slift (it_prev ImmutableMap.Select1st mo_lt oi) in
        do* op := slift (it_get oi) in
        do* late := timed_out in
        if late then sret (rl, Some true)
        else
          do* r := checkPointerInObject p op rl maxResolutions in
          let '(incomplete, rl) := r in
          if negb (incomplete =? 2) then sret (rl, Some (negb (incomplete =? 0)))
          else
            do* mustBeTrue := must_compare Uge p (fst op) in
            match mustBeTrue with
            | None => sret (rl, Some true)
            | Some true => sret (rl, None)
            | Some false => resolve_backwards fuel p begin oi rl maxResolutions
            end
    end.

Fixpoint resolve_forwards (fuel : nat) (p : expr) (stop oi : iterator (V:=ObjectPair)) (rl : ResolutionList)
    (maxResolutions : Z) : state S (ResolutionList * bool) :=
  if it_eqb ImmutableMap.Select1st mo_lt oi stop then sret (rl, false)
  else
    match fuel with
    | O => fun _ => OutOfFuel
    | Datatypes.S fuel =>
        do* op := slift (it_get oi) in
        do* late := timed_out in
        if late then sret (rl, true)
        else
          do* mustBeTrue := must_compare Ult p (fst op) in
          match mustBeTrue with
          | None => sret (rl, true)
          | Some true => sret (rl, false)
          | Some false =>
              do* r := checkPointerInObject p op rl maxResolutions in
              let '(incomplete, rl) := r in
              if negb (incomplete =? 2) then sret (rl, negb (incomplete =? 0))
              else
                do* oi := slift (it_next ImmutableMap.Select1st mo_lt oi) in
                resolve_forwards fuel p stop oi rl maxResolutions
          end
    end.

(** [resolve]: the list, and whether the resolution is incomplete. *)
Definition resolve (a : AddressSpace) (p : expr) (rl : ResolutionList) (maxResolutions : Z) :
    state S (ResolutionList * bool) :=
  match p with
  | Constant CE =>
      do* r := slift (resolveOne_constant a CE) in
      sret (match r with Some op => rl ++ [op] | None => rl end, false)
  | _ =>
      do* cex := ts_getValue simplifyExpr solver simplifyExprs cs p in
      match cex with
      | None => sret (rl, true)
      | Some cex =>
          do* example := slift (getZExtValue cex 64) in
          do* oi := slift (ImmutableMap.upper_bound mo_lt (objects a) (hack example)) in
          do* begin := slift (begin_ (objects a)) in
          let fuel := Z.to_nat (node_size (objects a)) in
          do* r := resolve_backwards fuel p begin oi rl maxResolutions in
          match snd r with
          | Some incomplete => sret (fst r, incomplete)
          | None => resolve_forwards fuel p (end_ (objects a)) oi (fst r) maxResolutions
          end
      end
  end.

End resolve.
