(* ===== verification/AddressSpaceResolve.v ===== *)
(** The resolution of pointers in an address space (AddressSpace.cpp) finds
    exactly the objects a pointer may point to.

    Objects lie in the address space and do not overlap, as the allocator gives
    them out ([laid_out]).  A pointer [points] to the values it has in the
    solutions of the constraints. *)
From Stdlib Require Import ZArith Lia Bool Sorting.Sorted.
From stdpp Require Import base list numbers option sets sorting gmap.
From S2P Require Import Prelude APInt Expr ExprCreate ExprSem ExprCreateCorrect ExprWeight Solver Constraints TimingSolver ImmutableTree MemoryObject AddressSpace.
Open Scope Z_scope.

(** ** The layout of objects *)

#[export] Instance mo_lt_order : StrictWeakOrder mo_lt.
Proof. unfold mo_lt. split; intros; rewrite ?Z.ltb_lt, ?Z.ltb_ge in *; lia. Qed.

(** The first object ends before the second one starts. *)
Definition apart (x y : ObjectPair) : Prop :=
  mo_address (fst x) < mo_address (fst y) /\ mo_address (fst x) + mo_size (fst x) <= mo_address (fst y).

Record laid_out (W : Z) (m : MemoryMap) : Prop := {
  lo_wf : ImmutableMap.wf mo_lt m;
  lo_placed : Forall (fun x => placed W (fst x)) (elements m);
  lo_apart : StronglySorted apart (elements m);
}.

Lemma in_object_bounds mo v :
  in_object mo v = true -> mo_address mo <= v /\ (v < mo_address mo + mo_size mo \/ v = mo_address mo).
Proof.
  unfold in_object. destruct (Z.eqb_spec (mo_size mo) 0); [rewrite Z.eqb_eq|rewrite andb_true_iff, Z.leb_le, Z.ltb_lt]; lia.
Qed.

(** Two objects have no address in common. *)
Lemma apart_disjoint x y v : apart x y -> in_object (fst x) v = true -> in_object (fst y) v = true -> False.
Proof. unfold apart. intros Ha H1%in_object_bounds H2%in_object_bounds. lia. Qed.

Lemma sorted_pair {X} (R : X -> X -> Prop) l x y : StronglySorted R l -> x ∈ l -> y ∈ l -> x = y \/ R x y \/ R y x.
Proof.
  intros Hs. induction Hs as [|z l Hl IH Hz]; [set_solver|]. rewrite list.Forall_forall in Hz.
  intros [->|Hx]%elem_of_cons [->|Hy]%elem_of_cons; auto.
Qed.

Lemma in_object_unique W m x y v :
  laid_out W m -> x ∈ elements m -> y ∈ elements m -> in_object (fst x) v = true -> in_object (fst y) v = true -> x = y.
Proof.
  intros Hm Hx Hy H1 H2. destruct (sorted_pair apart _ x y (lo_apart W m Hm) Hx Hy) as [|[Ha|Ha]]; [done| |].
  - by destruct (apart_disjoint x y v Ha).
  - by destruct (apart_disjoint y x v Ha).
Qed.

Lemma laid_out_placed W m x : laid_out W m -> x ∈ elements m -> placed W (fst x).
Proof. intros Hm Hx. exact (proj1 (list.Forall_forall _ _) (lo_placed W m Hm) x Hx). Qed.

Lemma laid_out_nodup W m : laid_out W m -> NoDup (elements m).
Proof.
  intros [_ _ Hs]. induction Hs as [|x l Hl IH Hx]; constructor; [|done]. intros Hin.
  rewrite list.Forall_forall in Hx. specialize (Hx x Hin). unfold apart in Hx. lia.
Qed.

Lemma elem_of_filter_bool {X} (f : X -> bool) l x : x ∈ List.filter f l <-> x ∈ l /\ f x = true.
Proof. by rewrite !list_elem_of_In, List.filter_In. Qed.

Lemma sorted_filter_bool {X} (R : X -> X -> Prop) (f : X -> bool) l : StronglySorted R l -> StronglySorted R (List.filter f l).
Proof.
  induction 1 as [|z k Hk IH Hz]; cbn; [constructor|]. destruct (f z); [|done]. constructor; [done|].
  rewrite list.Forall_forall in Hz |- *. intros w [Hw _]%elem_of_filter_bool. by apply Hz.
Qed.

(** [lookup_previous] finds the object that contains an address, if there is one. *)
Lemma previous_object W m v :
  laid_out W m ->
  match ImmutableMap.lookup_previous mo_lt m (hack v) with
  | Some x => x ∈ elements m /\ mo_address (fst x) <= v /\
      forall y, y ∈ elements m -> in_object (fst y) v = true -> y = x
  | None => forall y, y ∈ elements m -> in_object (fst y) v = false
  end.
Proof.
  intros Hm. set (f := fun x : ObjectPair => negb (above ImmutableMap.Select1st mo_lt (hack v) x)).
  assert (ImmutableMap.lookup_previous mo_lt m (hack v) = last (List.filter f (elements m))) as ->.
  { unfold ImmutableMap.lookup_previous, lookup_previous.
    rewrite (lookup_previous_from_ok _ _ None (hack v) m (proj2 (lo_wf W m Hm))). subst f. by destruct (last _). }
  assert (forall x : ObjectPair, f x = true <-> mo_address (fst x) <= v) as Hf.
  { intros x. subst f. cbv beta. unfold above, mo_lt, hack. cbn. unfold ImmutableMap.Select1st. rewrite negb_true_iff, Z.ltb_ge. done. }
  destruct (last (List.filter f (elements m))) as [x|] eqn:El.
  - apply last_Some in El as [l El]. assert (x ∈ List.filter f (elements m)) as Hx by (rewrite El; apply elem_of_app; right; by apply list_elem_of_singleton).
    apply elem_of_filter_bool in Hx as [Hx Hfx]. apply Hf in Hfx. split_and!; [done..|].
    intros y Hy Hin. pose proof (in_object_bounds _ _ Hin) as [Hb _].
    assert (y ∈ List.filter f (elements m)) as Hyf by (apply elem_of_filter_bool; split; [done|by apply Hf]).
    rewrite El in Hyf. apply elem_of_app in Hyf as [Hyl|Hyx%list_elem_of_singleton]; [|done]. exfalso.
    assert (StronglySorted apart (l ++ [x])) as Hs.
    { rewrite <- El. by apply sorted_filter_bool, (lo_apart W). }
    assert (apart y x) as Hyx by (by eapply (StronglySorted_app_1_elem_of apart l [x]); [|done|apply list_elem_of_singleton]). unfold apart in Hyx.
    apply in_object_bounds in Hin. lia.
  - intros y Hy. destruct (in_object (fst y) v) eqn:Hin; [exfalso|done]. apply last_None in El.
    assert (y ∈ List.filter f (elements m)) as Hyf.
    { apply elem_of_filter_bool. split; [done|]. apply Hf. by destruct (in_object_bounds _ _ Hin). }
    rewrite El in Hyf. by apply not_elem_of_nil in Hyf.
Qed.

(** The test of [resolveOne], without the case of an empty object, and with it. *)
Lemma offset_test W mo v :
  placed W mo -> W <= 64 -> 0 <= v < 2 ^ 64 -> mo_address mo <= v ->
  (wrap 64 (v - mo_address mo) <? mo_size mo) = negb (mo_size mo =? 0) && in_object mo v.
Proof.
  intros (Ha & Hs & _ & Hb & _) HW Hv Hle. rewrite wrap_small by lia. unfold in_object.
  destruct (Z.eqb_spec (mo_size mo) 0) as [->|]; cbn [negb andb]; [apply Z.ltb_ge; lia|].
  apply eq_true_iff_eq. rewrite andb_true_iff, Z.leb_le, !Z.ltb_lt. lia.
Qed.

Lemma constant_test W mo v :
  placed W mo -> W <= 64 -> 0 <= v < 2 ^ 64 -> mo_address mo <= v ->
  ((mo_size mo =? 0) && (v =? mo_address mo)) || (wrap 64 (v - mo_address mo) <? mo_size mo) = in_object mo v.
Proof.
  intros Hp HW Hv Hle. rewrite (offset_test W) by done. unfold in_object.
  destruct (Z.eqb_spec (mo_size mo) 0); cbn [negb andb orb]; [by rewrite orb_false_r|done].
Qed.

(** The object an address is in. *)
Definition found (m : MemoryMap) (v : Z) (r : option ObjectPair) : Prop :=
  match r with
  | Some op => op ∈ elements m /\ in_object (fst op) v = true
  | None => forall op, op ∈ elements m -> in_object (fst op) v = false
  end.

Lemma resolveOne_constant_ok `{A : APInt} {L : APIntLaws A} W a (addr : ap) :
  laid_out W (objects a) -> W <= 64 -> 0 < getBitWidth addr <= 64 ->
  exists r, resolveOne_constant a addr = Ok r /\ found (objects a) (uval addr) r.
Proof.
  intros Hm HW Hw. unfold resolveOne_constant, getZExtValue. rewrite (proj2 (Z.leb_le _ _)) by lia.
  cbn [res_assert res_bind]. eexists. split; [done|]. pose proof (uval_range addr ltac:(lia)) as Hr.
  assert (2 ^ getBitWidth addr <= 2 ^ 64) by (apply Z.pow_le_mono_r; lia).
  pose proof (previous_object W (objects a) (uval addr) Hm) as Hp.
  destruct (ImmutableMap.lookup_previous _ _ _) as [[mo os]|]; [|done]. destruct Hp as (Hin & Hle & Hu). cbn [fst] in Hle.
  rewrite (constant_test W mo) by (done || lia || exact (laid_out_placed W _ _ Hm Hin)).
  destruct (in_object mo (uval addr)) eqn:E; [done|]. intros y Hy. destruct (in_object (fst y) (uval addr)) eqn:Ey; [|done].
  rewrite (Hu y Hy Ey) in Ey. cbn in Ey. congruence.
Qed.

(** ** Symbolic pointers *)
Section resolve.
Context {A : APInt} {L : APIntLaws A} {AR : Arrays}.
Context (opt checked : bool) (Hopt : opt = true -> checked = true).
Context {SC : Scope opt checked}.
Context (W : Z) (HW : 0 < W <= 64).
Context (simplifyExpr : list expr -> expr -> res expr) (Hsimp : Simplifier checked simplifyExpr).
Context {S : Type} (solver : SolverImpl S) (Inv : S -> Prop) {HS : SolverContract checked solver Inv}.
Context (simplifyExprs : bool).
Context (timed_out : state S bool) (Htime : sholds Inv timed_out (fun _ => True)).
Context (cs : list expr) (p : expr) (Hp : query_ok checked (MkQuery cs p)) (HpW : getWidth p = W).

(** [v] is a value of the pointer. *)
Definition points (v : Z) : Prop := feasible checked (MkQuery cs p) v.

Definition may_in (mo : MemoryObject) : Prop := exists v, points v /\ in_object mo v = true.
Definition never_in (mo : MemoryObject) : Prop := forall v, points v -> in_object mo v = false.

Lemma never_may mo : never_in mo -> may_in mo -> False.
Proof. intros Hn (v & Hv & Hi). rewrite (Hn v Hv) in Hi. done. Qed.

(** A Boolean expression about the value of the pointer. *)
Definition about (e : expr) (f : Z -> bool) : Prop :=
  bool_query checked (MkQuery cs e) /\
  forall ρ v, denote checked ρ p = Some v -> denote checked ρ e = Some (Z.b2z (f v)).

Lemma about_feasible e f b : about e f -> feasible checked (MkQuery cs e) (Z.b2z b) -> exists v, points v /\ f v = b.
Proof.
  intros [_ Hd] (ρ & Hρ & He). destruct Hp as [(_ & _ & Hdef & _) _]. destruct (Hdef ρ Hρ) as [v Hv].
  exists v. split; [by exists ρ|]. cbn in He, Hv. rewrite (Hd ρ v Hv) in He. injection He as He. by destruct (f v), b.
Qed.

Lemma about_forced e f b v : about e f -> forced checked (MkQuery cs e) (Z.b2z b) -> points v -> f v = b.
Proof.
  intros [_ Hd] He (ρ & Hρ & Hv). specialize (He ρ Hρ). cbn in He, Hv. rewrite (Hd ρ v Hv) in He. injection He as He.
  by destruct (f v), b.
Qed.

Lemma about_derived e f :
  wt e -> getWidth e = 1 -> good e ->
  (forall ρ v, denote checked ρ p = Some v -> denote checked ρ e = Some (Z.b2z (f v))) -> about e f.
Proof.
  intros He Hw Hg Hd. destruct Hp as [(Hcs & _ & Hdef & Hgc & _) Hs]. split; [|done]. split; [|done]. split; [|done].
  split; [done|]. split; [done|]. split; [|done]. intros ρ Hρ. destruct (Hdef ρ Hρ) as [v Hv]. exists (Z.b2z (f v)). by apply Hd.
Qed.

Lemma pointer_wt : wt p.
Proof. apply Hp. Qed.

Lemma pointer_good : good p.
Proof. apply Hp. Qed.

Lemma getBoundsCheckPointer_about mo :
  placed W mo -> exists e, getBoundsCheckPointer opt W mo p = Ok e /\ about e (in_object mo).
Proof.
  intros Hpl. destruct (getBoundsCheckPointer_ok opt checked Hopt W HW mo p Hpl pointer_wt HpW) as (e & E & He & Hew & Hd).
  exists e. split; [done|]. assert (forall ρ v, denote checked ρ p = Some v -> denote checked ρ e = Some (Z.b2z (in_object mo v))) as Hd'.
  { intros ρ v Hv. apply Hd. by rewrite Hv. }
  apply about_derived; try done. pose proof Hpl as (Ha & Hs & Hs' & Hb & _).
  pose proof (getOffsetExpr_ok opt checked Hopt W HW mo p Hpl pointer_wt HpW) as (o & Eo & Ho & How & Hod).
  unfold getBoundsCheckPointer in E. rewrite Eo in E. cbn [res_bind] in E.
  unfold getOffsetExpr, getBaseExpr in Eo. destruct (pointer_const checked W HW (mo_address mo)) as (Ec & _); [lia|].
  rewrite Ec in Eo. cbn [res_bind] in Eo.
  assert (good o) as Hgo.
  { eapply (good_create p Sub _ o (fun v => wrap W (v - mo_address mo))); [exact pointer_good|done|exact Eo|].
    intros ρ v Hv. apply Hod. by rewrite Hv. }
  unfold getBoundsCheckOffset in E. destruct (Z.eqb_spec (mo_size mo) 0).
  - destruct (pointer_binary opt checked Hopt W HW Eq o 0 1) as (e' & E' & _ & _ & Hd1); [done|done|lia|done|done|].
    rewrite E in E'. injection E' as <-.
    eapply (good_create o Eq _ e); [exact Hgo|done|exact E|]. intros ρ v Hv. apply Hd1. by rewrite Hv.
  - unfold getSizeExpr in E. destruct (pointer_const checked W HW (mo_size mo)) as (Es & _); [lia|]. rewrite Es in E.
    cbn [res_bind] in E.
    destruct (pointer_binary opt checked Hopt W HW Ult o (mo_size mo) 1) as (e' & E' & _ & _ & Hd1); [done|done|lia|done|done|].
    rewrite E in E'. injection E' as <-.
    eapply (good_create o Ult _ e); [exact Hgo|done|exact E|]. intros ρ v Hv. apply Hd1. by rewrite Hv.
Qed.

(** *** The questions *)

Lemma may_be_true_ok e f :
  about e f ->
  sholds Inv (may_be_true opt simplifyExpr solver simplifyExprs cs e)
    (fun r => forall b, r = Some b -> if b then exists v, points v /\ f v = true else forall v, points v -> f v = false).
Proof.
  intros He. eapply sholds_weaken; [apply (ts_mayBeTrue_ok opt checked Hopt simplifyExpr Hsimp solver Inv); exact (proj1 He)|].
  intros r Hr b Hb. specialize (Hr b Hb). destruct b.
  - by apply (about_feasible e f true).
  - intros v Hv. by apply (about_forced e f false v).
Qed.

Lemma must_be_true_ok e f :
  about e f ->
  sholds Inv (must_be_true simplifyExpr solver simplifyExprs cs e)
    (fun r => r = Some true -> forall v, points v -> f v = true).
Proof.
  intros He. eapply sholds_weaken; [apply (ts_mustBeTrue_ok opt checked simplifyExpr Hsimp solver Inv); exact (proj1 He)|].
  intros r Hr Hb v Hv. specialize (Hr true Hb). by apply (about_forced e f true v).
Qed.

Lemma may_be_in_object_ok mo :
  placed W mo ->
  sholds Inv (may_be_in_object opt W simplifyExpr solver simplifyExprs cs mo p)
    (fun r => forall b, r = Some b -> if b then may_in mo else never_in mo).
Proof.
  intros Hpl. unfold may_be_in_object. destruct (getBoundsCheckPointer_about mo Hpl) as (e & E & He).
  eapply sholds_bind; [apply (sholds_lift _ (fun x => x = e)); eauto|]. intros x ->. by apply may_be_true_ok.
Qed.

(** The comparison of a pointer with the address of an object. *)
Lemma must_compare_ok k mo f :
  placed W mo -> is_div k = false -> is_cmp k = true ->
  (forall x, bin_sem k W x (mo_address mo) = Some (Z.b2z (f x))) ->
  sholds Inv (must_compare opt W simplifyExpr solver simplifyExprs cs k p mo)
    (fun r => r = Some true -> forall v, points v -> f v = true).
Proof.
  intros (Ha & _ & _ & Hb & _) Hk Hcmp Hf. unfold must_compare, getBaseExpr.
  assert (bin_width k W = 1) as Hw1 by (unfold bin_width; by rewrite Hcmp).
  destruct (pointer_const checked W HW (mo_address mo)) as (-> & _); [lia|]. cbn [res_bind].
  destruct (pointer_binary opt checked Hopt W HW k p (mo_address mo) 1) as (e & E & He & Hew & Hd);
    [exact pointer_wt|exact HpW|lia|done|done|].
  assert (forall ρ v, denote checked ρ p = Some v -> denote checked ρ e = Some (Z.b2z (f v))) as Hd'.
  { intros ρ v Hv. apply Hd. rewrite Hv. cbn. apply Hf. }
  eapply sholds_bind; [apply (sholds_lift _ (fun x => x = e)); eauto|]. intros x ->.
  apply must_be_true_ok, about_derived; try done. eapply (good_create p k _ e (fun v => Z.b2z (f v))); [exact pointer_good|by apply derived_cmp|exact E|done].
Qed.

Lemma must_uge_ok mo :
  placed W mo ->
  sholds Inv (must_compare opt W simplifyExpr solver simplifyExprs cs Uge p mo)
    (fun r => r = Some true -> forall v, points v -> mo_address mo <= v).
Proof.
  intros Hpl. eapply sholds_weaken; [apply (must_compare_ok Uge mo (fun v => mo_address mo <=? v)); try done|].
  intros r Hr Hb v Hv. apply Z.leb_le. auto.
Qed.

Lemma must_ult_ok mo :
  placed W mo ->
  sholds Inv (must_compare opt W simplifyExpr solver simplifyExprs cs Ult p mo)
    (fun r => r = Some true -> forall v, points v -> v < mo_address mo).
Proof.
  intros Hpl. eapply sholds_weaken; [apply (must_compare_ok Ult mo (fun v => v <? mo_address mo)); try done|].
  intros r Hr Hb v Hv. apply Z.ltb_lt. auto.
Qed.

(** *** Objects out of reach *)

Lemma before_never x y : apart x y -> (forall v, points v -> mo_address (fst y) <= v) -> never_in (fst x).
Proof.
  intros Ha Hy v Hv. specialize (Hy v Hv). destruct (in_object (fst x) v) eqn:E; [|done].
  apply in_object_bounds in E. unfold apart in Ha. lia.
Qed.

Lemma after_never x y : x = y \/ apart x y -> (forall v, points v -> v < mo_address (fst x)) -> never_in (fst y).
Proof.
  intros Ha Hx v Hv. specialize (Hx v Hv). destruct (in_object (fst y) v) eqn:E; [|done].
  apply in_object_bounds in E. destruct Ha as [->|Ha]; [lia|]. unfold apart in Ha. lia.
Qed.

(** *** The loops *)
Context (m : MemoryMap) (Hm : laid_out W m).

Lemma split_apart d x u :
  elements m = d ++ x :: u -> (forall y, y ∈ d -> apart y x) /\ (forall y, y ∈ u -> apart x y).
Proof.
  intros E. pose proof (lo_apart W m Hm) as Hs. rewrite E in Hs. split.
  - intros y Hy. eapply (StronglySorted_app_1_elem_of apart d); [exact Hs|done|by left].
  - apply StronglySorted_app_1_r, StronglySorted_inv in Hs as [_ Hs]. by apply list.Forall_forall.
Qed.

Lemma at_begin begin oi d u :
  begin_ m = Ok begin -> iter_at m oi d u -> it_eqb ImmutableMap.Select1st mo_lt oi begin = bool_decide (d = []).
Proof.
  intros E Hi. destruct (lo_wf W m Hm) as [Ha Hb].
  destruct (begin_ok ImmutableMap.Select1st mo_lt m Ha Hb) as (b & E' & Hbi). rewrite E in E'. injection E' as <-.
  rewrite (it_eqb_ok _ _ _ _ _ _ _ _ _ Ha Hb Hi Hbi). apply bool_decide_ext.
  rewrite (iter_at_elements _ _ _ _ Hi), length_app. destruct d; cbn; [split; [done|lia]|split; [lia|done]].
Qed.

Lemma at_end oi d u :
  iter_at m oi d u -> it_eqb ImmutableMap.Select1st mo_lt oi (end_ m) = bool_decide (u = []).
Proof.
  intros Hi. destruct (lo_wf W m Hm) as [Ha Hb]. etrans; [exact (it_eqb_ok _ _ _ _ _ _ _ _ _ Ha Hb Hi (iter_end m))|].
  apply bool_decide_ext. by destruct u.
Qed.

(** A step back, or forward, of a loop. *)
Lemma step_back oi d x u :
  iter_at m oi (d ++ [x]) u ->
  exists oi', it_prev ImmutableMap.Select1st mo_lt oi = Ok oi' /\ iter_at m oi' d (x :: u) /\ it_get oi' = Ok x /\
    x ∈ elements m /\ placed W (fst x) /\ (forall y, y ∈ d -> apart y x).
Proof.
  intros Hi. destruct (lo_wf W m Hm) as [Ha Hb].
  destruct (it_prev_ok ImmutableMap.Select1st mo_lt m oi d x u Ha Hb Hi) as (oi' & E & Hi').
  pose proof (iter_at_elements _ _ _ _ Hi') as El. exists oi'. assert (x ∈ elements m) as Hx.
  { rewrite El. apply elem_of_app. right. by left. }
  split_and!; [done|done|by eapply it_get_ok|done|by apply (laid_out_placed W m)|by eapply split_apart].
Qed.

Lemma step_forward oi d x u :
  iter_at m oi d (x :: u) ->
  it_get oi = Ok x /\
  (exists oi', it_next ImmutableMap.Select1st mo_lt oi = Ok oi' /\ iter_at m oi' (d ++ [x]) u) /\
  x ∈ elements m /\ placed W (fst x) /\ (forall y, y ∈ u -> apart x y).
Proof.
  intros Hi. destruct (lo_wf W m Hm) as [Ha Hb]. pose proof (iter_at_elements _ _ _ _ Hi) as El.
  assert (x ∈ elements m) as Hx by (rewrite El; apply elem_of_app; right; by left).
  split_and!; [by eapply it_get_ok|by apply (it_next_ok _ _ m oi d x u)|done|by apply (laid_out_placed W m)|by eapply split_apart].
Qed.

Definition all_never (l : list ObjectPair) : Prop := forall op, op ∈ l -> never_in (fst op).

(** The answer of [resolveOne], when the solver gave one. *)
Definition resolved_one (r : resolution) : Prop :=
  match r with
  | Some (Some op) => op ∈ elements m /\ may_in (fst op)
  | Some None => all_never (elements m)
  | None => True
  end.

Lemma resolveOne_backwards_ok fuel begin oi d u :
  begin_ m = Ok begin -> iter_at m oi d u -> (length d <= fuel)%nat ->
  sholds Inv (resolveOne_backwards opt W simplifyExpr solver simplifyExprs cs fuel p begin oi)
    (fun r => match r with None => all_never d | Some r => r <> Some None /\ resolved_one r end).
Proof.
  intros Eb. revert oi d u. induction fuel as [|fuel IH]; intros oi d u Hi Hf;
    cbn [resolveOne_backwards]; rewrite (at_begin _ _ _ _ Eb Hi); case_bool_decide as Hd; [subst d| |subst d|].
  1,3: apply sholds_ret; intros op Hop; by apply not_elem_of_nil in Hop.
  { destruct d; cbn in Hf; [done|lia]. }
  destruct d as [|x d _] using rev_ind; [done|]. rewrite length_app in Hf. cbn in Hf.
  destruct (step_back _ _ _ _ Hi) as (oi' & E & Hi' & Eg & Hx & Hpl & Hap).
  eapply sholds_bind; [apply (sholds_lift _ (fun y => y = oi')); eauto|]. intros y ->.
  eapply sholds_bind; [apply (sholds_lift _ (fun y => y = x)); eauto|]. intros y ->.
  eapply sholds_bind; [by apply may_be_in_object_ok|]. intros [[|]|] Hmay; try (by apply sholds_ret).
  { apply sholds_ret. split; [done|]. split; [done|]. exact (Hmay true eq_refl). }
  specialize (Hmay false eq_refl). cbn in Hmay.
  assert (forall d', all_never d' -> all_never (d' ++ [x])) as Hcons.
  { intros d' Hd' op [Hop|Hop%list_elem_of_singleton]%elem_of_app; [auto|by rewrite Hop]. }
  eapply sholds_bind; [by apply must_uge_ok|]. intros [[|]|] Hmust; try (by apply sholds_ret).
  - apply sholds_ret, Hcons. intros op Hop. apply (before_never op x); auto.
  - eapply sholds_weaken; [by apply (IH oi' d (x :: u)); [|lia]|]. intros [r|] Hr; [done|]. by apply Hcons.
Qed.

Lemma resolveOne_forwards_ok fuel oi d u :
  iter_at m oi d u -> (length u <= fuel)%nat ->
  sholds Inv (resolveOne_forwards opt W simplifyExpr solver simplifyExprs cs fuel p (end_ m) oi)
    (fun r => match r with Some None => all_never u | _ => resolved_one r end).
Proof.
  revert oi d u. induction fuel as [|fuel IH]; intros oi d u Hi Hf;
    cbn [resolveOne_forwards]; rewrite (at_end _ _ _ Hi); case_bool_decide as Hd; [subst u| |subst u|].
  1,3: apply sholds_ret; intros op Hop; by apply not_elem_of_nil in Hop.
  { destruct u; cbn in Hf; [done|lia]. }
  destruct u as [|x u]; [done|]. cbn in Hf.
  destruct (step_forward _ _ _ _ Hi) as (Eg & (oi' & E & Hi') & Hx & Hpl & Hap).
  eapply sholds_bind; [apply (sholds_lift _ (fun y => y = x)); eauto|]. intros y ->.
  eapply sholds_bind; [by apply must_ult_ok|]. intros [[|]|] Hmust; try (by apply sholds_ret).
  { apply sholds_ret. intros op Hop. apply (after_never x op); [|auto]. apply elem_of_cons in Hop as [->|Hop]; auto. }
  eapply sholds_bind; [by apply may_be_in_object_ok|]. intros [[|]|] Hmay; try (by apply sholds_ret).
  { apply sholds_ret. split; [done|]. exact (Hmay true eq_refl). }
  eapply sholds_bind; [apply (sholds_lift _ (fun y => y = oi')); eauto|]. intros y ->.
  eapply sholds_weaken; [by apply (IH oi' (d ++ [x]) u); [|lia]|]. intros [[r|]|] Hr; [done| |done].
  intros op [->|Hop]%elem_of_cons; [exact (Hmay false eq_refl)|auto].
Qed.


(** *** [resolveOne] *)

Lemma pointer_value ρ v : sat checked ρ cs -> denote checked ρ p = Some v -> points v.
Proof. intros Hρ Hv. by exists ρ. Qed.

Lemma points_range v : points v -> 0 <= v < 2 ^ W.
Proof. intros (ρ & _ & Hv). rewrite <- HpW. exact (denote_range checked p ρ v pointer_wt Hv). Qed.

Lemma pointer_constant CE : p = Constant CE -> getBitWidth CE = W /\ forall v, points v <-> v = uval CE.
Proof.
  intros E. split; [rewrite <- HpW; by rewrite E|]. intros v. unfold points, feasible. cbn. rewrite E. cbn. split.
  - by intros (ρ & _ & [= <-]).
  - intros ->. destruct Hp as [_ (ρ & Hρ)]. by exists ρ.
Qed.

(** The loops start at the end of the objects not above the example. *)
Lemma search_start example :
  exists begin oi d u, begin_ m = Ok begin /\ ImmutableMap.upper_bound mo_lt m (hack example) = Ok oi /\
    iter_at m oi d u /\ elements m = d ++ u /\ (length d <= Z.to_nat (node_size m))%nat /\ (length u <= Z.to_nat (node_size m))%nat.
Proof.
  destruct (lo_wf W m Hm) as [Ha Hb].
  destruct (begin_ok ImmutableMap.Select1st mo_lt m Ha Hb) as (begin & Eb & _).
  destruct (upper_bound_ok ImmutableMap.Select1st mo_lt (hack example) m Ha Hb) as (oi & d & u & E & Hi & _).
  exists begin, oi, d, u. pose proof (iter_at_elements _ _ _ _ Hi) as El. pose proof (node_size_ok m) as Hn.
  rewrite El, length_app in Hn. split_and!; try done; lia.
Qed.

Lemma resolveOne_search_ok a example :
  objects a = m ->
  sholds Inv (resolveOne_search opt W simplifyExpr solver simplifyExprs cs a p example) resolved_one.
Proof.
  intros Ea. unfold resolveOne_search. rewrite Ea.
  destruct (search_start example) as (begin & oi & d & u & Eb & Eo & Hi & El & Hd & Hu).
  eapply sholds_bind; [apply (sholds_lift _ (fun y => y = oi)); eauto|]. intros y ->.
  eapply sholds_bind; [apply (sholds_lift _ (fun y => y = begin)); eauto|]. intros y ->.
  eapply sholds_bind; [by eapply resolveOne_backwards_ok|]. intros [r|] Hr; [by apply sholds_ret, Hr|].
  eapply sholds_weaken; [by eapply resolveOne_forwards_ok|]. intros [[op|]|] Hr'; [done| |done].
  intros op. rewrite El. intros [Hop|Hop]%elem_of_app; auto.
Qed.

Lemma found_resolved v r : points v -> (forall v', points v' -> v' = v) -> found m v r -> resolved_one (Some r).
Proof.
  intros Hv Hu Hr. destruct r as [op|]; cbn in *.
  - split; [apply Hr|]. exists v. split; [done|apply Hr].
  - intros op Hop v' Hv'. rewrite (Hu v' Hv'). auto.
Qed.

Lemma resolveOne_ok a :
  objects a = m -> sholds Inv (resolveOne opt W simplifyExpr solver simplifyExprs cs a p) resolved_one.
Proof.
  intros Ea. assert (forall x, p = x -> sholds Inv
    (do* cex := ts_getValue simplifyExpr solver simplifyExprs cs x in
      match cex with
      | None => sret None
      | Some cex =>
          do* example := slift (getZExtValue cex 64) in
          match ImmutableMap.lookup_previous mo_lt (objects a) (hack example) with
          | Some (mo, os) =>
              if wrap 64 (example - mo_address mo) <? mo_size mo then sret (Some (Some (mo, os)))
              else resolveOne_search opt W simplifyExpr solver simplifyExprs cs a x example
          | None => resolveOne_search opt W simplifyExpr solver simplifyExprs cs a x example
          end
      end) resolved_one) as H.
  { intros x <-. eapply sholds_bind; [apply (ts_getValue_ok opt checked simplifyExpr Hsimp solver Inv); exact Hp|].
    intros [cex|] Hc; [|by apply sholds_ret]. destruct (Hc cex eq_refl) as [Hw Hf]. rewrite HpW in Hw.
    eapply sholds_bind.
    { apply (sholds_lift _ (fun y => y = uval cex)). unfold getZExtValue. rewrite (proj2 (Z.leb_le _ _)) by lia. by eexists. }
    intros y ->. pose proof (points_range _ Hf) as Hr. assert (2 ^ W <= 2 ^ 64) by (apply Z.pow_le_mono_r; lia).
    rewrite Ea. pose proof (previous_object W m (uval cex) Hm) as Hprev.
    destruct (ImmutableMap.lookup_previous mo_lt m (hack (uval cex))) as [[mo os]|]; [|by apply resolveOne_search_ok].
    destruct Hprev as (Hin & Hle & _). cbn [fst] in Hle. destruct (wrap 64 (uval cex - mo_address mo) <? mo_size mo) eqn:Et;
      [|by apply resolveOne_search_ok].
    apply sholds_ret. split; [done|]. exists (uval cex). split; [done|]. cbn [fst].
    rewrite (offset_test W mo) in Et by (done || lia || exact (laid_out_placed W _ _ Hm Hin)). by apply andb_true_iff in Et as []. }
  unfold resolveOne. remember p as x eqn:Ep in |- *. destruct x as [CE| | | | | | | |]; try (by apply H).
  destruct (pointer_constant CE) as [Hw Hv]; [done|].
  destruct (resolveOne_constant_ok W a CE) as (r & E & Hr); [by rewrite Ea|lia|lia|].
  eapply sholds_bind; [apply (sholds_lift _ (fun y => y = r)); eauto|]. intros y ->. apply sholds_ret.
  rewrite Ea in Hr. eapply found_resolved; [by apply Hv| |exact Hr]. intros v' Hv'. by apply Hv.
Qed.


(** *** [resolve] *)
Context (maxResolutions : Z).

(** The list so far: objects the pointer may point to, each once, no more than
    asked for. *)
Record listed (rl : ResolutionList) : Prop := {
  listed_once : NoDup rl;
  listed_sound op : op ∈ rl -> op ∈ elements m /\ may_in (fst op);
  listed_bound : 2 <= maxResolutions -> Z.of_nat (length rl) <= maxResolutions;
}.

Definition room (rl : ResolutionList) : Prop := 2 <= maxResolutions -> Z.of_nat (length rl) < maxResolutions.

Definition complete (rl : ResolutionList) : Prop := forall op, op ∈ elements m -> may_in (fst op) -> op ∈ rl.

(** What the check of an object does to the list. *)
Definition checked_object (op : ObjectPair) (rl : ResolutionList) (r : Z * ResolutionList) : Prop :=
  listed (snd r) /\ (snd r = rl \/ snd r = rl ++ [op]) /\
  (fst r = 0 -> complete (snd r)) /\ (fst r = 2 -> (may_in (fst op) -> op ∈ snd r) /\ room (snd r)).

Lemma listed_snoc op rl :
  listed rl -> room rl -> op ∈ elements m -> op ∉ rl -> may_in (fst op) -> listed (rl ++ [op]).
Proof.
  intros [H1 H2 H3] Hroom Hop Hnew Hmay. split.
  - apply NoDup_app. split_and!; [done| |apply NoDup_singleton]. intros x Hx Hx'%list_elem_of_singleton. by rewrite Hx' in Hx.
  - intros x [Hx|Hx%list_elem_of_singleton]%elem_of_app; [auto|]. by rewrite Hx.
  - intros Hmax. rewrite length_app. specialize (Hroom Hmax). cbn. lia.
Qed.

Lemma checkPointerInObject_ok op rl :
  op ∈ elements m -> op ∉ rl -> listed rl -> room rl ->
  sholds Inv (checkPointerInObject opt W simplifyExpr solver simplifyExprs cs p op rl maxResolutions) (checked_object op rl).
Proof.
  intros Hop Hnew Hrl Hroom. pose proof (laid_out_placed W m op Hm Hop) as Hpl. unfold checkPointerInObject.
  destruct (getBoundsCheckPointer_about (fst op) Hpl) as (e & E & He).
  eapply sholds_bind; [apply (sholds_lift _ (fun y => y = e)); eauto|]. intros y ->.
  eapply sholds_bind; [by apply may_be_true_ok|]. intros [[|]|] Hmay.
  2:{ apply sholds_ret. split; [done|]. split; [by left|]. split; [done|]. intros _. split; [|done].
      intros Hin. exfalso. exact (never_may _ (Hmay false eq_refl) Hin). }
  2:{ apply sholds_ret. split; [done|]. split; [by left|done]. }
  specialize (Hmay true eq_refl). pose proof (listed_snoc op rl Hrl Hroom Hop Hnew Hmay) as Hrl'.
  assert (op ∈ rl ++ [op]) as Hin by (apply elem_of_app; right; by left).
  cbv zeta. destruct (Z.eqb_spec (Z.of_nat (length (rl ++ [op]))) 1) as [E1|E1].
  - eapply sholds_bind; [by apply must_be_true_ok|]. intros [[|]|] Hmust; apply sholds_ret; (split; [done|]); (split; [by right|]);
      split; try done.
    + intros _ op' Hop' (v & Hv & Hin'). rewrite (in_object_unique W m op' op v); auto.
    + intros _. split; [done|]. intros Hmax. cbn [snd]. lia.
  - destruct (Z.eqb_spec (Z.of_nat (length (rl ++ [op]))) maxResolutions) as [E2|E2]; apply sholds_ret;
      (split; [done|]); (split; [by right|]); split; try done.
    intros _. split; [done|]. intros Hmax. apply Z.le_neq. split; [exact (listed_bound _ Hrl' Hmax)|exact E2].
Qed.

Lemma nodup_remaining (rl : ResolutionList) op rest rl' :
  NoDup (rl ++ op :: rest) -> rl' = rl \/ rl' = rl ++ [op] -> NoDup (rl' ++ rest).
Proof.
  intros H [->| ->]; [|by rewrite <- app_assoc]. rewrite <- Permutation_middle in H.
  by apply NoDup_cons in H as [_ H].
Qed.

Lemma grown (rl rl' : ResolutionList) op : rl' = rl \/ rl' = rl ++ [op] -> rl ⊆ rl'.
Proof. intros [->| ->] x Hx; [done|]. apply elem_of_app. by left. Qed.

Lemma resolve_backwards_ok fuel begin oi d u rest rl :
  begin_ m = Ok begin -> iter_at m oi d u -> (length d <= fuel)%nat ->
  listed rl -> room rl -> NoDup (rl ++ d ++ rest) ->
  sholds Inv (resolve_backwards opt W simplifyExpr solver simplifyExprs timed_out cs fuel p begin oi rl maxResolutions)
    (fun r => listed (fst r) /\
       match snd r with
       | None => room (fst r) /\ NoDup (fst r ++ rest) /\ rl ⊆ fst r /\
           forall op, op ∈ d -> may_in (fst op) -> op ∈ fst r
       | Some incomplete => incomplete = false -> complete (fst r)
       end).
Proof.
  intros Eb. revert oi d u rl. induction fuel as [|fuel IH]; intros oi d u rl Hi Hf Hrl Hroom Hnd;
    cbn [resolve_backwards]; rewrite (at_begin _ _ _ _ Eb Hi); case_bool_decide as Hd; [subst d| |subst d|].
  1,3: apply sholds_ret; split; [done|]; split_and!; try done; intros op Hop; by apply not_elem_of_nil in Hop.
  { destruct d; cbn in Hf; [done|lia]. }
  destruct d as [|x d _] using rev_ind; [done|]. rewrite length_app in Hf. cbn in Hf.
  destruct (step_back _ _ _ _ Hi) as (oi' & E & Hi' & Eg & Hx & Hpl & Hap).
  assert (NoDup (rl ++ x :: d ++ rest)) as Hnd' by (assert (rl ++ (d ++ [x]) ++ rest ≡ₚ rl ++ x :: d ++ rest) as <- by solve_Permutation; done).
  eapply sholds_bind; [apply (sholds_lift _ (fun y => y = oi')); eauto|]. intros y ->.
  eapply sholds_bind; [apply (sholds_lift _ (fun y => y = x)); eauto|]. intros y ->.
  eapply sholds_bind; [exact Htime|]. intros [|] _; [by apply sholds_ret|].
  eapply sholds_bind; [apply checkPointerInObject_ok; try done|].
  { apply NoDup_app in Hnd' as (_ & Hn & _). intros Hin. apply (Hn x Hin). by left. }
  intros [code rl'] (Hrl' & Hgrow & H0 & H2). cbn [fst snd] in *.
  destruct (Z.eqb_spec code 2) as [->|Hne]; cbn [negb].
  2:{ apply sholds_ret. split; [done|]. cbn. destruct (Z.eqb_spec code 0); [auto|done]. }
  destruct (H2 eq_refl) as [Hin Hroom'].
  assert (NoDup (rl' ++ d ++ rest)) as Hnd2 by (by eapply nodup_remaining).
  pose proof (grown _ _ _ Hgrow) as Hsub.
  eapply sholds_bind; [by apply must_uge_ok|]. intros [[|]|] Hmust; [apply sholds_ret| |by apply sholds_ret].
  - split; [done|]. split_and!; [done| |done|].
    + cbn [fst]. apply (sublist_NoDup _ (rl' ++ d ++ rest)); [done|]. apply sublist_app; [done|]. by apply sublist_inserts_l.
    + intros op [Hop|Hop%list_elem_of_singleton]%elem_of_app Hmay; [|rewrite Hop in Hmay |- *; auto].
      exfalso. eapply never_may; [|exact Hmay]. apply (before_never op x); auto.
  - eapply sholds_weaken; [by apply (IH oi' d (x :: u) rl'); [|lia|..]|]. intros [rl'' [b|]] (Hl & Hr); [done|].
    destruct Hr as (Hr1 & Hr2 & Hr3 & Hr4). split; [done|]. cbn [fst snd] in *. split_and!; [done|done|by etrans|].
    intros op [Hop|Hop%list_elem_of_singleton]%elem_of_app Hmay; [auto|]. rewrite Hop in Hmay |- *. auto.
Qed.

Lemma resolve_forwards_ok fuel oi d u rl :
  iter_at m oi d u -> (length u <= fuel)%nat -> listed rl -> room rl -> NoDup (rl ++ u) ->
  sholds Inv (resolve_forwards opt W simplifyExpr solver simplifyExprs timed_out cs fuel p (end_ m) oi rl maxResolutions)
    (fun r => listed (fst r) /\
       (snd r = false -> rl ⊆ fst r /\ forall op, op ∈ u -> may_in (fst op) -> op ∈ fst r)).
Proof.
  revert oi d u rl. induction fuel as [|fuel IH]; intros oi d u rl Hi Hf Hrl Hroom Hnd;
    cbn [resolve_forwards]; rewrite (at_end _ _ _ Hi); case_bool_decide as Hd; [subst u| |subst u|].
  1,3: apply sholds_ret; split; [done|]; intros _; split; [done|]; intros op Hop; by apply not_elem_of_nil in Hop.
  { destruct u; cbn in Hf; [done|lia]. }
  destruct u as [|x u]; [done|]. cbn in Hf.
  destruct (step_forward _ _ _ _ Hi) as (Eg & (oi' & E & Hi') & Hx & Hpl & Hap).
  eapply sholds_bind; [apply (sholds_lift _ (fun y => y = x)); eauto|]. intros y ->.
  eapply sholds_bind; [exact Htime|]. intros [|] _; [by apply sholds_ret|].
  eapply sholds_bind; [by apply must_ult_ok|]. intros [[|]|] Hmust; try (by apply sholds_ret).
  { apply sholds_ret. split; [done|]. intros _. split; [done|]. intros op Hop Hmay. exfalso.
    eapply never_may; [|exact Hmay]. apply (after_never x op); [|auto]. apply elem_of_cons in Hop as [->|Hop]; auto. }
  eapply sholds_bind; [apply checkPointerInObject_ok; try done|].
  { apply NoDup_app in Hnd as (_ & Hn & _). intros Hin. apply (Hn x Hin). by left. }
  intros [code rl'] (Hrl' & Hgrow & H0 & H2). cbn [fst snd] in *. pose proof (grown _ _ _ Hgrow) as Hsub.
  destruct (Z.eqb_spec code 2) as [->|Hne]; cbn [negb].
  2:{ apply sholds_ret. split; [done|]. cbn [snd fst]. destruct (Z.eqb_spec code 0) as [H|]; [|done]. intros _.
      split; [done|]. intros op Hop Hmay. apply (H0 H op); [|done].
      rewrite (iter_at_elements _ _ _ _ Hi). apply elem_of_app. by right. }
  destruct (H2 eq_refl) as [Hin Hroom'].
  eapply sholds_bind; [apply (sholds_lift _ (fun y => y = oi')); eauto|]. intros y ->.
  eapply sholds_weaken; [apply (IH oi' (d ++ [x]) u rl'); [done|lia|done|done|by eapply nodup_remaining]|].
  intros [rl'' b] (Hl & Hr). split; [done|]. intros Hb. destruct (Hr Hb) as [Hr1 Hr2]. cbn [fst snd] in *.
  split; [by etrans|]. intros op [->|Hop]%elem_of_cons Hmay; auto.
Qed.

(** The list, starting empty, and the claim that nothing is missing. *)
Definition resolution_spec (r : ResolutionList * bool) : Prop :=
  listed (fst r) /\ (snd r = false -> complete (fst r)).

Lemma listed_nil : listed [].
Proof. split; [constructor|by intros op ?%not_elem_of_nil|cbn; lia]. Qed.

Lemma resolve_ok a :
  objects a = m ->
  sholds Inv (resolve opt W simplifyExpr solver simplifyExprs timed_out cs a p [] maxResolutions) resolution_spec.
Proof.
  intros Ea. assert (forall x, p = x -> sholds Inv
    (do* cex := ts_getValue simplifyExpr solver simplifyExprs cs x in
      match cex with
      | None => sret ([], true)
      | Some cex =>
          do* example := slift (getZExtValue cex 64) in
          do* oi := slift (ImmutableMap.upper_bound mo_lt (objects a) (hack example)) in
          do* begin := slift (begin_ (objects a)) in
          let fuel := Z.to_nat (node_size (objects a)) in
          do* r := resolve_backwards opt W simplifyExpr solver simplifyExprs timed_out cs fuel x begin oi [] maxResolutions in
          match snd r with
          | Some incomplete => sret (fst r, incomplete)
          | None => resolve_forwards opt W simplifyExpr solver simplifyExprs timed_out cs fuel x (end_ (objects a)) oi (fst r) maxResolutions
          end
      end) resolution_spec) as H.
  { intros x <-. eapply sholds_bind; [apply (ts_getValue_ok opt checked simplifyExpr Hsimp solver Inv); exact Hp|].
    intros [cex|] Hc; [|apply sholds_ret; split; [exact listed_nil|done]]. destruct (Hc cex eq_refl) as [Hw _]. rewrite HpW in Hw.
    eapply sholds_bind.
    { apply (sholds_lift _ (fun y => y = uval cex)). unfold getZExtValue. rewrite (proj2 (Z.leb_le _ _)) by lia. by eexists. }
    intros y ->. rewrite Ea. destruct (search_start (uval cex)) as (begin & oi & d & u & Eb & Eo & Hi & El & Hd & Hu).
    eapply sholds_bind; [apply (sholds_lift _ (fun y => y = oi)); eauto|]. intros y ->.
    eapply sholds_bind; [apply (sholds_lift _ (fun y => y = begin)); eauto|]. intros y ->.
    eapply sholds_bind.
    { apply (resolve_backwards_ok _ _ _ d u u []); [done|done|done|exact listed_nil|unfold room; cbn; lia|].
      cbn [app]. rewrite <- El. exact (laid_out_nodup W m Hm). }
    intros [rl [b|]] (Hl & Hr); cbn [fst snd] in *; [by apply sholds_ret|]. destruct Hr as (Hroom & Hnd & _ & Hback).
    eapply sholds_weaken; [by eapply resolve_forwards_ok|]. intros [rl' b] (Hl' & Hr'). split; [done|]. intros Hb.
    destruct (Hr' Hb) as [Hsub Hfor]. intros op Hop Hmay. rewrite El in Hop. apply elem_of_app in Hop as [Hop|Hop]; auto. }
  unfold resolve. remember p as x eqn:Ep in |- *. destruct x as [CE| | | | | | | |]; try (by apply H).
  destruct (pointer_constant CE) as [Hw Hv]; [done|].
  destruct (resolveOne_constant_ok W a CE) as (r & E & Hr); [by rewrite Ea|lia|lia|].
  eapply sholds_bind; [apply (sholds_lift _ (fun y => y = r)); eauto|]. intros y ->. apply sholds_ret.
  rewrite Ea in Hr. destruct r as [op|]; cbn in Hr.
  - destruct Hr as [Hop Hin]. assert (may_in (fst op)) as Hmay by (exists (uval CE); split; [by apply Hv|done]).
    split; cbn [fst snd app].
    + split; [apply NoDup_singleton|by intros op' ->%list_elem_of_singleton|cbn; lia].
    + intros _ op' Hop' (v & Hv' & Hin'). apply Hv in Hv'. subst v. apply list_elem_of_singleton. by eapply in_object_unique.
  - split; [exact listed_nil|]. intros _ op' Hop' (v & Hv' & Hin'). apply Hv in Hv'. subst v. by rewrite (Hr op' Hop') in Hin'.
Qed.

End resolve.

(** ** Properties *)
Section theorems.
Context {A : APInt} {L : APIntLaws A} {AR : Arrays}.
Context (checked hash : bool) {SC : Scope false checked} {RS : RewriteScope false checked}.
Context {S : Type} (solver : SolverImpl S) (Inv : S -> Prop).

(** C21. [resolve] finds the objects a pointer may point to: every object of the
    list contains the pointer in some solution of the constraints and is listed
    once; a resolution that is not reported incomplete has every such object;
    and a bound of two or more is kept.  The loops end and no assertion fails,
    whatever the solver and the clock answer. *)
Theorem resolve_exact W (simplifyExprs : bool) (timed_out : state S bool)
    (cs : list expr) (a : AddressSpace) (p : expr) (maxResolutions : Z) (s : S)
    (HW : 0 < W <= 64)
    (HS : SolverContract checked solver Inv)
    (Htime : sholds Inv timed_out (fun _ => True))
    (Hp : query_ok checked (MkQuery cs p)) (HpW : getWidth p = W)
    (Hm : laid_out W (objects a)) (Hs : Inv s) :
  exists rl incomplete s',
    resolve false W (simplifyExpr false hash) solver simplifyExprs timed_out cs a p [] maxResolutions s = Ok ((rl, incomplete), s') /\ Inv s' /\
    NoDup rl /\
    (forall op, op ∈ rl -> op ∈ elements (objects a) /\
       exists ρ v, sat checked ρ cs /\ denote checked ρ p = Some v /\ in_object (fst op) v = true) /\
    (2 <= maxResolutions -> Z.of_nat (length rl) <= maxResolutions) /\
    (incomplete = false -> forall op ρ v, op ∈ elements (objects a) ->
       sat checked ρ cs -> denote checked ρ p = Some v -> in_object (fst op) v = true -> op ∈ rl).
Proof.
  destruct (resolve_ok false checked ltac:(done) W HW _ (simplifyExpr_simplifier checked hash) solver Inv simplifyExprs timed_out Htime cs p Hp HpW
    (objects a) Hm maxResolutions a eq_refl s Hs) as ([rl inc] & s' & E & Hs' & [H1 H2 H3] & H4). cbn [fst snd] in *.
  exists rl, inc, s'. split_and!; try done.
  - intros op Hop. destruct (H2 op Hop) as (Hin & v & (ρ & Hρ & Hv) & Hi). split; [done|]. by exists ρ, v.
  - intros Hinc op ρ v Hop Hρ Hv Hi. apply (H4 Hinc op Hop). exists v. split; [by exists ρ|done].
Qed.

(** [resolveOne] returns an object that contains the pointer in some
    solution of the constraints, or no object when none does in any solution,
    unless the solver failed; for a constant pointer it is the object that
    contains the address. *)
Theorem resolveOne_exact W (simplifyExprs : bool)
    (cs : list expr) (a : AddressSpace) (p : expr) (s : S)
    (HW : 0 < W <= 64)
    (HS : SolverContract checked solver Inv)
    (Hp : query_ok checked (MkQuery cs p)) (HpW : getWidth p = W)
    (Hm : laid_out W (objects a)) (Hs : Inv s) :
  exists r s', resolveOne false W (simplifyExpr false hash) solver simplifyExprs cs a p s = Ok (r, s') /\ Inv s' /\
    match r with
    | Some (Some op) => op ∈ elements (objects a) /\
        exists ρ v, sat checked ρ cs /\ denote checked ρ p = Some v /\ in_object (fst op) v = true
    | Some None => forall op ρ v, op ∈ elements (objects a) ->
        sat checked ρ cs -> denote checked ρ p = Some v -> in_object (fst op) v = false
    | None => isConstant p = false
    end.
Proof.
  destruct (resolveOne_ok false checked ltac:(done) W HW _ (simplifyExpr_simplifier checked hash) solver Inv simplifyExprs cs p Hp HpW
    (objects a) Hm a eq_refl s Hs) as (r & s' & E & Hs' & Hr). exists r, s'. split; [done|]. split; [done|].
  destruct r as [[op|]|]; cbn [resolved_one] in Hr.
  - destruct Hr as (Hin & v & (ρ & Hρ & Hv) & Hi). split; [done|]. by exists ρ, v.
  - intros op ρ v Hop Hρ Hv. apply (Hr op Hop). by exists ρ.
  - destruct p as [CE| | | | | | | |]; try done. exfalso. clear -E. unfold resolveOne, sbind, slift in E.
    by destruct (resolveOne_constant a CE).
Qed.
End theorems.

(** ** Witnesses *)
Section witnesses.
Import ExprSem.Examples SolverExamples.
#[local] Existing Instance ExprSem.Examples.arrays.
#[local] Instance example_scope : Scope false false := solid_scope false false.
#[local] Instance example_rewrite : RewriteScope false false := solid_rewrite_scope false false.

(* two neighbours, of four bytes each *)
Definition low_object : MemoryObject := MemoryObject_new 1 4096 4 true false false 0.
Definition high_object : MemoryObject := MemoryObject_new 2 4100 4 true false false 0.
Definition two_objects : MemoryMap :=
  Node Terminator (low_object, 1%positive) (Node Terminator (high_object, 2%positive) Terminator 1) 2.
Definition two_space : AddressSpace := MkAddressSpace 1 two_objects.

Lemma two_laid_out : laid_out 16 two_objects.
Proof.
  split.
  - split; [cbn; lia|]. unfold bst, two_objects. cbn [elements app]. repeat constructor.
  - unfold two_objects. cbn [elements app]. repeat constructor; cbn; lia.
  - unfold two_objects. cbn [elements app]. unfold apart. repeat constructor; cbn; lia.
Qed.

Definition zeros : env := fun _ _ => 0.
Definition two_guesses : SolverImpl unit := GuessSolver false false [fives; zeros].
Definition never : state unit bool := sret false.

(* the pointer 4096 + a[0] is in the high object *)
Definition in_high : expr :=
  match getBoundsCheckPointer false 16 high_object sample_pointer with Ok e => e | _ => sample_pointer end.

Lemma sample_pointer_wt : wt sample_pointer.
Proof. split; [cbn; lia|exact (wt_a_at 0)]. Qed.

Lemma pointer_query : query_ok false (MkQuery [in_high] sample_pointer).
Proof.
  destruct (getBoundsCheckPointer_ok false false ltac:(done) 16 ltac:(lia) high_object sample_pointer)
    as (e & E & He & Hew & Hd); [split_and!; cbn; lia|exact sample_pointer_wt|done|].
  assert (match getBoundsCheckPointer false 16 high_object sample_pointer with Ok e => isConstant e | _ => true end = false)
    as Hc by reflexivity.
  assert (is_solid in_high) as Hsol by reflexivity.
  assert (in_high = e) as Eh by (unfold in_high; by rewrite E). rewrite Eh in Hsol |- *. rewrite E in Hc.
  split; [split; [|split; [exact sample_pointer_wt|split]]|].
  - by constructor.
  - intros ρ _. by eexists.
  - split; [|reflexivity]. constructor; [|constructor]. by split.
  - exists fives. constructor; [|done]. apply Hd. reflexivity.
Qed.

Lemma resolve_exact_witness :
  resolve false 16 (simplifyExpr false true) two_guesses true never [in_high] two_space sample_pointer [] 0 tt =
    Ok (([(high_object, 2%positive)], false), tt) /\
  forall ρ v, sat false ρ [in_high] -> denote false ρ sample_pointer = Some v -> in_object low_object v = true -> False.
Proof.
  destruct (resolve_exact false true two_guesses (fun _ => True) 16 true never [in_high] two_space
    sample_pointer 0 tt) as (rl & inc & s' & E & _ & _ & _ & _ & Hc).
  - lia.
  - by apply GuessSolver_contract.
  - by apply sholds_ret.
  - exact pointer_query.
  - reflexivity.
  - exact two_laid_out.
  - exact I.
  - assert (resolve false 16 (simplifyExpr false true) two_guesses true never [in_high] two_space sample_pointer [] 0 tt =
      Ok (([(high_object, 2%positive)], false), tt)) as E0 by reflexivity.
    split; [exact E0|]. intros ρ v Hρ Hv Hi. rewrite E in E0. injection E0 as -> -> _.
    specialize (Hc eq_refl (low_object, 1%positive) ρ v ltac:(by left) Hρ Hv Hi).
    by apply list_elem_of_singleton in Hc.
Defined.

Lemma resolveOne_exact_witness :
  resolveOne false 16 (simplifyExpr false true) two_guesses true [in_high] two_space sample_pointer tt =
    Ok (Some (Some (high_object, 2%positive)), tt) /\
  exists ρ v, sat false ρ [in_high] /\ denote false ρ sample_pointer = Some v /\ in_object high_object v = true.
Proof.
  destruct (resolveOne_exact false true two_guesses (fun _ => True) 16 true [in_high] two_space
    sample_pointer tt) as (r & s' & E & _ & Hr).
  - lia.
  - by apply GuessSolver_contract.
  - exact pointer_query.
  - reflexivity.
  - exact two_laid_out.
  - exact I.
  - assert (resolveOne false 16 (simplifyExpr false true) two_guesses true [in_high] two_space sample_pointer tt =
      Ok (Some (Some (high_object, 2%positive)), tt)) as E0 by reflexivity.
    split; [exact E0|]. rewrite E in E0. injection E0 as -> _. exact (proj2 Hr).
Defined.

(** A bound of one is not kept: the first object found is counted before it is
    compared with the bound. *)
Lemma bound_of_one_exceeded :
  resolve false 16 (simplifyExpr false true) two_guesses true never [] two_space sample_pointer [] 1 tt =
    Ok (([(high_object, 2%positive); (low_object, 1%positive)], true), tt).
Proof. reflexivity. Qed.

End witnesses.
