(* ===== verification/AddressSpaceCow.v ===== *)
(** Address spaces share object states by copy on write (AddressSpace.cpp).

    A [System] is the address spaces of the execution states over one heap.  Its
    steps are the operations of a space: a fork, a binding of a new object, a
    removal, an access that keeps the contents of an object, and a write to
    the object [getWriteable] returns.  [sys_ok] is the invariant that makes
    the sharing invisible: a space owns an object state only if no other space
    binds it. *)
From Stdlib Require Import ZArith Lia Bool.
From stdpp Require Import base list numbers option sets gmap fin_map_dom relations.
From S2P Require Import Prelude APInt Expr ExprSem ImmutableTree ObjectState ObjectStateInv ObjectStateSpec MemoryObject AddressSpace AddressSpaceResolve.
Open Scope Z_scope.

(** ** The map of a space *)

Lemma equiv_mo mo mo' : equiv_keys mo_lt mo mo' = (mo_address mo =? mo_address mo').
Proof.
  unfold equiv_keys, mo_lt. apply eq_true_iff_eq. rewrite andb_true_iff, !negb_true_iff, !Z.ltb_ge, Z.eqb_eq. lia.
Qed.

Lemma replace_object m mo (p : os_ref) k :
  ImmutableMap.wf mo_lt m ->
  exists m', ImmutableMap.replace mo_lt m (mo, p) = Ok m' /\ ImmutableMap.wf mo_lt m' /\
    forall mo', findObject mo' (MkAddressSpace k m') =
      if mo_address mo =? mo_address mo' then Some p else findObject mo' (MkAddressSpace k m).
Proof.
  intros [Ha Hb]. destruct (tree_updates ImmutableMap.Select1st mo_lt m (mo, p) mo Ha Hb) as (_ & (m' & E & Ha' & Hb' & Hl) & _).
  exists m'. split; [exact E|]. split; [done|]. intros mo'. unfold findObject, ImmutableMap.lookup. cbn [objects].
  rewrite Hl, equiv_mo. cbn. by destruct (mo_address mo =? mo_address mo').
Qed.

Lemma remove_object m mo k :
  ImmutableMap.wf mo_lt m ->
  exists m', ImmutableMap.remove mo_lt m mo = Ok m' /\ ImmutableMap.wf mo_lt m' /\
    forall mo', findObject mo' (MkAddressSpace k m') =
      if mo_address mo =? mo_address mo' then None else findObject mo' (MkAddressSpace k m).
Proof.
  intros [Ha Hb]. destruct (tree_updates ImmutableMap.Select1st mo_lt m (mo, xH) mo Ha Hb) as (_ & _ & (m' & E & Ha' & Hb' & Hl)).
  exists m'. split; [exact E|]. split; [done|]. intros mo'. unfold findObject, ImmutableMap.lookup. cbn [objects].
  rewrite Hl, equiv_mo. by destruct (mo_address mo =? mo_address mo').
Qed.

Lemma findObject_address mo mo' a :
  ImmutableMap.wf mo_lt (objects a) -> mo_address mo = mo_address mo' -> findObject mo a = findObject mo' a.
Proof.
  intros [_ Hb] E. unfold findObject, ImmutableMap.lookup. rewrite !(lookup_find _ _ _ _ Hb). f_equal.
  assert (forall x : ObjectPair, same_key ImmutableMap.Select1st mo_lt mo x = same_key ImmutableMap.Select1st mo_lt mo' x) as Hk.
  { intros x. unfold same_key, below, above, mo_lt. by rewrite E. }
  clear -Hk. induction (elements (objects a)) as [|x l IH]; [done|]. cbn. by rewrite Hk, IH.
Qed.

Section cow.
Context {A : APInt} {L : APIntLaws A} {AR : Arrays} (checked : bool).

Notation represents := (represents checked).

(** The state a space binds to an object. *)
Definition view (a : AddressSpace) (h : heap) (mo : MemoryObject) : option ObjectState :=
  p ← findObject mo a; h !! p.

(** ** The invariant *)

Definition System : Type := list AddressSpace * heap.

Record sys_ok (s : System) : Prop := {
  so_space i a : fst s !! i = Some a -> ImmutableMap.wf mo_lt (objects a) /\ 0 < cowKey a < 2 ^ 32;
  so_bound i a mo p : fst s !! i = Some a -> findObject mo a = Some p ->
    exists o, snd s !! p = Some o /\ shape o /\ 0 < copyOnWriteOwner o <= cowKey a;
  so_once i a mo mo' p : fst s !! i = Some a -> findObject mo a = Some p -> findObject mo' a = Some p ->
    mo_address mo = mo_address mo';
  so_owned i j a b mo mo' p o : i <> j -> fst s !! i = Some a -> fst s !! j = Some b ->
    findObject mo a = Some p -> findObject mo' b = Some p -> snd s !! p = Some o -> copyOnWriteOwner o <> cowKey a;
}.

Definition start_system : System := ([AddressSpace_new], ∅).

Lemma system_start_ok : sys_ok start_system.
Proof.
  assert (forall i a, [AddressSpace_new] !! i = Some a -> a = AddressSpace_new) as H by (by intros [|] a [= <-]).
  split; cbn [fst snd start_system].
  - intros i a ->%H. cbn. split; [apply ImmutableMap.wf_new|lia].
  - by intros i a mo p ->%H.
  - by intros i a mo mo' p ->%H.
  - by intros i j a b mo mo' p o _ ->%H.
Qed.

(** A change of one space and of the heap that keeps the invariant. *)
Lemma sys_ok_change ss h i a a' h' :
  sys_ok (ss, h) -> ss !! i = Some a ->
  ImmutableMap.wf mo_lt (objects a') -> cowKey a' = cowKey a ->
  (forall mo p, findObject mo a' = Some p -> exists o, h' !! p = Some o /\ shape o /\ 0 < copyOnWriteOwner o <= cowKey a) ->
  (forall mo mo' p, findObject mo a' = Some p -> findObject mo' a' = Some p -> mo_address mo = mo_address mo') ->
  (* what other spaces bind keeps its owner *)
  (forall j b mo p o, i <> j -> ss !! j = Some b -> findObject mo b = Some p -> h !! p = Some o ->
     exists o', h' !! p = Some o' /\ shape o' /\ copyOnWriteOwner o' = copyOnWriteOwner o) ->
  (* and what this space newly binds no other does *)
  (forall j b mo mo' p, i <> j -> ss !! j = Some b -> findObject mo a' = Some p -> findObject mo' b = Some p ->
     exists mo0, findObject mo0 a = Some p) ->
  sys_ok (<[i := a']> ss, h').
Proof.
  intros [H1 H2 H3 H4] Hi Hwf Hk Hb Ho Hoth Hnew. cbn [fst snd] in *.
  assert (forall j b, <[i := a']> ss !! j = Some b -> (j = i /\ b = a') \/ (i <> j /\ ss !! j = Some b)) as Hl.
  { intros j b Hj. destruct (decide (i = j)) as [<-|Hne]; [|rewrite list_lookup_insert_ne in Hj by done; auto].
    rewrite list_lookup_insert_eq in Hj by (by eapply lookup_lt_Some). injection Hj as ->. auto. }
  split; cbn [fst snd].
  - intros j b [[-> ->]|[_ Hj]]%Hl; [|by eapply H1]. split; [done|]. rewrite Hk. by apply (H1 i).
  - intros j b mo p [[-> ->]|[Hne Hj]]%Hl Hf; [rewrite Hk; by eapply Hb|].
    destruct (H2 j b mo p Hj Hf) as (o & Hp & Hs & Hw). destruct (Hoth j b mo p o Hne Hj Hf Hp) as (o' & Hp' & Hs' & E).
    exists o'. by rewrite E.
  - intros j b mo mo' p [[-> ->]|[_ Hj]]%Hl Hf Hf'; [by eapply Ho|by eapply H3].
  - intros j k b c mo mo' p o Hjk [[-> ->]|[Hne Hj]]%Hl [[-> ->]|[Hne' Hk']]%Hl Hf Hf' Hp; [done| | |].
    + destruct (Hnew k c mo mo' p Hne' Hk' Hf Hf') as [mo0 Hf0]. destruct (H2 k c mo' p Hk' Hf') as (o0 & Hp0 & _).
      destruct (Hoth k c mo' p o0 Hne' Hk' Hf' Hp0) as (o' & Hp' & _ & E). rewrite Hp in Hp'. injection Hp' as <-.
      rewrite E, Hk. by eapply (H4 i k a c mo0 mo').
    + destruct (Hnew j b mo' mo p Hne Hj Hf' Hf) as [mo0 Hf0]. destruct (H2 j b mo p Hj Hf) as (o0 & Hp0 & _).
      destruct (Hoth j b mo p o0 Hne Hj Hf Hp0) as (o' & Hp' & _ & E). rewrite Hp in Hp'. injection Hp' as <-.
      rewrite E. by eapply (H4 j i b a mo mo0).
    + destruct (H2 j b mo p Hj Hf) as (o0 & Hp0 & _). destruct (Hoth j b mo p o0 Hne Hj Hf Hp0) as (o' & Hp' & _ & E).
      rewrite Hp in Hp'. injection Hp' as <-. rewrite E. by eapply (H4 j k b c mo mo').
Qed.

(** ** [getWriteable] *)

Lemma set_owner_same o k : copyOnWriteOwner o = k -> set_owner k o = o.
Proof. intros <-. by destruct o. Qed.

Lemma shape_set_owner o k : shape o -> shape (set_owner k o).
Proof. intros []. by split. Qed.

(** [wp] is the object state of [mo] that [a'] may write to. *)
Record writeable (ss : list AddressSpace) (h : heap) (i : nat) (a : AddressSpace) (mo : MemoryObject) (o : ObjectState)
    (wp : os_ref) (a' : AddressSpace) (h' : heap) : Prop := {
  wr_wf : ImmutableMap.wf mo_lt (objects a');
  wr_key : cowKey a' = cowKey a;
  wr_find mo' : findObject mo' a' = if mo_address mo =? mo_address mo' then Some wp else findObject mo' a;
  wr_state : h' !! wp = Some (set_owner (cowKey a) o);
  wr_others q : q <> wp -> h' !! q = h !! q;
  wr_private j b mo' : i <> j -> ss !! j = Some b -> findObject mo' b <> Some wp;
  wr_mine mo' : mo_address mo <> mo_address mo' -> findObject mo' a <> Some wp;
}.

Lemma getWriteable_ok ss h i a mo p o :
  sys_ok (ss, h) -> ss !! i = Some a -> findObject mo a = Some p -> h !! p = Some o -> readOnly o = false ->
  exists wp a' h', getWriteable mo p (a, h) = Ok (wp, (a', h')) /\ writeable ss h i a mo o wp a' h' /\
    (copyOnWriteOwner o = cowKey a -> wp = p /\ a' = a /\ h' = h).
Proof.
  intros [H1 H2 H3 H4] Hi Hf Hp Hro. cbn [fst snd] in *. destruct (H1 i a Hi) as [Hwf _].
  unfold getWriteable, deref. rewrite Hp. cbn [res_bind]. rewrite Hro. cbn [negb res_assert].
  destruct (Z.eqb_spec (cowKey a) (copyOnWriteOwner o)) as [E|E].
  - exists p, a, h. split; [done|]. split; [|done]. split; [done|done| |by rewrite set_owner_same|done| |].
    + intros mo'. destruct (Z.eqb_spec (mo_address mo) (mo_address mo')) as [Ea|]; [|done].
      by rewrite <- (findObject_address mo mo').
    + intros j b mo' Hne Hj Hf'. by apply (H4 i j a b mo mo' p o Hne Hi Hj Hf Hf' Hp).
    + intros mo' Hne Hf'. by apply Hne, (H3 i a mo mo' p).
  - destruct (H2 i a mo p Hi Hf) as (o' & Hp' & Hs & _). rewrite Hp in Hp'. injection Hp' as <-.
    rewrite ObjectState_copy_ok by done. cbn [res_bind].
    set (wp := fresh (dom h : gset os_ref)). assert (h !! wp = None) as Hfresh by (apply not_elem_of_dom; apply is_fresh).
    destruct (replace_object (objects a) mo wp (cowKey a) Hwf) as (m' & Em & Hwf' & Hfind). rewrite Em. cbn [res_bind].
    eexists wp, _, _. split; [done|]. split; [|intros Eo; by rewrite Eo in E].
    assert (forall j b mo', ss !! j = Some b -> findObject mo' b <> Some wp) as Hno.
    { intros j b mo' Hj Hf'. destruct (H2 j b mo' wp Hj Hf') as (o' & Hp' & _). congruence. }
    split; cbn [objects cowKey]; [done|done| | | | |].
    + intros mo'. rewrite Hfind. by destruct a.
    + by rewrite lookup_insert_eq.
    + intros q Hq. by rewrite lookup_insert_ne.
    + intros j b mo' _. apply Hno.
    + intros mo' _. by apply (Hno i).
Qed.

(** Writing to it. *)
Lemma space_write_ok ss h i a mo p o wp a' h' w :
  sys_ok (ss, h) -> ss !! i = Some a -> findObject mo a = Some p -> h !! p = Some o ->
  writeable ss h i a mo o wp a' h' -> shape w -> copyOnWriteOwner w = cowKey a ->
  sys_ok (<[i := a']> ss, <[wp := w]> h') /\
  view a' (<[wp := w]> h') mo = Some w /\
  (forall mo', mo_address mo <> mo_address mo' -> view a' (<[wp := w]> h') mo' = view a h mo') /\
  (forall j b mo', i <> j -> ss !! j = Some b -> view b (<[wp := w]> h') mo' = view b h mo').
Proof.
  intros Hok Hi Hf Hp [W1 W2 W3 W4 W5 W6 W7] Hs Hw. pose proof Hok as [H1 H2 H3 H4]. cbn [fst snd] in *.
  destruct (H1 i a Hi) as [_ Hk].
  assert (forall q, q <> wp -> (<[wp := w]> h' : heap) !! q = h !! q) as Hother by (intros q Hq; rewrite lookup_insert_ne by done; auto).
  assert (forall j b mo', i <> j -> ss !! j = Some b -> view b (<[wp := w]> h') mo' = view b h mo') as Hview.
  { intros j b mo' Hne Hj. unfold view. destruct (findObject mo' b) as [q|] eqn:E; [|done]. cbn. apply Hother.
    intros ->. by apply (W6 j b mo' Hne Hj). }
  split_and!.
  - apply (sys_ok_change ss h i a); try done.
    + intros mo' q. rewrite W3. destruct (Z.eqb_spec (mo_address mo) (mo_address mo')) as [|Hne].
      * intros [= <-]. rewrite lookup_insert_eq. exists w. split_and!; [done|done|lia|lia].
      * intros Hq. rewrite Hother by (intros ->; by apply (W7 mo')). by eapply H2.
    + intros mo1 mo2 q. rewrite !W3. destruct (Z.eqb_spec (mo_address mo) (mo_address mo1)), (Z.eqb_spec (mo_address mo) (mo_address mo2));
        intros E1 E2; [lia| | |by eapply H3].
      * injection E1 as <-. by destruct (W7 mo2).
      * injection E2 as <-. by destruct (W7 mo1).
    + intros j b mo' q oo Hne Hj Hq Ho. rewrite Hother by (intros ->; by apply (W6 j b mo' Hne Hj)).
      destruct (H2 j b mo' q Hj Hq) as (o' & Ho' & Hs' & _). rewrite Ho in Ho'. injection Ho' as <-. by exists oo.
    + intros j b mo1 mo2 q Hne Hj. rewrite W3. destruct (mo_address mo =? mo_address mo1); [|by eauto].
      intros [= <-] Hq. by destruct (W6 j b mo2 Hne Hj).
  - unfold view. rewrite W3, Z.eqb_refl. cbn. by rewrite lookup_insert_eq.
  - intros mo' Hne. unfold view. rewrite W3, (proj2 (Z.eqb_neq _ _)) by done.
    destruct (findObject mo' a) as [q|] eqn:E; [|done]. cbn. apply Hother. intros ->. by apply (W7 mo' Hne).
  - exact Hview.
Qed.

(** ** Steps *)

(** A step of the space [i].  A new space is added at the end of the list. *)
Inductive step (i : nat) : System -> System -> Prop :=
| step_fork ss h a :
    ss !! i = Some a -> cowKey a + 1 < 2 ^ 32 ->
    step i (ss, h) (<[i := snd (AddressSpace_copy a)]> ss ++ [fst (AddressSpace_copy a)], h)
| step_bind ss h a mo p o a' h' :
    ss !! i = Some a -> h !! p = None -> shape o -> copyOnWriteOwner o = 0 ->
    bindObject mo p (a, <[p := o]> h) = Ok (tt, (a', h')) ->
    step i (ss, h) (<[i := a']> ss, h')
| step_unbind ss h a mo a' :
    ss !! i = Some a -> unbindObject mo a = Ok a' ->
    step i (ss, h) (<[i := a']> ss, h)
| step_read ss h a mo p o o' :
    ss !! i = Some a -> findObject mo a = Some p -> h !! p = Some o ->
    shape o' -> frame o' = frame o -> (forall c, represents c o -> represents c o') ->
    step i (ss, h) (ss, <[p := o']> h)
| step_write ss h a mo p o wp a' h' w w' :
    ss !! i = Some a -> findObject mo a = Some p -> h !! p = Some o ->
    getWriteable mo p (a, h) = Ok (wp, (a', h')) -> h' !! wp = Some w -> shape w' -> frame w' = frame w ->
    step i (ss, h) (<[i := a']> ss, <[wp := w']> h').

(** The space shows [mo] with the contents [c]. *)
Definition shows (a : AddressSpace) (h : heap) (mo : MemoryObject) (c : contents) : Prop :=
  exists o, view a h mo = Some o /\ represents c o.

Definition undisturbed (i : nat) (s s' : System) : Prop :=
  forall j b, j <> i -> fst s !! j = Some b -> fst s' !! j = Some b /\
    forall mo c, shows b (snd s) mo c -> shows b (snd s') mo c.

Lemma undisturbed_views i ss h a' h' :
  (forall j b mo, i <> j -> ss !! j = Some b -> view b h' mo = view b h mo) -> undisturbed i (ss, h) (<[i := a']> ss, h').
Proof.
  intros Hv j b Hne Hj. cbn [fst snd] in *. split; [by rewrite list_lookup_insert_ne|]. intros mo c (o & Ho & Hc).
  exists o. by rewrite (Hv j).
Qed.


Lemma unchanged_space (ss : list AddressSpace) i a : ss !! i = Some a -> <[i := a]> ss = ss.
Proof. apply list_insert_id. Qed.

Lemma fork_ok ss h i a :
  sys_ok (ss, h) -> ss !! i = Some a -> cowKey a + 1 < 2 ^ 32 ->
  sys_ok (<[i := snd (AddressSpace_copy a)]> ss ++ [fst (AddressSpace_copy a)], h).
Proof.
  intros [H1 H2 H3 H4] Hi Hk. cbn [fst snd] in *. destruct (H1 i a Hi) as [_ Hr].
  set (ss' := <[i := snd (AddressSpace_copy a)]> ss ++ [fst (AddressSpace_copy a)]).
  assert (wrap 32 (cowKey a + 1) = cowKey a + 1) as Hw by (apply wrap_small; lia).
  (* every space stands for one of before *)
  assert (forall j b, ss' !! j = Some b -> exists j0 b0, ss !! j0 = Some b0 /\ objects b = objects b0 /\
    (j0 = i /\ b0 = a /\ cowKey b = cowKey a + 1 \/ j0 <> i /\ b = b0 /\ j = j0)) as Hl.
  { intros j b. subst ss'. intros [Hj|(_ & Hj)]%lookup_app_Some.
    - destruct (decide (i = j)) as [<-|Hne].
      + rewrite list_lookup_insert_eq in Hj by (by eapply lookup_lt_Some). injection Hj as <-.
        exists i, a. split_and!; [done|done|]. left. split_and!; [done|done|exact Hw].
      + rewrite list_lookup_insert_ne in Hj by done. exists j, b. split_and!; [done|done|]. right. by split_and!.
    - apply list_lookup_singleton_Some in Hj as [_ <-]. exists i, a. split_and!; [done|done|]. left. split_and!; [done|done|exact Hw]. }
  assert (forall b b0 mo, objects b = objects b0 -> findObject mo b = findObject mo b0) as Hf
    by (intros b b0 mo E; unfold findObject; by rewrite E).
  split; cbn [fst snd].
  - intros j b (j0 & b0 & Hj & E & Hc)%Hl. rewrite E. destruct (H1 j0 b0 Hj) as [Hwf Hb]. split; [done|].
    destruct Hc as [(_ & -> & ->)|(_ & -> & _)]; lia.
  - intros j b mo p (j0 & b0 & Hj & E & Hc)%Hl. rewrite (Hf b b0 mo E). intros Hfo.
    destruct (H2 j0 b0 mo p Hj Hfo) as (o & Ho & Hs & Hown). exists o. split_and!; [done|done|lia|].
    destruct Hc as [(_ & -> & ->)|(_ & -> & _)]; lia.
  - intros j b mo mo' p (j0 & b0 & Hj & E & _)%Hl. rewrite !(Hf b b0) by done. by eapply H3.
  - intros j k b c mo mo' p o Hjk (j0 & b0 & Hj & Eb & Hb)%Hl (k0 & c0 & Hk0 & Ec & Hc)%Hl. rewrite (Hf b b0), (Hf c c0) by done.
    intros Hfb Hfc Ho. destruct Hb as [(-> & -> & ->)|(Hne & -> & ->)].
    + destruct (H2 i a mo p Hi Hfb) as (o' & Ho' & _ & Hown). rewrite Ho in Ho'. injection Ho' as <-. lia.
    + destruct Hc as [(-> & -> & _)|(_ & -> & ->)]; [by apply (H4 j0 i b0 a mo mo' p o)|by apply (H4 j0 k0 b0 c0 mo mo' p o)].
Qed.

Lemma bind_ok ss h i a mo p o a' h' :
  sys_ok (ss, h) -> ss !! i = Some a -> h !! p = None -> shape o -> copyOnWriteOwner o = 0 ->
  bindObject mo p (a, <[p := o]> h) = Ok (tt, (a', h')) ->
  sys_ok (<[i := a']> ss, h') /\ forall j b mo', i <> j -> ss !! j = Some b -> view b h' mo' = view b h mo'.
Proof.
  intros Hok Hi Hp Hs Ho. pose proof Hok as [H1 H2 H3 H4]. cbn [fst snd] in *. destruct (H1 i a Hi) as [Hwf Hk].
  unfold bindObject, deref. rewrite lookup_insert_eq. cbn [res_bind]. rewrite Ho. cbn [Z.eqb res_assert].
  destruct (replace_object (objects a) mo p (cowKey a) Hwf) as (m' & -> & Hwf' & Hfind). cbn [res_bind]. intros [= <- <-].
  assert (forall j b mo', ss !! j = Some b -> findObject mo' b <> Some p) as Hno.
  { intros j b mo' Hj Hf. destruct (H2 j b mo' p Hj Hf) as (? & Hp' & _). congruence. }
  assert (forall q, q <> p -> (<[p := set_owner (cowKey a) o]> (<[p := o]> h) : heap) !! q = h !! q) as Hother
    by (intros q Hq; by rewrite !lookup_insert_ne).
  assert (a = MkAddressSpace (cowKey a) (objects a)) as Ea by (by destruct a). rewrite <- Ea in Hfind. split.
  - apply (sys_ok_change ss h i a); try done.
    + intros mo' q. rewrite Hfind. destruct (mo_address mo =? mo_address mo').
      * intros [= <-]. rewrite lookup_insert_eq. eexists. split_and!; [done|by apply shape_set_owner|cbn; lia|cbn; lia].
      * intros Hq. rewrite Hother by (intros ->; by apply (Hno i a mo')). by eapply H2.
    + intros mo1 mo2 q. rewrite !Hfind. destruct (Z.eqb_spec (mo_address mo) (mo_address mo1)), (Z.eqb_spec (mo_address mo) (mo_address mo2));
        intros E1 E2; [lia| | |by eapply H3].
      * injection E1 as <-. by destruct (Hno i a mo2).
      * injection E2 as <-. by destruct (Hno i a mo1).
    + intros j b mo' q oo Hne Hj Hq Hoo. rewrite Hother by (intros ->; by apply (Hno j b mo')).
      destruct (H2 j b mo' q Hj Hq) as (o' & Ho' & Hs' & _). rewrite Hoo in Ho'. injection Ho' as <-. by exists oo.
    + intros j b mo1 mo2 q Hne Hj. rewrite Hfind. destruct (mo_address mo =? mo_address mo1); [|by eauto].
      intros [= <-] Hq. by destruct (Hno j b mo2 Hj).
  - intros j b mo' Hne Hj. unfold view. destruct (findObject mo' b) as [q|] eqn:E; [|done]. cbn. apply Hother.
    intros ->. by apply (Hno j b mo').
Qed.

Lemma unbind_ok ss h i a mo a' :
  sys_ok (ss, h) -> ss !! i = Some a -> unbindObject mo a = Ok a' -> sys_ok (<[i := a']> ss, h).
Proof.
  intros Hok Hi. pose proof Hok as [H1 H2 H3 H4]. cbn [fst snd] in *. destruct (H1 i a Hi) as [Hwf Hk]. unfold unbindObject.
  destruct (remove_object (objects a) mo (cowKey a) Hwf) as (m' & -> & Hwf' & Hfind). cbn [res_bind]. intros [= <-].
  assert (a = MkAddressSpace (cowKey a) (objects a)) as Ea by (by destruct a). rewrite <- Ea in Hfind.
  assert (forall mo' q, findObject mo' (MkAddressSpace (cowKey a) m') = Some q -> findObject mo' a = Some q) as Hsub
    by (intros mo' q; rewrite Hfind; by destruct (mo_address mo =? mo_address mo')).
  apply (sys_ok_change ss h i a); try done.
  - intros mo' q Hq%Hsub. by eapply H2.
  - intros mo1 mo2 q E1%Hsub E2%Hsub. by eapply H3.
  - intros j b mo' q oo _ Hj Hq Hoo. destruct (H2 j b mo' q Hj Hq) as (o' & Ho' & Hs' & _). exists o'. split_and!; congruence.
  - intros j b mo1 mo2 q _ _ E1%Hsub _. by exists mo1.
Qed.

Lemma space_read_ok ss h i a mo p o o' :
  sys_ok (ss, h) -> ss !! i = Some a -> findObject mo a = Some p -> h !! p = Some o ->
  shape o' -> frame o' = frame o -> sys_ok (ss, <[p := o']> h).
Proof.
  intros Hok Hi Hf Hp Hs [= Ho _ _]. pose proof Hok as [H1 H2 H3 H4]. cbn [fst snd] in *.
  assert (forall j b mo' q, ss !! j = Some b -> findObject mo' b = Some q ->
    exists oo, (<[p := o']> h : heap) !! q = Some oo /\ shape oo /\ 0 < copyOnWriteOwner oo <= cowKey b) as Hb.
  { intros j b mo' q Hj Hq. destruct (H2 j b mo' q Hj Hq) as (oo & Hoo & Hso & Hown).
    destruct (decide (q = p)) as [->|Hne]; [|by rewrite lookup_insert_ne by done; exists oo].
    rewrite lookup_insert_eq. rewrite Hp in Hoo. injection Hoo as ->. exists o'. rewrite Ho. split_and!; [done|done|lia|lia]. }
  rewrite <- (unchanged_space ss i a Hi). apply (sys_ok_change ss h i a); try done.
  - by apply (H1 i).
  - intros mo' q Hq. by eapply Hb.
  - intros mo1 mo2 q. by eapply H3.
  - intros j b mo' q oo Hne Hj Hq Hoo. destruct (Hb j b mo' q Hj Hq) as (oo' & Hoo' & Hso & _). exists oo'. split_and!; [done|done|].
    destruct (decide (q = p)) as [->|Hqp].
    + rewrite lookup_insert_eq in Hoo'. congruence.
    + rewrite lookup_insert_ne in Hoo' by done. congruence.
  - intros j b mo1 mo2 q _ _ E1 _. by exists mo1.
Qed.

Lemma system_step_ok i s s' : sys_ok s -> step i s s' -> sys_ok s' /\ undisturbed i s s'.
Proof.
  intros Hok Hst. revert Hok. destruct Hst as [ss h a Hi Hk|ss h a mo p o a' h' Hi Hp Hs Ho E|ss h a mo a' Hi E|ss h a mo p o o' Hi Hf Hp Hs Ho Hc
    |ss h a mo p o wp a' h' w w' Hi Hf Hp E Hw Hs Hfr]; intros Hok.
  - split; [apply fork_ok; done|]. intros j b Hne Hj. cbn [fst snd] in *. split; [|done].
    rewrite lookup_app_l by (rewrite length_insert; by eapply lookup_lt_Some). by rewrite list_lookup_insert_ne.
  - destruct (bind_ok ss h i a mo p o a' h') as [H1 H2]; [done..|]. split; [done|]. by apply undisturbed_views.
  - split; [by eapply unbind_ok|]. by apply undisturbed_views.
  - split; [by eapply space_read_ok|]. intros j b Hne Hj. split; [done|]. intros mo' c (oo & Hoo & Hcc). unfold shows, view in *. cbn [fst snd] in *.
    destruct (findObject mo' b) as [q|]; [|done]. cbn in *. destruct (decide (q = p)) as [->|Hqp].
    + rewrite lookup_insert_eq. exists o'. split; [done|]. apply Hc. congruence.
    + rewrite lookup_insert_ne by done. by exists oo.
  - assert (readOnly o = false) as Hro.
    { unfold getWriteable, deref in E. rewrite Hp in E. cbn in E. by destruct (readOnly o). }
    destruct (getWriteable_ok ss h i a mo p o Hok Hi Hf Hp Hro) as (wp' & a2 & h2 & E' & Hwr & _). rewrite E in E'.
    injection E' as <- <- <-. pose proof (wr_state _ _ _ _ _ _ _ _ _ Hwr) as Hst. rewrite Hw in Hst. injection Hst as ->.
    injection Hfr as Hown _ _. cbn in Hown.
    destruct (space_write_ok ss h i a mo p o wp a' h' w') as (H1 & _ & _ & H2); [done..|]. split; [done|]. by apply undisturbed_views.
Qed.

End cow.

(** ** Properties *)
Section theorems.
Context {A : APInt} {L : APIntLaws A} {AR : Arrays} (checked : bool).

Definition reachable (s : System) : Prop := rtc (fun s s' => exists i, step checked i s s') start_system s.

Lemma reachable_ok s : reachable s -> sys_ok s.
Proof.
  intros H. unfold reachable in H. pose proof system_start_ok as H0. revert H0.
  induction H as [x|x y z [i Hst] _ IH]; [done|]. intros Hx. apply IH. by eapply (system_step_ok checked i x y).
Qed.

(** C22. Copy on write isolates the states: in every system reachable by forks,
    bindings, removals, accesses and writes, a step of one address space changes
    neither the map of another one nor the contents of any object it shows, and
    no space binds an object state with an owner above its counter. *)
Theorem copy_on_write_isolation (s s' : System) (i : nat) (Hs : reachable s) (Hst : step checked i s s') :
  (forall j b, j <> i -> fst s !! j = Some b -> fst s' !! j = Some b /\
     forall mo c, shows checked b (snd s) mo c -> shows checked b (snd s') mo c) /\
  (forall j b mo p, fst s' !! j = Some b -> findObject mo b = Some p ->
     exists o, snd s' !! p = Some o /\ 0 < copyOnWriteOwner o <= cowKey b).
Proof.
  destruct (system_step_ok checked i s s' (reachable_ok s Hs) Hst) as [Hok Hu]. split; [exact Hu|].
  intros j b mo p Hj Hf. destruct (so_bound _ Hok j b mo p Hj Hf) as (o & Ho & _ & Hown). by exists o.
Qed.

(** [getWriteable] gives the object state of the object, or an equal copy
    under the space's own key, which no other binding refers to: writing to it
    changes this object in this space and nothing else.  A space that owns the
    state gets it without a copy. *)
Theorem getWriteable_private (s : System) (i : nat) (a : AddressSpace) (mo : MemoryObject) (p : os_ref) (o : ObjectState)
    (Hs : reachable s) (Hi : fst s !! i = Some a) (Hf : findObject mo a = Some p) (Hp : snd s !! p = Some o)
    (Hro : readOnly o = false) :
  exists wp a' h', getWriteable mo p (a, snd s) = Ok (wp, (a', h')) /\
    h' !! wp = Some (set_owner (cowKey a) o) /\ findObject mo a' = Some wp /\
    (copyOnWriteOwner o = cowKey a -> wp = p /\ a' = a /\ h' = snd s) /\
    forall w, shape w -> copyOnWriteOwner w = cowKey a ->
      view a' (<[wp := w]> h') mo = Some w /\
      (forall mo', mo_address mo <> mo_address mo' -> view a' (<[wp := w]> h') mo' = view a (snd s) mo') /\
      (forall j b mo', i <> j -> fst s !! j = Some b -> view b (<[wp := w]> h') mo' = view b (snd s) mo').
Proof.
  pose proof (reachable_ok s Hs) as Hok. destruct s as [ss h]. cbn [fst snd] in *.
  destruct (getWriteable_ok ss h i a mo p o Hok Hi Hf Hp Hro) as (wp & a' & h' & E & Hwr & Hsame).
  exists wp, a', h'. split_and!; [done|by eapply wr_state|by rewrite (wr_find _ _ _ _ _ _ _ _ _ Hwr), Z.eqb_refl|done|].
  intros w Hw Hown. destruct (space_write_ok ss h i a mo p o wp a' h' w) as (_ & H1 & H2 & H3); [done..|]. by split_and!.
Qed.
End theorems.

(** ** Witnesses *)
Section witnesses.
#[local] Existing Instance ExprSem.Examples.arrays.

Definition bytes78 : @ObjectState bv_apint := MkObjectState 0 [7; 8] None None None None UNil 2 false.
Definition obj : MemoryObject := MemoryObject_new 1 4096 2 true false false 0.

Lemma bytes78_shape k : shape (set_owner k bytes78).
Proof. split; cbn; try done; repeat constructor; lia. Qed.

(* a space that binds an object, and its fork *)
Definition one_object : MemoryMap := Node Terminator (obj, 1%positive) Terminator 1.
Definition bound_system : System := ([MkAddressSpace 1 one_object], {[ 1%positive := set_owner 1 bytes78 ]}).
Definition forked_system : System :=
  ([MkAddressSpace 2 one_object; MkAddressSpace 2 one_object], {[ 1%positive := set_owner 1 bytes78 ]}).

Lemma bound_reachable : reachable false bound_system.
Proof.
  apply rtc_once. exists 0%nat. unfold start_system, bound_system.
  assert ({[ 1%positive := set_owner 1 bytes78 ]} = <[ 1%positive := set_owner 1 bytes78 ]> (<[ 1%positive := bytes78 ]> (∅ : heap))) as ->
    by (rewrite insert_insert_eq; reflexivity).
  apply (step_bind false 0 [AddressSpace_new] ∅ AddressSpace_new obj 1%positive bytes78 (MkAddressSpace 1 one_object));
    [done|done|exact (bytes78_shape 0)|done|reflexivity].
Qed.

Lemma forked_reachable : reachable false forked_system.
Proof.
  eapply rtc_r; [exact bound_reachable|]. exists 0%nat.
  exact (step_fork false 0 [MkAddressSpace 1 one_object] {[ 1%positive := set_owner 1 bytes78 ]} (MkAddressSpace 1 one_object) eq_refl eq_refl).
Qed.

Lemma copy_on_write_isolation_witness :
  exists o, snd forked_system !! 1%positive = Some o /\ 0 < copyOnWriteOwner o <= 2.
Proof.
  destruct (copy_on_write_isolation false bound_system forked_system 0) as [_ H].
  - exact bound_reachable.
  - exact (step_fork false 0 [MkAddressSpace 1 one_object] {[ 1%positive := set_owner 1 bytes78 ]} (MkAddressSpace 1 one_object) eq_refl eq_refl).
  - exact (H 1%nat (MkAddressSpace 2 one_object) obj 1%positive eq_refl eq_refl).
Defined.

(* after the fork the first space gets a copy; the second still shows 7 8 *)
Lemma getWriteable_private_witness :
  exists wp a' h', getWriteable obj 1%positive (MkAddressSpace 2 one_object, snd forked_system) = Ok (wp, (a', h')) /\
    view a' (<[wp := set_store [9; 9] (set_owner 2 bytes78)]> h') obj = Some (set_store [9; 9] (set_owner 2 bytes78)) /\
    view (MkAddressSpace 2 one_object) (<[wp := set_store [9; 9] (set_owner 2 bytes78)]> h') obj = Some (set_owner 1 bytes78).
Proof.
  destruct (getWriteable_private false forked_system 0 (MkAddressSpace 2 one_object) obj 1%positive (set_owner 1 bytes78))
    as (wp & a' & h' & E & _ & _ & _ & H).
  - exact forked_reachable.
  - reflexivity.
  - reflexivity.
  - reflexivity.
  - reflexivity.
  - exists wp, a', h'. split; [exact E|]. destruct (H (set_store [9; 9] (set_owner 2 bytes78))) as (H1 & _ & H3).
    + split; cbn; try done; repeat constructor; lia.
    + reflexivity.
    + split; [exact H1|]. rewrite (H3 1%nat (MkAddressSpace 2 one_object) obj ltac:(lia) eq_refl). reflexivity.
Defined.
End witnesses.
