(* ===== verification/AddressSpaceExternal.v ===== *)
(** The memory external calls share with an address space: copyOutConcretes,
    copyInConcretes and copyInConcrete of AddressSpace.cpp.

    Before an external call the concrete stores of a space are written to the
    memory of the process, after it they are read back.  A read-only object is
    not written, and makes the call fail if its memory has changed. *)
From Stdlib Require Import ZArith Lia Bool Sorting.Sorted.
From stdpp Require Import base list numbers option sets sorting gmap fin_map_dom.
From S2P Require Import Prelude APInt Expr ExprSem ExprCreate ExprFactory BitArray ArrayCache ImmutableTree ObjectState ObjectStateInv ObjectStateCorrect ObjectStateSpec MemoryObject AddressSpace AddressSpaceResolve AddressSpaceCow.
Open Scope Z_scope.

(** ** The loops *)

(** A loop over a list that stops at the first failure. *)
Fixpoint each {T} (body : ObjectPair -> T -> res (bool * T)) (l : list ObjectPair) (s : T) : res (bool * T) :=
  match l with
  | [] => Ok (true, s)
  | x :: l => let* r := body x s in if fst r then each body l (snd r) else Ok (false, snd r)
  end.

Lemma for_objects_each {T} m (body : ObjectPair -> T -> res (bool * T)) fuel it d u s :
  ImmutableMap.wf mo_lt m -> iter_at m it d u -> (length u <= fuel)%nat ->
  for_objects fuel it (end_ m) body s = each body u s.
Proof.
  intros [Ha Hb]. revert it d u s. induction fuel as [|fuel IH]; intros it d u s Hi Hf; cbn [for_objects];
    rewrite (it_eqb_ok _ _ m it d u (end_ m) (elements m) [] Ha Hb Hi (iter_end m));
    (destruct u as [|x u]; [done|]); cbn in Hf; [lia|].
  rewrite bool_decide_false by done. assert (it_get (V:=ObjectPair) it = Ok x) as -> by (by eapply it_get_ok).
  destruct (it_next_ok ImmutableMap.Select1st mo_lt m it d x u Ha Hb Hi) as (it' & E & Hi').
  cbn [res_bind each]. destruct (body x s) as [[b s']| |]; [|done|done]. cbn [res_bind fst snd]. destruct b; [|done].
  rewrite E. cbn [res_bind]. by apply (IH it' (d ++ [x])); [|lia].
Qed.

Lemma over_objects_each {T} m (body : ObjectPair -> T -> res (bool * T)) s :
  ImmutableMap.wf mo_lt m -> over_objects m body s = each body (elements m) s.
Proof.
  intros Hwf. pose proof Hwf as [Ha Hb]. unfold over_objects.
  destruct (begin_ok ImmutableMap.Select1st mo_lt m Ha Hb) as (it & -> & Hi). cbn [res_bind].
  apply (for_objects_each m body _ it []); [done|done|]. rewrite node_size_ok. lia.
Qed.

Section external.
Context {A : APInt} {L : APIntLaws A} {AR : Arrays}.

(** An object and its state agree on the size. *)
Definition sized (h : heap) (x : ObjectPair) : Prop :=
  exists o, h !! snd x = Some o /\ shape o /\ os_size o = mo_size (fst x).

(** The object is written to memory. *)
Definition exported (h : heap) (x : ObjectPair) (o : ObjectState) : Prop :=
  mo_isUserSpecified (fst x) = false /\ h !! snd x = Some o /\ readOnly o = false.

Definition covers (x : ObjectPair) (q : Z) : Prop := mo_address (fst x) <= q < mo_address (fst x) + mo_size (fst x).

Lemma shape_store_length o : shape o -> length (concreteStore o) = Z.to_nat (os_size o).
Proof. intros Hs. pose proof (shape_store _ Hs). lia. Qed.

Lemma store_prefix_ok o size : shape o -> os_size o = size -> store_prefix size o = Ok (concreteStore o).
Proof.
  intros Hs <-. unfold store_prefix. pose proof (shape_store_length o Hs) as Hl.
  rewrite (proj2 (Nat.leb_le _ _)) by lia. cbn [res_assert]. by rewrite take_ge by lia.
Qed.

(** *** Copying out *)

Lemma copy_out_object_ok h x mem :
  sized h x -> exists mem', copy_out_object h x mem = Ok (true, mem') /\
    (forall o, exported h x o -> mem' = copy_out mem (mo_address (fst x)) (concreteStore o)) /\
    ((forall o, ~ exported h x o) -> mem' = mem).
Proof.
  intros (o & Ho & Hs & Hz). destruct x as [mo p]. unfold copy_out_object, deref. cbn [fst snd] in *. rewrite Ho. cbn [res_bind].
  destruct (mo_isUserSpecified mo) eqn:Eu; [|destruct (readOnly o) eqn:Er].
  - eexists. split; [done|]. split; [|done]. intros o' (Hu & _). cbn in Hu. congruence.
  - eexists. split; [done|]. split; [|done]. intros o' (_ & Ho' & Hr). cbn in Ho'. congruence.
  - rewrite (store_prefix_ok o) by done. cbn [res_bind]. eexists. split; [done|]. split.
    + intros o' (_ & Ho' & _). cbn in Ho'. by rewrite Ho in Ho'; injection Ho' as <-.
    + intros Hn. by destruct (Hn o).
Qed.

Lemma copy_out_covered mem address bytes q :
  address <= q < address + Z.of_nat (length bytes) -> copy_out mem address bytes q = nth (Z.to_nat (q - address)) bytes 0.
Proof. intros Hq. unfold copy_out. by rewrite (proj2 (Z.leb_le _ _)), (proj2 (Z.ltb_lt _ _)) by lia. Qed.

Lemma copy_out_other mem address bytes q :
  ~ (address <= q < address + Z.of_nat (length bytes)) -> copy_out mem address bytes q = mem q.
Proof.
  intros Hq. unfold copy_out. destruct (Z.leb_spec address q); [|done]. by rewrite (proj2 (Z.ltb_ge _ _)) by lia.
Qed.

Lemma copy_out_each h l mem :
  StronglySorted apart l -> Forall (sized h) l ->
  exists mem', each (copy_out_object h) l mem = Ok (true, mem') /\
    (forall x o q, x ∈ l -> exported h x o -> covers x q ->
       mem' q = nth (Z.to_nat (q - mo_address (fst x))) (concreteStore o) 0) /\
    (forall q, (forall x o, x ∈ l -> exported h x o -> ~ covers x q) -> mem' q = mem q).
Proof.
  revert mem. induction l as [|x l IH]; intros mem Hs Hz; cbn [each].
  { exists mem. split; [done|]. split; [|done]. by intros x o q ?%not_elem_of_nil. }
  apply StronglySorted_inv in Hs as [Hs Hx]. apply Forall_cons_iff in Hz as [Hzx Hz]. rewrite list.Forall_forall in Hx.
  destruct (copy_out_object_ok h x mem Hzx) as (mem1 & E1 & Hexp & Hno). rewrite E1. cbn [res_bind fst snd].
  destruct (IH mem1 Hs Hz) as (mem' & E & Hin & Hout). exists mem'. split; [done|].
  destruct Hzx as (ox & Hox & Hsx & Hzx). pose proof (shape_store _ Hsx) as Hlen.
  assert (forall o q, exported h x o -> mem1 q = if bool_decide (covers x q)
    then nth (Z.to_nat (q - mo_address (fst x))) (concreteStore o) 0 else mem q) as H1.
  { intros o q Hxo. rewrite (Hexp o Hxo). destruct Hxo as (_ & Ho & _). rewrite Hox in Ho. injection Ho as <-.
    case_bool_decide as Hc; unfold covers in Hc; [apply copy_out_covered|apply copy_out_other]; rewrite Hlen, Hzx; done. }
  assert (forall q, covers x q -> forall y o, y ∈ l -> exported h y o -> ~ covers y q) as Hdis.
  { intros q Hq y o Hy _. specialize (Hx y Hy). unfold apart, covers in *. lia. }
  split.
  - intros y o q [->|Hy]%elem_of_cons He Hq; [|by apply (Hin y)]. rewrite (Hout q (Hdis q Hq)), (H1 o q He).
    by rewrite bool_decide_true.
  - intros q Hq. rewrite Hout; [|intros y o Hy; apply (Hq y o); by right].
    destruct (decide (mo_isUserSpecified (fst x) = false /\ readOnly ox = false)) as [[Hu Hr]|Hne].
    + rewrite (H1 ox q) by done. rewrite bool_decide_false; [done|]. apply (Hq x ox); [by left|done].
    + rewrite Hno; [done|]. intros o (Hu & Ho & Hr). rewrite Hox in Ho. injection Ho as <-. by apply Hne.
Qed.

(** *** Copying in *)

Lemma copy_in_length mem address n : length (copy_in mem address n) = n.
Proof. unfold copy_in. by rewrite length_fmap, length_seq. Qed.

Lemma copy_in_lookup mem address n i : (i < n)%nat -> copy_in mem address n !! i = Some (mem (address + Z.of_nat i)).
Proof. intros Hi. unfold copy_in. rewrite list_lookup_fmap, lookup_seq_lt by done. done. Qed.

Lemma copy_in_eq mem address bytes :
  (forall i, (i < length bytes)%nat -> mem (address + Z.of_nat i) = nth i bytes 0) -> copy_in mem address (length bytes) = bytes.
Proof.
  intros H. apply list_eq. intros i. destruct (decide (i < length bytes)%nat) as [Hi|Hi].
  - rewrite copy_in_lookup, H, nth_lookup by done. by destruct (lookup_lt_is_Some_2 bytes i Hi) as [b ->].
  - rewrite !lookup_ge_None_2; [done|lia|rewrite copy_in_length; lia].
Qed.

Lemma copy_in_bytes mem address n : (forall q, 0 <= mem q < 256) -> Forall (fun b => 0 <= b < 256) (copy_in mem address n).
Proof.
  intros Hm. apply list.Forall_forall. intros b Hb. unfold copy_in in Hb. apply list_elem_of_fmap in Hb as (i & -> & _). apply Hm.
Qed.

(** The state [copyInConcrete] leaves, and whether it succeeds. *)
Lemma copyInConcrete_ok ss h i a mo p o mem :
  (forall q, 0 <= mem q < 256) ->
  sys_ok (ss, h) -> ss !! i = Some a -> findObject mo a = Some p -> h !! p = Some o -> os_size o = mo_size mo ->
  let new := copy_in mem (mo_address mo) (Z.to_nat (mo_size mo)) in
  exists b a' h', copyInConcrete mem mo p (mo_address mo) (a, h) = Ok (b, (a', h')) /\
    b = bool_decide (new = concreteStore o) || negb (readOnly o) /\
    (new = concreteStore o -> a' = a /\ h' = h) /\
    sys_ok (<[i := a']> ss, h') /\
    (b = true -> exists k, view a' h' mo = Some (set_owner k (set_store new o))) /\
    (forall mo', mo_address mo <> mo_address mo' -> findObject mo' a' = findObject mo' a /\ view a' h' mo' = view a h mo') /\
    (forall j b mo', i <> j -> ss !! j = Some b -> view b h' mo' = view b h mo').
Proof.
  intros Hmem Hok Hi Hf Hp Hz new. destruct (so_bound _ Hok i a mo p Hi Hf) as (o' & Hp' & Hs & _). cbn [snd] in Hp'.
  rewrite Hp in Hp'. injection Hp' as <-. pose proof (shape_store_length o Hs) as Hlen.
  unfold copyInConcrete, deref. cbn [snd]. rewrite Hp. cbn [res_bind]. rewrite (store_prefix_ok o _ Hs Hz). cbn [res_bind]. fold new.
  assert (forall k, set_owner k (set_store (concreteStore o) o) = set_owner k o) as Hsame by (by destruct o).
  case_bool_decide as Hnew; [|destruct (readOnly o) eqn:Hro].
  - exists true, a, h. split_and!; [done|done|done|by rewrite (unchanged_space ss i a Hi)| |done|done].
    intros _. exists (copyOnWriteOwner o). unfold view. rewrite Hf. cbn. rewrite Hp, Hnew, Hsame. by rewrite set_owner_same.
  - exists false, a, h. split_and!; [done|done|done|by rewrite (unchanged_space ss i a Hi)|done|done|done].
  - destruct (getWriteable_ok ss h i a mo p o Hok Hi Hf Hp Hro) as (wp & a' & h' & -> & Hwr & _). cbn [res_bind].
    rewrite (wr_state _ _ _ _ _ _ _ _ _ Hwr). cbn [res_bind set_owner concreteStore].
    assert (length new = length (concreteStore o)) as Hl by (subst new; rewrite copy_in_length, Hlen; lia).
    rewrite (proj2 (Nat.leb_le _ _)) by lia. cbn [res_assert]. rewrite drop_ge, app_nil_r by lia.
    fold (set_owner (cowKey a) o). set (w := set_store new (set_owner (cowKey a) o)).
    assert (shape w) as Hsw.
    { destruct Hs as [S1 S2 S3 S4 S5 S6 S7 S8]. subst w. split; cbn; try done; [by rewrite Hl|by apply copy_in_bytes]. }
    destruct (space_write_ok ss h i a mo p o wp a' h' w Hok Hi Hf Hp Hwr Hsw eq_refl) as (H1 & H2 & H3 & H4).
    eexists true, a', _. split_and!; [done|done|done|exact H1| | |exact H4].
    + intros _. exists (cowKey a). exact H2.
    + intros mo' Hne. split; [|by apply H3]. by rewrite (wr_find _ _ _ _ _ _ _ _ _ Hwr), (proj2 (Z.eqb_neq _ _)).
Qed.

(** What the memory says of an object: nothing has changed, or it may change. *)
Definition acceptable (mem : Z -> Z) (mo : MemoryObject) (o : ObjectState) : bool :=
  mo_isUserSpecified mo || bool_decide (copy_in mem (mo_address mo) (Z.to_nat (mo_size mo)) = concreteStore o) || negb (readOnly o).

(** The state read back. *)
Definition read_back (mem : Z -> Z) (mo : MemoryObject) (o : ObjectState) : ObjectState :=
  if mo_isUserSpecified mo then o else set_store (copy_in mem (mo_address mo) (Z.to_nat (mo_size mo))) o.

Lemma copy_in_each ss i mem l a h :
  (forall q, 0 <= mem q < 256) ->
  sys_ok (ss, h) -> ss !! i = Some a -> StronglySorted apart l ->
  Forall (fun x => findObject (fst x) a = Some (snd x) /\ exists o, h !! snd x = Some o /\ os_size o = mo_size (fst x)) l ->
  exists b a' h', each (copy_in_object mem) l (a, h) = Ok (b, (a', h')) /\ sys_ok (<[i := a']> ss, h') /\
    (forall j b mo', i <> j -> ss !! j = Some b -> view b h' mo' = view b h mo') /\
    (forall mo', (forall x, x ∈ l -> mo_address (fst x) <> mo_address mo') -> view a' h' mo' = view a h mo') /\
    (b = true <-> forall x o, x ∈ l -> h !! snd x = Some o -> acceptable mem (fst x) o = true) /\
    (b = true -> forall x o, x ∈ l -> h !! snd x = Some o ->
       exists k, view a' h' (fst x) = Some (set_owner k (read_back mem (fst x) o))).
Proof.
  intros Hmem. revert ss a h. induction l as [|[mo p] l IH]; intros ss a h Hok Hi Hs Hb; cbn [each].
  { exists true, a, h. split_and!; [done|by rewrite (unchanged_space ss i a Hi)|done|done| |].
    - split; [|done]. by intros _ x o ?%not_elem_of_nil.
    - by intros _ x o ?%not_elem_of_nil. }
  apply StronglySorted_inv in Hs as [Hs Hx]. apply Forall_cons_iff in Hb as [(Hf & o & Ho & Hz) Hb]. cbn [fst snd] in *.
  rewrite list.Forall_forall in Hx. unfold copy_in_object at 1.
  assert (exists b a1 h1, (if mo_isUserSpecified mo then Ok (true, (a, h)) else copyInConcrete mem mo p (mo_address mo) (a, h)) = Ok (b, (a1, h1)) /\
    b = acceptable mem mo o /\ sys_ok (<[i := a1]> ss, h1) /\
    (b = true -> exists k, view a1 h1 mo = Some (set_owner k (read_back mem mo o))) /\
    (forall mo', mo_address mo <> mo_address mo' -> findObject mo' a1 = findObject mo' a /\ view a1 h1 mo' = view a h mo') /\
    (forall j b mo', i <> j -> ss !! j = Some b -> view b h1 mo' = view b h mo')) as (b & a1 & h1 & E1 & Eb & Hok1 & Hmo & Hother & Hview).
  { unfold acceptable, read_back. destruct (mo_isUserSpecified mo).
    - exists true, a, h. split_and!; [done|done|by rewrite (unchanged_space ss i a Hi)| |done|done].
      intros _. exists (copyOnWriteOwner o). unfold view. rewrite Hf. cbn. by rewrite Ho, set_owner_same.
    - destruct (copyInConcrete_ok ss h i a mo p o mem Hmem Hok Hi Hf Ho Hz) as (b & a1 & h1 & E & Eb & _ & H1 & H2 & H3 & H4).
      exists b, a1, h1. by split_and!. }
  rewrite E1. cbn [res_bind fst snd].
  assert (forall x, x ∈ l -> mo_address mo <> mo_address (fst x)) as Hne by (intros x Hin; specialize (Hx x Hin); unfold apart in Hx; cbn in Hx; lia).
  (* the rest is as before *)
  assert (forall x ox, x ∈ l -> h !! snd x = Some ox -> findObject (fst x) a1 = Some (snd x) /\ h1 !! snd x = Some ox) as Hrest.
  { intros x ox Hin Hox. destruct (proj1 (list.Forall_forall _ _) Hb x Hin) as (Hfx & ? & ? & ?).
    destruct (Hother (fst x) (Hne x Hin)) as [Hf1 Hv1]. rewrite Hfx in Hf1. split; [done|].
    unfold view in Hv1. rewrite Hf1, Hfx in Hv1. cbn in Hv1. by rewrite Hv1. }
  assert (<[i := a1]> ss !! i = Some a1) as Hi1 by (apply list_lookup_insert_eq; by eapply lookup_lt_Some).
  destruct b.
  - destruct (IH (<[i := a1]> ss) a1 h1 Hok1 Hi1 Hs) as (b' & a' & h' & E & Hok' & Hv' & Hfr & Hacc & Hrb).
    { apply list.Forall_forall. intros x Hin. destruct (proj1 (list.Forall_forall _ _) Hb x Hin) as (_ & ox & Hox & Hzx).
      destruct (Hrest x ox Hin Hox). split; [done|]. by exists ox. }
    exists b', a', h'. rewrite list_insert_insert_eq in Hok'. split_and!; [exact E|exact Hok'| | | |].
    + intros j c mo' Hj Hc. rewrite (Hv' j c mo' Hj) by (by rewrite list_lookup_insert_ne). by apply (Hview j).
    + intros mo' Hall. rewrite Hfr by (intros x Hin; apply Hall; by right). apply Hother. apply (Hall (mo, p)). by left.
    + rewrite Hacc. split.
      * intros H x ox [->|Hin]%elem_of_cons Hox; [cbn in *; rewrite Ho in Hox; by injection Hox as <-|].
        apply (H x ox Hin). by apply Hrest.
      * intros H x ox Hin Hox. destruct (proj1 (list.Forall_forall _ _) Hb x Hin) as (_ & ox' & Hox' & _).
        destruct (Hrest x ox' Hin Hox') as [_ E']. rewrite Hox in E'. injection E' as <-. apply (H x ox); [by right|done].
    + intros Hb' x ox [->|Hin]%elem_of_cons Hox.
      * cbn [fst snd] in *. rewrite Ho in Hox. injection Hox as <-. destruct (Hmo eq_refl) as [k Hk]. exists k. rewrite Hfr; [done|].
        intros x Hin E'. by apply (Hne x Hin).
      * apply (Hrb Hb' x ox Hin). by apply Hrest.
  - exists false, a1, h1. split_and!; [done|done|done| | |done].
    + intros mo' Hall. apply Hother. apply (Hall (mo, p)). by left.
    + split; [done|]. intros H. specialize (H (mo, p) o ltac:(by left) Ho). cbn in H. congruence.
Qed.
End external.

(** ** Properties *)

Lemma elements_found W m x k :
  laid_out W m -> x ∈ elements m -> findObject (fst x) (MkAddressSpace k m) = Some (snd x).
Proof.
  intros Hm Hx. unfold findObject, ImmutableMap.lookup. cbn [objects].
  rewrite (lookup_find _ _ _ _ (proj2 (lo_wf W m Hm))). pose proof (lo_apart W m Hm) as Hs. clear Hm.
  assert (forall y : ObjectPair, same_key ImmutableMap.Select1st mo_lt (fst x) y = (mo_address (fst x) =? mo_address (fst y))) as Hk.
  { intros y. rewrite same_key_equiv_keys. apply equiv_mo. }
  induction Hs as [|y l Hs IH Hy]; [by apply not_elem_of_nil in Hx|]. cbn. rewrite Hk.
  apply elem_of_cons in Hx as [->|Hx]; [by rewrite Z.eqb_refl|]. rewrite (proj2 (Z.eqb_neq _ _)); [by apply IH|].
  rewrite list.Forall_forall in Hy. specialize (Hy x Hx). unfold apart in Hy. lia.
Qed.

Lemma each_same {T} (body : ObjectPair -> T -> res (bool * T)) l s :
  (forall x, x ∈ l -> body x s = Ok (true, s)) -> each body l s = Ok (true, s).
Proof.
  induction l as [|x l IH]; intros H; [done|]. cbn. rewrite (H x) by by left. cbn. apply IH. intros y Hy. apply H. by right.
Qed.

Section theorems.
Context {A : APInt} {L : APIntLaws A} {AR : Arrays}.

(** C23. An external call that changes nothing changes nothing: copying a space
    out writes the concrete bytes of every writable object, and no byte outside
    them, to the memory of the process; and if the memory then agrees with the
    read-only objects, copying it in succeeds and leaves the space and every
    object state as they were. *)
Theorem external_call_roundtrip (W : Z) (a : AddressSpace) (h : heap) (mem : Z -> Z)
    (Hm : laid_out W (objects a)) (Hz : Forall (sized h) (elements (objects a))) :
  exists mem', copyOutConcretes a h mem = Ok mem' /\
    (forall x o q, x ∈ elements (objects a) -> exported h x o -> covers x q ->
       mem' q = nth (Z.to_nat (q - mo_address (fst x))) (concreteStore o) 0) /\
    (forall q, (forall x o, x ∈ elements (objects a) -> exported h x o -> ~ covers x q) -> mem' q = mem q) /\
    ((forall x o, x ∈ elements (objects a) -> h !! snd x = Some o -> readOnly o = true -> mo_isUserSpecified (fst x) = false ->
        copy_in mem (mo_address (fst x)) (Z.to_nat (mo_size (fst x))) = concreteStore o) ->
     copyInConcretes mem' (a, h) = Ok (true, (a, h))).
Proof.
  destruct (copy_out_each h (elements (objects a)) mem (lo_apart W _ Hm) Hz) as (mem' & E & Hin & Hout). exists mem'.
  unfold copyOutConcretes. rewrite over_objects_each, E by apply (lo_wf W _ Hm). split_and!; [done|done|done|].
  intros Hro. unfold copyInConcretes. cbn [fst]. rewrite over_objects_each by apply (lo_wf W _ Hm). apply each_same.
  intros [mo p] Hx. destruct (proj1 (list.Forall_forall _ _) Hz _ Hx) as (o & Ho & Hs & Hsz). cbn [fst snd] in *.
  pose proof (shape_store_length o Hs) as Hl. pose proof (shape_store _ Hs) as Hl'.
  unfold copy_in_object. destruct (mo_isUserSpecified mo) eqn:Eu; [done|]. unfold copyInConcrete, deref. cbn [snd]. rewrite Ho.
  cbn [res_bind]. rewrite (store_prefix_ok o _ Hs Hsz). cbn [res_bind]. rewrite bool_decide_true; [done|].
  destruct (readOnly o) eqn:Er.
  - rewrite <- (Hro (mo, p) o Hx Ho Er Eu). cbn [fst]. apply list_eq. intros i.
    destruct (decide (i < Z.to_nat (mo_size mo))%nat) as [Hi|Hi];
      [|by rewrite !lookup_ge_None_2 by (rewrite copy_in_length; lia)].
    rewrite !copy_in_lookup by done. f_equal. apply Hout. intros y oy Hy (Huy & Hoy & Hry) Hc.
    assert (y = (mo, p)) as ->; [|cbn in Hoy; congruence].
    apply (in_object_unique W (objects a) y (mo, p) (mo_address mo + Z.of_nat i) Hm Hy Hx); unfold in_object, covers in *; cbn [fst] in *.
    + rewrite (proj2 (Z.eqb_neq _ _)) by lia. apply andb_true_iff. rewrite Z.leb_le, Z.ltb_lt. lia.
    + rewrite (proj2 (Z.eqb_neq _ _)) by lia. apply andb_true_iff. rewrite Z.leb_le, Z.ltb_lt. lia.
  - assert (Z.to_nat (mo_size mo) = length (concreteStore o)) as -> by (rewrite Hl; by f_equal). apply copy_in_eq. intros i Hi.
    rewrite (Hin (mo, p) o (mo_address mo + Z.of_nat i) Hx); [cbn [fst]; f_equal; lia|done|unfold covers; cbn [fst]; lia].
Qed.

(** C24. Reading memory back succeeds exactly if the memory of no read-only
    object has changed; then every object that is not user-specified has the
    bytes of the memory, under the masks and updates it had, and no other
    address space sees a change. *)
Theorem copy_in_effect (W : Z) (checked : bool) (s : System) (i : nat) (a : AddressSpace) (mem : Z -> Z)
    (Hmem : forall q, 0 <= mem q < 256) (Hs : reachable checked s) (Hi : fst s !! i = Some a)
    (Hm : laid_out W (objects a)) (Hz : Forall (sized (snd s)) (elements (objects a))) :
  exists b a' h', copyInConcretes mem (a, snd s) = Ok (b, (a', h')) /\
    (b = true <-> forall x o, x ∈ elements (objects a) -> snd s !! snd x = Some o -> acceptable mem (fst x) o = true) /\
    (b = true -> forall x o, x ∈ elements (objects a) -> snd s !! snd x = Some o ->
       exists k, view a' h' (fst x) = Some (set_owner k (read_back mem (fst x) o))) /\
    (forall j c mo, i <> j -> fst s !! j = Some c -> view c h' mo = view c (snd s) mo).
Proof.
  pose proof (reachable_ok checked s Hs) as Hok. destruct s as [ss h]. cbn [fst snd] in *.
  assert (a = MkAddressSpace (cowKey a) (objects a)) as Ea by (by destruct a).
  destruct (copy_in_each ss i mem (elements (objects a)) a h Hmem Hok Hi (lo_apart W _ Hm)) as (b & a' & h' & E & _ & Hv & _ & Hacc & Hrb).
  { apply list.Forall_forall. intros x Hx. rewrite Ea at 1. split; [by apply (elements_found W)|].
    destruct (proj1 (list.Forall_forall _ _) Hz x Hx) as (o & Ho & _ & Hsz). by exists o. }
  exists b, a', h'. unfold copyInConcretes. cbn [fst]. rewrite over_objects_each by apply (lo_wf W _ Hm). by split_and!.
Qed.

(** The bytes read back are not marked unflushed: once a symbolic read has
    flushed the object, the next one returns the same expression over the old
    update list, whatever bytes [copyInConcrete] stored; a read at a constant
    offset returns the new byte. *)
Lemma stale_after_copy_in opt new_array utostr os w m root st offset i b :
  flushMask os = Some m -> (forall j, 0 <= j < os_size os -> bit_get m j = Ok false) -> updates_root os = Some root ->
  isByteConcrete i os = Ok true -> concrete_at i (set_store st os) = Ok b ->
  (let* r := read8_at opt new_array utostr offset (set_store st os, w) in Ok (fst r)) =
    (let* r := read8_at opt new_array utostr offset (os, w) in Ok (fst r)) /\
  (let* r := read8 opt new_array utostr i (set_store st os, w) in Ok (fst r)) = const_create b Int8.
Proof.
  intros Hf Hm Hr Hc Hb. split.
  - assert (forall os', flushMask os' = Some m -> os_size os' = os_size os -> flushRangeForRead 0 (os_size os') os' = Ok os') as Hno.
    { intros os' Hf' Hsz. unfold flushRangeForRead, create_flushMask. rewrite Hf'.
      assert (forall n k, 0 <= k -> k + Z.of_nat n <= os_size os -> for_range n k flush_for_read os' = Ok os') as H.
      { induction n as [|n IH]; intros k Hk Hn; [done|]. cbn [for_range]. unfold flush_for_read at 1, isByteFlushed. rewrite Hf', Hm by lia.
        cbn [res_bind negb]. apply IH; lia. }
      destruct (Z.le_gt_cases 0 (os_size os')) as [H0|H0]; [apply H; lia|].
      replace (Z.to_nat (os_size os')) with 0%nat by lia. done. }
    unfold read8_at, sbind, slift, change, fastRangeCheckOffset, getUpdates, sbind, ask.
    destruct (negb (isConstant offset)); [|done]. cbn [res_assert res_bind fst snd].
    rewrite !Hno by done. cbn [res_bind fst snd]. cbn [set_store updates_root updates_head]. rewrite Hr. cbn [res_bind fst snd].
    change (updates_root (set_store st os)) with (updates_root os). rewrite Hr. cbn [res_bind fst snd].
    destruct (ZExtExpr_create offset Int32); [|done|done]. cbn [res_bind].
    change (updates_head (set_store st os)) with (updates_head os).
    by destruct (ReadExpr_create opt root (updates_head os) v).
  - unfold read8, sbind, ask. cbn [fst snd]. change (isByteConcrete i (set_store st os)) with (isByteConcrete i os). rewrite Hc.
    cbn [res_bind fst snd]. rewrite Hb. cbn [res_bind]. by destruct (const_create b Int8).
Qed.
End theorems.

(** ** Witnesses *)
Section witnesses.
#[local] Existing Instance ExprSem.Examples.arrays.

Lemma one_laid_out : laid_out 16 one_object.
Proof.
  split.
  - split; [cbn; lia|]. unfold bst, one_object. cbn [elements app]. repeat constructor.
  - unfold one_object. cbn [elements app]. repeat constructor; cbn; lia.
  - unfold one_object. cbn [elements app]. repeat constructor.
Qed.

Lemma one_sized : Forall (sized (snd forked_system)) (elements one_object).
Proof. constructor; [|constructor]. exists (set_owner 1 bytes78). split; [done|]. split; [apply bytes78_shape|done]. Qed.

Lemma external_call_roundtrip_witness :
  exists mem', copyOutConcretes (MkAddressSpace 2 one_object) (snd forked_system) (fun _ => 0) = Ok mem' /\ mem' 4097 = 8 /\
    copyInConcretes mem' (MkAddressSpace 2 one_object, snd forked_system) = Ok (true, (MkAddressSpace 2 one_object, snd forked_system)).
Proof.
  destruct (external_call_roundtrip 16 (MkAddressSpace 2 one_object) (snd forked_system) (fun _ => 0) one_laid_out one_sized)
    as (mem' & E & Hin & _ & Hback).
  exists mem'. split; [exact E|]. split.
  - rewrite (Hin (obj, 1%positive) (set_owner 1 bytes78) 4097); [reflexivity|by left|by split_and!|unfold covers; cbn; lia].
  - apply Hback. intros x o Hx Ho Hr _. apply list_elem_of_singleton in Hx. subst x. cbn in Ho. injection Ho as <-. done.
Defined.

Lemma copy_in_effect_witness :
  exists a' h' k, copyInConcretes (fun _ => 9) (MkAddressSpace 2 one_object, snd forked_system) = Ok (true, (a', h')) /\
    view a' h' obj = Some (set_owner k (set_store [9; 9] (set_owner 1 bytes78))) /\
    view (MkAddressSpace 2 one_object) h' obj = Some (set_owner 1 bytes78).
Proof.
  destruct (copy_in_effect 16 false forked_system 0 (MkAddressSpace 2 one_object) (fun _ => 9))
    as (b & a' & h' & E & Hacc & Hrb & Hv).
  - lia.
  - exact forked_reachable.
  - reflexivity.
  - exact one_laid_out.
  - exact one_sized.
  - assert (b = true) as ->.
    { apply Hacc. intros x o Hx Ho. apply list_elem_of_singleton in Hx. subst x. cbn in Ho. by injection Ho as <-. }
    destruct (Hrb eq_refl (obj, 1%positive) (set_owner 1 bytes78) ltac:(by left) eq_refl) as [k Hk].
    exists a', h', k. split; [exact E|]. split; [exact Hk|].
    exact (Hv 1%nat (MkAddressSpace 2 one_object) obj ltac:(lia) eq_refl).
Defined.
End witnesses.
