(* ===== verification/ExecutionState.v ===== *)
(** Execution states: klee/include/klee/ExecutionState.h and
    klee/lib/Core/ExecutionState.cpp, but for [merge].

    Pointers to functions, instructions, states and merge handlers are
    addresses.  A vector used as a stack is the list of its elements, the back
    first.  [ptreeNode] is kept by the process tree ([PTree.v]), the queries'
    cost by nobody; the names of the files of [coveredLines] are addresses. *)
From Stdlib Require Import ZArith Lia Bool String.
From stdpp Require Import base list numbers option gmap strings.
From S2P Require Import Prelude APInt Expr Constraints TreeStream ImmutableTree MemoryObject AddressSpace.
Open Scope Z_scope.

(** The functions of the module: what the states use of [KFunction]. *)
Record KFunction : Type := { numRegisters : nat; instructions : Z }.
Class Functions := functionAt : positive -> KFunction.

Section state.
Context {A : APInt} {AR : Arrays} {F : Functions}.

Record StackFrame : Type := MkFrame {
  caller : Z;                        (* the call's KInstIterator; 0 is null *)
  kf : positive;
  callPathNode : option positive;
  allocas : list MemoryObject;
  locals : list (option expr);       (* the values of the cells *)
  minDistToUncoveredOnReturn : Z;
  varargs : option MemoryObject;
}.

Definition StackFrame_new (caller : Z) (kf : positive) : StackFrame :=
  MkFrame caller kf None [] (replicate (numRegisters (functionAt kf)) None) 0 None.

Definition set_locals (l : list (option expr)) (sf : StackFrame) : StackFrame :=
  MkFrame (caller sf) (kf sf) (callPathNode sf) (allocas sf) l (minDistToUncoveredOnReturn sf) (varargs sf).

Record ExecutionState : Type := MkState {
  pc : Z; prevPC : Z;
  stack : list StackFrame;
  incomingBBIndex : Z;
  addressSpace : AddressSpace;
  constraints : list expr;
  depth : Z;
  pathOS : TreeOStream; symPathOS : TreeOStream;
  instsSinceCovNew : Z;
  coveredNew : bool;
  forkDisabled : bool;
  coveredLines : gmap positive (gset Z);
  symbolics : list (MemoryObject * positive);   (* with their arrays *)
  arrayNames : gset string;
  openMergeStack : list positive;
  steppedInstructions : Z;
  updated : bool;
}.

Definition set_pc (z : Z) (s : ExecutionState) : ExecutionState :=
  MkState z (prevPC s) (stack s) (incomingBBIndex s) (addressSpace s) (constraints s) (depth s) (pathOS s) (symPathOS s)
    (instsSinceCovNew s) (coveredNew s) (forkDisabled s) (coveredLines s) (symbolics s) (arrayNames s) (openMergeStack s)
    (steppedInstructions s) (updated s).
Definition set_stack (st : list StackFrame) (s : ExecutionState) : ExecutionState :=
  MkState (pc s) (prevPC s) st (incomingBBIndex s) (addressSpace s) (constraints s) (depth s) (pathOS s) (symPathOS s)
    (instsSinceCovNew s) (coveredNew s) (forkDisabled s) (coveredLines s) (symbolics s) (arrayNames s) (openMergeStack s)
    (steppedInstructions s) (updated s).
Definition set_space (a : AddressSpace) (s : ExecutionState) : ExecutionState :=
  MkState (pc s) (prevPC s) (stack s) (incomingBBIndex s) a (constraints s) (depth s) (pathOS s) (symPathOS s)
    (instsSinceCovNew s) (coveredNew s) (forkDisabled s) (coveredLines s) (symbolics s) (arrayNames s) (openMergeStack s)
    (steppedInstructions s) (updated s).
(* the constraints, and the flag that tells the searcher that they changed *)
Definition set_constraints (cs : list expr) (u : bool) (s : ExecutionState) : ExecutionState :=
  MkState (pc s) (prevPC s) (stack s) (incomingBBIndex s) (addressSpace s) cs (depth s) (pathOS s) (symPathOS s)
    (instsSinceCovNew s) (coveredNew s) (forkDisabled s) (coveredLines s) (symbolics s) (arrayNames s) (openMergeStack s)
    (steppedInstructions s) u.
Definition set_paths (p sp : TreeOStream) (s : ExecutionState) : ExecutionState :=
  MkState (pc s) (prevPC s) (stack s) (incomingBBIndex s) (addressSpace s) (constraints s) (depth s) p sp
    (instsSinceCovNew s) (coveredNew s) (forkDisabled s) (coveredLines s) (symbolics s) (arrayNames s) (openMergeStack s)
    (steppedInstructions s) (updated s).
Definition set_covered (n : bool) (ls : gmap positive (gset Z)) (s : ExecutionState) : ExecutionState :=
  MkState (pc s) (prevPC s) (stack s) (incomingBBIndex s) (addressSpace s) (constraints s) (depth s) (pathOS s) (symPathOS s)
    (instsSinceCovNew s) n (forkDisabled s) ls (symbolics s) (arrayNames s) (openMergeStack s)
    (steppedInstructions s) (updated s).
Definition set_symbolics (l : list (MemoryObject * positive)) (names : gset string) (s : ExecutionState) : ExecutionState :=
  MkState (pc s) (prevPC s) (stack s) (incomingBBIndex s) (addressSpace s) (constraints s) (depth s) (pathOS s) (symPathOS s)
    (instsSinceCovNew s) (coveredNew s) (forkDisabled s) (coveredLines s) l names (openMergeStack s)
    (steppedInstructions s) (updated s).

Definition pushFrame (caller : Z) (kf : positive) (s : ExecutionState) : ExecutionState :=
  set_stack (StackFrame_new caller kf :: stack s) s.

(* ExecutionState(KFunction *kf); incomingBBIndex is not initialised *)
Definition ExecutionState_new (kf : positive) : ExecutionState :=
  pushFrame 0 kf
    (MkState (instructions (functionAt kf)) (instructions (functionAt kf)) [] 0 AddressSpace_new [] 0 TreeOStream_new
      TreeOStream_new 0 false false ∅ [] ∅ [] 0 false).

(* the copy constructor, and the state copied from, whose address space moves its key;
   the handlers of openMergeStack learn of the copy in the executor *)
Definition ExecutionState_copy (s : ExecutionState) : ExecutionState * ExecutionState :=
  let '(mine, theirs) := AddressSpace_copy (addressSpace s) in
  (set_constraints (constraints s) false (set_space mine s), set_space theirs s).

(* branch: the new state, and this one *)
Definition branch (s : ExecutionState) : ExecutionState * ExecutionState :=
  let s := MkState (pc s) (prevPC s) (stack s) (incomingBBIndex s) (addressSpace s) (constraints s) (wrap 32 (depth s + 1))
    (pathOS s) (symPathOS s) (instsSinceCovNew s) (coveredNew s) (forkDisabled s) (coveredLines s) (symbolics s) (arrayNames s)
    (openMergeStack s) (steppedInstructions s) (updated s) in
  let '(falseState, s) := ExecutionState_copy s in
  (set_covered false ∅ falseState, s).

Fixpoint unbind_all (mos : list MemoryObject) (a : AddressSpace) : res AddressSpace :=
  match mos with
  | [] => Ok a
  | mo :: mos' => let* a := unbindObject mo a in unbind_all mos' a
  end.

Definition popFrame (s : ExecutionState) : res ExecutionState :=
  match stack s with
  | [] => AssertFail
  | sf :: stack' =>
      let* a := unbind_all (allocas sf) (addressSpace s) in
      Ok (set_stack stack' (set_space a s))
  end.

Definition addSymbolic (mo : MemoryObject) (array : positive) (s : ExecutionState) : ExecutionState :=
  set_symbolics (symbolics s ++ [(mo, array)]) (arrayNames s) s.

Definition state_addConstraint (ConstArrayOpt UseVisitorHash RewriteEqualities : bool) (e : expr) (s : ExecutionState) :
    res ExecutionState :=
  let* cs := addConstraint ConstArrayOpt UseVisitorHash RewriteEqualities (constraints s) e in
  Ok (set_constraints cs true s).

End state.
