(* ===== verification/SeedInfo.v ===== *)
(** Seeds: klee/lib/Core/SeedInfo.cpp and SeedInfo.h.

    A seed is a test case whose bytes guide the execution.  [getNextInput]
    finds its object for a new symbolic object; [patchSeed] changes bytes that
    contradict a new constraint.  The objects of a test case are named by their
    positions.  A failure of the solver is a failed assertion. *)
From Stdlib Require Import ZArith Lia Bool.
From stdpp Require Import base list numbers option gmap sets.
From S2P Require Import Prelude APInt Expr ExprCreate ExprFactory ExprEval FindReads Solver Constraints TimingSolver KTest.
Open Scope Z_scope.

Record SeedInfo : Type := MkSeed {
  assignment : Assignment;
  input : KTest;
  inputPosition : Z;
  used : gset nat;
}.

Definition SeedInfo_new (input : KTest) : SeedInfo := MkSeed {| allowFreeValues := true; bindings := [] |} input 0 ∅.

Definition set_assignment (a : Assignment) (s : SeedInfo) : SeedInfo := MkSeed a (input s) (inputPosition s) (used s).
Definition use_object (i : nat) (s : SeedInfo) : SeedInfo :=
  MkSeed (assignment s) (input s) (inputPosition s) ({[i]} ∪ used s).

(* std::string(obj->name): up to the NUL *)
Fixpoint c_str (s : list Z) : list Z :=
  match s with [] => [] | c :: s' => if c =? 0 then [] else c :: c_str s' end.

(* the first object of the name that was not used, from [i] on *)
Fixpoint find_named (name : list Z) (used : gset nat) (objs : list KTestObject) (i : nat) : option nat :=
  match objs with
  | [] => None
  | obj :: objs' =>
      if bool_decide (c_str (KTest.name obj) = name) && bool_decide (i ∉ used) then Some i
      else find_named name used objs' (S i)
  end.

Fixpoint find_unused (used : gset nat) (objs : list KTestObject) (i : nat) : option (nat * KTestObject) :=
  match objs with
  | [] => None
  | obj :: objs' => if bool_decide (i ∈ used) then find_unused used objs' (S i) else Some (i, obj)
  end.

(* the loops run to numObjects, which must not be more than there are *)
Definition seed_objects (s : SeedInfo) : res (list KTestObject) :=
  assert* numObjects (input s) <=? Z.of_nat (length (objects (input s))) in
  Ok (take (Z.to_nat (numObjects (input s))) (objects (input s))).

(* getNextInput, for an object of a name and a size *)
Definition getNextInput (name : list Z) (size : Z) (byName : bool) (s : SeedInfo) : res (option nat * SeedInfo) :=
  let* objs := seed_objects s in
  if byName then
    match find_named name (used s) objs 0 with
    | Some i => Ok (Some i, use_object i s)
    | None =>
        match find_unused (used s) objs 0 with
        | Some (i, obj) => if numBytes obj =? size then Ok (Some i, use_object i s) else Ok (None, s)
        | None => Ok (None, s)
        end
    end
  else if numObjects (input s) <=? inputPosition s then Ok (None, s)
  else Ok (Some (Z.to_nat (inputPosition s)), MkSeed (assignment s) (input s) (wrap 32 (inputPosition s + 1)) (used s)).

(** ** patchSeed *)

(* it->second = arr of a binding *)
Fixpoint bindings_set (os : positive) (arr : list Z) (bs : bindings_ty) : bindings_ty :=
  match bs with
  | [] => []
  | (k, vs) :: bs' => if Pos.eqb k os then (k, arr) :: bs' else (k, vs) :: bindings_set os arr bs'
  end.

(* directReads.insert, in the order of pairs *)
Fixpoint insert_read (r : positive * Z) (l : list (positive * Z)) : list (positive * Z) :=
  match l with
  | [] => [r]
  | x :: l' =>
      if Pos.eqb (fst r) (fst x) && (snd r =? snd x) then l
      else if Pos.ltb (fst r) (fst x) || (Pos.eqb (fst r) (fst x) && (snd r <? snd x)) then r :: l
      else x :: insert_read r l'
  end.

Section patch.
Context {A : APInt} {AR : Arrays}.
Context (ConstArrayOpt UseVisitorHash RewriteEqualities : bool).
Context {S : Type} (solver : SolverImpl S) (simplifyExprs : bool).

Notation simplify := (simplifyExpr ConstArrayOpt UseVisitorHash).
Notation add := (addConstraint ConstArrayOpt UseVisitorHash RewriteEqualities).

(* assert(success && "FIXME: Unhandled solver failure") *)
Definition must_succeed {T} (m : state S (option T)) : state S T :=
  do* r := m in slift (match r with Some x => Ok x | None => AssertFail end).

Fixpoint direct_reads (reads : list ReadExpr) (l : list (positive * Z)) : res (list (positive * Z)) :=
  match reads with
  | [] => Ok l
  | re :: reads' =>
      match read_index re with
      | Constant CE => let* i := getZExtValue CE 32 in direct_reads reads' (insert_read (read_root re, i) l)
      | _ => direct_reads reads' l
      end
  end.

(* the body of both loops: the bytes of the array and the constraints of tmp *)
Definition patch_byte (array : positive) (i : Z) (tmp : list expr) (vs : list Z) : state S (list expr * list Z) :=
  do* read := slift (ReadExpr_create ConstArrayOpt array UNil (const_alloc i Int32)) in
  do* v := slift (match vs !! Z.to_nat i with Some v => Ok v | None => AssertFail end) in
  do* isSeed := slift (BinaryExpr_create ConstArrayOpt Eq read (const_alloc v Int8)) in
  do* res := must_succeed (ts_mustBeFalse ConstArrayOpt simplify solver simplifyExprs tmp isSeed) in
  if res then
    do* value := must_succeed (ts_getValue simplify solver simplifyExprs tmp read) in
    do* v := slift (getZExtValue value 8) in
    do* eq := slift (BinaryExpr_create ConstArrayOpt Eq read (const_alloc v Int8)) in
    do* tmp := slift (add tmp eq) in
    sret (tmp, <[Z.to_nat i := v]> vs)
  else
    do* tmp := slift (add tmp isSeed) in
    sret (tmp, vs).

Fixpoint patch_direct (reads : list (positive * Z)) (tmp : list expr) (bs : bindings_ty) : state S (list expr * bindings_ty) :=
  match reads with
  | [] => sret (tmp, bs)
  | (array, i) :: reads' =>
      match bindings_find array bs with
      | None => patch_direct reads' tmp bs
      | Some vs =>
          do* p := patch_byte array i tmp vs in
          patch_direct reads' (fst p) (bindings_set array (snd p) bs)
      end
  end.

(* for (unsigned i=0; i<array->size; ++i); the bytes from [i] on are [n] *)
Fixpoint patch_array (n : nat) (array : positive) (i : Z) (tmp : list expr) (vs : list Z) : state S (list expr * list Z) :=
  match n with
  | O => sret (tmp, vs)
  | Datatypes.S n =>
      do* p := patch_byte array i tmp vs in
      patch_array n array (i + 1) (fst p) (snd p)
  end.

Fixpoint patch_all (bs : bindings_ty) (tmp : list expr) : state S bindings_ty :=
  match bs with
  | [] => sret []
  | (array, vs) :: bs' =>
      do* p := patch_array (Z.to_nat (Expr.size (arrayAt array))) array 0 tmp vs in
      do* bs' := patch_all bs' (fst p) in
      sret ((array, snd p) :: bs')
  end.

Definition seed_may_be (cs : list expr) (a : Assignment) (condition : expr) : state S bool :=
  do* e := slift (ExprEval.evaluate ConstArrayOpt UseVisitorHash a condition) in
  must_succeed (ts_mayBeTrue ConstArrayOpt simplify solver simplifyExprs cs e).

Definition set_bindings (bs : bindings_ty) (a : Assignment) : Assignment :=
  {| allowFreeValues := allowFreeValues a; bindings := bs |}.

Definition patchSeed (cs : list expr) (condition : expr) (s : SeedInfo) : state S SeedInfo :=
  let a := assignment s in
  do* tmp := slift (add cs condition) in
  do* reads := slift (findReads condition false []) in
  do* directReads := slift (direct_reads reads []) in
  do* p := patch_direct directReads tmp (bindings a) in
  let '(tmp, bs) := p in
  let a := set_bindings bs a in
  do* res := seed_may_be cs a condition in
  if res then sret (set_assignment a s)
  else
    do* bs := patch_all bs tmp in
    let a := set_bindings bs a in
    do* res := seed_may_be cs a condition in
    do* _ := slift (assert* res in Ok tt) in
    sret (set_assignment a s).

End patch.
