(* ===== verification/Executor.v ===== *)
(** The executor: the parts of klee/lib/Core/Executor.cpp that create, fork,
    constrain and end execution states.

    - An [ExecutionState *] is an address in the [pool] of the states that are
      allocated; [new] gives an address not in use ([fresh]).  To read a state
      that is not allocated is [AssertFail].
    - The functions run over the whole executor ([exec]), the state of its
      solver included; [ask] is a call of the solver for a state's constraints.
    - [Options] are the command-line options and what is fixed for a run.  Array
      optimisation and implied value concretization are off, as by default (the
      latter is broken, says the source), timeouts belong to the solver, and
      warnings are left out.  A fatal error is [AssertFail].
    - The test cases written are a list, the last first. *)
From Stdlib Require Import ZArith Lia Bool String.
From stdpp Require Import base list numbers option gmap sets strings.
From S2P Require Import Prelude APInt Expr ExprCreate ExprEval Solver Constraints TimingSolver Double Rng TreeStream PTree KTest ImmutableTree ObjectState MemoryObject AddressSpace ExecutionState SeedInfo.
Open Scope Z_scope.

(** ** Options and statistics *)

Inductive TerminateReason : Type :=
| Abort | Assert | BadVectorAccess | Exec | External | Free | Model | Overflow | Ptr | ReadOnly | ReportError | User | Unhandled.

#[export] Instance TerminateReason_eq : EqDecision TerminateReason.
Proof. solve_decision. Defined.

(* MaxForks is None for ~0u *)
Record Options : Type := MkOptions {
  MaxForks : option Z;
  MaxDepth : Z;
  MaxMemoryInhibit : bool;
  OnlyReplaySeeds : bool;
  OnlyOutputStatesCoveringNew : bool;
  AlwaysOutputSeeds : bool;
  MaxStaticForkPct : double; MaxStaticSolvePct : double;
  MaxStaticCPForkPct : double; MaxStaticCPSolvePct : double;
  replayPath : option (list bool);
  replayKTest : option KTest;
  EmitAllErrors : bool;
  ExitOnErrorType : list TerminateReason;
  SimplifySymIndices : bool;
  MaxSymArraySize : Z;
}.

(* the statistics fork reads: of the run, at the current instruction, of a call path *)
Record Statistics : Type := MkStatistics {
  forks : Z;
  solverTime : Z;
  elapsed : Z;                        (* statsTracker->elapsed(), in nanoseconds *)
  indexed_forks : Z;
  indexed_solverTime : Z;
  callPath : positive -> Z * Z;       (* forks and solverTime of a node *)
}.

(* what interpreterHandler->processTestCase is told of a state *)
Inductive TestCase : Type := TestEarly (es : positive) | TestExit (es : positive) | TestError (es : positive).

(* MaxStaticForkPct != 1. *)
Definition dne (x y : double) : bool := negb (dge x y && dge y x).

Section executor.
Context {A : APInt} {AR : Arrays} {F : Functions}.
Context (ConstArrayOpt UseVisitorHash RewriteEqualities simplifyExprs : bool) (o : Options).
Context {S : Type} (solver : SolverImpl S).

Notation simplify := (simplifyExpr ConstArrayOpt UseVisitorHash).

Record Executor : Type := MkExecutor {
  states : gset positive;
  pool : gmap positive ExecutionState;
  addedStates : list positive;
  removedStates : list positive;
  seedMap : gmap positive (list SeedInfo);
  openStates : gmap positive (list positive);   (* of the merge handlers *)
  processTree : PTree;
  replayPosition : Z;
  atMemoryLimit : bool; inhibitForking : bool;
  pathWriter : option TreeStreamWriter; symPathWriter : option TreeStreamWriter;
  theRNG : RNG;
  statistics : Statistics;
  testCases : list TestCase;
  pathsExplored : Z;
  emittedErrors : gset (Z * string);            (* a static variable: instructions and messages *)
  haltExecution : bool;
  solver_state : S;
}.

Definition exec (T : Type) : Type := state Executor T.

(** ** The parts of the executor *)
Definition set_pool (p : gmap positive ExecutionState) (x : Executor) : Executor :=
  MkExecutor (states x) p (addedStates x) (removedStates x) (seedMap x) (openStates x) (processTree x) (replayPosition x)
    (atMemoryLimit x) (inhibitForking x) (pathWriter x) (symPathWriter x) (theRNG x) (statistics x) (testCases x) (pathsExplored x) (emittedErrors x) (haltExecution x) (solver_state x).
Definition set_states (l : gset positive) (added removed : list positive) (x : Executor) : Executor :=
  MkExecutor l (pool x) added removed (seedMap x) (openStates x) (processTree x) (replayPosition x)
    (atMemoryLimit x) (inhibitForking x) (pathWriter x) (symPathWriter x) (theRNG x) (statistics x) (testCases x) (pathsExplored x) (emittedErrors x) (haltExecution x) (solver_state x).
Definition set_seedMap (m : gmap positive (list SeedInfo)) (x : Executor) : Executor :=
  MkExecutor (states x) (pool x) (addedStates x) (removedStates x) m (openStates x) (processTree x) (replayPosition x)
    (atMemoryLimit x) (inhibitForking x) (pathWriter x) (symPathWriter x) (theRNG x) (statistics x) (testCases x) (pathsExplored x) (emittedErrors x) (haltExecution x) (solver_state x).
Definition set_openStates (m : gmap positive (list positive)) (x : Executor) : Executor :=
  MkExecutor (states x) (pool x) (addedStates x) (removedStates x) (seedMap x) m (processTree x) (replayPosition x)
    (atMemoryLimit x) (inhibitForking x) (pathWriter x) (symPathWriter x) (theRNG x) (statistics x) (testCases x) (pathsExplored x) (emittedErrors x) (haltExecution x) (solver_state x).
Definition set_processTree (t : PTree) (x : Executor) : Executor :=
  MkExecutor (states x) (pool x) (addedStates x) (removedStates x) (seedMap x) (openStates x) t (replayPosition x)
    (atMemoryLimit x) (inhibitForking x) (pathWriter x) (symPathWriter x) (theRNG x) (statistics x) (testCases x) (pathsExplored x) (emittedErrors x) (haltExecution x) (solver_state x).
Definition set_replayPosition (n : Z) (x : Executor) : Executor :=
  MkExecutor (states x) (pool x) (addedStates x) (removedStates x) (seedMap x) (openStates x) (processTree x) n
    (atMemoryLimit x) (inhibitForking x) (pathWriter x) (symPathWriter x) (theRNG x) (statistics x) (testCases x) (pathsExplored x) (emittedErrors x) (haltExecution x) (solver_state x).
Definition set_writers (p sp : option TreeStreamWriter) (x : Executor) : Executor :=
  MkExecutor (states x) (pool x) (addedStates x) (removedStates x) (seedMap x) (openStates x) (processTree x) (replayPosition x)
    (atMemoryLimit x) (inhibitForking x) p sp (theRNG x) (statistics x) (testCases x) (pathsExplored x) (emittedErrors x) (haltExecution x) (solver_state x).
Definition set_theRNG (r : RNG) (x : Executor) : Executor :=
  MkExecutor (states x) (pool x) (addedStates x) (removedStates x) (seedMap x) (openStates x) (processTree x) (replayPosition x)
    (atMemoryLimit x) (inhibitForking x) (pathWriter x) (symPathWriter x) r (statistics x) (testCases x) (pathsExplored x) (emittedErrors x) (haltExecution x) (solver_state x).
Definition add_forks (n : Z) (x : Executor) : Executor :=
  let st := statistics x in
  MkExecutor (states x) (pool x) (addedStates x) (removedStates x) (seedMap x) (openStates x) (processTree x) (replayPosition x)
    (atMemoryLimit x) (inhibitForking x) (pathWriter x) (symPathWriter x) (theRNG x)
    (MkStatistics (wrap 64 (forks st + n)) (solverTime st) (elapsed st) (indexed_forks st) (indexed_solverTime st) (callPath st))
    (testCases x) (pathsExplored x) (emittedErrors x) (haltExecution x) (solver_state x).
Definition set_output (t : list TestCase) (n : Z) (x : Executor) : Executor :=
  MkExecutor (states x) (pool x) (addedStates x) (removedStates x) (seedMap x) (openStates x) (processTree x) (replayPosition x)
    (atMemoryLimit x) (inhibitForking x) (pathWriter x) (symPathWriter x) (theRNG x) (statistics x) t n (emittedErrors x) (haltExecution x) (solver_state x).
Definition set_errors (l : gset (Z * string)) (b : bool) (x : Executor) : Executor :=
  MkExecutor (states x) (pool x) (addedStates x) (removedStates x) (seedMap x) (openStates x) (processTree x) (replayPosition x)
    (atMemoryLimit x) (inhibitForking x) (pathWriter x) (symPathWriter x) (theRNG x) (statistics x) (testCases x) (pathsExplored x) l b (solver_state x).
Definition set_solver (s : S) (x : Executor) : Executor :=
  MkExecutor (states x) (pool x) (addedStates x) (removedStates x) (seedMap x) (openStates x) (processTree x) (replayPosition x)
    (atMemoryLimit x) (inhibitForking x) (pathWriter x) (symPathWriter x) (theRNG x) (statistics x) (testCases x) (pathsExplored x) (emittedErrors x) (haltExecution x) s.

Definition get {T} (f : Executor -> T) : exec T := fun x => Ok (f x, x).
Definition modify (f : Executor -> Executor) : exec unit := fun x => Ok (tt, f x).

(* *es, and *es = f( *es) *)
Definition state_at (es : positive) : exec ExecutionState := fun x =>
  match pool x !! es with Some s => Ok (s, x) | None => AssertFail end.
Definition put_state (es : positive) (s : ExecutionState) : exec unit :=
  modify (fun x => set_pool (<[es := s]> (pool x)) x).

Definition run_solver {T} (m : state S T) : exec T := fun x =>
  let* p := m (solver_state x) in Ok (fst p, set_solver (snd p) x).
Definition ask {T} (es : positive) (m : list expr -> state S T) : exec T :=
  do* s := state_at es in run_solver (m (constraints s)).

(* theRNG.getBool(), theRNG.getInt32() *)
Definition flip : exec bool := fun x => let* p := getBool (theRNG x) in Ok (fst p, set_theRNG (snd p) x).
Definition draw : exec Z := fun x => let* p := getInt32 (theRNG x) in Ok (fst p, set_theRNG (snd p) x).

(* the copy of a state: the handlers of its openMergeStack learn of it *)
Definition add_open (handlers : list positive) (es : positive) (m : gmap positive (list positive)) :=
  foldl (fun m h => <[h := default [] (m !! h) ++ [es]]> m) m handlers.

(* MergeHandler::removeOpenState: the last state takes the place *)
Definition removeOpenState (es : positive) (l : list positive) : res (list positive) :=
  match list_find (eq es) l with
  | None => AssertFail
  | Some (i, _) => Ok (match last l with Some b => take (pred (length l)) (<[i := b]> l) | None => l end)
  end.

Fixpoint remove_open (handlers : list positive) (es : positive) (m : gmap positive (list positive)) :
    res (gmap positive (list positive)) :=
  match handlers with
  | [] => Ok m
  | h :: handlers' =>
      let* l := removeOpenState es (default [] (m !! h)) in remove_open handlers' es (<[h := l]> m)
  end.

(* es->branch(), given to addedStates *)
Definition branch_state (es : positive) : exec positive :=
  do* s := state_at es in
  do* p := get pool in
  let ns := fresh (dom p : gset positive) in
  let '(falseState, s) := branch s in
  do* _ := put_state es s in
  do* _ := put_state ns falseState in
  do* _ := modify (fun x => set_openStates (add_open (openMergeStack falseState) ns (openStates x)) x) in
  do* _ := modify (fun x => set_states (states x) (addedStates x ++ [ns]) (removedStates x) x) in
  sret ns.

(* processTree->attach(es->ptreeNode, ns, es), remove(es->ptreeNode) *)
Definition attach_node (es ns right : positive) : exec unit := fun x =>
  match ptreeNode (processTree x) !! es with
  | None => AssertFail
  | Some n => let* t := attach n ns right (processTree x) in Ok (tt, set_processTree t x)
  end.
Definition remove_node (es : positive) : exec unit := fun x =>
  match ptreeNode (processTree x) !! es with
  | None => AssertFail
  | Some n => let* t := remove n (processTree x) in Ok (tt, set_processTree t x)
  end.

(* delete es *)
Definition delete_state (es : positive) : exec unit :=
  do* s := state_at es in
  do* m := get openStates in
  do* m := slift (remove_open (openMergeStack s) es m) in
  do* _ := modify (set_openStates m) in
  modify (fun x => set_pool (delete es (pool x)) x).

(* the first element equal to es goes *)
Fixpoint erase_state (es : positive) (l : list positive) : list positive :=
  match l with [] => [] | x :: l' => if Pos.eqb x es then l' else x :: erase_state es l' end.

(** ** The end of a state *)

Definition terminateState (es : positive) : exec unit :=
  do* _ := modify (fun x => set_output (testCases x) (wrap 32 (pathsExplored x + 1)) x) in
  do* added := get addedStates in
  if bool_decide (es ∈ added) then
    do* _ := modify (fun x => set_seedMap (delete es (seedMap x)) x) in
    do* _ := modify (fun x => set_states (states x) (erase_state es (addedStates x)) (removedStates x) x) in
    do* _ := remove_node es in
    delete_state es
  else
    do* s := state_at es in
    do* _ := put_state es (set_pc (prevPC s) s) in
    modify (fun x => set_states (states x) (addedStates x) (removedStates x ++ [es]) x).

(* if (!OnlyOutputStatesCoveringNew || ...) processTestCase(...) *)
Definition output_test (t : TestCase) (es : positive) : exec unit :=
  do* s := state_at es in
  do* seeds := get seedMap in
  if negb (OnlyOutputStatesCoveringNew o) || coveredNew s || (AlwaysOutputSeeds o && bool_decide (is_Some (seeds !! es)))
  then modify (fun x => set_output (t :: testCases x) (pathsExplored x) x) else sret tt.

Definition terminateStateEarly (es : positive) : exec unit :=
  do* _ := output_test (TestEarly es) es in terminateState es.

Definition terminateStateOnExit (es : positive) : exec unit :=
  do* _ := output_test (TestExit es) es in terminateState es.

(* the loop of updateStates over the removed states *)
Fixpoint remove_states (removed : list positive) : exec unit :=
  match removed with
  | [] => sret tt
  | es :: removed' =>
      do* st := get states in
      do* _ := slift (assert* bool_decide (es ∈ st) in Ok tt) in
      do* _ := modify (fun x => set_states (states x ∖ {[es]}) (addedStates x) (removedStates x) x) in
      do* _ := modify (fun x => set_seedMap (delete es (seedMap x)) x) in
      do* _ := remove_node es in
      do* _ := delete_state es in
      remove_states removed'
  end.

(* updateStates, after the searcher was told *)
Definition update_states : exec unit :=
  do* _ := modify (fun x => set_states (states x ∪ list_to_set (addedStates x)) [] (removedStates x) x) in
  do* removed := get removedStates in
  do* _ := remove_states removed in
  modify (fun x => set_states (states x) (addedStates x) [] x).

(** ** Constraints *)

(* siit->assignment.evaluate(condition), and the answer of the solver *)
Definition seed_value (es : positive) (si : SeedInfo) (condition : expr) : exec bool :=
  do* e := slift (ExprEval.evaluate ConstArrayOpt UseVisitorHash (assignment si) condition) in
  do* v := ask es (fun cs => must_succeed (ts_getValue simplify solver simplifyExprs cs e)) in
  sret (const_isTrue v).

(* the loop of addConstraint over the seeds *)
Fixpoint patch_seeds (es : positive) (condition : expr) (seeds : list SeedInfo) : exec (list SeedInfo) :=
  match seeds with
  | [] => sret []
  | si :: seeds' =>
      do* e := slift (ExprEval.evaluate ConstArrayOpt UseVisitorHash (assignment si) condition) in
      do* res := ask es (fun cs => must_succeed (ts_mustBeFalse ConstArrayOpt simplify solver simplifyExprs cs e)) in
      do* si := (if res then ask es (fun cs => patchSeed ConstArrayOpt UseVisitorHash RewriteEqualities solver simplifyExprs cs condition si)
                 else sret si) in
      do* seeds' := patch_seeds es condition seeds' in
      sret (si :: seeds')
  end.

Definition addConstraint (es : positive) (condition : expr) : exec unit :=
  match condition with
  | Constant CE => slift (assert* const_isTrue CE in Ok tt)
  | _ =>
      do* seeds := get (fun x => seedMap x !! es) in
      do* _ := (match seeds with
                | None => sret tt
                | Some l =>
                    do* l := patch_seeds es condition l in
                    modify (fun x => set_seedMap (<[es := l]> (seedMap x)) x)
                end) in
      do* s := state_at es in
      do* s := slift (state_addConstraint ConstArrayOpt UseVisitorHash RewriteEqualities condition s) in
      put_state es s
  end.

(* addConstraint(es, Expr::createIsZero(condition)) *)
Definition addNegation (es : positive) (condition : expr) : exec unit :=
  do* n := slift (createIsZero ConstArrayOpt condition) in addConstraint es n.

(** ** fork *)

(* the test of the four limits; cpn is the call path of the current function *)
Definition static_limits (cpn : option positive) (st : Statistics) : bool :=
  let over count total pct := dlt (dmul (of_Z total) pct) (of_Z count) in
  let on_path f := match cpn with Some n => f (callPath st n) | None => false end in
  let one := of_Z 1 in
  (dlt (MaxStaticForkPct o) one && over (indexed_forks st) (forks st) (MaxStaticForkPct o)) ||
  (dlt (MaxStaticCPForkPct o) one && on_path (fun c => over (fst c) (forks st) (MaxStaticCPForkPct o))) ||
  (dlt (MaxStaticSolvePct o) one && over (indexed_solverTime st) (solverTime st) (MaxStaticSolvePct o)) ||
  (dlt (MaxStaticCPForkPct o) one && on_path (fun c => over (snd c) (solverTime st) (MaxStaticCPSolvePct o))).

(* some limit is not 1, and a minute has passed *)
Definition limits_apply (st : Statistics) : bool :=
  let one := of_Z 1 in
  (dne (MaxStaticForkPct o) one || dne (MaxStaticSolvePct o) one || dne (MaxStaticCPForkPct o) one ||
   dne (MaxStaticCPSolvePct o) one) && (60 * 10 ^ 9 <? elapsed st).

(* current.stack.back().callPathNode *)
Definition call_path (es : positive) : exec (option positive) :=
  do* s := state_at es in
  slift (match stack s with sf :: _ => Ok (callPathNode sf) | [] => AssertFail end).

(* over a limit the condition is replaced by a value it has *)
Definition limit_condition (current : positive) (condition : expr) : exec expr :=
  do* seeding := get (fun x => bool_decide (is_Some (seedMap x !! current))) in
  do* st := get statistics in
  if negb seeding && negb (isConstant condition) && limits_apply st then
    do* cpn := call_path current in
    if static_limits cpn st then
      do* value := ask current (fun cs => must_succeed (ts_getValue simplify solver simplifyExprs cs condition)) in
      do* eq := slift (BinaryExpr_create ConstArrayOpt Eq (Constant value) condition) in
      do* _ := addConstraint current eq in
      sret (Constant value)
    else sret condition
  else sret condition.

(* the branch of the replayed path *)
Definition replay_branch (current : positive) (condition : expr) (path : list bool) (res : Validity) : exec Validity :=
  do* pos := get replayPosition in
  do* _ := slift (assert* pos <? Z.of_nat (length path) in Ok tt) in
  do* branch := slift (match path !! Z.to_nat pos with Some b => Ok b | None => AssertFail end) in
  do* _ := modify (set_replayPosition (wrap 32 (pos + 1))) in
  match res with
  | ValidityTrue => slift (assert* branch in Ok ValidityTrue)
  | ValidityFalse => slift (assert* negb branch in Ok ValidityFalse)
  | ValidityUnknown =>
      if branch : bool then do* _ := addConstraint current condition in sret ValidityTrue
      else do* _ := addNegation current condition in sret ValidityFalse
  end.

(* MaxForks!=~0u && stats::forks >= MaxForks *)
Definition forks_exceeded (x : Executor) : bool :=
  match MaxForks o with Some n => n <=? forks (statistics x) | None => false end.

Definition fork_forbidden (s : ExecutionState) (x : Executor) : bool :=
  (MaxMemoryInhibit o && atMemoryLimit x) || forkDisabled s || inhibitForking x || forks_exceeded x.

(* a fork that is not allowed takes one of the branches *)
Definition random_branch (current : positive) (condition : expr) : exec Validity :=
  do* _ := slift (assert* negb (bool_decide (is_Some (replayKTest o))) in Ok tt) in
  do* s := state_at current in
  do* forbidden := get (fork_forbidden s) in
  if forbidden then
    do* b := flip in
    if b then do* _ := addConstraint current condition in sret ValidityTrue
    else do* _ := addNegation current condition in sret ValidityFalse
  else sret ValidityUnknown.

Definition choose_branch (current : positive) (condition : expr) (isInternal : bool) (res : Validity) : exec Validity :=
  match replayPath o with
  | Some path =>
      if negb isInternal then replay_branch current condition path res
      else match res with ValidityUnknown => random_branch current condition | _ => sret res end
  | None => match res with ValidityUnknown => random_branch current condition | _ => sret res end
  end.

(* which of the values true and false the seeds have *)
Fixpoint seed_values (es : positive) (condition : expr) (seeds : list SeedInfo) (t f : bool) : exec (bool * bool) :=
  match seeds with
  | [] => sret (t, f)
  | si :: seeds' =>
      do* v := seed_value es si condition in
      let t := t || v in let f := f || negb v in
      if t && f then sret (t, f) else seed_values es condition seeds' t f
  end.

(* if the seeds agree, the state follows them *)
Definition seed_branch (current : positive) (condition : expr) (seeds : list SeedInfo) (res : Validity) : exec Validity :=
  do* s := state_at current in
  match res with
  | ValidityUnknown =>
      if forkDisabled s || OnlyReplaySeeds o then
        do* p := seed_values current condition seeds false false in
        let '(trueSeed, falseSeed) := p in
        if trueSeed && falseSeed then sret ValidityUnknown
        else
          do* _ := slift (assert* trueSeed || falseSeed in Ok tt) in
          if trueSeed then do* _ := addConstraint current condition in sret ValidityTrue
          else do* _ := addNegation current condition in sret ValidityFalse
      else sret ValidityUnknown
  | _ => sret res
  end.

(* the seeds of both states *)
Fixpoint split_seeds (es : positive) (condition : expr) (seeds : list SeedInfo) : exec (list SeedInfo * list SeedInfo) :=
  match seeds with
  | [] => sret ([], [])
  | si :: seeds' =>
      do* v := seed_value es si condition in
      do* p := split_seeds es condition seeds' in
      sret (if v : bool then (si :: fst p, snd p) else (fst p, si :: snd p))
  end.

Definition put_seeds (es : positive) (l : list SeedInfo) (m : gmap positive (list SeedInfo)) : gmap positive (list SeedInfo) :=
  match l with [] => delete es m | _ => <[es := l]> m end.

(* trueState is current *)
Definition fork_seeds (trueState falseState : positive) (condition : expr) (seeds : list SeedInfo) : exec unit :=
  do* p := split_seeds trueState condition seeds in
  let '(ts, fs) := p in
  do* _ := modify (fun x => set_seedMap (put_seeds falseState fs (put_seeds trueState ts (seedMap x))) x) in
  match ts with
  | [] =>
      (* swapInfo *)
      do* t := state_at trueState in
      do* f := state_at falseState in
      do* _ := put_state trueState (set_covered (coveredNew f) (coveredLines f) t) in
      put_state falseState (set_covered (coveredNew t) (coveredLines t) f)
  | _ => sret tt
  end.

(* os << "1" *)
Definition write_path (os : TreeOStream) (b : bool) (w : TreeStreamWriter) : res TreeStreamWriter :=
  os_write os [if b then 49 else 48] w.

(* current.pathOS << "1", when there is a path writer *)
Definition record_branch (es : positive) (b : bool) : exec unit := fun x =>
  match pathWriter x with
  | None => Ok (tt, x)
  | Some w =>
      let* p := state_at es x in
      let* w := write_path (pathOS (fst p)) b w in
      Ok (tt, set_writers (Some w) (symPathWriter x) x)
  end.

(* the stream of a new state, and "1" and "0" to both unless the fork is internal *)
Definition fork_stream (os : TreeOStream) (isInternal : bool) (w : TreeStreamWriter) : res (TreeOStream * TreeStreamWriter) :=
  let* p := open_from os w in
  let '(fs, w) := p in
  if isInternal then Ok (fs, w)
  else let* w := write_path os true w in let* w := write_path fs false w in Ok (fs, w).

Definition fork_streams (trueState falseState : positive) (isInternal : bool) : exec unit := fun x =>
  let* p := state_at trueState x in
  let* q := state_at falseState x in
  let t := fst p in let f := fst q in
  let* r :=
    match pathWriter x with
    | None => Ok (pathOS f, None)
    | Some w => let* r := fork_stream (pathOS t) isInternal w in Ok (fst r, Some (snd r))
    end in
  let* s :=
    match symPathWriter x with
    | None => Ok (symPathOS f, None)
    | Some w => let* r := fork_stream (symPathOS t) isInternal w in Ok (fst r, Some (snd r))
    end in
  Ok (tt, set_pool (<[falseState := set_paths (fst r) (fst s) f]> (pool x)) (set_writers (snd r) (snd s) x)).

(* both branches are possible *)
Definition fork_both (current : positive) (condition : expr) (isInternal : bool) (seeds : option (list SeedInfo)) :
    exec (option positive * option positive) :=
  do* _ := modify (add_forks 1) in
  do* falseState := branch_state current in
  do* _ := (match seeds with Some l => fork_seeds current falseState condition l | None => sret tt end) in
  do* _ := attach_node current falseState current in
  do* _ := fork_streams current falseState isInternal in
  do* _ := addConstraint current condition in
  do* _ := addNegation falseState condition in
  do* t := state_at current in
  if negb (MaxDepth o =? 0) && (MaxDepth o <=? depth t) then
    do* _ := terminateStateEarly current in
    do* _ := terminateStateEarly falseState in
    sret (None, None)
  else sret (Some current, Some falseState).

Definition fork (current : positive) (condition : expr) (isInternal : bool) : exec (option positive * option positive) :=
  do* seeds := get (fun x => seedMap x !! current) in
  do* condition := limit_condition current condition in
  do* r := ask current (fun cs => ts_evaluate simplify solver simplifyExprs cs condition) in
  match r with
  | None =>
      do* s := state_at current in
      do* _ := put_state current (set_pc (prevPC s) s) in
      do* _ := terminateStateEarly current in
      sret (None, None)
  | Some res =>
      do* res :=
        (match seeds with
         | None => choose_branch current condition isInternal res
         | Some l => seed_branch current condition l res
         end) in
      match res with
      | ValidityTrue =>
          do* _ := (if isInternal then sret tt else record_branch current true) in
          sret (Some current, None)
      | ValidityFalse =>
          do* _ := (if isInternal then sret tt else record_branch current false) in
          sret (None, Some current)
      | ValidityUnknown => fork_both current condition isInternal seeds
      end
  end.

End executor.
