(* ===== verification/ExecutorInv.v ===== *)
(** The invariant of the executor ([exec_ok]) and the operations on states.

    Every state that is allocated has satisfiable constraints, the process tree
    has exactly the allocated states at its leaves, the states the searcher
    does not know yet and those it has still to forget are as it expects, the
    merge handlers know the states in their merge, and each path stream is one
    of the writer. *)
From Stdlib Require Import ZArith Lia Bool.
From stdpp Require Import base list numbers option gmap sets.
From S2P Require Import Prelude APInt Expr ExprCreate ExprSem ExprCreateCorrect Solver Constraints TimingSolver Rng TreeStream PTree ImmutableTree MemoryObject AddressSpace ExecutionState SeedInfo Executor.
Open Scope Z_scope.

(** ** Open states of merge handlers *)

Lemma removeOpenState_ok es l : es ∈ l ->
  exists l', removeOpenState es l = Ok l' /\ forall e, e <> es -> e ∈ l -> e ∈ l'.
Proof.
  intros Hes. unfold removeOpenState. destruct (list_find (eq es) l) as [[i y]|] eqn:E.
  2:{ apply list_find_None in E. rewrite Forall_forall in E. by destruct (E es Hes). }
  apply list_find_Some in E as (Hi & <- & _). destruct (list_elem_of_split_length l i es Hi) as (l1 & l2 & -> & ->).
  destruct l2 as [|b l2 _] using rev_ind.
  - rewrite last_snoc. eexists. split; [done|]. intros e Hne He.
    rewrite insert_app_r_alt, Nat.sub_diag, length_app by lia. cbn. replace (pred (length l1 + 1)) with (length l1) by lia.
    rewrite take_app_length. set_solver.
  - rewrite app_comm_cons, app_assoc, last_snoc. eexists. split; [done|]. intros e Hne He.
    rewrite <- app_assoc. cbn [app]. rewrite insert_app_r_alt, Nat.sub_diag by lia. cbn [insert list_insert].
    rewrite !length_app. cbn [length]. rewrite length_app. cbn [length].
    replace (pred (length l1 + S (length l2 + 1))) with (length (l1 ++ b :: l2)) by (rewrite length_app; cbn; lia).
    rewrite app_comm_cons, app_assoc, take_app_length. set_solver.
Qed.

Lemma remove_open_ok es handlers : forall m,
  NoDup handlers -> (forall h, h ∈ handlers -> es ∈ default [] (m !! h)) ->
  exists m', remove_open handlers es m = Ok m' /\ forall h e, e <> es -> e ∈ default [] (m !! h) -> e ∈ default [] (m' !! h).
Proof.
  induction handlers as [|h handlers IH]; intros m Hn Hin; cbn [remove_open]; [by exists m|].
  apply NoDup_cons in Hn as [Hh Hn]. destruct (removeOpenState_ok es (default [] (m !! h))) as (l & -> & Hl); [apply Hin; by left|].
  cbn [res_bind]. destruct (IH (<[h := l]> m) Hn) as (m' & E & Hm').
  { intros h' Hh'. rewrite lookup_insert_ne by (by intros ->). apply Hin. by right. }
  exists m'. split; [done|]. intros h' e Hne He. apply Hm'; [done|]. destruct (decide (h = h')) as [<-|Hd].
  - rewrite lookup_insert_eq. by apply Hl.
  - by rewrite lookup_insert_ne.
Qed.

Lemma add_open_mono handlers es : forall m h e, e ∈ default [] (m !! h) -> e ∈ default [] (add_open handlers es m !! h).
Proof.
  induction handlers as [|h0 handlers IH]; intros m h e He; [done|]. cbn. apply IH.
  destruct (decide (h0 = h)) as [->|Hd]; [rewrite lookup_insert_eq; apply elem_of_app; by left|by rewrite lookup_insert_ne].
Qed.

Lemma add_open_in handlers es : forall m h, h ∈ handlers -> es ∈ default [] (add_open handlers es m !! h).
Proof.
  induction handlers as [|h0 handlers IH]; intros m h Hh; [by apply not_elem_of_nil in Hh|]. cbn.
  apply elem_of_cons in Hh as [->|Hh]; [|by apply IH]. apply add_open_mono. rewrite lookup_insert_eq. apply elem_of_app. right. by left.
Qed.

Lemma erase_state_elem es l e : NoDup l -> e ∈ erase_state es l <-> e ∈ l /\ e <> es.
Proof.
  induction l as [|x l IH]; cbn [erase_state]; intros Hn; [set_solver|]. apply NoDup_cons in Hn as [Hx Hn].
  destruct (Pos.eqb_spec x es) as [->|Hne]; [set_solver|]. rewrite !elem_of_cons, IH by done. set_solver.
Qed.

Lemma erase_state_nodup es l : NoDup l -> NoDup (erase_state es l).
Proof.
  induction l as [|x l IH]; cbn [erase_state]; intros Hn; [done|]. apply NoDup_cons in Hn as [Hx Hn].
  destruct (Pos.eqb_spec x es) as [->|Hne]; [done|]. apply NoDup_cons. split; [|by apply IH]. rewrite erase_state_elem by done. tauto.
Qed.

Section invariant.
Context {A : APInt} {L : APIntLaws A} {AR : Arrays} {F : Functions}.
Context (checked : bool) {SC : Scope false checked}.
Context {S : Type} (Inv : S -> Prop).

Notation Executor := (Executor (S:=S)).

(** The constraints are Boolean, of the scope, and have a solution. *)
Definition constraints_ok (cs : list expr) : Prop := query_ok checked (MkQuery cs (const_alloc 0 Bool_w)).

Definition state_ok (s : ExecutionState) : Prop := constraints_ok (constraints s).

(** [os] is a stream of the writer. *)
Definition stream_of (w : TreeStreamWriter) (os : TreeOStream) : Prop :=
  exists i, os = MkOStream (Some (this w)) i /\ 0 < i < ids w.

Definition streams_ok (w : option TreeStreamWriter) (os : ExecutionState -> TreeOStream) (p : gmap positive ExecutionState) : Prop :=
  forall w0, w = Some w0 -> (exists m, holds w0 m) /\ forall es s, p !! es = Some s -> stream_of w0 (os s).

Record exec_ok (x : Executor) : Prop := {
  ex_states es s : pool x !! es = Some s -> state_ok s;
  ex_pool : dom (pool x) = states x ∪ list_to_set (addedStates x);
  ex_added : NoDup (addedStates x) /\ forall es, es ∈ addedStates x -> es ∉ states x;
  ex_removed : NoDup (removedStates x) /\ forall es, es ∈ removedStates x -> es ∈ states x;
  ex_tree : represents (dom (pool x)) (processTree x);
  ex_open es s : pool x !! es = Some s -> NoDup (openMergeStack s) /\
    forall h, h ∈ openMergeStack s -> es ∈ default [] (openStates x !! h);
  ex_paths : streams_ok (pathWriter x) pathOS (pool x) /\ streams_ok (symPathWriter x) symPathOS (pool x);
  ex_rng : valid (theRNG x);
  ex_solver : Inv (solver_state x);
}.

(** A state that can be worked on: allocated, and not ended. *)
Definition running (x : Executor) (es : positive) : Prop := is_Some (pool x !! es) /\ es ∉ removedStates x.

(** Ended: deleted, or to be deleted at the next update. *)
Definition ended (x : Executor) (es : positive) : Prop := pool x !! es = None \/ es ∈ removedStates x.

(** Only [es] and new states change. *)
Record changes (es : positive) (x x' : Executor) : Prop := {
  ch_others e : e <> es -> is_Some (pool x !! e) -> pool x' !! e = pool x !! e;
  ch_running e : e <> es -> running x e -> running x' e;
  ch_seeds e : seedMap x !! e = None -> seedMap x' !! e = None;
  ch_solver : Inv (solver_state x) -> Inv (solver_state x');
  ch_clock : elapsed (statistics x') = elapsed (statistics x);
}.

(** The path writers, their streams included, are the same. *)
Definition same_writers (x x' : Executor) : Prop := pathWriter x' = pathWriter x /\ symPathWriter x' = symPathWriter x.

#[export] Instance changes_preorder es : PreOrder (changes es).
Proof.
  split.
  - intros x. by split.
  - intros x y z [H1 H2 H3 H4 H5] [G1 G2 G3 G4 G5]. split; [|by auto|by auto|by auto|congruence].
    intros e Hne He. rewrite G1; [by apply H1|done|by rewrite H1].
Qed.

Lemma exec_ok_dom x es : exec_ok x -> is_Some (pool x !! es) <-> es ∈ states x \/ es ∈ addedStates x.
Proof. intros H. rewrite <- elem_of_dom, (ex_pool x H). set_solver. Qed.

Lemma pool_eta (x : Executor) : set_pool (pool x) x = x.
Proof. by destruct x. Qed.

(** *** Writing a state back *)

(** What the rest of the executor knows of a state stays. *)
Record same_links (s s' : ExecutionState) : Prop := {
  sl_merge : openMergeStack s' = openMergeStack s;
  sl_path : pathOS s' = pathOS s;
  sl_sym : symPathOS s' = symPathOS s;
}.

Lemma put_ok x es s s' :
  exec_ok x -> pool x !! es = Some s -> same_links s s' -> state_ok s' ->
  exec_ok (set_pool (<[es := s']> (pool x)) x) /\ changes es x (set_pool (<[es := s']> (pool x)) x).
Proof.
  intros [H1 H2 H3 H4 H5 H6 [H7 H7'] H8 H9] Hs [Lm Lp Ls] Hok.
  assert (forall e t, <[es := s']> (pool x) !! e = Some t ->
    exists t0, pool x !! e = Some t0 /\ same_links t0 t /\ (state_ok t0 -> state_ok t)) as Hl.
  { intros e t. destruct (decide (es = e)) as [<-|Hne].
    - rewrite lookup_insert_eq. intros [= <-]. exists s. split_and!; [done|by split|done].
    - rewrite lookup_insert_ne by done. intros Ht. exists t. split_and!; [done|by split|done]. }
  assert (dom (<[es := s']> (pool x)) = dom (pool x)) as Hd by (apply dom_insert_lookup_L; by eexists).
  split.
  - split; cbn [pool states addedStates removedStates processTree openStates pathWriter symPathWriter theRNG solver_state set_pool]; try done.
    + intros e t (t0 & Ht & _ & Hk)%Hl. apply Hk. by apply (H1 e).
    + by rewrite Hd.
    + by rewrite Hd.
    + intros e t (t0 & Ht & [Em _ _] & _)%Hl. rewrite Em. by apply (H6 e t0).
    + split; intros w Hw; [destruct (H7 w Hw) as [Hh Hp]|destruct (H7' w Hw) as [Hh Hp]]; (split; [done|]);
        intros e t (t0 & Ht & [_ Ep Es] & _)%Hl; rewrite ?Ep, ?Es; by apply (Hp e t0).
  - split; cbn; try done.
    + intros e Hne _. by rewrite lookup_insert_ne.
    + intros e Hne [Hr1 Hr2]. split; cbn; [|done]. by rewrite lookup_insert_ne.
Qed.

Lemma represents_path X t es : represents X t -> es ∈ X -> exists p, ptreeNode t !! es = Some p.
Proof.
  intros Ht Hes. destruct (represents_some _ _ _ Ht Hes) as (_ & _ & Hl & Hall). destruct (Hall es Hes) as [p Hp].
  exists p. by apply (Hl es p).
Qed.

(** *** Ending a state *)

Lemma delete_ok x es s t' :
  exec_ok x -> pool x !! es = Some s -> es ∈ addedStates x -> represents (dom (pool x) ∖ {[es]}) t' ->
  exists m, remove_open (openMergeStack s) es (openStates x) = Ok m /\
    let x' := set_pool (delete es (pool x)) (set_openStates m (set_processTree t'
      (set_states (states x) (erase_state es (addedStates x)) (removedStates x) x))) in
    exec_ok x' /\ changes es x x' /\ ended x' es.
Proof.
  intros [H1 H2 [H3 H3'] [H4 H4'] H5 H6 [H7 H7'] H8 H9] Hs Ha Ht. destruct (H6 es s Hs) as [Hn Ho].
  destruct (remove_open_ok es (openMergeStack s) (openStates x) Hn Ho) as (m & E & Hm). exists m. split; [done|]. cbn zeta.
  assert (forall e t, delete es (pool x) !! e = Some t -> e <> es /\ pool x !! e = Some t) as Hl.
  { intros e t [Hne Hd]%lookup_delete_Some. done. }
  split_and!.
  - split; cbn [pool states addedStates removedStates processTree openStates pathWriter symPathWriter theRNG solver_state
      set_pool set_openStates set_processTree set_states]; try done.
    + intros e t [_ Ht']%Hl. by apply (H1 e).
    + rewrite dom_delete_L, H2. apply set_eq. intros e. rewrite elem_of_difference, !elem_of_union, !elem_of_list_to_set, elem_of_singleton.
      rewrite erase_state_elem by done. specialize (H3' e). destruct (decide (e = es)) as [->|]; [|tauto]. specialize (H3' Ha). tauto.
    + split; [by apply erase_state_nodup|]. intros e. rewrite erase_state_elem by done. intros [He _]. by apply H3'.
    + by rewrite dom_delete_L.
    + intros e t [Hne Ht']%Hl. destruct (H6 e t Ht') as [Hn' Ho']. split; [done|]. intros h Hh. apply Hm; [done|]. by apply Ho'.
    + split; intros w Hw; [destruct (H7 w Hw) as [Hh Hp]|destruct (H7' w Hw) as [Hh Hp]]; (split; [done|]);
        intros e t [_ Ht']%Hl; by apply (Hp e t).
  - split; cbn; try done.
    + intros e Hne _. by rewrite lookup_delete_ne.
    + intros e Hne [Hr1 Hr2]. split; cbn; [|done]. by rewrite lookup_delete_ne.
  - left. cbn. apply lookup_delete_eq.
Qed.

Lemma set_output_ok x t n : exec_ok x -> exec_ok (set_output t n x) /\ forall es, changes es x (set_output t n x).
Proof. intros []. split; by split. Qed.

Lemma set_seedMap_ok x m : exec_ok x -> (forall e, seedMap x !! e = None -> m !! e = None) ->
  exec_ok (set_seedMap m x) /\ forall es, changes es x (set_seedMap m x).
Proof. intros [] Hm. split; by split. Qed.

Lemma terminateState_ok x es :
  exec_ok x -> running x es ->
  exists x', terminateState es x = Ok (tt, x') /\ exec_ok x' /\ changes es x x' /\ ended x' es /\
    same_writers x x' /\ forall e, running x' e -> running x e.
Proof.
  intros H0 [[s0 Hs0] Hr0]. unfold terminateState, sbind, modify, get. cbn [res_bind fst snd].
  destruct (set_output_ok x (testCases x) (wrap 32 (pathsExplored x + 1)) H0) as [H Hc1]. specialize (Hc1 es).
  remember (set_output (testCases x) (wrap 32 (pathsExplored x + 1)) x) as y eqn:Ey.
  assert (pool y !! es = Some s0 /\ es ∉ removedStates y) as [Hs Hr] by (subst y; by split).
  assert (forall e, running y e -> running x e) as Hback by (by subst y).
  assert (same_writers x y) as Hsw by (by subst y). clear Ey Hs0 Hr0 H0.
  destruct (bool_decide_reflect (es ∈ addedStates y)) as [Ha|Ha].
  - destruct (set_seedMap_ok y (delete es (seedMap y)) H) as [H1 Hc2].
    { intros e He. destruct (decide (es = e)) as [<-|]; [apply lookup_delete_eq|by rewrite lookup_delete_ne]. }
    specialize (Hc2 es). remember (set_seedMap (delete es (seedMap y)) y) as z eqn:Ez.
    assert (pool z !! es = Some s0 /\ es ∈ addedStates z) as [Hsz Haz] by (subst z; by split).
    assert (forall e, running z e -> running x e) as Hbz by (subst z; exact Hback).
    assert (same_writers x z) as Hsz' by (subst z; exact Hsw). clear Ez Hback. rename Hbz into Hback.
    pose proof (ex_tree z H1) as Htree. assert (es ∈ dom (pool z)) as Hd by (apply elem_of_dom; by eexists).
    destruct (represents_path _ _ es Htree Hd) as [p Ep]. destruct (ptree_remove_ok _ _ es p Htree Hd Ep) as (t' & Et & Ht').
    destruct (delete_ok z es s0 t' H1 Hsz Haz Ht') as (m & Em & Hok & Hc3 & Hend).
    unfold remove_node. cbn [processTree set_states]. rewrite Ep, Et. cbn [res_bind fst snd].
    unfold delete_state, sbind, state_at, get, slift, modify. cbn [pool set_processTree set_states]. rewrite Hsz.
    cbn [res_bind fst snd openStates set_processTree set_states]. rewrite Em. cbn [res_bind fst snd].
    eexists. split; [reflexivity|]. split_and!; [exact Hok|by etrans; [exact Hc1|]; etrans; [exact Hc2|]|exact Hend|exact Hsz'|].
    intros e [[u Hu] Hre]. apply Hback. split; [|exact Hre]. cbn in Hu. apply lookup_delete_Some in Hu as [_ Hu]. by exists u.
  - unfold state_at. rewrite Hs. cbn [res_bind fst snd]. unfold put_state, modify. cbn [res_bind fst snd].
    destruct (put_ok y es s0 (set_pc (prevPC s0) s0) H Hs) as [Hok Hc2]; [by split|exact (ex_states y H es s0 Hs)|].
    eexists. split; [reflexivity|].
    assert (es ∈ states y) as Hst by (destruct (proj1 (exec_ok_dom y es H)) as [|]; [by eexists|done|done]).
    destruct Hok as [K1 K2 K3 [K4 K4'] K5 K6 K7 K8 K9]. split_and!.
    + split; try done. cbn. split.
      * apply NoDup_app. split_and!; [exact K4| |apply NoDup_singleton]. intros e He ->%list_elem_of_singleton. done.
      * intros e [He| ->%list_elem_of_singleton]%elem_of_app; [by apply K4'|done].
    + etrans; [exact Hc1|]. destruct Hc2 as [C1 C2 C3 C4 C5]. split; try done.
      intros e Hne Hre. destruct (C2 e Hne Hre) as [D1 D2]. split; [done|]. cbn. intros [He|He%list_elem_of_singleton]%elem_of_app; [|done].
      by apply D2.
    + right. cbn. apply elem_of_app. right. by left.
    + exact Hsw.
    + intros e [[u Hu] Hre]. apply Hback. cbn in Hu, Hre. split.
      * destruct (decide (es = e)) as [<-|Hne]; [by eexists|]. rewrite lookup_insert_ne in Hu by done. by exists u.
      * intros Hin. apply Hre, elem_of_app. by left.
Qed.

Lemma terminateStateEarly_ok o x es :
  exec_ok x -> running x es ->
  exists x', terminateStateEarly o es x = Ok (tt, x') /\ exec_ok x' /\ changes es x x' /\ ended x' es /\
    same_writers x x' /\ forall e, running x' e -> running x e.
Proof.
  intros H Hr. pose proof Hr as [[s Hs] Hr']. unfold terminateStateEarly, output_test, sbind, state_at, get. rewrite Hs. cbn [res_bind fst snd].
  destruct (_ || _).
  - unfold modify. cbn [res_bind fst snd]. destruct (set_output_ok x (TestEarly es :: testCases x) (pathsExplored x) H) as [H1 Hc].
    destruct (terminateState_ok _ es H1) as (x' & -> & Hok & Hc' & He & Hw & Hb); [by split|]. exists x'. split_and!; [done|done|by etrans; [apply Hc|]|done|exact Hw|exact Hb].
  - unfold sret. cbn [res_bind fst snd]. by apply terminateState_ok.
Qed.

(** *** A new state *)

(** The executor after [branch_state] and [attach_node]. *)
Definition branched (x : Executor) (es ns : positive) (f t : ExecutionState) (tree : PTree) : Executor :=
  set_processTree tree (set_states (states x) (addedStates x ++ [ns]) (removedStates x)
    (set_openStates (add_open (openMergeStack f) ns (openStates x)) (set_pool (<[ns := f]> (<[es := t]> (pool x))) x))).

Lemma branched_ok x es s f t tree ns :
  exec_ok x -> pool x !! es = Some s -> pool x !! ns = None -> branch s = (f, t) -> represents ({[ns]} ∪ dom (pool x)) tree ->
  exec_ok (branched x es ns f t tree) /\ changes es x (branched x es ns f t tree).
Proof.
  intros [H1 H2 [H3 H3'] [H4 H4'] H5 H6 [H7 H7'] H8 H9] Hs Hns Eb Ht. unfold branch, ExecutionState_copy in Eb. cbn in Eb.
  assert (constraints f = constraints s /\ same_links s f) as [Ef Lf] by (by injection Eb as <- <-).
  assert (constraints t = constraints s /\ same_links s t) as [Et Lt] by (by injection Eb as <- <-). clear Eb.
  assert (ns <> es) as Hne by (intros ->; congruence).
  assert (forall e u, <[ns := f]> (<[es := t]> (pool x)) !! e = Some u ->
    (exists u0, pool x !! e = Some u0 /\ same_links u0 u /\ constraints u = constraints u0) \/
    e = ns /\ same_links s u /\ constraints u = constraints s) as Hl.
  { intros e u. destruct (decide (ns = e)) as [<-|Hd]; [rewrite lookup_insert_eq; intros [= <-]; auto|].
    rewrite lookup_insert_ne by done. left. destruct (decide (es = e)) as [<-|Hd'].
    - rewrite lookup_insert_eq in H. injection H as <-. by exists s.
    - rewrite lookup_insert_ne in H by done. exists u. by split_and!. }
  assert (dom (<[ns := f]> (<[es := t]> (pool x))) = {[ns]} ∪ dom (pool x)) as Hd.
  { rewrite dom_insert_L, dom_insert_lookup_L; [done|by eexists]. }
  assert (ns ∉ states x /\ ns ∉ addedStates x) as [Hn1 Hn2].
  { split; intros Hin; apply (not_elem_of_dom_2 (D:=gset positive)) in Hns; apply Hns; rewrite H2; set_solver. }
  split.
  - split; cbn [branched pool states addedStates removedStates processTree openStates pathWriter symPathWriter theRNG solver_state
      set_pool set_openStates set_processTree set_states]; try done.
    + intros e u [(u0 & Hu & _ & Ec)|(_ & _ & Ec)]%Hl; unfold state_ok; rewrite Ec; [by apply (H1 e)|by apply (H1 es)].
    + rewrite Hd, H2, list_to_set_app_L. set_solver.
    + split.
      * apply NoDup_app. split_and!; [done| |apply NoDup_singleton]. by intros e He ->%list_elem_of_singleton.
      * intros e [He| ->%list_elem_of_singleton]%elem_of_app; [by apply H3'|done].
    + by rewrite Hd.
    + intros e u Hu. pose proof (sl_merge _ _ Lf) as Emf. apply Hl in Hu as [(u0 & Hu & [Em _ _] & _)|(-> & [Em _ _] & _)]; rewrite Em.
      * destruct (H6 e u0 Hu) as [Hn Ho]. split; [done|]. intros h Hh. apply add_open_mono. by apply Ho.
      * split; [by apply (H6 es s)|]. intros h Hh. apply add_open_in. by rewrite Emf.
    + split; intros w Hw; [destruct (H7 w Hw) as [Hh Hp]|destruct (H7' w Hw) as [Hh Hp]]; (split; [done|]);
        intros e u [(u0 & Hu & [_ Ep Es] & _)|(_ & [_ Ep Es] & _)]%Hl; rewrite ?Ep, ?Es; [by apply (Hp e)|by apply (Hp es)|by apply (Hp e)|by apply (Hp es)].
  - split; cbn; try done.
    + intros e Hde [u Hu]. rewrite lookup_insert_ne by (intros ->; congruence). by rewrite lookup_insert_ne.
    + intros e Hde [[u Hu] Hr]. split; cbn; [|done]. rewrite lookup_insert_ne by (intros ->; congruence). by rewrite lookup_insert_ne.
Qed.

End invariant.
