(* ===== verification/ExecutorFork.v ===== *)
(** Forking: [Executor::fork] and [Executor::addConstraint] split the solutions
    of a state's constraints over its successors.

    The theorem is for runs without seeds and without replay, with the limits
    on the share of forks (the [-max-static] options) at their default; the
    other options are arbitrary. *)
From Stdlib Require Import ZArith Lia Bool.
From stdpp Require Import base list numbers option gmap sets.
From S2P Require Import Prelude APInt Expr ExprCreate ExprSem ExprCreateCorrect ExprUtil Replace Solver Constraints TimingSolver Rng TreeStream PTree ImmutableTree MemoryObject AddressSpace ExecutionState SeedInfo Executor ExecutorInv.
Open Scope Z_scope.

Section fork.
Context {A : APInt} {L : APIntLaws A} {AR : Arrays} {F : Functions}.
Context (checked hash rewrite simplifyExprs : bool) {SC : Scope false checked} {RS : RewriteScope false checked}.
Context (o : Options).
Context {S : Type} (solver : SolverImpl S) (Inv : S -> Prop).

Notation Executor := (Executor (S:=S)).
Notation exec_ok := (exec_ok checked Inv).
Notation changes := (changes Inv).
Notation addConstraint := (addConstraint false hash rewrite simplifyExprs solver).
Notation addNegation := (addNegation false hash rewrite simplifyExprs solver).
Notation fork := (fork false hash rewrite simplifyExprs o solver).
Notation cs_ok := (constraints_ok checked).

(** ** The constraints of a branch *)

(** [cs'] has the solutions of [cs] in which [e] has the value [v].  The
    rewriting of constraints may drop an expression without a value (a division
    by zero): a solution of [cs'] falsifies no constraint of [cs], and gives
    [e] no value but [v]. *)
Record takes (cs : list expr) (e : expr) (v : Z) (cs' : list expr) : Prop := {
  tk_ok : cs_ok cs';
  tk_all ρ : sat checked ρ cs -> denote checked ρ e = Some v -> sat checked ρ cs';
  tk_back ρ : none_false checked ρ cs' -> none_false checked ρ cs;
  tk_only ρ x : sat checked ρ cs' -> denote checked ρ e = Some x -> x = v;
}.

Lemma constraints_wf cs e : query_ok checked (MkQuery cs e) -> cs_ok cs.
Proof.
  intros [(H1 & _ & _ & H2 & _) Hs]. split; [|done]. split_and!; [done|by apply wt_const_alloc| |done|apply good_false].
  intros ρ _. cbn [query_expr]. rewrite denote_const_alloc by done. by eexists.
Qed.

Lemma set_of_query cs e : query_ok checked (MkQuery cs e) -> constraint_set checked cs.
Proof. intros [H _]. exact (query_constraint_set checked _ H). Qed.

Lemma set_query cs : constraint_set checked cs -> (exists ρ, sat checked ρ cs) -> cs_ok cs.
Proof.
  intros Hcs Hs. split; [|done]. split_and!; cbn [Solver.constraints query_expr].
  - eapply Forall_impl; [exact Hcs|]. by intros c (? & ? & _).
  - by apply wt_const_alloc.
  - intros ρ _. rewrite denote_const_alloc by done. by eexists.
  - eapply Forall_impl; [exact Hcs|]. by intros c (_ & _ & ? & ?).
  - apply good_false.
Qed.

(** A forced value needs no constraint. *)
Lemma takes_forced cs e v : query_ok checked (MkQuery cs e) -> forced checked (MkQuery cs e) v -> takes cs e v cs.
Proof.
  intros Hq Hf. split; [by eapply constraints_wf|done|done|]. intros ρ x Hρ Hx. specialize (Hf ρ Hρ). cbn in Hf. congruence.
Qed.

(** Constraints with values that are not false hold. *)
Lemma none_false_sat (ρ : env) cs :
  none_false checked ρ cs -> Forall (fun c => is_Some (denote checked ρ c)) cs -> sat checked ρ cs.
Proof.
  unfold none_false, sat. rewrite !Forall_forall. intros H Hd c Hc. destruct (Hd c Hc) as [v Hv]. rewrite Hv. f_equal. by apply (H c).
Qed.

(** Where the constraints have values, the solutions are exactly those. *)
Lemma takes_only cs e v cs' ρ : takes cs e v cs' -> sat checked ρ cs' ->
  Forall (fun c => is_Some (denote checked ρ c)) (e :: cs) -> sat checked ρ cs /\ denote checked ρ e = Some v.
Proof.
  intros [_ _ Hb Ho] Hρ [[x Hx] Hd]%Forall_cons_iff. split; [apply none_false_sat; [by apply Hb, sat_not_false|done]|].
  rewrite Hx. f_equal. by apply (Ho ρ).
Qed.

Lemma add_takes cs e :
  bool_query checked (MkQuery cs e) -> feasible checked (MkQuery cs e) 1 ->
  exists cs', Constraints.addConstraint false hash rewrite cs e = Ok cs' /\ takes cs e 1 cs'.
Proof.
  intros [Hq Hw] (ρ0 & Hρ0 & Hv0). pose proof Hq as [(_ & Hwt & _ & _ & Hg) _].
  destruct (addConstraint_ok checked hash rewrite Solver.good good_solid cs e ρ0) as (cs' & E & Hok & Hb & Hf);
    [by apply (set_of_query cs e)|done..|].
  exists cs'. split; [done|]. split.
  - apply set_query; [done|]. exists ρ0. apply Hf. by constructor.
  - intros ρ Hρ Hv. apply Hf. by constructor.
  - intros ρ Hn. by apply Hb, Forall_cons_iff in Hn as [_ Hn].
  - intros ρ x Hρ Hx. apply (sat_not_false checked), Hb, Forall_cons_iff in Hρ as [He _]. by apply He.
Qed.

(** Only the constraints of a state change. *)
Definition constrained (s s' : ExecutionState) : Prop := exists cs u, s' = set_constraints cs u s.

Lemma constrained_links s s' : constrained s s' -> same_links s s'.
Proof. by intros (cs & u & ->). Qed.

Lemma addConstraint_exec x es s e :
  exec_ok x -> pool x !! es = Some s -> seedMap x !! es = None ->
  bool_query checked (MkQuery (constraints s) e) -> feasible checked (MkQuery (constraints s) e) 1 ->
  exists s', addConstraint es e x = Ok (tt, set_pool (<[es := s']> (pool x)) x) /\
    constrained s s' /\ takes (constraints s) e 1 (constraints s').
Proof.
  intros H Hs Hseed Hq Hf.
  assert (forall CE, e = Constant CE -> exists s', addConstraint es e x = Ok (tt, set_pool (<[es := s']> (pool x)) x) /\
    constrained s s' /\ takes (constraints s) e 1 (constraints s')) as Hconst.
  { intros CE ->. exists s. pose proof (constant_forced checked (constraints s) CE (proj2 Hq)) as Hc.
    destruct Hf as (ρ & Hρ & Hv). pose proof (Hc ρ Hρ) as Hv'. cbn in Hv, Hv'. destruct (const_isTrue CE) eqn:Et; [|congruence].
    unfold Executor.addConstraint, slift. rewrite Et. cbn [res_assert res_bind]. split_and!.
    - rewrite insert_id by done. by rewrite pool_eta.
    - exists (constraints s), (updated s). by destruct s.
    - apply takes_forced; [apply Hq|done]. }
  destruct (add_takes _ _ Hq Hf) as (cs' & E & Ht).
  assert (isConstant e = false -> exists s', addConstraint es e x = Ok (tt, set_pool (<[es := s']> (pool x)) x) /\
    constrained s s' /\ takes (constraints s) e 1 (constraints s')) as Hother.
  { intros Hne. exists (set_constraints cs' true s). split_and!; [|by eexists _, _|done].
    destruct e; try done; unfold Executor.addConstraint, sbind, get, state_at; cbn [res_bind fst snd]; rewrite Hseed;
      cbn [sret res_bind fst snd]; rewrite Hs; cbn [res_bind fst snd]; unfold slift, state_addConstraint; rewrite E; done. }
  destruct e as [CE| | | | | | | |]; [by apply (Hconst CE)|by apply Hother..].
Qed.

Lemma addNegation_exec x es s e :
  exec_ok x -> pool x !! es = Some s -> seedMap x !! es = None ->
  bool_query checked (MkQuery (constraints s) e) -> feasible checked (MkQuery (constraints s) e) 0 ->
  exists s', addNegation es e x = Ok (tt, set_pool (<[es := s']> (pool x)) x) /\
    constrained s s' /\ takes (constraints s) e 0 (constraints s').
Proof.
  intros H Hs Hseed Hq Hf.
  destruct (negateExpr_ok false checked ltac:(done) (MkQuery (constraints s) e) (proj1 Hq)) as (nq & En & Hnq & Hnc & Hnd).
  unfold negateExpr in En. cbn [query_expr] in En. apply res_bind_inv in En as (n & En & [= <-]). cbn [query_expr withExpr] in *.
  destruct Hq as [Hq Hw]. pose proof Hq as [(_ & Hwt & Hdef & _ & _) _]. cbn in Hdef.
  assert (feasible checked (MkQuery (constraints s) n) 1) as Hfn.
  { destruct Hf as (ρ & Hρ & Hv). exists ρ. split; [done|]. exact (Hnd ρ 0 Hv). }
  destruct (addConstraint_exec x es s n H Hs Hseed Hnq Hfn) as (s' & E & Hc & [T1 T2 T3 T4]).
  exists s'. split; [|split; [done|]].
  { unfold Executor.addNegation, sbind, slift. rewrite En. cbn [res_bind fst snd]. exact E. }
  split; [done| | |].
  - intros ρ Hρ Hv. apply T2; [done|]. by rewrite (Hnd ρ 0 Hv).
  - exact T3.
  - intros ρ y Hρ Hy. specialize (T4 ρ _ Hρ (Hnd ρ y Hy)). by destruct (Z.eqb_spec y 0).
Qed.

(** ** The streams of a fork *)

(** What a stream holds. *)
Definition stream_text (w : option TreeStreamWriter) (os : TreeOStream) : option (list Z) :=
  match w with
  | None => None
  | Some w => match readStream (os_id os) w with Ok (bs, _) => Some bs | _ => None end
  end.

(* what a fork writes: "1" or "0", but for an internal one *)
Definition branch_text (isInternal b : bool) : list Z := if isInternal then [] else [if b then 49 else 48].

Lemma stream_text_holds w m i : holds w m -> 0 < i < ids w -> stream_text (Some w) (MkOStream (Some (this w)) i) = m !! i.
Proof.
  intros H Hi. unfold stream_text. cbn [os_id]. destruct (stream_read_ok w m i H Hi) as (w' & -> & _).
  by destruct (proj2 (holds_dom w m H i) Hi) as [bs ->].
Qed.

Lemma write_path_ok w m i b : holds w m -> 0 < i < ids w ->
  exists w', write_path (MkOStream (Some (this w)) i) b w = Ok w' /\ same_writer w w' /\
    holds w' (<[i := default [] (m !! i) ++ branch_text false b]> m).
Proof. intros H Hi. by apply stream_write_ok; [|done|destruct b; cbn]. Qed.

(** The streams of a writer stay what they were, but for those of the fork. *)
Lemma fork_stream_ok w m i isInternal : holds w m -> 0 < i < ids w -> ids w < 2 ^ 31 ->
  exists w' m', fork_stream (MkOStream (Some (this w)) i) isInternal w = Ok (MkOStream (Some (this w)) (ids w), w') /\
    this w' = this w /\ ids w' = ids w + 1 /\ holds w' m' /\
    m' !! i = (fun bs => bs ++ branch_text isInternal true) <$> m !! i /\
    m' !! ids w = (fun bs => bs ++ branch_text isInternal false) <$> m !! i.
Proof.
  intros H Hi Hn. destruct (proj2 (holds_dom w m H i) Hi) as [bs Hbs]. unfold fork_stream.
  destruct (open_ok w m i H ltac:(lia) Hn) as (w1 & -> & Ht & Ei & H1). cbn [res_bind]. rewrite Hbs in H1 |- *. cbn [default from_option id fmap option_fmap option_map] in *.
  destruct isInternal.
  - eexists w1, _. split_and!; [done|done|done|exact H1| |].
    + rewrite lookup_insert_ne by lia. by rewrite Hbs, app_nil_r.
    + by rewrite lookup_insert_eq, app_nil_r.
  - rewrite <- Ht. destruct (write_path_ok w1 _ i true H1) as (w2 & -> & [Ht2 Ei2] & H2); [lia|]. cbn [res_bind].
    rewrite <- Ht2. destruct (write_path_ok w2 _ (ids w) false H2) as (w3 & -> & [Ht3 Ei3] & H3); [lia|]. cbn [res_bind].
    rewrite (lookup_insert_ne _ i) in H3 by lia. rewrite lookup_insert_eq in H3. rewrite lookup_insert_ne, Hbs in H3 by lia. cbn [default from_option id] in H3.
    eexists w3, _. split_and!; [done|congruence|lia|exact H3| |].
    + rewrite lookup_insert_ne by lia. by rewrite lookup_insert_eq.
    + by rewrite lookup_insert_eq.
Qed.

(** A writer that may be absent. *)
Lemma fork_writer_ok (w : option TreeStreamWriter) os osf isInternal :
  (forall w0, w = Some w0 -> (exists m, holds w0 m) /\ stream_of w0 os /\ ids w0 < 2 ^ 31) ->
  exists os' w',
    match w with None => Ok (osf, None) | Some w => let* r := fork_stream os isInternal w in Ok (fst r, Some (snd r)) end = Ok (os', w') /\
    (forall w0', w' = Some w0' -> exists w0, w = Some w0 /\ (exists m, holds w0' m) /\ this w0' = this w0 /\ ids w0' = ids w0 + 1 /\ stream_of w0' os') /\
    stream_text w' os = (fun bs => bs ++ branch_text isInternal true) <$> stream_text w os /\
    stream_text w' os' = (fun bs => bs ++ branch_text isInternal false) <$> stream_text w os.
Proof.
  destruct w as [w|]; intros Hw; [|by exists osf, None].
  destruct (Hw w eq_refl) as ([m Hm] & (i & -> & Hi) & Hn). clear Hw.
  destruct (fork_stream_ok w m i isInternal Hm Hi Hn) as (w' & m' & E & Ht & Ei & Hm' & E1 & E2). rewrite E. cbn [res_bind fst snd].
  exists (MkOStream (Some (this w)) (ids w)), (Some w'). split_and!; [done| | |].
  - intros w0' [= <-]. exists w. split_and!; [done|by exists m'|done|lia|]. exists (ids w). split; [by rewrite Ht|lia].
  - rewrite (stream_text_holds w m) by done. rewrite <- Ht, (stream_text_holds w' m') by (done || lia). done.
  - rewrite (stream_text_holds w m) by done. rewrite <- Ht, (stream_text_holds w' m') by (done || lia). done.
Qed.

(** The path writers have room for [n] more streams. *)
Definition writers_room (n : Z) (x : Executor) : Prop :=
  (forall w, pathWriter x = Some w -> ids w + n <= 2 ^ 31) /\ (forall w, symPathWriter x = Some w -> ids w + n <= 2 ^ 31).

(** At most one stream was opened. *)
Definition one_more (x x' : Executor) : Prop := forall n, writers_room (1 + n) x -> writers_room n x'.

Lemma writers_room_mono m n x : n <= m -> writers_room m x -> writers_room n x.
Proof. intros Hn [H1 H2]. split; intros w Hw; [specialize (H1 w Hw)|specialize (H2 w Hw)]; lia. Qed.

Lemma one_more_same x y z : same_writers x y -> same_writers y z -> one_more x z.
Proof.
  intros [E1 E2] [E3 E4] n Hn. apply (writers_room_mono (1 + n)); [lia|]. unfold writers_room in *. by rewrite E3, E4, E1, E2.
Qed.

Lemma stream_of_mono w w' os : this w' = this w -> ids w < ids w' -> stream_of w os -> stream_of w' os.
Proof. intros Et Ei (i & -> & Hi). exists i. split; [by rewrite Et|lia]. Qed.

Lemma fork_streams_ok x es ns t f isInternal :
  exec_ok x -> pool x !! es = Some t -> pool x !! ns = Some f -> es <> ns -> writers_room 1 x ->
  exists p sp w sw, let f' := set_paths p sp f in
    let x' := set_pool (<[ns := f']> (pool x)) (set_writers w sw x) in
    fork_streams es ns isInternal x = Ok (tt, x') /\ exec_ok x' /\ changes ns x x' /\ one_more x x' /\
    stream_text w (pathOS t) = (fun bs => bs ++ branch_text isInternal true) <$> stream_text (pathWriter x) (pathOS t) /\
    stream_text w p = (fun bs => bs ++ branch_text isInternal false) <$> stream_text (pathWriter x) (pathOS t) /\
    stream_text sw (symPathOS t) = (fun bs => bs ++ branch_text isInternal true) <$> stream_text (symPathWriter x) (symPathOS t) /\
    stream_text sw sp = (fun bs => bs ++ branch_text isInternal false) <$> stream_text (symPathWriter x) (symPathOS t).
Proof.
  intros H Ht Hf Hne [Hr1 Hr2]. pose proof H as [H1 H2 H3 H4 H5 H6 [H7 H7'] H8 H9].
  destruct (fork_writer_ok (pathWriter x) (pathOS t) (pathOS f) isInternal) as (p & w & E & Hw & T1 & T2).
  { intros w0 Hw0. destruct (H7 w0 Hw0) as [Hm Hs]. split_and!; [done|by apply (Hs es)|specialize (Hr1 w0 Hw0); lia]. }
  destruct (fork_writer_ok (symPathWriter x) (symPathOS t) (symPathOS f) isInternal) as (sp & sw & E' & Hsw & T3 & T4).
  { intros w0 Hw0. destruct (H7' w0 Hw0) as [Hm Hs]. split_and!; [done|by apply (Hs es)|specialize (Hr2 w0 Hw0); lia]. }
  exists p, sp, w, sw. cbn zeta. split_and!; try done.
  - unfold fork_streams, state_at. rewrite Ht, Hf. cbn [res_bind fst snd]. rewrite E. cbn [res_bind fst snd]. rewrite E'. done.
  - assert (dom (<[ns := set_paths p sp f]> (pool x)) = dom (pool x)) as Hd by (apply dom_insert_lookup_L; by eexists).
    assert (forall e u, <[ns := set_paths p sp f]> (pool x) !! e = Some u ->
      (e = ns /\ u = set_paths p sp f) \/ (e <> ns /\ pool x !! e = Some u)) as Hl.
    { intros e u. destruct (decide (ns = e)) as [<-|]; [rewrite lookup_insert_eq; intros [= <-]; auto|].
      rewrite lookup_insert_ne by done. auto. }
    split; cbn [pool states addedStates removedStates processTree openStates pathWriter symPathWriter theRNG solver_state set_pool set_writers]; try done.
    + intros e u [[-> ->]|[_ Hu]]%Hl; [by apply (H1 ns f)|by apply (H1 e)].
    + by rewrite Hd.
    + by rewrite Hd.
    + intros e u [[-> ->]|[_ Hu]]%Hl; [by apply (H6 ns f)|by apply (H6 e)].
    + split; intros w0 Hw0.
      * destruct (Hw w0 Hw0) as (w1 & Hw1 & Hm & Eth & Ei & Hos). split; [done|]. destruct (H7 w1 Hw1) as [_ Hs].
        intros e u [[-> ->]|[_ Hu]]%Hl; [done|]. apply (stream_of_mono w1); [done|lia|by apply (Hs e)].
      * destruct (Hsw w0 Hw0) as (w1 & Hw1 & Hm & Eth & Ei & Hos). split; [done|]. destruct (H7' w1 Hw1) as [_ Hs].
        intros e u [[-> ->]|[_ Hu]]%Hl; [done|]. apply (stream_of_mono w1); [done|lia|by apply (Hs e)].
  - split; cbn; try done.
    + intros e Hd _. by rewrite lookup_insert_ne.
    + intros e Hd [Hr Hr']. split; cbn; [|done]. by rewrite lookup_insert_ne.
  - intros n [Hn1 Hn2]. split; cbn; intros w0 Hw0.
    + destruct (Hw w0 Hw0) as (w1 & Hw1 & _ & _ & Ei & _). specialize (Hn1 w1 Hw1). lia.
    + destruct (Hsw w0 Hw0) as (w1 & Hw1 & _ & _ & Ei & _). specialize (Hn2 w1 Hw1). lia.
Qed.

(** ** Forking *)

Lemma changes_new es ns x y z : pool x !! ns = None -> changes es x y -> changes ns y z -> changes es x z.
Proof.
  intros Hns [H1 H2 H3 H4 H5] [G1 G2 G3 G4 G5].
  assert (forall e, is_Some (pool x !! e) -> e <> ns) as Hne by (intros e [u Hu] ->; congruence). split.
  - intros e Hd He. rewrite G1; [by apply H1|by apply Hne|by rewrite H1].
  - intros e Hd He. apply G2; [apply Hne, He|by apply H2].
  - intros e He. by apply G3, H3.
  - intros Hi. by apply G4, H4.
  - congruence.
Qed.

(** [branch_state] and [attach_node]. *)
Lemma branch_attach_ok x es s : exec_ok x -> pool x !! es = Some s ->
  exists ns f t tree y, pool x !! ns = None /\ branch s = (f, t) /\ branch_state es x = Ok (ns, y) /\
    attach_node es ns es y = Ok (tt, branched x es ns f t tree) /\
    exec_ok (branched x es ns f t tree) /\ changes es x (branched x es ns f t tree).
Proof.
  intros H Hs. set (ns := fresh (dom (pool x) : gset positive)).
  assert (pool x !! ns = None) as Hns by (apply not_elem_of_dom, is_fresh).
  destruct (branch s) as [f t] eqn:Eb. assert (es ∈ dom (pool x)) as Hd by (apply elem_of_dom; by eexists).
  destruct (represents_path _ _ es (ex_tree _ _ x H) Hd) as [p Ep].
  destruct (ptree_attach_ok _ _ es ns p (ex_tree _ _ x H) Hd) as (tree & Et & Ht); [by apply not_elem_of_dom|done|].
  destruct (branched_ok checked Inv x es s f t tree ns H Hs Hns Eb Ht) as [Hok Hc].
  exists ns, f, t, tree, (set_states (states x) (addedStates x ++ [ns]) (removedStates x)
    (set_openStates (add_open (openMergeStack f) ns (openStates x)) (set_pool (<[ns := f]> (<[es := t]> (pool x))) x))). split; [done|]. split; [done|]. split; [|split; [|by split]].
  - unfold branch_state, sbind, state_at, get. rewrite Hs. cbn [res_bind fst snd]. rewrite Eb. reflexivity.
  - unfold attach_node. cbn [processTree set_states set_openStates set_pool]. rewrite Ep, Et. reflexivity.
Qed.

Lemma branch_fields s f t : branch s = (f, t) ->
  constraints f = constraints s /\ constraints t = constraints s /\ pathOS t = pathOS s /\ symPathOS t = symPathOS s /\
  depth f = wrap 32 (depth s + 1) /\ depth t = wrap 32 (depth s + 1).
Proof. unfold branch, ExecutionState_copy. cbn. by intros [= <- <-]. Qed.

Lemma constrained_fields s s' : constrained s s' -> pathOS s' = pathOS s /\ symPathOS s' = symPathOS s /\ depth s' = depth s.
Proof. by intros (cs & u & ->). Qed.

(** The outcomes of [fork]. *)
Inductive forked (x x' : Executor) (current : positive) (s : ExecutionState) (e : expr) (isInternal : bool) :
    option positive * option positive -> Prop :=
| forked_both ns t f :
    (* a new state for the false branch *)
    pool x !! ns = None -> ns ∈ addedStates x' -> running x' ns -> running x' current ->
    (forall es, running x' es -> running x es \/ es = ns) ->
    pool x' !! current = Some t -> pool x' !! ns = Some f ->
    takes (constraints s) e 1 (constraints t) -> takes (constraints s) e 0 (constraints f) ->
    (* but for the constraints and the streams, the states that ExecutionState::branch gives *)
    constrained (snd (branch s)) t -> (exists p sp, constrained (set_paths p sp (fst (branch s))) f) ->
    depth t = wrap 32 (depth s + 1) -> depth f = wrap 32 (depth s + 1) ->
    stream_text (pathWriter x') (pathOS t) = (fun bs => bs ++ branch_text isInternal true) <$> stream_text (pathWriter x) (pathOS s) ->
    stream_text (pathWriter x') (pathOS f) = (fun bs => bs ++ branch_text isInternal false) <$> stream_text (pathWriter x) (pathOS s) ->
    stream_text (symPathWriter x') (symPathOS t) = (fun bs => bs ++ branch_text isInternal true) <$> stream_text (symPathWriter x) (symPathOS s) ->
    stream_text (symPathWriter x') (symPathOS f) = (fun bs => bs ++ branch_text isInternal false) <$> stream_text (symPathWriter x) (symPathOS s) ->
    forked x x' current s e isInternal (Some current, Some ns)
| forked_one (b : bool) t :
    (* one branch: the only one, unless forking was not allowed *)
    running x' current -> (forall es, running x' es -> running x es) ->
    pool x' !! current = Some t -> constrained s t ->
    takes (constraints s) e (Z.b2z b) (constraints t) ->
    (fork_forbidden o s x = false -> forced checked (MkQuery (constraints s) e) (Z.b2z b) /\ constraints t = constraints s) ->
    stream_text (pathWriter x') (pathOS t) = (fun bs => bs ++ branch_text isInternal b) <$> stream_text (pathWriter x) (pathOS s) ->
    forked x x' current s e isInternal (if b then (Some current, None) else (None, Some current))
| forked_none :
    (* the state ended, and no other runs in its place *)
    ended x' current -> (forall es, running x' es -> running x es) ->
    (exists s', ts_evaluate (simplifyExpr false hash) solver simplifyExprs (constraints s) e (solver_state x) = Ok (None, s')) \/
    (MaxDepth o <> 0 /\ MaxDepth o <= wrap 32 (depth s + 1)) ->
    forked x x' current s e isInternal (None, None).

Lemma branched_lookups (x : Executor) es ns f t tree : es <> ns ->
  pool (branched x es ns f t tree) !! es = Some t /\ pool (branched x es ns f t tree) !! ns = Some f.
Proof. intros Hne. cbn. rewrite lookup_insert_ne by done. by rewrite !lookup_insert_eq. Qed.

Lemma add_forks_ok (x : Executor) n : exec_ok x -> exec_ok (add_forks n x) /\ forall es, changes es x (add_forks n x).
Proof. intros []. split; by split. Qed.

Lemma ended_not_running (x : Executor) es : ended x es -> ~ running x es.
Proof. intros [H|H] [[u Hu] Hr]; [congruence|done]. Qed.

Lemma not_running_ended (x : Executor) es : ~ running x es -> ended x es.
Proof.
  intros H. unfold ended. destruct (pool x !! es) as [u|] eqn:E; [|by left]. right.
  destruct (decide (es ∈ removedStates x)) as [|Hn]; [done|]. exfalso. apply H. split; [by eexists|done].
Qed.

Lemma fork_both_ok x current s e isInternal :
  exec_ok x -> pool x !! current = Some s -> current ∉ removedStates x -> seedMap x !! current = None ->
  (forall es, pool x !! es = None -> seedMap x !! es = None) ->
  bool_query checked (MkQuery (constraints s) e) ->
  feasible checked (MkQuery (constraints s) e) 0 -> feasible checked (MkQuery (constraints s) e) 1 -> writers_room 1 x ->
  exists r x', fork_both false hash rewrite simplifyExprs o solver current e isInternal None x = Ok (r, x') /\
    exec_ok x' /\ changes current x x' /\ one_more x x' /\ forall sv, forked (set_solver sv x) x' current s e isInternal r.
Proof.
  intros H0 Hs0 Hrun0 Hseed0 Hseeds0 Hq Hf0 Hf1 Hroom0. unfold fork_both.
  unfold sbind at 1. unfold modify at 1. cbn [res_bind fst snd].
  destruct (add_forks_ok x 1 H0) as [H Hc0]. specialize (Hc0 current).
  set (x0 := add_forks 1 x) in *.
  assert (pool x0 !! current = Some s) as Hs by exact Hs0.
  destruct (branch_attach_ok x0 current s H Hs) as (ns & f & t & tree & y & Hns & Eb & E1 & E2 & H1 & Hc1).
  destruct (branch_fields s f t Eb) as (Ecf & Ect & Ept & Est & Edf & Edt).
  assert (current <> ns) as Hne by (intros <-; congruence).
  unfold sbind at 1. rewrite E1. cbn [res_bind fst snd].
  unfold sbind at 1. cbn [sret res_bind fst snd].
  unfold sbind at 1. rewrite E2. cbn [res_bind fst snd].
  destruct (branched_lookups x0 current ns f t tree Hne) as [Lt Lf].
  set (x1 := branched x0 current ns f t tree) in *.
  destruct (fork_streams_ok x1 current ns t f isInternal H1 Lt Lf Hne Hroom0) as (p & sp & w & sw & E3 & H2 & Hc2 & Hom & T1 & T2 & T3 & T4).
  unfold sbind at 1. rewrite E3. cbn [res_bind fst snd].
  set (x2 := set_pool (<[ns := set_paths p sp f]> (pool x1)) (set_writers w sw x1)) in *.
  assert (pool x2 !! current = Some t) as Lt2 by (cbn; rewrite lookup_insert_ne by done; exact Lt).
  destruct (addConstraint_exec x2 current t e H2 Lt2) as (t' & E4 & Ht' & Tt); [exact Hseed0|by rewrite Ect|by rewrite Ect|].
  rewrite Ect in Tt. unfold sbind at 1. rewrite E4. cbn [res_bind fst snd].
  destruct (put_ok checked Inv x2 current t t' H2 Lt2 (constrained_links t t' Ht') (tk_ok _ _ _ _ Tt)) as [H3 Hc3].
  set (x3 := set_pool (<[current := t']> (pool x2)) x2) in *.
  assert (pool x3 !! ns = Some (set_paths p sp f)) as Lf3.
  { cbn. rewrite lookup_insert_ne by done. by rewrite lookup_insert_eq. }
  destruct (addNegation_exec x3 ns (set_paths p sp f) e H3 Lf3) as (f' & E5 & Hf' & Tf); [by apply Hseeds0|by rewrite <- Ecf in Hq|by rewrite <- Ecf in Hf0|].
  cbn [constraints set_paths] in Tf. rewrite Ecf in Tf. unfold sbind at 1. rewrite E5. cbn [res_bind fst snd].
  destruct (put_ok checked Inv x3 ns (set_paths p sp f) f' H3 Lf3 (constrained_links _ f' Hf') (tk_ok _ _ _ _ Tf)) as [H4 Hc4].
  set (x4 := set_pool (<[ns := f']> (pool x3)) x3) in *.
  assert (pool x4 !! current = Some t') as Lt4 by (cbn; rewrite lookup_insert_ne by done; apply lookup_insert_eq).
  assert (pool x4 !! ns = Some f') as Lf4 by (cbn; apply lookup_insert_eq).
  assert (changes current x x4) as Hc.
  { etrans; [exact Hc0|]. apply (changes_new current ns x0 x3 x4 Hns); [|exact Hc4].
    etrans; [|exact Hc3]. by apply (changes_new current ns x0 x1 x2 Hns). }
  destruct (constrained_fields t t' Ht') as (Ep1 & Es1 & Ed1). destruct (constrained_fields _ f' Hf') as (Ep2 & Es2 & Ed2).
  assert (running x4 current) as Hrc by (split; [by eexists|exact Hrun0]).
  assert (running x4 ns) as Hrn.
  { split; [by eexists|]. intros Hin. apply (ex_removed _ _ x0 H) in Hin.
    assert (is_Some (pool x0 !! ns)) as [? ?] by (apply (exec_ok_dom checked Inv x0 ns H); by left). congruence. }
  unfold sbind at 1. unfold state_at at 1. rewrite Lt4. cbn [res_bind fst snd].
  destruct (negb (MaxDepth o =? 0) && (MaxDepth o <=? depth t')) eqn:Ed.
  - destruct (terminateStateEarly_ok checked Inv o x4 current H4 Hrc) as (x5 & E6 & H5 & Hc5 & He5 & Hw5 & Hb5).
    unfold sbind at 1. rewrite E6. cbn [res_bind fst snd].
    assert (running x5 ns) as Hrn5 by (by apply (ch_running _ _ _ _ Hc5)).
    destruct (terminateStateEarly_ok checked Inv o x5 ns H5 Hrn5) as (x6 & E7 & H6 & Hc6 & He6 & Hw6 & Hb6).
    unfold sbind at 1. rewrite E7. cbn [res_bind fst snd]. eexists _, x6. split; [reflexivity|]. split; [done|].
    split; [apply (changes_new current ns x x5 x6 Hns); [by etrans|done]|].
    split; [intros n Hn; specialize (Hom n Hn); destruct Hw5 as [W1 W2], Hw6 as [W3 W4]; unfold writers_room; rewrite W3, W4, W1, W2; exact Hom|].
    intros sv. apply forked_none.
    + apply not_running_ended. intros Hr6%Hb6. by apply (ended_not_running x5 current).
    + intros es' Hr6. assert (es' <> ns) as Hn' by (intros ->; by apply (ended_not_running x6 ns)).
      apply Hb6, Hb5 in Hr6 as [[u Hu] Hr6]. split; [|exact Hr6]. destruct (decide (es' = current)) as [->|]; [by eexists|].
      cbn in Hu. rewrite !lookup_insert_ne in Hu by done. by exists u.
    + right. apply andb_prop in Ed as [Ed1' Ed2']. tidy_bools. rewrite Ed1, Edt in Ed2'. done.
  - eexists _, x4. split; [reflexivity|]. split; [done|]. split; [done|]. split; [exact Hom|].
    intros sv. apply (forked_both (set_solver sv x) x4 current s e isInternal ns t' f'); try done.
    + cbn. apply elem_of_app. right. by left.
    + intros es' [[u Hu] Hr6]. destruct (decide (es' = ns)) as [->|Hn']; [by right|left]. split; [|exact Hr6].
      destruct (decide (es' = current)) as [->|]; [by eexists|]. cbn in Hu. rewrite !lookup_insert_ne in Hu by done. by exists u.
    + by rewrite Eb.
    + exists p, sp. by rewrite Eb.
    + by rewrite Ed1.
    + by rewrite Ed2.
    + rewrite Ep1. cbn [pathWriter x4 x3 x2 set_pool set_writers]. rewrite T1, Ept. done.
    + rewrite Ep2. cbn. rewrite T2, Ept. done.
    + rewrite Es1. cbn. rewrite T3, Est. done.
    + rewrite Es2. cbn. rewrite T4, Est. done.
Qed.

(** *** One branch *)

Lemma record_branch_ok x es s b : exec_ok x -> pool x !! es = Some s ->
  exists x', record_branch es b x = Ok (tt, x') /\ exec_ok x' /\ changes es x x' /\
    pool x' = pool x /\ removedStates x' = removedStates x /\ one_more x x' /\
    stream_text (pathWriter x') (pathOS s) = (fun bs => bs ++ branch_text false b) <$> stream_text (pathWriter x) (pathOS s).
Proof.
  intros H Hs. unfold record_branch. pose proof H as [H1 H2 H3 H4 H5 H6 [H7 H7'] H8 H9].
  destruct (pathWriter x) as [w|] eqn:Ew; [|by exists x; rewrite Ew; split_and!; try done; apply (one_more_same x x x)].
  destruct (H7 w eq_refl) as [[m Hm] Hst]. destruct (Hst es s Hs) as (i & Ei & Hi).
  unfold state_at. rewrite Hs. cbn [res_bind fst snd]. rewrite Ei.
  destruct (write_path_ok w m i b Hm Hi) as (w' & -> & [Et En] & Hm'). cbn [res_bind].
  eexists. split; [reflexivity|]. split_and!.
  - split; try done. cbn [pathWriter symPathWriter set_writers pool]. split; [|exact H7'].
    intros w0 [= <-]. split; [by eexists|]. intros e u Hu. destruct (Hst e u Hu) as (j & Ej & Hj).
    exists j. rewrite Et, En. done.
  - by split.
  - done.
  - done.
  - intros n [Hn1 Hn2]. split; cbn; intros w0; [intros [= <-]; specialize (Hn1 w Ew); lia|intros Hw0; specialize (Hn2 w0 Hw0); lia].
  - cbn [pathWriter set_writers]. rewrite (stream_text_holds w m i Hm Hi). rewrite <- Et.
    rewrite (stream_text_holds w' _ i Hm') by (by rewrite En). rewrite lookup_insert_eq.
    by destruct (proj2 (holds_dom w m Hm i) Hi) as [bs ->].
Qed.

Lemma flip_ok x : exec_ok x -> exists b x', flip x = Ok (b, x') /\ exec_ok x' /\ (forall es, changes es x x') /\
  pool x' = pool x /\ removedStates x' = removedStates x /\ same_writers x x' /\ seedMap x' = seedMap x.
Proof.
  intros H. unfold flip, getBool. destruct (getInt32_ok (theRNG x) (ex_rng _ _ x H)) as (y & r & -> & _ & Hr).
  cbn [res_bind fst snd]. eexists _, _. split; [reflexivity|]. split_and!; [destruct H; by split|intros es; by split|done..].
Qed.

Lemma run_solver_ok {T} (m : state S T) x Q : exec_ok x -> sholds Inv m Q ->
  exists r s', m (solver_state x) = Ok (r, s') /\ run_solver m x = Ok (r, set_solver s' x) /\
    exec_ok (set_solver s' x) /\ (forall es, changes es x (set_solver s' x)) /\ Q r.
Proof.
  intros H Hm. destruct (Hm (solver_state x) (ex_solver _ _ x H)) as (r & s' & E & Hs' & HQ). exists r, s'.
  split_and!; [done|unfold run_solver; by rewrite E|destruct H; by split|intros es; by split|done].
Qed.

(** The state takes a branch that its constraints allow. *)
Lemma take_branch x es s e (b : bool) :
  exec_ok x -> pool x !! es = Some s -> seedMap x !! es = None ->
  bool_query checked (MkQuery (constraints s) e) -> feasible checked (MkQuery (constraints s) e) (Z.b2z b) ->
  exists s', (if b then addConstraint es e else addNegation es e) x = Ok (tt, set_pool (<[es := s']> (pool x)) x) /\
    constrained s s' /\ takes (constraints s) e (Z.b2z b) (constraints s') /\
    exec_ok (set_pool (<[es := s']> (pool x)) x) /\ changes es x (set_pool (<[es := s']> (pool x)) x).
Proof.
  intros H Hs Hseed Hq Hf.
  assert (exists s', (if b then addConstraint es e else addNegation es e) x = Ok (tt, set_pool (<[es := s']> (pool x)) x) /\
    constrained s s' /\ takes (constraints s) e (Z.b2z b) (constraints s')) as (s' & E & Hc & Ht).
  { destruct b; [by apply addConstraint_exec|by apply addNegation_exec]. }
  exists s'. split; [done|]. split; [done|]. split; [done|].
  apply (put_ok checked Inv x es s s'); [done|done|by apply constrained_links|apply Ht].
Qed.

(** The end of [fork] with one branch. *)
Definition finish_one (current : positive) (isInternal b : bool) : exec (S:=S) (option positive * option positive) :=
  do* _ := (if isInternal then sret tt else record_branch current b) in
  sret (if b then (Some current, None) else (None, Some current)).

Lemma finish_one_ok x0 x current s s' e isInternal b :
  exec_ok x -> changes current x0 x -> pool x !! current = Some s' -> current ∉ removedStates x -> constrained s s' ->
  same_writers x0 x -> (forall es, running x es -> running x0 es) -> takes (constraints s) e (Z.b2z b) (constraints s') ->
  (fork_forbidden o s x0 = false -> forced checked (MkQuery (constraints s) e) (Z.b2z b) /\ constraints s' = constraints s) ->
  exists r x', finish_one current isInternal b x = Ok (r, x') /\ exec_ok x' /\ changes current x0 x' /\ one_more x0 x' /\
    forked x0 x' current s e isInternal r.
Proof.
  intros H Hc Hs Hr Hcon [Hw Hw'] Hback Ht Hfb. destruct (constrained_fields s s' Hcon) as (Ep & _ & _). unfold finish_one, sbind.
  destruct isInternal.
  - cbn [sret res_bind fst snd]. eexists _, x. split; [reflexivity|]. split; [done|]. split; [done|].
    split; [by apply (one_more_same x0 x x)|].
    apply (forked_one x0 x current s e true b s'); [by split; [eexists|]|done|done|done|done|done|].
    rewrite Hw, Ep. cbn [branch_text]. destruct (stream_text _ _); cbn; [by rewrite app_nil_r|done].
  - destruct (record_branch_ok x current s' b H Hs) as (x' & -> & H' & Hc' & Epool & Erem & Hom & Et). cbn [res_bind fst snd sret].
    eexists _, x'. split; [reflexivity|]. split; [done|]. split; [by etrans|].
    split; [intros n Hn; apply Hom; unfold writers_room in *; by rewrite Hw, Hw'|].
    apply (forked_one x0 x' current s e false b s'); try done.
    + split; [rewrite Epool; by eexists|by rewrite Erem].
    + intros es' Hes'. apply Hback. destruct Hes' as [E1 E2]. rewrite Epool in E1. by rewrite Erem in E2.
    + by rewrite Epool.
    + by rewrite Et, Hw, Ep.
Qed.

Lemma fork_executes (HS : SolverContract checked solver Inv) (x : Executor) (current : positive) (s : ExecutionState)
    (e : expr) (isInternal : bool)
    (H : exec_ok x) (Hs : pool x !! current = Some s) (Hr : current ∉ removedStates x)
    (Hseed : seedMap x = ∅) (Hreplay : replayPath o = None /\ replayKTest o = None)
    (Hlimits : limits_apply o (statistics x) = false) (Hroom : writers_room 1 x)
    (Hq : bool_query checked (MkQuery (constraints s) e)) :
  exists r x', fork current e isInternal x = Ok (r, x') /\ exec_ok x' /\ changes current x x' /\ one_more x x' /\
    forked x x' current s e isInternal r.
Proof.
  destruct Hreplay as [Hp1 Hp2].
  assert (forall es, seedMap x !! es = None) as Hno by (intros es; rewrite Hseed; apply lookup_empty).
  unfold Executor.fork. unfold sbind at 1. unfold get at 1. cbn [res_bind fst snd]. rewrite Hno.
  assert (limit_condition false hash rewrite simplifyExprs o solver current e x = Ok (e, x)) as El.
  { unfold limit_condition, sbind, get. cbn [res_bind fst snd]. rewrite Hlimits, andb_false_r. reflexivity. }
  unfold sbind at 1. rewrite El. cbn [res_bind fst snd]. clear El.
  unfold sbind at 1. unfold ask, sbind at 1. unfold state_at at 1. rewrite Hs. cbn [res_bind fst snd].
  destruct (run_solver_ok (ts_evaluate (simplifyExpr false hash) solver simplifyExprs (constraints s) e) x
    (fun r => forall v, r = Some v -> validity_spec checked (MkQuery (constraints s) e) v) H) as (r & s1 & Es & -> & H1 & Hc1 & Hval).
  { apply (ts_evaluate_ok false checked _ (simplifyExpr_simplifier checked hash) solver Inv); exact Hq. }
  cbn [res_bind fst snd]. set (x1 := set_solver s1 x) in *.
  assert (pool x1 !! current = Some s) as Hs1 by exact Hs.
  destruct r as [res|].
  2:{ (* the solver failed *)
    unfold sbind at 1. unfold state_at at 1. rewrite Hs1. cbn [res_bind fst snd].
    unfold sbind at 1, put_state at 1, modify at 1. cbn [res_bind fst snd].
    destruct (put_ok checked Inv x1 current s (set_pc (prevPC s) s) H1 Hs1) as [H2 Hc2]; [by split|exact (ex_states _ _ x H current s Hs)|].
    set (x2 := set_pool (<[current := set_pc (prevPC s) s]> (pool x1)) x1) in *.
    assert (running x2 current) as Hr2 by (split; [cbn; rewrite lookup_insert_eq; by eexists|exact Hr]).
    destruct (terminateStateEarly_ok checked Inv o x2 current H2 Hr2) as (x3 & E3 & H3 & Hc3 & He3 & Hw3 & Hb3).
    unfold sbind at 1. rewrite E3. cbn [res_bind fst snd]. eexists _, x3. split; [reflexivity|]. split; [done|].
    split; [etrans; [apply Hc1|]; by etrans|]. split; [by apply (one_more_same x x3 x3); [exact Hw3|]|]. apply forked_none; [done| |left; by exists s1].
    intros es Hes%Hb3. destruct Hes as [[u Hu] Hre]. split; [|exact Hre]. destruct (decide (es = current)) as [->|]; [by eexists|].
    cbn in Hu. rewrite lookup_insert_ne in Hu by done. by exists u. }
  specialize (Hval res eq_refl).
  assert (choose_branch false hash rewrite simplifyExprs o solver current e isInternal res x1 =
    (match res with ValidityUnknown => random_branch false hash rewrite simplifyExprs o solver current e | _ => sret res end) x1) as Ech.
  { unfold choose_branch. by rewrite Hp1. }
  unfold sbind at 1. rewrite Ech. clear Ech.
  assert (forall b, forced checked (MkQuery (constraints s) e) (Z.b2z b) ->
    exists r x', finish_one current isInternal b x1 = Ok (r, x') /\ exec_ok x' /\ changes current x x' /\ one_more x x' /\ forked x x' current s e isInternal r) as Hone.
  { intros b Hb. apply (finish_one_ok x x1 current s s); try done; [exists (constraints s), (updated s); by destruct s|].
    apply takes_forced; [apply Hq|done]. }
  destruct res; cbn [validity_spec] in Hval; [exact (Hone true Hval)|exact (Hone false Hval)|].
  destruct Hval as [Hf0 Hf1]. unfold random_branch. unfold sbind at 1, slift at 1. rewrite Hp2. cbn [bool_decide].
  rewrite (bool_decide_false (is_Some (None : option KTest.KTest))) by (by intros [? [=]]). cbn [negb res_assert res_bind fst snd].
  unfold sbind at 1. unfold state_at at 1. rewrite Hs1. cbn [res_bind fst snd].
  unfold sbind at 1, get at 1. cbn [res_bind fst snd].
  destruct (fork_forbidden o s x1) eqn:Efb.
  - (* not allowed: one branch, at random *)
    destruct (flip_ok x1 H1) as (b & x2 & E2 & H2 & Hc2 & Ep2 & Er2 & Hw2 & Ese2).
    unfold sbind at 1. rewrite E2. cbn [res_bind fst snd].
    assert (pool x2 !! current = Some s) as Hs2 by (by rewrite Ep2).
    destruct (take_branch x2 current s e b H2 Hs2) as (s' & E3 & Hcon & Ht & H3 & Hc3); [by rewrite Ese2|done|by destruct b|].
    assert (exists r x', finish_one current isInternal b (set_pool (<[current := s']> (pool x2)) x2) = Ok (r, x') /\ exec_ok x' /\ changes current x x' /\ one_more x x' /\ forked x x' current s e isInternal r) as Hfin.
    { apply (finish_one_ok x _ current s s'); try done.
      - etrans; [apply Hc1|]. etrans; [apply Hc2|]. done.
      - cbn. apply lookup_insert_eq.
      - cbn. by rewrite Er2.
      - intros es [[u Hu] Hre]. cbn in Hu, Hre. rewrite Er2 in Hre. split; [|done]. rewrite Ep2 in Hu.
        destruct (decide (es = current)) as [->|]; [by eexists|]. rewrite lookup_insert_ne in Hu by done. by exists u.
      - change (fork_forbidden o s x1) with (fork_forbidden o s x) in Efb. congruence. }
    destruct b; unfold sbind at 1; rewrite E3; cbn [res_bind fst snd sret]; exact Hfin.
  - (* both *)
    cbn [sret res_bind fst snd].
    destruct (fork_both_ok x1 current s e isInternal H1 Hs1 Hr (Hno current) (fun es _ => Hno es) Hq Hf0 Hf1 Hroom)
      as (r & x' & E & H' & Hc' & Hom & Hfk). exists r, x'. split; [exact E|]. split; [done|]. split; [etrans; [apply Hc1|done]|]. split; [exact Hom|].
    replace x with (set_solver (solver_state x) x1) by (by destruct x). apply Hfk.
Qed.

(** C1. [fork] on a running state of an executor that keeps the invariant,
    when nothing is seeded ([seedMap] is empty), no path or test case is
    replayed, the static limits are not in effect ([limits_apply]: their
    options are one or ten minutes have not passed) and the path streams have
    room for one more.  Over any solver that keeps its contract, [fork]
    returns, fails no assertion and keeps the invariant.  If it returns two
    states, the current one takes the solutions of its constraints in which the
    condition is true, a new one those in which it is false, and both have
    some; the fields of both are those [ExecutionState::branch] gives.  If it
    returns one, that state takes the solutions of that branch and there are
    some; when forking is not forbidden ([fork_forbidden]: the forks limit, the
    memory limit, a state that may not fork) the branch is forced and
    nothing is lost, and when it is forbidden the other branch may be
    possible, and its solutions are dropped.  If it returns none, the state has ended,
    because the solver did not answer or the depth limit is reached.  The path
    streams record the branch.  No other state changes. *)
Theorem fork_splits_solutions (HS : SolverContract checked solver Inv) (x : Executor) (current : positive) (s : ExecutionState)
    (e : expr) (isInternal : bool)
    (H : exec_ok x) (Hs : pool x !! current = Some s) (Hr : current ∉ removedStates x)
    (Hseed : seedMap x = ∅) (Hreplay : replayPath o = None /\ replayKTest o = None)
    (Hlimits : limits_apply o (statistics x) = false) (Hroom : writers_room 1 x)
    (Hq : bool_query checked (MkQuery (constraints s) e)) :
  exists r x', fork current e isInternal x = Ok (r, x') /\ exec_ok x' /\ changes current x x' /\
    forked x x' current s e isInternal r.
Proof.
  destruct (fork_executes HS x current s e isInternal H Hs Hr Hseed Hreplay Hlimits Hroom Hq) as (r & x' & E & H' & Hc & _ & Hf).
  by exists r, x'.
Qed.

End fork.

(** ** A fork *)
Module ForkExamples.
Import ExprSem.Examples SolverExamples.
#[export] Existing Instance ExprSem.Examples.arrays.
#[export] Instance fork_scope {AR : @Arrays bv_apint} : Scope false false := solid_scope false false.
#[export] Instance fork_rewrite {AR : @Arrays bv_apint} : RewriteScope false false := solid_rewrite_scope false false.
#[export] Instance one_function : Functions := fun _ => {| numRegisters := 2; instructions := 10 |}.

Definition default_options : Options :=
  MkOptions None 0 true false false false (Double.of_Z 1) (Double.of_Z 1) (Double.of_Z 1) (Double.of_Z 1) None None false [] false 0.

Definition no_statistics : Statistics := MkStatistics 0 0 0 0 0 (fun _ => (0, 0)).

(* a writer with one open stream, and the state that writes to it *)
Definition one_stream : TreeStreamWriter :=
  Eval vm_compute in match open (TreeStreamWriter_new 1 true) with Ok (_, w) => w | _ => TreeStreamWriter_new 1 false end.

Definition one_state : ExecutionState :=
  set_paths (MkOStream (Some 1%positive) 1) TreeOStream_new (set_constraints [five] true (ExecutionState_new 1)).

Definition start_executor (s : ExecutionState) : Executor (S:=unit) :=
  MkExecutor {[1%positive]} {[1%positive := s]} [] [] ∅ ∅ (new 1) 0 false false (Some one_stream) None sample_rng
    no_statistics [] 0 ∅ false tt.

Definition one_executor : Executor (S:=unit) := start_executor one_state.

Definition fork_guesses : SolverImpl unit := GuessSolver false false [fives; five_one].

Lemma one_stream_holds : holds one_stream {[1 := []]}.
Proof.
  destruct (open_ok (TreeStreamWriter_new 1 true) ∅ 0 (holds_new 1)) as (w & E & _ & _ & H); [cbn; lia|cbn; lia|].
  assert (w = one_stream) as ->; [|exact H]. vm_compute in E. by injection E as <-.
Qed.

Lemma start_executor_from {AR : @Arrays bv_apint} s0 :
  state_ok false s0 -> same_links one_state s0 -> exec_ok false (fun _ => True) (start_executor s0).
Proof.
  intros H0 [Lm Lp Ls].
  assert (forall es s, pool (start_executor s0) !! es = Some s -> es = 1%positive /\ s = s0) as Hl.
  { intros es s H. apply (lookup_singleton_Some (M:=gmap positive) 1%positive es s0 s) in H as [<- <-]. done. }
  split.
  - by intros es s [-> ->]%Hl.
  - cbn. rewrite dom_singleton_L. set_solver.
  - split; [constructor|]. by intros es ?%elem_of_nil.
  - split; [constructor|]. by intros es ?%elem_of_nil.
  - cbn. rewrite dom_singleton_L. apply represents_new.
  - intros es s [-> ->]%Hl. rewrite Lm. split; [constructor|]. by intros h ?%elem_of_nil.
  - split; [|done]. intros w [= <-]. split; [by eexists; apply one_stream_holds|].
    intros es s [-> ->]%Hl. rewrite Lp. exists 1. split; [done|cbn; lia].
  - exact sample_valid.
  - exact I.
Qed.

Lemma start_executor_ok s0 : constraints s0 = [five] -> same_links one_state s0 -> exec_ok false (fun _ => True) (start_executor s0).
Proof.
  intros E0 Hl. apply start_executor_from; [|done]. unfold state_ok, constraints_ok. rewrite E0. split; [|exists fives; by constructor].
  split_and!; cbn [Solver.constraints query_expr].
  - constructor; [|constructor]. split; [exact five_wt|done].
  - by apply wt_const_alloc.
  - intros ρ _. rewrite denote_const_alloc by done. by eexists.
  - constructor; [|constructor]. done.
  - done.
Qed.

Lemma one_executor_ok : exec_ok false (fun _ => True) one_executor.
Proof. by apply start_executor_ok. Qed.

Lemma small_query : bool_query false (MkQuery (constraints one_state) small).
Proof. apply five_query; [done|done|exact small_wt|done|intros ρ; by eexists]. Qed.

Lemma fork_splits_solutions_witness :
  exists r x', fork false true true true default_options fork_guesses 1 small false one_executor = Ok (r, x') /\
    r = (Some 1, Some 2)%positive /\ exec_ok false (fun _ => True) x' /\
    forked false true true default_options fork_guesses one_executor x' 1 one_state small false r.
Proof.
  destruct (fork_splits_solutions false true true true default_options fork_guesses (fun _ => True) ltac:(by apply GuessSolver_contract)
    one_executor 1 one_state small false) as (r & x' & E & H & _ & Hf).
  - exact one_executor_ok.
  - reflexivity.
  - by intros ?%elem_of_nil.
  - reflexivity.
  - by split.
  - reflexivity.
  - split; [by intros w [= <-]|done].
  - exact small_query.
  - exists r, x'. split; [exact E|]. split; [|split; [exact H|exact Hf]].
    assert ((let* p := fork false true true true default_options fork_guesses 1 small false one_executor in Ok (fst p)) =
      Ok (Some 1, Some 2)%positive) as E1 by (vm_compute; reflexivity).
    rewrite E in E1. cbn [res_bind fst] in E1. by injection E1 as ->.
Defined.
End ForkExamples.
