(* ===== verification/ExecutorValues.v ===== *)
(** Values the executor asks for: [toUnique], [toConstant] and
    [getSymbolicSolution] of klee/lib/Core/Executor.cpp.

    [getSymbolicSolution] gives the bytes of a test case.  It works on a copy of
    the state, a local variable, which gets an address like the states that are
    allocated and is deleted when the function returns.  The name and the
    preferences of a memory object, which [MemoryObject] leaves out, are
    functions of it. *)
From Stdlib Require Import ZArith Lia Bool String.
From stdpp Require Import base list numbers option gmap sets.
From S2P Require Import Prelude APInt Expr ExprCreate ExprSem ExprCreateCorrect Solver Constraints TimingSolver ImmutableTree MemoryObject AddressSpace ExecutionState SeedInfo Executor ExecutorInv ExecutorFork.
Open Scope Z_scope.

Section values.
Context {A : APInt} {AR : Arrays} {F : Functions}.
Context (ConstArrayOpt UseVisitorHash RewriteEqualities simplifyExprs : bool).
Context {S : Type} (solver : SolverImpl S).
Context (name : MemoryObject -> list Z) (cexPreferences : MemoryObject -> list expr).

Notation simplify := (simplifyExpr ConstArrayOpt UseVisitorHash).
Notation exec := (exec (S:=S)).

(** The only value of the expression, if it has one and the solver says so. *)
Definition toUnique (es : positive) (e : expr) : exec expr :=
  match e with
  | Constant _ => sret e
  | _ =>
      do* value := ask es (fun cs => ts_getValue simplify solver simplifyExprs cs e) in
      match value with
      | None => sret e
      | Some value =>
          do* cond := slift (BinaryExpr_create ConstArrayOpt Eq e (Constant value)) in
          do* isTrue := ask es (fun cs => ts_mustBeTrue simplify solver simplifyExprs cs cond) in
          sret (match isTrue with Some true => Constant value | _ => e end)
      end
  end.

Definition toConstant (es : positive) (e : expr) : exec ap :=
  do* s := state_at es in
  do* e := slift (simplify (constraints s) e) in
  match e with
  | Constant CE => sret CE
  | _ =>
      do* value := ask es (fun cs => must_succeed (ts_getValue simplify solver simplifyExprs cs e)) in
      do* eq := slift (BinaryExpr_create ConstArrayOpt Eq e (Constant value)) in
      do* _ := addConstraint ConstArrayOpt UseVisitorHash RewriteEqualities simplifyExprs solver es eq in
      sret value
  end.

(** *** Test cases *)

(* ExecutionState tmp(state) *)
Definition copy_state (es : positive) : exec positive :=
  do* s := state_at es in
  do* p := get pool in
  let tmp := fresh (dom p : gset positive) in
  let '(c, s) := ExecutionState_copy s in
  do* _ := put_state es s in
  do* _ := put_state tmp c in
  do* _ := modify (fun x => set_openStates (add_open (openMergeStack c) tmp (openStates x)) x) in
  sret tmp.

(* tmp.addConstraint( *pi ) *)
Definition prefer (tmp : positive) (p : expr) : exec unit :=
  do* s := state_at tmp in
  do* s := slift (state_addConstraint ConstArrayOpt UseVisitorHash RewriteEqualities p s) in
  put_state tmp s.

(* the loop over the preferences of an object; false when it is left early *)
Fixpoint prefer_all (tmp : positive) (ps : list expr) : exec bool :=
  match ps with
  | [] => sret true
  | p :: ps' =>
      do* n := slift (createIsZero ConstArrayOpt p) in
      do* success := ask tmp (fun cs => ts_mustBeTrue simplify solver simplifyExprs cs n) in
      match success with
      | None => sret false
      | Some mustBeTrue =>
          do* _ := (if mustBeTrue : bool then sret tt else prefer tmp p) in
          prefer_all tmp ps'
      end
  end.

Fixpoint prefer_objects (tmp : positive) (mos : list MemoryObject) : exec unit :=
  match mos with
  | [] => sret tt
  | mo :: mos' =>
      do* done := prefer_all tmp (cexPreferences mo) in
      if done : bool then prefer_objects tmp mos' else sret tt
  end.

(* res.push_back(std::make_pair(name, values[i])) *)
Fixpoint named_values (mos : list MemoryObject) (values : list (list Z)) : res (list (list Z * list Z)) :=
  match mos, values with
  | [], _ => Ok []
  | mo :: mos', vs :: values' => let* l := named_values mos' values' in Ok ((name mo, vs) :: l)
  | _, [] => AssertFail
  end.

(** The objects of a test case, or None when the solver failed. *)
Definition getSymbolicSolution (es : positive) : exec (option (list (list Z * list Z))) :=
  do* s := state_at es in
  do* tmp := copy_state es in
  do* _ := prefer_objects tmp (symbolics s).*1 in
  do* values := ask tmp (fun cs => ts_getInitialValues solver cs (symbolics s).*2) in
  do* _ := delete_state tmp in
  match values with
  | None => sret None
  | Some values => do* l := slift (named_values (symbolics s).*1 values) in sret (Some l)
  end.

End values.

(** ** Correctness *)
Section correct.
Context {A : APInt} {L : APIntLaws A} {AR : Arrays} {F : Functions}.
Context (checked hash rewrite simplifyExprs : bool) {SC : Scope false checked} {RS : RewriteScope false checked}.
Context {S : Type} (solver : SolverImpl S) (Inv : S -> Prop) {HS : SolverContract checked solver Inv}.
Context (name : MemoryObject -> list Z) (cexPreferences : MemoryObject -> list expr).

Notation Executor := (Executor (S:=S)).
Notation exec := (exec (S:=S)).
Notation exec_ok := (exec_ok checked Inv).
Notation changes := (changes Inv).
Notation cs_ok := (constraints_ok checked).
Notation takes := (takes checked).

(** A question of the solver about a state. *)
Lemma ask_ok {T} (m : list expr -> state S T) x es s Q :
  exec_ok x -> pool x !! es = Some s -> sholds Inv (m (constraints s)) Q ->
  exists r s', ask es m x = Ok (r, set_solver s' x) /\ exec_ok (set_solver s' x) /\
    (forall e, changes e x (set_solver s' x)) /\ Q r.
Proof.
  intros H Hs Hm. destruct (run_solver_ok checked Inv (m (constraints s)) x Q H Hm) as (r & s' & _ & E & H' & Hc & HQ).
  exists r, s'. split_and!; [|done..]. unfold ask, sbind, state_at. rewrite Hs. cbn [res_bind fst snd]. exact E.
Qed.

Lemma ask_succeed {T} (m : list expr -> state S (option T)) (x : Executor) es s r s' :
  pool x !! es = Some s -> m (constraints s) (solver_state x) = Ok (r, s') ->
  ask es (fun cs => must_succeed (m cs)) x = match r with Some v => Ok (v, set_solver s' x) | None => AssertFail end.
Proof.
  intros Hs E. unfold ask, sbind, state_at. rewrite Hs. cbn [res_bind fst snd]. unfold run_solver, must_succeed, sbind.
  rewrite E. cbn [res_bind fst snd]. by destruct r.
Qed.

Lemma sbind_ok {X T U} (m : state X T) (k : T -> state X U) x v y : m x = Ok (v, y) -> sbind m k x = k v y.
Proof. intros E. unfold sbind. by rewrite E. Qed.

Lemma sbind_fail {X T U} (m : state X T) (k : T -> state X U) x : m x = AssertFail -> sbind m k x = AssertFail.
Proof. intros E. unfold sbind. by rewrite E. Qed.

(** *** [toUnique] *)

(** [EqExpr::create(e, value)] *)
Lemma eq_value cs e c :
  query_ok checked (MkQuery cs e) -> getBitWidth c = getWidth e ->
  exists q, BinaryExpr_create false Eq e (Constant c) = Ok q /\ bool_query checked (MkQuery cs q) /\
    forall ρ v, denote checked ρ e = Some v -> denote checked ρ q = Some (Z.b2z (v =? uval c)).
Proof.
  intros [(Hcs & He & Hd & Hcg & Hg) Hsat] Hw. cbn [Solver.constraints query_expr] in *.
  assert (wt (Constant c)) as Hwc by (cbn; rewrite Hw; by apply wt_width_pos).
  destruct (BinaryExpr_create_ok false checked ltac:(done) Eq e (Constant c) He Hwc ltac:(by rewrite <- Hw)) as (q & E & Hq & Hqw & Hqd); [by destruct e|].
  assert (forall ρ v, denote checked ρ e = Some v -> denote checked ρ q = Some (Z.b2z (v =? uval c))) as Hqd'.
  { intros ρ v Hv. apply Hqd. unfold bin_den. rewrite Hv. reflexivity. }
  exists q. split; [done|]. split; [|exact Hqd']. split; [|exact Hqw]. split; [|done]. split; [done|]. split; [done|]. cbn [Solver.constraints query_expr].
  split; [|split; [done|]].
  - intros ρ Hρ. destruct (Hd ρ Hρ) as [v Hv]. eexists. by apply Hqd'.
  - eapply (good_create e Eq c q (fun v => Z.b2z (v =? uval c))); [exact Hg|by apply derived_cmp|exact E|exact Hqd'].
Qed.

Lemma toUnique_ok x es s e :
  exec_ok x -> pool x !! es = Some s -> query_ok checked (MkQuery (constraints s) e) ->
  exists r s', toUnique false hash simplifyExprs solver es e x = Ok (r, set_solver s' x) /\
    exec_ok (set_solver s' x) /\ (forall e', changes e' x (set_solver s' x)) /\
    (r = e \/ exists c, r = Constant c /\ getBitWidth c = getWidth e /\ forced checked (MkQuery (constraints s) e) (uval c)).
Proof.
  intros H Hs Hq.
  assert (isConstant e = false -> exists r s', (do* value := ask es (fun cs => ts_getValue (simplifyExpr false hash) solver simplifyExprs cs e) in
      match value with
      | None => sret e
      | Some value =>
          do* cond := slift (BinaryExpr_create false Eq e (Constant value)) in
          do* isTrue := ask es (fun cs => ts_mustBeTrue (simplifyExpr false hash) solver simplifyExprs cs cond) in
          sret (match isTrue with Some true => Constant value | _ => e end)
      end) x = Ok (r, set_solver s' x) /\
    exec_ok (set_solver s' x) /\ (forall e', changes e' x (set_solver s' x)) /\
    (r = e \/ exists c, r = Constant c /\ getBitWidth c = getWidth e /\ forced checked (MkQuery (constraints s) e) (uval c))) as Hsym.
  { intros _. destruct (ask_ok (fun cs => ts_getValue (simplifyExpr false hash) solver simplifyExprs cs e) x es s _ H Hs
      (ts_getValue_ok false checked _ (simplifyExpr_simplifier checked hash) solver Inv simplifyExprs (constraints s) e Hq))
      as (r & s1 & E1 & H1 & Hc1 & Hr).
    unfold sbind at 1. rewrite E1. cbn [res_bind fst snd]. destruct r as [c|].
    2:{ exists e, s1. split; [done|]. split; [done|]. split; [done|]. by left. }
    destruct (Hr c eq_refl) as [Hw _]. destruct (eq_value (constraints s) e c Hq Hw) as (q & Eq' & Hqq & Hqd).
    unfold sbind at 1, slift at 1. rewrite Eq'. cbn [res_bind fst snd].
    destruct (ask_ok (fun cs => ts_mustBeTrue (simplifyExpr false hash) solver simplifyExprs cs q) (set_solver s1 x) es s _ H1 Hs
      (ts_mustBeTrue_ok false checked _ (simplifyExpr_simplifier checked hash) solver Inv simplifyExprs (constraints s) q Hqq))
      as (r & s2 & E2 & H2 & Hc2 & Ht).
    unfold sbind at 1. rewrite E2. cbn [res_bind fst snd]. eexists _, s2. split; [reflexivity|]. split; [exact H2|].
    split; [intros e'; etrans; [apply Hc1|apply Hc2]|]. destruct r as [[|]|]; [right|by left|by left].
    exists c. split; [done|]. split; [done|]. intros ρ Hρ. specialize (Ht true eq_refl ρ Hρ). cbn in Ht |- *.
    destruct Hq as [(_ & _ & Hd & _) _]. destruct (Hd ρ Hρ) as [v Hv]. cbn in Hv. rewrite (Hqd ρ v Hv) in Ht.
    rewrite Hv. f_equal. destruct (Z.eqb_spec v (uval c)); [done|by injection Ht]. }
  destruct e as [CE| | | | | | | |]; try (by apply Hsym).
  exists (Constant CE), (solver_state x). unfold toUnique, sret. replace (set_solver (solver_state x) x) with x by (by destruct x).
  split; [done|]. split; [done|]. split; [done|]. by left.
Qed.

(** *** [toConstant] *)

(** The simplification keeps values as long as no constraint is false. *)
Lemma simplified_value cs e :
  query_ok checked (MkQuery cs e) ->
  exists e', simplifyExpr false hash cs e = Ok e' /\ query_ok checked (MkQuery cs e') /\ getWidth e' = getWidth e /\
    forall ρ v, none_false checked ρ cs -> denote checked ρ e = Some v -> denote checked ρ e' = Some v.
Proof.
  intros [Hq [ρ0 Hs]]. pose proof (query_constraint_set _ _ Hq) as Hcs. pose proof Hq as (Hc1 & Hwt & Hd & Hc2 & Hg). cbn in Hcs, Hwt, Hd, Hg, Hs.
  destruct (simplify_ok checked hash good good_solid cs e ρ0) as (e' & E & [Hwt' Hw'] & Hg' & Hst & _); [done..|by apply Hd|].
  exists e'. split; [done|]. split; [|split; [done|]].
  - split; [|by exists ρ0]. split_and!; try done. cbn. intros ρ Hρ. destruct (Hd ρ Hρ) as [v Hv]. exists v.
    by apply Hst; [apply sat_not_false|].
  - intros ρ v Hn Hv. by apply Hst.
Qed.

(** A state is changed, and the solver was asked. *)
Definition touched (es : positive) (s : ExecutionState) (sv : S) (x : Executor) : Executor :=
  set_pool (<[es := s]> (pool x)) (set_solver sv x).

Lemma touched_same x es s : pool x !! es = Some s -> touched es s (solver_state x) x = x.
Proof. intros Hs. unfold touched. cbn. rewrite insert_id by done. by destruct x. Qed.

Lemma touched_twice x es s s' sv sv' : touched es s' sv' (touched es s sv x) = touched es s' sv' x.
Proof. unfold touched. cbn. by rewrite insert_insert_eq. Qed.

Lemma touched_running x es s s' sv : pool x !! es = Some s -> forall e, running (touched es s' sv x) e <-> running x e.
Proof.
  intros Hs e. unfold running. cbn. destruct (decide (es = e)) as [<-|Hne]; [|by rewrite lookup_insert_ne].
  rewrite lookup_insert_eq, Hs. split; intros [_ Hr]; (split; [by eexists|done]).
Qed.

Lemma touched_lookup x es s sv : pool (touched es s sv x) !! es = Some s.
Proof. cbn. by rewrite lookup_insert_eq. Qed.

Lemma touched_ok x es s s' sv : exec_ok x -> pool x !! es = Some s -> constrained s s' -> cs_ok (constraints s') -> Inv sv ->
  exec_ok (touched es s' sv x) /\ changes es x (touched es s' sv x).
Proof.
  intros H Hs Hc Hok Hi. assert (exec_ok (set_solver sv x)) as H1 by (destruct H; by split).
  destruct (put_ok checked Inv (set_solver sv x) es s s' H1 Hs (constrained_links s s' Hc) Hok) as [H2 Hc2]. split; [exact H2|].
  etrans; [|exact Hc2]. by split.
Qed.

(** A question without an answer. *)
Definition unanswered : Prop :=
  exists cs e sv sv', Inv sv /\ query_ok checked (MkQuery cs e) /\
    (ts_getValue (simplifyExpr false hash) solver simplifyExprs cs e sv = Ok (None, sv') \/
     ts_mustBeTrue (simplifyExpr false hash) solver simplifyExprs cs e sv = Ok (None, sv')).

Lemma toConstant_ok x es s e :
  exec_ok x -> pool x !! es = Some s -> seedMap x !! es = None -> query_ok checked (MkQuery (constraints s) e) ->
  (toConstant false hash rewrite simplifyExprs solver es e x = AssertFail /\ unanswered) \/
  exists c s' sv, toConstant false hash rewrite simplifyExprs solver es e x = Ok (c, touched es s' sv x) /\
    exec_ok (touched es s' sv x) /\ changes es x (touched es s' sv x) /\ constrained s s' /\
    getBitWidth c = getWidth e /\ feasible checked (MkQuery (constraints s) e) (uval c) /\
    takes (constraints s) e (uval c) (constraints s').
Proof.
  intros H Hs Hseed Hq. destruct (simplified_value (constraints s) e Hq) as (e1 & Es & Hq1 & Hw1 & Hv1).
  pose proof (ex_solver _ _ x H) as Hi0.
  set (m := do* value := ask es (fun cs => must_succeed (ts_getValue (simplifyExpr false hash) solver simplifyExprs cs e1)) in
    do* eq := slift (BinaryExpr_create false Eq e1 (Constant value)) in
    do* _ := Executor.addConstraint false hash rewrite simplifyExprs solver es eq in
    sret value).
  assert (toConstant false hash rewrite simplifyExprs solver es e x = match e1 with Constant CE => Ok (CE, x) | _ => m x end) as ->.
  { unfold toConstant. unfold sbind at 1. unfold state_at at 1. rewrite Hs. cbn [res_bind fst snd].
    unfold sbind at 1. unfold slift at 1. rewrite Es. cbn [res_bind fst snd]. by destruct e1. }
  (* what the simplified expression says of the expression *)
  assert (forall ρ v, sat checked ρ (constraints s) -> denote checked ρ e1 = Some v -> denote checked ρ e = Some v) as Hback.
  { intros ρ v Hρ Hv. destruct Hq as [(_ & _ & Hd & _) _]. destruct (Hd ρ Hρ) as [y Hy]. cbn in Hy.
    rewrite (Hv1 ρ y (sat_not_false _ _ _ Hρ) Hy) in Hv. congruence. }
  assert (forall c, e1 = Constant c -> getBitWidth c = getWidth e /\ feasible checked (MkQuery (constraints s) e) (uval c) /\
    takes (constraints s) e (uval c) (constraints s)) as Hconst.
  { intros c ->. split; [exact Hw1|]. assert (forced checked (MkQuery (constraints s) e) (uval c)) as Hf.
    { intros ρ Hρ. by apply Hback. }
    split; [|by apply takes_forced]. by apply (forced_feasible false checked). }
  assert (isConstant e1 = false -> (m x = AssertFail /\ unanswered) \/
    exists c s' sv, m x = Ok (c, touched es s' sv x) /\
      exec_ok (touched es s' sv x) /\ changes es x (touched es s' sv x) /\ constrained s s' /\
      getBitWidth c = getWidth e /\ feasible checked (MkQuery (constraints s) e) (uval c) /\
      takes (constraints s) e (uval c) (constraints s')) as Hsym.
  { intros _.
    destruct (ts_getValue_ok false checked _ (simplifyExpr_simplifier checked hash) solver Inv simplifyExprs (constraints s) e1 Hq1
      (solver_state x) Hi0) as (r & s1 & E1 & Hi & Hr).
    pose proof (ask_succeed (fun cs => ts_getValue (simplifyExpr false hash) solver simplifyExprs cs e1) x es s r s1 Hs E1) as Ea.
    destruct r as [c|]; [right|left; split; [by apply (sbind_fail _ _ _ Ea)|exists (constraints s), e1, (solver_state x), s1; auto]].
    unfold m. rewrite (sbind_ok _ _ _ _ _ Ea).
    destruct (Hr c eq_refl) as [Hw Hf]. destruct (eq_value (constraints s) e1 c Hq1 Hw) as (q & Eq' & Hqq & Hqd).
    assert (exec_ok (set_solver s1 x)) as H1 by (destruct H; by split).
    unfold sbind at 1, slift at 1. rewrite Eq'. cbn [res_bind fst snd].
    destruct (addConstraint_exec checked hash rewrite simplifyExprs solver Inv (set_solver s1 x) es s q H1 Hs Hseed Hqq) as (s' & E2 & Hcon & [T1 T2 T3 T4]).
    { destruct Hf as (ρ & Hρ & Hv). exists ρ. split; [done|]. cbn in Hv |- *. rewrite (Hqd ρ _ Hv). by rewrite Z.eqb_refl. }
    unfold sbind at 1. rewrite E2. cbn [res_bind fst snd sret].
    destruct (touched_ok x es s s' s1 H Hs Hcon T1 Hi) as [H2 Hc2].
    exists c, s', s1. split; [reflexivity|]. split; [exact H2|]. split; [exact Hc2|]. split; [done|]. split; [congruence|]. split.
    - destruct Hf as (ρ & Hρ & Hv). exists ρ. split; [done|]. cbn in Hv |- *. by apply Hback.
    - split; [done| |done|].
      + intros ρ Hρ Hv. apply T2; [done|]. rewrite (Hqd ρ (uval c)); [by rewrite Z.eqb_refl|]. apply Hv1; [by apply sat_not_false|done].
      + intros ρ v Hρ Hv. assert (denote checked ρ e1 = Some v) as Hv' by (apply Hv1; [by apply T3, sat_not_false|done]).
        specialize (T4 ρ _ Hρ (Hqd ρ v Hv')). by destruct (Z.eqb_spec v (uval c)). }
  destruct e1 as [CE| | | | | | | |]; try (by apply Hsym). right.
  destruct (Hconst CE eq_refl) as (Hw & Hf & Ht). exists CE, s, (solver_state x). rewrite (touched_same x es s Hs).
  split_and!; try done. exists (constraints s), (updated s). by destruct s.
Qed.

(** *** Test cases *)

Lemma set_openStates_ok x m :
  exec_ok x -> (forall h e, is_Some (pool x !! e) -> e ∈ default [] (openStates x !! h) -> e ∈ default [] (m !! h)) ->
  exec_ok (set_openStates m x) /\ forall e, changes e x (set_openStates m x).
Proof.
  intros [H1 H2 H3 H4 H5 H6 H7 H8 H9] Hm. split; [|intros e; by split]. split; try done.
  intros e s Hs. destruct (H6 e s Hs) as [Hn Ho]. split; [done|]. intros h Hh. cbn. apply Hm; [by eexists|]. by apply Ho.
Qed.

(** An executor and a copy of a state in a local variable. *)
Definition with_temp (x : Executor) (tmp : positive) (c : ExecutionState) : Executor :=
  set_openStates (add_open (openMergeStack c) tmp (openStates x)) (set_pool (<[tmp := c]> (pool x)) x).

Lemma temp_lookup x tmp c : pool (with_temp x tmp c) !! tmp = Some c.
Proof. cbn. by rewrite lookup_insert_eq. Qed.

Lemma copy_state_ok x es s :
  exec_ok x -> pool x !! es = Some s ->
  exists tmp y, let t := snd (ExecutionState_copy s) in
    copy_state es x = Ok (tmp, with_temp y tmp (fst (ExecutionState_copy s))) /\
    y = set_pool (<[es := t]> (pool x)) x /\ pool y !! tmp = None /\ exec_ok y /\ changes es x y.
Proof.
  intros H Hs. unfold copy_state. set (tmp := fresh (dom (pool x) : gset positive)).
  assert (pool x !! tmp = None) as Hn by (apply not_elem_of_dom, is_fresh).
  exists tmp, (set_pool (<[es := snd (ExecutionState_copy s)]> (pool x)) x). cbn zeta.
  destruct (put_ok checked Inv x es s (snd (ExecutionState_copy s)) H Hs) as [H1 Hc1];
    [by split|exact (ex_states _ _ x H es s Hs)|].
  split_and!; [|done| |done|done].
  - unfold sbind, state_at, get. rewrite Hs. cbn [res_bind fst snd]. fold tmp. by destruct (ExecutionState_copy s).
  - cbn. rewrite lookup_insert_ne; [done|]. intros ->. congruence.
Qed.

Lemma delete_temp_ok y tmp c :
  exec_ok y -> pool y !! tmp = None -> NoDup (openMergeStack c) ->
  exists z, delete_state tmp (with_temp y tmp c) = Ok (tt, z) /\ exec_ok z /\ (forall e, changes e y z) /\ pool z = pool y.
Proof.
  intros H Hn Hd. unfold delete_state, sbind, state_at, get, slift, modify. rewrite temp_lookup. cbn [res_bind fst snd].
  destruct (remove_open_ok tmp (openMergeStack c) (add_open (openMergeStack c) tmp (openStates y)) Hd) as (m & E & Hm).
  { intros h Hh. by apply add_open_in. }
  cbn [openStates with_temp set_openStates set_pool]. rewrite E. cbn [res_bind fst snd]. eexists. split; [reflexivity|].
  cbn [pool with_temp set_openStates set_pool]. rewrite delete_insert_id by done.
  destruct (set_openStates_ok y m H) as [H1 Hc].
  { intros h e He Hin. apply Hm; [intros ->; rewrite Hn in He; by destruct He|]. by apply add_open_mono. }
  replace (set_pool (pool y) _) with (set_openStates m y) by (by destruct y). by split_and!.
Qed.

(** A preference: a Boolean with a value everywhere. *)
Definition preference (p : expr) : Prop :=
  wt p /\ getWidth p = 1 /\ good p /\ forall ρ, is_Some (denote checked ρ p).

Lemma preference_query cs p : cs_ok cs -> preference p -> bool_query checked (MkQuery cs p).
Proof.
  intros [(Hcs & _ & _ & Hg & _) Hs] (Hp & Hw & Hgp & Hd). split; [|done]. split; [|done]. by split_and!.
Qed.

(** The constraints of the copy get stronger. *)
Definition refined (c c' : ExecutionState) : Prop :=
  constrained c c' /\ cs_ok (constraints c') /\
  forall ρ, none_false checked ρ (constraints c') -> none_false checked ρ (constraints c).

Lemma refined_refl c : cs_ok (constraints c) -> refined c c.
Proof. intros H. split; [|by split]. exists (constraints c), (updated c). by destruct c. Qed.

Lemma refined_trans a b c : refined a b -> refined b c -> refined a c.
Proof.
  intros [(cs & u & ->) [_ Hr]] [(cs' & u' & ->) [Hok Hr']]. split; [by exists cs', u'|]. split; [done|]. auto.
Qed.

Lemma prefer_ok x tmp c p :
  cs_ok (constraints c) -> preference p -> feasible checked (MkQuery (constraints c) p) 1 ->
  exists c', prefer false hash rewrite tmp p (with_temp x tmp c) = Ok (tt, with_temp x tmp c') /\ refined c c'.
Proof.
  intros Hc Hp Hf. destruct (add_takes checked hash rewrite (constraints c) p (preference_query _ _ Hc Hp) Hf) as (cs' & E & [T1 T2 T3 _]).
  exists (set_constraints cs' true c). split; [|split; [by eexists _, _|by split]].
  unfold prefer, sbind, slift. unfold state_at at 1. rewrite temp_lookup. cbn [res_bind fst snd].
  unfold state_addConstraint. rewrite E. cbn [res_bind fst snd]. unfold put_state, modify, with_temp. cbn. by rewrite insert_insert_eq.
Qed.

Lemma prefer_all_ok tmp ps : forall x c,
  exec_ok x -> cs_ok (constraints c) -> Forall preference ps ->
  exists r s' c', prefer_all false hash rewrite simplifyExprs solver tmp ps (with_temp x tmp c) = Ok (r, with_temp (set_solver s' x) tmp c') /\
    exec_ok (set_solver s' x) /\ (forall e, changes e x (set_solver s' x)) /\ refined c c'.
Proof.
  induction ps as [|p ps IH]; intros x c H Hc Hps; cbn [prefer_all].
  { exists true, (solver_state x), c. replace (set_solver (solver_state x) x) with x by (by destruct x).
    split_and!; [done|done|done|by apply refined_refl]. }
  apply Forall_cons_iff in Hps as [Hp Hps]. pose proof (preference_query _ _ Hc Hp) as Hq.
  destruct (negated_query false checked ltac:(done) (constraints c) p Hq) as (n & En & Hnq & _ & Hn0).
  unfold sbind at 1, slift at 1. rewrite En. cbn [res_bind fst snd].
  destruct (ts_mustBeTrue_ok false checked _ (simplifyExpr_simplifier checked hash) solver Inv simplifyExprs (constraints c) n Hnq
    (solver_state x) (ex_solver _ _ x H)) as (r & s1 & E1 & Hi & Hr).
  assert (ask tmp (fun cs => ts_mustBeTrue (simplifyExpr false hash) solver simplifyExprs cs n) (with_temp x tmp c) =
    Ok (r, with_temp (set_solver s1 x) tmp c)) as Ea.
  { unfold ask, sbind. unfold state_at at 1. rewrite temp_lookup. cbn [res_bind fst snd]. unfold run_solver.
    cbn [solver_state with_temp set_openStates set_pool]. rewrite E1. reflexivity. }
  rewrite (sbind_ok _ _ _ _ _ Ea).
  assert (exec_ok (set_solver s1 x) /\ forall e, changes e x (set_solver s1 x)) as [H1 Hc1].
  { split; [destruct H; by split|intros e; by split]. }
  assert (forall c1, refined c c1 -> exists r s' c', prefer_all false hash rewrite simplifyExprs solver tmp ps (with_temp (set_solver s1 x) tmp c1) =
      Ok (r, with_temp (set_solver s' x) tmp c') /\
    exec_ok (set_solver s' x) /\ (forall e, changes e x (set_solver s' x)) /\ refined c c') as Hnext.
  { intros c1 Hc2. destruct (IH (set_solver s1 x) c1 H1 (proj1 (proj2 Hc2)) Hps) as (r' & s2 & c2 & E2 & H2 & Hc3 & Hr2).
    exists r', s2, c2. split; [exact E2|]. split; [exact H2|]. split; [intros e; etrans; [apply Hc1|apply Hc3]|]. by eapply refined_trans. }
  destruct r as [[|]|].
  - rewrite (sbind_ok _ _ _ tt (with_temp (set_solver s1 x) tmp c)) by done. by apply Hnext, refined_refl.
  - destruct (prefer_ok (set_solver s1 x) tmp c p Hc Hp) as (c1 & E2 & Hc2); [by apply Hn0, (Hr false eq_refl)|].
    rewrite (sbind_ok _ _ _ _ _ E2). by apply Hnext.
  - exists false, s1, c. split_and!; [done|done|done|by apply refined_refl].
Qed.

Lemma prefer_objects_ok tmp mos : forall x c,
  exec_ok x -> cs_ok (constraints c) -> (forall mo, mo ∈ mos -> Forall preference (cexPreferences mo)) ->
  exists s' c', prefer_objects false hash rewrite simplifyExprs solver cexPreferences tmp mos (with_temp x tmp c) =
      Ok (tt, with_temp (set_solver s' x) tmp c') /\
    exec_ok (set_solver s' x) /\ (forall e, changes e x (set_solver s' x)) /\ refined c c'.
Proof.
  induction mos as [|mo mos IH]; intros x c H Hc Hps; cbn [prefer_objects].
  { exists (solver_state x), c. replace (set_solver (solver_state x) x) with x by (by destruct x).
    split_and!; [done|done|done|by apply refined_refl]. }
  destruct (prefer_all_ok tmp (cexPreferences mo) x c H Hc) as (r & s1 & c1 & E1 & H1 & Hc1 & Hr1); [apply Hps; by left|].
  rewrite (sbind_ok _ _ _ _ _ E1). destruct r; [|by exists s1, c1].
  destruct (IH (set_solver s1 x) c1 H1 (proj1 (proj2 Hr1))) as (s2 & c2 & E2 & H2 & Hc2 & Hr2); [intros mo' Hmo'; apply Hps; by right|].
  exists s2, c2. split; [exact E2|]. split; [exact H2|]. split; [intros e; etrans; [apply Hc1|apply Hc2]|]. by eapply refined_trans.
Qed.

Lemma named_values_ok mos : forall values, length values = length mos ->
  exists l, named_values name mos values = Ok l /\ l.*1 = name <$> mos /\ l.*2 = values.
Proof.
  induction mos as [|mo mos IH]; intros [|vs values] Hl; try done; [by exists []|]. cbn [named_values].
  destruct (IH values) as (l & -> & E1 & E2); [by injection Hl|]. cbn [res_bind]. eexists. split; [done|].
  cbn. by rewrite E1, E2.
Qed.

(** What a state is after it was copied. *)
Definition copied (s : ExecutionState) : ExecutionState := snd (ExecutionState_copy s).

(** C4. A test case follows the path of its state: [getSymbolicSolution] fails
    no assertion, leaves the state and the others as they are (the key of the
    address space of the state moves, as for every copy), gives back the copy it
    works on, and if it succeeds then the bytes it returns, one list for each
    symbolic object under the object's name, are those of a solution that
    falsifies no constraint of the state, so satisfies them all wherever they
    have values - whatever the preferences were, and however they were rewritten
    into the constraints. *)
Theorem test_case_follows_path (x : Executor) (es : positive) (s : ExecutionState)
    (H : exec_ok x) (Hs : pool x !! es = Some s)
    (Hprefs : forall mo, mo ∈ (symbolics s).*1 -> Forall preference (cexPreferences mo))
    (Hobjs : objects_ok (symbolics s).*2) :
  exists r x', getSymbolicSolution false hash rewrite simplifyExprs solver name cexPreferences es x = Ok (r, x') /\
    exec_ok x' /\ changes es x x' /\ pool x' = <[es := copied s]> (pool x) /\
    forall objects, r = Some objects -> objects.*1 = name <$> (symbolics s).*1 /\
      exists ρ, object_values checked ρ (symbolics s).*2 objects.*2 /\ none_false checked ρ (constraints s) /\
        (Forall (fun c => is_Some (denote checked ρ c)) (constraints s) -> sat checked ρ (constraints s)).
Proof.
  destruct (copy_state_ok x es s H Hs) as (tmp & y & E1 & Ey & Hn & Hy & Hcy).
  set (c := fst (ExecutionState_copy s)) in *.
  assert (cs_ok (constraints c)) as Hc by exact (ex_states _ _ x H es s Hs).
  destruct (prefer_objects_ok tmp (symbolics s).*1 y c Hy Hc Hprefs) as (s1 & c1 & E2 & H2 & Hc2 & Hr2).
  destruct Hr2 as ((cs1 & u1 & Ec1) & Hok1 & Hback).
  destruct (ts_getInitialValues_ok false checked ltac:(done) solver Inv (constraints c1) (symbolics s).*2 Hok1 Hobjs
    s1 (ex_solver _ _ _ H2)) as (r & s2 & E3 & Hi & Hr).
  assert (exec_ok (set_solver s2 y)) as H3 by (destruct Hy; by split).
  destruct (delete_temp_ok (set_solver s2 y) tmp c1 H3 Hn) as (z & E4 & H4 & Hc4 & Epool).
  { rewrite Ec1. exact (proj1 (ex_open _ _ x H es s Hs)). }
  assert (changes es x z) as Hcz by (etrans; [exact Hcy|]; etrans; [|apply Hc4]; by split).
  assert (getSymbolicSolution false hash rewrite simplifyExprs solver name cexPreferences es x =
    match r with
    | None => Ok (None, z)
    | Some values => let* l := named_values name (symbolics s).*1 values in Ok (Some l, z)
    end) as E.
  { unfold getSymbolicSolution. rewrite (sbind_ok _ _ x s x) by (unfold state_at; by rewrite Hs).
    rewrite (sbind_ok _ _ _ _ _ E1), (sbind_ok _ _ _ _ _ E2).
    rewrite (sbind_ok _ _ _ r (with_temp (set_solver s2 y) tmp c1)).
    2:{ unfold ask, sbind. unfold state_at at 1. rewrite temp_lookup. cbn [res_bind fst snd]. unfold run_solver.
        cbn [solver_state with_temp set_openStates set_pool set_solver]. rewrite E3. reflexivity. }
    rewrite (sbind_ok _ _ _ _ _ E4). destruct r as [values|]; [|done]. unfold sbind, slift. by destruct (named_values _ _ _). }
  assert (pool z = <[es := copied s]> (pool x)) as Ez by (rewrite Epool, Ey; done).
  rewrite E. destruct r as [values|].
  2:{ exists None, z. by split_and!. }
  destruct (Hr values eq_refl) as (ρ & Hρ & Hv).
  destruct (named_values_ok (symbolics s).*1 values) as (l & -> & El1 & El2).
  { apply Forall2_length in Hv. by rewrite !length_fmap in *. }
  exists (Some l), z. cbn [res_bind]. split_and!; try done. intros objects [= <-]. split; [done|].
  assert (none_false checked ρ (constraints s)) as Hnf by (apply Hback, sat_not_false; exact Hρ).
  exists ρ. split; [by rewrite El2|]. split; [done|]. by apply none_false_sat.
Qed.

End correct.

(** ** A test case *)
Module ValueExamples.
Import ExprSem.Examples SolverExamples ForkExamples.

Definition sixteen : MemoryObject := MemoryObject_new 1 4096 16 true false false 0.

(* a state with the array [a] of 16 bytes, whose first byte is 5 *)
Definition symbolic_state : ExecutionState := addSymbolic sixteen 1 one_state.

(* the second byte shall be less than the first *)
Definition prefer_small (_ : MemoryObject) : list expr := [small].
Definition name_a (_ : MemoryObject) : list Z := [97].

Lemma small_preference : preference false small.
Proof. split_and!; [exact small_wt|done|done|]. intros ρ. by eexists. Qed.

Lemma test_case_follows_path_witness :
  exists x', getSymbolicSolution false true true true fork_guesses name_a prefer_small 1 (start_executor symbolic_state) =
    Ok (Some [([97], 5 :: replicate 15 1)], x') /\
  exists ρ, object_values false ρ [1%positive] [5 :: replicate 15 1] /\ sat false ρ [five].
Proof.
  destruct (test_case_follows_path false true true true fork_guesses (fun _ => True) (HS := ltac:(by apply GuessSolver_contract))
    name_a prefer_small (start_executor symbolic_state) 1 symbolic_state) as (r & x' & E & _ & _ & _ & H).
  - by apply start_executor_ok.
  - reflexivity.
  - intros mo _. constructor; [exact small_preference|constructor].
  - apply objects_once; [apply NoDup_singleton|]. constructor; [|constructor]. by split; [exact wt_a|].
  - assert ((let* p := getSymbolicSolution false true true true fork_guesses name_a prefer_small 1 (start_executor symbolic_state) in Ok (fst p)) =
      Ok (Some [([97], 5 :: replicate 15 1)])) as E1 by (vm_compute; reflexivity).
    rewrite E in E1. cbn [res_bind fst] in E1. injection E1 as ->. exists x'. split; [exact E|].
    destruct (H _ eq_refl) as (_ & ρ & Hv & Hn & Hs). exists ρ. split; [exact Hv|]. apply Hs. constructor; [by eexists|constructor].
Defined.
End ValueExamples.
