(* ===== verification/ExecutorBranch.v ===== *)
(** Branching in many ways: [Executor::branch], and [executeGetValue], of
    klee/lib/Core/Executor.cpp.

    [branch] gives each condition a state of its own, a copy of one of the
    states it has already, chosen at random; a null pointer in the vector of
    results is None.  The theorem is for runs without seeds. *)
From Stdlib Require Import ZArith Lia Bool.
From stdpp Require Import base list numbers option gmap sets.
From S2P Require Import Prelude APInt Expr ExprCreate ExprEval ExprSem Solver Constraints TimingSolver Rng PTree ImmutableTree MemoryObject AddressSpace ExecutionState SeedInfo Executor ExecutorInv ExecutorFork ExecutorValues.
Open Scope Z_scope.

Section branching.
Context {A : APInt} {AR : Arrays} {F : Functions}.
Context (ConstArrayOpt UseVisitorHash RewriteEqualities simplifyExprs : bool) (o : Options).
Context {S : Type} (solver : SolverImpl S).

Notation simplify := (simplifyExpr ConstArrayOpt UseVisitorHash).
Notation exec := (exec (S:=S)).
Notation addConstraint := (addConstraint ConstArrayOpt UseVisitorHash RewriteEqualities simplifyExprs solver).

(* the loop that makes the other states: n more, after the first i *)
Fixpoint branch_loop (n : nat) (i : Z) (result : list positive) : exec (list positive) :=
  match n with
  | O => sret result
  | Datatypes.S n' =>
      do* k := draw in
      do* es := slift (match result !! Z.to_nat (k mod i) with Some es => Ok es | None => AssertFail end) in
      do* ns := branch_state es in
      do* _ := attach_node es ns es in
      branch_loop n' (i + 1) (result ++ [ns])
  end.

(* the first condition from the i-th on that the seed satisfies *)
Fixpoint seed_condition (es : positive) (si : SeedInfo) (conditions : list expr) (i : nat) : exec nat :=
  match conditions with
  | [] => sret i
  | c :: conditions' =>
      do* v := seed_value ConstArrayOpt UseVisitorHash simplifyExprs solver es si c in
      if v : bool then sret i else seed_condition es si conditions' (Datatypes.S i)
  end.

Fixpoint give_seeds (es : positive) (conditions : list expr) (result : list (option positive)) (seeds : list SeedInfo) :
    exec unit :=
  match seeds with
  | [] => sret tt
  | si :: seeds' =>
      let N := length conditions in
      do* i := seed_condition es si conditions 0 in
      do* i := (if Nat.eqb i N then do* k := draw in sret (Z.to_nat (k mod Z.of_nat N)) else sret i) in
      do* r := slift (match result !! i with Some r => Ok r | None => AssertFail end) in
      do* _ := (match r with
                | Some t => modify (fun x => set_seedMap (<[t := default [] (seedMap x !! t) ++ [si]]> (seedMap x)) x)
                | None => sret tt
                end) in
      give_seeds es conditions result seeds'
  end.

(* the states without seeds, when only seeds are replayed *)
Fixpoint kill_unseeded (result : list (option positive)) : exec (list (option positive)) :=
  match result with
  | [] => sret []
  | r :: result' =>
      do* r := (match r with
                | Some t =>
                    do* m := get seedMap in
                    if bool_decide (is_Some (m !! t)) then sret (Some t) else do* _ := terminateState t in sret None
                | None => sret None
                end) in
      do* result' := kill_unseeded result' in
      sret (r :: result')
  end.

Definition redistribute (es : positive) (conditions : list expr) (result : list (option positive)) :
    exec (list (option positive)) :=
  do* seeds := get (fun x => seedMap x !! es) in
  match seeds with
  | None => sret result
  | Some seeds =>
      do* _ := modify (fun x => set_seedMap (delete es (seedMap x)) x) in
      do* _ := give_seeds es conditions result seeds in
      if OnlyReplaySeeds o then kill_unseeded result else sret result
  end.

Fixpoint add_conditions (result : list (option positive)) (conditions : list expr) : exec unit :=
  match result, conditions with
  | r :: result', c :: conditions' =>
      do* _ := (match r with Some t => addConstraint t c | None => sret tt end) in
      add_conditions result' conditions'
  | _, _ => sret tt
  end.

Definition branch (es : positive) (conditions : list expr) : exec (list (option positive)) :=
  let N := length conditions in
  do* _ := slift (assert* negb (Nat.eqb N 0) in Ok tt) in
  do* exceeded := get (forks_exceeded o) in
  do* result :=
    (if exceeded : bool then
       do* k := draw in
       let next := Z.to_nat (k mod Z.of_nat N) in
       sret ((fun i => if Nat.eqb i next then Some es else None) <$> seq 0 N)
     else
       do* _ := modify (add_forks (Z.of_nat N - 1)) in
       do* result := branch_loop (pred N) 1 [es] in
       sret (Some <$> result)) in
  do* result := redistribute es conditions result in
  do* _ := add_conditions result conditions in
  sret result.

(** ** [executeGetValue] *)

(* getDestCell(state, target).value = value; target is its register, the value may be null *)
Definition bindLocal (target : nat) (es : positive) (value : option expr) : exec unit :=
  do* s := state_at es in
  match stack s with
  | sf :: st =>
      do* _ := slift (assert* (target <? length (locals sf))%nat in Ok tt) in
      put_state es (set_stack (set_locals (<[target := value]> (locals sf)) sf :: st) s)
  | [] => slift AssertFail
  end.

(* std::set< ref<Expr> >::insert *)
Fixpoint insert_value (e : expr) (l : list expr) : list expr :=
  match l with
  | [] => [e]
  | e' :: l' => if compare e e' <? 0 then e :: l else if compare e' e <? 0 then e' :: insert_value e l' else l
  end.

Fixpoint values_of_seeds (es : positive) (e : expr) (seeds : list SeedInfo) (values : list expr) : exec (list expr) :=
  match seeds with
  | [] => sret values
  | si :: seeds' =>
      do* cond := slift (ExprEval.evaluate ConstArrayOpt UseVisitorHash (assignment si) e) in
      do* value := ask es (fun cs => must_succeed (ts_getValue simplify solver simplifyExprs cs cond)) in
      values_of_seeds es e seeds' (insert_value (Constant value) values)
  end.

Fixpoint equalities (e : expr) (values : list expr) : res (list expr) :=
  match values with
  | [] => Ok []
  | v :: values' => let* c := BinaryExpr_create ConstArrayOpt Eq e v in let* l := equalities e values' in Ok (c :: l)
  end.

Fixpoint bind_values (target : nat) (branches : list (option positive)) (values : list expr) : exec unit :=
  match branches, values with
  | b :: branches', v :: values' =>
      do* _ := (match b with Some es => bindLocal target es (Some v) | None => sret tt end) in
      bind_values target branches' values'
  | _, _ => sret tt
  end.

Definition executeGetValue (es : positive) (e : expr) (target : nat) : exec unit :=
  do* s := state_at es in
  do* e := slift (simplify (constraints s) e) in
  do* seeds := get (fun x => seedMap x !! es) in
  let without_seeds :=
    do* value := ask es (fun cs => must_succeed (ts_getValue simplify solver simplifyExprs cs e)) in
    bindLocal target es (Some (Constant value)) in
  match seeds with
  | None => without_seeds
  | Some l =>
      if isConstant e then without_seeds
      else
        do* values := values_of_seeds es e l [] in
        do* conditions := slift (equalities e values) in
        do* branches := branch es conditions in
        bind_values target branches values
  end.

End branching.

(** ** Correctness *)
Section correct.
Context {A : APInt} {L : APIntLaws A} {AR : Arrays} {F : Functions}.
Context (checked hash rewrite simplifyExprs : bool) {SC : Scope false checked} {RS : RewriteScope false checked}.
Context (o : Options).
Context {S : Type} (solver : SolverImpl S) (Inv : S -> Prop).

Notation Executor := (Executor (S:=S)).
Notation exec := (exec (S:=S)).
Notation exec_ok := (exec_ok checked Inv).
Notation changes := (changes Inv).
Notation takes := (takes checked).

Lemma draw_executes x : exec_ok x -> exists k x', draw x = Ok (k, x') /\ 0 <= k /\ exec_ok x' /\ (forall es, changes es x x') /\
  pool x' = pool x /\ removedStates x' = removedStates x /\ addedStates x' = addedStates x /\ seedMap x' = seedMap x.
Proof.
  intros H. unfold draw. destruct (getInt32_ok (theRNG x) (ex_rng _ _ x H)) as (y & r & -> & Hy & Hr).
  cbn [res_bind fst snd]. eexists _, _. split; [reflexivity|]. split_and!; [apply Hy|destruct H; by split|intros es; by split|done..].
Qed.

(** A change of the state or of one that was made since. *)
Lemma changes_any es t (x y z : Executor) : t = es \/ pool x !! t = None -> changes es x y -> changes t y z -> changes es x z.
Proof. intros [->|Hn] H1 H2; [by etrans|by eapply changes_new]. Qed.

(** The states made so far, with the constraints [u] of each. *)
Record branching (x : Executor) (es : positive) (y : Executor) (result : list positive) : Prop := {
  br_ok : exec_ok y;
  br_changes : changes es x y;
  br_seeds e : seedMap y !! e = None;
  br_once : NoDup result;
  br_first : es ∈ result;
  br_states t : t ∈ result -> running y t /\ (t = es \/ pool x !! t = None /\ t ∈ addedStates y);
}.

Definition with_constraints (cs : list expr) (y : Executor) (t : positive) : Prop :=
  exists u, pool y !! t = Some u /\ constraints u = cs.

(** One more state. *)
Lemma branch_step x es y result t u :
  branching x es y result -> t ∈ result -> pool y !! t = Some u ->
  exists ns z, (do* ns := branch_state t in do* _ := attach_node t ns t in sret ns) y = Ok (ns, z) /\
    branching x es z (result ++ [ns]) /\
    (forall e cs, with_constraints cs y e -> with_constraints cs z e) /\ with_constraints (constraints u) z ns.
Proof.
  intros [H Hc Hse Hn Hfirst Hst] Ht Hu. destruct (Hst t Ht) as [[_ Hrt] Hnew].
  destruct (branch_attach_ok checked Inv y t u H Hu) as (ns & f & t' & tree & y1 & Hns & Eb & E1 & E2 & H1 & Hc1).
  destruct (branch_fields u f t' Eb) as (Ef & Et & _).
  exists ns, (branched y t ns f t' tree). split.
  { unfold sbind. rewrite E1. cbn [res_bind fst snd]. rewrite E2. reflexivity. }
  assert (t <> ns) as Htn by (intros ->; congruence).
  assert (pool x !! ns = None) as Hxn.
  { destruct (pool x !! ns) as [v|] eqn:E; [|done]. exfalso. destruct (decide (ns = es)) as [->|Hne].
    - destruct (Hst es Hfirst) as [[[w Hw] _] _]. congruence.
    - rewrite (ch_others _ _ _ _ Hc ns Hne), E in Hns by (by eexists). done. }
  split; [split|split].
  - done.
  - eapply changes_any; [|exact Hc|exact Hc1]. destruct Hnew as [|[]]; auto.
  - done.
  - apply NoDup_app. split_and!; [done| |apply NoDup_singleton]. intros e He ->%list_elem_of_singleton.
    destruct (Hst ns He) as [[[v Hv] _] _]. congruence.
  - apply elem_of_app. by left.
  - intros e [He| ->%list_elem_of_singleton]%elem_of_app.
    + destruct (Hst e He) as [[[v Hv] Hr] Hor]. assert (e <> ns) as Hen by (intros ->; congruence). split; [split|].
      * cbn. rewrite lookup_insert_ne by done. destruct (decide (t = e)) as [<-|]; [rewrite lookup_insert_eq; by eexists|].
        rewrite lookup_insert_ne by done. by eexists.
      * exact Hr.
      * destruct Hor as [|[? ?]]; [by left|right]. split; [done|]. cbn. apply elem_of_app. by left.
    + split; [split|].
      * cbn. rewrite lookup_insert_eq. by eexists.
      * intros Hin. apply (proj2 (ex_removed _ _ y H)) in Hin.
        assert (is_Some (pool y !! ns)) as [? ?] by (apply (exec_ok_dom checked Inv y ns H); by left). congruence.
      * right. split; [done|]. cbn. apply elem_of_app. right. by left.
  - intros e cs (v & Hv & Ev). unfold with_constraints. cbn. destruct (decide (ns = e)) as [<-|]; [congruence|]. rewrite lookup_insert_ne by done.
    destruct (decide (t = e)) as [<-|]; [rewrite lookup_insert_eq; exists t'; split; [done|congruence]|].
    rewrite lookup_insert_ne by done. by exists v.
  - exists f. cbn. by rewrite lookup_insert_eq.
Qed.

Lemma branch_loop_ok x es cs n : forall y result,
  branching x es y result -> result <> [] -> Forall (with_constraints cs y) result ->
  exists result' z, branch_loop n (Z.of_nat (length result)) result y = Ok (result ++ result', z) /\
    length result' = n /\ branching x es z (result ++ result') /\ Forall (with_constraints cs z) (result ++ result').
Proof.
  induction n as [|n IH]; intros y result Hb Hne Hcs; cbn [branch_loop].
  { exists [], y. by rewrite app_nil_r. }
  pose proof Hb as [H Hc Hse Hn Hfirst Hst].
  destruct (draw_executes y H) as (k & y1 & E1 & Hk & H1 & Hc1 & Ep1 & Er1 & Ea1 & Es1). unfold sbind at 1. rewrite E1. cbn [res_bind fst snd].
  assert (branching x es y1 result) as Hb1.
  { split; [done|by etrans|by rewrite Es1|done|done|]. intros t Ht. destruct (Hst t Ht) as [[Hp Hr] Hor]. rewrite Ea1.
    split; [split; [by rewrite Ep1|by rewrite Er1]|done]. }
  assert (Forall (with_constraints cs y1) result) as Hcs1.
  { eapply Forall_impl; [exact Hcs|]. intros t Ht. unfold with_constraints. by rewrite Ep1. }
  assert (0 <= k mod Z.of_nat (length result) < Z.of_nat (length result)) as Hmod.
  { apply Z.mod_pos_bound. destruct result; [done|cbn; lia]. }
  destruct (lookup_lt_is_Some_2 result (Z.to_nat (k mod Z.of_nat (length result)))) as [t Ht]; [lia|].
  unfold sbind at 1, slift at 1. rewrite Ht. cbn [res_bind fst snd].
  assert (t ∈ result) as Hin by (by eapply list_elem_of_lookup_2).
  destruct (proj1 (Forall_forall _ _) Hcs1 t Hin) as (u & Hu & Eu).
  destruct (branch_step x es y1 result t u Hb1 Hin Hu) as (ns & z & E2 & Hb2 & Hkeep & Hns).
  destruct (IH z (result ++ [ns]) Hb2) as (result' & z' & E3 & Hl & Hb3 & Hcs3); [by destruct result| |].
  { apply Forall_app. split; [|constructor; [by rewrite <- Eu|constructor]]. eapply Forall_impl; [exact Hcs1|]. auto. }
  exists (ns :: result'), z'. rewrite <- app_assoc in *. cbn [app] in *. split_and!; [|cbn; lia|done|done].
  rewrite <- E3. rewrite length_app. cbn [length]. replace (Z.of_nat (length result + 1)) with (Z.of_nat (length result) + 1) by lia.
  clear -E2. unfold sbind in *. destruct (branch_state t y1) as [[ns' w]| |]; cbn [res_bind fst snd] in *; try done.
  destruct (attach_node t ns' t w) as [[[] w']| |]; cbn [res_bind fst snd sret] in *; try done. by injection E2 as -> ->.
Qed.

(** *** The conditions *)

(** The states of the results. *)
Fixpoint live (result : list (option positive)) : list positive :=
  match result with [] => [] | Some t :: l => t :: live l | None :: l => live l end.

Lemma elem_of_live t result : t ∈ live result <-> Some t ∈ result.
Proof. induction result as [|[t'|] l IH]; cbn [live]; [set_solver| |]; rewrite !elem_of_cons, IH; [|set_solver]. split; [intros [->|]; auto|intros [[=]|]; auto]. Qed.

(** The state of a result, if there is one, took the condition. *)
Definition took (cs : list expr) (y : Executor) (r : option positive) (c : expr) : Prop :=
  forall t, r = Some t -> exists u, pool y !! t = Some u /\ takes cs c 1 (constraints u).

Lemma add_conditions_ok x es cs : forall result conditions y,
  exec_ok y -> changes es x y -> (forall e, seedMap y !! e = None) -> NoDup (live result) ->
  (forall t, t ∈ live result -> running y t /\ (t = es \/ pool x !! t = None) /\ with_constraints cs y t) ->
  (forall c, c ∈ conditions -> bool_query checked (MkQuery cs c) /\ feasible checked (MkQuery cs c) 1) ->
  length result = length conditions ->
  exists z, add_conditions false hash rewrite simplifyExprs solver result conditions y = Ok (tt, z) /\
    exec_ok z /\ changes es x z /\ (forall e, running y e -> running z e) /\ addedStates z = addedStates y /\
    (forall e, e ∉ live result -> pool z !! e = pool y !! e) /\ Forall2 (took cs z) result conditions.
Proof.
  induction result as [|r result IH]; intros [|c conditions] y H Hc Hse Hn Hst Hcs Hl; try done; cbn [add_conditions].
  { exists y. by split_and!. }
  destruct r as [t|].
  2:{ destruct (IH conditions y H Hc Hse Hn Hst) as (z & E & H1 & Hc1 & Hr1 & Ha1 & Ho1 & Hf1);
        [intros c' Hc'; apply Hcs; by right|by injection Hl|].
      exists z. rewrite (sbind_ok _ _ _ tt y) by done. split_and!; try done. by constructor. }
  cbn [live] in Hn, Hst. apply NoDup_cons in Hn as [Hnt Hn].
  destruct (Hst t) as ([_ Hrt] & Hnew & u & Hu & Eu); [by left|]. destruct (Hcs c) as [Hq Hf]; [by left|]. rewrite <- Eu in Hq, Hf.
  destruct (addConstraint_exec checked hash rewrite simplifyExprs solver Inv y t u c H Hu (Hse t) Hq Hf) as (u' & E1 & Hcon & Ht).
  destruct (put_ok checked Inv y t u u' H Hu (constrained_links u u' Hcon) (tk_ok _ _ _ _ _ Ht)) as [H1 Hc1].
  set (y1 := set_pool (<[t := u']> (pool y)) y) in *.
  assert (forall e, running y e -> running y1 e) as Hrun.
  { intros e [He Hr]. split; [|exact Hr]. cbn. destruct (decide (t = e)) as [<-|]; [rewrite lookup_insert_eq; by eexists|]. by rewrite lookup_insert_ne. }
  destruct (IH conditions y1) as (z & E & H2 & Hc2 & Hr2 & Ha2 & Ho2 & Hf2); [done|by eapply changes_any|done|done| | |by injection Hl|].
  - intros e He. destruct (Hst e) as (Hre & Hor & v & Hv & Ev); [by right|]. split; [by apply Hrun|]. split; [done|].
    exists v. split; [|done]. cbn. rewrite lookup_insert_ne; [done|]. by intros ->.
  - intros c' Hc'. apply Hcs. by right.
  - exists z. rewrite (sbind_ok _ _ _ _ _ E1). split_and!; try done.
    + intros e He. apply Hr2. by apply Hrun.
    + intros e He. cbn [live] in He. apply not_elem_of_cons in He as [Hne He]. rewrite Ho2 by done. cbn. by rewrite lookup_insert_ne.
    + constructor; [|done]. intros t' [= <-]. exists u'. split; [|by rewrite <- Eu]. rewrite Ho2 by done. cbn. by rewrite lookup_insert_eq.
Qed.

Lemma omap_some (l : list positive) : live (Some <$> l) = l.
Proof. induction l as [|t l IH]; [done|]. cbn. by rewrite IH. Qed.

(** One result of a list of null pointers. *)
Lemma one_result es i n l : (l < n)%nat ->
  live ((fun k => if Nat.eqb k (i + l) then Some es else None) <$> seq i n) = [es].
Proof.
  revert i l. induction n as [|n IH]; intros i l Hl; [lia|]. cbn.
  destruct (Nat.eqb_spec i (i + l)) as [E|Hne].
  - assert (l = 0%nat) as -> by lia. cbn. f_equal. clear. rewrite Nat.add_0_r.
    enough (forall j, (i < j)%nat -> live ((fun k => if Nat.eqb k i then Some es else None) <$> seq j n) = []) as Hj by (apply Hj; lia).
    induction n as [|n IH]; intros j Hj; [done|]. cbn. destruct (Nat.eqb_spec j i); [lia|]. apply IH. lia.
  - cbn. destruct l as [|l]; [lia|]. replace (i + Datatypes.S l)%nat with (Datatypes.S i + l)%nat by lia. apply IH. lia.
Qed.

(** C3. [branch] gives every condition a state: it returns, fails no assertion
    and keeps the executor's invariant; the states of the results are distinct,
    run, are the state itself or new ones the searcher learns of, and each takes
    the solutions of the constraints in which its condition is true.  All
    conditions have one, unless the bound on forks was reached: then one
    condition, chosen at random, has the state itself.  So a solution that
    satisfies some condition is a solution of a state. *)
Theorem branch_splits_solutions (x : Executor) (es : positive) (s : ExecutionState) (conditions : list expr)
    (H : exec_ok x) (Hs : pool x !! es = Some s) (Hr : es ∉ removedStates x) (Hseed : seedMap x = ∅)
    (Hne : conditions <> [])
    (Hcs : forall c, c ∈ conditions ->
       bool_query checked (MkQuery (constraints s) c) /\ feasible checked (MkQuery (constraints s) c) 1) :
  exists result x', branch false hash rewrite simplifyExprs o solver es conditions x = Ok (result, x') /\
    exec_ok x' /\ changes es x x' /\ NoDup (live result) /\
    (forall t, t ∈ live result -> running x' t /\ (t = es \/ pool x !! t = None /\ t ∈ addedStates x')) /\
    Forall2 (took (constraints s) x') result conditions /\
    (if forks_exceeded o x then live result = [es] else Forall is_Some result /\
       forall ρ, sat checked ρ (constraints s) -> Exists (fun c => denote checked ρ c = Some 1) conditions ->
         exists t u, t ∈ live result /\ pool x' !! t = Some u /\ sat checked ρ (constraints u)).
Proof.
  set (N := length conditions). assert (N <> 0%nat) as HN by (subst N; destruct conditions; cbn; [done|lia]).
  assert (forall e, seedMap x !! e = None) as Hno by (intros e; rewrite Hseed; apply lookup_empty).
  (* the states, before the conditions are added *)
  assert (exists result y, (if forks_exceeded o x then
       do* k := draw in
       let next := Z.to_nat (k mod Z.of_nat N) in
       sret ((fun i => if Nat.eqb i next then Some es else None) <$> seq 0 N)
     else
       do* _ := modify (add_forks (Z.of_nat N - 1)) in
       do* result := branch_loop (pred N) 1 [es] in
       sret (Some <$> result)) x = Ok (result, y) /\ length result = N /\ branching x es y (live result) /\
     Forall (with_constraints (constraints s) y) (live result) /\
     (if forks_exceeded o x then live result = [es] else Forall is_Some result)) as (result & y & E & Hl & Hb & Hw & Hall).
  { destruct (forks_exceeded o x).
    - destruct (draw_executes x H) as (k & y & E1 & Hk & H1 & Hc1 & Ep1 & Er1 & Ea1 & Es1). rewrite (sbind_ok _ _ _ _ _ E1).
      assert (live ((fun i => if Nat.eqb i (Z.to_nat (k mod Z.of_nat N)) then Some es else None) <$> seq 0 N) = [es]) as Eo.
      { apply (one_result es 0 N (Z.to_nat (k mod Z.of_nat N))). pose proof (Z.mod_pos_bound k (Z.of_nat N) ltac:(lia)) as Hm. revert Hm. generalize (k mod Z.of_nat N). intros j Hj. lia. }
      eexists _, y. cbv zeta. unfold sret at 1. split; [reflexivity|]. rewrite length_fmap, length_seq, Eo. split_and!; [done| | |done].
      + split; [done|by apply Hc1|by rewrite Es1|apply NoDup_singleton|by left|]. intros t ->%list_elem_of_singleton.
        split; [split; [rewrite Ep1; by eexists|by rewrite Er1]|by left].
      + constructor; [|constructor]. exists s. by rewrite Ep1.
    - destruct (add_forks_ok checked Inv x (Z.of_nat N - 1) H) as [H1 Hc1]. rewrite (sbind_ok _ _ x tt (add_forks (Z.of_nat N - 1) x)) by done.
      destruct (branch_loop_ok x es (constraints s) (pred N) (add_forks (Z.of_nat N - 1) x) [es]) as (result & z & E & Hl & Hb & Hw).
      + split; [done|by apply Hc1|exact Hno|apply NoDup_singleton|by left|]. intros t ->%list_elem_of_singleton.
        split; [by split; [eexists|]|by left].
      + done.
      + constructor; [|constructor]. by exists s.
      + change (Z.of_nat (length [es])) with 1 in E. rewrite (sbind_ok _ _ _ _ _ E). eexists _, z. split; [reflexivity|].
        rewrite length_fmap, omap_some. cbn [app length]. split_and!; [lia|done|done|]. apply Forall_forall.
        intros r (t & -> & _)%list_elem_of_fmap. by eexists. }
  destruct Hb as [H1 Hc1 Hse1 Hn1 Hf1 Hst1].
  destruct (add_conditions_ok x es (constraints s) result conditions y H1 Hc1 Hse1 Hn1) as (z & E2 & H2 & Hc2 & Hr2 & Ha2 & Ho2 & Hf2).
  { intros t Ht. destruct (Hst1 t Ht) as [Hrt Hor]. split; [done|]. split; [destruct Hor as [|[]]; auto|]. exact (proj1 (Forall_forall _ _) Hw t Ht). }
  { done. } { done. }
  exists result, z. split_and!; try done.
  - unfold branch. fold N. destruct (Nat.eqb_spec N 0); [done|]. rewrite (sbind_ok _ _ x tt x) by done.
    rewrite (sbind_ok _ _ x (forks_exceeded o x) x) by done. rewrite (sbind_ok _ _ _ _ _ E).
    rewrite (sbind_ok _ _ y result y).
    + by rewrite (sbind_ok _ _ _ _ _ E2).
    + unfold redistribute. rewrite (sbind_ok _ _ y None y); [done|]. unfold get. by rewrite Hse1.
  - intros t Ht. destruct (Hst1 t Ht) as [Hrt Hor]. rewrite Ha2. split; [by apply Hr2|done].
  - destruct (forks_exceeded o x); [done|]. split; [done|]. intros ρ Hρ (c & Hc & Hv)%Exists_exists.
    apply list_elem_of_lookup in Hc as [i Hi]. destruct (Forall2_lookup_r _ _ _ _ _ Hf2 Hi) as (r & Hri & Ht).
    destruct (proj1 (Forall_forall _ _) Hall r) as [t ->]; [by eapply list_elem_of_lookup_2|].
    destruct (Ht t eq_refl) as (u & Hu & Htk). exists t, u. split; [|split; [done|by apply (tk_all _ _ _ _ _ Htk)]].
    apply elem_of_live. by eapply list_elem_of_lookup_2.
Qed.

End correct.

(** ** A branch *)
Module BranchExamples.
Import ExprSem.Examples SolverExamples ForkExamples.

(* a[1] >= a[0] *)
Definition large : expr := Binary Eq (Constant (BV 1 0)) small.

Lemma large_wt : wt large.
Proof. pose proof small_wt. cbn in *. by split_and!. Qed.

Lemma branch_splits_solutions_witness :
  exists x', branch false true true true default_options fork_guesses 1 [small; large] one_executor =
    Ok ([Some 1; Some 2]%positive, x') /\
  exec_ok false (fun _ => True) x' /\ running x' 2 /\ took false [five] x' (Some 2%positive) large.
Proof.
  destruct (branch_splits_solutions false true true true default_options fork_guesses (fun _ => True)
    one_executor 1 one_state [small; large]) as (result & x' & E & H & _ & _ & Hr & Ht & _).
  - exact one_executor_ok.
  - reflexivity.
  - by intros ?%elem_of_nil.
  - reflexivity.
  - done.
  - intros c [-> | ->%list_elem_of_singleton]%elem_of_cons; (split; [|]).
    + exact small_query.
    + exists five_one. split; [by constructor|reflexivity].
    + apply five_query; [done|done|exact large_wt|done|intros ρ; by eexists].
    + exists fives. split; [by constructor|reflexivity].
  - assert ((let* p := branch false true true true default_options fork_guesses 1 [small; large] one_executor in Ok (fst p)) =
      Ok [Some 1; Some 2]%positive) as E1 by (vm_compute; reflexivity).
    rewrite E in E1. cbn [res_bind fst] in E1. injection E1 as ->. exists x'. split; [exact E|]. split; [exact H|].
    split; [apply (Hr 2%positive); right; by left|]. by apply Forall2_cons_1 in Ht as [_ [Ht _]%Forall2_cons_1].
Defined.
End BranchExamples.
