(* ===== verification/ExecutorMemory.v ===== *)
(** Accesses to memory: [executeMemoryOperation], [resolveExact] and
    [terminateStateOnError] of klee/lib/Core/Executor.cpp.

    The functions that touch object states run over the executor and the
    [Memory]: the heap of object states, which the states share, and the world
    of arrays.  Array optimisation and the replacement of concrete reads by
    symbolic ones are off, as by default.  Of the text of an error message only
    the questions to the solver are kept. *)
From Stdlib Require Import ZArith Lia Bool String.
From stdpp Require Import base list numbers option gmap sets strings.
From S2P Require Import Prelude APInt Expr ExprCreate ExprSem ExprCreateCorrect Solver Constraints TimingSolver ArrayCache ObjectState ImmutableTree MemoryObject AddressSpace ExecutionState SeedInfo Executor ExecutorInv ExecutorFork ExecutorValues ExecutorBranch.
Open Scope Z_scope.

Section errors.
Context {A : APInt} {AR : Arrays} {F : Functions}.
Context (ConstArrayOpt simplifyExprs UseVisitorHash : bool) (o : Options).
Context {S : Type} (solver : SolverImpl S).
(* kf->function, the function of an instruction, and kmodule->internalFunctions *)
Context (function : positive -> positive) (parent : Z -> positive) (internalFunctions : gset positive).

Notation exec := (exec (S:=S)).

(* the loop over the frames but the outermost; None is a null pointer *)
Fixpoint unwind (frames : list StackFrame) (ii : option Z) : option Z :=
  match frames with
  | f :: (_ :: _) as frames' =>
      unwind frames'
        (if bool_decide (parent (caller f) ∈ internalFunctions) then None
         else match ii with Some i => Some i | None => Some (caller f) end)
  | _ => ii
  end.

(* the instruction *)
Definition getLastNonKleeInternalInstruction (s : ExecutionState) : res Z :=
  match stack s with
  | [] => AssertFail
  | f :: _ =>
      let ii := if bool_decide (function (kf f) ∈ internalFunctions) then None else Some (prevPC s) in
      Ok (match unwind (stack s) ii with Some i => i | None => prevPC s end)
  end.

Definition shouldExitOn (r : TerminateReason) : bool := bool_decide (r ∈ ExitOnErrorType o).

Definition terminateStateOnError (es : positive) (message : string) (reason : TerminateReason) : exec unit :=
  do* s := state_at es in
  do* lastInst := slift (getLastNonKleeInternalInstruction s) in
  do* errors := get emittedErrors in
  let inserted := negb (EmitAllErrors o) && bool_decide ((lastInst, message) ∉ errors) in
  do* _ := (if EmitAllErrors o then sret tt
            else modify (fun x => set_errors ({[(lastInst, message)]} ∪ errors) (haltExecution x) x)) in
  do* _ := (if EmitAllErrors o || inserted then modify (fun x => set_output (TestError es :: testCases x) (pathsExplored x) x)
            else sret tt) in
  do* _ := terminateState es in
  if shouldExitOn reason then modify (fun x => set_errors (emittedErrors x) true x) else sret tt.

(* the questions of getAddressInfo *)
Definition getAddressInfo (es : positive) (address : expr) : exec unit :=
  match address with
  | Constant CE => do* _ := slift (getZExtValue CE 64) in sret tt
  | _ =>
      do* value := ask es (fun cs => must_succeed (ts_getValue (simplifyExpr ConstArrayOpt UseVisitorHash) solver simplifyExprs cs address)) in
      do* _ := slift (getZExtValue value 64) in
      do* _ := ask es (fun cs => ts_getRange ConstArrayOpt solver cs address) in
      sret tt
  end.

End errors.

(** What executeMemoryOperation is asked to do: to read a value of a width into
    a register, or to write one. *)
Inductive Access `{A : APInt} : Type :=
| Load (type : Z) (target : nat)
| Store (value : expr).

Definition access_type `{A : APInt} {AR : Arrays} (a : Access) : Z :=
  match a with Load type _ => type | Store value => getWidth value end.

Definition getMinBytesForWidth (w : Z) : Z := wrap 32 (w + 7) / 8.

Section memory.
Context {A : APInt} {AR : Arrays} {F : Functions}.
Context (ConstArrayOpt UseVisitorHash RewriteEqualities simplifyExprs : bool) (o : Options).
Context {S : Type} (solver : SolverImpl S).
Context (function : positive -> positive) (parent : Z -> positive) (internalFunctions : gset positive).
Context (PointerWidth : Z) (isLittleEndian : bool) (timed_out : state S bool).
Context (new_array : nat -> array -> positive) (utostr : Z -> string).

Notation simplify := (simplifyExpr ConstArrayOpt UseVisitorHash).
Notation exec := (exec (S:=S)).
Notation fork := (fork ConstArrayOpt UseVisitorHash RewriteEqualities simplifyExprs o solver).
Notation toConstant := (toConstant ConstArrayOpt UseVisitorHash RewriteEqualities simplifyExprs solver).
Notation error := (terminateStateOnError o function parent internalFunctions).
Notation info := (getAddressInfo ConstArrayOpt simplifyExprs UseVisitorHash solver).

(** ** [resolveExact] *)

Fixpoint exact_loop (rl : ResolutionList) (p : expr) (unbound : positive) (results : list (ObjectPair * positive)) :
    exec (option positive * list (ObjectPair * positive)) :=
  match rl with
  | [] => sret (Some unbound, results)
  | it :: rl' =>
      do* inBounds := slift (let* base := getBaseExpr PointerWidth (fst it) in BinaryExpr_create ConstArrayOpt Eq p base) in
      do* branches := fork unbound inBounds true in
      let results := match fst branches with Some bound => results ++ [(it, bound)] | None => results end in
      match snd branches with
      | None => sret (None, results)
      | Some u => exact_loop rl' p u results
      end
  end.

Definition resolveExact (es : positive) (p : expr) (name : string) : exec (list (ObjectPair * positive)) :=
  do* s := state_at es in
  do* r := ask es (fun cs =>
    resolve ConstArrayOpt PointerWidth simplify solver simplifyExprs (sret false) cs (addressSpace s) p [] 0) in
  do* p' := exact_loop (fst r) p es [] in
  match fst p' with
  | Some unbound =>
      do* _ := info unbound p in
      do* _ := error unbound ("memory error: invalid pointer: " ++ name) Ptr in
      sret (snd p')
  | None => sret (snd p')
  end.

(** ** [executeMemoryOperation] *)

Record Memory : Type := MkMemory { mem_heap : heap; mem_world : World }.
Definition mem_exec (T : Type) : Type := state (Executor (S:=S) * Memory) T.

(* a function of the address space of a state *)
Definition in_space {T} (es : positive) (m : space_state T) : mem_exec T := fun c =>
  let '(x, mm) := c in
  let* s := state_at es x in
  let* r := m (addressSpace (fst s), mem_heap mm) in
  let '(v, (a, h)) := r in
  Ok (v, (set_pool (<[es := set_space a (fst s)]> (pool x)) x, MkMemory h (mem_world mm))).

(* a function of an object state *)
Definition on_object {T} (os : os_ref) (m : prog T) : mem_exec T := fun c =>
  let '(x, mm) := c in
  let* ob := deref os (mem_heap mm) in
  let* r := m (ob, mem_world mm) in
  let '(v, (ob', w)) := r in
  Ok (v, (x, MkMemory (<[os := ob']> (mem_heap mm)) w)).

Definition object_readOnly (os : os_ref) : mem_exec bool := fun c =>
  let* ob := deref os (mem_heap (snd c)) in Ok (readOnly ob, c).

(* the access to an object that is in bounds *)
Definition access_object (es : positive) (op : ObjectPair) (offset : res expr) (acc : Access) : mem_exec unit :=
  let '(mo, os) := op in
  match acc with
  | Store value =>
      do* ro := object_readOnly os in
      if ro : bool then on_fst (error es "memory error: object read only" ReadOnly)
      else
        do* wos := in_space es (getWriteable mo os) in
        do* offset := slift offset in
        on_object wos (write_at ConstArrayOpt isLittleEndian offset value)
  | Load type target =>
      do* offset := slift offset in
      do* result := on_object os (read_at ConstArrayOpt isLittleEndian new_array utostr offset type) in
      on_fst (bindLocal target es result)
  end.

(* the loop over the objects the pointer may point to; the state left over *)
Fixpoint access_loop (rl : ResolutionList) (address : expr) (bytes : Z) (acc : Access) (unbound : positive) : mem_exec (option positive) :=
  match rl with
  | [] => sret (Some unbound)
  | op :: rl' =>
      do* inBounds := slift (getBoundsCheckPointer_bytes ConstArrayOpt PointerWidth (fst op) address bytes) in
      do* branches := on_fst (fork unbound inBounds true) in
      do* _ := (match fst branches with
                | Some bound => access_object bound op (getOffsetExpr ConstArrayOpt PointerWidth (fst op) address) acc
                | None => sret tt
                end) in
      match snd branches with
      | None => sret None
      | Some u => access_loop rl' address bytes acc u
      end
  end.

(* the path of no resolution, of several, or of one that may be out of bounds *)
Definition access_slow (es : positive) (address : expr) (bytes : Z) (acc : Access) : mem_exec unit :=
  do* s := on_fst (state_at es) in
  do* r := on_fst (ask es (fun cs =>
    resolve ConstArrayOpt PointerWidth simplify solver simplifyExprs timed_out cs (addressSpace s) address [] 0)) in
  do* unbound := access_loop (fst r) address bytes acc es in
  match unbound with
  | None => sret tt
  | Some u =>
      if snd r : bool then on_fst (terminateStateEarly o u)
      else
        do* _ := on_fst (info u address) in
        on_fst (error u "memory error: out of bound pointer" Ptr)
  end.

(* if (SimplifySymIndices) *)
Definition simplify_index (cs : list expr) (e : expr) : res expr :=
  if SimplifySymIndices o && negb (isConstant e) then simplify cs e else Ok e.
Definition simplify_access (cs : list expr) (acc : Access) : res Access :=
  match acc with
  | Store value => let* v := simplify_index cs value in Ok (Store v)
  | Load type target => Ok acc
  end.

(* the address, a constant if the solver failed, and the object found *)
Definition resolve_address (es : positive) (address : expr) : exec (expr * option ObjectPair) :=
  do* s := state_at es in
  do* r := ask es (fun cs => resolveOne ConstArrayOpt PointerWidth simplify solver simplifyExprs cs (addressSpace s) address) in
  match r with
  | Some op => sret (address, op)
  | None =>
      do* c := toConstant es address in
      do* s := state_at es in
      do* op := slift (resolveOne_constant (addressSpace s) c) in
      sret (Constant c, op)
  end.

(* if (MaxSymArraySize && mo->size >= MaxSymArraySize) *)
Definition limit_address (es : positive) (mo : MemoryObject) (address : expr) : exec expr :=
  if negb (MaxSymArraySize o =? 0) && (MaxSymArraySize o <=? mo_size mo) then
    do* c := toConstant es address in sret (Constant c)
  else sret address.

(* solver->mustBeTrue(state, check, inBounds) *)
Definition check_bounds (es : positive) (mo : MemoryObject) (offset : expr) (bytes : Z) : exec (option bool) :=
  do* check := slift (getBoundsCheckOffset_bytes ConstArrayOpt PointerWidth mo offset bytes) in
  ask es (fun cs => ts_mustBeTrue simplify solver simplifyExprs cs check).

Definition end_early (es : positive) : exec unit :=
  do* s := state_at es in
  do* _ := put_state es (set_pc (prevPC s) s) in
  terminateStateEarly o es.

Definition executeMemoryOperation (es : positive) (acc : Access) (address : expr) : mem_exec unit :=
  let bytes := getMinBytesForWidth (access_type acc) in
  do* s := on_fst (state_at es) in
  do* address := slift (simplify_index (constraints s) address) in
  do* acc := slift (simplify_access (constraints s) acc) in
  do* r := on_fst (resolve_address es address) in
  let '(address, op) := r in
  match op with
  | None => access_slow es address bytes acc
  | Some op =>
      do* address := on_fst (limit_address es (fst op) address) in
      do* offset := slift (getOffsetExpr ConstArrayOpt PointerWidth (fst op) address) in
      do* inBounds := on_fst (check_bounds es (fst op) offset bytes) in
      match inBounds with
      | None => on_fst (end_early es)
      | Some true => access_object es op (Ok offset) acc
      | Some false => access_slow es address bytes acc
      end
  end.

End memory.
