(* ===== verification/ExecutorAccess.v ===== *)
(** Accesses that are in bounds: [executeMemoryOperation] on a pointer that is,
    in every solution of the path constraints, in bounds of one object. *)
From Stdlib Require Import ZArith Lia Bool String Sorting.Sorted.
From stdpp Require Import base list numbers option gmap sets strings.
From S2P Require Import Prelude APInt Expr ExprCreate ExprSem ExprCreateCorrect ExprFactory Replace Solver Constraints TimingSolver BitArray ArrayCache ObjectState ObjectStateInv ObjectStateCorrect ObjectStateSpec ImmutableTree MemoryObject AddressSpace AddressSpaceResolve AddressSpaceCow ExecutionState SeedInfo Executor ExecutorInv ExecutorFork ExecutorValues ExecutorBranch ExecutorMemory.
Open Scope Z_scope.

(** ** Objects of an address space *)

Lemma find_object W a op : laid_out W (objects a) -> op ∈ elements (objects a) -> findObject (fst op) a = Some (snd op).
Proof.
  intros Hl Hop. unfold findObject, ImmutableMap.lookup. pose proof (lo_wf W _ Hl) as [_ Hb].
  pose proof (lookup_ok ImmutableMap.Select1st mo_lt (fst op) (objects a) Hb) as H.
  destruct (lookup _ _ _ _) as [x|].
  - destruct H as (Hx & Hk & _). cbn. f_equal.
    destruct (sorted_pair apart _ x op (lo_apart W _ Hl) Hx Hop) as [->|[Ha|Ha]]; [done| |]; exfalso; destruct Ha as [Ha _];
      unfold same_key, below, above, mo_lt, ImmutableMap.Select1st in Hk; apply andb_prop in Hk as [H1 H2]; tidy_bools; lia.
  - exfalso. rewrite H in Hop. apply elem_of_app in Hop as [Hop|Hop]; apply elem_of_filter_bool in Hop as [_ Hop];
      unfold below, above, mo_lt, ImmutableMap.Select1st in Hop; tidy_bools; lia.
Qed.

Lemma range_in_object_in mo v bytes : 0 < bytes -> range_in_object mo v bytes = true -> in_object mo v = true.
Proof.
  unfold range_in_object, in_object. intros Hb H. apply andb_prop in H as [H1 H2]. tidy_bools.
  destruct (Z.eqb_spec (mo_size mo) 0); [apply Z.eqb_eq; lia|]. apply andb_true_iff. rewrite Z.leb_le, Z.ltb_lt. lia.
Qed.

Lemma min_bytes w : access_width w -> w + 7 < 2 ^ 32 -> getMinBytesForWidth w = access_bytes w /\ 0 < access_bytes w < 2 ^ 32.
Proof.
  intros Hw Hb. unfold getMinBytesForWidth. destruct (access_cases w Hw) as [[-> E]|(Hp & E & _)].
  - rewrite E. by split.
  - rewrite wrap_small by lia. split; [|lia]. rewrite E at 1. symmetry. apply (Z.div_unique _ _ _ 7); lia.
Qed.

Section bounds.
Context {A : APInt} {L : APIntLaws A} {AR : Arrays} {F : Functions}.
Context (checked hash : bool) {SC : Scope false checked} {RS : RewriteScope false checked}.
Context (W : Z) (HW : 0 < W <= 64).

(** The offset of a pointer, and the check of its bytes. *)
Lemma offset_check_ok cs mo p bytes :
  placed W mo -> query_ok checked (MkQuery cs p) -> getWidth p = W -> 0 < bytes < 2 ^ 32 ->
  exists off chk, getOffsetExpr false W mo p = Ok off /\ wt off /\ getWidth off = W /\
    (forall ρ v, denote checked ρ p = Some v -> denote checked ρ off = Some (wrap W (v - mo_address mo))) /\
    getBoundsCheckOffset_bytes false W mo off bytes = Ok chk /\ bool_query checked (MkQuery cs chk) /\
    forall ρ v, denote checked ρ p = Some v -> denote checked ρ chk = Some (Z.b2z (range_in_object mo v bytes)).
Proof.
  intros Hpl [(Hcs & Hp & Hd & Hcg & Hg) Hsat] HpW Hb. cbn [Solver.constraints query_expr] in *.
  destruct (getBoundsCheckPointer_bytes_ok false checked ltac:(done) W HW mo p bytes Hpl Hp HpW Hb) as (chk & E & Hc & Hcw & Hcd).
  destruct (getOffsetExpr_ok false checked ltac:(done) W HW mo p Hpl Hp HpW) as (off & Eo & Ho & How & Hod).
  unfold getBoundsCheckPointer_bytes in E. rewrite Eo in E. cbn [res_bind] in E.
  assert (forall ρ v, denote checked ρ p = Some v -> denote checked ρ off = Some (wrap W (v - mo_address mo))) as Hod'.
  { intros ρ v Hv. apply Hod. by rewrite Hv. }
  assert (forall ρ v, denote checked ρ p = Some v -> denote checked ρ chk = Some (Z.b2z (range_in_object mo v bytes))) as Hcd'.
  { intros ρ v Hv. apply Hcd. by rewrite Hv. }
  pose proof Hpl as (Ha & Hs & Hs' & Hba & _).
  assert (good off) as Hgo.
  { unfold getOffsetExpr, getBaseExpr in Eo. destruct (pointer_const checked W HW (mo_address mo)) as (Ec & _); [lia|].
    rewrite Ec in Eo. cbn [res_bind] in Eo.
    eapply (good_create p Sub _ off (fun v => wrap W (v - mo_address mo))); [exact Hg|done|exact Eo|exact Hod']. }
  exists off, chk. split_and!; try done. split; [|exact Hcw]. split; [|done]. split; [done|]. split; [done|]. split; [|split; [done|]].
  - intros ρ Hρ. destruct (Hd ρ Hρ) as [v Hv]. eexists. by apply Hcd'.
  - cbn [query_expr]. unfold getBoundsCheckOffset_bytes in E. destruct (Z.leb_spec bytes (mo_size mo)).
    + destruct (pointer_binary false checked ltac:(done) W HW Ult off (wrap 32 (mo_size mo - bytes + 1)) 1) as (e' & E' & _ & _ & Hd1); [done|done| |done|done|].
      { rewrite wrap_small by lia. assert (mo_size mo - bytes + 1 <= mo_size mo) by lia. lia. }
      rewrite E in E'. injection E' as <-.
      eapply (good_create off Ult _ chk); [exact Hgo|done|exact E|]. intros ρ v Hv. apply Hd1. by rewrite Hv.
    + injection E as <-. apply good_false.
Qed.

End bounds.

(** ** Contents at an offset *)
Section contents.
Context {A : APInt} {AR : Arrays}.

Lemma set_word_offset le N o o' v c ρ j : o ρ = o' ρ -> set_word le N o v c ρ j = set_word le N o' v c ρ j.
Proof.
  intros E. unfold set_word. generalize (Z.to_nat N) as n. intros n. revert j.
  induction n as [|n IH]; intros j; [done|]. cbn [set_bytes]. unfold set_byte, shifted. rewrite E.
  destruct (o' ρ) as [b|]; [|done]. cbn. destruct (_ =? j); [done|apply IH].
Qed.

Definition at_offset (mo : MemoryObject) (v : Z) : env -> option Z := fun _ => Some (v - mo_address mo).

End contents.

Section access.
Context {A : APInt} {L : APIntLaws A} {AR : Arrays} {F : Functions}.
Context (checked : bool).
Context {S : Type}.
Context (isLittleEndian : bool).
Context (new_array : nat -> array -> positive) (utostr : Z -> string) (Hnew : forall n a, arrayAt (new_array n a) = a).

Notation Executor := (Executor (S:=S)).

(** ** The memory of the states that run *)

Record memory_ok (x : Executor) (m : Memory) : Prop := {
  mm_world : world_ok (mem_world m);
  (* their address spaces are those of a system that copies on write *)
  mm_system : exists ss idx, sys_ok (ss, mem_heap m) /\
    (forall es s, running x es -> pool x !! es = Some s -> ss !! idx es = Some (addressSpace s)) /\
    forall e e', running x e -> running x e' -> idx e = idx e' -> e = e' :> positive;
}.

(** What the states show is unchanged, but for [es]. *)
Definition undisturbed_others (x : Executor) (es : positive) (h h' : heap) : Prop :=
  forall e u mo c, e <> es -> running x e -> pool x !! e = Some u ->
    shows checked (addressSpace u) h mo c -> shows checked (addressSpace u) h' mo c.

Lemma memory_ok_weaken x x' m :
  memory_ok x m -> (forall e, running x' e -> running x e) ->
  (forall e s s', running x' e -> pool x !! e = Some s -> pool x' !! e = Some s' -> addressSpace s' = addressSpace s) -> memory_ok x' m.
Proof.
  intros [Hw (ss & idx & Hok & Hs & Hi)] Hrun Hsp. split; [done|]. exists ss, idx. split; [done|]. split; [|by auto].
  intros es s' Hr Hs'. pose proof (Hrun es Hr) as Hr0. pose proof Hr0 as [[s Hes] _]. rewrite (Hsp es s s'); auto.
Qed.

(** The object state a state binds to an object. *)
Record bound_object (s : ExecutionState) (m : Memory) (op : ObjectPair) (ob : ObjectState) : Prop := {
  bo_find : findObject (fst op) (addressSpace s) = Some (snd op);
  bo_state : mem_heap m !! snd op = Some ob;
  bo_size : os_size ob = mo_size (fst op);
}.

Lemma bound_view s m op ob : bound_object s m op ob -> view (addressSpace s) (mem_heap m) (fst op) = Some ob.
Proof. intros [E1 E2 _]. unfold view. by rewrite E1. Qed.

Lemma bound_shows s m op ob c : bound_object s m op ob -> shows checked (addressSpace s) (mem_heap m) (fst op) c <-> represents checked c ob.
Proof. intros H%bound_view. unfold shows. rewrite H. split; [by intros (? & [= <-] & ?)|by exists ob]. Qed.

(** *** Reading *)

Lemma load_ok x m es s op ob c0 off type :
  memory_ok x m -> running x es -> pool x !! es = Some s -> bound_object s m op ob -> represents checked c0 ob ->
  access_ok (mo_size (fst op)) type off ->
  exists e ob' w, let m' := MkMemory (<[snd op := ob']> (mem_heap m)) w in
    on_object (snd op) (read_at false isLittleEndian new_array utostr off type) (x, m) = Ok (Some e, (x, m')) /\
    memory_ok x m' /\ wt e /\ getWidth e = type /\
    (forall a mo c, shows checked a (mem_heap m) mo c -> shows checked a (mem_heap m') mo c) /\
    forall c ρ v, shows checked (addressSpace s) (mem_heap m) (fst op) c ->
      word_at isLittleEndian (mo_size (fst op)) (access_bytes type) (offset32 checked off) c ρ = Some v ->
      denote checked ρ e = Some (wrap type v).
Proof.
  intros [Hw (ss & idx & Hok & Hsp & Hinj)] Hr Hs Hb Hc0 (Haw & Hbnd & Hoff). pose proof Hb as [Hf Ho Hsz].
  assert (size_ok (os_size ob)) as Hso by exact (shape_size _ (rep_shape _ _ _ Hc0)).
  set (fr := frame ob). assert (frame_size fr = mo_size (fst op)) as Efr by exact Hsz.
  pose proof (access_bytes_bound type Haw Hbnd) as HN.
  assert (forall c, represents checked c ob -> triple (Inv checked c fr) (read_at false isLittleEndian new_array utostr off type)
    (fun r s => Inv checked c fr s /\ exists e, r = Some e /\ read_result checked isLittleEndian (frame_size fr) type (offset32 checked off) c e)) as Hread.
  { intros c _. apply (read_at_ok false checked ltac:(done) isLittleEndian new_array utostr Hnew c fr off type); [by rewrite Efr, <- Hsz|done|lia|by rewrite Efr]. }
  assert (forall c, represents checked c ob -> Inv checked c fr (ob, mem_world m)) as Hinv by (intros c Hc; by split_and!).
  destruct (Hread c0 Hc0 (ob, mem_world m) (Hinv c0 Hc0)) as (r & [ob' w] & E & (Hr0 & Hfr & Hw') & e & -> & He & Hew & Hed).
  cbn [fst snd] in *. exists e, ob', w. cbn zeta.
  assert (forall c, represents checked c ob -> represents checked c ob' /\ read_result checked isLittleEndian (mo_size (fst op)) type (offset32 checked off) c e) as Hall.
  { intros c Hc. destruct (Hread c Hc (ob, mem_world m) (Hinv c Hc)) as (r & s' & E' & (Hr' & _) & e' & -> & He').
    rewrite E in E'. injection E' as <- <-. cbn in Hr'. split; [done|]. by rewrite Efr in He'. }
  pose proof (Hsp es s Hr Hs) as Hi.
  assert (forall a mo c, shows checked a (mem_heap m) mo c -> shows checked a (<[snd op := ob']> (mem_heap m)) mo c) as Hkeep.
  { intros a mo c (oo & Hoo & Hcc). unfold shows, view in *. destruct (findObject mo a) as [q|]; [|done]. cbn in *.
    destruct (decide (q = snd op)) as [->|Hne].
    - rewrite lookup_insert_eq. exists ob'. split; [done|]. rewrite Ho in Hoo. injection Hoo as ->. by apply Hall.
    - rewrite lookup_insert_ne by done. by exists oo. }
  split_and!; try done.
  - unfold on_object. unfold deref. rewrite Ho. cbn [res_bind]. by rewrite E.
  - split; [done|]. exists ss, idx. split; [|by split]. cbn. eapply (space_read_ok ss (mem_heap m)); [done|exact Hi|done|done| |done].
    exact (rep_shape _ _ _ Hr0).
  - intros c ρ v Hc Hv. rewrite (bound_shows s m op ob c Hb) in Hc. destruct (Hall c Hc) as [_ (_ & _ & Hd)]. by apply Hd.
Qed.

(** *** Writing *)

Lemma store_ok x m es s op ob c0 off value :
  memory_ok x m -> running x es -> pool x !! es = Some s -> bound_object s m op ob -> represents checked c0 ob ->
  readOnly ob = false -> wt value -> access_ok (mo_size (fst op)) (getWidth value) off ->
  exists wos a h w m', let x' := set_pool (<[es := set_space a s]> (pool x)) x in
    in_space es (getWriteable (fst op) (snd op)) (x, m) = Ok (wos, (x', MkMemory h (mem_world m))) /\
    on_object wos (write_at false isLittleEndian off value) (x', MkMemory h (mem_world m)) = Ok (tt, (x', m')) /\
    m' = MkMemory (<[wos := w]> h) (mem_world m') /\
    memory_ok x' m' /\ undisturbed_others x es (mem_heap m) (mem_heap m') /\
    (forall c, shows checked (addressSpace s) (mem_heap m) (fst op) c ->
       shows checked a (mem_heap m') (fst op) (written checked isLittleEndian (getWidth value) (offset32 checked off) value c)) /\
    (forall mo c, mo_address (fst op) <> mo_address mo -> shows checked (addressSpace s) (mem_heap m) mo c -> shows checked a (mem_heap m') mo c).
Proof.
  intros [Hw (ss & idx & Hok & Hsp & Hinj)] Hr Hs Hb Hc0 Hro Hv (Haw & Hbnd & Hoff). pose proof Hb as [Hf Ho Hsz].
  pose proof (Hsp es s Hr Hs) as Hi.
  destruct (getWriteable_ok ss (mem_heap m) (idx es) (addressSpace s) (fst op) (snd op) ob Hok Hi Hf Ho Hro) as (wos & a & h & E & Hwr & _).
  set (ob1 := set_owner (cowKey (addressSpace s)) ob).
  assert (forall c, represents checked c ob -> represents checked c ob1) as Hrep1 by (intros c Hc; by apply represents_set_owner).
  assert (size_ok (os_size ob)) as Hso by exact (shape_size _ (rep_shape _ _ _ Hc0)).
  set (fr := frame ob1). assert (frame_size fr = mo_size (fst op)) as Efr by exact Hsz.
  pose proof (access_bytes_bound _ Haw Hbnd) as HN.
  assert (forall c, triple (Inv checked c fr) (write_at false isLittleEndian off value)
    (fun _ s => Inv checked (written checked isLittleEndian (getWidth value) (offset32 checked off) value c) fr s)) as Hwrite.
  { intros c. apply (write_at_ok false checked ltac:(done) isLittleEndian c fr off value); [by rewrite Efr, <- Hsz|done|done|lia|by rewrite Efr]. }
  assert (forall c, represents checked c ob -> Inv checked c fr (ob1, mem_world m)) as Hinv by (intros c Hc; split_and!; auto).
  destruct (Hwrite c0 (ob1, mem_world m) (Hinv c0 Hc0)) as ([] & [w w'] & E2 & (Hr2 & Hfr2 & Hw2)). cbn [fst snd] in *.
  assert (forall c, represents checked c ob -> represents checked (written checked isLittleEndian (getWidth value) (offset32 checked off) value c) w) as Hall.
  { intros c Hc. destruct (Hwrite c (ob1, mem_world m) (Hinv c Hc)) as ([] & s' & E' & (Hr' & _)). rewrite E2 in E'. injection E' as <-. exact Hr'. }
  assert (copyOnWriteOwner w = cowKey (addressSpace s)) as Hown by (injection Hfr2 as Hown _ _; exact Hown).
  destruct (space_write_ok ss (mem_heap m) (idx es) (addressSpace s) (fst op) (snd op) ob wos a h w Hok Hi Hf Ho Hwr
    (rep_shape _ _ _ Hr2) Hown) as (Hok' & Hview & Hviews & Hothers).
  exists wos, a, h, w, (MkMemory (<[wos := w]> h) w'). cbn zeta.
  assert (forall e, running (set_pool (<[es := set_space a s]> (pool x)) x) e -> running x e) as Hrun.
  { intros e [[u Hu] Hre]. split; [|exact Hre]. cbn in Hu. destruct (decide (es = e)) as [<-|]; [by eexists|].
    rewrite lookup_insert_ne in Hu by done. by eexists. }
  split_and!; try done.
  - unfold in_space, state_at. rewrite Hs. cbn [res_bind fst snd]. by rewrite E.
  - unfold on_object, deref. cbn [mem_heap mem_world]. rewrite (wr_state _ _ _ _ _ _ _ _ _ Hwr). cbn [res_bind]. fold ob1. by rewrite E2.
  - split; [done|]. exists (<[idx es := a]> ss), idx. split; [done|]. split; [|by auto].
    intros e u He Hu. cbn in Hu. destruct (decide (es = e)) as [<-|Hne].
    + rewrite lookup_insert_eq in Hu. injection Hu as <-. rewrite list_lookup_insert_eq by (by eapply lookup_lt_Some). done.
    + rewrite lookup_insert_ne in Hu by done. rewrite list_lookup_insert_ne; [by apply Hsp; [apply Hrun|]|].
      intros Eidx. apply Hne, Hinj; [exact Hr|by apply Hrun|done].
  - intros e u mo c Hne He Hu (oo & Hoo & Hcc). exists oo. split; [|done]. cbn. rewrite <- Hoo. apply (Hothers (idx e)); [|by apply Hsp].
    intros Eidx. apply Hne. symmetry. by apply Hinj.
  - intros c Hc. exists w. split; [exact Hview|]. apply Hall. by rewrite <- (bound_shows s m op ob c Hb).
  - intros mo c Hne (oo & Hoo & Hcc). exists oo. split; [|done]. cbn. by rewrite Hviews.
Qed.

End access.

(** ** The fast path *)
Section path.
Context {A : APInt} {L : APIntLaws A} {AR : Arrays} {F : Functions}.
Context (checked hash rewrite simplifyExprs : bool) {SC : Scope false checked} {RS : RewriteScope false checked}.
Context (o : Options).
Context {S : Type} (solver : SolverImpl S) (Inv : S -> Prop) {HS : SolverContract checked solver Inv}.
Context (W : Z) (HW : 0 < W <= 64).

Notation Executor := (Executor (S:=S)).
Notation exec_ok := (exec_ok checked Inv).
Notation changes := (changes Inv).
Notation unanswered := (unanswered checked hash simplifyExprs solver Inv).
Notation toConstant := (toConstant false hash rewrite simplifyExprs solver).

(** The state [s], whose address [p] is replaced by [p1]: a constant, and then
    its constraints may be narrowed to it, or [p]. *)
Record staged (x : Executor) (es : positive) (s : ExecutionState) (p : expr) (s1 : ExecutionState) (sv : S) (p1 : expr) : Prop := {
  st_ok : exec_ok (touched es s1 sv x);
  st_changes : changes es x (touched es s1 sv x);
  st_con : constrained s s1;
  st_query : query_ok checked (MkQuery (constraints s1) p1);
  st_width : getWidth p1 = getWidth p;
  st_back ρ : none_false checked ρ (constraints s1) -> none_false checked ρ (constraints s);
  st_value ρ v : sat checked ρ (constraints s1) -> denote checked ρ p = Some v -> denote checked ρ p1 = Some v;
  st_feasible v : feasible checked (MkQuery (constraints s1) p1) v -> feasible checked (MkQuery (constraints s) p) v;
  st_same : constraints s1 = constraints s /\ p1 = p \/ isConstant p1 = true;
}.

Lemma constrained_refl s : constrained s s.
Proof. exists (constraints s), (updated s). by destruct s. Qed.

Lemma constrained_trans a b c : constrained a b -> constrained b c -> constrained a c.
Proof. intros (cs & u & ->) (cs' & u' & ->). by exists cs', u'. Qed.

Lemma staged_same x es s p sv :
  exec_ok x -> pool x !! es = Some s -> query_ok checked (MkQuery (constraints s) p) -> Inv sv -> staged x es s p s sv p.
Proof.
  intros H Hs Hq Hi. destruct (touched_ok checked Inv x es s s sv H Hs (constrained_refl s) (ex_states _ _ x H es s Hs) Hi) as [H1 Hc1].
  split; try done; [apply constrained_refl|by left].
Qed.

(** A question changes the state of the solver only. *)
Lemma staged_solver x es s p s1 sv p1 sv' : pool x !! es = Some s -> Inv sv' -> staged x es s p s1 sv p1 -> staged x es s p s1 sv' p1.
Proof.
  intros Hs Hi [H1 H2 H3 H4 H5 H6 H7 H8 H9]. split; try done.
  - destruct H1. by split.
  - destruct H2 as [C1 C2 C3 C4 C5]. by split.
Qed.

Lemma staged_constant x es s p s1 sv p1 :
  pool x !! es = Some s -> seedMap x !! es = None -> staged x es s p s1 sv p1 ->
  (toConstant es p1 (touched es s1 sv x) = AssertFail /\ unanswered) \/
  exists c s2 sv2, toConstant es p1 (touched es s1 sv x) = Ok (c, touched es s2 sv2 x) /\ staged x es s p s2 sv2 (Constant c).
Proof.
  intros Hs Hseed Hst. pose proof Hst as [H1 H2 H3 H4 H5 H6 H7 H8 H9]. destruct (isConstant p1) eqn:Ec.
  { destruct p1 as [c| | | | | | | |]; try done. right. exists c, s1, sv. split; [|done].
    unfold ExecutorValues.toConstant. unfold sbind at 1, state_at at 1. rewrite touched_lookup. reflexivity. }
  destruct H9 as [[Ecs ->]|]; [|congruence].
  destruct (toConstant_ok checked hash rewrite simplifyExprs solver Inv (touched es s1 sv x) es s1 p H1 (touched_lookup x es s1 sv) Hseed H4)
    as [Hf|(c & s2 & sv2 & E & Hok & Hc & Hcon & Hw & Hf & [T1 T2 T3 T4])]; [by left|right].
  rewrite touched_twice in *. exists c, s2, sv2. split; [done|].
  assert (wt (Constant c)) as Hwc by (cbn; rewrite Hw; destruct H4 as [(_ & Hp & _) _]; by apply wt_width_pos).
  split; try done.
  - by etrans.
  - by eapply constrained_trans.
  - destruct T1 as [(Hcs & _ & _ & Hg & _) Hsat]. split; [|done]. split_and!; [done|done| |done|].
    + intros ρ _. by eexists.
    + exact (replace_constant (ReplaceClosed := good_replace) c).
  - intros ρ Hρ. by apply H6, T3.
  - intros ρ v Hρ Hv. cbn. f_equal. symmetry. by apply (T4 ρ).
  - intros v (ρ & _ & Hv). cbn in Hv. injection Hv as <-. by apply H8.
  - by right.
Qed.

(** *** The object *)

Definition safe (s : ExecutionState) (p : expr) (mo : MemoryObject) (bytes : Z) : Prop :=
  forall v, feasible checked (MkQuery (constraints s) p) v -> range_in_object mo v bytes = true.

Lemma ask_run {T} (m : list expr -> state S T) x es s r sv :
  pool x !! es = Some s -> m (constraints s) (solver_state x) = Ok (r, sv) -> ask es m x = Ok (r, touched es s sv x).
Proof.
  intros Hs E. unfold ask, sbind, state_at. rewrite Hs. cbn [res_bind fst snd]. unfold run_solver. rewrite E. cbn [res_bind fst snd].
  unfold touched. cbn. by rewrite insert_id.
Qed.

Lemma resolve_address_ok x es s p op bytes :
  exec_ok x -> pool x !! es = Some s -> seedMap x !! es = None ->
  query_ok checked (MkQuery (constraints s) p) -> getWidth p = W -> laid_out W (objects (addressSpace s)) ->
  op ∈ elements (objects (addressSpace s)) -> 0 < bytes -> safe s p (fst op) bytes ->
  (resolve_address false hash rewrite simplifyExprs solver W es p x = AssertFail /\ unanswered) \/
  exists s1 sv p1, resolve_address false hash rewrite simplifyExprs solver W es p x = Ok ((p1, Some op), touched es s1 sv x) /\
    staged x es s p s1 sv p1.
Proof.
  intros H Hs Hseed Hq HpW Hl Hop Hb Hsafe.
  destruct (resolveOne_ok false checked ltac:(done) W HW _ (simplifyExpr_simplifier checked hash) solver Inv simplifyExprs (constraints s) p Hq HpW
    (objects (addressSpace s)) Hl (addressSpace s) eq_refl (solver_state x) (ex_solver _ _ x H)) as (r & sv & E & Hi & Hr).
  assert (forall op' v, op' ∈ elements (objects (addressSpace s)) -> feasible checked (MkQuery (constraints s) p) v -> in_object (fst op') v = true -> op' = op) as Hu.
  { intros op' v Hop' Hv Hin. apply (in_object_unique W (objects (addressSpace s)) op' op v); try done.
    apply (range_in_object_in _ _ bytes); [done|by apply Hsafe]. }
  assert (exists v, feasible checked (MkQuery (constraints s) p) v) as [v0 Hv0].
  { destruct Hq as [(_ & _ & Hd & _) (ρ & Hρ)]. destruct (Hd ρ Hρ) as [v Hv]. exists v. by exists ρ. }
  pose proof (staged_same x es s p sv H Hs Hq Hi) as Hst.
  unfold resolve_address. rewrite (sbind_ok _ _ x s x) by (unfold state_at; by rewrite Hs).
  pose proof (ask_run (fun cs => resolveOne false W (simplifyExpr false hash) solver simplifyExprs cs (addressSpace s) p) x es s r sv Hs E) as Ea.
  rewrite (sbind_ok _ _ _ _ _ Ea). destruct r as [[op'|]|].
  - destruct Hr as (Hop' & v & Hv & Hin). rewrite (Hu op' v Hop' Hv Hin). right. by exists s, sv, p.
  - exfalso. specialize (Hr op Hop v0 Hv0). cbn in Hr.
    rewrite (range_in_object_in _ _ bytes) in Hr; [done|done|by apply Hsafe].
  - destruct (staged_constant x es s p s sv p Hs Hseed Hst) as [[E2 Hf]|(c & s2 & sv2 & E2 & Hst2)].
    { left. split; [by apply sbind_fail|done]. }
    right. exists s2, sv2, (Constant c). split; [|done]. rewrite (sbind_ok _ _ _ _ _ E2).
    rewrite (sbind_ok _ _ _ s2 (touched es s2 sv2 x)) by (unfold state_at; by rewrite touched_lookup).
    pose proof (st_con _ _ _ _ _ _ _ Hst2) as (cs2 & u2 & ->). cbn [addressSpace set_constraints].
    pose proof (st_width _ _ _ _ _ _ _ Hst2) as Hcw. cbn in Hcw.
    destruct (resolveOne_constant_ok W (addressSpace s) c Hl) as (r & Ec & Hr2); [lia|lia|].
    unfold sbind, slift. rewrite Ec. cbn [res_bind fst snd]. enough (r = Some op) as -> by done.
    assert (feasible checked (MkQuery (constraints s) p) (uval c)) as Hf.
    { apply (st_feasible _ _ _ _ _ _ _ Hst2). pose proof (st_query _ _ _ _ _ _ _ Hst2) as [_ (ρ & Hρ)]. by exists ρ. }
    destruct r as [op'|]; cbn in Hr2; [f_equal; destruct Hr2 as [Ho' Hin']; by apply (Hu op' (uval c))|].
    exfalso. specialize (Hr2 op Hop). rewrite (range_in_object_in _ _ bytes) in Hr2; [done|done|by apply Hsafe].
Qed.

Lemma limit_address_ok x es s p s1 sv p1 mo :
  pool x !! es = Some s -> seedMap x !! es = None -> staged x es s p s1 sv p1 ->
  (limit_address false hash rewrite simplifyExprs o solver es mo p1 (touched es s1 sv x) = AssertFail /\ unanswered) \/
  exists s2 sv2 p2, limit_address false hash rewrite simplifyExprs o solver es mo p1 (touched es s1 sv x) = Ok (p2, touched es s2 sv2 x) /\
    staged x es s p s2 sv2 p2.
Proof.
  intros Hs Hseed Hst. unfold limit_address. destruct (_ && _); [|right; by exists s1, sv, p1].
  destruct (staged_constant x es s p s1 sv p1 Hs Hseed Hst) as [[E Hf]|(c & s2 & sv2 & E & Hst2)].
  - left. split; [by apply sbind_fail|done].
  - right. exists s2, sv2, (Constant c). split; [by rewrite (sbind_ok _ _ _ _ _ E)|done].
Qed.

(** The check succeeds, or the solver fails. *)
Lemma check_bounds_ok x es s p s1 sv p1 mo bytes :
  pool x !! es = Some s -> getWidth p = W -> placed W mo -> 0 < bytes < 2 ^ 32 -> safe s p mo bytes -> staged x es s p s1 sv p1 ->
  exists off r sv2, getOffsetExpr false W mo p1 = Ok off /\ wt off /\ getWidth off = W /\
    (forall ρ v, denote checked ρ p1 = Some v -> denote checked ρ off = Some (wrap W (v - mo_address mo))) /\
    check_bounds false hash simplifyExprs solver W es mo off bytes (touched es s1 sv x) = Ok (r, touched es s1 sv2 x) /\
    staged x es s p s1 sv2 p1 /\ (r = Some true \/ r = None /\ unanswered).
Proof.
  intros Hs HpW Hpl Hb Hsafe Hst. pose proof (st_query _ _ _ _ _ _ _ Hst) as Hq. pose proof (st_ok _ _ _ _ _ _ _ Hst) as Hok.
  destruct (offset_check_ok checked W HW (constraints s1) mo p1 bytes Hpl Hq) as (off & chk & Eo & Ho & How & Hod & Ec & Hcq & Hcd);
    [by rewrite (st_width _ _ _ _ _ _ _ Hst)|done|].
  destruct (ts_mustBeTrue_ok false checked _ (simplifyExpr_simplifier checked hash) solver Inv simplifyExprs (constraints s1) chk Hcq
    (solver_state (touched es s1 sv x)) (ex_solver _ _ _ Hok)) as (r & sv2 & E & Hi & Hr).
  exists off, r, sv2. split_and!; try done.
  - unfold check_bounds. rewrite (sbind_ok _ _ _ chk (touched es s1 sv x)) by (unfold slift; by rewrite Ec).
    rewrite (ask_run _ _ es s1 r sv2 (touched_lookup x es s1 sv) E). by rewrite touched_twice.
  - by apply (staged_solver x es s p s1 sv).
  - destruct r as [[|]|].
    + by left.
    + exfalso. destruct (Hr false eq_refl) as (ρ & Hρ & Hv). cbn in Hρ, Hv. destruct Hq as [(_ & _ & Hd & _) _]. destruct (Hd ρ Hρ) as [v Hpv]. cbn in Hpv.
      rewrite (Hcd ρ v Hpv) in Hv. rewrite Hsafe in Hv; [done|]. apply (st_feasible _ _ _ _ _ _ _ Hst). by exists ρ.
    + right. split; [done|]. exists (constraints s1), chk, (solver_state (touched es s1 sv x)), sv2. split; [exact (ex_solver _ _ _ Hok)|]. split; [apply Hcq|by right].
Qed.

End path.

(** ** The whole operation *)
Section operation.
Context {A : APInt} {L : APIntLaws A} {AR : Arrays} {F : Functions}.
Context (checked hash rewrite simplifyExprs : bool) {SC : Scope false checked} {RS : RewriteScope false checked}.
Context (o : Options).
Context {S : Type} (solver : SolverImpl S) (Inv : S -> Prop) {HS : SolverContract checked solver Inv}.
Context (function : positive -> positive) (parent : Z -> positive) (internalFunctions : gset positive).
Context (W : Z) (HW : 0 < W <= 64) (isLittleEndian : bool) (timed_out : state S bool).
Context (new_array : nat -> array -> positive) (utostr : Z -> string) (Hnew : forall n a, arrayAt (new_array n a) = a).

Notation Executor := (Executor (S:=S)).
Notation exec_ok := (exec_ok checked Inv).
Notation changes := (changes Inv).
Notation unanswered := (unanswered checked hash simplifyExprs solver Inv).
Notation staged := (staged checked Inv).
Notation access_object := (access_object false o function parent internalFunctions isLittleEndian new_array utostr).

(** The access fits the state and the object: a load has a register, a store
    may write. *)
Definition access_fits (s : ExecutionState) (ob : ObjectState) (acc : Access) : Prop :=
  access_width (access_type acc) /\ access_type acc + 7 < 2 ^ 32 /\
  match acc with
  | Load _ target => exists sf st, stack s = sf :: st /\ (target < length (locals sf))%nat
  | Store value => wt value /\ readOnly ob = false
  end.

(** The truncated offset is a constant or no sum of constants, as the
    constructors build it. *)
Definition offset_regular (p : expr) (mo : MemoryObject) : Prop :=
  forall off off32, getOffsetExpr false W mo p = Ok off -> ZExtExpr_create off Int32 = Ok off32 ->
    isConstant off32 = true \/ varying off32 = true.

(** The access took place: [s1] is the state but for what the access writes. *)
Record performed (x : Executor) (m : Memory) (x' : Executor) (m' : Memory) (es : positive) (s : ExecutionState) (p : expr)
    (op : ObjectPair) (acc : Access) (s1 : ExecutionState) : Prop := {
  (* no error, and no test case *)
  pf_tests : testCases x' = testCases x /\ emittedErrors x' = emittedErrors x;
  (* and no state is forked or ends *)
  pf_states e : running x' e <-> running x e;
  pf_con : constrained s s1;
  pf_back ρ : none_false checked ρ (constraints s1) -> none_false checked ρ (constraints s);
  (* the constraints are the same, or the pointer was given one value *)
  pf_same : constraints s1 = constraints s \/
    exists v, forall ρ y, sat checked ρ (constraints s1) -> denote checked ρ p = Some y -> y = v;
  pf_others : undisturbed_others checked x es (mem_heap m) (mem_heap m');
  pf_effect :
    match acc with
    | Load type target => exists sf st e,
        stack s = sf :: st /\ wt e /\ getWidth e = type /\
        pool x' !! es = Some (set_stack (set_locals (<[target := Some e]> (locals sf)) sf :: st) s1) /\
        (* the register has the word at the pointer *)
        (forall c ρ v y, shows checked (addressSpace s) (mem_heap m) (fst op) c ->
           sat checked ρ (constraints s1) -> denote checked ρ p = Some v ->
           word_at isLittleEndian (mo_size (fst op)) (access_bytes type) (at_offset (fst op) v) c ρ = Some y ->
           denote checked ρ e = Some (wrap type y)) /\
        (* and no object has changed *)
        (forall mo c, shows checked (addressSpace s) (mem_heap m) mo c -> shows checked (addressSpace s) (mem_heap m') mo c)
    | Store value => exists a,
        pool x' !! es = Some (set_space a s1) /\
        (* the word at the pointer is written *)
        (forall c, shows checked (addressSpace s) (mem_heap m) (fst op) c ->
           exists c', shows checked a (mem_heap m') (fst op) c' /\
             forall ρ v j, sat checked ρ (constraints s1) -> denote checked ρ p = Some v ->
               c' ρ j = set_word isLittleEndian (access_bytes (getWidth value)) (at_offset (fst op) v)
                 (fun ρ => denote checked ρ value) c ρ j) /\
        (* and no other object has changed *)
        (forall mo c, mo_address (fst op) <> mo_address mo ->
           shows checked (addressSpace s) (mem_heap m) mo c -> shows checked a (mem_heap m') mo c)
    end;
}.

Lemma constant_offset c mo off :
  placed W mo -> getBitWidth c = W -> getOffsetExpr false W mo (Constant c) = Ok off -> isConstant off = true.
Proof.
  intros (Ha & _ & _ & Hb & _) Hc. unfold getOffsetExpr, getBaseExpr. destruct (pointer_const checked W HW (mo_address mo)) as (Ec & Hw & _); [lia|].
  rewrite Ec. cbn [res_bind]. unfold BinaryExpr_create, canonical_create, const_alloc. intros E.
  assert (getBitWidth (ap_make W (mo_address mo)) = getBitWidth c) as Ew by (rewrite Hc; apply make_width; lia).
  assert (0 < getBitWidth c) as Hpos by lia.
  by destruct (fold_sum false _ Sub c _ off (or_intror eq_refl) Hpos Ew E) as (d & -> & _).
Qed.

Lemma constant_truncated c w e : ZExtExpr_create (Constant c) w = Ok e -> isConstant e = true.
Proof.
  unfold ZExtExpr_create, ExtractExpr_create, extract_fuel. destruct (_ =? _); [by intros [= <-]|].
  destruct (_ <? _); [|by intros [= <-]]. cbn [ExtractExpr_create_fuel]. intros [_ E]%res_assert_inv.
  destruct (_ =? _); by injection E as <-.
Qed.

Section at_pointer.
Context (x : Executor) (es : positive) (s : ExecutionState) (p : expr) (s1 : ExecutionState) (sv : S) (p1 : expr) (mo : MemoryObject).
Context (Hst : staged x es s p s1 sv p1) (HpW : getWidth p = W) (Hpl : placed W mo).
Context (bytes : Z) (Hb : 0 < bytes) (Hsafe : safe checked s p mo bytes).
Context (off : expr) (Eo : getOffsetExpr false W mo p1 = Ok off) (Ho : wt off) (How : getWidth off = W).
Context (Hod : forall ρ v, denote checked ρ p1 = Some v -> denote checked ρ off = Some (wrap W (v - mo_address mo))).

(** In every solution the offset, truncated to 32 bits or not, is that of the
    pointer, and the access ends in the object. *)
Lemma offset_at ρ v1 : sat checked ρ (constraints s1) -> denote checked ρ p1 = Some v1 ->
  0 <= v1 - mo_address mo /\ v1 - mo_address mo + bytes <= mo_size mo /\ offset32 checked off ρ = Some (v1 - mo_address mo).
Proof.
  intros Hρ Hv. assert (range_in_object mo v1 bytes = true) as Hr.
  { apply Hsafe, (st_feasible _ _ _ _ _ _ _ _ _ Hst). by exists ρ. }
  unfold range_in_object in Hr. apply andb_prop in Hr as [H1 H2]. tidy_bools. pose proof Hpl as (_ & Hs & Hsw & _).
  split_and!; [lia..|]. unfold offset32. rewrite (Hod ρ v1 Hv). cbn. rewrite (wrap_small W), wrap_small by lia. done.
Qed.

Lemma staged_offset_ok : offset_regular p mo -> offset_ok (mo_size mo) bytes off.
Proof.
  intros Hreg. split; [done|]. intros o32 E32. pose proof (st_query _ _ _ _ _ _ _ _ _ Hst) as [(_ & _ & Hd & _) (ρ & Hρ)].
  destruct (Hd ρ Hρ) as [v1 Hv1]. cbn in Hρ, Hv1. destruct (offset_at ρ v1 Hρ Hv1) as (H1 & H2 & H3).
  destruct (cast_create_ok checked ZExt off 32 Ho) as (o' & E' & _ & _ & Hd'); [lia|]. unfold Int32 in E32. rewrite E32 in E'. injection E' as <-.
  specialize (Hd' ρ _ H3).
  assert (isConstant o32 = true \/ varying o32 = true) as Hcase.
  { destruct (st_same _ _ _ _ _ _ _ _ _ Hst) as [[_ E]|E]; [rewrite E in Eo; by apply (Hreg off)|].
    left. destruct p1 as [c| | | | | | | |]; try done. pose proof (st_width _ _ _ _ _ _ _ _ _ Hst) as Hcw. cbn in Hcw.
    pose proof (constant_offset c mo off Hpl ltac:(lia) Eo) as Hc. destruct off as [d| | | | | | | |]; try done.
    by apply (constant_truncated d Int32). }
  destruct o32 as [c| | | | | | | |]; try (by destruct Hcase). cbn in Hd'. injection Hd' as ->. lia.
Qed.

End at_pointer.

Lemma access_object_at es op offset acc : access_object es op offset acc =
  (match acc with
  | Store value =>
      do* ro := object_readOnly (snd op) in
      if ro : bool then on_fst (terminateStateOnError o function parent internalFunctions es "memory error: object read only" ReadOnly)
      else
        do* wos := in_space es (getWriteable (fst op) (snd op)) in
        do* offset := slift offset in
        on_object wos (write_at false isLittleEndian offset value)
  | Load type target =>
      do* offset := slift offset in
      do* result := on_object (snd op) (read_at false isLittleEndian new_array utostr offset type) in
      on_fst (bindLocal target es result)
  end : mem_exec (S:=S) unit).
Proof. by destruct op. Qed.

Section at_object.
Context (x : Executor) (m : Memory) (es : positive) (s : ExecutionState) (op : ObjectPair) (ob : ObjectState) (c0 : contents).
Context (Hm : memory_ok x m) (Hr : running x es) (Hs : pool x !! es = Some s).
Context (Hob : bound_object s m op ob) (Hc0 : ObjectStateInv.represents checked c0 ob).
Context (p : expr) (s1 : ExecutionState) (sv : S) (p1 : expr) (Hst : staged x es s p s1 sv p1).

Notation x1 := (touched es s1 sv x).

Lemma staged_space : addressSpace s1 = addressSpace s /\ stack s1 = stack s.
Proof. by destruct (st_con _ _ _ _ _ _ _ _ _ Hst) as (? & ? & ->). Qed.

Lemma staged_memory : memory_ok x1 m /\ running x1 es /\ bound_object s1 m op ob.
Proof.
  destruct staged_space as [Esp _]. split_and!.
  - apply (memory_ok_weaken x); [done|by intros e He%(touched_running x es s s1 sv Hs)|].
    intros e u u' _ Hu Hu'. cbn in Hu'. destruct (decide (es = e)) as [<-|]; [|by rewrite lookup_insert_ne in Hu'; simplify_eq].
    rewrite lookup_insert_eq in Hu'. by simplify_eq.
  - by apply (touched_running x es s s1 sv Hs).
  - destruct Hob. split; [by rewrite Esp|done..].
Qed.

Lemma put_running s2 e : running (set_pool (<[es := s2]> (pool x1)) x1) e <-> running x e.
Proof.
  unfold running. cbn. rewrite insert_insert_eq. destruct (decide (es = e)) as [<-|Hne]; [|by rewrite lookup_insert_ne].
  rewrite lookup_insert_eq, Hs. split; intros [_ He]; (split; [by eexists|done]).
Qed.

(** The state [s2] put back for [s1]. *)
Lemma staged_put s2 : same_links s1 s2 -> state_ok checked s2 ->
  exec_ok (set_pool (<[es := s2]> (pool x1)) x1) /\ changes es x (set_pool (<[es := s2]> (pool x1)) x1).
Proof.
  intros Hl Hok. destruct (put_ok checked Inv x1 es s1 s2 (st_ok _ _ _ _ _ _ _ _ _ Hst) (touched_lookup x es s1 sv) Hl Hok) as [H1 H2].
  split; [exact H1|]. etrans; [exact (st_changes _ _ _ _ _ _ _ _ _ Hst)|exact H2].
Qed.

Lemma staged_one_value :
  constraints s1 = constraints s \/ exists v, forall ρ y, sat checked ρ (constraints s1) -> denote checked ρ p = Some y -> y = v.
Proof.
  destruct (st_same _ _ _ _ _ _ _ _ _ Hst) as [[E _]|E]; [by left|right]. destruct p1 as [c| | | | | | | |]; try done.
  exists (uval c). intros ρ y Hρ Hy. pose proof (st_value _ _ _ _ _ _ _ _ _ Hst ρ y Hρ Hy) as H. cbn in H. congruence.
Qed.

Context (off : expr) (acc : Access) (Hfits : access_fits s ob acc) (Hoff : offset_ok (mo_size (fst op)) (access_bytes (access_type acc)) off).
Context (Hat : forall ρ v, sat checked ρ (constraints s1) -> denote checked ρ p = Some v ->
  offset32 checked off ρ = Some (v - mo_address (fst op))).

Lemma bindLocal_ok target e sf st : stack s = sf :: st -> (target < length (locals sf))%nat ->
  bindLocal target es (Some e) x1 =
    Ok (tt, set_pool (<[es := set_stack (set_locals (<[target := Some e]> (locals sf)) sf :: st) s1]> (pool x1)) x1).
Proof.
  intros Est Hlen. destruct staged_space as [_ Es1]. unfold bindLocal. rewrite (sbind_ok _ _ x1 s1 x1) by (unfold state_at; by rewrite touched_lookup).
  rewrite Es1, Est. apply Nat.ltb_lt in Hlen as ->. reflexivity.
Qed.

Lemma load_performed type target : acc = Load type target ->
  exists x' m', access_object es op (Ok off) acc (x1, m) = Ok (tt, (x', m')) /\
    exec_ok x' /\ changes es x x' /\ memory_ok x' m' /\ performed x m x' m' es s p op acc s1.
Proof.
  intros Ea. rewrite access_object_at. destruct staged_memory as (Hm1 & Hr1 & Hob1). destruct staged_space as [Esp Est]. subst acc.
  destruct Hfits as (Haw & Hbnd & sf & st & Esf & Hlen). cbn [access_type] in *.
  destruct (load_ok checked isLittleEndian new_array utostr Hnew x1 m es s1 op ob c0 off type Hm1 Hr1 (touched_lookup x es s1 sv) Hob1 Hc0)
    as (e & ob' & w & E & Hm2 & He & Hew & Hkeep & Hval); [split_and!; [done|lia|done]|].
  pose proof (bindLocal_ok target e sf st Esf Hlen) as E2.
  destruct (staged_put (set_stack (set_locals (<[target := Some e]> (locals sf)) sf :: st) s1)) as [Hok Hch]; [done| |].
  { exact (ex_states _ _ _ (st_ok _ _ _ _ _ _ _ _ _ Hst) es s1 (touched_lookup x es s1 sv)). }
  eexists _, _. split; [|split; [exact Hok|split; [exact Hch|split]]].
  - unfold sbind at 1, slift. cbn [res_bind fst snd]. rewrite (sbind_ok _ _ _ _ _ E). unfold on_fst. cbn [fst snd]. rewrite E2. reflexivity.
  - apply (memory_ok_weaken x1); [exact Hm2| |].
    + intros e' [[u Hu] He']. split; [|exact He']. cbn in Hu |- *. rewrite insert_insert_eq in Hu. destruct (decide (es = e')) as [<-|].
      * rewrite lookup_insert_eq. by eexists.
      * rewrite lookup_insert_ne in Hu |- * by done. by eexists.
    + intros e' u u' _ Hu Hu'. cbn in Hu, Hu'. rewrite insert_insert_eq in Hu'. destruct (decide (es = e')) as [<-|].
      * rewrite lookup_insert_eq in Hu, Hu'. by simplify_eq.
      * rewrite lookup_insert_ne in Hu, Hu' by done. by simplify_eq.
  - split; [done|by apply put_running|exact (st_con _ _ _ _ _ _ _ _ _ Hst)|exact (st_back _ _ _ _ _ _ _ _ _ Hst)|exact staged_one_value| |].
    + intros e' u mo c _ _ _. apply Hkeep.
    + exists sf, st, e. split_and!; try done.
      * cbn. by rewrite lookup_insert_eq.
      * intros c ρ v y Hc Hρ Hv Hy. apply (Hval c); [by rewrite Esp|].
        rewrite <- Hy. apply word_at_offset. rewrite (Hat ρ v Hρ Hv). done.
      * intros mo c. apply Hkeep.
Qed.

Lemma store_performed value : acc = Store value ->
  exists x' m', access_object es op (Ok off) acc (x1, m) = Ok (tt, (x', m')) /\
    exec_ok x' /\ changes es x x' /\ memory_ok x' m' /\ performed x m x' m' es s p op acc s1.
Proof.
  intros Ea. rewrite access_object_at. destruct staged_memory as (Hm1 & Hr1 & Hob1). destruct staged_space as [Esp Est]. subst acc.
  destruct Hfits as (Haw & Hbnd & Hv & Hro). cbn [access_type] in *.
  destruct (store_ok checked isLittleEndian x1 m es s1 op ob c0 off value Hm1 Hr1 (touched_lookup x es s1 sv) Hob1 Hc0 Hro Hv)
    as (wos & a & h & w & m' & E & E2 & _ & Hm2 & Hoth & Hwr & Hkeep); [split_and!; [done|lia|done]|].
  destruct (staged_put (set_space a s1)) as [Hok Hch]; [done| |].
  { exact (ex_states _ _ _ (st_ok _ _ _ _ _ _ _ _ _ Hst) es s1 (touched_lookup x es s1 sv)). }
  eexists _, m'. split; [|split; [exact Hok|split; [exact Hch|split; [exact Hm2|]]]].
  - unfold object_readOnly, deref. unfold sbind at 1. cbn [snd]. rewrite (bo_state _ _ _ _ Hob). cbn [res_bind]. rewrite Hro.
    cbn [fst snd]. rewrite (sbind_ok _ _ _ _ _ E). unfold sbind, slift. cbn [res_bind fst snd]. exact E2.
  - split; [done|by apply put_running|exact (st_con _ _ _ _ _ _ _ _ _ Hst)|exact (st_back _ _ _ _ _ _ _ _ _ Hst)|exact staged_one_value| |].
    + intros e u mo c Hne He Hu. apply (Hoth e u); [done|by apply (touched_running x es s s1 sv Hs)|]. cbn. by rewrite lookup_insert_ne.
    + exists a. split; [cbn; by rewrite lookup_insert_eq|]. rewrite <- Esp. split; [|exact Hkeep].
      intros c Hc. eexists. split; [by apply Hwr|]. intros ρ v j Hρ Hv'. unfold written. apply set_word_offset. by rewrite (Hat ρ v Hρ Hv').
Qed.

Lemma access_performed :
  exists x' m', access_object es op (Ok off) acc (x1, m) = Ok (tt, (x', m')) /\
    exec_ok x' /\ changes es x x' /\ memory_ok x' m' /\ performed x m x' m' es s p op acc s1.
Proof.
  assert ((exists type target, acc = Load type target) \/ exists value, acc = Store value) as [(type & target & E)|(value & E)].
  { case acc; eauto. }
  - by apply (load_performed type target).
  - by apply (store_performed value).
Qed.

End at_object.

(** The state ends early. *)
Lemma end_early_ok x m es s p s1 sv p1 :
  memory_ok x m -> running x es -> pool x !! es = Some s -> staged x es s p s1 sv p1 ->
  exists x', end_early o es (touched es s1 sv x) = Ok (tt, x') /\ exec_ok x' /\ changes es x x' /\ memory_ok x' m /\ ended x' es.
Proof.
  intros Hm Hr Hs Hst. unfold end_early.
  rewrite (sbind_ok _ _ _ s1 (touched es s1 sv x)) by (unfold state_at; by rewrite touched_lookup).
  destruct (put_ok checked Inv _ es s1 (set_pc (prevPC s1) s1) (st_ok _ _ _ _ _ _ _ _ _ Hst) (touched_lookup x es s1 sv)) as [H1 Hc1]; [done| |].
  { exact (ex_states _ _ _ (st_ok _ _ _ _ _ _ _ _ _ Hst) es s1 (touched_lookup x es s1 sv)). }
  set (x1 := set_pool _ _) in *. change (put_state es (set_pc (prevPC s1) s1) (touched es s1 sv x)) with (Ok (tt, x1)).
  rewrite (sbind_ok _ _ _ tt x1) by done.
  assert (running x1 es) as Hr1 by (split; [eexists; by apply lookup_insert_eq|apply Hr]).
  destruct (terminateStateEarly_ok checked Inv o x1 es H1 Hr1) as (x' & E & H2 & Hc2 & He & _ & Hb).
  assert (changes es x x') as Hc by (etrans; [exact (st_changes _ _ _ _ _ _ _ _ _ Hst)|by etrans]).
  exists x'. split_and!; try done. apply (memory_ok_weaken x); [done| |].
  - intros e He'%Hb. destruct He' as [[u Hu] He']. split; [|exact He']. cbn in Hu. rewrite insert_insert_eq in Hu.
    destruct (decide (es = e)) as [<-|]; [by eexists|]. rewrite lookup_insert_ne in Hu by done. by eexists.
  - intros e u u' Hre Hu Hu'. assert (e <> es) as Hne by (intros ->; by apply (ended_not_running x' es)).
    rewrite (ch_others _ _ _ _ Hc e Hne ltac:(by eexists)) in Hu'. by simplify_eq.
Qed.

Notation executeMemoryOperation :=
  (executeMemoryOperation false hash rewrite simplifyExprs o solver function parent internalFunctions W isLittleEndian timed_out new_array utostr).

(** A state that is about to access one object in bounds. *)
Record accessible (x : Executor) (m : Memory) (es : positive) (s : ExecutionState) (p : expr) (op : ObjectPair) (ob : ObjectState)
    (c0 : contents) (acc : Access) : Prop := {
  ac_exec : exec_ok x;
  ac_memory : memory_ok x m;
  ac_running : running x es;
  ac_state : pool x !! es = Some s;
  ac_seeds : seedMap x !! es = None;
  ac_query : query_ok checked (MkQuery (constraints s) p);
  ac_width : getWidth p = W;
  ac_laid_out : laid_out W (objects (addressSpace s));
  ac_object : op ∈ elements (objects (addressSpace s));
  ac_bound : bound_object s m op ob;
  ac_contents : ObjectStateInv.represents checked c0 ob;
  ac_fits : access_fits s ob acc;
  (* the pointer is in bounds of the object in every solution *)
  ac_safe : safe checked s p (fst op) (access_bytes (access_type acc));
  ac_regular : offset_regular p (fst op);
}.

Definition accessed (x : Executor) (m : Memory) (es : positive) (s : ExecutionState) (p : expr) (op : ObjectPair) (acc : Access)
    (r : res (unit * (Executor * Memory))) : Prop :=
  match r with
  | Ok (_, (x', m')) => exec_ok x' /\ changes es x x' /\ memory_ok x' m' /\
      ((exists s1, performed x m x' m' es s p op acc s1) \/ ended x' es /\ m' = m /\ unanswered)
  | AssertFail => unanswered
  | OutOfFuel => False
  end.

Lemma start_access x m es s p acc : SimplifySymIndices o = false -> pool x !! es = Some s ->
  executeMemoryOperation es acc p (x, m) =
    (do* r := on_fst (resolve_address false hash rewrite simplifyExprs solver W es p) in
     let '(address, op) := r in
     match op with
     | None => access_slow false hash rewrite simplifyExprs o solver function parent internalFunctions W isLittleEndian timed_out
         new_array utostr es address (getMinBytesForWidth (access_type acc)) acc
     | Some op =>
         do* address := on_fst (limit_address false hash rewrite simplifyExprs o solver es (fst op) address) in
         do* offset := slift (getOffsetExpr false W (fst op) address) in
         do* inBounds := on_fst (check_bounds false hash simplifyExprs solver W es (fst op) offset (getMinBytesForWidth (access_type acc))) in
         match inBounds with
         | None => on_fst (end_early o es)
         | Some true => access_object es op (Ok offset) acc
         | Some false => access_slow false hash rewrite simplifyExprs o solver function parent internalFunctions W isLittleEndian timed_out
             new_array utostr es address (getMinBytesForWidth (access_type acc)) acc
         end
     end) (x, m).
Proof.
  intros Ho Hs. unfold ExecutorMemory.executeMemoryOperation.
  rewrite (sbind_ok _ _ _ s (x, m)) by (unfold on_fst, state_at; cbn [fst snd]; by rewrite Hs).
  assert (forall e, simplify_index false hash o (constraints s) e = Ok e) as Ei by (intros e; unfold simplify_index; by rewrite Ho).
  rewrite (sbind_ok _ _ _ p (x, m)) by (unfold slift; by rewrite Ei).
  rewrite (sbind_ok _ _ _ acc (x, m)) by (unfold slift; destruct acc; cbn [simplify_access]; by rewrite ?Ei). reflexivity.
Qed.

Lemma on_fst_ok {T} (f : state Executor T) x m v y : f x = Ok (v, y) -> on_fst f (x, m) = Ok (v, (y, m) : Executor * Memory).
Proof. intros E. unfold on_fst. cbn [fst]. by rewrite E. Qed.

Lemma on_fst_fail {T} (f : state Executor T) x (m : Memory) : f x = AssertFail -> on_fst f (x, m) = AssertFail.
Proof. intros E. unfold on_fst. cbn [fst]. by rewrite E. Qed.

(** C2. A memory access whose pointer is in every solution of the path
    constraints in bounds of one object (executeMemoryOperation) is performed:
    the state reads the word at the pointer into its register, or writes the
    word and nothing else, no other state sees a change, no state is forked or
    made to end in an error, and no test case is written.  Otherwise a question
    to the solver was not answered. *)
Theorem safe_access_performed x m es s p op ob c0 acc :
  SimplifySymIndices o = false -> accessible x m es s p op ob c0 acc ->
  accessed x m es s p op acc (executeMemoryOperation es acc p (x, m)).
Proof.
  intros Hopt [H Hm Hr Hs Hseed Hq HpW Hl Hop Hob Hc0 Hfits Hsafe Hreg]. rewrite (start_access x m es s p acc Hopt Hs).
  pose proof Hfits as (Haw & Hbnd & _). destruct (min_bytes (access_type acc) Haw Hbnd) as [-> Hb]. set (bytes := access_bytes _) in *.
  assert (placed W (fst op)) as Hpl by (pose proof (lo_placed W _ Hl) as Hpl; rewrite Forall_forall in Hpl; by apply Hpl).
  destruct (resolve_address_ok checked hash rewrite simplifyExprs solver Inv W HW x es s p op bytes H Hs Hseed Hq HpW Hl Hop ltac:(lia) Hsafe)
    as [[E Hf]|(s1 & sv & p1 & E & Hst)].
  { by rewrite (sbind_fail _ _ _ (on_fst_fail _ x m E)). }
  rewrite (sbind_ok _ _ _ _ _ (on_fst_ok _ x m _ _ E)). clear E.
  destruct (limit_address_ok checked hash rewrite simplifyExprs o solver Inv x es s p s1 sv p1 (fst op) Hs Hseed Hst)
    as [[E Hf]|(s2 & sv2 & p2 & E & Hst2)].
  { by rewrite (sbind_fail _ _ _ (on_fst_fail _ _ m E)). }
  rewrite (sbind_ok _ _ _ _ _ (on_fst_ok _ _ m _ _ E)). clear E Hst.
  destruct (check_bounds_ok checked hash simplifyExprs solver Inv W HW x es s p s2 sv2 p2 (fst op) bytes Hs HpW Hpl Hb Hsafe Hst2)
    as (off & r & sv3 & Eo & Ho & How & Hod & E & Hst3 & Hans).
  rewrite (sbind_ok _ _ _ off (touched es s2 sv2 x, m)) by (unfold slift; by rewrite Eo).
  rewrite (sbind_ok _ _ _ _ _ (on_fst_ok _ _ m _ _ E)). clear E Hst2. destruct Hans as [->|[-> Hf]].
  - destruct (access_performed x m es s op ob c0 Hm Hr Hs Hob Hc0 p s2 sv3 p2 Hst3 off acc Hfits) as (x' & m' & -> & H' & Hc & Hm' & Hp).
    + eapply (staged_offset_ok x es s p s2 sv3 p2 (fst op)); eauto; apply Hb.
    + intros ρ v Hρ Hv. pose proof (st_value _ _ _ _ _ _ _ _ _ Hst3 ρ v Hρ Hv) as Hv1.
      eapply (offset_at x es s p s2 sv3 p2 (fst op)); eauto; apply Hb.
    + split_and!; try done. left. by exists s2.
  - destruct (end_early_ok x m es s p s2 sv3 p2 Hm Hr Hs Hst3) as (x' & E & H' & Hc & Hm' & He).
    rewrite (on_fst_ok _ _ m _ _ E). split_and!; try done. by right.
Qed.

End operation.

Module AccessExamples.
Import SolverExamples ForkExamples ArraySamples.
#[local] Existing Instance sample_store | 0.

(* four bytes at 4096, the array [x], and the pointer 4096 + x[0] *)
Definition four_bytes : MemoryObject := MemoryObject_new 1 4096 4 true false false 0.
Definition four_pointer : expr := Concat (Constant (BV 8 16)) (Read x_array UNil (Constant (BV 32 0))).
Definition four_in : expr := match getBoundsCheckPointer false 16 four_bytes four_pointer with Ok e => e | _ => four_pointer end.
Definition four_symbolic : ObjectState := match ObjectState_symbolic 4 x_array with Ok os => os | _ => bytes78 end.
Definition four_space : AddressSpace := MkAddressSpace 1 (Node Terminator (four_bytes, 1%positive) Terminator 1).
Definition four_heap : heap := {[1%positive := set_owner 1 four_symbolic]}.
Definition four_memory : Memory := MkMemory four_heap start.
Definition four_state : ExecutionState := set_space four_space (set_constraints [four_in] true one_state).
Definition four_contents : contents := fun ρ i => array_init false ρ x_array i.
Definition four_guesses : SolverImpl unit := GuessSolver false false [ObjectStateSpec.ones].

Lemma four_pointer_wt : wt four_pointer.
Proof. cbn [four_pointer wt wt_updates getWidth]. pose proof x_array_wt as Ha. rewrite x_array_at in *. cbn. split_and!; try done; lia. Qed.

Lemma four_placed : placed 16 four_bytes.
Proof. split_and!; cbn; lia. Qed.

Lemma four_in_ok : wt four_in /\ getWidth four_in = 1 /\ good four_in /\
  forall ρ v, denote false ρ four_pointer = Some v -> denote false ρ four_in = Some (Z.b2z (in_object four_bytes v)).
Proof.
  destruct (getBoundsCheckPointer_ok false false ltac:(done) 16 ltac:(lia) four_bytes four_pointer) as (e & E & He & Hew & Hd);
    [exact four_placed|exact four_pointer_wt|by vm_compute|].
  assert (four_in = e) as <- by (unfold four_in; by rewrite E). split_and!; try done.
  intros ρ v Hv. apply Hd. by rewrite Hv.
Qed.

Lemma four_query : query_ok false (MkQuery [four_in] four_pointer).
Proof.
  destruct four_in_ok as (Hw & Hwd & Hg & Hd). split; [split_and!|].
  - by constructor.
  - exact four_pointer_wt.
  - intros ρ _. by eexists.
  - by constructor.
  - reflexivity.
  - exists ObjectStateSpec.ones. constructor; [|done]. cbn beta. by rewrite (Hd _ 4097).
Qed.

Lemma four_symbolic_ok : ObjectStateInv.represents false four_contents four_symbolic /\ frame four_symbolic = (0, 4, false).
Proof. destruct sample_object as (os & E & Hr & Hf & _). unfold four_symbolic. rewrite E. done. Qed.

Lemma four_system : sys_ok ([four_space], four_heap).
Proof.
  apply (reachable_ok false). apply rtc_once. exists 0%nat.
  assert (four_heap = <[1%positive := set_owner 1 four_symbolic]> (<[1%positive := four_symbolic]> (∅ : heap))) as ->
    by (unfold four_heap; by rewrite insert_insert_eq).
  apply (step_bind false 0 [AddressSpace_new] ∅ AddressSpace_new four_bytes 1%positive four_symbolic four_space);
    [done|done|apply (rep_shape _ _ _ (proj1 four_symbolic_ok))|done|reflexivity].
Qed.

Lemma four_accessible : accessible false (fun _ => True) 16 (start_executor four_state) four_memory 1 four_state four_pointer
  (four_bytes, 1%positive) (set_owner 1 four_symbolic) four_contents (Load 8 0).
Proof.
  destruct four_in_ok as (Hw & Hwd & Hg & Hd).
  assert (forall es s, pool (start_executor four_state) !! es = Some s -> es = 1%positive /\ s = four_state) as Hl.
  { intros es s H. apply (lookup_singleton_Some (M:=gmap positive) 1%positive es four_state s) in H as [<- <-]. done. }
  split.
  - apply start_executor_from; [|done]. destruct four_query as [(H1 & _ & _ & H2 & _) H3]. split; [|exact H3].
    split_and!; [exact H1|by apply wt_const_alloc| |exact H2|done]. intros ρ _. cbn [query_expr]. rewrite denote_const_alloc by done. by eexists.
  - split; [exact start_ok|]. exists [four_space], (fun _ => 0%nat). split; [exact four_system|]. split.
    + by intros es s _ [-> ->]%Hl.
    + by intros e e' [[s [-> _]%Hl] _] [[s' [-> _]%Hl] _].
  - split; [by eexists|]. by intros ?%elem_of_nil.
  - reflexivity.
  - reflexivity.
  - exact four_query.
  - reflexivity.
  - split; [split; [cbn; lia|by repeat constructor]|by repeat constructor; apply four_placed|by repeat constructor].
  - by left.
  - by split.
  - apply represents_set_owner, four_symbolic_ok.
  - split; [right; by exists 1|]. split; [cbn; lia|]. eexists _, _. split; [reflexivity|cbn; lia].
  - intros v (ρ & Hρ & Hv). cbn [Solver.constraints query_expr] in Hρ, Hv. apply Forall_inv in Hρ. rewrite (Hd ρ v Hv) in Hρ.
    destruct (in_object four_bytes v) eqn:Ein; [|done]. unfold in_object in Ein. cbn in Ein.
    apply andb_prop in Ein as [H1 H2]. unfold range_in_object. change (access_bytes (access_type (Load 8 0))) with 1. cbn. tidy_bools. apply andb_true_iff. rewrite !Z.leb_le. lia.
  - intros off off32 E1 E2. right.
    assert ((let* o := getOffsetExpr false 16 four_bytes four_pointer in let* o := ZExtExpr_create o Int32 in Ok (varying o)) = Ok true) as E by (vm_compute; reflexivity).
    cbn [fst] in E1. rewrite E1 in E. cbn [res_bind] in E. rewrite E2 in E. by injection E as ->.
Qed.

Definition still_running (x : Executor (S:=unit)) : bool :=
  match pool x !! 1%positive, removedStates x with Some _, [] => true | _, _ => false end.

(* the byte x[x[0]] is read into the register 0 *)
Lemma safe_access_performed_witness :
  exists x' m' s1,
    executeMemoryOperation false true true true default_options four_guesses (fun _ => 1%positive) (fun _ => 1%positive) ∅ 16 true
      (sret false) sample_new_array no_names 1 (Load 8 0) four_pointer (start_executor four_state, four_memory) = Ok (tt, (x', m')) /\
    performed false true (start_executor four_state) four_memory x' m' 1 four_state four_pointer (four_bytes, 1%positive) (Load 8 0) s1.
Proof.
  pose proof (safe_access_performed false true true true default_options four_guesses (fun _ => True) (HS := ltac:(by apply GuessSolver_contract))
    (fun _ => 1%positive) (fun _ => 1%positive) ∅ 16 ltac:(lia) true (sret false) sample_new_array no_names (fun n a => sample_store_ok n a)
    (start_executor four_state) four_memory 1 four_state four_pointer (four_bytes, 1%positive) (set_owner 1 four_symbolic) four_contents (Load 8 0)
    eq_refl four_accessible) as H.
  assert (forall r, (r : res (unit * (Executor * Memory))) = executeMemoryOperation false true true true default_options four_guesses
      (fun _ => 1%positive) (fun _ => 1%positive) ∅ 16 true (sret false) sample_new_array no_names 1 (Load 8 0) four_pointer
      (start_executor four_state, four_memory) ->
    match r with Ok (_, (x', _)) => still_running x' | _ => false end = true) as Hrun.
  { intros r ->. vm_compute. reflexivity. }
  specialize (Hrun _ eq_refl). destruct (executeMemoryOperation _ _ _ _ _ _ _ _ _ _ _ _ _ _ _ _ _ _) as [[[] [x' m']]| |]; [|done|done].
  destruct H as (_ & _ & _ & [[s1 Hp]|[[He|He] _]]); [by exists x', m', s1| |]; unfold still_running in Hrun.
  - by rewrite He in Hrun.
  - destruct (pool x' !! 1%positive), (removedStates x'); try done. by apply elem_of_nil in He.
Defined.
End AccessExamples.
