(* ===== verification/ConstantDivision.v ===== *)
(** Multiplications and divisions by constants: klee/lib/Solver/ConstantDivision.cpp.

    A multiplication by a constant becomes additions and subtractions of
    shifts, a division of 32-bit words a multiplication, additions and shifts.
    The words are 32- and 64-bit [Z]; a shift of a 32-bit word by 32, which
    [exp_base_2] reaches with the word zero, is that of the hardware. *)
From Stdlib Require Import ZArith Lia Bool.
From stdpp Require Import base numbers.
From S2P Require Import Prelude Bits.
Open Scope Z_scope.

(** *** Words *)

Definition u32 (x : Z) : Z := wrap 32 x.

(* the number of bits set *)
Definition ones (x : Z) : Z :=
  let x := u32 (x - Z.land (Z.shiftr x 1) 0x55555555) in
  let x := u32 (Z.land (Z.shiftr x 2) 0x33333333 + Z.land x 0x33333333) in
  let x := Z.land (u32 (Z.shiftr x 4 + x)) 0x0f0f0f0f in
  let x := u32 (x + Z.shiftr x 8) in
  let x := u32 (x + Z.shiftr x 16) in
  Z.land x 0x0000003f.

(* the number of leading zeros *)
Definition ldz (x : Z) : Z :=
  let x := Z.lor x (Z.shiftr x 1) in
  let x := Z.lor x (Z.shiftr x 2) in
  let x := Z.lor x (Z.shiftr x 4) in
  let x := Z.lor x (Z.shiftr x 8) in
  let x := Z.lor x (Z.shiftr x 16) in
  u32 (32 - ones x).

Definition LOG2_CEIL (x : Z) : Z := u32 (32 - ldz (u32 (x - 1))).

(* x << n with the shift count taken modulo 32 *)
Definition exp_base_2 (n : Z) : Z :=
  let x := Z.land (u32 (Z.lnot n)) (u32 (n - 32)) in
  let x := Z.shiftr x 31 in
  u32 (Z.shiftl x (n mod 32)).

(** *** Multiplication *)

(* one round of the loop, on x, add and sub *)
Definition mult_step (x add sub : Z) : res (Z * Z * Z) :=
  let* low := bits64.indexOfRightmostBit x in
  let lowbit := wrap 64 (Z.shiftl 1 low) in
  let p := wrap 64 (x + lowbit) in
  let q := bits64.isolateRightmostBit p in
  let* high := (if q =? 0 then Ok 64 else bits64.indexOfSingleBit q) in
  let '(add, sub) :=
    if high =? low + 1 then (Z.lor add lowbit, sub)
    else
      let '(add, sub) :=
        if negb (low =? 0) && negb (Z.land add (Z.shiftr lowbit 1) =? 0)
        then (Z.lxor add (Z.shiftr lowbit 1), Z.lxor sub (Z.shiftr lowbit 1))
        else (add, Z.lor sub lowbit) in
      (if high =? 64 then add else Z.lor add (wrap 64 (Z.shiftl 1 high)), sub) in
  Ok (Z.lxor p q, add, sub).

Fixpoint mult_loop (fuel : nat) (x add sub : Z) : res (Z * Z) :=
  if x =? 0 then Ok (add, sub)
  else
    match fuel with
    | O => OutOfFuel
    | S fuel => let* r := mult_step x add sub in let '(x, add, sub) := r in mult_loop fuel x add sub
    end.

Definition mult_fuel : nat := 64.

Definition ComputeMultConstants64 (multiplicand : Z) : res (Z * Z) :=
  let* r := mult_loop mult_fuel multiplicand 0 0 in
  assert* multiplicand =? wrap 64 (fst r - snd r) in Ok r.

(** *** Division *)

(* mprime, sh1 and sh2 *)
Definition ComputeUDivConstants32 (d : Z) : res (Z * Z * Z) :=
  let l := signed 32 (LOG2_CEIL d) in
  let mid := u32 (exp_base_2 l - d) in
  assert* negb (d =? 0) in
  Ok (u32 (wrap 64 (2 ^ 32 * mid) / d + 1), u32 (Z.min l 1), u32 (Z.max (l - 1) 0)).

(* mprime, dsign and shpost; d is signed *)
Definition ComputeSDivConstants32 (d : Z) : res (Z * Z * Z) :=
  let abs_d := if 0 <? d then d else - d in
  let l := signed 32 (Z.max 1 (LOG2_CEIL (u32 abs_d))) in
  let l := if abs_d =? 2 ^ 31 then 31 else l in
  let mid := exp_base_2 (l - 1) in
  assert* negb (abs_d =? 0) in
  let m := wrap 64 (wrap 64 (2 ^ 32 * mid) / abs_d + 1) in
  Ok (signed 32 (wrap 64 (m - 2 ^ 32)), Z.shiftr d 31, l - 1).

(** ** Bits of words *)

Lemma bits_ext a b : (forall i, 0 <= i -> Z.testbit a i = Z.testbit b i) -> a = b.
Proof. apply Z.bits_inj'. Qed.

Lemma lor_fresh a k : 0 <= k -> 0 <= a < 2 ^ k -> Z.lor a (2 ^ k) = a + 2 ^ k.
Proof.
  intros Hk Ha. assert (Z.land a (2 ^ k) = 0) as H.
  { apply bits_ext. intros i Hi. rewrite Z.land_spec, Z.bits_0, Z.pow2_bits_eqb by done.
    destruct (Z.eqb_spec k i) as [<-|]; [|by rewrite andb_false_r]. by rewrite (testbit_high k a k) by lia. }
  by rewrite Z.add_nocarry_lxor, Z.lxor_lor by done.
Qed.

Lemma land_pow2 a k : 0 <= k -> (Z.land a (2 ^ k) =? 0) = negb (Z.testbit a k).
Proof.
  intros Hk. destruct (Z.testbit a k) eqn:E; cbn.
  - apply Z.eqb_neq. intros H. assert (Z.testbit (Z.land a (2 ^ k)) k = false) as H' by (by rewrite H, Z.bits_0).
    rewrite Z.land_spec, E, Z.pow2_bits_true in H' by done. done.
  - apply Z.eqb_eq, bits_ext. intros i Hi. rewrite Z.land_spec, Z.bits_0, Z.pow2_bits_eqb by done.
    destruct (Z.eqb_spec k i) as [<-|]; [by rewrite E|by rewrite andb_false_r].
Qed.

Lemma lxor_clear a k : 0 <= k -> Z.testbit a k = true -> Z.lxor a (2 ^ k) = a - 2 ^ k.
Proof.
  intros Hk Ha. rewrite Z.sub_nocarry_ldiff; [apply bits_ext|apply bits_ext]; intros i Hi.
  - rewrite Z.lxor_spec, Z.ldiff_spec, Z.pow2_bits_eqb by done. destruct (Z.eqb_spec k i) as [<-|]; [by rewrite Ha|].
    by rewrite xorb_false_r, andb_true_r.
  - rewrite Z.ldiff_spec, Z.bits_0, Z.pow2_bits_eqb by done. destruct (Z.eqb_spec k i) as [<-|]; [by rewrite Ha|done].
Qed.

Lemma lxor_set a k : 0 <= k -> Z.testbit a k = false -> Z.lxor a (2 ^ k) = a + 2 ^ k.
Proof.
  intros Hk Ha. symmetry. apply Z.add_nocarry_lxor. apply Z.eqb_eq. by rewrite land_pow2, Ha.
Qed.

(** *** Words without a common bit *)

Lemma disjoint_bits a b : Z.land a b = 0 <-> forall i, 0 <= i -> Z.testbit a i && Z.testbit b i = false.
Proof.
  split.
  - intros H i Hi. by rewrite <- Z.land_spec, H, Z.bits_0.
  - intros H. apply bits_ext. intros i Hi. rewrite Z.land_spec, Z.bits_0. auto.
Qed.

Lemma disjoint_lor a b k : 0 <= k -> Z.land a b = 0 -> Z.testbit b k = false -> Z.land (Z.lor a (2 ^ k)) b = 0.
Proof.
  rewrite !disjoint_bits. intros Hk H Hb i Hi. rewrite Z.lor_spec, Z.pow2_bits_eqb by done. specialize (H i Hi).
  destruct (Z.eqb_spec k i) as [<-|]; [by rewrite Hb, andb_false_r|by rewrite orb_false_r].
Qed.

Lemma disjoint_move a b k : 0 <= k -> Z.land a b = 0 -> Z.testbit a k = true -> Z.land (Z.lxor a (2 ^ k)) (Z.lxor b (2 ^ k)) = 0.
Proof.
  rewrite !disjoint_bits. intros Hk H Ha i Hi. rewrite !Z.lxor_spec, Z.pow2_bits_eqb by done. specialize (H i Hi).
  destruct (Z.eqb_spec k i) as [<-|]; [by rewrite Ha|by rewrite !xorb_false_r].
Qed.

(** ** Multiplication *)

(** The region of ones found in a round: [x] is [x'] and the ones from [low]
    up to [high]. *)
Lemma mult_region x :
  0 < x < 2 ^ 64 ->
  exists low high x', bits64.indexOfRightmostBit x = Ok low /\ 0 <= low < high /\ high <= 64 /\ (2 ^ low | x) /\
    let p := wrap 64 (x + wrap 64 (Z.shiftl 1 low)) in
    let q := bits64.isolateRightmostBit p in
    (if q =? 0 then Ok 64 else bits64.indexOfSingleBit q) = Ok high /\ Z.lxor p q = x' /\
    x + 2 ^ low = x' + 2 ^ high /\ 0 <= x' < 2 ^ 64 /\ (2 ^ (high + 1) | x').
Proof.
  intros Hx. destruct (odd_decomposition x) as (low & m & Hl & E); [lia|].
  destruct (lowest_bit_range 64 x low m Hl ltac:(lia) E) as [Hp Hl64].
  destruct (indexOfRightmostBit64_spec x low m Hl ltac:(lia) E) as [_ Ei].
  exists low. rewrite Z.shiftl_mul_pow2, Z.mul_1_l, (wrap_small 64 (2 ^ low)) by lia.
  assert (2 ^ 64 = 2 ^ low * 2 ^ (64 - low)) as E64 by (rewrite <- Z.pow_add_r by lia; f_equal; lia).
  assert (2 * m + 1 < 2 ^ (64 - low)) by (apply (Z.mul_lt_mono_pos_l (2 ^ low)); lia).
  assert (x + 2 ^ low <= 2 ^ 64) as Hle by (rewrite E64, E; nia).
  destruct (Z.eq_dec (x + 2 ^ low) (2 ^ 64)) as [Ex|Ne].
  - exists 64, 0. rewrite Ex. change (wrap 64 (2 ^ 64)) with 0. cbv zeta. change (bits64.isolateRightmostBit 0) with 0.
    split_and!; try done; try lia; [|exists 0; lia]. exists (2 * m + 1). lia.
  - cbv zeta. rewrite (wrap_small 64 (x + 2 ^ low)) by lia. set (p := x + 2 ^ low) in *.
    destruct (odd_decomposition p) as (high & m' & Hh & E'); [subst p; lia|].
    destruct (lowest_bit_range 64 p high m' Hh ltac:(subst p; lia) E') as [Hp' Hh64].
    destruct (indexOfRightmostBit64_spec p high m' Hh ltac:(subst p; lia) E') as [Eq Ei'].
    rewrite Eq. rewrite (proj2 (Z.eqb_neq _ _)) by lia.
    assert (low < high) as Hlt.
    { destruct (Z.lt_trichotomy low high) as [|[->|Hlt]]; [done| |].
      - assert (2 ^ high * (2 * m + 2) = 2 ^ high * (2 * m' + 1)) by (subst p; lia).
        assert (2 * m + 2 = 2 * m' + 1) by nia. lia.
      - assert (2 ^ low = 2 ^ high * 2 ^ (low - high)) as E2 by (rewrite <- Z.pow_add_r by lia; f_equal; lia).
        assert (2 ^ (low - high) = 2 * 2 ^ (low - high - 1)) as E3 by (rewrite <- Z.pow_succ_r by lia; f_equal; lia).
        assert (2 ^ high * (2 ^ (low - high) * (2 * m + 2)) = 2 ^ high * (2 * m' + 1)) by (subst p; nia).
        assert (2 ^ (low - high) * (2 * m + 2) = 2 * m' + 1) by nia. nia. }
    assert (0 < p < 2 ^ 64) as Hp64 by (subst p; lia). assert (0 <= m') by nia.
    assert (2 ^ high <= p) as Hhp by (rewrite E'; nia).
    exists high, (p - 2 ^ high). split_and!; try done; try lia.
    + exists (2 * m + 1). lia.
    + by apply indexOfSingleBit64_pow2.
    + apply lxor_clear; [done|]. rewrite E', Z.mul_comm, <- Z.shiftl_mul_pow2, Z.shiftl_spec, Z.sub_diag by lia.
      apply Z.testbit_odd_0.
    + exists m'. rewrite Z.pow_add_r by lia. change (2 ^ 1) with 2. lia.
Qed.

(** What a round keeps: the bits below [B] are dealt with. *)
Definition mult_inv (B x add sub : Z) : Prop :=
  0 <= B <= 64 /\ (2 ^ B | x) /\ 0 <= x < 2 ^ 64 /\ 0 <= add < 2 ^ B /\ 0 <= sub < 2 ^ B /\ Z.land add sub = 0.

Lemma mult_step_ok B x add sub :
  mult_inv B x add sub -> x <> 0 ->
  exists B' x' add' sub', mult_step x add sub = Ok (x', add', sub') /\ mult_inv B' x' add' sub' /\ B < B' /\
    (2 ^ 64 | (x' + add' - sub') - (x + add - sub)).
Proof.
  intros ((HB0 & HB) & Hdiv & Hx & Ha & Hs & Hd) Hne.
  destruct (mult_region x ltac:(lia)) as (low & high & x' & El & Hlow & Hhigh & Hdl & Eh & Ex & Esum & Hx' & Hdx').
  unfold mult_step. rewrite El. cbn [res_bind]. cbv zeta in Eh, Ex. rewrite Eh. cbn [res_bind]. rewrite Ex.
  rewrite Z.shiftl_mul_pow2, Z.mul_1_l by lia. assert (low < 64) as Hl64 by lia.
  assert (2 ^ low < 2 ^ 64) as Hpl by (apply Z.pow_lt_mono_r; lia). rewrite (wrap_small 64 (2 ^ low)) by lia.
  (* the lowest bit of x is not below B *)
  assert (B <= low) as HBl.
  { destruct (Z.le_gt_cases B low) as [|Hgt]; [done|]. exfalso.
    unfold bits64.indexOfRightmostBit in El. destruct (odd_decomposition x Hne) as (i & m & Hi & E).
    destruct (indexOfRightmostBit64_spec x i m Hi ltac:(lia) E) as [_ Ei].
    unfold bits64.indexOfRightmostBit in Ei. rewrite El in Ei. injection Ei as <-.
    destruct Hdiv as [c Hc]. assert (2 ^ B = 2 ^ low * (2 * 2 ^ (B - low - 1))) as E2
      by (rewrite <- Z.pow_succ_r, <- Z.pow_add_r by lia; f_equal; lia).
    assert (2 ^ low * (2 * m + 1) = 2 ^ low * (2 * (c * 2 ^ (B - low - 1)))) by nia.
    assert (2 * m + 1 = 2 * (c * 2 ^ (B - low - 1))) by nia. lia. }
  assert (2 ^ B <= 2 ^ low) as HpB by (apply Z.pow_le_mono_r; lia).
  assert (2 ^ (low + 1) <= 2 ^ high) as Hlh by (apply Z.pow_le_mono_r; lia).
  assert (2 ^ (low + 1) = 2 * 2 ^ low) as El1 by (rewrite Z.pow_add_r by lia; lia).
  set (B' := Z.min (high + 1) 64).
  assert (2 ^ high <= 2 ^ B') as HhB by (apply Z.pow_le_mono_r; lia).
  assert ((2 ^ B' | x')) as HdB.
  { etrans; [|exact Hdx']. exists (2 ^ (high + 1 - B')). rewrite <- Z.pow_add_r by lia. f_equal. lia. }
  destruct (Z.eqb_spec high (low + 1)) as [E1|E1].
  { exists B', x', (Z.lor add (2 ^ low)), sub. split; [done|]. rewrite lor_fresh by lia. split; [|split; [lia|]].
    - split_and!; try done; try lia. rewrite <- lor_fresh by lia. apply disjoint_lor; [lia|done|]. by apply (testbit_high B); lia.
    - exists 0. rewrite E1 in Esum. lia. }
  (* the part of the low bit *)
  assert (exists add1 sub1,
    (if negb (low =? 0) && negb (Z.land add (Z.shiftr (2 ^ low) 1) =? 0)
     then (Z.lxor add (Z.shiftr (2 ^ low) 1), Z.lxor sub (Z.shiftr (2 ^ low) 1)) else (add, Z.lor sub (2 ^ low))) = (add1, sub1) /\
    0 <= add1 < 2 ^ (low + 1) /\ 0 <= sub1 < 2 ^ (low + 1) /\ Z.land add1 sub1 = 0 /\ add1 - sub1 = add - sub - 2 ^ low)
    as (add1 & sub1 & -> & Ha1 & Hs1 & Hd1 & Edif).
  { destruct (Z.eqb_spec low 0) as [E0|E0]; cbn [negb andb].
    - exists add, (Z.lor sub (2 ^ low)). split; [done|]. rewrite lor_fresh by lia. split_and!; try lia.
      rewrite <- lor_fresh, Z.land_comm by lia. apply disjoint_lor; [lia|by rewrite Z.land_comm|]. by apply (testbit_high B); lia.
    - assert (Z.shiftr (2 ^ low) 1 = 2 ^ (low - 1)) as ->.
      { rewrite Z.shiftr_div_pow2 by lia. rewrite <- Z.pow_sub_r by lia. done. }
      assert (2 ^ low = 2 * 2 ^ (low - 1)) as El2 by (rewrite <- Z.pow_succ_r by lia; f_equal; lia).
      assert (0 < 2 ^ (low - 1)) by (apply Z.pow_pos_nonneg; lia).
      rewrite land_pow2, negb_involutive by lia. destruct (Z.testbit add (low - 1)) eqn:Et.
      + assert (Z.testbit sub (low - 1) = false) as Ets.
        { rewrite disjoint_bits in Hd. specialize (Hd (low - 1) ltac:(lia)). by rewrite Et in Hd. }
        assert (2 ^ (low - 1) <= add) as Hge.
        { destruct (Z.le_gt_cases (2 ^ (low - 1)) add) as [|Hgt]; [done|]. rewrite (testbit_high (low - 1)) in Et by lia. done. }
        exists (Z.lxor add (2 ^ (low - 1))), (Z.lxor sub (2 ^ (low - 1))). split; [done|].
        pose proof (disjoint_move add sub (low - 1) ltac:(lia) Hd Et) as Hd'.
        rewrite lxor_clear, lxor_set in * by (done || lia). split_and!; try done; lia.
      + exists add, (Z.lor sub (2 ^ low)). split; [done|]. rewrite lor_fresh by lia. split_and!; try lia.
        rewrite <- lor_fresh, Z.land_comm by lia. apply disjoint_lor; [lia|by rewrite Z.land_comm|]. by apply (testbit_high B); lia. }
  destruct (Z.eqb_spec high 64) as [E64|E64].
  - exists B', x', add1, sub1. split; [done|]. split; [split_and!; try done; lia|]. split; [lia|]. exists (-1). rewrite E64 in Esum. lia.
  - rewrite Z.shiftl_mul_pow2, Z.mul_1_l by lia. assert (2 ^ high < 2 ^ 64) as Hph by (apply Z.pow_lt_mono_r; lia).
    rewrite (wrap_small 64 (2 ^ high)) by lia. exists B', x', (Z.lor add1 (2 ^ high)), sub1. split; [done|].
    assert (B' = high + 1) as EB by lia. assert (2 ^ (high + 1) = 2 * 2 ^ high) as Eh1 by (rewrite Z.pow_add_r by lia; lia).
    rewrite EB in *. rewrite lor_fresh by lia. split; [|split; [lia|exists 0; lia]].
    split_and!; try done; try lia. rewrite <- lor_fresh by lia. apply disjoint_lor; [lia|done|].
    apply (testbit_high (low + 1)); lia.
Qed.

Lemma mult_loop_ok fuel B x add sub :
  mult_inv B x add sub -> 64 - B <= Z.of_nat fuel ->
  exists add' sub', mult_loop fuel x add sub = Ok (add', sub') /\ 0 <= add' < 2 ^ 64 /\ 0 <= sub' < 2 ^ 64 /\
    Z.land add' sub' = 0 /\ (2 ^ 64 | (add' - sub') - (x + add - sub)).
Proof.
  revert B x add sub. induction fuel as [|fuel IH]; intros B x add sub Hinv Hf; cbn [mult_loop].
  all: pose proof Hinv as ((HB0 & HB) & Hdiv & Hx & Ha & Hs & Hd).
  all: assert (2 ^ B <= 2 ^ 64) by (apply Z.pow_le_mono_r; lia).
  all: destruct (Z.eqb_spec x 0) as [E|E]; [exists add, sub; split_and!; try done; try lia; exists 0; lia|].
  - exfalso. assert (B = 64) as -> by lia. destruct Hdiv as [c Hc]. nia.
  - destruct (mult_step_ok B x add sub Hinv E) as (B' & x' & add' & sub' & -> & Hinv' & HB' & [c1 Hc1]). cbn [res_bind].
    destruct (IH B' x' add' sub' Hinv' ltac:(lia)) as (a & s & Er & H1 & H2 & H3 & [c2 Hc2]).
    exists a, s. split_and!; try done; try lia. exists (c1 + c2). lia.
Qed.

(** [ComputeMultConstants64] ends and fails no assertion: the two words have
    no bit in common, and their difference is the multiplicand. *)
Lemma mult_constants_ok x (Hx : 0 <= x < 2 ^ 64) :
  exists add sub, ComputeMultConstants64 x = Ok (add, sub) /\ 0 <= add < 2 ^ 64 /\ 0 <= sub < 2 ^ 64 /\
    Z.land add sub = 0 /\ wrap 64 (add - sub) = x.
Proof.
  destruct (mult_loop_ok mult_fuel 0 x 0 0) as (add & sub & E & Ha & Hs & Hd & [c Hc]).
  - split_and!; try done; try lia. apply Z.divide_1_l.
  - done.
  - assert (wrap 64 (add - sub) = x) as Ew.
    { replace (add - sub) with (x + c * 2 ^ 64) by lia. unfold wrap. rewrite Z.mod_add by done. by apply Z.mod_small. }
    exists add, sub. split_and!; try done; try lia. unfold ComputeMultConstants64. rewrite E. cbn [res_bind fst snd].
    by rewrite Ew, Z.eqb_refl.
Qed.

(** ** Logarithms *)

(** The number of bits of a word. *)
Definition bitlen (x : Z) : Z := if x =? 0 then 0 else Z.log2 x + 1.

Lemma ones_ok k : 0 <= k <= 32 -> ones (Z.ones k) = k.
Proof.
  intros Hk. apply Z.eqb_eq. apply (Z_range_forall (fun k => ones (Z.ones k) =? k) 33); [vm_compute; reflexivity|lia].
Qed.

(** [y] has the bits of [x] and of [x] shifted by less than [n]. *)
Definition smeared (x n y : Z) : Prop :=
  forall i, 0 <= i -> Z.testbit y i = true <-> exists s, 0 <= s < n /\ Z.testbit x (i + s) = true.

Lemma smear_step x n y : 0 < n -> smeared x n y -> smeared x (2 * n) (Z.lor y (Z.shiftr y n)).
Proof.
  intros Hn Hy i Hi. rewrite Z.lor_spec, Z.shiftr_spec, orb_true_iff, (Hy i Hi), (Hy (i + n)) by lia. split.
  - intros [(s & Hs & E)|(s & Hs & E)]; [exists s; split; [lia|done]|exists (n + s); split; [lia|]].
    by rewrite Z.add_assoc.
  - intros (s & Hs & E). destruct (Z.lt_ge_cases s n); [left; exists s; split; [lia|done]|right; exists (s - n); split; [lia|]].
    replace (i + n + (s - n)) with (i + s) by lia. done.
Qed.

Lemma smeared_self x : smeared x 1 x.
Proof.
  intros i Hi. split.
  - intros H. exists 0. by rewrite Z.add_0_r.
  - intros (s & Hs & E). assert (s = 0) as -> by lia. by rewrite Z.add_0_r in E.
Qed.

Lemma smeared_ones x y : 0 <= x < 2 ^ 32 -> smeared x 32 y -> y = Z.ones (bitlen x).
Proof.
  intros Hx Hy. apply bits_ext. intros i Hi. apply eq_true_iff_eq. rewrite (Hy i Hi). unfold bitlen.
  destruct (Z.eqb_spec x 0) as [->|Hne].
  - rewrite Z.ones_spec_high by lia. split; [|done]. intros (s & _ & E). by rewrite Z.bits_0 in E.
  - pose proof (Z.log2_nonneg x). assert (Z.log2 x < 32) by (apply Z.log2_lt_pow2; lia).
    destruct (Z.lt_ge_cases i (Z.log2 x + 1)).
    + rewrite Z.ones_spec_low by lia. split; [done|]. intros _. exists (Z.log2 x - i). split; [lia|].
      replace (i + (Z.log2 x - i)) with (Z.log2 x) by lia. apply Z.bit_log2. lia.
    + rewrite Z.ones_spec_high by lia. split; [|done]. intros (s & Hs & E).
      rewrite Z.bits_above_log2 in E by lia. done.
Qed.

Lemma bitlen_range x : 0 <= x < 2 ^ 32 -> 0 <= bitlen x <= 32.
Proof.
  intros Hx. unfold bitlen. destruct (Z.eqb_spec x 0); [lia|]. pose proof (Z.log2_nonneg x).
  assert (Z.log2 x < 32) by (apply Z.log2_lt_pow2; lia). lia.
Qed.

Lemma ldz_ok x : 0 <= x < 2 ^ 32 -> ldz x = 32 - bitlen x.
Proof.
  intros Hx. pose proof (bitlen_range x Hx) as Hb. unfold ldz.
  pose proof (smear_step x 16 _ eq_refl (smear_step x 8 _ eq_refl (smear_step x 4 _ eq_refl
    (smear_step x 2 _ eq_refl (smear_step x 1 _ eq_refl (smeared_self x)))))) as H.
  rewrite (smeared_ones x _ Hx H), ones_ok by done. apply wrap_small. change (2 ^ 32) with 4294967296. lia.
Qed.

(** The number of bits of [d - 1] is the logarithm rounded up. *)
Lemma LOG2_CEIL_ok d : 1 <= d < 2 ^ 32 -> LOG2_CEIL d = Z.log2_up d.
Proof.
  intros Hd. unfold LOG2_CEIL, u32. rewrite (wrap_small 32 (d - 1)), ldz_ok by lia.
  pose proof (bitlen_range (d - 1) ltac:(lia)). replace (32 - (32 - bitlen (d - 1))) with (bitlen (d - 1)) by lia.
  rewrite wrap_small by (change (2 ^ 32) with 4294967296; lia). unfold bitlen. destruct (Z.eqb_spec (d - 1) 0) as [E|E].
  - by assert (d = 1) as -> by lia.
  - unfold Z.log2_up. rewrite (proj2 (Z.compare_lt_iff 1 d)) by lia. by rewrite Z.sub_1_r, Z.add_1_r.
Qed.

Lemma exp_base_2_ok n : 0 <= n < 32 -> exp_base_2 n = 2 ^ n.
Proof.
  intros Hn. apply Z.eqb_eq. apply (Z_range_forall (fun n => exp_base_2 n =? 2 ^ n) 32); [vm_compute; reflexivity|lia].
Qed.

Lemma exp_base_2_32 : exp_base_2 32 = 0.
Proof. reflexivity. Qed.

(** ** Unsigned division *)

(** The quotient by the constants:
    [(((n - t1) >> sh1) + t1) >> sh2] with the high word [t1] of [mprime * n]. *)
Definition udiv_by_constants (n : Z) (c : Z * Z * Z) : Z :=
  let '(mprime, sh1, sh2) := c in
  let t1 := mprime * n / 2 ^ 32 in
  u32 (u32 (n - t1) / 2 ^ sh1 + t1) / 2 ^ sh2.

(** Multiplying by a number just above [2^k / d] and shifting divides. *)
Lemma multiply_shift d m k n e :
  0 < d -> 0 <= k -> 0 <= n -> m * d = 2 ^ k + e -> 0 <= e -> n * e < 2 ^ k -> n * m / 2 ^ k = n / d.
Proof.
  intros Hd Hk Hn Hm He Hlt. assert (0 < 2 ^ k) as Hp by (apply Z.pow_pos_nonneg; lia).
  pose proof (Z.div_mod n d ltac:(lia)) as Hdm. pose proof (Z.mod_pos_bound n d Hd) as Hr.
  set (q := n / d) in *. set (r := n mod d) in *.
  symmetry. apply (Z.div_unique _ _ _ (n * m - 2 ^ k * q)); [|lia]. left.
  (* d * (n m - 2^k q) = 2^k r + n e *)
  assert (d * (n * m - 2 ^ k * q) = 2 ^ k * r + n * e) as E by nia.
  split; [nia|]. assert (d * (n * m - 2 ^ k * q) < d * 2 ^ k) by nia. nia.
Qed.

(** [ComputeUDivConstants32]: for every divisor but zero the constants are
    in range, and the multiplication, additions and shifts they parametrise
    compute the quotient of every word; no intermediate result overflows
    unnoticed, the additions being taken modulo [2^32]. *)
Lemma udiv_constants_ok d (Hd : 1 <= d < 2 ^ 32) :
  exists mprime sh1 sh2, ComputeUDivConstants32 d = Ok (mprime, sh1, sh2) /\
    0 <= mprime < 2 ^ 32 /\ 0 <= sh1 <= 1 /\ 0 <= sh2 < 32 /\
    forall n, 0 <= n < 2 ^ 32 -> udiv_by_constants n (mprime, sh1, sh2) = n / d.
Proof.
  set (l := Z.log2_up d). pose proof (Z.log2_up_nonneg d) as Hl0.
  assert (l <= 32) as Hl32 by (change 32 with (Z.log2_up (2 ^ 32)); apply Z.log2_up_le_mono; lia).
  assert (d <= 2 ^ l) as Hdl.
  { destruct (Z.eq_dec d 1) as [E|]; [subst l; by rewrite E|]. apply Z.log2_up_spec. lia. }
  assert (d <> 1 -> 2 ^ (l - 1) < d) as Hld by (intros; rewrite Z.sub_1_r; apply Z.log2_up_spec; lia).
  assert (2 ^ l <= 2 ^ 32) as Hpl by (apply Z.pow_le_mono_r; lia).
  assert (0 <= l) by done.
  assert (2 ^ l < 2 * d) as Hl2.
  { destruct (Z.eq_dec d 1) as [E|Hne]; [subst l; rewrite E; done|]. specialize (Hld Hne).
    assert (1 <= l) by (apply (Z.log2_up_le_mono 2 d); lia).
    replace l with (Z.succ (l - 1)) by lia. rewrite Z.pow_succ_r by lia. lia. }
  assert (u32 (exp_base_2 l - d) = 2 ^ l - d) as Emid.
  { unfold u32. destruct (Z.eq_dec l 32) as [->|]; [|rewrite exp_base_2_ok by lia; apply wrap_small; lia].
    rewrite exp_base_2_32. symmetry. apply (Z.mod_unique_pos _ _ (-1)); lia. }
  unfold ComputeUDivConstants32. rewrite LOG2_CEIL_ok by done. fold l. rewrite (signed_small 32 l) by (change (2 ^ (32 - 1)) with 2147483648; lia).
  rewrite Emid, (proj2 (Z.eqb_neq d 0)) by lia. cbn [negb res_assert].
  rewrite (wrap_small 64) by (change (2 ^ 64) with (2 ^ 32 * 2 ^ 32); nia).
  set (m := 2 ^ 32 * (2 ^ l - d) / d + 1).
  pose proof (Z.div_mod (2 ^ 32 * (2 ^ l - d)) d ltac:(lia)) as Hdm.
  pose proof (Z.mod_pos_bound (2 ^ 32 * (2 ^ l - d)) d ltac:(lia)) as Hmod.
  assert (0 <= m < 2 ^ 32) as Hm by (subst m; split; nia).
  assert (u32 m = m) as -> by (by apply wrap_small).
  assert (u32 (Z.min l 1) = Z.min l 1) as -> by (apply wrap_small; change (2 ^ 32) with 4294967296; lia).
  assert (u32 (Z.max (l - 1) 0) = Z.max (l - 1) 0) as -> by (apply wrap_small; change (2 ^ 32) with 4294967296; lia).
  exists m, (Z.min l 1), (Z.max (l - 1) 0). split_and!; try done; try lia. intros n Hn.
  unfold udiv_by_constants. set (t1 := m * n / 2 ^ 32).
  assert (0 <= t1 <= n) as Ht1.
  { subst t1. split; [apply Z.div_pos; nia|]. apply Z.lt_succ_r. apply Z.div_lt_upper_bound; nia. }
  assert ((n + t1) / 2 ^ l = n / d) as Hq.
  { subst t1. rewrite <- (multiply_shift d (2 ^ 32 + m) (32 + l) n (d - 2 ^ 32 * (2 ^ l - d) mod d)); try lia.
    - rewrite Z.pow_add_r, <- Z.div_div by lia. f_equal. replace (n * (2 ^ 32 + m)) with (m * n + n * 2 ^ 32) by ring.
      rewrite Z.div_add by done. lia.
    - rewrite Z.pow_add_r by lia. subst m. clear -Hdm. set (P := 2 ^ 32 * (2 ^ l - d)) in *. set (Q := P / d) in *.
      assert (P = 2 ^ 32 * 2 ^ l - 2 ^ 32 * d) by (subst P; ring).
      rewrite Z.mul_add_distr_r, Z.mul_add_distr_r, Z.mul_1_l, (Z.mul_comm Q d). lia.
    - rewrite Z.pow_add_r by lia. apply (Z.le_lt_trans _ (n * 2 ^ l)); [apply Z.mul_le_mono_nonneg_l; lia|].
      apply Z.mul_lt_mono_pos_r; lia. }
  rewrite <- Hq. unfold u32. rewrite (wrap_small 32 (n - t1)) by lia.
  destruct (Z.eq_dec l 0) as [E0|E0].
  - rewrite E0. cbn [Z.min Z.max Z.sub Z.pow]. rewrite !Z.div_1_r. rewrite wrap_small by lia.
    assert (d = 1) as Ed by (rewrite E0 in Hdl; lia). rewrite E0, Z.pow_0_r, Z.div_1_r in Hq. subst d. rewrite Z.div_1_r in Hq. lia.
  - rewrite Z.min_r, Z.max_l by lia. change (2 ^ 1) with 2.
    assert ((n - t1) / 2 + t1 = (n + t1) / 2) as ->.
    { replace (n + t1) with (n - t1 + t1 * 2) by ring. by rewrite Z.div_add. }
    rewrite wrap_small by (split; [apply Z.div_pos; lia|apply Z.div_lt_upper_bound; lia]).
    rewrite Z.div_div by (lia || (apply Z.pow_nonzero; lia)). f_equal. rewrite <- Z.pow_succ_r by lia. f_equal. lia.
Qed.

(** ** Signed division *)

(** The quotient by the constants: with the sum [q0] of [n] and the high word
    of [mprime * n], [(((q0 >> shpost) - XSIGN(n)) ^ dsign) - dsign]. *)
Definition sdiv_by_constants (n : Z) (c : Z * Z * Z) : Z :=
  let '(mprime, dsign, shpost) := c in
  let q0 := signed 32 (n + Z.shiftr (mprime * n) 32) in
  let q0 := signed 32 (Z.shiftr q0 shpost - Z.shiftr n 31) in
  signed 32 (Z.lxor q0 dsign - dsign).

(** For a negative number the division rounds away from zero. *)
Lemma multiply_shift_neg d m k n e :
  0 < d -> 0 <= k -> 0 < n -> m * d = 2 ^ k + e -> 0 < e -> n * e <= 2 ^ k -> - n * m / 2 ^ k = - (n / d) - 1.
Proof.
  intros Hd Hk Hn Hm He Hle. assert (0 < 2 ^ k) as Hp by (apply Z.pow_pos_nonneg; lia).
  pose proof (Z.div_mod n d ltac:(lia)) as Hdm. pose proof (Z.mod_pos_bound n d Hd) as Hr.
  set (q := n / d) in *. set (r := n mod d) in *. symmetry.
  apply (Z.div_unique _ _ _ (2 ^ k * (q + 1) - n * m)); [|lia]. left.
  assert (d * (2 ^ k * (q + 1) - n * m) = 2 ^ k * (d - r) - n * e) as E by nia.
  assert (2 ^ k <= 2 ^ k * (d - r)) by nia. assert (2 ^ k * (d - r) <= 2 ^ k * d) by nia. assert (0 < n * e) by nia.
  split; [|]; apply Z.nlt_ge || apply Z.nle_gt; intros Hc; nia.
Qed.

(** The sign of a word. *)
Lemma xsign n : - 2 ^ 31 <= n < 2 ^ 31 -> Z.shiftr n 31 = if n <? 0 then -1 else 0.
Proof.
  intros Hn. rewrite Z.shiftr_div_pow2 by done. destruct (Z.ltb_spec n 0).
  - symmetry. apply (Z.div_unique _ _ _ (n + 2 ^ 31)); lia.
  - apply Z.div_small. lia.
Qed.

Lemma lxor_sign q d : Z.lxor q (if d <? 0 then -1 else 0) - (if d <? 0 then -1 else 0) = if d <? 0 then - q else q.
Proof. destruct (d <? 0); [rewrite Z.lxor_m1_r; unfold Z.lnot; lia|rewrite Z.lxor_0_r; lia]. Qed.

(** A word of 64 bits read as one of 32. *)
Lemma signed_wrap_64 x : signed 32 (wrap 64 x) = signed 32 x.
Proof.
  unfold signed, wrap. replace ((x mod 2 ^ 64) mod 2 ^ 32) with (x mod 2 ^ 32); [done|].
  rewrite (Z.mod_eq x (2 ^ 64)) by done. replace (x - 2 ^ 64 * (x / 2 ^ 64)) with (x + (- (2 ^ 32 * (x / 2 ^ 64))) * 2 ^ 32) by ring.
  by rewrite Z.mod_add.
Qed.

(** The constants of a divisor of absolute value [a], with [l] bits. *)
Lemma sdiv_magic a l (m := 2 ^ 32 * 2 ^ (l - 1) / a + 1) :
  1 <= a <= 2 ^ 31 -> 1 <= l <= 31 -> 2 ^ (l - 1) <= a <= 2 ^ l ->
  2 ^ 31 < m <= 2 ^ 32 + 1 /\ (a <> 1 -> 2 ^ (l - 1) < a -> m <= 2 ^ 32) /\
  exists e, m * a = 2 ^ (31 + l) + e /\ 0 < e <= a.
Proof.
  intros Ha Hl Hal. assert (2 ^ l = 2 * 2 ^ (l - 1)) as El by (rewrite <- Z.pow_succ_r by lia; f_equal; lia).
  assert (2 ^ (31 + l) = 2 ^ 32 * 2 ^ (l - 1)) as Ep by (rewrite <- Z.pow_add_r by lia; f_equal; lia).
  subst m. rewrite Ep. set (P := 2 ^ 32 * 2 ^ (l - 1)). pose proof (Z.div_mod P a ltac:(lia)) as Hdm.
  pose proof (Z.mod_pos_bound P a ltac:(lia)) as Hr. split_and!.
  - assert (2 ^ 31 <= P / a); [|lia]. apply Z.div_le_lower_bound; subst P; nia.
  - assert (P / a <= 2 ^ 32); [|lia]. apply Z.div_le_upper_bound; subst P; nia.
  - intros _ Hlt. assert (P / a < 2 ^ 32); [|lia]. apply Z.div_lt_upper_bound; subst P; nia.
  - exists (a - P mod a). split; [|lia]. rewrite Z.mul_add_distr_r, (Z.mul_comm (P / a)). lia.
Qed.

(** The high word of the product and its shift are a division. *)
Lemma sdiv_shift n m l : 1 <= l -> Z.shiftr (n + Z.shiftr ((m - 2 ^ 32) * n) 32) (l - 1) = n * m / 2 ^ (31 + l).
Proof.
  intros Hl. rewrite !Z.shiftr_div_pow2 by lia.
  replace (n + (m - 2 ^ 32) * n / 2 ^ 32) with (n * m / 2 ^ 32).
  - rewrite Z.div_div by (lia || (apply Z.pow_nonzero; lia)). f_equal. rewrite <- Z.pow_add_r by lia. f_equal. lia.
  - replace (n * m) with ((m - 2 ^ 32) * n + n * 2 ^ 32) by ring. rewrite Z.div_add by done. lia.
Qed.

(** Truncated division of a number by a positive one. *)
Lemma sdiv_quotient n a m l e :
  1 <= a -> 1 <= l -> a <= 2 ^ l -> - 2 ^ 31 <= n < 2 ^ 31 -> m * a = 2 ^ (31 + l) + e -> 0 < e <= a ->
  n * m / 2 ^ (31 + l) - Z.shiftr n 31 = Z.quot n a.
Proof.
  intros Ha Hl Hal Hn Hm He. rewrite xsign by done.
  assert (2 ^ (31 + l) = 2 ^ 31 * 2 ^ l) as Ep by (apply Z.pow_add_r; lia). destruct (Z.ltb_spec n 0).
  - assert (0 <= (- n) * e <= 2 ^ 31 * 2 ^ l) as [? ?].
    { split; [nia|]. apply Z.mul_le_mono_nonneg; lia. }
    replace (n * m) with (- - n * m) by ring. rewrite (multiply_shift_neg a m (31 + l) (- n) e) by lia.
    rewrite <- (Z.opp_involutive n) at 2. rewrite Z.quot_opp_l, Z.quot_div_nonneg by lia. lia.
  - rewrite (multiply_shift a m (31 + l) n e); try lia; [by rewrite Z.quot_div_nonneg by lia; rewrite Z.sub_0_r|].
    rewrite Ep. apply (Z.le_lt_trans _ (n * 2 ^ l)); [apply Z.mul_le_mono_nonneg_l; lia|].
    apply Z.mul_lt_mono_pos_r; [|lia]. apply Z.pow_pos_nonneg; lia.
Qed.

Lemma quot_range n a : 1 <= a -> - 2 ^ 31 <= n < 2 ^ 31 -> - 2 ^ 31 <= Z.quot n a < 2 ^ 31.
Proof.
  intros Ha Hn. destruct (Z.le_gt_cases 0 n).
  - rewrite Z.quot_div_nonneg by lia. split; [pose proof (Z.div_pos n a); lia|].
    apply (Z.le_lt_trans _ n); [|lia]. apply Z.div_le_upper_bound; nia.
  - rewrite <- (Z.opp_involutive n), Z.quot_opp_l, Z.quot_div_nonneg by lia.
    assert (0 <= - n / a <= - n); [|lia]. split; [apply Z.div_pos; lia|apply Z.div_le_upper_bound; nia].
Qed.

Lemma sdiv_core n a l (m := 2 ^ 32 * 2 ^ (l - 1) / a + 1) :
  1 <= a <= 2 ^ 31 -> 1 <= l <= 31 -> 2 ^ (l - 1) <= a <= 2 ^ l -> (a = 1 /\ l = 1 \/ 2 ^ (l - 1) < a) ->
  - 2 ^ 31 <= n < 2 ^ 31 ->
  signed 32 (Z.shiftr (signed 32 (n + Z.shiftr ((m - 2 ^ 32) * n) 32)) (l - 1) - Z.shiftr n 31) = Z.quot n a.
Proof.
  intros Ha Hl Hal Hc Hn. destruct Hc as [[-> ->]|Hlt].
  - subst m. change (2 ^ 32 * 2 ^ (1 - 1) / 1 + 1 - 2 ^ 32) with 1. rewrite Z.mul_1_l, Z.quot_1_r. change (1 - 1) with 0.
    rewrite Z.shiftr_0_r. rewrite (xsign n Hn). assert (Z.shiftr n 32 = if n <? 0 then -1 else 0) as ->.
    { change 32 with (31 + 1). rewrite <- Z.shiftr_shiftr by done. rewrite (xsign n Hn). by destruct (n <? 0). }
    destruct (Z.ltb_spec n 0); [|rewrite Z.add_0_r, Z.sub_0_r, !(signed_small 32 n) by (exact Hn || lia); done].
    destruct (Z.eq_dec n (- 2 ^ 31)) as [->|]; [reflexivity|].
    rewrite (signed_small 32 (n + -1)) by (change (2 ^ (32 - 1)) with (2 ^ 31); lia).
    replace (n + -1 - -1) with n by lia. by apply signed_small.
  - destruct (sdiv_magic a l Ha Hl Hal) as (Hm & Hm' & e & Em & He). fold m in Hm, Hm', Em.
    assert (a <> 1) as Ha1 by (intros ->; assert (0 < 2 ^ (l - 1)) by (apply Z.pow_pos_nonneg; lia); lia).
    specialize (Hm' Ha1 Hlt).
    rewrite (signed_small 32 (n + _)); [|lia|].
    + rewrite sdiv_shift, (sdiv_quotient n a m l e) by (done || lia). apply signed_small; [lia|]. apply quot_range; [lia|done].
    + change (2 ^ (32 - 1)) with (2 ^ 31). rewrite Z.shiftr_div_pow2 by done.
      replace (n + (m - 2 ^ 32) * n / 2 ^ 32) with (n * m / 2 ^ 32).
      * split; [apply Z.div_le_lower_bound; nia|apply Z.div_lt_upper_bound; nia].
      * replace (n * m) with ((m - 2 ^ 32) * n + n * 2 ^ 32) by ring. rewrite Z.div_add by done. lia.
Qed.

(** [ComputeSDivConstants32]: for every divisor but zero, the smallest
    number included, the constants are in range, and the multiplication,
    additions, shifts and the exclusive or they parametrise compute the
    quotient rounded towards zero of every word, wrapped around in the one case
    that overflows. *)
Lemma sdiv_constants_ok d (Hd : - 2 ^ 31 <= d < 2 ^ 31) (Hnz : d <> 0) :
  exists mprime dsign shpost, ComputeSDivConstants32 d = Ok (mprime, dsign, shpost) /\
    - 2 ^ 31 <= mprime < 2 ^ 31 /\ dsign = (if d <? 0 then -1 else 0) /\ 0 <= shpost < 31 /\
    forall n, - 2 ^ 31 <= n < 2 ^ 31 -> sdiv_by_constants n (mprime, dsign, shpost) = signed 32 (Z.quot n d).
Proof.
  set (a := Z.abs d). assert ((if 0 <? d then d else - d) = a) as Ea by (bool_case; lia).
  assert (1 <= a <= 2 ^ 31) as Ha by lia.
  set (l := Z.max 1 (Z.log2_up a)). pose proof (Z.log2_up_nonneg a).
  assert (Z.log2_up a <= 31) by (change 31 with (Z.log2_up (2 ^ 31)); apply Z.log2_up_le_mono; lia).
  assert ((if a =? 2 ^ 31 then 31 else signed 32 (Z.max 1 (LOG2_CEIL (u32 a)))) = l) as El.
  { destruct (Z.eqb_spec a (2 ^ 31)) as [E|]; [subst l; rewrite E; done|]. unfold u32.
    rewrite (wrap_small 32 a), LOG2_CEIL_ok by lia. fold l. apply signed_small; [lia|]. change (2 ^ (32 - 1)) with 2147483648. lia. }
  assert (2 ^ (l - 1) <= a <= 2 ^ l /\ (a = 1 /\ l = 1 \/ 2 ^ (l - 1) < a)) as [Hal Hc].
  { destruct (Z.eq_dec a 1) as [E|]; [subst l; rewrite E; split_and!; [done|done|by left]|].
    assert (1 <= Z.log2_up a) by (apply (Z.log2_up_le_mono 2 a); lia). subst l. rewrite Z.max_r by lia.
    destruct (Z.log2_up_spec a) as [Hlo Hhi]; [lia|]. rewrite <- Z.sub_1_r in Hlo. split; [lia|by right]. }
  unfold ComputeSDivConstants32. rewrite Ea, El, exp_base_2_ok, (proj2 (Z.eqb_neq a 0)) by lia. cbn [negb res_assert].
  set (m := 2 ^ 32 * 2 ^ (l - 1) / a + 1).
  assert (l <= 31) as Hl31 by lia. assert (2 ^ (l - 1) <= 2 ^ 30) by (apply Z.pow_le_mono_r; lia).
  destruct (sdiv_magic a l Ha ltac:(lia) Hal) as (Hm & _ & _). fold m in Hm.
  rewrite (wrap_small 64 (2 ^ 32 * 2 ^ (l - 1))) by (change (2 ^ 64) with (2 ^ 32 * 2 ^ 32); nia). fold m.
  rewrite (wrap_small 64 m), signed_wrap_64 by (change (2 ^ 64) with (2 ^ 32 * 2 ^ 32); lia).
  rewrite (signed_small 32 (m - 2 ^ 32)) by (change (2 ^ (32 - 1)) with (2 ^ 31); lia). rewrite (xsign d Hd).
  do 3 eexists. split; [done|]. split_and!; try done; try lia. intros n Hn. unfold sdiv_by_constants.
  pose proof (sdiv_core n a l Ha ltac:(lia) Hal Hc Hn) as Hq. cbv zeta in Hq. fold m in Hq. rewrite Hq, lxor_sign. f_equal. destruct (Z.ltb_spec d 0).
  - rewrite <- Z.quot_opp_r by lia. f_equal. lia.
  - f_equal. lia.
Qed.

(** ** Arithmetic by constants *)

(** C19. The constants are right: for every word [x] the words of
    [ComputeMultConstants64] have no bit in common and differ by [x]; for every
    divisor but zero, the smallest signed number included, [ComputeUDivConstants32]
    and [ComputeSDivConstants32] fail no assertion, their constants are in range,
    and the multiplication, additions and shifts the constants parametrise
    compute the quotient of every word (rounded towards zero when signed, and
    wrapped around in the one case that overflows). *)
Theorem constant_arithmetic_correct x d sd (Hx : 0 <= x < 2 ^ 64) (Hd : 1 <= d < 2 ^ 32)
    (Hsd : - 2 ^ 31 <= sd < 2 ^ 31) (Hnz : sd <> 0) :
  (exists add sub, ComputeMultConstants64 x = Ok (add, sub) /\ 0 <= add < 2 ^ 64 /\ 0 <= sub < 2 ^ 64 /\
     Z.land add sub = 0 /\ wrap 64 (add - sub) = x) /\
  (exists mprime sh1 sh2, ComputeUDivConstants32 d = Ok (mprime, sh1, sh2) /\
     0 <= mprime < 2 ^ 32 /\ 0 <= sh1 <= 1 /\ 0 <= sh2 < 32 /\
     forall n, 0 <= n < 2 ^ 32 -> udiv_by_constants n (mprime, sh1, sh2) = n / d) /\
  (exists mprime dsign shpost, ComputeSDivConstants32 sd = Ok (mprime, dsign, shpost) /\
     - 2 ^ 31 <= mprime < 2 ^ 31 /\ dsign = (if sd <? 0 then -1 else 0) /\ 0 <= shpost < 31 /\
     forall n, - 2 ^ 31 <= n < 2 ^ 31 -> sdiv_by_constants n (mprime, dsign, shpost) = signed 32 (Z.quot n sd)).
Proof. split; [by apply mult_constants_ok|]. split; [by apply udiv_constants_ok|by apply sdiv_constants_ok]. Qed.

Lemma constant_arithmetic_correct_witness :
  (exists add sub, ComputeMultConstants64 1003 = Ok (add, sub) /\ 0 <= add < 2 ^ 64 /\ 0 <= sub < 2 ^ 64 /\
     Z.land add sub = 0 /\ wrap 64 (add - sub) = 1003) /\
  (exists mprime sh1 sh2, ComputeUDivConstants32 7 = Ok (mprime, sh1, sh2) /\
     0 <= mprime < 2 ^ 32 /\ 0 <= sh1 <= 1 /\ 0 <= sh2 < 32 /\
     forall n, 0 <= n < 2 ^ 32 -> udiv_by_constants n (mprime, sh1, sh2) = n / 7) /\
  (exists mprime dsign shpost, ComputeSDivConstants32 (-7) = Ok (mprime, dsign, shpost) /\
     - 2 ^ 31 <= mprime < 2 ^ 31 /\ dsign = -1 /\ 0 <= shpost < 31 /\
     forall n, - 2 ^ 31 <= n < 2 ^ 31 -> sdiv_by_constants n (mprime, dsign, shpost) = signed 32 (Z.quot n (-7))).
Proof. apply (constant_arithmetic_correct 1003 7 (-7)); lia. Defined.
