(* ===== verification/STP.v ===== *)
(** The interface to the solver STP (stp/c_interface.h), which is not part of
    the repository.  [Class STP] lists the functions klee/lib/Solver/STPBuilder.cpp
    calls, [Class STPLaws] their documented meaning: the value of a term under
    an interpretation of the array variables.  A term that is not well-typed
    has no value, and nothing is said of it.  [stp_terms] is a concrete
    instance, terms as trees, that satisfies the laws. *)
From Stdlib Require Import ZArith Lia Bool String.
From stdpp Require Import base list numbers option.
From S2P Require Import Prelude APInt.
Open Scope Z_scope.

(** Values: truth values, words of a width, arrays of words by an index. *)
Inductive value : Type :=
| VBool (b : bool)
| VBV (w x : Z)
| VArr (iw vw : Z) (f : Z -> Z).

Inductive vtype : Type := TyBool | TyBV (w : Z) | TyArr (iw vw : Z).

#[export] Instance vtype_eq_dec : EqDecision vtype.
Proof. solve_decision. Defined.

Definition type_of (v : value) : vtype :=
  match v with VBool _ => TyBool | VBV w _ => TyBV w | VArr iw vw _ => TyArr iw vw end.

(** The contents of the array variables, by name. *)
Definition model : Type := string -> Z -> Z.

(** * The functions of the interface *)
Class STP := {
  VCExpr : Type;
  VCType : Type;
  vc_bvType : Z -> VCType;
  vc_arrayType : VCType -> VCType -> VCType;
  vc_varExpr : string -> VCType -> VCExpr;
  vc_trueExpr : VCExpr;
  vc_falseExpr : VCExpr;
  vc_bvConstExprFromInt : Z -> Z -> VCExpr;
  vc_bvConstExprFromLL : Z -> Z -> VCExpr;
  vc_bvConcatExpr : VCExpr -> VCExpr -> VCExpr;
  (* from the high bit down to the low bit *)
  vc_bvExtract : VCExpr -> Z -> Z -> VCExpr;
  vc_bvSignExtend : VCExpr -> Z -> VCExpr;
  vc_eqExpr : VCExpr -> VCExpr -> VCExpr;
  vc_iffExpr : VCExpr -> VCExpr -> VCExpr;
  vc_iteExpr : VCExpr -> VCExpr -> VCExpr -> VCExpr;
  vc_notExpr : VCExpr -> VCExpr;
  vc_andExpr : VCExpr -> VCExpr -> VCExpr;
  vc_orExpr : VCExpr -> VCExpr -> VCExpr;
  vc_bvNotExpr : VCExpr -> VCExpr;
  vc_bvUMinusExpr : VCExpr -> VCExpr;
  vc_bvAndExpr : VCExpr -> VCExpr -> VCExpr;
  vc_bvOrExpr : VCExpr -> VCExpr -> VCExpr;
  vc_bvXorExpr : VCExpr -> VCExpr -> VCExpr;
  vc_bvPlusExpr : Z -> VCExpr -> VCExpr -> VCExpr;
  vc_bvMinusExpr : Z -> VCExpr -> VCExpr -> VCExpr;
  vc_bvMultExpr : Z -> VCExpr -> VCExpr -> VCExpr;
  vc_bvDivExpr : Z -> VCExpr -> VCExpr -> VCExpr;
  vc_bvModExpr : Z -> VCExpr -> VCExpr -> VCExpr;
  vc_sbvDivExpr : Z -> VCExpr -> VCExpr -> VCExpr;
  vc_sbvRemExpr : Z -> VCExpr -> VCExpr -> VCExpr;
  vc_bvLtExpr : VCExpr -> VCExpr -> VCExpr;
  vc_bvLeExpr : VCExpr -> VCExpr -> VCExpr;
  vc_sbvLtExpr : VCExpr -> VCExpr -> VCExpr;
  vc_sbvLeExpr : VCExpr -> VCExpr -> VCExpr;
  vc_readExpr : VCExpr -> VCExpr -> VCExpr;
  vc_writeExpr : VCExpr -> VCExpr -> VCExpr -> VCExpr;
  vc_getBVLength : VCExpr -> Z;
}.

(** The operations on two words of a width, by the operator they stand for. *)
Definition vc_arith `{STP} (k : BinKind) (w : Z) (a b : VCExpr) : option VCExpr :=
  match k with
  | Add => Some (vc_bvPlusExpr w a b)
  | Sub => Some (vc_bvMinusExpr w a b)
  | Mul => Some (vc_bvMultExpr w a b)
  | UDiv => Some (vc_bvDivExpr w a b)
  | URem => Some (vc_bvModExpr w a b)
  | SDiv => Some (vc_sbvDivExpr w a b)
  | SRem => Some (vc_sbvRemExpr w a b)
  | And => Some (vc_bvAndExpr a b)
  | Or => Some (vc_bvOrExpr a b)
  | Xor => Some (vc_bvXorExpr a b)
  | _ => None
  end.

Definition vc_compare `{STP} (k : BinKind) (a b : VCExpr) : option VCExpr :=
  match k with
  | Ult => Some (vc_bvLtExpr a b)
  | Ule => Some (vc_bvLeExpr a b)
  | Slt => Some (vc_sbvLtExpr a b)
  | Sle => Some (vc_sbvLeExpr a b)
  | _ => None
  end.

(** * Their documented meaning

    A division by zero has some value; constants are made of words of at most
    64 bits. *)
Class STPLaws (T : STP) := {
  den : model -> VCExpr -> option value;
  den_array m n iw vw : 0 < iw -> 0 < vw ->
    den m (vc_varExpr n (vc_arrayType (vc_bvType iw) (vc_bvType vw))) = Some (VArr iw vw (fun i => wrap vw (m n i)));
  den_true m : den m vc_trueExpr = Some (VBool true);
  den_false m : den m vc_falseExpr = Some (VBool false);
  den_const_int m w v : 0 < w <= 64 -> 0 <= v < 2 ^ 32 -> v < 2 ^ w ->
    den m (vc_bvConstExprFromInt w v) = Some (VBV w v);
  den_const_ll m w v : 0 < w <= 64 -> 0 <= v < 2 ^ 64 ->
    den m (vc_bvConstExprFromLL w v) = Some (VBV w (wrap w v));
  den_concat m a b w w' x y : den m a = Some (VBV w x) -> den m b = Some (VBV w' y) -> 0 < w' ->
    den m (vc_bvConcatExpr a b) = Some (VBV (w + w') (x * 2 ^ w' + y));
  den_extract m a w x hi lo : den m a = Some (VBV w x) -> 0 <= lo <= hi -> hi < w ->
    den m (vc_bvExtract a hi lo) = Some (VBV (hi - lo + 1) (wrap (hi - lo + 1) (x / 2 ^ lo)));
  den_sext m a w x w' : den m a = Some (VBV w x) -> 0 < w <= w' ->
    den m (vc_bvSignExtend a w') = Some (VBV w' (wrap w' (signed w x)));
  den_eq m a b w x y : den m a = Some (VBV w x) -> den m b = Some (VBV w y) ->
    den m (vc_eqExpr a b) = Some (VBool (x =? y));
  den_iff m a b x y : den m a = Some (VBool x) -> den m b = Some (VBool y) ->
    den m (vc_iffExpr a b) = Some (VBool (Bool.eqb x y));
  den_ite m c a b t v v' : den m c = Some (VBool t) -> den m a = Some v -> den m b = Some v' ->
    type_of v = type_of v' -> den m (vc_iteExpr c a b) = Some (if t then v else v');
  den_not m a x : den m a = Some (VBool x) -> den m (vc_notExpr a) = Some (VBool (negb x));
  den_and m a b x y : den m a = Some (VBool x) -> den m b = Some (VBool y) ->
    den m (vc_andExpr a b) = Some (VBool (x && y));
  den_or m a b x y : den m a = Some (VBool x) -> den m b = Some (VBool y) ->
    den m (vc_orExpr a b) = Some (VBool (x || y));
  den_bvnot m a w x : den m a = Some (VBV w x) -> den m (vc_bvNotExpr a) = Some (VBV w (wrap w (Z.lnot x)));
  den_uminus m a w x : den m a = Some (VBV w x) -> den m (vc_bvUMinusExpr a) = Some (VBV w (wrap w (- x)));
  den_arith m k w a b x y h : vc_arith k w a b = Some h -> 0 < w ->
    den m a = Some (VBV w x) -> 0 <= x < 2 ^ w -> den m b = Some (VBV w y) -> 0 <= y < 2 ^ w ->
    exists z, den m h = Some (VBV w z) /\ 0 <= z < 2 ^ w /\ forall v, bin_sem k w x y = Some v -> z = v;
  den_compare m k w a b x y h t : vc_compare k a b = Some h ->
    den m a = Some (VBV w x) -> den m b = Some (VBV w y) -> bin_sem k w x y = Some (Z.b2z t) ->
    den m h = Some (VBool t);
  den_read m a iw vw f i x : den m a = Some (VArr iw vw f) -> den m i = Some (VBV iw x) ->
    den m (vc_readExpr a i) = Some (VBV vw (f x));
  den_write m a iw vw f i x v y : den m a = Some (VArr iw vw f) -> den m i = Some (VBV iw x) ->
    den m v = Some (VBV vw y) ->
    den m (vc_writeExpr a i v) = Some (VArr iw vw (fun j => if x =? j then y else f j));
  den_length m a w x : den m a = Some (VBV w x) -> vc_getBVLength a = w;
}.

(** * A concrete instance: terms as trees *)

Inductive term : Type :=
| TVar (n : string) (iw vw : Z)
| TBool (b : bool)
| TWord (w v : Z)
| TConcat (a b : term)
| TExtract (a : term) (hi lo : Z)
| TSExt (a : term) (w : Z)
| TEq (a b : term)
| TIff (a b : term)
| TIte (c a b : term)
| TNot (a : term)
| TAnd (a b : term)
| TOr (a b : term)
| TBvNot (a : term)
| TNeg (a : term)
| TArith (k : BinKind) (w : Z) (a b : term)
| TCompare (k : BinKind) (a b : term)
| TRead (a i : term)
| TWrite (a i v : term).

Definition on_words {X} (v v' : option value) (f : Z -> Z -> Z -> X) : option X :=
  match v, v' with
  | Some (VBV w x), Some (VBV w' y) => if w =? w' then Some (f w x y) else None
  | _, _ => None
  end.

Definition on_bools {X} (v v' : option value) (f : bool -> bool -> X) : option X :=
  match v, v' with Some (VBool x), Some (VBool y) => Some (f x y) | _, _ => None end.

Fixpoint eval (m : model) (t : term) : option value :=
  match t with
  | TVar n iw vw => Some (VArr iw vw (fun i => wrap vw (m n i)))
  | TBool b => Some (VBool b)
  | TWord w v => Some (VBV w v)
  | TConcat a b =>
      match eval m a, eval m b with
      | Some (VBV w x), Some (VBV w' y) => Some (VBV (w + w') (x * 2 ^ w' + y))
      | _, _ => None
      end
  | TExtract a hi lo =>
      match eval m a with
      | Some (VBV w x) => Some (VBV (hi - lo + 1) (wrap (hi - lo + 1) (x / 2 ^ lo)))
      | _ => None
      end
  | TSExt a w' => match eval m a with Some (VBV w x) => Some (VBV w' (wrap w' (signed w x))) | _ => None end
  | TEq a b => on_words (eval m a) (eval m b) (fun w x y => VBool (x =? y))
  | TIff a b => on_bools (eval m a) (eval m b) (fun x y => VBool (Bool.eqb x y))
  | TIte c a b =>
      match eval m c, eval m a, eval m b with
      | Some (VBool t), Some v, Some v' => if decide (type_of v = type_of v') then Some (if t then v else v') else None
      | _, _, _ => None
      end
  | TNot a => match eval m a with Some (VBool x) => Some (VBool (negb x)) | _ => None end
  | TAnd a b => on_bools (eval m a) (eval m b) (fun x y => VBool (x && y))
  | TOr a b => on_bools (eval m a) (eval m b) (fun x y => VBool (x || y))
  | TBvNot a => match eval m a with Some (VBV w x) => Some (VBV w (wrap w (Z.lnot x))) | _ => None end
  | TNeg a => match eval m a with Some (VBV w x) => Some (VBV w (wrap w (- x))) | _ => None end
  | TArith k w a b =>
      on_words (eval m a) (eval m b) (fun w x y => VBV w (default 0 (bin_sem k w x y)))
  | TCompare k a b =>
      on_words (eval m a) (eval m b) (fun w x y => VBool (default 0 (bin_sem k w x y) =? 1))
  | TRead a i =>
      match eval m a, eval m i with
      | Some (VArr iw vw f), Some (VBV iw' x) => if iw =? iw' then Some (VBV vw (f x)) else None
      | _, _ => None
      end
  | TWrite a i v =>
      match eval m a, eval m i, eval m v with
      | Some (VArr iw vw f), Some (VBV iw' x), Some (VBV vw' y) =>
          if (iw =? iw') && (vw =? vw') then Some (VArr iw vw (fun j => if x =? j then y else f j)) else None
      | _, _, _ => None
      end
  end.

(** The type of a term does not depend on the interpretation. *)
Lemma eval_type m m' t : option_map type_of (eval m t) = option_map type_of (eval m' t).
Proof.
  induction t; cbn [eval]; try done.
  all: repeat match goal with
  | IH : option_map type_of (eval ?m ?t) = option_map type_of (eval ?m' ?t) |- _ =>
      destruct (eval m t) as [[?|? ?|? ? ?]|], (eval m' t) as [[?|? ?|? ? ?]|]; cbn in IH; try discriminate IH;
      simplify_eq; clear IH; cbn [on_words on_bools]; try done
  end.
  all: repeat case_match; cbn in *; try done; try congruence.
Qed.

Definition term_length (t : term) : Z :=
  match eval (fun _ _ => 0) t with Some (VBV w _) => w | _ => 0 end.

#[export] Instance stp_terms : STP := {|
  VCExpr := term;
  VCType := vtype;
  vc_bvType := TyBV;
  vc_arrayType t t' := match t, t' with TyBV iw, TyBV vw => TyArr iw vw | _, _ => TyBool end;
  vc_varExpr n t := match t with TyArr iw vw => TVar n iw vw | _ => TBool false end;
  vc_trueExpr := TBool true;
  vc_falseExpr := TBool false;
  vc_bvConstExprFromInt := TWord;
  vc_bvConstExprFromLL w v := TWord w (wrap w v);
  vc_bvConcatExpr := TConcat;
  vc_bvExtract := TExtract;
  vc_bvSignExtend := TSExt;
  vc_eqExpr := TEq;
  vc_iffExpr := TIff;
  vc_iteExpr := TIte;
  vc_notExpr := TNot;
  vc_andExpr := TAnd;
  vc_orExpr := TOr;
  vc_bvNotExpr := TBvNot;
  vc_bvUMinusExpr := TNeg;
  vc_bvAndExpr := TArith And 0;
  vc_bvOrExpr := TArith Or 0;
  vc_bvXorExpr := TArith Xor 0;
  vc_bvPlusExpr := TArith Add;
  vc_bvMinusExpr := TArith Sub;
  vc_bvMultExpr := TArith Mul;
  vc_bvDivExpr := TArith UDiv;
  vc_bvModExpr := TArith URem;
  vc_sbvDivExpr := TArith SDiv;
  vc_sbvRemExpr := TArith SRem;
  vc_bvLtExpr := TCompare Ult;
  vc_bvLeExpr := TCompare Ule;
  vc_sbvLtExpr := TCompare Slt;
  vc_sbvLeExpr := TCompare Sle;
  vc_readExpr := TRead;
  vc_writeExpr := TWrite;
  vc_getBVLength := term_length;
|}.

#[export] Instance stp_terms_laws : STPLaws stp_terms.
Proof.
  apply (Build_STPLaws stp_terms eval); intros; cbn in *; unfold on_words, on_bools in *;
    repeat match goal with
    | H : eval _ _ = Some _ |- _ => rewrite H; clear H
    end; rewrite ?Z.eqb_refl; try done.
  - by rewrite decide_True by done.
  - assert (exists w', h = TArith k w' a b) as [w' ->] by (destruct k; cbn in H; simplify_eq; eauto). cbn.
    rewrite H1, H3. cbn. rewrite Z.eqb_refl. eexists. split; [done|]. split.
    + destruct (bin_sem k w x y) as [v|] eqn:E; cbn; [|lia].
      apply bin_sem_range in E; [|done..]. unfold bin_width in E. destruct (is_cmp k) eqn:Ec; [|done].
      by destruct k.
    + intros v E. by rewrite E.
  - assert (h = TCompare k a b) as -> by (destruct k; cbn in H; by simplify_eq). cbn. rewrite H0, H1. cbn.
    rewrite Z.eqb_refl, H2. cbn. by destruct t.
  - unfold term_length. pose proof (eval_type (fun _ _ => 0) m a) as E. rewrite H in E. cbn in E.
    destruct (eval (fun _ _ => 0) a) as [[]|]; cbn in E; by simplify_eq.
Defined.
