(* ===== verification/STPBuilder.v ===== *)
(** The translation of expressions for the solver STP:
    klee/lib/Solver/STPBuilder.cpp and STPBuilder.h, with the tables of
    klee/include/klee/Expr/ArrayExprHash.h.

    - The terms are STP's ([VCExpr] of [STP]); the reference counts of
      [ExprHandle] are not modelled.
    - The three tables are association lists.  [constructed] finds an
      expression by [operator==]; the tables of arrays and of update nodes find
      a pointer.  The pointer to an update node is not in the data: the address
      of the node that a visit of [getArrayForUpdate] sees is the parameter
      [node_address].  Visits are counted ([visits]), as the nodes of an
      expression may be freed, and their addresses given to others, while the
      table still has them.
    - Where C++ leaves the order of evaluation of arguments open, they are
      evaluated from left to right; the order only numbers the arrays. *)
From Stdlib Require Import ZArith Lia Bool String.
From stdpp Require Import base list numbers option strings.
From S2P Require Import Prelude Bits APInt Expr ConstantDivision STP.
Open Scope Z_scope.

Section builder.
Context {A : APInt} {AR : Arrays} {T : STP}.

(** ** Constants *)

Definition getTrue : VCExpr := vc_trueExpr.
Definition getFalse : VCExpr := vc_falseExpr.
Definition bvConst32 (width value : Z) : VCExpr := vc_bvConstExprFromInt width value.
Definition bvConst64 (width value : Z) : VCExpr := vc_bvConstExprFromLL width value.

Fixpoint bvZExtConst_loop (fuel : nat) (width : Z) (zero expr : VCExpr) : res VCExpr :=
  if 64 <? width then
    match fuel with
    | O => OutOfFuel
    | S fuel => bvZExtConst_loop fuel (width - 64) zero (vc_bvConcatExpr zero expr)
    end
  else Ok (vc_bvConcatExpr (bvConst64 width 0) expr).

Definition bvZExtConst (width value : Z) : res VCExpr :=
  if width <=? 64 then Ok (bvConst64 width value)
  else bvZExtConst_loop (Z.to_nat width) (width - 64) (bvConst64 64 0) (bvConst64 64 value).

Definition bvSExtConst (width value : Z) : VCExpr :=
  if width <=? 64 then bvConst64 width value else vc_bvSignExtend (bvConst64 64 value) width.

Definition bvOne (width : Z) : res VCExpr := bvZExtConst width 1.
Definition bvZero (width : Z) : res VCExpr := bvZExtConst width 0.
Definition bvMinusOne (width : Z) : VCExpr := bvSExtConst width (wrap 64 (-1)).

(** ** Words *)

Definition bvExtract (expr : VCExpr) (top bottom : Z) : VCExpr := vc_bvExtract expr top bottom.

Definition bvBoolExtract (expr : VCExpr) (bit : Z) : res VCExpr :=
  let* one := bvOne 1 in Ok (vc_eqExpr (bvExtract expr bit bit) one).

Definition eqExpr (a b : VCExpr) : res VCExpr :=
  assert* vc_getBVLength a =? vc_getBVLength b in Ok (vc_eqExpr a b).

(* logical right shift *)
Definition bvRightShift (expr : VCExpr) (shift : Z) : res VCExpr :=
  let width := vc_getBVLength expr in
  if shift =? 0 then Ok expr
  else if width <=? shift then bvZero width
  else let* zero := bvZero shift in Ok (vc_bvConcatExpr zero (bvExtract expr (width - 1) shift)).

(* logical left shift *)
Definition bvLeftShift (expr : VCExpr) (shift : Z) : res VCExpr :=
  let width := vc_getBVLength expr in
  if shift =? 0 then Ok expr
  else if width <=? shift then bvZero width
  else let* zero := bvZero shift in Ok (vc_bvConcatExpr (bvExtract expr (width - shift - 1) 0) zero).

(* the bits of the amount that a shift of [width] bits looks at *)
Definition extractPartialShiftValue (shift : VCExpr) (width : Z) : VCExpr * Z :=
  let shiftBits := ap_activeBits (ap_make 32 width) in
  (vc_bvExtract shift (shiftBits - 1) 0, shiftBits).

(* the loops of the variable shifts: a case for every amount below n *)
Fixpoint shift_cases (shiftBits : Z) (shift_ext : VCExpr) (shifted : Z -> res VCExpr) (n : nat) (r : VCExpr) :
    res VCExpr :=
  match n with
  | O => Ok r
  | S n =>
      let i := Z.of_nat n in
      let* c := eqExpr shift_ext (bvConst32 shiftBits i) in
      let* t := shifted i in
      shift_cases shiftBits shift_ext shifted n (vc_iteExpr c t r)
  end.

(* overshifting shifts to zero *)
Definition unless_overshift (shift : VCExpr) (width : Z) (r : VCExpr) : res VCExpr :=
  let ex := vc_bvLtExpr shift (bvConst32 (vc_getBVLength shift) width) in
  let* zero := bvZero width in Ok (vc_iteExpr ex r zero).

Definition bvVarLeftShift (expr shift : VCExpr) : res VCExpr :=
  let width := vc_getBVLength expr in
  let* r := bvZero width in
  let '(shift_ext, shiftBits) := extractPartialShiftValue shift width in
  let* r := shift_cases shiftBits shift_ext (bvLeftShift expr) (Z.to_nat width) r in
  unless_overshift shift width r.

Definition bvVarRightShift (expr shift : VCExpr) : res VCExpr :=
  let width := vc_getBVLength expr in
  let* r := bvZero width in
  let '(shift_ext, shiftBits) := extractPartialShiftValue shift width in
  let* r := shift_cases shiftBits shift_ext (bvRightShift expr) (Z.to_nat width) r in
  unless_overshift shift width r.

Definition constructAShrByConstant (expr : VCExpr) (shift : Z) (isSigned : VCExpr) : res VCExpr :=
  let width := vc_getBVLength expr in
  if shift =? 0 then Ok expr
  else if width <=? shift then bvZero width
  else
    let* r := bvRightShift expr shift in
    Ok (vc_iteExpr isSigned (vc_bvConcatExpr (bvMinusOne shift) (bvExtract expr (width - 1) shift)) r).

Definition bvVarArithRightShift (expr shift : VCExpr) : res VCExpr :=
  let width := vc_getBVLength expr in
  let '(shift_ext, shiftBits) := extractPartialShiftValue shift width in
  let* signedBool := bvBoolExtract expr (width - 1) in
  let* r := constructAShrByConstant expr (width - 1) signedBool in
  let* r := shift_cases shiftBits shift_ext (fun i => constructAShrByConstant expr i signedBool)
              (Z.to_nat (width - 1)) r in
  unless_overshift shift width r.

(** ** Multiplication and division by constants *)

Fixpoint mul_by_constant_loop (expr : VCExpr) (width add sub : Z) (n : nat) (r : option VCExpr) : res (option VCExpr) :=
  match n with
  | O => Ok r
  | S n =>
      let bit := wrap 64 (Z.shiftl 1 (Z.of_nat n)) in
      let a := negb (Z.land add bit =? 0) in
      let s := negb (Z.land sub bit =? 0) in
      if a || s then
        assert* negb (a && s) in
        let* op := bvLeftShift expr (Z.of_nat n) in
        let r :=
          if a then match r with Some r => vc_bvPlusExpr width r op | None => op end
          else match r with Some r => vc_bvMinusExpr width r op | None => vc_bvUMinusExpr op end in
        mul_by_constant_loop expr width add sub n (Some r)
      else mul_by_constant_loop expr width add sub n r
  end.

Definition constructMulByConstant (expr : VCExpr) (width x : Z) : res VCExpr :=
  let* c := ComputeMultConstants64 x in
  let* add := bits64.truncateToNBits (fst c) width in
  let* sub := bits64.truncateToNBits (snd c) width in
  let* r := mul_by_constant_loop expr width add sub 64 None in
  match r with Some r => Ok r | None => bvZero width end.

Definition constructUDivByConstant (expr_n : VCExpr) (width d : Z) : res VCExpr :=
  assert* width =? 32 in
  let* c := ComputeUDivConstants32 (u32 d) in
  let '(mprime, sh1, sh2) := c in
  let expr_sh1 := bvConst32 32 sh1 in
  let expr_sh2 := bvConst32 32 sh2 in
  let* zero := bvZero 32 in
  let expr_n_64 := vc_bvConcatExpr zero expr_n in
  let* t1_64bits := constructMulByConstant expr_n_64 64 mprime in
  let t1 := vc_bvExtract t1_64bits 63 32 in
  let n_minus_t1 := vc_bvMinusExpr width expr_n t1 in
  let* shift_sh1 := bvVarRightShift n_minus_t1 expr_sh1 in
  let plus_t1 := vc_bvPlusExpr width shift_sh1 t1 in
  bvVarRightShift plus_t1 expr_sh2.

Definition constructSDivByConstant (expr_n : VCExpr) (width d : Z) : res VCExpr :=
  assert* width =? 32 in
  let* c := ComputeSDivConstants32 (signed 32 d) in
  let '(mprime, dsign, shpost) := c in
  let expr_dsign := bvConst32 32 (u32 dsign) in
  let expr_shpost := bvConst32 32 (u32 shpost) in
  let expr_n_64 := vc_bvSignExtend expr_n 64 in
  let* mult_64 := constructMulByConstant expr_n_64 64 (wrap 64 mprime) in
  let mulsh := vc_bvExtract mult_64 63 32 in
  let n_plus_mulsh := vc_bvPlusExpr width expr_n mulsh in
  let extend_npm := vc_bvSignExtend n_plus_mulsh 64 in
  let* shift_npm := bvVarRightShift extend_npm expr_shpost in
  let shift_shpost := vc_bvExtract shift_npm 31 0 in
  let* is_signed := bvBoolExtract expr_n 31 in
  let neg_one := bvMinusOne 32 in
  let* zero := bvZero 32 in
  let xsign_of_n := vc_iteExpr is_signed neg_one zero in
  let q0 := vc_bvMinusExpr width shift_shpost xsign_of_n in
  let q0_xor_dsign := vc_bvXorExpr q0 expr_dsign in
  Ok (vc_bvMinusExpr width q0_xor_dsign expr_dsign).

(** ** Constant expressions *)

(* the loop of the case Constant for more than 64 bits *)
Fixpoint wide_constant (fuel : nat) (Tmp : ap) (Res : VCExpr) : res VCExpr :=
  if 64 <? getBitWidth Tmp then
    match fuel with
    | O => OutOfFuel
    | S fuel =>
        let Tmp := const_Extract Tmp 64 (getBitWidth Tmp - 64) in
        let Width := Z.min 64 (getBitWidth Tmp) in
        let* v := getZExtValue (const_Extract Tmp 0 Width) 64 in
        wide_constant fuel Tmp (vc_bvConcatExpr (bvConst64 Width v) Res)
    end
  else Ok Res.

Definition constructConstant (CE : ap) : res (VCExpr * Z) :=
  let width := getBitWidth CE in
  let* r :=
    (if width =? 1 then Ok (if const_isTrue CE then getTrue else getFalse)
     else if width <=? 32 then let* v := getZExtValue CE 32 in Ok (bvConst32 width v)
     else if width <=? 64 then let* v := getZExtValue CE 64 in Ok (bvConst64 width v)
     else
       let* v := getZExtValue (const_Extract CE 0 64) 64 in
       wide_constant (Z.to_nat width) CE (bvConst64 64 v)) in
  Ok (r, width).

(** ** The builder and its tables *)

Context (UseConstructHash optimizeDivides : bool).
(* llvm::itostr *)
Context (itostr : Z -> string).
(* the address of a node, given with the array it updates, at a visit *)
Context (node_address : nat -> positive * updates -> positive).

Record STPBuilder : Type := MkBuilder {
  constructed : list (expr * (VCExpr * Z));
  array_hash : list (positive * VCExpr);
  update_node_hash : list (positive * VCExpr);
  visits : nat;
}.

Definition STPBuilder_new : STPBuilder := MkBuilder [] [] [] 0.

Definition visit (b : STPBuilder) : STPBuilder :=
  MkBuilder (constructed b) (array_hash b) (update_node_hash b) (S (visits b)).

Notation builds := (state STPBuilder).

Definition lookupArrayExpr (root : positive) (b : STPBuilder) : option VCExpr :=
  snd <$> find (fun p => Pos.eqb (fst p) root) (array_hash b).

Definition hashArrayExpr (root : positive) (e : VCExpr) (b : STPBuilder) : STPBuilder :=
  MkBuilder (constructed b) (array_hash b ++ [(root, e)]) (update_node_hash b) (visits b).

(* the key is the pointer: UpdateNodeCmpFn compares nothing else *)
Definition lookupUpdateNodeExpr (un : positive) (b : STPBuilder) : option VCExpr :=
  snd <$> find (fun p => Pos.eqb (fst p) un) (update_node_hash b).

Definition hashUpdateNodeExpr (un : positive) (e : VCExpr) (b : STPBuilder) : STPBuilder :=
  MkBuilder (constructed b) (array_hash b) ((un, e) :: update_node_hash b) (visits b).

Definition find_constructed (e : expr) (b : STPBuilder) : option (VCExpr * Z) :=
  snd <$> find (fun p => expr_eqb (fst p) e) (constructed b).

Definition insert_constructed (e : expr) (r : VCExpr * Z) (b : STPBuilder) : STPBuilder :=
  MkBuilder ((e, r) :: constructed b) (array_hash b) (update_node_hash b) (visits b).

(* constructed.clear() *)
Definition clear_constructed (b : STPBuilder) : STPBuilder := MkBuilder [] (array_hash b) (update_node_hash b) (visits b).

(** ** Arrays *)

Definition buildVar (name : string) (boolType : VCType) (width : Z) : VCExpr :=
  vc_varExpr name (if width =? 1 then boolType else vc_bvType width).

Definition buildArray (name : string) (indexWidth valueWidth : Z) : VCExpr :=
  vc_varExpr name (vc_arrayType (vc_bvType indexWidth) (vc_bvType valueWidth)).

Definition unique_name (root : positive) (count : nat) : string :=
  let unique_id := itostr (Z.of_nat count) in
  let uid_length := String.length unique_id in
  let name := name (arrayAt root) in
  let space := if (32 - uid_length <? String.length name)%nat then (32 - uid_length)%nat else String.length name in
  (String.substring 0 space name ++ unique_id)%string.

(* the values of a constant array, from index i on *)
Fixpoint write_constants (root : positive) (n : nat) (i : Z) (array_expr : VCExpr) : res VCExpr :=
  match n with
  | O => Ok array_expr
  | S n =>
      let* index := constructConstant (ap_make (domain (arrayAt root)) i) in
      match constantValues (arrayAt root) !! Z.to_nat i with
      | None => AssertFail
      | Some c =>
          let* value := constructConstant c in
          write_constants root n (i + 1) (vc_writeExpr array_expr (fst index) (fst value))
      end
  end.

Definition getInitialArray (root : positive) : builds VCExpr := fun b =>
  match lookupArrayExpr root b with
  | Some array_expr => Ok (array_expr, b)
  | None =>
      let a := arrayAt root in
      let array_expr := buildArray (unique_name root (length (array_hash b))) (domain a) (range a) in
      let* array_expr :=
        (if isConstantArray a then write_constants root (Z.to_nat (size a)) 0 array_expr else Ok array_expr) in
      Ok (array_expr, hashArrayExpr root array_expr b)
  end.

Definition getInitialRead (root : positive) (index : Z) : builds VCExpr :=
  do* a := getInitialArray root in sret (vc_readExpr a (bvConst32 32 index)).

(** ** The cases of constructActual

    [cl] and [cr] construct the operands. *)

Definition constructArith (k : BinKind) (cl cr : builds (VCExpr * Z)) : builds (VCExpr * Z) :=
  do* left := cl in
  do* right := cr in
  let width := snd right in
  slift (assert* negb (width =? 1) in
    match k with
    | Add => Ok (vc_bvPlusExpr width (fst left) (fst right), width)
    | Sub => Ok (vc_bvMinusExpr width (fst left) (fst right), width)
    | SRem => Ok (vc_sbvRemExpr width (fst left) (fst right), width)
    | _ => AssertFail
    end).

Definition constructMul (l : expr) (cl cr : builds (VCExpr * Z)) : builds (VCExpr * Z) :=
  do* right := cr in
  let width := snd right in
  do* _ := slift (assert* negb (width =? 1) in Ok tt) in
  let general := do* left := cl in sret (vc_bvMultExpr (snd left) (fst left) (fst right), snd left) in
  match l with
  | Constant CE =>
      if getBitWidth CE <=? 64 then
        slift (let* x := getZExtValue CE 64 in
               let* h := constructMulByConstant (fst right) width x in Ok (h, width))
      else general
  | _ => general
  end.

Definition constructUDiv (r : expr) (cl cr : builds (VCExpr * Z)) : builds (VCExpr * Z) :=
  do* left := cl in
  let width := snd left in
  do* _ := slift (assert* negb (width =? 1) in Ok tt) in
  let general := do* right := cr in sret (vc_bvDivExpr (snd right) (fst left) (fst right), snd right) in
  match r with
  | Constant CE =>
      if getBitWidth CE <=? 64 then
        do* divisor := slift (getZExtValue CE 64) in
        if bits64.isPowerOfTwo divisor then
          slift (let* i := bits64.indexOfSingleBit divisor in
                 let* h := bvRightShift (fst left) i in Ok (h, width))
        else if optimizeDivides && (width =? 32) then
          slift (let* h := constructUDivByConstant (fst left) width (u32 divisor) in Ok (h, width))
        else general
      else general
  | _ => general
  end.

(* APInt(width, -1, true) *)
Definition ap_minus_one (width : Z) : ap := ap_sextOrTrunc (ap_make 64 (2 ^ 64 - 1)) width.

Definition constructSDiv (r : expr) (cl cr : builds (VCExpr * Z)) : builds (VCExpr * Z) :=
  do* left := cl in
  let width := snd left in
  do* _ := slift (assert* negb (width =? 1) in Ok tt) in
  let general := do* right := cr in sret (vc_sbvDivExpr (snd right) (fst left) (fst right), snd right) in
  match r with
  | Constant CE =>
      if optimizeDivides &&
         (ap_cmp Ne CE (ap_make (getBitWidth CE) 1) && ap_cmp Ne CE (ap_minus_one (getBitWidth CE))) &&
         (width =? 32)
      then slift (let* d := getZExtValue CE 32 in
                  let* h := constructSDivByConstant (fst left) width d in Ok (h, width))
      else general
  | _ => general
  end.

Definition constructURem (r : expr) (cl cr : builds (VCExpr * Z)) : builds (VCExpr * Z) :=
  do* left := cl in
  let width := snd left in
  do* _ := slift (assert* negb (width =? 1) in Ok tt) in
  let general := do* right := cr in sret (vc_bvModExpr (snd right) (fst left) (fst right), snd right) in
  match r with
  | Constant CE =>
      if getBitWidth CE <=? 64 then
        do* divisor := slift (getZExtValue CE 64) in
        if bits64.isPowerOfTwo divisor then
          slift (let* bits := bits64.indexOfSingleBit divisor in
                 if bits =? 0 then let* h := bvZero width in Ok (h, width)
                 else
                   let* zero := bvZero (width - bits) in
                   Ok (vc_bvConcatExpr zero (bvExtract (fst left) (bits - 1) 0), width))
        else if optimizeDivides && (width =? 32) then
          slift (let* quotient := constructUDivByConstant (fst left) width (u32 divisor) in
                 let* quot_times_divisor := constructMulByConstant quotient width divisor in
                 Ok (vc_bvMinusExpr width (fst left) quot_times_divisor, width))
        else general
      else general
  | _ => general
  end.

Definition constructBitwise (k : BinKind) (cl cr : builds (VCExpr * Z)) : builds (VCExpr * Z) :=
  do* left := cl in
  do* right := cr in
  let width := snd right in
  slift
    match k with
    | And => Ok (if width =? 1 then vc_andExpr (fst left) (fst right) else vc_bvAndExpr (fst left) (fst right), width)
    | Or => Ok (if width =? 1 then vc_orExpr (fst left) (fst right) else vc_bvOrExpr (fst left) (fst right), width)
    | Xor =>
        Ok (if width =? 1 then vc_iteExpr (fst left) (vc_notExpr (fst right)) (fst right)
            else vc_bvXorExpr (fst left) (fst right), width)
    | _ => AssertFail
    end.

Definition constructShift (k : BinKind) (r : expr) (cl cr : builds (VCExpr * Z)) : builds (VCExpr * Z) :=
  do* left := cl in
  let width := snd left in
  do* _ := slift (assert* negb (width =? 1) in Ok tt) in
  match r with
  | Constant CE =>
      let shift := u32 (getLimitedValue CE (2 ^ 64 - 1)) in
      slift (let* h :=
        match k with
        | Shl => bvLeftShift (fst left) shift
        | LShr => bvRightShift (fst left) shift
        | AShr =>
            let* signedBool := bvBoolExtract (fst left) (width - 1) in
            constructAShrByConstant (fst left) shift signedBool
        | _ => AssertFail
        end in Ok (h, width))
  | _ =>
      do* amount := cr in
      slift (let* h :=
        match k with
        | Shl => bvVarLeftShift (fst left) (fst amount)
        | LShr => bvVarRightShift (fst left) (fst amount)
        | AShr => bvVarArithRightShift (fst left) (fst amount)
        | _ => AssertFail
        end in Ok (h, width))
  end.

Definition constructEq (l : expr) (cl cr : builds (VCExpr * Z)) : builds (VCExpr * Z) :=
  do* left := cl in
  do* right := cr in
  sret
    (if snd right =? 1 then
       match l with
       | Constant CE => if const_isTrue CE then fst right else vc_notExpr (fst right)
       | _ => vc_iffExpr (fst left) (fst right)
       end
     else vc_eqExpr (fst left) (fst right), 1).

Definition constructCompare (k : BinKind) (cl cr : builds (VCExpr * Z)) : builds (VCExpr * Z) :=
  do* left := cl in
  do* right := cr in
  slift (assert* negb (snd right =? 1) in
    match k with
    | Ult => Ok (vc_bvLtExpr (fst left) (fst right), 1)
    | Ule => Ok (vc_bvLeExpr (fst left) (fst right), 1)
    | Slt => Ok (vc_sbvLtExpr (fst left) (fst right), 1)
    | Sle => Ok (vc_sbvLeExpr (fst left) (fst right), 1)
    | _ => AssertFail
    end).

Definition constructBinary (k : BinKind) (l r : expr) (cl cr : builds (VCExpr * Z)) : builds (VCExpr * Z) :=
  match k with
  | Add | Sub | SRem => constructArith k cl cr
  | Mul => constructMul l cl cr
  | UDiv => constructUDiv r cl cr
  | SDiv => constructSDiv r cl cr
  | URem => constructURem r cl cr
  | And | Or | Xor => constructBitwise k cl cr
  | Shl | LShr | AShr => constructShift k r cl cr
  | Eq => constructEq l cl cr
  | Ult | Ule | Slt | Sle => constructCompare k cl cr
  (* unhandled Expr type *)
  | Ne | Ugt | Uge | Sgt | Sge => slift AssertFail
  end.

Definition constructSelect (cc ct cf : builds (VCExpr * Z)) : builds (VCExpr * Z) :=
  do* cond := cc in
  do* tExpr := ct in
  do* fExpr := cf in
  sret (vc_iteExpr (fst cond) (fst tExpr) (fst fExpr), snd fExpr).

(* the children from the last to the first *)
Definition constructConcat (width : Z) (cl cr : builds (VCExpr * Z)) : builds (VCExpr * Z) :=
  do* right := cr in
  do* left := cl in
  sret (vc_bvConcatExpr (fst left) (fst right), width).

Definition constructExtract (offset width : Z) (cs : builds (VCExpr * Z)) : builds (VCExpr * Z) :=
  do* src := cs in
  if width =? 1 then slift (let* h := bvBoolExtract (fst src) offset in Ok (h, width))
  else sret (vc_bvExtract (fst src) (offset + width - 1) offset, width).

Definition constructZExt (width : Z) (cs : builds (VCExpr * Z)) : builds (VCExpr * Z) :=
  do* src := cs in
  slift
    (if snd src =? 1 then
       let* one := bvOne width in
       let* zero := bvZero width in Ok (vc_iteExpr (fst src) one zero, width)
     else let* zero := bvZero (width - snd src) in Ok (vc_bvConcatExpr zero (fst src), width)).

Definition constructSExt (width : Z) (cs : builds (VCExpr * Z)) : builds (VCExpr * Z) :=
  do* src := cs in
  slift
    (if snd src =? 1 then
       let* zero := bvZero width in Ok (vc_iteExpr (fst src) (bvMinusOne width) zero, width)
     else Ok (vc_bvSignExtend (fst src) width, width)).

Definition constructNot (cs : builds (VCExpr * Z)) : builds (VCExpr * Z) :=
  do* e := cs in
  sret (if snd e =? 1 then vc_notExpr (fst e) else vc_bvNotExpr (fst e), snd e).

(* construct(e, width_out): the table in front of constructActual *)
Definition with_table (e : expr) (actual : builds (VCExpr * Z)) : builds (VCExpr * Z) :=
  if negb UseConstructHash || isConstant e then actual
  else fun b =>
    match find_constructed e b with
    | Some r => Ok (r, b)
    | None => let* p := actual b in Ok (fst p, insert_constructed e (fst p) (snd p))
    end.

(** ** The translation *)

Fixpoint construct (e : expr) : builds (VCExpr * Z) :=
  with_table e
    match e with
    | Constant CE => slift (constructConstant CE)
    | NotOptimized src => construct src
    | Read root head index =>
        do* a := getArrayForUpdate root head in
        do* i := construct index in
        sret (vc_readExpr a (fst i), range (arrayAt root))
    | Select c t f => constructSelect (construct c) (construct t) (construct f)
    | Concat l r => constructConcat (getWidth e) (construct l) (construct r)
    | Extract src off w => constructExtract off w (construct src)
    | Cast ZExt src w => constructZExt w (construct src)
    | Cast SExt src w => constructSExt w (construct src)
    | Not src => constructNot (construct src)
    | Binary k l r => constructBinary k l r (construct l) (construct r)
    end
with getArrayForUpdate (root : positive) (un : updates) : builds VCExpr :=
  match un with
  | UNil => getInitialArray root
  | UNode index value next => fun b =>
      let p_un := node_address (visits b) (root, un) in
      let b := visit b in
      match lookupUpdateNodeExpr p_un b with
      | Some un_expr => Ok (un_expr, b)
      | None =>
          let* p :=
            (do* a := getArrayForUpdate root next in
             do* i := construct index in
             do* v := construct value in
             sret (vc_writeExpr a (fst i) (fst v))) b in
          Ok (fst p, hashUpdateNodeExpr p_un (fst p) (snd p))
      end
  end.

(* construct(e), the entry of the translation *)
Definition construct_expr (e : expr) : builds VCExpr :=
  do* r := construct e in
  fun b => Ok (fst r, clear_constructed b).

End builder.

(** No two nodes ever have the same address: while the builder lives, no node
    of its table is freed and its address given to another node. *)
Definition one_node_per_address `{A : APInt} (node_address : nat -> positive * updates -> positive) : Prop :=
  forall t t' p q, node_address t p = node_address t' q -> p = q.
