(* ===== verification/STPWords.v ===== *)
(** The words the helpers of klee/lib/Solver/STPBuilder.cpp build: constants,
    shifts by constant and by variable amounts, multiplications and divisions
    by constants.  A helper returns, without a failed assertion, a term whose
    value is that of the operation in every interpretation. *)
From Stdlib Require Import ZArith Lia Bool String.
From stdpp Require Import base list numbers option strings.
From S2P Require Import Prelude Bits APInt Expr ConstantDivision STP STPBuilder.
Open Scope Z_scope.

Section words.
Context {A : APInt} {L : APIntLaws A} {AR : Arrays} {T : STP} {TL : STPLaws T}.

(** ** Terms and their values *)

Definition is_word (h : VCExpr) (w : Z) (X : model -> Z) : Prop :=
  0 < w /\ forall m, den m h = Some (VBV w (X m)) /\ 0 <= X m < 2 ^ w.

Definition is_bool (h : VCExpr) (B : model -> bool) : Prop := forall m, den m h = Some (VBool (B m)).

Definition makes (r : res VCExpr) (w : Z) (X : model -> Z) : Prop := exists h, r = Ok h /\ is_word h w X.
Definition makes_bool (r : res VCExpr) (B : model -> bool) : Prop := exists h, r = Ok h /\ is_bool h B.

Lemma word_pos h w X : is_word h w X -> 0 < w.
Proof. by intros [H _]. Qed.

Lemma word_den h w X m : is_word h w X -> den m h = Some (VBV w (X m)).
Proof. intros [_ H]. apply H. Qed.

Lemma word_range h w X m : is_word h w X -> 0 <= X m < 2 ^ w.
Proof. intros [_ H]. apply H. Qed.

Lemma word_length h w X : is_word h w X -> vc_getBVLength h = w.
Proof. intros [_ H]. destruct (H (fun _ _ => 0)) as [Hd _]. by apply den_length in Hd. Qed.

Lemma word_ext h w X Y : is_word h w X -> (forall m, X m = Y m) -> is_word h w Y.
Proof. intros [Hw H] E. split; [done|]. intros m. rewrite <- E. apply H. Qed.

Lemma makes_ok h w X : is_word h w X -> makes (Ok h) w X.
Proof. intros H. by exists h. Qed.

Lemma makes_ext r w X Y : makes r w X -> (forall m, X m = Y m) -> makes r w Y.
Proof. intros (h & E & H) He. exists h. split; [done|]. by eapply word_ext. Qed.

Lemma makes_bind {X} (r : res X) (k : X -> res VCExpr) w Y (P : X -> Prop) :
  (exists x, r = Ok x /\ P x) -> (forall x, P x -> makes (k x) w Y) -> makes (res_bind r k) w Y.
Proof. intros (x & -> & HP) Hk. cbn. by apply Hk. Qed.

(** ** Single operations *)

Lemma word_concat a b w w' X Y : is_word a w X -> is_word b w' Y ->
  is_word (vc_bvConcatExpr a b) (w + w') (fun m => X m * 2 ^ w' + Y m).
Proof.
  intros [Hw Ha] [Hw' Hb]. split; [lia|]. intros m. destruct (Ha m) as [Ea Ra], (Hb m) as [Eb Rb].
  split; [by apply den_concat|]. rewrite Z.pow_add_r by lia. nia.
Qed.

Lemma word_extract a w X hi lo : is_word a w X -> 0 <= lo <= hi -> hi < w ->
  is_word (vc_bvExtract a hi lo) (hi - lo + 1) (fun m => wrap (hi - lo + 1) (X m / 2 ^ lo)).
Proof.
  intros [Hw Ha] Hl Hh. split; [lia|]. intros m. destruct (Ha m) as [Ea Ra].
  split; [by eapply den_extract|]. apply wrap_range. lia.
Qed.

Lemma word_sext a w X w' : is_word a w X -> w <= w' ->
  is_word (vc_bvSignExtend a w') w' (fun m => wrap w' (signed w (X m))).
Proof.
  intros [Hw Ha] Hw'. split; [lia|]. intros m. split; [by apply den_sext; [apply Ha|lia]|]. apply wrap_range. lia.
Qed.

Lemma word_ite c a b w B X Y : is_bool c B -> is_word a w X -> is_word b w Y ->
  is_word (vc_iteExpr c a b) w (fun m => if B m then X m else Y m).
Proof.
  intros Hc [Hw Ha] [_ Hb]. split; [done|]. intros m. destruct (Ha m) as [Ea Ra], (Hb m) as [Eb Rb].
  rewrite (den_ite m c a b (B m) _ _ (Hc m) Ea Eb) by done. by destruct (B m).
Qed.

Lemma word_not a w X : is_word a w X -> is_word (vc_bvNotExpr a) w (fun m => wrap w (Z.lnot (X m))).
Proof. intros [Hw Ha]. split; [done|]. intros m. split; [by apply den_bvnot, Ha|]. apply wrap_range. lia. Qed.

Lemma word_uminus a w X : is_word a w X -> is_word (vc_bvUMinusExpr a) w (fun m => wrap w (- X m)).
Proof. intros [Hw Ha]. split; [done|]. intros m. split; [by apply den_uminus, Ha|]. apply wrap_range. lia. Qed.

Lemma bool_eq a b w X Y : is_word a w X -> is_word b w Y -> is_bool (vc_eqExpr a b) (fun m => X m =? Y m).
Proof. intros [_ Ha] [_ Hb] m. eapply den_eq; [apply Ha|apply Hb]. Qed.

(** An operation that is total on words. *)
Lemma word_arith k w a b X Y Z h :
  vc_arith k w a b = Some h -> is_word a w X -> is_word b w Y ->
  (forall x y, 0 <= x < 2 ^ w -> 0 <= y < 2 ^ w -> bin_sem k w x y = Some (Z x y)) ->
  is_word h w (fun m => Z (X m) (Y m)).
Proof.
  intros Hh [Hw Ha] [_ Hb] HZ. split; [done|]. intros m. destruct (Ha m) as [Ea Ra], (Hb m) as [Eb Rb].
  destruct (den_arith m k w a b _ _ h Hh Hw Ea Ra Eb Rb) as (z & Ez & Rz & Hz).
  rewrite (Hz _ (HZ _ _ Ra Rb)) in *. done.
Qed.

Lemma word_plus w a b X Y : is_word a w X -> is_word b w Y ->
  is_word (vc_bvPlusExpr w a b) w (fun m => wrap w (X m + Y m)).
Proof. intros Ha Hb. by apply (word_arith Add w a b X Y (fun x y => wrap w (x + y))). Qed.

Lemma word_minus w a b X Y : is_word a w X -> is_word b w Y ->
  is_word (vc_bvMinusExpr w a b) w (fun m => wrap w (X m - Y m)).
Proof. intros Ha Hb. by apply (word_arith Sub w a b X Y (fun x y => wrap w (x - y))). Qed.

Lemma word_xor w a b X Y : is_word a w X -> is_word b w Y ->
  is_word (vc_bvXorExpr a b) w (fun m => Z.lxor (X m) (Y m)).
Proof. intros Ha Hb. by apply (word_arith Xor w a b X Y Z.lxor). Qed.

Lemma bool_lt a b w X Y : is_word a w X -> is_word b w Y -> is_bool (vc_bvLtExpr a b) (fun m => X m <? Y m).
Proof.
  intros [_ Ha] [_ Hb] m. destruct (Ha m) as [Ea _], (Hb m) as [Eb _].
  by apply (den_compare m Ult w a b (X m) (Y m)).
Qed.

(** ** Constants *)

Lemma word_const32 w v : 0 < w <= 64 -> 0 <= v < 2 ^ 32 -> v < 2 ^ w -> is_word (bvConst32 w v) w (fun _ => v).
Proof. intros Hw Hv Hvw. split; [lia|]. intros m. split; [by apply den_const_int|lia]. Qed.

Lemma word_const64 w v : 0 < w <= 64 -> 0 <= v < 2 ^ 64 -> is_word (bvConst64 w v) w (fun _ => wrap w v).
Proof. intros Hw Hv. split; [lia|]. intros m. split; [by apply den_const_ll|]. apply wrap_range. lia. Qed.

Lemma bvZExtConst_loop_ok fuel width zero expr w v :
  0 < width -> width <= 64 * (1 + Z.of_nat fuel) -> is_word zero 64 (fun _ => 0) -> is_word expr w (fun _ => v) ->
  makes (bvZExtConst_loop fuel width zero expr) (width + w) (fun _ => v).
Proof.
  revert width expr w. induction fuel as [|fuel IH]; intros width expr w Hw Hf Hz He; cbn [bvZExtConst_loop].
  all: destruct (Z.ltb_spec 64 width) as [Hlt|Hle].
  1: lia. 1, 3: apply makes_ok; eapply word_ext; [apply word_concat; [apply word_const64; lia|exact He]|]; intros m; cbn;
    by rewrite wrap_small by lia.
  replace (width + w) with (width - 64 + (64 + w)) by lia. apply IH; [lia|lia|done|].
  by apply (word_ext _ _ _ _ (word_concat _ _ _ _ _ _ Hz He)).
Qed.

Lemma bvZExtConst_ok w v : 0 < w -> 0 <= v < 2 ^ 64 -> makes (bvZExtConst w v) w (fun _ => wrap w v).
Proof.
  intros Hw Hv. unfold bvZExtConst. destruct (Z.leb_spec w 64) as [Hle|Hlt].
  - apply makes_ok, word_const64; lia.
  - assert (2 ^ 64 < 2 ^ w) by (apply Z.pow_lt_mono_r; lia).
    assert (makes (bvZExtConst_loop (Z.to_nat w) (w - 64) (bvConst64 64 0) (bvConst64 64 v)) (w - 64 + 64) (fun _ => v)) as Hl.
    { apply bvZExtConst_loop_ok; [lia|lia| |].
      - by apply (word_ext _ _ _ _ (word_const64 64 0 ltac:(lia) ltac:(lia))).
      - eapply word_ext; [apply word_const64; lia|]. intros m. by rewrite wrap_small by lia. }
    replace (w - 64 + 64) with w in Hl by lia. eapply makes_ext; [exact Hl|]. intros m. by rewrite wrap_small by lia.
Qed.

Lemma bvZero_ok w : 0 < w -> makes (bvZero w) w (fun _ => 0).
Proof. intros Hw. eapply makes_ext; [apply bvZExtConst_ok; lia|]. intros m. by rewrite wrap_small by lia. Qed.

Lemma bvOne_ok w : 0 < w -> makes (bvOne w) w (fun _ => 1).
Proof.
  intros Hw. eapply makes_ext; [apply bvZExtConst_ok; lia|]. intros m. apply wrap_small.
  assert (2 ^ 1 <= 2 ^ w) by (apply Z.pow_le_mono_r; lia). lia.
Qed.

Lemma wrap_minus_one w : 0 < w -> wrap w (-1) = 2 ^ w - 1.
Proof. intros Hw. symmetry. apply (Z.mod_unique_pos _ _ (-1)); lia. Qed.

Lemma wrap_small_width w w' x : 0 <= w <= w' -> wrap w (wrap w' x) = wrap w x.
Proof.
  intros Hw. unfold wrap. rewrite (Z.mod_eq x (2 ^ w')) by lia.
  assert (2 ^ w' = 2 ^ w * 2 ^ (w' - w)) as -> by (rewrite <- Z.pow_add_r by lia; f_equal; lia).
  replace (x - 2 ^ w * 2 ^ (w' - w) * (x / (2 ^ w * 2 ^ (w' - w)))) with (x + - (2 ^ (w' - w) * (x / (2 ^ w * 2 ^ (w' - w)))) * 2 ^ w) by ring.
  apply Z.mod_add. lia.
Qed.

Lemma bvMinusOne_ok w : 0 < w -> is_word (bvMinusOne w) w (fun _ => 2 ^ w - 1).
Proof.
  intros Hw. unfold bvMinusOne, bvSExtConst. pose proof (wrap_range 64 (-1)). destruct (Z.leb_spec w 64) as [Hle|Hlt].
  - eapply word_ext; [apply word_const64; lia|]. intros m. cbn beta. rewrite wrap_small_width by lia. by apply wrap_minus_one.
  - eapply word_ext; [apply word_sext; [apply word_const64; lia|lia]|]. intros m. cbn beta.
    rewrite wrap_wrap, signed_wrap by lia. change (signed 64 (-1)) with (-1). by apply wrap_minus_one.
Qed.

(** ** Shifts by constants *)

Lemma bvBoolExtract_ok a w X i : is_word a w X -> 0 <= i < w -> makes_bool (bvBoolExtract a i) (fun m => Z.testbit (X m) i).
Proof.
  intros Ha Hi. unfold bvBoolExtract, bvExtract. destruct (bvOne_ok 1 ltac:(lia)) as (one & -> & H1). cbn [res_bind].
  eexists. split; [done|]. intros m. pose proof (word_extract a w X i i Ha ltac:(lia) ltac:(lia)) as He.
  replace (i - i + 1) with 1 in He by lia. rewrite (bool_eq _ _ _ _ _ He H1 m). do 2 f_equal.
  apply eq_true_iff_eq. rewrite Z.eqb_eq, Z.testbit_true by lia. unfold wrap. change (2 ^ 1) with 2. done.
Qed.

(** A right shift by less than the width. *)
Lemma word_shr a w X s hi : is_word a w X -> 0 < s < w -> is_word hi s (fun _ => 0) ->
  is_word (vc_bvConcatExpr hi (bvExtract a (w - 1) s)) w (fun m => X m / 2 ^ s).
Proof.
  intros Ha Hs Hz. pose proof (word_extract a w X (w - 1) s Ha ltac:(lia) ltac:(lia)) as He.
  replace (w - 1 - s + 1) with (w - s) in He by lia. pose proof (word_concat _ _ _ _ _ _ Hz He) as Hc.
  replace (s + (w - s)) with w in Hc by lia. eapply word_ext; [exact Hc|]. intros m. cbn beta.
  rewrite Z.mul_0_l, Z.add_0_l. apply wrap_small. pose proof (word_range a w X m Ha).
  split; [apply Z.div_pos; lia|]. apply Z.div_lt_upper_bound; [lia|]. rewrite <- Z.pow_add_r by lia.
  replace (s + (w - s)) with w by lia. lia.
Qed.

Lemma bvRightShift_ok a w X s : is_word a w X -> 0 <= s ->
  makes (bvRightShift a s) w (fun m => if s <? w then X m / 2 ^ s else 0).
Proof.
  intros Ha Hs. pose proof (word_pos _ _ _ Ha). unfold bvRightShift. rewrite (word_length _ _ _ Ha).
  destruct (Z.eqb_spec s 0) as [->|Hs0].
  { apply makes_ok. eapply word_ext; [exact Ha|]. intros m. bool_case; tidy_bools; [by rewrite Z.div_1_r|lia]. }
  destruct (Z.leb_spec w s) as [Hle|Hlt].
  { eapply makes_ext; [by apply bvZero_ok|]. intros m. bool_case; tidy_bools; [lia|done]. }
  eapply makes_bind; [apply (bvZero_ok s); lia|]. intros z Hz. apply makes_ok.
  eapply word_ext; [apply word_shr; [done|lia|done]|]. intros m. bool_case; tidy_bools; [done|lia].
Qed.

Lemma wrap_shifted_out w x s : 0 <= w <= s -> wrap w (x * 2 ^ s) = 0.
Proof.
  intros Hw. unfold wrap. replace (2 ^ s) with (2 ^ (s - w) * 2 ^ w) by (rewrite <- Z.pow_add_r by lia; f_equal; lia).
  rewrite Z.mul_assoc. apply Z.mod_mul. lia.
Qed.

Lemma bvLeftShift_ok a w X s : is_word a w X -> 0 <= s ->
  makes (bvLeftShift a s) w (fun m => wrap w (X m * 2 ^ s)).
Proof.
  intros Ha Hs. pose proof (word_pos _ _ _ Ha). unfold bvLeftShift. rewrite (word_length _ _ _ Ha).
  destruct (Z.eqb_spec s 0) as [->|Hs0].
  { apply makes_ok. eapply word_ext; [exact Ha|]. intros m. rewrite Z.mul_1_r. symmetry. apply wrap_small.
    by apply (word_range a w X). }
  destruct (Z.leb_spec w s) as [Hle|Hlt].
  { eapply makes_ext; [by apply bvZero_ok|]. intros m. cbn beta. by rewrite wrap_shifted_out by lia. }
  eapply makes_bind; [apply (bvZero_ok s); lia|]. intros z Hz. apply makes_ok.
  pose proof (word_extract a w X (w - s - 1) 0 Ha ltac:(lia) ltac:(lia)) as He.
  replace (w - s - 1 - 0 + 1) with (w - s) in He by lia. pose proof (word_concat _ _ _ _ _ _ He Hz) as Hc.
  replace (w - s + s) with w in Hc by lia. eapply word_ext; [exact Hc|]. intros m. cbn beta.
  rewrite Z.div_1_r, Z.add_0_r. unfold wrap.
  replace (2 ^ w) with (2 ^ (w - s) * 2 ^ s) by (rewrite <- Z.pow_add_r by lia; f_equal; lia).
  by rewrite Z.mul_mod_distr_r by lia.
Qed.

(** An arithmetic shift, with the sign given as a truth value; overshifting
    gives zero. *)
Definition ashr_zero (w x s : Z) : Z := if s <? w then wrap w (signed w x / 2 ^ s) else 0.

Lemma sign_bit w x : 0 < w -> 0 <= x < 2 ^ w -> Z.testbit x (w - 1) = (2 ^ (w - 1) <=? x).
Proof.
  intros Hw Hx. assert (2 ^ w = 2 * 2 ^ (w - 1)) as E by (rewrite <- Z.pow_succ_r by lia; f_equal; lia).
  apply eq_true_iff_eq. rewrite Z.testbit_true, Z.leb_le by lia. split; intros H.
  - destruct (Z.le_gt_cases (2 ^ (w - 1)) x); [done|]. rewrite Z.div_small in H by lia. done.
  - replace (x / 2 ^ (w - 1)) with 1; [done|]. apply (Z.div_unique _ _ _ (x - 2 ^ (w - 1))); lia.
Qed.

Lemma signed_by_bit w x : 0 < w -> 0 <= x < 2 ^ w ->
  signed w x = if Z.testbit x (w - 1) then x - 2 ^ w else x.
Proof.
  intros Hw Hx. rewrite sign_bit by done. unfold signed. rewrite Z.mod_small by done.
  assert (2 ^ w = 2 * 2 ^ (w - 1)) by (rewrite <- Z.pow_succ_r by lia; f_equal; lia).
  destruct (Z.leb_spec (2 ^ (w - 1)) x); bool_case; tidy_bools; lia.
Qed.

Lemma constructAShrByConstant_ok a w X s h : is_word a w X -> 0 <= s -> is_bool h (fun m => Z.testbit (X m) (w - 1)) ->
  makes (constructAShrByConstant a s h) w (fun m => ashr_zero w (X m) s).
Proof.
  intros Ha Hs Hh. pose proof (word_pos _ _ _ Ha). unfold constructAShrByConstant. rewrite (word_length _ _ _ Ha).
  unfold ashr_zero. destruct (Z.eqb_spec s 0) as [->|Hs0].
  { apply makes_ok. eapply word_ext; [exact Ha|]. intros m. pose proof (word_range a w X m Ha) as Hr.
    bool_case; tidy_bools; [|lia]. rewrite Z.div_1_r. unfold wrap. rewrite signed_by_bit by done. symmetry.
    destruct (Z.testbit (X m) (w - 1)); [|by apply Z.mod_small].
    symmetry. apply (Z.mod_unique_pos _ _ (-1)); lia. }
  destruct (Z.leb_spec w s) as [Hle|Hlt].
  { eapply makes_ext; [by apply bvZero_ok|]. intros m. bool_case; tidy_bools; [lia|done]. }
  eapply makes_bind; [by apply bvRightShift_ok|]. intros r Hr. apply makes_ok.
  pose proof (word_extract a w X (w - 1) s Ha ltac:(lia) ltac:(lia)) as He.
  replace (w - 1 - s + 1) with (w - s) in He by lia.
  pose proof (word_concat _ _ _ _ _ _ (bvMinusOne_ok s ltac:(lia)) He) as Hc.
  replace (s + (w - s)) with w in Hc by lia. eapply word_ext; [apply (word_ite _ _ _ _ _ _ _ Hh Hc Hr)|].
  intros m. cbn beta. pose proof (word_range a w X m Ha) as Hx. rewrite (proj2 (Z.ltb_lt s w)) by lia.
  assert (2 ^ w = 2 ^ s * 2 ^ (w - s)) as Ew by (rewrite <- Z.pow_add_r by lia; f_equal; lia).
  assert (0 <= X m / 2 ^ s < 2 ^ (w - s)) as Hq.
  { split; [apply Z.div_pos; lia|apply Z.div_lt_upper_bound; lia]. }
  rewrite signed_by_bit by done. destruct (Z.testbit (X m) (w - 1)).
  - rewrite (wrap_small (w - s)) by done. unfold wrap.
    replace (X m - 2 ^ w) with (X m + - 2 ^ (w - s) * 2 ^ s) by lia. rewrite Z.div_add by lia.
    apply (Z.mod_unique_pos _ _ (-1)); nia.
  - symmetry. apply wrap_small. assert (0 < 2 ^ s) by (apply Z.pow_pos_nonneg; lia). nia.
Qed.

(** Unless a negative number is overshifted, that is the arithmetic shift. *)
Lemma ashr_zero_ok w x y : 0 < w -> 0 <= y -> 0 <= x < 2 ^ w -> (y < w \/ 0 <= signed w x) ->
  ashr_zero w x y = wrap w (signed w x / 2 ^ Z.min y w).
Proof.
  intros Hw Hy Hx Ho. unfold ashr_zero. destruct (Z.ltb_spec y w); [by rewrite Z.min_l by lia|].
  destruct Ho as [|Ho]; [lia|]. pose proof (signed_range w x Hw). rewrite Z.min_r by lia.
  assert (2 ^ (w - 1) <= 2 ^ w) by (apply Z.pow_le_mono_r; lia). by rewrite Z.div_small by lia.
Qed.

(** ** Shifts by variable amounts *)

(** The amount is looked at through its lowest bits. *)
Definition active_bits (x : Z) : Z := Z.log2 x + 1.

Lemma extractPartialShiftValue_ok h ws V w :
  is_word h ws V -> 0 < w < 2 ^ 32 -> active_bits w <= ws ->
  exists h', extractPartialShiftValue h w = (h', active_bits w) /\
    is_word h' (active_bits w) (fun m => wrap (active_bits w) (V m)).
Proof.
  intros Hh Hw Hb. unfold extractPartialShiftValue.
  assert (ap_activeBits (ap_make 32 w) = active_bits w) as ->.
  { rewrite activeBits_val; rewrite ?make_width by lia; [|lia]. rewrite make_val, wrap_small by lia.
    rewrite (proj2 (Z.eqb_neq w 0)) by lia. done. }
  eexists. split; [done|]. unfold active_bits in *. pose proof (Z.log2_nonneg w).
  pose proof (word_extract h ws V (Z.log2 w + 1 - 1) 0 Hh ltac:(lia) ltac:(lia)) as He.
  replace (Z.log2 w + 1 - 1 - 0 + 1) with (Z.log2 w + 1) in He by lia.
  eapply word_ext; [exact He|]. intros m. cbn beta. by rewrite Z.div_1_r.
Qed.

Lemma active_bits_lt w i : 0 < w -> 0 <= i <= w -> i < 2 ^ active_bits w.
Proof. intros Hw Hi. pose proof (Z.log2_spec w Hw) as [_ H]. unfold active_bits. rewrite Z.add_1_r. lia. Qed.

Lemma shift_cases_ok b h S shifted w Y n r R :
  is_word h b S -> 0 < b <= 64 -> (Z.of_nat n <= 2 ^ b) -> Z.of_nat n <= 2 ^ 32 ->
  (forall i, 0 <= i < Z.of_nat n -> makes (shifted i) w (Y i)) -> is_word r w R ->
  makes (shift_cases b h shifted n r) w (fun m => if S m <? Z.of_nat n then Y (S m) m else R m).
Proof.
  intros Hh Hb. revert r R. induction n as [|n IH]; intros r R Hn Hn32 Hs Hr; cbn [shift_cases].
  - apply makes_ok. eapply word_ext; [exact Hr|]. intros m. pose proof (word_range h b S m Hh).
    bool_case; tidy_bools; [lia|done].
  - pose proof (word_const32 b (Z.of_nat n) ltac:(lia) ltac:(lia) ltac:(lia)) as Hc.
    unfold eqExpr. rewrite (word_length _ _ _ Hh), (word_length _ _ _ Hc), Z.eqb_refl. cbn [res_assert res_bind].
    eapply makes_bind; [apply Hs; lia|]. intros t Ht.
    eapply makes_ext; [apply IH; [lia|lia|intros i Hi; apply Hs; lia|]|].
    + eapply word_ite; [by eapply bool_eq|exact Ht|exact Hr].
    + intros m. cbn beta. destruct (Z.eqb_spec (S m) (Z.of_nat n)) as [->|]; repeat bool_case; tidy_bools; try done; lia.
Qed.

Lemma unless_overshift_ok h ws V w r R :
  is_word h ws V -> ws <= 64 -> 0 < w < 2 ^ 32 -> w < 2 ^ ws -> is_word r w R ->
  makes (unless_overshift h w r) w (fun m => if V m <? w then R m else 0).
Proof.
  intros Hh Hws Hw Hww Hr. unfold unless_overshift. rewrite (word_length _ _ _ Hh).
  eapply makes_bind; [apply (bvZero_ok w); lia|]. intros z Hz. apply makes_ok.
  eapply word_ite; [|exact Hr|exact Hz]. eapply bool_lt; [exact Hh|]. apply word_const32; [|lia|lia].
  pose proof (word_pos _ _ _ Hh). lia.
Qed.

(** The three variable shifts. *)
Definition shift_amount (h : VCExpr) (ws : Z) (V : model -> Z) (w : Z) : Prop :=
  is_word h ws V /\ ws <= 64 /\ w < 2 ^ 32 /\ active_bits w <= ws.

Lemma shift_amount_lt h ws V w : 0 < w -> shift_amount h ws V w -> w < 2 ^ ws.
Proof.
  intros Hw (_ & _ & _ & Hb). apply (Z.lt_le_trans _ (2 ^ active_bits w)); [apply active_bits_lt; lia|].
  apply Z.pow_le_mono_r; lia.
Qed.

Lemma variable_shift_ok h ws V w shifted Y n r R :
  shift_amount h ws V w -> 0 < w -> 0 <= n <= w ->
  (forall i, 0 <= i < n -> makes (shifted i) w (Y i)) -> is_word r w R ->
  let '(shift_ext, shiftBits) := extractPartialShiftValue h w in
  makes (let* r := shift_cases shiftBits shift_ext shifted (Z.to_nat n) r in unless_overshift h w r) w
    (fun m => if V m <? w then if V m <? n then Y (V m) m else R m else 0).
Proof.
  intros Hsa Hw Hn Hs Hr. pose proof (shift_amount_lt h ws V w Hw Hsa) as Hlt. destruct Hsa as (Hh & Hws & Hw32 & Hb).
  destruct (extractPartialShiftValue_ok h ws V w Hh ltac:(lia) Hb) as (h' & -> & Hh').
  pose proof (active_bits_lt w w Hw ltac:(lia)) as Hww. pose proof (Z.log2_nonneg w).
  eapply makes_bind.
  { apply (shift_cases_ok _ _ _ shifted w Y (Z.to_nat n) r R Hh'); rewrite ?Z2Nat.id by lia; [|lia|lia|done|done].
    unfold active_bits in *. lia. }
  intros r' Hr'. eapply makes_ext; [eapply (unless_overshift_ok h ws V w r' _ Hh); [lia|lia|lia|exact Hr']|].
  intros m. cbn beta. pose proof (word_range h ws V m Hh). rewrite Z2Nat.id by lia.
  destruct (Z.ltb_spec (V m) w); [|done]. by rewrite wrap_small by lia.
Qed.

Lemma bvVarLeftShift_ok a w X h ws V : is_word a w X -> shift_amount h ws V w ->
  makes (bvVarLeftShift a h) w (fun m => if V m <? w then wrap w (X m * 2 ^ V m) else 0).
Proof.
  intros Ha Hh. pose proof (word_pos _ _ _ Ha) as Hw. unfold bvVarLeftShift. rewrite (word_length _ _ _ Ha).
  eapply makes_bind; [by apply bvZero_ok|]. intros z Hz.
  pose proof (variable_shift_ok h ws V w (bvLeftShift a) (fun i m => wrap w (X m * 2 ^ i)) w z _ Hh Hw ltac:(lia)
    (fun i Hi => bvLeftShift_ok a w X i Ha (proj1 Hi)) Hz) as H.
  destruct (extractPartialShiftValue h w). eapply makes_ext; [exact H|]. intros m. cbn beta. by destruct (V m <? w).
Qed.

Lemma bvVarRightShift_ok a w X h ws V : is_word a w X -> shift_amount h ws V w ->
  makes (bvVarRightShift a h) w (fun m => if V m <? w then X m / 2 ^ V m else 0).
Proof.
  intros Ha Hh. pose proof (word_pos _ _ _ Ha) as Hw. unfold bvVarRightShift. rewrite (word_length _ _ _ Ha).
  eapply makes_bind; [by apply bvZero_ok|]. intros z Hz.
  pose proof (variable_shift_ok h ws V w (bvRightShift a) (fun i m => if i <? w then X m / 2 ^ i else 0) w z _ Hh Hw ltac:(lia)
    (fun i Hi => bvRightShift_ok a w X i Ha (proj1 Hi)) Hz) as H.
  destruct (extractPartialShiftValue h w). eapply makes_ext; [exact H|]. intros m. cbn beta. by destruct (V m <? w).
Qed.

Lemma bvVarArithRightShift_ok a w X h ws V : is_word a w X -> shift_amount h ws V w ->
  makes (bvVarArithRightShift a h) w (fun m => ashr_zero w (X m) (V m)).
Proof.
  intros Ha Hh. pose proof (word_pos _ _ _ Ha) as Hw. unfold bvVarArithRightShift. rewrite (word_length _ _ _ Ha).
  destruct (bvBoolExtract_ok a w X (w - 1) Ha ltac:(lia)) as (s & Es & Hs).
  destruct (constructAShrByConstant_ok a w X (w - 1) s Ha ltac:(lia) Hs) as (r & Er & Hr).
  pose proof (variable_shift_ok h ws V w (fun i => constructAShrByConstant a i s) (fun i m => ashr_zero w (X m) i)
    (w - 1) r _ Hh Hw ltac:(lia) (fun i Hi => constructAShrByConstant_ok a w X i s Ha (proj1 Hi) Hs) Hr) as H.
  destruct (extractPartialShiftValue h w). rewrite Es. cbn [res_bind]. rewrite Er. cbn [res_bind].
  eapply makes_ext; [exact H|]. intros m. cbn beta. pose proof (word_range h ws V m (proj1 Hh)).
  destruct (Z.ltb_spec (V m) w) as [Hlt|Hge].
  - destruct (Z.ltb_spec (V m) (w - 1)); [done|]. by replace (w - 1) with (V m) by lia.
  - unfold ashr_zero. bool_case; tidy_bools; [lia|done].
Qed.

(** ** Multiplication by a constant *)

(** The bits of [a] from [n] on. *)
Definition high_part (n a : Z) : Z := a / 2 ^ n * 2 ^ n.

Lemma high_part_step n a : 0 <= n -> high_part n a = high_part (n + 1) a + Z.b2z (Z.testbit a n) * 2 ^ n.
Proof.
  intros Hn. unfold high_part. rewrite (Z.testbit_spec' a n Hn), Z.pow_add_r, <- Z.div_div by lia.
  pose proof (Z.div_mod (a / 2 ^ n) 2 ltac:(lia)). change (2 ^ 1) with 2. nia.
Qed.

Lemma high_part_0 a : high_part 0 a = a.
Proof. unfold high_part. rewrite Z.div_1_r, Z.mul_1_r. done. Qed.

(** What the loop has summed up from the bits it has seen. *)
Definition partial_product (w : Z) (X : model -> Z) (add sub n : Z) (r : option VCExpr) : Prop :=
  match r with
  | None => high_part n add = 0 /\ high_part n sub = 0
  | Some h => is_word h w (fun m => wrap w (X m * (high_part n add - high_part n sub)))
  end.

Lemma mul_by_constant_loop_ok a w X add sub n r :
  is_word a w X -> Z.land add sub = 0 -> (n <= 64)%nat -> partial_product w X add sub (Z.of_nat n) r ->
  exists r', mul_by_constant_loop a w add sub n r = Ok r' /\ partial_product w X add sub 0 r'.
Proof.
  intros Ha Hd. revert r. induction n as [|n IH]; intros r Hn Hr; cbn [mul_by_constant_loop]; [by exists r|].
  assert (2 ^ Z.of_nat n < 2 ^ 64) by (apply Z.pow_lt_mono_r; lia).
  rewrite Z.shiftl_mul_pow2, Z.mul_1_l, wrap_small, !land_pow2, !negb_involutive by lia.
  rewrite disjoint_bits in Hd. specialize (Hd (Z.of_nat n) ltac:(lia)).
  assert (forall c, high_part (Z.of_nat n) c = high_part (Z.of_nat (S n)) c + Z.b2z (Z.testbit c (Z.of_nat n)) * 2 ^ Z.of_nat n) as Hstep.
  { intros c. rewrite Nat2Z.inj_succ, <- Z.add_1_r. apply high_part_step. lia. }
  destruct (bvLeftShift_ok a w X (Z.of_nat n) Ha ltac:(lia)) as (op & Eop & Hop).
  destruct (Z.testbit add (Z.of_nat n)) eqn:Ea, (Z.testbit sub (Z.of_nat n)) eqn:Es; try done; cbn [orb andb negb res_assert].
  1, 2: rewrite Eop; cbn [res_bind]; apply IH; [lia|]; unfold partial_product in *; rewrite !Hstep, Ea, Es; cbn [Z.b2z].
  - destruct r as [r|].
    + eapply word_ext; [by apply word_plus|]. intros m. cbn beta. wrap_ring.
    + destruct Hr as [-> ->]. eapply word_ext; [exact Hop|]. intros m. cbn beta. f_equal. ring.
  - destruct r as [r|].
    + eapply word_ext; [by apply word_minus|]. intros m. cbn beta. wrap_ring.
    + destruct Hr as [-> ->]. eapply word_ext; [by apply word_uminus|]. intros m. cbn beta.
      rewrite <- (Z.sub_0_l (wrap _ _)). wrap_ring.
  - apply IH; [lia|]. unfold partial_product in *. rewrite !Hstep, Ea, Es. cbn [Z.b2z]. by rewrite !Z.mul_0_l, !Z.add_0_r.
Qed.

Lemma constructMulByConstant_ok a w X x : is_word a w X -> w <= 64 -> 0 <= x < 2 ^ 64 ->
  makes (constructMulByConstant a w x) w (fun m => wrap w (X m * x)).
Proof.
  intros Ha Hw Hx. pose proof (word_pos _ _ _ Ha) as Hw0. unfold constructMulByConstant.
  destruct (mult_constants_ok x Hx) as (add & sub & -> & Hadd & Hsub & Hd & Ex). cbn [res_bind fst snd].
  rewrite !truncate64_eq by lia. cbn [res_bind].
  assert (forall c, 0 <= c < 2 ^ 64 -> high_part 64 (wrap w c) = 0) as Hhi.
  { intros c Hc. unfold high_part. pose proof (wrap_range w c ltac:(lia)).
    assert (2 ^ w <= 2 ^ 64) by (apply Z.pow_le_mono_r; lia). by rewrite Z.div_small by lia. }
  destruct (mul_by_constant_loop_ok a w X (wrap w add) (wrap w sub) 64 None Ha) as (r & -> & Hr).
  - rewrite disjoint_bits in *. intros i Hi. unfold wrap. specialize (Hd i Hi).
    destruct (Z.lt_ge_cases i w); [by rewrite !Z.mod_pow2_bits_low by lia|by rewrite Z.mod_pow2_bits_high by lia].
  - lia.
  - split; apply Hhi; lia.
  - cbn [res_bind]. assert (forall m, wrap w (X m * (wrap w add - wrap w sub)) = wrap w (X m * x)) as E.
    { intros m. rewrite <- Ex, <- (wrap_mul_r w (X m) (wrap 64 _)), wrap_small_width, wrap_mul_r by lia.
      by rewrite <- wrap_mul_r, wrap_sub_l, wrap_sub_r, wrap_mul_r. }
    unfold partial_product in Hr. rewrite !high_part_0 in Hr. destruct r as [r|].
    + apply makes_ok. eapply word_ext; [exact Hr|done].
    + destruct Hr as [Ea Es]. eapply makes_ext; [by apply bvZero_ok|]. intros m. cbn beta. rewrite <- E, Ea, Es.
      rewrite Z.sub_diag, Z.mul_0_r. done.
Qed.

(** ** Division by a constant *)

Lemma shift_amount_const ws v w : 0 < w <= ws -> ws <= 64 -> active_bits w <= ws -> 0 <= v < 2 ^ 32 -> v < 2 ^ ws ->
  shift_amount (bvConst32 ws v) ws (fun _ => v) w.
Proof.
  intros Hw Hws Hb Hv Hvw. split_and!; try done; [apply word_const32; lia|].
  assert (w < 2 ^ 32); [|done]. assert (64 < 2 ^ 32) by done. lia.
Qed.

(** The quotient of a word by [d], through the constants of [d]. *)
Lemma constructUDivByConstant_ok a X d : is_word a 32 X -> 1 <= d < 2 ^ 32 ->
  makes (constructUDivByConstant a 32 d) 32 (fun m => X m / d).
Proof.
  intros Ha Hd. unfold constructUDivByConstant. cbn [Z.eqb Pos.eqb res_assert]. unfold u32 at 1.
  rewrite (wrap_small 32 d) by lia. destruct (udiv_constants_ok d Hd) as (mprime & sh1 & sh2 & -> & Hm & H1 & H2 & Hq).
  cbn [res_bind]. eapply makes_bind; [apply (bvZero_ok 32); lia|]. intros z Hz.
  eapply makes_bind; [apply constructMulByConstant_ok; [apply (word_concat _ _ _ _ _ _ Hz Ha)|lia|lia]|]. intros p Hp.
  pose proof (word_extract _ _ _ 63 32 Hp ltac:(lia) ltac:(lia)) as Ht1. cbn beta in Ht1.
  assert (forall v, 0 <= v < 32 -> shift_amount (bvConst32 32 v) 32 (fun _ => v) 32) as Hsh.
  { intros v Hv. apply shift_amount_const; try lia. done. }
  eapply makes_bind; [eapply bvVarRightShift_ok; [apply (word_minus _ _ _ _ _ Ha Ht1)|apply Hsh; lia]|]. intros q Hs.
  eapply makes_ext; [eapply bvVarRightShift_ok; [apply (word_plus _ _ _ _ _ Hs Ht1)|apply Hsh; lia]|].
  intros m. cbn beta. pose proof (word_range _ _ _ m Ha) as Hx. rewrite <- Hq by done. unfold udiv_by_constants, u32.
  rewrite (proj2 (Z.ltb_lt sh1 32)), (proj2 (Z.ltb_lt sh2 32)) by lia.
  replace ((0 * 2 ^ 32 + X m) * mprime) with (mprime * X m) by ring.
  rewrite (wrap_small (32 + 32)) by nia. change (63 - 32 + 1) with 32.
  rewrite (wrap_small 32 (mprime * X m / 2 ^ 32)); [done|].
  split; [apply Z.div_pos; nia|]. apply Z.div_lt_upper_bound; nia.
Qed.

(** Bits 32 to 63 of a product of two signed words. *)
Lemma signed_high_word mprime x : - 2 ^ 31 <= mprime < 2 ^ 31 -> 0 <= x < 2 ^ 32 ->
  wrap 32 (wrap 64 (wrap 64 (signed 32 x) * wrap 64 mprime) / 2 ^ 32) = wrap 32 (Z.shiftr (mprime * signed 32 x) 32).
Proof.
  intros Hm Hx. rewrite Z.shiftr_div_pow2 by lia.
  replace (wrap 64 (wrap 64 (signed 32 x) * wrap 64 mprime)) with (wrap 64 (mprime * signed 32 x)) by (symmetry; wrap_ring).
  set (p := mprime * signed 32 x). unfold wrap. rewrite (Z.mod_eq p (2 ^ 64)) by done.
  replace (p - 2 ^ 64 * (p / 2 ^ 64)) with (p + - (2 ^ 32 * (p / 2 ^ 64)) * 2 ^ 32) by ring.
  rewrite Z.div_add by done. replace (p / 2 ^ 32 + - (2 ^ 32 * (p / 2 ^ 64))) with (p / 2 ^ 32 + - (p / 2 ^ 64) * 2 ^ 32) by ring.
  by rewrite Z.mod_add.
Qed.

(** A word shifted right in 64 bits after sign extension, read as 32 bits. *)
Lemma sext_shift q s : 0 <= s < 32 -> wrap 32 (wrap 64 (signed 32 q) / 2 ^ s) = wrap 32 (Z.shiftr (signed 32 q) s).
Proof.
  intros Hs. rewrite Z.shiftr_div_pow2 by lia. set (x := signed 32 q). unfold wrap. rewrite (Z.mod_eq x (2 ^ 64)) by done.
  generalize (x / 2 ^ 64). intros k. assert (2 ^ 64 = 2 ^ 32 * 2 ^ (32 - s) * 2 ^ s) as E by (rewrite <- !Z.pow_add_r by lia; f_equal; lia).
  replace (x - 2 ^ 64 * k) with (x + - (2 ^ 32 * 2 ^ (32 - s) * k) * 2 ^ s) by (rewrite E; ring).
  rewrite Z.div_add by lia. replace (- (2 ^ 32 * 2 ^ (32 - s) * k)) with (- (2 ^ (32 - s) * k) * 2 ^ 32) by ring.
  by rewrite Z.mod_add.
Qed.

Lemma lxor_wrap w a b : 0 <= w -> Z.lxor (wrap w a) (wrap w b) = wrap w (Z.lxor a b).
Proof.
  intros Hw. apply bits_ext. intros i Hi. unfold wrap. rewrite Z.lxor_spec. destruct (Z.lt_ge_cases i w).
  - by rewrite !Z.mod_pow2_bits_low, Z.lxor_spec by lia.
  - by rewrite !Z.mod_pow2_bits_high by lia.
Qed.

(** The quotient rounded towards zero. *)
Lemma constructSDivByConstant_ok a X d : is_word a 32 X -> signed 32 d <> 0 ->
  makes (constructSDivByConstant a 32 d) 32 (fun m => wrap 32 (Z.quot (signed 32 (X m)) (signed 32 d))).
Proof.
  intros Ha Hd. unfold constructSDivByConstant. cbn [Z.eqb Pos.eqb res_assert].
  destruct (sdiv_constants_ok (signed 32 d)) as (mprime & dsign & shpost & -> & Hm & Eds & Hs & Hq);
    [apply (signed_range 32 d); lia|done|].
  cbn [res_bind]. pose proof (wrap_range 64 mprime ltac:(lia)).
  eapply makes_bind; [apply constructMulByConstant_ok; [apply (word_sext _ _ _ 64 Ha); lia|lia|lia]|]. intros p Hp.
  pose proof (word_extract _ _ _ 63 32 Hp ltac:(lia) ltac:(lia)) as Hh. cbn beta in Hh.
  pose proof (word_plus _ _ _ _ _ Ha Hh) as Hn. unfold u32. rewrite (wrap_small 32 shpost) by (change (2 ^ 32) with 4294967296; lia).
  eapply makes_bind.
  { eapply bvVarRightShift_ok; [apply (word_sext _ _ _ 64 Hn); lia|].
    split_and!; [apply word_const32; [lia|change (2 ^ 32) with 4294967296; lia..]|lia|done|done]. }
  intros q Hsh. pose proof (word_extract _ _ _ 31 0 Hsh ltac:(lia) ltac:(lia)) as Hlow. cbn beta in Hlow.
  destruct (bvBoolExtract_ok a 32 X 31 Ha ltac:(lia)) as (sg & -> & Hsg). cbn [res_bind].
  eapply makes_bind; [apply (bvZero_ok 32); lia|]. intros z Hz.
  pose proof (word_ite _ _ _ _ _ _ _ Hsg (bvMinusOne_ok 32 ltac:(lia)) Hz) as Hx.
  pose proof (word_const32 32 (wrap 32 dsign) ltac:(lia) (wrap_range 32 dsign ltac:(lia)) ltac:(apply (wrap_range 32 dsign); lia)) as Hds.
  apply makes_ok. eapply word_ext.
  { apply word_minus; [apply word_xor; [apply (word_minus _ _ _ _ _ Hlow Hx)|exact Hds]|exact Hds]. }
  intros m. cbn beta. change (63 - 32 + 1) with 32. change (31 - 0 + 1) with 32. change (2 ^ 0) with 1.
  pose proof (word_range _ _ _ m Ha) as Hr. pose proof (signed_range 32 (X m) ltac:(lia)) as Hsr.
  set (n := signed 32 (X m)) in *. assert (wrap 32 (X m) = wrap 32 n) as En by (symmetry; by apply wrap_signed).
  replace (wrap 32 (Z.quot n (signed 32 d))) with (wrap 32 (sdiv_by_constants n (mprime, dsign, shpost)))
    by (rewrite Hq by done; by apply wrap_signed).
  unfold sdiv_by_constants. rewrite wrap_signed, <- (wrap_sub_l 32 (Z.lxor _ dsign)), <- lxor_wrap, wrap_signed by lia.
  rewrite wrap_sub_r. do 3 f_equal. rewrite Z.div_1_r.
  rewrite (proj2 (Z.ltb_lt shpost 64)) by lia. rewrite sext_shift by lia.
  pose proof (signed_high_word mprime (X m) Hm Hr) as Hhw. fold n in Hhw. rewrite Hhw.
  assert ((if Z.testbit (X m) 31 then 2 ^ 32 - 1 else 0) = wrap 32 (Z.shiftr n 31)) as ->.
  { rewrite (xsign n Hsr). subst n. rewrite signed_by_bit by (done || lia). change (32 - 1) with 31.
    destruct (Z.testbit (X m) 31); bool_case; tidy_bools; try reflexivity; lia. }
  rewrite wrap_sub_l, wrap_sub_r. do 3 f_equal. rewrite signed_wrap by lia.
  rewrite <- (signed_wrap 32 (X m + _)), <- (signed_wrap 32 (n + _)) by lia. f_equal.
  by rewrite wrap_add_r, <- wrap_add_l, En, wrap_add_l.
Qed.

End words.
