(* ===== verification/STPBuilderInv.v ===== *)
(** The invariant of the translation of klee/lib/Solver/STPBuilder.cpp: what a
    term must be to stand for an expression or an array, the tables of the
    builder, and the first cases, constants and arrays.  What an expression must
    satisfy beyond being well-typed is [stp_typed] and [no_overshift]. *)
From Stdlib Require Import ZArith Lia Bool String.
From stdpp Require Import base list numbers option strings.
From S2P Require Import Prelude Bits APInt Expr ExprSem ExprCompare ExprFactory ConstantDivision STP STPBuilder STPWords.
Open Scope Z_scope.

(** ** The expressions that are translated *)
Section typed.
Context {A : APInt} {AR : Arrays}.

(** The widths the translation tells truth values and words apart by, the
    kinds it handles, and what it asks of constant operands. *)
Definition stp_binary (k : BinKind) (l r : expr) : Prop :=
  match k with
  | And | Or | Xor | Eq => True
  | Ne | Ugt | Uge | Sgt | Sge => False
  | UDiv | SDiv | URem => getWidth l <> 1 /\ (forall c, r = Constant c -> uval c <> 0)
  | Shl | LShr | AShr =>
      getWidth l <> 1 /\ match r with Constant c => uval c < 2 ^ 32 | _ => getWidth r <= 64 end
  | _ => getWidth l <> 1
  end.

Definition stp_array (a : array) : Prop := domain a <> 1 /\ range a <> 1.

Fixpoint stp_typed (e : expr) : Prop :=
  match e with
  | Constant _ => True
  | NotOptimized s => stp_typed s
  | Read root head index => stp_array (arrayAt root) /\ stp_typed_updates head /\ stp_typed index
  | Select c t f => stp_typed c /\ stp_typed t /\ stp_typed f
  | Concat l r => (getWidth l <> 1 /\ getWidth r <> 1) /\ stp_typed l /\ stp_typed r
  | Extract s _ _ => getWidth s <> 1 /\ stp_typed s
  | Cast _ s _ => stp_typed s
  | Not s => stp_typed s
  | Binary k l r => stp_binary k l r /\ stp_typed l /\ stp_typed r
  end
with stp_typed_updates (u : updates) : Prop :=
  match u with
  | UNil => True
  | UNode i v next => stp_typed i /\ stp_typed v /\ stp_typed_updates next
  end.

Context (checked : bool).

(** No arithmetic shift of a negative number by its width or more. *)
Fixpoint no_overshift (ρ : env) (e : expr) : Prop :=
  match e with
  | Constant _ => True
  | NotOptimized s => no_overshift ρ s
  | Read root head index => no_overshift_updates ρ head /\ no_overshift ρ index
  | Select c t f => no_overshift ρ c /\ no_overshift ρ t /\ no_overshift ρ f
  | Concat l r => no_overshift ρ l /\ no_overshift ρ r
  | Extract s _ _ => no_overshift ρ s
  | Cast _ s _ => no_overshift ρ s
  | Not s => no_overshift ρ s
  | Binary k l r =>
      (k = AShr -> forall x y, denote checked ρ l = Some x -> denote checked ρ r = Some y ->
         y < getWidth l \/ 0 <= signed (getWidth l) x) /\
      no_overshift ρ l /\ no_overshift ρ r
  end
with no_overshift_updates (ρ : env) (u : updates) : Prop :=
  match u with
  | UNil => True
  | UNode i v next => no_overshift ρ i /\ no_overshift ρ v /\ no_overshift_updates ρ next
  end.
End typed.

Section no_overshift.
Context {A : APInt} {L : APIntLaws A} {AR : Arrays} (checked : bool).

Lemma same_no_overshift_both :
  (forall a b, same a b -> forall ρ, no_overshift checked ρ a -> no_overshift checked ρ b) /\
  (forall u u', same_updates u u' -> forall ρ, no_overshift_updates checked ρ u -> no_overshift_updates checked ρ u').
Proof.
  apply same_both; simpl; intros; repeat match goal with H : _ /\ _ |- _ => destruct H end;
    split_and?; auto.
  intros Hk x y Hx Hy. destruct same_denote_both as [D _].
  rewrite <- (same_width l l') by done. rewrite <- (D l l') in Hx by done. rewrite <- (D r r') in Hy by done. auto.
Qed.

Lemma expr_eqb_no_overshift a b ρ :
  wt a -> wt b -> expr_eqb a b = true -> no_overshift checked ρ a <-> no_overshift checked ρ b.
Proof.
  intros Ha Hb H. apply Z.eqb_eq, compare_zero_same in H; [|done..].
  assert (forall a b, same a b -> same b a) as Sym.
  { clear. apply (same_mut (fun a b _ => same b a) (fun u u' _ => same_updates u' u)); intros; constructor; congruence || done. }
  split; apply same_no_overshift_both; auto.
Qed.
End no_overshift.

(** ** Terms for expressions *)
Section correct.
Context {A : APInt} {L : APIntLaws A} {AR : Arrays} {T : STP} {TL : STPLaws T}.
Context (UseConstructHash optimizeDivides checked : bool) (itostr : Z -> string).
Context (node_address : nat -> positive * updates -> positive).
Context (node_address_ok : one_node_per_address node_address).

Notation builds := (state STPBuilder).
Notation construct := (construct UseConstructHash optimizeDivides itostr node_address).
Notation getArrayForUpdate := (getArrayForUpdate UseConstructHash optimizeDivides itostr node_address).
Notation unique_name := (unique_name itostr).
Notation getInitialArray := (getInitialArray itostr).

(** The value of a term, a truth value as 0 or 1. *)
Definition wval (h : VCExpr) (m : model) : Z :=
  match den m h with Some (VBV _ x) => x | Some (VBool b) => Z.b2z b | _ => 0 end.

(** A term for an expression of width [w]. *)
Definition typed (h : VCExpr) (w : Z) : Prop :=
  if w =? 1 then is_bool h (fun m => wval h m =? 1) else is_word h w (wval h).

Lemma word_wval h w X m : is_word h w X -> wval h m = X m.
Proof. intros H. unfold wval. by rewrite (word_den h w X m H). Qed.

Lemma bool_wval h B m : is_bool h B -> wval h m = Z.b2z (B m).
Proof. intros H. unfold wval. by rewrite (H m). Qed.

Lemma word_typed h w X : is_word h w X -> w <> 1 -> typed h w /\ forall m, wval h m = X m.
Proof.
  intros H Hw. split; [|intros m; by apply (word_wval h w)]. unfold typed. rewrite (proj2 (Z.eqb_neq w 1)) by done.
  eapply word_ext; [exact H|]. intros m. symmetry. by apply (word_wval h w).
Qed.

Lemma bool_typed h B : is_bool h B -> typed h 1 /\ forall m, wval h m = Z.b2z (B m).
Proof.
  intros H. split; [|intros m; by apply bool_wval]. intros m. rewrite (H m). do 2 f_equal.
  rewrite (bool_wval h B m H). by destruct (B m).
Qed.

Lemma typed_word h w : typed h w -> w <> 1 -> is_word h w (wval h).
Proof. unfold typed. intros H Hw. by rewrite (proj2 (Z.eqb_neq w 1)) in H by done. Qed.

Lemma typed_bool h : typed h 1 -> is_bool h (fun m => wval h m =? 1).
Proof. done. Qed.

Lemma typed_range h w m : 0 < w -> typed h w -> 0 <= wval h m < 2 ^ w.
Proof.
  intros Hw H. destruct (Z.eq_dec w 1) as [->|Hne].
  - rewrite (bool_wval h _ m (typed_bool h H)). by destruct (wval h m =? 1).
  - by apply (word_range h w), typed_word.
Qed.

(** The environment of an interpretation, with the names of the arrays. *)
Definition env_of (ν : positive -> string) (m : model) : env := fun root => m (ν root).

(** The names the builder has given to the arrays so far. *)
Definition named (b : STPBuilder) (ν : positive -> string) : Prop :=
  forall k root h, array_hash b !! k = Some (root, h) -> ν root = unique_name root k.

(** [X] is the value of [e] wherever [e] has one. *)
Definition stands (b : STPBuilder) (X : model -> Z) (e : expr) : Prop :=
  forall ν m v, named b ν -> no_overshift checked (env_of ν m) e -> denote checked (env_of ν m) e = Some v -> X m = v.

Definition translates (b : STPBuilder) (h : VCExpr) (e : expr) : Prop :=
  typed h (getWidth e) /\ stands b (wval h) e.

(** The contents of a term for an array. *)
Definition aval (h : VCExpr) (m : model) : Z -> Z :=
  match den m h with Some (VArr _ _ f) => f | _ => fun _ => 0 end.

Definition array_typed (h : VCExpr) (root : positive) : Prop :=
  forall m, den m h = Some (VArr (domain (arrayAt root)) (range (arrayAt root)) (aval h m)) /\
    forall i, 0 <= aval h m i < 2 ^ range (arrayAt root).

Definition array_stands (b : STPBuilder) (h : VCExpr) (root : positive) (u : updates) : Prop :=
  forall ν m i v, named b ν -> no_overshift_updates checked (env_of ν m) u ->
    0 <= i < 2 ^ domain (arrayAt root) -> denote_updates checked (env_of ν m) root u i = Some v -> aval h m i = v.

Definition array_translates (b : STPBuilder) (h : VCExpr) (root : positive) (u : updates) : Prop :=
  array_typed h root /\ array_stands b h root u.

(** ** The invariant of the builder *)

Record builder_ok (b : STPBuilder) : Prop := {
  constructed_ok : forall e h w, (e, (h, w)) ∈ constructed b -> wt e /\ w = getWidth e /\ translates b h e;
  arrays_once : NoDup (fst <$> array_hash b);
  arrays_ok : forall root h, (root, h) ∈ array_hash b -> array_translates b h root UNil;
  nodes_ok : forall un h, (un, h) ∈ update_node_hash b ->
    exists t root u, un = node_address t (root, u) /\ array_translates b h root u;
}.

(** A later builder has named the same arrays, and maybe more. *)
Definition extends (b b' : STPBuilder) : Prop := array_hash b `prefix_of` array_hash b'.

Lemma extends_refl b : extends b b.
Proof. by exists []; rewrite app_nil_r. Qed.

Lemma extends_trans b b' b'' : extends b b' -> extends b' b'' -> extends b b''.
Proof. unfold extends. intros; by etrans. Qed.

Lemma extends_named b b' ν : extends b b' -> named b' ν -> named b ν.
Proof. intros He Hn k root h Hk. apply (Hn k root h). by eapply prefix_lookup_Some. Qed.

Lemma extends_stands b b' X e : extends b b' -> stands b X e -> stands b' X e.
Proof. intros He H ν m v Hn. apply H. by eapply extends_named. Qed.

Lemma extends_translates b b' h e : extends b b' -> translates b h e -> translates b' h e.
Proof. intros He [Ht H]. split; [done|]. by eapply extends_stands. Qed.

Lemma extends_array b b' h root u : extends b b' -> array_translates b h root u -> array_translates b' h root u.
Proof. intros He [Ht H]. split; [done|]. intros ν m i v Hn. apply H. by eapply extends_named. Qed.

Lemma empty_builder_ok : builder_ok STPBuilder_new.
Proof. split; cbn; [intros ??? H|constructor|intros ?? H|intros ?? H]; by apply elem_of_nil in H. Qed.

(** ** Running the builder *)

Definition runs {X} (m : builds X) (b : STPBuilder) (Q : X -> STPBuilder -> Prop) : Prop :=
  exists x b', m b = Ok (x, b') /\ builder_ok b' /\ extends b b' /\ Q x b'.

Lemma runs_ret {X} (x : X) b (Q : X -> STPBuilder -> Prop) : builder_ok b -> Q x b -> runs (sret x) b Q.
Proof. intros Hb HQ. exists x, b. split_and!; try done. apply extends_refl. Qed.

Lemma runs_lift {X} (m : res X) b (Q : X -> STPBuilder -> Prop) :
  builder_ok b -> (exists x, m = Ok x /\ Q x b) -> runs (slift m) b Q.
Proof. intros Hb (x & -> & HQ). exists x, b. split_and!; try done. apply extends_refl. Qed.

Lemma runs_bind {X Y} (m : builds X) (k : X -> builds Y) b Q R :
  runs m b Q -> (forall x b', builder_ok b' -> extends b b' -> Q x b' -> runs (k x) b' R) -> runs (sbind m k) b R.
Proof.
  intros (x & b' & E & Hb' & He & HQ) Hk. destruct (Hk x b' Hb' He HQ) as (y & b'' & E' & Hb'' & He' & HR).
  exists y, b''. split_and!; try done; [|by eapply extends_trans]. unfold sbind. by rewrite E.
Qed.

Lemma runs_weaken {X} (m : builds X) b (Q Q' : X -> STPBuilder -> Prop) :
  runs m b Q -> (forall x b', Q x b' -> Q' x b') -> runs m b Q'.
Proof. intros (x & b' & E & Hb & He & HQ) H. exists x, b'. auto. Qed.

(** What constructing [e] gives. *)
Definition gives (e : expr) (r : VCExpr * Z) (b : STPBuilder) : Prop := snd r = getWidth e /\ translates b (fst r) e.
Definition constructs (m : builds (VCExpr * Z)) (e : expr) : Prop := forall b, builder_ok b -> runs m b (gives e).

(** ** Constants *)

Lemma wide_constant_ok fuel c Tmp Res t :
  0 < t -> getBitWidth Tmp = t -> t <= getBitWidth c -> uval Tmp = uval c / 2 ^ (getBitWidth c - t) ->
  t <= 64 * (1 + Z.of_nat fuel) ->
  (let w := getBitWidth c - t + Z.min 64 t in is_word Res w (fun _ => wrap w (uval c))) ->
  makes (wide_constant fuel Tmp Res) (getBitWidth c) (fun _ => uval c).
Proof.
  intros Ht. revert t Tmp Res Ht. induction fuel as [|fuel IH]; intros t Tmp Res Ht Et Hle Ev Hf Hr; cbn [wide_constant]; rewrite Et.
  all: pose proof (uval_range c ltac:(lia)) as Hc; destruct (Z.ltb_spec 64 t) as [Hlt|Hge].
  1: lia. 1, 3: apply makes_ok; cbv zeta in Hr; rewrite Z.min_r in Hr by lia;
    replace (getBitWidth c - t + t) with (getBitWidth c) in Hr by lia; eapply word_ext; [exact Hr|];
    intros m; by apply wrap_small.
  destruct (const_Extract_ok Tmp 64 (t - 64)) as [Ew1 Ev1]; [lia..|]. rewrite Ew1.
  assert (uval (const_Extract Tmp 64 (t - 64)) = uval c / 2 ^ (getBitWidth c - (t - 64))) as Ev2.
  { rewrite Ev1, Ev, Z.div_div, <- Z.pow_add_r by lia. replace (getBitWidth c - t + 64) with (getBitWidth c - (t - 64)) by lia.
    apply wrap_small. split; [apply Z.div_pos; lia|]. apply Z.div_lt_upper_bound; [lia|]. rewrite <- Z.pow_add_r by lia.
    replace (getBitWidth c - (t - 64) + (t - 64)) with (getBitWidth c) by lia. lia. }
  set (W := Z.min 64 (t - 64)). assert (0 < W <= 64 /\ W <= t - 64) as [HW HWt] by (subst W; lia). set (Tmp' := const_Extract Tmp 64 (t - 64)) in *.
  destruct (const_Extract_ok Tmp' 0 W) as [Ew3 Ev3]; [lia..|].
  unfold getZExtValue. rewrite Ew3, (proj2 (Z.leb_le W 64)) by lia. cbn [res_assert res_bind].
  pose proof (wrap_range W (uval Tmp' / 2 ^ 0) ltac:(lia)) as Hrng. rewrite <- Ev3 in Hrng.
  assert (2 ^ W <= 2 ^ 64) by (apply Z.pow_le_mono_r; lia).
  apply (IH (t - 64)); [lia|done|lia|done|lia|]. cbv zeta in *. fold W.
  rewrite Z.min_l in Hr by lia. pose proof (word_concat _ _ _ _ _ _ (word_const64 W (uval (const_Extract Tmp' 0 W)) ltac:(lia) ltac:(lia)) Hr) as Hcc.
  replace (getBitWidth c - (t - 64) + W) with (W + (getBitWidth c - t + 64)) by lia. eapply word_ext; [exact Hcc|].
  intros m. cbn beta. rewrite (wrap_small W) by lia. rewrite Ev3, Z.div_1_r, Ev2.
  replace (getBitWidth c - (t - 64)) with (getBitWidth c - t + 64) by lia. set (k := getBitWidth c - t + 64). unfold wrap.
  rewrite (Z.add_comm W k), Z.pow_add_r, Z.rem_mul_r by lia. lia.
Qed.

Lemma constructConstant_ok c : 0 < getBitWidth c ->
  exists h, constructConstant c = Ok (h, getBitWidth c) /\ typed h (getBitWidth c) /\ forall m, wval h m = uval c.
Proof.
  intros Hw. pose proof (uval_range c Hw) as Hc. unfold constructConstant.
  assert (forall r, makes r (getBitWidth c) (fun _ => uval c) -> getBitWidth c <> 1 ->
    exists h, (let* r := r in Ok (r, getBitWidth c)) = Ok (h, getBitWidth c) /\ typed h (getBitWidth c) /\ forall m, wval h m = uval c) as Hmk.
  { intros r (h & -> & Hh) Hne. exists h. split; [done|]. by apply word_typed. }
  destruct (Z.eqb_spec (getBitWidth c) 1) as [E1|N1].
  { rewrite E1 in *. eexists. split; [done|]. unfold const_isTrue, Bool_w. rewrite E1, Z.eqb_refl. cbn [andb].
    destruct (Z.eqb_spec (uval c) 0) as [E|E]; cbn [negb].
    - destruct (bool_typed getFalse (fun _ => false)) as [Ht Hv]; [intros m; apply den_false|]. split; [done|]. intros m. by rewrite Hv.
    - destruct (bool_typed getTrue (fun _ => true)) as [Ht Hv]; [intros m; apply den_true|]. split; [done|]. intros m. rewrite Hv. cbn. lia. }
  destruct (Z.leb_spec (getBitWidth c) 32) as [H32|H32].
  { apply Hmk; [|done]. unfold getZExtValue. rewrite (proj2 (Z.leb_le _ _) H32). cbn [res_assert res_bind].
    apply makes_ok, word_const32; [lia| |lia]. assert (2 ^ getBitWidth c <= 2 ^ 32) by (apply Z.pow_le_mono_r; lia). lia. }
  destruct (Z.leb_spec (getBitWidth c) 64) as [H64|H64].
  { apply Hmk; [|done]. unfold getZExtValue. rewrite (proj2 (Z.leb_le _ _) H64). cbn [res_assert res_bind].
    apply makes_ok. assert (2 ^ getBitWidth c <= 2 ^ 64) by (apply Z.pow_le_mono_r; lia).
    eapply word_ext; [apply word_const64; lia|]. intros m. by apply wrap_small. }
  apply Hmk; [|done]. destruct (const_Extract_ok c 0 64) as [Ew Ev]; [lia..|]. unfold getZExtValue. rewrite Ew. cbn [Z.leb Z.compare Pos.compare Pos.compare_cont res_assert res_bind].
  rewrite Z.div_1_r in Ev. pose proof (wrap_range 64 (uval c) ltac:(lia)) as Hr.
  apply (wide_constant_ok _ c c _ (getBitWidth c)); [lia|done|lia| |lia|].
  - by rewrite Z.sub_diag, Z.div_1_r.
  - cbv zeta. rewrite Z.sub_diag, Z.min_l, Z.add_0_l by lia. eapply word_ext; [apply word_const64; [lia|]|].
    + by rewrite Ev.
    + intros m. cbn beta. rewrite Ev. by apply wrap_wrap.
Qed.

(** ** Arrays *)

Lemma array_write a i v root :
  stp_array (arrayAt root) -> array_typed a root ->
  typed i (domain (arrayAt root)) -> typed v (range (arrayAt root)) ->
  array_typed (vc_writeExpr a i v) root /\
  forall m j, aval (vc_writeExpr a i v) m j = if wval i m =? j then wval v m else aval a m j.
Proof.
  intros [Hd Hr] Ha Hi Hv. apply typed_word in Hi, Hv; [|done..].
  assert (forall m, den m (vc_writeExpr a i v) = Some (VArr (domain (arrayAt root)) (range (arrayAt root))
    (fun j => if wval i m =? j then wval v m else aval a m j))) as E.
  { intros m. apply den_write; [apply Ha|by apply word_den|by apply word_den]. }
  assert (forall m j, aval (vc_writeExpr a i v) m j = if wval i m =? j then wval v m else aval a m j) as V.
  { intros m j. unfold aval at 1. by rewrite E. }
  split; [|exact V]. intros m. split; [unfold aval at 1; by rewrite !E|]. intros j. rewrite V.
  destruct (wval i m =? j); [by apply (word_range v)|apply Ha].
Qed.

Lemma array_read a i root :
  0 < range (arrayAt root) -> stp_array (arrayAt root) -> array_typed a root -> typed i (domain (arrayAt root)) ->
  typed (vc_readExpr a i) (range (arrayAt root)) /\ forall m, wval (vc_readExpr a i) m = aval a m (wval i m).
Proof.
  intros Hr0 [Hd Hr] Ha Hi. apply typed_word in Hi; [|done]. apply word_typed; [|done]. split; [done|]. intros m.
  destruct (Ha m) as [Ea Ra]. split; [|apply Ra]. eapply den_read; [exact Ea|by apply word_den].
Qed.

Lemma array_variable n root : wt_array (arrayAt root) ->
  let h := buildArray n (domain (arrayAt root)) (range (arrayAt root)) in
  array_typed h root /\ forall m i, aval h m i = wrap (range (arrayAt root)) (m n i).
Proof.
  intros (Hr & Hd & _) h.
  assert (forall m, den m h = Some (VArr (domain (arrayAt root)) (range (arrayAt root)) (fun i => wrap (range (arrayAt root)) (m n i)))) as E.
  { intros m. apply den_array; lia. }
  split; [|intros m i; unfold aval; by rewrite E]. intros m. unfold aval. rewrite E. split; [done|]. intros i. apply wrap_range. lia.
Qed.

Lemma write_constants_ok root n i h :
  wt_array (arrayAt root) -> stp_array (arrayAt root) -> array_typed h root ->
  0 <= i -> i + Z.of_nat n = Z.of_nat (length (constantValues (arrayAt root))) ->
  exists h', write_constants root n i h = Ok h' /\ array_typed h' root /\
    forall m j, 0 <= j -> aval h' m j =
      match (if i <=? j then constantValues (arrayAt root) !! Z.to_nat j else None) with Some c => uval c | None => aval h m j end.
Proof.
  intros Hwt Hst. revert i h. pose proof Hwt as (Hr & Hd & Hs & Hsd & Hcs & Hlen). induction n as [|n IH]; intros i h Hh Hi Hn.
  - exists h. split_and!; try done. intros m j Hj. destruct (Z.leb_spec i j); [|done].
    rewrite lookup_ge_None_2 by lia. done.
  - cbn [write_constants]. set (cs := constantValues (arrayAt root)) in *.
    destruct (cs !! Z.to_nat i) as [c|] eqn:Ec; [|apply lookup_ge_None in Ec; lia].
    assert (cs <> []) as Hne by (intros E; rewrite E in Ec; done). specialize (Hlen Hne).
    assert (2 ^ domain (arrayAt root) <= 2 ^ 64) by (apply Z.pow_le_mono_r; lia).
    destruct (constructConstant_ok (ap_make (domain (arrayAt root)) i)) as (hi & Ei & Ti & Vi); [rewrite make_width; lia|].
    rewrite make_width in Ei, Ti by lia. rewrite make_val, wrap_small in Vi by lia.
    assert (getBitWidth c = range (arrayAt root)) as Ecw by exact (Forall_lookup_1 (fun c => getBitWidth c = range (arrayAt root)) cs _ c Hcs Ec).
    destruct (constructConstant_ok c) as (hv & Ev & Tv & Vv); [lia|]. rewrite Ecw in Tv.
    rewrite Ei. cbn [res_bind fst]. rewrite Ev. cbn [res_bind fst].
    destruct (array_write h hi hv root Hst Hh Ti Tv) as [Ht Hval].
    destruct (IH (i + 1) _ Ht ltac:(lia) ltac:(lia)) as (h' & -> & Ht' & Hv'). exists h'. split_and!; [done|done|].
    intros m j Hj. rewrite Hv', Hval, Vi by done. destruct (Z.leb_spec (i + 1) j), (Z.leb_spec i j); try lia.
    + destruct (cs !! Z.to_nat j); [done|]. by rewrite (proj2 (Z.eqb_neq i j)) by lia.
    + assert (j = i) as -> by lia. by rewrite Ec, Z.eqb_refl, Vv.
    + by rewrite (proj2 (Z.eqb_neq i j)) by lia.
Qed.

Lemma lookupArrayExpr_Some root b h : lookupArrayExpr root b = Some h -> (root, h) ∈ array_hash b.
Proof.
  unfold lookupArrayExpr. destruct (find _ _) as [[root' h']|] eqn:E; [|done]. apply find_some in E as [Hin E].
  cbn in E. apply Pos.eqb_eq in E as ->. intros [= <-]. by apply list_elem_of_In.
Qed.

Lemma lookupArrayExpr_None root b : lookupArrayExpr root b = None -> root ∉ (fst <$> array_hash b).
Proof.
  unfold lookupArrayExpr. destruct (find _ _) as [[root' h']|] eqn:E; [done|]. intros _ Hin.
  apply list_elem_of_fmap in Hin as ([root' h] & -> & Hin). apply list_elem_of_In in Hin.
  pose proof (find_none _ _ E _ Hin) as Hf. cbn in Hf. by rewrite Pos.eqb_refl in Hf.
Qed.

Lemma hash_array_ok root h b : builder_ok b -> root ∉ (fst <$> array_hash b) ->
  array_translates (hashArrayExpr root h b) h root UNil -> builder_ok (hashArrayExpr root h b) /\ extends b (hashArrayExpr root h b).
Proof.
  intros Hb Hnew Hh. assert (extends b (hashArrayExpr root h b)) as He by (by eexists). split; [|done]. split; cbn.
  - intros e h' w Hin. destruct (constructed_ok b Hb e h' w Hin) as (? & ? & ?). split_and!; try done. by eapply extends_translates.
  - rewrite fmap_app. apply NoDup_app. split_and!; [apply (arrays_once b Hb)| |apply NoDup_singleton].
    intros x Hx Hx'. apply list_elem_of_singleton in Hx' as ->. done.
  - intros root' h' Hin. apply elem_of_app in Hin as [Hin|Hin].
    + eapply extends_array; [exact He|]. by apply (arrays_ok b Hb).
    + apply list_elem_of_singleton in Hin. by simplify_eq.
  - intros un h' Hin. destruct (nodes_ok b Hb un h' Hin) as (t & root' & u & -> & Hn). exists t, root', u.
    split; [done|]. by eapply extends_array.
Qed.

Lemma getInitialArray_ok root b : wt_array (arrayAt root) -> stp_array (arrayAt root) -> builder_ok b ->
  runs (getInitialArray root) b (fun h b' => array_translates b' h root UNil).
Proof.
  intros Hwt Hst Hb. pose proof Hwt as (Hr & Hd & Hs & Hsd & Hcs & Hlen). unfold runs, STPBuilder.getInitialArray.
  destruct (lookupArrayExpr root b) as [h|] eqn:El.
  { exists h, b. split_and!; [done|done|apply extends_refl|]. by apply (arrays_ok b Hb), lookupArrayExpr_Some. }
  set (name := unique_name root (length (array_hash b))).
  destruct (array_variable name root Hwt) as [Hvt Hvv]. set (hv := buildArray name _ _) in *.
  assert (exists h, (if isConstantArray (arrayAt root) then write_constants root (Z.to_nat (size (arrayAt root))) 0 hv else Ok hv) = Ok h /\
    array_typed h root /\ forall m i, 0 <= i -> aval h m i =
      match constantValues (arrayAt root) !! Z.to_nat i with Some c => uval c | None => wrap (range (arrayAt root)) (m name i) end) as (h & Eh & Ht & Hv).
  { unfold isConstantArray, isSymbolicArray. destruct (constantValues (arrayAt root)) eqn:Ec; cbn [negb].
    - exists hv. split_and!; [done|done|]. intros m i Hi. by rewrite lookup_nil.
    - rewrite <- Ec in *. destruct (write_constants_ok root (Z.to_nat (size (arrayAt root))) 0 hv Hwt Hst Hvt) as (h & E & Ht & Hv); [lia| |].
      + rewrite Hlen by (by rewrite Ec). lia.
      + exists h. split_and!; try done. intros m i Hi. rewrite Hv by done. rewrite (proj2 (Z.leb_le 0 i)) by done. by rewrite Hvv. }
  rewrite Eh. cbn [res_bind].
  destruct (hash_array_ok root h b Hb (lookupArrayExpr_None root b El)) as [Hb' He].
  { split; [done|]. intros ν m i v Hn _ Hi Hden. rewrite Hv by lia.
    assert (ν root = name) as En by (apply (Hn (length (array_hash b)) root h); cbn; by apply list_lookup_middle).
    change (array_init checked (env_of ν m) root i = Some v) in Hden. unfold array_init in Hden.
    rewrite (proj2 (Z.leb_le 0 i)) in Hden by lia. destruct (constantValues (arrayAt root) !! Z.to_nat i); [by injection Hden|].
    destruct (checked && _); [done|]. injection Hden as <-. unfold env_of. by rewrite En. }
  exists h, (hashArrayExpr root h b). split; [done|]. split; [exact Hb'|]. split; [exact He|]. apply (arrays_ok _ Hb' root h). cbn. apply elem_of_app. right. by apply list_elem_of_singleton.
Qed.

End correct.
