(* ===== verification/STPBuilderCorrect.v ===== *)
(** The translation of klee/lib/Solver/STPBuilder.cpp is correct: from every
    state of the builder's invariant it returns a term that has the type of the
    expression and, in every interpretation of the arrays, its value. *)
From Stdlib Require Import ZArith Lia Bool String.
From stdpp Require Import base list numbers option strings.
From S2P Require Import Prelude Bits APInt Expr ExprSem ExprCompare ExprFactory ConstantDivision STP STPBuilder STPWords STPBuilderInv.
Open Scope Z_scope.

(** A power of two is recognised, with its exponent. *)
Lemma isPowerOfTwo_ok x : 0 <= x < 2 ^ 64 -> bits64.isPowerOfTwo x = true ->
  exists i, 0 <= i < 64 /\ x = 2 ^ i /\ bits64.indexOfSingleBit x = Ok i.
Proof.
  intros Hx H. unfold bits64.isPowerOfTwo in H. destruct (Z.eqb_spec x 0) as [|Hne]; [done|].
  destruct (odd_decomposition x Hne) as (i & m & Hi & E). rewrite (power_of_two_test 64 x i m) in H by done.
  apply Z.eqb_eq in H as ->. destruct (lowest_bit_range 64 x i 0 Hi Hx E) as [_ Hi64]; try lia.
  assert (x = 2 ^ i) as Ex by lia. exists i. split_and!; [lia|lia|done|]. rewrite Ex. apply indexOfSingleBit64_pow2. lia.
Qed.

Section correct.
Context {A : APInt} {L : APIntLaws A} {AR : Arrays} {T : STP} {TL : STPLaws T}.
Context (UseConstructHash optimizeDivides checked : bool) (itostr : Z -> string).
Context (node_address : nat -> positive * updates -> positive).
Context (node_address_ok : one_node_per_address node_address).

Notation builds := (state STPBuilder).
Notation stands := (stands checked itostr).
Notation translates := (translates checked itostr).
Notation builder_ok := (builder_ok checked itostr node_address).
Notation runs := (runs checked itostr node_address).
Notation gives := (gives checked itostr).
Notation constructs := (constructs checked itostr node_address).

(** ** Binary operators *)

(** [h] computes [k] on the values [X] and [Y]. *)
Definition computes (k : BinKind) (w : Z) (X Y : model -> Z) (h : VCExpr) : Prop :=
  typed h (bin_width k w) /\
  forall m v, (k = AShr -> Y m < w \/ 0 <= signed w (X m)) -> bin_sem k w (X m) (Y m) = Some v -> wval h m = v.

Lemma computes_translates b k l r X Y h :
  stands b X l -> stands b Y r -> computes k (getWidth l) X Y h -> translates b h (Binary k l r).
Proof.
  intros HX HY [Ht Hv]. split; [exact Ht|]. intros ν m v Hn (Hs & Hl & Hr) Hd. simpl in Hd.
  apply bind_Some in Hd as (x & Hx & Hd). apply bind_Some in Hd as (y & Hy & Hd).
  pose proof (HX ν m x Hn Hl Hx) as Ex. pose proof (HY ν m y Hn Hr Hy) as Ey.
  apply (Hv m); rewrite Ex, Ey; [|done]. intros Hk. by apply Hs.
Qed.

Lemma stands_constant b c : stands b (fun _ => uval c) (Constant c).
Proof. intros ν m v _ _ H. cbn in *. congruence. Qed.

Lemma arith_computes k w a c h X Y :
  vc_arith k w a c = Some h -> w <> 1 -> is_word a w X -> is_word c w Y -> computes k w X Y h.
Proof.
  intros Hh Hw1 [Hw Ha] [_ Hc]. assert (is_word h w (wval h) /\ forall m v, bin_sem k w (X m) (Y m) = Some v -> wval h m = v) as [Hword Hv].
  { assert (forall m, exists z, den m h = Some (VBV w z) /\ 0 <= z < 2 ^ w /\ forall v, bin_sem k w (X m) (Y m) = Some v -> z = v) as H.
    { intros m. destruct (Ha m) as [Ea Ra], (Hc m) as [Ec Rc]. by apply (den_arith m k w a c). }
    unfold wval. split; [split; [done|]|]; intros m; destruct (H m) as (z & -> & Hz & Hs); [done|]. exact Hs. }
  split; [|auto]. unfold bin_width. assert (is_cmp k = false) as -> by (by destruct k). by apply (word_typed _ _ _ Hword).
Qed.

Lemma makes_computes k w X Y r Z :
  makes r w Z -> w <> 1 -> is_cmp k = false ->
  (forall m v, (k = AShr -> Y m < w \/ 0 <= signed w (X m)) -> bin_sem k w (X m) (Y m) = Some v -> Z m = v) ->
  exists h, r = Ok h /\ computes k w X Y h.
Proof.
  intros (h & -> & Hh) Hw Hk HZ. exists h. split; [done|]. destruct (word_typed h w Z Hh Hw) as [Ht Hv].
  split; [unfold bin_width; by rewrite Hk|]. intros m v Ha Hs. rewrite Hv. by apply HZ.
Qed.

Lemma bool_computes k w X Y B h :
  is_bool h B -> bin_width k w = 1 -> (forall m v, bin_sem k w (X m) (Y m) = Some v -> Z.b2z (B m) = v) -> computes k w X Y h.
Proof.
  intros Hh Hk HB. destruct (bool_typed h B Hh) as [Ht Hv]. split; [by rewrite Hk|]. intros m v _ Hs. rewrite Hv. by apply HB.
Qed.

(** *** Shifts *)

Lemma shift_constant_ok a w X c signedBool :
  is_word a w X -> is_bool signedBool (fun m => Z.testbit (X m) (w - 1)) -> w <> 1 -> getBitWidth c = w -> uval c < 2 ^ 32 ->
  let shift := u32 (getLimitedValue c (2 ^ 64 - 1)) in
  (exists h, bvLeftShift a shift = Ok h /\ computes Shl w X (fun _ => uval c) h) /\
  (exists h, bvRightShift a shift = Ok h /\ computes LShr w X (fun _ => uval c) h) /\
  (exists h, constructAShrByConstant a shift signedBool = Ok h /\ computes AShr w X (fun _ => uval c) h).
Proof.
  intros Ha Hs Hw Hcw Hc32 shift. pose proof (word_pos _ _ _ Ha). pose proof (uval_range c ltac:(lia)) as Hc.
  assert (shift = uval c) as ->.
  { subst shift. unfold u32, getLimitedValue. rewrite Z.min_l by lia. apply wrap_small. lia. }
  split_and!.
  - eapply makes_computes; [apply bvLeftShift_ok; [done|lia]|done|done|]. intros m v _ [= <-].
    bool_case; tidy_bools; [done|]. apply wrap_shifted_out. lia.
  - eapply makes_computes; [apply bvRightShift_ok; [done|lia]|done|done|]. intros m v _ [= <-]. done.
  - eapply makes_computes; [apply constructAShrByConstant_ok; [done|lia|done]|done|done|]. intros m v Ho [= <-].
    by apply ashr_zero_ok, Ho; [lia|lia|apply (word_range a w X)|].
Qed.
Lemma shift_variable_ok a w X h ws V :
  is_word a w X -> w <> 1 -> shift_amount h ws V w ->
  (exists r, bvVarLeftShift a h = Ok r /\ computes Shl w X V r) /\
  (exists r, bvVarRightShift a h = Ok r /\ computes LShr w X V r) /\
  (exists r, bvVarArithRightShift a h = Ok r /\ computes AShr w X V r).
Proof.
  intros Ha Hw Hh. pose proof (word_pos _ _ _ Ha). split_and!.
  - eapply makes_computes; [by apply (bvVarLeftShift_ok a w X h ws V)|done|done|]. intros m v _ [= <-]. done.
  - eapply makes_computes; [by apply (bvVarRightShift_ok a w X h ws V)|done|done|]. intros m v _ [= <-]. done.
  - eapply makes_computes; [by apply (bvVarArithRightShift_ok a w X h ws V)|done|done|]. intros m v Ho [= <-].
    pose proof (word_range h ws V m (proj1 Hh)). apply ashr_zero_ok; [lia|lia|by apply (word_range a w X)|by apply Ho].
Qed.

(** *** Division by constants *)

(** A constant of a word's width. *)
Lemma constant_value c w : 0 < w <= 64 -> getBitWidth c = w -> 0 <= uval c < 2 ^ w /\ 0 <= uval c < 2 ^ 64.
Proof.
  intros Hw E. pose proof (uval_range c ltac:(lia)) as Hc. rewrite E in Hc.
  assert (2 ^ w <= 2 ^ 64) by (apply Z.pow_le_mono_r; lia). lia.
Qed.

Lemma udiv_power_ok a w X c : is_word a w X -> w <> 1 -> w <= 64 -> getBitWidth c = w -> bits64.isPowerOfTwo (uval c) = true ->
  exists h, (let* i := bits64.indexOfSingleBit (uval c) in let* h := bvRightShift a i in Ok (h, w)) = Ok (h, w) /\
    computes UDiv w X (fun _ => uval c) h.
Proof.
  intros Ha Hw Hw64 Hcw Hp. pose proof (word_pos _ _ _ Ha). destruct (constant_value c w ltac:(lia) Hcw) as [Hc Hc64].
  destruct (isPowerOfTwo_ok (uval c) Hc64 Hp) as (i & Hi & Ei & ->). cbn [res_bind].
  destruct (makes_computes UDiv w X (fun _ => uval c) _ _ (bvRightShift_ok a w X i Ha ltac:(lia)) Hw eq_refl) as (h & -> & Hh).
  - intros m v _ Hd. simpl in Hd. rewrite (proj2 (Z.eqb_neq (uval c) 0)) in Hd by lia. injection Hd as <-. rewrite Ei.
    bool_case; tidy_bools; [done|]. assert (2 ^ w <= 2 ^ i) by (apply Z.pow_le_mono_r; lia). lia.
  - by exists h.
Qed.

Lemma urem_power_ok a w X c : is_word a w X -> w <> 1 -> w <= 64 -> getBitWidth c = w -> bits64.isPowerOfTwo (uval c) = true ->
  exists h, (let* bits := bits64.indexOfSingleBit (uval c) in
      if bits =? 0 then let* h := bvZero w in Ok (h, w)
      else let* zero := bvZero (w - bits) in Ok (vc_bvConcatExpr zero (bvExtract a (bits - 1) 0), w)) = Ok (h, w) /\
    computes URem w X (fun _ => uval c) h.
Proof.
  intros Ha Hw Hw64 Hcw Hp. pose proof (word_pos _ _ _ Ha). destruct (constant_value c w ltac:(lia) Hcw) as [Hc Hc64].
  destruct (isPowerOfTwo_ok (uval c) Hc64 Hp) as (i & Hi & Ei & ->). cbn [res_bind].
  assert (forall h Z, is_word h w Z -> (forall m, Z m = X m mod uval c) -> computes URem w X (fun _ => uval c) h) as Hfin.
  { intros h Z Hh HZ. destruct (makes_computes URem w X (fun _ => uval c) (Ok h) Z (makes_ok _ _ _ Hh) Hw eq_refl) as (h' & [= <-] & H'); [|done].
    intros m v _ Hd. simpl in Hd. rewrite (proj2 (Z.eqb_neq (uval c) 0)) in Hd by lia. injection Hd as <-. apply HZ. }
  destruct (Z.eqb_spec i 0) as [->|Hi0].
  - destruct (bvZero_ok w ltac:(lia)) as (h & -> & Hh). exists h. split; [done|]. apply (Hfin _ _ Hh). intros m.
    rewrite Ei. symmetry. apply Z.mod_1_r.
  - assert (i < w) by (apply (Z.pow_lt_mono_r_iff 2); lia).
    destruct (bvZero_ok (w - i) ltac:(lia)) as (z & -> & Hz). cbn [res_bind]. eexists. split; [done|].
    pose proof (word_extract a w X (i - 1) 0 Ha ltac:(lia) ltac:(lia)) as He.
    replace (i - 1 - 0 + 1) with i in He by lia. pose proof (word_concat _ _ _ _ _ _ Hz He) as Hcc.
    replace (w - i + i) with w in Hcc by lia. apply (Hfin _ _ Hcc). intros m. cbn beta. rewrite Ei, Z.div_1_r. done.
Qed.

Lemma udiv_constant_ok a X c : is_word a 32 X -> getBitWidth c = 32 -> uval c <> 0 ->
  exists h, constructUDivByConstant a 32 (u32 (uval c)) = Ok h /\ computes UDiv 32 X (fun _ => uval c) h /\
    is_word h 32 (fun m => X m / uval c).
Proof.
  intros Ha Hcw Hnz. destruct (constant_value c 32 ltac:(lia) Hcw) as [Hc _]. unfold u32. rewrite wrap_small by done.
  destruct (constructUDivByConstant_ok a X (uval c) Ha ltac:(lia)) as (h & Eh & Hh). exists h. split_and!; [done| |done].
  destruct (makes_computes UDiv 32 X (fun _ => uval c) (Ok h) _ (makes_ok _ _ _ Hh) ltac:(lia) eq_refl) as (h' & [= <-] & H'); [|done].
  intros m v _ Hd. simpl in Hd. rewrite (proj2 (Z.eqb_neq (uval c) 0)) in Hd by lia. by injection Hd.
Qed.

Lemma urem_constant_ok a X c : is_word a 32 X -> getBitWidth c = 32 -> uval c <> 0 ->
  exists h, (let* quotient := constructUDivByConstant a 32 (u32 (uval c)) in
      let* quot_times_divisor := constructMulByConstant quotient 32 (uval c) in
      Ok (vc_bvMinusExpr 32 a quot_times_divisor, 32)) = Ok (h, 32) /\ computes URem 32 X (fun _ => uval c) h.
Proof.
  intros Ha Hcw Hnz. destruct (constant_value c 32 ltac:(lia) Hcw) as [Hc Hc64].
  destruct (udiv_constant_ok a X c Ha Hcw Hnz) as (q & -> & _ & Hq). cbn [res_bind].
  destruct (constructMulByConstant_ok q 32 _ (uval c) Hq ltac:(lia) ltac:(lia)) as (p & -> & Hp). cbn [res_bind].
  eexists. split; [done|].
  destruct (makes_computes URem 32 X (fun _ => uval c) (Ok _) _ (makes_ok _ _ _ (word_minus _ _ _ _ _ Ha Hp)) ltac:(lia) eq_refl) as (h' & [= <-] & H'); [|done].
  intros m v _ Hd. simpl in Hd. rewrite (proj2 (Z.eqb_neq (uval c) 0)) in Hd by lia. injection Hd as <-.
  rewrite wrap_sub_r. pose proof (word_range _ _ _ m Ha).
  replace (X m - X m / uval c * uval c) with (X m mod uval c) by (rewrite Z.mod_eq; lia).
  apply wrap_small. pose proof (Z.mod_pos_bound (X m) (uval c) ltac:(lia)). lia.
Qed.

Lemma sdiv_constant_ok a X c : is_word a 32 X -> getBitWidth c = 32 -> uval c <> 0 ->
  exists h, constructSDivByConstant a 32 (uval c) = Ok h /\ computes SDiv 32 X (fun _ => uval c) h.
Proof.
  intros Ha Hcw Hnz. destruct (constant_value c 32 ltac:(lia) Hcw) as [Hc _].
  eapply makes_computes; [apply constructSDivByConstant_ok; [done|]|lia|done|].
  - rewrite signed_by_bit by (done || lia). destruct (Z.testbit _ _); lia.
  - intros m v _ Hd. simpl in Hd. rewrite (proj2 (Z.eqb_neq (uval c) 0)) in Hd by lia. by injection Hd.
Qed.

(** ** The cases that construct operands *)

(** Constructing an operand. *)
Ltac operand H :=
  eapply runs_bind; [apply H; assumption|];
  let hd := fresh "h" in let wd := fresh "w" in let b' := fresh "b" in
  let Hb := fresh "Hb" in let He := fresh "He" in let Tr := fresh "Tr" in let Ew := fresh "E" in
  intros [hd wd] b' Hb He [Ew Tr]; cbn [fst snd] in Ew, Tr |- *; subst wd.

(** Returning a term for the whole. *)
Lemma runs_gives b h w e (m : res (VCExpr * Z)) :
  builder_ok b -> m = Ok (h, w) -> w = getWidth e -> translates b h e -> runs (slift m) b (gives e).
Proof. intros Hb -> -> Ht. apply runs_lift; [done|]. eexists. split; [done|]. by split. Qed.

Lemma translates_word b h e : getWidth e <> 1 -> translates b h e -> is_word h (getWidth e) (wval h).
Proof. intros Hw [Ht _]. by apply typed_word. Qed.

Lemma general_right_ok k (op : Z -> VCExpr -> VCExpr -> VCExpr) l r cr b hl :
  (forall w a c, vc_arith k w a c = Some (op w a c)) -> constructs cr r -> builder_ok b -> translates b hl l ->
  getWidth l = getWidth r -> getWidth l <> 1 ->
  runs (do* right := cr in sret (op (snd right) hl (fst right), snd right)) b (gives (Binary k l r)).
Proof.
  intros Hop Hr Hb Hl Ew Hw. operand Hr. pose proof (extends_translates _ _ _ _ _ _ He Hl) as Hl'.
  eapply (runs_gives _ _ _ _ (Ok _)); [done|done| |].
  - assert (is_cmp k = false) as Hk by (specialize (Hop 0 hl hl); by destruct k). cbn [getWidth]. by rewrite Hk.
  - eapply computes_translates; [apply Hl'|apply Tr|]. rewrite <- Ew.
    apply (arith_computes k _ hl h); [apply Hop|done|(eapply translates_word; eassumption)|].
    rewrite Ew in *. eapply translates_word; eassumption.
Qed.

(** A step that does not touch the builder. *)
Lemma runs_step {X Y} (m : res X) x (k : X -> builds Y) b Q : m = Ok x -> runs (k x) b Q -> runs (sbind (slift m) k) b Q.
Proof. intros -> (y & b' & E & H). exists y, b'. by split. Qed.

Lemma check_width {X} w (k : unit -> builds X) b Q :
  w <> 1 -> runs (k tt) b Q -> runs (do* u := slift (assert* negb (w =? 1) in Ok tt) in k u) b Q.
Proof. intros Hw. apply runs_step. by rewrite (proj2 (Z.eqb_neq w 1)). Qed.

Lemma constructArith_ok k l r cl cr :
  (k = Add \/ k = Sub \/ k = SRem) -> constructs cl l -> constructs cr r ->
  getWidth l = getWidth r -> getWidth l <> 1 -> constructs (constructArith k cl cr) (Binary k l r).
Proof.
  intros Hk Hl Hr Ew Hw b Hb. unfold constructArith. operand Hl. operand Hr.
  pose proof (extends_translates _ _ _ _ _ _ He0 Tr) as Tr'. rewrite <- Ew, (proj2 (Z.eqb_neq _ 1) Hw). cbn [negb res_assert].
  assert (is_word h (getWidth l) (wval h)) as W by (eapply translates_word; eassumption).
  assert (is_word h0 (getWidth l) (wval h0)) as W0 by (rewrite Ew in *; eapply translates_word; eassumption).
  destruct Hk as [->|[->| ->]]; (eapply runs_gives; [done|done|done|]; eapply computes_translates; [apply Tr'|apply Tr0|];
    by eapply arith_computes).
Qed.

Lemma constructMul_ok l r cl cr :
  constructs cl l -> constructs cr r -> wt l -> getWidth l = getWidth r -> getWidth l <> 1 ->
  constructs (constructMul l cl cr) (Binary Mul l r).
Proof.
  intros Hl Hr Hwt Ew Hw b Hb. unfold constructMul. operand Hr. rewrite <- Ew. apply check_width; [done|].
  assert (is_word h (getWidth l) (wval h)) as W by (rewrite Ew in *; eapply translates_word; eassumption).
  assert (runs (do* left := cl in sret (vc_bvMultExpr (snd left) (fst left) h, snd left)) b0 (gives (Binary Mul l r))) as Hgen.
  { operand Hl. eapply (runs_gives _ _ _ _ (Ok _)); [done|done|done|]. eapply computes_translates; [apply Tr0|by eapply extends_translates|].
    eapply arith_computes; [done|done|(eapply translates_word; eassumption)|done]. }
  destruct l as [c| | | | | | | |]; try exact Hgen. cbn [getWidth] in *.
  destruct (Z.leb_spec (getBitWidth c) 64) as [H64|]; [|exact Hgen]. unfold getZExtValue. rewrite (proj2 (Z.leb_le _ _) H64).
  cbn [res_assert res_bind]. destruct (constant_value c (getBitWidth c) ltac:(split; [exact Hwt|lia]) eq_refl) as [_ Hc].
  destruct (constructMulByConstant_ok h _ _ (uval c) W H64 Hc) as (p & Ep & Hp).
  eapply runs_gives; [done|by rewrite Ep|done|].
  apply (computes_translates _ _ _ _ (fun _ => uval c) (wval h)); [apply stands_constant|apply Tr|].
  destruct (makes_computes Mul (getBitWidth c) (fun _ => uval c) (wval h) (Ok p) _ (makes_ok _ _ _ Hp) Hw eq_refl) as (h' & [= <-] & H'); [|done].
  intros m v _ [= <-]. by rewrite Z.mul_comm.
Qed.

Lemma constructUDiv_ok l r cl cr :
  constructs cl l -> constructs cr r -> wt r -> getWidth l = getWidth r -> stp_binary UDiv l r ->
  constructs (constructUDiv optimizeDivides r cl cr) (Binary UDiv l r).
Proof.
  intros Hl Hr Hwt Ew [Hw Hnz] b Hb. unfold constructUDiv. operand Hl. apply check_width; [done|].
  pose proof (general_right_ok UDiv vc_bvDivExpr l r cr b0 h (fun _ _ _ => eq_refl) Hr Hb0 Tr Ew Hw) as Hgen.
  assert (is_word h (getWidth l) (wval h)) as W by (eapply translates_word; eassumption).
  destruct r as [c| | | | | | | |]; try exact Hgen. specialize (Hnz c eq_refl). cbn [getWidth wt] in Ew, Hwt.
  destruct (Z.leb_spec (getBitWidth c) 64) as [H64|]; [|exact Hgen]. unfold getZExtValue. rewrite (proj2 (Z.leb_le _ _) H64).
  cbn [res_assert]. eapply runs_step; [done|].
  destruct (bits64.isPowerOfTwo (uval c)) eqn:Hp.
  { destruct (udiv_power_ok h _ (wval h) c W Hw ltac:(lia) (eq_sym Ew) Hp) as (q & Eq & Hq).
    eapply runs_gives; [done|exact Eq|done|]. eapply computes_translates; [apply Tr|apply stands_constant|exact Hq]. }
  destruct (optimizeDivides && (getWidth l =? 32)) eqn:Eo;
    [|by apply (general_right_ok UDiv vc_bvDivExpr)].
  apply andb_prop in Eo as [_ E32]. apply Z.eqb_eq in E32. rewrite E32 in *.
  destruct (udiv_constant_ok h (wval h) c W (eq_sym Ew) Hnz) as (q & Eq & Hq & _).
  eapply runs_gives; [done|by rewrite Eq|by rewrite <- E32|]. eapply computes_translates; [apply Tr|apply stands_constant|]. by rewrite E32.
Qed.

Lemma constructURem_ok l r cl cr :
  constructs cl l -> constructs cr r -> wt r -> getWidth l = getWidth r -> stp_binary URem l r ->
  constructs (constructURem optimizeDivides r cl cr) (Binary URem l r).
Proof.
  intros Hl Hr Hwt Ew [Hw Hnz] b Hb. unfold constructURem. operand Hl. apply check_width; [done|].
  pose proof (general_right_ok URem vc_bvModExpr l r cr b0 h (fun _ _ _ => eq_refl) Hr Hb0 Tr Ew Hw) as Hgen.
  assert (is_word h (getWidth l) (wval h)) as W by (eapply translates_word; eassumption).
  destruct r as [c| | | | | | | |]; try exact Hgen. specialize (Hnz c eq_refl). cbn [getWidth wt] in Ew, Hwt.
  destruct (Z.leb_spec (getBitWidth c) 64) as [H64|]; [|exact Hgen]. unfold getZExtValue. rewrite (proj2 (Z.leb_le _ _) H64).
  cbn [res_assert]. eapply runs_step; [done|].
  destruct (bits64.isPowerOfTwo (uval c)) eqn:Hp.
  { destruct (urem_power_ok h _ (wval h) c W Hw ltac:(lia) (eq_sym Ew) Hp) as (q & Eq & Hq).
    eapply runs_gives; [done|exact Eq|done|]. eapply computes_translates; [apply Tr|apply stands_constant|exact Hq]. }
  destruct (optimizeDivides && (getWidth l =? 32)) eqn:Eo;
    [|by apply (general_right_ok URem vc_bvModExpr)].
  apply andb_prop in Eo as [_ E32]. apply Z.eqb_eq in E32. rewrite E32 in *.
  destruct (urem_constant_ok h (wval h) c W (eq_sym Ew) Hnz) as (q & Eq & Hq).
  eapply runs_gives; [done|exact Eq|by rewrite <- E32|]. eapply computes_translates; [apply Tr|apply stands_constant|]. by rewrite E32.
Qed.

Lemma constructSDiv_ok l r cl cr :
  constructs cl l -> constructs cr r -> wt r -> getWidth l = getWidth r -> stp_binary SDiv l r ->
  constructs (constructSDiv optimizeDivides r cl cr) (Binary SDiv l r).
Proof.
  intros Hl Hr Hwt Ew [Hw Hnz] b Hb. unfold constructSDiv. operand Hl. apply check_width; [done|].
  pose proof (general_right_ok SDiv vc_sbvDivExpr l r cr b0 h (fun _ _ _ => eq_refl) Hr Hb0 Tr Ew Hw) as Hgen.
  assert (is_word h (getWidth l) (wval h)) as W by (eapply translates_word; eassumption).
  destruct r as [c| | | | | | | |]; try exact Hgen. specialize (Hnz c eq_refl). cbn [getWidth wt] in Ew, Hwt.
  destruct (_ && (getWidth l =? 32)) eqn:Eo; [|exact Hgen].
  apply andb_prop in Eo as [_ E32]. apply Z.eqb_eq in E32. rewrite E32 in *. unfold getZExtValue. rewrite <- Ew. cbn [Z.leb Z.compare Pos.compare Pos.compare_cont res_assert res_bind].
  destruct (sdiv_constant_ok h (wval h) c W (eq_sym Ew) Hnz) as (q & Eq & Hq).
  eapply runs_gives; [done|by rewrite Eq|by rewrite <- E32|]. eapply computes_translates; [apply Tr|apply stands_constant|]. by rewrite E32.
Qed.

Lemma bit_range_cases x : 0 <= x < 2 ^ 1 -> x = 0 \/ x = 1.
Proof. change (2 ^ 1) with 2. lia. Qed.

(** Truth values are bits. *)
Ltac bits m :=
  repeat match goal with
  | Ht : typed ?h 1 |- context [wval ?h m] =>
      let B := fresh in destruct (bit_range_cases (wval h m) (typed_range h 1 m eq_refl Ht)) as [B|B]; rewrite B; clear Ht B
  end.

Lemma constructBitwise_ok k l r cl cr :
  (k = And \/ k = Or \/ k = Xor) -> constructs cl l -> constructs cr r -> getWidth l = getWidth r ->
  constructs (constructBitwise k cl cr) (Binary k l r).
Proof.
  intros Hk Hl Hr Ew b Hb. unfold constructBitwise. operand Hl. operand Hr.
  pose proof (extends_translates _ _ _ _ _ _ He0 Tr) as Tr'. rewrite <- Ew.
  destruct (Z.eqb_spec (getWidth l) 1) as [E1|N1].
  - pose proof (proj1 Tr) as Ht. pose proof (proj1 Tr0) as Ht0. rewrite <- Ew in Ht0. rewrite E1 in *.
    assert (forall B e, is_bool e B -> (forall m v, bin_sem k 1 (wval h m) (wval h0 m) = Some v -> Z.b2z (B m) = v) ->
      translates b1 e (Binary k l r)) as Hfin.
    { intros B e Hbe HB. apply (computes_translates b1 k l r (wval h) (wval h0)); [apply Tr'|apply Tr0|].
      rewrite E1. apply (bool_computes k 1 _ _ B); [done| |done]. by destruct Hk as [->|[->| ->]]. }
    assert (Binary k l r = Binary k l r /\ 1 = getWidth (Binary k l r)) as [_ Ew'] by (destruct Hk as [->|[->| ->]]; by rewrite <- E1).
    destruct Hk as [->|[->| ->]]; (eapply runs_gives; [done|done|done|]).
    + apply (Hfin (fun m => (wval h m =? 1) && (wval h0 m =? 1))); [intros m; by apply den_and; apply typed_bool|].
      intros m v [= <-]. bits m; done.
    + apply (Hfin (fun m => (wval h m =? 1) || (wval h0 m =? 1))); [intros m; by apply den_or; apply typed_bool|].
      intros m v [= <-]. bits m; done.
    + apply (Hfin (fun m => if wval h m =? 1 then negb (wval h0 m =? 1) else (wval h0 m =? 1))).
      * intros m. rewrite (den_ite m _ _ _ _ _ _ (typed_bool h Ht m) (den_not _ _ _ (typed_bool h0 Ht0 m)) (typed_bool h0 Ht0 m)) by done.
        by destruct (wval h m =? 1).
      * intros m v [= <-]. bits m; done.
  - assert (is_word h (getWidth l) (wval h)) as W by (eapply translates_word; eassumption).
    assert (is_word h0 (getWidth l) (wval h0)) as W0 by (rewrite Ew in *; eapply translates_word; eassumption).
    destruct Hk as [->|[->| ->]]; (eapply runs_gives; [done|done|done|]; eapply computes_translates; [apply Tr'|apply Tr0|];
      by eapply arith_computes).
Qed.

Lemma constructShift_ok k l r cl cr :
  (k = Shl \/ k = LShr \/ k = AShr) -> constructs cl l -> constructs cr r -> wt r -> getWidth l = getWidth r -> stp_binary k l r ->
  constructs (constructShift k r cl cr) (Binary k l r).
Proof.
  intros Hk Hl Hr Hwt Ew Hst b Hb. unfold constructShift. operand Hl.
  assert (getWidth l <> 1 /\ match r with Constant c => uval c < 2 ^ 32 | _ => getWidth r <= 64 end) as [Hw Hsr]
    by (by destruct Hk as [->|[->| ->]]).
  assert (getWidth l = getWidth (Binary k l r)) as Ewb by (by destruct Hk as [->|[->| ->]]).
  apply check_width; [done|]. assert (is_word h (getWidth l) (wval h)) as W by (eapply translates_word; eassumption).
  pose proof (word_pos _ _ _ W) as Hpos. assert (0 <= getWidth l - 1 < getWidth l) as Hbit by lia.
  assert (getWidth r <= 64 -> runs (do* amount := cr in slift (let* h0 := match k with
      | Shl => bvVarLeftShift h (fst amount) | LShr => bvVarRightShift h (fst amount)
      | AShr => bvVarArithRightShift h (fst amount) | _ => AssertFail end in Ok (h0, getWidth l))) b0 (gives (Binary k l r))) as Hvar.
  { intros H64. operand Hr. pose proof (extends_translates _ _ _ _ _ _ He0 Tr) as Tr'.
    assert (shift_amount h0 (getWidth l) (wval h0) (getWidth l)) as Hsa.
    { split_and!; [rewrite Ew in *; eapply translates_word; eassumption|lia| |].
      - assert (64 < 2 ^ 32) by done. lia.
      - unfold active_bits. pose proof (Z.log2_lt_lin (getWidth l) Hpos). lia. }
    destruct (shift_variable_ok h _ _ h0 _ _ W Hw Hsa) as ((h1 & E1 & C1) & (h2 & E2 & C2) & (h3 & E3 & C3)).
    destruct Hk as [->|[->| ->]]; (eapply runs_gives; [done| |done|]; [first [by rewrite E1|by rewrite E2|by rewrite E3]|];
      eapply computes_translates; [apply Tr'|apply Tr0|done]). }
  destruct r as [c| | | | | | | |]; try by apply Hvar. cbn [getWidth] in Ew.
  destruct (bvBoolExtract_ok h (getWidth l) (wval h) (getWidth l - 1) W Hbit) as (sg & Esg & Hsg).
  destruct (shift_constant_ok h _ _ c sg W Hsg Hw (eq_sym Ew) Hsr) as ((h1 & E1 & C1) & (h2 & E2 & C2) & (h3 & E3 & C3)).
  destruct Hk as [->|[->| ->]];
    (eapply runs_gives; [done| |done|]; [first [by rewrite E1|by rewrite E2|rewrite Esg; cbn [res_bind]; by rewrite E3]|];
     eapply computes_translates; [apply Tr|apply stands_constant|done]).
Qed.

Lemma compare_computes k w a c h X Y :
  vc_compare k a c = Some h -> is_word a w X -> is_word c w Y -> computes k w X Y h.
Proof.
  intros Hh [Hw Ha] [_ Hc]. assert (is_cmp k = true) as Hk by (by destruct k).
  assert (forall m, exists t, den m h = Some (VBool t) /\ bin_sem k w (X m) (Y m) = Some (Z.b2z t)) as H.
  { intros m. destruct (cmp_sem_b2z k w (X m) (Y m) Hk) as [t Et]. exists t. split; [|done].
    eapply den_compare; [exact Hh|apply Ha|apply Hc|exact Et]. }
  apply (bool_computes k w X Y (fun m => wval h m =? 1)); [|unfold bin_width; by rewrite Hk|].
  - intros m. destruct (H m) as (t & E & _). unfold wval. rewrite E. by destruct t.
  - intros m v. destruct (H m) as (t & E & ->). unfold wval. rewrite E. intros [= <-]. by destruct t.
Qed.

Lemma constructCompare_ok k l r cl cr :
  (k = Ult \/ k = Ule \/ k = Slt \/ k = Sle) -> constructs cl l -> constructs cr r -> getWidth l = getWidth r -> getWidth l <> 1 ->
  constructs (constructCompare k cl cr) (Binary k l r).
Proof.
  intros Hk Hl Hr Ew Hw b Hb. unfold constructCompare. operand Hl. operand Hr.
  pose proof (extends_translates _ _ _ _ _ _ He0 Tr) as Tr'. rewrite <- Ew, (proj2 (Z.eqb_neq _ 1) Hw). cbn [negb res_assert].
  assert (is_word h (getWidth l) (wval h)) as W by (eapply translates_word; eassumption).
  assert (is_word h0 (getWidth l) (wval h0)) as W0 by (rewrite Ew in *; eapply translates_word; eassumption).
  destruct Hk as [->|[->|[->| ->]]]; (eapply runs_gives; [done|done|done|]; eapply computes_translates; [apply Tr'|apply Tr0|];
    by eapply compare_computes).
Qed.

Lemma constructEq_ok l r cl cr :
  constructs cl l -> constructs cr r -> wt l -> getWidth l = getWidth r -> constructs (constructEq l cl cr) (Binary Eq l r).
Proof.
  intros Hl Hr Hwt Ew b Hb. unfold constructEq. operand Hl. operand Hr.
  pose proof (extends_translates _ _ _ _ _ _ He0 Tr) as Tr'. rewrite <- Ew.
  assert (forall e X, stands b1 X l -> computes Eq (getWidth l) X (wval h0) e -> runs (sret (e, 1)) b1 (gives (Binary Eq l r))) as Hfin.
  { intros e X HX He1. apply runs_ret; [done|]. split; [done|]. eapply computes_translates; [exact HX|apply Tr0|exact He1]. }
  destruct (Z.eqb_spec (getWidth l) 1) as [E1|N1].
  - pose proof (proj1 Tr) as Ht. pose proof (proj1 Tr0) as Ht0. rewrite <- Ew in Ht0. rewrite E1 in *.
    assert (runs (sret (vc_iffExpr h h0, 1)) b1 (gives (Binary Eq l r))) as Hgen.
    { apply (Hfin _ (wval h)); [apply Tr'|]. apply (bool_computes _ _ _ _ (fun m => Bool.eqb (wval h m =? 1) (wval h0 m =? 1))); [|done|].
      - intros m. by apply den_iff; apply typed_bool.
      - intros m v [= <-]. bits m; done. }
    destruct l as [c| | | | | | | |]; try exact Hgen. cbn [getWidth wt] in *. clear Hgen.
    unfold const_isTrue, Bool_w. rewrite E1, Z.eqb_refl. cbn [andb].
    pose proof (uval_range c ltac:(lia)) as Hc. rewrite E1 in Hc. apply bit_range_cases in Hc.
    apply (Hfin _ (fun _ => uval c)); [apply stands_constant|]. destruct Hc as [Hc|Hc]; rewrite Hc; cbn [Z.eqb negb].
    + apply (bool_computes _ _ _ _ (fun m => negb (wval h0 m =? 1))); [intros m; by apply den_not, typed_bool|done|].
      intros m v [= <-]. bits m; done.
    + apply (bool_computes _ _ _ _ (fun m => wval h0 m =? 1)); [by apply typed_bool|done|].
      intros m v [= <-]. bits m; done.
  - apply (Hfin _ (wval h)); [apply Tr'|]. apply (bool_computes _ _ _ _ (fun m => wval h m =? wval h0 m)); [|done|by intros m v [= <-]].
    eapply bool_eq; [eapply translates_word; eassumption|rewrite Ew in *; eapply translates_word; eassumption].
Qed.

(** ** The other kinds *)

Lemma typed_ite c a d w : 0 < w -> typed c 1 -> typed a w -> typed d w ->
  typed (vc_iteExpr c a d) w /\ forall m, wval (vc_iteExpr c a d) m = if wval c m =? 1 then wval a m else wval d m.
Proof.
  intros Hw Hc Ha Hd. destruct (Z.eq_dec w 1) as [->|Hne].
  - assert (is_bool (vc_iteExpr c a d) (fun m => if wval c m =? 1 then wval a m =? 1 else wval d m =? 1)) as Hi.
    { intros m. rewrite (den_ite m _ _ _ _ _ _ (typed_bool c Hc m) (typed_bool a Ha m) (typed_bool d Hd m)) by done.
      by destruct (wval c m =? 1). }
    destruct (bool_typed _ _ Hi) as [Ht Hv]. split; [done|]. intros m. rewrite Hv. bits m; done.
  - apply word_typed; [|done]. eapply word_ite; [by apply typed_bool|by apply typed_word|by apply typed_word].
Qed.

Lemma constructSelect_ok c t f cc ct cf :
  constructs cc c -> constructs ct t -> constructs cf f -> wt t -> getWidth c = 1 -> getWidth t = getWidth f ->
  constructs (constructSelect cc ct cf) (Select c t f).
Proof.
  intros Hc Ht Hf Hwt Ec Et b Hb. unfold constructSelect. operand Hc. operand Ht. operand Hf.
  pose proof (extends_translates _ _ _ _ _ _ (extends_trans _ _ _ He0 He1) Tr) as [Tc Sc].
  pose proof (extends_translates _ _ _ _ _ _ He1 Tr0) as [Tt St]. destruct Tr1 as [Tf Sf].
  rewrite Ec in Tc. rewrite <- Et in Tf. destruct (typed_ite h h0 h1 (getWidth t) (wt_width_pos _ Hwt) Tc Tt Tf) as [Ti Vi].
  apply runs_ret; [done|]. split; [done|]. split; [done|]. intros ν m v Hn (Nc & Nt & Nf) Hd. simpl in Hd.
  apply bind_Some in Hd as (x & Hx & Hd). apply bind_Some in Hd as (y & Hy & Hd). apply bind_Some in Hd as (z & Hz & Hd).
  cbn [fst]. rewrite Vi, (Sc ν m x Hn Nc Hx), (St ν m y Hn Nt Hy), (Sf ν m z Hn Nf Hz). by injection Hd.
Qed.

Lemma constructConcat_ok l r cl cr :
  constructs cl l -> constructs cr r -> wt l -> wt r -> getWidth l <> 1 -> getWidth r <> 1 ->
  constructs (constructConcat (getWidth (Concat l r)) cl cr) (Concat l r).
Proof.
  intros Hl Hr Wl Wr Nl Nr b Hb. unfold constructConcat. operand Hr. operand Hl.
  pose proof (extends_translates _ _ _ _ _ _ He0 Tr) as [Tr' Sr]. destruct Tr0 as [Tl Sl].
  pose proof (word_concat _ _ _ _ _ _ (typed_word _ _ Tl Nl) (typed_word _ _ Tr' Nr)) as W.
  apply wt_width_pos in Wl, Wr. destruct (word_typed _ _ _ W) as [Tc Vc]; [lia|].
  apply runs_ret; [done|]. split; [done|]. split; [done|]. intros ν m v Hn (Ol & Or') Hd. simpl in Hd.
  apply bind_Some in Hd as (x & Hx & Hd). apply bind_Some in Hd as (y & Hy & Hd).
  cbn [fst]. rewrite Vc, (Sl ν m x Hn Ol Hx), (Sr ν m y Hn Or' Hy). by injection Hd.
Qed.

Lemma constructExtract_ok s off w cs :
  constructs cs s -> wt (Extract s off w) -> getWidth s <> 1 -> constructs (constructExtract off w cs) (Extract s off w).
Proof.
  intros Hs (Ws & Hw & Ho & Hle) Ns b Hb. unfold constructExtract. operand Hs. destruct Tr as [Ts Ss].
  pose proof (typed_word _ _ Ts Ns) as W. assert (0 <= off < getWidth s) as Hoff by lia. assert (off + w - 1 < getWidth s) as Hhi by lia.
  destruct (Z.eqb_spec w 1) as [E1|N1].
  - destruct (bvBoolExtract_ok _ _ _ off W Hoff) as (e & Ee & He'). destruct (bool_typed e _ He') as [Te Ve].
    eapply runs_gives; [done|by rewrite Ee|done|]. split; [cbn [getWidth]; by rewrite E1|]. intros ν m v Hn No Hd. simpl in Hd.
    apply bind_Some in Hd as (x & Hx & Hd). rewrite Ve, (Ss ν m x Hn No Hx). injection Hd as <-. rewrite E1.
    rewrite Z.testbit_spec' by lia. done.
  - pose proof (word_extract _ _ _ (off + w - 1) off W ltac:(lia) Hhi) as We.
    replace (off + w - 1 - off + 1) with w in We by lia. destruct (word_typed _ _ _ We N1) as [Te Ve].
    apply runs_ret; [done|]. split; [done|]. split; [done|]. intros ν m v Hn No Hd. simpl in Hd.
    apply bind_Some in Hd as (x & Hx & Hd). cbn [fst]. rewrite Ve, (Ss ν m x Hn No Hx). by injection Hd.
Qed.

Lemma constructZExt_ok s w cs : constructs cs s -> wt (Cast ZExt s w) -> constructs (constructZExt w cs) (Cast ZExt s w).
Proof.
  intros Hs (Ws & Hw) b Hb. unfold constructZExt. operand Hs. destruct Tr as [Ts Ss]. apply wt_width_pos in Ws.
  assert (forall e, typed e w -> (forall m, wval e m = wval h m) -> translates b0 e (Cast ZExt s w)) as Hfin.
  { intros e Te Ve. split; [done|]. intros ν m v Hn No Hd. rewrite Ve. by apply (Ss ν m v Hn No). }
  destruct (Z.eqb_spec (getWidth s) 1) as [E1|N1].
  - rewrite E1 in Ts. destruct (bvOne_ok w ltac:(lia)) as (o & -> & Wo). destruct (bvZero_ok w ltac:(lia)) as (z & -> & Wz).
    eapply runs_gives; [done|done|done|]. destruct (word_typed _ _ _ (word_ite _ _ _ _ _ _ _ (typed_bool h Ts) Wo Wz)) as [Te Ve]; [lia|].
    apply Hfin; [done|]. intros m. rewrite Ve. bits m; done.
  - assert (0 < w - getWidth s) as Hd by lia. destruct (bvZero_ok _ Hd) as (z & -> & Wz). eapply runs_gives; [done|done|done|].
    pose proof (word_concat _ _ _ _ _ _ Wz (typed_word _ _ Ts N1)) as We. replace (w - getWidth s + getWidth s) with w in We by lia.
    destruct (word_typed _ _ _ We) as [Te Ve]; [lia|]. by apply Hfin.
Qed.

Lemma constructSExt_ok s w cs : constructs cs s -> wt (Cast SExt s w) -> constructs (constructSExt w cs) (Cast SExt s w).
Proof.
  intros Hs (Ws & Hw) b Hb. unfold constructSExt. operand Hs. destruct Tr as [Ts Ss]. apply wt_width_pos in Ws.
  assert (forall e, typed e w -> (forall m, wval e m = wrap w (signed (getWidth s) (wval h m))) -> translates b0 e (Cast SExt s w)) as Hfin.
  { intros e Te Ve. split; [done|]. intros ν m v Hn No Hd. simpl in Hd. apply bind_Some in Hd as (x & Hx & Hd).
    rewrite Ve, (Ss ν m x Hn No Hx). by injection Hd. }
  destruct (Z.eqb_spec (getWidth s) 1) as [E1|N1].
  - rewrite E1 in *. destruct (bvZero_ok w ltac:(lia)) as (z & -> & Wz).
    eapply runs_gives; [done|done|done|]. destruct (word_typed _ _ _ (word_ite _ _ _ _ _ _ _ (typed_bool h Ts) (bvMinusOne_ok w ltac:(lia)) Wz)) as [Te Ve]; [lia|].
    apply Hfin; [done|]. intros m. rewrite Ve. bits m; cbn [Z.eqb Pos.eqb].
    + done.
    + change (signed 1 1) with (-1). symmetry. apply wrap_minus_one. lia.
  - eapply runs_gives; [done|done|done|].
    destruct (word_typed _ _ _ (word_sext _ _ _ w (typed_word _ _ Ts N1) (Z.lt_le_incl _ _ Hw))) as [Te Ve]; [lia|]. by apply Hfin.
Qed.

Lemma constructNot_ok s cs : constructs cs s -> constructs (constructNot cs) (Not s).
Proof.
  intros Hs b Hb. unfold constructNot. operand Hs. destruct Tr as [Ts Ss].
  assert (forall e, typed e (getWidth s) -> (forall m, wval e m = wrap (getWidth s) (Z.lnot (wval h m))) ->
    runs (sret (e, getWidth s)) b0 (gives (Not s))) as Hfin.
  { intros e Te Ve. apply runs_ret; [done|]. split; [done|]. split; [done|]. intros ν m v Hn No Hd. simpl in Hd.
    apply bind_Some in Hd as (x & Hx & Hd). cbn [fst]. rewrite Ve, (Ss ν m x Hn No Hx). by injection Hd. }
  destruct (Z.eqb_spec (getWidth s) 1) as [E1|N1].
  - rewrite E1 in *. destruct (bool_typed (vc_notExpr h) (fun m => negb (wval h m =? 1))) as [Te Ve];
      [intros m; by apply den_not, typed_bool|]. apply Hfin; [done|]. intros m. rewrite Ve. bits m; done.
  - destruct (word_typed _ _ _ (word_not _ _ _ (typed_word _ _ Ts N1)) N1) as [Te Ve]. by apply Hfin.
Qed.

(** ** The table of constructed expressions *)

Lemma with_table_ok e actual :
  wt e -> constructs actual e -> constructs (with_table UseConstructHash e actual) e.
Proof.
  intros Hwt Ha b Hb. unfold with_table. destruct (negb UseConstructHash || isConstant e); [by apply Ha|].
  unfold runs. destruct (find_constructed e b) as [[h w]|] eqn:Ef.
  - unfold find_constructed in Ef. destruct (find _ _) as [[e' r]|] eqn:Ef'; [|done]. injection Ef as ->.
    apply find_some in Ef' as [Hin Eq]. apply list_elem_of_In in Hin.
    destruct (constructed_ok _ _ _ b Hb e' h w Hin) as (Hwt' & -> & Ht & Hs). cbn in Eq.
    destruct (expr_eqb_sound e' e Hwt' Hwt Eq) as [Ew Ed].
    exists (h, getWidth e'), b. split_and!; [done|done|apply extends_refl|]. split; [done|]. split; [by rewrite <- Ew|].
    intros ν m v Hn No Hd. apply (Hs ν m v Hn); [by apply (expr_eqb_no_overshift checked e' e)|by rewrite Ed].
  - destruct (Ha b Hb) as ([h w] & b' & -> & Hb' & He & Ew & Tr). cbn [res_bind fst snd] in *.
    exists (h, w), (insert_constructed e (h, w) b'). split_and!; [done| |done|by split]. destruct Hb' as [Hc Ho Har Hn].
    split; cbn; [|done|done|done]. intros e1 h1 w1 Hin. apply elem_of_cons in Hin as [Hin|Hin]; [by simplify_eq|]. by apply Hc.
Qed.

(** ** Update lists *)

Lemma hash_update_ok t root u h b : builder_ok b -> array_translates checked itostr b h root u ->
  builder_ok (hashUpdateNodeExpr (node_address t (root, u)) h b).
Proof.
  intros [Hc Ho Har Hn] Hh. split; cbn; [done|done|done|]. intros un h' Hin.
  apply elem_of_cons in Hin as [Hin|Hin]; [simplify_eq; by exists t, root, u|]. by apply Hn.
Qed.

(** A visit changes nothing that matters. *)
Lemma visit_inv b : builder_ok b -> builder_ok (visit b) /\ extends b (visit b).
Proof.
  intros [Hc Ho Ha Hn]. split; [|exact (extends_refl b)]. split; [exact Hc|exact Ho|exact Ha|exact Hn].
Qed.

Lemma getArrayForUpdate_ok root u :
  wt_array (arrayAt root) -> stp_array (arrayAt root) -> wt_updates root u -> stp_typed_updates u ->
  (forall i v next, u = UNode i v next ->
     constructs (construct UseConstructHash optimizeDivides itostr node_address i) i /\
     constructs (construct UseConstructHash optimizeDivides itostr node_address v) v /\
     forall b, builder_ok b -> runs (getArrayForUpdate UseConstructHash optimizeDivides itostr node_address root next) b
       (fun h b' => array_translates checked itostr b' h root next)) ->
  forall b, builder_ok b -> runs (getArrayForUpdate UseConstructHash optimizeDivides itostr node_address root u) b
    (fun h b' => array_translates checked itostr b' h root u).
Proof.
  intros Hwt Hst Hu Hsu Hsub b Hb. destruct u as [|i v next]; simpl getArrayForUpdate; [by apply getInitialArray_ok|].
  destruct Hu as (Hwi & Hwv & Ei & Ev & _). destruct (Hsub i v next eq_refl) as (Hi & Hv & Hnext).
  destruct (visit_inv b Hb) as [Hbv Hev]. unfold runs. cbv zeta. set (un := node_address (visits b) _). set (bv := visit b) in *.
  destruct (lookupUpdateNodeExpr un bv) as [h|] eqn:El.
  - unfold lookupUpdateNodeExpr in El. destruct (find _ _) as [[un' h']|] eqn:Ef; [|done]. injection El as ->.
    apply find_some in Ef as [Hin Eq]. apply list_elem_of_In in Hin. cbn in Eq. apply Pos.eqb_eq in Eq as ->.
    destruct (nodes_ok _ _ _ bv Hbv un h Hin) as (t & root' & u' & Eq & Hn). apply node_address_ok in Eq. simplify_eq.
    exists h, bv. by split_and!.
  - assert (runs (do* a := getArrayForUpdate UseConstructHash optimizeDivides itostr node_address root next in
        do* i := construct UseConstructHash optimizeDivides itostr node_address i in
        do* v := construct UseConstructHash optimizeDivides itostr node_address v in
        sret (vc_writeExpr a (fst i) (fst v))) bv
      (fun h b' => array_translates checked itostr b' h root (UNode i v next))) as (h & b' & E & Hb' & He & Hh).
    { eapply runs_bind; [by apply Hnext|]. intros a b1 Hb1 He1 Ha. operand Hi. operand Hv.
      apply runs_ret; [done|]. pose proof (extends_array _ _ _ _ _ _ _ (extends_trans _ _ _ He He0) Ha) as [Ta Sa].
      pose proof (extends_translates _ _ _ _ _ _ He0 Tr) as [Ti Si]. destruct Tr0 as [Tv Sv]. rewrite Ei in Ti. rewrite Ev in Tv.
      destruct (array_write a h h0 root Hst Ta Ti Tv) as [Tw Vw]. split; [done|].
      intros ν m j x Hn (Oi & Ov & On) Hj Hd. rewrite Vw. rewrite denote_updates_node in Hd.
      apply bind_Some in Hd as (y & Hy & Hd). rewrite (Si ν m y Hn Oi Hy).
      destruct (y =? j); [by apply (Sv ν m x Hn Ov)|by apply (Sa ν m j x Hn On)]. }
    cbn zeta. rewrite E. cbn [res_bind fst snd]. exists h, (hashUpdateNodeExpr un h b').
    split_and!; [done|by apply hash_update_ok|exact (extends_trans _ _ _ Hev He)|exact Hh].
Qed.

(** ** All expressions *)

Lemma construct_both :
  (forall e, wt e -> stp_typed e -> constructs (construct UseConstructHash optimizeDivides itostr node_address e) e) /\
  (forall u root, wt_array (arrayAt root) -> stp_array (arrayAt root) -> wt_updates root u -> stp_typed_updates u ->
     forall b, builder_ok b -> runs (getArrayForUpdate UseConstructHash optimizeDivides itostr node_address root u) b
       (fun h b' => array_translates checked itostr b' h root u)).
Proof.
  apply expr_updates_ind.
  - intros c Hw _. apply with_table_ok; [done|]. intros b Hb. destruct (constructConstant_ok c Hw) as (h & E & Th & Vh).
    eapply runs_gives; [done|exact E|done|]. split; [done|]. intros ν m v _ _ Hd. rewrite Vh. by injection Hd.
  - intros s IH Hw Hs. apply with_table_ok; [done|]. exact (IH Hw Hs).
  - intros root u IHu i IHi (Hwa & Hwu & Hwi & Ei) (Hsa & Hsu & Hsi). apply with_table_ok; [done|]. intros b Hb.
    eapply runs_bind; [by apply (IHu root)|]. intros a b1 Hb1 He1 Ha. specialize (IHi Hwi Hsi). operand IHi.
    apply runs_ret; [done|]. pose proof (extends_array _ _ _ _ _ _ _ He Ha) as [Ta Sa]. destruct Tr as [Ti Si]. rewrite Ei in Ti.
    destruct (array_read a h root (proj1 Hwa) Hsa Ta Ti) as [Tr Vr]. split; [done|]. split; [done|].
    intros ν m v Hn (Ou & Oi) Hd. cbn [fst]. rewrite Vr. simpl in Hd. apply bind_Some in Hd as (x & Hx & Hd).
    rewrite (Si ν m x Hn Oi Hx). apply (Sa ν m x v Hn Ou); [|done]. rewrite <- Ei. by eapply denote_range.
  - intros c IHc t IHt f IHf (Hwc & Hwt & Hwf & Ec & Et) (Hsc & Hst & Hsf). apply with_table_ok; [by cbn|].
    apply constructSelect_ok; auto.
  - intros l IHl r IHr (Hwl & Hwr) ((Nl & Nr) & Hsl & Hsr). apply with_table_ok; [done|]. apply constructConcat_ok; auto.
  - intros s IH off w (Hws & Ho) (Ns & Hss). apply with_table_ok; [done|]. apply constructExtract_ok; [by apply IH|by split|done].
  - intros k s IH w (Hws & Ho) Hss. destruct k; (apply with_table_ok; [done|]).
    + apply constructZExt_ok; [by apply IH|by split].
    + apply constructSExt_ok; [by apply IH|by split].
  - intros s IH Hw Hs. apply with_table_ok; [done|]. apply constructNot_ok. by apply IH.
  - intros k l IHl r IHr (Hwl & Hwr & Ew) (Hk & Hsl & Hsr). specialize (IHl Hwl Hsl). specialize (IHr Hwr Hsr).
    apply with_table_ok; [done|]. unfold constructBinary.
    destruct k; try (by destruct Hk).
    all: first [apply constructArith_ok|apply constructMul_ok|apply constructUDiv_ok|apply constructSDiv_ok|apply constructURem_ok
      |apply constructBitwise_ok|apply constructShift_ok|apply constructEq_ok|apply constructCompare_ok]; auto; try apply Hk; tauto.
  - intros root Hwa Hsa Hu Hsu b Hb. by apply getInitialArray_ok.
  - intros i IHi v IHv n IHn root Hwa Hsa Hu Hsu. apply getArrayForUpdate_ok; [done|done|done|done|].
    intros i' v' n' [= <- <- <-]. destruct Hu as (? & ? & ? & ? & ?). destruct Hsu as (? & ? & ?).
    split_and!; [by apply IHi|by apply IHv|by apply IHn].
Qed.
End correct.
