(* ===== verification/STPModels.v ===== *)
(** The translation for STP and validity: interpretations of the array variables
    and environments of the arrays correspond to each other when the names the
    builder makes up (klee/lib/Solver/STPBuilder.cpp, [getInitialArray]) are
    distinct.  They need not be: [names_collide]. *)
From Stdlib Require Import ZArith Lia Bool String Ascii DecimalString DecimalPos DecimalN.
From stdpp Require Import base countable list numbers option strings.
From S2P Require Import Prelude Bits APInt Expr ExprSem ExprCompare ExprFactory Solver STP STPBuilder STPWords STPBuilderInv STPBuilderCorrect.
Open Scope Z_scope.

Section models.
Context {A : APInt} {L : APIntLaws A} {AR : Arrays} {T : STP} {TL : STPLaws T}.
Context (UseConstructHash optimizeDivides checked : bool) (itostr : Z -> string).
Context (node_address : nat -> positive * updates -> positive).
Context (node_address_ok : one_node_per_address node_address).

Notation construct_expr := (construct_expr UseConstructHash optimizeDivides itostr node_address).
Notation builder_ok := (builder_ok checked itostr node_address).
Notation named := (named itostr).
Notation unique_name := (unique_name itostr).

(** ** The entry of the translation *)

Lemma construct_expr_ok e b : wt e -> stp_typed e -> builder_ok b ->
  exists h b', construct_expr e b = Ok (h, b') /\ builder_ok b' /\ extends b b' /\ constructed b' = [] /\
    translates checked itostr b' h e.
Proof.
  intros Hwt Hst Hb.
  destruct (proj1 (construct_both UseConstructHash optimizeDivides checked itostr node_address node_address_ok) e Hwt Hst b Hb)
    as ([h w] & b' & E & Hb' & He & Ew & Ht).
  exists h, (clear_constructed b'). split; [unfold STPBuilder.construct_expr, sbind; by rewrite E|].
  split; [|by split]. destruct Hb' as [_ Ho Ha Hn]. split; cbn; [|done|done|done].
  intros ??? Hin. by apply elem_of_nil in Hin.
Qed.

(** ** Names *)

(** The place of an array in the table. *)
Fixpoint position (root : positive) (l : list (positive * VCExpr)) : option nat :=
  match l with
  | [] => None
  | (r, _) :: l => if Pos.eqb r root then Some O else S <$> position root l
  end.

Lemma position_lookup l k root h : NoDup (fst <$> l) -> l !! k = Some (root, h) -> position root l = Some k.
Proof.
  revert k. induction l as [|[r h'] l IH]; intros k Hnd Hk; [done|]. cbn in Hnd. apply NoDup_cons in Hnd as [Hn Hnd].
  destruct k as [|k]; cbn in *; [simplify_eq; by rewrite Pos.eqb_refl|].
  destruct (Pos.eqb_spec r root) as [->|]; [|by rewrite (IH k)].
  exfalso. apply Hn, list_elem_of_fmap. exists (root, h). split; [done|]. by eapply list_elem_of_lookup_2.
Qed.

Lemma position_inv l k root : position root l = Some k -> exists h, l !! k = Some (root, h).
Proof.
  revert k. induction l as [|[r h'] l IH]; intros k Hk; [done|]. cbn in Hk. destruct (Pos.eqb_spec r root) as [->|].
  - injection Hk as <-. by exists h'.
  - destruct (position root l) as [k'|] eqn:E; [|done]. injection Hk as <-. by apply IH.
Qed.

(** The names of a builder's arrays. *)
Definition naming (b : STPBuilder) (other : positive -> string) (root : positive) : string :=
  match position root (array_hash b) with Some k => unique_name root k | None => other root end.

Lemma naming_named b other : builder_ok b -> named b (naming b other).
Proof. intros Hb k root h Hk. unfold naming. by rewrite (position_lookup _ k root h (arrays_once _ _ _ b Hb) Hk). Qed.

(** *** Names that differ *)

(** Two arrays never get the same name. *)
Definition unique_names : Prop := forall r r' k k', unique_name r k = unique_name r' k' -> k = k'.

Fixpoint repeat_x (n : nat) : string := match n with O => EmptyString | S n => String "x" (repeat_x n) end.

Lemma length_repeat_x n : String.length (repeat_x n) = n.
Proof. induction n; cbn; congruence. Qed.

(** Longer than every name in use. *)
Definition longest (b : STPBuilder) : nat :=
  list_max (imap (fun k p => String.length (unique_name (fst p) k)) (array_hash b)).

Lemma longest_ok b k root h : array_hash b !! k = Some (root, h) -> (String.length (unique_name root k) <= longest b)%nat.
Proof.
  intros Hk. unfold longest.
  assert (imap (fun k p => String.length (unique_name (fst p) k)) (array_hash b) !! k = Some (String.length (unique_name root k))) as E
    by (by rewrite list_lookup_imap, Hk).
  pose proof (proj1 (list_max_le (imap (fun k p => String.length (unique_name (fst p) k)) (array_hash b)) _) (le_n _)) as H.
  rewrite List.Forall_forall in H. apply H. apply list_elem_of_In. by eapply list_elem_of_lookup_2.
Qed.

(** The array with a name, in and outside the table. *)
Definition root_of (b : STPBuilder) (name : string) : positive :=
  match find (fun p => String.eqb (fst p) name) (imap (fun k p => (unique_name (fst p) k, fst p)) (array_hash b)) with
  | Some (_, root) => root
  | None => Pos.of_nat (String.length name - longest b)
  end.

Definition unused (b : STPBuilder) (root : positive) : string := repeat_x (longest b + Pos.to_nat root).

Lemma root_of_naming b root : builder_ok b -> unique_names -> root_of b (naming b (unused b) root) = root.
Proof.
  intros Hb Hu. unfold root_of, naming.
  destruct (find _ _) as [[nm r]|] eqn:Ef.
  - apply find_some in Ef as [Hin E]. cbn in E. apply String.eqb_eq in E. apply list_elem_of_In, list_elem_of_lookup in Hin as [k Hk].
    rewrite list_lookup_imap in Hk. destruct (array_hash b !! k) as [[r' h]|] eqn:El; [|done]. cbn in Hk. injection Hk as <- <-.
    destruct (position root (array_hash b)) as [k'|] eqn:Ep.
    + apply Hu in E as <-. apply position_inv in Ep as [h' Ep]. by simplify_eq.
    + exfalso. pose proof (longest_ok b k r' h El) as Hlen. rewrite E in Hlen. unfold unused in Hlen. rewrite length_repeat_x in Hlen. lia.
  - destruct (position root (array_hash b)) as [k|] eqn:Ep.
    + exfalso. apply position_inv in Ep as [h Ep].
      assert (imap (fun k p => (unique_name (fst p) k, fst p)) (array_hash b) !! k = Some (unique_name root k, root)) as El
        by (by rewrite list_lookup_imap, Ep).
      apply list_elem_of_lookup_2, list_elem_of_In in El. pose proof (find_none _ _ Ef _ El) as Hf. cbn in Hf. by rewrite String.eqb_refl in Hf.
    + unfold unused. rewrite length_repeat_x. replace (longest b + Pos.to_nat root - longest b)%nat with (Pos.to_nat root) by lia.
      apply Pos2Nat.id.
Qed.

(** An interpretation for every environment. *)
Lemma model_of_env b (ρ : env) : builder_ok b -> unique_names ->
  exists ν m, named b ν /\ forall root, env_of ν m root = ρ root.
Proof.
  intros Hb Hu. exists (naming b (unused b)), (fun nm => ρ (root_of b nm)). split; [by apply naming_named|].
  intros root. unfold env_of. by rewrite root_of_naming.
Qed.

(** An environment for every interpretation. *)
Lemma env_of_model b (m : model) : builder_ok b -> exists ν, named b ν.
Proof. intros Hb. exists (naming b (unused b)). by apply naming_named. Qed.

(** The value of an expression depends on the environment pointwise. *)
Lemma denote_ext_both :
  (forall e ρ ρ', (forall root, ρ root = ρ' root) -> denote checked ρ e = denote checked ρ' e) /\
  (forall u ρ ρ' root i, (forall root, ρ root = ρ' root) -> denote_updates checked ρ root u i = denote_updates checked ρ' root u i).
Proof.
  apply expr_updates_ind; simpl; intros; repeat match goal with
    | IH : forall ρ ρ', _ -> denote checked ρ ?e = denote checked ρ' ?e, Hr : forall root, ?ρ root = ?ρ' root |- context [denote checked ?ρ ?e] =>
        rewrite (IH ρ ρ' Hr) end; try done.
  - apply option_bind_ext_fun. intros j. auto.
  - unfold array_init. by rewrite H.
  - apply option_bind_ext_fun. intros j. destruct (j =? i); [auto|]. eauto.
Qed.

(** ** Correctness of the translation *)

(** C18. From every state of the builder's invariant the translation of a
    well-typed expression of the handled kinds returns: no assertion of the
    builder fails, its recursion ends, and STP is never given an ill-typed
    term.  What is handled ([stp_typed]): the comparisons the simplifier
    leaves (no [Ne], [Ugt], [Uge], [Sgt] or [Sge]); on words wider than one
    bit, order, arithmetic, shifts, concatenation and extraction; no constant
    divisor zero, shift amounts that are constants below 2^32 or at most 64
    bits wide, and arrays whose indices and elements are wider than one bit.
    The term is a truth value for width
    one and a word of the width otherwise.  Its value, for the names the builder
    has given to the arrays ([ν]) and every interpretation of them ([m]), is
    that of the expression when no negative number is shifted arithmetically by
    its width or more in that environment ([no_overshift]); for such a shift
    only the type of the term is stated, as its value differs.  The update-node
    table is keyed by the address of a node: the hypothesis is that no address
    is used again for another node while the table lives
    ([one_node_per_address]), without which the term can be one of another
    node ([Reuse.reused_node_mistranslated]). *)
Theorem stp_construct_correct e b (Hwt : wt e) (Hst : stp_typed e) (Hb : builder_ok b) :
  exists h b', construct_expr e b = Ok (h, b') /\ builder_ok b' /\ extends b b' /\ (exists ν, named b' ν) /\
    forall ν m, named b' ν -> exists z,
      den m h = Some (if getWidth e =? 1 then VBool (z =? 1) else VBV (getWidth e) z) /\ 0 <= z < 2 ^ getWidth e /\
      (no_overshift checked (env_of ν m) e -> forall v, denote checked (env_of ν m) e = Some v -> z = v).
Proof.
  destruct (construct_expr_ok e b Hwt Hst Hb) as (h & b' & E & Hb' & He & _ & Ht & Hs).
  exists h, b'. split_and!; try done; [by eapply (env_of_model b' (fun _ _ => 0))|]. intros ν m Hn. exists (wval h m).
  split_and!; [|by apply (typed_range h (getWidth e) m (wt_width_pos e Hwt) Ht)..|intros Ho v; by apply (Hs ν m v Hn Ho)].
  destruct (Z.eqb_spec (getWidth e) 1) as [E1|N1]; [rewrite E1 in Ht; by apply typed_bool|].
  by apply word_den, typed_word.
Qed.
End models.

(** ** Decimal names *)

Definition digit (c : ascii) : bool := (48 <=? nat_of_ascii c)%nat && (nat_of_ascii c <=? 57)%nat.

(** The characters of a string. *)
Fixpoint chars (s : string) : list ascii := match s with EmptyString => [] | String c s => c :: chars s end.

Lemma chars_app s s' : chars (s ++ s') = chars s ++ chars s'.
Proof. induction s as [|c s IH]; [done|]. exact (f_equal (cons c) IH). Qed.

Lemma chars_inj s s' : chars s = chars s' -> s = s'.
Proof. revert s'. induction s; intros [|c s'] H; cbn in *; simplify_eq; [done|]. f_equal. auto. Qed.

Definition ends_in_digit (l : list ascii) : Prop := exists l' c, l = l' ++ [c] /\ digit c = true.

(** What follows the last character that is no digit is determined. *)
Lemma digits_suffix s s' u u' :
  s ++ u = s' ++ u' -> Forall (fun c => digit c = true) u -> Forall (fun c => digit c = true) u' ->
  ~ ends_in_digit s -> ~ ends_in_digit s' -> u = u'.
Proof.
  assert (forall s s' u u' k, s = s' ++ k -> u' = k ++ u -> Forall (fun c => digit c = true) u' -> ~ ends_in_digit s -> u = u') as H.
  { intros s0 s0' u0 u0' k -> -> Hu Hs. destruct k as [|c k _] using rev_ind; [done|]. exfalso. apply Hs. exists (s0' ++ k), c.
    split; [by rewrite app_assoc|]. rewrite Forall_app, Forall_app in Hu. destruct Hu as [[_ Hu] _]. by inversion Hu. }
  intros E Hu Hu' Hs Hs'. apply app_eq_inv in E as [(k & -> & ->)|(k & -> & ->)].
  - by eapply H.
  - symmetry. by eapply H.
Qed.

Section decimal.
Context {A : APInt} {AR : Arrays} {itostr : Z -> string}.
Context (itostr_digits : forall n, 0 <= n -> Forall (fun c => digit c = true) (chars (itostr n))).
Context (itostr_inj : forall n n', 0 <= n -> 0 <= n' -> itostr n = itostr n' -> n = n').

(** The part of an array's name that its unique name keeps. *)
Definition kept (root : positive) (k : nat) : string :=
  let uid_length := String.length (itostr (Z.of_nat k)) in
  let name := name (arrayAt root) in
  String.substring 0 (if (32 - uid_length <? String.length name)%nat then (32 - uid_length)%nat else String.length name) name.

(** The names differ if no array's name, cut to length, ends in a digit. *)
Lemma unique_names_ok : (forall root k, ~ ends_in_digit (chars (kept root k))) -> unique_names itostr.
Proof.
  intros Hk r r' k k' E. apply (f_equal chars) in E.
  change (chars (kept r k ++ itostr (Z.of_nat k)) = chars (kept r' k' ++ itostr (Z.of_nat k')))%string in E. rewrite !chars_app in E.
  apply digits_suffix in E; try apply itostr_digits; try apply Hk; try lia.
  apply chars_inj, itostr_inj in E; lia.
Qed.
End decimal.

(** The decimal numbers. *)
Definition decimal (n : Z) : string := NilZero.string_of_uint (N.to_uint (Z.to_N n)).

Lemma decimal_digits n : Forall (fun c => digit c = true) (chars (decimal n)).
Proof.
  unfold decimal, NilZero.string_of_uint.
  assert (forall d, Forall (fun c => digit c = true) (chars (NilEmpty.string_of_uint d))) as H.
  { induction d; cbn; by constructor. }
  destruct (N.to_uint _); [by repeat constructor|apply H..].
Qed.

Lemma to_uint_nonnil n : N.to_uint n <> Decimal.Nil.
Proof. destruct n; [done|]. apply DecimalPos.Unsigned.to_uint_nonnil. Qed.

Lemma decimal_inj n n' : 0 <= n -> 0 <= n' -> decimal n = decimal n' -> n = n'.
Proof.
  intros Hn Hn' E. apply (f_equal NilZero.uint_of_string) in E. unfold decimal in E.
  rewrite !NilZero.usu in E by apply to_uint_nonnil. injection E as E.
  apply (f_equal N.of_uint) in E. rewrite !DecimalN.Unsigned.of_to in E. lia.
Qed.

(** One-letter names are unique. *)
Lemma one_letter_names `{A : APInt} {AR : Arrays} :
  (forall root, exists c, name (arrayAt root) = String c EmptyString /\ digit c = false) -> unique_names decimal.
Proof.
  intros Hname. apply (unique_names_ok (fun n _ => decimal_digits n) decimal_inj). intros root k.
  destruct (Hname root) as (c & E & Hc).
  assert (forall n, ~ ends_in_digit (chars (String.substring 0 n (String c EmptyString)))) as H.
  { intros [|n] (l & d & Hl & Hd); [by destruct l|].
    assert (String.substring 0 n EmptyString = EmptyString) as E' by by destruct n.
    change (c :: chars (String.substring 0 n EmptyString) = l ++ [d]) in Hl. rewrite E' in Hl. destruct l as [|? [|? ?]]; cbn in Hl; simplify_eq. congruence. }
  unfold kept. rewrite E. apply H.
Qed.

(** ** Addresses *)

(** Addresses of update nodes that are all different: every node has a number. *)
Definition kind_number (k : BinKind) : Z :=
  match k with
  | Add => 0 | Sub => 1 | Mul => 2 | UDiv => 3 | SDiv => 4 | URem => 5 | SRem => 6 | And => 7 | Or => 8 | Xor => 9
  | Shl => 10 | LShr => 11 | AShr => 12 | Eq => 13 | Ne => 14 | Ult => 15 | Ule => 16 | Ugt => 17 | Uge => 18
  | Slt => 19 | Sle => 20 | Sgt => 21 | Sge => 22
  end.

Lemma kind_number_inj k k' : kind_number k = kind_number k' -> k = k'.
Proof. destruct k, k'; done. Qed.

Fixpoint tree_of (e : expr (A:=bv_apint)) : gen_tree Z :=
  match e with
  | Constant c => GenNode 0 [GenLeaf (bv_width c); GenLeaf (bv_bits c)]
  | NotOptimized s => GenNode 1 [tree_of s]
  | Read root head index => GenNode 2 [GenLeaf (Z.pos root); tree_of_updates head; tree_of index]
  | Select c t f => GenNode 3 [tree_of c; tree_of t; tree_of f]
  | Concat l r => GenNode 4 [tree_of l; tree_of r]
  | Extract s off w => GenNode 5 [tree_of s; GenLeaf off; GenLeaf w]
  | Cast k s w => GenNode 6 [GenLeaf (match k with ZExt => 0 | SExt => 1 end); tree_of s; GenLeaf w]
  | Not s => GenNode 7 [tree_of s]
  | Binary k l r => GenNode 8 [GenLeaf (kind_number k); tree_of l; tree_of r]
  end
with tree_of_updates (u : updates (A:=bv_apint)) : gen_tree Z :=
  match u with
  | UNil => GenNode 9 []
  | UNode i v next => GenNode 10 [tree_of i; tree_of v; tree_of_updates next]
  end.

Lemma tree_of_inj_both :
  (forall e e', tree_of e = tree_of e' -> e = e') /\ (forall u u', tree_of_updates u = tree_of_updates u' -> u = u').
Proof.
  apply expr_updates_ind.
  - intros [w b] [[w' b']| | | | | | | |] H; simpl in H; try done. by simplify_eq.
  - intros s IH [] H; simpl in H; try done. injection H as H. f_equal. auto.
  - intros r u IHu i IHi [] H; simpl in H; try done. injection H as H1 H2 H3. f_equal; auto.
  - intros c IHc t IHt f IHf [] H; simpl in H; try done. injection H as H1 H2 H3. f_equal; auto.
  - intros l IHl r IHr [] H; simpl in H; try done. injection H as H1 H2. f_equal; auto.
  - intros s IH off w [] H; simpl in H; try done. injection H as H1 H2 H3. f_equal; auto.
  - intros k s IH w [| | | | | |k' s' w'| |] H; simpl in H; try done. injection H as H1 H2 H3. f_equal; auto. by destruct k, k'.
  - intros s IH [] H; simpl in H; try done. injection H as H. f_equal. auto.
  - intros k l IHl r IHr [] H; simpl in H; try done. injection H as H1 H2 H3. f_equal; auto. by apply kind_number_inj.
  - by intros [] H; simpl in H.
  - intros i IHi v IHv n IHn [] H; simpl in H; try done. injection H as H1 H2 H3. f_equal; auto.
Qed.

Definition sample_address (t : nat) (un : positive * updates (A:=bv_apint)) : positive :=
  encode (un.1, tree_of_updates un.2).

Lemma sample_address_ok : one_node_per_address sample_address.
Proof.
  intros t t' [r u] [r' u'] H. unfold sample_address in H. apply (inj encode) in H. cbn in H. injection H as -> H.
  f_equal. by apply tree_of_inj_both.
Qed.

(** ** Names that are the same *)
Module Clash.

(** Two symbolic arrays "a1" and "a" among others. *)
#[local] Instance clash_arrays : @Arrays bv_apint := fun p =>
  Array (if Pos.eqb p 1 then "a1" else if Pos.eqb p 2 then "a" else "b")%string 1 32 8 [].

Definition byte_of (root : positive) : expr := Read root UNil (Constant (BV 32 0)).

Fixpoint construct_all (es : list expr) : state STPBuilder unit :=
  match es with
  | [] => sret tt
  | e :: es => do* _ := construct_expr false true decimal sample_address e in construct_all es
  end.

(** The queries before: the first array and nine others. *)
Definition queries_before : list expr := byte_of <$> [1; 3; 4; 5; 6; 7; 8; 9; 10; 11]%positive.
Definition query : expr := Binary Eq (byte_of 1) (byte_of 2).

(* the variable of an array that is the k-th of the table *)
Definition variable (root : positive) (k : nat) : positive * VCExpr := (root, TVar (unique_name decimal root k) 32 8).

Lemma construct_index i b : construct false true decimal sample_address (Constant (BV 32 i)) b = Ok (TWord 32 (wrap 32 i), 32, b).
Proof. reflexivity. Qed.

Lemma construct_byte root b l :
  array_hash b = l -> lookupArrayExpr root b = None ->
  construct false true decimal sample_address (byte_of root) b =
    Ok (TRead (snd (variable root (length l))) (TWord 32 0), 8, MkBuilder (constructed b) (l ++ [variable root (length l)]) (update_node_hash b) (visits b)).
Proof. intros <- H. simpl. cbv [with_table negb orb sbind getInitialArray]. rewrite H. reflexivity. Qed.

Lemma construct_known root k b :
  lookupArrayExpr root b = Some (snd (variable root k)) ->
  construct false true decimal sample_address (byte_of root) b = Ok (TRead (snd (variable root k)) (TWord 32 0), 8, b).
Proof. intros H. simpl. cbv [with_table negb orb sbind getInitialArray]. rewrite H. reflexivity. Qed.

Lemma construct_query b hl bl hr br :
  construct false true decimal sample_address (byte_of 1) b = Ok (hl, 8, bl) ->
  construct false true decimal sample_address (byte_of 2) bl = Ok (hr, 8, br) ->
  construct_expr false true decimal sample_address query b = Ok (TEq hl hr, clear_constructed br).
Proof.
  intros El Er. cbv [construct_expr sbind].
  change (construct false true decimal sample_address query b) with
    (constructEq (byte_of 1) (construct false true decimal sample_address (byte_of 1))
       (construct false true decimal sample_address (byte_of 2)) b).
  cbv [constructEq sbind]. rewrite El. cbn [res_bind fst snd]. rewrite Er. reflexivity.
Qed.

(** Two arrays can get the same name.  The array "a1" that is asked about
    first is called "a10", and so is the array "a" that is the eleventh; STP
    takes them for one array.  That their first bytes are equal then is a
    theorem to STP, although it is false in most environments. *)
Theorem names_collide :
  exists b h b', construct_all queries_before STPBuilder_new = Ok (tt, b) /\
    construct_expr false true decimal sample_address query b = Ok (h, b') /\
    (forall m, den m h = Some (VBool true)) /\
    exists ρ, denote false ρ query = Some 0.
Proof.
  set (run := foldl (fun l root => l ++ [variable root (length l)]) [] [1; 3; 4; 5; 6; 7; 8; 9; 10; 11]%positive).
  assert (forall es root b l, array_hash b = l -> constructed b = [] -> update_node_hash b = [] -> lookupArrayExpr root b = None ->
    construct_all (byte_of root :: es) b = construct_all es (MkBuilder [] (l ++ [variable root (length l)]) [] (visits b))) as Step.
  { intros es root b l El Ec Eu Hl. cbn [construct_all]. unfold construct_expr, sbind at 1 2.
    rewrite (construct_byte root b l El Hl), Eu. reflexivity. }
  set (before := MkBuilder [] run [] 0). exists before. unfold queries_before. cbn [fmap list_fmap].
  do 10 (erewrite Step; [|reflexivity|reflexivity|reflexivity|reflexivity]).
  assert (lookupArrayExpr 1 before = Some (snd (variable 1 0))) as H1 by reflexivity.
  assert (lookupArrayExpr 2 before = None) as H2 by reflexivity.
  do 2 eexists. split; [reflexivity|]. split.
  - apply (construct_query _ _ _ _ _ (construct_known 1 0 before H1) (construct_byte 2 before run eq_refl H2)).
  - split; [|by exists (fun root _ => Z.pos root)]. intros m. set (byte := TRead (TVar "a10" 32 8) (TWord 32 0)).
    change (eval m (TEq byte byte) = Some (VBool true)). cbn. by rewrite Z.eqb_refl.
Qed.
End Clash.

(** ** Addresses that are used again *)
Module Reuse.
#[local] Existing Instance Examples.arrays.
Import Examples.

(* a[0] after the writes a[1] := x, a[0] := y *)
Definition first_byte (y x : Z) : expr :=
  Read 1 (UNode (Constant (word 0)) (Constant (byte y)) (UNode (Constant (word 1)) (Constant (byte x)) UNil)) (Constant (word 0)).

(* the addresses when the nodes of the second expression are allocated where
   those of the first were *)
Definition reused_address (_ : nat) (un : positive * updates (A:=bv_apint)) : positive :=
  match un.2 with UNode _ _ UNil => 2 | _ => 1 end.

(* the term of the first expression and the builder after it *)
Definition built : VCExpr * STPBuilder :=
  Eval vm_compute in
  match construct_expr false true decimal reused_address (first_byte 5 6) STPBuilder_new with
  | Ok r => r
  | _ => (getTrue, STPBuilder_new)
  end.

(** When the nodes of an expression are freed and others are allocated at their
    addresses, the builder returns the term of the old nodes: the byte that is
    6 gets the term of the byte that is 5.  The lists even have the same hash,
    which only combines the expressions written by exclusive or. *)
Theorem reused_node_mistranslated :
  construct_expr false true decimal reused_address (first_byte 5 6) STPBuilder_new = Ok built /\
  (exists b, construct_expr false true decimal reused_address (first_byte 6 5) (snd built) = Ok (fst built, b)) /\
  (forall ρ, denote false ρ (first_byte 5 6) = Some 5) /\ (forall ρ, denote false ρ (first_byte 6 5) = Some 6) /\
  hash (first_byte 5 6) = hash (first_byte 6 5).
Proof.
  split_and!; [| |reflexivity|reflexivity|vm_compute; reflexivity].
  - vm_cast_no_check (eq_refl (Ok built : res (VCExpr * STPBuilder))).
  - set (b := MkBuilder [] (array_hash (snd built)) (update_node_hash (snd built)) 3). exists b.
    vm_cast_no_check (eq_refl (Ok (fst built, b) : res (VCExpr * STPBuilder))).
Qed.
End Reuse.

(** ** Samples *)
Module STPExamples.
#[local] Existing Instance Examples.arrays.
Import Examples SolverExamples.

Lemma sample_unique_names : unique_names decimal.
Proof. apply one_letter_names. intros root. destruct root as [| |]; by eexists. Qed.

Lemma five_stp : stp_typed five /\ forall ρ, no_overshift false ρ five.
Proof. by repeat split. Qed.
End STPExamples.

Section witnesses.
#[local] Existing Instance Examples.arrays.
Import STPExamples SolverExamples.

Lemma stp_construct_correct_witness :
  exists h b', construct_expr true true decimal sample_address five STPBuilder_new = Ok (h, b') /\
    forall ν m, named decimal b' ν -> env_of ν m 1%positive 0 = 5 -> den m h = Some (VBool true).
Proof.
  destruct (stp_construct_correct true true false decimal sample_address sample_address_ok five STPBuilder_new
    five_wt (proj1 five_stp) (empty_builder_ok false decimal sample_address)) as (h & b' & E & _ & _ & _ & H).
  exists h, b'. split; [exact E|]. intros ν m Hn H5. destruct (H ν m Hn) as (z & Ez & _ & Hz).
  rewrite Ez. rewrite (Hz (proj2 five_stp _) 1); [done|]. cbn. change (bv_uval (Examples.word 0)) with 0. by rewrite array_init_symbolic, H5.
Defined.
End witnesses.
