(* ===== verification/STPSolver.v ===== *)
(** The core solver over STP: klee/lib/Solver/STPSolver.cpp.

    STP's context ([vc]), its decision procedure and the counterexample it keeps
    are parameters ([STPContext]) with their documented behaviour
    ([STPContextLaws]).  How a forked process ends is a parameter ([child]);
    what the child computes is modelled, and that its builder and context are
    copies: what it does to them is lost.  A process that is ended on purpose
    ([exit], [report_fatal_error]) is [AssertFail]. *)
From Stdlib Require Import ZArith Lia Bool String.
From stdpp Require Import base list numbers option strings gmap sets.
From S2P Require Import Prelude Bits APInt Expr ExprCreate ExprSem ExprCompare ExprCreateCorrect ExprFactory ExprVisitor ExprReads ExprEval ExprUtil Solver SolverScope ValidatingSolver STP STPBuilder STPWords STPBuilderInv STPBuilderCorrect STPModels.
Open Scope Z_scope.

(** ** STP's context *)
Class STPContext `{STP} := {
  Ctx : Type;
  vc_push : Ctx -> Ctx;
  vc_pop : Ctx -> Ctx;
  vc_assertFormula : Ctx -> VCExpr -> Ctx;
  (* 0: not valid, 1: valid; other values, below 256, are failures *)
  vc_query : Ctx -> VCExpr -> Z * Ctx;
  vc_getCounterExample : Ctx -> VCExpr -> VCExpr;
  getBVUnsigned : VCExpr -> Z;
}.

Definition formula `{TL : STPLaws} (h : VCExpr) : Prop := exists B, is_bool h B.

(** The interpretation makes the terms true. *)
Definition models `{TL : STPLaws} (m : model) (hs : list VCExpr) : Prop := Forall (fun h => den m h = Some (VBool true)) hs.

(** The documented behaviour: the assertions are a stack of lists, and a query
    asks whether they entail a formula. *)
Class STPContextLaws `{TL : STPLaws} (C : STPContext) : Type := {
  asserted : Ctx -> list (list VCExpr);
  asserted_push c : asserted (vc_push c) = [] :: asserted c;
  asserted_pop c : asserted (vc_pop c) = tail (asserted c);
  asserted_assert c h s r : asserted c = s :: r -> asserted (vc_assertFormula c h) = (h :: s) :: r;
  asserted_query c h : asserted (snd (vc_query c h)) = asserted c;
  query_valid c h : Forall formula (mjoin (asserted c)) -> formula h -> fst (vc_query c h) = 1 ->
    forall m, models m (mjoin (asserted c)) -> den m h = Some (VBool true);
  query_invalid c h : Forall formula (mjoin (asserted c)) -> formula h -> fst (vc_query c h) = 0 ->
    exists m, models m (mjoin (asserted c)) /\ den m h = Some (VBool false) /\
      forall e w x, w <= 32 -> den m e = Some (VBV w x) -> getBVUnsigned (vc_getCounterExample (snd (vc_query c h)) e) = x;
}.

Inductive SolverRunStatus : Type :=
| SUCCESS_SOLVABLE | SUCCESS_UNSOLVABLE | FAILURE | TIMEOUT | FORK_FAILED | INTERRUPTED | UNEXPECTED_EXIT_CODE | WAITPID_FAILED.

(** How a forked process ends. *)
Inductive child_end : Type := ForkFailed | WaitpidFailed | Killed | AlarmExpired | Exited.

Section stp_solver.
Context {A : APInt} {AR : Arrays} {T : STP} {C : STPContext}.
Context (UseConstructHash optimizeDivides ConstArrayOpt UseVisitorHash : bool) (itostr : Z -> string).
Context (node_address : nat -> positive * updates -> positive).
Context (useForkedSTP IgnoreSolverFailures : bool).
Context (child : Ctx -> VCExpr -> child_end).

Record STPSolverImpl : Type := MkSTP { vc : Ctx; builder : STPBuilder; runStatusCode : SolverRunStatus }.

Definition shared_memory_size : Z := 2 ^ 20.

(* the bytes of an object, from an offset on *)
Fixpoint read_bytes (c : Ctx) (object : positive) (offset : Z) (n : nat) : state STPBuilder (list Z) :=
  match n with
  | O => sret []
  | S n =>
      do* e := getInitialRead itostr object offset in
      do* rest := read_bytes c object (offset + 1) n in
      sret (wrap 8 (getBVUnsigned (vc_getCounterExample c e)) :: rest)
  end.

Fixpoint read_objects (c : Ctx) (objects : list positive) : state STPBuilder (list (list Z)) :=
  match objects with
  | [] => sret []
  | object :: objects =>
      do* values := read_bytes c object 0 (Z.to_nat (size (arrayAt object))) in
      do* rest := read_objects c objects in
      sret (values :: rest)
  end.

(* the status, and the values where hasSolution is set *)
Definition runAndGetCex (c : Ctx) (q : VCExpr) (objects : list positive) :
    state STPBuilder (SolverRunStatus * solution * Ctx) :=
  let '(r, c) := vc_query c q in
  if negb (r =? 0) then sret (SUCCESS_UNSOLVABLE, None, c)
  else do* values := read_objects c objects in sret (SUCCESS_SOLVABLE, Some values, c).

(* the sizes are summed up in an unsigned *)
Definition objects_size (objects : list positive) : Z :=
  fold_left (fun sum object => wrap 32 (sum + size (arrayAt object))) objects 0.

(* exit(1) unless failures are ignored *)
Definition failed (status : SolverRunStatus) : res (SolverRunStatus * solution) :=
  if IgnoreSolverFailures then Ok (status, None) else AssertFail.

Definition runAndGetCexForked (c : Ctx) (q : VCExpr) (objects : list positive) (b : STPBuilder) :
    res (SolverRunStatus * solution) :=
  assert* negb (shared_memory_size <=? objects_size objects) in
  match child c q with
  | ForkFailed => failed FORK_FAILED
  | WaitpidFailed => failed WAITPID_FAILED
  | Killed => failed INTERRUPTED
  | AlarmExpired => Ok (TIMEOUT, None)
  | Exited =>
      let '(exitcode, c) := vc_query c q in
      if exitcode =? 0 then
        match read_objects c objects b with
        | Ok (values, _) => Ok (SUCCESS_SOLVABLE, Some values)
        | _ => failed INTERRUPTED
        end
      else if exitcode =? 1 then Ok (SUCCESS_UNSOLVABLE, None)
      else if exitcode =? 52 then Ok (TIMEOUT, None)
      else failed UNEXPECTED_EXIT_CODE
  end.

Notation construct_expr := (construct_expr UseConstructHash optimizeDivides itostr node_address).

(* builder->construct and vc_assertFormula for each constraint *)
Fixpoint assert_constraints (cs : list expr) : state STPSolverImpl unit :=
  match cs with
  | [] => sret tt
  | constraint :: cs => fun s =>
      let* p := construct_expr constraint (builder s) in
      assert_constraints cs (MkSTP (vc_assertFormula (vc s) (fst p)) (snd p) (runStatusCode s))
  end.

Definition successful (status : SolverRunStatus) : bool :=
  match status with SUCCESS_SOLVABLE | SUCCESS_UNSOLVABLE => true | _ => false end.

Definition stp_computeInitialValues (query : Query) (objects : list positive) :
    state STPSolverImpl (option solution) := fun s =>
  let s := MkSTP (vc_push (vc s)) (builder s) FAILURE in
  let* p := assert_constraints (constraints query) s in
  let s := snd p in
  let* p := construct_expr (query_expr query) (builder s) in
  let '(stp_e, b) := p in
  if useForkedSTP then
    let* r := runAndGetCexForked (vc s) stp_e objects b in
    Ok (if successful (fst r) then Some (snd r) else None, MkSTP (vc_pop (vc s)) b (fst r))
  else
    let* p := runAndGetCex (vc s) stp_e objects b in
    let '(status, hasSolution, c, b) := p in
    Ok (Some hasSolution, MkSTP (vc_pop c) b status).

Definition stp_computeTruth (query : Query) : state STPSolverImpl (option bool) :=
  do* r := stp_computeInitialValues query [] in
  sret (option_map (fun sol => match sol with None => true | Some _ => false end) r).

Definition stp_computeValue (query : Query) : state STPSolverImpl (option expr) :=
  do* objects := slift (findSymbolicObjects ConstArrayOpt UseVisitorHash [query_expr query] []) in
  do* r := stp_computeInitialValues (withFalse query) objects in
  match r with
  | None => sret None
  | Some None => slift AssertFail
  | Some (Some values) =>
      do* e := slift (let* a := Assignment_new objects values false in
                      ExprEval.evaluate ConstArrayOpt UseVisitorHash a (query_expr query)) in
      sret (Some e)
  end.

Definition STPSolver : SolverImpl STPSolverImpl := {|
  computeTruth := stp_computeTruth;
  computeValidity := default_computeValidity ConstArrayOpt stp_computeTruth;
  computeValue := stp_computeValue;
  computeInitialValues := stp_computeInitialValues;
|}.
End stp_solver.

(** ** Correctness *)
Section correct.
Context {A : APInt} {L : APIntLaws A} {AR : Arrays} {T : STP} {TL : STPLaws T} {C : STPContext} {CL : STPContextLaws C}.
Context (UseConstructHash optimizeDivides opt hash checked : bool) (itostr : Z -> string).
Context (node_address : nat -> positive * updates -> positive).
Context (node_address_ok : one_node_per_address node_address).
Context (Hunique : unique_names itostr).
Context (useForkedSTP IgnoreSolverFailures : bool) (child : Ctx -> VCExpr -> child_end).

Notation construct_expr := (construct_expr UseConstructHash optimizeDivides itostr node_address).
Notation builder_ok := (builder_ok checked itostr node_address).
Notation named := (named itostr).
Notation translates := (translates checked itostr).
Notation runs := (runs checked itostr node_address).
Notation sat := (sat checked).

(** An expression STP can be asked about. *)
Definition stp_ok (e : expr) : Prop := stp_typed e /\ forall ρ, no_overshift checked ρ e.

(** A constraint: it has a value in every environment. *)
Definition stp_constraint (c : expr) : Prop :=
  wt c /\ getWidth c = 1 /\ stp_ok c /\ forall ρ, is_Some (denote checked ρ c).

Definition stp_query (q : Query) : Prop :=
  Forall stp_constraint (constraints q) /\ wt (query_expr q) /\ stp_ok (query_expr q) /\
  forall ρ, sat ρ (constraints q) -> is_Some (denote checked ρ (query_expr q)).

Definition stp_object (os : positive) : Prop :=
  wt_array (arrayAt os) /\ stp_array (arrayAt os) /\ domain (arrayAt os) = 32 /\
  (isSymbolicArray (arrayAt os) = true -> range (arrayAt os) = 8).

(** The solver between two calls. *)
Definition stp_inv (s : STPSolverImpl) : Prop := builder_ok (builder s) /\ mjoin (asserted (vc s)) = [].

(** *** Constraints *)

Lemma term_formula b h c : getWidth c = 1 -> translates b h c -> formula h.
Proof. intros Hw [Ht _]. rewrite Hw in Ht. eexists. by apply typed_bool. Qed.

(** The term of a Boolean expression with a value is true where the value is one. *)
Lemma term_true b ν m h c v :
  getWidth c = 1 -> stp_ok c -> translates b h c -> named b ν -> denote checked (env_of ν m) c = Some v ->
  den m h = Some (VBool (v =? 1)).
Proof. intros Hw [_ Ho] [Ht Hs] Hn Hd. rewrite Hw in Ht. by rewrite (typed_bool h Ht m), (Hs ν m v Hn (Ho _) Hd). Qed.

Lemma models_sat b ν m hs cs :
  named b ν -> Forall2 (translates b) hs cs -> Forall stp_constraint cs -> models m hs <-> sat (env_of ν m) cs.
Proof.
  intros Hn Hhs Hcs. unfold models, Solver.sat. induction Hhs as [|h c hs cs Hh Hhs IH]; [by split|].
  apply Forall_cons_iff in Hcs as [(Hwt & Hw & Ho & Hd) Hcs]. rewrite !Forall_cons, IH by done.
  destruct (Hd (env_of ν m)) as [v Hv]. rewrite (term_true b ν m h c v Hw Ho Hh Hn Hv), Hv.
  destruct (Z.eqb_spec v 1) as [->|Hne]; split; intros [H Hr]; try done; congruence.
Qed.

Lemma assert_constraints_ok cs s top base :
  builder_ok (builder s) -> asserted (vc s) = top :: base -> Forall stp_constraint cs ->
  exists s' hs, assert_constraints UseConstructHash optimizeDivides itostr node_address cs s = Ok (tt, s') /\
    builder_ok (builder s') /\ extends (builder s) (builder s') /\ Forall2 (translates (builder s')) hs cs /\
    asserted (vc s') = (rev hs ++ top) :: base /\ runStatusCode s' = runStatusCode s.
Proof.
  intros Hb Ha Hcs. revert s top Hb Ha. induction Hcs as [|c cs (Hwt & Hw & [Hst _] & _) Hcs IH]; intros s top Hb Ha.
  - exists s, []. split_and!; first [done|apply extends_refl|constructor].
  - cbn [assert_constraints].
    destruct (construct_expr_ok UseConstructHash optimizeDivides checked itostr node_address node_address_ok c (builder s) Hwt Hst Hb)
      as (h & b & -> & Hb' & He & _ & Hh). cbn [res_bind fst snd].
    destruct (IH (MkSTP (vc_assertFormula (vc s) h) b (runStatusCode s)) (h :: top) Hb') as (s' & hs & E & Hb'' & He' & Hhs & Ha' & Hr).
    { by apply asserted_assert. }
    exists s', (h :: hs). split_and!; try done.
    + by eapply extends_trans.
    + constructor; [by eapply extends_translates|done].
    + rewrite Ha'. cbn [rev]. by rewrite <- app_assoc.
Qed.

(** *** Counterexamples *)

(** The counterexample of the context is [m]. *)
Definition shows (c : Ctx) (m : model) : Prop :=
  forall e w x, w <= 32 -> den m e = Some (VBV w x) -> getBVUnsigned (vc_getCounterExample c e) = x.

(** Bytes of an object from an offset on. *)
Definition bytes_from (b : STPBuilder) (m : model) (os : positive) (offset : Z) (vs : list Z) : Prop :=
  Forall (fun x => 0 <= x < 256) vs /\
  (isSymbolicArray (arrayAt os) = true -> forall i x ν, vs !! i = Some x -> named b ν ->
     array_init checked (env_of ν m) os (offset + Z.of_nat i) = Some x).

Lemma getInitialRead_ok c m os offset b :
  shows c m -> stp_object os -> 0 <= offset < size (arrayAt os) -> builder_ok b ->
  runs (getInitialRead itostr os offset) b (fun e b' =>
    isSymbolicArray (arrayAt os) = true -> forall ν, named b' ν ->
      array_init checked (env_of ν m) os offset = Some (wrap 8 (getBVUnsigned (vc_getCounterExample c e)))).
Proof.
  intros Hc (Hwt & Hst & Hd & Hr) Ho Hb. unfold getInitialRead.
  eapply runs_bind; [by apply (getInitialArray_ok checked itostr node_address os b Hwt Hst Hb)|].
  intros a b' Hb' He [Ta Sa]. apply runs_ret; [done|]. intros Hs ν Hn.
  pose proof Hwt as (_ & _ & Hsz & _). specialize (Hr Hs).
  destruct (Ta m) as [Ea _]. rewrite Hd, Hr in Ea.
  assert (den m (vc_readExpr a (bvConst32 32 offset)) = Some (VBV 8 (aval a m offset))) as Er.
  { eapply den_read; [exact Ea|]. apply den_const_int; lia. }
  rewrite (Hc _ 8 _ ltac:(lia) Er). rewrite array_init_symbolic by done. rewrite Hr. f_equal.
  rewrite (Sa ν m offset (wrap 8 (env_of ν m os offset)) Hn I).
  - by rewrite wrap_wrap.
  - rewrite Hd. lia.
  - change (array_init checked (env_of ν m) os offset = Some (wrap 8 (env_of ν m os offset))).
    by rewrite array_init_symbolic, Hr.
Qed.

Lemma object_bytes_read c m os n : shows c m -> stp_object os -> forall offset b,
  0 <= offset -> offset + Z.of_nat n = size (arrayAt os) -> builder_ok b ->
  runs (read_bytes itostr c os offset n) b (fun vs b' => length vs = n /\ bytes_from b' m os offset vs).
Proof.
  intros Hc Ho. induction n as [|n IH]; intros offset b Hoff Hn Hb; cbn [read_bytes].
  - apply runs_ret; [done|]. split; [done|]. split; [constructor|]. intros _ i x ν Hi. by rewrite lookup_nil in Hi.
  - eapply runs_bind; [apply (getInitialRead_ok c m); [done|done|lia|done]|]. intros e b1 Hb1 He1 Hx.
    eapply runs_bind; [apply (IH (offset + 1)); [lia|lia|done]|]. intros rest b2 Hb2 He2 (Hl & Hbs & Hrest).
    apply runs_ret; [done|]. split; [cbn; by rewrite Hl|]. split.
    + constructor; [apply (wrap_range 8); lia|done].
    + intros Hs [|i] x ν Hi Hnm; cbn in Hi.
      * injection Hi as <-. rewrite Z.add_0_r. apply (Hx Hs). by eapply extends_named.
      * replace (offset + Z.of_nat (S i)) with (offset + 1 + Z.of_nat i) by lia. by apply (Hrest Hs i x ν).
Qed.

Lemma bytes_from_of b m os vs ν :
  Z.of_nat (length vs) = size (arrayAt os) -> bytes_from b m os 0 vs -> named b ν -> bytes_of checked (env_of ν m) os vs.
Proof. intros Hl [Hb Hv] Hn. split_and!; [done|done|]. intros Hs i x Hi. by apply (Hv Hs i x ν Hi Hn). Qed.

Lemma read_objects_ok c m objects : shows c m -> Forall stp_object objects -> forall b, builder_ok b ->
  runs (read_objects itostr c objects) b (fun values b' =>
    forall ν, named b' ν -> object_values checked (env_of ν m) objects values).
Proof.
  intros Hc Hos. induction Hos as [|os objects Ho Hos IH]; intros b Hb; cbn [read_objects].
  - apply runs_ret; [done|]. intros ν _. constructor.
  - pose proof (proj1 Ho) as (_ & _ & Hsz & _). eapply runs_bind; [apply (object_bytes_read c m); [done|done|lia|lia|done]|].
    intros vs b1 Hb1 He1 (Hl & Hvs). eapply runs_bind; [by apply IH|]. intros rest b2 Hb2 He2 Hrest.
    apply runs_ret; [done|]. intros ν Hn. constructor; [|by apply Hrest].
    eapply bytes_from_of; [|exact Hvs|by eapply extends_named]. rewrite Hl. lia.
Qed.

(** *** Answers *)

Lemma denote_ext ρ ρ' e : (forall root, ρ root = ρ' root) -> denote checked ρ e = denote checked ρ' e.
Proof. apply denote_ext_both. Qed.

Lemma sat_ext ρ ρ' cs : (forall root, ρ root = ρ' root) -> sat ρ cs -> sat ρ' cs.
Proof. intros H. unfold Solver.sat. intros Hs. eapply Forall_impl; [exact Hs|]. intros c Hc. by rewrite <- (denote_ext ρ ρ'). Qed.

(** The assertions and the term of a query, in a context over no others. *)
Definition asks (c : Ctx) (b : STPBuilder) (h : VCExpr) (q : Query) : Prop :=
  builder_ok b /\ translates b h (query_expr q) /\
  exists hs, Forall2 (translates b) hs (constraints q) /\ mjoin (asserted c) = rev hs.

Definition bool_stp_query (q : Query) : Prop := stp_query q /\ getWidth (query_expr q) = 1.

Lemma asks_models c b h q ν m :
  asks c b h q -> bool_stp_query q -> named b ν -> models m (mjoin (asserted c)) <-> sat (env_of ν m) (constraints q).
Proof.
  intros (Hb & Hh & hs & Hhs & ->) [(Hcs & _) _] Hn. rewrite <- (models_sat b ν m hs) by done.
  unfold models. split; intros H; apply List.Forall_rev in H; by rewrite ?rev_involutive in H.
Qed.

Lemma asks_formulas c b h q :
  asks c b h q -> bool_stp_query q -> Forall formula (mjoin (asserted c)) /\ formula h.
Proof.
  intros (Hb & Hh & hs & Hhs & ->) [(Hcs & _) Hw]. split; [|by eapply term_formula].
  apply List.Forall_rev. clear -Hhs Hcs TL. induction Hhs as [|x e hs cs Hx Hhs IH]; [constructor|].
  apply Forall_cons_iff in Hcs as [(_ & Hw & _) Hcs]. constructor; [by eapply term_formula|by apply IH].
Qed.

Lemma valid_answer c b h q :
  asks c b h q -> bool_stp_query q -> fst (vc_query c h) = 1 -> forced checked q 1.
Proof.
  intros Ha Hq E ρ Hρ. destruct (asks_formulas c b h q Ha Hq) as [Hf Hfh].
  pose proof Ha as (Hb & Hh & _). destruct (model_of_env checked itostr node_address b ρ Hb Hunique) as (ν & m & Hn & Hext).
  pose proof (sat_ext ρ (env_of ν m) (constraints q) (fun root => eq_sym (Hext root)) Hρ) as Hs.
  pose proof Hq as [(_ & _ & Ho & Hd) Hw].
  pose proof (query_valid c h Hf Hfh E m (proj2 (asks_models c b h q ν m Ha Hq Hn) Hs)) as Ht.
  rewrite <- (denote_ext (env_of ν m) ρ) by done. destruct (Hd _ Hs) as [v Hv].
  rewrite (term_true b ν m h _ v Hw Ho Hh Hn Hv) in Ht. injection Ht as Ht. apply Z.eqb_eq in Ht. by subst v.
Qed.

Lemma invalid_answer c b h q objects :
  asks c b h q -> bool_stp_query q -> Forall stp_object objects -> fst (vc_query c h) = 0 ->
  runs (read_objects itostr (snd (vc_query c h)) objects) b (fun values _ => solution_spec checked q objects (Some values)).
Proof.
  intros Ha Hq Hos E. destruct (asks_formulas c b h q Ha Hq) as [Hf Hfh].
  destruct (query_invalid c h Hf Hfh E) as (m & Hm & Hh0 & Hshow).
  pose proof Ha as (Hb & Hh & _).
  destruct (read_objects_ok (snd (vc_query c h)) m objects Hshow Hos b Hb) as (values & b' & Er & Hb' & He & Hv).
  exists values, b'. split_and!; try done. destruct (env_of_model checked itostr node_address b' m Hb') as [ν Hn'].
  pose proof (extends_named itostr b b' ν He Hn') as Hn.
  pose proof (proj1 (asks_models c b h q ν m Ha Hq Hn) Hm) as Hs. exists (env_of ν m). split; [done|].
  pose proof Hq as [(_ & Hwt & Ho & Hd) Hw]. destruct (Hd _ Hs) as [v Hdv].
  rewrite (term_true b ν m h _ v Hw Ho Hh Hn Hdv) in Hh0. injection Hh0 as Hne. split; [|by apply Hv].
  pose proof (denote_range checked _ _ v Hwt Hdv) as Hr. rewrite Hw in Hr.
  destruct (bit_cases v Hr) as [-> | ->]; done.
Qed.

(** *** The solver *)

(** What is asked of the processes.  A query answered in-process has one of the
    two answers; a failing child ends this process too, unless failures are
    ignored. *)
Definition answers_in_process : Prop := forall c h, fst (vc_query c h) = 0 \/ fst (vc_query c h) = 1.
Definition children_succeed : Prop := forall c h,
  child c h = AlarmExpired \/
  (child c h = Exited /\ (fst (vc_query c h) = 0 \/ fst (vc_query c h) = 1 \/ fst (vc_query c h) = 52)).

Context (Hrun : if useForkedSTP then IgnoreSolverFailures = true \/ children_succeed else answers_in_process).

(** The values fit in the shared memory. *)
Definition objects_fit (objects : list positive) : Prop := useForkedSTP = true -> objects_size objects < shared_memory_size.

Definition STP_solver : SolverImpl STPSolverImpl :=
  STPSolver UseConstructHash optimizeDivides opt hash itostr node_address useForkedSTP IgnoreSolverFailures child.

Lemma runAndGetCex_ok c b h q objects :
  useForkedSTP = false -> asks c b h q -> bool_stp_query q -> Forall stp_object objects ->
  exists status sol b', runAndGetCex itostr c h objects b = Ok (status, sol, snd (vc_query c h), b') /\
    builder_ok b' /\ solution_spec checked q objects sol.
Proof.
  intros Hf Ha Hq Hos. rewrite Hf in Hrun. unfold runAndGetCex. pose proof Ha as [Hb _].
  pose proof (valid_answer c b h q Ha Hq) as Hval. pose proof (invalid_answer c b h q objects Ha Hq Hos) as Hinv.
  destruct (Hrun c h) as [E|E]; rewrite (surjective_pairing (vc_query c h)), E; cbn [Z.eqb Pos.eqb negb].
  - destruct (Hinv E) as (values & b' & Er & Hb' & _ & Hs). unfold sbind. rewrite Er. eexists _, _, _. by split_and!.
  - eexists _, _, _. split; [done|]. split; [done|]. by apply Hval.
Qed.

Lemma failed_ok status (P : SolverRunStatus * solution -> Prop) :
  IgnoreSolverFailures = true -> P (status, None) -> exists r, failed IgnoreSolverFailures status = Ok r /\ P r.
Proof. intros Hi HP. unfold failed. rewrite Hi. by eexists. Qed.

Lemma runAndGetCexForked_ok c b h q objects :
  useForkedSTP = true -> asks c b h q -> bool_stp_query q -> Forall stp_object objects ->
  objects_size objects < shared_memory_size ->
  exists r, runAndGetCexForked itostr IgnoreSolverFailures child c h objects b = Ok r /\
    (successful (fst r) = true -> solution_spec checked q objects (snd r)).
Proof.
  intros Hf Ha Hq Hos Hsize. rewrite Hf in Hrun. unfold runAndGetCexForked.
  rewrite (proj2 (Z.leb_gt _ _) Hsize). cbn [negb res_assert].
  pose proof (valid_answer c b h q Ha Hq) as Hval. pose proof (invalid_answer c b h q objects Ha Hq Hos) as Hinv.
  assert (forall status, IgnoreSolverFailures = true -> successful status = false ->
    exists r, failed IgnoreSolverFailures status = Ok r /\ (successful (fst r) = true -> solution_spec checked q objects (snd r))) as Hfail.
  { intros status Hi Hst. apply failed_ok; [done|]. cbn. by rewrite Hst. }
  destruct Hrun as [Hi|Hc].
  - destruct (child c h); try (by apply Hfail); [by eexists|].
    rewrite (surjective_pairing (vc_query c h)). destruct (Z.eqb_spec (fst (vc_query c h)) 0) as [E|_].
    + destruct (Hinv E) as (values & b' & -> & _ & _ & Hs). by eexists.
    + destruct (Z.eqb_spec (fst (vc_query c h)) 1) as [E|_]; [eexists; split; [done|]; intros _; by apply Hval|].
      destruct (_ =? 52); [by eexists|by apply Hfail].
  - destruct (Hc c h) as [->|[-> E]]; [by eexists|]. rewrite (surjective_pairing (vc_query c h)).
    destruct E as [E|[E|E]]; rewrite E; cbn [Z.eqb Pos.eqb].
    + destruct (Hinv E) as (values & b' & -> & _ & _ & Hs). by eexists.
    + eexists. split; [done|]. intros _. by apply Hval.
    + by eexists.
Qed.

Lemma stp_computeInitialValues_ok q objects :
  bool_stp_query q -> Forall stp_object objects -> objects_fit objects ->
  sholds stp_inv (computeInitialValues STP_solver q objects)
    (fun r => forall sol, r = Some sol -> solution_spec checked q objects sol).
Proof.
  intros Hq Hos Hfit s [Hb Hbase]. pose proof Hq as [(Hcs & Hwt & [Hst Ho] & Hd) Hw].
  cbn [computeInitialValues STP_solver STPSolver]. unfold stp_computeInitialValues.
  destruct (assert_constraints_ok (constraints q) (MkSTP (vc_push (vc s)) (builder s) FAILURE) [] (asserted (vc s)) Hb
    ltac:(apply asserted_push) Hcs) as (s1 & hs & -> & Hb1 & _ & Hhs & Ha1 & _).
  cbn [res_bind snd].
  destruct (construct_expr_ok UseConstructHash optimizeDivides checked itostr node_address node_address_ok (query_expr q) (builder s1) Hwt Hst Hb1)
    as (h & b & -> & Hb' & He & _ & Hh). cbn [res_bind].
  assert (asks (vc s1) b h q) as Ha.
  { split; [done|]. split; [done|]. exists hs. split.
    - eapply Forall2_impl; [exact Hhs|]. intros x c Hx. by eapply extends_translates.
    - rewrite Ha1. transitivity ((rev hs ++ []) ++ mjoin (asserted (vc s))); [done|]. by rewrite Hbase, !app_nil_r. }
  assert (forall c, asserted c = asserted (vc s1) -> mjoin (asserted (vc_pop c)) = []) as Hpop.
  { intros c Hc. rewrite asserted_pop, Hc, Ha1. exact Hbase. }
  pose proof (runAndGetCexForked_ok (vc s1) b h q objects) as HF. pose proof (runAndGetCex_ok (vc s1) b h q objects) as HI.
  unfold objects_fit in Hfit. destruct useForkedSTP.
  - destruct (HF eq_refl Ha Hq Hos (Hfit eq_refl)) as (r & -> & Hr). cbn [res_bind].
    eexists _, _. split; [done|]. split; [split; [done|by apply Hpop]|].
    intros sol. destruct (successful (fst r)); [|done]. intros [= <-]. by apply Hr.
  - destruct (HI eq_refl Ha Hq Hos) as (status & sol & b' & -> & Hb'' & Hs). cbn [res_bind].
    eexists _, _. split; [done|]. split; [split; [done|apply Hpop, asserted_query]|]. by intros ? [= <-].
Qed.

Lemma stp_computeTruth_ok q :
  bool_stp_query q ->
  sholds stp_inv (computeTruth STP_solver q)
    (fun r => forall b, r = Some b -> if b then forced checked q 1 else feasible checked q 0).
Proof.
  intros Hq. eapply sholds_bind; [by apply (stp_computeInitialValues_ok q [])|].
  intros r Hr. apply sholds_ret. intros b Eb. destruct r as [sol|]; [|done]. specialize (Hr sol eq_refl).
  destruct sol as [values|]; injection Eb as <-; [|exact Hr]. destruct Hr as (ρ & Hs & H0 & _). by exists ρ.
Qed.

(** Symbolic arrays map 32-bit indices to bytes, as [Array] asserts. *)
Context (Hdom : small_domains) (Hbytes : byte_arrays).
Context (Hdom32 : forall os, isSymbolicArray (arrayAt os) = true -> domain (arrayAt os) = 32).
Context (Hopt : opt = true -> checked = true).

(** What a value can be asked of: a satisfiable path, and an expression that
    evaluates. *)
Definition value_query (q : Query) : Prop :=
  Forall stp_constraint (constraints q) /\ (exists ρ, sat ρ (constraints q)) /\
  wt (query_expr q) /\ evaluable checked (query_expr q) /\
  forall objects, findSymbolicObjects opt hash [query_expr q] [] = Ok objects -> objects_fit objects.

Lemma withFalse_stp q : Forall stp_constraint (constraints q) -> bool_stp_query (withFalse q).
Proof.
  intros Hcs. split; [|by apply width_const_alloc]. split_and!; [done|by apply wt_const_alloc|done|].
  intros ρ _. by eexists.
Qed.

Lemma mentioned_stp_object e os : wt e -> mentions os e -> stp_object os.
Proof.
  intros Hwt Hm. destruct (proj1 (mentions_wt_both os) e Hwt Hm) as [Ha Hs].
  assert (range (arrayAt os) = 8 /\ domain (arrayAt os) = 32) as [Hr Hd] by auto.
  split_and!; [done|split; lia|done|done].
Qed.

Lemma stp_computeValue_ok q :
  value_query q ->
  sholds stp_inv (computeValue STP_solver q) (fun r => forall e, r = Some e ->
    exists c, e = Constant c /\ getBitWidth c = getWidth (query_expr q) /\ feasible checked q (uval c)).
Proof.
  intros (Hcs & [ρ0 Hρ0] & Hwt & Hev & Hfit).
  destruct (findSymbolicObjects_ok opt hash [query_expr q]) as (objects & Eo & Hn & Hm); [by repeat constructor|].
  eapply (sholds_bind _ _ (fun x => x = objects)); [apply sholds_lift; by exists objects|]. intros ? ->.
  assert (Forall stp_object objects) as Hos.
  { apply Forall_forall. intros os Hin. apply Hm in Hin as (e & He & Hme).
    apply list_elem_of_singleton in He as ->. by eapply mentioned_stp_object. }
  eapply sholds_bind; [apply (stp_computeInitialValues_ok (withFalse q) objects); [by apply withFalse_stp|done|by apply Hfit]|].
  intros [sol|] Hsol; [|by apply sholds_ret]. specialize (Hsol sol eq_refl). destruct sol as [values|]; cycle 1.
  { exfalso. specialize (Hsol ρ0 Hρ0). cbn [withFalse query_expr withExpr] in Hsol. by rewrite denote_const_alloc in Hsol. }
  destruct Hsol as (ρ & Hs & _ & Hv). cbn [withFalse constraints withExpr] in Hs.
  destruct (Assignment_new_agrees checked Hbytes ρ [query_expr q] objects values) as (a & Ea & (Hfree & Hb & _) & He); try done.
  { by apply Forall_singleton. }
  apply Forall_cons_1 in He as [He _]. pose proof Hev as (Ht & _ & Hfo & _). destruct (Ht ρ) as [v Hd].
  destruct (evaluate_closed_ok opt checked Hopt hash a (query_expr q) v) as (c & Ec & Hw & Hu); try done; [by rewrite He|].
  eapply (sholds_bind _ _ (fun x => x = Constant c)).
  { apply sholds_lift. exists (Constant c). split; [|done]. by rewrite Ea. }
  intros ? ->. apply sholds_ret. intros e [= <-]. exists c. split_and!; [done|done|]. exists ρ. split; [done|]. by rewrite Hu.
Qed.
End correct.

(** ** Properties *)


(** ** A context that knows one interpretation *)
Module OneModel.

(* every array is 5 1 1 ... *)
Definition the_model : model := fun _ i => if i =? 0 then 5 else 1.

Definition evaluates (b : bool) (h : term) : bool :=
  match eval the_model h with Some (VBool b') => Bool.eqb b b' | _ => false end.

#[export] Instance context : @STPContext stp_terms := {|
  Ctx := list (list term);
  vc_push c := [] :: c;
  vc_pop := tail;
  vc_assertFormula c h := match c with top :: c => (h :: top) :: c | [] => [] end;
  vc_query c h :=
    (if forallb (evaluates true) (mjoin c) && evaluates false h then 0
     else match h with TBool true => 1 | _ => 52 end, c);
  vc_getCounterExample _ h := h;
  getBVUnsigned h := match eval the_model h with Some (VBV _ x) => x | _ => 0 end;
|}.

Lemma evaluates_spec b h : evaluates b h = true <-> @den stp_terms stp_terms_laws the_model h = Some (VBool b).
Proof.
  unfold evaluates. change (@den stp_terms stp_terms_laws the_model h) with (eval the_model h).
  destruct (eval the_model h) as [[b'| |]|]; try done. rewrite Bool.eqb_true_iff. split; [by intros ->|congruence].
Qed.

#[export] Instance context_laws : STPContextLaws context.
Proof.
  apply (Build_STPContextLaws stp_terms stp_terms_laws context (fun c => c)); try done.
  - intros c h s r ->. done.
  - intros c h _ _. cbn. destruct (_ && _); [done|]. intros E m _. destruct h as [|[]| | | | | | | | | | | | | | | |]; done.
  - intros c h _ _. cbn. destruct (_ && _) eqn:E; [|by destruct h as [|[]| | | | | | | | | | | | | | | |]].
    apply andb_prop in E as [Ec Eh]. intros _. exists the_model. split; [|split; [by apply evaluates_spec|]].
    + unfold models. rewrite Forall_forall. intros x Hx. apply evaluates_spec.
      rewrite forallb_forall in Ec. apply Ec. by apply list_elem_of_In.
    + intros e w x _ Hx. cbn. change (@den stp_terms stp_terms_laws the_model e) with (eval the_model e) in Hx. by rewrite Hx.
Defined.
(* nothing is asserted *)
Definition no_context : @Ctx stp_terms context := ([] : list (list term)).
End OneModel.

Section witnesses.
#[local] Existing Instance Examples.arrays.
Import Examples SolverExamples ScopeExamples STPExamples OneModel.

Definition empty_solver : STPSolverImpl := MkSTP no_context STPBuilder_new SUCCESS_SOLVABLE.

(* a[0] = 5 does not imply a[0] <> 5 *)
Definition refuted_query : Query := MkQuery [five] not_five.

Lemma refuted_query_ok : bool_stp_query false refuted_query.
Proof.
  assert (forall ρ, is_Some (denote false ρ five)) as Hd by (intros ρ; by eexists).
  split; [|done]. split_and!.
  - constructor; [|constructor]. split_and!; [exact five_wt|done| |exact Hd]. split; apply five_stp.
  - exact not_five_wt.
  - split; [by repeat split|]. intros ρ. by repeat split.
  - intros ρ _. by eexists.
Qed.

End witnesses.
