(* ===== verification/STPScope.v ===== *)
(** The expressions that are translated for STP, as a [Scope] of [Solver.v], and
    the contract of [STPSolver] for them: the constructors the solvers derive
    queries with keep expressions translatable, so that the layers of the chain
    compose with the core solver. *)
From Stdlib Require Import ZArith Lia Bool String.
From stdpp Require Import base list numbers option strings gmap sets.
From S2P Require Import Prelude Bits APInt Expr ExprCreate ExprSem ExprCompare ExprCreateCorrect ExprFactory ExprVisitor ExprReads ExprEval ExprClosed ExprUtil Solver SolverScope StagedSolver CachingSolver MapOfSets CexCachingSolver Independence IndependentSolver ValidatingSolver SolverChain STP STPBuilder STPWords STPBuilderInv STPBuilderCorrect STPModels STPSolver.
Open Scope Z_scope.

(** ** Translatable expressions *)
Section scope.
Context {A : APInt} {L : APIntLaws A} {AR : Arrays}.
Context (opt checked : bool).

Notation stp_ok := (stp_ok checked).

(** The nodes of translatable expressions. *)
Definition stp_node (k : BinKind) (l r : expr) : Prop :=
  stp_binary k l r /\
  forall ρ, k = AShr -> forall x y, denote checked ρ l = Some x -> denote checked ρ r = Some y ->
    y < getWidth l \/ 0 <= signed (getWidth l) x.

#[export] Instance stp_ok_closed : CreateClosed false stp_node stp_ok.
Proof.
  split; unfold STPSolver.stp_ok, stp_node; cbn [stp_typed no_overshift]; try done.
  - intros k l r Hk. split; [by destruct k|]. intros ρ ->. done.
  - intros k l r. split.
    + intros [(Hb & Hl & Hr) Ho]. split_and!; try done; intros ρ; destruct (Ho ρ) as (? & ? & ?); assumption.
    + intros ([Hl Hol] & [Hr Hor] & _ & Hb & Hs). split; [done|]. intros ρ. split; [exact (Hs ρ)|by split].
  - intros root u i [(_ & _ & Hi) Ho]. split; [done|]. intros ρ. by apply (Ho ρ).
Qed.

Lemma stp_derived k e c : derived k c -> operands_ok (node:=stp_node) k e (Constant c).
Proof. by destruct k. Qed.

Lemma stp_ok_create e k c e' :
  stp_ok e -> derived k c -> BinaryExpr_create opt k e (Constant c) = Ok e' -> stp_ok e'.
Proof.
  intros He Hk E. apply (BinaryExpr_create_closed opt stp_ok k e (Constant c)); [done|by split|by apply stp_derived|done].
Qed.

(** The arrays whose values are read all fit in the shared memory. *)
Context (useForkedSTP : bool).
Context (Hfit : forall objects, NoDup objects -> Forall (fun os => wt_array (arrayAt os)) objects -> objects_fit useForkedSTP objects).

Definition stp_scope : Scope opt checked := {|
  good := stp_ok;
  good_false := conj I (fun _ => I);
  good_create e k c e' _ He Hk E _ := stp_ok_create e k c e' He Hk E;
  good_objects := objects_fit useForkedSTP;
  good_objects_once := Hfit;
|}.
End scope.

(** ** The contract of STPSolver *)

(** Arrays map 32-bit indices to bytes, as everywhere in the executor. *)
Definition byte_memory `{AR : Arrays} : Prop := forall os, domain (arrayAt os) = 32 /\ range (arrayAt os) = 8.

Section contract.
Context {A : APInt} {L : APIntLaws A} {AR : Arrays} {T : STP} {TL : STPLaws T} {C : STPContext} {CL : STPContextLaws C}.
Context (UseConstructHash optimizeDivides opt hash checked : bool) (itostr : Z -> string).
Context (node_address : nat -> positive * updates -> positive).
Context (node_address_ok : one_node_per_address node_address) (Hunique : unique_names itostr).
Context (useForkedSTP IgnoreSolverFailures : bool) (child : Ctx -> VCExpr -> child_end).
Context (Hrun : if useForkedSTP then IgnoreSolverFailures = true \/ children_succeed child else answers_in_process).
Context (Hopt : opt = true -> checked = true) (Hmem : byte_memory).
Context (Hfit : forall objects, NoDup objects -> Forall (fun os => wt_array (arrayAt os)) objects -> objects_fit useForkedSTP objects).

#[local] Instance scope_of_stp : Scope opt checked := evaluable_within opt checked (stp_scope opt checked useForkedSTP Hfit).

Notation solver := (STP_solver UseConstructHash optimizeDivides opt hash itostr node_address useForkedSTP IgnoreSolverFailures child).
Notation stp_inv := (stp_inv checked itostr node_address).

Lemma memory_bytes : byte_arrays.
Proof. intros os _. apply Hmem. Qed.

Lemma memory_domains : small_domains.
Proof. intros os. destruct (Hmem os) as [-> _]. lia. Qed.

Lemma scope_constraints q : query_wf checked q -> Forall (stp_constraint checked) (constraints q).
Proof.
  intros (Hcs & _ & _ & Hg & _). rewrite Forall_forall in Hcs, Hg |- *. intros c Hc.
  destruct (Hcs c Hc), (Hg c Hc) as [[(Ht & _) Hs] _]. by split_and!.
Qed.

Lemma scope_query q : bool_wf checked q -> bool_stp_query checked q.
Proof.
  intros [Hq Hw]. split; [|done]. pose proof (scope_constraints q Hq). destruct Hq as (_ & Hwt & Hd & _ & _ & Hs).
  by split_and!.
Qed.

Lemma scope_objects objects : objects_ok objects -> Forall stp_object objects /\ objects_fit useForkedSTP objects.
Proof.
  intros [Ho Hf]. split; [|exact Hf]. rewrite Forall_forall in Ho |- *. intros os Hos. destruct (Ho os Hos) as [Ha _].
  destruct (Hmem os) as [Hd Hr]. split_and!; [done|split; lia|done|done].
Qed.

Lemma scope_value q : query_ok checked q -> value_query opt hash checked useForkedSTP q.
Proof.
  intros [Hq Hs]. pose proof (scope_constraints q Hq) as Hcs. pose proof Hq as (_ & Hwt & _ & _ & Hev & _).
  split_and!; try done. intros objects E.
  destruct (findSymbolicObjects_ok opt hash [query_expr q]) as (objects' & E' & Hn & Hm); [by repeat constructor|].
  rewrite E in E'. injection E' as <-. apply Hfit; [done|]. apply Forall_forall. intros os (e & He & Hme)%Hm.
  apply list_elem_of_singleton in He as ->. exact (proj1 (proj1 (mentions_wt_both os) _ Hwt Hme)).
Qed.

Lemma STPSolver_contract : SolverContract checked solver stp_inv.
Proof.
  pose proof (stp_computeTruth_ok UseConstructHash optimizeDivides opt hash checked itostr node_address node_address_ok Hunique
    useForkedSTP IgnoreSolverFailures child Hrun) as Htruth.
  assert (forall os, isSymbolicArray (arrayAt os) = true -> domain (arrayAt os) = 32) as H32 by (intros os _; apply Hmem).
  split.
  - intros q Hq. apply Htruth, scope_query. by apply (bool_query_wf opt checked).
  - apply (default_computeValidity_ok opt checked Hopt). intros q Hq. apply Htruth, scope_query. by apply (bool_query_wf opt checked).
  - intros q Hq. by apply (stp_computeValue_ok UseConstructHash optimizeDivides opt hash checked itostr node_address node_address_ok Hunique
      useForkedSTP IgnoreSolverFailures child Hrun memory_domains memory_bytes H32 Hopt), scope_value.
  - intros q objects Hq _ [Ho Hf]%scope_objects.
    by apply (stp_computeInitialValues_ok UseConstructHash optimizeDivides opt hash checked itostr node_address node_address_ok Hunique
      useForkedSTP IgnoreSolverFailures child Hrun); [apply scope_query| |].
Qed.
End contract.

(** ** Properties *)

(** C12. The caching layers over [STPSolver]: the counterexample cache, the
    query cache and the independence solver, each switched on or off, over
    [STPSolver] in a child process or in this one.  The start state satisfies
    an invariant under which every query of the scope about truth, validity,
    values and initial values keeps the invariant and is answered correctly
    whenever it is answered.  The scope are the queries of the contract, under
    satisfiable constraints ([query_ok]), whose expressions are evaluable
    ([evaluable_within]: a value in every environment, reads within their
    arrays), of handled kinds and, in no environment, shift a negative number
    arithmetically by its width or more ([stp_scope]); queries the layers derive
    from such queries are in it again.  The conditions on the run are those of
    [stp_solver_correct]: the generated names of distinct arrays are distinct,
    no address of an update node is used again while its table lives,
    in-process queries are decided, children succeed unless failures are
    ignored, all arrays map 32-bit indices to bytes and, in a child process,
    fit in the shared memory together, and STP behaves as documented.  Where
    the code does not ensure a condition, [Clash], [Reuse] and the shift of
    [no_overshift] are where an answer can be wrong. *)
Theorem klee_solver_correct `{A : APInt} {L : APIntLaws A} {AR : Arrays} {T : STP} {TL : STPLaws T}
    {C : STPContext} {CL : STPContextLaws C} (UseConstructHash optimizeDivides opt hash checked : bool)
    (itostr : Z -> string) (node_address : nat -> positive * updates -> positive)
    (useForkedSTP IgnoreSolverFailures : bool) (child : Ctx -> VCExpr -> child_end)
    (all super exp debug hasSolution cex branch indep : bool) (c0 : Ctx) :
  one_node_per_address node_address -> unique_names itostr ->
  (if useForkedSTP then IgnoreSolverFailures = true \/ children_succeed child else answers_in_process) ->
  (opt = true -> checked = true) -> byte_memory -> asserted c0 = [] ->
  forall Hfit : (forall objects, NoDup objects -> Forall (fun os => wt_array (arrayAt os)) objects ->
    objects_fit useForkedSTP objects),
  let core := STP_solver UseConstructHash optimizeDivides opt hash itostr node_address useForkedSTP IgnoreSolverFailures child in
  let chain := constructSolverChain opt hash all super exp debug hasSolution false cex branch indep false core in
  exists Inv, Inv (chain_start chain (MkSTP c0 STPBuilder_new SUCCESS_SOLVABLE)) /\
    SolverContract (SC:=evaluable_within opt checked (stp_scope opt checked useForkedSTP Hfit)) checked (chain_impl chain) Inv.
Proof.
  intros Hsame Hu Hrun Hopt Hmem H0 Hfit core chain.
  destruct (caching_layers_ok opt checked Hopt (memory_domains Hmem) (memory_bytes Hmem) core (stp_inv checked itostr node_address)
    (SC:=stp_scope opt checked useForkedSTP Hfit) hash all super exp debug hasSolution cex branch indep) as (I & Hc & Hs & _).
  { by apply STPSolver_contract. }
  exists I. split; [|exact Hc]. apply Hs. split; [apply empty_builder_ok|]. cbn [vc]. by rewrite H0.
Qed.

(** ** A store of one array *)
Module OneArray.
#[export] Instance arrays : @Arrays bv_apint := fun p =>
  match p with
  | 1%positive => Array "a" 16 32 8 []
  | _ => Array "z" 0 32 8 []
  end.

Lemma one_memory : byte_memory.
Proof. intros os. by destruct os. Qed.

Lemma one_unique_names : unique_names decimal.
Proof. apply one_letter_names. intros root. destruct root; by eexists. Qed.

Lemma one_fit objects :
  NoDup objects -> Forall (fun os => wt_array (arrayAt os)) objects -> objects_fit true objects.
Proof.
  intros Hn _ _. unfold objects_size, shared_memory_size.
  assert (forall sum, 0 <= sum <= 16 -> (1%positive ∈ objects -> sum = 0) ->
    fold_left (fun sum object => wrap 32 (sum + size (arrayAt object))) objects sum <= 16) as H.
  { induction Hn as [|os objects Hos Hn IH]; intros sum Hs H1; cbn [fold_left]; [lia|].
    destruct (decide (os = 1%positive)) as [->|Hne].
    - rewrite H1 by (by left). apply IH; [by vm_compute|done].
    - assert (size (arrayAt os) = 0) as -> by (by destruct os).
      rewrite Z.add_0_r, wrap_small by lia. apply IH; [done|]. intros Hin. apply H1. by right. }
  specialize (H 0 ltac:(lia) ltac:(done)). lia.
Qed.
End OneArray.

Section witnesses.
Import OneArray OneModel.

Lemma klee_solver_correct_witness :
  let core := STP_solver true true false true decimal sample_address true true (fun _ _ => Exited) in
  let chain := constructSolverChain false true true true false false false false true true true false core in
  exists Inv, Inv (chain_start chain (MkSTP no_context STPBuilder_new SUCCESS_SOLVABLE)) /\
    SolverContract (SC:=evaluable_within false false (stp_scope false false true one_fit)) false (chain_impl chain) Inv.
Proof.
  apply (klee_solver_correct true true false true false decimal sample_address true true (fun _ _ => Exited)
    true true false false false true true true no_context).
  - exact sample_address_ok.
  - exact one_unique_names.
  - by left.
  - done.
  - exact one_memory.
  - done.
Defined.
End witnesses.
